(* ===== verification/_CoqProject ===== *)
-Q . S2P
Prelude.v
Utf8.v
Paths.v
Core.v
External.v
AuditLog.v
Remediation.v
Disk.v
QuarantineStore.v
StoreSafety.v
Trust.v
Bundle.v
ContentState.v
Update.v
Fsio.v
Archive.v
Scanner.v
Signatures.v
Heuristics.v
HeuristicScan.v
Chars.v
Sddl.v
SystemFs.v
SystemCtx.v
Persistence.v
SystemLive.v
Packages.v
SystemChecks.v
SystemLaws.v
SystemExamples.v
WinRules.v
WinChecks.v
WinLaws.v
WinExamples.v
WinPaths.v
WinDisk.v
WinStore.v
WinStoreLaws.v
WinStoreOthers.v
WinStoreProps.v
Aggregate.v
ScanRun.v
Ipc.v
ServiceConfig.v
Jobs.v
Server.v
ServiceRun.v
Yara.v
YaraProps.v
LoadContent.v
LoadContentProps.v
ScanCommand.v
Publish.v
PublishProps.v
