(* ===== verification/Prelude.v ===== *)
(** * Abyssal Warden: a verification library

    Abyssal Warden is an antivirus scanner written in Rust: an engine that
    walks directories and evaluates files, signed content (keys, bundles,
    updates) that tells it what to look for, a quarantine store with a
    tamper-evident audit log, and a privileged service that runs scans for
    local users. This library translates that code into Rocq definitions and
    proves what makes it correct. Paths below are relative to [src/crates].

    ** Conventions

    - The target is Linux ([cfg(unix)]), except in Sddl and in the files
      whose names start with Win, which model code for Windows.
    - Unsigned machine integers are [N], with wrap-around and saturation
      written where the code can reach them; signed ones and times
      (nanoseconds) are [Z].
    - Rust strings are [string]s of UTF-8 octets (Utf8.v has the characters,
      with invalid octets for paths and lossy decoding); octet vectors are
      [list N].
    - Fallible code returns [result E A] (below); mutable state is passed
      explicitly or through a small state monad where the code threads it.
    - Code that is not in the repository is a parameter: External.v has the
      classes for JSON, SHA-256, Ed25519, Unicode tables, base64 and time
      formatting; the zip crate is a parameter of Archive.v, object and regex
      of the heuristics, yara-x of Yara.v. Their documented behaviour is stated as class laws or
      named hypotheses where a theorem needs it, and every such theorem has a
      witness with concrete instances.
    - What the environment answers (the kernel, clocks, other threads) is an
      input: scripts of outcomes, one per call, so that theorems quantify over
      all failures, and lists of turns or events, so that they quantify over
      all interleavings.

    ** The files

    - Prelude: results, formatting, list, option and integer lemmas, the
      [warden] rewrite database.
    - Utf8, Paths: decoding of UTF-8 as [str] and [String::from_utf8_lossy] do
      it, [Path] components, joins and prefixes.
    - Core: core/src ([digest.rs], [text.rs], [path.rs], [finding.rs],
      [report.rs], [config.rs]), the vocabulary of every other part.
    - External: the classes of the libraries the code calls.
    - AuditLog: remediation/src/[audit.rs], [anchors.rs]: the hash-chained log
      and its comparison with the anchors the system journal holds.
    - Remediation: remediation/src/[record.rs], [common.rs], [allowlist.rs],
      [policy.rs], [report.rs]: which findings are quarantined, records, the
      request sent to the store.
    - Disk: a file system with directories, inodes, durable and volatile
      content, system calls that fail as a script says, and power loss.
    - QuarantineStore, StoreSafety: remediation/src/[linux.rs],
      [linux/processes.rs] over Disk, and the argument that no data is lost.
    - WinPaths, WinDisk, WinStore: remediation/src/[windows.rs] with the
      Windows sides of [common.rs], [policy.rs] and core/src/[path.rs], over a
      file system whose names reach the disk in the order of the calls; the
      answers of Windows are the class [WinSys]. WinStoreLaws, WinStoreOthers,
      WinStoreProps: that no data is lost there either, neither of the item nor
      of other files, and what the store does not do.
    - Trust: engine/src/[trust.rs]: keys, keyrings, signatures.
    - Bundle: engine/src/[bundle.rs]: manifests and their verification.
    - ContentState: engine/src/[freshness.rs], [content_state.rs]: timestamps,
      rollback protection, and the atomic save of the state (over Disk).
    - Update: update/src/[lib.rs]: download, verification, swap, recovery.
    - Fsio: engine/src/[fsio.rs]: hardened opening and reading of one file.
    - Archive: engine/src/[archive.rs]: expansion within limits.
    - Scanner: engine/src/[scanner.rs], evaluation of one file by detectors.
    - Aggregate: [scanner.rs], targets, walk, aggregation into a report.
    - ScanRun: [scanner.rs], walker, workers, watchdog and coordinator as a
      step relation over their queue and channel.
    - Signatures: engine/src/[signatures.rs], the hash database and detector.
    - Heuristics, HeuristicScan: heuristics/src, rules and analyses.
    - Chars: operations of [str] over lists of characters, for the parsers of
      configuration files.
    - Sddl: winsec/src/[sddl.rs], with the text that Windows writes for an
      object and its access check on the object as the specification.
    - SystemFs: system/src/[fsx.rs], [users.rs]: reading below a root, with the
      kernel as the class [Kernel].
    - SystemCtx: core/src/[system.rs], system/src/[rules.rs],
      [heuristics.rs], [ctx.rs]: the results, the catalogue, what a command
      starts, and the state that the checks share, as the monad [Ctx.M].
    - Persistence: system/src/[persistence], a Module per source file.
    - SystemLive: system/src/[tool.rs], [processes.rs], [kernel.rs],
      [boot.rs], [ebpf.rs], over the class [Machine].
    - Packages: system/src/[packages.rs]; SystemChecks: system/src/[lib.rs].
    - SystemLaws, SystemExamples: what single checks find; a small image on
      which the theorems apply, and inputs that escape the checks.
    - WinRules, WinChecks: system/src/[winrules.rs], [windows.rs], over the
      class [Host] of the registry, files and environment; WinLaws,
      WinExamples: what they promise, a small registry, and what escapes.
    - Ipc: ipc/src: requests, replies, frames and the access policy.
    - ServiceConfig: service/src/[config.rs], [accounts.rs] and the times of
      [schedule.rs].
    - Jobs: service/src/[store.rs], [runner.rs], [jobs.rs].
    - Server: service/src/[server.rs], [audit.rs], the rest of [schedule.rs].
    - ServiceRun: the service as a state machine over Server and Jobs.
    - Yara, YaraProps: yara/src/[lib.rs]: compiling rules, their metadata, and
      the findings of a match, with the yara-x engine as the class [YaraX].
    - LoadContent, LoadContentProps: cli/src/[content.rs], [paths.rs] and
      [load_detectors] of [main.rs]: from options, keys, bundles and files to
      the detectors of a scan.
    - ScanCommand: cli/src/[main.rs], [quarantine.rs]: the scan command with
      its exit code, the quarantine commands.
    - Publish, PublishProps: cli/src/[content_cmd.rs], [content_import.rs]:
      making bundles, timestamps, databases and sets of rules.

    Each file has one Module per source file or group, and a last Module
    [...Props] with the theorems about it and their instances.

    ** How the parts meet

    The scanner (ScanRun) runs workers that call [process_file] (Scanner),
    which reads with Fsio, hands content to detectors (the [Detector]
    interface that Signatures, HeuristicScan and Yara implement) and to Archive
    through its visitor; results flow to Aggregate. Bundles (Bundle) are
    accepted under Trust and ContentState, and Update composes the three.
    Remediation turns a report into requests for QuarantineStore, which
    appends to AuditLog. The system checks (SystemChecks) run one after the
    other on one shared state; each is shown to act on it only in the ways of
    [Acts.act], from which the theorems about a whole run follow. The service (Server, Jobs) is proved against the
    interface [QuarantineOps], starts children with [Runner] and remediates
    with Remediation. A scan from the command line is the composition of all
    this: LoadContent makes the detectors from Trust, Bundle and ContentState,
    saving the state over Disk, and ScanCommand scans with them and hands the
    report to Remediation and the store. Publish makes what Bundle and Update
    accept.

    ** What the theorems show

    - Quarantine: whatever fails and whenever power is lost, the content of a
      file being quarantined survives on disk, on Linux and on Windows, and
      there also that of a file being restored and of every other file; the
      automatic policy sends exactly the eligible findings.
    - Audit: an appended log verifies, unless the new line is over-long; two
      verified logs that share an entry share everything before it, and a log
      consistent with delivered anchors contains the anchored log, unless two
      lines of the logs at hand collide under SHA-256.
    - Content: what loads is signed to the threshold by valid keys for that
      role; revocation is permanent and keyrings only restrict; the sequences of
      bundles and the versions of timestamps never go back; saves are atomic; an interrupted update
      leaves a whole bundle. Every detector of a scan comes from content that
      valid keys vouch for, or that the user allowed unsigned, and the bundles
      of a run are recorded all or none. What is published loads: a directory
      that becomes a bundle, once signed, is read back by the client file by
      file, and a timestamp for it is accepted.
    - Scanning: opens follow no links; a file reported is accounted for by every
      detector, and its archive members too unless a limit is reported; archive
      expansion is bounded and reports every member; the report and its
      warnings refine the observations; a completed scan accounts for every queued file.
    - Detection: a database that loads satisfies its rules and its index is
      equivalent to searching its signatures; no heuristic claims certainty or
      asks for quarantine; each matching rule gives one finding with its
      metadata, never certain. The exit code of a scan tells exactly what was
      found and whether the scan was stopped or met an issue; skipped entries
      do not count for it.
    - System checks: findings come from the catalogue, once each, and are never
      quarantined automatically; every check is reported; a recorded
      issue or a cancellation shows in the status of a check; another root is inspected without looking at
      the host; hidden processes, changeable programs, modified packages, cron
      jobs and forced commands are found exactly as specified. On Windows,
      the entries of the inspected places that can be opened are listed and
      reported within the limits, and a task file in the layout of the task
      scheduler is read as it was written.
    - Service: unprivileged jobs run confined; users cannot see or change
      what is not theirs; jobs move only forward; queued jobs are served or cancelled by who may; the
      configuration it runs with passed every check.

    Theorems that show a defect are named in the manifest's findings, each
    with an instance that exhibits it.

    ** Fuel and bounds

    Recursion is structural wherever the code loops over data. Loops that wait
    on the environment recurse over the list of its answers and return [None]
    when the list ends first; for each there is a theorem or lemma that enough
    answers give a result ([read_file_returns], [run_ends], the liveness
    theorem of ServiceRun). Archive nesting takes fuel [enough], the depth
    limit plus one, and [expansion_bounded] shows it suffices. The walk of
    /boot takes as fuel a bound on the directories below it; with more
    ([boot_walk_returns]) its outcome does not depend on it. Loops over a text
    take a round for each character ([elements_fuel] and the lemmas after it),
    the walk over the task folders one for each directory
    ([task_walk_exact]).

    ** Not modelled

    The API calls of winsec (two that the Windows store makes are in WinDisk
    and WinStore), the graphical front end, and of the command line the parsing
    of arguments, printing, and the service, system and update commands, which
    call the libraries modelled here; start-up and signal handling of the
    daemon; log lines and progress callbacks; examples and fuzz targets. The Windows store runs alone on its files, which the code
    ensures by its lock and by opening the original without sharing. The
    system checks are modelled on files that do not change while they run
    (readings of /proc and /sys that the code compares are distinct), and the
    threads of the PID sweep one after the other, as they share nothing they
    write. The libraries themselves (cryptography, JSON, zip, regular
    expressions, YARA, ELF and PE parsing) are parameters. *)

From Stdlib Require Export ZArith NArith Ascii String Lia ZifyBool.
From stdpp Require Export base tactics option list list_numbers numbers strings gmap fin_maps sorting pretty.

#[global] Set Default Goal Selector "!".
Declare Scope warden_scope.
Delimit Scope warden_scope with warden.
#[global] Open Scope N_scope.

(** ** Results *)

(** Rust's [Result<A, E>]. *)
Inductive result (E A : Type) : Type :=
  | Ok (a : A)
  | Err (e : E).
Arguments Ok {E A} a.
Arguments Err {E A} e.

#[global] Instance result_ret E : MRet (result E) := λ A a, Ok a.
#[global] Instance result_bind E : MBind (result E) := λ A B f m,
  match m with Ok a => f a | Err e => Err e end.

Definition map_err {E F A} (f : E → F) (r : result E A) : result F A :=
  match r with Ok a => Ok a | Err e => Err (f e) end.

(** [r.map(f)] *)
Definition map_ok {E A B} (f : A → B) (r : result E A) : result E B :=
  match r with Ok a => Ok (f a) | Err e => Err e end.

Definition is_ok {E A} (r : result E A) : bool :=
  match r with Ok _ => true | Err _ => false end.

Definition ok_or {E A} (o : option A) (e : E) : result E A :=
  match o with Some a => Ok a | None => Err e end.

(** [if guard { return Err(e) }]: stop with [e] when the guard holds. *)
Definition reject_if {E} (guard : bool) (e : E) : result E unit :=
  if guard then Err e else Ok tt.

Lemma result_bind_Ok {E A B} (m : result E A) (f : A → result E B) b :
  (m ≫= f) = Ok b ↔ ∃ a, m = Ok a ∧ f a = Ok b.
Proof. destruct m; naive_solver. Qed.

(** A check followed by the rest. *)
Lemma result_then_Ok {E B} (m : result E unit) (f : unit → result E B) b :
  (m ≫= f) = Ok b ↔ m = Ok tt ∧ f tt = Ok b.
Proof. destruct m as [[]|]; naive_solver. Qed.

Lemma result_bind_Err {E A B} (m : result E A) (f : A → result E B) e :
  (m ≫= f) = Err e ↔ m = Err e ∨ ∃ a, m = Ok a ∧ f a = Err e.
Proof. destruct m; naive_solver. Qed.

Lemma reject_if_Ok {E} g (e : E) u : reject_if g e = Ok u ↔ g = false.
Proof. destruct g, u; naive_solver. Qed.

Lemma reject_if_Err {E} g (e e' : E) : reject_if g e = Err e' ↔ g = true ∧ e = e'.
Proof. destruct g; naive_solver. Qed.

Lemma reject_pass {E A} g (e : E) (f : unit → result E A) :
  g = false → (reject_if g e ≫= f) = f tt.
Proof. by intros ->. Qed.

Lemma ok_or_Ok {E A} (o : option A) (e : E) a : ok_or o e = Ok a ↔ o = Some a.
Proof. destruct o; naive_solver. Qed.

Lemma map_err_Ok {E F A} (f : E → F) (r : result E A) a : map_err f r = Ok a ↔ r = Ok a.
Proof. destruct r; naive_solver. Qed.

(** The first failing element of a list of checks run in order
    ([for x in xs { check(x)?; }]). *)
Fixpoint check_all {E A} (f : A → result E unit) (xs : list A) : result E unit :=
  match xs with
  | [] => Ok tt
  | x :: xs => _ ← f x; check_all f xs
  end.

Lemma check_all_Ok {E A} (f : A → result E unit) xs u :
  check_all f xs = Ok u ↔ Forall (λ x, f x = Ok tt) xs.
Proof.
  destruct u. induction xs as [|x xs IH]; simpl; [split; [constructor|done]|].
  rewrite result_bind_Ok, Forall_cons, <-IH. split.
  - intros ([] & ? & ?); auto.
  - intros [? ?]; eauto.
Qed.

(** Decompose a successful or failed chain of checks in the context. *)
Ltac inv_result :=
  repeat match goal with
  | H : (_ ≫= _) = Ok _ |- _ => apply result_bind_Ok in H; destruct H as (? & ? & H)
  | H : reject_if _ _ = Ok _ |- _ => apply reject_if_Ok in H
  | H : reject_if _ _ = Err _ |- _ => apply reject_if_Err in H; destruct H as [H ?]; subst
  | H : ok_or _ _ = Ok _ |- _ => apply ok_or_Ok in H
  | H : map_err _ _ = Ok _ |- _ => apply map_err_Ok in H
  | H : check_all _ _ = Ok _ |- _ => apply check_all_Ok in H
  | H : mret _ = Ok _ |- _ => unfold mret, result_ret in H
  | H : mret _ = Err _ |- _ => unfold mret, result_ret in H
  | H : Ok _ = Ok _ |- _ => injection H as H
  | H : Err _ = Err _ |- _ => injection H as H
  | H : Ok _ = Err _ |- _ => discriminate H
  | H : Err _ = Ok _ |- _ => discriminate H
  | u : unit |- _ => destruct u
  end.

(** ** Machine integers *)

(** Unsigned integers are [N]; these are the bounds the code relies on. *)
Definition u32_max : N := 2 ^ 32 - 1.
Definition u64_max : N := 2 ^ 64 - 1.

(** [a - b] on [u64] in a release build: wraps around below zero. *)
Definition wrapping_sub64 (a b : N) : N := (a + (2 ^ 64 - b mod 2 ^ 64)) mod 2 ^ 64.

(** [a.saturating_add(b)] on [u64]. *)
Definition saturating_add64 (a b : N) : N := N.min (a + b) u64_max.

Lemma wrapping_sub64_le a b :
  a < 2 ^ 64 → b ≤ a → wrapping_sub64 a b = a - b.
Proof.
  intros Ha Hb. unfold wrapping_sub64.
  rewrite (N.mod_small b) by lia.
  replace (a + (2 ^ 64 - b)) with ((a - b) + 1 * 2 ^ 64) by lia.
  rewrite N.Div0.mod_add. apply N.mod_small. lia.
Qed.

(** ** Bytes and strings *)

(** A byte string; a byte is an [N] below 256. *)
Abbreviation bytes := (list N).
Definition is_byte (b : N) : Prop := b < 256.

(** A Rust [&str] is its UTF-8 encoding, held as a [string] of octets. *)
Definition as_bytes (s : string) : bytes := N_of_ascii <$> list_ascii_of_string s.
Definition of_bytes (bs : bytes) : string := string_of_list_ascii (ascii_of_N <$> bs).

(** [s.len()] *)
Definition len (s : string) : N := N.of_nat (String.length s).
(** [v.len()] for a vector. *)
Definition vlen {A} (l : list A) : N := N.of_nat (length l).

(** The first [n] elements, counting in binary: the limits of the code are
    too large to be written in unary. *)
Fixpoint takeN {A} (n : N) (l : list A) : list A :=
  match l with [] => [] | x :: l => if n =? 0 then [] else x :: takeN (N.pred n) l end.

Definition is_ascii_digit (b : N) : bool := (48 <=? b) && (b <=? 57).
Definition is_ascii_upper (b : N) : bool := (65 <=? b) && (b <=? 90).
Definition is_ascii_lower (b : N) : bool := (97 <=? b) && (b <=? 122).
Definition is_ascii_alphanumeric (b : N) : bool :=
  is_ascii_digit b || is_ascii_upper b || is_ascii_lower b.
Definition is_ascii_hexdigit (b : N) : bool :=
  is_ascii_digit b || ((65 <=? b) && (b <=? 70)) || ((97 <=? b) && (b <=? 102)).
Definition to_upper_byte (b : N) : N := if is_ascii_lower b then b - 32 else b.
Definition to_lower_byte (b : N) : N := if is_ascii_upper b then b + 32 else b.

(** [s.to_ascii_uppercase()], [s.to_ascii_lowercase()] and
    [a.eq_ignore_ascii_case(b)]. *)
Definition to_ascii_uppercase (s : string) : string := of_bytes (to_upper_byte <$> as_bytes s).
Definition to_ascii_lowercase (s : string) : string := of_bytes (to_lower_byte <$> as_bytes s).
Definition eq_ignore_ascii_case (a b : string) : bool :=
  bool_decide (to_lower_byte <$> as_bytes a = to_lower_byte <$> as_bytes b).

(** [s.contains(c)] for a one-byte character. *)
Definition contains_byte (c : N) (s : string) : bool := existsb (N.eqb c) (as_bytes s).

(** [s.split(c)] for a one-byte separator: always at least one piece. *)
Fixpoint split_on (sep : ascii) (s : string) : list string :=
  match s with
  | EmptyString => [EmptyString]
  | String c r =>
      if bool_decide (c = sep) then EmptyString :: split_on sep r
      else match split_on sep r with
           | h :: t => String c h :: t
           | [] => [String c EmptyString]
           end
  end.

(** [s.strip_prefix(p)] and [s.starts_with(p)]. *)
Fixpoint strip_prefix (p s : string) : option string :=
  match p, s with
  | EmptyString, _ => Some s
  | String a p', String b s' => if bool_decide (a = b) then strip_prefix p' s' else None
  | String _ _, EmptyString => None
  end.
Definition str_starts_with (s p : string) : bool := bool_decide (is_Some (strip_prefix p s)).

Lemma strip_prefix_Some p s r : strip_prefix p s = Some r ↔ s = (p +:+ r)%string.
Proof.
  revert s. induction p as [|a p IH]; intros s; simpl; [naive_solver|].
  destruct s as [|b s]; simpl; [done|]. case_bool_decide as Hab.
  - rewrite IH. subst. split; [by intros ->|by intros [= ->]].
  - split; [done|]. by intros [= -> _].
Qed.

Lemma starts_with_spec s p : str_starts_with s p = true ↔ ∃ r, s = (p +:+ r)%string.
Proof.
  unfold str_starts_with. rewrite bool_decide_eq_true. split.
  - intros [r Hr]. exists r. by apply strip_prefix_Some.
  - intros [r Hr]. exists r. by apply strip_prefix_Some.
Qed.

Lemma append_assoc (a b c : string) : ((a +:+ b) +:+ c = a +:+ (b +:+ c))%string.
Proof. induction a; simpl; [done|]. unfold String.app in *. simpl. congruence. Qed.

(** A text that starts with [p ++ q] starts with [p]. *)
Lemma starts_with_app s p q : str_starts_with s (p +:+ q)%string = true → str_starts_with s p = true.
Proof.
  rewrite !starts_with_spec. intros [r ->]. exists (q +:+ r)%string. apply append_assoc.
Qed.

Lemma of_as_bytes s : of_bytes (as_bytes s) = s.
Proof.
  unfold of_bytes, as_bytes. rewrite <-list_fmap_compose.
  rewrite (list_fmap_ext _ id _ (λ _ x _, ascii_N_embedding x)), list_fmap_id.
  apply string_of_list_ascii_of_string.
Qed.

Lemma as_of_bytes bs : Forall is_byte bs → as_bytes (of_bytes bs) = bs.
Proof.
  intros H. unfold of_bytes, as_bytes. rewrite list_ascii_of_string_of_list_ascii.
  induction H as [|b bs Hb _ IH]; csimpl; [done|].
  by rewrite IH, N_ascii_embedding.
Qed.

Lemma as_bytes_is_byte s : Forall is_byte (as_bytes s).
Proof. apply Forall_fmap, Forall_true. intros x. apply N_ascii_bounded. Qed.

Lemma as_bytes_inj s t : as_bytes s = as_bytes t → s = t.
Proof. intros H. by rewrite <-(of_as_bytes s), <-(of_as_bytes t), H. Qed.

Lemma length_as_bytes s : length (as_bytes s) = String.length s.
Proof.
  unfold as_bytes. rewrite length_fmap.
  induction s; simpl; congruence.
Qed.

Lemma length_of_bytes bs : String.length (of_bytes bs) = length bs.
Proof. unfold of_bytes. induction bs; csimpl; congruence. Qed.

Lemma of_bytes_app a b : of_bytes (a ++ b) = (of_bytes a +:+ of_bytes b)%string.
Proof. unfold of_bytes. rewrite fmap_app. induction a; csimpl; [done|by rewrite IHa]. Qed.

Lemma as_bytes_app s t : as_bytes (s +:+ t) = as_bytes s ++ as_bytes t.
Proof. unfold as_bytes. induction s; csimpl; [done|by rewrite IHs]. Qed.

Lemma split_on_nonempty sep s : split_on sep s ≠ [].
Proof. destruct s as [|c s]; simpl; [done|]. case_bool_decide; [done|]. by case_match. Qed.

(** ** Numbers as text *)

(** [n.to_string()]: decimal, without leading zeros. *)
Fixpoint dec_go (fuel : nat) (n : N) (acc : bytes) : bytes :=
  match fuel with
  | O => acc
  | S fuel =>
      let acc := 48 + n mod 10 :: acc in
      if n / 10 =? 0 then acc else dec_go fuel (n / 10) acc
  end.
(** Every decimal digit takes at least one binary digit, so this fuel is enough. *)
Definition dec_bytes (n : N) : bytes := dec_go (S (N.size_nat n)) n [].
Definition show_N (n : N) : string := of_bytes (dec_bytes n).

(** [s.parse::<u64>()]: an optional [+], then digits, without overflow. *)
Fixpoint parse_digits (acc : N) (l : bytes) : option N :=
  match l with
  | [] => Some acc
  | d :: l =>
      if is_ascii_digit d then
        let acc := acc * 10 + (d - 48) in
        if u64_max <? acc then None else parse_digits acc l
      else None
  end.
Definition parse_u64 (l : bytes) : option N :=
  match l with
  | [] => None
  | d :: r =>
      if d =? 43 then match r with [] => None | _ => parse_digits 0 r end
      else parse_digits 0 l
  end.

(** [format!]: every [{..}] group of the template is replaced by the next
    argument. *)
Fixpoint fmt_go (inside : bool) (t : string) (args : list string) : string :=
  match t with
  | EmptyString => EmptyString
  | String c t =>
      if inside then fmt_go (negb (bool_decide (c = "}"%char))) t args
      else if bool_decide (c = "{"%char)
      then match args with
           | a :: args => (a +:+ fmt_go true t args)%string
           | [] => fmt_go true t []
           end
      else String c (fmt_go false t args)
  end.
Definition fmt (t : string) (args : list string) : string := fmt_go false t args.
Arguments fmt t%_string_scope args%_list_scope : simpl never.
Arguments show_N n : simpl never.

Lemma digit_char n : is_ascii_digit (48 + n mod 10) = true.
Proof.
  pose proof (N.mod_lt n 10 ltac:(done)) as H. revert H. generalize (n mod 10).
  unfold is_ascii_digit. lia.
Qed.

Lemma dec_go_parse fuel n acc :
  n ≤ u64_max → n < 10 ^ N.of_nat fuel →
  parse_digits 0 (dec_go fuel n acc) = parse_digits n acc.
Proof.
  revert n acc. induction fuel as [|fuel IH]; intros n acc Hn Hf.
  { change (10 ^ N.of_nat 0) with 1 in Hf. by replace n with 0 by lia. }
  assert (n mod 10 < 10) as Hm by by apply N.mod_lt.
  pose proof (N.div_mod' n 10) as Hd.
  cbn [dec_go]. generalize dependent (n mod 10). generalize dependent (n / 10).
  intros q m Hm Hd.
  assert (∀ q', q' * 10 + m = n → parse_digits q' (48 + m :: acc) = parse_digits n acc)
    as Hstep.
  { intros q' Hq'. cbn [parse_digits].
    assert (is_ascii_digit (48 + m) = true) as -> by (unfold is_ascii_digit; clear - Hm; lia).
    cbn zeta. replace (q' * 10 + (48 + m - 48)) with n by lia.
    by rewrite (proj2 (N.ltb_ge _ n)) by lia. }
  destruct (N.eqb_spec q 0) as [Hq|Hq].
  - apply Hstep; lia.
  - rewrite IH; [|lia|].
    + apply Hstep; lia.
    + rewrite Nat2N.inj_succ, N.pow_succ_r' in Hf. lia.
Qed.

Lemma size_pow10 n : n < 10 ^ N.of_nat (S (N.size_nat n)).
Proof.
  apply (N.lt_le_trans _ (2 ^ N.of_nat (S (N.size_nat n)))); [|apply N.pow_le_mono_l; lia].
  rewrite Nat2N.inj_succ, N.pow_succ_r'.
  enough (n < 2 ^ N.of_nat (N.size_nat n)) by lia.
  destruct (N.eq_dec n 0) as [->|Hn]; [done|].
  replace (N.of_nat (N.size_nat n)) with (N.size n).
  - apply N.size_gt.
  - destruct n as [|p]; [done|]. simpl. clear. induction p; simpl; lia.
Qed.

Lemma dec_go_head fuel n acc :
  (0 < fuel)%nat → ∃ d r, dec_go fuel n acc = d :: r ∧ is_ascii_digit d = true.
Proof.
  revert n acc. induction fuel as [|fuel IH]; intros n acc Hf; [lia|]. cbn [dec_go].
  case_match; [|destruct fuel; [|apply IH; lia]].
  all: eexists _, _; split; [done|apply digit_char].
Qed.

Lemma parse_u64_dec n : n ≤ u64_max → parse_u64 (dec_bytes n) = Some n.
Proof.
  intros Hn. unfold dec_bytes.
  destruct (dec_go_head (S (N.size_nat n)) n []) as (d & r & E & Hd); [lia|].
  pose proof (dec_go_parse (S (N.size_nat n)) n [] Hn (size_pow10 n)) as Hp.
  rewrite E in *. unfold parse_u64.
  destruct (N.eqb_spec d 43) as [->|Hne]; [done|exact Hp].
Qed.

Lemma dec_go_digits fuel n acc :
  Forall (λ d, is_ascii_digit d = true) acc →
  Forall (λ d, is_ascii_digit d = true) (dec_go fuel n acc).
Proof.
  revert n acc. induction fuel as [|fuel IH]; intros n acc Ha; cbn [dec_go]; [done|].
  assert (Forall (λ d, is_ascii_digit d = true) (48 + n mod 10 :: acc)) as Ha'.
  { constructor; [apply digit_char|done]. }
  case_match; auto.
Qed.

Lemma dec_bytes_digits n : Forall (λ d, is_ascii_digit d = true) (dec_bytes n).
Proof. apply dec_go_digits. constructor. Qed.

(** ** Time *)

(** An [OffsetDateTime] (or [Instant]) is a number of nanoseconds since the
    Unix epoch; a [Duration] is a number of nanoseconds. *)
Definition nanos_per_sec : Z := 1000000000.
Definition dur_secs (n : Z) : Z := (n * nanos_per_sec)%Z.
Definition dur_minutes (n : Z) : Z := dur_secs (60 * n).
Definition dur_hours (n : Z) : Z := dur_secs (3600 * n).
Definition dur_days (n : Z) : Z := dur_secs (86400 * n).

(** ** Generic list lemmas *)

Lemma takeN_take {A} n (l : list A) : takeN n l = take (N.to_nat n) l.
Proof.
  revert n. induction l as [|x l IH]; intros n; simpl; [by rewrite take_nil|].
  destruct (N.eqb_spec n 0) as [->|]; [done|]. rewrite IH.
  by replace (N.to_nat n) with (S (N.to_nat (N.pred n))) by lia.
Qed.

Lemma vlen_app {A} (l k : list A) : vlen (l ++ k) = vlen l + vlen k.
Proof. unfold vlen. rewrite length_app. lia. Qed.

Lemma vlen_cons {A} (x : A) l : vlen (x :: l) = vlen l + 1.
Proof. unfold vlen. simpl. lia. Qed.

Lemma vlen_nil {A} : vlen (@nil A) = 0.
Proof. done. Qed.

Lemma existsb_false {A} (f : A → bool) l :
  existsb f l = false ↔ Forall (λ x, f x = false) l.
Proof.
  induction l as [|x l IH]; simpl; [split; [constructor|done]|].
  by rewrite orb_false_iff, Forall_cons, IH.
Qed.

Lemma existsb_true {A} (f : A → bool) l :
  existsb f l = true ↔ ∃ x, x ∈ l ∧ f x = true.
Proof.
  rewrite existsb_exists. split; intros (x & ? & ?); exists x.
  - by rewrite list_elem_of_In.
  - by rewrite <-list_elem_of_In.
Qed.

Lemma forallb_true {A} (f : A → bool) l :
  forallb f l = true ↔ Forall (λ x, f x = true) l.
Proof.
  induction l as [|x l IH]; simpl; [split; [constructor|done]|].
  by rewrite andb_true_iff, Forall_cons, IH.
Qed.

Lemma filter_all {A} (P : A → Prop) `{!∀ x, Decision (P x)} l :
  Forall P l → base.filter P l = l.
Proof. induction 1; [done|]. by rewrite filter_cons_True, IHForall. Qed.

Lemma exists_snoc {A} (P : A → Prop) l a :
  (∃ x, x ∈ l ++ [a] ∧ P x) ↔ (∃ x, x ∈ l ∧ P x) ∨ P a.
Proof.
  split.
  - intros (x & [Hx| ->%list_elem_of_singleton]%elem_of_app & HP); eauto.
  - intros [(x & Hx & HP)|HP]; [exists x|exists a]; rewrite elem_of_app, list_elem_of_singleton; auto.
Qed.

Lemma or_absorb (P Q : Prop) : (Q → P) → (P ↔ P ∨ Q).
Proof. tauto. Qed.

(** The total of [f] over a list. *)
Definition sumN {A} (f : A → N) (l : list A) : N := foldr (λ x acc, f x + acc) 0 l.

Lemma sumN_app {A} (f : A → N) l k : sumN f (l ++ k) = sumN f l + sumN f k.
Proof. induction l as [|x l IH]; simpl; [done|]. rewrite IH. lia. Qed.

(** ** Orderings and stable sorting *)

(** [a.cmp(b).then(...)], [Option]'s order ([None] first) and [slice::sort_by]:
    each element goes before the first one it is not greater than, starting
    from the last, so equal elements keep their order. *)
Definition lex (c d : comparison) : comparison := match c with Eq => d | c => c end.
Definition cmp_option {A} (cmp : A → A → comparison) (a b : option A) : comparison :=
  match a, b with
  | None, None => Eq | None, Some _ => Lt | Some _, None => Gt | Some a, Some b => cmp a b
  end.

Section Sorting.
Context {A : Type} (cmp : A → A → comparison).

Definition not_after (a b : A) : Prop := cmp a b ≠ Gt.
Fixpoint insert_by (a : A) (l : list A) : list A :=
  match l with
  | [] => [a]
  | b :: l => match cmp a b with Gt => b :: insert_by a l | _ => a :: b :: l end
  end.
Definition sort_by (l : list A) : list A := foldr insert_by [] l.

Lemma insert_by_perm a l : insert_by a l ≡ₚ a :: l.
Proof. induction l as [|b l IH]; simpl; [done|]. destruct (cmp a b); [done..|]. rewrite IH. constructor. Qed.

Lemma sort_by_perm l : sort_by l ≡ₚ l.
Proof. induction l as [|a l IH]; simpl; [done|]. by rewrite insert_by_perm, IH. Qed.

Lemma insert_by_sorted a l (Hopp : ∀ a b, cmp b a = CompOpp (cmp a b)) :
  Sorted not_after l → Sorted not_after (insert_by a l).
Proof.
  induction 1 as [|b l Hl IH Hb]; simpl; [by repeat constructor|].
  destruct (cmp a b) eqn:Hc.
  1,2: constructor; [by constructor|constructor; unfold not_after; congruence].
  constructor; [done|]. destruct l as [|c l]; simpl in *.
  - constructor. unfold not_after. by rewrite Hopp, Hc.
  - inversion Hb. destruct (cmp a c); constructor; try done; unfold not_after; by rewrite Hopp, Hc.
Qed.

Lemma sort_by_sorted l (Hopp : ∀ a b, cmp b a = CompOpp (cmp a b)) : Sorted not_after (sort_by l).
Proof. induction l; simpl; [constructor|]. by apply insert_by_sorted. Qed.
End Sorting.

Lemma lex_opp c d c' d' : c' = CompOpp c → d' = CompOpp d → lex c' d' = CompOpp (lex c d).
Proof. intros -> ->. by destruct c. Qed.

Lemma cmp_option_opp {A} (cmp : A → A → comparison) a b :
  (∀ a b, cmp b a = CompOpp (cmp a b)) → cmp_option cmp b a = CompOpp (cmp_option cmp a b).
Proof. intros H. destruct a, b; simpl; auto. Qed.

(** A total order given by its three-way comparison. *)
Record cmp_laws {A} (cmp : A → A → comparison) : Prop := {
  cmp_eq a b : cmp a b = Eq ↔ a = b;
  cmp_opp a b : cmp b a = CompOpp (cmp a b);
  cmp_lt_trans a b c : cmp a b = Lt → cmp b c = Lt → cmp a c = Lt }.

(** The lexicographic order of slices and of iterators. *)
Fixpoint cmp_list {A} (cmp : A → A → comparison) (a b : list A) : comparison :=
  match a, b with
  | [], [] => Eq
  | [], _ :: _ => Lt
  | _ :: _, [] => Gt
  | x :: a, y :: b => lex (cmp x y) (cmp_list cmp a b)
  end.

Lemma N_compare_laws : cmp_laws N.compare.
Proof.
  split; intros; [apply N.compare_eq_iff|apply N.compare_antisym|].
  rewrite N.compare_lt_iff in *. lia.
Qed.

Lemma cmp_list_laws {A} (cmp : A → A → comparison) : cmp_laws cmp → cmp_laws (cmp_list cmp).
Proof.
  intros [He Ho Ht]. split.
  - intros a. induction a as [|x a IH]; intros [|y b]; simpl; [by split..|].
    assert (cmp x x = Eq) as Hx by by apply He. unfold lex. destruct (cmp x y) eqn:Hc.
    + apply He in Hc as ->. rewrite IH. naive_solver.
    + split; [done|]. intros [= <- <-]. congruence.
    + split; [done|]. intros [= <- <-]. congruence.
  - intros a. induction a as [|x a IH]; intros [|y b]; simpl; try done. by apply lex_opp.
  - intros a. induction a as [|x a IH]; intros [|y b] [|z c]; simpl; try done. unfold lex.
    destruct (cmp x y) eqn:Hxy; [apply He in Hxy as ->|..]; destruct (cmp y z) eqn:Hyz; try done.
    + apply IH.
    + apply He in Hyz as <-. by rewrite Hxy.
    + by rewrite (Ht _ _ _ Hxy Hyz).
Qed.

(** [str] and [OsStr] compare their octets. *)
Definition cmp_str (a b : string) : comparison := cmp_list N.compare (as_bytes a) (as_bytes b).
Lemma cmp_str_laws : cmp_laws cmp_str.
Proof.
  destruct (cmp_list_laws _ N_compare_laws) as [He Ho Ht]. split; intros *; unfold cmp_str.
  - rewrite He. split; [apply as_bytes_inj|by intros ->].
  - apply Ho.
  - apply Ht.
Qed.

Lemma not_after_trans {A} (cmp : A → A → comparison) : cmp_laws cmp → Transitive (not_after cmp).
Proof.
  intros [He Ho Ht] a b c. unfold not_after.
  destruct (cmp a b) eqn:Hab; [by apply He in Hab as ->| |done].
  destruct (cmp b c) eqn:Hbc; [by apply He in Hbc as <-; rewrite Hab| |done].
  by rewrite (Ht _ _ _ Hab Hbc).
Qed.

(** ** Automation *)

Create HintDb warden discriminated.
Create Rewrite HintDb warden.
#[export] Hint Resolve as_bytes_is_byte split_on_nonempty : warden.
#[export] Hint Rewrite @vlen_app @vlen_cons @vlen_nil @sumN_app : warden.

(** Turn boolean tests of the code into propositions [lia] and
    [congruence] understand. *)
Ltac reflect_bools :=
  repeat match goal with
  | H : andb _ _ = true |- _ => apply andb_true_iff in H; destruct H
  | H : orb _ _ = false |- _ => apply orb_false_iff in H; destruct H
  | H : orb _ _ = true |- _ => apply orb_true_iff in H
  | H : andb _ _ = false |- _ => apply andb_false_iff in H
  | H : negb _ = true |- _ => apply negb_true_iff in H
  | H : negb _ = false |- _ => apply negb_false_iff in H
  | H : N.eqb _ _ = true |- _ => apply N.eqb_eq in H
  | H : N.eqb _ _ = false |- _ => apply N.eqb_neq in H
  | H : N.ltb _ _ = true |- _ => apply N.ltb_lt in H
  | H : N.ltb _ _ = false |- _ => apply N.ltb_ge in H
  | H : N.leb _ _ = true |- _ => apply N.leb_le in H
  | H : N.leb _ _ = false |- _ => apply N.leb_gt in H
  | H : Z.ltb _ _ = true |- _ => apply Z.ltb_lt in H
  | H : Z.ltb _ _ = false |- _ => apply Z.ltb_ge in H
  | H : Z.leb _ _ = true |- _ => apply Z.leb_le in H
  | H : Z.leb _ _ = false |- _ => apply Z.leb_gt in H
  | H : bool_decide _ = true |- _ => apply bool_decide_eq_true in H
  | H : bool_decide _ = false |- _ => apply bool_decide_eq_false in H
  | H : existsb _ _ = false |- _ => apply existsb_false in H
  | H : existsb _ _ = true |- _ => apply existsb_true in H
  | H : forallb _ _ = true |- _ => apply forallb_true in H
  end.
