(* ===== verification/Utf8.v ===== *)
(** * UTF-8, as the standard library's [str] and [char] use it

    A [&str] is a sequence of octets that decodes; [chars] is its sequence of
    Unicode scalar values.  [decode] is strict (overlong forms, surrogates
    and values above U+10FFFF are refused); [decode_lossy] is
    [String::from_utf8_lossy]. *)

From S2P Require Import Prelude.

(** A Unicode scalar value. *)
Definition is_scalar (c : N) : Prop := c < 0xD800 ∨ (0xE000 ≤ c ∧ c < 0x110000).

Definition encode_char (c : N) : bytes :=
  if c <? 0x80 then [c]
  else if c <? 0x800 then [0xC0 + c / 64; 0x80 + c mod 64]
  else if c <? 0x10000 then [0xE0 + c / 4096; 0x80 + c / 64 mod 64; 0x80 + c mod 64]
  else [0xF0 + c / 262144; 0x80 + c / 4096 mod 64; 0x80 + c / 64 mod 64; 0x80 + c mod 64].

Definition encode (cs : list N) : bytes := cs ≫= encode_char.

(** A lead byte: continuation bytes, payload, and the range its second byte
    must be in. *)
Definition lead (b : N) : option (nat * N * N * N) :=
  if b <? 0xC2 then None
  else if b <? 0xE0 then Some (1%nat, b - 0xC0, 0x80, 0xBF)
  else if b =? 0xE0 then Some (2%nat, 0, 0xA0, 0xBF)
  else if b =? 0xED then Some (2%nat, 13, 0x80, 0x9F)
  else if b <? 0xF0 then Some (2%nat, b - 0xE0, 0x80, 0xBF)
  else if b =? 0xF0 then Some (3%nat, 0, 0x90, 0xBF)
  else if b <? 0xF4 then Some (3%nat, b - 0xF0, 0x80, 0xBF)
  else if b =? 0xF4 then Some (3%nat, 4, 0x80, 0x8F)
  else None.

Definition within (lo hi b : N) : bool := (lo <=? b) && (b <=? hi).
Definition is_cont (b : N) : bool := within 0x80 0xBF b.

Fixpoint decode (bs : bytes) : option (list N) :=
  match bs with
  | [] => Some []
  | b :: r =>
      if b <? 0x80 then cons b <$> decode r
      else match lead b, r with
      | Some (1%nat, p, lo, hi), b1 :: r' =>
          if within lo hi b1 then cons (p * 64 + (b1 - 0x80)) <$> decode r' else None
      | Some (2%nat, p, lo, hi), b1 :: b2 :: r' =>
          if within lo hi b1 && is_cont b2
          then cons (p * 4096 + (b1 - 0x80) * 64 + (b2 - 0x80)) <$> decode r' else None
      | Some (3%nat, p, lo, hi), b1 :: b2 :: b3 :: r' =>
          if within lo hi b1 && is_cont b2 && is_cont b3
          then cons (p * 262144 + (b1 - 0x80) * 4096 + (b2 - 0x80) * 64 + (b3 - 0x80))
                 <$> decode r'
          else None
      | _, _ => None
      end
  end.

Definition replacement : N := 0xFFFD.

Fixpoint decode_lossy (bs : bytes) : list N :=
  match bs with
  | [] => []
  | b :: r =>
      if b <? 0x80 then b :: decode_lossy r
      else match lead b with
      | None => replacement :: decode_lossy r
      | Some (k, p, lo, hi) =>
          match r with
          | b1 :: r1 =>
              if negb (within lo hi b1) then replacement :: decode_lossy r
              else match k, r1 with
              | 1%nat, _ => p * 64 + (b1 - 0x80) :: decode_lossy r1
              | 2%nat, b2 :: r2 =>
                  if is_cont b2
                  then p * 4096 + (b1 - 0x80) * 64 + (b2 - 0x80) :: decode_lossy r2
                  else replacement :: decode_lossy r1
              | _, b2 :: r2 =>
                  if negb (is_cont b2) then replacement :: decode_lossy r1
                  else match r2 with
                  | b3 :: r3 =>
                      if is_cont b3
                      then p * 262144 + (b1 - 0x80) * 4096 + (b2 - 0x80) * 64 + (b3 - 0x80)
                             :: decode_lossy r3
                      else replacement :: decode_lossy r2
                  | [] => [replacement]
                  end
              | _, [] => [replacement]
              end
          | [] => [replacement]
          end
      end
  end.

(** [s.chars()] of a valid [&str]. *)
Definition chars (s : string) : list N := default [] (decode (as_bytes s)).
Definition valid_str (s : string) : Prop := is_Some (decode (as_bytes s)).
(** A [String] built with [push]. *)
Definition of_chars (cs : list N) : string := of_bytes (encode cs).
(** [String::from_utf8]. *)
Definition from_utf8 (bs : bytes) : option string :=
  match decode bs with Some _ => Some (of_bytes bs) | None => None end.

Ltac decide_tests :=
  repeat match goal with
  | |- context [if ?b then _ else _] =>
      let E := fresh "E" in
      first [ assert (b = true) as E by (unfold within, is_cont; rewrite ?andb_true_iff, ?N.leb_le, ?N.ltb_lt, ?N.eqb_eq; lia)
            | assert (b = false) as E by (unfold within, is_cont; rewrite ?N.ltb_ge, ?N.eqb_neq; lia) ];
      rewrite E; clear E
  end.

Lemma decode_ascii b r : b < 0x80 → decode (b :: r) = cons b <$> decode r.
Proof. intros H. cbn [decode]. apply N.ltb_lt in H. by rewrite H. Qed.

(** Decoding a well-formed two-, three- or four-byte sequence. *)
Lemma decode_lead2 b b1 p lo hi r :
  0x80 ≤ b → lead b = Some (1%nat, p, lo, hi) → within lo hi b1 = true →
  decode (b :: b1 :: r) = cons (p * 64 + (b1 - 0x80)) <$> decode r.
Proof. intros Hb Hl Hw. cbn [decode]. apply N.ltb_ge in Hb. by rewrite Hb, Hl, Hw. Qed.

Lemma decode_lead3 b b1 b2 p lo hi r :
  0x80 ≤ b → lead b = Some (2%nat, p, lo, hi) →
  within lo hi b1 = true → is_cont b2 = true →
  decode (b :: b1 :: b2 :: r) =
    cons (p * 4096 + (b1 - 0x80) * 64 + (b2 - 0x80)) <$> decode r.
Proof.
  intros Hb Hl Hw Hc. cbn [decode]. apply N.ltb_ge in Hb.
  by rewrite Hb, Hl, Hw, Hc.
Qed.

Lemma decode_lead4 b b1 b2 b3 p lo hi r :
  0x80 ≤ b → lead b = Some (3%nat, p, lo, hi) →
  within lo hi b1 = true → is_cont b2 = true → is_cont b3 = true →
  decode (b :: b1 :: b2 :: b3 :: r) =
    cons (p * 262144 + (b1 - 0x80) * 4096 + (b2 - 0x80) * 64 + (b3 - 0x80)) <$> decode r.
Proof.
  intros Hb Hl Hw Hc Hd. cbn [decode]. apply N.ltb_ge in Hb.
  by rewrite Hb, Hl, Hw, Hc, Hd.
Qed.

Lemma within_spec lo hi b : within lo hi b = true ↔ lo ≤ b ∧ b ≤ hi.
Proof. unfold within. by rewrite andb_true_iff, !N.leb_le. Qed.

(** The quotient and remainder by 64 that the encoder splits a scalar into,
    named so that [lia] sees variables. *)
Lemma split64 c : ∃ q m, c / 64 = q ∧ c mod 64 = m ∧ c = q * 64 + m ∧ m < 64.
Proof.
  exists (c / 64), (c mod 64). pose proof (N.div_mod' c 64).
  repeat split; [lia|by apply N.mod_lt].
Qed.

Ltac split64 c :=
  let q := fresh "q" in let m := fresh "m" in
  let Hq := fresh "Hq" in let Hm := fresh "Hm" in
  destruct (split64 c) as (q & m & Hq & Hm & ? & ?); rewrite ?Hq, ?Hm; clear Hq Hm.

Lemma div_4096 c : c / 4096 = c / 64 / 64.
Proof. by rewrite N.Div0.div_div. Qed.
Lemma div_262144 c : c / 262144 = c / 64 / 64 / 64.
Proof. by rewrite !N.Div0.div_div. Qed.

Lemma decode_encode2 c r :
  0x80 ≤ c → c < 0x800 → decode (encode_char c ++ r) = cons c <$> decode r.
Proof.
  intros H1 H2. unfold encode_char.
  destruct (N.ltb_spec c 0x80), (N.ltb_spec c 0x800); try lia. cbn [app].
  split64 c. rewrite (decode_lead2 _ _ q 0x80 0xBF).
  - f_equal. f_equal. lia.
  - lia.
  - unfold lead. decide_tests. repeat f_equal. lia.
  - apply within_spec. lia.
Qed.

(** The second byte the encoder writes is in the range its lead allows. *)
Lemma lead3_encode p m :
  p < 16 → m < 64 → (p = 0 → 32 ≤ m) → (p = 13 → m < 32) →
  ∃ lo hi, lead (0xE0 + p) = Some (2%nat, p, lo, hi) ∧ within lo hi (0x80 + m) = true.
Proof.
  intros Hp Hm H0 H13. unfold lead.
  rewrite (proj2 (N.ltb_ge (0xE0 + p) 0xC2)), (proj2 (N.ltb_ge (0xE0 + p) 0xE0)) by lia.
  destruct (N.eqb_spec (0xE0 + p) 0xE0).
  { eexists _, _; split; [repeat f_equal; lia|apply within_spec; lia]. }
  destruct (N.eqb_spec (0xE0 + p) 0xED).
  { eexists _, _; split; [repeat f_equal; lia|apply within_spec; lia]. }
  rewrite (proj2 (N.ltb_lt _ _)) by lia.
  eexists _, _; split; [repeat f_equal; lia|apply within_spec; lia].
Qed.

Lemma lead4_encode p m :
  p < 5 → m < 64 → (p = 0 → 16 ≤ m) → (p = 4 → m < 16) →
  ∃ lo hi, lead (0xF0 + p) = Some (3%nat, p, lo, hi) ∧ within lo hi (0x80 + m) = true.
Proof.
  intros Hp Hm H0 H4. unfold lead.
  rewrite (proj2 (N.ltb_ge (0xF0 + p) 0xC2)), (proj2 (N.ltb_ge (0xF0 + p) 0xE0)) by lia.
  rewrite (proj2 (N.eqb_neq (0xF0 + p) 0xE0)), (proj2 (N.eqb_neq (0xF0 + p) 0xED)) by lia.
  rewrite (proj2 (N.ltb_ge (0xF0 + p) 0xF0)) by lia.
  destruct (N.eqb_spec (0xF0 + p) 0xF0).
  { eexists _, _; split; [repeat f_equal; lia|apply within_spec; lia]. }
  destruct (N.ltb_spec (0xF0 + p) 0xF4).
  { eexists _, _; split; [repeat f_equal; lia|apply within_spec; lia]. }
  rewrite (proj2 (N.eqb_eq _ _)) by lia.
  eexists _, _; split; [repeat f_equal; lia|apply within_spec; lia].
Qed.

Lemma decode_encode3 c r :
  0x800 ≤ c → c < 0x10000 → is_scalar c → decode (encode_char c ++ r) = cons c <$> decode r.
Proof.
  intros H1 H2 Hs. unfold encode_char.
  destruct (N.ltb_spec c 0x80), (N.ltb_spec c 0x800), (N.ltb_spec c 0x10000); try lia.
  cbn [app]. rewrite div_4096. split64 c. split64 q.
  destruct (lead3_encode q0 m0) as (lo & hi & Hl & Hw); [lia..|destruct Hs; lia|].
  erewrite decode_lead3; [|lia|done|done|apply within_spec; lia].
  f_equal. f_equal. lia.
Qed.

Lemma decode_encode4 c r :
  0x10000 ≤ c → c < 0x110000 → decode (encode_char c ++ r) = cons c <$> decode r.
Proof.
  intros H1 H2. unfold encode_char.
  destruct (N.ltb_spec c 0x80), (N.ltb_spec c 0x800), (N.ltb_spec c 0x10000); try lia.
  cbn [app]. rewrite div_262144, div_4096. split64 c. split64 q. split64 q0.
  destruct (lead4_encode q1 m1) as (lo & hi & Hl & Hw); [lia..|].
  erewrite decode_lead4; [|lia|done|done|apply within_spec; lia|apply within_spec; lia].
  f_equal. f_equal. lia.
Qed.

Lemma decode_encode_char c r :
  is_scalar c → decode (encode_char c ++ r) = cons c <$> decode r.
Proof.
  intros Hs.
  destruct (decide (c < 0x80)) as [H|H].
  { unfold encode_char. rewrite (proj2 (N.ltb_lt _ _) H). by apply decode_ascii. }
  destruct (decide (c < 0x800)); [apply decode_encode2; lia|].
  destruct (decide (c < 0x10000)); [apply decode_encode3; (lia || done)|].
  apply decode_encode4; destruct Hs; lia.
Qed.

Lemma decode_encode cs : Forall is_scalar cs → decode (encode cs) = Some cs.
Proof.
  unfold encode. induction 1 as [|c cs Hc _ IH]; csimpl; [done|].
  by rewrite decode_encode_char, IH.
Qed.

(** Everything [decode] yields is a scalar value. *)
Lemma lead_cases b k p lo hi :
  lead b = Some (k, p, lo, hi) →
  (k = 1%nat ∧ 2 ≤ p < 32 ∧ lo = 0x80 ∧ hi = 0xBF) ∨
  (k = 2%nat ∧ p < 16 ∧ (p = 0 → lo = 0xA0) ∧ 0x80 ≤ lo ∧ hi ≤ 0xBF ∧ (p = 13 → hi = 0x9F)) ∨
  (k = 3%nat ∧ p < 5 ∧ (p = 0 → lo = 0x90) ∧ 0x80 ≤ lo ∧ hi ≤ 0xBF ∧ (p = 4 → hi = 0x8F)).
Proof.
  unfold lead. intros H.
  repeat (case_match; [|]); simplify_eq; reflect_bools; first [left; lia | right; left; lia | right; right; lia].
Qed.

Lemma decode_scalar bs cs : decode bs = Some cs → Forall is_scalar cs.
Proof.
  revert cs. induction bs as [bs IH] using (induction_ltof1 _ length). unfold ltof in IH.
  intros cs H. destruct bs as [|b r]; cbn [decode] in H; [by simplify_eq|].
  destruct (N.ltb_spec b 0x80).
  { apply fmap_Some in H as (cs' & H & ->). constructor; [left; lia|].
    eapply IH; [|done]. simpl; lia. }
  destruct (lead b) as [[[[k p] lo] hi]|] eqn:Hl; [|done].
  apply lead_cases in Hl as [(-> & Hp & -> & ->)|[(-> & Hp & Hz & ? & ? & H13)|(-> & Hp & Hz & ? & ? & H4)]].
  - destruct r as [|b1 r]; [done|]. destruct (within _ _ b1) eqn:Hw; [|done].
    apply within_spec in Hw. apply fmap_Some in H as (cs' & H & ->).
    constructor; [left; lia|]. eapply IH; [|done]. simpl; lia.
  - destruct r as [|b1 [|b2 r]]; [done..|]. destruct (within lo hi b1) eqn:Hw; [|done].
    destruct (is_cont b2) eqn:Hc; [|done]. simpl in H.
    apply within_spec in Hw, Hc. apply fmap_Some in H as (cs' & H & ->).
    constructor; [unfold is_scalar|eapply IH; [|done]; simpl; lia].
    destruct (decide (p = 13)); [rewrite (H13 e) in *; lia|].
    destruct (decide (p < 13)); lia.
  - destruct r as [|b1 [|b2 [|b3 r]]]; [done..|]. destruct (within lo hi b1) eqn:Hw; [|done].
    destruct (is_cont b2) eqn:Hc; [|done]. destruct (is_cont b3) eqn:Hd; [|done]. simpl in H.
    apply within_spec in Hw, Hc, Hd. apply fmap_Some in H as (cs' & H & ->).
    constructor; [right|eapply IH; [|done]; simpl; lia].
    destruct (decide (p = 0)); [rewrite (Hz e) in *; lia|].
    destruct (decide (p = 4)); [rewrite (H4 e) in *; lia|]. lia.
Qed.

(** Byte facts about encodings. *)
Lemma encode_char_bytes c : is_scalar c → Forall is_byte (encode_char c).
Proof.
  intros Hs. unfold encode_char, is_byte. rewrite div_262144, div_4096.
  split64 c. split64 q. split64 q0.
  destruct (N.ltb_spec c 0x80), (N.ltb_spec c 0x800), (N.ltb_spec c 0x10000);
    repeat constructor; destruct Hs; lia.
Qed.

Lemma encode_bytes cs : Forall is_scalar cs → Forall is_byte (encode cs).
Proof.
  unfold encode. induction 1; csimpl; [constructor|].
  apply Forall_app; split; [by apply encode_char_bytes|done].
Qed.

Lemma chars_of_chars cs : Forall is_scalar cs → chars (of_chars cs) = cs.
Proof.
  intros H. unfold chars, of_chars.
  by rewrite as_of_bytes, decode_encode by (by try apply encode_bytes).
Qed.

Lemma chars_scalar s : Forall is_scalar (chars s).
Proof.
  unfold chars. destruct (decode _) eqn:E; simpl; [by eapply decode_scalar|constructor].
Qed.

Lemma valid_of_chars cs : Forall is_scalar cs → valid_str (of_chars cs).
Proof.
  intros H. unfold valid_str, of_chars.
  rewrite as_of_bytes, decode_encode by (by try apply encode_bytes). by eexists.
Qed.

Lemma decode_all_ascii bs : Forall (λ b, b < 0x80) bs → decode bs = Some bs.
Proof. induction 1 as [|b bs Hb _ IH]; [done|]. by rewrite decode_ascii, IH. Qed.

Lemma encode_app a b : encode (a ++ b) = encode a ++ encode b.
Proof. apply bind_app. Qed.

#[export] Hint Resolve chars_scalar valid_of_chars encode_bytes : warden.

(** ** [str] operations that work on characters *)

(** [char::is_whitespace] *)
Definition is_whitespace (c : N) : bool :=
  ((9 <=? c) && (c <=? 13)) || (c =? 32) || (c =? 0x85) || (c =? 0xA0) || (c =? 0x1680)
  || ((0x2000 <=? c) && (c <=? 0x200A)) || (c =? 0x2028) || (c =? 0x2029)
  || (c =? 0x202F) || (c =? 0x205F) || (c =? 0x3000).

(** [s.split_whitespace()]: the maximal runs without white space; [cur] is
    the run being read. *)
Fixpoint split_ws_go (cur : list N) (l : list N) : list (list N) :=
  match l with
  | [] => match cur with [] => [] | _ => [cur] end
  | c :: l =>
      if is_whitespace c
      then match cur with [] => split_ws_go [] l | _ => cur :: split_ws_go [] l end
      else split_ws_go (cur ++ [c]) l
  end.
Definition split_whitespace (l : list N) : list (list N) := split_ws_go [] l.

(** [str::lines] over characters: split at line feeds, drop one carriage
    return at the end of each line, no line after a final line feed. *)
Fixpoint lines_go (cur : list N) (l : list N) : list (list N) :=
  let strip c := match last c with Some 13 => removelast c | _ => c end in
  match l with
  | [] => match cur with [] => [] | _ => [cur] end
  | c :: l => if c =? 10 then strip cur :: lines_go [] l else lines_go (cur ++ [c]) l
  end.

Definition lines (l : list N) : list (list N) := lines_go [] l.

(** [s.trim()] *)
Fixpoint trim_start (l : list N) : list N :=
  match l with
  | [] => []
  | c :: r => if is_whitespace c then trim_start r else l
  end.
Definition trim (l : list N) : list N := reverse (trim_start (reverse (trim_start l))).

(** ** ASCII text *)

Lemma encode_all_ascii l : Forall (λ c, c < 0x80) l → encode l = l.
Proof.
  unfold encode. induction 1 as [|c l Hc _ IH]; csimpl; [done|].
  assert (encode_char c = [c]) as ->; [|by rewrite IH].
  unfold encode_char. apply N.ltb_lt in Hc. by rewrite Hc.
Qed.

Lemma decode_lossy_ascii l : Forall (λ c, c < 0x80) l → decode_lossy l = l.
Proof.
  induction 1 as [|c l Hc _ IH]; simpl; [done|]. apply N.ltb_lt in Hc. by rewrite Hc, IH.
Qed.

(** A text of ASCII octets shows as itself. *)
Lemma lossy_ascii s :
  Forall (λ c, c < 0x80) (as_bytes s) → of_chars (decode_lossy (as_bytes s)) = s.
Proof.
  intros Hs. rewrite decode_lossy_ascii by done. unfold of_chars.
  rewrite encode_all_ascii by done. apply of_as_bytes.
Qed.
