(* ===== verification/Paths.v ===== *)
(** * Unix paths, as [std::path::Path] sees them

    A path is its octets ([string]); comparisons go through [components],
    which drops empty and [.] segments, so [starts_with] is component-wise. *)

From S2P Require Import Prelude.

Inductive component : Type :=
  | RootDir
  | CurDir
  | ParentDir
  | Normal (s : string).

#[export] Instance component_eq_dec : EqDecision component.
Proof. solve_decision. Defined.

Abbreviation path := string.

Definition slash : ascii := "/"%char.

(** [path.is_absolute()] *)
Definition is_absolute (p : path) : bool :=
  match p with String c _ => bool_decide (c = slash) | EmptyString => false end.

(** One segment between separators. *)
Definition segment (s : string) : list component :=
  if bool_decide (s = "") || bool_decide (s = ".") then []
  else if bool_decide (s = "..") then [ParentDir]
  else [Normal s].

(** [path.components()] *)
Definition components (p : path) : list component :=
  let segs := split_on slash p in
  if is_absolute p then RootDir :: (segs ≫= segment)
  else match segs with
       | "." :: rest => CurDir :: (rest ≫= segment)
       | _ => segs ≫= segment
       end.

(** [l.starts_with(k)] on component lists. *)
Fixpoint is_prefix (k l : list component) : bool :=
  match k, l with
  | [], _ => true
  | a :: k, b :: l => bool_decide (a = b) && is_prefix k l
  | _ :: _, [] => false
  end.

(** [p.starts_with(base)] *)
Definition path_starts_with (p base : path) : bool := is_prefix (components base) (components p).

(** [p == q] on paths *)
Definition path_eq (p q : path) : bool := bool_decide (components p = components q).

Fixpoint ends_with_slash (p : path) : bool :=
  match p with
  | EmptyString => false
  | String c EmptyString => bool_decide (c = slash)
  | String _ r => ends_with_slash r
  end.

(** [p.join(q)]: an absolute [q] replaces [p]. *)
Definition join (p q : path) : path :=
  if is_absolute q then q
  else if bool_decide (p = "") || ends_with_slash p then (p +:+ q)%string
  else (p +:+ "/" +:+ q)%string.

(** The path with the given components. *)
Definition render_component (c : component) : string :=
  match c with RootDir => "" | CurDir => "." | ParentDir => ".." | Normal s => s end.

Fixpoint render_rest (cs : list component) : string :=
  match cs with
  | [] => ""
  | [c] => render_component c
  | c :: cs => (render_component c +:+ "/" +:+ render_rest cs)%string
  end.

Definition render (cs : list component) : path :=
  match cs with
  | RootDir :: cs => ("/" +:+ render_rest cs)%string
  | cs => render_rest cs
  end.

(** [p.parent()]: [None] for the root and the empty path. *)
Definition parent (p : path) : option path :=
  match last (components p) with
  | Some (Normal _ | CurDir | ParentDir) => Some (render (removelast (components p)))
  | _ => None
  end.

(** The final component, when it is a normal one ([file_name]). *)
Definition file_name (p : path) : option string :=
  match last (components p) with Some (Normal s) => Some s | _ => None end.

(** ** Facts *)

Lemma is_prefix_spec k l : is_prefix k l = true ↔ ∃ r, l = k ++ r.
Proof.
  revert l. induction k as [|a k IH]; intros l; simpl.
  - split; [|done]. intros _. by exists l.
  - destruct l as [|b l]; [split; [done|intros (? & ?); done]|].
    rewrite andb_true_iff, bool_decide_eq_true, IH. split.
    + intros [-> [r ->]]. by exists r.
    + intros [r ?]. simplify_eq. split; [done|by exists r].
Qed.

Lemma is_prefix_refl k : is_prefix k k = true.
Proof. apply is_prefix_spec. exists []. by rewrite app_nil_r. Qed.

Lemma is_prefix_trans a b c : is_prefix a b = true → is_prefix b c = true → is_prefix a c = true.
Proof.
  rewrite !is_prefix_spec. intros [r ->] [r' ->]. exists (r ++ r'). by rewrite <-app_assoc.
Qed.

Lemma path_starts_with_refl p : path_starts_with p p = true.
Proof. apply is_prefix_refl. Qed.

Lemma path_starts_with_trans p q r :
  path_starts_with p q = true → path_starts_with q r = true → path_starts_with p r = true.
Proof. unfold path_starts_with. intros. by eapply is_prefix_trans. Qed.

(** Splitting [p/q]. *)
Lemma split_on_app_sep sep a b :
  split_on sep (a +:+ String sep b) = split_on sep a ++ split_on sep b.
Proof.
  induction a as [|c a IH]; simpl.
  - case_bool_decide; [done|congruence].
  - unfold String.app in *. simpl. case_bool_decide; [by rewrite IH|]. rewrite IH.
    destruct (split_on sep a) eqn:E; [by apply split_on_nonempty in E|done].
Qed.

Lemma segment_nil : segment "" = [].
Proof. done. Qed.

Lemma split_on_trailing sep a : split_on sep (a +:+ String sep "") = split_on sep a ++ [""%string].
Proof. apply split_on_app_sep. Qed.

#[export] Hint Resolve path_starts_with_refl : warden.

(** ** Joining a relative path of plain components *)

Definition plain_segment (c : string) : Prop := segment c = [Normal c].

Lemma bind_segment_plain l : Forall plain_segment l → l ≫= segment = Normal <$> l.
Proof. induction 1 as [|c l Hc _ IH]; csimpl; [done|]. by rewrite Hc, IH. Qed.

Lemma split_on_head_absolute p c l :
  split_on slash p = c :: l → is_absolute p = true → c = "".
Proof.
  destruct p as [|a p]; simpl; [done|]. intros E Ha. apply bool_decide_eq_true in Ha as ->.
  by rewrite bool_decide_eq_true_2 in E by done; simplify_eq.
Qed.

Lemma components_plain p :
  Forall plain_segment (split_on slash p) →
  is_absolute p = false ∧ components p = Normal <$> split_on slash p.
Proof.
  intros Hp. unfold components.
  assert (is_absolute p = false) as Ha.
  { destruct (is_absolute p) eqn:Ha; [|done]. destruct (split_on slash p) as [|c l] eqn:E.
    - by apply split_on_nonempty in E.
    - by apply Forall_cons in Hp as [Hc _]; rewrite (split_on_head_absolute _ _ _ E Ha) in Hc. }
  rewrite Ha. split; [done|]. rewrite <-bind_segment_plain by done.
  destruct (split_on slash p) as [|c l]; [done|]. apply Forall_cons in Hp as [Hc _].
  destruct c as [|[[] [] [] [] [] [] [] []] []]; done.
Qed.

(** The components of a path that starts with the segments of [d]. *)
Lemma components_append d q l :
  split_on slash q = split_on slash d ++ l → is_absolute q = is_absolute d → d ≠ "" →
  components q = components d ++ (l ≫= segment).
Proof.
  intros Hq Ha Hd. unfold components. rewrite Hq, Ha, bind_app.
  destruct (is_absolute d); [done|].
  destruct (split_on slash d) as [|c r] eqn:E; [by apply split_on_nonempty in E|].
  destruct c as [|[[] [] [] [] [] [] [] []] []]; simpl; by rewrite ?bind_app, ?app_assoc.
Qed.

Lemma ends_with_slash_inv d : ends_with_slash d = true → ∃ d', d = (d' +:+ "/")%string.
Proof.
  induction d as [|a d IH]; simpl; [done|]. destruct d as [|b d].
  - intros ->%bool_decide_eq_true. by exists ""%string.
  - intros [d' E]%IH. exists (String a d'). simpl. by rewrite E.
Qed.

Lemma is_absolute_app d q : d ≠ "" → is_absolute (d +:+ q) = is_absolute d.
Proof. by destruct d. Qed.

(** A plain relative path stays below the directory it is joined to. *)
Lemma components_join_plain d p :
  Forall plain_segment (split_on slash p) →
  components (join d p) = components d ++ (Normal <$> split_on slash p).
Proof.
  intros Hp. destruct (components_plain p Hp) as [Ha Hc]. unfold join. rewrite Ha.
  rewrite <-(bind_segment_plain _ Hp).
  destruct (decide (d = "")) as [->|Hd]; simpl.
  { by rewrite bind_segment_plain. }
  rewrite bool_decide_eq_false_2 by done. simpl.
  destruct (ends_with_slash d) eqn:He.
  - apply ends_with_slash_inv in He as [d' ->].
    assert (((d' +:+ "/") +:+ p)%string = (d' +:+ String slash p)%string) as Hj
      by apply append_assoc.
    destruct (decide (d' = "")) as [->|Hd'].
    + simpl. unfold components. simpl. done.
    + rewrite Hj, (components_append d' _ (split_on slash p));
        [|apply split_on_app_sep|by apply is_absolute_app|done].
      f_equal. rewrite (components_append d' (d' +:+ "/")%string [""]);
        [by rewrite app_nil_r|apply split_on_trailing|by apply is_absolute_app|done].
  - apply components_append; [apply split_on_app_sep|by apply is_absolute_app|done].
Qed.
