(* ===== verification/Core.v ===== *)
(** * warden-core: the vocabulary of every other part

    One module per file of [crates/core/src]: [Digest] (digest.rs), [Text]
    (text.rs), [ObservedPath] (path.rs), [Config] (config.rs), [Finding]
    (finding.rs), [Report] (report.rs). *)

From S2P Require Import Prelude Utf8 Paths.

(** ** digest.rs *)
Module Digest.

Record Sha256Digest := from_bytes { digest_bytes : bytes }.

#[export] Instance Sha256Digest_eq_dec : EqDecision Sha256Digest.
Proof. solve_decision. Defined.

(** The invariant of [[u8; 32]]. *)
Definition wf (d : Sha256Digest) : Prop :=
  length (digest_bytes d) = 32%nat ∧ Forall is_byte (digest_bytes d).

Inductive DigestParseError :=
  | InvalidLength (n : N)
  | InvalidCharacter (offset : N).

#[export] Instance DigestParseError_eq_dec : EqDecision DigestParseError.
Proof. solve_decision. Defined.

Definition hex_value (c : N) : option N :=
  if (48 <=? c) && (c <=? 57) then Some (c - 48)
  else if (97 <=? c) && (c <=? 102) then Some (c - 97 + 10)
  else if (65 <=? c) && (c <=? 70) then Some (c - 65 + 10)
  else None.

(** [b"0123456789abcdef"[i]] *)
Definition hex_digit (i : N) : N := if i <? 10 then 48 + i else 97 + (i - 10).

Definition hex_encode (bs : bytes) : string :=
  of_bytes (bs ≫= λ b, [hex_digit (N.shiftr b 4); hex_digit (N.land b 15)]).

Definition to_hex (d : Sha256Digest) : string := hex_encode (digest_bytes d).

(** The loop over [as_chunks::<2>()] of [from_str]; [i] is the pair's index. *)
Fixpoint parse_pairs (i : N) (bs : bytes) : result DigestParseError bytes :=
  match bs with
  | h :: l :: rest =>
      hi ← ok_or (hex_value h) (InvalidCharacter (i * 2));
      lo ← ok_or (hex_value l) (InvalidCharacter (i * 2 + 1));
      out ← parse_pairs (i + 1) rest;
      mret (N.lor (N.shiftl hi 4 mod 256) lo :: out)
  | _ => Ok []
  end.

Definition from_str (s : string) : result DigestParseError Sha256Digest :=
  let bs := as_bytes s in
  if negb (vlen bs =? 64) then Err (InvalidLength (vlen bs))
  else out ← parse_pairs 0 bs; mret (from_bytes out).

(** *** Lemmas *)

Lemma hex_value_Some c v : hex_value c = Some v → v < 16 ∧ hex_digit v = to_lower_byte c.
Proof.
  unfold hex_value, hex_digit, to_lower_byte, is_ascii_upper. intros H.
  repeat case_match; simplify_eq; split; lia.
Qed.

Lemma hex_value_digit v : v < 16 → hex_value (hex_digit v) = Some v.
Proof.
  intros H. unfold hex_value, hex_digit.
  destruct (N.ltb_spec v 10).
  - rewrite (proj2 (N.leb_le 48 _)), (proj2 (N.leb_le _ 57)) by lia. simpl. f_equal. lia.
  - rewrite (proj2 (N.leb_gt _ 57)), andb_false_r by lia.
    rewrite (proj2 (N.leb_le 97 _)), (proj2 (N.leb_le _ 102)) by lia. simpl. f_equal. lia.
Qed.

Lemma nibbles b : b < 256 → N.shiftr b 4 < 16 ∧ N.land b 15 < 16.
Proof.
  intros H. rewrite N.shiftr_div_pow2. change 15 with (N.ones 4). rewrite N.land_ones.
  split; [apply N.Div0.div_lt_upper_bound; lia|by apply N.mod_lt].
Qed.

Lemma join_nibbles hi lo :
  hi < 16 → lo < 16 → N.lor (N.shiftl hi 4 mod 256) lo = hi * 16 + lo.
Proof.
  intros Hh Hl. rewrite N.shiftl_mul_pow2. change (2 ^ 4) with 16.
  rewrite N.mod_small by lia. rewrite <-N.lxor_lor, <-N.add_nocarry_lxor; [done|..];
  apply N.bits_inj_0; intros n; rewrite N.land_spec; change 16 with (2 ^ 4);
  rewrite <-N.shiftl_mul_pow2;
  (destruct (N.lt_ge_cases n 4) as [Hn|Hn];
   [by rewrite N.shiftl_spec_low by done|
    rewrite (N.bits_above_log2 lo), andb_false_r; [done|];
    destruct (N.eq_dec lo 0) as [->|?]; [simpl; lia|];
    apply N.log2_lt_pow2; [lia|];
    apply (N.lt_le_trans _ (2 ^ 4)); [done|by apply N.pow_le_mono_r]]).
Qed.

Lemma split_nibbles b : b = N.shiftr b 4 * 16 + N.land b 15.
Proof.
  rewrite N.shiftr_div_pow2. change 15 with (N.ones 4). rewrite N.land_ones.
  change (2 ^ 4) with 16. pose proof (N.div_mod' b 16). lia.
Qed.

Lemma parse_pairs_encode i bs :
  Forall is_byte bs →
  parse_pairs i (bs ≫= λ b, [hex_digit (N.shiftr b 4); hex_digit (N.land b 15)]) = Ok bs.
Proof.
  intros H. revert i. induction H as [|b bs Hb _ IH]; intros i; [done|].
  destruct (nibbles b Hb) as [Hh Hl]. csimpl.
  rewrite !hex_value_digit by done. simpl. rewrite IH. simpl.
  by rewrite join_nibbles, <-split_nibbles by done.
Qed.

Lemma hex_digit_byte v : v < 16 → is_byte (hex_digit v).
Proof. unfold hex_digit, is_byte. intros. case_match; lia. Qed.

Lemma hex_bytes_byte bs :
  Forall is_byte bs →
  Forall is_byte (bs ≫= λ b, [hex_digit (N.shiftr b 4); hex_digit (N.land b 15)]).
Proof.
  induction 1 as [|b bs Hb _ IH]; csimpl; [constructor|].
  destruct (nibbles b Hb). repeat constructor; auto using hex_digit_byte.
Qed.

Lemma length_hex_bytes bs :
  length (bs ≫= λ b, [hex_digit (N.shiftr b 4); hex_digit (N.land b 15)]) = (2 * length bs)%nat.
Proof. induction bs; csimpl; lia. Qed.

Lemma parse_pairs_wf i bs out :
  Forall is_byte bs → parse_pairs i bs = Ok out →
  length out = Nat.div2 (length bs) ∧ Forall is_byte out ∧
  (Nat.Even (length bs) →
   (out ≫= λ b, [hex_digit (N.shiftr b 4); hex_digit (N.land b 15)]) = to_lower_byte <$> bs).
Proof.
  revert i out. induction bs as [bs IH] using (induction_ltof1 _ length). unfold ltof in IH.
  intros i out Hb H. destruct bs as [|h [|l rest]]; simpl in H; simplify_eq.
  { done. }
  { repeat split; [constructor|]. intros [k Hk]. simpl in Hk. lia. }
  apply result_bind_Ok in H as (hi & Hh & H). apply result_bind_Ok in H as (lo & Hlo & H).
  apply result_bind_Ok in H as (x1 & Hr & H). inv_result. subst.
  destruct (hex_value_Some _ _ Hh) as [H1 H1'], (hex_value_Some _ _ Hlo) as [H2 H2'].
  apply Forall_cons in Hb as [_ Hb]. apply Forall_cons in Hb as [_ Hb].
  destruct (IH rest) with (i := i + 1) (out := x1) as (IHl & IHb & IHe); [simpl; lia|done..|].
  rewrite join_nibbles by done. split_and!.
  - csimpl. by rewrite IHl.
  - constructor; [unfold is_byte; lia|done].
  - intros He. csimpl. rewrite IHe.
    + f_equal; [|f_equal].
      * rewrite <-H1'. f_equal. rewrite N.shiftr_div_pow2. change (2 ^ 4) with 16.
        rewrite N.div_add_l by done. rewrite N.div_small by done. lia.
      * rewrite <-H2'. f_equal. change 15 with (N.ones 4). rewrite N.land_ones.
        change (2 ^ 4) with 16. rewrite N.add_comm, N.Div0.mod_add. by apply N.mod_small.
    + destruct He as [k Hk]. simpl in Hk. exists (pred k). lia.
Qed.

Lemma from_str_Ok s d :
  from_str s = Ok d → wf d ∧ as_bytes (to_hex d) = to_lower_byte <$> as_bytes s.
Proof.
  unfold from_str. destruct (N.eqb_spec (vlen (as_bytes s)) 64) as [Hn|]; simpl; [|done].
  intros H. inv_result. subst d. unfold vlen in Hn.
  destruct (parse_pairs_wf 0 (as_bytes s) x) as (Hl & Hb & He); [auto with warden|done|].
  replace (length (as_bytes s)) with 64%nat in * by lia. unfold wf, to_hex, hex_encode; simpl.
  split; [done|]. rewrite as_of_bytes by by apply hex_bytes_byte.
  apply He. by exists 32%nat.
Qed.

Lemma from_str_to_hex d : wf d → from_str (to_hex d) = Ok d.
Proof.
  intros [Hl Hb]. unfold from_str, to_hex, hex_encode.
  rewrite as_of_bytes by by apply hex_bytes_byte. unfold vlen.
  rewrite length_hex_bytes, Hl. simpl. rewrite parse_pairs_encode by done. simpl. by destruct d.
Qed.

Lemma to_hex_inj d e : wf d → wf e → to_hex d = to_hex e → d = e.
Proof.
  intros Hd He H. apply from_str_to_hex in Hd, He. rewrite H in Hd. congruence.
Qed.

Lemma len_to_hex d : wf d → len (to_hex d) = 64.
Proof.
  intros [Hl _]. unfold len, to_hex, hex_encode. by rewrite length_of_bytes, length_hex_bytes, Hl.
Qed.

(** Where parsing fails: the first offset that is not a hexadecimal digit. *)
Lemma parse_pairs_Err i bs e :
  Nat.Even (length bs) → parse_pairs i bs = Err e →
  ∃ k c, bs !! k = Some c ∧ e = InvalidCharacter (i * 2 + N.of_nat k) ∧
         hex_value c = None ∧ ∀ j c', (j < k)%nat → bs !! j = Some c' → is_Some (hex_value c').
Proof.
  revert i e. induction bs as [bs IH] using (induction_ltof1 _ length). unfold ltof in IH.
  intros i e He H. destruct bs as [|h [|l rest]]; simpl in H; try done.
  destruct (hex_value h) as [hi|] eqn:Hh; simpl in H; simplify_eq.
  2:{ exists 0%nat, h. repeat split; [f_equal; lia|done|]. intros; lia. }
  destruct (hex_value l) as [lo|] eqn:Hl; simpl in H; simplify_eq.
  2:{ exists 1%nat, l. repeat split; [done|].
      intros [|j] c' ? Hj; [|lia]. simpl in Hj. simplify_eq. by rewrite Hh. }
  apply result_bind_Err in H as [H|(? & _ & H)]; [|done].
  destruct (IH rest) with (i := i + 1) (e := e) as (k & c & Hk & -> & Hc & Hmin); [simpl; lia|..].
  { destruct He as [n Hn]. simpl in Hn. exists (pred n). lia. }
  { done. }
  exists (S (S k)), c. repeat split; [done|f_equal; lia|done|].
  intros [|[|j]] c' ? Hj; simpl in Hj; simplify_eq; [by rewrite Hh|by rewrite Hl|].
  eapply Hmin; [|done]. lia.
Qed.

End Digest.
Export Digest (Sha256Digest, from_bytes, digest_bytes).
#[export] Existing Instances Digest.Sha256Digest_eq_dec Digest.DigestParseError_eq_dec.

(** ** text.rs *)
Module Text.

Definition is_bidi_control (c : N) : bool :=
  ((0x202A <=? c) && (c <=? 0x202E)) || ((0x2066 <=? c) && (c <=? 0x2069))
  || (c =? 0x200E) || (c =? 0x200F) || (c =? 0x061C).

(** [char::is_control]: general category Cc. *)
Definition is_control (c : N) : bool := (c <? 0x20) || ((0x7F <=? c) && (c <? 0xA0)).

Definition unsafe_char (allow_newlines : bool) (c : N) : bool :=
  let allowed_ws := allow_newlines && ((c =? 10) || (c =? 9)) in
  (is_control c && negb allowed_ws) || is_bidi_control c.

Definition has_unsafe_chars (s : string) (allow_newlines : bool) : bool :=
  existsb (unsafe_char allow_newlines) (chars s).

(** [{:x}]: lowercase hexadecimal without leading zeros. *)
Fixpoint hex_go (fuel : nat) (n : N) (acc : list N) : list N :=
  match fuel with
  | O => acc
  | S fuel =>
      let acc := Digest.hex_digit (N.land n 15) :: acc in
      if N.shiftr n 4 =? 0 then acc else hex_go fuel (N.shiftr n 4) acc
  end.
(** A [u32] has at most eight hexadecimal digits. *)
Definition lower_hex (n : N) : list N := hex_go 8 n [].

(** [\u{..}] *)
Definition escape_char (c : N) : list N :=
  if is_control c || is_bidi_control c
  then [92; 117; 123] ++ lower_hex c ++ [125]
  else [c].

Definition escape_unsafe_chars (s : string) : string := of_chars (chars s ≫= escape_char).

Lemma hex_go_safe fuel n acc :
  Forall (λ c, 48 ≤ c < 128 ∧ unsafe_char false c = false) acc →
  Forall (λ c, 48 ≤ c < 128 ∧ unsafe_char false c = false) (hex_go fuel n acc).
Proof.
  revert n acc. induction fuel as [|fuel IH]; intros n acc Hacc; simpl; [done|].
  assert (N.land n 15 < 16) as Hn.
  { change 15 with (N.ones 4). rewrite N.land_ones. by apply N.mod_lt. }
  assert (Forall (λ c, 48 ≤ c < 128 ∧ unsafe_char false c = false)
            (Digest.hex_digit (N.land n 15) :: acc)) as Hacc'.
  { constructor; [|done].
    unfold Digest.hex_digit, unsafe_char, is_control, is_bidi_control. case_match; lia. }
  case_match; auto.
Qed.

Lemma escape_char_safe c :
  is_scalar c →
  Forall (λ c, is_scalar c ∧ unsafe_char false c = false) (escape_char c).
Proof.
  intros Hc. unfold escape_char. destruct (is_control c || is_bidi_control c) eqn:E.
  - apply Forall_app; split; [|apply Forall_app; split].
    + repeat constructor; try done; left; lia.
    + eapply Forall_impl; [apply hex_go_safe; constructor|]. intros x [? ?]. split; [left; lia|done].
    + repeat constructor; try done; left; lia.
  - constructor; [|done]. split; [done|]. unfold unsafe_char. simpl. by rewrite andb_true_r.
Qed.

Lemma escape_chars_safe s :
  Forall (λ c, is_scalar c ∧ unsafe_char false c = false) (chars s ≫= escape_char).
Proof.
  pose proof (chars_scalar s) as H. induction H; csimpl; [constructor|].
  apply Forall_app; split; [by apply escape_char_safe|done].
Qed.

Lemma chars_escape s : chars (escape_unsafe_chars s) = chars s ≫= escape_char.
Proof.
  apply chars_of_chars. eapply Forall_impl; [apply escape_chars_safe|]. by intros x [? _].
Qed.

Lemma escape_char_id cs :
  Forall (λ c, unsafe_char false c = false) cs → cs ≫= escape_char = cs.
Proof.
  induction 1 as [|c cs Hc _ IH]; csimpl; [done|]. rewrite IH.
  unfold escape_char, unsafe_char in *. simpl in Hc. rewrite andb_true_r in Hc. by rewrite Hc.
Qed.

End Text.

(** ** path.rs *)
Module ObservedPath.

Record t := mk { text : string; raw_hex : option string }.

#[export] Instance eq_dec : EqDecision t.
Proof. solve_decision. Defined.

(** The Unix [native_hex]: the raw octets in hexadecimal. *)
Definition native_hex (p : path) : option string := Some (Digest.hex_encode (as_bytes p)).

Definition from_path (p : path) : t :=
  match from_utf8 (as_bytes p) with
  | Some s => mk s None
  | None => mk (of_chars (decode_lossy (as_bytes p))) (native_hex p)
  end.

Definition is_lossy (o : t) : bool := bool_decide (is_Some (raw_hex o)).

End ObservedPath.
Abbreviation ObservedPath := ObservedPath.t.
#[export] Existing Instance ObservedPath.eq_dec.

(** ** finding.rs *)
Module Finding.

Inductive FindingKind := KnownIndicator | Suspicious | Heuristic | Informational.
Inductive Severity := SInfo | SLow | SMedium | SHigh | SCritical.
Inductive Confidence := CLow | CMedium | CHigh | Confirmed.
Inductive ThreatCategory := Malware | PotentiallyUnwanted | TestIndicator | Unknown.
Inductive RecommendedAction := NoAction | Review | Quarantine.
Inductive RemediationStatus := NotAttempted | Quarantined | NotEligible | Failed | Allowed.

#[export] Instance FindingKind_eq_dec : EqDecision FindingKind.
Proof. solve_decision. Defined.
#[export] Instance Confidence_eq_dec : EqDecision Confidence.
Proof. solve_decision. Defined.
#[export] Instance ThreatCategory_eq_dec : EqDecision ThreatCategory.
Proof. solve_decision. Defined.
#[export] Instance RecommendedAction_eq_dec : EqDecision RecommendedAction.
Proof. solve_decision. Defined.
#[export] Instance RemediationStatus_eq_dec : EqDecision RemediationStatus.
Proof. solve_decision. Defined.

Record DetectionSource := {
  detector : string;
  detector_version : string;
  rule_id : option string;
  rule_version : option N;
  database_name : option string;
  database_version : option string }.

Inductive EvidenceKind :=
  | ExactSha256Match | YaraRuleMatch | SuspiciousCommand | SuspiciousLocation
  | InsecurePermissions | CrossViewMismatch | KernelTaint | PackageVerification
  | DeletedExecutable | DetectedContent | PersistenceEntry | HeuristicEvidence.

Record Evidence := { evidence_kind : EvidenceKind; summary : string }.

Record FileMetadata := {
  size : N;
  modified : option Z;
  unix_mode : option N }.

(** [mechanism] names a [PersistenceMechanism] of system.rs by its text. *)
Inductive FindingTarget :=
  | File (path : ObservedPath) (sha256 : option Sha256Digest) (metadata : option FileMetadata)
  | ArchiveMember (archive : ObservedPath) (member : list ObservedPath)
      (sha256 : option Sha256Digest) (size : N)
  | Persistence (mechanism : string) (location : ObservedPath) (entry : option string)
  | Process (pid : N) (name : string) (exe : option ObservedPath)
  | System (component : string).

(** [FindingTarget::path] *)
Definition target_path (t : FindingTarget) : option ObservedPath :=
  match t with
  | Persistence _ location _ => Some location
  | Process _ _ exe => exe
  | System _ => None
  | File path _ _ => Some path
  | ArchiveMember archive _ _ _ => Some archive
  end.

(** [FindingTarget::sha256] *)
Definition target_sha256 (t : FindingTarget) : option Sha256Digest :=
  match t with
  | File _ sha256 _ | ArchiveMember _ _ sha256 _ => sha256
  | Persistence _ _ _ | Process _ _ _ | System _ => None
  end.

Record t := mk {
  id : string;
  kind : FindingKind;
  name : string;
  severity : Severity;
  confidence : Confidence;
  category : ThreatCategory;
  target : FindingTarget;
  source : DetectionSource;
  evidence : list Evidence;
  explanation : string;
  recommended_action : RecommendedAction;
  remediation_guidance : option string;
  remediation_status : RemediationStatus;
  remediation_detail : option string;
  detected_at : Z }.

(** [f.remediation_status = s; f.remediation_detail = d;] *)
Definition set_remediation (s : RemediationStatus) (d : option string) (f : t) : t :=
  mk (id f) (kind f) (name f) (severity f) (confidence f) (category f) (target f)
     (source f) (evidence f) (explanation f) (recommended_action f)
     (remediation_guidance f) s d (detected_at f).

End Finding.
Abbreviation Finding := Finding.t.
#[export] Existing Instances Finding.FindingKind_eq_dec Finding.Confidence_eq_dec
  Finding.ThreatCategory_eq_dec Finding.RecommendedAction_eq_dec
  Finding.RemediationStatus_eq_dec.

(** ** report.rs *)
Module Report.

Inductive ScanStatus := Completed | Cancelled | TimeLimitReached.
#[export] Instance ScanStatus_eq_dec : EqDecision ScanStatus.
Proof. solve_decision. Defined.

Inductive SkipReason :=
  | SymlinkNotFollowed | NotRegularFile | ExceedsMaxFileSize | Excluded
  | DepthLimitReached | DuplicateFile | ArchiveTooLarge | ArchiveLimitReached
  | ArchiveMemberEncrypted | ArchiveMemberUnsupported | ContentNotInspected.
#[export] Instance SkipReason_eq_dec : EqDecision SkipReason.
Proof. solve_decision. Defined.

(** The order of declaration, as [derive(Ord)] gives it. *)
Definition skip_reason_index (r : SkipReason) : nat :=
  match r with
  | SymlinkNotFollowed => 0 | NotRegularFile => 1 | ExceedsMaxFileSize => 2 | Excluded => 3
  | DepthLimitReached => 4 | DuplicateFile => 5 | ArchiveTooLarge => 6
  | ArchiveLimitReached => 7 | ArchiveMemberEncrypted => 8 | ArchiveMemberUnsupported => 9
  | ContentNotInspected => 10
  end%nat.
Definition skip_reason_of (n : nat) : option SkipReason :=
  [SymlinkNotFollowed; NotRegularFile; ExceedsMaxFileSize; Excluded; DepthLimitReached;
   DuplicateFile; ArchiveTooLarge; ArchiveLimitReached; ArchiveMemberEncrypted;
   ArchiveMemberUnsupported; ContentNotInspected] !! n.
#[export] Instance SkipReason_countable : Countable SkipReason.
Proof.
  apply (inj_countable skip_reason_index skip_reason_of). by intros [].
Defined.

Record SkippedEntry := {
  skip_path : ObservedPath;
  skip_reason : SkipReason;
  skip_member : option (list ObservedPath) }.

Inductive IssueKind :=
  | PermissionDenied | NotFound | FilesystemLoop | Io | DetectorFailed | Timeout
  | ArchiveError | Locked.
#[export] Instance IssueKind_eq_dec : EqDecision IssueKind.
Proof. solve_decision. Defined.

Record ScanIssue := {
  issue_path : option ObservedPath;
  issue_kind : IssueKind;
  issue_detector : option string;
  issue_message : string;
  issue_member : option (list ObservedPath) }.

Record ScanStats := mkStats {
  directories_visited : N;
  files_scanned : N;
  bytes_scanned : N;
  entries_skipped : N;
  skipped_by_reason : gmap SkipReason N;
  issues_count : N;
  findings_count : N;
  archive_members_scanned : N }.

Definition default_stats : ScanStats := mkStats 0 0 0 0 ∅ 0 0 0.

Record Truncation := mkTrunc {
  findings_omitted : N;
  skipped_omitted : N;
  issues_omitted : N }.

(** [Truncation::any] *)
Definition any (t : Truncation) : bool :=
  0 <? findings_omitted t + skipped_omitted t + issues_omitted t.

(** The parts of [ScanReport] that carry results ([schema_version], engine
    identity, settings and bundle descriptions are fixed data). *)
Record ScanReport := mkReport {
  status : ScanStatus;
  max_file_size : N;
  stats : ScanStats;
  findings : list Finding;
  skipped : list SkippedEntry;
  issues : list ScanIssue;
  truncated : Truncation;
  warnings : list string }.

(** [ScanReport::is_complete] *)
Definition is_complete (r : ScanReport) : bool :=
  bool_decide (status r = Completed) && (issues_count (stats r) =? 0).

Definition set_findings (r : ScanReport) (fs : list Finding) : ScanReport :=
  mkReport (status r) (max_file_size r) (stats r) fs (skipped r) (issues r) (truncated r) (warnings r).

Definition push_warning (r : ScanReport) (w : string) : ScanReport :=
  mkReport (status r) (max_file_size r) (stats r) (findings r) (skipped r) (issues r)
    (truncated r) (warnings r ++ [w]).

End Report.
#[export] Existing Instances Report.ScanStatus_eq_dec Report.SkipReason_eq_dec
  Report.SkipReason_countable Report.IssueKind_eq_dec.

(** ** config.rs *)
Module Config.

Inductive SymlinkPolicy := Skip | Follow.
#[export] Instance SymlinkPolicy_eq_dec : EqDecision SymlinkPolicy.
Proof. solve_decision. Defined.

Record ArchiveLimits := mkArchiveLimits {
  enabled : bool;
  archive_max_depth : N;
  max_entries : N;
  max_total_bytes : N;
  max_member_content : N }.

Definition DEFAULT_MAX_DEPTH : N := 3.
Definition DEFAULT_MAX_ENTRIES : N := 10000.
Definition DEFAULT_MAX_TOTAL_BYTES : N := 1024 * 1024 * 1024.
Definition DEFAULT_MAX_MEMBER_CONTENT : N := 8 * 1024 * 1024.

Definition default_archive_limits : ArchiveLimits :=
  mkArchiveLimits true DEFAULT_MAX_DEPTH DEFAULT_MAX_ENTRIES DEFAULT_MAX_TOTAL_BYTES
    DEFAULT_MAX_MEMBER_CONTENT.

Record ScanLimits := mkScanLimits {
  max_file_size : N;
  max_depth : N;
  max_recorded_entries : N;
  max_recorded_findings : N;
  max_content_size : N;
  file_timeout_ms : N;
  scan_timeout_ms : option N;
  archives : ArchiveLimits }.

Definition default_scan_limits : ScanLimits :=
  mkScanLimits (512 * 1024 * 1024) 256 10000 100000 (64 * 1024 * 1024) 60000 None
    default_archive_limits.

(** [ScanLimits::file_timeout], in nanoseconds. *)
Definition file_timeout (l : ScanLimits) : Z := (Z.of_N (file_timeout_ms l) * 1000000)%Z.

Record ScanConfig := mkScanConfig {
  roots : list path;
  excludes : list path;
  symlink_policy : SymlinkPolicy;
  same_file_system : bool;
  limits : ScanLimits;
  workers : N }.

Definition MAX_WORKERS : N := 64.

(** [default_workers] for a machine with [n] available processors
    ([None]: unknown). *)
Definition default_workers (n : option N) : N := N.min 8 (N.max 1 (default 1 n)).

(** [ScanConfig::new] *)
Definition new (roots : list path) (parallelism : option N) : ScanConfig :=
  mkScanConfig roots [] Skip false default_scan_limits (default_workers parallelism).

Inductive ConfigError :=
  | NoRoots
  | EmptyPath
  | ZeroLimit (limit : string)
  | InvalidWorkers (requested max : N).

Definition validate (c : ScanConfig) : result ConfigError unit :=
  _ ← reject_if (bool_decide (roots c = [])) NoRoots;
  _ ← reject_if (existsb (λ p, bool_decide (p = "")) (roots c ++ excludes c)) EmptyPath;
  _ ← reject_if (max_file_size (limits c) =? 0) (ZeroLimit "max_file_size");
  _ ← reject_if (max_recorded_findings (limits c) =? 0) (ZeroLimit "max_recorded_findings");
  _ ← reject_if (file_timeout_ms (limits c) =? 0) (ZeroLimit "file_timeout_ms");
  _ ← reject_if (bool_decide (scan_timeout_ms (limits c) = Some 0)) (ZeroLimit "scan_timeout_ms");
  let a := archives (limits c) in
  _ ← (if enabled a then
         _ ← reject_if (archive_max_depth a =? 0) (ZeroLimit "archives.max_depth");
         _ ← reject_if (max_entries a =? 0) (ZeroLimit "archives.max_entries");
         _ ← reject_if (max_total_bytes a =? 0) (ZeroLimit "archives.max_total_bytes");
         reject_if (max_member_content a =? 0) (ZeroLimit "archives.max_member_content")
       else Ok tt);
  reject_if ((workers c =? 0) || (MAX_WORKERS <? workers c)) (InvalidWorkers (workers c) MAX_WORKERS).

(** What a validated configuration guarantees to the scanner. *)
Record valid (c : ScanConfig) : Prop := {
  valid_roots : roots c ≠ [];
  valid_paths : Forall (λ p, p ≠ "") (roots c ++ excludes c);
  valid_file_size : 0 < max_file_size (limits c);
  valid_findings : 0 < max_recorded_findings (limits c);
  valid_timeout : 0 < file_timeout_ms (limits c);
  valid_scan_timeout : scan_timeout_ms (limits c) ≠ Some 0;
  valid_archives : enabled (archives (limits c)) = true →
    0 < archive_max_depth (archives (limits c)) ∧ 0 < max_entries (archives (limits c)) ∧
    0 < max_total_bytes (archives (limits c)) ∧ 0 < max_member_content (archives (limits c));
  valid_workers : 1 ≤ workers c ≤ MAX_WORKERS }.

Lemma validate_valid c : validate c = Ok tt ↔ valid c.
Proof.
  unfold validate. split.
  - intros H. inv_result. reflect_bools. constructor; try done; try lia.
    + eapply Forall_impl; [done|]. intros p Hp. by apply bool_decide_eq_false in Hp.
    + intros He. rewrite He in *. inv_result. lia.
  - intros [Hr Hp Hs Hf Ht Hst Ha Hw].
    rewrite reject_pass by by apply bool_decide_eq_false_2.
    rewrite reject_pass.
    2:{ apply existsb_false. eapply Forall_impl; [done|]. intros p ?. by apply bool_decide_eq_false_2. }
    do 3 rewrite reject_pass by lia.
    rewrite reject_pass by by apply bool_decide_eq_false_2.
    apply result_bind_Ok. exists tt. split; [|apply reject_if_Ok; lia].
    destruct (enabled (archives (limits c))); [|done].
    destruct Ha as (? & ? & ? & ?); [done|].
    do 3 rewrite reject_pass by lia. apply reject_if_Ok. lia.
Qed.

End Config.

(** ** Properties *)
Module CoreProps.
Import Digest Text.

Lemma hex_value_lower c : hex_value (to_lower_byte c) = hex_value c.
Proof.
  unfold hex_value, to_lower_byte, is_ascii_upper.
  destruct ((65 <=? c) && (c <=? 90)) eqn:E;
    repeat case_match; first [done|f_equal; lia|exfalso; lia].
Qed.

Lemma lower_is_byte c : is_byte c → is_byte (to_lower_byte c).
Proof. unfold is_byte, to_lower_byte, is_ascii_upper. intros. case_match; lia. Qed.

Lemma parse_pairs_lower i bs out :
  parse_pairs i (to_lower_byte <$> bs) = Ok out → parse_pairs i bs = Ok out.
Proof.
  revert i out. induction bs as [bs IH] using (induction_ltof1 _ length). unfold ltof in IH.
  intros i out H. destruct bs as [|h [|l rest]]; csimpl in H; [done..|]. csimpl.
  rewrite !hex_value_lower in H. inv_result.
  destruct (hex_value h), (hex_value l); simpl in *; simplify_eq.
  erewrite IH; [done|simpl; lia|done].
Qed.

(** A digest is parsed from exactly the texts that are its lowercase
    hexadecimal form up to ASCII case; in particular parsing inverts
    [to_hex], and every digest that is parsed has 32 octets. *)
Theorem from_str_exact s d :
  from_str s = Ok d ↔ wf d ∧ to_ascii_lowercase s = to_hex d.
Proof.
  split.
  - intros H. destruct (from_str_Ok _ _ H) as [Hw He]. split; [done|].
    unfold to_ascii_lowercase. by rewrite <-He, of_as_bytes.
  - intros [Hw He]. pose proof (from_str_to_hex _ Hw) as H. rewrite <-He in H.
    unfold from_str, to_ascii_lowercase in *.
    assert (as_bytes (of_bytes (to_lower_byte <$> as_bytes s)) = to_lower_byte <$> as_bytes s) as E.
    { apply as_of_bytes, Forall_fmap. eapply Forall_impl; [apply as_bytes_is_byte|].
      exact lower_is_byte. }
    rewrite E in H. unfold vlen in *. rewrite length_fmap in H.
    destruct (N.of_nat (length (as_bytes s)) =? 64); simpl in *; [|done].
    inv_result. subst. by erewrite parse_pairs_lower.
Qed.

(** Parsing a digest fails in exactly two ways: a text that is not 64
    octets long is reported with its length; otherwise the reported offset is
    that of the first octet that is not a hexadecimal digit. *)
Theorem from_str_error s e :
  from_str s = Err e →
  (e = InvalidLength (len s) ∧ len s ≠ 64) ∨
  (len s = 64 ∧ ∃ k c, as_bytes s !! k = Some c ∧ e = InvalidCharacter (N.of_nat k) ∧
     hex_value c = None ∧ ∀ j c', (j < k)%nat → as_bytes s !! j = Some c' → is_Some (hex_value c')).
Proof.
  unfold from_str, len, vlen. rewrite length_as_bytes.
  destruct (N.eqb_spec (N.of_nat (String.length s)) 64) as [Hn|Hn]; cbn [negb]; intros H.
  - right. split; [done|]. apply result_bind_Err in H as [H|(? & _ & H)]; [|done].
    apply parse_pairs_Err in H; [by setoid_rewrite N.mul_0_l in H|].
    rewrite length_as_bytes. exists 32%nat. lia.
  - left. by simplify_eq.
Qed.

Lemma from_str_error_witness :
  from_str "zz" = Err (InvalidLength 2) ∧
  ((InvalidLength 2 = InvalidLength (len "zz") ∧ len "zz" ≠ 64) ∨
   (len "zz" = 64 ∧ ∃ k c, as_bytes "zz" !! k = Some c ∧
      InvalidLength 2 = InvalidCharacter (N.of_nat k) ∧ hex_value c = None ∧
      ∀ j c', (j < k)%nat → as_bytes "zz" !! j = Some c' → is_Some (hex_value c'))).
Proof. split; [reflexivity|]. apply from_str_error. reflexivity. Defined.

(** Escaping leaves no control character and no bidirectional control in
    the text, whatever the input (the escape characters themselves included),
    and escaping twice is escaping once. *)
Theorem escape_removes_unsafe s :
  has_unsafe_chars (escape_unsafe_chars s) false = false ∧
  escape_unsafe_chars (escape_unsafe_chars s) = escape_unsafe_chars s.
Proof.
  pose proof (escape_chars_safe s) as Hs.
  assert (Forall (λ c, unsafe_char false c = false) (chars s ≫= escape_char)) as Hu.
  { eapply Forall_impl; [done|]. by intros c [_ ?]. }
  split.
  - unfold has_unsafe_chars. rewrite chars_escape. by apply existsb_false.
  - unfold escape_unsafe_chars at 1. rewrite chars_escape, escape_char_id by done. done.
Qed.

(** A configuration passes [validate] exactly when it has a root, no
    empty path, no zero limit (the archive limits only when archives are
    enabled) and between 1 and 64 workers. *)
Theorem validate_exact c : Config.validate c = Ok tt ↔ Config.valid c.
Proof. apply Config.validate_valid. Qed.

End CoreProps.
