(* ===== verification/External.v ===== *)
(** * Code outside the repository

    The hash function and the JSON codec are parameters of the model, with the
    documented behaviour the code relies on as laws. [Toy] instantiates both,
    so that statements with these laws as hypotheses have concrete instances. *)

From S2P Require Import Prelude Utf8 Paths Core.

(** [sha2::Sha256::digest] *)
Class Sha256 := sha256 : bytes → Sha256Digest.

(** A digest is 32 octets. *)
Class Sha256Laws `{Sha256} : Prop := sha256_wf bs : Digest.wf (sha256 bs).

(** [serde_json::to_vec] and [serde_json::from_slice] at a type with derived
    [Serialize] and [Deserialize] implementations; errors are their text. *)
Class Json (A : Type) := {
  to_vec : A → result string bytes;
  from_slice : bytes → result string A }.

(** Reading back what was written gives the value, and compact JSON contains
    no raw line feed (control characters are escaped in strings). *)
Class JsonLaws (A : Type) `{Json A} : Prop := {
  from_slice_to_vec (a : A) bs : to_vec a = Ok bs → from_slice bs = Ok a;
  to_vec_no_newline (a : A) bs : to_vec a = Ok bs → 10 ∉ bs;
  to_vec_bytes (a : A) bs : to_vec a = Ok bs → Forall is_byte bs }.

(** [serde_json::to_vec_pretty]: read back by the same [from_slice]. *)
Class JsonPretty (A : Type) := to_vec_pretty : A → result string bytes.
Class JsonPrettyLaws (A : Type) `{Json A, JsonPretty A} : Prop :=
  from_slice_to_vec_pretty (a : A) bs : to_vec_pretty a = Ok bs → from_slice bs = Ok a.

Module Toy.

(** A checksum in place of SHA-256. *)
Definition digest (bs : bytes) : Sha256Digest :=
  let n := foldl (λ acc b, (acc * 257 + b + 1) mod 2 ^ 64) 7 bs in
  from_bytes ((λ i, N.land (N.shiftr n (8 * N.of_nat (i mod 8))) 255) <$> seq 0 32).

Definition sha : Sha256 := digest.

Lemma sha_laws : @Sha256Laws sha.
Proof.
  intros bs. split.
  - cbn [sha256 sha digest digest_bytes]. by rewrite length_fmap, length_seq.
  - apply Forall_fmap, Forall_true. intros i. unfold is_byte; simpl.
    change 255 with (N.ones 8). rewrite N.land_ones. by apply N.mod_lt.
Qed.

(** A value is written as the binary digits of its code. *)
Fixpoint bits (p : positive) : bytes :=
  match p with
  | xH => []
  | xO p => 48 :: bits p
  | xI p => 49 :: bits p
  end.

Fixpoint unbits (bs : bytes) : option positive :=
  match bs with
  | [] => Some xH
  | b :: bs =>
      p ← unbits bs;
      if b =? 48 then Some (xO p) else if b =? 49 then Some (xI p) else None
  end.

Definition json (A : Type) `{Countable A} : Json A := {|
  to_vec a := Ok (bits (countable.encode a));
  from_slice bs := ok_or (unbits bs ≫= countable.decode) "invalid value" |}.

Definition json_pretty (A : Type) `{Countable A} : JsonPretty A := λ a, Ok (bits (countable.encode a)).

Lemma unbits_bits p : unbits (bits p) = Some p.
Proof. induction p as [p IH|p IH|]; simpl; [by rewrite IH..|done]. Qed.

Lemma bits_digits p : Forall (λ b, b = 48 ∨ b = 49) (bits p).
Proof. induction p; simpl; constructor; auto. Qed.

Lemma json_laws (A : Type) `{Countable A} : @JsonLaws A (json A).
Proof.
  split; simpl; intros a bs [= <-].
  - rewrite unbits_bits; simpl; by rewrite countable.decode_encode.
  - intros Hin. by destruct (proj1 (Forall_forall _ _) (bits_digits (countable.encode a)) _ Hin).
  - eapply Forall_impl; [apply bits_digits|]. by intros b [-> | ->].
Qed.

Lemma json_pretty_laws (A : Type) `{Countable A} :
  @JsonPrettyLaws A (json A) (json_pretty A).
Proof. intros a bs [= <-]. simpl. rewrite unbits_bits; simpl; by rewrite countable.decode_encode. Qed.

End Toy.

#[export] Instance Sha256Digest_countable : Countable Sha256Digest :=
  inj_countable' digest_bytes from_bytes (λ d, match d with from_bytes _ => eq_refl end).
#[export] Instance ObservedPath_countable : Countable ObservedPath :=
  inj_countable' (λ o, (ObservedPath.text o, ObservedPath.raw_hex o))
    (λ p, ObservedPath.mk p.1 p.2) (λ o, match o with ObservedPath.mk _ _ => eq_refl end).

(** Text the standard library renders from the C library or from Unicode
    tables: the message of an [errno] and the [Debug] form of a string. *)
Class StdText := {
  strerror : N → string;
  debug_str : string → string }.

Definition toy_text : StdText := {|
  strerror n := show_N n;
  debug_str s := s |}.

(** An [io::Error]: from a system call, or made by the program. *)
Inductive IoError := Os (errno : N) | OtherError (text : string).
#[export] Instance IoError_eq_dec : EqDecision IoError.
Proof. solve_decision. Defined.

Definition io_text `{StdText} (e : IoError) : string :=
  match e with Os n => strerror n | OtherError t => t end.

(** [e.kind() == io::ErrorKind::NotFound] *)
Definition is_not_found (e : IoError) : bool := bool_decide (e = Os 2).

(** [path.display()] and [to_string_lossy()]: UTF-8, with replacement
    characters. *)
Definition display (p : path) : string := of_chars (decode_lossy (as_bytes p)).

(** Times as the [time] crate prints them: RFC 3339 (no rendering for years
    past 9999), and [Display]. *)
Class TimeText := {
  rfc3339 : Z → option string;
  time_string : Z → string }.

Definition toy_time : TimeText := {|
  rfc3339 t := Some (pretty t);
  time_string t := pretty t |}.
