(* ===== verification/AuditLog.v ===== *)
(** * The hash-chained audit log and its anchors

    [Audit] models [crates/remediation/src/audit.rs]; [Anchors] models
    [anchors.rs], [anchor_text] of [common.rs] and [linux/anchor.rs]. *)

From S2P Require Import Prelude Utf8 Core External.

(** ** Reading a stream by lines *)

(** A [Read] value: the octets it delivers, then end of file ([None]) or an
    error. *)
Record reader := mkReader { rd_bytes : bytes; rd_end : option string }.

Inductive stopped := AtNewline | AtLimit | AtEnd.

(** [reader.take(limit).read_until(b'\n', &mut line)] over octets still to
    come: the line read, what is left, and why it stopped. *)
Fixpoint take_line (limit : N) (l : bytes) : bytes * bytes * stopped :=
  match l with
  | [] => ([], [], if limit =? 0 then AtLimit else AtEnd)
  | b :: r =>
      if limit =? 0 then ([], l, AtLimit)
      else if b =? 10 then ([b], r, AtNewline)
      else let '(line, rest, why) := take_line (limit - 1) r in (b :: line, rest, why)
  end.

Definition read_until (limit : N) (rd : reader) : result string (bytes * reader) :=
  let '(line, rest, why) := take_line limit (rd_bytes rd) in
  match why, rd_end rd with
  | AtEnd, Some e => Err e
  | _, _ => Ok (line, mkReader rest (rd_end rd))
  end.

Lemma take_line_shrinks limit l line rest why :
  take_line limit l = (line, rest, why) → l = line ++ rest.
Proof.
  revert limit line rest why. induction l as [|b l IH]; intros limit line rest why H; simpl in H.
  - by simplify_eq.
  - repeat case_match; simplify_eq; simpl; [done..|]. f_equal. eapply IH. eauto.
Qed.

Lemma take_line_newline limit line rest :
  10 ∉ line → vlen line < limit → take_line limit (line ++ (10 :: rest)) = (line ++ [10], rest, AtNewline).
Proof.
  revert limit. induction line as [|b line IH]; intros limit Hn Hl; simpl.
  - by rewrite (proj2 (N.eqb_neq _ _)) by lia.
  - autorewrite with warden in Hl. apply not_elem_of_cons in Hn as [Hb Hn].
    rewrite !(proj2 (N.eqb_neq _ _)) by lia. by rewrite IH by (done || lia).
Qed.

(** What was read when it ends with the separator. *)
Lemma take_line_last limit l line rest why :
  take_line limit l = (line, rest, why) → last line = Some 10 →
  ∃ body, line = body ++ [10] ∧ (10 ∉ body) ∧ vlen body < limit.
Proof.
  revert limit line rest why. induction l as [|b l IH]; intros limit line rest why H Hl; simpl in H.
  - by simplify_eq.
  - destruct (N.eqb_spec limit 0) as [|Hlim]; [by simplify_eq|].
    destruct (N.eqb_spec b 10) as [->|Hb].
    + simplify_eq. exists []. repeat split; [set_solver|]. autorewrite with warden. lia.
    + destruct (take_line (limit - 1) l) as [[line' rest'] why'] eqn:E. simplify_eq.
      destruct line' as [|c line']; [simpl in Hl; congruence|].
      destruct (IH _ _ _ _ E) as (body & -> & Hn & Hlen); [by rewrite <-Hl|].
      exists (b :: body). split; [done|]. split; [set_solver|]. autorewrite with warden. lia.
Qed.

(** A line longer than the limit is cut. *)
Lemma take_line_over limit line rest :
  10 ∉ line → limit ≤ vlen line →
  take_line limit (line ++ rest) = (take (N.to_nat limit) line, drop (N.to_nat limit) line ++ rest, AtLimit).
Proof.
  revert limit. induction line as [|b line IH]; intros limit Hn Hl; autorewrite with warden in Hl.
  - replace limit with 0 by lia. by destruct rest.
  - apply not_elem_of_cons in Hn as [Hb Hn]. simpl. destruct (N.eqb_spec limit 0) as [->|Hz]; [done|].
    rewrite (proj2 (N.eqb_neq _ _)) by lia. rewrite IH by (done || lia).
    by replace (N.to_nat limit) with (S (N.to_nat (limit - 1))) by lia.
Qed.

Lemma take_line_nil limit l rest why :
  limit ≠ 0 → take_line limit l = ([], rest, why) → l = [] ∧ why = AtEnd.
Proof.
  intros Hl. destruct l as [|b l]; simpl; rewrite (proj2 (N.eqb_neq _ _) Hl).
  - by intros [= <- <-].
  - repeat case_match; by intros [=].
Qed.

Module Audit.

Record AuditEntry := mkEntry {
  seq : N;
  time : Z;
  actor_uid : N;
  actor_sid : option string;
  on_behalf_of : option string;
  action : string;
  item : option string;
  path : option ObservedPath;
  sha256 : option Sha256Digest;
  outcome : string;
  detail : option string;
  prev : string }.

#[export] Instance AuditEntry_eq_dec : EqDecision AuditEntry.
Proof. solve_decision. Defined.
#[export] Instance AuditEntry_countable : Countable AuditEntry.
Proof.
  apply (inj_countable'
    (λ e, (seq e, time e, actor_uid e, actor_sid e, on_behalf_of e, action e,
           (item e, path e, sha256 e, outcome e, detail e, prev e)))
    (λ '(a, b, c, d, e, f, (g, h, i, j, k, l)), mkEntry a b c d e f g h i j k l)).
  by intros [].
Defined.

Definition set_seq_prev (s : N) (p : string) (e : AuditEntry) : AuditEntry :=
  mkEntry s (time e) (actor_uid e) (actor_sid e) (on_behalf_of e) (action e) (item e)
    (path e) (sha256 e) (outcome e) (detail e) p.

Inductive AuditError :=
  | Broken (line : N) (reason : string)
  | Io (e : string)
  | Serialize (e : string).

Definition GENESIS : string :=
  "0000000000000000000000000000000000000000000000000000000000000000".
Definition MAX_LINE : N := 256 * 1024.

Record ChainHead := mkHead {
  head_seq : N;
  head_hash : string;
  head_first : option string }.

Definition genesis : ChainHead := mkHead 0 GENESIS None.
#[local] Arguments GENESIS : simpl never.
#[local] Arguments MAX_LINE : simpl never.

Definition chain_id (first_entry_hash : string) : string :=
  of_chars (take 16 (chars first_entry_hash)).

(** [ChainHead::chain_id] *)
Definition head_chain_id (h : ChainHead) : option string := chain_id <$> head_first h.

Section Chain.
Context `{Sha256} `{Json AuditEntry}.

Definition line_hash (line : bytes) : string := Digest.to_hex (External.sha256 line).

Definition encode (entry : AuditEntry) (head : ChainHead)
    : result AuditError (bytes * ChainHead) :=
  let entry := set_seq_prev (head_seq head + 1) (head_hash head) entry in
  line ← map_err Serialize (to_vec entry);
  let hash := line_hash line in
  let new_head := mkHead (seq entry) hash
    (match head_first head with Some f => Some f | None => Some hash end) in
  mret (line ++ [10], new_head).

(** One round of the loop of [walk_chain] on a line that was read: the
    accumulator is what [on_entry] updates. *)
Definition walk_line {A} (on_entry : A → N → string → A) (line : bytes)
    (head : ChainHead) (acc : A) : result AuditError (ChainHead * A) :=
  let lineno := head_seq head + 1 in
  _ ← reject_if (negb (bool_decide (last line = Some 10)))
        (Broken lineno "incomplete or over-long line");
  let line := removelast line in
  entry ← map_err (λ e, Broken lineno (fmt "not a valid entry: {e}" [e])) (from_slice line);
  _ ← reject_if (negb (seq entry =? lineno))
        (Broken lineno (fmt "sequence {} where {lineno} expected" [show_N (seq entry); show_N lineno]));
  _ ← reject_if (negb (bool_decide (prev entry = head_hash head)))
        (Broken lineno "hash chain mismatch (a previous line was altered or removed)");
  let hash := line_hash line in
  mret (mkHead lineno hash
          (match head_first head with Some f => Some f | None => Some hash end),
        on_entry acc lineno hash).

(** The loop; [None] when the fuel runs out. *)
Fixpoint walk_loop {A} (fuel : nat) (on_entry : A → N → string → A) (rd : reader)
    (head : ChainHead) (acc : A) : option (result AuditError (ChainHead * A)) :=
  match fuel with
  | O => None
  | S fuel =>
      match read_until (MAX_LINE + 1) rd with
      | Err e => Some (Err (Io e))
      | Ok (line, rd) =>
          if vlen line =? 0 then Some (Ok (head, acc))
          else match walk_line on_entry line head acc with
               | Err e => Some (Err e)
               | Ok (head, acc) => walk_loop fuel on_entry rd head acc
               end
      end
  end.

(** Every round consumes at least one octet ([walk_chain_total]). *)
Definition walk_chain {A} (rd : reader) (on_entry : A → N → string → A) (acc : A)
    : option (result AuditError (ChainHead * A)) :=
  walk_loop (S (length (rd_bytes rd))) on_entry rd genesis acc.

Definition verify_chain (rd : reader) : option (result AuditError ChainHead) :=
  map_ok fst <$> walk_chain rd (λ u _ _, u) tt.

Definition verify_audit_log (rd : reader) : option (result AuditError N) :=
  map_ok head_seq <$> verify_chain rd.

Definition audit_chain (rd : reader) : option (result AuditError (list (N * string))) :=
  map_ok snd <$> walk_chain rd (λ out s h, out ++ [(s, h)]) [].

(** *** The chain as a specification *)

(** One line extends a chain. *)
Definition extends (line : bytes) (h h' : ChainHead) : Prop :=
  ∃ e, from_slice line = Ok e ∧ seq e = head_seq h + 1 ∧ prev e = head_hash h ∧
  h' = mkHead (head_seq h + 1) (line_hash line)
         (match head_first h with Some f => Some f | None => Some (line_hash line) end).

Inductive chained : ChainHead → list bytes → ChainHead → Prop :=
  | chained_nil h : chained h [] h
  | chained_cons h line h1 lines h' :
      10 ∉ line → vlen line ≤ MAX_LINE → extends line h h1 → chained h1 lines h' →
      chained h (line :: lines) h'.

Definition unlines (lines : list bytes) : bytes := lines ≫= λ l, l ++ [10].

(** The lines of a log, without the line feeds that end them. *)
Fixpoint lines_from (cur bs : bytes) : list bytes :=
  match bs with
  | [] => []
  | c :: bs => if c =? 10 then cur :: lines_from [] bs else lines_from (cur ++ [c]) bs
  end.
Definition log_lines : bytes → list bytes := lines_from [].

Lemma lines_from_app cur line bs :
  10 ∉ line → lines_from cur (line ++ 10 :: bs) = (cur ++ line) :: lines_from [] bs.
Proof.
  revert cur. induction line as [|c line IH]; intros cur Hn; simpl; [by rewrite app_nil_r|].
  apply not_elem_of_cons in Hn as [Hc Hn]. rewrite (proj2 (N.eqb_neq _ _)) by lia.
  by rewrite IH, <-app_assoc.
Qed.

Lemma log_lines_chained h lines h' : chained h lines h' → log_lines (unlines lines) = lines.
Proof.
  induction 1 as [h|h line h1 lines h' Hn _ _ _ IH]; [done|]. unfold unlines, log_lines in *. csimpl.
  rewrite <-app_assoc. simpl. by rewrite lines_from_app, IH.
Qed.

(** What [on_entry] sees of the lines that follow [h]. *)
Fixpoint entries_of (n : N) (lines : list bytes) : list (N * string) :=
  match lines with
  | [] => []
  | l :: ls => (n + 1, line_hash l) :: entries_of (n + 1) ls
  end.

Lemma walk_line_Ok {A} (f : A → N → string → A) line h acc h' acc' :
  walk_line f line h acc = Ok (h', acc') ↔
  ∃ body, line = body ++ [10] ∧ extends body h h' ∧
          acc' = f acc (head_seq h + 1) (line_hash body).
Proof.
  unfold walk_line. split.
  - intros E. inv_result. reflect_bools. apply last_Some in H1 as [body ->].
    rewrite removelast_last in *. exists body. simplify_eq. split; [done|]. split; [|done].
    exists x0. auto.
  - intros (body & -> & (e & He & Hs & Hp & ->) & ->).
    rewrite last_snoc, removelast_last, reject_pass, He by by rewrite bool_decide_eq_true_2.
    cbn [map_err mbind result_bind]. rewrite Hs, N.eqb_refl, !reject_pass; [done| |done].
    by rewrite bool_decide_eq_true_2.
Qed.

Lemma walk_loop_total {A} fuel (f : A → N → string → A) rd h acc :
  (length (rd_bytes rd) < fuel)%nat → is_Some (walk_loop fuel f rd h acc).
Proof.
  revert rd h acc. induction fuel as [|fuel IH]; intros rd h acc Hf; [lia|]. simpl.
  unfold read_until. destruct (take_line _ _) as [[line rest] why] eqn:E.
  pose proof (take_line_shrinks _ _ _ _ _ E) as Hl.
  destruct why, (rd_end rd); simpl; try by eexists.
  all: destruct (N.eqb_spec (vlen line) 0) as [|Hn]; [by eexists|].
  all: destruct (walk_line _ _ _ _) as [[h' acc']|]; [|by eexists].
  all: apply IH; simpl; rewrite Hl, length_app in Hf; unfold vlen in Hn; lia.
Qed.

Lemma walk_chain_total {A} rd (f : A → N → string → A) acc : is_Some (walk_chain rd f acc).
Proof. apply walk_loop_total. lia. Qed.

Lemma walk_loop_sound {A} fuel (f : A → N → string → A) rd h acc h' acc' :
  walk_loop fuel f rd h acc = Some (Ok (h', acc')) →
  ∃ lines, rd_bytes rd = unlines lines ∧ chained h lines h' ∧
           acc' = foldl (λ a x, f a x.1 x.2) acc (entries_of (head_seq h) lines).
Proof.
  revert rd h acc. induction fuel as [|fuel IH]; intros rd h acc E; [done|]. simpl in E.
  unfold read_until in E. destruct (take_line _ _) as [[line rest] why] eqn:Et.
  pose proof (take_line_shrinks _ _ _ _ _ Et) as Hl.
  assert ((if vlen line =? 0 then Some (Ok (h, acc))
           else match walk_line f line h acc with
                | Err e => Some (Err e)
                | Ok (head, acc) => walk_loop fuel f (mkReader rest (rd_end rd)) head acc
                end) = Some (Ok (h', acc'))) as E' by by destruct why, (rd_end rd).
  clear E. destruct (N.eqb_spec (vlen line) 0) as [Hn|Hn].
  - simplify_eq. destruct line; [|autorewrite with warden in Hn; lia].
    apply take_line_nil in Et as [-> _]; [|done]. exists []. repeat constructor.
  - destruct (walk_line f line h acc) as [[h1 acc1]|] eqn:Ew; [|done].
    apply walk_line_Ok in Ew as (body & -> & Hx & ->).
    apply take_line_last in Et as (body' & Hb & Hnl & Hlen); [|by rewrite last_snoc].
    apply app_inj_tail in Hb as [<- _].
    apply IH in E' as (lines & Hr & Hc & ->). simpl in Hr. subst rest.
    exists (body :: lines). split; [by rewrite Hl|]. split.
    + econstructor; eauto. lia.
    + destruct Hx as (e & _ & _ & _ & ->). done.
Qed.

Lemma walk_loop_complete {A} (f : A → N → string → A) h lines h' :
  chained h lines h' → ∀ fuel acc,
  (length (unlines lines) < fuel)%nat →
  walk_loop fuel f (mkReader (unlines lines) None) h acc =
  Some (Ok (h', foldl (λ a x, f a x.1 x.2) acc (entries_of (head_seq h) lines))).
Proof.
  induction 1 as [h|h line h1 lines h' Hn Hlen Hx _ IH]; intros fuel acc Hf.
  - by destruct fuel; [lia|].
  - destruct fuel as [|fuel]; [lia|]. simpl. unfold read_until.
    cbn [rd_bytes rd_end]. unfold unlines in *. csimpl. rewrite <-app_assoc. simpl.
    rewrite take_line_newline by (done || lia). simpl.
    rewrite (proj2 (N.eqb_neq _ _)) by (autorewrite with warden; lia).
    rewrite (proj2 (walk_line_Ok f (line ++ [10]) h acc h1 (f acc (head_seq h + 1) (line_hash line))));
      [|exists line; eauto].
    csimpl in Hf. rewrite !length_app in Hf. simpl in Hf. rewrite IH by lia.
    destruct Hx as (e & _ & _ & _ & ->). done.
Qed.

(** The walk over a chained beginning. *)
Lemma walk_loop_prefix {A} (f : A → N → string → A) h lines h' :
  chained h lines h' → ∀ r, ∃ k, (k ≤ length (unlines lines))%nat ∧ ∀ fuel acc,
  walk_loop (k + fuel) f (mkReader (unlines lines ++ r) None) h acc =
  walk_loop fuel f (mkReader r None) h' (foldl (λ a x, f a x.1 x.2) acc (entries_of (head_seq h) lines)).
Proof.
  induction 1 as [h|h line h1 lines h' Hn Hlen Hx _ IH]; intros r; [by exists 0%nat|].
  destruct (IH r) as (k & Hk & Hw). exists (S k). unfold unlines in *. csimpl.
  split; [rewrite !length_app; simpl; lia|]. intros fuel acc. simpl. unfold read_until.
  cbn [rd_bytes rd_end]. rewrite <-!app_assoc. simpl.
  rewrite take_line_newline by (done || lia). simpl.
  rewrite (proj2 (N.eqb_neq _ _)) by (autorewrite with warden; lia).
  rewrite (proj2 (walk_line_Ok f (line ++ [10]) h acc h1 (f acc (head_seq h + 1) (line_hash line))));
    [|exists line; eauto].
  rewrite Hw. destruct Hx as (e & _ & _ & _ & ->). done.
Qed.

(** A chained beginning followed by a line that is too long. *)
Lemma walk_chain_over {A} (f : A → N → string → A) acc lines h body r :
  chained genesis lines h → 10 ∉ body → MAX_LINE + 1 ≤ vlen body →
  walk_chain (mkReader (unlines lines ++ body ++ r) None) f acc =
  Some (Err (Broken (head_seq h + 1) "incomplete or over-long line")).
Proof.
  intros Hc Hn Hl. unfold walk_chain. cbn [rd_bytes].
  destruct (walk_loop_prefix f _ _ _ Hc (body ++ r)) as (k & Hk & Hw).
  replace (S (length (unlines lines ++ body ++ r)))
    with (k + S (length (unlines lines ++ body ++ r) - k))%nat by (rewrite length_app; lia).
  rewrite Hw. simpl. unfold read_until. cbn [rd_bytes rd_end]. rewrite take_line_over by done.
  assert (vlen (take (N.to_nat (MAX_LINE + 1)) body) = MAX_LINE + 1) as Hv.
  { unfold vlen in *. rewrite length_take. lia. }
  rewrite Hv, (proj2 (N.eqb_neq _ _)) by (unfold MAX_LINE; lia).
  unfold walk_line. rewrite bool_decide_eq_false_2; [done|].
  intros (b & Hb)%last_Some. apply Hn. rewrite <-(take_drop (N.to_nat (MAX_LINE + 1)) body), Hb. set_solver.
Qed.

(** The checker accepts exactly the chained logs. *)
Lemma walk_chain_spec {A} (f : A → N → string → A) bs h acc acc' :
  walk_chain (mkReader bs None) f acc = Some (Ok (h, acc')) ↔
  ∃ lines, bs = unlines lines ∧ chained genesis lines h ∧
           acc' = foldl (λ a x, f a x.1 x.2) acc (entries_of 0 lines).
Proof.
  split.
  - intros E. by apply walk_loop_sound in E.
  - intros (lines & -> & Hc & ->). unfold walk_chain. simpl rd_bytes.
    apply (walk_loop_complete f _ _ _ Hc). lia.
Qed.

Lemma verify_chain_spec bs h :
  verify_chain (mkReader bs None) = Some (Ok h) ↔
  ∃ lines, bs = unlines lines ∧ chained genesis lines h.
Proof.
  unfold verify_chain. split.
  - destruct (walk_chain _ _ _) as [[[h' []]|]|] eqn:E; simpl; [|done..].
    intros [= ->]. apply walk_chain_spec in E as (lines & ? & ? & _). eauto.
  - intros (lines & Hb & Hc).
    rewrite (proj2 (walk_chain_spec _ bs h tt tt)); [done|].
    exists lines. repeat split; [done..|]. by destruct (foldl _ _ _).
Qed.

Lemma foldl_snoc_pairs (acc : list (N * string)) l :
  foldl (λ a x, a ++ [(x.1, x.2)]) acc l = acc ++ l.
Proof.
  revert acc. induction l as [|[s h] l IH]; intros acc; simpl; [by rewrite app_nil_r|].
  by rewrite IH, <-app_assoc.
Qed.

Lemma audit_chain_spec bs out :
  audit_chain (mkReader bs None) = Some (Ok out) ↔
  ∃ lines h, bs = unlines lines ∧ chained genesis lines h ∧ out = entries_of 0 lines.
Proof.
  unfold audit_chain. split.
  - destruct (walk_chain _ _ _) as [[[h out']|]|] eqn:E; simpl; [|done..].
    intros [= ->]. apply walk_chain_spec in E as (lines & ? & ? & ->).
    exists lines, h. rewrite foldl_snoc_pairs. auto.
  - intros (lines & h & Hb & Hc & ->).
    rewrite (proj2 (walk_chain_spec _ bs h [] (entries_of 0 lines))); [done|].
    exists lines. by rewrite foldl_snoc_pairs.
Qed.

(** *** Chains from both ends *)

Lemma chained_app h ls h1 ks h2 :
  chained h ls h1 → chained h1 ks h2 → chained h (ls ++ ks) h2.
Proof. induction 1; simpl; [done|]. intros. econstructor; eauto. Qed.

Lemma chained_app_inv h ls ks h2 :
  chained h (ls ++ ks) h2 → ∃ h1, chained h ls h1 ∧ chained h1 ks h2.
Proof.
  revert h. induction ls as [|l ls IH]; intros h Hc; simpl in Hc.
  - exists h. split; [constructor|done].
  - inversion Hc; subst. edestruct IH as (h1' & ? & ?); [done|].
    exists h1'. split; [econstructor; eauto|done].
Qed.

Lemma chained_snoc_inv h ls l h2 :
  chained h (ls ++ [l]) h2 → ∃ h1, chained h ls h1 ∧ extends l h1 h2.
Proof.
  intros Hc. apply chained_app_inv in Hc as (h1 & H1 & H2). exists h1. split; [done|].
  inversion H2 as [|? ? ? ? ? ? ? ? Hnil]; subst. by inversion Hnil; subst.
Qed.

Lemma chained_seq h ls h' : chained h ls h' → head_seq h' = head_seq h + vlen ls.
Proof.
  induction 1 as [h|h line h1 lines h' _ _ (e & _ & _ & _ & ->) _ IH];
    autorewrite with warden; [lia|]. rewrite IH. simpl. lia.
Qed.

Lemma unlines_app ls ks : unlines (ls ++ ks) = unlines ls ++ unlines ks.
Proof. apply bind_app. Qed.

Lemma unlines_snoc ls l : unlines (ls ++ [l]) = unlines ls ++ (l ++ [10]).
Proof. rewrite unlines_app. f_equal. unfold unlines. csimpl. by rewrite app_nil_r. Qed.

Lemma entries_of_snoc n ls l :
  entries_of n (ls ++ [l]) = entries_of n ls ++ [(n + vlen ls + 1, line_hash l)].
Proof.
  revert n. induction ls as [|l' ls IH]; intros n; simpl; autorewrite with warden.
  - do 3 f_equal. lia.
  - rewrite IH. do 4 f_equal. lia.
Qed.

(** Both walks read the same lines. *)
Lemma verify_audit_lines bs h out :
  verify_chain (mkReader bs None) = Some (Ok h) →
  audit_chain (mkReader bs None) = Some (Ok out) →
  ∃ lines, bs = unlines lines ∧ chained genesis lines h ∧ out = entries_of 0 lines.
Proof.
  intros (lines & Hb & Hc)%verify_chain_spec Ha. exists lines. split_and!; [done..|].
  assert (audit_chain (mkReader bs None) = Some (Ok (entries_of 0 lines))) as E
    by (apply audit_chain_spec; eauto).
  rewrite E in Ha. congruence.
Qed.

Lemma entries_of_lookup n ls i :
  entries_of n ls !! i = (λ l, (n + 1 + N.of_nat i, line_hash l)) <$> ls !! i.
Proof.
  revert n i. induction ls as [|l ls IH]; intros n [|i]; simpl; [done..| |].
  - do 2 f_equal. lia.
  - rewrite IH. destruct (ls !! i); simpl; [|done]. do 2 f_equal. lia.
Qed.

Lemma length_entries_of n ls : length (entries_of n ls) = length ls.
Proof. revert n. induction ls; intros n; simpl; auto. Qed.

Lemma entries_of_seq n ls s h :
  (s, h) ∈ entries_of n ls ↔
  ∃ l, n < s ∧ ls !! N.to_nat (s - n - 1) = Some l ∧ h = line_hash l.
Proof.
  rewrite list_elem_of_lookup. split.
  - intros [i Hi]. rewrite entries_of_lookup in Hi.
    destruct (ls !! i) as [l|] eqn:E; simpl in Hi; [|done]. simplify_eq.
    exists l. repeat split; [lia|]. by replace (N.to_nat _) with i by lia.
  - intros (l & Hn & Hl & ->). exists (N.to_nat (s - n - 1)).
    rewrite entries_of_lookup, Hl. simpl. do 2 f_equal. lia.
Qed.

(** Before any entry, the hash is all zeros; after one, it is the hash of the
    last line. *)
Lemma chained_last ls l h : chained genesis (ls ++ [l]) h → head_hash h = line_hash l.
Proof. intros Hc. by apply chained_snoc_inv in Hc as (h1 & _ & e & _ & _ & _ & ->). Qed.

(** Appending what [encode] returns. *)
Lemma encode_extends `{!JsonLaws AuditEntry} e h line h' :
  encode e h = Ok (line, h') →
  ∃ body, line = body ++ [10] ∧ (10 ∉ body) ∧ extends body h h'.
Proof.
  unfold encode. intros E. inv_result. simplify_eq. exists x. split; [done|].
  split; [by eapply to_vec_no_newline|].
  exists (set_seq_prev (head_seq h + 1) (head_hash h) e). by rewrite (from_slice_to_vec _ _ H1).
Qed.

Lemma verify_append `{!JsonLaws AuditEntry} lines e h line h' :
  chained genesis lines h → encode e h = Ok (line, h') → vlen line ≤ MAX_LINE + 1 →
  ∃ body, line = body ++ [10] ∧ chained genesis (lines ++ [body]) h'.
Proof.
  intros Hc He Hlen. apply encode_extends in He as (body & -> & Hn & Hx).
  exists body. split; [done|]. eapply chained_app; [done|].
  econstructor; [done| |done|constructor]. autorewrite with warden in Hlen. lia.
Qed.

(** A line of one log and a different line of another with the same SHA-256. *)
Definition collide (ls1 ls2 : list bytes) : Prop :=
  ∃ x y, x ∈ ls1 ∧ y ∈ ls2 ∧ x ≠ y ∧ External.sha256 x = External.sha256 y.

Lemma collide_app ls1 ls2 ks1 ks2 : collide ls1 ls2 → collide (ls1 ++ ks1) (ls2 ++ ks2).
Proof. intros (x & y & ? & ? & ? & ?). exists x, y. rewrite !elem_of_app. auto. Qed.

Lemma line_hash_collision `{!Sha256Laws} x y :
  line_hash x = line_hash y → x = y ∨ collide [x] [y].
Proof.
  intros E. destruct (decide (x = y)); [by left|right]. exists x, y.
  rewrite !list_elem_of_singleton. split_and!; [done..|].
  apply (Digest.to_hex_inj _ _ (sha256_wf x) (sha256_wf y) E).
Qed.

(** Two chains of the same length with the same head are the same lines. *)
Lemma chained_head_inj `{!Sha256Laws} ls1 ls2 h1 h2 :
  chained genesis ls1 h1 → chained genesis ls2 h2 →
  head_seq h1 = head_seq h2 → head_hash h1 = head_hash h2 → ls1 = ls2 ∨ collide ls1 ls2.
Proof.
  revert ls2 h1 h2. induction ls1 as [|l1 ls1 IH] using rev_ind; intros ls2 h1 h2 Hc1 Hc2 Hs Hh;
    pose proof (chained_seq _ _ _ Hc1) as Hn1; pose proof (chained_seq _ _ _ Hc2) as Hn2;
    rewrite Hs in Hn1; destruct ls2 as [|l2 ls2 _] using rev_ind;
    autorewrite with warden in *; [by left|lia..|].
  pose proof (chained_last _ _ _ Hc1) as Hl1. pose proof (chained_last _ _ _ Hc2) as Hl2.
  destruct (line_hash_collision l1 l2) as [->|(x & y & ->%list_elem_of_singleton & ->%list_elem_of_singleton & ?)];
    [congruence| |right; exists l1, l2; rewrite !elem_of_app, !list_elem_of_singleton; auto].
  apply chained_snoc_inv in Hc1 as (h1' & Hc1 & e1 & He1 & Hs1 & Hp1 & ->).
  apply chained_snoc_inv in Hc2 as (h2' & Hc2 & e2 & He2 & Hs2 & Hp2 & ->).
  rewrite He1 in He2. simplify_eq. simpl in Hs.
  destruct (IH ls2 h1' h2') as [->|]; [done|done|lia|congruence|by left|right; by apply collide_app].
Qed.

(** One common entry makes the two chains agree up to it. *)
Lemma chained_entry_inj `{!Sha256Laws} ls1 ls2 h1 h2 s hash :
  chained genesis ls1 h1 → chained genesis ls2 h2 →
  (s, hash) ∈ entries_of 0 ls1 → (s, hash) ∈ entries_of 0 ls2 →
  take (N.to_nat s) ls1 = take (N.to_nat s) ls2 ∨ collide (take (N.to_nat s) ls1) (take (N.to_nat s) ls2).
Proof.
  intros Hc1 Hc2 (l1 & Hs & Hl1 & ->)%entries_of_seq (l2 & _ & Hl2 & Heq)%entries_of_seq.
  replace (N.to_nat s) with (S (N.to_nat (s - 0 - 1))) by lia.
  set (n := N.to_nat (s - 0 - 1)) in *.
  rewrite (take_S_r _ _ _ Hl1), (take_S_r _ _ _ Hl2).
  rewrite <-(take_drop_middle ls1 n l1) in Hc1 by done.
  rewrite <-(take_drop_middle ls2 n l2) in Hc2 by done.
  change (l1 :: drop (S n) ls1) with ([l1] ++ drop (S n) ls1) in Hc1.
  change (l2 :: drop (S n) ls2) with ([l2] ++ drop (S n) ls2) in Hc2.
  rewrite app_assoc in Hc1, Hc2.
  apply chained_app_inv in Hc1 as (k1 & Hc1 & _).
  apply chained_app_inv in Hc2 as (k2 & Hc2 & _).
  pose proof (lookup_lt_Some _ _ _ Hl1). pose proof (lookup_lt_Some _ _ _ Hl2).
  apply (chained_head_inj _ _ k1 k2); [done..| |].
  - rewrite (chained_seq _ _ _ Hc1), (chained_seq _ _ _ Hc2). unfold vlen.
    rewrite !length_app, !length_take. simpl. lia.
  - by rewrite (chained_last _ _ _ Hc1), (chained_last _ _ _ Hc2).
Qed.

End Chain.
End Audit.

(** ** Anchors: anchors.rs, [anchor_text] of common.rs, linux/anchor.rs *)
Module Anchors.

(** [s.split_once(c)] *)
Fixpoint split_once (c : N) (l : list N) : option (list N * list N) :=
  match l with
  | [] => None
  | x :: l => if x =? c then Some ([], l) else '(a, b) ← split_once c l; Some (x :: a, b)
  end.

Fixpoint list_starts_with (p l : list N) : bool :=
  match p, l with
  | [], _ => true
  | a :: p, b :: l => (a =? b) && list_starts_with p l
  | _ :: _, [] => false
  end.

(** [&s[s.find(p)?..]] *)
Fixpoint find_from (p l : list N) : option (list N) :=
  if list_starts_with p l then Some l
  else match l with [] => None | _ :: l => find_from p l end.

Record Anchor := mkAnchor { seq : N; hash : string; chain : option string }.
#[export] Instance Anchor_eq_dec : EqDecision Anchor.
Proof. solve_decision. Defined.

(** [v.len() == n && v.bytes().all(|b| b.is_ascii_hexdigit())] *)
Definition is_hex (n : N) (v : list N) : bool :=
  (vlen (Utf8.encode v) =? n) && forallb is_ascii_hexdigit (Utf8.encode v).

(** The loop of [parse_anchor] over the fields. *)
Fixpoint parse_fields (fields : list (list N)) (seq : option N) (hash chain : option string)
    : option (option N * option string * option string) :=
  match fields with
  | [] => Some (seq, hash, chain)
  | field :: fields =>
      '(k, v) ← split_once 61 field;
      let k := of_chars k in
      if bool_decide (k = "seq") then parse_fields fields (parse_u64 (Utf8.encode v)) hash chain
      else if bool_decide (k = "hash") && is_hex 64 v
      then parse_fields fields seq (Some (to_ascii_lowercase (of_chars v))) chain
      else if bool_decide (k = "chain") && is_hex 16 v
      then parse_fields fields seq hash (Some (to_ascii_lowercase (of_chars v)))
      else parse_fields fields seq hash chain
  end.

Definition parse_anchor (message : string) : option Anchor :=
  found ← find_from (as_bytes "audit seq=") (chars message);
  let rest := drop 6 found in
  '(seq, hash, chain) ← parse_fields (split_whitespace rest) None None None;
  seq ← seq;
  hash ← hash;
  Some (mkAnchor seq hash chain).

Record AnchorComparison := mkComparison {
  entries : N;
  matched : N;
  mismatched : list N;
  missing_locally : list N;
  unanchored : N;
  other_chains : N }.

Definition consistent (c : AnchorComparison) : bool :=
  bool_decide (mismatched c = []) && bool_decide (missing_locally c = []).

Definition chain_map (chain : list (N * string)) : gmap N string :=
  foldl (λ m x, <[x.1 := x.2]> m) ∅ chain.

(** The body of the loop of [compare_anchors]. *)
Definition compare_one (id : option string) (local : gmap N string) (head : N)
    (st : AnchorComparison * gset N) (a : Anchor) : AnchorComparison * gset N :=
  let '(out, anchored) := st in
  let '(mkComparison e m mis mia un oth) := out in
  if bool_decide (chain a = None) || negb (bool_decide (chain a = id))
  then (mkComparison e m mis mia un (oth + 1), anchored)
  else match local !! seq a with
       | Some h =>
           if bool_decide (h = hash a)
           then if bool_decide (seq a ∈ anchored) then (out, anchored)
                else (mkComparison e (m + 1) mis mia un oth, {[seq a]} ∪ anchored)
           else if bool_decide (seq a ∈ mis) then (out, anchored)
                else (mkComparison e m (mis ++ [seq a]) mia un oth, anchored)
       | None =>
           if (head <? seq a) && negb (bool_decide (seq a ∈ mia))
           then (mkComparison e m mis (mia ++ [seq a]) un oth, anchored)
           else (out, anchored)
       end.

(** The final subtraction wraps around in a release build. *)
Definition compare_anchors (chain : list (N * string)) (anchors : list Anchor)
    : AnchorComparison :=
  let id := (λ x, Audit.chain_id x.2) <$> head chain in
  let local := chain_map chain in
  let hd := default 0 (fst <$> last chain) in
  let '(out, _) := foldl (compare_one id local hd)
                     (mkComparison (vlen chain) 0 [] [] 0 0, ∅) anchors in
  mkComparison (entries out) (matched out) (mismatched out) (missing_locally out)
    (wrapping_sub64 (wrapping_sub64 (entries out) (matched out)) (vlen (mismatched out)))
    (other_chains out).

(** *** common.rs and linux/anchor.rs *)

Definition clean_char (c : N) : bool := is_ascii_alphanumeric c || (c =? 95).

Definition clean (s : string) (max : nat) : string :=
  of_chars (take max (base.filter (λ c, clean_char c = true) (chars s))).

Definition anchor_text (seq : N) (hash chain action outcome : string) : string :=
  fmt "audit seq={seq} hash={} chain={} action={} outcome={}"
    [show_N seq; clean hash 64; clean chain 16; clean action 32; clean outcome 32].

Definition PRIORITY : N := 10 * 8 + 5.

Definition message (pid seq : N) (hash chain action outcome : string) : string :=
  fmt "<{PRIORITY}>abyssal-warden[{}]: {}"
    [show_N PRIORITY; show_N pid; anchor_text seq hash chain action outcome].

Inductive AnchorTarget := FromEnvironment | Disabled | Socket (p : string).

(** [AnchorTarget::resolve]; [env] is [ABYSSAL_WARDEN_SYSLOG_SOCKET]. *)
Definition resolve (t : AnchorTarget) (env : option string) : option string :=
  match t with
  | Disabled => None
  | Socket p => Some p
  | FromEnvironment =>
      match env with
      | Some v => if bool_decide (v = "") then None else Some v
      | None => Some "/dev/log"
      end
  end.

(** [send]: the datagram handed to the socket, if any, and the result;
    [delivered] says whether the socket accepts it. *)
Definition send (socket : option string) (delivered : bool) (pid seq : N)
    (hash chain action outcome : string) : option (string * string) * bool :=
  match socket with
  | None => (None, true)
  | Some path => (Some (path, message pid seq hash chain action outcome), delivered)
  end.

(** *** Text of an anchor *)

Definition plain (l : list N) : Prop := Forall (λ c, clean_char c = true) l.

Lemma clean_char_ascii c : clean_char c = true → c < 0x80 ∧ is_whitespace c = false ∧ c ≠ 61.
Proof.
  unfold clean_char, is_ascii_alphanumeric, is_ascii_digit, is_ascii_upper, is_ascii_lower,
    is_whitespace. lia.
Qed.

Lemma digit_clean c : is_ascii_digit c = true → clean_char c = true.
Proof. unfold clean_char, is_ascii_alphanumeric. by intros ->. Qed.

Lemma encode_ascii l : Forall (λ c, c < 0x80) l → Utf8.encode l = l.
Proof.
  unfold Utf8.encode. induction 1 as [|c l Hc _ IH]; csimpl; [done|].
  assert (encode_char c = [c]) as ->; [|by rewrite IH].
  unfold encode_char. apply N.ltb_lt in Hc. by rewrite Hc.
Qed.

Lemma as_of_chars l : Forall (λ c, c < 0x80) l → as_bytes (of_chars l) = l.
Proof.
  intros H. unfold of_chars. rewrite encode_ascii by done. apply as_of_bytes.
  eapply Forall_impl; [done|]. unfold is_byte. simpl. lia.
Qed.

Lemma plain_ascii l : plain l → Forall (λ c, c < 0x80) l.
Proof. intros H. eapply Forall_impl; [done|]. intros c ?%clean_char_ascii. tauto. Qed.

(** What [clean] keeps. *)
Definition kept (s : string) (max : nat) : list N :=
  take max (base.filter (λ c, clean_char c = true) (chars s)).

Lemma kept_plain s max : plain (kept s max).
Proof. apply Forall_take, Forall_forall. intros c [? _]%list_elem_of_filter. done. Qed.

Lemma as_bytes_clean s max : as_bytes (clean s max) = kept s max.
Proof. apply as_of_chars, plain_ascii, kept_plain. Qed.

Lemma dec_plain n : plain (dec_bytes n).
Proof. eapply Forall_impl; [apply dec_bytes_digits|]. apply digit_clean. Qed.

Lemma as_bytes_show n : as_bytes (show_N n) = dec_bytes n.
Proof.
  apply as_of_bytes. eapply Forall_impl; [apply dec_plain|].
  intros c ?%clean_char_ascii. unfold is_byte. lia.
Qed.

Lemma dec_nonempty n : dec_bytes n ≠ [].
Proof.
  unfold dec_bytes. destruct (dec_go_head (S (N.size_nat n)) n []) as (d & r & -> & _); [lia|done].
Qed.

(** The octets of an anchor message. *)
Lemma message_bytes pid seq hash chain action outcome :
  as_bytes (message pid seq hash chain action outcome) =
  as_bytes "<85>abyssal-warden[" ++ dec_bytes pid ++ as_bytes "]: audit seq=" ++ dec_bytes seq ++
  as_bytes " hash=" ++ kept hash 64 ++ as_bytes " chain=" ++ kept chain 16 ++
  as_bytes " action=" ++ kept action 32 ++ as_bytes " outcome=" ++ kept outcome 32.
Proof.
  change (message pid seq hash chain action outcome) with
    ("<85>abyssal-warden[" +:+ show_N pid +:+ "]: " +:+
     (("audit seq=" +:+ show_N seq +:+ " hash=" +:+ clean hash 64 +:+ " chain=" +:+
       clean chain 16 +:+ " action=" +:+ clean action 32 +:+ " outcome=" +:+
       clean outcome 32 +:+ "") +:+ ""))%string.
  rewrite !as_bytes_app, !as_bytes_show, !as_bytes_clean.
  change (as_bytes "") with (@nil N). by rewrite !app_nil_r.
Qed.

Lemma split_ws_run cur w r :
  Forall (λ c, is_whitespace c = false) w →
  split_ws_go cur (w ++ r) = split_ws_go (cur ++ w) r.
Proof.
  intros H. revert cur. induction H as [|c w Hc _ IH]; intros cur; simpl.
  - by rewrite app_nil_r.
  - by rewrite Hc, IH, <-app_assoc.
Qed.

Lemma split_ws_field w r :
  w ≠ [] → Forall (λ c, is_whitespace c = false) w →
  split_whitespace (w ++ 32 :: r) = w :: split_whitespace r.
Proof.
  intros Hne H. unfold split_whitespace. rewrite split_ws_run by done. by destruct w.
Qed.

Lemma split_ws_last w :
  w ≠ [] → Forall (λ c, is_whitespace c = false) w → split_whitespace w = [w].
Proof.
  intros Hne H. unfold split_whitespace. rewrite <-(app_nil_r w) at 1.
  rewrite split_ws_run by done. by destruct w.
Qed.

Lemma plain_not_ws l : plain l → Forall (λ c, is_whitespace c = false) l.
Proof. intros H. eapply Forall_impl; [done|]. intros c ?%clean_char_ascii. tauto. Qed.

Lemma find_from_skip p ds r :
  head p = Some 97 → Forall (λ d, is_ascii_digit d = true) ds →
  find_from p (ds ++ r) = find_from p r.
Proof.
  intros Hp. destruct p as [|a p]; simpl in Hp; simplify_eq.
  induction 1 as [|d ds Hd _ IH]; [done|]. change ((d :: ds) ++ r) with (d :: (ds ++ r)).
  cbn [find_from list_starts_with].
  destruct (N.eqb_spec 97 d) as [<-|]; [done|]. simpl. apply IH.
Qed.

(** The fields the receiver sees: the five that were sent, in order. *)
Lemma split_once_key k v : (61 ∉ k) → split_once 61 (k ++ 61 :: v) = Some (k, v).
Proof.
  induction k as [|c k IH]; intros Hk; simpl; [done|].
  apply not_elem_of_cons in Hk as [Hc Hk]. rewrite (proj2 (N.eqb_neq _ _)) by done.
  by rewrite IH.
Qed.

Lemma message_ascii pid seq hash chain action outcome :
  Forall (λ c, c < 0x80 ∧ (c = 32 ∨ is_whitespace c = false))
    (as_bytes (message pid seq hash chain action outcome)).
Proof.
  assert (∀ l, plain l → Forall (λ c, c < 0x80 ∧ (c = 32 ∨ is_whitespace c = false)) l) as Hp.
  { intros l H. eapply Forall_impl; [done|]. intros c ?%clean_char_ascii. tauto. }
  rewrite message_bytes. rewrite !Forall_app.
  split_and!; try (apply Hp; first [apply dec_plain|apply kept_plain]).
  all: match goal with |- Forall _ ?l => let v := eval vm_compute in l in change l with v end.
  all: repeat (apply Forall_cons; split; [split; [done|first [by left|by right]]|]); constructor.
Qed.

Lemma chars_message pid seq hash chain action outcome :
  chars (message pid seq hash chain action outcome) =
  as_bytes (message pid seq hash chain action outcome).
Proof.
  unfold chars. rewrite decode_all_ascii; [done|].
  eapply Forall_impl; [apply message_ascii|]. by intros c [? _].
Qed.

Lemma split_ws_sent seq h c a o :
  plain h → plain c → plain a → plain o →
  split_whitespace (as_bytes "seq=" ++ dec_bytes seq ++ as_bytes " hash=" ++ h ++
    as_bytes " chain=" ++ c ++ as_bytes " action=" ++ a ++ as_bytes " outcome=" ++ o) =
  [as_bytes "seq=" ++ dec_bytes seq; as_bytes "hash=" ++ h; as_bytes "chain=" ++ c;
   as_bytes "action=" ++ a; as_bytes "outcome=" ++ o].
Proof.
  intros Hh Hc Ha Ho.
  assert (∀ k v r, k ≠ [] → Forall (λ c, is_whitespace c = false) k → plain v →
    split_whitespace (k ++ v ++ 32 :: r) = (k ++ v) :: split_whitespace r) as Hf.
  { intros k v r Hk Hkw Hv. rewrite app_assoc. apply split_ws_field.
    - by destruct k.
    - apply Forall_app; split; [done|by apply plain_not_ws]. }
  change (as_bytes " hash=") with (32 :: as_bytes "hash=").
  change (as_bytes " chain=") with (32 :: as_bytes "chain=").
  change (as_bytes " action=") with (32 :: as_bytes "action=").
  change (as_bytes " outcome=") with (32 :: as_bytes "outcome=").
  cbn [app]. rewrite !Hf; [|first [done|apply dec_plain|by repeat constructor]..].
  rewrite split_ws_last; [done| |]; [done|].
  apply Forall_app; split; [by repeat constructor|by apply plain_not_ws].
Qed.

Definition hex_field (n : N) (v : list N) : bool := (vlen v =? n) && forallb is_ascii_hexdigit v.

Lemma is_hex_plain n v : plain v → is_hex n v = hex_field n v.
Proof. intros H. unfold is_hex. by rewrite encode_ascii by by apply plain_ascii. Qed.

Lemma parse_sent seq h c a o :
  seq ≤ u64_max → plain h → plain c → plain a → plain o →
  parse_fields [as_bytes "seq=" ++ dec_bytes seq; as_bytes "hash=" ++ h; as_bytes "chain=" ++ c;
   as_bytes "action=" ++ a; as_bytes "outcome=" ++ o] None None None =
  Some (Some seq,
    if hex_field 64 h then Some (to_ascii_lowercase (of_bytes h)) else None,
    if hex_field 16 c then Some (to_ascii_lowercase (of_bytes c)) else None).
Proof.
  intros Hs Hh Hc Ha Ho.
  assert (∀ k v, (61 ∉ as_bytes k) →
    split_once 61 (as_bytes (k +:+ "=") ++ v) = Some (as_bytes k, v)) as Hk.
  { intros k v Hk. rewrite as_bytes_app, <-app_assoc. by apply split_once_key. }
  assert (split_once 61 (as_bytes "seq=" ++ dec_bytes seq) = Some (as_bytes "seq", dec_bytes seq))
    as H1 by (apply (Hk "seq"); vm_compute; set_solver).
  assert (split_once 61 (as_bytes "hash=" ++ h) = Some (as_bytes "hash", h))
    as H2 by (apply (Hk "hash"); vm_compute; set_solver).
  assert (split_once 61 (as_bytes "chain=" ++ c) = Some (as_bytes "chain", c))
    as H3 by (apply (Hk "chain"); vm_compute; set_solver).
  assert (split_once 61 (as_bytes "action=" ++ a) = Some (as_bytes "action", a))
    as H4 by (apply (Hk "action"); vm_compute; set_solver).
  assert (split_once 61 (as_bytes "outcome=" ++ o) = Some (as_bytes "outcome", o))
    as H5 by (apply (Hk "outcome"); vm_compute; set_solver).
  cbn [parse_fields]. rewrite H1, H2, H3, H4, H5. cbn [mbind option_bind].
  change (of_chars (as_bytes "seq")) with "seq"%string.
  change (of_chars (as_bytes "hash")) with "hash"%string.
  change (of_chars (as_bytes "chain")) with "chain"%string.
  change (of_chars (as_bytes "action")) with "action"%string.
  change (of_chars (as_bytes "outcome")) with "outcome"%string.
  rewrite (encode_ascii (dec_bytes seq)) by apply plain_ascii, dec_plain.
  rewrite parse_u64_dec by done.
  rewrite !is_hex_plain by done.
  unfold of_chars. rewrite !encode_ascii by by apply plain_ascii.
  repeat (rewrite bool_decide_eq_true_2 by done || rewrite bool_decide_eq_false_2 by done).
  simpl. by destruct (hex_field 64 h), (hex_field 16 c).
Qed.

Ltac eval_octets :=
  repeat match goal with
  | |- context [as_bytes ?l] => is_ground l; let v := eval vm_compute in (as_bytes l) in
                                change (as_bytes l) with v
  end.

Lemma find_from_sent ds r :
  Forall (λ d, is_ascii_digit d = true) ds →
  find_from (as_bytes "audit seq=")
    (as_bytes "<85>abyssal-warden[" ++ ds ++ as_bytes "]: audit seq=" ++ r) =
  Some (as_bytes "audit seq=" ++ r).
Proof.
  intros Hd. eval_octets. cbn [app]. do 19 (cbn [find_from list_starts_with N.eqb Pos.eqb andb]).
  rewrite find_from_skip by done.
  by cbn [find_from list_starts_with N.eqb Pos.eqb andb].
Qed.

(** Whatever the caller puts in, what the receiver reads is determined. *)
Lemma parse_message pid seq hash chain action outcome :
  seq ≤ u64_max →
  parse_anchor (message pid seq hash chain action outcome) =
  if hex_field 64 (kept hash 64)
  then Some (mkAnchor seq (to_ascii_lowercase (clean hash 64))
    (if hex_field 16 (kept chain 16) then Some (to_ascii_lowercase (clean chain 16)) else None))
  else None.
Proof.
  intros Hs. unfold parse_anchor. rewrite chars_message, message_bytes.
  rewrite find_from_sent by apply dec_bytes_digits. cbn [mbind option_bind].
  change (drop 6 (as_bytes "audit seq=" ++ ?r)) with (as_bytes "seq=" ++ r).
  rewrite split_ws_sent, parse_sent by (done || apply kept_plain). cbn [mbind option_bind].
  assert (∀ s n, of_bytes (kept s n) = clean s n) as Hc.
  { intros s n. unfold clean, of_chars. rewrite encode_ascii; [done|].
    apply plain_ascii, kept_plain. }
  rewrite !Hc. by destruct (hex_field 64 (kept hash 64)).
Qed.

(** *** Anchors of digests *)

(** Lowercase hexadecimal text, as [to_hex] writes it. *)
Definition lower_hex (l : list N) : Prop :=
  Forall (λ c, is_ascii_hexdigit c = true ∧ is_ascii_upper c = false) l.

Lemma hexdigit_clean c : is_ascii_hexdigit c = true → clean_char c = true.
Proof.
  unfold is_ascii_hexdigit, clean_char, is_ascii_alphanumeric, is_ascii_digit, is_ascii_upper,
    is_ascii_lower. lia.
Qed.

Lemma chars_ascii s : Forall (λ c, c < 0x80) (as_bytes s) → chars s = as_bytes s.
Proof. intros H. unfold chars. by rewrite decode_all_ascii. Qed.

Lemma lower_hex_plain l : lower_hex l → plain l.
Proof. intros H. eapply Forall_impl; [done|]. intros c [? _]. by apply hexdigit_clean. Qed.

Lemma kept_id s max :
  plain (as_bytes s) → (length (as_bytes s) ≤ max)%nat → kept s max = as_bytes s.
Proof.
  intros Hp Hl. unfold kept. rewrite chars_ascii by by apply plain_ascii.
  rewrite filter_all by done.
  by apply take_ge.
Qed.

Lemma lower_id s : lower_hex (as_bytes s) → to_ascii_lowercase s = s.
Proof.
  intros H. unfold to_ascii_lowercase. rewrite (list_fmap_ext _ id), list_fmap_id, of_as_bytes; [done|].
  intros i c Hc. unfold to_lower_byte. by rewrite (proj2 (proj1 (Forall_lookup _ _) H _ _ Hc)).
Qed.

Lemma clean_id s max : kept s max = as_bytes s → clean s max = s.
Proof. intros H. apply as_bytes_inj. by rewrite as_bytes_clean. Qed.

Lemma hex_field_lower n l : lower_hex l → vlen l = n → hex_field n l = true.
Proof.
  intros H Hl. unfold hex_field. rewrite (proj2 (N.eqb_eq _ _) Hl). simpl.
  apply forallb_true. eapply Forall_impl; [done|]. by intros c [? _].
Qed.

Lemma to_hex_lower d : Digest.wf d → lower_hex (as_bytes (Digest.to_hex d)).
Proof.
  intros [_ Hb]. unfold Digest.to_hex, Digest.hex_encode.
  rewrite as_of_bytes by by apply Digest.hex_bytes_byte. unfold lower_hex.
  assert (∀ v, v < 16 → is_ascii_hexdigit (Digest.hex_digit v) = true ∧
    is_ascii_upper (Digest.hex_digit v) = false) as Hv.
  { intros v Hv. unfold Digest.hex_digit, is_ascii_hexdigit, is_ascii_upper, is_ascii_digit.
    case_match; lia. }
  induction Hb as [|b bs Hb' _ IH]; csimpl; [constructor|].
  destruct (Digest.nibbles b Hb'). repeat constructor; by try apply Hv.
Qed.

Section Sent.
Context `{Sha256, !Sha256Laws}.

Lemma line_hash_lower l :
  lower_hex (as_bytes (Audit.line_hash l)) ∧ vlen (as_bytes (Audit.line_hash l)) = 64.
Proof.
  unfold Audit.line_hash. pose proof (sha256_wf l) as Hw. split; [by apply to_hex_lower|].
  pose proof (Digest.len_to_hex _ Hw) as Hl. unfold len, vlen in *. by rewrite length_as_bytes.
Qed.

Lemma chain_id_lower l :
  lower_hex (as_bytes (Audit.chain_id (Audit.line_hash l))) ∧
  vlen (as_bytes (Audit.chain_id (Audit.line_hash l))) = 16.
Proof.
  destruct (line_hash_lower l) as [Hh Hl]. unfold Audit.chain_id.
  rewrite chars_ascii by by apply plain_ascii, lower_hex_plain.
  rewrite as_of_chars by by apply Forall_take, plain_ascii, lower_hex_plain.
  split; [by apply Forall_take|]. unfold vlen in *. rewrite length_take. lia.
Qed.

(** The anchor of an entry of a chain is read back exactly. *)
Lemma parse_sent_entry pid s l first action outcome :
  s ≤ u64_max →
  parse_anchor (message pid s (Audit.line_hash l) (Audit.chain_id (Audit.line_hash first))
                  action outcome) =
  Some (mkAnchor s (Audit.line_hash l) (Some (Audit.chain_id (Audit.line_hash first)))).
Proof.
  intros Hs. rewrite parse_message by done.
  destruct (line_hash_lower l) as [Hh Hl], (chain_id_lower first) as [Hc Hcl].
  assert (∀ x n, lower_hex (as_bytes x) → vlen (as_bytes x) = N.of_nat n →
    hex_field (N.of_nat n) (kept x n) = true ∧ to_ascii_lowercase (clean x n) = x) as Hx.
  { intros x n Hx Hn. assert (kept x n = as_bytes x) as Hk.
    { apply kept_id; [by apply lower_hex_plain|]. unfold vlen in Hn. lia. }
    rewrite clean_id, Hk by done. split; [by apply hex_field_lower|by apply lower_id]. }
  destruct (Hx _ 64%nat Hh Hl) as [E1 ->], (Hx _ 16%nat Hc Hcl) as [E2 ->].
  change (N.of_nat 64) with 64 in E1. change (N.of_nat 16) with 16 in E2. by rewrite E1, E2.
Qed.

End Sent.

(** *** Comparison *)

Definition own (id : option string) (a : Anchor) : Prop := is_Some (chain a) ∧ chain a = id.

(** What the loop has recorded after the anchors [l]. *)
Record tallied (id : option string) (local : gmap N string) (hd n : N) (l : list Anchor)
    (out : AnchorComparison) (anchored : gset N) : Prop := {
  tal_entries : entries out = n;
  tal_mismatched s : s ∈ mismatched out ↔
    ∃ a, a ∈ l ∧ own id a ∧ seq a = s ∧ ∃ h, local !! s = Some h ∧ h ≠ hash a;
  tal_missing s : s ∈ missing_locally out ↔
    ∃ a, a ∈ l ∧ own id a ∧ seq a = s ∧ local !! s = None ∧ hd < s;
  tal_anchored s : s ∈ anchored ↔
    ∃ a, a ∈ l ∧ own id a ∧ seq a = s ∧ local !! s = Some (hash a);
  tal_matched : matched out = N.of_nat (size anchored);
  tal_nodup : NoDup (mismatched out) }.

Lemma own_test id a :
  bool_decide (chain a = None) || negb (bool_decide (chain a = id)) = false ↔ own id a.
Proof.
  unfold own. rewrite orb_false_iff, negb_false_iff, bool_decide_eq_false, bool_decide_eq_true.
  by rewrite not_eq_None_Some.
Qed.

Lemma tally_one id local hd n l out anchored a :
  tallied id local hd n l out anchored →
  let r := compare_one id local hd (out, anchored) a in
  tallied id local hd n (l ++ [a]) r.1 r.2.
Proof.
  intros [He Hmis Hmia Hanc Hm Hnd]. unfold compare_one.
  destruct out as [e m mis mia un oth]; simpl in *.
  destruct (bool_decide (chain a = None) || _) eqn:Eo.
  { assert (¬ own id a) by (rewrite <-own_test; congruence).
    split; simpl; try done; intros s; rewrite exists_snoc;
      [rewrite Hmis|rewrite Hmia|rewrite Hanc]; apply or_absorb; tauto. }
  apply own_test in Eo. destruct (local !! seq a) as [h|] eqn:El.
  - destruct (bool_decide_reflect (h = hash a)) as [->|Hne].
    + case_bool_decide as Ha; split; simpl; try done; try (intros s; rewrite exists_snoc).
      * rewrite Hmis. apply or_absorb. intros (_ & <- & ? & ? & ?). congruence.
      * rewrite Hmia. apply or_absorb. intros (_ & <- & ? & ?). congruence.
      * rewrite Hanc. apply or_absorb. intros (_ & <- & _). by apply Hanc.
      * rewrite Hmis. apply or_absorb. intros (_ & <- & ? & ? & ?). congruence.
      * rewrite Hmia. apply or_absorb. intros (_ & <- & ? & ?). congruence.
      * rewrite elem_of_union, elem_of_singleton, Hanc.
        split; [intros [-> | ?]; auto|intros [?|(_ & <- & _)]; auto].
      * rewrite size_union by set_solver. rewrite size_singleton, Hm. lia.
    + case_bool_decide as Ha; split; simpl; try done; try (intros s; rewrite exists_snoc).
      * rewrite Hmis. apply or_absorb. intros (_ & <- & _). by apply Hmis.
      * rewrite Hmia. apply or_absorb. intros (_ & <- & ? & ?). congruence.
      * rewrite Hanc. apply or_absorb. intros (_ & <- & ?). congruence.
      * rewrite elem_of_app, list_elem_of_singleton, Hmis.
        split; [intros [? | ->]; eauto 7|intros [?|(_ & <- & _)]; auto].
      * rewrite Hmia. apply or_absorb. intros (_ & <- & ? & ?). congruence.
      * rewrite Hanc. apply or_absorb. intros (_ & <- & ?). congruence.
      * apply NoDup_app. split_and!; [done|set_solver|apply NoDup_singleton].
  - destruct ((hd <? seq a) && negb (bool_decide (seq a ∈ mia))) eqn:Eh; reflect_bools;
      split; simpl; try done; intros s; rewrite exists_snoc.
    + rewrite Hmis. apply or_absorb. intros (_ & <- & ? & ? & ?). congruence.
    + rewrite elem_of_app, list_elem_of_singleton, Hmia.
      split; [intros [?| ->]; auto|intros [?|(_ & <- & _)]; auto].
    + rewrite Hanc. apply or_absorb. intros (_ & <- & ?). congruence.
    + rewrite Hmis. apply or_absorb. intros (_ & <- & ? & ? & ?). congruence.
    + rewrite Hmia. apply or_absorb. intros (_ & <- & _ & ?).
      destruct Eh as [Eh|Eh]; reflect_bools; [lia|]. by apply Hmia.
    + rewrite Hanc. apply or_absorb. intros (_ & <- & ?). congruence.
Qed.

Lemma tally id local hd n l :
  let r := foldl (compare_one id local hd) (mkComparison n 0 [] [] 0 0, ∅) l in
  tallied id local hd n l r.1 r.2.
Proof.
  induction l as [|a l IH] using rev_ind; cbn zeta.
  - split; simpl; try done; try set_solver. constructor.
  - rewrite foldl_snoc. destruct (foldl _ _ l) as [out anchored]. by apply tally_one.
Qed.

Definition anchor_id (ch : list (N * string)) : option string :=
  (λ x, Audit.chain_id x.2) <$> head ch.
Definition chain_head (ch : list (N * string)) : N := default 0 (fst <$> last ch).

(** The comparison reports no tampering exactly when every anchor of this
    chain agrees with the local entry or lies before the local head. *)
Lemma compare_consistent ch l :
  consistent (compare_anchors ch l) = true ↔
  ∀ a, a ∈ l → own (anchor_id ch) a →
    match chain_map ch !! seq a with Some h => h = hash a | None => seq a ≤ chain_head ch end.
Proof.
  unfold consistent, compare_anchors. fold (anchor_id ch) (chain_head ch).
  destruct (tally (anchor_id ch) (chain_map ch) (chain_head ch) (vlen ch) l)
    as [_ Hmis Hmia _ _ _].
  destruct (foldl _ _ _) as [out anchored]; simpl in *.
  rewrite andb_true_iff, !bool_decide_eq_true. split.
  - intros [E1 E2] a Ha Ho. rewrite E1 in Hmis. rewrite E2 in Hmia. clear E1 E2.
    destruct (chain_map ch !! seq a) as [h|] eqn:E.
    + destruct (decide (h = hash a)); [done|]. destruct (not_elem_of_nil (seq a)).
      apply Hmis. eauto 8.
    + apply N.le_ngt. intros Hlt. destruct (not_elem_of_nil (seq a)). apply Hmia. eauto 8.
  - intros Hall. split; apply elem_of_nil_inv; intros s Hs.
    + apply Hmis in Hs as (a & Ha & Ho & <- & h & E & Hne). specialize (Hall a Ha Ho).
      by rewrite E in Hall.
    + apply Hmia in Hs as (a & Ha & Ho & <- & E & Hlt). specialize (Hall a Ha Ho).
      rewrite E in Hall. lia.
Qed.

Lemma chain_map_Some ch s h : chain_map ch !! s = Some h → (s, h) ∈ ch.
Proof.
  unfold chain_map. induction ch as [|[s' h'] ch IH] using rev_ind; simpl; [done|].
  rewrite foldl_snoc. simpl. rewrite lookup_insert_Some. set_solver.
Qed.

Lemma chain_map_None ch s h : (s, h) ∈ ch → is_Some (chain_map ch !! s).
Proof.
  unfold chain_map. induction ch as [|[s' h'] ch IH] using rev_ind; simpl; [set_solver|].
  rewrite foldl_snoc. simpl. destruct (decide (s' = s)) as [->|].
  - rewrite lookup_insert_eq. by eexists.
  - rewrite lookup_insert_ne by done. set_solver.
Qed.

Lemma chain_map_size ch : (size (chain_map ch) ≤ length ch)%nat.
Proof.
  unfold chain_map. induction ch as [|[s h] ch IH] using rev_ind; simpl; [done|].
  rewrite foldl_snoc, length_app. cbn [length fst snd]. rewrite map_size_insert, Nat.add_comm.
  case_match; [by apply Nat.le_le_succ_r|by apply le_n_S].
Qed.


Lemma compare_entries ch l : entries (compare_anchors ch l) = vlen ch.
Proof.
  unfold compare_anchors. fold (anchor_id ch) (chain_head ch).
  destruct (tally (anchor_id ch) (chain_map ch) (chain_head ch) (vlen ch) l) as [He _ _ _ _ _].
  by destruct (foldl _ _ _).
Qed.

(** Below the wrap-around, the counts add up. *)
Lemma compare_counts ch l :
  vlen ch ≤ u64_max →
  (∀ a b, a ∈ l → b ∈ l → own (Anchors.anchor_id ch) a → own (Anchors.anchor_id ch) b →
     seq a = seq b → hash a = hash b) →
  let c := compare_anchors ch l in
  matched c + vlen (mismatched c) + unanchored c = vlen ch.
Proof.
  intros Hmax Hone. unfold compare_anchors. fold (anchor_id ch) (chain_head ch).
  destruct (tally (anchor_id ch) (chain_map ch) (chain_head ch) (vlen ch) l)
    as [He Hmis _ Hanc Hm Hnd].
  destruct (foldl _ _ _) as [out anchored]; simpl in *.
  assert (size (anchored ∪ list_to_set (mismatched out)) ≤ size (chain_map ch))%nat as Hs.
  { rewrite <-(size_dom (D := gset N)). apply subseteq_size. intros s.
    rewrite elem_of_union, elem_of_list_to_set, Hanc, Hmis, elem_of_dom.
    intros [(a & _ & _ & _ & E)|(a & _ & _ & _ & h & E & _)]; rewrite E; by eexists. }
  rewrite size_union in Hs.
  2:{ intros s. rewrite elem_of_list_to_set, Hanc, Hmis.
      intros (a & Ha & Hoa & <- & Ea) (b & Hb & Hob & Hab & h & Eb & Hne).
      specialize (Hone a b Ha Hb Hoa Hob ltac:(done)). congruence. }
  rewrite size_list_to_set in Hs by done. pose proof (chain_map_size ch).
  unfold vlen, u64_max in *. rewrite He, Hm.
  assert (wrapping_sub64 (N.of_nat (length ch)) (N.of_nat (size anchored)) =
          N.of_nat (length ch) - N.of_nat (size anchored)) as -> by (apply wrapping_sub64_le; lia).
  rewrite wrapping_sub64_le; lia.
Qed.

End Anchors.

(** ** Properties *)
Module AuditProps.
Import Audit Anchors.

(** C19: appending the line that [encode] builds for the current head to a log
    that verifies. If the line is within the limit, the log verifies again,
    with the head that [encode] returned and one more entry, numbered
    consecutively. [encode] does not check the limit: with a longer line no
    log verifies any more, and the error names the appended entry. *)
Theorem append_verifies `{Sha256, Json AuditEntry, !JsonLaws AuditEntry} bs h out e line h' :
  verify_chain (mkReader bs None) = Some (Ok h) →
  audit_chain (mkReader bs None) = Some (Ok out) →
  encode e h = Ok (line, h') →
  head_seq h' = head_seq h + 1 ∧
  if vlen line <=? MAX_LINE + 1 then
    verify_chain (mkReader (bs ++ line) None) = Some (Ok h') ∧
    audit_chain (mkReader (bs ++ line) None) = Some (Ok (out ++ [(head_seq h', head_hash h')]))
  else
    verify_chain (mkReader (bs ++ line) None) =
      Some (Err (Broken (head_seq h') "incomplete or over-long line")).
Proof.
  intros Hv Ha He. destruct (verify_audit_lines _ _ _ Hv Ha) as (lines & -> & Hc & ->).
  destruct (encode_extends _ _ _ _ He) as (body & Hb & Hn & e' & _ & _ & _ & Hh).
  split; [by rewrite Hh|]. destruct (N.leb_spec (vlen line) (MAX_LINE + 1)) as [Hl|Hl].
  - destruct (verify_append _ _ _ _ _ Hc He Hl) as (body' & -> & Hc').
    rewrite <-unlines_snoc, verify_chain_spec, audit_chain_spec.
    rewrite (chained_last _ _ _ Hc'), (chained_seq _ _ _ Hc').
    split; [eauto|]. exists (lines ++ [body']), h'. split_and!; [done..|]. rewrite entries_of_snoc.
    do 3 f_equal. autorewrite with warden. simpl. lia.
  - unfold verify_chain. rewrite Hb in *. rewrite (walk_chain_over _ _ _ h) by
      (done || autorewrite with warden in Hl; lia). by rewrite Hh.
Qed.

(** C17: two logs that both verify and carry the same hash for some sequence
    number are octet for octet the same up to and including that entry (the
    common part is itself a log that verifies, with that many entries), or
    among the lines up to that entry there is one of each log that differ but
    have the same SHA-256: the logs themselves exhibit a collision. *)
Theorem common_entry_pins_prefix `{Sha256, !Sha256Laws, Json AuditEntry}
    bs1 bs2 out1 out2 s hash :
  audit_chain (mkReader bs1 None) = Some (Ok out1) →
  audit_chain (mkReader bs2 None) = Some (Ok out2) →
  (s, hash) ∈ out1 → (s, hash) ∈ out2 →
  (∃ p r1 r2, bs1 = p ++ r1 ∧ bs2 = p ++ r2 ∧
     verify_audit_log (mkReader p None) = Some (Ok s)) ∨
  collide (take (N.to_nat s) (log_lines bs1)) (take (N.to_nat s) (log_lines bs2)).
Proof.
  intros (ls1 & h1 & -> & Hc1 & ->)%audit_chain_spec (ls2 & h2 & -> & Hc2 & ->)%audit_chain_spec.
  intros Hin1 Hin2. rewrite (log_lines_chained _ _ _ Hc1), (log_lines_chained _ _ _ Hc2).
  destruct (chained_entry_inj _ _ _ _ _ _ Hc1 Hc2 Hin1 Hin2) as [Heq|]; [left|by right].
  exists (unlines (take (N.to_nat s) ls1)), (unlines (drop (N.to_nat s) ls1)),
    (unlines (drop (N.to_nat s) ls2)).
  split_and!; [by rewrite <-unlines_app, take_drop|by rewrite Heq, <-unlines_app, take_drop|].
  rewrite <-(take_drop (N.to_nat s) ls1) in Hc1. apply chained_app_inv in Hc1 as (h & Hc & _).
  unfold verify_audit_log. rewrite (proj2 (verify_chain_spec _ h)) by eauto. simpl.
  rewrite (chained_seq _ _ _ Hc). simpl. do 2 f_equal. unfold vlen. rewrite length_take.
  apply entries_of_seq in Hin1 as (l & ? & Hl & _). apply lookup_lt_Some in Hl. lia.
Qed.

(** C22: one delivered anchor for the last entry of a log pins the whole log.
    If a later log of the same chain verifies and [compare_anchors] against
    the journal reports no tampering, then the earlier log is a prefix of the
    later one, or a line of the one and a different line of the other have
    the same SHA-256. *)
Theorem consistent_anchors_pin_log `{Sha256, !Sha256Laws, Json AuditEntry}
    bs1 bs2 out1 out2 first s hash pid action outcome journal :
  audit_chain (mkReader bs1 None) = Some (Ok out1) →
  audit_chain (mkReader bs2 None) = Some (Ok out2) →
  head out1 = Some first → last out1 = Some (s, hash) → s ≤ u64_max →
  anchor_id out2 = Some (chain_id first.2) →
  parse_anchor (message pid s hash (chain_id first.2) action outcome) ∈ Some <$> journal →
  consistent (compare_anchors out2 journal) = true →
  (∃ r, bs2 = bs1 ++ r) ∨ collide (log_lines bs1) (log_lines bs2).
Proof.
  intros (ls1 & h1 & -> & Hc1 & ->)%audit_chain_spec (ls2 & h2 & -> & Hc2 & ->)%audit_chain_spec.
  rewrite (log_lines_chained _ _ _ Hc1), (log_lines_chained _ _ _ Hc2).
  intros Hf Hlast Hs Hid Hj Hcons.
  assert ((s, hash) ∈ entries_of 0 ls1) as Hin1 by by apply last_Some_elem_of.
  destruct (proj1 (entries_of_seq _ _ _ _) Hin1) as (l & Hs0 & Hl & ->).
  assert (∃ f, first.2 = line_hash f) as [f Hf2].
  { destruct ls1; simpl in Hf; simplify_eq. eauto. }
  rewrite Hf2, parse_sent_entry in Hj by done.
  apply list_elem_of_fmap in Hj as (a & [= <-] & Ha).
  pose proof (proj1 (compare_consistent _ _) Hcons _ Ha) as Hok. simpl in Hok.
  rewrite Hid, Hf2 in Hok. specialize (Hok ltac:(split; [by eexists|done])).
  assert ((s, line_hash l) ∈ entries_of 0 ls2) as Hin2.
  { destruct (chain_map _ !! s) as [h|] eqn:E.
    - apply chain_map_Some in E. by subst.
    - unfold chain_head in Hok. destruct ls2 as [|l2 ls2 _] using rev_ind; [simpl in Hok; lia|].
      rewrite entries_of_snoc, last_snoc in Hok. simpl in Hok.
      assert (is_Some ((ls2 ++ [l2]) !! N.to_nat (s - 0 - 1))) as [l' Hl'].
      { apply lookup_lt_is_Some. rewrite length_app. unfold vlen in Hok. simpl. lia. }
      assert ((s, line_hash l') ∈ entries_of 0 (ls2 ++ [l2])) as Hin
        by (apply entries_of_seq; eauto).
      apply chain_map_None in Hin. rewrite E in Hin. by destruct Hin. }
  destruct (chained_entry_inj _ _ _ _ _ _ Hc1 Hc2 Hin1 Hin2) as [Heq|Hcol]; [left|right].
  2:{ rewrite <-(take_drop (N.to_nat s) ls1), <-(take_drop (N.to_nat s) ls2). by apply collide_app. }
  exists (unlines (drop (N.to_nat s) ls2)).
  rewrite <-(take_ge ls1 (N.to_nat s)), Heq, <-unlines_app, take_drop; [done|].
  destruct ls1 as [|l1 ls1 _] using rev_ind; [done|].
  rewrite entries_of_snoc, last_snoc in Hlast. simplify_eq. unfold vlen. rewrite length_app.
  simpl. lia.
Qed.

(** No false alarm. When every anchor of this chain in the journal is one
    that was sent for an entry of the log, in any order and any number of
    times, [compare_anchors] reports no tampering, and the entries it counts
    as matched and unanchored add up to the length of the log. *)
Theorem honest_anchors_consistent `{Sha256, !Sha256Laws, Json AuditEntry} bs out first journal :
  audit_chain (mkReader bs None) = Some (Ok out) →
  head out = Some first → vlen out ≤ u64_max →
  Forall (λ a, own (anchor_id out) a → ∃ s hash pid action outcome, (s, hash) ∈ out ∧
    parse_anchor (message pid s hash (chain_id first.2) action outcome) = Some a) journal →
  let c := compare_anchors out journal in
  consistent c = true ∧ matched c + unanchored c = entries c ∧ entries c = vlen out.
Proof.
  intros (ls & h & -> & Hc & ->)%audit_chain_spec Hf Hmax Hall. cbn zeta.
  assert (∃ f, first.2 = line_hash f) as [f Hf2].
  { destruct ls; simpl in Hf; simplify_eq. eauto. }
  assert (vlen (entries_of 0 ls) = vlen ls) as Hlen by (unfold vlen; by rewrite length_entries_of).
  assert (∀ a, a ∈ journal → own (anchor_id (entries_of 0 ls)) a →
    ∃ l, 0 < seq a ∧ ls !! N.to_nat (seq a - 0 - 1) = Some l ∧ hash a = line_hash l) as Hown.
  { intros a Ha Ho. destruct (proj1 (Forall_forall _ _) Hall _ Ha Ho) as (s & h' & p & x & o & Hin & Hp).
    apply entries_of_seq in Hin as (l & Hs & Hl & ->).
    pose proof (lookup_lt_Some _ _ _ Hl). unfold vlen in *.
    rewrite Hf2, parse_sent_entry in Hp by lia. simplify_eq. eauto. }
  assert (consistent (compare_anchors (entries_of 0 ls) journal) = true) as Hcons.
  { apply compare_consistent. intros a Ha Ho. destruct (Hown a Ha Ho) as (l & Hs & Hl & Hh).
    assert ((seq a, hash a) ∈ entries_of 0 ls) as Hin by (apply entries_of_seq; eauto).
    destruct (chain_map _ !! seq a) as [h'|] eqn:E.
    - apply chain_map_Some, entries_of_seq in E as (l' & _ & Hl' & ->). congruence.
    - apply chain_map_None in Hin. rewrite E in Hin. by destruct Hin. }
  pose proof (compare_counts (entries_of 0 ls) journal Hmax) as Hn. cbn zeta in Hn.
  assert (mismatched (compare_anchors (entries_of 0 ls) journal) = []) as Hmis.
  { unfold consistent in Hcons. apply andb_true_iff in Hcons as [Hm _]. by reflect_bools. }
  rewrite Hmis in Hn. autorewrite with warden in Hn. rewrite compare_entries.
  split_and!; [done| |done]. rewrite <-Hn; [lia|].
  intros a b Ha Hb Hoa Hob Hs.
  destruct (Hown a Ha Hoa) as (la & _ & Hla & ->), (Hown b Hb Hob) as (lb & _ & Hlb & ->).
  rewrite Hs in Hla. congruence.
Qed.

(** The count of entries without an anchor is only meaningful when no
    entry has both a matching and a mismatching anchor: with one entry and
    one anchor of each kind, [entries - matched - mismatched.len()] wraps
    around to [2^64 - 1]. *)
Theorem unanchored_wraps :
  let h := String.concat "" (repeat "1" 64)%string in
  let g := String.concat "" (repeat "2" 64)%string in
  let a x := mkAnchor 1 x (Some (chain_id h)) in
  compare_anchors [(1, h)] [a h; a g] = mkComparison 1 1 [1] [] u64_max 0.
Proof. vm_compute. reflexivity. Qed.

(** *** Concrete logs *)
Section Samples.
#[local] Existing Instance Toy.sha.
#[local] Existing Instance Toy.sha_laws.
Definition sample_json : Json AuditEntry := Toy.json AuditEntry.
#[local] Existing Instance sample_json.
Definition sample_json_laws : JsonLaws AuditEntry := Toy.json_laws AuditEntry.
#[local] Existing Instance sample_json_laws.

Definition sample_entry (action : string) : AuditEntry :=
  mkEntry 0 0 1000 None None action None None None "ok" None "".

Fixpoint sample_log (actions : list string) (h : ChainHead) : bytes :=
  match actions with
  | [] => []
  | a :: actions =>
      match Audit.encode (sample_entry a) h with
      | Ok (line, h) => line ++ sample_log actions h
      | Err _ => []
      end
  end.

Definition chain_of (bs : bytes) : list (N * string) :=
  match audit_chain (mkReader bs None) with Some (Ok out) => out | _ => [] end.
Definition head_of (bs : bytes) : ChainHead :=
  match verify_chain (mkReader bs None) with Some (Ok h) => h | _ => genesis end.
Definition append_to (bs : bytes) (action : string) : bytes * ChainHead :=
  match Audit.encode (sample_entry action) (head_of bs) with Ok r => r | Err _ => ([], genesis) end.
Definition journal_of (out : list (N * string)) : list Anchor :=
  omap (λ x, parse_anchor (message 7 x.1 x.2
    (chain_id (default (0, ""%string) (head out)).2) "a" "ok")) out.

Definition log1 : bytes := Eval vm_compute in sample_log ["quarantine"]%string genesis.
Definition log2 : bytes := Eval vm_compute in sample_log ["quarantine"; "restore"]%string genesis.
Definition head1 : ChainHead := Eval vm_compute in head_of log1.
Definition out1 : list (N * string) := Eval vm_compute in chain_of log1.
Definition out2 : list (N * string) := Eval vm_compute in chain_of log2.
Definition appended : bytes * ChainHead := Eval vm_compute in append_to log1 "restore".
Definition first2 : N * string := Eval vm_compute in default (0, ""%string) (head out2).
Definition journal2 : list Anchor := Eval vm_compute in journal_of out2.

Lemma append_verifies_witness :
  head_seq appended.2 = head_seq head1 + 1 ∧
  if vlen appended.1 <=? MAX_LINE + 1 then
    verify_chain (mkReader (log1 ++ appended.1) None) = Some (Ok appended.2) ∧
    audit_chain (mkReader (log1 ++ appended.1) None) =
      Some (Ok (out1 ++ [(head_seq appended.2, head_hash appended.2)]))
  else
    verify_chain (mkReader (log1 ++ appended.1) None) =
      Some (Err (Broken (head_seq appended.2) "incomplete or over-long line")).
Proof.
  apply (append_verifies log1 head1 out1 (sample_entry "restore") appended.1 appended.2);
    vm_compute; reflexivity.
Defined.

Lemma common_entry_pins_prefix_witness :
  (∃ p r1 r2, log1 = p ++ r1 ∧ log2 = p ++ r2 ∧
     verify_audit_log (mkReader p None) = Some (Ok 1)) ∨
  collide (take 1 (log_lines log1)) (take 1 (log_lines log2)).
Proof.
  apply (common_entry_pins_prefix log1 log2 out1 out2 1 first2.2).
  - vm_compute. reflexivity.
  - vm_compute. reflexivity.
  - apply list_elem_of_lookup_2 with 0%nat. reflexivity.
  - apply list_elem_of_lookup_2 with 0%nat. reflexivity.
Defined.

(** On these logs there is no collision: the first of the two holds. *)
Example no_collision : ¬ collide (take 1 (log_lines log1)) (take 1 (log_lines log2)).
Proof.
  assert (take 1 (log_lines log1) = take 1 (log_lines log2)) as -> by (vm_compute; reflexivity).
  intros (x & y & Hx & Hy & Hne & _). apply Hne.
  assert (∃ l, take 1 (log_lines log2) = [l]) as [l El] by (eexists; vm_compute; reflexivity).
  rewrite El, list_elem_of_singleton in Hx, Hy. congruence.
Qed.

Lemma consistent_anchors_pin_log_witness :
  (∃ r, log2 = log1 ++ r) ∨ collide (log_lines log1) (log_lines log2).
Proof.
  apply (consistent_anchors_pin_log log1 log2 out1 out2 first2 1 first2.2 7 "a" "ok" journal2);
    try (vm_compute; reflexivity).
  - vm_compute. discriminate.
  - apply list_elem_of_lookup_2 with 0%nat. vm_compute. reflexivity.
Defined.

Lemma honest_anchors_consistent_witness :
  let c := compare_anchors out2 journal2 in
  consistent c = true ∧ matched c + unanchored c = entries c ∧ entries c = vlen out2.
Proof.
  apply (honest_anchors_consistent log2 out2 first2 journal2).
  - vm_compute. reflexivity.
  - vm_compute. reflexivity.
  - vm_compute. discriminate.
  - repeat constructor; intros _; eexists _, _, 7, "a"%string, "ok"%string.
    + split; [by apply list_elem_of_lookup_2 with 0%nat|vm_compute; reflexivity].
    + split; [by apply list_elem_of_lookup_2 with 1%nat|vm_compute; reflexivity].
Defined.

End Samples.
End AuditProps.
