(* ===== verification/Remediation.v ===== *)
(** * Quarantine records and policy

    [Record] models [crates/remediation/src/record.rs] and the types of
    [lib.rs]; [Common] models [common.rs]; [Allow] models [allowlist.rs];
    [Policy] models the Unix side of [policy.rs] and the pure part of
    [report.rs]. *)

From S2P Require Import Prelude Utf8 Paths Core External AuditLog.

(** ** record.rs and lib.rs *)
Module Record.

Definition RECORD_FORMAT_VERSION : N := 1.

(** The newtype [QuarantineId(String)]. *)
Abbreviation QuarantineId := string.

Inductive ItemState := Pending | Quarantined | Restored | Deleted | RolledBack | Failed.
#[export] Instance ItemState_eq_dec : EqDecision ItemState.
Proof. solve_decision. Defined.
#[export] Instance ItemState_countable : Countable ItemState.
Proof.
  apply (inj_countable'
    (λ s, match s with Pending => 0 | Quarantined => 1 | Restored => 2 | Deleted => 3
                     | RolledBack => 4 | Failed => 5 end)
    (λ n, match n with 0 => Pending | 1 => Quarantined | 2 => Restored | 3 => Deleted
                     | 4 => RolledBack | _ => Failed end)).
  by intros [].
Defined.

Record OriginalFile := mkOriginal {
  path : ObservedPath;
  size : N;
  sha256 : Sha256Digest;
  mode : N;
  uid : N;
  gid : N;
  dev : N;
  ino : N;
  owner_sid : option string;
  modified : option Z }.

Record QuarantineReason := mkReason {
  finding_id : option string;
  detection_name : option string;
  detector : option string;
  rule_id : option string;
  database_version : option string;
  note : option string }.

Record QuarantineRecord := mkRecord {
  format_version : N;
  id : QuarantineId;
  state : ItemState;
  original : OriginalFile;
  key_hex : string;
  reason : QuarantineReason;
  actor_uid : N;
  created_at : Z;
  updated_at : Z;
  restored_to : option ObservedPath;
  notes : list string }.

#[export] Instance OriginalFile_eq_dec : EqDecision OriginalFile.
Proof. solve_decision. Defined.
#[export] Instance QuarantineReason_eq_dec : EqDecision QuarantineReason.
Proof. solve_decision. Defined.
#[export] Instance QuarantineRecord_eq_dec : EqDecision QuarantineRecord.
Proof. solve_decision. Defined.
#[export] Instance OriginalFile_countable : Countable OriginalFile.
Proof.
  apply (inj_countable'
    (λ o, (path o, size o, sha256 o, mode o, uid o, gid o, dev o, (ino o, owner_sid o, modified o)))
    (λ '(a, b, c, d, e, f, g, (h, i, j)), mkOriginal a b c d e f g h i j)).
  by intros [].
Defined.
#[export] Instance QuarantineReason_countable : Countable QuarantineReason.
Proof.
  apply (inj_countable'
    (λ r, (finding_id r, detection_name r, detector r, rule_id r, database_version r, note r))
    (λ '(a, b, c, d, e, f), mkReason a b c d e f)).
  by intros [].
Defined.
#[export] Instance QuarantineRecord_countable : Countable QuarantineRecord.
Proof.
  apply (inj_countable'
    (λ r, (format_version r, id r, state r, original r, key_hex r, reason r,
           (actor_uid r, created_at r, updated_at r, restored_to r, notes r)))
    (λ '(a, b, c, d, e, f, (g, h, i, j, k)), mkRecord a b c d e f g h i j k)).
  by intros [].
Defined.

(** [rec.state = s; rec.updated_at = t; rec.notes.extend(n)] *)
Definition advance (s : ItemState) (t : Z) (n : list string) (r : QuarantineRecord)
    : QuarantineRecord :=
  mkRecord (format_version r) (id r) s (original r) (key_hex r) (reason r) (actor_uid r)
    (created_at r) t (restored_to r) (notes r ++ n).
Definition set_restored_to (p : option ObservedPath) (r : QuarantineRecord) : QuarantineRecord :=
  mkRecord (format_version r) (id r) (state r) (original r) (key_hex r) (reason r) (actor_uid r)
    (created_at r) (updated_at r) p (notes r).
Definition add_notes (n : list string) (r : QuarantineRecord) : QuarantineRecord :=
  mkRecord (format_version r) (id r) (state r) (original r) (key_hex r) (reason r) (actor_uid r)
    (created_at r) (updated_at r) (restored_to r) (notes r ++ n).

(** The errors of lib.rs. *)
Inductive RemediationError :=
  | InvalidPath (p : Paths.path)
  | SymlinkInPath (p : Paths.path)
  | Protected (p : Paths.path)
  | InsideStore (p : Paths.path)
  | NotRegularFile (p : Paths.path)
  | InUse (p : Paths.path)
  | TooLarge (p : Paths.path) (limit : N)
  | HardLinked (p : Paths.path) (links : N)
  | FileChanged (p : Paths.path) (expected actual : Sha256Digest)
  | Replaced (p : Paths.path)
  | StoreInsecure (p : Paths.path) (why : string)
  | StoreBusy
  | InvalidId (s : string)
  | UnknownItem (id : QuarantineId)
  | InvalidState (id : QuarantineId) (state : ItemState)
  | TargetExists (p : Paths.path)
  | UnsafeTarget (p : Paths.path) (why : string)
  | Corrupt (id : QuarantineId) (why : string)
  | Io (op : string) (p : Paths.path) (source : IoError)
  | AuditErr (e : Audit.AuditError).

Definition hex (bs : bytes) : string := Digest.hex_encode bs.

(** [u8::from_str_radix(s, 16)] on two octets: a leading [+] is accepted. *)
Definition from_str_radix16 (a b : N) : option N :=
  if a =? 43 then Digest.hex_value b
  else hi ← Digest.hex_value a; lo ← Digest.hex_value b; Some (hi * 16 + lo).

Fixpoint unhex_pairs (bs : bytes) : option bytes :=
  match bs with
  | [] => Some []
  | a :: b :: bs => v ← from_str_radix16 a b; vs ← unhex_pairs bs; Some (v :: vs)
  | [_] => None
  end.

Definition unhex (s : string) : option bytes :=
  if negb (len s mod 2 =? 0) then None else unhex_pairs (as_bytes s).

(** [QuarantineId::from_str] *)
Definition is_id_byte (b : N) : bool := is_ascii_digit b || ((97 <=? b) && (b <=? 102)).
Definition parse_id (s : string) : result RemediationError QuarantineId :=
  if (len s =? 32) && forallb is_id_byte (as_bytes s) then Ok s
  else Err (InvalidId (of_chars (take 64 (chars s)))).

(** [QuarantineId::random] from 16 random octets. *)
Definition random_id (b : bytes) : QuarantineId := hex b.

Lemma unhex_pairs_hex bs :
  Forall is_byte bs →
  unhex_pairs (bs ≫= λ b, [Digest.hex_digit (N.shiftr b 4); Digest.hex_digit (N.land b 15)]) = Some bs.
Proof.
  induction 1 as [|b bs Hb _ IH]; csimpl; [done|].
  destruct (Digest.nibbles b Hb) as [Hh Hl]. unfold from_str_radix16.
  assert ((Digest.hex_digit (N.shiftr b 4) =? 43) = false) as ->.
  { unfold Digest.hex_digit. case_match; lia. }
  rewrite !Digest.hex_value_digit by done. simpl. rewrite IH. simpl.
  by rewrite <-Digest.split_nibbles.
Qed.

Lemma as_bytes_hex bs :
  Forall is_byte bs →
  as_bytes (hex bs) = bs ≫= λ b, [Digest.hex_digit (N.shiftr b 4); Digest.hex_digit (N.land b 15)].
Proof. intros H. by apply as_of_bytes, Digest.hex_bytes_byte. Qed.

Lemma len_hex bs : len (hex bs) = 2 * vlen bs.
Proof.
  unfold len, hex, Digest.hex_encode, vlen. rewrite length_of_bytes, Digest.length_hex_bytes. lia.
Qed.

Lemma unhex_hex bs : Forall is_byte bs → unhex (hex bs) = Some bs.
Proof.
  intros H. unfold unhex. rewrite len_hex, N.mul_comm, N.Div0.mod_mul. simpl.
  rewrite as_bytes_hex by done. by apply unhex_pairs_hex.
Qed.

(** A random identifier is one that parsing accepts. *)
Lemma parse_random_id b :
  Forall is_byte b → length b = 16%nat → parse_id (random_id b) = Ok (random_id b).
Proof.
  intros Hb Hl. unfold parse_id, random_id. rewrite len_hex. unfold vlen. rewrite Hl.
  rewrite as_bytes_hex by done.
  assert (forallb is_id_byte (b ≫= λ b, [Digest.hex_digit (N.shiftr b 4);
    Digest.hex_digit (N.land b 15)]) = true) as ->; [|done].
  apply forallb_true. clear Hl. induction Hb as [|x b Hx _ IH]; csimpl; [constructor|].
  destruct (Digest.nibbles x Hx).
  assert (∀ v, v < 16 → is_id_byte (Digest.hex_digit v) = true) as Hv.
  { intros v Hv. unfold is_id_byte, Digest.hex_digit, is_ascii_digit. case_match; lia. }
  repeat constructor; auto.
Qed.

End Record.
Export (hints) Record.

(** [Display] of the errors (the [#[error]] attributes of lib.rs and
    audit.rs). *)
Module ErrorText.
Import Record.
Section Text.
Context `{StdText}.

Definition state_debug (s : ItemState) : string :=
  match s with
  | Pending => "Pending" | Quarantined => "Quarantined" | Restored => "Restored"
  | Deleted => "Deleted" | RolledBack => "RolledBack" | Failed => "Failed"
  end.

Definition audit_text (e : Audit.AuditError) : string :=
  match e with
  | Audit.Broken line why => fmt "line {line}: {reason}" [show_N line; why]
  | Audit.Io t => fmt "I/O error: {0}" [t]
  | Audit.Serialize t => fmt "cannot serialise entry: {0}" [t]
  end.

Definition err_text (e : RemediationError) : string :=
  match e with
  | InvalidPath p => fmt "path must be absolute and must not contain `..`: {0}" [display p]
  | SymlinkInPath p =>
      fmt "{0} contains a symbolic link (or is not reachable without one); use the fully resolved path"
        [display p]
  | Protected p =>
      fmt "{0} is under a protected system directory; refusing without explicit override" [display p]
  | InsideStore p => fmt "{0} is inside the quarantine store" [display p]
  | NotRegularFile p => fmt "{0} is not a regular file" [display p]
  | InUse p =>
      fmt "{0} is in use by another program (opened without sharing, or a running program); nothing was changed"
        [display p]
  | TooLarge p limit => fmt "{path} is larger than the {limit}-byte limit" [display p; show_N limit]
  | HardLinked p links =>
      fmt "{path} has {links} hard links; quarantining one name would leave the content reachable through the others"
        [display p; show_N links]
  | FileChanged p expected actual =>
      fmt "{path} changed: expected SHA-256 {expected}, found {actual}; nothing was modified"
        [display p; Digest.to_hex expected; Digest.to_hex actual]
  | Replaced p =>
      fmt "{path} was replaced while it was being quarantined; nothing was removed" [display p]
  | StoreInsecure p why => fmt "quarantine store {path} is unsafe: {reason}" [display p; why]
  | StoreBusy => "quarantine store is in use by another process"
  | InvalidId s => fmt "invalid quarantine ID {0:?}" [debug_str s]
  | UnknownItem id => fmt "no quarantined item {0}" [id]
  | InvalidState id st =>
      fmt "item {id} is {state:?}; this operation needs it to be quarantined" [id; state_debug st]
  | TargetExists p => fmt "{0} already exists; restore never overwrites" [display p]
  | UnsafeTarget p why => fmt "cannot restore into {path}: {reason}" [display p; why]
  | Corrupt id why => fmt "quarantine data for {id} is corrupt: {reason}" [id; why]
  | Io op p source => fmt "{op} {path}: {source}" [op; display p; io_text source]
  | AuditErr e => fmt "audit log: {0}" [audit_text e]
  end.

End Text.
End ErrorText.

(** ** common.rs *)
Module Common.
Import Record.

Definition DATA_MAGIC : bytes := as_bytes "AWQDATA1".
Definition KEY_LEN : nat := 32.
Definition CHUNK : N := 64 * 1024.
Definition MAX_RECORD_BYTES : N := 1024 * 1024.

Definition io_err (op : string) (p : Paths.path) (e : IoError) : RemediationError := Io op p e.
Definition corrupt (id : QuarantineId) (why : string) : RemediationError := Corrupt id why.

(** [key[((offset + i) % klen) as usize]]; an empty key panics, and callers
    check its length. *)
Fixpoint xor_in_place (buf key : bytes) (offset : N) : bytes :=
  match buf with
  | [] => []
  | b :: buf =>
      N.lxor b (default 0 (key !! N.to_nat (offset mod vlen key)))
      :: xor_in_place buf key (offset + 1)
  end.

Definition split_checked (p : Paths.path) : result RemediationError (Paths.path * string) :=
  if negb (is_absolute p) || existsb (λ c, bool_decide (c = ParentDir)) (components p)
  then Err (InvalidPath p)
  else match last (components p) with
       | Some (Normal name) =>
           match parent p with
           | Some d => Ok (d, name)
           | None => Err (InvalidPath p)
           end
       | _ => Err (InvalidPath p)
       end.

(** Encoding a file chunk by chunk is encoding it at once. *)
Lemma xor_app a b key off :
  xor_in_place (a ++ b) key off = xor_in_place a key off ++ xor_in_place b key (off + vlen a).
Proof.
  revert off. induction a as [|x a IH]; intros off; simpl.
  - by rewrite N.add_0_r.
  - rewrite IH. autorewrite with warden. do 3 f_equal. lia.
Qed.

Lemma length_xor a key off : length (xor_in_place a key off) = length a.
Proof. revert off. induction a; intros off; simpl; auto. Qed.

Lemma vlen_xor a key off : vlen (xor_in_place a key off) = vlen a.
Proof. unfold vlen. by rewrite length_xor. Qed.

(** Decoding is encoding again. *)
Lemma xor_xor a key off : xor_in_place (xor_in_place a key off) key off = a.
Proof.
  revert off. induction a as [|x a IH]; intros off; simpl; [done|].
  rewrite IH, N.lxor_assoc, N.lxor_nilpotent, N.lxor_0_r. done.
Qed.

Lemma split_checked_Ok p d n :
  split_checked p = Ok (d, n) → is_absolute p = true ∧ file_name p = Some n ∧ parent p = Some d.
Proof.
  unfold split_checked, file_name. intros H. case_match eqn:E; [done|]. reflect_bools.
  repeat case_match; simplify_eq. done.
Qed.

End Common.

(** ** allowlist.rs *)
Module Allow.
Import Record.

Definition ALLOWLIST_FILE : string := "allowlist.json".
Definition MAX_ALLOWLIST_BYTES : N := 4 * 1024 * 1024.
Definition MAX_ALLOW_ENTRIES : N := 10000.

Record AllowEntry := mkAllow {
  sha256 : Sha256Digest;
  added_at : Z;
  reason : string;
  item : option string;
  detection_name : option string }.

Record AllowlistFile := mkAllowlist { format_version : N; entries : list AllowEntry }.

Definition parse `{Json AllowlistFile} (bs : bytes) (p : Paths.path)
    : result RemediationError AllowlistFile :=
  let corrupt why := StoreInsecure p (fmt "allow-list is unreadable ({reason})" [why]) in
  file ← map_err corrupt (from_slice bs);
  _ ← reject_if (negb (format_version file =? 1)) (corrupt "unsupported format_version");
  mret file.

(** What [std::fs::symlink_metadata] and the read of [read_allowlist] see. *)
Inductive stat_result := IsRegular | IsOther | StatNotFound | StatError (e : IoError).

Definition read_allowlist `{Json AllowlistFile} (store_root : Paths.path) (st : stat_result)
    (content : result IoError bytes) : result RemediationError (list AllowEntry) :=
  let p := join store_root ALLOWLIST_FILE in
  match st with
  | IsOther => Err (StoreInsecure p "the allow-list is not a regular file")
  | StatNotFound => Ok []
  | StatError e => Err (Io "stat" p e)
  | IsRegular =>
      all ← map_err (Io "read" p) content;
      let bs := take (N.to_nat (MAX_ALLOWLIST_BYTES + 1)) all in
      _ ← reject_if (MAX_ALLOWLIST_BYTES <? vlen bs) (StoreInsecure p "the allow-list is too large");
      f ← parse bs p;
      mret (entries f)
  end.

End Allow.

(** ** policy.rs and report.rs *)
Module Policy.
Import Record.

Definition PROTECTED_PREFIXES : list Paths.path :=
  ["/bin"; "/boot"; "/dev"; "/etc"; "/lib"; "/lib32"; "/lib64"; "/libx32"; "/proc"; "/sbin";
   "/sys"; "/usr"; "/var/lib/dpkg"; "/var/lib/rpm"]%string.

Definition is_protected_path (p : Paths.path) : bool :=
  existsb (path_starts_with p) PROTECTED_PREFIXES.

Definition native_path (p : ObservedPath) : option Paths.path :=
  match ObservedPath.raw_hex p with
  | None => Some (ObservedPath.text p)
  | Some h => bs ← unhex h; Some (of_bytes bs)
  end.

Definition auto_quarantine_target (f : Finding) : result string (Paths.path * Sha256Digest) :=
  if negb (bool_decide (Finding.kind f = Finding.KnownIndicator))
     || negb (bool_decide (Finding.confidence f = Finding.Confirmed))
  then Err "only confirmed known-indicator matches are remediated automatically"%string
  else if negb (bool_decide (Finding.category f = Finding.Malware))
  then Err "only findings categorised as malware are remediated automatically"%string
  else if negb (bool_decide (Finding.recommended_action f = Finding.Quarantine))
  then Err "the detection does not recommend quarantine"%string
  else match Finding.target f with
       | Finding.File p (Some sha) _ =>
           p ← ok_or (native_path p) "the file path could not be reconstructed"%string;
           if is_protected_path p
           then Err "the file is under a protected system directory"%string
           else Ok (p, sha)
       | Finding.ArchiveMember _ _ _ _ =>
           Err "the detection is inside an archive; review it and quarantine the archive manually if appropriate"%string
       | _ => Err "the finding does not identify a file by hash"%string
       end.

(** [mark_allowed]; the date is rendered by the [time] crate. *)
Section Marking.
Context (show_date : Z → string).

Definition mark_one (entries : list Allow.AllowEntry) (f : Finding) : Finding * bool :=
  match Finding.target_sha256 (Finding.target f) with
  | None => (f, false)
  | Some sha =>
      match base.filter (λ e, Allow.sha256 e = sha) entries with
      | e :: _ =>
          (Finding.set_remediation Finding.Allowed
             (Some (fmt "SHA-256 allow-listed on {} ({})"
                      [show_date (Allow.added_at e); Allow.reason e])) f, true)
      | [] => (f, false)
      end
  end.

Definition mark_allowed (r : Report.ScanReport) (entries : list Allow.AllowEntry)
    : Report.ScanReport * N :=
  let marked := mark_one entries <$> Report.findings r in
  (Report.set_findings r marked.*1, sumN (λ m, if (m.2 : bool) then 1 else 0) marked).

End Marking.

Definition reason_for (f : Finding) : QuarantineReason :=
  mkReason (Some (Finding.id f)) (Some (Finding.name f))
    (Some (Finding.detector (Finding.source f))) (Finding.rule_id (Finding.source f))
    (Finding.database_version (Finding.source f)) None.

(** [lib.rs]: a request to quarantine one file. *)
Record QuarantineRequest := mkRequest {
  req_path : Paths.path;
  expected_sha256 : option Sha256Digest;
  req_reason : QuarantineReason;
  max_size : N;
  allow_protected : bool;
  kill_processes : bool }.

(** [report.rs]: [quarantine_report] over a store [S] whose [open] and
    [quarantine] are given; [show_err] is [to_string]. *)
Section QuarantineReport.
Context {S : Type} (quarantine : S → QuarantineRequest → result RemediationError QuarantineRecord * S)
  (show_err : RemediationError → string) (max_size : N) (kill : bool).

Definition eligible (f : Finding) : bool :=
  negb (bool_decide (Finding.remediation_status f = Finding.Allowed))
  && is_ok (auto_quarantine_target f).

Definition detail_of (r : QuarantineRecord) : string :=
  foldl (λ d n, (d +:+ "; " +:+ n)%string) (fmt "quarantine ID {}" [id r]) (notes r).

(** The loop body: the store is [None] when nothing is eligible, [Err] when it
    could not be opened. *)
Definition report_one (f : Finding) (store : option (result string S))
    : Finding * option string * option (result string S) :=
  if bool_decide (Finding.remediation_status f = Finding.Allowed) then (f, None, store)
  else match auto_quarantine_target f with
       | Err why => (Finding.set_remediation Finding.NotEligible (Some why) f, None, store)
       | Ok (p, sha) =>
           let '(result, store) :=
             match store with
             | Some (Ok s) =>
                 let '(r, s) := quarantine s (mkRequest p (Some sha) (reason_for f) max_size false kill) in
                 (map_err show_err r, Some (Ok s))
             | Some (Err e) => (Err (fmt "quarantine store unavailable: {e}" [e]), store)
             | None => (Err "quarantine store unavailable"%string, store)
             end in
           match result with
           | Ok rec => (Finding.set_remediation Finding.Quarantined (Some (detail_of rec)) f, None, store)
           | Err e => (Finding.set_remediation Finding.Failed (Some e) f, Some e, store)
           end
       end.

Fixpoint report_all (fs : list Finding) (store : option (result string S))
    : list Finding * list string * option (result string S) :=
  match fs with
  | [] => ([], [], store)
  | f :: fs =>
      let '(f, e, store) := report_one f store in
      let '(fs, errors, store) := report_all fs store in
      (f :: fs, match e with Some e => e :: errors | None => errors end, store)
  end.

(** The store is dropped at the end; here it is returned. *)
Definition quarantine_report (r : Report.ScanReport) (open : result string S)
    : Report.ScanReport * list string * option (result string S) :=
  let store := if existsb eligible (Report.findings r) then Some open else None in
  let '(fs, errors, store) := report_all (Report.findings r) store in
  (Report.set_findings r fs, errors, store).

End QuarantineReport.

(** The request the policy makes for a finding, if any. *)
Definition request_of (max_size : N) (kill : bool) (f : Finding) : option QuarantineRequest :=
  if bool_decide (Finding.remediation_status f = Finding.Allowed) then None
  else match auto_quarantine_target f with
       | Ok (p, sha) => Some (mkRequest p (Some sha) (reason_for f) max_size false kill)
       | Err _ => None
       end.

(** A store that also keeps the requests it was given. *)
Definition recording {S} (q : S → QuarantineRequest → result RemediationError QuarantineRecord * S)
    (s : S * list QuarantineRequest) (r : QuarantineRequest)
    : result RemediationError QuarantineRecord * (S * list QuarantineRequest) :=
  let '(res, s') := q s.1 r in (res, (s', s.2 ++ [r])).

Lemma report_all_requests {S} (q : S → QuarantineRequest → result RemediationError QuarantineRecord * S)
    show max kill fs s log :
  ∃ s', (report_all (recording q) show max kill fs (Some (Ok (s, log)))).2 =
        Some (Ok (s', log ++ omap (request_of max kill) fs)).
Proof.
  revert s log. induction fs as [|f fs IH]; intros s log; csimpl.
  { exists s. by rewrite app_nil_r. }
  assert (∃ s' e f', report_one (recording q) show max kill f (Some (Ok (s, log))) =
    (f', e, Some (Ok (s', log ++ option_list (request_of max kill f))))) as (s' & e & f' & E).
  { unfold report_one, request_of. case_bool_decide; [simpl; rewrite app_nil_r; eauto|].
    destruct (auto_quarantine_target f) as [[p sha]|]; [|simpl; rewrite app_nil_r; eauto].
    unfold recording. simpl. destruct (q s _) as [[r|r] s']; simpl; eauto. }
  rewrite E. specialize (IH s' (log ++ option_list (request_of max kill f))) as [s2 IH].
  destruct (report_all _ _ _ _ fs _) as [[fs' errs] st]; simpl in *. exists s2. rewrite IH.
  rewrite <-app_assoc. by destruct (request_of max kill f).
Qed.

Lemma request_eligible max kill f : is_Some (request_of max kill f) ↔ eligible f = true.
Proof.
  unfold request_of, eligible. case_bool_decide; simpl; [by split; [intros []|]|].
  destruct (auto_quarantine_target f) as [[p sha]|]; simpl; split; try done; by intros [].
Qed.

Lemma native_path_from_path_eq p : native_path (ObservedPath.from_path p) = Some p.
Proof.
  unfold native_path, ObservedPath.from_path, from_utf8.
  destruct (decode (as_bytes p)); simpl; [by rewrite of_as_bytes|].
  rewrite unhex_hex by apply as_bytes_is_byte. simpl. by rewrite of_as_bytes.
Qed.

Lemma auto_quarantine_spec f p sha :
  auto_quarantine_target f = Ok (p, sha) ↔
  Finding.kind f = Finding.KnownIndicator ∧ Finding.confidence f = Finding.Confirmed ∧
  Finding.category f = Finding.Malware ∧ Finding.recommended_action f = Finding.Quarantine ∧
  (∃ o meta, Finding.target f = Finding.File o (Some sha) meta ∧ native_path o = Some p) ∧
  is_protected_path p = false.
Proof.
  unfold auto_quarantine_target. split.
  - intros H. repeat case_match; try done; simpl in *; reflect_bools; try done.
    inv_result. destruct (is_protected_path x) eqn:E; simplify_eq. eauto 10.
  - intros (H1 & H2 & H3 & H4 & (o & meta & Ht & Hp) & Hs).
    rewrite !bool_decide_eq_true_2 by done. simpl. by rewrite Ht, Hp; simpl; rewrite Hs.
Qed.

End Policy.

(** ** Properties *)
Module RemediationProps.
Import Record Policy.

(** The path of a finding is reconstructed exactly: observing any path,
    UTF-8 or not, and asking for its native form gives it back. *)
Theorem native_path_round_trip p : native_path (ObservedPath.from_path p) = Some p.
Proof. apply native_path_from_path_eq. Qed.

(** A finding is eligible for automatic quarantine exactly when it is a
    confirmed known indicator of malware that recommends quarantine, on a
    file (not an archive member) with a hash and a path outside the protected
    system directories; the target is that path and that hash. *)
Theorem auto_quarantine_exact f p sha :
  auto_quarantine_target f = Ok (p, sha) ↔
  Finding.kind f = Finding.KnownIndicator ∧ Finding.confidence f = Finding.Confirmed ∧
  Finding.category f = Finding.Malware ∧ Finding.recommended_action f = Finding.Quarantine ∧
  (∃ o meta, Finding.target f = Finding.File o (Some sha) meta ∧ native_path o = Some p) ∧
  is_protected_path p = false.
Proof. apply auto_quarantine_spec. Qed.

(** C35: after [mark_allowed], [quarantine_report] asks the store, in the order
    of the report, for exactly the findings the policy makes a request for,
    and never for a file whose hash is on the allow-list; nothing is asked
    with [allow_protected], and every request pins the detected hash. *)
Theorem report_requests {S} (q : S → QuarantineRequest → result RemediationError QuarantineRecord * S)
    show_date show max kill r entries s :
  let r' := (mark_allowed show_date r entries).1 in
  let log := omap (request_of max kill) (Report.findings r') in
  let final := (quarantine_report (recording q) show max kill r' (Ok (s, []))).2 in
  (final = None ∧ log = [] ∨ ∃ s', final = Some (Ok (s', log))) ∧
  Forall (λ req, allow_protected req = false ∧
     ∃ sha, expected_sha256 req = Some sha ∧ sha ∉ (Allow.sha256 <$> entries)) log.
Proof.
  cbn zeta. split.
  - unfold quarantine_report. destruct (existsb eligible _) eqn:E.
    + right. destruct (report_all_requests q show max kill
        (Report.findings (mark_allowed show_date r entries).1) s []) as [s' Hs'].
      exists s'. rewrite app_nil_l in Hs'. rewrite <-Hs'. by destruct (report_all _ _ _ _ _ _) as [[]].
    + left. apply existsb_false in E. split.
      * assert (∀ fs, (report_all (recording q) show max kill fs None).2 = None) as Hn.
        { induction fs as [|f fs IH]; simpl; [done|].
          assert (∃ f' e, report_one (recording q) show max kill f None = (f', e, None))
            as (f' & e & ->).
          { unfold report_one. case_bool_decide; [eauto|].
            destruct (auto_quarantine_target f) as [[]|]; eauto. }
          by destruct (report_all _ _ _ _ fs None) as [[] ?]. }
        specialize (Hn (Report.findings (mark_allowed show_date r entries).1)).
        by destruct (report_all _ _ _ _ _ None) as [[] ?].
      * induction E as [|f fs Hf _ IH]; csimpl; [done|]. rewrite IH.
        destruct (request_of max kill f) eqn:Er; [|done].
        assert (eligible f = true) as Ht by (apply (request_eligible max kill); eauto). congruence.
  - apply Forall_forall. intros req Hr. apply list_elem_of_omap in Hr as (f & Hf & Hr).
    unfold mark_allowed in Hf. simpl in Hf. rewrite <-list_fmap_compose in Hf.
    apply list_elem_of_fmap in Hf as (f0 & -> & _). unfold compose, request_of in Hr.
    case_bool_decide as Ha; [done|].
    destruct (auto_quarantine_target _) as [[p sha]|] eqn:Et; simplify_eq. split; [done|].
    exists sha. split; [done|]. intros Hin. apply Ha.
    apply auto_quarantine_spec in Et as (_ & _ & _ & _ & (o & meta & Ht & _) & _).
    apply list_elem_of_fmap in Hin as (e & -> & He). revert Ht. unfold mark_one.
    assert (∀ st d g, Finding.target (Finding.set_remediation st d g) = Finding.target g) as Hst by done.
    destruct (Finding.target_sha256 (Finding.target f0)) as [sha0|] eqn:E0; simpl.
    + destruct (base.filter _ entries) as [|e' es] eqn:Ef; [|done]. simpl. intros Ht.
      rewrite Ht in E0. simpl in E0. simplify_eq.
      assert (e ∈ base.filter (λ e0, Allow.sha256 e0 = Allow.sha256 e) entries) as Hx
        by (by apply list_elem_of_filter).
      rewrite Ef in Hx. by apply not_elem_of_nil in Hx.
    + intros Ht. rewrite Ht in E0. done.
Qed.

End RemediationProps.
