(* ===== verification/Disk.v ===== *)
(** * A file system that can fail and lose power

    Directory entries and file contents each have a live value, which every
    process sees, and a durable one, which survives a power loss. A program
    is a computation over the file system and over streams of what the
    environment answers: a fault for each system call, clock readings, random
    octets, signal deliveries. [triple] is a Hoare triple with a postcondition
    for a normal return, for an error and for a power loss. *)

From S2P Require Import Prelude Paths.

Abbreviation inum := N.
Abbreviation errno := N.

Definition ENOENT : errno := 2.
Definition EINTR : errno := 4.
Definition EIO : errno := 5.
Definition EWOULDBLOCK : errno := 11.
Definition EEXIST : errno := 17.
Definition EXDEV : errno := 18.
Definition ENOTDIR : errno := 20.
Definition EINVAL : errno := 22.
Definition ENOSYS : errno := 38.
Definition ELOOP : errno := 40.

Inductive FileType := RegularFile | Directory | Symlink | Special.
#[export] Instance FileType_eq_dec : EqDecision FileType.
Proof. solve_decision. Defined.

(** [safe]: the content is on stable storage. The inode number is the key of
    [inodes]. *)
Record inode := mkInode {
  data : bytes;
  safe : bool;
  ftype : FileType;
  perm : N;
  uid : N;
  gid : N;
  nlink : N;
  dev : N;
  mtime : Z }.

Definition set_data (d : bytes) (s : bool) (i : inode) : inode :=
  mkInode d s (ftype i) (perm i) (uid i) (gid i) (nlink i) (dev i) (mtime i).
Definition set_perm (p : N) (i : inode) : inode :=
  mkInode (data i) (safe i) (ftype i) p (uid i) (gid i) (nlink i) (dev i) (mtime i).
Definition set_owner (u g : N) (i : inode) : inode :=
  mkInode (data i) (safe i) (ftype i) (perm i) u g (nlink i) (dev i) (mtime i).
Definition set_nlink (n : N) (i : inode) : inode :=
  mkInode (data i) (safe i) (ftype i) (perm i) (uid i) (gid i) n (dev i) (mtime i).

(** An entry is a directory's inode number and a name. *)
Record Fs := mkFs {
  inodes : gmap inum inode;
  live : gmap (inum * string) inum;
  disk : gmap (inum * string) inum }.

Definition set_inode (i : inum) (n : inode) (f : Fs) : Fs :=
  mkFs (<[i := n]> (inodes f)) (live f) (disk f).
Definition set_live (l : gmap (inum * string) inum) (f : Fs) : Fs :=
  mkFs (inodes f) l (disk f).

(** Power loss: each entry keeps its live binding (for [keep]) or reverts to
    the durable one; content that is not safe becomes arbitrary. *)
Definition lose_power (keep : gset (inum * string)) (garbage : gmap inum bytes) (f : Fs) : Fs :=
  let l := filter (λ e, e.1 ∈ keep) (live f) ∪ filter (λ e, e.1 ∉ keep) (disk f) in
  mkFs (map_imap (λ i n, Some (if safe n then n else set_data (default [] (garbage !! i)) true n))
          (inodes f)) l l.

(** ** System calls *)

Definition new_inode (p u g dv : N) : inode := mkInode [] true RegularFile p u g 1 dv 0.

Definition fresh_inum (f : Fs) : inum := fresh (dom (inodes f) : gset inum).

(** [openat(d, n, O_RDONLY | O_NOFOLLOW)] *)
Definition sys_open (d : inum) (n : string) (f : Fs) : result errno inum * Fs :=
  match live f !! (d, n) with
  | None => (Err ENOENT, f)
  | Some i =>
      match inodes f !! i with
      | None => (Err EIO, f)
      | Some x => (if bool_decide (ftype x = Symlink) then Err ELOOP else Ok i, f)
      end
  end.

(** [openat(d, n, O_WRONLY | O_CREAT | O_EXCL | O_NOFOLLOW, p)] *)
Definition sys_create_excl (euid : N) (d : inum) (n : string) (p : N) (f : Fs)
    : result errno inum * Fs :=
  match live f !! (d, n) with
  | Some _ => (Err EEXIST, f)
  | None =>
      let i := fresh_inum f in
      (Ok i, mkFs (<[i := new_inode p euid euid 0]> (inodes f)) (<[(d, n) := i]> (live f)) (disk f))
  end.

(** [openat(d, n, O_WRONLY | O_CREAT | O_TRUNC | O_NOFOLLOW, p)] *)
Definition sys_create_trunc (euid : N) (d : inum) (n : string) (p : N) (f : Fs)
    : result errno inum * Fs :=
  match live f !! (d, n) with
  | None => sys_create_excl euid d n p f
  | Some i =>
      match inodes f !! i with
      | None => (Err EIO, f)
      | Some x =>
          if bool_decide (ftype x = Symlink) then (Err ELOOP, f)
          else (Ok i, set_inode i (set_data [] false x) f)
      end
  end.

(** [fstat] *)
Definition sys_fstat (i : inum) (f : Fs) : result errno inode * Fs :=
  (ok_or (inodes f !! i) EIO, f).

(** [statat(d, n, AT_SYMLINK_NOFOLLOW)]: the inode number and the inode. *)
Definition sys_statat (d : inum) (n : string) (f : Fs) : result errno (inum * inode) * Fs :=
  (match live f !! (d, n) with
   | None => Err ENOENT
   | Some i => match inodes f !! i with None => Err EIO | Some x => Ok (i, x) end
   end, f).

Definition sys_write (i : inum) (bs : bytes) (f : Fs) : Fs :=
  match inodes f !! i with
  | None => f
  | Some x => set_inode i (set_data (data x ++ bs) false x) f
  end.

(** [fsync] of a file and of a directory. *)
Definition sys_fsync (i : inum) (f : Fs) : result errno unit * Fs :=
  (Ok tt, match inodes f !! i with
          | None => f
          | Some x => set_inode i (set_data (data x) true x) f
          end).

Definition sys_fsync_dir (d : inum) (f : Fs) : result errno unit * Fs :=
  (Ok tt, mkFs (inodes f) (live f)
            (filter (λ e, e.1.1 = d) (live f) ∪ filter (λ e, e.1.1 ≠ d) (disk f))).

Definition sys_unlink (d : inum) (n : string) (f : Fs) : result errno unit * Fs :=
  match live f !! (d, n) with
  | None => (Err ENOENT, f)
  | Some _ => (Ok tt, set_live (delete (d, n) (live f)) f)
  end.

(** [renameat(d, a, d, b)] *)
Definition sys_rename (d : inum) (a b : string) (f : Fs) : result errno unit * Fs :=
  match live f !! (d, a) with
  | None => (Err ENOENT, f)
  | Some i => (Ok tt, set_live (<[(d, b) := i]> (delete (d, a) (live f))) f)
  end.

(** [renameat2(d, a, d, b, RENAME_NOREPLACE)] *)
Definition sys_rename_noreplace (d : inum) (a b : string) (f : Fs) : result errno unit * Fs :=
  match live f !! (d, b) with
  | Some _ => (Err EEXIST, f)
  | None => sys_rename d a b f
  end.

(** [linkat(d, a, d, b)] *)
Definition sys_link (d : inum) (a b : string) (f : Fs) : result errno unit * Fs :=
  match live f !! (d, a), live f !! (d, b) with
  | None, _ => (Err ENOENT, f)
  | Some _, Some _ => (Err EEXIST, f)
  | Some i, None => (Ok tt, set_live (<[(d, b) := i]> (live f)) f)
  end.

(** [mkdirat(d, n, p)] *)
Definition sys_mkdir (euid : N) (d : inum) (n : string) (p : N) (f : Fs) : result errno unit * Fs :=
  match live f !! (d, n) with
  | Some _ => (Err EEXIST, f)
  | None =>
      let i := fresh_inum f in
      (Ok tt, mkFs (<[i := mkInode [] true Directory p euid euid 2 0 0]> (inodes f))
                (<[(d, n) := i]> (live f)) (disk f))
  end.

(** [openat(d, n, O_RDONLY | O_DIRECTORY | O_NOFOLLOW)] *)
Definition sys_open_dir (d : inum) (n : string) (f : Fs) : result errno inum * Fs :=
  match live f !! (d, n) with
  | None => (Err ENOENT, f)
  | Some i =>
      match inodes f !! i with
      | None => (Err EIO, f)
      | Some x => (match ftype x with
                   | Directory => Ok i
                   | Symlink => Err ELOOP
                   | _ => Err ENOTDIR
                   end, f)
      end
  end.

(** The whole content of a file, cut at [max] octets. *)
Definition sys_read_to_end (i : inum) (max : N) (f : Fs) : result errno bytes * Fs :=
  (match inodes f !! i with None => Err EIO | Some x => Ok (take (N.to_nat max) (data x)) end, f).

Definition sys_fchmod (i : inum) (p : N) (f : Fs) : result errno unit * Fs :=
  (Ok tt, match inodes f !! i with None => f | Some x => set_inode i (set_perm p x) f end).
Definition sys_fchown (i : inum) (u g : N) (f : Fs) : result errno unit * Fs :=
  (Ok tt, match inodes f !! i with None => f | Some x => set_inode i (set_owner u g x) f end).

(** The names of a directory. *)
Definition sys_readdir (d : inum) (f : Fs) : result errno (list string) * Fs :=
  (Ok (snd <$> (base.filter (λ k, k.1 = d) (map_to_list (live f)).*1)), f).

(** ** Programs *)

(** What the environment does at one system call. *)
Inductive fault :=
  | Proceed
  | Fails (e : errno)
  | Short (n : N)
  | PowerLoss (keep : gset (inum * string)) (garbage : gmap inum bytes).

Record state (T : Type) := mkState {
  self : T;
  fs : Fs;
  faults : list fault;
  clock : list Z;
  entropy : list (result string bytes);
  signals : list (option errno);
  sent : list (N * N);
  delivered : list bool }.
Arguments mkState {T}.
Arguments self {T}.
Arguments fs {T}.
Arguments faults {T}.
Arguments clock {T}.
Arguments entropy {T}.
Arguments signals {T}.
Arguments sent {T}.
Arguments delivered {T}.

Inductive outcome (T E A : Type) :=
  | Return (a : A) (s : state T)
  | Throw (e : E) (s : state T)
  | Lost (f : Fs).
Arguments Return {T E A}.
Arguments Throw {T E A}.
Arguments Lost {T E A}.

Definition M (T E A : Type) : Type := state T → outcome T E A.

#[export] Instance M_ret T E : MRet (M T E) := λ A a s, Return a s.
#[export] Instance M_bind T E : MBind (M T E) := λ A B k m s,
  match m s with
  | Return a s => k a s
  | Throw e s => Throw e s
  | Lost f => Lost f
  end.

Section Programs.
Context {T E : Type}.

Definition throw {A} (e : E) : M T E A := λ s, Throw e s.

(** [?] on a value that is already there. *)
Definition lift {A} (r : result E A) : M T E A :=
  match r with Ok a => mret a | Err e => throw e end.

(** Run [m]; the handler sees its error. *)
Definition attempt {A} (m : M T E A) : M T E (result E A) := λ s,
  match m s with
  | Return a s => Return (Ok a) s
  | Throw e s => Return (Err e) s
  | Lost f => Lost f
  end.

Definition get_self : M T E T := λ s, Return (self s) s.
Definition put_self (t : T) : M T E unit := λ s,
  Return tt (mkState t (fs s) (faults s) (clock s) (entropy s) (signals s) (sent s) (delivered s)).

Definition set_fs (f : Fs) (s : state T) : state T :=
  mkState (self s) f (faults s) (clock s) (entropy s) (signals s) (sent s) (delivered s).

(** The fault of the next call; none is left: it proceeds. *)
Definition next_fault : M T E fault := λ s,
  match faults s with
  | [] => Return Proceed s
  | PowerLoss keep garbage :: _ => Lost (lose_power keep garbage (fs s))
  | x :: r => Return x (mkState (self s) (fs s) r (clock s) (entropy s) (signals s) (sent s) (delivered s))
  end.

(** A system call: power may be lost before it, it may fail without an
    effect, or it does what the file system says. *)
Definition call {A} (op : Fs → result errno A * Fs) : M T E (result errno A) :=
  x ← next_fault;
  (λ s, match x with
        | Fails e => Return (Err e) s
        | _ => let '(r, f) := op (fs s) in Return r (set_fs f s)
        end) : M T E (result errno A).

(** [op.map_err(f)?] *)
Definition or_throw {A} (f : errno → E) (m : M T E (result errno A)) : M T E A :=
  r ← m; (match r with Ok a => mret a | Err e => throw (f e) end : M T E A).

(** [file.write_all(bs)]: all of it, or an error after some prefix; an
    interrupted write is retried. *)
Definition write_all (i : inum) (bs : bytes) : M T E (result errno unit) :=
  x ← next_fault;
  (λ s, let '(n, r) := match x with
                       | Fails e => if e =? EINTR then (length bs, Ok tt) else (0%nat, Err e)
                       | Short n => (N.to_nat n, if vlen bs <=? n then Ok tt else Err EIO)
                       | _ => (length bs, Ok tt)
                       end in
        Return r (set_fs (sys_write i (take n bs) (fs s)) s)) : M T E (result errno unit).

(** [file.read(&mut buf)] at offset [off] with a buffer of [max] octets: at
    least one octet unless at the end of the file. *)
Definition read_at (i : inum) (off max : N) : M T E (result errno bytes) :=
  x ← next_fault;
  (λ s,
    let rest := match inodes (fs s) !! i with
                | Some x => drop (N.to_nat off) (data x)
                | None => []
                end in
    match x with
    | Fails e => Return (Err e) s
    | Short n => Return (Ok (take (N.to_nat (N.min max (N.max 1 n))) rest)) s
    | _ => Return (Ok (take (N.to_nat max) rest)) s
    end) : M T E (result errno bytes).

(** [OffsetDateTime::now_utc()] *)
Definition now_utc : M T E Z := λ s,
  match clock s with
  | [] => Return 0%Z s
  | t :: r => Return t (mkState (self s) (fs s) (faults s) r (entropy s) (signals s) (sent s) (delivered s))
  end.

(** [getrandom::fill] of a buffer of [n] octets. *)
Definition random_bytes (n : nat) : M T E (result string bytes) := λ s,
  match entropy s with
  | [] => Return (Err "no entropy"%string) s
  | Err e :: r =>
      Return (Err e) (mkState (self s) (fs s) (faults s) (clock s) r (signals s) (sent s) (delivered s))
  | Ok bs :: r =>
      Return (Ok (take n (((λ b, b mod 256) <$> bs) ++ repeat 0 n)))
        (mkState (self s) (fs s) (faults s) (clock s) r (signals s) (sent s) (delivered s))
  end.

(** [kill(pid, sig)]: delivered, or an error; [sent] keeps what was asked. *)
Definition send_signal (pid : N) (sig : N) : M T E (option errno) := λ s,
  match signals s with
  | [] => Return None (mkState (self s) (fs s) (faults s) (clock s) (entropy s) [] (sent s ++ [(pid, sig)])
                         (delivered s))
  | x :: r =>
      Return x (mkState (self s) (fs s) (faults s) (clock s) (entropy s) r (sent s ++ [(pid, sig)])
                  (delivered s))
  end.

Definition datagram : M T E bool := λ s,
  match delivered s with
  | [] => Return true s
  | b :: r => Return b (mkState (self s) (fs s) (faults s) (clock s) (entropy s) (signals s) (sent s) r)
  end.

(** ** Hoare triples *)

Definition triple {A} (P : state T → Prop) (m : M T E A) (Q : A → state T → Prop)
    (R : E → state T → Prop) (C : Fs → Prop) : Prop :=
  ∀ s, P s → match m s with Return a s' => Q a s' | Throw e s' => R e s' | Lost f => C f end.

Lemma triple_ret {A} (a : A) (P : state T → Prop) (Q : A → state T → Prop) R C :
  (∀ s, P s → Q a s) → triple P (mret a) Q R C.
Proof. intros H s Hs. by apply H. Qed.

Lemma triple_throw {A} e (P : state T → Prop) (Q : A → state T → Prop) (R : E → state T → Prop) C :
  (∀ s, P s → R e s) → triple P (throw e) Q R C.
Proof. intros H s Hs. by apply H. Qed.

Lemma triple_bind {A B} P (m : M T E A) (Q : A → state T → Prop) (k : A → M T E B)
    (Q' : B → state T → Prop) R C :
  triple P m Q R C → (∀ a, triple (Q a) (k a) Q' R C) → triple P (m ≫= k) Q' R C.
Proof.
  intros Hm Hk s Hs. specialize (Hm s Hs). unfold mbind, M_bind.
  destruct (m s) as [a s'|e s'|f]; [|done..]. by apply Hk.
Qed.

Lemma triple_conseq {A} (P P' : state T → Prop) (m : M T E A) (Q Q' : A → state T → Prop)
    (R R' : E → state T → Prop) (C C' : Fs → Prop) :
  triple P m Q R C → (∀ s, P' s → P s) → (∀ a s, Q a s → Q' a s) →
  (∀ e s, R e s → R' e s) → (∀ f, C f → C' f) → triple P' m Q' R' C'.
Proof.
  intros H HP HQ HR HC s Hs. specialize (H s (HP s Hs)). destruct (m s); auto.
Qed.

Lemma triple_attempt {A} P (m : M T E A) (Q : result E A → state T → Prop) R C :
  triple P m (λ a, Q (Ok a)) (λ e, Q (Err e)) C → triple P (attempt m) Q R C.
Proof. intros H s Hs. specialize (H s Hs). unfold attempt. by destruct (m s). Qed.

Lemma triple_lift {A} (r : result E A) (P : state T → Prop) (Q : A → state T → Prop)
    (R : E → state T → Prop) C :
  (∀ a s, r = Ok a → P s → Q a s) → (∀ e s, r = Err e → P s → R e s) → triple P (lift r) Q R C.
Proof. intros H1 H2 s Hs. destruct r; simpl; auto. Qed.

(** Assertions about the file system, for a program whose own state is [t]. *)
Definition on_fs (t : T) (F : Fs → Prop) (s : state T) : Prop := self s = t ∧ F (fs s).

Lemma triple_next_fault t P (C : Fs → Prop) R :
  (∀ f keep garbage, P f → C (lose_power keep garbage f)) →
  triple (on_fs t P) next_fault (λ _, on_fs t P) R C.
Proof.
  intros HC s [Ht Hs]. unfold next_fault, on_fs in *.
  destruct (faults s) as [|[] r]; simpl; auto.
Qed.

(** A call whose effect keeps [P] and establishes [Q]. *)
Lemma triple_call {A} t (op : Fs → result errno A * Fs) P (Q : result errno A → Fs → Prop)
    (R : E → state T → Prop) (C : Fs → Prop) :
  (∀ f keep garbage, P f → C (lose_power keep garbage f)) →
  (∀ f e, P f → Q (Err e) f) →
  (∀ f, P f → Q (op f).1 (op f).2) →
  triple (on_fs t P) (call op) (λ r, on_fs t (Q r)) R C.
Proof.
  intros HC HE HQ. eapply triple_bind; [by apply triple_next_fault|].
  intros x s [Ht Hs]. specialize (HQ (fs s) Hs). unfold on_fs.
  destruct x; simpl; try (destruct (op (fs s)); done). split; [done|by apply HE].
Qed.

Lemma triple_write_all t i bs P (Q : result errno unit → Fs → Prop) (R : E → state T → Prop)
    (C : Fs → Prop) :
  (∀ f keep garbage, P f → C (lose_power keep garbage f)) →
  (∀ f e n, P f → Q (Err e) (sys_write i (take n bs) f)) →
  (∀ f, P f → Q (Ok tt) (sys_write i bs f)) →
  triple (on_fs t P) (write_all i bs) (λ r, on_fs t (Q r)) R C.
Proof.
  intros HC HE HQ. eapply triple_bind; [by apply triple_next_fault|].
  intros x s [Ht Hs]. unfold on_fs. destruct x as [|e|n|]; simpl.
  - rewrite firstn_all. split; [done|by apply HQ].
  - destruct (e =? EINTR); simpl.
    + rewrite firstn_all. split; [done|by apply HQ].
    + split; [done|by apply HE].
  - destruct (N.leb_spec (vlen bs) n) as [Hn|Hn].
    + rewrite take_ge by (unfold vlen in Hn; lia). split; [done|by apply HQ].
    + split; [done|by apply HE].
  - rewrite firstn_all. split; [done|by apply HQ].
Qed.

Lemma triple_read_at t i off max P (Q : result errno bytes → Fs → Prop) (R : E → state T → Prop)
    (C : Fs → Prop) :
  0 < max →
  (∀ f keep garbage, P f → C (lose_power keep garbage f)) →
  (∀ f e, P f → Q (Err e) f) →
  (∀ f n x, P f → (0 < n)%nat → inodes f !! i = Some x →
     Q (Ok (take n (drop (N.to_nat off) (data x)))) f) →
  (∀ f, P f → inodes f !! i = None → Q (Ok []) f) →
  triple (on_fs t P) (read_at i off max) (λ r, on_fs t (Q r)) R C.
Proof.
  intros Hmax HC HE HQ HN. eapply triple_bind; [by apply triple_next_fault|].
  intros y s [Ht Hs]. unfold on_fs.
  destruct (inodes (fs s) !! i) as [x|] eqn:Ei; destruct y as [|e|n|]; simpl;
    rewrite ?take_nil; (split; [done|]); auto; apply HQ; auto; lia.
Qed.

Lemma triple_or_throw {A} (g : errno → E) P (m : M T E (result errno A))
    (Q : A → state T → Prop) (R : E → state T → Prop) C :
  triple P m (λ r s, match r with Ok a => Q a s | Err e => R (g e) s end) R C →
  triple P (or_throw g m) Q R C.
Proof.
  intros H. eapply triple_bind; [exact H|]. intros [a|e] s Hs; [by apply Hs|done].
Qed.

(** [call(op).map_err(g)?] and [file.write_all(bs).map_err(g)?] *)
Lemma triple_or_call {A} t (g : errno → E) (op : Fs → result errno A * Fs) (F : Fs → Prop)
    (Q : A → Fs → Prop) (R : Fs → Prop) (C : Fs → Prop) :
  (∀ f keep garbage, F f → C (lose_power keep garbage f)) →
  (∀ f, F f → R f) →
  (∀ f, F f → match op f with (Ok a, f') => Q a f' | (Err _, f') => R f' end) →
  triple (on_fs t F) (or_throw g (call op)) (λ a, on_fs t (Q a)) (λ _, on_fs t R) C.
Proof.
  intros HC HR HQ. apply triple_or_throw.
  eapply triple_conseq; [apply (triple_call t op F (λ r f, match r with Ok a => Q a f | Err _ => R f end)
    (λ _, on_fs t R) C)|..]; auto.
  - intros f Hf. specialize (HQ f Hf). by destruct (op f) as [[] f'].
  - by intros [] s [? ?].
Qed.

Lemma triple_or_write t (g : errno → E) i bs (F Q R : Fs → Prop) (C : Fs → Prop) :
  (∀ f keep garbage, F f → C (lose_power keep garbage f)) →
  (∀ f n, F f → R (sys_write i (take n bs) f)) →
  (∀ f, F f → Q (sys_write i bs f)) →
  triple (on_fs t F) (or_throw g (write_all i bs)) (λ _, on_fs t Q) (λ _, on_fs t R) C.
Proof.
  intros HC HR HQ. apply triple_or_throw.
  eapply triple_conseq; [apply (triple_write_all t i bs F (λ r f, match r with Ok _ => Q f | Err _ => R f end)
    (λ _, on_fs t R) C)|..]; auto.
  by intros [] s [? ?].
Qed.

End Programs.

(** ** Facts about the calls and about power loss *)

Lemma lose_power_live keep garbage f k :
  live (lose_power keep garbage f) !! k =
  if decide (k ∈ keep) then live f !! k else disk f !! k.
Proof.
  unfold lose_power. simpl. destruct (decide (k ∈ keep)) as [Hk|Hk].
  - destruct (live f !! k) as [i|] eqn:E.
    + apply lookup_union_Some_l, map_lookup_filter_Some. done.
    + apply lookup_union_None. split; apply map_lookup_filter_None; [by left|].
      right. intros i _. simpl. tauto.
  - rewrite lookup_union_r by (apply map_lookup_filter_None; right; intros i _; simpl; tauto).
    destruct (disk f !! k) as [i|] eqn:E.
    + by apply map_lookup_filter_Some.
    + apply map_lookup_filter_None. by left.
Qed.

Lemma lose_power_disk keep garbage f : disk (lose_power keep garbage f) = live (lose_power keep garbage f).
Proof. done. Qed.

Lemma lose_power_safe keep garbage f i x :
  inodes f !! i = Some x → safe x = true → inodes (lose_power keep garbage f) !! i = Some x.
Proof.
  intros Hi Hs. unfold lose_power. simpl. rewrite map_lookup_imap, Hi. simpl. by rewrite Hs.
Qed.

Lemma lose_power_inode keep garbage f i :
  is_Some (inodes f !! i) → is_Some (inodes (lose_power keep garbage f) !! i).
Proof. intros [x Hx]. unfold lose_power. simpl. rewrite map_lookup_imap, Hx. by eexists. Qed.

Lemma fresh_inum_spec f : inodes f !! fresh_inum f = None.
Proof.
  pose proof (is_fresh (dom (inodes f) : gset inum)) as H. by apply not_elem_of_dom in H.
Qed.

Lemma fsync_dir_disk d f k :
  disk (sys_fsync_dir d f).2 !! k = if decide (k.1 = d) then live f !! k else disk f !! k.
Proof.
  unfold sys_fsync_dir. simpl. destruct (decide (k.1 = d)) as [Hk|Hk].
  - destruct (live f !! k) as [i|] eqn:E.
    + apply lookup_union_Some_l, map_lookup_filter_Some. done.
    + apply lookup_union_None. split; apply map_lookup_filter_None; [by left|].
      right. intros i _. simpl. tauto.
  - rewrite lookup_union_r by (apply map_lookup_filter_None; right; intros i _; simpl; tauto).
    destruct (disk f !! k) as [i|] eqn:E.
    + by apply map_lookup_filter_Some.
    + apply map_lookup_filter_None. by left.
Qed.

Lemma sys_write_eq i bs f x :
  inodes f !! i = Some x → sys_write i bs f = set_inode i (set_data (data x ++ bs) false x) f.
Proof. unfold sys_write. by intros ->. Qed.

Lemma sys_fsync_eq i f x :
  inodes f !! i = Some x → (sys_fsync i f).2 = set_inode i (set_data (data x) true x) f.
Proof. unfold sys_fsync. simpl. by intros ->. Qed.

Lemma sys_open_ro d n f : (sys_open d n f).2 = f.
Proof. unfold sys_open. by repeat case_match. Qed.
Lemma sys_fstat_ro i f : (sys_fstat i f).2 = f.
Proof. done. Qed.
Lemma sys_statat_ro d n f : (sys_statat d n f).2 = f.
Proof. done. Qed.
