(* ===== verification/QuarantineStore.v ===== *)
(** * The Linux quarantine store

    [crates/remediation/src/linux.rs] and [linux/processes.rs], over the file
    system of [Disk]. Every system call of the code is a [call], [read_at] or
    [write_all], so it can fail or lose power there. *)

From S2P Require Import Prelude Utf8 Paths Core External AuditLog Remediation Disk.
Import Record (ItemState, Pending, Quarantined, Restored, Deleted, RolledBack, Failed,
  mkOriginal, QuarantineRecord, mkRecord, format_version, id, state, original, key_hex, reason,
  notes, restored_to, created_at, advance, set_restored_to, add_notes,
  RemediationError, InvalidPath, SymlinkInPath, Protected, InsideStore, NotRegularFile, TooLarge,
  HardLinked, FileChanged, Replaced, StoreInsecure, StoreBusy, InvalidId, UnknownItem,
  InvalidState, TargetExists, UnsafeTarget, Corrupt, Io, AuditErr, RECORD_FORMAT_VERSION,
  hex, unhex, parse_id, random_id).
Import Common Policy ErrorText.
Abbreviation QuarantineId := string.

(** ** processes.rs *)
Module Processes.

Record ProcessRef := mkProcess { pid : N; name : string }.

Definition SIGKILL : N := 9.
Definition SIGCONT : N := 18.
Definition SIGSTOP : N := 19.

Definition maps_line_matches (dev : string) (ino : N) (line : list N) : bool :=
  match split_whitespace line with
  | _ :: _ :: _ :: d :: i :: _ =>
      eq_ignore_ascii_case (of_chars d) dev
      && bool_decide (parse_u64 (Utf8.encode i) = Some ino)
  | _ => false
  end.

Definition maps_contain (maps : string) (dev : string) (ino : N) : bool :=
  existsb (maps_line_matches dev ino) (lines (chars maps)).

(** [{:02x}] *)
Definition hex02 (n : N) : string :=
  let h := of_bytes (Text.lower_hex n) in if len h <? 2 then ("0" +:+ h)%string else h.

(** One entry of [/proc]: its name and, when readable, its [maps] and its
    [comm] with trailing white space removed. *)
Record proc_entry := mkEntry {
  entry_name : string;
  entry_maps : option string;
  entry_comm : option string }.

Section Proc.
(** [rustix::fs::major] and [minor]. *)
Context (major minor : N → N) (own_pid : N).

Definition process_of (want_dev : string) (ino : N) (e : proc_entry) : option ProcessRef :=
  p ← parse_u64 (as_bytes (entry_name e));
  if (p <=? 1) || (2 ^ 31 <=? p) || (p =? own_pid) then None
  else
    maps ← entry_maps e;
    if maps_contain maps want_dev ino
    then Some (mkProcess p (default "" (entry_comm e)))
    else None.

Definition pid_le (a b : ProcessRef) : Prop := pid a ≤ pid b.
#[local] Instance pid_le_dec a b : Decision (pid_le a b).
Proof. unfold pid_le. apply _. Defined.

(** [processes_using_in]; the sort is stable. *)
Definition processes_using_in (proc : option (list proc_entry)) (dev ino : N) : list ProcessRef :=
  match proc with
  | None => []
  | Some entries =>
      let want_dev := fmt "{:02x}:{:02x}" [hex02 (major dev); hex02 (minor dev)] in
      merge_sort pid_le (omap (process_of want_dev ino) entries)
  end.

End Proc.

Section Paused.
Context {T E : Type} `{StdText}.

(** [Paused::pause]: the guard is the list of paused processes. *)
Fixpoint pause (procs : list ProcessRef) : M T E (list N * list string) :=
  match procs with
  | [] => mret ([], [])
  | p :: procs =>
      r ← send_signal (pid p) SIGSTOP;
      rest ← pause procs;
      mret (match r with
            | None => (pid p :: rest.1, rest.2)
            | Some e =>
                (rest.1, fmt "could not pause PID {}: {e}" [show_N (pid p); strerror e] :: rest.2)
            end)
  end.

(** [Paused::kill] *)
Fixpoint kill (pids : list N) : M T E (list string) :=
  match pids with
  | [] => mret []
  | p :: pids =>
      r ← send_signal p SIGKILL;
      note ← match r with
             | None => mret []
             | Some e =>
                 _ ← send_signal p SIGCONT;
                 mret [fmt "could not kill PID {pid}: {e}" [show_N p; strerror e]]
             end;
      rest ← kill pids;
      mret (note ++ rest)
  end.

(** [Drop for Paused] *)
Fixpoint resume (pids : list N) : M T E unit :=
  match pids with
  | [] => mret tt
  | p :: pids => _ ← send_signal p SIGCONT; resume pids
  end.

End Paused.
End Processes.

(** ** linux.rs *)
Module Store.
Import Processes.

Record RecoveryAction := mkRecovery {
  rec_id : QuarantineId;
  rec_outcome : ItemState;
  rec_detail : string }.

Record QuarantineStore := mkStore {
  root : path;
  root_fd : inum;
  items_fd : inum;
  audit : inum;
  head : Audit.ChainHead;
  euid : N;
  on_behalf_of : option string;
  recovered : list RecoveryAction;
  anchor : option string;
  anchor_failed : bool }.

Definition set_head (h : Audit.ChainHead) (failed : bool) (s : QuarantineStore) : QuarantineStore :=
  mkStore (root s) (root_fd s) (items_fd s) (audit s) h (euid s) (on_behalf_of s) (recovered s)
    (anchor s) failed.
Definition push_recovered (r : RecoveryAction) (s : QuarantineStore) : QuarantineStore :=
  mkStore (root s) (root_fd s) (items_fd s) (audit s) (head s) (euid s) (on_behalf_of s)
    (recovered s ++ [r]) (anchor s) (anchor_failed s).

(** [format!("{id}.json")] and the other names of an item. *)
Definition json_name (id : QuarantineId) : string := fmt "{id}.json" [id].
Definition data_name (id : QuarantineId) : string := fmt "{id}.data" [id].
Definition tmp_name (id : QuarantineId) : string := fmt "{id}.data.tmp" [id].
Definition atomic_tmp (name : string) : string := fmt ".{name}.tmp" [name].
Definition restore_tmp (id : QuarantineId) : string := fmt ".aw-restore-{id}" [id].

(** [s.strip_suffix(p)], [s.ends_with(p)], [s.trim_end_matches(p)]. *)
Fixpoint strip_suffix (p s : string) : option string :=
  if bool_decide (s = p) then Some ""%string
  else match s with
       | EmptyString => None
       | String c r => match strip_suffix p r with Some t => Some (String c t) | None => None end
       end.
Definition ends_with (s p : string) : bool := bool_decide (is_Some (strip_suffix p s)).
Fixpoint trim_end_matches (fuel : nat) (p s : string) : string :=
  match fuel with
  | O => s
  | S fuel => match strip_suffix p s with Some t => trim_end_matches fuel p t | None => s end
  end.

Section Linux.
Context `{Sha256, Json Audit.AuditEntry, Json QuarantineRecord, JsonPretty QuarantineRecord,
  Json Allow.AllowlistFile, JsonPretty Allow.AllowlistFile, StdText}.
(** Resolution of an absolute path to a directory without symbolic links
    ([openat2] with [RESOLVE_NO_SYMLINKS]), the processes that map a file,
    this process's number. *)
Context (dirs : path → result errno inum) (users_of : N → inum → list ProcessRef) (own_pid : N).

Abbreviation P A := (M QuarantineStore RemediationError A).

Definition items_path (s : QuarantineStore) (name : string) : path :=
  join (join (root s) "items") name.

(** [let _ = op] *)
Definition ignore {A} (m : P (result errno A)) : P unit := _ ← m; mret tt.

(** [op.map_err(|e| io_err(what, path, e))?] *)
Definition or_io {A} (what : string) (p : path) (m : P (result errno A)) : P A :=
  or_throw (λ e, io_err what p (Os e)) m.

(** [open_dir_no_symlinks] *)
Definition open_dir_no_symlinks (p : path) : P inum :=
  or_throw (λ e,
    if (e =? ELOOP) || (e =? EXDEV) then SymlinkInPath p
    else if e =? ENOSYS then Io "open (openat2 needs Linux 5.6 or later)" p (Os e)
    else io_err "open" p (Os e)) (call (λ f, (dirs p, f))).

Definition symlink_as_path_error (e : RemediationError) (p : path) : RemediationError :=
  match e with SymlinkInPath _ => SymlinkInPath p | e => e end.

(** [m.map_err(f)?] where [m] returns the program's errors. *)
Definition map_throw {A} (f : RemediationError → RemediationError) (m : P A) : P A :=
  r ← attempt m; (match r with Ok a => mret a | Err e => throw (f e) end : P A).

(** [reject_store_dir]: [dir] is neither the store nor its items. *)
Definition reject_store_dir (dir : inum) (p : path) : P unit :=
  s ← get_self;
  st ← or_io "stat" p (call (sys_fstat dir));
  a ← or_io "stat" (root s) (call (sys_fstat (root_fd s)));
  _ ← lift (reject_if ((dev a =? dev st) && (root_fd s =? dir)) (InsideStore p));
  b ← or_io "stat" (root s) (call (sys_fstat (items_fd s)));
  lift (reject_if ((dev b =? dev st) && (items_fd s =? dir)) (InsideStore p)).

(** [write_atomic] *)
Definition write_atomic (dir : inum) (name : string) (bs : bytes) (display : path) : P unit :=
  s ← get_self;
  let tmp := atomic_tmp name in
  i ← or_io "create" display (call (sys_create_trunc (euid s) dir tmp 0x180));
  _ ← or_io "write" display (write_all i bs);
  _ ← or_io "sync" display (call (sys_fsync i));
  _ ← or_io "rename" display (call (sys_rename dir tmp name));
  or_io "sync" display (call (sys_fsync_dir dir)).

(** [save] *)
Definition save (rec : QuarantineRecord) : P unit :=
  s ← get_self;
  let name := json_name (id rec) in
  let p := items_path s name in
  bs ← lift (map_err (λ e, io_err "encode" p (OtherError e)) (to_vec_pretty rec));
  write_atomic (items_fd s) name bs p.

(** [get] *)
Definition get (i : QuarantineId) : P QuarantineRecord :=
  s ← get_self;
  let name := json_name i in
  let p := items_path s name in
  fd ← or_throw (λ e, if e =? ENOENT then UnknownItem i else io_err "open" p (Os e))
         (call (sys_open (items_fd s) name));
  bs ← or_io "read" p (call (sys_read_to_end fd (MAX_RECORD_BYTES + 1)));
  _ ← lift (reject_if (MAX_RECORD_BYTES <? vlen bs) (corrupt i "record too large"));
  rec ← lift (map_err (λ e, corrupt i (fmt "invalid record: {e}" [e])) (from_slice bs));
  _ ← lift (reject_if (negb (bool_decide (id rec = i))
                       || negb (format_version rec =? RECORD_FORMAT_VERSION))
              (corrupt i "record ID or format version mismatch"));
  mret rec.

(** [audit_event]; a serialisation or I/O error is returned to the caller. *)
Definition audit_event (action : string) (i : option QuarantineId) (p : option path)
    (sha : option Sha256Digest) (outcome : result string (option string)) : P unit :=
  let '(outcome, detail) := match outcome with
                            | Ok d => ("ok"%string, d)
                            | Err e => ("error"%string, Some e)
                            end in
  s ← get_self;
  now ← now_utc;
  let entry := Audit.mkEntry 0 now (euid s) None (on_behalf_of s) action i
                 (ObservedPath.from_path <$> p) sha outcome detail "" in
  '(line, h) ← lift (map_err AuditErr (Audit.encode entry (head s)));
  let log := join (root s) "audit.log" in
  _ ← or_io "append" log (write_all (audit s) line);
  _ ← or_io "sync" log (call (sys_fsync (audit s)));
  let chain := default ""%string (Audit.head_chain_id h) in
  sent ← match (Anchors.send (anchor s) true own_pid (Audit.head_seq h) (Audit.head_hash h) chain
                  action outcome).1 with
         | None => mret true
         | Some _ => datagram
         end;
  put_self (set_head h (anchor_failed s || negb sent) s).

(** The loop of [read_exact]: [None] at the end of the file or on an error;
    interrupted reads are retried. *)
Fixpoint read_exact (fuel : nat) (i : inum) (off want : N) : P (option bytes) :=
  match fuel with
  | O => mret None
  | S fuel =>
      if want =? 0 then mret (Some [])
      else
        r ← read_at i off want;
        match r with
        | Err e => if e =? EINTR then read_exact fuel i off want else mret None
        | Ok [] => mret None
        | Ok bs =>
            rest ← read_exact fuel i (off + vlen bs) (want - vlen bs);
            mret (app bs <$> rest)
        end
  end.

(** Rounds that suffice to read a file: each consumes an octet, an
    interruption of the script, or is the last. *)
Definition enough (i : inum) : P nat := λ s,
  Return (S (S (length (faults s) +
    match inodes (fs s) !! i with Some x => length (data x) | None => 0 end)))%nat s.

(** The loop of [decode_file]: [hashed] is what the hasher has seen. *)
Fixpoint decode_loop (fuel : nat) (f : inum) (key : bytes) (out : option inum) (p : path)
    (total : N) (hashed : bytes) : P (bytes * N) :=
  match fuel with
  | O => throw (io_err "read" p (Os EINTR))
  | S fuel =>
      r ← read_at f (8 + total) CHUNK;
      match r with
      | Err e =>
          if e =? EINTR then decode_loop fuel f key out p total hashed
          else throw (io_err "read" p (Os e))
      | Ok [] => mret (hashed, total)
      | Ok buf =>
          let buf := xor_in_place buf key total in
          _ ← match out with
              | Some o => or_io "write" p (write_all o buf)
              | None => mret tt
              end;
          decode_loop fuel f key out p (total + vlen buf) (hashed ++ buf)
      end
  end.

Definition decode_file (i : QuarantineId) (name : string) (key : bytes) (out : option inum)
    : P (Sha256Digest * N) :=
  s ← get_self;
  let p := items_path s name in
  f ← or_io "open" p (call (sys_open (items_fd s) name));
  n ← enough f;
  magic ← read_exact n f 0 8;
  magic ← lift (ok_or magic (corrupt i "missing header"));
  _ ← lift (reject_if (negb (bool_decide (magic = DATA_MAGIC))) (corrupt i "bad header"));
  n ← enough f;
  '(hashed, total) ← decode_loop n f key out p 0 [];
  mret (sha256 hashed, total).

Definition decode_to (i : QuarantineId) (key : bytes) (out : option inum) : P (Sha256Digest * N) :=
  decode_file i (data_name i) key out.

(** The loop of [write_encoded]. *)
Fixpoint copy_loop (fuel : nat) (src out : inum) (key : bytes) (max : N) (p : path)
    (total : N) (hashed : bytes) : P (bytes * N) :=
  match fuel with
  | O => throw (io_err "read" p (Os EINTR))
  | S fuel =>
      r ← read_at src total CHUNK;
      match r with
      | Err e =>
          if e =? EINTR then copy_loop fuel src out key max p total hashed
          else throw (io_err "read" p (Os e))
      | Ok [] => mret (hashed, total)
      | Ok buf =>
          let n := vlen buf in
          let total' := total + n in
          _ ← lift (reject_if (max <? total') (TooLarge p max));
          s ← get_self;
          _ ← or_io "write" (root s) (write_all out (xor_in_place buf key (total' - n)));
          copy_loop fuel src out key max p total' (hashed ++ buf)
      end
  end.

Definition write_encoded (src : inum) (tmp : string) (key : bytes) (max : N) (p : path)
    : P (Sha256Digest * N) :=
  s ← get_self;
  out ← or_io "create" (items_path s tmp) (call (sys_create_excl (euid s) (items_fd s) tmp 0x180));
  _ ← or_io "write" (root s) (write_all out DATA_MAGIC);
  n ← enough src;
  '(hashed, total) ← copy_loop n src out key max p 0 [];
  _ ← or_io "sync" (root s) (call (sys_fsync out));
  let sha := sha256 hashed in
  i ← lift (parse_id (trim_end_matches (String.length tmp) ".data.tmp" tmp));
  '(check, n) ← decode_file i tmp key None;
  _ ← lift (reject_if (negb (bool_decide (check = sha)) || negb (n =? total))
              (corrupt i "verification of the written copy failed"));
  mret (sha, total).

(** [roll_back] *)
Definition roll_back (rec : QuarantineRecord) (why : string) : P unit :=
  s ← get_self;
  _ ← ignore (call (sys_unlink (items_fd s) (data_name (id rec))));
  _ ← ignore (call (sys_fsync_dir (items_fd s)));
  now ← now_utc;
  save (advance RolledBack now [fmt "rolled back: {why}" [why]] rec).

(** Steps 2 to 6 of [quarantine_inner]: from the open file to the removal of
    the original. *)
Definition store_and_remove (req : QuarantineRequest) (parent : path) (name : string)
    (dir fd : inum) (st : inode) (i : QuarantineId) (key : bytes)
    : P (QuarantineRecord * Sha256Digest) :=
  s ← get_self;
  let p := req_path req in
  r ← attempt (write_encoded fd (tmp_name i) key (max_size req) p);
  '(sha, copied) ← match r with
                   | Ok v => mret v
                   | Err e => _ ← ignore (call (sys_unlink (items_fd s) (tmp_name i))); throw e
                   end;
  _ ← match expected_sha256 req with
      | Some expected =>
          if bool_decide (expected = sha) then mret tt
          else _ ← ignore (call (sys_unlink (items_fd s) (tmp_name i)));
               throw (FileChanged p expected sha)
      | None => mret tt
      end;
  now ← now_utc;
  let rec := mkRecord RECORD_FORMAT_VERSION i Pending
    (mkOriginal (ObservedPath.from_path p) copied sha (perm st) (uid st) (gid st) (dev st) fd None
       (Some (mtime st)))
    (hex key) (req_reason req) (euid s) now now None [] in
  _ ← save rec;
  _ ← or_io "rename" (items_path s (data_name i))
        (call (sys_rename (items_fd s) (tmp_name i) (data_name i)));
  _ ← or_io "sync" (root s) (call (sys_fsync_dir (items_fd s)));
  stat ← call (sys_statat dir name);
  let still_same := match stat with
                    | Ok (ino, now) => (dev now =? dev st) && (ino =? fd)
                    | Err _ => false
                    end in
  _ ← (if still_same then mret tt
       else _ ← roll_back rec "the path no longer referred to the copied file";
            throw (Replaced p));
  removed ← call (sys_unlink dir name);
  _ ← match removed with
      | Ok _ => mret tt
      | Err e =>
          _ ← roll_back rec (fmt "removing the original failed: {e}" [strerror e]);
          throw (io_err "remove" p (Os e))
      end;
  _ ← or_io "sync" parent (call (sys_fsync_dir dir));
  mret (rec, sha).

(** Step 7: the processes and the final record. *)
Definition finish_quarantine (req : QuarantineRequest) (users : list ProcessRef)
    (guard : option (list N)) (process_notes : list string) (rec : QuarantineRecord)
    (sha : Sha256Digest) : P QuarantineRecord :=
  rec ← match users with
        | [] => mret rec
        | _ =>
            let list := String.concat ", "
              ((λ u, fmt "PID {} ({})" [show_N (pid u); name u]) <$> users) in
            match guard with
            | Some pids =>
                failed ← kill pids;
                mret (add_notes (fmt "killed process(es) running the file: {list}" [list]
                                 :: process_notes ++ failed) rec)
            | None =>
                mret (add_notes (fmt "still running from the quarantined file: {list} (not stopped; use --kill-processes to stop them)" [list]
                                 :: process_notes) rec)
            end
        end;
  now ← now_utc;
  let rec := advance Quarantined now [] rec in
  _ ← save rec;
  _ ← audit_event "quarantine" (Some (id rec)) (Some (req_path req)) (Some sha) (Ok None);
  mret rec.

(** The processes paused by [Paused::pause], when asked for. *)
Definition pause_users (req : QuarantineRequest) (users : list ProcessRef)
    : P (option (list N) * list string) :=
  if kill_processes req && negb (bool_decide (users = []))
  then '(g, problems) ← pause users; mret (Some g, problems)
  else mret (None, []).

Definition quarantine_inner (req : QuarantineRequest) : P QuarantineRecord :=
  let p := req_path req in
  '(parent, name) ← lift (split_checked p);
  _ ← lift (reject_if (negb (allow_protected req) && is_protected_path p) (Protected p));
  s ← get_self;
  _ ← lift (reject_if (path_starts_with p (root s)) (InsideStore p));
  dir ← map_throw (λ e, symlink_as_path_error e p) (open_dir_no_symlinks parent);
  _ ← reject_store_dir dir p;
  fd ← or_throw (λ e, if e =? ELOOP then SymlinkInPath p else io_err "open" p (Os e))
         (call (sys_open dir name));
  st ← or_io "stat" p (call (sys_fstat fd));
  _ ← lift (reject_if (negb (bool_decide (ftype st = RegularFile))) (NotRegularFile p));
  _ ← lift (reject_if (max_size req <? vlen (data st)) (TooLarge p (max_size req)));
  _ ← lift (reject_if (1 <? nlink st) (HardLinked p (nlink st)));
  let users := users_of (dev st) fd in
  '(guard, problems) ← pause_users req users;
  r ← attempt (
    ib ← random_bytes 16;
    ib ← lift (map_err (λ e, io_err "random" p (OtherError e)) ib);
    key ← random_bytes KEY_LEN;
    key ← lift (map_err (λ e, io_err "random" p (OtherError e)) key);
    store_and_remove req parent name dir fd st (random_id ib) key);
  match r with
  | Ok (rec, sha) => finish_quarantine req users guard problems rec sha
  | Err e => _ ← resume (default [] guard); throw e
  end.

(** [quarantine] *)
Definition quarantine (req : QuarantineRequest) : P QuarantineRecord :=
  r ← attempt (quarantine_inner req);
  match r with
  | Ok rec => mret rec
  | Err e =>
      _ ← audit_event "quarantine" None (Some (req_path req)) (expected_sha256 req) (Err (err_text e));
      throw e
  end.

(** *** Restore and delete *)

(** The directory checks of [restore_inner]. *)
Definition check_target (target_dir : path) (rec : QuarantineRecord) (dst : inode) : P unit :=
  s ← get_self;
  _ ← lift (reject_if (negb (N.land (perm dst) 0x12 =? 0))
              (UnsafeTarget target_dir "the directory is writable by group or others"));
  lift (reject_if (negb (bool_decide (uid dst ∈ [0; euid s; Record.uid (original rec)])))
          (UnsafeTarget target_dir
             (fmt "the directory is owned by uid {}" [show_N (uid dst)]))).

(** Put the temporary [tmp] at [name] without replacing anything. *)
Definition place (dir : inum) (tmp name : string) (target : path) : P unit :=
  let cleanup := ignore (call (sys_unlink dir tmp)) in
  r ← call (sys_rename_noreplace dir tmp name);
  match r with
  | Ok _ => mret tt
  | Err e =>
      if e =? EEXIST then _ ← cleanup; throw (TargetExists target)
      else if e =? EINVAL then
        linked ← call (sys_link dir tmp name);
        _ ← cleanup;
        match linked with
        | Ok _ => mret tt
        | Err e => if e =? EEXIST then throw (TargetExists target)
                   else throw (io_err "restore" target (Os e))
        end
      else _ ← cleanup; throw (io_err "restore" target (Os e))
  end.

(** Decode into [tmp], check the hash, set the permissions and sync. *)
Definition write_restored (dir out : inum) (tmp : string) (target : path)
    (rec : QuarantineRecord) (key : bytes) : P unit :=
  s ← get_self;
  let cleanup := ignore (call (sys_unlink dir tmp)) in
  r ← attempt (decode_to (id rec) key (Some out));
  '(sha, _) ← match r with Ok v => mret v | Err e => _ ← cleanup; throw e end;
  _ ← (if bool_decide (sha = Record.sha256 (original rec)) then mret tt
       else _ ← cleanup;
            throw (corrupt (id rec) "decoded content does not match the recorded SHA-256"));
  let mode := N.land (Record.mode (original rec)) 0x1FF in
  let finish : P unit :=
    _ ← or_io "finalise" target (call (sys_fchmod out mode));
    _ ← (if euid s =? 0
         then or_io "finalise" target
                (call (sys_fchown out (Record.uid (original rec)) (Record.gid (original rec))))
         else mret tt);
    or_io "finalise" target (call (sys_fsync out)) in
  r ← attempt finish;
  match r with Ok _ => mret tt | Err e => _ ← cleanup; throw e end.

Definition restore_notes (s : QuarantineStore) (rec : QuarantineRecord) : list string :=
  let o := original rec in
  app (if negb (N.land (Record.mode o) 0xC00 =? 0)
       then ["setuid/setgid bits were not restored"%string] else [])
      (if negb (euid s =? 0) && negb (Record.uid o =? euid s)
       then [fmt "owner not restored (was uid {}; restoring as uid {})"
               [show_N (Record.uid o); show_N (euid s)]] else []).

Definition restore_target (rec : QuarantineRecord) (dest_dir : option path)
    : result RemediationError (path * string) :=
  original ← ok_or (native_path (Record.path (original rec)))
               (corrupt (id rec) "original path cannot be reconstructed");
  '(orig_parent, name) ← split_checked original;
  target_dir ← match dest_dir with
               | Some d => '(p, n) ← split_checked d; mret (join p n)
               | None => mret orig_parent
               end;
  mret (target_dir, name).

Definition restore_inner (i : QuarantineId) (dest_dir : option path) : P path :=
  s ← get_self;
  rec ← get i;
  _ ← lift (reject_if (negb (bool_decide (state rec = Quarantined))) (InvalidState i (state rec)));
  '(target_dir, name) ← lift (restore_target rec dest_dir);
  let target := join target_dir name in
  _ ← lift (reject_if (path_starts_with target (root s)) (InsideStore target));
  dir ← map_throw (λ e, match e with
                        | Io _ _ (Os 2) => UnsafeTarget target_dir "the directory does not exist"
                        | e => e
                        end) (open_dir_no_symlinks target_dir);
  _ ← reject_store_dir dir target;
  dst ← or_io "stat" target_dir (call (sys_fstat dir));
  _ ← check_target target_dir rec dst;
  key ← lift (ok_or (k ← unhex (key_hex rec); if bool_decide (length k = KEY_LEN) then Some k else None)
                (corrupt i "invalid key"));
  let tmp := restore_tmp i in
  out ← or_io "create" (join target_dir tmp) (call (sys_create_excl (euid s) dir tmp 0x180));
  _ ← write_restored dir out tmp target rec key;
  _ ← place dir tmp name target;
  _ ← or_io "sync" target_dir (call (sys_fsync_dir dir));
  _ ← or_io "remove" (items_path s (data_name i)) (call (sys_unlink (items_fd s) (data_name i)));
  now ← now_utc;
  _ ← save (set_restored_to (Some (ObservedPath.from_path target))
              (advance Restored now (restore_notes s rec) rec));
  mret target.

(** [restore]; the audit entry's own failure replaces the result. *)
Definition restore (i : QuarantineId) (dest_dir : option path) : P path :=
  r ← attempt (restore_inner i dest_dir);
  _ ← audit_event "restore" (Some i) None None
        (match r with
         | Ok p => Ok (Some (fmt "restored to {}" [display p]))
         | Err e => Err (err_text e)
         end);
  lift r.

Definition delete_inner (i : QuarantineId) : P unit :=
  s ← get_self;
  rec ← get i;
  _ ← lift (reject_if (negb (bool_decide (state rec = Quarantined))) (InvalidState i (state rec)));
  r ← call (sys_unlink (items_fd s) (data_name i));
  notes ← match r with
          | Ok _ => mret []
          | Err e => if e =? ENOENT then mret ["content was already missing"%string]
                     else throw (io_err "remove" (items_path s (data_name i)) (Os e))
          end;
  _ ← or_io "sync" (root s) (call (sys_fsync_dir (items_fd s)));
  now ← now_utc;
  save (advance Deleted now notes rec).

Definition delete (i : QuarantineId) : P unit :=
  r ← attempt (delete_inner i);
  _ ← audit_event "delete" (Some i) None None
        (match r with Ok _ => Ok None | Err e => Err (err_text e) end);
  lift r.

(** *** Listing *)

(** [item_names]: the entries whose names are valid UTF-8. *)
Definition item_names : P (list string) :=
  s ← get_self;
  names ← or_io "list" (join (root s) "items") (call (sys_readdir (items_fd s)));
  mret (base.filter (λ n, is_Some (from_utf8 (as_bytes n)) ∧ n ≠ "."%string ∧ n ≠ ".."%string) names).

(** [name.strip_suffix(ext).and_then(|s| s.parse().ok())] *)
Definition id_of (ext name : string) : option QuarantineId :=
  s ← strip_suffix ext name; match parse_id s with Ok i => Some i | Err _ => None end.

Fixpoint get_all (ids : list QuarantineId) : P (list QuarantineRecord) :=
  match ids with
  | [] => mret []
  | i :: ids => r ← get i; rs ← get_all ids; mret (r :: rs)
  end.

(** Oldest first; equal times by identifier. *)
Definition rec_le (a b : QuarantineRecord) : Prop :=
  (created_at a < created_at b)%Z ∨
  (created_at a = created_at b ∧ String.leb (id a) (id b) = true).
#[local] Instance rec_le_dec a b : Decision (rec_le a b).
Proof. unfold rec_le. apply _. Defined.

Definition list_items : P (list QuarantineRecord) :=
  names ← item_names;
  rs ← get_all (omap (id_of ".json") names);
  mret (merge_sort rec_le rs).

(** *** The allow-list *)

Definition read_allowlist_file : P Allow.AllowlistFile :=
  s ← get_self;
  let p := join (root s) Allow.ALLOWLIST_FILE in
  r ← call (sys_open (root_fd s) Allow.ALLOWLIST_FILE);
  match r with
  | Err e => if e =? ENOENT then mret (Allow.mkAllowlist 1 [])
             else throw (io_err "open" p (Os e))
  | Ok fd =>
      bs ← or_io "read" p (call (sys_read_to_end fd (Allow.MAX_ALLOWLIST_BYTES + 1)));
      _ ← lift (reject_if (Allow.MAX_ALLOWLIST_BYTES <? vlen bs)
                  (StoreInsecure p "the allow-list is too large"));
      lift (Allow.parse bs p)
  end.

Definition write_allowlist_file (l : Allow.AllowlistFile) : P unit :=
  s ← get_self;
  let p := join (root s) Allow.ALLOWLIST_FILE in
  bs ← lift (map_err (λ e, io_err "encode" p (OtherError e)) (to_vec_pretty l));
  write_atomic (root_fd s) Allow.ALLOWLIST_FILE bs p.

Definition allow (sha : Sha256Digest) (reason : string) (item : option QuarantineId)
    (detection_name : option string) : P unit :=
  s ← get_self;
  l ← read_allowlist_file;
  _ ← (if existsb (λ e, bool_decide (Allow.sha256 e = sha)) (Allow.entries l) then mret tt
       else
         _ ← lift (reject_if (Allow.MAX_ALLOW_ENTRIES <=? vlen (Allow.entries l))
                     (StoreInsecure (join (root s) Allow.ALLOWLIST_FILE)
                        (fmt "the allow-list is full ({} entries)" [show_N Allow.MAX_ALLOW_ENTRIES])));
         now ← now_utc;
         write_allowlist_file (Allow.mkAllowlist (Allow.format_version l)
           (Allow.entries l ++ [Allow.mkAllow sha now reason item detection_name])));
  audit_event "allow" item None (Some sha) (Ok (Some reason)).

Definition disallow (sha : Sha256Digest) : P bool :=
  l ← read_allowlist_file;
  let kept := base.filter (λ e, Allow.sha256 e ≠ sha) (Allow.entries l) in
  let removed := negb (vlen kept =? vlen (Allow.entries l)) in
  _ ← (if removed then
         _ ← write_allowlist_file (Allow.mkAllowlist (Allow.format_version l) kept);
         audit_event "disallow" None None (Some sha) (Ok None)
       else mret tt);
  mret removed.

(** *** Recovery *)

(** Whether the original's path still names the file that was copied. *)
Definition original_present (rec : QuarantineRecord) : P bool :=
  match native_path (Record.path (original rec)) with
  | None => mret false
  | Some p =>
      match split_checked p with
      | Err _ => mret false
      | Ok (parent, name) =>
          d ← attempt (open_dir_no_symlinks parent);
          match d with
          | Err _ => mret false
          | Ok dir =>
              r ← call (sys_statat dir name);
              mret (match r with
                    | Ok (i, st) => (dev st =? Record.dev (original rec))
                                    && (i =? Record.ino (original rec))
                    | Err _ => false
                    end)
          end
      end
  end.

Definition resolve_pending (rec : QuarantineRecord) : P (ItemState * string) :=
  s ← get_self;
  let i := id rec in
  present ← original_present rec;
  if (present : bool) then
    _ ← ignore (call (sys_unlink (items_fd s) (data_name i)));
    _ ← ignore (call (sys_unlink (items_fd s) (tmp_name i)));
    _ ← ignore (call (sys_fsync_dir (items_fd s)));
    mret (RolledBack, "interrupted before the original was removed; the copy was discarded"%string)
  else
    verified ← match (k ← unhex (key_hex rec); if bool_decide (length k = KEY_LEN) then Some k else None) with
               | Some k =>
                   r ← attempt (decode_to i k None);
                   mret (match r with
                         | Ok (sha, _) => bool_decide (sha = Record.sha256 (original rec))
                         | Err _ => false
                         end)
               | None => mret false
               end;
    if (verified : bool) then
      _ ← ignore (call (sys_unlink (items_fd s) (tmp_name i)));
      mret (Quarantined,
        "interrupted after the original was removed; the verified copy was kept"%string)
    else
      mret (Failed, "original is gone and no verified copy exists; the file was removed by something other than the quarantine operation"%string).

Definition recover_one (rec : QuarantineRecord) : P unit :=
  '(outcome, detail) ← resolve_pending rec;
  now ← now_utc;
  let rec := advance outcome now [fmt "recovery: {detail}" [detail]] rec in
  _ ← save rec;
  let result := if bool_decide (outcome = Failed) then Err detail else Ok (Some detail) in
  _ ← audit_event "recover" (Some (id rec)) (native_path (Record.path (original rec)))
        (Some (Record.sha256 (original rec))) result;
  s ← get_self;
  put_self (push_recovered (mkRecovery (id rec) outcome detail) s).

Fixpoint recover_all (recs : list QuarantineRecord) : P unit :=
  match recs with
  | [] => mret tt
  | r :: recs => _ ← recover_one r; recover_all recs
  end.

(** One entry of the last loop of [recover]. *)
Definition remove_stray (name : string) : P unit :=
  s ← get_self;
  let record_tmp := str_starts_with name "." && ends_with name ".json.tmp" in
  data_tmp ← match id_of ".data.tmp" name with
             | Some i => r ← attempt (get i); mret (negb (is_ok r))
             | None => mret false
             end;
  if record_tmp || (data_tmp : bool)
  then ignore (call (sys_unlink (items_fd s) name))
  else mret tt.

Fixpoint remove_strays (names : list string) : P unit :=
  match names with
  | [] => mret tt
  | n :: names => _ ← remove_stray n; remove_strays names
  end.

Definition recover : P unit :=
  names ← item_names;
  recs ← get_all (omap (id_of ".json") names);
  _ ← recover_all (base.filter (λ r, state r = Pending) recs);
  names ← item_names;
  remove_strays names.

(** *** Opening *)

(** [{:o}] *)
Fixpoint octal_go (fuel : nat) (n : N) (acc : list N) : list N :=
  match fuel with
  | O => acc
  | S fuel =>
      let acc := 48 + N.land n 7 :: acc in
      if N.shiftr n 3 =? 0 then acc else octal_go fuel (N.shiftr n 3) acc
  end.
Definition show_octal (n : N) : string := of_bytes (octal_go 11 n []).

Definition check_private (st : inode) (p : path) (euid : N) : P unit :=
  _ ← lift (reject_if (negb (uid st =? euid))
              (StoreInsecure p (fmt "owned by uid {}, not {euid}" [show_N (uid st); show_N euid])));
  lift (reject_if (negb (N.land (perm st) 0x3F =? 0))
          (StoreInsecure p (fmt "mode {:o} gives group/other access" [show_octal (perm st)]))).

Definition mkdir_private (euid : N) (dir : inum) (name : string) (display : path) : P unit :=
  r ← call (sys_mkdir euid dir name 0x1C0);
  match r with
  | Ok _ => mret tt
  | Err e => if e =? EEXIST then mret tt else throw (io_err "create" display (Os e))
  end.

Definition open_private_dir (parent : inum) (name : string) (display : path) (euid : N) : P inum :=
  fd ← or_throw (λ e,
         if (e =? ELOOP) || (e =? ENOTDIR)
         then StoreInsecure display "not a directory (or a symbolic link)"
         else io_err "open" display (Os e)) (call (sys_open_dir parent name));
  st ← or_io "stat" display (call (sys_fstat fd));
  _ ← check_private st display euid;
  mret fd.

(** [open_with]; [create_dir_all] and [canonicalize] of the parent, and the
    lock, are the operating system's answers. *)
Definition open_with (created : result errno unit) (canonical : result errno path)
    (locked : result errno unit) (env_socket : option string) (root : path)
    (target : Anchors.AnchorTarget) (euid : N) : P unit :=
  '(parent, name) ← lift (split_checked root);
  _ ← lift (map_err (λ e, io_err "create" parent (Os e)) created);
  parent ← lift (map_err (λ e, io_err "resolve" parent (Os e)) canonical);
  let root := join parent name in
  parent_fd ← open_dir_no_symlinks parent;
  _ ← mkdir_private euid parent_fd name root;
  root_fd ← open_private_dir parent_fd name root euid;
  let items := join root "items" in
  _ ← mkdir_private euid root_fd "items" items;
  items_fd ← open_private_dir root_fd "items" items euid;
  _ ← lift (match locked with
            | Ok _ => Ok tt
            | Err e => if e =? EWOULDBLOCK then Err StoreBusy else Err (io_err "lock" root (Os e))
            end);
  let log := join root "audit.log" in
  found ← call (sys_open root_fd "audit.log");
  audit ← match found with
          | Err e => if e =? ENOENT
                     then or_io "open" log (call (sys_create_excl euid root_fd "audit.log" 0x180))
                     else throw (io_err "open" log (Os e))
          | Ok i => mret i
          end;
  st ← or_io "stat" log (call (sys_fstat audit));
  _ ← check_private st log euid;
  content ← call (sys_read_to_end audit (vlen (data st)));
  let rd := match content with
            | Ok bs => mkReader bs None
            | Err e => mkReader [] (Some (strerror e))
            end in
  h ← lift (match Audit.verify_chain rd with
            | Some (Ok h) => Ok h
            | Some (Err e) =>
                Err (StoreInsecure log
                  (fmt "audit log failed verification ({e}); move it aside after investigating"
                     [audit_text e]))
            | None => Err (StoreInsecure log "")
            end);
  _ ← put_self (mkStore root root_fd items_fd audit h euid None []
                  (Anchors.resolve target env_socket) false);
  recover.

End Linux.
End Store.
