(* ===== verification/StoreSafety.v ===== *)
(** * The quarantine store never loses a file

    Hoare triples for the operations of [QuarantineStore] with a
    postcondition for returns, for errors and for a power loss at any system
    call, and the theorems they give. *)

From S2P Require Import Prelude Utf8 Paths Core External AuditLog Remediation Disk QuarantineStore.
Import Record (ItemState, Pending, Quarantined, Restored, Deleted, RolledBack, Failed,
  mkOriginal, QuarantineRecord, mkRecord, format_version, id, state, original, key_hex, advance,
  RemediationError, RECORD_FORMAT_VERSION, hex, unhex, parse_id, random_id).
Import Common Policy Processes Store.

(** ** The file system *)

(** An entry, as some map of entries gives it, leads to safe content that
    satisfies [Q]. *)
Definition entry_ok (Q : bytes → Prop) (o : option inum) (f : Fs) : Prop :=
  ∃ j x, o = Some j ∧ inodes f !! j = Some x ∧ safe x = true ∧ Q (data x).

Lemma entry_ok_inodes Q o f f' :
  (∀ j x, o = Some j → inodes f !! j = Some x → safe x = true → inodes f' !! j = Some x) →
  entry_ok Q o f → entry_ok Q o f'.
Proof. intros H (j & x & Ho & Hx & Hs & HQ). exists j, x. eauto. Qed.

Lemma entry_ok_weaken (Q Q' : bytes → Prop) o f :
  (∀ b, Q b → Q' b) → entry_ok Q o f → entry_ok Q' o f.
Proof. intros H (j & x & Ho & Hx & Hs & HQ). exists j, x. eauto. Qed.

(** ** The names of an item are distinct *)

Lemma append_inj (a b c : string) : (a +:+ b)%string = (a +:+ c)%string → b = c.
Proof. induction a as [|x a IH]; simpl; [done|]. intros [=]. by apply IH. Qed.

Lemma string_length_app (a b : string) :
  String.length (a +:+ b) = (String.length a + String.length b)%nat.
Proof. induction a as [|c a IH]; [done|]. exact (f_equal S IH). Qed.

Lemma data_json i : data_name i ≠ json_name i.
Proof. intros E. by apply (append_inj i ".data" ".json") in E. Qed.

Lemma name_lengths i :
  String.length (data_name i) = (String.length i + 5)%nat ∧
  String.length (json_name i) = (String.length i + 5)%nat ∧
  String.length (tmp_name i) = (String.length i + 9)%nat ∧
  String.length (atomic_tmp (json_name i)) = (String.length i + 10)%nat.
Proof.
  repeat split; [apply (string_length_app i ".data")|apply (string_length_app i ".json")|
    apply (string_length_app i ".data.tmp")|].
  change (atomic_tmp (json_name i)) with ("." +:+ ((i +:+ ".json") +:+ ".tmp"))%string.
  rewrite !string_length_app. simpl. lia.
Qed.

Lemma names_ne i :
  tmp_name i ≠ json_name i ∧ tmp_name i ≠ data_name i ∧ atomic_tmp (json_name i) ≠ json_name i ∧
  atomic_tmp (json_name i) ≠ data_name i ∧ atomic_tmp (json_name i) ≠ tmp_name i.
Proof.
  destruct (name_lengths i) as (E1 & E2 & E3 & E4).
  split_and!; intros E; apply (f_equal String.length) in E; lia.
Qed.

(** Close an assertion about the current state from its parts. *)
Ltac give := split; [done|]; split_and!; try done; eauto.

(** Reading the next piece of [D] after [total] octets of it. *)
Lemma next_piece (D : bytes) total k :
  total ≤ vlen D → (0 < k)%nat →
  let buf := take k (drop (N.to_nat total) D) in
  (buf = [] → total = vlen D) ∧
  app (take (N.to_nat total) D) buf = take (N.to_nat (total + vlen buf)) D ∧
  total + vlen buf ≤ vlen D ∧ vlen (take (N.to_nat total) D) = total.
Proof.
  intros Ht Hk. cbn zeta. unfold vlen in *. rewrite !length_take, length_drop. split_and!; [|..|lia|lia].
  - intros E. assert (length (take k (drop (N.to_nat total) D)) = 0%nat) as Hz by by rewrite E.
    rewrite length_take, length_drop in Hz. lia.
  - rewrite take_take_drop. destruct (Nat.le_gt_cases k (length D - N.to_nat total)).
    + f_equal. lia.
    + rewrite !take_ge by lia. done.
Qed.

Section Safety.
Context `{Sha256, Json Audit.AuditEntry, Json QuarantineRecord, !JsonPretty QuarantineRecord,
  !JsonPrettyLaws QuarantineRecord, StdText}.
Context (dirs : path → result errno inum) (users_of : N → inum → list ProcessRef) (own_pid : N).

(** The store, and the file: its directory, name, inode and content. *)
Context (t : QuarantineStore) (pd : inum) (nm : string) (i0 : inum) (D : bytes).
Context (Hpd : pd ≠ items_fd t).

Abbreviation I := (items_fd t).
Abbreviation P A := (M QuarantineStore RemediationError A).

(** What the store's own directory guarantees: entries name inodes; no inode
    has a name in [items] and another one; the audit log is not an item and
    is not the file. *)
Record base (f : Fs) : Prop := {
  base_wf k i : live f !! k = Some i ∨ disk f !! k = Some i → is_Some (inodes f !! i);
  base_private n k i : live f !! (I, n) = Some i → live f !! k = Some i → k = (I, n);
  base_audit k i : live f !! k = Some i ∨ disk f !! k = Some i → i = audit t →
                   k.1 ≠ I ∧ k ≠ (pd, nm);
  base_audit_in : is_Some (inodes f !! audit t) }.

(** The original is in place and on stable storage. *)
Definition orig (f : Fs) : Prop :=
  live f !! (pd, nm) = Some i0 ∧ disk f !! (pd, nm) = Some i0 ∧
  ∃ x, inodes f !! i0 = Some x ∧ data x = D ∧ safe x = true.

Lemma orig_lose_power keep garbage f : orig f → orig (lose_power keep garbage f).
Proof.
  intros (Hl & Hd & x & Hx & Hdx & Hs). split_and!.
  - rewrite lose_power_live. by case_decide.
  - rewrite lose_power_disk, lose_power_live. by case_decide.
  - exists x. split; [by apply lose_power_safe|done].
Qed.

Lemma item_not_orig f n j : base f → orig f → live f !! (I, n) = Some j → j ≠ i0.
Proof.
  intros Hb (Hl & _) Hj ->. pose proof (base_private f Hb _ _ _ Hj Hl). congruence.
Qed.

Lemma item_not_audit f n j : base f → live f !! (I, n) = Some j → j ≠ audit t.
Proof. intros Hb Hj Ha. by destruct (base_audit f Hb _ _ (or_introl Hj) Ha). Qed.

Lemma base_lose_power keep garbage f : base f → base (lose_power keep garbage f) ∨ True.
Proof. by right. Qed.

(** Changing an inode keeps every entry. *)
Lemma base_set_inode f j x : base f → base (set_inode j x f).
Proof.
  intros [Hw Hp Ha Hi]. split; simpl; [|done|done|].
  - intros k i Hk. destruct (decide (i = j)) as [->|]; [rewrite lookup_insert_eq; by eexists|].
    rewrite lookup_insert_ne by done. eauto.
  - destruct (decide (audit t = j)) as [->|]; [rewrite lookup_insert_eq; by eexists|].
    by rewrite lookup_insert_ne.
Qed.

Lemma orig_set_inode f j x : j ≠ i0 → orig f → orig (set_inode j x f).
Proof.
  intros Hj (Hl & Hd & y & Hy & Hdy & Hs). split_and!; [done..|].
  exists y. simpl. by rewrite lookup_insert_ne.
Qed.

Lemma entry_set_inode Q o f j x : o ≠ Some j → entry_ok Q o f → entry_ok Q o (set_inode j x f).
Proof.
  intros Ho. apply entry_ok_inodes. intros k y Hk Hy _. simpl.
  rewrite lookup_insert_ne; [done|congruence].
Qed.

(** Creating a name in [items]. *)
Lemma base_create f n :
  base f → live f !! (I, n) = None →
  base (mkFs (<[fresh_inum f := new_inode 0x180 (euid t) (euid t) 0]> (inodes f))
          (<[(I, n) := fresh_inum f]> (live f)) (disk f)).
Proof.
  intros [Hw Hp Ha Hi] Hn. pose proof (fresh_inum_spec f) as Hf.
  assert (∀ k, live f !! k ≠ Some (fresh_inum f)) as Hnl.
  { intros k Hk. destruct (Hw k _ (or_introl Hk)). congruence. }
  split; simpl.
  - intros k i [Hk|Hk].
    + apply lookup_insert_Some in Hk as [[<- <-]|[_ Hk]]; [rewrite lookup_insert_eq; by eexists|].
      rewrite lookup_insert_ne; [eauto|]. intros <-. by apply Hnl in Hk.
    + rewrite lookup_insert_ne; [eauto|]. intros <-. destruct (Hw k _ (or_intror Hk)). congruence.
  - intros m k i Hm Hk. apply lookup_insert_Some in Hm as [[[= <-] <-]|[Hm' Hm]].
    + apply lookup_insert_Some in Hk as [[<- _]|[_ Hk]]; [done|]. by apply Hnl in Hk.
    + apply lookup_insert_Some in Hk as [[<- <-]|[_ Hk]]; [by apply Hnl in Hm|eauto].
  - intros k i [Hk|Hk] He.
    + apply lookup_insert_Some in Hk as [[<- <-]|[_ Hk]]; [|eauto].
      rewrite He in Hf. destruct Hi. congruence.
    + eauto.
  - rewrite lookup_insert_ne; [done|]. intros He. rewrite He in Hf. destruct Hi. congruence.
Qed.

(** Removing and renaming names in [items], and making a directory durable. *)
Lemma base_set_live f l :
  base f → (∀ k i, l !! k = Some i → ∃ k', live f !! k' = Some i ∧ (k'.1 = I → k.1 = I) ∧
                                            (k.1 = I → k'.1 = I) ∧ (k = (pd, nm) → k' = (pd, nm))) →
  (∀ n k i, l !! (I, n) = Some i → l !! k = Some i → k = (I, n)) → base (set_live l f).
Proof.
  intros [Hw Hp Ha Hi] Hl Hu. split; simpl; [|done| |done].
  - intros k i [Hk|Hk]; [|eauto]. destruct (Hl _ _ Hk) as (k' & Hk' & _). eauto.
  - intros k i [Hk|Hk] He; [|eauto]. destruct (Hl _ _ Hk) as (k' & Hk' & _ & Hk1 & Hk2).
    destruct (Ha k' i (or_introl Hk') He). split; tauto.
Qed.

Lemma base_delete f (k : inum * string) : base f → base (set_live (base.delete k (live f)) f).
Proof.
  intros Hb. apply base_set_live; [done|..].
  - intros k' i [_ Hk]%lookup_delete_Some. exists k'. tauto.
  - intros n k' i [_ Hn]%lookup_delete_Some [_ Hk]%lookup_delete_Some.
    by eapply base_private.
Qed.

Lemma base_rename f a b j :
  base f → live f !! (I, a) = Some j →
  base (set_live (<[(I, b) := j]> (base.delete (I, a) (live f))) f).
Proof.
  intros Hb Ha. apply base_set_live; [done|..].
  - intros k i [[<- <-]|[_ [_ Hk]%lookup_delete_Some]]%lookup_insert_Some.
    + exists (I, a). simpl. split_and!; try done. congruence.
    + exists k. tauto.
  - intros n k i [[[= <-] <-]|[Hn [Hn' Hn2]%lookup_delete_Some]]%lookup_insert_Some
      [[<- Hj]|[Hk [Hk' Hk2]%lookup_delete_Some]]%lookup_insert_Some; [done|..].
    + pose proof (base_private f Hb _ _ _ Ha Hk2). congruence.
    + subst. pose proof (base_private f Hb _ _ _ Ha Hn2). congruence.
    + by eapply base_private.
Qed.

Lemma base_fsync_dir f d : base f → base (sys_fsync_dir d f).2.
Proof.
  intros [Hw Hp Ha Hi].
  assert (∀ k i, live (sys_fsync_dir d f).2 !! k = Some i ∨ disk (sys_fsync_dir d f).2 !! k = Some i →
    live f !! k = Some i ∨ disk f !! k = Some i) as Hk.
  { intros k i [Hk|Hk]; [by left|]. rewrite fsync_dir_disk in Hk. case_decide; auto. }
  split; eauto.
Qed.

Lemma orig_items f f' :
  orig f → (∀ n, (pd, nm) ≠ (I, n)) → live f' !! (pd, nm) = live f !! (pd, nm) →
  disk f' !! (pd, nm) = disk f !! (pd, nm) →
  (∀ x, inodes f !! i0 = Some x → inodes f' !! i0 = Some x) → orig f'.
Proof.
  intros (Hl & Hd & x & Hx & Hdx & Hs) _ El Ed Ei. unfold orig. rewrite El, Ed.
  split_and!; [done..|]. exists x. auto.
Qed.

Lemma pd_ne n : (pd, nm) ≠ (I, n).
Proof. intros [= ? _]. done. Qed.

Lemma orig_create f n :
  base f → orig f → orig (mkFs (<[fresh_inum f := new_inode 0x180 (euid t) (euid t) 0]> (inodes f))
          (<[(I, n) := fresh_inum f]> (live f)) (disk f)).
Proof.
  intros Hb Ho. eapply orig_items; [done|apply pd_ne|..]; simpl; [|done|].
  - rewrite lookup_insert_ne; [done|]. by apply not_eq_sym, pd_ne.
  - intros x Hx. rewrite lookup_insert_ne; [done|]. intros He. pose proof (fresh_inum_spec f).
    congruence.
Qed.

Lemma orig_delete f n : orig f → orig (set_live (base.delete (I, n) (live f)) f).
Proof.
  intros Ho. eapply orig_items; [done|apply pd_ne|..]; simpl; [|done..].
  apply lookup_delete_ne, not_eq_sym, pd_ne.
Qed.

Lemma orig_rename f a b j :
  orig f → orig (set_live (<[(I, b) := j]> (base.delete (I, a) (live f))) f).
Proof.
  intros Ho. eapply orig_items; [done|apply pd_ne|..]; simpl; [|done..].
  rewrite lookup_insert_ne by apply not_eq_sym, pd_ne.
  apply lookup_delete_ne, not_eq_sym, pd_ne.
Qed.

Lemma orig_fsync_dir f d : orig f → orig (sys_fsync_dir d f).2.
Proof.
  intros (Hl & Hd & Hx). split_and!; [done| |done].
  rewrite fsync_dir_disk. by case_decide.
Qed.

(** ** Rules for the calls the store makes *)

Lemma t_call {A} what p (op : Fs → result errno A * Fs) (F : Fs → Prop) (Q : A → Fs → Prop)
    (R : Fs → Prop) (C : Fs → Prop) :
  (∀ f keep g, F f → C (lose_power keep g f)) →
  (∀ f, F f → R f) →
  (∀ f, F f → match op f with (Ok a, f') => Q a f' | (Err _, f') => R f' end) →
  triple (on_fs t F) (or_io what p (call op)) (λ a, on_fs t (Q a)) (λ _, on_fs t R) C.
Proof.
  intros. by apply triple_or_call.
Qed.

(** A call that only looks. *)
Lemma t_call_ro {A} what p (op : Fs → result errno A * Fs) (F : Fs → Prop) (C : Fs → Prop) :
  (∀ f keep g, F f → C (lose_power keep g f)) → (∀ f, (op f).2 = f) →
  triple (on_fs t F) (or_io what p (call op))
    (λ a, on_fs t (λ f, F f ∧ (op f).1 = Ok a)) (λ _, on_fs t F) C.
Proof.
  intros HC Hop. apply t_call; [done|done|]. intros f Hf. specialize (Hop f).
  destruct (op f) as [[a|e] f'] eqn:E; simpl in Hop; subst; [|done]. by rewrite E.
Qed.

Lemma t_ignore_call {A} (op : Fs → result errno A * Fs) (F Q : Fs → Prop)
    (R : RemediationError → Disk.state QuarantineStore → Prop) (C : Fs → Prop) :
  (∀ f keep g, F f → C (lose_power keep g f)) →
  (∀ f, F f → Q f) → (∀ f, F f → Q (op f).2) →
  triple (on_fs t F) (ignore (call op)) (λ _, on_fs t Q) R C.
Proof.
  intros HC HQ HO. eapply triple_bind.
  - apply (triple_call t op F (λ _, Q)); auto.
  - intros r. by apply triple_ret.
Qed.

Lemma t_get_self {B} (k : QuarantineStore → P B) (F : Fs → Prop) Q R C :
  triple (on_fs t F) (k t) Q R C → triple (on_fs t F) (get_self ≫= k) Q R C.
Proof. intros Hk s [Hs HF]. unfold mbind, M_bind, get_self. rewrite Hs. by apply Hk. Qed.

Lemma t_write what p i bs (F Q R : Fs → Prop) (C : Fs → Prop) :
  (∀ f keep g, F f → C (lose_power keep g f)) →
  (∀ f n, F f → R (sys_write i (take n bs) f)) →
  (∀ f, F f → Q (sys_write i bs f)) →
  triple (on_fs t F) (or_io what p (write_all i bs)) (λ _, on_fs t Q) (λ _, on_fs t R) C.
Proof.
  intros. by apply triple_or_write.
Qed.

Lemma t_attempt {A} F (m : P A) (Q : A → Fs → Prop) (R : Fs → Prop) C R' :
  triple (on_fs t F) m (λ a, on_fs t (Q a)) (λ _, on_fs t R) C →
  triple (on_fs t F) (attempt m)
    (λ r, on_fs t (λ f, match r with Ok a => Q a f | Err _ => R f end)) R' C.
Proof. intros Hm. by apply triple_attempt. Qed.

(** [write_atomic] keeps [G] until the rename, which establishes [G1]; the
    sync of the directory turns [G1] into [G2]. *)
Lemma write_atomic_triple name bs p (G G1 G2 C : Fs → Prop) :
  let tmp := (I, atomic_tmp name) in
  (∀ f keep g, base f → G f → C (lose_power keep g f)) →
  (∀ f, base f → G f → live f !! tmp = None →
     G (mkFs (<[fresh_inum f := new_inode 0x180 (euid t) (euid t) 0]> (inodes f))
          (<[tmp := fresh_inum f]> (live f)) (disk f))) →
  (∀ f j x, base f → G f → live f !! tmp = Some j → G (set_inode j x f)) →
  (∀ f j x, base f → G f → live f !! tmp = Some j → inodes f !! j = Some x →
     data x = bs → safe x = true →
     G1 (set_live (<[(I, name) := j]> (base.delete tmp (live f))) f)) →
  (∀ f keep g, base f → G1 f → C (lose_power keep g f)) →
  (∀ f, base f → G1 f → G2 (sys_fsync_dir I f).2) →
  triple (on_fs t (λ f, base f ∧ G f)) (write_atomic I name bs p)
    (λ _, on_fs t (λ f, base f ∧ G2 f)) (λ _, on_fs t (λ f, base f ∧ (G f ∨ G1 f))) C.
Proof.
  intros tmp HC Hcreate Hset Hren HC1 Hsync. unfold write_atomic. apply t_get_self.
  eapply triple_bind.
  { apply (t_call "create" p _ _ (λ i f, (base f ∧ G f) ∧ live f !! tmp = Some i ∧
      ∃ x, inodes f !! i = Some x ∧ data x = [])).
    - intros f keep g [? ?]. auto.
    - intros f [? ?]. auto.
    - intros f [Hb HG]. unfold sys_create_trunc. fold tmp.
      destruct (live f !! tmp) as [i|] eqn:El.
      + destruct (inodes f !! i) as [x|] eqn:Ei; [|auto]. case_bool_decide; [auto|].
        split; [split; [by apply base_set_inode|by apply Hset]|]. split; [done|].
        eexists. split; [apply lookup_insert_eq|done].
      + unfold sys_create_excl. fold tmp. rewrite El.
        split; [split; [by apply base_create|by apply Hcreate]|]. split; [apply lookup_insert_eq|].
        eexists. split; [apply lookup_insert_eq|done]. }
  intros i. eapply triple_bind.
  { apply (t_write "write" p i bs _ (λ f, (base f ∧ G f) ∧ live f !! tmp = Some i ∧
      ∃ x, inodes f !! i = Some x ∧ data x = bs)).
    - intros f keep g [[? ?] _]. auto.
    - intros f n ([Hb HG] & Hl & x & Hx & Hd). erewrite sys_write_eq by done.
      split; [by apply base_set_inode|left; by apply Hset].
    - intros f ([Hb HG] & Hl & x & Hx & Hd). erewrite sys_write_eq by done.
      split; [split; [by apply base_set_inode|by apply Hset]|]. split; [done|].
      eexists. split; [apply lookup_insert_eq|]. simpl. by rewrite Hd. }
  intros ?. eapply triple_bind.
  { apply (t_call "sync" p _ _ (λ _ f, (base f ∧ G f) ∧ live f !! tmp = Some i ∧
      ∃ x, inodes f !! i = Some x ∧ data x = bs ∧ safe x = true)).
    - intros f keep g [[? ?] _]. auto.
    - intros f [[? ?] _]. auto.
    - intros f ([Hb HG] & Hl & x & Hx & Hd). rewrite (surjective_pairing (sys_fsync i f)).
      cbn [fst]. erewrite sys_fsync_eq by done. simpl.
      split; [split; [by apply base_set_inode|by apply Hset]|]. split; [done|].
      eexists. split; [apply lookup_insert_eq|done]. }
  intros ?. eapply triple_bind.
  { apply (t_call "rename" p _ _ (λ _ f, base f ∧ G1 f)).
    - intros f keep g [[? ?] _]. auto.
    - intros f [[? ?] _]. auto.
    - intros f ([Hb HG] & Hl & x & Hx & Hd & Hs). unfold sys_rename. fold tmp. rewrite Hl.
      split; [by apply base_rename|by eapply Hren]. }
  intros ?. apply t_call.
  - intros f keep g [? ?]. auto.
  - intros f [? ?]. auto.
  - intros f [Hb HG]. rewrite (surjective_pairing (sys_fsync_dir I f)). cbn [fst].
    split; [by apply base_fsync_dir|by apply Hsync].
Qed.

Lemma triple_weaken_pre {A} (F G : Fs → Prop) (m : P A) Q R C :
  triple (on_fs t F) m Q R C → (∀ f, G f → F f) → triple (on_fs t G) m Q R C.
Proof. intros Hm HG s [Hs Hf]. apply Hm. split; auto. Qed.

Lemma triple_pure {A} (F : Fs → Prop) (φ : Prop) (m : P A) Q R C :
  (φ → triple (on_fs t F) m Q R C) → triple (on_fs t (λ f, F f ∧ φ)) m Q R C.
Proof. intros Hm s [Hs [Hf Hφ]]. by apply Hm. Qed.

(** ** Reading *)

Section Reading.
Context (F : Fs → Prop) (C : Fs → Prop).
Context (Hcrash : ∀ f keep g, F f → C (lose_power keep g f)).

Lemma read_at_ro i off max R :
  0 < max →
  triple (on_fs t F) (read_at i off max : P _)
    (λ r, on_fs t (λ f, F f ∧ ∀ bs, r = Ok bs → ∀ x, inodes f !! i = Some x →
       ∃ n, (0 < n)%nat ∧ bs = take n (drop (N.to_nat off) (data x)))) R C.
Proof.
  intros Hm. apply triple_read_at; [done|done|..].
  - intros f e Hf. split; [done|]. by intros.
  - intros f n x Hf Hn Hx. split; [done|]. intros bs [= <-] y Hy. exists n. split; [done|congruence].
  - intros f Hf Hx. split; [done|]. intros bs _ y Hy. congruence.
Qed.

Lemma enough_triple i (R : RemediationError → Disk.state QuarantineStore → Prop) :
  triple (on_fs t F) (enough i) (λ _, on_fs t F) R C.
Proof. intros s Hs. done. Qed.

Lemma read_exact_ro fuel i off want R :
  triple (on_fs t F) (read_exact fuel i off want) (λ _, on_fs t F) R C.
Proof.
  revert off want. induction fuel as [|fuel IH]; intros off want; simpl; [by apply triple_ret|].
  destruct (N.eqb_spec want 0); [by apply triple_ret|].
  eapply triple_bind; [apply read_at_ro; lia|]. intros r.
  eapply triple_weaken_pre with (F := F); [|by intros f [? _]].
  destruct r as [[|b bs]|e]; [by apply triple_ret| |].
  - eapply triple_bind; [apply IH|]. intros rest. by apply triple_ret.
  - destruct (e =? EINTR); [apply IH|by apply triple_ret].
Qed.

Lemma decode_loop_ro fuel i key p total hashed :
  triple (on_fs t F) (decode_loop fuel i key None p total hashed)
    (λ _, on_fs t F) (λ _, on_fs t F) C.
Proof.
  revert total hashed. induction fuel as [|fuel IH]; intros total hashed; cbn [decode_loop].
  { by apply triple_throw. }
  eapply triple_bind; [apply read_at_ro; done|]. intros r.
  eapply triple_weaken_pre with (F := F); [|by intros f [? _]].
  destruct r as [[|b bs]|e]; [by apply triple_ret| |].
  - apply IH.
  - destruct (e =? EINTR); [apply IH|by apply triple_throw].
Qed.

Lemma lift_triple {A} (r : result RemediationError A) :
  triple (on_fs t F) (lift r) (λ a, on_fs t (λ f, F f ∧ r = Ok a)) (λ _, on_fs t F) C.
Proof. apply triple_lift; [|done]. intros a s -> [Hs Hf]. by repeat split. Qed.

Lemma decode_file_ro i name key :
  triple (on_fs t F) (decode_file i name key None) (λ _, on_fs t F) (λ _, on_fs t F) C.
Proof.
  unfold decode_file. apply t_get_self.
  eapply triple_bind.
  { apply t_call_ro; [done|]. apply sys_open_ro. }
  intros fd. eapply triple_weaken_pre with (F := F); [|by intros f [? _]].
  eapply triple_bind; [apply enough_triple|]. intros n.
  eapply triple_bind; [apply read_exact_ro|]. intros magic.
  eapply triple_bind; [apply lift_triple|]. intros m.
  eapply triple_weaken_pre with (F := F); [|by intros f [? _]].
  eapply triple_bind; [apply lift_triple|]. intros m'.
  eapply triple_weaken_pre with (F := F); [|by intros f [? _]].
  eapply triple_bind; [apply enough_triple|]. intros n'.
  eapply triple_bind; [apply decode_loop_ro|]. intros [h n2]. by apply triple_ret.
Qed.

End Reading.

(** ** The copy *)

(** The temporary [n] in [items] holds [bs]. *)
Definition copy (n : string) (j : inum) (bs : bytes) (sf : bool) (f : Fs) : Prop :=
  live f !! (I, n) = Some j ∧
  ∃ x, inodes f !! j = Some x ∧ data x = bs ∧ (sf = true → safe x = true).

Definition phaseA (f : Fs) : Prop := base f ∧ orig f.

Lemma phaseA_crash f keep g : phaseA f → orig (lose_power keep g f).
Proof. intros [_ Ho]. by apply orig_lose_power. Qed.

Lemma phaseA_set f n j x : phaseA f → live f !! (I, n) = Some j → phaseA (set_inode j x f).
Proof.
  intros [Hb Ho] Hl. split; [by apply base_set_inode|].
  apply orig_set_inode; [by eapply item_not_orig|done].
Qed.

Lemma copy_write n j bs sf f more :
  copy n j bs sf f → copy n j (bs ++ more) false (sys_write j more f).
Proof.
  intros (Hl & x & Hx & Hd & _). erewrite sys_write_eq by done. split; [done|].
  eexists. split; [apply lookup_insert_eq|]. simpl. by rewrite Hd.
Qed.

Lemma phaseA_write n j bs sf f more :
  phaseA f → copy n j bs sf f → phaseA (sys_write j more f).
Proof.
  intros HA (Hl & x & Hx & _). erewrite sys_write_eq by done. by eapply phaseA_set.
Qed.

Definition encoded (key : bytes) (d : bytes) : bytes := DATA_MAGIC ++ xor_in_place d key 0.

Lemma encoded_app key a b :
  encoded key (a ++ b) = encoded key a ++ xor_in_place b key (vlen a).
Proof. unfold encoded. by rewrite xor_app, app_assoc. Qed.

Lemma encoded_nil key : encoded key [] = DATA_MAGIC.
Proof. apply app_nil_r. Qed.

Lemma copy_loop_triple fuel j n key max p total :
  total ≤ vlen D →
  triple (on_fs t (λ f, phaseA f ∧ copy n j (encoded key (take (N.to_nat total) D)) false f))
    (copy_loop fuel i0 j key max p total (take (N.to_nat total) D))
    (λ r, on_fs t (λ f, phaseA f ∧ copy n j (encoded key D) false f ∧ r = (D, vlen D)))
    (λ _, on_fs t phaseA) orig.
Proof.
  revert total. induction fuel as [|fuel IH]; intros total Ht; cbn [copy_loop].
  { apply triple_throw. by intros s (? & ? & ?). }
  eapply triple_bind.
  { apply read_at_ro; [|done]. intros f keep g [HA _]. by apply phaseA_crash. }
  intros r. eapply triple_weaken_pre with (F := λ f, (phaseA f ∧
    copy n j (encoded key (take (N.to_nat total) D)) false f) ∧
    ∀ bs, r = Ok bs → ∃ k, (0 < k)%nat ∧ bs = take k (drop (N.to_nat total) D)).
  2:{ intros f [[HA Hc] Hr]. split; [done|]. intros bs ->.
      destruct HA as [_ (_ & _ & x & Hx & <- & _)]. by apply Hr. }
  apply triple_pure. intros Hr. destruct r as [buf|e].
  2:{ destruct (e =? EINTR); [by apply IH|]. apply triple_throw. by intros s (? & ? & ?). }
  destruct (Hr buf eq_refl) as (k & Hk & ->). clear Hr.
  destruct (next_piece D total k Ht Hk) as (Hnil & Happ & Hle & Hlen). cbn zeta in *.
  destruct (take k (drop (N.to_nat total) D)) as [|b buf] eqn:Eb.
  - specialize (Hnil eq_refl). subst total.
    rewrite (take_ge D) by (unfold vlen; lia). apply triple_ret. intros s (Hs & HA & Hc).
    split; [done|]. by split_and!.
  - clear Hnil Eb. generalize dependent (b :: buf). clear b buf. intros buf Happ Hle.
    rewrite N.add_sub.
    eapply triple_bind.
    { eapply triple_conseq; [apply lift_triple|done|done|..]; [|done]. by intros e s (? & ? & ?). }
    intros ?. eapply triple_weaken_pre; [|by intros f [Hf _]; exact Hf].
    apply t_get_self. eapply triple_bind.
    { apply (t_write "write" _ j _ _ (λ f, phaseA f ∧
        copy n j (encoded key (take (N.to_nat (total + vlen buf)) D)) false f)).
      - intros f keep g [HA _]. by apply phaseA_crash.
      - intros f m [HA Hc]. by eapply phaseA_write.
      - intros f [HA Hc]. split; [by eapply phaseA_write|].
        rewrite <-Happ, encoded_app, Hlen. by eapply copy_write. }
    intros ?. rewrite Happ. by apply IH.
Qed.

(** [write_encoded] leaves the original alone, and when it returns the
    temporary holds the encoding of the whole file on stable storage. *)
Lemma write_encoded_triple n key max p :
  triple (on_fs t phaseA) (write_encoded i0 n key max p)
    (λ r, on_fs t (λ f, phaseA f ∧ (∃ j, copy n j (encoded key D) true f) ∧
                        r = (sha256 D, vlen D)))
    (λ _, on_fs t phaseA) orig.
Proof.
  unfold write_encoded. apply t_get_self. eapply triple_bind.
  { apply (t_call "create" _ _ _ (λ j f, phaseA f ∧ copy n j [] false f)).
    - intros f keep g HA. by apply phaseA_crash.
    - done.
    - intros f [Hb Ho]. unfold sys_create_excl. destruct (live f !! (I, n)) eqn:E; [done|].
      split; [split; [by apply base_create|by apply orig_create]|].
      split; [apply lookup_insert_eq|]. eexists. split; [apply lookup_insert_eq|done]. }
  intros j. eapply triple_bind.
  { apply (t_write "write" _ j _ _ (λ f, phaseA f ∧ copy n j (encoded key []) false f)).
    - intros f keep g [HA _]. by apply phaseA_crash.
    - intros f m [HA Hc]. by eapply phaseA_write.
    - intros f [HA Hc]. split; [by eapply phaseA_write|].
      rewrite encoded_nil. by apply (copy_write _ _ [] false). }
  intros ?. eapply triple_bind; [apply enough_triple|]. intros fuel.
  eapply triple_bind.
  { apply (copy_loop_triple fuel j n key max p 0). lia. }
  intros [h tot]. eapply triple_weaken_pre with (F := λ f, (phaseA f ∧
    copy n j (encoded key D) false f) ∧ (h, tot) = (D, vlen D)); [|tauto].
  apply triple_pure. intros [= -> ->]. eapply triple_bind.
  { apply (t_call "sync" _ _ _ (λ _ f, phaseA f ∧ copy n j (encoded key D) true f)).
    - intros f keep g [HA _]. by apply phaseA_crash.
    - by intros f [HA _].
    - intros f [HA (Hl & x & Hx & Hd & _)]. rewrite (surjective_pairing (sys_fsync j f)).
      cbn [fst]. erewrite sys_fsync_eq by done. simpl.
      split; [by eapply phaseA_set|]. split; [done|]. eexists. split; [apply lookup_insert_eq|done]. }
  intros ?. cbv zeta. set (F := λ f, phaseA f ∧ copy n j (encoded key D) true f).
  assert (∀ f keep g, F f → orig (lose_power keep g f)) as HF.
  { intros f keep g [HA _]. by apply phaseA_crash. }
  assert (∀ (e : RemediationError) s, on_fs t F s → on_fs t phaseA s) as HR by by intros e s (? & ? & ?).
  eapply triple_bind.
  { eapply triple_conseq; [by apply lift_triple|done|done|exact HR|done]. }
  intros i. eapply triple_weaken_pre; [|by intros f [Hf _]; exact Hf].
  eapply triple_bind.
  { eapply triple_conseq; [by apply decode_file_ro|done|done|exact HR|done]. }
  intros [check len]. eapply triple_bind.
  { eapply triple_conseq; [by apply lift_triple|done|done|exact HR|done]. }
  intros ?. apply triple_ret. intros s (Hs & [HA Hc] & _). split; [done|]. split_and!; eauto.
Qed.

(** ** The stored item *)

(** A record that recovery and restore accept for this file. *)
Definition good (i : QuarantineId) (key : bytes) (o : path) (rec : QuarantineRecord) : Prop :=
  id rec = i ∧ format_version rec = RECORD_FORMAT_VERSION ∧ key_hex rec = hex key ∧
  Record.path (original rec) = ObservedPath.from_path o ∧
  Record.sha256 (original rec) = sha256 D ∧
  (Record.state rec = Pending ∨ Record.state rec = Quarantined).

Definition good_bytes (i : QuarantineId) (key : bytes) (o : path) (bs : bytes) : Prop :=
  ∃ rec, from_slice bs = Ok rec ∧ good i key o rec.

(** The encoded content and the record of item [i] are on stable storage. *)
Definition item (i : QuarantineId) (key : bytes) (o : path) (f : Fs) : Prop :=
  entry_ok (λ b, b = encoded key D) (live f !! (I, data_name i)) f ∧
  disk f !! (I, data_name i) = live f !! (I, data_name i) ∧
  entry_ok (good_bytes i key o) (live f !! (I, json_name i)) f ∧
  entry_ok (good_bytes i key o) (disk f !! (I, json_name i)) f.

Definition kept (o : path) (f : Fs) : Prop := orig f ∨ ∃ i key, length key = KEY_LEN ∧ item i key o f.

Lemma entry_ok_lose_power Q o keep g f : entry_ok Q o f → entry_ok Q o (lose_power keep g f).
Proof. apply entry_ok_inodes. intros j x _ Hx Hs. by apply lose_power_safe. Qed.

Lemma item_lose_power i key o keep g f : item i key o f → item i key o (lose_power keep g f).
Proof.
  intros (Hd & Hdd & Hl & Hj). unfold item. rewrite lose_power_disk, !lose_power_live, Hdd.
  split_and!; [|done|..]; case_decide; by apply entry_ok_lose_power.
Qed.

Lemma kept_lose_power o keep g f : kept o f → kept o (lose_power keep g f).
Proof.
  intros [Ho|(i & key & Hk & Hi)]; [left; by apply orig_lose_power|right].
  exists i, key. split; [done|by apply item_lose_power].
Qed.

(** Both the live and the durable record are the same file. *)
Definition item_sync (i : QuarantineId) (key : bytes) (o : path) (f : Fs) : Prop :=
  item i key o f ∧ disk f !! (I, json_name i) = live f !! (I, json_name i).

(** The first save: before it the temporary holds the copy; after it the
    record is durable too. *)
Definition copied (i : QuarantineId) (key : bytes) (f : Fs) : Prop :=
  orig f ∧ ∃ j, copy (tmp_name i) j (encoded key D) true f.

Definition record_live (Q : bytes → Prop) (i : QuarantineId) (f : Fs) : Prop :=
  entry_ok Q (live f !! (I, json_name i)) f.
Definition record_sync (Q : bytes → Prop) (i : QuarantineId) (f : Fs) : Prop :=
  record_live Q i f ∧ disk f !! (I, json_name i) = live f !! (I, json_name i).

Lemma copy_other n n' j j' bs sf f x :
  base f → n ≠ n' → live f !! (I, n') = Some j' → copy n j bs sf f → copy n j bs sf (set_inode j' x f).
Proof.
  intros Hb Hn Hl' (Hl & y & Hy & Hd & Hs). split; [done|]. exists y. simpl.
  rewrite lookup_insert_ne; [done|]. intros ->.
  pose proof (base_private f Hb _ _ _ Hl Hl'). congruence.
Qed.

Lemma copy_create n n' j bs sf f :
  base f → live f !! (I, n') = None → copy n j bs sf f →
  copy n j bs sf (mkFs (<[fresh_inum f := new_inode 0x180 (euid t) (euid t) 0]> (inodes f))
          (<[(I, n') := fresh_inum f]> (live f)) (disk f)).
Proof.
  intros Hb Hl' (Hl & y & Hy & Hd & Hs). pose proof (fresh_inum_spec f). split; simpl.
  - rewrite lookup_insert_ne; [done|]. intros [= ->]. congruence.
  - exists y. rewrite lookup_insert_ne; [done|]. intros <-. congruence.
Qed.

Lemma copy_rename n a b j j' bs sf f :
  n ≠ a → n ≠ b → copy n j bs sf f →
  copy n j bs sf (set_live (<[(I, b) := j']> (base.delete (I, a) (live f))) f).
Proof.
  intros Ha Hb (Hl & Hx). split; simpl; [|done].
  rewrite lookup_insert_ne by congruence. rewrite lookup_delete_ne by congruence. done.
Qed.

(** [save] is [write_atomic] of the serialised record. *)
Lemma save_triple rec F (Q : unit → Disk.state QuarantineStore → Prop) (R C : Fs → Prop) :
  (∀ f, F f → R f) →
  (∀ bs p, to_vec_pretty rec = Ok bs →
     triple (on_fs t F) (write_atomic I (json_name (id rec)) bs p) Q (λ _, on_fs t R) C) →
  triple (on_fs t F) (save rec) Q (λ _, on_fs t R) C.
Proof.
  intros HR Hw. unfold save. apply t_get_self. cbv zeta.
  destruct (to_vec_pretty rec) as [bs|e] eqn:E; cbn [map_err lift].
  - by apply Hw.
  - apply triple_throw. intros s [Hs Hf]. split; auto.
Qed.

(** Saving a record while the original is in place. *)
Lemma save_orig rec :
  triple (on_fs t phaseA) (save rec) (λ _, on_fs t phaseA) (λ _, on_fs t phaseA) orig.
Proof.
  apply save_triple; [done|]. intros bs p Hbs.
  eapply triple_conseq; [apply (write_atomic_triple (json_name (id rec)) bs p orig orig orig orig)|..].
  - intros f keep g _. by apply orig_lose_power.
  - intros f Hb Ho _. by apply orig_create.
  - intros f j x Hb Ho Hl. apply orig_set_inode; [by eapply item_not_orig|done].
  - intros. by apply orig_rename.
  - intros f keep g _. by apply orig_lose_power.
  - intros f _. apply orig_fsync_dir.
  - done.
  - done.
  - intros e s [Hs [Hb Ho]]. split; [done|]. split; [done|tauto].
  - done.
Qed.

(** Saving the first record: the copy stays and the record is durable. *)
Lemma save_first key rec (R : Fs → Prop) :
  (∀ f, phaseA f → R f) →
  triple (on_fs t (λ f, base f ∧ copied (id rec) key f)) (save rec)
    (λ _, on_fs t (λ f, base f ∧ copied (id rec) key f ∧
       record_sync (λ b, to_vec_pretty rec = Ok b) (id rec) f))
    (λ _, on_fs t R) orig.
Proof.
  intros HR. apply save_triple; [intros f [Hb [Ho _]]; by apply HR|]. intros bs p Hbs.
  set (i := id rec). destruct (names_ne i) as (N1 & N2 & N3 & N4 & N5).
  eapply triple_conseq.
  { apply (write_atomic_triple (json_name i) bs _ (copied i key)
      (λ f, copied i key f ∧ record_live (λ b, to_vec_pretty rec = Ok b) i f)
      (λ f, copied i key f ∧ record_sync (λ b, to_vec_pretty rec = Ok b) i f) orig).
    - intros f keep g _ [Ho _]. by apply orig_lose_power.
    - intros f Hb [Ho (j & Hc)] Hn. split; [by apply orig_create|]. exists j. by apply copy_create.
    - intros f j x Hb [Ho (j' & Hc)] Hl. split.
      + apply orig_set_inode; [by eapply item_not_orig|done].
      + exists j'. eapply copy_other; [done| |done|done]. congruence.
    - intros f j x Hb [Ho (j' & Hc)] Hl Hx Hd Hs. split.
      + split; [by apply orig_rename|]. exists j'. apply copy_rename; [congruence|done|done].
      + exists j, x. simpl. rewrite lookup_insert_eq. by subst.
    - intros f keep g _ [[Ho _] _]. by apply orig_lose_power.
    - intros f Hb [[Ho (j & Hc)] Hr]. split; [split; [by apply orig_fsync_dir|by exists j]|].
      split; [done|]. rewrite fsync_dir_disk. simpl. by rewrite decide_True. }
  - done.
  - done.
  - intros e s [Hs [Hb Hg]]. split; [done|]. apply HR. split; [done|].
    by destruct Hg as [[Ho _]|[[Ho _] _]].
  - done.
Qed.

Lemma entry_ok_delete Q k f f' : inodes f' = inodes f → entry_ok Q (live f !! k) f → entry_ok Q (live f !! k) f'.
Proof. intros E. apply entry_ok_inodes. intros j x _ Hx _. by rewrite E. Qed.

(** Changing an inode behind another name of [items]. *)
Lemma item_set_inode i key o n j x f :
  base f → item_sync i key o f → live f !! (I, n) = Some j → n ≠ data_name i → n ≠ json_name i →
  item_sync i key o (set_inode j x f).
Proof.
  intros Hb [(Hd & Hdd & Hl & Hj) Heq] Hn N1 N2.
  assert (∀ m, m ≠ n → live f !! (I, m) ≠ Some j) as Hm.
  { intros m Hm Hl'. pose proof (base_private f Hb _ _ _ Hl' Hn). congruence. }
  split; [|done]. split_and!; simpl; [|done|..]; apply entry_set_inode; try done;
    rewrite ?Heq; by apply Hm.
Qed.

(** The original's name is free. *)
Definition gone (f : Fs) : Prop := live f !! (pd, nm) = None.

(** Saving the final record over the pending one. *)
Lemma save_second i key o rec :
  good i key o rec →
  triple (on_fs t (λ f, base f ∧ item_sync i key o f ∧ gone f)) (save rec)
    (λ _, on_fs t (λ f, base f ∧ item_sync i key o f ∧ gone f))
    (λ _, on_fs t (λ f, base f ∧ item i key o f)) (item i key o).
Proof.
  intros Hg. assert (id rec = i) as Hid by apply Hg.
  apply save_triple; [intros f (Hb & [Hi _] & _); by split|]. intros bs p Hbs. rewrite Hid.
  destruct (names_ne i) as (N1 & N2 & N3 & N4 & N5). pose proof (data_json i) as N6.
  assert (good_bytes i key o bs) as Hgb.
  { exists rec. split; [by apply from_slice_to_vec_pretty|done]. }
  assert (∀ n, (I, n) ≠ (pd, nm)) as Hpn by (intros n; apply not_eq_sym, pd_ne).
  eapply triple_conseq.
  { apply (write_atomic_triple (json_name i) bs p (λ f, item_sync i key o f ∧ gone f)
      (λ f, item i key o f ∧ gone f) (λ f, item_sync i key o f ∧ gone f) (item i key o)).
    - intros f keep g _ [[Hi _] _]. by apply item_lose_power.
    - intros f Hb [[(Hd & Hdd & Hl & Hj) Heq] Hgo] Hn. pose proof (fresh_inum_spec f) as Hf.
      split; [|unfold gone; simpl; by rewrite lookup_insert_ne].
      unfold item_sync, item. simpl. rewrite !lookup_insert_ne by congruence.
      split; [|done]. split_and!; [|done|..]; (eapply entry_ok_inodes; [|done]);
        intros j x _ Hx _; simpl; rewrite lookup_insert_ne; congruence.
    - intros f j x Hb [Hi Hgo] Hl. split; [by eapply item_set_inode|done].
    - intros f j x Hb [[(Hd & Hdd & Hl & Hj) Heq] Hgo] Ht Hx Hdat Hs.
      split; [|unfold gone; simpl; by rewrite lookup_insert_ne, lookup_delete_ne].
      unfold item. simpl.
      rewrite lookup_insert_ne, lookup_delete_ne, lookup_insert_eq by congruence.
      split_and!; [done..| |].
      + exists j, x. by subst.
      + by eapply entry_ok_inodes; [|exact Hj].
    - intros f keep g _ [Hi _]. by apply item_lose_power.
    - intros f Hb [(Hd & Hdd & Hl & Hj) Hgo]. split; [|done]. unfold item_sync, item.
      rewrite !fsync_dir_disk. simpl. rewrite !decide_True by done. by split_and!. }
  - done.
  - done.
  - intros e s [Hs [Hb Hi]]. split; [done|]. split; [done|].
    destruct Hi as [[[Hi _] _]|[Hi _]]; done.
  - done.
Qed.

(** ** Removing the original *)

Lemma phaseA_unlink f n : phaseA f → phaseA (sys_unlink I n f).2.
Proof.
  intros [Hb Ho]. unfold sys_unlink. destruct (live f !! (I, n)); simpl; [|done].
  split; [by apply base_delete|by apply orig_delete].
Qed.

Lemma phaseA_fsync_dir f d : phaseA f → phaseA (sys_fsync_dir d f).2.
Proof. intros [Hb Ho]. split; [by apply base_fsync_dir|by apply orig_fsync_dir]. Qed.

Lemma now_utc_triple F (R : RemediationError → Disk.state QuarantineStore → Prop) C :
  triple (on_fs t F) now_utc (λ _, on_fs t F) R C.
Proof. intros s [Hs Hf]. unfold now_utc. by destruct (clock s). Qed.

Lemma unlink_item_triple n R :
  triple (on_fs t phaseA) (ignore (call (sys_unlink I n))) (λ _, on_fs t phaseA) R orig.
Proof.
  apply t_ignore_call; [|done|]; intros.
  - by apply phaseA_crash.
  - by apply phaseA_unlink.
Qed.

Lemma roll_back_triple rec why :
  triple (on_fs t phaseA) (roll_back rec why) (λ _, on_fs t phaseA) (λ _, on_fs t phaseA) orig.
Proof.
  unfold roll_back. apply t_get_self.
  eapply triple_bind; [apply unlink_item_triple|]. intros ?.
  eapply triple_bind.
  { apply t_ignore_call; [|done|]; intros; [by apply phaseA_crash|by apply phaseA_fsync_dir]. }
  intros ?. eapply triple_bind; [apply now_utc_triple|]. intros now. apply save_orig.
Qed.

(** [m], then fail with [e]. *)
Lemma then_throw {A B} F (m : P B) e (Q : A → _ → Prop) (R C : Fs → Prop) :
  triple (on_fs t F) m (λ _, on_fs t R) (λ _, on_fs t R) C →
  triple (on_fs t F) (_ ← m; throw e) Q (λ _, on_fs t R) C.
Proof. intros Hm. eapply triple_bind; [exact Hm|]. intros ?. by apply triple_throw. Qed.

(** The copy takes its final name. *)
Definition committed (rec : QuarantineRecord) (key : bytes) (f : Fs) : Prop :=
  orig f ∧ entry_ok (λ b, b = encoded key D) (live f !! (I, data_name (id rec))) f ∧
  record_sync (λ b, to_vec_pretty rec = Ok b) (id rec) f.

Lemma copied_committed rec key f :
  base f → copied (id rec) key f → record_sync (λ b, to_vec_pretty rec = Ok b) (id rec) f →
  match sys_rename I (tmp_name (id rec)) (data_name (id rec)) f with
  | (Ok _, f') => base f' ∧ committed rec key f'
  | (Err _, f') => phaseA f'
  end.
Proof.
  intros Hb [Ho (j & Hl & x & Hx & Hd & Hs)] [Hr He].
  destruct (names_ne (id rec)) as (N1 & N2 & N3 & N4 & N5). pose proof (data_json (id rec)) as N6.
  unfold sys_rename. rewrite Hl. split; [by apply base_rename|]. split_and!.
  - by apply orig_rename.
  - exists j, x. simpl. rewrite lookup_insert_eq. auto.
  - unfold record_sync, record_live. simpl.
    rewrite lookup_insert_ne, lookup_delete_ne by congruence. split; [|done].
    by eapply entry_ok_inodes; [|exact Hr].
Qed.

Lemma committed_item o rec key f :
  good (id rec) key o rec → base f → committed rec key f →
  let f' := (sys_fsync_dir I f).2 in base f' ∧ orig f' ∧ item_sync (id rec) key o f'.
Proof.
  intros Hg Hb (Ho & Hd & Hr & He). cbn zeta.
  split; [by apply base_fsync_dir|]. split; [by apply orig_fsync_dir|].
  unfold item_sync, item. rewrite !fsync_dir_disk. simpl. rewrite !decide_True by done.
  assert (entry_ok (good_bytes (id rec) key o) (live f !! (I, json_name (id rec))) f) as Hj.
  { eapply entry_ok_weaken; [|exact Hr]. intros b Hb'. exists rec.
    split; [by apply from_slice_to_vec_pretty|done]. }
  by split_and!.
Qed.

Lemma item_unlink_orig i key o f :
  item_sync i key o f → item_sync i key o (set_live (base.delete (pd, nm) (live f)) f).
Proof.
  intros [(Hd & Hdd & Hl & Hj) He]. unfold item_sync, item. simpl.
  rewrite !lookup_delete_ne by (apply pd_ne). by split_and!.
Qed.

Lemma item_fsync_pd i key o f : item_sync i key o f → item_sync i key o (sys_fsync_dir pd f).2.
Proof.
  intros [(Hd & Hdd & Hl & Hj) He]. unfold item_sync, item. rewrite !fsync_dir_disk.
  simpl. rewrite !decide_False by (intros ?; congruence). by split_and!.
Qed.

(** What holds after an error or a return. *)
Definition held (o : path) (f : Fs) : Prop := base f ∧ kept o f.

Lemma phaseA_held o f : phaseA f → held o f.
Proof. intros [Hb Ho]. split; [done|by left]. Qed.
Lemma item_held i key o f : length key = KEY_LEN → base f → item i key o f → held o f.
Proof. intros Hk Hb Hi. split; [done|right]. eauto. Qed.

(** Steps 2 to 6 of the quarantine. *)
Lemma store_and_remove_triple req parent st i key :
  length key = KEY_LEN →
  triple (on_fs t phaseA) (store_and_remove req parent nm pd i0 st i key)
    (λ r, on_fs t (λ f, base f ∧ item_sync i key (req_path req) f ∧ gone f ∧
       good i key (req_path req) r.1 ∧ r.2 = sha256 D ∧
       from_option (λ e, e = sha256 D) True (expected_sha256 req)))
    (λ _, on_fs t (held (req_path req))) (kept (req_path req)).
Proof.
  intros Hkey. set (o := req_path req).
  assert (∀ f keep g, phaseA f → kept o (lose_power keep g f)) as HcA.
  { intros f keep g [_ Ho]. left. by apply orig_lose_power. }
  assert (∀ f, phaseA f → held o f) as HhA by apply phaseA_held.
  unfold store_and_remove. fold o. apply t_get_self. eapply triple_bind.
  { eapply triple_conseq; [apply t_attempt, (write_encoded_triple (tmp_name i) key (max_size req) o)|..].
    - done.
    - intros r s Hs. exact Hs.
    - intros e s Hs. exact Hs.
    - intros f Hf. by left. }
  intros r. eapply triple_bind with (Q := λ v, on_fs t (λ f, (phaseA f ∧
    (∃ j, copy (tmp_name i) j (encoded key D) true f)) ∧ v = (sha256 D, vlen D))).
  { destruct r as [v|e]; cbn beta iota.
    - apply triple_ret. intros s (Hs & HA & Hc & Hv). give.
    - apply then_throw. eapply triple_conseq; [apply unlink_item_triple|done|..].
      + intros ? s [Hs HA]. split; [done|by apply HhA].
      + exact (λ e s Hs, Hs).
      + intros f Hf. by left. }
  intros v. apply triple_pure. intros ->. cbn beta iota.
  set (F := λ f, phaseA f ∧ ∃ j, copy (tmp_name i) j (encoded key D) true f).
  assert (∀ f, F f → phaseA f) as HF by by intros f [? _].
  eapply triple_bind with (Q := λ _, on_fs t (λ f, F f ∧
    from_option (λ e, e = sha256 D) True (expected_sha256 req))).
  { destruct (expected_sha256 req) as [ex|]; [case_bool_decide as He|].
    - apply triple_ret. intros s [Hs Hf]. give.
    - apply then_throw. eapply triple_conseq; [apply unlink_item_triple|..].
      + intros s [Hs Hf]. split; [done|by apply HF].
      + intros ? s [Hs HA]. split; [done|by apply HhA].
      + exact (λ e s Hs, Hs).
      + intros f Hf. by left.
    - apply triple_ret. intros s [Hs Hf]. give. }
  intros ?. apply triple_pure. intros Hex.
  eapply triple_bind; [apply now_utc_triple|]. intros now. cbv zeta.
  set (rec := mkRecord _ _ _ _ _ _ _ _ _ _ _).
  assert (good i key o rec) as Hg by (unfold good; split_and!; by try left).
  eapply triple_bind.
  { eapply triple_weaken_pre; [eapply triple_conseq; [apply (save_first key rec (held o))|..]|]; try done.
    - intros f Hf. by left.
    - intros f [[Hb Ho] Hc]. by split_and!. }
  intros ?. eapply triple_bind.
  { apply (t_call _ _ _ _ (λ _ f, base f ∧ committed rec key f) (held o)).
    - intros f keep g (Hb & [Ho _] & _). left. by apply orig_lose_power.
    - intros f (Hb & [Ho _] & _). by apply HhA.
    - intros f (Hb & Hc & Hr). pose proof (copied_committed rec key f Hb Hc Hr) as Hcm.
      change (tmp_name (id rec)) with (tmp_name i) in Hcm.
      change (data_name (id rec)) with (data_name i) in Hcm.
      destruct (sys_rename _ _ _ _) as [[] f']; [done|by apply HhA]. }
  intros ?. set (G := λ f, base f ∧ orig f ∧ item_sync i key o f).
  assert (∀ f, G f → phaseA f) as HG by by intros f (? & ? & _).
  eapply triple_bind.
  { apply (t_call _ _ _ _ (λ _, G) (held o)).
    - intros f keep g (Hb & Ho & _). left. by apply orig_lose_power.
    - intros f (Hb & Ho & _). by apply HhA.
    - intros f [Hb Hc]. rewrite (surjective_pairing (sys_fsync_dir I f)). cbn [fst].
      by apply (committed_item o rec key). }
  intros ?. eapply triple_bind.
  { apply (triple_call t _ G (λ _, G)); [|done|done].
    intros f keep g Hf. by apply HcA, HG. }
  intros stat.
  assert (∀ (m : P unit) e (Q' : unit → _ → Prop),
    triple (on_fs t phaseA) m (λ _, on_fs t phaseA) (λ _, on_fs t phaseA) orig →
    triple (on_fs t G) (_ ← m; throw e) Q' (λ _, on_fs t (held o)) (kept o)) as Hback.
  { intros m e Q' Hm. apply then_throw. eapply triple_weaken_pre; [|exact HG].
    eapply triple_conseq; [exact Hm|done|..].
    - intros ? s [Hs HA]. split; [done|by apply HhA].
    - intros ? s [Hs HA]. split; [done|by apply HhA].
    - intros f Hf. by left. }
  eapply triple_bind with (Q := λ _, on_fs t G).
  { match goal with |- triple _ (if ?b then _ else _) _ _ _ => destruct b end.
    - by apply triple_ret.
    - apply Hback, roll_back_triple. }
  intros ?. set (U := λ f, base f ∧ item_sync i key o f ∧ gone f).
  eapply triple_bind.
  { apply (triple_call t _ G (λ r f, match r with Ok _ => U f | Err _ => G f end)).
    - intros f keep g Hf. by apply HcA, HG.
    - done.
    - intros f (Hb & Ho & Hi). unfold sys_unlink. rewrite (proj1 Ho). simpl. split_and!.
      + by apply base_delete.
      + by apply item_unlink_orig.
      + apply lookup_delete_eq. }
  intros removed. eapply triple_bind with (Q := λ _, on_fs t U).
  { destruct removed as [u|e]; [by apply triple_ret|]. apply Hback, roll_back_triple. }
  intros ?. eapply triple_bind.
  { apply (t_call _ _ _ _ (λ _, U) (held o)).
    - intros f keep g (_ & [Hi _] & _). right. exists i, key. split; [done|by apply item_lose_power].
    - intros f (Hb & [Hi _] & _). by eapply item_held.
    - intros f (Hb & Hi & Hn). rewrite (surjective_pairing (sys_fsync_dir pd f)). cbn [fst].
      split_and!; [by apply base_fsync_dir|by apply item_fsync_pd|done]. }
  intros ?. apply triple_ret. intros s [Hs (Hb & Hi & Hn)]. split; [done|]. by split_and!.
Qed.

(** ** The audit log, the processes, the final record *)

(** The file system after a return or an error, when the store's own state may
    have changed. *)
Definition fs_is (F : Fs → Prop) (s : Disk.state QuarantineStore) : Prop := F (fs s).

Lemma audit_not_entry f n :
  base f → live f !! (I, n) ≠ Some (audit t) ∧ disk f !! (I, n) ≠ Some (audit t).
Proof.
  intros Hb. split; intros E;
    [destruct (base_audit f Hb _ _ (or_introl E))|destruct (base_audit f Hb _ _ (or_intror E))]; done.
Qed.

Lemma item_set_audit i key o f x : base f → item i key o f → item i key o (set_inode (audit t) x f).
Proof.
  intros Hb (Hd & Hdd & Hl & Hj).
  destruct (audit_not_entry f (data_name i) Hb), (audit_not_entry f (json_name i) Hb).
  split_and!; simpl; [|done|..]; by apply entry_set_inode.
Qed.

Lemma held_set_audit o f x : held o f → held o (set_inode (audit t) x f).
Proof.
  intros [Hb [Ho|(i & key & Hk & Hi)]]; (split; [by apply base_set_inode|]).
  - left. apply orig_set_inode; [|done]. intros E. destruct Ho as [Hl _].
    by destruct (base_audit f Hb _ _ (or_introl Hl) (eq_sym E)).
  - right. exists i, key. split; [done|by apply item_set_audit].
Qed.

Lemma audit_event_triple action i p sha outcome (F C : Fs → Prop) :
  (∀ f keep g, F f → C (lose_power keep g f)) →
  (∀ f x, F f → F (set_inode (audit t) x f)) →
  triple (on_fs t F) (audit_event own_pid action i p sha outcome) (λ _, fs_is F) (λ _, on_fs t F) C.
Proof.
  intros HC Hset.
  assert (∀ f bs, F f → F (sys_write (audit t) bs f)) as Hw.
  { intros f bs Hf. unfold sys_write. destruct (inodes f !! audit t); [by apply Hset|done]. }
  unfold audit_event. destruct (match outcome with Ok d => _ | Err e => _ end) as [out det].
  apply t_get_self. eapply triple_bind; [apply now_utc_triple|]. intros now. cbv zeta.
  eapply triple_bind.
  { eapply triple_conseq; [by apply (lift_triple F C)|done|..].
    - intros ? s Hs. exact Hs.
    - done.
    - done. }
  intros [line h]. eapply triple_weaken_pre; [|by intros f [Hf _]; exact Hf].
  eapply triple_bind.
  { eapply triple_conseq; [apply (t_write _ _ _ _ F F F C); auto|done| | |done].
    - intros ? s Hs. exact Hs.
    - done. }
  intros ?. eapply triple_bind.
  { eapply triple_conseq; [apply (t_call _ _ _ F (λ _, F) F C); [done|done|]|done| | |done].
    - intros f Hf. unfold sys_fsync. destruct (inodes f !! audit t); [by apply Hset|done].
    - intros ? s Hs. exact Hs.
    - done. }
  intros ?. eapply triple_bind with (Q := λ _, on_fs t F).
  { case_match; [|by apply triple_ret]. intros s [Hs Hf]. unfold datagram. by destruct (delivered s). }
  intros ?. intros s [Hs Hf]. done.
Qed.

Section Quiet.
Context (F : Fs → Prop) (R : RemediationError → Disk.state QuarantineStore → Prop) (C : Fs → Prop).

Lemma send_signal_triple p sig : triple (on_fs t F) (send_signal p sig) (λ _, on_fs t F) R C.
Proof. intros s [Hs Hf]. unfold send_signal. by destruct (signals s). Qed.

Lemma pause_triple ps : triple (on_fs t F) (pause ps) (λ _, on_fs t F) R C.
Proof.
  induction ps as [|p ps IH]; simpl; [by apply triple_ret|].
  eapply triple_bind; [apply send_signal_triple|]. intros r.
  eapply triple_bind; [apply IH|]. intros rest. by apply triple_ret.
Qed.

Lemma kill_triple ps : triple (on_fs t F) (kill ps) (λ _, on_fs t F) R C.
Proof.
  induction ps as [|p ps IH]; simpl; [by apply triple_ret|].
  eapply triple_bind; [apply send_signal_triple|]. intros r.
  eapply triple_bind with (Q := λ _, on_fs t F).
  { destruct r; [|by apply triple_ret].
    eapply triple_bind; [apply send_signal_triple|]. intros ?. by apply triple_ret. }
  intros note. eapply triple_bind; [apply IH|]. intros rest. by apply triple_ret.
Qed.

Lemma resume_triple ps : triple (on_fs t F) (resume ps) (λ _, on_fs t F) R C.
Proof.
  induction ps as [|p ps IH]; simpl; [by apply triple_ret|].
  eapply triple_bind; [apply send_signal_triple|]. intros r. apply IH.
Qed.

Lemma random_triple n : triple (on_fs t F) (random_bytes n)
  (λ r, on_fs t (λ f, F f ∧ ∀ bs, r = Ok bs → length bs = n)) R C.
Proof.
  intros s [Hs Hf]. unfold random_bytes. destruct (entropy s) as [|[bs|e] r]; simpl; give.
  intros l [= <-]. rewrite length_take, length_app, length_fmap, repeat_length. lia.
Qed.
End Quiet.

(** The result of a successful quarantine. *)
Definition quarantined (req : QuarantineRequest) (rec : QuarantineRecord) (f : Fs) : Prop :=
  Record.state rec = Quarantined ∧ from_option (λ e, e = sha256 D) True (expected_sha256 req) ∧
  base f ∧ ∃ key, length key = KEY_LEN ∧ item (id rec) key (req_path req) f ∧
  good (id rec) key (req_path req) rec ∧ gone f.

Lemma quarantined_set_audit req rec f x :
  quarantined req rec f → quarantined req rec (set_inode (audit t) x f).
Proof.
  intros (Hq & He & Hb & key & Hk & Hi & Hg & Hgo). split_and!; [done|done|by apply base_set_inode|].
  exists key. split_and!; [done|by apply item_set_audit|done|done].
Qed.

(** Step 7. *)
Lemma finish_triple req users guard notes rec sha i key :
  length key = KEY_LEN → good i key (req_path req) rec →
  from_option (λ e, e = sha256 D) True (expected_sha256 req) →
  triple (on_fs t (λ f, base f ∧ item_sync i key (req_path req) f ∧ gone f))
    (finish_quarantine own_pid req users guard notes rec sha)
    (λ r, fs_is (quarantined req r)) (λ _, on_fs t (held (req_path req))) (kept (req_path req)).
Proof.
  intros Hk Hg Hex. set (o := req_path req).
  set (F := λ f, base f ∧ item_sync i key o f ∧ gone f).
  assert (∀ f, F f → held o f) as HF.
  { intros f (Hb & [Hi _] & _). by eapply item_held. }
  unfold finish_quarantine.
  eapply triple_bind with (Q := λ r, on_fs t (λ f, F f ∧ good i key o r)).
  { destruct users as [|u us]; [apply triple_ret; intros s [Hs Hf]; give|].
    cbv zeta. destruct guard as [pids|].
    - eapply triple_bind; [apply kill_triple|]. intros failed. apply triple_ret.
      intros s [Hs Hf]. give.
    - apply triple_ret. intros s [Hs Hf]. give. }
  intros rec'. apply triple_pure. intros Hg'.
  eapply triple_bind; [apply now_utc_triple|]. intros now. cbv zeta.
  set (rec2 := advance Quarantined now [] rec').
  assert (good i key o rec2) as Hg2.
  { destruct Hg' as (? & ? & ? & ? & ? & _). unfold good. simpl. split_and!; auto. }
  eapply triple_bind.
  { eapply triple_conseq; [by apply (save_second i key o rec2)|done|..].
    - intros ? s Hs. exact Hs.
    - intros e s [Hs [Hb Hi]]. split; [done|]. by eapply item_held.
    - intros f Hi. right. eauto. }
  intros ?. eapply triple_weaken_pre with (F := λ f, quarantined req rec2 f).
  2:{ intros f (Hb & [Hi _] & Hgo). split_and!; [done|done|done|]. exists key.
      replace (id rec2) with i by (symmetry; apply Hg2). by split_and!. }
  eapply triple_bind.
  { eapply triple_conseq; [apply (audit_event_triple _ _ _ _ _ (quarantined req rec2) (kept o))|..].
    - intros f keep g (_ & _ & _ & k & Hk' & Hi & _). right. exists (id rec2), k.
      split; [done|by apply item_lose_power].
    - intros f x. apply quarantined_set_audit.
    - done.
    - intros ? s Hs. exact Hs.
    - intros e s (Hs & _ & _ & Hb & k & Hk' & Hi & _). split; [done|]. by eapply item_held.
    - done. }
  intros ?. by apply triple_ret.
Qed.

(** ** The whole operation *)

Lemma or_throw_ro {A} (g : errno → RemediationError) (op : Fs → result errno A * Fs) (F C : Fs → Prop) :
  (∀ f keep g, F f → C (lose_power keep g f)) → (∀ f, (op f).2 = f) →
  triple (on_fs t F) (or_throw g (call op))
    (λ a, on_fs t (λ f, F f ∧ (op f).1 = Ok a)) (λ _, on_fs t F) C.
Proof.
  intros HC Hop. apply triple_or_throw.
  eapply triple_conseq; [apply (triple_call t op F
    (λ r f, F f ∧ ∀ a, r = Ok a → (op f).1 = Ok a) (λ _, on_fs t F) C)|..]; try done.
  - intros f Hf. rewrite Hop. auto.
  - intros [a|e] s [Hs [Hf Ha]]; (split; [done|]); [split; [done|by apply Ha]|done].
Qed.

Lemma open_dir_triple p (F C : Fs → Prop) :
  (∀ f keep g, F f → C (lose_power keep g f)) →
  triple (on_fs t F) (open_dir_no_symlinks dirs p)
    (λ d, on_fs t (λ f, F f ∧ dirs p = Ok d)) (λ _, on_fs t F) C.
Proof. intros HC. by apply (or_throw_ro _ (λ f, (dirs p, f))). Qed.

Lemma map_throw_triple {A} g (m : P A) F (Q : A → _ → Prop) (R C : Fs → Prop) :
  triple (on_fs t F) m Q (λ _, on_fs t R) C →
  triple (on_fs t F) (map_throw g m) Q (λ _, on_fs t R) C.
Proof.
  intros Hm s Hs. specialize (Hm s Hs). unfold map_throw, attempt, mbind, M_bind.
  by destruct (m s).
Qed.

Lemma reject_store_dir_triple d p (F C : Fs → Prop) :
  (∀ f keep g, F f → C (lose_power keep g f)) →
  triple (on_fs t F) (reject_store_dir d p) (λ _, on_fs t F) (λ _, on_fs t F) C.
Proof.
  intros HC. unfold reject_store_dir. apply t_get_self.
  assert (∀ G : Fs → Prop, (∀ f, G f → F f) → ∀ f keep g, G f → C (lose_power keep g f)) as HG by auto.
  eapply triple_bind; [by apply t_call_ro|]. intros st.
  eapply triple_weaken_pre with (F := F); [|by intros f [? _]].
  eapply triple_bind; [by apply t_call_ro|]. intros a.
  eapply triple_weaken_pre with (F := F); [|by intros f [? _]].
  eapply triple_bind; [by apply lift_triple|]. intros ?.
  eapply triple_weaken_pre with (F := F); [|by intros f [? _]].
  eapply triple_bind; [by apply t_call_ro|]. intros b.
  eapply triple_weaken_pre with (F := F); [|by intros f [? _]].
  eapply triple_conseq; [by apply lift_triple|done| |done|done].
  by intros ? s [Hs [Hf _]].
Qed.

Lemma quarantine_inner_triple req parent :
  split_checked (req_path req) = Ok (parent, nm) → dirs parent = Ok pd →
  triple (on_fs t phaseA) (quarantine_inner dirs users_of own_pid req)
    (λ r, fs_is (quarantined req r)) (λ _, on_fs t (held (req_path req))) (kept (req_path req)).
Proof.
  intros Hsplit Hdir. set (o := req_path req).
  assert (∀ f keep g, phaseA f → kept o (lose_power keep g f)) as HcA.
  { intros f keep g [_ Ho]. left. by apply orig_lose_power. }
  assert (∀ (e : RemediationError) s, on_fs t phaseA s → on_fs t (held o) s) as HhA.
  { intros e s [Hs HA]. split; [done|by apply phaseA_held]. }
  unfold quarantine_inner. fold o. fold o in Hsplit. rewrite Hsplit. cbn [lift].
  eapply triple_bind with (Q := λ r, on_fs t (λ f, phaseA f ∧ r = (parent, nm))).
  { apply triple_ret. intros s [Hs HA]. give. }
  intros r. apply triple_pure. intros ->. cbn beta iota.
  eapply triple_bind.
  { eapply triple_conseq; [by apply (lift_triple phaseA (kept o))|done|done|exact HhA|done]. }
  intros ?. eapply triple_weaken_pre with (F := phaseA); [|by intros f [? _]].
  apply t_get_self. eapply triple_bind.
  { eapply triple_conseq; [by apply (lift_triple phaseA (kept o))|done|done|exact HhA|done]. }
  intros ?. eapply triple_weaken_pre with (F := phaseA); [|by intros f [? _]].
  eapply triple_bind.
  { eapply triple_conseq;
      [by apply map_throw_triple, (open_dir_triple parent phaseA (kept o))|done|done|exact HhA|done]. }
  intros d. apply triple_pure. intros Hd. rewrite Hdir in Hd. injection Hd as <-.
  eapply triple_bind.
  { eapply triple_conseq; [by apply (reject_store_dir_triple pd o phaseA (kept o))|done|done|exact HhA|done]. }
  intros ?. eapply triple_bind.
  { eapply triple_conseq; [apply (or_throw_ro _ (sys_open pd nm) phaseA (kept o))|done|done|exact HhA|done];
      [done|apply sys_open_ro]. }
  intros fd. eapply triple_weaken_pre with (F := λ f, phaseA f ∧ fd = i0).
  2:{ intros f [[Hb Ho] E]. split; [done|]. destruct Ho as (Hl & _ & x & Hx & _).
      unfold sys_open in E. rewrite Hl, Hx in E. case_bool_decide; [done|]. by injection E. }
  apply triple_pure. intros ->. eapply triple_bind.
  { eapply triple_conseq; [apply (t_call_ro "stat" o (sys_fstat i0) phaseA (kept o))|done|done|exact HhA|done];
      [done|apply sys_fstat_ro]. }
  intros st. eapply triple_weaken_pre with (F := phaseA); [|by intros f [? _]].
  do 3 (eapply triple_bind;
    [eapply triple_conseq; [by apply (lift_triple phaseA (kept o))|done|done|exact HhA|done]|];
    intros ?; eapply triple_weaken_pre with (F := phaseA); [|by intros f [? _]]).
  cbv zeta. eapply triple_bind with (Q := λ _, on_fs t phaseA).
  { unfold pause_users. destruct (kill_processes req && _); [|by apply triple_ret].
    eapply triple_bind; [apply pause_triple|]. intros [g n]. by apply triple_ret. }
  intros [guard problems]. cbn beta iota.
  eapply triple_bind with (Q := λ r s, match r with
    | Ok (rec, sha) => on_fs t (λ f, ∃ i key, length key = KEY_LEN ∧
        (base f ∧ item_sync i key o f ∧ gone f) ∧ good i key o rec ∧
        from_option (λ e, e = sha256 D) True (expected_sha256 req)) s
    | Err _ => on_fs t (held o) s
    end).
  { apply triple_attempt. eapply triple_bind; [apply random_triple|]. intros ib.
    eapply triple_weaken_pre with (F := phaseA); [|by intros f [? _]].
    eapply triple_bind.
    { eapply triple_conseq; [by apply (lift_triple phaseA (kept o))|done|done| |done].
      intros e s [Hs HA]. split; [done|by apply phaseA_held]. }
    intros ib'. eapply triple_weaken_pre with (F := phaseA); [|by intros f [? _]].
    eapply triple_bind; [apply random_triple|]. intros kb. apply triple_pure. intros Hkb.
    eapply triple_bind.
    { eapply triple_conseq; [by apply (lift_triple phaseA (kept o))|done|done| |done].
      intros e s [Hs HA]. split; [done|by apply phaseA_held]. }
    intros key. apply triple_pure. intros Hkey.
    assert (length key = KEY_LEN) as Hk.
    { destruct kb as [b|]; simpl in Hkey; simplify_eq. by apply Hkb. }
    eapply triple_conseq; [by apply (store_and_remove_triple req parent st (random_id ib') key)|done|..].
    - intros [rec sha] s [Hs (Hb & Hi & Hgo & Hg & _ & Hex)]. split; [done|].
      exists (random_id ib'), key. by split_and!.
    - done.
    - done. }
  intros [[rec sha]|e].
  - intros s [Hs (i & key & Hk & HF & Hg & Hex)].
    by apply (finish_triple req (users_of (dev st) i0) guard problems rec sha i key).
  - eapply triple_bind; [apply resume_triple|]. intros ?. by apply triple_throw.
Qed.

Lemma quarantine_triple req parent :
  split_checked (req_path req) = Ok (parent, nm) → dirs parent = Ok pd →
  triple (on_fs t phaseA) (quarantine dirs users_of own_pid req)
    (λ r, fs_is (quarantined req r)) (λ _, fs_is (held (req_path req))) (kept (req_path req)).
Proof.
  intros Hsplit Hdir. unfold quarantine.
  eapply triple_bind with (Q := λ r s, match r with
    | Ok rec => fs_is (quarantined req rec) s
    | Err _ => on_fs t (held (req_path req)) s
    end).
  { by apply triple_attempt, (quarantine_inner_triple req parent). }
  intros [rec|e]; cbn beta iota.
  - by apply triple_ret.
  - eapply triple_bind with (Q := λ _, fs_is (held (req_path req))).
    { eapply triple_conseq; [apply (audit_event_triple _ _ _ _ _ (held (req_path req))
        (kept (req_path req)))|..].
      - intros f keep g [_ Hk]. by apply kept_lose_power.
      - intros f x. apply held_set_audit.
      - intros s Hs. exact Hs.
      - done.
      - by intros e' s [_ Hf].
      - done. }
    intros ?. by apply triple_throw.
Qed.

End Safety.

(** ** Properties *)
Module StoreProps.
Section Props.
Context `{Sha256, Json Audit.AuditEntry, Json QuarantineRecord, !JsonPretty QuarantineRecord,
  !JsonPrettyLaws QuarantineRecord, StdText}.
Context (dirs : path → result errno inum) (users_of : N → inum → list ProcessRef) (own_pid : N).

(** C1: no data loss. Whatever system call fails and wherever power is lost,
    quarantining a file leaves its content in one of two places: either the
    original is still in place with its content on stable storage, or the
    store holds, on stable storage, the file's whole encoded content under
    [items/<id>.data] together with a readable [pending] or [quarantined]
    record of its path, hash and key. When the operation returns, the
    original's name is gone, the record says [quarantined] and its hash is the
    content's hash, which is the expected one if one was given. *)
Theorem quarantine_never_loses_data (s : Disk.state QuarantineStore) req parent pd nm i0 D :
  let t := self s in
  split_checked (req_path req) = Ok (parent, nm) → dirs parent = Ok pd → pd ≠ items_fd t →
  base t pd nm (fs s) → orig pd nm i0 D (fs s) →
  match quarantine dirs users_of own_pid req s with
  | Return rec s' => quarantined t pd nm D req rec (fs s')
  | Throw _ s' => kept t pd nm i0 D (req_path req) (fs s')
  | Lost f => kept t pd nm i0 D (req_path req) f
  end.
Proof.
  cbn zeta. intros Hsplit Hdir Hpd Hb Ho.
  pose proof (quarantine_triple dirs users_of own_pid (self s) pd nm i0 D Hpd req parent Hsplit Hdir
    s (conj eq_refl (conj Hb Ho))) as Hq.
  destruct (quarantine _ _ _ req s); [done|apply Hq|done].
Qed.

End Props.
(** A store at [/q] (directories 0 and 1), with a file [/h/evil] in
    directory 2. *)
Section Samples.
#[local] Existing Instance Toy.sha.
#[local] Existing Instances Audit.AuditEntry_eq_dec Audit.AuditEntry_countable
  Record.QuarantineRecord_eq_dec Record.QuarantineRecord_countable.
Definition sample_audit_json : Json Audit.AuditEntry := Toy.json Audit.AuditEntry.
Definition sample_record_json : Json QuarantineRecord := Toy.json QuarantineRecord.
Definition sample_record_pretty : JsonPretty QuarantineRecord := Toy.json_pretty QuarantineRecord.
Definition sample_record_laws : @JsonPrettyLaws _ sample_record_json sample_record_pretty :=
  Toy.json_pretty_laws QuarantineRecord.
#[local] Existing Instances sample_audit_json sample_record_json sample_record_pretty
  sample_record_laws toy_text.

Definition sample_dirs (p : path) : result errno inum :=
  if bool_decide (p = "/h"%string) then Ok 2 else Err ENOENT.
Definition sample_store : QuarantineStore :=
  mkStore "/q" 0 1 11 Audit.genesis 1000 None [] None false.
Definition sample_file (d : bytes) : inode := mkInode d true RegularFile 0x1A4 1000 1000 1 5 0.
Definition sample_dir : inode := mkInode [] true Directory 0x1C0 1000 1000 2 5 0.
Definition sample_fs : Fs :=
  let entries : gmap (inum * string) inum :=
    {[ (2, "evil"%string) := 10; (0, "audit.log"%string) := 11 ]} in
  mkFs {[ 0 := sample_dir; 1 := sample_dir; 2 := sample_dir; 10 := sample_file [1; 2; 3; 4];
          11 := sample_file [] ]} entries entries.
Definition sample_state (script : list fault) : Disk.state QuarantineStore :=
  mkState sample_store sample_fs script [] [Ok (repeat 7 16); Ok (repeat 9 32)] [] [] [].
Definition sample_request : QuarantineRequest :=
  mkRequest "/h/evil" None (Record.mkReason None None None None None None) 1000 false false.

Lemma sample_base : base sample_store 2 "evil" sample_fs.
Proof.
  assert (∀ k i, live sample_fs !! k = Some i →
    (k = (2, "evil"%string) ∧ i = 10) ∨ (k = (0, "audit.log"%string) ∧ i = 11)) as Hl.
  { intros k i. simpl. rewrite insert_union_singleton_l, lookup_union_Some_raw, !lookup_singleton_Some.
    intros [[<- <-]|[_ [<- <-]]]; auto. }
  split.
  - intros k i [Hk|Hk]; apply Hl in Hk as [[-> ->]|[-> ->]]; by eexists.
  - intros n k i Hn _. apply Hl in Hn as [[[=] _]|[[=] _]].
  - intros k i [Hk|Hk] Hi; apply Hl in Hk as [[-> ->]|[-> ->]]; by split.
  - by eexists.
Qed.

Lemma sample_orig : orig 2 "evil" 10 [1; 2; 3; 4] sample_fs.
Proof. split; [done|]. split; [done|]. by eexists. Qed.

Definition returned {T E A} (o : outcome T E A) : bool :=
  match o with Return _ _ => true | _ => false end.

(** A run with short reads and an interrupted one. *)
Definition sample_script : list fault := repeat Proceed 8 ++ [Short 3; Proceed; Fails EINTR].

Lemma quarantine_never_loses_data_witness :
  returned (quarantine sample_dirs (λ _ _, []) 1 sample_request (sample_state sample_script)) = true ∧
  match quarantine sample_dirs (λ _ _, []) 1 sample_request (sample_state sample_script) with
  | Return rec s' => quarantined sample_store 2 "evil" [1; 2; 3; 4] sample_request rec (fs s')
  | Throw _ s' => kept sample_store 2 "evil" 10 [1; 2; 3; 4] "/h/evil" (fs s')
  | Lost f => kept sample_store 2 "evil" 10 [1; 2; 3; 4] "/h/evil" f
  end.
Proof.
  split; [vm_compute; reflexivity|].
  apply (quarantine_never_loses_data sample_dirs (λ _ _, []) 1 (sample_state sample_script)
           sample_request "/h" 2 "evil" 10 [1; 2; 3; 4]).
  - vm_compute. reflexivity.
  - vm_compute. reflexivity.
  - discriminate.
  - exact sample_base.
  - exact sample_orig.
Defined.

End Samples.
End StoreProps.
