(* ===== verification/Trust.v ===== *)
(** * Signature verification and keyrings

    [crates/engine/src/trust.rs]. The minisign implementation is a parameter
    ([Minisign]); files are read through [files], which gives the octets a
    path delivers and the error that ends them, if any. *)

From S2P Require Import Prelude Utf8 Paths Core External.

(** ** Outside the repository *)

(** The [minisign_verify] crate: [verify_sig key data sig allow_legacy] tells
    whether [PublicKey::verify] succeeds. *)
Class Minisign := {
  PublicKey : Type;
  Signature : Type;
  from_base64 : string → result string PublicKey;
  sig_decode : string → result string Signature;
  verify_sig : PublicKey → bytes → Signature → bool → bool;
  trusted_comment : Signature → string }.

(** A file as [File::open] and reading it show it. *)
Record source := mkSource { octets : bytes; failure : option IoError }.
Abbreviation Files := (path → result IoError source).

(** ** Key IDs *)
Module KeyId.
(** Eight octets. *)
Abbreviation t := bytes.
(** [{:016X}] of the little-endian integer. *)
Definition to_string (id : t) : string := to_ascii_uppercase (Digest.hex_encode (reverse id)).
End KeyId.
Abbreviation KeyId := KeyId.t.

Module Trust.

Definition MAX_SIGNATURE_BYTES : N := 4096.
Definition MAX_KEY_BYTES : N := 4096.
Definition KEYRING_FORMAT : string := "abyssal-warden.keyring".
Definition MAX_KEYRING_BYTES : N := 256 * 1024.
Definition MAX_KEYRING_KEYS : N := 256.
Definition MAX_THRESHOLD : N := 16.

Inductive TrustError :=
  | Io (p : path) (source : IoError)
  | TooLarge (p : path) (limit : N)
  | InvalidKey (source_name reason : string)
  | InvalidSignature (p : path) (reason : string)
  | Unsigned (p signature_path : path)
  | Untrusted (p : path)
  | NoTrustedKeys
  | KeyRevoked (p : path) (id : string)
  | KeyOutsideValidity (p : path) (id window : string)
  | InvalidKeyring (source_name reason : string)
  | ThresholdRequiresBundle (p : path) (threshold : N).

Inductive SignaturePolicy := RequireTrusted | AllowUnsigned.
#[export] Instance SignaturePolicy_eq_dec : EqDecision SignaturePolicy.
Proof. solve_decision. Defined.

Inductive KeyRole := Content | Timestamp.
#[export] Instance KeyRole_eq_dec : EqDecision KeyRole.
Proof. solve_decision. Defined.

Definition content_role : list KeyRole := [Content].

Record KeyringPolicy := mkPolicy { policy_threshold : N }.
Record BundleFloor := mkFloor { floor_name : string; min_sequence_of : N }.
Record KeyringEntry := mkEntry {
  entry_id : string;
  public_key : string;
  description : option string;
  entry_not_before : option Z;
  entry_not_after : option Z;
  entry_revoked : bool;
  entry_roles : list KeyRole }.
Record KeyringFile := mkKeyring {
  format : string;
  format_version : N;
  entries : list KeyringEntry;
  policy : option KeyringPolicy;
  bundles : list BundleFloor }.

(** ** Base64, for key IDs *)

Definition b64_val (c : N) : option N :=
  if is_ascii_upper c then Some (c - 65)
  else if is_ascii_lower c then Some (c - 97 + 26)
  else if is_ascii_digit c then Some (c - 48 + 52)
  else if c =? 43 then Some 62
  else if c =? 47 then Some 63
  else None.

(** [n = (n << 6) | val(c)?] over the characters; a [u32], which four
    characters do not overflow. *)
Fixpoint b64_bits (n : N) (cs : bytes) : option N :=
  match cs with
  | [] => Some n
  | c :: cs => v ← b64_val c; b64_bits (N.lor (N.shiftl n 6) v) cs
  end.

(** [take_while(|c| c == '=').count()] *)
Fixpoint padding (l : bytes) : nat :=
  match l with
  | [] => 0
  | c :: l => if c =? 61 then S (padding l) else 0
  end.

Definition b64_chunk (chunk : bytes) : option bytes :=
  let pad := padding (reverse chunk) in
  if (2 <? pad)%nat then None
  else
    n ← b64_bits 0 (take (4 - pad) chunk);
    let n := N.shiftl n (6 * N.of_nat pad) in
    Some (take (3 - pad) [N.land (N.shiftr n 16) 255; N.land (N.shiftr n 8) 255; N.land n 255]).

Fixpoint b64_chunks (l : bytes) : option bytes :=
  match l with
  | [] => Some []
  | a :: b :: c :: d :: l => x ← b64_chunk [a; b; c; d]; y ← b64_chunks l; Some (x ++ y)
  | _ => None
  end.

Definition base64_decode (s : string) : option bytes :=
  if bool_decide (vlen (as_bytes s) mod 4 = 0) then b64_chunks (as_bytes s) else None.

(** [r.get(2..10)] *)
Definition id_slice (r : bytes) : option bytes :=
  if (10 <=? length r)%nat then Some (take 8 (drop 2 r)) else None.

Section Keys.
Context `{MS : Minisign, ST : StdText, TT : TimeText}.

Record TrustedKey := mkKey {
  id : KeyId;
  key : PublicKey;
  roles : list KeyRole;
  not_before : option Z;
  not_after : option Z;
  revoked : bool }.

Record TrustedKeys := mkKeys {
  keys : list TrustedKey;
  threshold_field : N;
  min_sequences : gmap string N }.

(** [TrustedKeys::new] *)
Definition new : TrustedKeys := mkKeys [] 0 ∅.
Definition set_keys (l : list TrustedKey) (ks : TrustedKeys) : TrustedKeys :=
  mkKeys l (threshold_field ks) (min_sequences ks).
Definition is_empty (ks : TrustedKeys) : bool := bool_decide (keys ks = []).
Definition threshold (ks : TrustedKeys) : N := N.max (threshold_field ks) 1.
Definition min_sequence (ks : TrustedKeys) (name : string) : option N := min_sequences ks !! name.

(** [t.is_none_or(f)] *)
Definition is_none_or (f : Z → bool) (t : option Z) : bool :=
  match t with None => true | Some t => f t end.

Definition valid_at (k : TrustedKey) (now : Z) : bool :=
  is_none_or (λ t, (t <=? now)%Z) (not_before k) && is_none_or (λ t, (now <=? t)%Z) (not_after k).

Definition window (k : TrustedKey) : string :=
  let show t := default "unbounded"%string (t ≫= rfc3339) in
  fmt "valid from {} to {}" [show (not_before k); show (not_after k)].

Definition set_revoked (r : bool) (k : TrustedKey) : TrustedKey :=
  mkKey (id k) (key k) (roles k) (not_before k) (not_after k) r.

(** [revoke]: whether the key is present. *)
Definition revoke (i : string) (ks : TrustedKeys) : bool * TrustedKeys :=
  let hit k := eq_ignore_ascii_case (KeyId.to_string (id k)) i in
  (existsb hit (keys ks), set_keys ((λ k, if hit k then set_revoked true k else k) <$> keys ks) ks).

(** The first line of a key file that is a key. *)
Definition key_line (text : string) : option string :=
  of_chars <$> head (base.filter
    (λ l, l ≠ [] ∧ str_starts_with (of_chars l) "untrusted comment:" = false)
    (trim <$> lines (chars text))).

(** [add_key_text] *)
Definition add_key_text (text source_name : string) (ks : TrustedKeys)
    : result TrustError KeyId * TrustedKeys :=
  let parsed :=
    b64 ← ok_or (key_line text) (InvalidKey source_name "no key found");
    k ← map_err (InvalidKey source_name) (from_base64 b64);
    raw ← ok_or (base64_decode b64) (InvalidKey source_name "not valid base64");
    i ← ok_or (id_slice raw) (InvalidKey source_name "key too short");
    Ok (k, i) in
  match parsed with
  | Err e => (Err e, ks)
  | Ok (k, i) =>
      (Ok i,
       if existsb (λ k', bool_decide (id k' = i)) (keys ks) then ks
       else set_keys (keys ks ++ [mkKey i k content_role None None false]) ks)
  end.

(** [Display] of [TrustError] *)
Definition trust_text (e : TrustError) : string :=
  match e with
  | Io p src => fmt "cannot read {path}: {source}" [display p; io_text src]
  | TooLarge p limit => fmt "{path} is larger than the {limit}-byte limit" [display p; show_N limit]
  | InvalidKey n r => fmt "invalid public key in {source_name}: {reason}" [n; r]
  | InvalidSignature p r => fmt "invalid signature file {path}: {reason}" [display p; r]
  | Unsigned p s =>
      fmt "{path} is not signed: expected a signature at {signature_path} (pass a trusted key, or explicitly allow unsigned content)"
        [display p; display s]
  | Untrusted p => fmt "{path}: the signature does not verify with any trusted key" [display p]
  | NoTrustedKeys => "signed content was required but no trusted keys are configured"
  | KeyRevoked p i => fmt "{path}: signed by key {id}, which is revoked in the keyring" [display p; i]
  | KeyOutsideValidity p i w =>
      fmt "{path}: signed by key {id}, which is not valid at this time ({window})" [display p; i; w]
  | InvalidKeyring n r => fmt "invalid keyring {source_name}: {reason}" [n; r]
  | ThresholdRequiresBundle p t =>
      fmt "{path}: the keyring requires {threshold} signatures, but individually signed files carry one; distribute this content as a signed bundle"
        [display p; show_N t]
  end.

(** ** [add_keyring] *)

Definition valid_floor_name (n : string) : bool :=
  negb (bool_decide (n = "")) && (len n <=? 128)
  && forallb (λ b, is_ascii_alphanumeric b || (b =? 46) || (b =? 95) || (b =? 45)) (as_bytes n).

Definition add_floor (f : BundleFloor) (ks : TrustedKeys) : TrustedKeys :=
  mkKeys (keys ks) (threshold_field ks)
    (<[floor_name f := N.max (default 0 (min_sequences ks !! floor_name f)) (min_sequence_of f)]>
       (min_sequences ks)).

Fixpoint add_floors (i : N) (fs : list BundleFloor) (ks : TrustedKeys)
    : result string unit * TrustedKeys :=
  match fs with
  | [] => (Ok tt, ks)
  | f :: fs =>
      if negb (valid_floor_name (floor_name f))
      then (Err (fmt "bundles[{i}].name is invalid" [show_N i]), ks)
      else add_floors (i + 1) fs (add_floor f ks)
  end.

(** [Option::max] and the match on [not_after]. *)
Definition opt_max (a b : option Z) : option Z :=
  match a, b with
  | Some a, Some b => Some (Z.max a b)
  | None, _ => b
  | _, None => a
  end.
Definition opt_min (a b : option Z) : option Z :=
  match a, b with
  | Some a, Some b => Some (Z.min a b)
  | None, _ => b
  | _, None => a
  end.

(** What a keyring entry does to its key. *)
Definition restrict (existed : bool) (e : KeyringEntry) (k : TrustedKey) : TrustedKey :=
  mkKey (id k) (key k)
    (if existed then base.filter (λ r, r ∈ entry_roles e) (roles k) else entry_roles e)
    (opt_max (not_before k) (entry_not_before e))
    (opt_min (not_after k) (entry_not_after e))
    (revoked k || entry_revoked e).

(** [if let Some(k) = keys.iter_mut().find(|k| k.id == id) { .. }] *)
Fixpoint update_key (i : KeyId) (f : TrustedKey → TrustedKey) (l : list TrustedKey)
    : list TrustedKey :=
  match l with
  | [] => []
  | k :: l => if bool_decide (id k = i) then f k :: l else k :: update_key i f l
  end.

(** The checks of an entry before its key is added. *)
Definition check_entry (i : N) (e : KeyringEntry) : result string unit :=
  _ ← reject_if (match description e with
                 | Some d => (1024 <? len d) || Text.has_unsafe_chars d false
                 | None => false
                 end) (fmt "keys[{i}].description is invalid" [show_N i]);
  _ ← reject_if (match entry_not_before e, entry_not_after e with
                 | Some a, Some b => (b <? a)%Z
                 | _, _ => false
                 end) (fmt "keys[{i}]: not_before is after not_after" [show_N i]);
  reject_if (bool_decide (entry_roles e = []))
    (fmt "keys[{i}]: roles must not be empty" [show_N i]).

Definition existed (e : KeyringEntry) (ks : TrustedKeys) : bool :=
  existsb (λ k, bool_decide (base64_decode (public_key e) ≫= id_slice = Some (id k))) (keys ks).

Definition add_entry (i : N) (e : KeyringEntry) (source_name : string) (ks : TrustedKeys)
    : result string KeyId * TrustedKeys :=
  match check_entry i e with
  | Err why => (Err why, ks)
  | Ok _ =>
      let was := existed e ks in
      match add_key_text (public_key e) source_name ks with
      | (Err e, ks) => (Err (fmt "keys[{i}]: {e}" [show_N i; trust_text e]), ks)
      | (Ok k, ks) =>
          if negb (eq_ignore_ascii_case (KeyId.to_string k) (entry_id e))
          then (Err (fmt "keys[{i}]: id {:?} does not match the public key ({id})"
                       [show_N i; debug_str (entry_id e); KeyId.to_string k]), ks)
          else (Ok k, set_keys (update_key k (restrict was e) (keys ks)) ks)
      end
  end.

Fixpoint add_entries (i : N) (es : list KeyringEntry) (source_name : string) (ks : TrustedKeys)
    : result string (list KeyId) * TrustedKeys :=
  match es with
  | [] => (Ok [], ks)
  | e :: es =>
      match add_entry i e source_name ks with
      | (Err why, ks) => (Err why, ks)
      | (Ok k, ks) =>
          let '(r, ks) := add_entries (i + 1) es source_name ks in (map_ok (cons k) r, ks)
      end
  end.

(** The checks on the whole file, before anything changes. *)
Definition check_keyring (f : KeyringFile) : result string unit :=
  _ ← reject_if (negb (bool_decide (format f = KEYRING_FORMAT)))
        (fmt "format must be {KEYRING_FORMAT:?}" [debug_str KEYRING_FORMAT]);
  _ ← reject_if (negb (format_version f =? 1))
        (fmt "unsupported format_version {}" [show_N (format_version f)]);
  _ ← reject_if (MAX_KEYRING_KEYS <? vlen (entries f))
        (fmt "more than {MAX_KEYRING_KEYS} keys" [show_N MAX_KEYRING_KEYS]);
  reject_if (match policy f with
             | Some p => negb ((1 <=? policy_threshold p) && (policy_threshold p <=? MAX_THRESHOLD))
             | None => false
             end) (fmt "policy.threshold must be between 1 and {MAX_THRESHOLD}" [show_N MAX_THRESHOLD]).

Definition raise_threshold (p : option KeyringPolicy) (ks : TrustedKeys) : TrustedKeys :=
  match p with
  | Some p => mkKeys (keys ks) (N.max (threshold_field ks) (policy_threshold p)) (min_sequences ks)
  | None => ks
  end.

(** [add_keyring]: what changed before an error stays changed. *)
Definition add_keyring `{Json KeyringFile} (json : bytes) (source_name : string) (ks : TrustedKeys)
    : result TrustError (list KeyId) * TrustedKeys :=
  let invalid {A} (r : result string A) := map_err (InvalidKeyring source_name) r in
  match (f ← from_slice json; _ ← check_keyring f; Ok f) with
  | Err why => (Err (InvalidKeyring source_name why), ks)
  | Ok f =>
      match add_floors 0 (bundles f) (raise_threshold (policy f) ks) with
      | (Err why, ks) => (Err (InvalidKeyring source_name why), ks)
      | (Ok _, ks) =>
          let '(r, ks) := add_entries 0 (entries f) source_name ks in (invalid r, ks)
      end
  end.

(** ** Verification *)

(** The loop of [verify_role] over the keys holding the role. *)
Fixpoint verify_loop (l : list TrustedKey) (bs : bytes) (sig : Signature) (p : path) (now : Z)
    : result TrustError (KeyId * string) :=
  match l with
  | [] => Err (Untrusted p)
  | k :: l =>
      if verify_sig (key k) bs sig false then
        if revoked k then Err (KeyRevoked p (KeyId.to_string (id k)))
        else if negb (valid_at k now)
        then Err (KeyOutsideValidity p (KeyId.to_string (id k)) (window k))
        else Ok (id k, trusted_comment sig)
      else verify_loop l bs sig p now
  end.

Definition verify_role (ks : TrustedKeys) (bs : bytes) (signature_text : string) (p : path) (now : Z)
    (role : KeyRole) : result TrustError (KeyId * string) :=
  sig ← map_err (InvalidSignature p) (sig_decode signature_text);
  verify_loop (base.filter (λ k, role ∈ roles k) (keys ks)) bs sig p now.

Definition verify (ks : TrustedKeys) (bs : bytes) (signature_text : string) (p : path) (now : Z)
    : result TrustError (KeyId * string) := verify_role ks bs signature_text p now Content.

(** ** Files *)

Record LoadedContent := mkLoaded {
  loaded_path : path;
  loaded_data : bytes;
  signer : option KeyId;
  loaded_comment : option string }.

Definition signature_path (p : path) : path := (p +:+ ".minisig")%string.

(** [read_bounded]: an error after more than [limit] octets is not reached. *)
Definition read_bounded (files : Files) (p : path) (limit : N) : result TrustError bytes :=
  f ← map_err (Io p) (files p);
  _ ← (if vlen (octets f) <=? limit
       then match failure f with Some e => Err (Io p e) | None => Ok tt end
       else Err (TooLarge p limit));
  Ok (octets f).

Definition add_keyring_file `{Json KeyringFile} (files : Files) (p : path) (ks : TrustedKeys)
    : result TrustError (list KeyId) * TrustedKeys :=
  match read_bounded files p MAX_KEYRING_BYTES with
  | Err e => (Err e, ks)
  | Ok bs => add_keyring bs (display p) ks
  end.

Definition add_key_file (files : Files) (p : path) (ks : TrustedKeys)
    : result TrustError KeyId * TrustedKeys :=
  match (bs ← read_bounded files p MAX_KEY_BYTES;
         ok_or (from_utf8 bs) (InvalidKey (display p) "not UTF-8")) with
  | Err e => (Err e, ks)
  | Ok text => add_key_text text (display p) ks
  end.

Definition load_content (files : Files) (now : Z) (p : path) (max_bytes : N) (ks : TrustedKeys)
    (pol : SignaturePolicy) : result TrustError LoadedContent :=
  _ ← reject_if (bool_decide (pol = RequireTrusted) && is_empty ks) NoTrustedKeys;
  let threshold_error := ThresholdRequiresBundle p (threshold ks) in
  _ ← reject_if (bool_decide (pol = RequireTrusted) && (1 <? threshold ks)) threshold_error;
  bs ← read_bounded files p max_bytes;
  let sig_path := signature_path p in
  sig ← match read_bounded files sig_path MAX_SIGNATURE_BYTES with
        | Ok s => Ok (Some s)
        | Err (Io q e) => if is_not_found e then Ok None else Err (Io q e)
        | Err e => Err e
        end;
  match sig with
  | None =>
      if bool_decide (pol = AllowUnsigned) then Ok (mkLoaded p bs None None)
      else Err (Unsigned p sig_path)
  | Some sig =>
      _ ← reject_if (1 <? threshold ks) threshold_error;
      text ← ok_or (from_utf8 sig) (InvalidSignature sig_path "not UTF-8");
      '(i, c) ← verify ks bs text p now;
      Ok (mkLoaded p bs (Some i) (Some c))
  end.

(** ** What a change of the key set may do *)

(** [k'] is [k] with no more rights; its roles too, when [R] holds. *)
Record narrows (R : Prop) (k k' : TrustedKey) : Prop := {
  narrows_id : id k' = id k;
  narrows_key : key k' = key k;
  narrows_revoked : revoked k = true → revoked k' = true;
  narrows_window now : valid_at k' now = true → valid_at k now = true;
  narrows_roles : R → roles k' ⊆ roles k }.

Record restricts (R : Prop) (ks ks' : TrustedKeys) : Prop := {
  restricts_keys : ∃ old new, keys ks' = old ++ new ∧ Forall2 (narrows R) (keys ks) old;
  restricts_threshold : threshold ks ≤ threshold ks';
  restricts_floors n s : min_sequence ks n = Some s → ∃ s', min_sequence ks' n = Some s' ∧ s ≤ s' }.

(** The ways a key set changes. *)
Inductive step `{Json KeyringFile} (ks : TrustedKeys) : TrustedKeys → Prop :=
  | step_key text name : step ks (add_key_text text name ks).2
  | step_keyring json name : step ks (add_keyring json name ks).2
  | step_revoke i : step ks (revoke i ks).2.

(** A key written without white space or comment around it. *)
Definition bare (e : KeyringEntry) : Prop := key_line (public_key e) = Some (public_key e).

(** A signature by a key that may sign for [role] now. *)
Definition authentic (ks : TrustedKeys) (role : KeyRole) (now : Z) (bs : bytes) (text : string)
    (i : KeyId) (c : string) : Prop :=
  ∃ k sig, k ∈ keys ks ∧ id k = i ∧ role ∈ roles k ∧ revoked k = false ∧ valid_at k now = true ∧
    sig_decode text = Ok sig ∧ verify_sig (key k) bs sig false = true ∧ trusted_comment sig = c.

Definition distinct (ks : TrustedKeys) : Prop := NoDup (id <$> keys ks).

#[export] Instance narrows_preorder R : PreOrder (narrows R).
Proof.
  split; [by split|]. intros a b c [i1 k1 r1 w1 o1] [i2 k2 r2 w2 o2].
  split; [congruence|congruence|auto|auto|]. intros HR. by etrans; [apply o2|apply o1].
Qed.

#[export] Instance restricts_preorder R : PreOrder (restricts R).
Proof.
  split.
  - intros ks. split; [|done|eauto]. exists (keys ks), []. rewrite app_nil_r. split; [done|].
    reflexivity.
  - intros a b c [(o1 & n1 & E1 & H1) t1 f1] [(o2 & n2 & E2 & H2) t2 f2]. split; [|lia|].
    + rewrite E1 in H2. apply Forall2_app_inv_l in H2 as (o2' & n2' & Ho & Hn & ->).
      exists o2', (n2' ++ n2). rewrite app_assoc. split; [done|]. by etrans.
    + intros n s Hs. destruct (f1 n s Hs) as (s' & Hs' & ?). destruct (f2 n s' Hs') as (s'' & ? & ?).
      exists s''. split; [done|lia].
Qed.

Lemma narrows_weaken (R R' : Prop) k k' : (R' → R) → narrows R k k' → narrows R' k k'.
Proof. intros HR []. split; auto. Qed.

Lemma restricts_weaken (R R' : Prop) ks ks' : (R' → R) → restricts R ks ks' → restricts R' ks ks'.
Proof.
  intros HR [(o & n & E & HF) ? ?]. split; [|done..]. exists o, n. split; [done|].
  eapply Forall2_impl; [exact HF|]. intros. by eapply narrows_weaken.
Qed.

Lemma set_keys_restricts R ks old new :
  Forall2 (narrows R) (keys ks) old → restricts R ks (set_keys (old ++ new) ks).
Proof. intros HF. split; [by exists old, new|done|eauto]. Qed.

Lemma existsb_fmap_id i l : existsb (λ k', bool_decide (id k' = i)) l = true ↔ i ∈ id <$> l.
Proof.
  rewrite existsb_true, list_elem_of_fmap. setoid_rewrite bool_decide_eq_true. naive_solver.
Qed.

(** *** Adding a key *)

Lemma add_key_text_cases text name ks r ks' :
  add_key_text text name ks = (r, ks') →
  ks' = ks ∧ (∀ i, r = Ok i → i ∈ id <$> keys ks) ∨
  ∃ i k, r = Ok i ∧ (i ∉ id <$> keys ks) ∧
    ks' = set_keys (keys ks ++ [mkKey i k content_role None None false]) ks.
Proof.
  unfold add_key_text. intros E.
  destruct (_ ≫= _) as [[k i]|e]; [destruct (existsb _ _) eqn:Ex|]; simplify_eq.
  - left. split; [done|]. intros j [= <-]. by apply existsb_fmap_id.
  - right. eexists _, _. split; [done|]. split; [|done]. intros Hin%existsb_fmap_id. congruence.
  - left. split; [done|]. by intros i [=].
Qed.

Lemma add_key_text_restricts R text name ks : restricts R ks (add_key_text text name ks).2.
Proof.
  destruct (add_key_text text name ks) as [r ks'] eqn:E.
  destruct (add_key_text_cases _ _ _ _ _ E) as [[-> _]|(i & k & _ & _ & ->)]; simpl; [done|].
  by apply set_keys_restricts, Reflexive_instance_0.
Qed.

Lemma add_key_text_distinct text name ks : distinct ks → distinct (add_key_text text name ks).2.
Proof.
  intros HD. destruct (add_key_text text name ks) as [r ks'] eqn:E.
  destruct (add_key_text_cases _ _ _ _ _ E) as [[-> _]|(i & k & _ & Hn & ->)]; simpl; [done|].
  unfold distinct in *. simpl. rewrite fmap_app. apply NoDup_app. split; [done|].
  split; [|apply NoDup_singleton]. intros j Hj ->%list_elem_of_singleton. done.
Qed.

(** The ID of a key is read from its text. *)
Lemma add_key_text_id text name ks i ks' :
  add_key_text text name ks = (Ok i, ks') →
  ∃ b64, key_line text = Some b64 ∧ base64_decode b64 ≫= id_slice = Some i.
Proof.
  unfold add_key_text. intros E. destruct (_ ≫= _) as [[k j]|e] eqn:P; simplify_eq.
  inv_result. simplify_eq. eexists. split; [done|]. by simplify_option_eq.
Qed.

(** *** Keyrings *)

Lemma add_floors_restricts R i fs ks r ks' :
  add_floors i fs ks = (r, ks') → restricts R ks ks' ∧ keys ks' = keys ks.
Proof.
  revert i ks. induction fs as [|f fs IH]; intros i ks E; simpl in E; [by simplify_eq|].
  destruct (negb _); [by simplify_eq|]. apply IH in E as [E Ek]. split; [|done].
  etrans; [|exact E]. split; [|done|].
  - exists (keys ks), []. rewrite app_nil_r. split; [done|]. reflexivity.
  - intros n s Hs. unfold min_sequence in *. simpl.
    destruct (decide (n = floor_name f)) as [->|Hn].
    + rewrite lookup_insert_eq, Hs. eexists. split; [done|]. simpl. lia.
    + rewrite lookup_insert_ne by done. eauto.
Qed.

Lemma raise_threshold_restricts R p ks : restricts R ks (raise_threshold p ks).
Proof.
  destruct p as [p|]; simpl; [|done]. split; [| |eauto].
  - exists (keys ks), []. rewrite app_nil_r. split; [done|]. reflexivity.
  - unfold threshold. simpl. lia.
Qed.

Lemma restrict_narrows was e k : narrows (was = true) k (restrict was e k).
Proof.
  split; simpl; [done|done|by intros ->| |].
  - intros now. unfold valid_at, is_none_or. simpl. rewrite !andb_true_iff.
    destruct (not_before k), (entry_not_before e), (not_after k), (entry_not_after e); simpl; lia.
  - intros -> r Hr. by apply list_elem_of_filter in Hr as [_ ?].
Qed.

(** Only the key with the ID changes. *)
Lemma update_key_Forall2 R i f l :
  (∀ k, k ∈ l → id k = i → narrows R k (f k)) → Forall2 (narrows R) l (update_key i f l).
Proof.
  induction l as [|k l IH]; intros Hf; simpl; [constructor|]. case_bool_decide.
  - constructor; [apply Hf; [left|done]|]. reflexivity.
  - constructor; [done|]. apply IH. intros k' ?. apply Hf. by right.
Qed.

Lemma update_key_app i f l k :
  (i ∉ id <$> l) → id k = i → update_key i f (l ++ [k]) = l ++ [f k].
Proof.
  intros Hn Hk. induction l as [|x l IH]; simpl; [by rewrite bool_decide_eq_true_2|].
  rewrite fmap_cons, not_elem_of_cons in Hn. destruct Hn.
  rewrite bool_decide_eq_false_2 by congruence. by rewrite IH.
Qed.

Lemma update_key_ids i f l : (∀ k, id (f k) = id k) → id <$> update_key i f l = id <$> l.
Proof.
  intros Hf. induction l as [|k l IH]; simpl; [done|]. case_bool_decide; csimpl; congruence.
Qed.

Lemma update_key_elem i f l : i ∈ id <$> l → ∃ k, k ∈ l ∧ id k = i ∧ f k ∈ update_key i f l.
Proof.
  induction l as [|k l IH]; csimpl; [by intros ?%not_elem_of_nil|]. intros Hi.
  case_bool_decide as Hk.
  - exists k. repeat split; [by left|done|by left].
  - apply elem_of_cons in Hi as [?|Hi]; [congruence|].
    destruct (IH Hi) as (k' & ? & ? & ?). exists k'. repeat split; [by right|done|by right].
Qed.

Lemma existed_spec e ks i :
  base64_decode (public_key e) ≫= id_slice = Some i → existed e ks = true ↔ i ∈ id <$> keys ks.
Proof.
  intros Hi. unfold existed. rewrite existsb_true, list_elem_of_fmap.
  setoid_rewrite bool_decide_eq_true. rewrite Hi. naive_solver.
Qed.

Lemma add_entry_inv i e name ks k ks' :
  add_entry i e name ks = (Ok k, ks') →
  ∃ ks1, add_key_text (public_key e) name ks = (Ok k, ks1) ∧
    ks' = set_keys (update_key k (restrict (existed e ks) e) (keys ks1)) ks1.
Proof.
  unfold add_entry. intros E. destruct (check_entry i e); [|done].
  destruct (add_key_text _ _ _) as [[k'|] ks1]; [|done].
  destruct (negb _); simplify_eq. eauto.
Qed.

Lemma add_entry_restricts i e name ks r ks' :
  add_entry i e name ks = (r, ks') → restricts (bare e) ks ks'.
Proof.
  intros E. pose proof (add_key_text_restricts (bare e) (public_key e) name ks) as Ha.
  destruct r as [k|why].
  - apply add_entry_inv in E as (ks1 & E & ->).
    destruct (add_key_text_id _ _ _ _ _ E) as (b64 & Hl & Hb).
    assert (bare e → existed e ks = true ↔ k ∈ id <$> keys ks) as Hex.
    { intros He. apply existed_spec. unfold bare in He. congruence. }
    destruct (add_key_text_cases _ _ _ _ _ E) as [[-> Hin]|(j & key' & [= <-] & Hn & ->)].
    + rewrite <-(app_nil_r (update_key _ _ _)). apply set_keys_restricts, update_key_Forall2.
      intros x Hx Hid. eapply narrows_weaken; [|apply restrict_narrows]. intros He.
      apply Hex; auto.
    + simpl. rewrite update_key_app by done.
      apply (set_keys_restricts _ ks). reflexivity.
  - unfold add_entry in E. destruct (check_entry i e); [|by simplify_eq].
    destruct (add_key_text _ _ _) as [[k'|] ks1]; [|by simplify_eq].
    by destruct (negb _); simplify_eq.
Qed.

Lemma add_entry_distinct i e name ks r ks' :
  add_entry i e name ks = (r, ks') → distinct ks → distinct ks'.
Proof.
  intros E HD. pose proof (add_key_text_distinct (public_key e) name ks HD) as HD'.
  unfold add_entry in E. destruct (check_entry i e); [|by simplify_eq].
  destruct (add_key_text _ _ _) as [[k'|] ks1]; [|by simplify_eq].
  destruct (negb _); simplify_eq; [done|]. unfold distinct. simpl.
  by rewrite update_key_ids.
Qed.

Lemma add_entries_restricts i es name ks r ks' :
  add_entries i es name ks = (r, ks') → restricts (Forall bare es) ks ks'.
Proof.
  revert i ks r. induction es as [|e es IH]; intros i ks r E; simpl in E; [by simplify_eq|].
  destruct (add_entry i e name ks) as [[k|] ks1] eqn:Ee.
  - destruct (add_entries _ _ _ _) as [r2 ks2] eqn:E2. simplify_eq. etrans.
    + eapply restricts_weaken; [|by eapply add_entry_restricts]. by intros [? _]%Forall_cons.
    + eapply restricts_weaken; [|by eapply IH]. by intros [_ ?]%Forall_cons.
  - simplify_eq. eapply restricts_weaken; [|by eapply add_entry_restricts].
    by intros [? _]%Forall_cons.
Qed.

Lemma add_entries_distinct i es name ks r ks' :
  add_entries i es name ks = (r, ks') → distinct ks → distinct ks'.
Proof.
  revert i ks r. induction es as [|e es IH]; intros i ks r E HD; simpl in E; [by simplify_eq|].
  destruct (add_entry i e name ks) as [[k|] ks1] eqn:Ee;
    [destruct (add_entries _ _ _ _) as [r2 ks2] eqn:E2|]; simplify_eq;
    eauto using add_entry_distinct.
Qed.

Section File.
Context `{J : Json KeyringFile}.

Lemma add_keyring_restricts json name ks :
  restricts (∀ f, from_slice json = Ok f → Forall bare (entries f)) ks (add_keyring json name ks).2.
Proof.
  unfold add_keyring. destruct (_ ≫= _) as [f|why] eqn:E; simpl; [|done]. inv_result. subst.
  destruct (add_floors 0 _ _) as [r1 ks1] eqn:E1.
  pose proof (add_floors_restricts (Forall bare (entries f)) _ _ _ _ _ E1) as [H1 _].
  eapply restricts_weaken; [intros HR; by apply HR|].
  etrans; [apply raise_threshold_restricts|]. etrans; [exact H1|].
  destruct r1 as [[]|]; [|done].
  destruct (add_entries 0 _ _ _) as [r2 ks2] eqn:E2. by eapply add_entries_restricts.
Qed.

Lemma add_keyring_distinct json name ks : distinct ks → distinct (add_keyring json name ks).2.
Proof.
  intros HD. unfold add_keyring. destruct (_ ≫= _) as [f|why] eqn:E; simpl; [|done].
  destruct (add_floors 0 _ _) as [r1 ks1] eqn:E1.
  pose proof (add_floors_restricts True _ _ _ _ _ E1) as [_ Hk].
  assert (distinct ks1) by (unfold distinct; rewrite Hk; by destruct (policy f)).
  destruct r1 as [[]|]; [|done].
  destruct (add_entries 0 _ _ _) as [r2 ks2] eqn:E2. by eapply add_entries_distinct.
Qed.

Lemma step_restricts ks ks' : step ks ks' → restricts False ks ks'.
Proof.
  intros [text name|json name|i].
  - apply add_key_text_restricts.
  - eapply restricts_weaken; [|apply add_keyring_restricts]. done.
  - simpl. rewrite <-(app_nil_r (_ <$> _)). apply set_keys_restricts.
    apply Forall2_fmap_r, Forall_Forall2_diag, Forall_true. intros k. simpl.
    destruct (eq_ignore_ascii_case (KeyId.to_string (id k)) i);
      [by split|reflexivity].
Qed.

Lemma step_distinct ks ks' : step ks ks' → distinct ks → distinct ks'.
Proof.
  intros [text name|json name|i] HD.
  - by apply add_key_text_distinct.
  - by apply add_keyring_distinct.
  - unfold distinct in *. simpl. rewrite <-list_fmap_compose.
    rewrite (list_fmap_ext _ id (keys ks)); [done|]. intros _ k _. simpl. by destruct (eq_ignore_ascii_case (KeyId.to_string (id k)) i).
Qed.

Lemma steps_restrict ks ks' : rtc step ks ks' → restricts False ks ks'.
Proof. induction 1; [done|]. etrans; [by apply step_restricts|done]. Qed.
Lemma steps_distinct ks ks' : rtc step ks ks' → distinct ks → distinct ks'.
Proof. induction 1; eauto using step_distinct. Qed.
Lemma new_distinct : distinct new.
Proof. apply NoDup_nil_2. Qed.
End File.

Lemma restricts_elem R ks ks' k :
  restricts R ks ks' → k ∈ keys ks → ∃ k', k' ∈ keys ks' ∧ narrows R k k'.
Proof.
  intros [(old & new & E & HF) _ _] Hk. apply list_elem_of_lookup in Hk as [n Hn].
  destruct (Forall2_lookup_l _ _ _ _ _ HF Hn) as (k' & Hk' & ?). exists k'. split; [|done].
  rewrite E. apply elem_of_app. left. by eapply list_elem_of_lookup_2.
Qed.

(** *** Verification *)

Lemma verify_loop_Ok l bs sig p now i c :
  verify_loop l bs sig p now = Ok (i, c) →
  ∃ k, k ∈ l ∧ id k = i ∧ revoked k = false ∧ valid_at k now = true ∧
    verify_sig (key k) bs sig false = true ∧ trusted_comment sig = c.
Proof.
  induction l as [|k l IH]; simpl; [done|]. destruct (verify_sig _ _ _ _) eqn:Ev.
  - destruct (revoked k) eqn:Er; [done|]. destruct (valid_at k now) eqn:Ea; [|done].
    intros [= <- <-]. exists k. repeat split; auto. left.
  - intros (k' & ? & ?)%IH. exists k'. split; [by right|done].
Qed.

Lemma verify_role_authentic ks bs text p now role i c :
  verify_role ks bs text p now role = Ok (i, c) → authentic ks role now bs text i c.
Proof.
  intros E. unfold verify_role in E. inv_result.
  apply verify_loop_Ok in E as (k & Hk & ? & ? & ? & ? & ?).
  apply list_elem_of_filter in Hk as [? ?]. exists k. eexists. eauto 10.
Qed.

Lemma distinct_unique ks k k' :
  distinct ks → k ∈ keys ks → k' ∈ keys ks → id k = id k' → k = k'.
Proof.
  unfold distinct. intros HD [n Hn]%list_elem_of_lookup [n' Hn']%list_elem_of_lookup Hid.
  assert (n = n') as ->.
  { eapply NoDup_lookup; [exact HD|rewrite list_lookup_fmap, Hn; done|].
    by rewrite list_lookup_fmap, Hn', Hid. }
  congruence.
Qed.

(** A signer that verified is the one key with its ID. *)
Lemma verify_role_key ks bs text p now role i c k :
  distinct ks → k ∈ keys ks → id k = i → verify_role ks bs text p now role = Ok (i, c) →
  revoked k = false ∧ valid_at k now = true ∧ role ∈ roles k.
Proof.
  intros HD Hk Hid Hv. apply verify_role_authentic in Hv as (k' & sig & Hk' & Hid' & ? & ? & ? & _).
  assert (k = k') as -> by (eapply distinct_unique; eauto; congruence). done.
Qed.

(** The window of a keyring entry. *)
Definition in_window (e : KeyringEntry) (now : Z) : bool :=
  is_none_or (λ t, (t <=? now)%Z) (entry_not_before e)
  && is_none_or (λ t, (now <=? t)%Z) (entry_not_after e).

(** The key with ID [i] obeys the entry [e]. *)
Definition obeys (R : Prop) (ks : TrustedKeys) (e : KeyringEntry) (i : KeyId) : Prop :=
  ∃ k, k ∈ keys ks ∧ id k = i ∧ (entry_revoked e = true → revoked k = true) ∧
    (∀ now, valid_at k now = true → in_window e now = true) ∧ (R → roles k ⊆ entry_roles e).

Lemma obeys_restricts R ks ks' e i : restricts R ks ks' → obeys R ks e i → obeys R ks' e i.
Proof.
  intros HR (k & Hk & Hid & Hr & Hw & Ho).
  destruct (restricts_elem _ _ _ _ HR Hk) as (k' & Hk' & [Hi' _ Hr' Hw' Ho']).
  exists k'. split; [done|]. split; [congruence|]. split; [auto|]. split; [auto|].
  intros H. etrans; [by apply Ho'|by apply Ho].
Qed.

Lemma restrict_obeys was e k :
  (entry_revoked e = true → revoked (restrict was e k) = true) ∧
  (∀ now, valid_at (restrict was e k) now = true → in_window e now = true) ∧
  roles (restrict was e k) ⊆ entry_roles e.
Proof.
  split; [|split].
  - simpl. intros ->. apply orb_true_r.
  - intros now. unfold valid_at, in_window, is_none_or. simpl. rewrite !andb_true_iff.
    destruct (not_before k), (entry_not_before e), (not_after k), (entry_not_after e); simpl; lia.
  - simpl. destruct was; [|done]. intros r Hr. by apply list_elem_of_filter in Hr as [? _].
Qed.

Lemma add_entry_obeys n e name ks i ks' :
  add_entry n e name ks = (Ok i, ks') → obeys True ks' e i.
Proof.
  intros E. apply add_entry_inv in E as (ks1 & E & ->).
  assert (i ∈ id <$> keys ks1) as Hi.
  { destruct (add_key_text_cases _ _ _ _ _ E) as [[-> Hin]|(j & key' & [= <-] & _ & ->)]; [auto|].
    simpl. rewrite fmap_app. apply elem_of_app. right. by left. }
  destruct (update_key_elem i (restrict (existed e ks) e) _ Hi) as (k & _ & Hid & Hin).
  destruct (restrict_obeys (existed e ks) e k) as (? & ? & ?).
  eexists. split; [exact Hin|]. auto.
Qed.

Lemma add_entries_obey n es name ks ids ks' :
  add_entries n es name ks = (Ok ids, ks') → Forall2 (obeys (Forall bare es) ks') es ids.
Proof.
  revert n ks ids. induction es as [|e es IH]; intros n ks ids E; simpl in E; [by simplify_eq|].
  destruct (add_entry n e name ks) as [[i|] ks1] eqn:Ee; [|by simplify_eq].
  destruct (add_entries _ _ _ _) as [[ids2|] ks2] eqn:E2; simpl in *; simplify_eq.
  assert (∀ R R' k e' i', (R' → R) → obeys R k e' i' → obeys R' k e' i') as Hw.
  { intros R R' k e' i' HR (x & ? & ? & ? & ? & ?). exists x. eauto 10. }
  constructor.
  - apply (Hw (Forall bare es)); [by intros [_ ?]%Forall_cons|].
    eapply obeys_restricts; [by eapply add_entries_restricts|].
    eapply (Hw True); [done|]. by eapply add_entry_obeys.
  - eapply Forall2_impl; [by eapply IH|]. intros e' i'. apply Hw. by intros [_ ?]%Forall_cons.
Qed.

Lemma add_keyring_obeys `{J : Json KeyringFile} json name ks ids ks' :
  add_keyring json name ks = (Ok ids, ks') →
  ∃ f, from_slice json = Ok f ∧ Forall2 (obeys (Forall bare (entries f)) ks') (entries f) ids.
Proof.
  intros E. unfold add_keyring in E. destruct (_ ≫= _) as [f|why] eqn:Ef; [|done]. inv_result. subst.
  destruct (add_floors 0 _ _) as [[[]|] ks1]; [|done].
  destruct (add_entries 0 _ _ _) as [[ids2|] ks2] eqn:E2; simpl in *; simplify_eq.
  exists f. split; [done|]. by eapply add_entries_obey.
Qed.

End Keys.
End Trust.

(** ** Properties *)
Module TrustProps.
Import Trust.

Section Props.
Context `{MS : Minisign, ST : StdText, TT : TimeText, J : Json KeyringFile}.

(** C8: loading a keyring, whether it succeeds or fails half way, never gives
    a key already trusted more rights: every key keeps its place, revocation
    stays, its validity window only narrows, the signature threshold and the
    per-bundle sequence floors only rise, and, when the public keys of the
    file are written without surrounding white space, roles only narrow. *)
Theorem keyring_only_restricts ks json name :
  restricts (∀ f, from_slice json = Ok f → Forall bare (entries f)) ks (add_keyring json name ks).2.
Proof. apply add_keyring_restricts. Qed.

(** C7: in a key set built from the empty one by adding keys, keyrings and
    revocations in any order, a revoked key stays unusable: after any further
    such operations no signature is accepted as made by its ID, in any role
    and at any time. *)
Theorem revocation_is_permanent ks ks' k bs text p now role c
    (Hb : rtc step new ks) (Hk : k ∈ keys ks) (Hr : revoked k = true) (Hs : rtc step ks ks') :
  verify_role ks' bs text p now role ≠ Ok (id k, c).
Proof.
  intros Hv. destruct (restricts_elem _ _ _ k (steps_restrict _ _ Hs) Hk) as (k' & Hk' & [Hi _ Hr' _ _]).
  eapply verify_role_key in Hv as (? & _); [|by eauto using steps_distinct, new_distinct|exact Hk'|done].
  rewrite Hr' in *; done.
Qed.

(** After a keyring was loaded without error, each entry binds the ID
    reported for it: a signature is accepted as made by that ID only if the
    entry is not revoked and its window contains the time of the check, and,
    when the file writes its public keys without white space around them,
    only in a role the entry lists. *)
Theorem keyring_enforced ks json name ids ks' n e i bs text p now role c f
    (Hb : rtc step new ks) (Hf : from_slice json = Ok f)
    (Ha : add_keyring json name ks = (Ok ids, ks'))
    (He : entries f !! n = Some e) (Hi : ids !! n = Some i)
    (Hv : verify_role ks' bs text p now role = Ok (i, c)) :
  entry_revoked e = false ∧ in_window e now = true ∧
  (Forall bare (entries f) → role ∈ entry_roles e).
Proof.
  assert (distinct ks') as HD.
  { change ks' with ((Ok (E:=TrustError) ids, ks').2). rewrite <-Ha.
    apply add_keyring_distinct. by eauto using steps_distinct, new_distinct. }
  apply add_keyring_obeys in Ha as (f' & Hf' & HF).
  rewrite Hf in Hf'. injection Hf' as <-.
  destruct (Forall2_lookup_lr _ _ _ _ _ _ HF He Hi) as (k & Hk & Hid & Hr & Hw & Ho).
  eapply verify_role_key in Hv as (Hr' & Hw' & Hro); [|done..].
  split; [|split; [by apply Hw|by intros ?; apply Ho]].
  destruct (entry_revoked e); [|done]. by rewrite Hr in Hr'.
Qed.

(** Content that [load_content] returns is exactly what the file holds,
    within the size limit, and either carries a signature over those octets
    by a trusted, unrevoked key with the content role whose window contains
    the time, or has no signature file and was loaded under [AllowUnsigned];
    no content is accepted on one signature when the threshold is higher. *)
Theorem load_content_authentic files now p max ks pol l
    (Hl : load_content files now p max ks pol = Ok l) :
  read_bounded files p max = Ok (loaded_data l) ∧
  match signer l with
  | Some i =>
      threshold ks = 1 ∧ ∃ bs text c, read_bounded files (signature_path p) MAX_SIGNATURE_BYTES = Ok bs ∧
        from_utf8 bs = Some text ∧ authentic ks Content now (loaded_data l) text i c
  | None =>
      pol = AllowUnsigned ∧ ∃ q e, is_not_found e = true ∧
        read_bounded files (signature_path p) MAX_SIGNATURE_BYTES = Err (Io q e)
  end.
Proof.
  unfold load_content in Hl. inv_result.
  destruct (read_bounded files (signature_path p) MAX_SIGNATURE_BYTES) as [sig|e] eqn:Es; inv_result; subst.
  - inv_result. match goal with x : (_ * _)%type |- _ => destruct x as [i c] end.
    inv_result. subst. simpl. split; [done|]. reflect_bools.
    split; [unfold threshold in *; lia|]. eexists _, _, c. split; [done|]. split; [done|].
    by eapply verify_role_authentic.
  - destruct e as [q e| | | | | | | | | |]; try done. destruct (is_not_found e) eqn:En; [|done].
    inv_result; subst. case_bool_decide; inv_result; subst. simpl. eauto 10.
Qed.

End Props.

(** ** Instances *)

(** Keys are any 42 octets of base64; a signature is the key followed by the
    content it signs. *)
Definition toy_minisign : Minisign := {|
  PublicKey := string;
  Signature := string;
  from_base64 s :=
    match base64_decode s with
    | Some r => if (length r =? 42)%nat then Ok s else Err "key length"%string
    | None => Err "base64"%string
    end;
  sig_decode s := Ok s;
  verify_sig k bs s _ := bool_decide (s = (k +:+ of_bytes bs)%string);
  trusted_comment _ := "comment"%string |}.

Definition key_a : string := of_bytes (repeat 65 56).
Definition key_b : string := of_bytes (repeat 66 56).
Definition id_a : KeyId := repeat 0 8.
Definition id_a_text : string := "0000000000000000".
Definition entry_a (pk : string) (rs : list KeyRole) (rev : bool) : KeyringEntry :=
  mkEntry id_a_text pk None None (Some 100%Z) rev rs.
Definition ring (e : KeyringEntry) : KeyringFile := mkKeyring KEYRING_FORMAT 1 [e] None [].

(** The keyring texts of the examples are numbered. *)
Definition toy_rings : Json KeyringFile := {|
  to_vec _ := Err "not written"%string;
  from_slice bs :=
    if bool_decide (bs = [1]) then Ok (ring (entry_a key_a [Content] false))
    else if bool_decide (bs = [2])
    then Ok (ring (entry_a (key_a +:+ " ") [Content; Timestamp] false))
    else Err "no such keyring"%string |}.

Section Samples.
#[local] Existing Instances toy_minisign toy_text toy_time toy_rings.

Definition with_a : TrustedKeys := (add_key_text key_a "a.pub" new).2.
Definition revoked_a : TrustedKeys := (revoke id_a_text with_a).2.
Definition with_b : TrustedKeys := (add_key_text key_b "b.pub" revoked_a).2.

Lemma revocation_is_permanent_witness :
  verify_role with_a [1] (key_a +:+ of_bytes [1])%string "f" 5 Content = Ok (id_a, "comment"%string) ∧
  verify_role with_b [1] (key_a +:+ of_bytes [1])%string "f" 5 Content ≠ Ok (id_a, "comment"%string).
Proof.
  split; [vm_compute; reflexivity|].
  apply (revocation_is_permanent revoked_a with_b (set_revoked true (mkKey (MS:=toy_minisign) id_a key_a [Content] None None false))).
  - eapply rtc_l; [apply (step_key new key_a "a.pub")|].
    eapply rtc_l; [apply (step_revoke with_a id_a_text)|]. apply rtc_refl.
  - vm_compute. left.
  - reflexivity.
  - eapply rtc_l; [apply (step_key revoked_a key_b "b.pub")|]. apply rtc_refl.
Defined.

Lemma keyring_enforced_witness :
  entry_revoked (entry_a key_a [Content] false) = false ∧
  in_window (entry_a key_a [Content] false) 5 = true ∧
  (Forall bare [entry_a key_a [Content] false] → Content ∈ [Content]).
Proof.
  apply (keyring_enforced new [1] "ring" [id_a] (add_keyring [1] "ring" new).2 0
           (entry_a key_a [Content] false) id_a [1] (key_a +:+ of_bytes [1])%string "f" 5 Content
           "comment"%string (ring (entry_a key_a [Content] false))).
  - apply rtc_refl.
  - reflexivity.
  - vm_compute. reflexivity.
  - reflexivity.
  - reflexivity.
  - vm_compute. reflexivity.
Defined.

Definition sample_files : Files := λ p,
  if bool_decide (p = "db"%string) then Ok (mkSource [1] None)
  else if bool_decide (p = "db.minisig"%string) then Ok (mkSource (as_bytes key_a ++ [1]) None)
  else Err (Os 2).

Lemma load_content_authentic_witness :
  let l := mkLoaded "db" [1] (Some id_a) (Some "comment"%string) in
  load_content sample_files 5 "db" 10 with_a RequireTrusted = Ok l ∧
  read_bounded sample_files "db" 10 = Ok (loaded_data l) ∧
  (threshold with_a = 1 ∧ ∃ bs text c,
     read_bounded sample_files (signature_path "db") MAX_SIGNATURE_BYTES = Ok bs ∧
     from_utf8 bs = Some text ∧ authentic with_a Content 5 (loaded_data l) text id_a c).
Proof.
  intros l. split; [vm_compute; reflexivity|].
  apply (load_content_authentic sample_files 5 "db" 10 with_a RequireTrusted l).
  vm_compute. reflexivity.
Defined.

(** A key trusted for content only also gets the timestamp role from a
    keyring that writes it with a space after it: [existed] decodes the text
    as it is written and does not find the key, although [add_key_text],
    which trims it, does. *)
Theorem padded_key_gains_role :
  roles <$> keys with_a = [[Content]] ∧
  (add_keyring [2] "ring" with_a).1 = Ok [id_a] ∧
  roles <$> keys (add_keyring [2] "ring" with_a).2 = [[Content; Timestamp]].
Proof. vm_compute. auto. Qed.

End Samples.
End TrustProps.
