(* ===== verification/Bundle.v ===== *)
(** * Signed content bundles

    [crates/engine/src/bundle.rs]. The directory a bundle is read from is a
    parameter: [Files] for the manifest and its signatures, and, for the
    listed files, what the [cap_std] directory delivers for a relative path. *)

From S2P Require Import Prelude Utf8 Paths Core External Trust.
Import Trust.

Module Bundle.

Definition MANIFEST_FILE : string := "manifest.json".
Definition MANIFEST_FORMAT : string := "abyssal-warden.content-manifest".
Definition MAX_MANIFEST_BYTES : N := 1024 * 1024.
Definition MAX_SIGNATURES : N := 16.
Definition MAX_REVOCATIONS : N := 64.
Definition MAX_FILES : N := 10000.
Definition MAX_CONTENT_FILE_BYTES : N := 256 * 1024 * 1024.
Definition MAX_NAME_LEN : N := 128.
Definition MAX_PATH_LEN : N := 512.

Inductive ContentKind := HashDatabase | YaraRules | Notice.
#[export] Instance ContentKind_eq_dec : EqDecision ContentKind.
Proof. solve_decision. Defined.

Record ManifestFile := mkFile {
  file_path : string;
  file_kind : ContentKind;
  file_size : N;
  file_sha256 : Sha256Digest }.

Record Manifest := mkManifest {
  format : string;
  format_version : N;
  name : string;
  sequence : N;
  issued : Z;
  expires : Z;
  files : list ManifestFile;
  revoke_keys : list string }.

(** [Manifest::new] *)
Definition new (name : string) (sequence : N) (issued expires : Z) : Manifest :=
  mkManifest MANIFEST_FORMAT 1 name sequence issued expires [] [].

Inductive BundleError :=
  | TrustErr (e : TrustError)
  | BundleUnsigned (dir signature : path)
  | InsufficientSignatures (dir : path) (valid required : N) (problems : list string)
  | InvalidManifest (reason : string)
  | Expired (name : string) (sequence : N) (expires : string)
  | FileError (p reason : string).

(** [valid_key_id], [valid_name], [valid_relative_path], [truncate] *)
Definition valid_key_id (i : string) : bool :=
  (len i =? 16) && forallb is_ascii_hexdigit (as_bytes i).

Definition name_byte (b : N) : bool :=
  is_ascii_alphanumeric b || (b =? 46) || (b =? 95) || (b =? 45).
Definition valid_name (n : string) : bool :=
  negb (bool_decide (n = "")) && (len n <=? MAX_NAME_LEN) && forallb name_byte (as_bytes n).

Definition normal_component (c : string) : bool :=
  negb (bool_decide (c = "")) && negb (bool_decide (c = ".")) && negb (bool_decide (c = "..")).
Definition valid_relative_path (p : string) : bool :=
  negb (bool_decide (p = "")) && (len p <=? MAX_PATH_LEN)
  && negb (contains_byte 92 p) && negb (contains_byte 58 p)
  && negb (Text.has_unsafe_chars p false)
  && forallb normal_component (split_on slash p).

Definition truncate (s : string) : string := of_chars (take 80 (chars s)).

(** A directory opened with [cap_std]: what a relative path delivers, as the
    octets and the error that ends them, if any; errors are their text. *)
Abbreviation Dir := (string → result string (bytes * option string)).

Section Bundles.
Context `{MS : Minisign, ST : StdText, TT : TimeText}.

(** The loop over the files in [validate]; [seen] is the set of paths. *)
Fixpoint check_files (seen : gset string) (fs : list ManifestFile) : result string unit :=
  match fs with
  | [] => Ok tt
  | f :: fs =>
      _ ← reject_if (negb (valid_relative_path (file_path f)))
            (fmt "invalid file path {:?}" [debug_str (truncate (file_path f))]);
      _ ← reject_if (bool_decide (file_path f ∈ seen))
            (fmt "duplicate file path {:?}" [debug_str (truncate (file_path f))]);
      _ ← reject_if (MAX_CONTENT_FILE_BYTES <? file_size f)
            (fmt "{} is larger than the file limit" [file_path f]);
      check_files ({[file_path f]} ∪ seen) fs
  end.

Definition check_revocations (ks : list string) : result string unit :=
  match head (base.filter (λ k, valid_key_id k = false) ks) with
  | Some k => Err (fmt "revoke_keys entry {:?} is not a 16-hex-digit key ID" [debug_str (truncate k)])
  | None => Ok tt
  end.

(** [Manifest::validate] *)
Definition validate (m : Manifest) : result BundleError unit :=
  map_err InvalidManifest (
    _ ← reject_if (negb (bool_decide (format m = MANIFEST_FORMAT)))
          (fmt "format must be {MANIFEST_FORMAT:?}" [debug_str MANIFEST_FORMAT]);
    _ ← reject_if (negb (format_version m =? 1))
          (fmt "unsupported format_version {}" [show_N (format_version m)]);
    _ ← reject_if (negb (valid_name (name m)))
          (fmt "name must be 1-{MAX_NAME_LEN} characters of [A-Za-z0-9._-]" [show_N MAX_NAME_LEN]);
    _ ← reject_if (sequence m =? 0) "sequence must be at least 1"%string;
    _ ← reject_if (expires m <=? issued m)%Z "expires must be after issued"%string;
    _ ← reject_if (bool_decide (files m = [])) "the bundle lists no files"%string;
    _ ← reject_if (MAX_FILES <? vlen (files m)) (fmt "more than {MAX_FILES} files" [show_N MAX_FILES]);
    _ ← reject_if (MAX_REVOCATIONS <? vlen (revoke_keys m))
          (fmt "more than {MAX_REVOCATIONS} revoked keys" [show_N MAX_REVOCATIONS]);
    _ ← check_revocations (revoke_keys m);
    check_files ∅ (files m)).

Record BundleFile := mkBundleFile {
  content_path : string;
  content_kind : ContentKind;
  content : bytes }.

Record VerifiedBundle := mkVerified {
  dir : path;
  manifest : Manifest;
  manifest_sha256 : Sha256Digest;
  signers : list KeyId;
  expired : bool;
  contents : list BundleFile }.

Record LoadOptions := mkOptions { allow_expired : bool; now : Z }.

(** [signature_paths] *)
Definition signature_paths (manifest_path : path) : list path :=
  let first := signature_path manifest_path in
  first :: ((λ n, (first +:+ "." +:+ show_N (N.of_nat n))%string)
             <$> seq 2 (N.to_nat MAX_SIGNATURES - 1)).

(** One round of the loop of [verify_signatures], over the signers found, the
    problems and [found_any]. *)
Definition verify_one (fs : Files) (ks : TrustedKeys) (manifest_path : path) (data : bytes) (t : Z)
    (sig_path : path) (acc : list KeyId * list string * bool)
    : result TrustError (list KeyId * list string * bool) :=
  let '(found, problems, _) := acc in
  match read_bounded fs sig_path MAX_SIGNATURE_BYTES with
  | Err (Io p e) => if is_not_found e then Ok acc else Err (Io p e)
  | Err e => Err e
  | Ok sig =>
      let nm := default ""%string (display <$> file_name sig_path) in
      match from_utf8 sig with
      | None => Ok (found, problems ++ [fmt "{name}: not UTF-8" [nm]], true)
      | Some text =>
          match verify ks data text manifest_path t with
          | Ok (i, _) =>
              if bool_decide (i ∉ found) then Ok (found ++ [i], problems, true)
              else Ok (found,
                     problems ++ [fmt "{name}: another signature by key {id}" [nm; KeyId.to_string i]], true)
          | Err e => Ok (found, problems ++ [fmt "{name}: {e}" [nm; trust_text e]], true)
          end
      end
  end.

Fixpoint verify_each (fs : Files) (ks : TrustedKeys) (manifest_path : path) (data : bytes) (t : Z)
    (paths : list path) (acc : list KeyId * list string * bool)
    : result TrustError (list KeyId * list string * bool) :=
  match paths with
  | [] => Ok acc
  | p :: paths =>
      acc ← verify_one fs ks manifest_path data t p acc;
      verify_each fs ks manifest_path data t paths acc
  end.

(** [verify_signatures] *)
Definition verify_signatures (fs : Files) (d manifest_path : path) (data : bytes) (ks : TrustedKeys)
    (t : Z) : result BundleError (list KeyId) :=
  '(found, problems, found_any) ←
    map_err TrustErr (verify_each fs ks manifest_path data t (signature_paths manifest_path) ([], [], false));
  _ ← reject_if (negb found_any) (BundleUnsigned d (signature_path manifest_path));
  _ ← reject_if (vlen found <? threshold ks)
        (InsufficientSignatures d (vlen found) (threshold ks) problems);
  Ok found.

(** [read_listed] *)
Definition read_listed `{Sha256} (root : Dir) (e : ManifestFile) : result BundleError bytes :=
  let err := FileError (file_path e) in
  '(bs, fails) ← map_err err (root (file_path e));
  let limit := saturating_add64 (file_size e) 1 in
  _ ← (if vlen bs <? limit
       then match fails with Some why => Err (err why) | None => Ok tt end
       else Ok tt);
  let data := take (N.to_nat limit) bs in
  _ ← reject_if (negb (vlen data =? file_size e))
        (err (fmt "size is {} bytes, the manifest says {}" [show_N (vlen data); show_N (file_size e)]));
  let actual := sha256 data in
  _ ← reject_if (negb (bool_decide (actual = file_sha256 e)))
        (err (fmt "SHA-256 {actual} does not match the manifest ({})"
                [Digest.to_hex actual; Digest.to_hex (file_sha256 e)]));
  Ok data.

Fixpoint read_files `{Sha256} (root : Dir) (es : list ManifestFile) : result BundleError (list BundleFile) :=
  match es with
  | [] => Ok []
  | e :: es =>
      bs ← read_listed root e;
      rest ← read_files root es;
      Ok (mkBundleFile (file_path e) (file_kind e) bs :: rest)
  end.

(** [rfc3339] *)
Definition show_time (t : Z) : string := default (time_string t) (rfc3339 t).

(** [load_bundle] *)
Definition load_bundle `{Sha256, Json Manifest} (fs : Files) (open_dir : path → result string Dir)
    (d : path) (ks : TrustedKeys) (opts : LoadOptions) : result BundleError VerifiedBundle :=
  _ ← reject_if (is_empty ks) (TrustErr NoTrustedKeys);
  let manifest_path := join d MANIFEST_FILE in
  data ← map_err TrustErr (read_bounded fs manifest_path MAX_MANIFEST_BYTES);
  found ← verify_signatures fs d manifest_path data ks (now opts);
  m ← map_err InvalidManifest (from_slice data);
  _ ← validate m;
  let old := (expires m <? now opts)%Z in
  _ ← reject_if (old && negb (allow_expired opts))
        (Expired (name m) (sequence m) (show_time (expires m)));
  root ← map_err (FileError (display d)) (open_dir d);
  contents ← read_files root (files m);
  Ok (mkVerified d m (sha256 data) found old contents).

(** ** Structure *)

(** What [validate] accepts, as a property. *)
Record well_formed (m : Manifest) : Prop := {
  wf_format : format m = MANIFEST_FORMAT ∧ format_version m = 1;
  wf_name : valid_name (name m) = true;
  wf_sequence : 1 ≤ sequence m;
  wf_times : (issued m < expires m)%Z;
  wf_count : 1 ≤ vlen (files m) ≤ MAX_FILES;
  wf_revoked : vlen (revoke_keys m) ≤ MAX_REVOCATIONS ∧
    Forall (λ k, valid_key_id k = true) (revoke_keys m);
  wf_paths : NoDup (file_path <$> files m);
  wf_files : Forall (λ f, valid_relative_path (file_path f) = true ∧
    file_size f ≤ MAX_CONTENT_FILE_BYTES) (files m) }.

Lemma check_files_Ok seen fs u :
  check_files seen fs = Ok u ↔
  NoDup (file_path <$> fs) ∧ Forall (λ f, file_path f ∉ seen) fs ∧
  Forall (λ f, valid_relative_path (file_path f) = true ∧ file_size f ≤ MAX_CONTENT_FILE_BYTES) fs.
Proof.
  destruct u. revert seen. induction fs as [|f fs IH]; intros seen; csimpl.
  { split; [|done]. repeat split; constructor. }
  repeat setoid_rewrite result_bind_Ok. rewrite NoDup_cons, !Forall_cons.
  split.
  - intros ([] & Hv & [] & Hs & [] & Hz & Hr). inv_result. reflect_bools.
    apply IH in Hr as (? & Hn & ?). rewrite Forall_forall in Hn.
    repeat split; auto.
    + intros (g & Hg & Hin)%list_elem_of_fmap. apply (Hn g Hin). set_solver.
    + apply Forall_forall. intros g Hg. specialize (Hn g Hg). set_solver.
  - intros ([Hf ?] & [? Hn] & [? ?] & ?). exists tt. rewrite reject_if_Ok.
    split; [by apply negb_false_iff|]. exists tt. rewrite reject_if_Ok.
    split; [by apply bool_decide_eq_false|]. exists tt. rewrite reject_if_Ok.
    split; [by apply N.ltb_ge|]. apply IH. split; [done|]. split; [|done].
    rewrite Forall_forall in *. intros g Hg Hin. apply elem_of_union in Hin as [Hin%elem_of_singleton|Hin].
    + apply Hf. rewrite <-Hin. by apply list_elem_of_fmap_2.
    + by apply (Hn g).
Qed.

Lemma check_revocations_Ok ks u :
  check_revocations ks = Ok u ↔ Forall (λ k, valid_key_id k = true) ks.
Proof.
  destruct u. unfold check_revocations. rewrite Forall_forall. split.
  - intros Hc k Hk. destruct (valid_key_id k) eqn:E; [done|]. exfalso.
    assert (k ∈ base.filter (λ k, valid_key_id k = false) ks) as Hin by by apply list_elem_of_filter.
    destruct (base.filter _ ks); [by apply not_elem_of_nil in Hin|done].
  - intros Hk. destruct (base.filter _ ks) as [|k l] eqn:E; [done|]. exfalso.
    assert (k ∈ base.filter (λ k, valid_key_id k = false) ks) as Hin by (rewrite E; left).
    apply list_elem_of_filter in Hin as [Hf Hin]. by rewrite Hk in Hf.
Qed.

Lemma manifest_spec m u : validate m = Ok u ↔ well_formed m.
Proof.
  destruct u. unfold validate. rewrite map_err_Ok. split.
  - intros Hv. inv_result.
    match goal with Hc : check_revocations _ = _ |- _ => apply check_revocations_Ok in Hc end.
    apply check_files_Ok in Hv as (? & _ & ?).
    reflect_bools. split; auto; try lia. split; [|lia]. destruct (files m); [done|].
    autorewrite with warden. lia.
  - intros [[Hf Hver] Hn Hs Ht [Hc1 Hc2] [Hr1 Hr2] Hp Hfs].
    rewrite Hf, Hver, Hn. rewrite (bool_decide_eq_true_2 (MANIFEST_FORMAT = _)) by done.
    rewrite !reject_pass; try (apply bool_decide_eq_false; by intros E; rewrite E in Hc1); try lia; try done.
    rewrite (proj2 (check_revocations_Ok (revoke_keys m) tt)) by done.
    apply check_files_Ok. repeat split; auto. apply Forall_true. set_solver.
Qed.

(** ** Loading *)

Section Loading.
Context `{SH : Sha256}.

Lemma read_listed_Ok root e data :
  file_size e < u64_max → read_listed root e = Ok data →
  root (file_path e) = Ok (data, None) ∧ vlen data = file_size e ∧ sha256 data = file_sha256 e.
Proof.
  intros Hsz Hr. unfold read_listed in Hr. inv_result.
  match goal with x : (_ * _)%type |- _ => destruct x as [bs fails] end.
  inv_result. subst. unfold saturating_add64 in *. rewrite N.min_l in * by lia. reflect_bools.
  assert (vlen bs < file_size e + 1) as Hlen.
  { unfold vlen in *. rewrite length_take in *. lia. }
  rewrite take_ge in * by (unfold vlen in *; lia).
  rewrite (proj2 (N.ltb_lt _ _) Hlen) in *. destruct fails; [done|]. done.
Qed.

Definition delivers (root : Dir) (e : ManifestFile) (f : BundleFile) : Prop :=
  content_path f = file_path e ∧ content_kind f = file_kind e ∧
  root (file_path e) = Ok (content f, None) ∧
  vlen (content f) = file_size e ∧ sha256 (content f) = file_sha256 e.

Lemma read_files_Ok root es fs :
  Forall (λ e, file_size e < u64_max) es → read_files root es = Ok fs →
  Forall2 (delivers root) es fs.
Proof.
  revert fs. induction es as [|e es IH]; intros fs Hs Hr; simpl in Hr; inv_result; subst; [constructor|].
  apply Forall_cons in Hs as [He Hs]. constructor; [|by apply IH].
  by split; [|split; [|apply read_listed_Ok]].
Qed.

(** The signers gathered so far are distinct and their signatures verified. *)
Definition gathered (ks : TrustedKeys) (t : Z) (data : bytes) (l : list KeyId) : Prop :=
  NoDup l ∧ Forall (λ i, ∃ text c, authentic ks Content t data text i c) l.

Lemma verify_one_gathered fs ks mp data t p acc acc' :
  verify_one fs ks mp data t p acc = Ok acc' → gathered ks t data acc.1.1 →
  gathered ks t data acc'.1.1.
Proof.
  destruct acc as [[l problems] any]. unfold verify_one. intros E [HN HF].
  destruct (read_bounded _ _ _) as [sig|e].
  - destruct (from_utf8 sig) as [text|]; [|by simplify_eq].
    destruct (verify _ _ _ _ _) as [[i c]|e] eqn:Ev; [|by simplify_eq].
    case_bool_decide as Hi; simplify_eq; [|done]. simpl. split.
    + apply NoDup_app. split; [done|]. split; [|apply NoDup_singleton].
      by intros x Hx ->%list_elem_of_singleton.
    + apply Forall_app. split; [done|]. apply Forall_singleton. exists text, c.
      by eapply verify_role_authentic.
  - destruct e; try done. by case_match; simplify_eq.
Qed.

Lemma verify_each_gathered fs ks mp data t ps acc acc' :
  verify_each fs ks mp data t ps acc = Ok acc' → gathered ks t data acc.1.1 →
  gathered ks t data acc'.1.1.
Proof.
  revert acc. induction ps as [|p ps IH]; intros acc E Hg; simpl in E; inv_result; subst; [done|].
  eapply IH; [done|]. by eapply verify_one_gathered.
Qed.

Lemma verify_signatures_Ok fs d mp data ks t l :
  verify_signatures fs d mp data ks t = Ok l →
  gathered ks t data l ∧ threshold ks ≤ vlen l.
Proof.
  intros E. unfold verify_signatures in E. inv_result.
  match goal with x : (_ * _ * _)%type |- _ => destruct x as [[found problems] any] end.
  inv_result. subst. reflect_bools. split; [|done].
  match goal with Hv : verify_each _ _ _ _ _ _ _ = _ |- _ => apply verify_each_gathered in Hv end;
    [done|]. split; constructor.
Qed.
Lemma load_bundle_Ok `{J : Json Manifest} fs open_dir d ks opts b
    (Hb : load_bundle fs open_dir d ks opts = Ok b) :
  ∃ data root,
    read_bounded fs (join d MANIFEST_FILE) MAX_MANIFEST_BYTES = Ok data ∧
    from_slice data = Ok (manifest b) ∧ manifest_sha256 b = sha256 data ∧
    well_formed (manifest b) ∧
    NoDup (signers b) ∧ threshold ks ≤ vlen (signers b) ∧
    Forall (λ i, ∃ text c, authentic ks Content (now opts) data text i c) (signers b) ∧
    (expired b = true ↔ (expires (manifest b) < now opts)%Z) ∧
    (expired b = true → allow_expired opts = true) ∧
    open_dir d = Ok root ∧ Forall2 (delivers root) (files (manifest b)) (contents b).
Proof.
  unfold load_bundle in Hb. inv_result. subst. simpl.
  match goal with Hv : verify_signatures _ _ _ _ _ _ = _ |- _ =>
    apply verify_signatures_Ok in Hv as [[? ?] ?] end.
  match goal with Hv : validate _ = _ |- _ => apply manifest_spec in Hv as Hwf end.
  eexists _, _. repeat (split; [done|]). split; [apply Z.ltb_lt|]. split.
  { intros Hx. rewrite Hx in *. by destruct (allow_expired opts). }
  split; [done|]. apply read_files_Ok; [|done]. eapply Forall_impl; [apply wf_files, Hwf|].
  intros e [_ He]. eapply N.le_lt_trans; [exact He|done].
Qed.
End Loading.

End Bundles.

Lemma normal_component_plain c : normal_component c = true → plain_segment c.
Proof.
  unfold normal_component, plain_segment, segment. intros. reflect_bools.
  by rewrite !bool_decide_eq_false_2.
Qed.

Lemma valid_relative_path_plain p :
  valid_relative_path p = true → Forall plain_segment (split_on slash p).
Proof.
  unfold valid_relative_path. intros. reflect_bools. eapply Forall_impl; [done|].
  intros c. apply normal_component_plain.
Qed.

End Bundle.

(** ** Properties *)
Module BundleProps.
Import Bundle.

Section Props.
Context `{MS : Minisign, ST : StdText, TT : TimeText, SH : Sha256, J : Json Manifest}.

(** C5: a bundle that loads is authentic: its manifest is the parse of octets
    that at least [threshold] distinct trusted keys have validly signed for
    content at that time, its hash is the hash of those octets, it is well
    formed and unexpired unless expired bundles are allowed, and every content
    file is the complete file of the directory, with the size and hash the
    manifest lists, in the order of the manifest. *)
Theorem load_bundle_authentic fs open_dir d ks opts b
    (Hb : load_bundle fs open_dir d ks opts = Ok b) :
  ∃ data root,
    read_bounded fs (join d MANIFEST_FILE) MAX_MANIFEST_BYTES = Ok data ∧
    from_slice data = Ok (manifest b) ∧ manifest_sha256 b = sha256 data ∧
    well_formed (manifest b) ∧
    NoDup (signers b) ∧ threshold ks ≤ vlen (signers b) ∧
    Forall (λ i, ∃ text c, authentic ks Content (now opts) data text i c) (signers b) ∧
    (expired b = true ↔ (expires (manifest b) < now opts)%Z) ∧
    (expired b = true → allow_expired opts = true) ∧
    open_dir d = Ok root ∧ Forall2 (delivers root) (files (manifest b)) (contents b).
Proof. by apply load_bundle_Ok. Qed.

(** [validate] accepts exactly the well-formed manifests: the known format
    and version, a valid name, a positive sequence, [issued] before [expires],
    1 to 10,000 files with distinct valid relative paths and bounded sizes,
    and at most 64 revocations that are key IDs. *)
Theorem manifest_exact m : validate m = Ok tt ↔ well_formed m.
Proof. apply manifest_spec. Qed.

End Props.

(** A path a manifest may list stays inside the directory it is joined
    to: it is relative, its components are exactly its pieces, none of them
    empty, [.] or [..], and joining it appends them to those of the
    directory. *)
Theorem listed_path_contained d p (Hp : valid_relative_path p = true) :
  is_absolute p = false ∧
  components (join d p) = components d ++ (Normal <$> split_on slash p) ∧
  path_starts_with (join d p) d = true ∧
  Forall (λ c, c ≠ ""%string ∧ c ≠ "."%string ∧ c ≠ ".."%string) (split_on slash p).
Proof.
  pose proof (valid_relative_path_plain p Hp) as Hpl.
  split; [by apply components_plain|]. split; [by apply components_join_plain|]. split.
  - unfold path_starts_with. rewrite components_join_plain by done. apply is_prefix_spec. eauto.
  - eapply Forall_impl; [exact Hpl|]. intros c Hc.
    repeat split; intros ->; by vm_compute in Hc.
Qed.

Lemma listed_path_contained_witness :
  components (join "/var/lib/content" "rules/a.yar") =
    [RootDir; Normal "var"; Normal "lib"; Normal "content"; Normal "rules"; Normal "a.yar"].
Proof.
  rewrite (proj1 (proj2 (listed_path_contained "/var/lib/content" "rules/a.yar" ltac:(reflexivity)))).
  vm_compute. reflexivity.
Defined.

(** ** Instances *)
Section Samples.
#[local] Existing Instances toy_text toy_time TrustProps.toy_minisign Toy.sha.

Definition sample_data : bytes := [5; 6; 7].
Definition sample_sha : Sha256Digest := Eval vm_compute in Toy.digest sample_data.
Definition manifest_sha : Sha256Digest := Eval vm_compute in Toy.digest [1].
Definition sample_manifest : Manifest :=
  mkManifest MANIFEST_FORMAT 1 "official" 7 10%Z 100%Z
    [mkFile "rules/a.yar" YaraRules 3 sample_sha] [].

Definition toy_manifests : Json Manifest := {|
  to_vec _ := Err "not written"%string;
  from_slice bs := if bool_decide (bs = [1]) then Ok sample_manifest else Err "no such manifest"%string |}.
#[local] Existing Instance toy_manifests.

Definition sample_files : Files := λ p,
  if bool_decide (p = "c/manifest.json"%string) then Ok (mkSource [1] None)
  else if bool_decide (p = "c/manifest.json.minisig.2"%string)
  then Ok (mkSource (as_bytes TrustProps.key_a ++ [1]) None)
  else Err (Os 2).
Definition sample_dir (d : path) : result string Dir :=
  Ok (λ p, if bool_decide (p = "rules/a.yar"%string) then Ok (sample_data, None)
           else Err "no such file"%string).
Definition sample_bundle : VerifiedBundle :=
  mkVerified "c" sample_manifest manifest_sha [TrustProps.id_a] false
    [mkBundleFile "rules/a.yar" YaraRules sample_data].

Lemma sample_loads :
  load_bundle sample_files sample_dir "c" TrustProps.with_a (mkOptions false 50%Z) = Ok sample_bundle.
Proof. vm_compute. reflexivity. Qed.

Lemma load_bundle_authentic_witness :
  ∃ data root,
    read_bounded sample_files (join "c" MANIFEST_FILE) MAX_MANIFEST_BYTES = Ok data ∧
    from_slice data = Ok (manifest sample_bundle) ∧ manifest_sha256 sample_bundle = sha256 data ∧
    well_formed (manifest sample_bundle) ∧
    NoDup (signers sample_bundle) ∧ threshold TrustProps.with_a ≤ vlen (signers sample_bundle) ∧
    Forall (λ i, ∃ text c, authentic TrustProps.with_a Content 50 data text i c) (signers sample_bundle) ∧
    (expired sample_bundle = true ↔ (expires (manifest sample_bundle) < 50)%Z) ∧
    (expired sample_bundle = true → false = true) ∧
    sample_dir "c" = Ok root ∧
    Forall2 (delivers root) (files (manifest sample_bundle)) (contents sample_bundle).
Proof.
  apply (load_bundle_authentic sample_files sample_dir "c" TrustProps.with_a (mkOptions false 50%Z)).
  exact sample_loads.
Defined.

End Samples.
End BundleProps.
