(* ===== verification/ContentState.v ===== *)
(** * Freshness and rollback protection of content

    [Freshness] models [crates/engine/src/freshness.rs]; [State] models
    [content_state.rs], its file operations over the file system of [Disk]. *)

From S2P Require Import Prelude Utf8 Paths Core External Trust Bundle Disk.
Import Trust (TrustError, TrustedKeys, KeyRole, verify_role, authentic).

(** ** freshness.rs *)
Module Freshness.

Definition TIMESTAMP_FILE : string := "timestamp.json".
Definition TIMESTAMP_FORMAT : string := "abyssal-warden.content-timestamp".
Definition MAX_TIMESTAMP_BYTES : N := 64 * 1024.
Definition MAX_TIMESTAMP_LIFETIME : Z := dur_days 31.
Definition CLOCK_SKEW : Z := dur_minutes 10.

Record Timestamp := mkTimestamp {
  format : string;
  format_version : N;
  version : N;
  bundle : string;
  sequence : N;
  manifest_sha256 : Sha256Digest;
  manifest_size : N;
  issued : Z;
  expires : Z }.

Inductive FreshnessError :=
  | Signature (e : TrustError)
  | Invalid (why : string)
  | Expired (at_time : string).

(** [Timestamp::validate] *)
Definition validate (ts : Timestamp) (now : Z) : result FreshnessError unit :=
  map_err Invalid (
    _ ← reject_if (negb (bool_decide (format ts = TIMESTAMP_FORMAT)) || negb (format_version ts =? 1))
          "unknown format or format_version"%string;
    _ ← reject_if ((version ts =? 0) || (sequence ts =? 0))
          "version and sequence must be at least 1"%string;
    _ ← reject_if (negb (Bundle.valid_name (bundle ts)))
          "bundle name must be 1-128 characters of [A-Za-z0-9._-]"%string;
    _ ← reject_if ((manifest_size ts =? 0) || (Bundle.MAX_MANIFEST_BYTES <? manifest_size ts))
          "manifest_size out of range"%string;
    _ ← reject_if ((expires ts <=? issued ts)%Z
                   || (MAX_TIMESTAMP_LIFETIME <? expires ts - issued ts)%Z)
          "expires must be after issued and within 31 days of it"%string;
    reject_if (now + CLOCK_SKEW <? issued ts)%Z "issued in the future (check the clock)"%string).

Record VerifiedTimestamp := mkVerified {
  timestamp : Timestamp;
  signer : KeyId;
  sha : Sha256Digest }.

Section Verify.
Context `{MS : Minisign, ST : StdText, TT : TimeText, SH : Sha256, J : Json Timestamp}.

(** [verify_timestamp] *)
Definition verify_timestamp (data : bytes) (signature_text : string) (ks : TrustedKeys) (now : Z)
    (allow_expired : bool) : result FreshnessError VerifiedTimestamp :=
  _ ← reject_if (MAX_TIMESTAMP_BYTES <? vlen data) (Invalid "larger than 64 KiB");
  '(i, _) ← map_err Signature (verify_role ks data signature_text TIMESTAMP_FILE now Trust.Timestamp);
  ts ← map_err Invalid (from_slice data);
  _ ← validate ts now;
  _ ← reject_if ((expires ts <? now)%Z && negb allow_expired)
        (Expired (default ""%string (rfc3339 (expires ts))));
  Ok (mkVerified ts i (sha256 data)).

(** The rules of the update channel. *)
Record sound (ts : Timestamp) (now : Z) : Prop := {
  sound_format : format ts = TIMESTAMP_FORMAT ∧ format_version ts = 1;
  sound_numbers : 1 ≤ version ts ∧ 1 ≤ sequence ts;
  sound_bundle : Bundle.valid_name (bundle ts) = true;
  sound_size : 1 ≤ manifest_size ts ≤ Bundle.MAX_MANIFEST_BYTES;
  sound_life : (issued ts < expires ts ≤ issued ts + MAX_TIMESTAMP_LIFETIME)%Z;
  sound_issued : (issued ts ≤ now + CLOCK_SKEW)%Z }.

Lemma timestamp_spec ts now u : validate ts now = Ok u ↔ sound ts now.
Proof.
  destruct u. unfold validate. rewrite map_err_Ok. split.
  - intros Hv. inv_result. reflect_bools. split; lia || auto.
  - intros [[Hf Hver] [? ?] Hn [? ?] [? ?] ?]. rewrite Hf, Hver, Hn.
    rewrite (bool_decide_eq_true_2 (TIMESTAMP_FORMAT = _)) by done.
    rewrite !reject_pass by (simpl; lia || done). apply reject_if_Ok. lia.
Qed.
End Verify.
End Freshness.

(** ** content_state.rs *)
Module State.
Import Freshness (Timestamp).

Definition MAX_STATE_BYTES : N := 4 * 1024 * 1024.

Inductive StateError :=
  | TimestampRollback (name : string) (offered recorded : N)
  | StaleTimestamp (name : string) (offered recorded : N)
  | IoErr (p : path) (source : IoError)
  | Corrupt (p : path) (reason : string)
  | Rollback (name : string) (offered recorded : N)
  | Equivocation (name : string) (sequence : N).

Record BundleRecord := mkBundleRecord {
  sequence : N;
  manifest_sha256 : Sha256Digest;
  signers : list string;
  accepted_at : Z }.
Record TimestampRecord := mkTimestampRecord { version : N; expires : Z; checked_at : Z }.
Record RevocationRecord := mkRevocation { by_bundle : string; rev_sequence : N; recorded_at : Z }.

Record StateFile := mkState {
  format_version : N;
  bundles : gmap string BundleRecord;
  revoked_keys : gmap string RevocationRecord;
  timestamps : gmap string TimestampRecord }.

(** [StateFile { format_version: 1, ..default() }] *)
Definition fresh_state : StateFile := mkState 1 ∅ ∅ ∅.

(** [record_for], [revoked_keys], [timestamp_for] *)
Definition record_for (st : StateFile) (n : string) : option BundleRecord := bundles st !! n.
Definition revoked_list (st : StateFile) : list string := (map_to_list (revoked_keys st)).*1.
Definition timestamp_for (st : StateFile) (n : string) : option TimestampRecord := timestamps st !! n.

(** [check] *)
Definition check (st : StateFile) (b : Bundle.VerifiedBundle) (floor : option N)
    : result StateError unit :=
  let m := Bundle.manifest b in
  let n := Bundle.name m in
  let s := Bundle.sequence m in
  _ ← match floor with
      | Some f => reject_if (s <? f) (Rollback n s f)
      | None => Ok tt
      end;
  match bundles st !! n with
  | None => Ok tt
  | Some r =>
      if s <? sequence r then Err (Rollback n s (sequence r))
      else if (s =? sequence r) && negb (bool_decide (Bundle.manifest_sha256 b = manifest_sha256 r))
      then Err (Equivocation n s)
      else Ok tt
  end.

(** [check_timestamp] *)
Definition check_timestamp (st : StateFile) (ts : Timestamp) : result StateError unit :=
  let n := Freshness.bundle ts in
  _ ← match timestamps st !! n with
      | Some r => reject_if (Freshness.version ts <? version r)
                    (TimestampRollback n (Freshness.version ts) (version r))
      | None => Ok tt
      end;
  match bundles st !! n with
  | Some r => reject_if (Freshness.sequence ts <? sequence r)
                (StaleTimestamp n (Freshness.sequence ts) (sequence r))
  | None => Ok tt
  end.

(** [record_timestamp] *)
Definition record_timestamp (ts : Timestamp) (now : Z) (st : StateFile) : StateFile :=
  let n := Freshness.bundle ts in
  let newer := match timestamps st !! n with
               | None => true
               | Some r => version r <=? Freshness.version ts
               end in
  if newer
  then mkState (format_version st) (bundles st) (revoked_keys st)
         (<[n := mkTimestampRecord (Freshness.version ts) (Freshness.expires ts) now]> (timestamps st))
  else st.

(** [entry(id).or_insert_with(..)] for each revoked key. *)
Definition revoke_all (n : string) (s : N) (now : Z) (ids : list string)
    (m : gmap string RevocationRecord) : gmap string RevocationRecord :=
  foldl (λ m i,
    let k := to_ascii_uppercase i in
    match m !! k with Some _ => m | None => <[k := mkRevocation n s now]> m end) m ids.

(** [record] *)
Definition record (b : Bundle.VerifiedBundle) (now : Z) (st : StateFile) : StateFile :=
  let m := Bundle.manifest b in
  let n := Bundle.name m in
  let s := Bundle.sequence m in
  let revoked := revoke_all n s now (Bundle.revoke_keys m) (revoked_keys st) in
  let newer := match bundles st !! n with None => true | Some r => sequence r <? s end in
  mkState (format_version st)
    (if newer
     then <[n := mkBundleRecord s (Bundle.manifest_sha256 b) (KeyId.to_string <$> Bundle.signers b) now]>
            (bundles st)
     else bundles st)
    revoked (timestamps st).

(** ** Histories *)

(** What a client accepted, in order. *)
Inductive event := Accepted (b : Bundle.VerifiedBundle) | Seen (ts : Timestamp).

(** A client checks before it records; anything else leaves the state. *)
Inductive history : StateFile → list event → StateFile → Prop :=
  | history_nil st : history st [] st
  | history_bundle st b floor now l st' :
      check st b floor = Ok tt → history (record b now st) l st' →
      history st (Accepted b :: l) st'
  | history_timestamp st ts now l st' :
      check_timestamp st ts = Ok tt → history (record_timestamp ts now st) l st' →
      history st (Seen ts :: l) st'.

(** [st] remembers at least what the event showed. *)
Definition remembers (st : StateFile) (e : event) : Prop :=
  match e with
  | Accepted b =>
      (∃ r, bundles st !! Bundle.name (Bundle.manifest b) = Some r ∧
        Bundle.sequence (Bundle.manifest b) ≤ sequence r ∧
        (Bundle.sequence (Bundle.manifest b) = sequence r →
         Bundle.manifest_sha256 b = manifest_sha256 r)) ∧
      Forall (λ k, is_Some (revoked_keys st !! to_ascii_uppercase k))
        (Bundle.revoke_keys (Bundle.manifest b))
  | Seen ts =>
      ∃ r, timestamps st !! Freshness.bundle ts = Some r ∧ Freshness.version ts ≤ version r
  end.

(** [e2] may follow [e1]. *)
Definition not_older (e1 e2 : event) : Prop :=
  match e1, e2 with
  | Accepted b1, Accepted b2 =>
      let m1 := Bundle.manifest b1 in let m2 := Bundle.manifest b2 in
      Bundle.name m1 = Bundle.name m2 →
      Bundle.sequence m1 ≤ Bundle.sequence m2 ∧
      (Bundle.sequence m1 = Bundle.sequence m2 → Bundle.manifest_sha256 b1 = Bundle.manifest_sha256 b2)
  | Accepted b1, Seen ts =>
      let m1 := Bundle.manifest b1 in
      Bundle.name m1 = Freshness.bundle ts → Bundle.sequence m1 ≤ Freshness.sequence ts
  | Seen t1, Seen t2 =>
      Freshness.bundle t1 = Freshness.bundle t2 → Freshness.version t1 ≤ Freshness.version t2
  | Seen _, Accepted _ => True
  end.

Lemma revoke_all_keeps n s now ids m k : is_Some (m !! k) → is_Some (revoke_all n s now ids m !! k).
Proof.
  unfold revoke_all. revert m. induction ids as [|i ids IH]; intros m Hk; simpl; [done|].
  apply IH. case_match; [done|]. apply lookup_insert_is_Some'. by right.
Qed.

Lemma revoke_all_adds n s now ids m :
  Forall (λ k, is_Some (revoke_all n s now ids m !! to_ascii_uppercase k)) ids.
Proof.
  revert m. induction ids as [|i ids IH]; intros m; simpl; [constructor|]. constructor; [|apply IH].
  apply revoke_all_keeps. case_match eqn:E; [by rewrite E|]. rewrite lookup_insert_eq. eauto.
Qed.

Lemma record_remembers_self b now st floor :
  check st b floor = Ok tt → remembers (record b now st) (Accepted b).
Proof.
  intros Hc. unfold check in Hc. inv_result. split; simpl; [|apply revoke_all_adds].
  destruct (bundles st !! _) as [r|] eqn:E.
  - destruct (_ <? sequence r) eqn:Ha; [done|]. destruct (_ && _) eqn:Hb; [done|]. reflect_bools.
    destruct (sequence r <? _) eqn:Hn; reflect_bools.
    + rewrite lookup_insert_eq. eexists. split; [done|]. by split.
    + rewrite E. eexists. split; [done|]. split; [lia|]. intros Hs.
      destruct Hb as [Hb|Hb]; reflect_bools; [congruence|done].
  - rewrite lookup_insert_eq. eexists. split; [done|]. by split.
Qed.

Lemma record_remembers b now st e : remembers st e → remembers (record b now st) e.
Proof.
  destruct e as [b'|ts]; [|done]. intros [(r & Hr & Hs & Hsha) Hk]. split; simpl.
  - destruct (decide (Bundle.name (Bundle.manifest b') = Bundle.name (Bundle.manifest b))) as [E|E].
    + rewrite E in *. rewrite Hr. destruct (sequence r <? _) eqn:Hn; reflect_bools; [|eauto].
      rewrite lookup_insert_eq. eexists. split; [done|]. simpl. split; [lia|]. intros. lia.
    + exists r. split; [|done]. repeat case_match; by rewrite ?lookup_insert_ne.
  - eapply Forall_impl; [exact Hk|]. intros k. apply revoke_all_keeps.
Qed.

Lemma record_timestamp_remembers_self ts now st :
  remembers (record_timestamp ts now st) (Seen ts).
Proof.
  simpl. unfold record_timestamp. destruct (timestamps st !! Freshness.bundle ts) as [r|] eqn:E.
  - destruct (version r <=? _) eqn:Hn; reflect_bools; simpl.
    + rewrite lookup_insert_eq. eexists. split; [done|]. simpl. lia.
    + rewrite E. eexists. split; [done|]. lia.
  - simpl. rewrite lookup_insert_eq. eexists. split; [done|]. simpl. lia.
Qed.

Lemma record_timestamp_remembers ts now st e :
  remembers st e → remembers (record_timestamp ts now st) e.
Proof.
  destruct e as [b|t]; intros Hr.
  - unfold record_timestamp. by case_match.
  - destruct Hr as (r & Hr & Hv). unfold record_timestamp, remembers.
    destruct (decide (Freshness.bundle t = Freshness.bundle ts)) as [E|E].
    + rewrite E in *. rewrite Hr. destruct (version r <=? _) eqn:Hn; reflect_bools; [|simpl; eauto].
      simpl. rewrite lookup_insert_eq. eexists. split; [done|]. simpl. lia.
    + exists r. split; [|done]. repeat case_match; simpl; rewrite ?lookup_insert_ne; done.
Qed.

Lemma check_not_older st b floor e :
  remembers st e → check st b floor = Ok tt → not_older e (Accepted b).
Proof.
  destruct e as [b'|t]; [|done]. intros [(r & Hr & Hs & Hsha) _] Hc Hn. unfold check in Hc.
  inv_result. rewrite <-Hn, Hr in Hc. destruct (_ <? sequence r) eqn:Ha; [done|].
  destruct (_ && _) eqn:Hb; [done|]. reflect_bools. split; [lia|]. intros He.
  destruct Hb as [Hb|Hb]; reflect_bools; [lia|]. rewrite Hb. apply Hsha. lia.
Qed.

Lemma check_timestamp_not_older st ts e :
  remembers st e → check_timestamp st ts = Ok tt → not_older e (Seen ts).
Proof.
  intros Hr Hc. unfold check_timestamp in Hc. inv_result. destruct e as [b|t]; intros Hn.
  - destruct Hr as [(r & Hr & Hs & _) _]. rewrite <-Hn, Hr in Hc. inv_result. reflect_bools. lia.
  - destruct Hr as (r & Hr & Hv). rewrite <-Hn, Hr in *. inv_result. reflect_bools. lia.
Qed.

(** Whatever a state remembers holds against every later event. *)
Lemma history_remembered st l st' e :
  history st l st' → remembers st e → Forall (not_older e) l ∧ remembers st' e.
Proof.
  induction 1 as [st|st b floor now l st' Hc _ IH|st ts now l st' Hc _ IH]; intros Hr.
  - by split.
  - destruct (IH (record_remembers b now st e Hr)). split; [|done]. constructor; [|done].
    exact (check_not_older _ _ _ _ Hr Hc).
  - destruct (IH (record_timestamp_remembers ts now st e Hr)). split; [|done]. constructor; [|done].
    exact (check_timestamp_not_older _ _ _ Hr Hc).
Qed.

Lemma history_ordered st l st' :
  history st l st' → ForallOrdPairs not_older l ∧ Forall (remembers st') l.
Proof.
  induction 1 as [st|st b floor now l st' Hc Hh [IH1 IH2]|st ts now l st' Hc Hh [IH1 IH2]].
  - split; constructor.
  - apply history_remembered with (e := Accepted b) in Hh as [? ?];
      [|by eapply record_remembers_self]. split; by constructor.
  - apply history_remembered with (e := Seen ts) in Hh as [? ?];
      [|by apply record_timestamp_remembers_self]. split; by constructor.
Qed.

(** ** The state file *)

Section Files.
Context `{J : Json StateFile, JP : JsonPretty StateFile}.
(** The path as the code has it, its directory's inode number, and its name
    there; the state file is not a symbolic link. *)
Context (p : path) (dir : inum) (nm : string) (euid : N).

Abbreviation P := (M unit StateError).
Definition io {A} (m : P (result errno A)) : P A := or_throw (λ e, IoErr p (Os e)) m.
(** [tmp_path] *)
Definition tmp_name : string := (nm +:+ ".tmp")%string.
(** [path.parent().filter(|d| !d.is_empty())] *)
Definition has_dir : bool :=
  match parent p with Some d => negb (bool_decide (d = "")) | None => false end.

(** [open], given how creating the directory and opening and locking the lock
    file ended. *)
Definition open (created locked : result errno unit) : P StateFile :=
  _ ← (if has_dir then io (mret created) else mret tt);
  _ ← io (mret locked);
  r ← call (sys_open dir nm);
  match r with
  | Err e => if e =? ENOENT then mret fresh_state else throw (IoErr p (Os e))
  | Ok fd =>
      bs ← io (call (sys_read_to_end fd (MAX_STATE_BYTES + 1)));
      _ ← lift (reject_if (MAX_STATE_BYTES <? vlen bs) (Corrupt p "too large"));
      st ← lift (map_err (Corrupt p) (from_slice bs));
      _ ← lift (reject_if (negb (format_version st =? 1)) (Corrupt p "unsupported format_version"));
      mret st
  end.

(** [read_revoked_keys]: the sorted keys of the state, with no check of its
    size or version. *)
Definition read_revoked_keys : P (list string) :=
  r ← call (sys_open dir nm);
  match r with
  | Err e => if e =? ENOENT then mret [] else throw (IoErr p (Os e))
  | Ok fd =>
      bs ← io (call (sys_read_to_end fd (MAX_STATE_BYTES + 1)));
      st ← lift (map_err (Corrupt p) (from_slice bs));
      mret (revoked_list st)
  end.

(** [save] *)
Definition save (st : StateFile) : P unit :=
  bs ← lift (map_err (λ e, IoErr p (OtherError e)) (to_vec_pretty st));
  i ← io (call (sys_create_trunc euid dir tmp_name 0x180));
  _ ← io (write_all i bs);
  _ ← io (call (sys_fsync i));
  _ ← io (call (sys_rename dir tmp_name nm));
  if has_dir
  then _ ← io (call (λ f, (Ok tt, f))); io (call (sys_fsync_dir dir))
  else mret tt.

(** *** What survives *)

Let k : inum * string := (dir, nm).
Let ktmp : inum * string := (dir, tmp_name).

(** The entry the binding [o] names has the content [c], on stable storage. *)
Definition reads (f : Fs) (o : option inum) (c : option bytes) : Prop :=
  match o with
  | None => c = None
  | Some i => ∃ x, inodes f !! i = Some x ∧ safe x = true ∧ c = Some (data x)
  end.

(** The file is [c] now and after a power loss. *)
Definition is_file (c : option bytes) (f : Fs) : Prop := reads f (live f !! k) c ∧ reads f (disk f !! k) c.

(** The temporary name is not another name of the file. *)
Definition apart (f : Fs) : Prop :=
  ∀ i, live f !! ktmp = Some i → live f !! k ≠ Some i ∧ disk f !! k ≠ Some i.

(** Both bindings are [c1] or [c2]. *)
Definition one_of (c1 c2 : option bytes) (f : Fs) : Prop :=
  (reads f (live f !! k) c1 ∨ reads f (live f !! k) c2) ∧
  (reads f (disk f !! k) c1 ∨ reads f (disk f !! k) c2).

Lemma tmp_ne : k ≠ ktmp.
Proof.
  unfold k, ktmp, tmp_name. intros [= E]. apply (f_equal String.length) in E. revert E.
  rewrite <-!length_as_bytes, as_bytes_app, length_app. simpl. lia.
Qed.

Lemma reads_set_inode f i x o c : o ≠ Some i → reads f o c → reads (set_inode i x f) o c.
Proof.
  intros Ho. destruct o as [j|]; [|done]. intros (y & Hy & ?). exists y. split; [|done].
  simpl. rewrite lookup_insert_ne; congruence.
Qed.

Lemma reads_lose_power keep g f o c : reads f o c → reads (lose_power keep g f) o c.
Proof.
  destruct o as [j|]; [|done]. intros (x & Hx & Hs & ?). exists x.
  split; [by apply lose_power_safe|done].
Qed.

(** Before the rename: the file is [c], and [i], under the temporary name, has
    the content [bs], synced when [sf]. *)
Definition writing (c : option bytes) (i : inum) (bs : bytes) (sf : bool) (f : Fs) : Prop :=
  is_file c f ∧ apart f ∧ live f !! ktmp = Some i ∧
  ∃ x, inodes f !! i = Some x ∧ data x = bs ∧ (sf = true → safe x = true).

Lemma is_file_set c f i x : is_file c f → live f !! k ≠ Some i → disk f !! k ≠ Some i →
  is_file c (set_inode i x f).
Proof. intros [Hl Hd] ? ?. split; by apply reads_set_inode. Qed.

Lemma writing_set c i bs sf f bs' sf' x :
  writing c i bs sf f → data x = bs' → (sf' = true → safe x = true) →
  writing c i bs' sf' (set_inode i x f).
Proof.
  intros (Hf & Ha & Hi & y & Hy & _) Hd Hs. destruct (Ha i Hi).
  split; [by apply is_file_set|]. split; [done|]. split; [done|].
  exists x. split; [apply lookup_insert_eq|done].
Qed.

(** A power loss leaves one of the two contents, for good. *)
Definition settled (c1 c2 : option bytes) (f : Fs) : Prop := is_file c1 f ∨ is_file c2 f.

Lemma one_of_lose_power c1 c2 keep g f : one_of c1 c2 f → settled c1 c2 (lose_power keep g f).
Proof.
  intros [Hl Hd]. unfold settled, is_file. rewrite lose_power_disk, lose_power_live.
  case_decide; [destruct Hl as [Hl|Hl]|destruct Hd as [Hd|Hd]];
    eauto using reads_lose_power.
Qed.

Lemma is_file_one_of c1 c2 f : is_file c1 f → one_of c1 c2 f.
Proof. intros [? ?]. split; by left. Qed.

Lemma create_writing c f : is_file c f → apart f →
  match sys_create_trunc euid dir tmp_name 0x180 f with
  | (Ok i, f') => writing c i [] false f'
  | (Err _, f') => is_file c f'
  end.
Proof.
  intros Hf Ha. unfold sys_create_trunc. fold ktmp. destruct (live f !! ktmp) as [i|] eqn:El.
  - destruct (inodes f !! i) as [x|] eqn:Ei; [|done]. case_bool_decide; [done|].
    destruct (Ha i El). split; [by apply is_file_set|]. split; [done|]. split; [done|].
    eexists. split; [apply lookup_insert_eq|done].
  - unfold sys_create_excl. fold ktmp. rewrite El. destruct Hf as [Hl Hd].
    assert (∀ o c, reads f o c → o ≠ Some (fresh_inum f) ∧
      reads (mkFs (<[fresh_inum f := new_inode 0x180 euid euid 0]> (inodes f))
              (<[ktmp := fresh_inum f]> (live f)) (disk f)) o c) as Hr.
    { intros [j|] c'; [|done]. intros (x & Hx & ?).
      assert (j ≠ fresh_inum f) by (intros ->; by rewrite fresh_inum_spec in Hx).
      split; [congruence|]. exists x. split; [|done]. simpl. by rewrite lookup_insert_ne. }
    pose proof tmp_ne as Hne.
    split; [|split; [|split; [apply lookup_insert_eq|eexists; split; [apply lookup_insert_eq|done]]]].
    + split; simpl; [rewrite lookup_insert_ne by done|]; by apply Hr.
    + intros i. simpl. rewrite lookup_insert_eq, lookup_insert_ne by done. intros [= <-].
      split; by eapply Hr.
Qed.

Lemma rename_one_of c i bs f : writing c i bs true f →
  match sys_rename dir tmp_name nm f with
  | (Ok _, f') => reads f' (live f' !! k) (Some bs) ∧ reads f' (disk f' !! k) c
  | (Err _, f') => is_file c f'
  end.
Proof.
  intros ([_ Hd] & _ & Hi & x & Hx & Hbs & Hs). unfold sys_rename. fold k ktmp. rewrite Hi.
  split; simpl; [|done]. rewrite lookup_insert_eq. exists x. subst. auto.
Qed.

Lemma triple_ret_bind {A B} (a : A) (m : A → P B) P Q R C :
  triple P (m a) Q R C → triple P (mret a ≫= m) Q R C.
Proof. done. Qed.

(** After a return: names lead to the new file; a power loss takes them back
    unless the directory was synced. *)
Definition saved (c : option bytes) (bs : bytes) (f : Fs) : Prop :=
  reads f (live f !! k) (Some bs) ∧ reads f (disk f !! k) (if has_dir then Some bs else c).

Lemma saved_survives c bs f :
  saved c bs f → if has_dir then is_file (Some bs) f else one_of c (Some bs) f.
Proof. unfold saved. destruct has_dir; [done|]. intros [? ?]. split; auto. Qed.

Lemma save_state_triple st bs c (Hjson : to_vec_pretty st = Ok bs) :
  triple (on_fs tt (λ f, is_file c f ∧ apart f)) (save st)
    (λ _, on_fs tt (saved c bs))
    (λ _, on_fs tt (one_of c (Some bs)))
    (settled c (Some bs)).
Proof.
  unfold save, io. rewrite Hjson.
  assert (∀ f keep g, is_file c f → settled c (Some bs) (lose_power keep g f)) as HC.
  { intros. apply one_of_lose_power, is_file_one_of. done. }
  assert (∀ f, is_file c f → one_of c (Some bs) f) as Ho by (intros; by apply is_file_one_of).
  apply triple_ret_bind. eapply triple_bind.
  { apply (triple_or_call tt _ _ _ (λ i, writing c i [] false)).
    - intros f keep g [? _]. auto.
    - intros f [? _]. auto.
    - intros f [Hf Ha]. pose proof (create_writing c f Hf Ha) as Hc. by case_match; case_match; auto. }
  intros i. eapply triple_bind.
  { apply (triple_or_write tt _ i bs _ (writing c i bs false)).
    - intros f keep g [? _]. auto.
    - intros f n (Hf & Ha & Hi & x & Hx & _). apply Ho. erewrite sys_write_eq by done.
      by apply is_file_set; [|apply (Ha i Hi)..].
    - intros f Hw. pose proof Hw as (_ & _ & _ & x & Hx & Hd & _). erewrite sys_write_eq by done.
      eapply writing_set; [done| |done]. simpl. by rewrite Hd. }
  intros ?. eapply triple_bind.
  { apply (triple_or_call tt _ _ _ (λ _, writing c i bs true)).
    - intros f keep g [? _]. auto.
    - intros f [? _]. auto.
    - intros f Hw. pose proof Hw as (_ & _ & _ & x & Hx & Hd & _). unfold sys_fsync. rewrite Hx.
      by eapply writing_set. }
  intros ?. eapply triple_bind.
  { apply (triple_or_call tt _ _ _ (λ _ f, reads f (live f !! k) (Some bs) ∧ reads f (disk f !! k) c)).
    - intros f keep g [? _]. auto.
    - intros f [? _]. auto.
    - intros f Hw. pose proof (rename_one_of c i bs f Hw) as Hr. by case_match; case_match; auto. }
  intros ?.
  assert (∀ f, reads f (live f !! k) (Some bs) ∧ reads f (disk f !! k) c → one_of c (Some bs) f) as Hn.
  { intros f [? ?]. split; auto. }
  unfold saved. destruct has_dir; [|by apply triple_ret].
  eapply triple_bind.
  { apply (triple_or_call tt _ _ _ (λ _ f, reads f (live f !! k) (Some bs) ∧ reads f (disk f !! k) c)).
    - intros f keep g Hf. by apply one_of_lose_power, Hn.
    - auto.
    - auto. }
  intros ?. apply triple_or_call.
  - intros f keep g Hf. by apply one_of_lose_power, Hn.
  - auto.
  - intros f [Hl Hd]. rewrite (surjective_pairing (sys_fsync_dir dir f)). cbn [fst].
    rewrite fsync_dir_disk, decide_True by done. done.
Qed.

(** A call that only looks: its answer, an error the environment chose, or a
    power loss. *)
Lemma call_ro_cases {A} (op : Fs → result errno A * Fs) (s : Disk.state unit) :
  (∀ f, (op f).2 = f) →
  (∃ s', (call op : P (result errno A)) s = Return (op (fs s)).1 s' ∧ fs s' = fs s) ∨
  (∃ e s', Fails e ∈ faults s ∧ (call op : P (result errno A)) s = Return (Err e) s' ∧ fs s' = fs s) ∨
  (∃ keep g, (call op : P (result errno A)) s = Lost (lose_power keep g (fs s))).
Proof.
  intros Hop. specialize (Hop (fs s)). destruct (op (fs s)) as [r f] eqn:E. simpl in *. subst f.
  unfold call, mbind, M_bind, next_fault. destruct (faults s) as [|[|e|n|keep g] l]; simpl.
  all: rewrite ?E.
  - left. by eexists.
  - left. by eexists.
  - right; left. exists e. eexists. split; [left|done].
  - left. by eexists.
  - right; right. by eexists _, _.
Qed.

Lemma sys_read_to_end_ro i max f : (sys_read_to_end i max f).2 = f.
Proof. done. Qed.

(** Opening a file that holds the encoding of [st], with calls that may fail
    with any error but a false "not found". *)
Lemma open_returns `{JL : !JsonPrettyLaws StateFile} st bs s :
  to_vec_pretty st = Ok bs → vlen bs ≤ MAX_STATE_BYTES → format_version st = 1 →
  reads (fs s) (live (fs s) !! k) (Some bs) →
  (∀ i x, live (fs s) !! k = Some i → inodes (fs s) !! i = Some x → ftype x ≠ Symlink) →
  Fails ENOENT ∉ faults s →
  match open (Ok tt) (Ok tt) s with
  | Return st' s' => st' = st ∧ fs s' = fs s
  | Throw e s' => fs s' = fs s ∧ ∃ n, e = IoErr p (Os n)
  | Lost f => ∃ keep garbage, f = lose_power keep garbage (fs s)
  end.
Proof.
  intros Hjson Hlen Hver Hk Hsym Hf. destruct (live (fs s) !! k) as [i|] eqn:Ek; [|done].
  destruct Hk as (x & Hx & _ & [= ->]). specialize (Hsym i x eq_refl Hx).
  assert ((sys_open dir nm (fs s)).1 = Ok i) as Hopen.
  { unfold sys_open. fold k. rewrite Ek, Hx. by rewrite bool_decide_eq_false_2. }
  assert ((sys_read_to_end i (MAX_STATE_BYTES + 1) (fs s)).1 = Ok (data x)) as Hread.
  { simpl. rewrite Hx, take_ge; [done|]. unfold vlen in Hlen. lia. }
  unfold open. assert (∀ m : unit → P StateFile,
    ((if has_dir then io (mret (Ok tt)) else mret tt) ≫= m) s = m tt s) as -> by (by destruct has_dir).
  unfold io at 1. unfold or_throw at 1, mbind at 1 2, M_bind at 1 2. simpl.
  unfold mbind at 1, M_bind at 1.
  destruct (call_ro_cases (sys_open dir nm) s (sys_open_ro dir nm))
    as [(s1 & -> & Hs1)|[(e & s1 & He & -> & Hs1)|(keep & g & ->)]]; [| |by eexists _, _].
  2:{ destruct (N.eqb_spec e ENOENT) as [->|He0]; [done|]. split; [done|eauto]. }
  rewrite Hopen. unfold io, or_throw, mbind, M_bind.
  destruct (call_ro_cases (sys_read_to_end i (MAX_STATE_BYTES + 1)) s1 (sys_read_to_end_ro i _))
    as [(s2 & -> & Hs2)|[(e & s2 & He & -> & Hs2)|(keep & g & ->)]];
    [|simpl; split; [congruence|eauto]|rewrite Hs1; by eexists _, _].
  rewrite Hs1, Hread. simpl. rewrite (proj2 (N.ltb_ge _ _)) by lia. simpl.
  rewrite (JL st _ Hjson). simpl. rewrite Hver. simpl. split; [done|congruence].
Qed.

End Files.
End State.

#[export] Instance BundleRecord_eq_dec : EqDecision State.BundleRecord.
Proof. solve_decision. Defined.
#[export] Instance TimestampRecord_eq_dec : EqDecision State.TimestampRecord.
Proof. solve_decision. Defined.
#[export] Instance RevocationRecord_eq_dec : EqDecision State.RevocationRecord.
Proof. solve_decision. Defined.
#[export] Instance StateFile_eq_dec : EqDecision State.StateFile.
Proof. solve_decision. Defined.

(** ** Properties *)
Module StateProps.
Import State.

(** C2: along any history of bundles and timestamps a client checked and then
    recorded, for each bundle name the sequence never goes back, two
    manifests accepted under one sequence are the same, a timestamp's version
    is never below one seen before nor its sequence below one accepted (the
    sequences of timestamps are not ordered among themselves); and
    the final state remembers every one of them, with every key any accepted
    manifest revoked. *)
Theorem no_rollback st l st' (Hh : history st l st') :
  ForallOrdPairs not_older l ∧ Forall (remembers st') l.
Proof. by apply history_ordered with (st := st). Qed.

Section Timestamps.
Context `{MS : Minisign, ST : StdText, TT : TimeText, SH : Sha256, J : Json Freshness.Timestamp}.
Import Freshness.

(** C13: a verified timestamp is the parse of at most 64 KiB that a trusted,
    unrevoked key holding the timestamp role has signed within its window; it
    obeys the rules of the channel, and unless expired ones are allowed it has
    not expired, so it was issued within the last 31 days. *)
Theorem verify_timestamp_sound data text ks now allow v
    (Hv : verify_timestamp data text ks now allow = Ok v) :
  from_slice data = Ok (timestamp v) ∧ sha v = sha256 data ∧ vlen data ≤ MAX_TIMESTAMP_BYTES ∧
  (∃ c, authentic ks Trust.Timestamp now data text (signer v) c) ∧
  sound (timestamp v) now ∧
  (allow = false → (now ≤ expires (timestamp v))%Z ∧ (now - dur_days 31 ≤ issued (timestamp v))%Z).
Proof.
  unfold verify_timestamp in Hv. inv_result.
  match goal with x : (KeyId * string)%type |- _ => destruct x as [i c] end.
  inv_result. subst. simpl. reflect_bools.
  match goal with Hs : Freshness.validate _ _ = _ |- _ => apply timestamp_spec in Hs as Hsound end.
  split; [done|]. split; [done|]. split; [done|].
  split; [exists c; by eapply Trust.verify_role_authentic|]. split; [done|].
  intros ->. destruct (sound_life _ _ Hsound) as [_ Hlife].
  unfold MAX_TIMESTAMP_LIFETIME in Hlife. lia.
Qed.
End Timestamps.

Section Files.
Context `{J : Json StateFile, JP : JsonPretty StateFile}.

(** C11: saving the state replaces the file atomically: whatever call fails or
    loses power, what survives is the complete old file or the complete new
    one. After a return the name leads to the complete new file; it does so on
    the disk too if the path names its directory, which is then synced. With a
    bare file name the code syncs no directory: on the disk the name still
    leads to the old file. *)
Theorem save_atomic p dir nm euid st bs c (s : Disk.state unit)
    (Hjson : to_vec_pretty st = Ok bs)
    (Hold : is_file dir nm c (fs s)) (Hapart : apart dir nm (fs s)) :
  match save p dir nm euid st s with
  | Return _ s' =>
      reads (fs s') (live (fs s') !! (dir, nm)) (Some bs) ∧
      reads (fs s') (disk (fs s') !! (dir, nm)) (if has_dir p then Some bs else c)
  | Throw _ s' => one_of dir nm c (Some bs) (fs s')
  | Lost f => settled dir nm c (Some bs) f
  end.
Proof.
  assert (self s = tt) as Hs by by destruct (self s).
  pose proof (save_state_triple p dir nm euid st bs c Hjson s (conj Hs (conj Hold Hapart))) as Ht.
  destruct (save p dir nm euid st s); simpl in Ht; [by apply Ht|by apply Ht|done].
Qed.

(** A state that was saved is not silently lost: opening its file gives
    back exactly that state, or an I/O error, and never starts afresh; the
    environment's calls may fail in any way except a false "not found". *)
Theorem open_after_save `{JL : !JsonPrettyLaws StateFile} p dir nm st bs c (s : Disk.state unit)
    (Hjson : to_vec_pretty st = Ok bs) (Hlen : vlen bs ≤ MAX_STATE_BYTES)
    (Hver : format_version st = 1) (Hc : c = Some bs) (Hk : is_file dir nm c (fs s))
    (Hsym : ∀ i x, live (fs s) !! (dir, nm) = Some i → inodes (fs s) !! i = Some x → ftype x ≠ Symlink)
    (Hf : Fails ENOENT ∉ faults s) :
  match open p dir nm (Ok tt) (Ok tt) s with
  | Return st' s' => st' = st ∧ fs s' = fs s
  | Throw e s' => fs s' = fs s ∧ ∃ n, e = IoErr p (Os n)
  | Lost f => is_file dir nm c f
  end.
Proof.
  subst c. pose proof (open_returns p dir nm st bs s Hjson Hlen Hver (proj1 Hk) Hsym Hf) as Ho.
  destruct (open _ _ _ _ _ _) as [st' s'|e s'|f]; [done|done|]. destruct Ho as (keep & g & ->).
  destruct (one_of_lose_power dir nm (Some bs) (Some bs) keep g (fs s) (is_file_one_of _ _ _ _ _ Hk)); done.
Qed.

End Files.

(** ** Instances *)
Section Samples.
#[local] Existing Instances toy_text toy_time TrustProps.toy_minisign Toy.sha.

Definition sample_manifest (s : N) (rev : list string) : Bundle.Manifest :=
  Bundle.mkManifest Bundle.MANIFEST_FORMAT 1 "official" s 10%Z 100%Z [] rev.
Definition sample_bundle (s : N) (rev : list string) (h : N) : Bundle.VerifiedBundle :=
  Bundle.mkVerified "c" (sample_manifest s rev) (from_bytes (repeat h 32)) [TrustProps.id_a] false [].
Definition sample_timestamp : Freshness.Timestamp :=
  Freshness.mkTimestamp Freshness.TIMESTAMP_FORMAT 1 3 "official" 7 (from_bytes (repeat 1 32)) 100 40%Z 90%Z.

Definition st1 : StateFile := record (sample_bundle 7 ["00aa"] 1) 50 fresh_state.
Definition st2 : StateFile := record_timestamp sample_timestamp 51 st1.
Definition st3 : StateFile := record (sample_bundle 8 [] 2) 52 st2.

Lemma no_rollback_witness :
  is_ok (check st3 (sample_bundle 7 [] 1) None) = false ∧
  Forall (remembers st3) [Accepted (sample_bundle 7 ["00aa"] 1); Seen sample_timestamp; Accepted (sample_bundle 8 [] 2)].
Proof.
  split; [vm_compute; reflexivity|].
  apply (no_rollback fresh_state
    [Accepted (sample_bundle 7 ["00aa"] 1); Seen sample_timestamp; Accepted (sample_bundle 8 [] 2)] st3).
  apply (history_bundle fresh_state _ (Some 5) 50); [vm_compute; reflexivity|].
  apply (history_timestamp st1 _ 51); [vm_compute; reflexivity|].
  apply (history_bundle st2 _ None 52); [vm_compute; reflexivity|].
  apply history_nil.
Defined.

Definition toy_timestamps : Json Freshness.Timestamp := {|
  to_vec _ := Err "not written"%string;
  from_slice bs := if bool_decide (bs = [1]) then Ok sample_timestamp else Err "no such timestamp"%string |}.
#[local] Existing Instance toy_timestamps.

(** A key that only signs timestamps. *)
Definition ts_key : TrustedKeys :=
  Trust.set_keys [Trust.mkKey (MS := TrustProps.toy_minisign) TrustProps.id_a TrustProps.key_a
                    [Trust.Timestamp] None None false] Trust.new.
Definition sha_of_1 : Sha256Digest := Eval vm_compute in Toy.digest [1].
Definition sample_verified : Freshness.VerifiedTimestamp :=
  Freshness.mkVerified sample_timestamp TrustProps.id_a sha_of_1.

Lemma verify_timestamp_sound_witness :
  is_ok (Trust.verify ts_key [1] (TrustProps.key_a +:+ of_bytes [1])%string "f" 50) = false ∧
  Freshness.sound sample_timestamp 50.
Proof.
  split; [vm_compute; reflexivity|].
  apply (verify_timestamp_sound [1] (TrustProps.key_a +:+ of_bytes [1])%string ts_key 50 false sample_verified).
  vm_compute. reflexivity.
Defined.

(** A codec that knows one state. *)
Definition sample_bytes : bytes := [123; 10; 125].
Definition toy_states : Json StateFile := {|
  to_vec st := if bool_decide (st = st1) then Ok sample_bytes else Err "unknown state"%string;
  from_slice bs := if bool_decide (bs = sample_bytes) then Ok st1 else Err "unknown octets"%string |}.
#[local] Existing Instance toy_states.
Definition toy_states_pretty : JsonPretty StateFile := to_vec.
#[local] Existing Instance toy_states_pretty.
Lemma toy_states_laws : JsonPrettyLaws StateFile.
Proof.
  intros st bs. unfold to_vec_pretty, toy_states_pretty. simpl.
  case_bool_decide as Hst; [|done]. intros [= <-]. by rewrite Hst, bool_decide_eq_true_2.
Qed.
#[local] Existing Instance toy_states_laws.
Lemma sample_json : to_vec_pretty st1 = Ok sample_bytes.
Proof. vm_compute. reflexivity. Qed.
Definition old_bytes : bytes := [1; 2].
Definition sample_fs : Fs :=
  mkFs {[ 1 := mkInode old_bytes true RegularFile 0x180 0 0 1 0 0;
          2 := mkInode [9] true RegularFile 0x180 0 0 1 0 0 ]}
    {[ (0, "state.json"%string) := 1; (0, "state.json.tmp"%string) := 2 ]}
    {[ (0, "state.json"%string) := 1 ]}.
Definition sample_state (l : list fault) : Disk.state unit := Disk.mkState tt sample_fs l [] [] [] [] [].

Lemma sample_old : is_file 0 "state.json" (Some old_bytes) sample_fs.
Proof. split; eexists; (split; [reflexivity|done]). Qed.
Lemma sample_apart : apart 0 "state.json" sample_fs.
Proof. intros i [= <-]. done. Qed.

(** The write stops after two octets; a save that returns, with and without
    a directory in the path. *)
Lemma save_atomic_witness :
  match save "/s/state.json" 0 "state.json" 0 st1 (sample_state [Proceed; Short 2]) with
  | Throw _ s' => one_of 0 "state.json" (Some old_bytes) (Some sample_bytes) (fs s')
  | _ => False
  end ∧
  (∀ p, p = "/s/state.json"%string ∨ p = "state.json"%string →
   match save p 0 "state.json" 0 st1 (sample_state []) with
   | Return _ s' =>
       reads (fs s') (live (fs s') !! (0, "state.json"%string)) (Some sample_bytes) ∧
       reads (fs s') (disk (fs s') !! (0, "state.json"%string)) (if has_dir p then Some sample_bytes else Some old_bytes)
   | _ => False
   end) ∧ has_dir "/s/state.json" = true ∧ has_dir "state.json" = false.
Proof.
  split; [|split; [|split; vm_compute; reflexivity]].
  - pose proof (save_atomic "/s/state.json" 0 "state.json" 0 st1 sample_bytes (Some old_bytes)
      (sample_state [Proceed; Short 2]) sample_json sample_old sample_apart) as Hs.
    destruct (save _ _ _ _ _ _) as [a s'|e s'|f] eqn:E; [|exact Hs|]; vm_compute in E; discriminate E.
  - intros p Hp. pose proof (save_atomic p 0 "state.json" 0 st1 sample_bytes (Some old_bytes)
      (sample_state []) sample_json sample_old sample_apart) as Hs.
    destruct Hp as [->| ->]; destruct (save _ _ _ _ _ _) as [a s'|e s'|f] eqn:E;
      first [exact Hs|vm_compute in E; discriminate E].
Defined.

Definition saved_fs : Fs :=
  mkFs {[ 1 := mkInode sample_bytes true RegularFile 0x180 0 0 1 0 0 ]}
    {[ (0, "state.json"%string) := 1 ]} {[ (0, "state.json"%string) := 1 ]}.

Lemma open_after_save_witness :
  match open "/s/state.json" 0 "state.json" (Ok tt) (Ok tt)
          (Disk.mkState tt saved_fs [Proceed; Fails EIO] [] [] [] [] []) with
  | Return st' s' => st' = st1 ∧ fs s' = saved_fs
  | Throw e s' => fs s' = saved_fs ∧ ∃ n, e = IoErr "/s/state.json" (Os n)
  | Lost f => is_file 0 "state.json" (Some sample_bytes) f
  end.
Proof.
  apply (open_after_save "/s/state.json" 0 "state.json" st1 sample_bytes (Some sample_bytes)
           (Disk.mkState tt saved_fs [Proceed; Fails EIO] [] [] [] [] [])).
  - exact sample_json.
  - vm_compute. discriminate.
  - reflexivity.
  - reflexivity.
  - split; eexists; (split; [reflexivity|done]).
  - intros i x [= <-] [= <-]. discriminate.
  - intros [?|[?|[]%not_elem_of_nil]%elem_of_cons]%elem_of_cons; discriminate.
Defined.

End Samples.
End StateProps.
