(* ===== verification/Update.v ===== *)
(** * Content updates

    [crates/update/src/lib.rs]. The content directory is a map from names to
    the files below them. Every change of it, and saving the state, is an
    operation that works, fails, or is the last one before the process dies.
    HTTP is a parameter. *)

From S2P Require Import Prelude Utf8 Paths Core External Trust Bundle ContentState.
Import Trust (TrustError, TrustedKeys, read_bounded).
Import Bundle (Manifest, VerifiedBundle).
Import State (StateFile, StateError).
Import Freshness (Timestamp, FreshnessError).

Module Update.

Definition MAX_SIGNATURE_BYTES : N := 4096.

(** ** Sources *)

Inductive Source := Https (base : string) | Dir (p : path).
#[export] Instance Source_eq_dec : EqDecision Source.
Proof. solve_decision. Defined.

Inductive UpdateError :=
  | SourceErr (why : string)
  | Missing (name : string)
  | Fetch (name reason : string)
  | FreshnessErr (e : FreshnessError)
  | StateErr (e : StateError)
  | BundleErr (e : Bundle.BundleError)
  | Mismatch (why : string)
  | Invalid (why : string)
  | Io (p : path) (source : IoError).

(** [s.contains(p)] for a string [p]. *)
Definition contains (s p : string) : bool := bool_decide (is_Some (String.index 0 p s)).

(** [Source::parse] *)
Definition parse `{StdText} (s : string) : result UpdateError Source :=
  match strip_prefix "https://" s with
  | Some rest =>
      if bool_decide (rest = "") || existsb is_whitespace (chars rest)
      then Err (SourceErr (fmt "invalid URL {s:?}" [debug_str s]))
      else Ok (Https (if ends_with_slash s then s else (s +:+ "/")%string))
  | None =>
      if contains s "://"
      then Err (SourceErr (fmt "{s}: only https:// sources and local directories are supported" [s]))
      else Ok (Dir s)
  end.

(** [url_path]; a byte outside the unreserved characters becomes [%XX]. *)
Definition url_safe (b : N) : bool :=
  is_ascii_alphanumeric b || (b =? 45) || (b =? 46) || (b =? 95) || (b =? 126) || (b =? 47).
Definition url_byte (b : N) : bytes :=
  if url_safe b then [b] else 37 :: as_bytes (to_ascii_uppercase (Digest.hex_encode [b])).
Definition url_path (rel : string) : string := of_bytes (as_bytes rel ≫= url_byte).

Section Fetching.
Context `{ST : StdText}.
(** The HTTP client: the answer to a request for a URL is a failure, or a
    status and the body read with a limit. Files of a local source. *)
Context (http : string → N → result string (N * result string bytes)) (files : Files).

(** [Fetcher::get] *)
Definition get (s : Source) (rel : string) (limit : N) : result UpdateError (option bytes) :=
  match s with
  | Https base =>
      '(code, body) ← map_err (Fetch rel) (http (base +:+ url_path rel)%string limit);
      if code =? 200 then map_err (Fetch rel) (map_ok Some body)
      else if (code =? 404) || (code =? 410) then Ok None
      else Err (Fetch rel (fmt "HTTP status {code}" [show_N code]))
  | Dir base =>
      match files (join base rel) with
      | Err e => if is_not_found e then Ok None else Err (Fetch rel (io_text e))
      | Ok f =>
          if limit <? vlen (octets f) then Err (Fetch rel (fmt "larger than {limit} bytes" [show_N limit]))
          else match failure f with
               | Some e => Err (Fetch rel (io_text e))
               | None => Ok (Some (octets f))
               end
      end
  end.

(** [Fetcher::require] *)
Definition require (s : Source) (rel : string) (limit : N) : result UpdateError bytes :=
  r ← get s rel limit; ok_or r (Missing rel).
End Fetching.

(** ** The content directory *)

(** The files below a directory, by relative path. *)
Abbreviation tree := (gmap string bytes).

(** How an operation ends; [after] is what a failed or interrupted change of a
    directory's files leaves of them. *)
Inductive event := Works | Fails (e : IoError) (after : tree) | Killed (after : tree).

Record world := mkWorld { dirs : gmap string tree; saved : StateFile; script : list event }.

Inductive outcome (A : Type) :=
  | Done (a : A) (w : world)
  | Failed (e : UpdateError) (w : world)
  | Dead (w : world).
Arguments Done {A}.
Arguments Failed {A}.
Arguments Dead {A}.

Definition U (A : Type) : Type := world → outcome A.
#[export] Instance U_ret : MRet U := λ A a w, Done a w.
#[export] Instance U_bind : MBind U := λ A B k m w,
  match m w with Done a w => k a w | Failed e w => Failed e w | Dead w => Dead w end.

Definition fail {A} (e : UpdateError) : U A := λ w, Failed e w.
Definition lift {A} (r : result UpdateError A) : U A :=
  match r with Ok a => mret a | Err e => fail e end.
Definition with_dirs (d : gmap string tree) (w : world) : world := mkWorld d (saved w) (script w).

(** An operation: its effect, and what a failure leaves, given [after]. *)
Definition op (effect : world → world) (broken : tree → world → world) : U (option IoError) := λ w,
  let go l := mkWorld (dirs w) (saved w) l in
  match script w with
  | [] => Done None (effect w)
  | Works :: l => Done None (effect (go l))
  | Fails e t :: l => Done (Some e) (broken t (go l))
  | Killed t :: l => Dead (broken t (go l))
  end.

Definition unchanged (_ : tree) (w : world) : world := w.
Definition leaves (n : string) (t : tree) (w : world) : world :=
  with_dirs (alter (λ _, t) n (dirs w)) w.

(** [op.map_err(io_err(path))?] and [let _ = op] *)
Definition or_io (p : path) (m : U (option IoError)) : U unit :=
  r ← m; match r with None => mret tt | Some e => fail (Io p e) end.
Definition ignore (m : U (option IoError)) : U unit := _ ← m; mret tt.

Definition get_dirs : U (gmap string tree) := λ w, Done (dirs w) w.

(** [remove_dir_all] *)
Definition remove_dir_all (n : string) : U (option IoError) :=
  op (λ w, with_dirs (delete n (dirs w)) w) (leaves n).
(** [rename(a, b)] of a directory: [b] must be free or empty. *)
Definition rename (a b : string) : U (option IoError) :=
  d ← get_dirs;
  match d !! a with
  | None => mret (Some (Os 2))
  | Some t =>
      if bool_decide (default ∅ (d !! b) = ∅)
      then op (λ w, with_dirs (<[b := t]> (delete a (dirs w))) w) unchanged
      else mret (Some (Os 39))
  end.
(** [create_dir] *)
Definition create_dir (n : string) : U (option IoError) :=
  d ← get_dirs;
  match d !! n with
  | Some _ => mret (Some (Os 17))
  | None => op (λ w, with_dirs (<[n := ∅]> (dirs w)) w) unchanged
  end.
(** A file of [t] is where [rel] needs a directory, or the other way round. *)
Definition conflicts (rel : string) (t : tree) : bool :=
  existsb (λ k, str_starts_with rel (k +:+ "/") || str_starts_with k (rel +:+ "/")) (map_to_list t).*1.
(** [write_file(dir.join(rel), data)]: the file must be new. *)
Definition write_file (n rel : string) (data : bytes) : U (option IoError) :=
  d ← get_dirs;
  let t := default ∅ (d !! n) in
  if bool_decide (is_Some (t !! rel)) then mret (Some (Os 17))
  else if conflicts rel t then mret (Some (Os 20))
  else op (λ w, with_dirs (<[n := <[rel := data]> t]> (dirs w)) w) (leaves n).
(** [ContentState::save] replaces the file atomically. *)
Definition save_state (st : StateFile) : U (option IoError) :=
  op (λ w, mkWorld (dirs w) st (script w)) unchanged.

(** [random_suffix]: eight random octets in hexadecimal. *)
Definition eight (bs : bytes) : bytes := take 8 (((λ b, b mod 256) <$> bs) ++ repeat 0 8).
Definition random_suffix (r : result string bytes) : result UpdateError string :=
  map_ok (λ bs, Digest.hex_encode (eight bs)) (map_err SourceErr r).

Definition staging_prefix (n : string) : string := fmt ".staging-{name}-" [n].
Definition old_prefix (n : string) : string := fmt ".old-{name}-" [n].

Fixpoint remove_all (ns : list string) : U unit :=
  match ns with
  | [] => mret tt
  | n :: ns => _ ← ignore (remove_dir_all n); remove_all ns
  end.

(** [old.iter().max()] *)
Definition latest (old : list string) : option string :=
  foldl (λ acc n, match acc with
                  | None => Some n
                  | Some m => if String.leb m n then Some n else Some m
                  end) None old.

(** [recover], over the entries in directory order. *)
Definition recover (n : string) : U unit :=
  d ← get_dirs;
  let names := (map_to_list d).*1 in
  let stale := base.filter (λ x, str_starts_with (display x) (staging_prefix n) = true) names in
  let old := base.filter (λ x, str_starts_with (display x) (staging_prefix n) = false ∧
                               str_starts_with (display x) (old_prefix n) = true) names in
  _ ← remove_all stale;
  d ← get_dirs;
  match d !! n, latest old with
  | None, Some l =>
      r ← rename l n;
      remove_all (match r with None => base.filter (λ x, x ≠ l) old | Some _ => old end)
  | _, _ => remove_all old
  end.

(** ** The update *)

Record UpdateOutcome := mkOutcome {
  bundle : string;
  previous : option N;
  sequence : N;
  installed : path;
  changed : bool;
  timestamp_version : N;
  timestamp_expires : Z }.

Section Running.
Context `{MS : Minisign, ST : StdText, TT : TimeText, SH : Sha256}.
Context `{JM : Json Manifest, JT : Json Timestamp}.
Context (http : string → N → result string (N * result string bytes)) (files : Files).

Record UpdateOptions := mkUpdateOptions {
  opt_source : Source;
  content_dir : path;
  state_path : path;
  opt_keys : TrustedKeys;
  opt_allow_expired : bool;
  validate : VerifiedBundle → result string unit }.

(** The keys with those revoked by accepted bundles revoked. *)
Definition revoke_keys (st : StateFile) (ks : TrustedKeys) : TrustedKeys :=
  foldl (λ ks i, (Trust.revoke i ks).2) ks (State.revoked_list st).

(** A directory of the content directory, as [load_bundle] reads it. *)
Definition tree_files (d : path) (t : tree) : Files := λ p,
  match strip_prefix (d +:+ "/") p with
  | Some rel => match t !! rel with Some bs => Ok (mkSource bs None) | None => Err (Os 2) end
  | None => Err (Os 2)
  end.
Definition tree_dir (t : tree) (d : path) : result string Bundle.Dir :=
  Ok (λ rel, match t !! rel with Some bs => Ok (bs, None) | None => Err "not found"%string end).

(** Steps 2 and 3: download into staging directory [n]. *)
Definition check_manifest (ts : Timestamp) (data : bytes) : result UpdateError Manifest :=
  _ ← reject_if (negb (vlen data =? Freshness.manifest_size ts)
                 || negb (bool_decide (sha256 data = Freshness.manifest_sha256 ts)))
        (Mismatch "manifest.json differs from the one the timestamp names");
  m ← map_err (λ e, Mismatch (fmt "manifest.json: {e}" [e])) (from_slice data);
  _ ← map_err BundleErr (Bundle.validate m);
  _ ← reject_if (negb (bool_decide (Bundle.name m = Freshness.bundle ts))
                 || negb (Bundle.sequence m =? Freshness.sequence ts))
        (Mismatch "manifest name or sequence differs from the timestamp");
  Ok m.

Fixpoint fetch_signatures (src : Source) (d : path) (n : string) (ks : list nat) : U unit :=
  match ks with
  | [] => mret tt
  | k :: ks =>
      let nm := fmt "{MANIFEST_FILE}.minisig.{n}" [Bundle.MANIFEST_FILE; show_N (N.of_nat k)] in
      r ← lift (get http files src nm MAX_SIGNATURE_BYTES);
      match r with
      | Some sig => _ ← or_io (join d nm) (write_file n nm sig); fetch_signatures src d n ks
      | None => mret tt
      end
  end.

Fixpoint fetch_files (src : Source) (d : path) (n : string) (fs : list Bundle.ManifestFile) : U unit :=
  match fs with
  | [] => mret tt
  | f :: fs =>
      data ← lift (require http files src (Bundle.file_path f) (Bundle.file_size f));
      _ ← lift (reject_if (negb (vlen data =? Bundle.file_size f)
                           || negb (bool_decide (sha256 data = Bundle.file_sha256 f)))
                  (Mismatch (fmt "{} differs from its manifest entry" [Bundle.file_path f])));
      _ ← or_io (join d (Bundle.file_path f)) (write_file n (Bundle.file_path f) data);
      fetch_files src d n fs
  end.

Definition download (src : Source) (ts : Timestamp) (d : path) (n : string) : U unit :=
  data ← lift (require http files src Bundle.MANIFEST_FILE Bundle.MAX_MANIFEST_BYTES);
  m ← lift (check_manifest ts data);
  _ ← or_io (join d Bundle.MANIFEST_FILE) (write_file n Bundle.MANIFEST_FILE data);
  let first_sig := fmt "{MANIFEST_FILE}.minisig" [Bundle.MANIFEST_FILE] in
  sig ← lift (require http files src first_sig MAX_SIGNATURE_BYTES);
  _ ← or_io (join d first_sig) (write_file n first_sig sig);
  _ ← fetch_signatures src d n (seq 2 (N.to_nat Bundle.MAX_SIGNATURES - 1));
  fetch_files src d n (Bundle.files m).

(** Step 4: the staged files, verified as a scan would. *)
Definition verify_staged (o : UpdateOptions) (ks : TrustedKeys) (st : StateFile) (now : Z) (d : path)
    (t : tree) : result UpdateError VerifiedBundle :=
  b ← map_err BundleErr (Bundle.load_bundle (tree_files d t) (tree_dir t) d ks
                           (Bundle.mkOptions (opt_allow_expired o) now));
  _ ← map_err StateErr (State.check st b (Trust.min_sequence ks (Bundle.name (Bundle.manifest b))));
  _ ← map_err Invalid (validate o b);
  Ok b.

(** Step 5: swap the staged bundle into place. *)
Definition swap (n staging old : string) (target : path) : U bool :=
  dirs ← get_dirs;
  let had_old := bool_decide (is_Some (dirs !! n)) in
  _ ← (if had_old then or_io target (rename n old) else mret tt);
  r ← rename staging n;
  match r with
  | None => mret had_old
  | Some e =>
      _ ← (if had_old then ignore (rename old n) else mret tt);
      fail (Io target e)
  end.

(** Drop of the staging guard when an error leaves its scope. *)
Definition guarded {A} (n : string) (m : U A) : U A := λ w,
  match m w with
  | Failed e w => match ignore (remove_dir_all n) w with
                  | Done _ w => Failed e w
                  | Failed _ w => Failed e w
                  | Dead w => Dead w
                  end
  | o => o
  end.

(** The installed manifest is the one the timestamp names. *)
Definition is_current (ts : Timestamp) (d : gmap string tree) : bool :=
  match d !! Freshness.bundle ts ≫= lookup Bundle.MANIFEST_FILE with
  | Some data => bool_decide (sha256 data = Freshness.manifest_sha256 ts)
  | None => false
  end.

(** Steps 2 to 5 up to the swap: the bundle, where the one before it was set
    aside, and whether there was one. *)
Definition install (o : UpdateOptions) (ks : TrustedKeys) (st : StateFile) (now : Z) (ts : Timestamp)
    (target : path) (random1 random2 : result string bytes) : U (VerifiedBundle * string * bool) :=
  let n := Freshness.bundle ts in
  s1 ← lift (random_suffix random1);
  let staging := (staging_prefix n +:+ s1)%string in
  let d := join (content_dir o) staging in
  _ ← or_io d (create_dir staging);
  guarded staging (
    _ ← download (opt_source o) ts d staging;
    dirs ← get_dirs;
    b ← lift (verify_staged o ks st now d (default ∅ (dirs !! staging)));
    s2 ← lift (random_suffix random2);
    let old := (old_prefix n +:+ s2)%string in
    had_old ← swap n staging old target;
    mret (b, old, had_old)).

(** [update], given the time, how opening the state ended, how creating the
    content directory ended, and the octets of the two random suffixes. *)
Definition update (o : UpdateOptions) (now : Z) (opened : result StateError StateFile)
    (created : result IoError unit) (random1 random2 : result string bytes) : U UpdateOutcome :=
  ts_data ← lift (require http files (opt_source o) Freshness.TIMESTAMP_FILE Freshness.MAX_TIMESTAMP_BYTES);
  ts_sig ← lift (require http files (opt_source o) (fmt "{TIMESTAMP_FILE}.minisig" [Freshness.TIMESTAMP_FILE])
                   MAX_SIGNATURE_BYTES);
  ts_sig ← lift (ok_or (from_utf8 ts_sig) (Mismatch "timestamp signature is not text"));
  st ← lift (map_err StateErr opened);
  let ks := revoke_keys st (opt_keys o) in
  v ← lift (map_err FreshnessErr (Freshness.verify_timestamp ts_data ts_sig ks now (opt_allow_expired o)));
  let ts := Freshness.timestamp v in
  _ ← lift (map_err StateErr (State.check_timestamp st ts));
  let n := Freshness.bundle ts in
  _ ← lift (map_err (Io (content_dir o)) created);
  _ ← recover n;
  let target := join (content_dir o) n in
  let result changed :=
    mkOutcome n (State.sequence <$> State.record_for st n) (Freshness.sequence ts) target changed
      (Freshness.version ts) (Freshness.expires ts) in
  dirs ← get_dirs;
  if is_current ts dirs then
    _ ← or_io (state_path o) (save_state (State.record_timestamp ts now st));
    mret (result false)
  else
    '(b, old, had_old) ← install o ks st now ts target random1 random2;
    _ ← or_io (state_path o) (save_state (State.record_timestamp ts now (State.record b now st)));
    _ ← (if (had_old : bool) then ignore (remove_dir_all old) else mret tt);
    mret (result true).

(** ** Reasoning about runs *)

(** From [P], a normal end gives [Q], an error [R], and death [D]. *)
Definition spec {A} (P : world → Prop) (m : U A) (Q : A → world → Prop) (R D : world → Prop) : Prop :=
  ∀ w, P w → match m w with Done a w => Q a w | Failed _ w => R w | Dead w => D w end.

Lemma spec_ret {A} (a : A) (P : world → Prop) (Q : A → world → Prop) R D :
  (∀ w, P w → Q a w) → spec P (mret a) Q R D.
Proof. intros HQ w Hw. by apply HQ. Qed.

Lemma spec_bind {A B} P (m : U A) Q (k : A → U B) Q' R D :
  spec P m Q R D → (∀ a, spec (Q a) (k a) Q' R D) → spec P (m ≫= k) Q' R D.
Proof.
  intros Hm Hk w Hw. specialize (Hm w Hw). unfold mbind, U_bind.
  destruct (m w); [by apply Hk|done..].
Qed.

Lemma spec_ret_bind {A B} (a : A) (k : A → U B) P Q R D :
  spec P (k a) Q R D → spec P (mret a ≫= k) Q R D.
Proof. done. Qed.

Lemma spec_conseq {A} (P P' : world → Prop) (m : U A) (Q Q' : A → world → Prop) (R R' D D' : world → Prop) :
  spec P m Q R D → (∀ w, P' w → P w) → (∀ a w, Q a w → Q' a w) → (∀ w, R w → R' w) →
  (∀ w, D w → D' w) → spec P' m Q' R' D'.
Proof. intros Hm HP HQ HR HD w Hw. specialize (Hm w (HP w Hw)). destruct (m w); auto. Qed.

Lemma spec_lift {A} (r : result UpdateError A) (P : world → Prop) (Q : A → world → Prop) (R D : world → Prop) :
  (∀ a w, r = Ok a → P w → Q a w) → (∀ w, P w → R w) → spec P (lift r) Q R D.
Proof. intros HQ HR w Hw. destruct r; simpl; auto. Qed.

Lemma spec_get_dirs_k {A} (k : gmap string tree → U A) (P : world → Prop) Q R D :
  (∀ d, spec P (k d) Q R D) → spec P (get_dirs ≫= k) Q R D.
Proof. intros Hk w Hw. by apply (Hk (dirs w)). Qed.

(** An assertion about the directories and the saved state only. *)
Definition on (F : gmap string tree → StateFile → Prop) (w : world) : Prop := F (dirs w) (saved w).

Lemma spec_op (F : gmap string tree → StateFile → Prop) (Q : option IoError → gmap string tree → StateFile → Prop)
    (effect : world → world) (broken : tree → world → world) R (D : gmap string tree → StateFile → Prop) :
  (∀ w, F (dirs w) (saved w) → Q None (dirs (effect w)) (saved (effect w))) →
  (∀ w e t, F (dirs w) (saved w) → Q (Some e) (dirs (broken t w)) (saved (broken t w))) →
  (∀ w t, F (dirs w) (saved w) → D (dirs (broken t w)) (saved (broken t w))) →
  spec (on F) (op effect broken) (λ r, on (Q r)) R (on D).
Proof.
  intros HQ HE HD w Hw. unfold op, on. destruct (script w) as [|[|e t|t] l].
  - by apply HQ.
  - by apply (HQ (mkWorld (dirs w) (saved w) l)).
  - by apply (HE (mkWorld (dirs w) (saved w) l)).
  - by apply (HD (mkWorld (dirs w) (saved w) l)).
Qed.

Lemma spec_or_io p (m : U (option IoError)) P (Q R D : world → Prop) :
  spec P m (λ r w, match r with None => Q w | Some _ => R w end) R D →
  spec P (or_io p m) (λ _, Q) R D.
Proof. intros Hm. eapply spec_bind; [exact Hm|]. by intros [e|] w Hw. Qed.

Lemma spec_ignore (m : U (option IoError)) P (Q R D : world → Prop) :
  spec P m (λ _, Q) R D → spec P (ignore m) (λ _, Q) R D.
Proof. intros Hm. eapply spec_bind; [exact Hm|]. intros r. by apply spec_ret. Qed.

Lemma spec_guarded {A} n (m : U A) P (Q : A → world → Prop) (R R' D : world → Prop) :
  spec P m Q R D → spec R (remove_dir_all n) (λ _, R') R' D → spec P (guarded n m) Q R' D.
Proof.
  intros Hm Hr w Hw. specialize (Hm w Hw). unfold guarded, ignore, mbind, U_bind.
  destruct (m w) as [a w1|e w1|w1]; [done| |done]. specialize (Hr w1 Hm).
  by destruct (remove_dir_all n w1).
Qed.

(** *** Names *)

(** The name of a bundle, and not of a directory [update] makes for itself. *)
Definition visible (n : string) : Prop :=
  Bundle.valid_name n = true ∧ str_starts_with n ".staging-" = false ∧
  str_starts_with n ".old-" = false.

Lemma visible_display n : visible n → display n = n.
Proof.
  intros [Hv _]. apply lossy_ascii. unfold Bundle.valid_name in Hv. reflect_bools.
  eapply Forall_impl; [done|]. intros c Hc. unfold Bundle.name_byte, is_ascii_alphanumeric,
    is_ascii_digit, is_ascii_upper, is_ascii_lower in Hc. lia.
Qed.

Lemma staging_prefix_eq n : staging_prefix n = (".staging-" +:+ (n +:+ "-"))%string.
Proof. reflexivity. Qed.
Lemma old_prefix_eq n : old_prefix n = (".old-" +:+ (n +:+ "-"))%string.
Proof. reflexivity. Qed.

Lemma visible_not_staging n m x : visible n → str_starts_with x (staging_prefix m) = true → n ≠ x.
Proof.
  intros (_ & Hs & _) Hx ->. rewrite staging_prefix_eq in Hx. apply starts_with_app in Hx. congruence.
Qed.
Lemma visible_not_old n m x : visible n → str_starts_with x (old_prefix m) = true → n ≠ x.
Proof.
  intros (_ & _ & Hs) Hx ->. rewrite old_prefix_eq in Hx. apply starts_with_app in Hx. congruence.
Qed.

Lemma own_prefix p s : str_starts_with (p +:+ s)%string p = true.
Proof. apply starts_with_spec. eauto. Qed.

Lemma staging_not_old n m a b : (staging_prefix n +:+ a)%string ≠ (old_prefix m +:+ b)%string.
Proof. rewrite staging_prefix_eq, old_prefix_eq. discriminate. Qed.

(** *** What keeps a bundle where it is *)

Section Keep.
Context (n : string) (o : option tree).
Definition at_n (d : gmap string tree) (_ : StateFile) : Prop := d !! n = o.

Lemma keep_op effect broken R :
  (∀ w, dirs w !! n = o → dirs (effect w) !! n = o) →
  (∀ t w, dirs w !! n = o → dirs (broken t w) !! n = o) →
  spec (on at_n) (op effect broken) (λ _, on at_n) R (on at_n).
Proof.
  intros He Hb. apply (spec_op at_n (λ _, at_n)); unfold at_n; auto.
Qed.

Lemma keep_remove x R : n ≠ x → spec (on at_n) (remove_dir_all x) (λ _, on at_n) R (on at_n).
Proof.
  intros Hx. apply keep_op; intros; simpl; [by rewrite lookup_delete_ne|by rewrite lookup_alter_ne].
Qed.

Lemma keep_get_dirs {A} (k : gmap string tree → U A) Q R :
  (∀ d, d !! n = o → spec (λ w, on at_n w ∧ dirs w = d) (k d) Q R (on at_n)) →
  spec (on at_n) (get_dirs ≫= k) Q R (on at_n).
Proof. intros Hk w Hw. apply (Hk (dirs w)); done. Qed.

Lemma keep_drop {A} (m : U A) d Q R :
  spec (on at_n) m Q R (on at_n) → spec (λ w, on at_n w ∧ dirs w = d) m Q R (on at_n).
Proof. intros Hm w [Hw _]. by apply Hm. Qed.

Lemma keep_create x R : n ≠ x → spec (on at_n) (create_dir x) (λ _, on at_n) R (on at_n).
Proof.
  intros Hx. apply keep_get_dirs. intros d _. apply keep_drop. destruct (d !! x); [by apply spec_ret|].
  apply keep_op; intros; simpl; [by rewrite lookup_insert_ne|done].
Qed.

Lemma keep_write x rel data R :
  n ≠ x → spec (on at_n) (write_file x rel data) (λ _, on at_n) R (on at_n).
Proof.
  intros Hx. apply keep_get_dirs. intros d _. apply keep_drop.
  cbn zeta. case_bool_decide; [by apply spec_ret|]. destruct (conflicts _ _); [by apply spec_ret|].
  apply keep_op; intros; simpl; [by rewrite lookup_insert_ne|by rewrite lookup_alter_ne].
Qed.

Lemma keep_rename a b R :
  n ≠ a → n ≠ b → spec (on at_n) (rename a b) (λ _, on at_n) R (on at_n).
Proof.
  intros Ha Hb. apply keep_get_dirs. intros d _. apply keep_drop.
  destruct (d !! a); [|by apply spec_ret]. case_bool_decide; [|by apply spec_ret].
  apply keep_op; intros; simpl; [by rewrite lookup_insert_ne, lookup_delete_ne|done].
Qed.

Lemma keep_save st R : spec (on at_n) (save_state st) (λ _, on at_n) R (on at_n).
Proof. by apply keep_op. Qed.

Lemma keep_remove_all xs R :
  Forall (λ x, n ≠ x) xs → spec (on at_n) (remove_all xs) (λ _, on at_n) R (on at_n).
Proof.
  induction 1 as [|x xs Hx _ IH]; simpl; [by apply spec_ret|].
  eapply spec_bind; [by apply spec_ignore, keep_remove|]. intros ?. exact IH.
Qed.

Lemma keep_or_io p m :
  (∀ R, spec (on at_n) m (λ _, on at_n) R (on at_n)) →
  spec (on at_n) (or_io p m) (λ _, on at_n) (on at_n) (on at_n).
Proof.
  intros Hm. apply spec_or_io. eapply spec_conseq; [apply (Hm (on at_n))|..]; try done.
  by intros [] w.
Qed.

Lemma keep_lift {A} (r : result UpdateError A) :
  spec (on at_n) (lift r) (λ _, on at_n) (on at_n) (on at_n).
Proof. by apply spec_lift. Qed.

Lemma stale_not m names :
  visible n → Forall (λ x, n ≠ x)
    (base.filter (λ x, str_starts_with (display x) (staging_prefix m) = true) names).
Proof.
  intros Hv. apply Forall_forall. intros x [Hx _]%list_elem_of_filter ->.
  rewrite visible_display in Hx by done. by eapply (visible_not_staging x).
Qed.

Lemma old_not m names :
  visible n → Forall (λ x, n ≠ x)
    (base.filter (λ x, str_starts_with (display x) (staging_prefix m) = false ∧
                       str_starts_with (display x) (old_prefix m) = true) names).
Proof.
  intros Hv. apply Forall_forall. intros x [[_ Hx] _]%list_elem_of_filter ->.
  rewrite visible_display in Hx by done. by eapply (visible_not_old x).
Qed.

Lemma latest_elem l x : latest l = Some x → x ∈ l.
Proof.
  unfold latest. assert (∀ acc, foldl (λ acc n, match acc with
      | None => Some n | Some m => if String.leb m n then Some n else Some m end) acc l = Some x →
    acc = Some x ∨ x ∈ l) as Hg.
  { induction l as [|y l IH]; intros acc; simpl; [by left|]. intros [Ha|Ha]%IH; [|by right; right].
    destruct acc as [m|]; [destruct (String.leb m y)|]; simplify_eq; auto; right; left. }
  intros Hl. by destruct (Hg None Hl).
Qed.

(** [recover] touches another bundle's directory only, or restores a missing
    one. *)
Lemma keep_recover m R : visible n → n ≠ m ∨ is_Some o →
  spec (on at_n) (recover m) (λ _, on at_n) R (on at_n).
Proof.
  intros Hv Hm. apply keep_get_dirs. intros d Hd. apply keep_drop.
  pose proof (old_not m (map_to_list d).*1 Hv) as Hold.
  eapply spec_bind; [apply keep_remove_all, stale_not, Hv|]. intros ?. apply keep_get_dirs.
  intros d' Hd'. apply keep_drop.
  destruct (d' !! m) as [t|] eqn:Em; [by apply keep_remove_all|].
  destruct (latest _) as [l|] eqn:El; [|by apply keep_remove_all].
  destruct (decide (n = m)) as [->|Hne].
  { destruct Hm as [?|[t ->]]; [done|congruence]. }
  assert (n ≠ l) as Hl by (by eapply Forall_forall in Hold; [|by apply latest_elem]).
  eapply spec_bind; [by apply keep_rename|]. intros r. apply keep_remove_all.
  destruct r; [done|]. apply Forall_forall. intros x [_ Hx]%list_elem_of_filter.
  by eapply Forall_forall in Hold.
Qed.

End Keep.

Lemma keep_fetch_signatures n o src d x ks : n ≠ x →
  spec (on (at_n n o)) (fetch_signatures src d x ks) (λ _, on (at_n n o)) (on (at_n n o)) (on (at_n n o)).
Proof.
  intros Hx. induction ks as [|k ks IH]; simpl; [by apply spec_ret|].
  eapply spec_bind; [apply keep_lift|]. intros [sig|]; [|by apply spec_ret].
  eapply spec_bind; [apply keep_or_io; intros; by apply keep_write|]. intros ?. exact IH.
Qed.

Lemma keep_fetch_files n o src d x fs : n ≠ x →
  spec (on (at_n n o)) (fetch_files src d x fs) (λ _, on (at_n n o)) (on (at_n n o)) (on (at_n n o)).
Proof.
  intros Hx. induction fs as [|f fs IH]; simpl; [by apply spec_ret|].
  eapply spec_bind; [apply keep_lift|]. intros data.
  eapply spec_bind; [apply keep_lift|]. intros ?.
  eapply spec_bind; [apply keep_or_io; intros; by apply keep_write|]. intros ?. exact IH.
Qed.

Lemma keep_download n o src ts d x : n ≠ x →
  spec (on (at_n n o)) (download src ts d x) (λ _, on (at_n n o)) (on (at_n n o)) (on (at_n n o)).
Proof.
  intros Hx. unfold download.
  eapply spec_bind; [apply keep_lift|]. intros data.
  eapply spec_bind; [apply keep_lift|]. intros m.
  eapply spec_bind; [apply keep_or_io; intros; by apply keep_write|]. intros ?.
  eapply spec_bind; [apply keep_lift|]. intros sig.
  eapply spec_bind; [apply keep_or_io; intros; by apply keep_write|]. intros ?.
  eapply spec_bind; [by apply keep_fetch_signatures|]. intros ?. by apply keep_fetch_files.
Qed.

Lemma keep_swap n o m staging old target : n ≠ m → n ≠ staging → n ≠ old →
  spec (on (at_n n o)) (swap m staging old target) (λ _, on (at_n n o)) (on (at_n n o)) (on (at_n n o)).
Proof.
  intros Hm Hs Ho. apply keep_get_dirs. intros d _. apply keep_drop. cbn zeta.
  apply (spec_bind _ _ (λ _, on (at_n n o))).
  { case_bool_decide; [|by apply spec_ret]. apply keep_or_io. intros. by apply keep_rename. }
  intros ?. apply (spec_bind _ _ (λ _, on (at_n n o))); [by apply keep_rename|].
  intros [e|]; [|by apply spec_ret].
  apply (spec_bind _ _ (λ _, on (at_n n o))); [|by intros ? w Hw].
  case_bool_decide; [|by apply spec_ret]. apply spec_ignore. by apply keep_rename.
Qed.

(** *** The swap *)

Section Swap.
Context (n : string) (t0 : tree) (V : tree → Prop).

(** The bundle is the old one, or one that satisfies [V]. *)
Definition kept_or_new (d : gmap string tree) (_ : StateFile) : Prop :=
  d !! n = Some t0 ∨ ∃ t, d !! n = Some t ∧ V t.
(** As before, or the old one is set aside where [recover] finds it. *)
Definition interrupted (d : gmap string tree) (s : StateFile) : Prop :=
  kept_or_new d s ∨ d !! n = None ∧ ∃ x, str_starts_with x (old_prefix n) = true ∧ d !! x = Some t0.

Lemma rename_out staging old o R :
  n ≠ old → staging ≠ n → staging ≠ old → str_starts_with old (old_prefix n) = true →
  spec (on (λ d _, d !! n = Some t0 ∧ d !! staging = o)) (rename n old)
    (λ r, on (λ d _, match r with
      | None => d !! n = None ∧ d !! old = Some t0 ∧ d !! staging = o
      | Some _ => d !! n = Some t0 end)) R (on interrupted).
Proof.
  intros Ho Hs1 Hs2 Hold w [Hn Hs]. unfold rename, mbind, U_bind, get_dirs. rewrite Hn.
  case_bool_decide; [|done].
  apply (spec_op (λ d _, d !! n = Some t0 ∧ d !! staging = o)
    (λ r d _, match r with
      | None => d !! n = None ∧ d !! old = Some t0 ∧ d !! staging = o
      | Some _ => d !! n = Some t0 end) _ _ R interrupted); [| |by intros ? t [? _]; left; left|done].
  - intros w' [? Hst]. simpl. split_and!.
    + by rewrite lookup_insert_ne, lookup_delete_eq.
    + apply lookup_insert_eq.
    + by rewrite lookup_insert_ne, lookup_delete_ne.
  - by intros w' e t [? _].
Qed.

Lemma rename_in staging old R :
  staging ≠ n → old ≠ n → old ≠ staging → str_starts_with old (old_prefix n) = true →
  spec (on (λ d _, d !! n = None ∧ d !! old = Some t0 ∧ ∀ t, d !! staging = Some t → V t))
    (rename staging n)
    (λ r, on (λ d _, match r with
      | None => ∃ t, d !! n = Some t ∧ V t
      | Some _ => d !! n = None ∧ d !! old = Some t0 end)) R (on interrupted).
Proof.
  intros Hs Ho Hso Hold w (Hn & Hold' & HV). unfold rename, mbind, U_bind, get_dirs.
  destruct (dirs w !! staging) as [t|] eqn:Est; [|done]. rewrite Hn. simpl.
  set (Q := λ (r : option IoError) (d : gmap string tree) (_ : StateFile), match r with
    | None => ∃ t, d !! n = Some t ∧ V t | Some _ => d !! n = None ∧ d !! old = Some t0 end).
  apply (spec_op (λ d _, d !! n = None ∧ d !! old = Some t0) Q _ _ R interrupted); [..|done].
  - intros w' _. exists t. simpl. rewrite lookup_insert_eq. auto.
  - by intros w' e t' Hw.
  - intros w' t' Hw. right. split; [apply Hw|]. exists old. split; [done|apply Hw].
Qed.

Lemma rename_back old R :
  old ≠ n → str_starts_with old (old_prefix n) = true →
  spec (on (λ d _, d !! n = None ∧ d !! old = Some t0)) (rename old n)
    (λ _, on interrupted) R (on interrupted).
Proof.
  intros Ho Hold w [Hn Ho']. unfold rename, mbind, U_bind, get_dirs. rewrite Ho', Hn. simpl.
  apply (spec_op (λ d _, d !! n = None ∧ d !! old = Some t0) (λ _, interrupted) _ _ R interrupted); [..|done].
  - intros w' _. left; left. simpl. by rewrite lookup_insert_eq.
  - intros w' e t' Hw. right. split; [apply Hw|]. exists old. split; [done|apply Hw].
  - intros w' t' Hw. right. split; [apply Hw|]. exists old. split; [done|apply Hw].
Qed.

Lemma swap_spec staging old target o :
  staging ≠ n → old ≠ n → staging ≠ old → str_starts_with old (old_prefix n) = true →
  (∀ t, o = Some t → V t) →
  spec (on (λ d _, d !! n = Some t0 ∧ d !! staging = o)) (swap n staging old target)
    (λ _, on kept_or_new) (on interrupted) (on interrupted).
Proof.
  intros Hs Ho Hso Hold HV w [Hn Hst]. unfold swap, mbind at 1, U_bind at 1, get_dirs at 1.
  rewrite Hn, bool_decide_eq_true_2 by eauto.
  apply (spec_bind (on (λ d _, d !! n = Some t0 ∧ d !! staging = o)) _
    (λ _, on (λ d _, d !! n = None ∧ d !! old = Some t0 ∧ ∀ t, d !! staging = Some t → V t))); [| |done].
  { apply spec_or_io. eapply spec_conseq; [apply (rename_out staging old o (on interrupted)); auto|..]; try done.
    intros [e|] w' Hw; [by left; left|]. destruct Hw as (? & ? & Hst'). split_and!; [done|done|]. intros t. rewrite Hst'. apply HV. }
  intros ?. eapply spec_bind; [by apply (rename_in staging old)|]. intros [e|].
  - eapply spec_bind; [apply spec_ignore, (rename_back old); done|]. by intros ? w' Hw.
  - apply spec_ret. intros w' Hw. by right.
Qed.

(** Directories [update] makes for itself do not matter. *)
Lemma interrupted_remove x :
  n ≠ x → (∀ y, str_starts_with y (old_prefix n) = true → y ≠ x) →
  spec (on interrupted) (remove_dir_all x) (λ _, on interrupted) (on interrupted) (on interrupted).
Proof.
  intros Hx Hy.
  assert (∀ d s (f : gmap string tree → gmap string tree), (∀ y, y ≠ x → f d !! y = d !! y) →
    interrupted d s → interrupted (f d) s) as Hf.
  { intros d s f Hd [[Hn|(t & Hn & Ht)]|[Hn (y & Hyp & Hyd)]].
    - left; left. by rewrite Hd.
    - left; right. exists t. by rewrite Hd.
    - right. rewrite Hd by done. split; [done|]. exists y. split; [done|]. rewrite Hd; auto. }
  apply (spec_op interrupted (λ _, interrupted)); intros; simpl.
  - apply (Hf _ _ (delete x)); [|done]. intros. by apply lookup_delete_ne.
  - apply (Hf _ _ (alter (λ _, t) x)); [|done]. intros. by apply lookup_alter_ne.
  - apply (Hf _ _ (alter (λ _, t) x)); [|done]. intros. by apply lookup_alter_ne.
Qed.

End Swap.

(** Files that [verify_staged] accepts. *)
Definition installable (o : UpdateOptions) (st : StateFile) (now : Z) (t : tree) : Prop :=
  ∃ d b, verify_staged o (revoke_keys st (opt_keys o)) st now d t = Ok b.

Section Survives.
Context (n : string) (t0 : tree) (o : UpdateOptions) (now : Z) (st : StateFile) (Hn : visible n).
Abbreviation V := (installable o st now).
Abbreviation K := (on (at_n n (Some t0))).
Abbreviation N := (on (kept_or_new n t0 V)).
Abbreviation I := (on (interrupted n t0 V)).

Lemma weaken_kept {A} (m : U A) : spec K m (λ _, K) K K → spec K m (λ _, K) I I.
Proof. intros Hm. eapply spec_conseq; [exact Hm|..]; auto; intros w Hw; left; by left. Qed.

Lemma lift_kept {A} (r : result UpdateError A) (k : A → U UpdateOutcome) :
  (∀ a, r = Ok a → spec K (k a) (λ _, N) I I) → spec K (lift r ≫= k) (λ _, N) I I.
Proof.
  intros Hk. destruct r as [a|e]; [by apply Hk|]. intros w Hw. left. by left.
Qed.

(** What installing does to the bundle. *)
Lemma install_kept ts target r1 r2 :
  spec K (install o (revoke_keys st (opt_keys o)) st now ts target r1 r2)
    (λ r w, N w ∧ str_starts_with r.1.2 (old_prefix (Freshness.bundle ts)) = true) I I.
Proof.
  unfold install. set (m := Freshness.bundle ts). cbn zeta.
  destruct (random_suffix r1) as [s1|e]; [|intros w Hw; left; by left].
  change (lift (Ok s1)) with (mret (M := U) s1). apply spec_ret_bind.
  set (staging := (staging_prefix m +:+ s1)%string). set (d := join _ staging).
  assert (str_starts_with staging (staging_prefix m) = true) as Hsp by apply own_prefix.
  assert (n ≠ staging) as Hs by by eapply visible_not_staging.
  eapply spec_bind.
  { apply weaken_kept, keep_or_io. intros. by apply keep_create. }
  intros ?.
  assert (∀ x s, str_starts_with x (old_prefix s) = true → x ≠ staging) as Hos.
  { intros x s. rewrite starts_with_spec. intros [r ->]. apply starts_with_spec in Hsp as [q ->].
    apply not_eq_sym, staging_not_old. }
  apply (spec_guarded _ _ _ _ I).
  2:{ apply interrupted_remove; [done|]. intros y. apply Hos. }
  eapply spec_bind; [apply weaken_kept; by apply keep_download|]. intros ? w Hw.
  unfold mbind at 1, U_bind at 1, get_dirs.
  destruct (verify_staged _ _ _ _ _ _) as [b|e] eqn:Ev; [|left; by left].
  destruct (random_suffix r2) as [s2|e]; [|left; by left].
  change (match (had_old ← swap m staging (old_prefix m +:+ s2) target;
      mret (b, (old_prefix m +:+ s2)%string, had_old)) w with
    | Done r w' => N w' ∧ str_starts_with r.1.2 (old_prefix m) = true
    | Failed _ w' => I w' | Dead w' => I w' end).
  pose proof (own_prefix (old_prefix m) s2) as Hop.
  assert (n ≠ (old_prefix m +:+ s2)%string) as Hno by by eapply visible_not_old.
  revert w Hw Ev. destruct (decide (n = m)) as [<-|Hm]; intros w Hw Ev.
  - assert (∀ t, dirs w !! staging = Some t → V t) as HV.
    { intros t Ht. rewrite Ht in Ev. simpl in Ev. exists d, b. exact Ev. }
    refine (spec_bind (on (λ d _, d !! n = Some t0 ∧ d !! staging = dirs w !! staging)) _
      (λ _, N) _ _ I I _ _ w (conj Hw eq_refl)).
    + apply swap_spec; auto.
    + intros b'. apply spec_ret. by split.
  - refine (spec_bind K _ (λ _, K) _ _ I I _ _ w Hw).
    + apply weaken_kept. by apply keep_swap.
    + intros b'. apply spec_ret. intros w' Hw'. split; [by left|done].
Qed.

Lemma new_save st' p : spec N (or_io p (save_state st')) (λ _, N) I I.
Proof.
  apply spec_or_io.
  apply (spec_conseq N N _ (λ _, N) _ I I N I); [|done| |done|intros w Hw; by left].
  - by apply (spec_op (kept_or_new n t0 V) (λ _, kept_or_new n t0 V)).
  - intros [e|] w Hw; [by left|exact Hw].
Qed.

Lemma new_remove x : n ≠ x → spec N (ignore (remove_dir_all x)) (λ _, N) I I.
Proof.
  intros Hx. apply spec_ignore.
  assert (∀ d s (f : gmap string tree → gmap string tree), f d !! n = d !! n →
    kept_or_new n t0 V d s → kept_or_new n t0 V (f d) s) as Hf.
  { intros d s f Hd [?|(t & ? & ?)]; [left|right; exists t]; by rewrite Hd. }
  apply (spec_conseq N N _ (λ _, N) (λ _, N) N I N I); [|done|done|intros w Hw; by left..].
  apply (spec_op (kept_or_new n t0 V) (λ _, kept_or_new n t0 V)); intros; simpl.
  - apply (Hf _ _ (delete x)); [by apply lookup_delete_ne|done].
  - apply (Hf _ _ (alter (λ _, t) x)); [by apply lookup_alter_ne|done].
  - apply (Hf _ _ (alter (λ _, t) x)); [by apply lookup_alter_ne|done].
Qed.

Lemma update_kept created r1 r2 :
  spec K (update o now (Ok st) created r1 r2) (λ _, N) I I.
Proof.
  unfold update. apply lift_kept; intros ts_data _. apply lift_kept; intros sig _.
  apply lift_kept; intros ts_sig _. apply lift_kept; intros a Ha. injection Ha as <-. cbn zeta.
  apply lift_kept; intros v _. apply lift_kept; intros _ _. apply lift_kept; intros _ _.
  set (m := Freshness.bundle (Freshness.timestamp v)).
  eapply spec_bind.
  { apply weaken_kept, keep_recover; [done|]. right. eauto. }
  intros ? w Hw. unfold mbind at 1, U_bind at 1, get_dirs at 1. destruct (is_current _ _); revert w Hw.
  - apply (spec_bind _ _ (λ _, K)).
    + apply weaken_kept, keep_or_io. intros. apply keep_save.
    + intros ?. apply spec_ret. intros w Hw. by left.
  - apply (spec_bind _ _ _ _ _ _ _ (install_kept _ _ _ _)). intros [[b old] had_old].
    apply (spec_bind _ _ (λ _ w, N w ∧ str_starts_with old (old_prefix m) = true)).
    { intros w [Hw Hold]. pose proof (new_save (State.record_timestamp (Freshness.timestamp v) now
        (State.record b now st)) (state_path o) w Hw) as Hs.
      by destruct (or_io _ _ w). }
    intros ? w [Hw Hold]. revert w Hw. apply (spec_bind _ _ (λ _, N)).
    + destruct had_old; [|by apply spec_ret]. apply new_remove. by eapply visible_not_old.
    + intros ?. by apply spec_ret.
Qed.
End Survives.

(** *** Reading the staged files *)

Lemma ends_with_slash_app a b : b ≠ "" → ends_with_slash (a +:+ b) = ends_with_slash b.
Proof.
  intros Hb. induction a as [|c a IH]; simpl; [done|].
  destruct (a +:+ b)%string eqn:E; [by destruct a, b|]. exact IH.
Qed.

Lemma no_slash_end s : Forall (λ b, b ≠ 47) (as_bytes s) → ends_with_slash s = false.
Proof.
  induction s as [|c s IH]; csimpl; [done|]. intros [Hc Hs]%Forall_cons. destruct s; [|by apply IH].
  apply bool_decide_eq_false. intros ->. by apply Hc.
Qed.

Lemma join_relative d rel :
  is_absolute rel = false → d ≠ "" → ends_with_slash d = false →
  join d rel = ((d +:+ "/") +:+ rel)%string.
Proof.
  intros Hr Hd He. unfold join. rewrite Hr, bool_decide_eq_false_2, He by done. simpl.
  symmetry. apply append_assoc.
Qed.

Lemma tree_files_read d rel t limit bs :
  is_absolute rel = false → d ≠ "" → ends_with_slash d = false →
  read_bounded (tree_files d t) (join d rel) limit = Ok bs → t !! rel = Some bs.
Proof.
  intros Hr Hd He. rewrite join_relative by done. unfold read_bounded, tree_files.
  rewrite (proj2 (strip_prefix_Some _ _ rel)) by done. destruct (t !! rel) as [x|]; [|done].
  simpl. destruct (vlen x <=? limit); simpl; congruence.
Qed.

Lemma eight_bytes bs : Forall is_byte (eight bs).
Proof.
  apply Forall_take, Forall_app. split; [|by repeat constructor].
  apply Forall_fmap, Forall_true. intros b. by apply N.mod_lt.
Qed.

Lemma suffix_no_slash r s : random_suffix r = Ok s → Forall (λ b, b ≠ 47) (as_bytes s).
Proof.
  unfold random_suffix. destruct r as [bs|]; simpl; intros [= <-].
  unfold Digest.hex_encode. rewrite as_of_bytes by apply Digest.hex_bytes_byte, eight_bytes.
  apply Forall_bind, Forall_true. intros b.
  assert (∀ v, Digest.hex_digit v ≠ 47) as Hd by (intros v; unfold Digest.hex_digit; case_match; lia).
  by repeat constructor.
Qed.

(** The staging directory's path. *)
Lemma staging_path o n r s :
  random_suffix r = Ok s →
  let d := join (content_dir o) (staging_prefix n +:+ s) in d ≠ "" ∧ ends_with_slash d = false.
Proof.
  intros Hs. set (e := ("-" +:+ s)%string).
  assert (ends_with_slash e = false) as He.
  { apply no_slash_end. unfold e. rewrite as_bytes_app. apply Forall_app.
    split; [by repeat constructor|by eapply suffix_no_slash]. }
  assert ((staging_prefix n +:+ s)%string = ((".staging-" +:+ n) +:+ e)%string) as Heq.
  { rewrite staging_prefix_eq. unfold e. by rewrite !append_assoc. }
  assert (∀ a, ((a +:+ (".staging-" +:+ n)) +:+ e)%string ≠ "" ∧
    ends_with_slash ((a +:+ (".staging-" +:+ n)) +:+ e) = false) as Ha.
  { intros a. split; [by destruct a|by rewrite ends_with_slash_app]. }
  cbn zeta. unfold join. rewrite Heq. change (is_absolute ((".staging-" +:+ n) +:+ e)) with false. cbn iota.
  destruct (_ || _).
  - rewrite <-append_assoc. apply Ha.
  - rewrite <-!append_assoc. specialize (Ha (content_dir o +:+ "/")%string).
    by rewrite <-!append_assoc in Ha.
Qed.

(** *** What a completed update did *)

Abbreviation any := (λ _ : world, True).

Section Done.
Context (s0 : StateFile).

(** Directory [x] exists and, when [c] is given, holds that manifest. *)
Definition staged (x : string) (c : option bytes) (d : gmap string tree) (s : StateFile) : Prop :=
  s = s0 ∧ ∃ t, d !! x = Some t ∧ (is_Some c → t !! Bundle.MANIFEST_FILE = c).

Lemma done_lift {A} (r : result UpdateError A) (P : world → Prop) :
  spec P (lift r) (λ a w, P w ∧ r = Ok a) any any.
Proof. by apply spec_lift. Qed.

Lemma done_write_gen x rel data c c' p :
  (∀ t : tree, (is_Some c → t !! Bundle.MANIFEST_FILE = c) → t !! rel = None →
     is_Some c' → <[rel := data]> t !! Bundle.MANIFEST_FILE = c') →
  spec (on (staged x c)) (or_io p (write_file x rel data)) (λ _, on (staged x c')) any any.
Proof.
  intros Hrel w (Hs & t & Ht & Hc). unfold or_io, write_file, mbind, U_bind, get_dirs. rewrite Ht. simpl.
  destruct (t !! rel) as [y|] eqn:Ey; [by rewrite bool_decide_eq_true_2|].
  rewrite bool_decide_eq_false_2 by apply is_Some_None. destruct (conflicts rel t); [done|].
  assert (∀ l, on (staged x c') (mkWorld (<[x:=<[rel:=data]> t]> (dirs w)) s0 l)) as Hdone.
  { intros l. split; [done|]. exists (<[rel := data]> t). split; [apply lookup_insert_eq|]. auto. }
  rewrite <-Hs in Hdone. unfold op, with_dirs. destruct (script w) as [|[|e t'|t'] l]; try done; apply Hdone.
Qed.

Lemma done_write_manifest x data p :
  spec (on (staged x None)) (or_io p (write_file x Bundle.MANIFEST_FILE data))
    (λ _, on (staged x (Some data))) any any.
Proof. apply done_write_gen. intros. apply lookup_insert_eq. Qed.

Lemma done_write x rel data c p :
  spec (on (staged x (Some c))) (or_io p (write_file x rel data)) (λ _, on (staged x (Some c))) any any.
Proof.
  apply done_write_gen. intros t Hc Hrel ?. rewrite lookup_insert_ne; [auto|].
  intros ->. rewrite Hc in Hrel; [done|eauto].
Qed.

Lemma spec_intro {A} (m : U A) Q (R D : world → Prop) (P1 P2 : world → Prop) :
  spec (λ w, P1 w ∧ P2 w) m Q R D →
  ∀ w, P1 w → P2 w → match m w with Done a w => Q a w | Failed _ w => R w | Dead w => D w end.
Proof. intros Hm w H1 H2. by apply Hm. Qed.

Lemma spec_any {A} P (m : U A) : spec P m (λ _, any) any any.
Proof. intros w _. by destruct (m w). Qed.

Lemma done_lift_keep {A B} (r : result UpdateError A) (k : A → U B) P Q :
  (∀ a, r = Ok a → spec P (k a) Q any any) → spec P (lift r ≫= k) Q any any.
Proof. intros Hk. destruct r as [a|e]; [by apply Hk|done]. Qed.

Lemma done_fetch_signatures src d x ks c :
  spec (on (staged x (Some c))) (fetch_signatures src d x ks) (λ _, on (staged x (Some c))) any any.
Proof.
  induction ks as [|k ks IH]; simpl; [by apply spec_ret|].
  apply done_lift_keep. intros [sig|] _; [|by apply spec_ret].
  eapply spec_bind; [apply done_write|]. intros ?. exact IH.
Qed.

Lemma done_fetch_files src d x fs c :
  spec (on (staged x (Some c))) (fetch_files src d x fs) (λ _, on (staged x (Some c))) any any.
Proof.
  induction fs as [|f fs IH]; simpl; [by apply spec_ret|].
  apply done_lift_keep. intros data _. apply done_lift_keep. intros _ _.
  eapply spec_bind; [apply done_write|]. intros ?. exact IH.
Qed.

(** After the download the staged manifest is the one the timestamp names. *)
Definition named_manifest (ts : Timestamp) (c : bytes) : Prop := ∃ m, check_manifest ts c = Ok m.

Lemma done_download src ts d x :
  spec (on (staged x None)) (download src ts d x)
    (λ _ w, ∃ c, named_manifest ts c ∧ on (staged x (Some c)) w) any any.
Proof.
  unfold download. apply done_lift_keep. intros data _. apply done_lift_keep. intros m Hm.
  eapply spec_bind; [apply done_write_manifest|]. intros ?.
  apply done_lift_keep. intros sig _.
  eapply spec_bind; [apply done_write|]. intros ?.
  eapply spec_bind; [apply done_fetch_signatures|]. intros ?.
  eapply spec_conseq; [apply done_fetch_files|..]; try done.
  intros ? w Hw. exists data. split; [by exists m|done].
Qed.

Lemma done_create x p : spec (λ w, saved w = s0) (or_io p (create_dir x)) (λ _, on (staged x None)) any any.
Proof.
  intros w Hs. unfold or_io, create_dir, mbind, U_bind, get_dirs. destruct (dirs w !! x); [done|].
  assert (∀ l, on (staged x None) (mkWorld (<[x:=∅]> (dirs w)) s0 l)) as Hdone.
  { intros l. split; [done|]. exists ∅. split; [apply lookup_insert_eq|]. by intros [? ?]. }
  rewrite <-Hs in Hdone. unfold op, with_dirs. destruct (script w) as [|[|e t'|t'] l]; try done; apply Hdone.
Qed.

(** A completed swap put the staged files in place. *)
Lemma done_swap n staging old target t :
  staging ≠ n → old ≠ staging →
  spec (on (λ d s, s = s0 ∧ d !! staging = Some t)) (swap n staging old target)
    (λ _, on (λ d s, s = s0 ∧ d !! n = Some t)) any any.
Proof.
  intros Hs Ho w [Hs0 Ht]. unfold swap, mbind at 1, U_bind at 1, get_dirs at 1.
  apply (spec_bind (on (λ d s, s = s0 ∧ d !! staging = Some t)) _
    (λ _, on (λ d s, s = s0 ∧ d !! staging = Some t)) _ _ any any); [| |done].
  { case_bool_decide; [|by apply spec_ret]. apply spec_or_io. intros w' [Hs' Ht'].
    unfold rename, mbind, U_bind, get_dirs. destruct (dirs w' !! n) as [t1|]; [|done].
    case_bool_decide; [|done].
    assert (∀ l, on (λ d s, s = s0 ∧ d !! staging = Some t)
      (mkWorld (<[old:=t1]> (delete n (dirs w'))) (saved w') l)) as Hdone.
    { intros l. split; [done|]. simpl. by rewrite lookup_insert_ne, lookup_delete_ne. }
    unfold op, with_dirs. destruct (script w') as [|[|e t'|t'] l]; try done; apply Hdone. }
  intros ?. apply (spec_bind _ _ (λ r, on (λ d s, s = s0 ∧ (r = None → d !! n = Some t))) _ _ any any).
  - intros w' [Hs' Ht']. unfold rename, mbind, U_bind, get_dirs. rewrite Ht'.
    case_bool_decide; [|by split].
    assert (∀ l, on (λ d s, s = s0 ∧ (None (A:=IoError) = None → d !! n = Some t))
      (mkWorld (<[n:=t]> (delete staging (dirs w'))) (saved w') l)) as Hdone.
    { intros l. split; [done|]. intros _. apply lookup_insert_eq. }
    unfold op, with_dirs. destruct (script w') as [|[|e t'|t'] l]; [apply Hdone..| |done]. by split.
  - intros [e|]; [|apply spec_ret; intros w' [? Hn]; split; auto].
    eapply (spec_bind _ _ (λ _, any)); [apply spec_any|by intros ? w' _].
Qed.

(** A completed installation: the bundle was verified from exactly the files
    now in place, and it is the one the timestamp names. *)
Definition installed_from (o : UpdateOptions) (ks : TrustedKeys) (now : Z) (ts : Timestamp)
    (b : VerifiedBundle) (d : gmap string tree) : Prop :=
  (∃ p t, d !! Freshness.bundle ts = Some t ∧ verify_staged o ks s0 now p t = Ok b) ∧
  Bundle.manifest_sha256 b = Freshness.manifest_sha256 ts ∧
  Bundle.name (Bundle.manifest b) = Freshness.bundle ts ∧
  Bundle.sequence (Bundle.manifest b) = Freshness.sequence ts.

Lemma verify_staged_manifest o ks now d t b c ts :
  d ≠ "" → ends_with_slash d = false → t !! Bundle.MANIFEST_FILE = Some c → named_manifest ts c →
  verify_staged o ks s0 now d t = Ok b →
  Bundle.manifest_sha256 b = Freshness.manifest_sha256 ts ∧
  Bundle.name (Bundle.manifest b) = Freshness.bundle ts ∧
  Bundle.sequence (Bundle.manifest b) = Freshness.sequence ts.
Proof.
  intros Hd He Hc [m Hm] Hv. unfold verify_staged in Hv. inv_result. subst.
  match goal with Hl : Bundle.load_bundle _ _ _ _ _ = _ |- _ =>
    apply Bundle.load_bundle_Ok in Hl as (data & root & Hr & Hp & Hsha & _) end.
  apply tree_files_read in Hr; [|done..]. simplify_eq.
  unfold check_manifest in Hm. inv_result. subst. reflect_bools. rewrite Hsha.
  match goal with Hf : from_slice c = Ok m |- _ => rewrite Hp in Hf; injection Hf as -> end. auto.
Qed.

Lemma done_install o ks now ts target r1 r2 :
  spec (λ w, saved w = s0) (install o ks s0 now ts target r1 r2)
    (λ r w, saved w = s0 ∧ str_starts_with r.1.2 (old_prefix (Freshness.bundle ts)) = true ∧
       installed_from o ks now ts r.1.1 (dirs w)) any any.
Proof.
  unfold install. cbn zeta. apply done_lift_keep. intros s1 Hs1.
  destruct (staging_path o (Freshness.bundle ts) r1 s1 Hs1) as [Hd He].
  set (n := Freshness.bundle ts) in *. set (staging := (staging_prefix n +:+ s1)%string) in *.
  set (d := join (content_dir o) staging) in *.
  eapply spec_bind; [apply done_create|]. intros ?.
  apply (spec_guarded _ _ _ _ any); [|apply spec_any].
  eapply spec_bind; [apply done_download|]. intros ? w (c & Hc & Hs0 & t & Ht & Hm).
  specialize (Hm ltac:(eauto)).
  unfold mbind at 1, U_bind at 1, get_dirs. rewrite Ht. cbn [default].
  revert w Hs0 Ht. apply spec_intro. apply done_lift_keep. intros b Hb.
  apply done_lift_keep. intros s2 Hs2.
  assert (staging ≠ n) as Hsn.
  { intros E. apply (f_equal String.length) in E. revert E. unfold staging.
    rewrite staging_prefix_eq, <-!length_as_bytes, !as_bytes_app, !length_app. simpl. lia. }
  eapply spec_bind.
  { apply (done_swap n staging (old_prefix n +:+ s2) target t Hsn).
    apply not_eq_sym, staging_not_old. }
  intros had. apply spec_ret. intros w [Hs Hn]. split; [done|]. split; [apply own_prefix|].
  split; [by exists d, t|]. by eapply verify_staged_manifest.
Qed.

(** [recover] does not touch the saved state. *)
Abbreviation same := (on (λ _ s, s = s0)).

Lemma same_remove x : spec same (remove_dir_all x) (λ _, same) any any.
Proof.
  eapply spec_conseq; [by apply (spec_op (λ _ s, s = s0) (λ _ _ s, s = s0) _ _ any (λ _ s, s = s0))|..]; done.
Qed.

Lemma same_remove_all xs : spec same (remove_all xs) (λ _, same) any any.
Proof.
  induction xs as [|x xs IH]; simpl; [by apply spec_ret|].
  eapply spec_bind; [apply spec_ignore, same_remove|]. intros ?. exact IH.
Qed.

Lemma same_rename a b : spec same (rename a b) (λ _, same) any any.
Proof.
  intros w Hw. unfold rename, mbind, U_bind, get_dirs. destruct (dirs w !! a); [|done].
  case_bool_decide; [|done]. unfold op. by destruct (script w) as [|[|e t'|t'] l].
Qed.

Lemma same_recover n : spec same (recover n) (λ _, same) any any.
Proof.
  unfold recover. apply spec_get_dirs_k. intros d.
  eapply spec_bind; [apply same_remove_all|]. intros ?. apply spec_get_dirs_k. intros d'.
  destruct (d' !! n); [apply same_remove_all|].
  destruct (latest _); [|apply same_remove_all].
  eapply spec_bind; [apply same_rename|]. intros r. apply same_remove_all.
Qed.

(** Saving [st]. *)
Lemma done_save p st (F : gmap string tree → Prop) :
  spec (λ w, F (dirs w)) (or_io p (save_state st)) (λ _ w, saved w = st ∧ F (dirs w)) any any.
Proof.
  intros w Hw. unfold or_io, save_state, mbind, U_bind, op. by destruct (script w) as [|[|e t|t] l].
Qed.

Lemma done_remove x (F : gmap string tree → StateFile → Prop) :
  (∀ d s f, (∀ y, y ≠ x → f d !! y = d !! y) → F d s → F (f d) s) →
  spec (on F) (ignore (remove_dir_all x)) (λ _, on F) any any.
Proof.
  intros HF. apply spec_ignore.
  eapply spec_conseq; [apply (spec_op F (λ _, F) _ _ any F)|..]; try done; intros; simpl.
  - apply (HF _ _ (delete x)); [intros; by apply lookup_delete_ne|done].
  - apply (HF _ _ (alter (λ _, t) x)); [intros; by apply lookup_alter_ne|done].
  - apply (HF _ _ (alter (λ _, t) x)); [intros; by apply lookup_alter_ne|done].
Qed.
End Done.

(** What a completed update says, of the directories and the saved state it
    leaves. *)
Definition completed (o : UpdateOptions) (now : Z) (st : StateFile) (ts : Timestamp)
    (out : UpdateOutcome) (d : gmap string tree) (s : StateFile) : Prop :=
  bundle out = Freshness.bundle ts ∧ sequence out = Freshness.sequence ts ∧
  if changed out then
    ∃ b, installed_from st o (revoke_keys st (opt_keys o)) now ts b d ∧
      State.history st [State.Accepted b; State.Seen ts] s
  else
    is_current ts d = true ∧ State.history st [State.Seen ts] s ∧
    State.bundles s = State.bundles st ∧ State.revoked_keys s = State.revoked_keys st.

Lemma verify_staged_check o ks st now d t b :
  verify_staged o ks st now d t = Ok b → ∃ floor, State.check st b floor = Ok tt.
Proof. intros Hv. unfold verify_staged in Hv. inv_result. subst. eauto. Qed.

(** Accepting the named bundle and then the timestamp is a history. *)
Lemma accept_history st b ts now floor :
  State.check st b floor = Ok tt → State.check_timestamp st ts = Ok tt →
  Bundle.name (Bundle.manifest b) = Freshness.bundle ts →
  Bundle.sequence (Bundle.manifest b) = Freshness.sequence ts →
  State.history st [State.Accepted b; State.Seen ts]
    (State.record_timestamp ts now (State.record b now st)).
Proof.
  intros Hc Ht Hn Hq. eapply State.history_bundle; [exact Hc|].
  eapply State.history_timestamp; [|apply State.history_nil].
  unfold State.check_timestamp in *. inv_result.
  destruct (State.record_remembers_self b now st floor Hc) as [(r & Hr & Hle & _) _].
  rewrite Hn in Hr. rewrite Hr. cbn [State.timestamps State.record].
  assert (State.sequence r ≤ Freshness.sequence ts) as Hrs.
  { unfold State.record in Hr. simpl in Hr. rewrite Hn in Hr.
    destruct (State.bundles st !! Freshness.bundle ts) as [r0|] eqn:E; simpl in Hr.
    - destruct (State.sequence r0 <? _) eqn:El.
      + rewrite lookup_insert_eq in Hr. simplify_eq. simpl. lia.
      + rewrite E in Hr. simplify_eq. inv_result. reflect_bools. lia.
    - rewrite lookup_insert_eq in Hr. simplify_eq. simpl. lia. }
  match goal with Hv : match State.timestamps st !! _ with _ => _ end = Ok _ |- _ => rewrite Hv end.
  simpl. apply reject_if_Ok. lia.
Qed.

Lemma update_done o now st created r1 r2 :
  spec (on (λ _ s, s = st)) (update o now (Ok st) created r1 r2)
    (λ out w, ∃ v,
       (∃ data text, Freshness.verify_timestamp data text (revoke_keys st (opt_keys o)) now
                       (opt_allow_expired o) = Ok v) ∧
       State.check_timestamp st (Freshness.timestamp v) = Ok tt ∧
       completed o now st (Freshness.timestamp v) out (dirs w) (saved w)) any any.
Proof.
  unfold update. apply done_lift_keep; intros ts_data _. apply done_lift_keep; intros sig _.
  apply done_lift_keep; intros ts_sig _. apply done_lift_keep; intros a Ha. injection Ha as <-. cbn zeta.
  apply done_lift_keep; intros v Hv. apply map_err_Ok in Hv.
  apply done_lift_keep; intros [] Ht. apply map_err_Ok in Ht.
  apply done_lift_keep; intros _ _. set (ts := Freshness.timestamp v) in *.
  eapply spec_bind; [apply same_recover|]. intros ? w Hw.
  unfold mbind at 1, U_bind at 1, get_dirs at 1. destruct (is_current ts (dirs w)) eqn:Ec.
  - assert (is_current ts (dirs w) = true) as Hcur by done. revert Hcur. clear Ec Hw. revert w.
    apply (spec_bind (λ w, is_current ts (dirs w) = true) _ _ _ _ _ _
      (done_save _ _ (λ d, is_current ts d = true))).
    intros ?. apply spec_ret. intros w [Hs Hc]. exists v. split; [eauto|]. split; [done|].
    split; [done|]. split; [done|]. simpl. rewrite Hs. split; [done|]. split.
    + eapply State.history_timestamp; [done|apply State.history_nil].
    + unfold State.record_timestamp. by case_match.
  - clear Ec. revert w Hw.
    apply (spec_bind _ _ _ _ _ _ _ (done_install st o _ now ts _ r1 r2)). intros [[b old] had_old].
    cbn [fst snd]. intros w (_ & Hold & Hi). revert w Hi.
    apply (spec_bind (λ w, installed_from st o (revoke_keys st (opt_keys o)) now ts b (dirs w)) _ _ _ _ _ _
      (done_save _ _ (λ d, installed_from st o (revoke_keys st (opt_keys o)) now ts b d))).
    intros ?. set (F := λ d s, s = State.record_timestamp ts now (State.record b now st) ∧
      installed_from st o (revoke_keys st (opt_keys o)) now ts b d).
    apply (spec_bind (on F) _ (λ _, on F)).
    + destruct had_old; [|by apply spec_ret]. apply done_remove.
      intros d s f Hf [Hs ((q & t & Hn & Hq) & Hrest)]. split; [done|]. split; [|done].
      exists q, t. rewrite Hf; [done|]. intros E. apply starts_with_spec in Hold as [x Hx].
      rewrite Hx, old_prefix_eq in E. apply (f_equal String.length) in E. revert E.
      rewrite <-!length_as_bytes, !as_bytes_app, !length_app. simpl. lia.
    + intros ?. apply spec_ret. intros w [Hs Hi]. exists v. split; [eauto|]. split; [done|].
      split; [done|]. split; [done|]. simpl. exists b. split; [done|]. rewrite Hs.
      destruct Hi as ((q & t & _ & Hq) & _ & Hn & Hseq).
      destruct (verify_staged_check _ _ _ _ _ _ _ Hq) as [floor Hc]. by eapply accept_history.
Qed.

(** *** Recovery *)

Lemma latest_cons y l : latest (y :: l) ≠ None.
Proof.
  unfold latest. simpl. generalize y. induction l as [|z l IH]; intros m; simpl; [done|].
  destruct (String.leb m z); apply IH.
Qed.

Section Recovers.
Context (n x : string) (t0 : tree) (Hn : visible n)
  (Hx : str_starts_with (display x) (old_prefix n) = true).

Definition set_aside (w : world) : Prop :=
  script w = [] ∧ dirs w !! n = None ∧ dirs w !! x = Some t0.

Lemma x_not_stale m : str_starts_with (display x) (staging_prefix m) = false.
Proof.
  apply not_true_is_false. intros Hs.
  destruct (proj1 (starts_with_spec _ _) Hx) as [a Ha]. destruct (proj1 (starts_with_spec _ _) Hs) as [b Hb].
  rewrite Ha in Hb. exact (staging_not_old _ _ _ _ (eq_sym Hb)).
Qed.

Lemma aside_remove y : n ≠ y → x ≠ y →
  spec set_aside (ignore (remove_dir_all y)) (λ _, set_aside) (λ _, False) (λ _, False).
Proof.
  intros Hny Hxy. apply spec_ignore. intros w (Hs & ? & ?). unfold remove_dir_all, op. rewrite Hs.
  split; [done|]. simpl. by rewrite !lookup_delete_ne.
Qed.

Lemma aside_remove_all ys : Forall (λ y, n ≠ y ∧ x ≠ y) ys →
  spec set_aside (remove_all ys) (λ _, set_aside) (λ _, False) (λ _, False).
Proof.
  induction 1 as [|y ys [? ?] _ IH]; simpl; [by apply spec_ret|].
  eapply spec_bind; [by apply aside_remove|]. intros ?. exact IH.
Qed.

Definition restored (w : world) : Prop := script w = [] ∧ dirs w !! n = Some t0.

Lemma restored_remove_all ys : Forall (λ y, n ≠ y) ys →
  spec restored (remove_all ys) (λ _, restored) (λ _, False) (λ _, False).
Proof.
  induction 1 as [|y ys ? _ IH]; simpl; [by apply spec_ret|].
  eapply spec_bind; [|intros ?; exact IH]. apply spec_ignore. intros w (Hs & ?).
  unfold remove_dir_all, op. rewrite Hs. split; [done|]. simpl. by rewrite lookup_delete_ne.
Qed.

Lemma recover_restored w :
  set_aside w →
  (∀ y, is_Some (dirs w !! y) → str_starts_with (display y) (old_prefix n) = true → y = x) →
  match recover n w with Done _ w' => restored w' | _ => False end.
Proof.
  intros Hw Huniq. unfold recover, mbind at 1, U_bind at 1, get_dirs at 1. cbn zeta.
  set (names := (map_to_list (dirs w)).*1).
  set (old := base.filter (λ y, _ ∧ _) names). set (stale := base.filter _ names).
  assert (∀ y, y ∈ old → y = x) as Hold.
  { intros y [[_ Hy] Hin]%list_elem_of_filter. apply Huniq; [|done].
    apply list_elem_of_fmap in Hin as ([? t] & -> & Hin). apply elem_of_map_to_list in Hin. eauto. }
  assert (x ∈ old) as Hxo.
  { apply list_elem_of_filter. split; [split; [apply x_not_stale|done]|]. unfold names.
    apply list_elem_of_fmap. exists (x, t0). split; [done|]. apply elem_of_map_to_list, Hw. }
  assert (Forall (λ y, n ≠ y) old) as Hno by by apply old_not.
  assert (Forall (λ y, n ≠ y ∧ x ≠ y) stale) as Hst.
  { apply Forall_forall. intros y Hy. split; [by eapply Forall_forall in Hy; [|by apply stale_not]|].
    intros <-. apply list_elem_of_filter in Hy as [Hy _]. by rewrite x_not_stale in Hy. }
  apply (spec_bind _ _ (λ _, set_aside) _ _ _ _ (aside_remove_all stale Hst)); [|exact Hw].
  intros ? w1 (Hs1 & Hn1 & Hx1). unfold mbind at 1, U_bind at 1, get_dirs at 1. rewrite Hn1.
  destruct (latest old) as [l|] eqn:El.
  - apply latest_elem in El. apply Hold in El as ->.
    unfold mbind, U_bind, rename, mbind, U_bind, get_dirs. rewrite Hx1, Hn1. simpl.
    rewrite bool_decide_eq_true_2 by done. unfold op. rewrite Hs1. apply restored_remove_all.
    + apply Forall_forall. intros y [_ Hy]%list_elem_of_filter. by eapply Forall_forall in Hno.
    + split; [done|]. simpl. apply lookup_insert_eq.
  - exfalso. destruct old as [|y old']; [by apply not_elem_of_nil in Hxo|]. by apply latest_cons in El.
Qed.
End Recovers.

End Running.
End Update.

(** ** Properties *)
Module UpdateProps.
Import Update.

Section Props.
Context `{MS : Minisign, ST : StdText, TT : TimeText, SH : Sha256}.
Context `{JM : Json Manifest, JT : Json Timestamp}.
Context (http : string → N → result string (N * result string bytes)) (files : Files).

(** C9: an update that completes has checked a timestamp signed under the
    keys left after the recorded revocations and not older than what the
    state knows. If it changed the bundle, the files now in place are exactly
    files that load as a bundle with those keys, pass the rollback check and
    the caller's validation, and carry the manifest, name and sequence the
    timestamp names, and the saved state follows from the old one by
    accepting that bundle and that timestamp. If it changed nothing, the
    installed manifest has the named hash, and only the timestamp was
    recorded: neither the bundle's sequence nor its revocations. *)
Theorem completed_update_verified o now created r1 r2 w out w'
    (Hu : update http files o now (Ok (saved w)) created r1 r2 w = Done out w') :
  ∃ v, (∃ data text, Freshness.verify_timestamp data text
          (revoke_keys (saved w) (opt_keys o)) now (opt_allow_expired o) = Ok v) ∧
    State.check_timestamp (saved w) (Freshness.timestamp v) = Ok tt ∧
    completed o now (saved w) (Freshness.timestamp v) out (dirs w') (saved w').
Proof.
  pose proof (update_done http files o now (saved w) created r1 r2 w eq_refl) as Hd. by rewrite Hu in Hd.
Qed.

(** C6: whatever operation of an update fails, and wherever the process dies,
    a bundle that was installed is not lost and nothing unverified takes its
    place: its directory still holds the same files, or files that were
    verified completely as a newer bundle; or, only when the update did not
    complete, the swap was interrupted and the old files are intact under the
    name [recover] looks for. *)
Theorem installed_bundle_survives n t0 o now st created r1 r2 w
    (Hn : visible n) (Ht : dirs w !! n = Some t0) :
  match update http files o now (Ok st) created r1 r2 w with
  | Done _ w' => kept_or_new n t0 (installable o st now) (dirs w') (saved w')
  | Failed _ w' | Dead w' => interrupted n t0 (installable o st now) (dirs w') (saved w')
  end.
Proof. exact (update_kept http files n t0 o now st Hn created r1 r2 w Ht). Qed.
End Props.

(** After an interrupted swap, a run of [recover] whose operations work
    puts the old bundle back, when it is the only one set aside under its
    name. *)
Theorem recover_restores n x t0 w
    (Hn : visible n) (Hx : str_starts_with (display x) (old_prefix n) = true)
    (Hs : script w = []) (Hmissing : dirs w !! n = None) (Haside : dirs w !! x = Some t0)
    (Honly : ∀ y, is_Some (dirs w !! y) → str_starts_with (display y) (old_prefix n) = true → y = x) :
  match recover n w with Done _ w' => dirs w' !! n = Some t0 | _ => False end.
Proof.
  pose proof (recover_restored n x t0 Hn Hx w (conj Hs (conj Hmissing Haside)) Honly) as Hr.
  destruct (recover n w); [by destruct Hr|done..].
Qed.

(** ** Instances *)

Definition beta : tree := {[ "manifest.json"%string := [7] ]}.
Definition aside_world (names : gmap string tree) : world := mkWorld names State.fresh_state [].

Lemma recover_restores_witness :
  match recover "official" (aside_world {[ ".old-official-00"%string := beta ]}) with
  | Done _ w' => dirs w' !! "official"%string = Some beta
  | _ => False
  end.
Proof.
  apply (recover_restores "official" ".old-official-00" beta); try reflexivity.
  - split; [reflexivity|split; reflexivity].
  - intros y Hy _. simpl in Hy. apply lookup_singleton_is_Some in Hy. done.
Defined.

(** What stands at [n] when an operation that succeeds ends. *)
Definition left_at {A} (o : outcome A) (n : string) : option (option tree) :=
  match o with Done _ w' => Some (dirs w' !! n) | _ => None end.

(** Recovering one bundle can take or destroy another whose name extends
    it: with [official] missing, what was set aside for [official-beta]
    becomes [official]; with [official] installed, it is deleted, although
    [official-beta] has no other copy. *)
Theorem recover_takes_other_bundle :
  let aside := aside_world {[ ".old-official-beta-00"%string := beta ]} in
  let both := aside_world {[ ".old-official-beta-00"%string := beta; "official"%string := ∅ ]} in
  left_at (recover "official" aside) "official" = Some (Some beta) ∧
  left_at (recover "official" both) "official" = Some (Some ∅) ∧
  left_at (recover "official" both) ".old-official-beta-00" = Some None ∧
  left_at (recover "official" both) "official-beta" = Some None.
Proof. split_and!; vm_compute; reflexivity. Qed.

Section Samples.
#[local] Existing Instances toy_text toy_time TrustProps.toy_minisign Toy.sha BundleProps.toy_manifests.

Definition sample_ts : Timestamp :=
  Freshness.mkTimestamp Freshness.TIMESTAMP_FORMAT 1 3 "official" 7 BundleProps.manifest_sha 1 40%Z 90%Z.
Definition toy_ts : Json Timestamp := {|
  to_vec _ := Err "not written"%string;
  from_slice bs := if bool_decide (bs = [2]) then Ok sample_ts else Err "no such timestamp"%string |}.
#[local] Existing Instance toy_ts.

Definition both_roles : TrustedKeys :=
  Trust.set_keys [Trust.mkKey (MS := TrustProps.toy_minisign) TrustProps.id_a TrustProps.key_a
                    [Trust.Content; Trust.Timestamp] None None false] Trust.new.
Definition signed (bs : bytes) : bytes := as_bytes TrustProps.key_a ++ bs.
(** A mirror on disk. *)
Definition mirror : Files := λ p,
  let entries : list (string * bytes) :=
    [("/m/timestamp.json", [2]); ("/m/timestamp.json.minisig", signed [2]);
     ("/m/manifest.json", [1]); ("/m/manifest.json.minisig", signed [1]);
     ("/m/rules/a.yar", BundleProps.sample_data)]%string in
  match head (base.filter (λ e, e.1 = p) entries) with
  | Some e => Ok (mkSource e.2 None)
  | None => Err (Os 2)
  end.
Definition no_http (_ : string) (_ : N) : result string (N * result string bytes) := Err "offline"%string.
Definition sample_options : UpdateOptions :=
  mkUpdateOptions (Dir "/m") "/c" "/s" both_roles false (λ _, Ok tt).
Definition old_tree : tree := {[ "manifest.json"%string := [9] ]}.
Definition sample_world (l : list event) : world :=
  mkWorld {[ "official"%string := old_tree ]} State.fresh_state l.
Definition run (l : list event) : outcome UpdateOutcome :=
  update no_http mirror sample_options 50 (Ok State.fresh_state) (Ok tt) (Ok [1]) (Ok [2]) (sample_world l).
Definition sample_out : UpdateOutcome :=
  Eval vm_compute in match run [] with
    | Done out _ => out
    | _ => mkOutcome "" None 0 "" false 0 0%Z
    end.
Definition done_world : world :=
  Eval vm_compute in match run [] with Done _ w => w | _ => sample_world [] end.

Lemma completed_update_verified_witness :
  changed sample_out = true ∧ bool_decide (dirs done_world !! "official"%string = Some old_tree) = false ∧
  ∃ v, (∃ data text, Freshness.verify_timestamp data text
          (revoke_keys State.fresh_state both_roles) 50 false = Ok v) ∧
    State.check_timestamp State.fresh_state (Freshness.timestamp v) = Ok tt ∧
    completed sample_options 50 State.fresh_state (Freshness.timestamp v) sample_out
      (dirs done_world) (saved done_world).
Proof.
  split; [reflexivity|]. split; [vm_compute; reflexivity|].
  apply (completed_update_verified no_http mirror sample_options 50 (Ok tt) (Ok [1]) (Ok [2]) (sample_world [])).
  vm_compute. reflexivity.
Defined.

(** The process dies after the old bundle was set aside. *)
Definition killed : list event := repeat Works 5 ++ [Killed ∅].

Lemma installed_bundle_survives_witness :
  match run killed with
  | Dead w' => dirs w' !! "official"%string = None ∧
      interrupted "official" old_tree (installable sample_options State.fresh_state 50) (dirs w') (saved w')
  | _ => False
  end.
Proof.
  pose proof (installed_bundle_survives no_http mirror "official" old_tree sample_options 50 State.fresh_state
    (Ok tt) (Ok [1]) (Ok [2]) (sample_world killed)) as Hs.
  specialize (Hs ltac:(split; [reflexivity|split; reflexivity]) eq_refl). fold (run killed) in Hs.
  destruct (run killed) as [out w'|e w'|w'] eqn:E; [vm_compute in E; discriminate E..|].
  split; [|exact Hs].
  assert (match run killed with Dead w => dirs w !! "official"%string | _ => Some ∅ end = None) as Hd
    by (vm_compute; reflexivity).
  by rewrite E in Hd.
Defined.
End Samples.

End UpdateProps.
