(* ===== verification/Fsio.v ===== *)
(** * Opening and reading one file: [crates/engine/src/fsio.rs]

    The Linux build. The kernel's answers are parameters of the model: what
    each open call returns, and for every pass of the read loop whether the
    scan was cancelled, the time, and how many octets the read delivered. A
    file that changes while it is read is a handle whose octets are those the
    reads deliver, in order. *)

From S2P Require Import Prelude Utf8 Paths Core External.

(** What kind of error [io::Error::kind] reports for an error that was not
    made from an [errno]. *)
Inductive ErrorKind := KNotFound | KPermissionDenied | KInterrupted | KOther.
#[export] Instance ErrorKind_eq_dec : EqDecision ErrorKind.
Proof. solve_decision. Defined.
Class OtherKinds := other_kind : string → ErrorKind.

Module Fsio.
Import Config.

Definition READ_CHUNK : N := 64 * 1024.

Definition EPERM : N := 1.
Definition EINTR : N := 4.
Definition EACCES : N := 13.
Definition EMLINK : N := 31.
Definition ENOSYS : N := 38.
Definition ELOOP : N := 40.

(** [e.kind()] *)
Definition kind `{OtherKinds} (e : IoError) : ErrorKind :=
  match e with
  | Os n =>
      if n =? 2 then KNotFound
      else if (n =? EPERM) || (n =? EACCES) then KPermissionDenied
      else if n =? EINTR then KInterrupted
      else KOther
  | OtherError t => other_kind t
  end.

(** ** Archive signatures ([archive.rs]) *)

Definition starts_with_bytes (p bs : bytes) : bool := bool_decide (take (length p) bs = p).

Definition looks_like_zip (prefix : bytes) : bool :=
  starts_with_bytes [80; 75; 3; 4] prefix || starts_with_bytes [80; 75; 5; 6] prefix ||
  starts_with_bytes [80; 75; 7; 8] prefix.

Definition may_contain_zip (prefix : bytes) : bool :=
  looks_like_zip prefix || starts_with_bytes [77; 90] prefix.

(** ** Open calls *)

Inductive FileType := Regular | Directory | Symlink | Special.
#[export] Instance FileType_eq_dec : EqDecision FileType.
Proof. solve_decision. Defined.

(** [fstat] of the open handle. *)
Record Metadata := mkMetadata {
  file_type : FileType; meta_len : N; meta_modified : option Z; permissions : N;
  dev : N; ino : N }.

(** An open file: its metadata, and the octets its reads will deliver. *)
Record Handle := mkHandle { metadata : result IoError Metadata; data : bytes }.

Definition O_NOCTTY : N := 0x100.
Definition O_NONBLOCK : N := 0x800.
Definition O_NOFOLLOW : N := 0x20000.
Definition O_NOATIME : N := 0x40000.
Definition O_CLOEXEC : N := 0x80000.
Definition NO_MAGICLINKS : N := 0x02.
Definition NO_SYMLINKS : N := 0x04.

(** The system calls [open_for_scan] can make; [Beneath] is
    [cap_std::fs::Dir::open_with] below the scan root with
    [FollowSymlinks::No]. *)
Inductive OpenCall :=
  | Openat2 (p : path) (flags resolve : N)
  | Openat (p : path) (flags : N)
  | Beneath (base rel : path) (flags : N).

Definition bor (l : list N) : N := foldr N.lor 0 l.

(** [path.strip_prefix(base)] *)
Definition path_strip_prefix (p base : path) : option path :=
  if path_starts_with p base then Some (render (drop (length (components base)) (components p)))
  else None.

Inductive HashFileError :=
  | Skipped (r : Report.SkipReason)
  | Cancelled
  | TimedOut (bytes_read : N)
  | Io (e : IoError).

(** [thiserror]'s [Display]; [Skipped] prints the reason's [Debug] text. *)
Definition hash_file_text `{StdText} (debug : Report.SkipReason → string) (e : HashFileError) : string :=
  match e with
  | Skipped r => ("not scanned: " +:+ debug r)%string
  | Cancelled => "cancelled"
  | TimedOut n => fmt "time limit exceeded after reading {bytes_read} bytes" [show_N n]
  | Io e => io_text e
  end.

Record ReadOptions := mkReadOptions {
  policy : SymlinkPolicy;
  opt_max_size : N;
  content_limit : option N;
  deadline : option Z;
  seen : option (gset (N * N));
  base : option path;
  keep_only_archives : bool }.

Record HashedFile := mkHashed { hashed_sha256 : Sha256Digest; hashed_metadata : Finding.FileMetadata }.
Record ReadOutcome := mkOutcome { hashed : HashedFile; has_content : bool; zip_magic : bool }.

(** One pass of the read loop: the token, the clock, the [read] call. *)
Inductive read_answer := Gives (n : N) | Fails (e : IoError).
Record tick := mkTick { is_cancelled : bool; now : Z; answer : read_answer }.

(** The loop's variables, and the octets the handle still holds. *)
Record reading := mkReading {
  hasher : bytes; content : bytes; keep : bool; magic : bool; total : N; rest : bytes }.

Section Reading.
Context `{OK : OtherKinds, SH : Sha256}.
Context (os : OpenCall → result IoError Handle).

Definition open_beneath (b p : path) (flags : N) : result IoError Handle :=
  match path_strip_prefix p b with
  | None => Err (OtherError "path is not below its scan root")
  | Some rel => os (Beneath b rel flags)
  end.

Definition is_escape_refusal `{StdText} (e : IoError) : bool :=
  bool_decide (kind e = KPermissionDenied) &&
  bool_decide (io_text e = "a path led outside of the filesystem"%string).

Definition is_symlink_refusal (e : IoError) : bool :=
  bool_decide (e = Os ELOOP) || bool_decide (e = Os EMLINK).

Definition base_flags : N := bor [O_NONBLOCK; O_NOCTTY; O_CLOEXEC].

(** The closure [open] of [open_for_scan]. *)
Definition open_with (pol : SymlinkPolicy) (b : option path) (p : path) (flags : N)
    : result IoError Handle :=
  match pol with
  | Skip =>
      match os (Openat2 p (N.lor flags O_NOFOLLOW) (N.lor NO_SYMLINKS NO_MAGICLINKS)) with
      | Err (Os n) =>
          if n =? ENOSYS then
            match b with
            | Some b => open_beneath b p (N.land flags (bor [O_NONBLOCK; O_NOCTTY; O_NOATIME]))
            | None => os (Openat p (N.lor flags O_NOFOLLOW))
            end
          else Err (Os n)
      | r => r
      end
  | Follow => os (Openat p flags)
  end.

Definition open_for_scan (p : path) (pol : SymlinkPolicy) (b : option path) : result IoError Handle :=
  match open_with pol b p (N.lor base_flags O_NOATIME) with
  | Err (Os n) => if n =? EPERM then open_with pol b p base_flags else Err (Os n)
  | other => other
  end.

(** ** Reading *)

Definition file_id (m : Metadata) : option (N * N) := Some (dev m, ino m).
Definition unix_mode (m : Metadata) : option N := Some (N.land (permissions m) 0xFFF).

(** [reader.read(&mut buf)] through [file.take(max_size + 1)]: at most a
    buffer, at most what the limit leaves. *)
Definition read_some (limit : N) (n : N) (r : reading) : bytes :=
  take (N.to_nat (N.min n (N.min READ_CHUNK (limit - total r)))) (rest r).

(** The body of the loop after a read that delivered [buf]. *)
Definition absorb (o : ReadOptions) (climit : option N) (buf : bytes) (r : reading)
    : result HashFileError reading :=
  let first := total r =? 0 in
  let magic := if first then looks_like_zip buf else magic r in
  let keep := keep r && negb (first && keep_only_archives o && negb (may_contain_zip buf)) in
  let total := total r + vlen buf in
  let rest := drop (length buf) (rest r) in
  if opt_max_size o <? total then Err (Skipped Report.ExceedsMaxFileSize)
  else
    let fed := hasher r ++ buf in
    if keep then
      match climit with
      | Some limit =>
          if limit <? total then Ok (mkReading fed [] false magic total rest)
          else Ok (mkReading fed (content r ++ buf) true magic total rest)
      | None => Ok (mkReading fed (content r ++ buf) true magic total rest)
      end
    else Ok (mkReading fed (content r) false magic total rest).

(** The read loop; [None] when it is still running after the given passes. *)
Fixpoint read_loop (o : ReadOptions) (climit : option N) (ticks : list tick) (r : reading)
    : option (result HashFileError reading) :=
  match ticks with
  | [] => None
  | t :: ticks =>
      if is_cancelled t then Some (Err Cancelled)
      else if match deadline o with Some d => (d <=? now t)%Z | None => false end
      then Some (Err (TimedOut (total r)))
      else
        match answer t with
        | Fails e =>
            if bool_decide (kind e = KInterrupted) then read_loop o climit ticks r
            else Some (Err (Io e))
        | Gives n =>
            match read_some (saturating_add64 (opt_max_size o) 1) n r with
            | [] => Some (Ok r)
            | buf =>
                match absorb o climit buf r with
                | Ok r => read_loop o climit ticks r
                | Err e => Some (Err e)
                end
            end
        end
  end.

(** [opts.content_limit.filter(|&limit| meta.len() <= limit)] *)
Definition usable_limit (o : ReadOptions) (m : Metadata) : option N :=
  match content_limit o with
  | Some limit => if meta_len m <=? limit then Some limit else None
  | None => None
  end.

Definition start (o : ReadOptions) (m : Metadata) (bs : bytes) : reading :=
  mkReading [] [] (bool_decide (is_Some (usable_limit o m))) false 0 bs.

(** The open, and the checks before the first read: the handle, its metadata
    and the set of files seen with this one in it. *)
Definition admit_file `{StdText} (p : path) (o : ReadOptions)
    : result HashFileError (Metadata * bytes * option (gset (N * N))) :=
  h ← match open_for_scan p (policy o) (base o) with
      | Ok h => Ok h
      | Err e =>
          if is_symlink_refusal e || is_escape_refusal e
          then Err (Skipped Report.SymlinkNotFollowed) else Err (Io e)
      end;
  m ← map_err Io (metadata h);
  _ ← reject_if (bool_decide (file_type m = Symlink)) (Skipped Report.SymlinkNotFollowed);
  _ ← reject_if (negb (bool_decide (file_type m = Regular))) (Skipped Report.NotRegularFile);
  _ ← reject_if (opt_max_size o <? meta_len m) (Skipped Report.ExceedsMaxFileSize);
  match seen o, file_id m with
  | Some set, Some id =>
      if bool_decide (id ∈ set) then Err (Skipped Report.DuplicateFile)
      else Ok (m, data h, Some ({[ id ]} ∪ set))
  | s, _ => Ok (m, data h, s)
  end.

Definition finish (m : Metadata) (r : reading) : ReadOutcome :=
  mkOutcome
    (mkHashed (sha256 (hasher r)) (Finding.Build_FileMetadata (total r) (meta_modified m) (unix_mode m)))
    (keep r) (magic r).

(** [read_file], once the loop has returned: the outcome and the caller's
    buffer, and the files seen (entered before the first read, so also after
    an error). *)
Definition read_file `{StdText} (p : path) (o : ReadOptions) (ticks : list tick)
    : option (result HashFileError (ReadOutcome * bytes) * option (gset (N * N))) :=
  match admit_file p o with
  | Err e => Some (Err e, seen o)
  | Ok (m, bs, s) =>
      match read_loop o (usable_limit o m) ticks (start o m bs) with
      | None => None
      | Some (Err e) => Some (Err e, s)
      | Some (Ok r) => Some (Ok (finish m r, content r), s)
      end
  end.

(** [hash_file] *)
Definition hash_file `{StdText} (p : path) (pol : SymlinkPolicy) (max_size : N) (ticks : list tick)
    : option (result HashFileError HashedFile) :=
  match read_file p (mkReadOptions pol max_size None None None None false) ticks with
  | None => None
  | Some (r, _) => Some (map_ok (λ '(out, _), hashed out) r)
  end.

(** ** The read loop *)

(** What the loop maintains over a file that delivers [bs]: the octets hashed
    are those delivered so far, and the buffer holds them or nothing. *)
Record loop_inv (o : ReadOptions) (climit : option N) (bs : bytes) (r : reading) : Prop := {
  inv_split : hasher r ++ rest r = bs;
  inv_total : total r = vlen (hasher r);
  inv_size : total r ≤ opt_max_size o;
  inv_content : content r = if keep r then hasher r else [];
  inv_limit : keep r = true → ∃ l, climit = Some l ∧ total r ≤ l;
  inv_magic : magic r = true → looks_like_zip (hasher r) = true;
  inv_archives : keep r = true → keep_only_archives o = true → total r ≠ 0 →
    may_contain_zip (hasher r) = true }.

Lemma starts_with_bytes_app p a b : starts_with_bytes p a = true → starts_with_bytes p (a ++ b) = true.
Proof.
  unfold starts_with_bytes. rewrite !bool_decide_eq_true. intros H.
  rewrite take_app_le; [done|]. rewrite <-H, length_take. lia.
Qed.

Lemma looks_like_zip_app a b : looks_like_zip a = true → looks_like_zip (a ++ b) = true.
Proof.
  unfold looks_like_zip. rewrite !orb_true_iff.
  intros [[H|H]|H]; apply (starts_with_bytes_app _ _ b) in H; auto.
Qed.

Lemma may_contain_zip_app a b : may_contain_zip a = true → may_contain_zip (a ++ b) = true.
Proof.
  unfold may_contain_zip. rewrite !orb_true_iff.
  intros [H|H]; [left; by apply looks_like_zip_app|right; by apply starts_with_bytes_app].
Qed.

Lemma start_inv o m bs :
  loop_inv o (usable_limit o m) bs (start o m bs).
Proof.
  split; simpl; try done; try lia.
  - by case_bool_decide.
  - rewrite bool_decide_eq_true. intros [l Hl]. exists l. split; [done|lia].
Qed.

Lemma absorb_inv o climit bs buf r r' :
  loop_inv o climit bs r → rest r = buf ++ drop (length buf) (rest r) →
  absorb o climit buf r = Ok r' → loop_inv o climit bs r'.
Proof.
  intros [Hs Ht Hz Hc Hl Hm Ha] Hrest. unfold absorb.
  destruct (N.ltb_spec (opt_max_size o) (total r + vlen buf)) as [|Hle]; [done|].
  set (first := total r =? 0). set (k := keep r && _).
  assert (Hfirst : first = true → hasher r = []).
  { unfold first. intros H0%N.eqb_eq. rewrite Ht in H0. apply length_zero_iff_nil. unfold vlen in H0. lia. }
  assert (Hmagic : (if first then looks_like_zip buf else magic r) = true →
    looks_like_zip (hasher r ++ buf) = true).
  { destruct first; [by rewrite Hfirst|]. intros H. by apply looks_like_zip_app, Hm. }
  assert (Hsplit : (hasher r ++ buf) ++ drop (length buf) (rest r) = bs) by by rewrite <-app_assoc, <-Hrest.
  assert (Htot : total r + vlen buf = vlen (hasher r ++ buf)) by (autorewrite with warden; lia).
  assert (Hk : k = true → keep r = true ∧ (keep_only_archives o = true → first = true → may_contain_zip buf = true)).
  { unfold k. intros [-> Hn]%andb_true_iff. split; [done|]. intros Ho Hf. rewrite Ho, Hf in Hn. simpl in Hn.
    by destruct (may_contain_zip buf). }
  assert (Harch : k = true → keep_only_archives o = true → may_contain_zip (hasher r ++ buf) = true).
  { intros Hk1 Ho. destruct (Hk Hk1) as [Hkeep Hbuf]. destruct first eqn:Hf; [rewrite Hfirst by done; by apply Hbuf|].
    apply may_contain_zip_app, Ha; [done..|]. unfold first in Hf. by apply N.eqb_neq in Hf. }
  assert (Hcont : k = true → content r = hasher r) by (intros [Hkeep _]%Hk; by rewrite Hc, Hkeep).
  destruct k eqn:Ek.
  - destruct (Hl (proj1 (Hk eq_refl))) as (l & -> & Hll).
    destruct (N.ltb_spec l (total r + vlen buf)); intros [= <-]; split; simpl; try done; [|by eauto|by auto].
    by rewrite Hcont.
  - intros [= <-]. split; simpl; try done.
    rewrite Hc. destruct (keep r) eqn:Hkeep; [|done].
    unfold k in Ek. simpl in Ek. apply negb_false_iff in Ek. apply andb_true_iff in Ek as [Ek _].
    apply andb_true_iff in Ek as [Ek _]. by apply Hfirst.
Qed.

Lemma read_some_prefix limit n r :
  rest r = read_some limit n r ++ drop (length (read_some limit n r)) (rest r).
Proof.
  unfold read_some. set (k := N.to_nat _). rewrite length_take.
  destruct (Nat.le_gt_cases k (length (rest r))).
  - by rewrite Nat.min_l, take_drop by lia.
  - rewrite Nat.min_r by lia. by rewrite take_ge, drop_all, app_nil_r by lia.
Qed.

(** A read that made progress, or failed for good. *)
Definition progress (t : tick) : bool :=
  match answer t with
  | Gives n => 1 <=? n
  | Fails e => negb (bool_decide (kind e = KInterrupted))
  end.

(** How the loop ends: some pass delivered nothing to a state the invariant
    holds of. *)
Lemma read_loop_Ok o climit bs ticks r r' :
  loop_inv o climit bs r → read_loop o climit ticks r = Some (Ok r') →
  loop_inv o climit bs r' ∧
  ∃ t n, t ∈ ticks ∧ answer t = Gives n ∧ read_some (saturating_add64 (opt_max_size o) 1) n r' = [].
Proof.
  revert r. induction ticks as [|t ticks IH]; intros r Hi; simpl; [done|].
  destruct (is_cancelled t); [done|]. destruct (match deadline o with Some d => _ | None => _ end); [done|].
  destruct (answer t) as [n|e] eqn:Ha.
  - destruct (read_some _ n r) as [|b buf] eqn:Hread.
    + intros [= ->]. split; [done|]. exists t, n. split; [by left|done].
    + rewrite <-Hread. destruct (absorb o climit _ r) as [r1|] eqn:Hab; [|done].
      intros Hl. apply IH in Hl as (? & t' & n' & ? & ?).
      * split; [done|]. exists t', n'. split; [by right|done].
      * eapply absorb_inv; [done| |done]. apply read_some_prefix.
  - case_bool_decide; [|done]. intros Hl. apply IH in Hl as (? & t' & n' & ? & ?); [|done].
    split; [done|]. exists t', n'. split; [by right|done].
Qed.

(** A read that could deliver something delivers nothing only at the end. *)
Lemma read_some_end o climit bs n r :
  loop_inv o climit bs r → vlen bs ≤ u64_max → 1 ≤ n →
  read_some (saturating_add64 (opt_max_size o) 1) n r = [] → rest r = [].
Proof.
  intros [Hs Ht Hz _ _ _ _] Hbs Hn Hr. destruct (rest r) as [|b rs] eqn:Hrest; [done|].
  exfalso. assert (total r < u64_max).
  { rewrite Ht. rewrite <-Hs in Hbs. autorewrite with warden in Hbs. lia. }
  unfold read_some in Hr. rewrite Hrest in Hr. unfold READ_CHUNK, saturating_add64 in Hr.
  set (k := N.to_nat _) in Hr. assert (k = 0%nat) by (by destruct k). unfold k in *. lia.
Qed.

Lemma absorb_rest o climit buf r r' :
  absorb o climit buf r = Ok r' → rest r' = drop (length buf) (rest r).
Proof.
  unfold absorb. destruct (_ <? _); [done|]. destruct (_ && _); [|by intros [= <-]].
  destruct climit as [l|]; [|by intros [= <-]]. destruct (_ <? _); by intros [= <-].
Qed.

(** As many passes as there are octets left, and one more, end the loop. *)
Lemma read_loop_returns o climit ticks r :
  (length (rest r) < length (List.filter progress ticks))%nat →
  is_Some (read_loop o climit ticks r).
Proof.
  revert r. induction ticks as [|t ticks IH]; intros r; simpl; [lia|].
  destruct (is_cancelled t); [by eauto|]. destruct (match deadline o with Some d => _ | None => _ end); [by eauto|].
  unfold progress at 1. destruct (answer t) as [n|e].
  - destruct (read_some _ n r) as [|b buf] eqn:Hread; [by eauto|].
    pose proof (read_some_prefix (saturating_add64 (opt_max_size o) 1) n r) as Hp. rewrite Hread in Hp.
    intros Hlen. destruct (absorb o climit _ r) as [r1|] eqn:Hab; [|by eauto].
    apply IH. rewrite (absorb_rest _ _ _ _ _ Hab).
    apply (f_equal length) in Hp. rewrite length_app in Hp. simpl length in *.
    destruct (1 <=? n); simpl in Hlen; lia.
  - case_bool_decide; simpl; [|by eauto]. apply IH.
Qed.

Lemma read_loop_stops o climit ticks r :
  Exists (λ t, is_cancelled t = true ∨ ∃ d, deadline o = Some d ∧ (d ≤ now t)%Z) ticks →
  is_Some (read_loop o climit ticks r).
Proof.
  intros Hex. revert r. induction Hex as [t ticks Ht|t ticks _ IH]; intros r; simpl.
  - destruct (is_cancelled t) eqn:Hc; [by eauto|]. destruct Ht as [|(d & Hd & Hle)]; [congruence|].
    rewrite Hd, Zle_imp_le_bool by done. by eauto.
  - destruct (is_cancelled t); [by eauto|]. destruct (match deadline o with Some d => _ | None => _ end); [by eauto|].
    destruct (answer t) as [n|e].
    + destruct (read_some _ n r); [by eauto|]. destruct (absorb o climit _ r); by eauto.
    + case_bool_decide; by eauto.
Qed.

Lemma read_loop_not_cancelled o climit ticks r :
  Forall (λ t, is_cancelled t = false) ticks → read_loop o climit ticks r ≠ Some (Err Cancelled).
Proof.
  intros Ht. revert r. induction Ht as [|t ticks Hc _ IH]; intros r; simpl; [done|]. rewrite Hc.
  destruct (match deadline o with Some d => _ | None => _ end); [done|]. destruct (answer t) as [n|e].
  - destruct (read_some _ n r) as [|b buf]; [done|]. destruct (absorb o climit _ r) as [r'|e] eqn:Ha; [apply IH|].
    enough (e = Skipped Report.ExceedsMaxFileSize) by by subst.
    revert Ha. unfold absorb. destruct (opt_max_size o <? _); [by intros [= <-]|].
    destruct (_ && _); [|done]. destruct climit; [|done]. by destruct (_ <? _).
  - case_bool_decide; [apply IH|done].
Qed.

Lemma admit_file_not_cancelled `{StdText} p o : admit_file p o ≠ Err Cancelled.
Proof.
  unfold admit_file. destruct (open_for_scan p (policy o) (base o)) as [h|e]; simpl; [|by destruct (_ || _)].
  destruct (metadata h) as [m|]; simpl; [|done]. unfold reject_if.
  by repeat (case_match; simpl; try done).
Qed.

Lemma read_file_not_cancelled `{StdText} p o ticks s :
  Forall (λ t, is_cancelled t = false) ticks → read_file p o ticks ≠ Some (Err Cancelled, s).
Proof.
  intros Ht. unfold read_file. destruct (admit_file p o) as [[[m bs] s']|e] eqn:Ha.
  - destruct (read_loop _ _ _ _) as [[r|e]|] eqn:Hl; [done| |done]. intros [= -> _].
    by apply (read_loop_not_cancelled _ _ _ _ Ht) in Hl.
  - intros [= -> _]. by apply admit_file_not_cancelled in Ha.
Qed.

Lemma admit_file_Ok `{StdText} p o m bs s :
  admit_file p o = Ok (m, bs, s) →
  ∃ h, open_for_scan p (policy o) (base o) = Ok h ∧ metadata h = Ok m ∧ bs = data h ∧
    file_type m = Regular ∧ meta_len m ≤ opt_max_size o ∧
    match seen o with
    | Some set => ((dev m, ino m) ∉ set) ∧ s = Some ({[ (dev m, ino m) ]} ∪ set)
    | None => s = None
    end.
Proof.
  unfold admit_file. intros H1. inv_result. rename x into h.
  match goal with H : match open_for_scan _ _ _ with _ => _ end = _ |- _ => rename H into Hopen end.
  destruct (open_for_scan _ _ _) as [h'|e]; [|by destruct (_ || _)]. injection Hopen as ->.
  exists h. split; [done|]. reflect_bools.
  destruct (seen o) as [set|]; simpl in H1.
  - case_bool_decide; [done|]. injection H1 as <- <- <-.
    repeat match goal with H : bool_decide _ = _ |- _ => first [apply bool_decide_eq_true in H|apply bool_decide_eq_false in H] end.
    split_and!; try done; lia.
  - injection H1 as <- <- <-.
    repeat match goal with H : bool_decide _ = _ |- _ => first [apply bool_decide_eq_true in H|apply bool_decide_eq_false in H] end.
    split_and!; try done; lia.
Qed.

End Reading.
End Fsio.

(** ** Properties *)
Module FsioProps.
Import Fsio.

(** A call that cannot follow a link anywhere in the path (or, without
    [openat2], in its last component), or that resolves below the scan root;
    and that cannot block on a FIFO. *)
Definition hardened (b : option path) (c : OpenCall) : Prop :=
  match c with
  | Openat2 _ flags resolve =>
      N.land flags O_NOFOLLOW = O_NOFOLLOW ∧ N.land flags O_NONBLOCK = O_NONBLOCK ∧
      N.land resolve NO_SYMLINKS = NO_SYMLINKS ∧ N.land resolve NO_MAGICLINKS = NO_MAGICLINKS
  | Openat _ flags =>
      b = None ∧ N.land flags O_NOFOLLOW = O_NOFOLLOW ∧ N.land flags O_NONBLOCK = O_NONBLOCK
  | Beneath r _ flags => b = Some r ∧ N.land flags O_NONBLOCK = O_NONBLOCK
  end.

(** Under the default policy the outcome of opening a file depends only
    on hardened calls: two kernels that differ in anything an unhardened call
    would do (such as following a link that was swapped in) give the same
    result, and a file below an open scan root is never opened by its
    absolute path without [openat2]. *)
Theorem open_hardened (os1 os2 : OpenCall → result IoError Handle) p b
    (Hagree : ∀ c, hardened b c → os1 c = os2 c) :
  open_for_scan os1 p Config.Skip b = open_for_scan os2 p Config.Skip b.
Proof.
  assert (Hw : ∀ flags, flags = N.lor base_flags O_NOATIME ∨ flags = base_flags →
    open_with os1 Config.Skip b p flags = open_with os2 Config.Skip b p flags).
  { intros flags Hf. unfold open_with.
    rewrite (Hagree (Openat2 _ _ _)) by by destruct Hf as [-> | ->].
    destruct (os2 _) as [|[n|]]; [done| |done]. destruct (n =? ENOSYS); [|done].
    destruct b as [b|].
    - unfold open_beneath. destruct (path_strip_prefix p b); [|done].
      apply Hagree. by destruct Hf as [-> | ->].
    - apply Hagree. by destruct Hf as [-> | ->]. }
  unfold open_for_scan. rewrite (Hw (N.lor base_flags O_NOATIME)) by auto.
  destruct (open_with os2 _ _ _ _) as [|[n|]]; [done| |done].
  destruct (n =? EPERM); [by apply Hw; right|done].
Qed.

Section Props.
Context `{OK : OtherKinds, SH : Sha256, ST : StdText}.
Context (os : OpenCall → result IoError Handle).

(** A file that [read_file] reports was opened by the hardened open, was
    a regular file within the size limit when it was opened, and was not seen
    before. The reported hash and size are those of the octets delivered: a
    prefix of the file within the limit, and all of it when reads deliver
    something before the end. The buffer holds exactly the octets that were
    hashed, within the content limit, or nothing; the ZIP flag is only set
    for a ZIP signature. *)
Theorem read_file_exact p o ticks out c s
    (Hr : read_file os p o ticks = Some (Ok (out, c), s)) :
  ∃ h m d, open_for_scan os p (policy o) (base o) = Ok h ∧ metadata h = Ok m ∧
    file_type m = Regular ∧ meta_len m ≤ opt_max_size o ∧
    (∀ set, seen o = Some set → ((dev m, ino m) ∉ set) ∧ s = Some ({[ (dev m, ino m) ]} ∪ set)) ∧
    d `prefix_of` data h ∧ vlen d ≤ opt_max_size o ∧
    hashed_sha256 (hashed out) = sha256 d ∧ Finding.size (hashed_metadata (hashed out)) = vlen d ∧
    (if has_content out then c = d ∧ ∃ l, content_limit o = Some l ∧ vlen d ≤ l else c = []) ∧
    (zip_magic out = true → looks_like_zip d = true) ∧
    (vlen (data h) ≤ u64_max → Forall (λ t, ∀ n, answer t = Gives n → 1 ≤ n) ticks → d = data h).
Proof.
  unfold read_file in Hr. destruct (admit_file os p o) as [[[m bs] s']|] eqn:Ha; [|done].
  apply admit_file_Ok in Ha as (h & Hopen & Hm & -> & Hreg & Hlen & Hseen).
  destruct (read_loop _ _ _ _) as [[r|]|] eqn:Hl; [|done..]. injection Hr as <- <- <-.
  pose proof (read_loop_Ok _ _ _ _ _ _ (start_inv o m (data h)) Hl) as (Hi & t & n & Ht & Hn & Hend).
  pose proof Hi as [Hs Htot Hz Hc Hk Hmag _].
  exists h, m, (hasher r). split_and!; try done.
  - intros set Hset. by rewrite Hset in Hseen.
  - rewrite <-Hs. by apply prefix_app_r.
  - by rewrite <-Htot.
  - simpl. rewrite Hc. destruct (keep r); [|done]. split; [done|].
    destruct (Hk eq_refl) as (l & Hu & Hle). exists l. split; [|by rewrite <-Htot].
    revert Hu. unfold usable_limit. destruct (content_limit o) as [l'|]; [|done]. by destruct (_ <=? _).
  - intros Hbig Hreads. rewrite <-Hs, (read_some_end _ _ _ _ _ Hi Hbig (proj1 (Forall_forall _ _) Hreads _ Ht _ Hn) Hend).
    by rewrite app_nil_r.
Qed.

(** Reading a file returns: as soon as a pass of the loop sees the token
    cancelled or the deadline passed, and otherwise after at most one more
    read than the file has octets, however often the reads are interrupted. *)
Theorem read_file_returns p o ticks
    (Hstop : Exists (λ t, is_cancelled t = true ∨ ∃ d, deadline o = Some d ∧ (d ≤ now t)%Z) ticks ∨
      ∀ h, open_for_scan os p (policy o) (base o) = Ok h →
        (length (data h) < length (List.filter progress ticks))%nat) :
  is_Some (read_file os p o ticks).
Proof.
  unfold read_file. destruct (admit_file os p o) as [[[m bs] s]|] eqn:Ha; [|by eauto].
  apply admit_file_Ok in Ha as (h & Hopen & _ & -> & _).
  assert (is_Some (read_loop o (usable_limit o m) ticks (start o m (data h)))) as [[r|e] ->]; [|by eauto..].
  destruct Hstop as [Hex|Hn]; [by apply read_loop_stops|].
  apply read_loop_returns. simpl. by apply Hn.
Qed.
End Props.

(** ** Instances *)

Definition regular (n : N) : Metadata := mkMetadata Regular n (Some 5%Z) 0x1A4 1 2.
Definition zip_data : bytes := [80; 75; 3; 4; 9].
Definition a_file : Handle := mkHandle (Ok (regular 5)) zip_data.
(** A kernel without [openat2]; an unhardened open reaches another file. *)
Definition old_kernel (swapped : bytes) (c : OpenCall) : result IoError Handle :=
  match c with
  | Openat2 _ _ _ => Err (Os ENOSYS)
  | Beneath _ rel _ => if bool_decide (rel = "a/b"%string) then Ok a_file else Err (Os 2)
  | Openat _ _ => Ok (mkHandle (Ok (regular 1)) swapped)
  end.

Lemma open_hardened_witness :
  open_for_scan (old_kernel [1]) "/srv/a/b" Config.Skip (Some "/srv"%string) =
  open_for_scan (old_kernel [2]) "/srv/a/b" Config.Skip (Some "/srv"%string) ∧
  open_for_scan (old_kernel [1]) "/srv/a/b" Config.Skip (Some "/srv"%string) = Ok a_file.
Proof.
  split; [|reflexivity].
  apply (open_hardened (old_kernel [1]) (old_kernel [2])). intros [| |]; simpl; [done| |done]. by intros [? _].
Defined.

#[local] Existing Instances toy_text Toy.sha.
Definition no_kinds : OtherKinds := λ _, KOther.
#[local] Existing Instance no_kinds.
Definition sample_options : ReadOptions :=
  mkReadOptions Config.Skip 100 (Some 50) (Some 9%Z) (Some ∅) (Some "/srv"%string) false.
(** Three octets, an interrupted read, the rest, the end. *)
Definition sample_ticks : list tick :=
  [mkTick false 0 (Gives 3); mkTick false 1 (Fails (Os EINTR)); mkTick false 2 (Gives 8);
   mkTick false 3 (Gives 8)].
Definition sample_out : ReadOutcome :=
  mkOutcome (mkHashed (Toy.digest zip_data) (Finding.Build_FileMetadata 5 (Some 5%Z) (Some 0x1A4))) true false.

Lemma read_file_exact_witness :
  has_content sample_out = true ∧
  ∃ h m d, open_for_scan (old_kernel []) "/srv/a/b" Config.Skip (Some "/srv"%string) = Ok h ∧ metadata h = Ok m ∧
    file_type m = Regular ∧ meta_len m ≤ 100 ∧
    (∀ set, Some ∅ = Some set → ((dev m, ino m) ∉ set) ∧
      Some ({[ (1, 2) ]} ∪ ∅ : gset (N * N)) = Some ({[ (dev m, ino m) ]} ∪ set)) ∧
    d `prefix_of` data h ∧ vlen d ≤ 100 ∧
    hashed_sha256 (hashed sample_out) = sha256 d ∧
    Finding.size (hashed_metadata (hashed sample_out)) = vlen d ∧
    (if has_content sample_out then zip_data = d ∧ ∃ l, Some 50 = Some l ∧ vlen d ≤ l else zip_data = []) ∧
    (zip_magic sample_out = true → looks_like_zip d = true) ∧
    (vlen (data h) ≤ u64_max → Forall (λ t, ∀ n, answer t = Gives n → 1 ≤ n) sample_ticks → d = data h).
Proof.
  split; [reflexivity|].
  apply (read_file_exact (old_kernel []) "/srv/a/b" sample_options sample_ticks). vm_compute. reflexivity.
Defined.

Lemma read_file_returns_witness :
  is_Some (read_file (old_kernel []) "/srv/a/b" sample_options (repeat (mkTick false 0 (Gives 1)) 6)) ∧
  is_Some (read_file (old_kernel []) "/srv/a/b" sample_options
    [mkTick false 0 (Fails (Os EINTR)); mkTick false 9 (Fails (Os EINTR))]).
Proof.
  split.
  - apply (read_file_returns (old_kernel []) "/srv/a/b" sample_options). right.
    intros h [= <-]. vm_compute. lia.
  - apply (read_file_returns (old_kernel []) "/srv/a/b" sample_options). left.
    apply Exists_cons_tl, Exists_cons_hd. right. exists 9%Z. split; [reflexivity|reflexivity || lia].
Defined.

End FsioProps.
