(* ===== verification/Archive.v ===== *)
(** * Archive expansion: [crates/engine/src/archive.rs]

    The ZIP parser and the decompressors are parameters: what they return for
    the octets they are given, or that they panic. The visitor (the scanner's
    closure) and its state are parameters too, so the scanner instantiates
    them with its detectors and the theorems hold for any visitor. *)

From S2P Require Import Prelude Utf8 Paths Core External Fsio.

(** A call of a library that may panic. *)
Inductive call (A : Type) := Returns (a : A) | Panics.
Arguments Returns {A} a.
Arguments Panics {A}.

(** An entry's metadata, as [by_index_raw] gives it. *)
Record RawEntry := mkRaw {
  raw_name : string; name_octets : bytes; encrypted : bool; is_dir : bool; is_symlink : bool }.

(** [zip::result::ZipError] as far as the code tells its cases apart. *)
Inductive ZipError :=
  | UnsupportedArchive | CompressionMethodNotSupported | OtherZipError (text : string).

(** What a [read] of an entry's decompressed data returns; after the list,
    the end of the data. *)
Inductive entry_read :=
  | Octets (bs : bytes)
  | ReadFails (interrupted : bool) (text : string)
  | ReadPanics.

(** [zip::ZipArchive] over the octets of an archive in memory. *)
Class Zip := {
  zip_archive : Type;
  zip_new : bytes → call (result string zip_archive);
  zip_len : zip_archive → nat;
  by_index_raw : zip_archive → nat → call (result string RawEntry);
  by_index : zip_archive → nat → call (result ZipError (list entry_read)) }.

Create HintDb avoids discriminated.

Module Archive.
Import Config.

Inductive Event :=
  | Member (chain : list ObservedPath) (sha : Sha256Digest) (size : N) (content : option bytes)
  | Skipped (chain : list ObservedPath) (reason : Report.SkipReason)
  | Error (chain : list ObservedPath) (message : string).

Definition event_chain (e : Event) : list ObservedPath :=
  match e with Member c _ _ _ | Skipped c _ | Error c _ => c end.

Inductive Stop := Cancelled | Deadline.

Definition member_name (decoded : string) (raw : bytes) : ObservedPath :=
  ObservedPath.mk decoded
    (match from_utf8 raw with Some _ => None | None => Some (Digest.hex_encode raw) end).

Section Expander.
Context `{ZL : Zip, SH : Sha256}.

(** The visitor's state; reading the token and the clock; the closure. *)
Context {V : Type} (tick : V → (bool * Z) * V) (visit : Event → V → V).

(** [Expander]: its constant fields, and the two it changes. *)
Context (limits : ArchiveLimits) (max_member_size : N) (deadline : Z).
Record st := mkSt { budget_left : N; budget_reported : bool; vis : V }.

Definition new (v : V) : st := mkSt (max_total_bytes limits) false v.

Inductive outcome (A : Type) :=
  | Done (a : A) (s : st)
  | Stopped (e : Stop) (s : st)
  | Panicked (s : st)
  | Exhausted.
#[local] Arguments Done {A}.
#[local] Arguments Stopped {A}.
#[local] Arguments Panicked {A}.
#[local] Arguments Exhausted {A}.

Definition E (A : Type) : Type := st → outcome A.
#[local] Instance E_ret : MRet E := λ A a s, Done a s.
#[local] Instance E_bind : MBind E := λ A B k m s,
  match m s with
  | Done a s => k a s
  | Stopped e s => Stopped e s
  | Panicked s => Panicked s
  | Exhausted => Exhausted
  end.

Definition lib {A} (c : call A) : E A := λ s,
  match c with Returns a => Done a s | Panics => Panicked s end.
Definition emit (e : Event) : E unit := λ s,
  Done tt (mkSt (budget_left s) (budget_reported s) (visit e (vis s))).
Definition get_st : E st := λ s, Done s s.
Definition set_budget (b : N) (reported : bool) : E unit := λ s, Done tt (mkSt b reported (vis s)).

(** [Expander::check] *)
Definition check : E unit := λ s,
  let '((cancelled, now), v) := tick (vis s) in
  let s := mkSt (budget_left s) (budget_reported s) v in
  if cancelled then Stopped Cancelled s
  else if (deadline <=? now)%Z then Stopped Deadline s
  else Done tt s.

(** The variables of the loop in [member]. *)
Record copy := mkCopy { total : N; hashed : bytes; content : bytes; keep : bool }.

(** The loop body after a read that delivered [bs], within the limits. *)
Definition copy_more (bs : bytes) (c : copy) : copy :=
  let total := total c + vlen bs in
  let hashed := hashed c ++ bs in
  if keep c then
    if max_member_content limits <? total then mkCopy total hashed [] false
    else mkCopy total hashed (content c ++ bs) true
  else mkCopy total hashed (content c) false.

(** The loop of [member]: [None] when the member was given up and reported. *)
Fixpoint read_member (chain : list ObservedPath) (reads : list entry_read) (c : copy)
    : E (option copy) :=
  _ ← check;
  match reads with
  | [] | Octets [] :: _ => mret (Some c)
  | ReadPanics :: _ => lib Panics
  | ReadFails true _ :: reads => read_member chain reads c
  | ReadFails false e :: _ =>
      _ ← emit (Error chain ("corrupt member: " +:+ e));
      s ← get_st;
      _ ← set_budget (budget_left s - total c) (budget_reported s);
      mret None
  | Octets bs :: reads =>
      s ← get_st;
      let total := total c + vlen bs in
      if budget_left s <? total then
        _ ← set_budget 0 true;
        _ ← emit (Skipped chain Report.ArchiveLimitReached);
        mret None
      else if max_member_size <? total then
        _ ← set_budget (wrapping_sub64 (budget_left s) total) (budget_reported s);
        _ ← emit (Skipped chain Report.ExceedsMaxFileSize);
        mret None
      else read_member chain reads (copy_more bs c)
  end.

(** [Expander::member]; [nested] is the recursive call of [expand]. *)
Definition member (nested : bytes → list ObservedPath → N → E unit) (z : zip_archive) (i : nat)
    (chain : list ObservedPath) (depth : N) : E unit :=
  r ← lib (by_index z i);
  match r with
  | Err (UnsupportedArchive | CompressionMethodNotSupported) =>
      emit (Skipped chain Report.ArchiveMemberUnsupported)
  | Err (OtherZipError e) => emit (Error chain ("unreadable member: " +:+ e))
  | Ok reads =>
      c ← read_member chain reads (mkCopy 0 [] [] true);
      match c with
      | None => mret tt
      | Some c =>
          s ← get_st;
          _ ← set_budget (wrapping_sub64 (budget_left s) (total c)) (budget_reported s);
          let kept := if keep c then Some (content c) else None in
          _ ← emit (Member chain (sha256 (hashed c)) (total c) kept);
          match kept with
          | Some bs =>
              if Fsio.looks_like_zip bs then
                if depth <? archive_max_depth limits then nested bs chain (depth + 1)
                else emit (Skipped chain Report.ArchiveLimitReached)
              else mret tt
          | None => mret tt
          end
      end
  end.

(** The loop over the entries in [expand]. *)
Fixpoint entries (nested : bytes → list ObservedPath → N → E unit) (z : zip_archive)
    (chain : list ObservedPath) (depth : N) (ixs : list nat) : E unit :=
  match ixs with
  | [] => mret tt
  | i :: ixs =>
      _ ← check;
      s ← get_st;
      if budget_left s =? 0 then
        if budget_reported s then mret tt
        else
          _ ← set_budget 0 true;
          emit (Skipped chain Report.ArchiveLimitReached)
      else
        raw ← lib (by_index_raw z i);
        match raw with
        | Err e =>
            _ ← emit (Error chain (fmt "unreadable entry #{index}: {e}" [show_N (N.of_nat i); e]));
            entries nested z chain depth ixs
        | Ok raw =>
            if is_dir raw then entries nested z chain depth ixs
            else
              let inner := chain ++ [member_name (raw_name raw) (name_octets raw)] in
              _ ← (if encrypted raw then emit (Skipped inner Report.ArchiveMemberEncrypted)
                   else if is_symlink raw then emit (Skipped inner Report.ArchiveMemberUnsupported)
                   else member nested z i inner depth);
              entries nested z chain depth ixs
        end
  end.

(** [Expander::expand]; [fuel] bounds the nesting. *)
Fixpoint expand (fuel : nat) (data : bytes) (chain : list ObservedPath) (depth : N) (strict : bool)
    : E unit :=
  match fuel with
  | O => λ _, Exhausted
  | S fuel =>
      z ← lib (zip_new data);
      match z with
      | Err e =>
          if strict then emit (Error chain ("not a readable ZIP archive: " +:+ e)) else mret tt
      | Ok z =>
          let count := N.of_nat (zip_len z) in
          let limit := max_entries limits in
          _ ← (if limit <? count then emit (Skipped chain Report.ArchiveLimitReached) else mret tt);
          entries (λ bs chain depth, expand fuel bs chain depth true) z chain depth
            (seq 0 (N.to_nat (N.min count limit)))
      end
  end.

(** [Expander::expand_file] *)
Definition expand_file (fuel : nat) (data : bytes) : E unit :=
  expand fuel data [] 1 (Fsio.looks_like_zip data).

(** Fuel that is always enough. *)
Definition enough : nat := S (N.to_nat (archive_max_depth limits)).

(** ** What an expansion does *)

(** [v'] is the visitor after the events [es], whatever it read of the token
    and the clock on the way. *)
Inductive reach : V → list Event → V → Prop :=
  | reach_refl v : reach v [] v
  | reach_tick v es w : reach v es w → reach v es (tick w).2
  | reach_visit v es w e : reach v es w → reach v (es ++ [e]) (visit e w).

Lemma reach_trans v es w es' x : reach v es w → reach w es' x → reach v (es ++ es') x.
Proof.
  intros H1 H2. induction H2; [by rewrite app_nil_r|by apply reach_tick, IHreach|].
  rewrite app_assoc. by apply reach_visit, IHreach.
Qed.

Definition member_size (e : Event) : N := match e with Member _ _ n _ => n | _ => 0 end.
Definition limited (es : list Event) : Prop := ∃ c, Skipped c Report.ArchiveLimitReached ∈ es.

(** What every event is: a member within its limits with the hash of its
    complete content, and content kept whole or not at all; no chain deeper
    than the nesting limit. *)
Definition sound (e : Event) : Prop :=
  (vlen (event_chain e) ≤ N.max 1 (archive_max_depth limits)) ∧
  match e with
  | Member _ sha n kept =>
      n ≤ max_member_size ∧
      ∃ bs, sha = sha256 bs ∧ n = vlen bs ∧
        kept = if n <=? max_member_content limits then Some bs else None
  | _ => True
  end.

(** One stretch of an expansion: the events it delivered, the budget it
    spent, and whether it reported that the budget ran out. *)
Record stretch (s : st) (es : list Event) (s' : st) : Prop := {
  stretch_reach : reach (vis s) es (vis s');
  stretch_budget : sumN member_size es + budget_left s' ≤ budget_left s;
  stretch_sound : Forall sound es;
  stretch_reported : budget_reported s' = true → budget_reported s = true ∨ limited es }.

Lemma limited_app es es' : limited (es ++ es') ↔ limited es ∨ limited es'.
Proof. unfold limited. setoid_rewrite elem_of_app. naive_solver. Qed.

Lemma stretch_nil s : stretch s [] s.
Proof. split; [constructor|simpl; lia|constructor|auto]. Qed.

Lemma stretch_app s es s1 es' s2 : stretch s es s1 → stretch s1 es' s2 → stretch s (es ++ es') s2.
Proof.
  intros [H1 H2 H3 H4] [K1 K2 K3 K4]. split.
  - by eapply reach_trans.
  - rewrite sumN_app. lia.
  - by apply Forall_app.
  - rewrite limited_app. intros Hr. destruct (K4 Hr) as [Hr1|]; [|by auto]. destruct (H4 Hr1); auto.
Qed.

(** Every outcome of [m] from [s] is a stretch, and when it is [Done] the
    stretch satisfies [Q]. *)
Definition spec_at {A} (s : st) (m : E A) (Q : list Event → A → st → Prop) : Prop :=
  match m s with
  | Done a s' => ∃ es, stretch s es s' ∧ Q es a s'
  | Stopped _ s' | Panicked s' => ∃ es, stretch s es s'
  | Exhausted => True
  end.

Lemma spec_at_bind {A B} s (m : E A) (k : A → E B) Q1 Q :
  spec_at s m Q1 →
  (∀ es a s1, stretch s es s1 → Q1 es a s1 → spec_at s1 (k a) (λ es2 b s2, Q (es ++ es2) b s2)) →
  spec_at s (m ≫= k) Q.
Proof.
  unfold spec_at, mbind, E_bind. intros Hm Hk. destruct (m s) as [a s1|e s1|s1|]; try done.
  destruct Hm as (es & Hs & Hq). specialize (Hk _ _ _ Hs Hq).
  destruct (k a s1); [|destruct Hk as (es2 & Hs2); exists (es ++ es2); by eapply stretch_app..|done].
  destruct Hk as (es2 & Hs2 & ?). exists (es ++ es2). split; [by eapply stretch_app|done].
Qed.

Lemma spec_at_weaken {A} s (m : E A) (Q1 Q : list Event → A → st → Prop) :
  spec_at s m Q1 → (∀ es a s1, stretch s es s1 → Q1 es a s1 → Q es a s1) → spec_at s m Q.
Proof. unfold spec_at. destruct (m s); try done. naive_solver. Qed.

Lemma spec_at_ret {A} s (a : A) (Q : list Event → A → st → Prop) : Q [] a s → spec_at s (mret a) Q.
Proof. intros Hq. exists []. split; [apply stretch_nil|done]. Qed.

Lemma spec_at_get s : spec_at s get_st (λ es a s', es = [] ∧ a = s ∧ s' = s).
Proof. exists []. split; [apply stretch_nil|done]. Qed.

Lemma spec_at_lib {A} s (c : call A) : spec_at s (lib c) (λ es a s', es = [] ∧ c = Returns a ∧ s' = s).
Proof. destruct c; exists []; [split; [apply stretch_nil|done]|apply stretch_nil]. Qed.

Lemma spec_at_emit s e :
  sound e → member_size e = 0 →
  spec_at s (emit e) (λ es _ s', es = [e] ∧ budget_left s' = budget_left s).
Proof.
  intros He Hz. exists [e]. split; [|done]. split; simpl; [|lia|by constructor|by auto].
  apply (reach_visit _ []), reach_refl.
Qed.

(** Spending [n] of the budget. *)
Lemma spec_at_spend s n :
  n ≤ budget_left s →
  spec_at s (set_budget (budget_left s - n) (budget_reported s))
    (λ es _ s', es = [] ∧ s' = mkSt (budget_left s - n) (budget_reported s) (vis s)).
Proof. intros Hn. exists []. split; [|done]. split; simpl; [constructor|lia|constructor|auto]. Qed.

Lemma spec_at_check s : spec_at s check (λ es _ s', es = [] ∧ budget_left s' = budget_left s).
Proof.
  unfold spec_at, check. pose proof (reach_tick (vis s) [] (vis s) (reach_refl _)) as Ht.
  destruct (tick (vis s)) as [[c now] v]. simpl in Ht.
  assert (stretch s [] (mkSt (budget_left s) (budget_reported s) v)) by (split; simpl; [done|lia|constructor|auto]).
  destruct c; [by exists []|]. destruct (_ <=? _)%Z; exists []; done.
Qed.

(** Giving up for lack of budget: the budget is gone and it is reported. *)
Lemma stretch_exhaust s c :
  sound (Skipped c Report.ArchiveLimitReached) →
  stretch s [Skipped c Report.ArchiveLimitReached]
    (mkSt 0 true (visit (Skipped c Report.ArchiveLimitReached) (vis s))).
Proof.
  intros Hs. split; simpl; [|lia|by constructor|].
  - apply (reach_visit _ []), reach_refl.
  - intros _. right. exists c. by left.
Qed.

(** ** Members an archive holds *)

(** The complete data of an entry whose decompression does not fail. *)
Fixpoint delivered (reads : list entry_read) : option bytes :=
  match reads with
  | [] | Octets [] :: _ => Some []
  | Octets bs :: reads => (app bs) <$> delivered reads
  | ReadFails true _ :: reads => delivered reads
  | ReadFails false _ :: _ | ReadPanics :: _ => None
  end.

(** [located data c d m]: in the archive [data], reached through [c] with
    members at depth [d], or in an archive nested in it that is whole, in
    memory and within the depth limit, there is a member [m] (its chain)
    that is not a directory. *)
Inductive located : bytes → list ObservedPath → N → list ObservedPath → Prop :=
  | located_here data c d z i raw :
      zip_new data = Returns (Ok z) → (i < zip_len z)%nat →
      by_index_raw z i = Returns (Ok raw) → is_dir raw = false →
      located data c d (c ++ [member_name (raw_name raw) (name_octets raw)])
  | located_inside data c d z i raw reads bs m :
      zip_new data = Returns (Ok z) → (i < zip_len z)%nat →
      by_index_raw z i = Returns (Ok raw) → is_dir raw = false →
      encrypted raw = false → is_symlink raw = false →
      by_index z i = Returns (Ok reads) → delivered reads = Some bs →
      vlen bs ≤ max_member_size → vlen bs ≤ max_member_content limits →
      Fsio.looks_like_zip bs = true → d < archive_max_depth limits →
      located bs (c ++ [member_name (raw_name raw) (name_octets raw)]) (d + 1) m →
      located data c d m.

(** The data of an entry that can be read whole and is no larger than a
    member may be. *)
Definition whole (z : zip_archive) (i : nat) (raw : RawEntry) : option bytes :=
  if encrypted raw || is_symlink raw then None
  else match by_index z i with
       | Returns (Ok reads) =>
           bs ← delivered reads; if vlen bs <=? max_member_size then Some bs else None
       | _ => None
       end.

Lemma whole_Some z i raw bs :
  whole z i raw = Some bs → encrypted raw = false ∧ is_symlink raw = false ∧
    ∃ reads, by_index z i = Returns (Ok reads) ∧ delivered reads = Some bs ∧ vlen bs ≤ max_member_size.
Proof.
  unfold whole. destruct (encrypted raw), (is_symlink raw); try done. simpl.
  destruct (by_index z i) as [[reads|]|]; try done. intros (bs' & Hd & Hx)%bind_Some.
  destruct (N.leb_spec (vlen bs') max_member_size); [|done]. injection Hx as ->. split_and!; [done..|].
  by exists reads.
Qed.

(** [holds data c d m w]: [located], with the member's data where it can be
    read whole. *)
Inductive holds : bytes → list ObservedPath → N → list ObservedPath → option bytes → Prop :=
  | holds_here data c d z i raw :
      zip_new data = Returns (Ok z) → (i < zip_len z)%nat →
      by_index_raw z i = Returns (Ok raw) → is_dir raw = false →
      holds data c d (c ++ [member_name (raw_name raw) (name_octets raw)]) (whole z i raw)
  | holds_inside data c d z i raw bs m w :
      zip_new data = Returns (Ok z) → (i < zip_len z)%nat →
      by_index_raw z i = Returns (Ok raw) → is_dir raw = false →
      whole z i raw = Some bs → vlen bs ≤ max_member_content limits →
      Fsio.looks_like_zip bs = true → d < archive_max_depth limits →
      holds bs (c ++ [member_name (raw_name raw) (name_octets raw)]) (d + 1) m w →
      holds data c d m w.

Lemma located_holds data c d m : located data c d m → ∃ w, holds data c d m w.
Proof.
  induction 1 as [data c d z i raw|data c d z i raw reads bs m ? ? ? ? He Hl Hb Hd Hs ? ? ? ? [w IH]];
    [eexists; by apply holds_here|].
  exists w. eapply holds_inside; try done. unfold whole. rewrite He, Hl, Hb. simpl. rewrite Hd. simpl.
  by rewrite (proj2 (N.leb_le _ _) Hs).
Qed.

(** The same for one entry. *)
Definition within (z : zip_archive) (i : nat) (raw : RawEntry) (c : list ObservedPath) (d : N)
    (m : list ObservedPath) (w : option bytes) : Prop :=
  let inner := c ++ [member_name (raw_name raw) (name_octets raw)] in
  (m = inner ∧ w = whole z i raw) ∨
  ∃ bs, whole z i raw = Some bs ∧ vlen bs ≤ max_member_content limits ∧
    Fsio.looks_like_zip bs = true ∧ d < archive_max_depth limits ∧
    holds bs inner (d + 1) m w.

Lemma holds_entry data c d m w :
  holds data c d m w → ∃ z i raw, zip_new data = Returns (Ok z) ∧ (i < zip_len z)%nat ∧
    by_index_raw z i = Returns (Ok raw) ∧ is_dir raw = false ∧ within z i raw c d m w.
Proof.
  destruct 1 as [data c d z i raw|data c d z i raw bs m w]; exists z, i, raw; split_and!; try done; [by left|].
  right. by exists bs.
Qed.

(** The event of a member that was read whole. *)
Definition delivery (m : list ObservedPath) (bs : bytes) : Event :=
  Member m (sha256 bs) (vlen bs) (if vlen bs <=? max_member_content limits then Some bs else None).

Definition is_member (e : Event) : bool := match e with Member _ _ _ _ => true | _ => false end.

(** The event a member asks for: it is delivered, where it can be read whole,
    and otherwise skipped or in error. *)
Definition tells (m : list ObservedPath) (w : option bytes) (e : Event) : Prop :=
  match w with
  | Some bs => e = delivery m bs
  | None => event_chain e = m ∧ is_member e = false
  end.

Lemma tells_chain m w e : tells m w e → event_chain e = m.
Proof. destruct w; simpl; [by intros ->|by intros []]. Qed.

(** An event tells of [m], or it is reported that the limit was reached. *)
Definition covered (s : st) (es : list Event) (m : list ObservedPath) (w : option bytes) : Prop :=
  (∃ e, e ∈ es ∧ tells m w e) ∨ limited es ∨ budget_reported s = true.

Lemma covered_app_l s es es' m w : covered s es m w → covered s (es ++ es') m w.
Proof. unfold covered. rewrite limited_app. setoid_rewrite elem_of_app. naive_solver. Qed.

Lemma covered_app_r s es s1 es' m w : stretch s es s1 → covered s1 es' m w → covered s (es ++ es') m w.
Proof.
  intros [_ _ _ Hr]. unfold covered. rewrite limited_app. setoid_rewrite elem_of_app.
  intros [(e & ? & ?)|[?|Hb]]; [left; exists e; auto|auto|]. destruct (Hr Hb); auto.
Qed.

(** The loop variables: everything hashed so far, kept whole while it fits. *)
Record copy_ok (c : copy) : Prop := {
  copy_total : total c = vlen (hashed c);
  copy_size : total c ≤ max_member_size;
  copy_keep : keep c = (total c <=? max_member_content limits);
  copy_content : keep c = true → content c = hashed c }.

Lemma copy_more_ok bs c : copy_ok c → total c + vlen bs ≤ max_member_size → copy_ok (copy_more bs c).
Proof.
  intros [Ht Hz Hk Hc] Hle. unfold copy_more. destruct (keep c) eqn:Ek.
  - destruct (N.ltb_spec (max_member_content limits) (total c + vlen bs)); split; simpl; autorewrite with warden;
      try (by rewrite Hc); try done; lia.
  - split; simpl; autorewrite with warden; try done; lia.
Qed.

Lemma copy_more_fields bs c : total (copy_more bs c) = total c + vlen bs ∧ hashed (copy_more bs c) = hashed c ++ bs.
Proof. unfold copy_more. destruct (keep c); [destruct (_ <? _)|]; done. Qed.

(** What [read_member] gives: a complete copy within the budget, or an event
    about the member; data that would have fitted is only given up for lack
    of budget. *)
Definition copied (chain : list ObservedPath) (reads : list entry_read) (c : copy)
    (es : list Event) (r : option copy) (s' : st) : Prop :=
  match r with
  | Some c' => es = [] ∧ copy_ok c' ∧ total c' ≤ budget_left s' ∧
      ∃ bs, delivered reads = Some bs ∧ hashed c' = hashed c ++ bs
  | None => (∃ e, e ∈ es ∧ event_chain e = chain ∧ is_member e = false) ∧
      ∀ bs, delivered reads = Some bs → total c + vlen bs ≤ max_member_size → limited es
  end.

Lemma sound_here c e : (vlen c ≤ N.max 1 (archive_max_depth limits)) → event_chain e = c →
  match e with Member _ _ _ _ => False | _ => True end → sound e.
Proof. intros Hc <- He. split; [done|]. by destruct e. Qed.

Lemma read_member_spec chain reads c s
    (Hc : vlen chain ≤ N.max 1 (archive_max_depth limits)) (Hs : budget_left s ≤ u64_max) :
  copy_ok c → total c ≤ budget_left s →
  spec_at s (read_member chain reads c) (copied chain reads c).
Proof.
  assert (Hend : ∀ s c, copy_ok c → total c ≤ budget_left s → ∀ reads, delivered reads = Some [] →
    spec_at s (mret (Some c)) (copied chain reads c)).
  { intros s0 c0 Hok Hb reads0 Hd. apply spec_at_ret. split_and!; try done.
    exists []. by rewrite app_nil_r. }
  revert s c Hs. induction reads as [|rd reads IH]; intros s c Hs Hok Hb; simpl;
    (eapply spec_at_bind; [apply spec_at_check|]; intros es0 [] s0 _ [-> H0]; simpl).
  { apply Hend; try done; lia. }
  destruct rd as [[|b bs]|[] e|].
  - apply Hend; try done; lia.
  - eapply spec_at_bind; [apply spec_at_get|]. intros ? ? ? _ (-> & -> & ->).
    remember (b :: bs) as buf eqn:Ebuf.
    destruct (N.ltb_spec (budget_left s0) (total c + vlen buf)) as [|Hfit].
    { exists [Skipped chain Report.ArchiveLimitReached].
      split; [by apply (stretch_exhaust s0), (sound_here chain)|].
      split; [eexists; split; [by left|done]|]. intros. exists chain. by left. }
    destruct (N.ltb_spec max_member_size (total c + vlen buf)) as [Hbig|Hsmall].
    { rewrite wrapping_sub64_le by (unfold u64_max in *; lia).
      eapply spec_at_bind; [by apply spec_at_spend|]. intros ? [] s1 _ [-> ->].
      eapply spec_at_bind; [by apply spec_at_emit; [apply (sound_here chain)|]|]. intros es [] s2 _ [-> _].
      apply spec_at_ret. split; [eexists; split; [by left|done]|].
      intros bs' Hd. simpl in Hd. subst buf. destruct (delivered reads); [|done]. injection Hd as <-.
      autorewrite with warden in *. intros. lia. }
    destruct (copy_more_fields buf c) as [Hmt Hmh].
    eapply spec_at_weaken; [apply IH; [lia|by apply copy_more_ok|rewrite Hmt; lia]|].
    intros es r s' _ Hcop. unfold copied in *. rewrite Hmt, Hmh in Hcop.
    assert (Hd : ∀ bs', delivered (Octets buf :: reads) = Some bs' → ∃ tl, delivered reads = Some tl ∧ bs' = buf ++ tl).
    { intros bs'. subst buf. simpl. destruct (delivered reads); [|done]. intros [= <-]. by eexists. }
    destruct r as [c'|].
    + destruct Hcop as (? & ? & ? & Hdel). split_and!; try done.
      destruct Hdel as (tl & Htl & Hh). exists (buf ++ tl). rewrite app_assoc. split; [|done].
      subst buf. simpl. by rewrite Htl.
    + destruct Hcop as [? Hlim]. split; [done|]. intros bs' (tl & Htl & ->)%Hd. autorewrite with warden.
      intros Hle. apply (Hlim tl Htl). lia.
  - eapply spec_at_weaken; [apply IH; [lia|done|lia]|]. by intros.
  - eapply spec_at_bind; [by apply spec_at_emit; [apply (sound_here chain)|]|]. intros es [] s1 _ [-> Hb1].
    eapply spec_at_bind; [apply spec_at_get|]. intros ? ? ? _ (-> & -> & ->).
    eapply spec_at_bind; [apply spec_at_spend; lia|]. intros ? [] s2 _ [-> ->].
    apply spec_at_ret. split; [eexists; split; [by left|done]|]. done.
  - exists []. apply stretch_nil.
Qed.

(** The chain and depth of an archive's members. *)
Definition depth_ok (c : list ObservedPath) (d : N) : Prop :=
  vlen c + 1 = d ∧ d ≤ N.max 1 (archive_max_depth limits).

(** What a recursive call must do for the archive it is given. *)
Definition covers (nested : bytes → list ObservedPath → N → E unit) : Prop :=
  ∀ bs c d s, depth_ok c d → budget_left s ≤ u64_max →
    spec_at s (nested bs c d) (λ es _ _, ∀ m w, holds bs c d m w → covered s es m w).

Lemma covered_event s es e m w : e ∈ es → tells m w e → covered s es m w.
Proof. left. by exists e. Qed.

(** An event about the member, when there is nothing in it to look for. *)
Lemma spec_emit_within s z i raw c d e :
  sound e → member_size e = 0 → is_member e = false → event_chain e = c ++ [member_name (raw_name raw) (name_octets raw)] →
  whole z i raw = None →
  spec_at s (emit e) (λ es _ _, ∀ m w, within z i raw c d m w → covered s es m w).
Proof.
  intros He Hz Hm Hc Hno. eapply spec_at_weaken; [by apply spec_at_emit|]. intros es [] s1 _ [-> _] m w Hw.
  destruct Hw as [[-> ->]|(bs & Hbs & _)]; [|congruence].
  eapply covered_event; [by left|]. rewrite Hno. by split.
Qed.

Lemma member_spec nested z i raw c d s :
  covers nested → depth_ok c d → budget_left s ≤ u64_max → encrypted raw || is_symlink raw = false →
  spec_at s (member nested z i (c ++ [member_name (raw_name raw) (name_octets raw)]) d)
    (λ es _ _, ∀ m w, within z i raw c d m w → covered s es m w).
Proof.
  intros Hn [Hd1 Hd2] Hs Hplain. unfold member. set (inner := c ++ _).
  assert (Hlen : vlen inner = d) by (unfold inner; autorewrite with warden; lia).
  assert (Hc : vlen inner ≤ N.max 1 (archive_max_depth limits)) by lia.
  eapply spec_at_bind; [apply spec_at_lib|]. intros ? r ? _ (-> & Hr & ->). simpl.
  destruct r as [reads|[| |e]];
    [|apply spec_emit_within; [by apply (sound_here inner)|done|done|done|]; unfold whole; by rewrite Hplain, Hr..].
  eapply spec_at_bind.
  { apply read_member_spec; [done|done| |simpl; lia]. split; simpl; try done; lia. }
  intros es1 r s1 Hs1 Hcop. destruct r as [cp|].
  2:{ destruct Hcop as [(e & He & Hch & Hem) Hlim]. apply spec_at_ret. rewrite app_nil_r.
      assert (Hl : ∀ bs, whole z i raw = Some bs → limited es1).
      { intros bs (_ & _ & reads' & Hb & Hdel & Hsz)%whole_Some. rewrite Hr in Hb. injection Hb as <-. by apply (Hlim bs). }
      intros m w [[-> ->]|(bs & Hbs & _)]; [|right; left; by eapply Hl].
      destruct (whole z i raw) as [bs|] eqn:Hw; [right; left; by eapply Hl|]. eapply covered_event; [done|by split]. }
  destruct Hcop as (-> & [Ht Hsz Hk Hcont] & Htb & bs0 & Hdel & Hh). simpl in Hh |- *.
  eapply spec_at_bind; [apply spec_at_get|]. intros ? ? ? _ (-> & -> & ->).
  pose proof (stretch_budget _ _ _ Hs1) as Hb1. simpl in Hb1.
  set (e := Member inner (sha256 (hashed cp)) (total cp) (if keep cp then Some (content cp) else None)).
  set (s2 := mkSt (budget_left s1 - total cp) (budget_reported s1) (visit e (vis s1))).
  assert (Hs2 : stretch s1 [e] s2).
  { split; simpl; [apply (reach_visit _ []), reach_refl|lia| |by auto].
    constructor; [|constructor]. split; [done|]. simpl. split; [done|]. exists (hashed cp). split_and!; try done.
    rewrite <-Hk. destruct (keep cp); [|done]. by rewrite Hcont. }
  assert (Hgoal : ∀ (m : E unit) (Q : list Event → Prop),
    spec_at s2 m (λ es _ _, Q ([e] ++ es)) →
    spec_at s1 (_ ← set_budget (wrapping_sub64 (budget_left s1) (total cp)) (budget_reported s1); _ ← emit e; m)
      (λ es _ _, Q es)).
  { intros m Q Hm. rewrite wrapping_sub64_le by (unfold u64_max in *; lia).
    unfold spec_at, mbind, E_bind, set_budget, emit in *. simpl in *. fold s2.
    destruct (m s2); [|destruct Hm as (es & Hes); exists ([e] ++ es); by eapply stretch_app..|done].
    destruct Hm as (es & Hes & ?). exists ([e] ++ es). split; [by eapply stretch_app|done]. }
  apply (Hgoal _ (λ es, ∀ m w, within z i raw c d m w → covered s ([] ++ [] ++ es) m w)). clear Hgoal. simpl.
  assert (Hbs0 : whole z i raw = Some bs0).
  { unfold whole. rewrite Hplain, Hr. simpl. rewrite Hdel. simpl. rewrite <-Hh, <-Ht. by rewrite (proj2 (N.leb_le _ _) Hsz). }
  assert (Hcopy : e = delivery inner bs0).
  { unfold e, delivery. rewrite Ht, Hh. rewrite Ht, Hh in Hk.
    rewrite <-Hk. destruct (keep cp); [|done]. by rewrite (Hcont eq_refl), Hh. }
  assert (Hin : ∀ es m w, within z i raw c d m w →
    (∀ bs, (if keep cp then Some (content cp) else None) = Some bs → Fsio.looks_like_zip bs = true →
      d < archive_max_depth limits → holds bs inner (d + 1) m w → covered s (e :: es) m w) → covered s (e :: es) m w).
  { intros es m w [[-> ->]|(bs & Hbs & Hmc & Hzip & Hdep & Hloc)] Hnest.
    { eapply covered_event; [by left|]. by rewrite Hbs0. }
    rewrite Hbs0 in Hbs. injection Hbs as ->. apply (Hnest bs); try done. unfold e, delivery in Hcopy.
    injection Hcopy as _ _ ->. by rewrite (proj2 (N.leb_le _ _) Hmc). }
  destruct (keep cp).
  2:{ apply spec_at_ret. intros m w Hw. by apply Hin. }
  destruct (Fsio.looks_like_zip (content cp)) eqn:Hz.
  2:{ apply spec_at_ret. intros m w Hw. apply Hin; [done|]. intros bs [= <-]. by rewrite Hz. }
  destruct (N.ltb_spec d (archive_max_depth limits)) as [Hlt|].
  - eapply spec_at_weaken; [apply Hn|].
    + split; [by rewrite Hlen|lia].
    + unfold s2; simpl. lia.
    + intros es u s3 Hs3 Hcov m w Hw. apply Hin; [done|]. intros bs [= <-] _ _ Hloc.
      change (e :: es) with ([] ++ [e] ++ es). eapply covered_app_r; [done|]. eapply covered_app_r; [done|]. by apply Hcov.
  - eapply spec_at_weaken; [apply spec_at_emit; [by apply (sound_here inner)|done]|].
    intros es [] s3 _ [-> _] m w Hw. apply Hin; [done|]. intros. lia.
Qed.

Lemma entries_spec nested z c d ixs s :
  covers nested → depth_ok c d → budget_left s ≤ u64_max →
  spec_at s (entries nested z c d ixs) (λ es _ _, ∀ i raw m w, i ∈ ixs →
    by_index_raw z i = Returns (Ok raw) → is_dir raw = false → within z i raw c d m w → covered s es m w).
Proof.
  intros Hn Hd. assert (Hc : vlen c ≤ N.max 1 (archive_max_depth limits)) by (destruct Hd; lia).
  revert s. induction ixs as [|j ixs IH]; intros s Hs; simpl.
  { apply spec_at_ret. intros i raw m w Hi. by apply not_elem_of_nil in Hi. }
  eapply spec_at_bind; [apply spec_at_check|]. intros ? [] s0 Hs0 [-> Hb0].
  eapply spec_at_bind; [apply spec_at_get|]. intros ? ? ? _ (-> & -> & ->).
  destruct (budget_left s0 =? 0).
  { destruct (budget_reported s0) eqn:Hrep.
    - apply spec_at_ret. intros i raw m w _ _ _ _. apply (covered_app_r _ _ s0); [done|]. by right; right.
    - exists [Skipped c Report.ArchiveLimitReached].
      split; [by apply (stretch_exhaust s0), (sound_here c)|]. intros i raw m w _ _ _ _. right; left. exists c. by left. }
  eapply spec_at_bind; [apply spec_at_lib|]. intros ? r ? _ (-> & Hr & ->). simpl.
  (* the rest of the entries, after the events of this one *)
  assert (Hrest : ∀ es s1, stretch s0 es s1 →
    (∀ raw m w, r = Ok raw → is_dir raw = false → within z j raw c d m w → covered s0 es m w) →
    spec_at s1 (entries nested z c d ixs) (λ es2 _ _, ∀ i raw m w, i ∈ j :: ixs →
      by_index_raw z i = Returns (Ok raw) → is_dir raw = false → within z i raw c d m w → covered s (es ++ es2) m w)).
  { intros es s1 Hs1 Hj. pose proof (stretch_budget _ _ _ Hs1) as Hb1.
    eapply spec_at_weaken; [apply IH; lia|]. intros es2 u s2 _ Hes2 i raw m w Hi Hraw Hdir Hw.
    apply (covered_app_r _ [] s0); [done|].
    apply elem_of_cons in Hi as [->|Hi].
    - rewrite Hr in Hraw. injection Hraw as ->. by eapply covered_app_l, Hj.
    - eapply covered_app_r; [done|]. by eapply Hes2. }
  destruct r as [raw|e].
  - destruct (is_dir raw) eqn:Hdir.
    { apply (Hrest [] s0); [apply stretch_nil|]. intros raw' m w [= <-]. by rewrite Hdir. }
    set (inner := c ++ _).
    assert (Hin : vlen inner ≤ N.max 1 (archive_max_depth limits)).
    { unfold inner. autorewrite with warden. destruct Hd. lia. }
    eapply spec_at_bind.
    + instantiate (1 := λ es _ _, ∀ m w, within z j raw c d m w → covered s0 es m w).
      destruct (encrypted raw) eqn:He.
      { apply spec_emit_within; [by apply (sound_here inner)|done..|]. unfold whole. by rewrite He. }
      destruct (is_symlink raw) eqn:Hl.
      { apply spec_emit_within; [by apply (sound_here inner)|done..|]. unfold whole. by rewrite Hl, orb_true_r. }
      apply member_spec; [done..|lia|by rewrite He, Hl].
    + intros es u s1 Hs1 Hm. apply (Hrest es); [done|]. intros raw' m w [= <-] _ Hw. by apply Hm.
  - eapply spec_at_bind; [by apply spec_at_emit; [apply (sound_here c)|]|].
    intros es [] s1 Hs1 _. apply (Hrest es); [done|]. by intros.
Qed.

Lemma expand_spec fuel strict : covers (λ bs c d, expand fuel bs c d strict).
Proof.
  revert strict. induction fuel as [|fuel IH]; intros strict bs c d s Hd Hs; simpl; [done|].
  assert (Hc : vlen c ≤ N.max 1 (archive_max_depth limits)) by (destruct Hd; lia).
  eapply spec_at_bind; [apply spec_at_lib|]. intros ? r ? _ (-> & Hr & ->). simpl.
  destruct r as [z|e].
  2:{ assert (Hno : ∀ m w, ¬ holds bs c d m w).
      { intros m w (z & i & raw & Hz & _)%holds_entry. congruence. }
      destruct strict; [|apply spec_at_ret; by intros m w Hm%Hno].
      eapply spec_at_weaken; [by apply spec_at_emit; [apply (sound_here c)|]|]. by intros es u s1 _ _ m w Hm%Hno. }
  eapply spec_at_bind.
  { instantiate (1 := λ es _ s', budget_left s' = budget_left s ∧
      (max_entries limits < N.of_nat (zip_len z) → limited es)).
    destruct (N.ltb_spec (max_entries limits) (N.of_nat (zip_len z))).
    - eapply spec_at_weaken; [by apply spec_at_emit; [apply (sound_here c)|]|].
      intros es [] s1 _ [-> ?]. split; [done|]. intros _. exists c. by left.
    - apply spec_at_ret. split; [done|]. lia. }
  intros es [] s1 Hs1 [Hb Hlim]. eapply spec_at_weaken; [apply entries_spec; [apply IH|done|lia]|].
  intros es2 u s2 _ Hes m w (z' & i & raw & Hz & Hi & Hraw & Hdir & Hw)%holds_entry.
  rewrite Hr in Hz. injection Hz as <-. simpl.
  destruct (N.lt_ge_cases (max_entries limits) (N.of_nat (zip_len z))) as [Hmany|Hfew].
  - apply covered_app_l. right; left. by apply Hlim.
  - eapply covered_app_r; [done|]. apply (Hes i raw); try done.
    apply elem_of_seq. rewrite N.min_l by done. rewrite Nat2N.id. lia.
Qed.

(** ** What an expansion never does

    With [quiet], it never reports a cancellation; without, it never runs out
    of fuel. *)
Definition avoids {A} (quiet : bool) (m : E A) : Prop := ∀ s,
  match m s with
  | Exhausted => quiet = true
  | Stopped Cancelled _ => quiet = false
  | _ => True
  end.

Section Avoids.
Context (quiet : bool) (Htoken : quiet = true → ∀ v, (tick v).1.1 = false).

Lemma avoids_bind {A B} (m : E A) (k : A → E B) :
  avoids quiet m → (∀ a, avoids quiet (k a)) → avoids quiet (m ≫= k).
Proof. intros Hm Hk s. unfold mbind, E_bind. specialize (Hm s). destruct (m s); try done. by apply Hk. Qed.
Lemma avoids_ret {A} (a : A) : avoids quiet (mret a).
Proof. done. Qed.
Lemma avoids_lib {A} (c : call A) : avoids quiet (lib c).
Proof. by destruct c. Qed.
Lemma avoids_emit e : avoids quiet (emit e).
Proof. done. Qed.
Lemma avoids_get : avoids quiet get_st.
Proof. done. Qed.
Lemma avoids_set b r : avoids quiet (set_budget b r).
Proof. done. Qed.
Lemma avoids_check : avoids quiet check.
Proof.
  intros s. unfold check. destruct quiet.
  - specialize (Htoken eq_refl (vis s)). destruct (tick (vis s)) as [[c n] v]. simpl in Htoken. rewrite Htoken.
    by destruct (_ <=? _)%Z.
  - destruct (tick (vis s)) as [[[] n] v]; [done|]. by destruct (_ <=? _)%Z.
Qed.

#[local] Hint Resolve avoids_ret avoids_lib avoids_emit avoids_get avoids_set avoids_check : avoids.
(** Walk through the binds, the tests and the cases of a script. *)
Ltac avoid_script :=
  repeat first
    [ solve [auto with avoids]
    | apply avoids_bind; [|intros ?]
    | match goal with
      | |- avoids _ (if ?b then _ else _) => destruct b eqn:?
      | |- avoids _ (match ?x with _ => _ end) => destruct x
      end ].

Lemma read_member_avoids chain reads c : avoids quiet (read_member chain reads c).
Proof. revert c. induction reads as [|[[|b bs]|[] e|] reads IH]; intros c; simpl; avoid_script; apply IH. Qed.

Lemma entries_avoid nested z c d ixs :
  (∀ bs c, d < archive_max_depth limits → avoids quiet (nested bs c (d + 1))) →
  avoids quiet (entries nested z c d ixs).
Proof.
  intros Hn. induction ixs as [|i ixs IH]; simpl; avoid_script; try apply IH; try apply read_member_avoids.
  apply Hn. by apply N.ltb_lt.
Qed.

Lemma expand_avoids fuel data c d strict :
  (quiet = false → (1 ≤ fuel)%nat ∧ (N.to_nat (archive_max_depth limits) < fuel + N.to_nat d)%nat) →
  avoids quiet (expand fuel data c d strict).
Proof.
  revert data c d strict. induction fuel as [|fuel IH]; intros data c d strict Hf.
  { intros s. simpl. destruct quiet; [done|]. destruct (Hf eq_refl). lia. }
  simpl. avoid_script. apply entries_avoid. intros bs c' Hlt. apply IH. intros Hq. destruct (Hf Hq). lia.
Qed.
End Avoids.

(** With enough fuel an expansion comes to an end. *)
Lemma expand_finishes fuel data c d strict s :
  (1 ≤ fuel)%nat → (N.to_nat (archive_max_depth limits) < fuel + N.to_nat d)%nat →
  expand fuel data c d strict s ≠ Exhausted.
Proof.
  intros H1 H2 He. pose proof (expand_avoids false ltac:(done) fuel data c d strict ltac:(done) s) as Ha.
  by rewrite He in Ha.
Qed.

Lemma depth_ok_root : depth_ok [] 1.
Proof. split; [done|lia]. Qed.
Lemma enough_pos : (1 ≤ enough)%nat.
Proof. unfold enough. lia. Qed.
Lemma enough_deep : (N.to_nat (archive_max_depth limits) < enough + N.to_nat 1)%nat.
Proof. unfold enough. change (N.to_nat 1) with 1%nat. lia. Qed.

End Expander.
#[global] Arguments Done {V A}.
#[global] Arguments Stopped {V A}.
#[global] Arguments Panicked {V A}.
#[global] Arguments Exhausted {V A}.
End Archive.

(** ** Properties *)
Module ArchiveProps.
Import Archive.

Section Props.
Context `{ZL : Zip, SH : Sha256}.
Context {V : Type} (tick : V → (bool * Z) * V) (visit : Event → V → V).
Context (limits : Config.ArchiveLimits) (max_member_size : N) (deadline : Z).

(** C23: the decompression-bomb defence. Whatever the ZIP library delivers,
    and whenever the scan is cancelled or the deadline passes, the expansion
    of a file comes to an end with the nesting the limits allow; all the
    members it delivered together have no more octets than the budget; each
    is within the member size, carries the hash of its complete content, and
    its content is kept exactly when it fits the content limit; and no chain
    is deeper than the nesting limit. *)
Theorem expansion_bounded data v (Hu64 : Config.max_total_bytes limits ≤ u64_max) :
  match expand_file tick visit limits max_member_size deadline (enough limits) data (new limits v) with
  | Done _ s' | Stopped _ s' | Panicked s' =>
      ∃ es, reach tick visit v es (vis s') ∧
        sumN member_size es + budget_left s' ≤ Config.max_total_bytes limits ∧
        Forall (sound limits max_member_size) es
  | Exhausted => False
  end.
Proof.
  pose proof (expand_spec tick visit limits max_member_size deadline (enough limits) (Fsio.looks_like_zip data)
    data [] 1 (new limits v) (depth_ok_root limits) Hu64) as Hs.
  pose proof (expand_finishes tick visit limits max_member_size deadline (enough limits) data [] 1
    (Fsio.looks_like_zip data) (new limits v) (enough_pos limits) (enough_deep limits)) as Hf.
  unfold expand_file, spec_at in *.
  destruct (expand _ _ _ _ _ _ _ _ _ _ _) as [a s'|e s'|s'|]; try done;
    [destruct Hs as (es & [? ? ? ?] & _)|destruct Hs as (es & [? ? ? ?])..]; by exists es.
Qed.

(** C26: nothing is silently dropped. When the expansion of a file ends
    without being stopped, every member of the archive that is not a
    directory, in it or in a nested archive that is whole, small enough to be
    kept and within the nesting depth, has an event under its own chain of
    names, or an event reports that an archive limit was reached. *)
Theorem expansion_reports_every_member fuel data v s'
    (Hu64 : Config.max_total_bytes limits ≤ u64_max)
    (Hd : expand_file tick visit limits max_member_size deadline fuel data (new limits v) = Done tt s') :
  ∃ es, reach tick visit v es (vis s') ∧
    ∀ m, located limits max_member_size data [] 1 m → (∃ e, e ∈ es ∧ event_chain e = m) ∨ limited es.
Proof.
  pose proof (expand_spec tick visit limits max_member_size deadline fuel (Fsio.looks_like_zip data)
    data [] 1 (new limits v) (depth_ok_root limits) Hu64) as Hs.
  unfold expand_file in Hd. unfold spec_at in Hs. rewrite Hd in Hs. destruct Hs as (es & [? ? ? ?] & Hc).
  exists es. split; [done|]. intros m [w Hm]%located_holds. destruct (Hc m w Hm) as [(e & ? & ?%tells_chain)|[?|?]]; [left; by exists e|by auto|done].
Qed.
End Props.

(** ** Instances *)

(** Three archives: the outer one holds a directory, a file and the nested
    archive; the nested one holds an encrypted file and one that does not
    decompress; the third is a bomb of three equal members. *)
Definition raw (n : string) (enc dir : bool) : RawEntry := mkRaw n (as_bytes n) enc dir false.
Definition zip_id (k : N) : bytes := [80; 75; 3; 4; k].
Definition toy_zip : Zip := {|
  zip_archive := list (RawEntry * list entry_read);
  zip_new bs := Returns (
    if bool_decide (bs = zip_id 1) then Ok [
      (raw "d/" false true, []); (raw "a" false false, [Octets [7; 7]; ReadFails true ""; Octets [8]]);
      (raw "n.zip" false false, [Octets (zip_id 2)])]
    else if bool_decide (bs = zip_id 2) then Ok [
      (raw "secret" true false, []); (raw "bad" false false, [Octets [1]; ReadFails false "checksum"])]
    else if bool_decide (bs = zip_id 3) then Ok (repeat (raw "x" false false, [Octets [1; 2; 3]]) 3)
    else Err "no central directory"%string);
  zip_len z := length z;
  by_index_raw z i := match z !! i with Some e => Returns (Ok e.1) | None => Panics end;
  by_index z i := match z !! i with Some e => Returns (Ok e.2) | None => Panics end |}.
#[local] Existing Instances toy_zip Toy.sha.

(** The visitor that lists the events; a clock that stands still. *)
Definition listing : Type := list Event.
Definition still (v : listing) : (bool * Z) * listing := ((false, 0%Z), v).
Definition list_event (e : Event) (v : listing) : listing := v ++ [e].
Definition small (budget : N) : Config.ArchiveLimits := Config.mkArchiveLimits true 2 10 budget 100.

Lemma reach_listing es w : reach still list_event [] es w → w = es.
Proof.
  intros H. remember [] as v eqn:Hv. induction H as [|v es w H IH|v es w e H IH]; [done|by apply IH|].
  by rewrite <-(IH Hv).
Qed.

Lemma expansion_bounded_witness :
  match expand_file still list_event (small 7) 50 9 (enough (small 7)) (zip_id 3) (new (small 7) []) with
  | Done _ s' | Stopped _ s' | Panicked s' =>
      ∃ es, reach still list_event [] es (vis s') ∧
        sumN member_size es + budget_left s' ≤ 7 ∧ Forall (sound (small 7) 50) es
  | Exhausted => False
  end ∧
  expand_file still list_event (small 7) 50 9 (enough (small 7)) (zip_id 3) (new (small 7) []) =
    let x := [member_name "x" (as_bytes "x")] in
    let m := Member x (Toy.digest [1; 2; 3]) 3 (Some [1; 2; 3]) in
    Done tt (mkSt 0 true [m; m; Skipped x Report.ArchiveLimitReached]).
Proof.
  split; [|vm_compute; reflexivity].
  apply (expansion_bounded still list_event (small 7) 50 9 (zip_id 3) []). vm_compute. discriminate.
Defined.

Definition nested_state : st (V := listing) :=
  Eval vm_compute in
    match expand_file still list_event (small 100) 50 9 3 (zip_id 1) (new (small 100) []) with
    | Done _ s' => s'
    | _ => new (small 100) []
    end.

Lemma expansion_reports_every_member_witness :
  length (vis nested_state) = 4%nat ∧
  ∃ es, reach still list_event [] es (vis nested_state) ∧
    ∀ m, located (small 100) 50 (zip_id 1) [] 1 m → (∃ e, e ∈ es ∧ event_chain e = m) ∨ limited es.
Proof.
  split; [reflexivity|].
  apply (expansion_reports_every_member still list_event (small 100) 50 9 3 (zip_id 1) []).
  - vm_compute. discriminate.
  - vm_compute. reflexivity.
Defined.

End ArchiveProps.
