(* ===== verification/Scanner.v ===== *)
(** * Evaluating files: [crates/engine/src/scanner.rs]

    What a worker does with one file (read it, run the detectors on it and on
    the members of an archive), how the coordinator aggregates the messages
    it receives into the report, and how the walk over the scan roots turns
    directory entries into work. The threads around them are in
    [ScanRun.v]. Detectors are parameters: their state, and what inspecting
    an observation returns. *)

From S2P Require Import Prelude Utf8 Paths Core External Fsio Archive.

Module Scanner.
Import Config.

(** ** Observations and detectors *)

Record Observation := mkObs {
  obs_path : path; obs_sha256 : Sha256Digest; obs_metadata : Finding.FileMetadata;
  obs_content : option bytes; obs_deadline : Z; obs_member : option (list ObservedPath) }.

(** [FileObservation::target] *)
Definition target (o : Observation) : Finding.FindingTarget :=
  match obs_member o with
  | None => Finding.File (ObservedPath.from_path (obs_path o)) (Some (obs_sha256 o)) (Some (obs_metadata o))
  | Some chain =>
      Finding.ArchiveMember (ObservedPath.from_path (obs_path o)) chain (Some (obs_sha256 o))
        (Finding.size (obs_metadata o))
  end.

(** What [inspect_file] does: findings, an error, or a panic. *)
Inductive inspection := Found (fs : list Finding) | DetectorError (message : string) | Panicking.

(** A detector: its identity, whether it needs content, the state a worker
    thread starts with, and the inspection. *)
Record Detector (W : Type) := mkDetector {
  det_id : string; det_database : option (string * option string); wants_content : bool;
  worker : W; inspect_file : W → Observation → inspection * W }.
Arguments mkDetector {W}.
Arguments det_id {W}.
Arguments det_database {W}.
Arguments wants_content {W}.
Arguments worker {W}.
Arguments inspect_file {W}.

Abbreviation skip_entry := (Report.SkipReason * option (list ObservedPath))%type.

Record FileResult := mkResult {
  r_findings : list Finding; r_issues : list Report.ScanIssue; r_skips : list skip_entry; r_members : N }.
Definition empty_result : FileResult := mkResult [] [] [] 0.

Definition add_findings (fs : list Finding) (r : FileResult) : FileResult :=
  mkResult (r_findings r ++ fs) (r_issues r) (r_skips r) (r_members r).
Definition add_issue (i : Report.ScanIssue) (r : FileResult) : FileResult :=
  mkResult (r_findings r) (r_issues r ++ [i]) (r_skips r) (r_members r).
Definition add_skip (s : skip_entry) (r : FileResult) : FileResult :=
  mkResult (r_findings r) (r_issues r) (r_skips r ++ [s]) (r_members r).
Definition add_member (r : FileResult) : FileResult :=
  mkResult (r_findings r) (r_issues r) (r_skips r) (r_members r + 1).

Inductive Msg :=
  | DirectoryMsg
  | Scanned (p : path) (octets : N) (res : FileResult)
  | SkippedMsg (p : path) (reason : Report.SkipReason)
  | IssueMsg (i : Report.ScanIssue).

(** [io_issue] on Unix, where [is_locked] is false. *)
Definition io_issue `{StdText, OtherKinds} (p : option path) (e : IoError) : Report.ScanIssue :=
  Report.Build_ScanIssue (ObservedPath.from_path <$> p)
    (match Fsio.kind e with
     | KPermissionDenied => Report.PermissionDenied
     | KNotFound => Report.NotFound
     | _ => Report.Io
     end) None (io_text e) None.

(** ** One file *)

Section Worker.
Context `{ZL : Zip, SH : Sha256, ST : StdText, OK : OtherKinds}.
Context {W C : Type} (read_clock : C → (bool * Z) * C).
Context (config : ScanConfig) (detectors : list (Detector W)).

(** What the worker thread changes while it evaluates a file: what it reads
    of the token and the clock, the detectors' states by index, the result,
    and [expand_archive]'s flag. *)
Record env := mkEnv { clock : C; workers : nat → W; out : FileResult; cancelled : bool }.

Definition set_out (r : FileResult) (v : env) : env := mkEnv (clock v) (workers v) r (cancelled v).
Definition set_worker (i : nat) (w : W) (v : env) : env :=
  mkEnv (clock v) (λ j, if decide (j = i) then w else workers v j) (out v) (cancelled v).
Definition set_clock (c : C) (v : env) : env := mkEnv c (workers v) (out v) (cancelled v).
Definition set_cancelled (v : env) : env := mkEnv (clock v) (workers v) (out v) true.

Definition tick_env (v : env) : (bool * Z) * env :=
  let '(now, c) := read_clock (clock v) in (now, set_clock c v).

Definition file_issue (o : Observation) (k : Report.IssueKind) (d : option string) (m : string) : Report.ScanIssue :=
  Report.Build_ScanIssue (Some (ObservedPath.from_path (obs_path o))) k d m (obs_member o).

Definition not_run_message (ds : list (Detector W)) : string :=
  fmt "the {} ms per-file limit was reached; detectors not run: {}"
    [show_N (file_timeout_ms (limits config)); String.concat ", " (det_id <$> ds)].

(** One detector on one observation; a panic replaces its state. *)
Definition run_one (i : nat) (d : Detector W) (o : Observation) (v : env) : env :=
  let '(outcome, w) := inspect_file d (workers v i) o in
  let v := set_worker i w v in
  match outcome with
  | Found fs => set_out (add_findings fs (out v)) v
  | DetectorError m =>
      set_out (add_issue (file_issue o Report.DetectorFailed (Some (det_id d)) m) (out v)) v
  | Panicking =>
      let v := set_worker i (worker d) v in
      set_out (add_issue (file_issue o Report.DetectorFailed (Some (det_id d))
        "detector panicked; its results for this file are missing") (out v)) v
  end.

(** The loop of [run_detectors] from index [i]: whether content was skipped,
    or [None] when the scan was cancelled. *)
Fixpoint run_from (i : nat) (ds : list (Detector W)) (o : Observation) (skipped : bool) (v : env)
    : option bool * env :=
  match ds with
  | [] => (Some skipped, v)
  | d :: rest =>
      let '((stop, now), v) := tick_env v in
      if stop then (None, v)
      else if (obs_deadline o <=? now)%Z then
        (Some skipped, set_out (add_issue (file_issue o Report.Timeout None (not_run_message ds)) (out v)) v)
      else if wants_content d && negb (bool_decide (is_Some (obs_content o))) then
        run_from (S i) rest o true v
      else run_from (S i) rest o skipped (run_one i d o v)
  end.

(** [run_detectors]: false when cancelled. *)
Definition run_detectors (o : Observation) (v : env) : bool * env :=
  match run_from 0 detectors o false v with
  | (None, v) => (false, v)
  | (Some true, v) => (true, set_out (add_skip (Report.ContentNotInspected, obs_member o) (out v)) v)
  | (Some false, v) => (true, v)
  end.

Definition any_wants_content : bool := existsb wants_content detectors.

(** [content.filter(|_| wants_content)] *)
Definition shown (content : option bytes) : option bytes := if any_wants_content then content else None.

(** [(!chain.is_empty()).then_some(chain)] *)
Definition some_chain (chain : list ObservedPath) : option (list ObservedPath) :=
  match chain with [] => None | _ => Some chain end.

(** The closure [expand_archive] gives to the expander. *)
Definition on_event (p : path) (deadline : Z) (e : Archive.Event) (v : env) : env :=
  match e with
  | Archive.Member chain sha size content =>
      let v := set_out (add_member (out v)) v in
      let o := mkObs p sha (Finding.Build_FileMetadata size None None) (shown content) deadline (Some chain) in
      let '(ok, v) := run_detectors o v in
      if ok then v else set_cancelled v
  | Archive.Skipped chain reason => set_out (add_skip (reason, some_chain chain) (out v)) v
  | Archive.Error chain m =>
      set_out (add_issue (Report.Build_ScanIssue (Some (ObservedPath.from_path p)) Report.ArchiveError None m
                            (some_chain chain)) (out v)) v
  end.

Definition archive_issue (p : path) (k : Report.IssueKind) (m : string) : Report.ScanIssue :=
  Report.Build_ScanIssue (Some (ObservedPath.from_path p)) k None m None.

(** [expand_archive]: false when cancelled. The fuel is enough for the
    nesting depth of the limits. *)
Definition expand_archive (p : path) (data : bytes) (deadline : Z) (v : env) : bool * env :=
  let a := archives (limits config) in
  let v := mkEnv (clock v) (workers v) (out v) false in
  let finish (v : env) := (negb (cancelled v), v) in
  match Archive.expand_file tick_env (on_event p deadline) a (max_file_size (limits config)) deadline
          (Archive.enough a) data (Archive.new a v) with
  | Archive.Done _ s => finish (Archive.vis s)
  | Archive.Stopped Archive.Cancelled s => (false, Archive.vis s)
  | Archive.Stopped Archive.Deadline s =>
      let v := Archive.vis s in
      finish (set_out (add_issue (archive_issue p Report.Timeout
        (fmt "archive expansion stopped at the {} ms per-file limit; remaining members were not inspected"
           [show_N (file_timeout_ms (limits config))])) (out v)) v)
  | Archive.Panicked s =>
      let v := Archive.vis s in
      finish (set_out (add_issue (archive_issue p Report.ArchiveError
        "the archive parser panicked; remaining members were not inspected") (out v)) v)
  | Archive.Exhausted => finish v
  end.

Definition timed_out_message (n : N) : string :=
  (Fsio.hash_file_text (λ _, "") (Fsio.TimedOut n) +:+
   fmt "; the {} ms per-file limit was reached, so the file was not evaluated"
     [show_N (file_timeout_ms (limits config))])%string.

Definition read_options (base : option path) (seen : option (gset (N * N))) (deadline : Z) : Fsio.ReadOptions :=
  let a := archives (limits config) in
  Fsio.mkReadOptions (symlink_policy config) (max_file_size (limits config))
    (if any_wants_content || enabled a then Some (max_content_size (limits config)) else None)
    (Some deadline) seen base (enabled a && negb any_wants_content).

(** After [read_file]: the detectors on the file, then on its members. *)
Definition evaluate (p : path) (r : Fsio.ReadOutcome) (content : bytes) (deadline : Z) (v : env)
    : option Msg * env :=
  let a := archives (limits config) in
  let hashed := Fsio.hashed r in
  let data := if Fsio.has_content r then Some content else None in
  let o := mkObs p (Fsio.hashed_sha256 hashed) (Fsio.hashed_metadata hashed) (shown data) deadline None in
  let '(ok, v) := run_detectors o v in
  if negb ok then (None, v) else
  let '(ok, v) :=
    if enabled a then
      match data with
      | Some bs => if Fsio.may_contain_zip bs then expand_archive p bs deadline v else (true, v)
      | None =>
          if Fsio.zip_magic r then (true, set_out (add_skip (Report.ArchiveTooLarge, None) (out v)) v)
          else (true, v)
      end
    else (true, v) in
  if negb ok then (None, v) else
  (Some (Scanned p (Finding.size (Fsio.hashed_metadata hashed)) (out v)), v).

(** [process_file], once the read loop has returned: the message, if the scan
    was not cancelled. *)
Definition process_file (os : Fsio.OpenCall → result IoError Fsio.Handle) (ticks : list Fsio.tick)
    (p : path) (base : option path) (seen : option (gset (N * N))) (now : Z) (v : env)
    : option (option Msg * option (gset (N * N)) * env) :=
  let deadline := (now + file_timeout (limits config))%Z in
  match Fsio.read_file os p (read_options base seen deadline) ticks with
  | None => None
  | Some (r, seen) =>
      let '(m, v) :=
        match r with
        | Err Fsio.Cancelled => (None, v)
        | Err (Fsio.Skipped reason) => (Some (SkippedMsg p reason), v)
        | Err (Fsio.Io e) => (Some (IssueMsg (io_issue (Some p) e)), v)
        | Err (Fsio.TimedOut n) =>
            (Some (IssueMsg (archive_issue p Report.Timeout (timed_out_message n))), v)
        | Ok (r, content) => evaluate p r content deadline (set_out empty_result v)
        end in
      Some (m, seen, v)
  end.
(** ** Results only grow *)

Record grows (r r' : FileResult) : Prop := {
  grows_findings : r_findings r `prefix_of` r_findings r';
  grows_issues : r_issues r `prefix_of` r_issues r';
  grows_skips : r_skips r `prefix_of` r_skips r' }.

#[export] Instance grows_preorder : PreOrder grows.
Proof.
  split; [by split|]. intros a b c [? ? ?] [? ? ?]. split; by etrans.
Qed.

Lemma grows_add_findings fs r : grows r (add_findings fs r).
Proof. split; simpl; [by apply prefix_app_r|done..]. Qed.
Lemma grows_add_issue i r : grows r (add_issue i r).
Proof. split; simpl; [done|by apply prefix_app_r|done]. Qed.
Lemma grows_add_skip s r : grows r (add_skip s r).
Proof. split; simpl; [done|done|by apply prefix_app_r]. Qed.
Lemma grows_add_member r : grows r (add_member r).
Proof. by split. Qed.
#[local] Hint Resolve grows_add_findings grows_add_issue grows_add_skip grows_add_member : warden.

Lemma prefix_elem_of {A} (x : A) l k : l `prefix_of` k → x ∈ l → x ∈ k.
Proof. intros [l' ->] ?. apply elem_of_app. by left. Qed.

(** What a result says of a detector and an observation: its findings, its
    failure, that it was skipped for want of content, or that the time limit
    kept it from running. *)
Definition accounted (o : Observation) (r : FileResult) (d : Detector W) : Prop :=
  (∃ w, match (inspect_file d w o).1 with
        | Found fs => ∀ f, f ∈ fs → f ∈ r_findings r
        | DetectorError m => file_issue o Report.DetectorFailed (Some (det_id d)) m ∈ r_issues r
        | Panicking => ∃ m, file_issue o Report.DetectorFailed (Some (det_id d)) m ∈ r_issues r
        end) ∨
  (wants_content d = true ∧ obs_content o = None ∧ (Report.ContentNotInspected, obs_member o) ∈ r_skips r) ∨
  (∃ ds, d ∈ ds ∧ file_issue o Report.Timeout None (not_run_message ds) ∈ r_issues r).

Lemma accounted_grows o d r r' : grows r r' → accounted o r d → accounted o r' d.
Proof.
  intros [Hf Hi Hs] [[w Hw]|[(? & ? & ?)|(ds & ? & ?)]].
  - left. exists w. destruct (inspect_file d w o).1 as [fs|m|].
    + intros f Hin. by eapply prefix_elem_of; [|apply Hw].
    + by eapply prefix_elem_of.
    + destruct Hw as [m Hm]. exists m. by eapply prefix_elem_of.
  - right; left. split_and!; [done..|]. by eapply prefix_elem_of.
  - right; right. exists ds. split; [done|]. by eapply prefix_elem_of.
Qed.

Lemma tick_env_out v : out (tick_env v).2 = out v ∧ cancelled (tick_env v).2 = cancelled v.
Proof. unfold tick_env. by destruct (read_clock (clock v)) as [[? ?] ?]. Qed.

Lemma run_one_spec i d o v :
  grows (out v) (out (run_one i d o v)) ∧ accounted o (out (run_one i d o v)) d ∧
  cancelled (run_one i d o v) = cancelled v.
Proof.
  unfold run_one. destruct (inspect_file d (workers v i) o) as [x w] eqn:Hx.
  assert (Hfst : (inspect_file d (workers v i) o).1 = x) by by rewrite Hx.
  destruct x as [fs|m|]; simpl; (split; [auto with warden|split; [|done]]); left; exists (workers v i);
    rewrite Hfst; simpl.
  - intros f Hf. apply elem_of_app. by right.
  - apply elem_of_app. right. by left.
  - eexists. apply elem_of_app. right. by left.
Qed.

(** The loop accounts for every detector, except that those skipped for want
    of content still have to be reported. *)
Lemma run_from_spec i ds o skipped v r v' :
  run_from i ds o skipped v = (r, v') →
  grows (out v) (out v') ∧ cancelled v' = cancelled v ∧
  ∀ s, r = Some s → (skipped = true → s = true) ∧
    ∀ d, d ∈ ds → accounted o (out v') d ∨ (s = true ∧ wants_content d = true ∧ obs_content o = None).
Proof.
  revert i skipped v. induction ds as [|d ds IH]; intros i skipped v; simpl.
  { intros [= <- <-]. split_and!; [done|done|]. intros s [= ->]. split; [done|].
    by intros d ?%not_elem_of_nil. }
  pose proof (tick_env_out v) as [Ht Htc]. destruct (tick_env v) as [[stop now] v1]. simpl in Ht, Htc.
  destruct stop.
  { intros [= <- <-]. by rewrite Ht. }
  destruct (obs_deadline o <=? now)%Z.
  { intros [= <- <-]. simpl. rewrite Ht. split_and!; [auto with warden|done|]. intros s [= ->]. split; [done|].
    intros d' Hd'. left. right; right. exists (d :: ds). split; [done|]. apply elem_of_app. right. by left. }
  destruct (wants_content d && _) eqn:Hw.
  - intros (Hg & Hc & Hs)%IH. rewrite Ht in Hg. split_and!; [done|congruence|]. intros s Hr.
    destruct (Hs s Hr) as [Hsk Hall]. split; [by intros; apply Hsk|].
    intros d' [->|Hin]%elem_of_cons; [|by apply Hall].
    right. apply andb_true_iff in Hw as [? Hno]. split_and!; [by apply Hsk|done|].
    apply negb_true_iff, bool_decide_eq_false in Hno. by destruct (obs_content o); [destruct Hno|].
  - destruct (run_one_spec i d o v1) as (Hg1 & Ha1 & Hc1).
    intros (Hg & Hc & Hs)%IH. rewrite Ht in Hg1. split_and!; [by etrans|congruence|]. intros s Hr.
    destruct (Hs s Hr) as [Hsk Hall]. split; [done|].
    intros d' [->|Hin]%elem_of_cons; [|by apply Hall]. left. by eapply accounted_grows.
Qed.

Lemma run_detectors_spec o v ok v' :
  run_detectors o v = (ok, v') →
  grows (out v) (out v') ∧ cancelled v' = cancelled v ∧
  (ok = true → ∀ d, d ∈ detectors → accounted o (out v') d).
Proof.
  unfold run_detectors. destruct (run_from 0 detectors o false v) as [r v1] eqn:Hr.
  apply run_from_spec in Hr as (Hg & Hc & Hs). destruct r as [[]|]; intros [= <- <-]; split_and!; try done.
  - simpl. etrans; [done|]. auto with warden.
  - intros _ d Hd. destruct (Hs true eq_refl) as [_ Hall]. destruct (Hall d Hd) as [Ha|(_ & Hw & Hno)].
    + eapply accounted_grows; [|done]. simpl. auto with warden.
    + right; left. split_and!; [done..|]. simpl. apply elem_of_app. right. by left.
  - intros _ d Hd. destruct (Hs false eq_refl) as [_ Hall]. by destruct (Hall d Hd) as [|(? & _)].
Qed.

(** ** Members *)

(** What a result holds of an event of the expander. *)
Definition recorded (p : path) (deadline : Z) (r : FileResult) (e : Archive.Event) : Prop :=
  match e with
  | Archive.Member chain sha size content =>
      ∀ d, d ∈ detectors → accounted
        (mkObs p sha (Finding.Build_FileMetadata size None None) (shown content) deadline (Some chain)) r d
  | Archive.Skipped chain reason => (reason, some_chain chain) ∈ r_skips r
  | Archive.Error chain m =>
      Report.Build_ScanIssue (Some (ObservedPath.from_path p)) Report.ArchiveError None m (some_chain chain) ∈ r_issues r
  end.

Lemma recorded_grows p dl r r' e : grows r r' → recorded p dl r e → recorded p dl r' e.
Proof.
  intros Hg. destruct e; simpl.
  - intros H d Hd. eapply accounted_grows; [done|]. by apply H.
  - by apply prefix_elem_of, Hg.
  - by apply prefix_elem_of, Hg.
Qed.

Lemma on_event_spec p dl e v :
  let v' := on_event p dl e v in
  grows (out v) (out v') ∧ (cancelled v = true → cancelled v' = true) ∧
  (cancelled v' = false → recorded p dl (out v') e).
Proof.
  destruct e as [chain sha size content|chain reason|chain m]; simpl.
  - destruct (run_detectors _ _) as [ok v'] eqn:Hr. apply run_detectors_spec in Hr as (Hg & Hc & Ha).
    simpl in Hg, Hc. destruct ok; simpl.
    + split_and!; [|by rewrite Hc|by intros; apply Ha]. destruct Hg. by split.
    + split_and!; [|done|done]. destruct Hg. by split.
  - split_and!; [auto with warden|done|]. intros _. apply elem_of_app. right. by left.
  - split_and!; [auto with warden|done|]. intros _. apply elem_of_app. right. by left.
Qed.

Lemma reach_recorded p dl v es v' :
  Archive.reach tick_env (on_event p dl) v es v' →
  grows (out v) (out v') ∧ (cancelled v = true → cancelled v' = true) ∧
  (cancelled v' = false → Forall (recorded p dl (out v')) es).
Proof.
  induction 1 as [v|v es w H (Hg & Hc & Ha)|v es w e H (Hg & Hc & Ha)].
  - split_and!; [done|done|constructor].
  - destruct (tick_env_out w) as [-> ->]. done.
  - pose proof (on_event_spec p dl e w) as (Hg' & Hc' & Ha'). split_and!; [by etrans|by auto|].
    intros Hno. apply Forall_app. split; [|constructor; [by apply Ha'|constructor]].
    assert (cancelled w = false) as Hw.
    { destruct (cancelled w); [|done]. specialize (Hc' eq_refl). congruence. }
    eapply Forall_impl; [by apply Ha|]. intros e'. by apply recorded_grows.
Qed.

(** The issue that says why the rest of an archive was not inspected. *)
Definition cut_short (p : path) (r : FileResult) : Prop :=
  archive_issue p Report.ArchiveError "the archive parser panicked; remaining members were not inspected" ∈ r_issues r ∨
  archive_issue p Report.Timeout
    (fmt "archive expansion stopped at the {} ms per-file limit; remaining members were not inspected"
       [show_N (file_timeout_ms (limits config))]) ∈ r_issues r.

(** A member of an archive, with its data where it can be read whole: the
    result holds what an event of it asks for, or says that a limit of the
    archive was reached. *)
Definition member_accounted (p : path) (dl : Z) (r : FileResult) (m : list ObservedPath) (w : option bytes) : Prop :=
  (∃ e, Archive.tells (archives (limits config)) m w e ∧ recorded p dl r e) ∨
  ∃ c, (Report.ArchiveLimitReached, some_chain c) ∈ r_skips r.

Lemma covered_accounted p dl r es m w :
  Forall (recorded p dl r) es →
  (∃ e, e ∈ es ∧ Archive.tells (archives (limits config)) m w e) ∨ Archive.limited es →
  member_accounted p dl r m w.
Proof.
  intros Hr [(e & He & Ht)|[c Hc]]; rewrite Forall_forall in Hr.
  - left. exists e. auto.
  - right. exists c. exact (Hr _ Hc).
Qed.

Lemma expand_archive_spec p data dl v v' :
  max_total_bytes (archives (limits config)) ≤ u64_max →
  expand_archive p data dl v = (true, v') →
  grows (out v) (out v') ∧
  (cut_short p (out v') ∨
    ∀ m w, Archive.holds (archives (limits config)) (max_file_size (limits config)) data [] 1 m w →
      member_accounted p dl (out v') m w).
Proof.
  intros Hu. unfold expand_archive. set (a := archives (limits config)).
  set (v0 := mkEnv _ _ _ _).
  pose proof (Archive.expand_spec tick_env (on_event p dl) a (max_file_size (limits config)) dl (Archive.enough a)
    (Fsio.looks_like_zip data) data [] 1 (Archive.new a v0) (Archive.depth_ok_root a) Hu) as Hs.
  pose proof (Archive.expand_finishes tick_env (on_event p dl) a (max_file_size (limits config)) dl
    (Archive.enough a) data [] 1 (Fsio.looks_like_zip data) (Archive.new a v0)
    (Archive.enough_pos a) (Archive.enough_deep a)) as Hf.
  unfold Archive.expand_file, Archive.spec_at in *.
  destruct (Archive.expand _ _ _ _ _ _ _ _ _ _ _) as [u s|[] s|s|]; [..|done].
  - destruct Hs as (es & [Hr _ _ _] & Hcov). apply reach_recorded in Hr as (Hg & _ & Hrec).
    destruct (cancelled (Archive.vis s)) eqn:Hc; [done|]. intros [= <-]. split; [done|].
    right. intros m w Hm. apply (covered_accounted p dl _ es); [by apply Hrec|].
    by destruct (Hcov m w Hm) as [|[|]]; auto.
  - done.
  - destruct Hs as (es & [Hr _ _ _]). apply reach_recorded in Hr as (Hg & _ & _).
    simpl. destruct (cancelled (Archive.vis s)); [done|]. intros [= <-]. simpl.
    split; [etrans; [exact Hg|]; auto with warden|]. left. right.
    simpl. apply elem_of_app. right. by left.
  - destruct Hs as (es & [Hr _ _ _]). apply reach_recorded in Hr as (Hg & _ & _).
    simpl. destruct (cancelled (Archive.vis s)); [done|]. intros [= <-]. simpl.
    split; [etrans; [exact Hg|]; auto with warden|]. left. left.
    simpl. apply elem_of_app. right. by left.
Qed.

(** ** Whole files *)

Definition file_observation (p : path) (r : Fsio.ReadOutcome) (content : bytes) (deadline : Z) : Observation :=
  mkObs p (Fsio.hashed_sha256 (Fsio.hashed r)) (Fsio.hashed_metadata (Fsio.hashed r))
    (shown (if Fsio.has_content r then Some content else None)) deadline None.

(** What the result of a file says about the archive in its content. *)
Definition archive_accounted (p : path) (r : Fsio.ReadOutcome) (content : bytes) (deadline : Z)
    (res : FileResult) : Prop :=
  if Fsio.has_content r then
    Fsio.may_contain_zip content = true →
    cut_short p res ∨
    ∀ m w, Archive.holds (archives (limits config)) (max_file_size (limits config)) content [] 1 m w →
      member_accounted p deadline res m w
  else Fsio.zip_magic r = true → (Report.ArchiveTooLarge, None) ∈ r_skips res.

Lemma evaluate_spec p r content dl v m v' :
  max_total_bytes (archives (limits config)) ≤ u64_max →
  evaluate p r content dl v = (Some m, v') →
  ∃ res, m = Scanned p (Finding.size (Fsio.hashed_metadata (Fsio.hashed r))) res ∧
    (∀ d, d ∈ detectors → accounted (file_observation p r content dl) res d) ∧
    (enabled (archives (limits config)) = true → archive_accounted p r content dl res).
Proof.
  intros Hu. unfold evaluate. fold (file_observation p r content dl).
  destruct (run_detectors _ v) as [ok v1] eqn:Hr. apply run_detectors_spec in Hr as (Hg1 & _ & Ha).
  destruct ok; [|done]. simpl. specialize (Ha eq_refl).
  set (rest := if enabled _ then _ else _).
  assert (Hrest : ∀ v2, rest = (true, v2) → grows (out v1) (out v2) ∧
    (enabled (archives (limits config)) = true → archive_accounted p r content dl (out v2))).
  { unfold rest, archive_accounted. intros v2. destruct (enabled _); [|by intros [= <-]].
    destruct (Fsio.has_content r).
    - destruct (Fsio.may_contain_zip content); [|by intros [= <-]].
      intros (Hg & Hx)%expand_archive_spec; [|done]. split; [done|]. by intros _ _.
    - destruct (Fsio.zip_magic r); [|by intros [= <-]]. intros [= <-]. simpl.
      split; [auto with warden|]. intros _ _. apply elem_of_app. right. by left. }
  destruct rest as [[] v2]; [|done]. intros [= <- <-]. destruct (Hrest v2 eq_refl) as [Hg2 Harch].
  eexists. split; [done|]. split; [|done]. intros d Hd. eapply accounted_grows; [done|]. by apply Ha.
Qed.

(** A worker only gives a file up without a message when it saw the token
    cancelled. *)
Section Quiet.
Context (Htoken : ∀ c, (read_clock c).1.1 = false).
Context (Hu : max_total_bytes (archives (limits config)) ≤ u64_max).

Lemma tick_env_quiet v : (tick_env v).1.1 = false.
Proof. unfold tick_env. specialize (Htoken (clock v)). by destruct (read_clock (clock v)) as [[? ?] ?]. Qed.

Lemma run_from_quiet i ds o skipped v : is_Some (run_from i ds o skipped v).1.
Proof.
  revert i skipped v. induction ds as [|d ds IH]; intros i skipped v; simpl; [by eauto|].
  pose proof (tick_env_quiet v) as Ht. destruct (tick_env v) as [[stop now] v1]. simpl in Ht. rewrite Ht.
  destruct (_ <=? _)%Z; [by eauto|]. destruct (_ && _); apply IH.
Qed.

Lemma run_detectors_quiet o v : (run_detectors o v).1 = true.
Proof.
  unfold run_detectors. destruct (run_from_quiet 0 detectors o false v) as [b Hb].
  destruct (run_from _ _ _ _ _) as [r v1]. simpl in Hb. subst. by destruct b.
Qed.

Lemma on_event_quiet p dl e v : cancelled (on_event p dl e v) = cancelled v.
Proof.
  destruct e as [chain sha size content| |]; try done. simpl.
  pose proof (run_detectors_quiet (mkObs p sha (Finding.Build_FileMetadata size None None) (shown content) dl (Some chain))
    (set_out (add_member (out v)) v)) as Hq.
  destruct (run_detectors _ _) as [ok v'] eqn:Hr. simpl in Hq. subst ok.
  by apply run_detectors_spec in Hr as (_ & -> & _).
Qed.

Lemma expand_archive_quiet p data dl v : (expand_archive p data dl v).1 = true.
Proof.
  unfold expand_archive. set (a := archives (limits config)). set (v0 := mkEnv _ _ _ _).
  assert (Hc : ∀ es v', Archive.reach tick_env (on_event p dl) v0 es v' → cancelled v' = false).
  { intros es v' H. remember v0 as w eqn:Hw. assert (cancelled w = false) as H0 by by subst.
    clear Hw. induction H; [done|by destruct (tick_env_out w) as [_ ->]; auto|by rewrite on_event_quiet; auto]. }
  pose proof (Archive.expand_spec tick_env (on_event p dl) a (max_file_size (limits config)) dl (Archive.enough a)
    (Fsio.looks_like_zip data) data [] 1 (Archive.new a v0) (Archive.depth_ok_root a) Hu) as Hs.
  pose proof (Archive.expand_avoids tick_env (on_event p dl) a (max_file_size (limits config)) dl true
    (λ _, tick_env_quiet) (Archive.enough a) data [] 1 (Fsio.looks_like_zip data) ltac:(done) (Archive.new a v0)) as Ha.
  unfold Archive.expand_file, Archive.spec_at in *.
  destruct (Archive.expand _ _ _ _ _ _ _ _ _ _ _) as [u s|[] s|s|]; try done; simpl;
    [destruct Hs as (es & [Hr _ _ _] & _)|destruct Hs as (es & [Hr _ _ _])..]; by rewrite (Hc es).
Qed.

Lemma evaluate_quiet p r content dl v : is_Some (evaluate p r content dl v).1.
Proof.
  unfold evaluate. fold (file_observation p r content dl).
  pose proof (run_detectors_quiet (file_observation p r content dl) v) as Hq.
  destruct (run_detectors _ v) as [ok v1]. simpl in Hq. subst ok. simpl.
  assert (Hrest : ∀ x, x = (true, v1) ∨ (∃ y, x = (true, y)) ∨ (∃ bs, x = expand_archive p bs dl v1) →
    is_Some (let '(ok, v) := x in if negb ok then (None, v)
      else (Some (Scanned p (Finding.size (Fsio.hashed_metadata (Fsio.hashed r))) (out v)), v)).1).
  { intros x [->|[[y ->]|[bs ->]]]; [by eauto..|]. pose proof (expand_archive_quiet p bs dl v1) as He.
    destruct (expand_archive p bs dl v1) as [ok v2]. simpl in He. subst ok. by eauto. }
  apply Hrest. destruct (enabled _); [|by auto]. destruct (Fsio.has_content r).
  - destruct (Fsio.may_contain_zip content); [by eauto|by auto].
  - destruct (Fsio.zip_magic r); eauto.
Qed.

(** A worker that never sees the token cancelled has an answer about the file. *)
Lemma process_file_quiet os ticks p base seen now v m seen' v' :
  Forall (λ t, Fsio.is_cancelled t = false) ticks →
  process_file os ticks p base seen now v = Some (m, seen', v') → is_Some m.
Proof.
  intros Ht. unfold process_file. set (o := read_options _ _ _).
  destruct (Fsio.read_file os p o ticks) as [[r s]|] eqn:Hr; [|done].
  destruct r as [[r content]|[reason| |n|e]].
  - pose proof (evaluate_quiet p r content (now + file_timeout (limits config)) (set_out empty_result v)) as He.
    destruct (evaluate _ _ _ _ _) as [m' v1]. by intros [= <- _ _].
  - intros [= <- _ _]. by eauto.
  - by apply Fsio.read_file_not_cancelled in Hr.
  - intros [= <- _ _]. by eauto.
  - intros [= <- _ _]. by eauto.
Qed.
End Quiet.

Lemma process_file_scanned os ticks p base seen now v p' n res seen' v' :
  max_total_bytes (archives (limits config)) ≤ u64_max →
  process_file os ticks p base seen now v = Some (Some (Scanned p' n res), seen', v') →
  let dl := (now + file_timeout (limits config))%Z in
  p' = p ∧ ∃ r content,
    Fsio.read_file os p (read_options base seen dl) ticks = Some (Ok (r, content), seen') ∧
    n = Finding.size (Fsio.hashed_metadata (Fsio.hashed r)) ∧
    (∀ d, d ∈ detectors → accounted (file_observation p r content dl) res d) ∧
    (enabled (archives (limits config)) = true → archive_accounted p r content dl res).
Proof.
  intros Hu. unfold process_file. set (o := read_options _ _ _).
  destruct (Fsio.read_file os p o ticks) as [[r s]|] eqn:Hr; [|done].
  destruct r as [[r content]|[reason| |k|e]]; [|done..].
  destruct (evaluate _ _ _ _ _) as [m' v1] eqn:He. intros [= -> <- <-].
  apply evaluate_spec in He as (res' & [= -> -> ->] & Ha & Harch); [|done]. split; [done|]. by exists r, content.
Qed.

End Worker.

End Scanner.

(** ** Properties *)
Module ScannerProps.
Import Config Scanner.

Section Props.
Context `{ZL : Zip, SH : Sha256, ST : StdText, OK : OtherKinds}.
Context {W C : Type} (read_clock : C → (bool * Z) * C).
Context (config : ScanConfig) (detectors : list (Detector W)).

End Props.

(** ** Instances *)

#[local] Existing Instances ArchiveProps.toy_zip Toy.sha toy_text.
Definition no_kinds : OtherKinds := λ _, KOther.
#[local] Existing Instance no_kinds.

(** A detector that reports a failure, and one that panics. *)
Definition failing : Detector unit :=
  mkDetector "failing" None true tt (λ _ o, (DetectorError "no rules", tt)).
Definition panicking : Detector unit := mkDetector "panicking" None false tt (λ _ o, (Panicking, tt)).
Definition still (_ : unit) : (bool * Z) * unit := ((false, 0%Z), tt).
Definition sample_config : ScanConfig := Config.new ["/srv"%string] None.
Definition sample_kernel (c : Fsio.OpenCall) : result IoError Fsio.Handle :=
  match c with
  | Fsio.Openat2 "/srv/a.zip" _ _ =>
      Ok (Fsio.mkHandle (Ok (FsioProps.regular 5)) (ArchiveProps.zip_id 1))
  | _ => Err (Os 2)
  end.
Definition sample_ticks : list Fsio.tick := repeat (Fsio.mkTick false 0 (Fsio.Gives 10)) 2.
Definition sample_env : env (W := unit) (C := unit) := mkEnv tt (λ _, tt) empty_result false.
#[local] Abbreviation sample_run :=
  (process_file still sample_config [failing; panicking] sample_kernel sample_ticks "/srv/a.zip" None None 0 sample_env).
Definition sample_result : FileResult :=
  Eval vm_compute in match sample_run with Some (Some (Scanned _ _ r), _, _) => r | _ => empty_result end.
Definition sample_clock : unit :=
  Eval vm_compute in match sample_run with Some (_, _, v) => clock v | _ => tt end.


End ScannerProps.
