(* ===== verification/Signatures.v ===== *)
(** * Exact-hash signatures

    engine/src/signatures.rs: the database of SHA-256 signatures, its
    validation and index, and the detector of the scanner that uses it. The
    JSON codec is a parameter; the identifiers of findings and the clock are
    streams a worker draws from. *)

From S2P Require Import Prelude Utf8 Paths Core External Remediation Trust Fsio Archive Scanner.

Module Signatures.

Definition FORMAT_ID : string := "abyssal-warden.hash-signatures".
Definition FORMAT_VERSION : N := 1.
Definition MAX_DATABASE_BYTES : N := 256 * 1024 * 1024.
Definition MAX_SIGNATURES : N := 2000000.
Definition MAX_ID_LEN : N := 128.
Definition MAX_NAME_LEN : N := 256.
Definition MAX_VERSION_LEN : N := 64.
Definition MAX_TEXT_LEN : N := 4096.
Definition DETECTOR_ID : string := "hash-signatures".

Inductive SignatureDbError :=
  | Io (p : path) (source : IoError)
  | TooLarge (limit : N)
  | JsonError (e : string)
  | WrongFormat (found : string)
  | UnsupportedVersion (found : N)
  | TooManySignatures
  | InvalidField (location field reason : string)
  | DuplicateId (id : string)
  | DuplicateHash (sha256 : Sha256Digest) (first second : string).

Definition error_text `{StdText} (e : SignatureDbError) : string :=
  match e with
  | Io p source => fmt "cannot read signature database {path}: {source}" [display p; io_text source]
  | TooLarge limit => fmt "signature database is larger than the {limit}-byte limit" [show_N limit]
  | JsonError e => fmt "signature database is not valid JSON for format version {FORMAT_VERSION}: {0}"
                     [show_N FORMAT_VERSION; e]
  | WrongFormat found => fmt "not an Abyssal Warden hash signature database (format {found:?})" [debug_str found]
  | UnsupportedVersion found =>
      fmt "unsupported signature database format version {found} (supported: {FORMAT_VERSION})"
        [show_N found; show_N FORMAT_VERSION]
  | TooManySignatures => fmt "signature database has more than {MAX_SIGNATURES} signatures" [show_N MAX_SIGNATURES]
  | InvalidField location field reason => fmt "{location}: field `{field}` {reason}" [location; field; reason]
  | DuplicateId i => fmt "duplicate signature id {0:?}" [debug_str i]
  | DuplicateHash d first second =>
      fmt "signatures {first:?} and {second:?} have the same sha256 {sha256}"
        [debug_str first; debug_str second; Digest.to_hex d]
  end.

Record DatabaseMeta := mkMeta {
  meta_name : string; meta_version : string; meta_description : option string; meta_license : option string }.

Record HashSignature := mkSignature {
  id : string; name : string; sha256 : Sha256Digest; category : Finding.ThreatCategory;
  severity : Finding.Severity; rule_version : N; description : option string; remediation : option string }.

Record Header := mkHeader { format : string; format_version : N }.
Record RawDatabase := mkRaw { raw_header : Header; raw_database : DatabaseMeta; raw_signatures : list HashSignature }.

(** The index keeps positions in the list of signatures. *)
Record HashSignatureDatabase := mkDatabase {
  meta : DatabaseMeta; signatures : list HashSignature; by_hash : gmap Sha256Digest nat }.

(** ** Checks of fields *)

Definition invalid (location field reason : string) : SignatureDbError := InvalidField location field reason.

Definition id_byte (b : N) : bool :=
  is_ascii_alphanumeric b || (b =? 46) || (b =? 95) || (b =? 45) || (b =? 58).

Definition check_id (location i : string) : result SignatureDbError unit :=
  if (len i =? 0) || (MAX_ID_LEN <? len i) then Err (invalid location "id" "must be 1 to 128 characters")
  else reject_if (negb (forallb id_byte (as_bytes i)))
         (invalid location "id" "may contain only ASCII letters, digits, '.', '_', '-' and ':'").

Definition is_blank (s : string) : bool := bool_decide (trim (chars s) = []).

Definition check_text (location field value : string) (max_len : N) (allow_newlines required : bool)
    : result SignatureDbError unit :=
  _ ← reject_if (required && is_blank value) (invalid location field "must not be empty");
  _ ← reject_if (max_len <? len value) (invalid location field (fmt "must be at most {max_len} bytes" [show_N max_len]));
  reject_if (Text.has_unsafe_chars value allow_newlines)
    (invalid location field "contains control or bidirectional formatting characters").

(** [if let Some(v) = value { check_text(...)? }] *)
Definition check_optional (location field : string) (value : option string) (max_len : N)
    (allow_newlines required : bool) : result SignatureDbError unit :=
  match value with Some v => check_text location field v max_len allow_newlines required | None => Ok tt end.

Definition truncate (s : string) (max_chars : nat) : string := of_chars (take max_chars (chars s)).

(** ** Validation *)

Definition check_meta (m : DatabaseMeta) : result SignatureDbError unit :=
  let db := "database"%string in
  _ ← check_text db "name" (meta_name m) MAX_NAME_LEN false true;
  _ ← check_text db "version" (meta_version m) MAX_VERSION_LEN false true;
  _ ← check_optional db "description" (meta_description m) MAX_TEXT_LEN true false;
  check_optional db "license" (meta_license m) MAX_NAME_LEN false true.

Definition location (i : nat) : string := fmt "signatures[{i}]" [show_N (N.of_nat i)].

(** The checks of one signature that look at no other. *)
Definition check_fields (i : nat) (s : HashSignature) : result SignatureDbError unit :=
  let loc := location i in
  _ ← check_id loc (id s);
  _ ← check_text loc "name" (name s) MAX_NAME_LEN false true;
  _ ← check_optional loc "description" (description s) MAX_TEXT_LEN true false;
  _ ← check_optional loc "remediation" (remediation s) MAX_TEXT_LEN true false;
  reject_if (rule_version s =? 0) (invalid loc "rule_version" "must be at least 1").

(** The loop of [validate] from position [i]; [all] is the whole vector, which
    the duplicate check indexes. *)
Fixpoint check_from (all : list HashSignature) (i : nat) (l : list HashSignature) (ids : gset string)
    (index : gmap Sha256Digest nat) : result SignatureDbError (gmap Sha256Digest nat) :=
  match l with
  | [] => Ok index
  | s :: l =>
      _ ← check_fields i s;
      if bool_decide (id s ∈ ids) then Err (DuplicateId (id s))
      else
        match index !! sha256 s with
        | Some prev => Err (DuplicateHash (sha256 s) (default "" (id <$> all !! prev)) (id s))
        | None => check_from all (S i) l ({[id s]} ∪ ids) (<[sha256 s := i]> index)
        end
  end.

Definition validate (m : DatabaseMeta) (sigs : list HashSignature) : result SignatureDbError HashSignatureDatabase :=
  _ ← reject_if (MAX_SIGNATURES <? vlen sigs) TooManySignatures;
  _ ← check_meta m;
  index ← check_from sigs 0 sigs ∅ ∅;
  Ok (mkDatabase m sigs index).

Section Reading.
Context `{JH : Json Header, JR : Json RawDatabase}.

Definition db_from_slice (data : bytes) : result SignatureDbError HashSignatureDatabase :=
  _ ← reject_if (MAX_DATABASE_BYTES <? vlen data) (TooLarge MAX_DATABASE_BYTES);
  h ← map_err JsonError (from_slice (A := Header) data);
  _ ← reject_if (negb (bool_decide (format h = FORMAT_ID))) (WrongFormat (truncate (format h) 64));
  _ ← reject_if (negb (format_version h =? FORMAT_VERSION)) (UnsupportedVersion (format_version h));
  raw ← map_err JsonError (from_slice (A := RawDatabase) data);
  validate (raw_database raw) (raw_signatures raw).

(** A file opened: the length its metadata gives, and what reading yields. *)
Definition from_path (p : path) (opened : result IoError (result IoError N * source))
    : result SignatureDbError HashSignatureDatabase :=
  '(stat, src) ← map_err (Io p) opened;
  n ← map_err (Io p) stat;
  _ ← reject_if (MAX_DATABASE_BYTES <? n) (TooLarge MAX_DATABASE_BYTES);
  data ← match failure src with
         | Some e => Err (Io p e)
         | None => Ok (takeN (MAX_DATABASE_BYTES + 1) (octets src))
         end;
  db_from_slice data.
End Reading.

Definition db_len (db : HashSignatureDatabase) : N := vlen (signatures db).

(** [lookup]; the outer [None] is the panic of an index out of range. *)
Definition lookup (db : HashSignatureDatabase) (d : Sha256Digest) : option (option HashSignature) :=
  match by_hash db !! d with
  | None => Some None
  | Some i => s ← signatures db !! i; Some (Some s)
  end.

(** ** The detector *)
Section Detecting.
Context (engine_version : string).

Record HashSignatureDetector := mkDetector { db : HashSignatureDatabase; signer : option string }.

Definition new (b : HashSignatureDatabase) : HashSignatureDetector := mkDetector b None.

Definition verified_by (b : HashSignatureDatabase) (signers : list KeyId) : HashSignatureDetector :=
  let label := KeyId.to_string <$> signers in
  mkDetector b (match label with [] => None | _ => Some (String.concat "," label) end).

Definition verified (b : HashSignatureDatabase) (k : KeyId) : HashSignatureDetector := verified_by b [k].

Definition recommended (c : Finding.ThreatCategory) : Finding.RecommendedAction :=
  match c with
  | Finding.Malware => Finding.Quarantine
  | Finding.TestIndicator => Finding.NoAction
  | _ => Finding.Review
  end.

Definition finding_of (m : DatabaseMeta) (s : HashSignature) (o : Scanner.Observation) (fid : string) (now : Z)
    : Finding :=
  Finding.mk fid Finding.KnownIndicator (name s) (severity s) Finding.Confirmed (category s) (Scanner.target o)
    (Finding.Build_DetectionSource DETECTOR_ID engine_version (Some (id s)) (Some (rule_version s))
       (Some (meta_name m)) (Some (meta_version m)))
    [Finding.Build_Evidence Finding.ExactSha256Match
       (fmt "SHA-256 {} equals signature {} (rule version {})"
          [Digest.to_hex (Scanner.obs_sha256 o); id s; show_N (rule_version s)])]
    ("The file is byte-for-byte identical to the indicator recorded as signature "
     +:+ id s +:+ " in database " +:+ String (ascii_of_N 34) (meta_name m) +:+ String (ascii_of_N 34) " version "
     +:+ meta_version m +:+ ". The label " +:+ String (ascii_of_N 34) (name s) +:+ String (ascii_of_N 34)
       " is only as accurate as that database entry.")%string
    (recommended (category s)) (remediation s) Finding.NotAttempted None now.

(** [inspect_file], with the identifier and the time it draws. *)
Definition inspect_file (det : HashSignatureDetector) (fid : string) (now : Z) (o : Scanner.Observation)
    : Scanner.inspection :=
  match lookup (db det) (Scanner.obs_sha256 o) with
  | None => Scanner.Panicking
  | Some None => Scanner.Found []
  | Some (Some s) => Scanner.Found [finding_of (meta (db det)) s o fid now]
  end.

(** As a detector of the scanner: a worker counts its inspections, which index
    the streams of identifiers and times. *)
Definition hash_detector (fresh : nat → string) (clock : nat → Z) (det : HashSignatureDetector)
    : Scanner.Detector nat :=
  Scanner.mkDetector DETECTOR_ID (Some (meta_name (meta (db det)), signer det)) false 0%nat
    (λ n o, (inspect_file det (fresh n) (clock n) o, S n)).
End Detecting.

(** ** What a valid database is *)

Record text_ok (max_len : N) (allow_newlines required : bool) (s : string) : Prop := {
  to_length : len s ≤ max_len;
  to_safe : Text.has_unsafe_chars s allow_newlines = false;
  to_present : required = true → is_blank s = false }.

Definition optional_ok (max_len : N) (allow_newlines required : bool) (o : option string) : Prop :=
  from_option (text_ok max_len allow_newlines required) True o.

Record valid_meta (m : DatabaseMeta) : Prop := {
  vm_name : text_ok MAX_NAME_LEN false true (meta_name m);
  vm_version : text_ok MAX_VERSION_LEN false true (meta_version m);
  vm_description : optional_ok MAX_TEXT_LEN true false (meta_description m);
  vm_license : optional_ok MAX_NAME_LEN false true (meta_license m) }.

Record valid_signature (s : HashSignature) : Prop := {
  vs_id_length : 0 < len (id s) ≤ MAX_ID_LEN;
  vs_id : Forall (λ b, id_byte b = true) (as_bytes (id s));
  vs_name : text_ok MAX_NAME_LEN false true (name s);
  vs_description : optional_ok MAX_TEXT_LEN true false (description s);
  vs_remediation : optional_ok MAX_TEXT_LEN true false (remediation s);
  vs_rule_version : rule_version s ≠ 0 }.

Record valid_database (m : DatabaseMeta) (l : list HashSignature) : Prop := {
  vd_count : vlen l ≤ MAX_SIGNATURES;
  vd_meta : valid_meta m;
  vd_signatures : Forall valid_signature l;
  vd_ids : NoDup (id <$> l);
  vd_hashes : NoDup (sha256 <$> l) }.

Lemma check_text_Ok loc f v max nl req u : check_text loc f v max nl req = Ok u ↔ text_ok max nl req v.
Proof.
  unfold check_text. destruct u. split.
  - intros H. inv_result. rewrite andb_false_iff in *. split; [lia|done|].
    intros ->. destruct (is_blank v); naive_solver.
  - intros [Hl Hs Hp]. rewrite reject_pass by (destruct req, (is_blank v); naive_solver).
    rewrite reject_pass by (by apply N.ltb_ge). by apply reject_if_Ok.
Qed.

Lemma check_optional_Ok loc f v max nl req u : check_optional loc f v max nl req = Ok u ↔ optional_ok max nl req v.
Proof. destruct v as [v|], u; simpl; [apply check_text_Ok|done]. Qed.

Lemma check_id_Ok loc i u :
  check_id loc i = Ok u ↔ 0 < len i ≤ MAX_ID_LEN ∧ Forall (λ b, id_byte b = true) (as_bytes i).
Proof.
  unfold check_id. destruct u, (N.eqb_spec (len i) 0), (N.ltb_spec MAX_ID_LEN (len i)); simpl;
    [split; [done|lia]..|]. rewrite reject_if_Ok, negb_false_iff, forallb_true. naive_solver lia.
Qed.

(** A sequence of checks passes when each of them does. *)
Ltac checks_pass :=
  match goal with
  | |- (_ ≫= _) = Ok _ =>
      apply result_bind_Ok; exists tt; split;
      [first [by apply check_id_Ok|by apply check_text_Ok|by apply check_optional_Ok]|]; checks_pass
  | |- _ => first [by apply check_optional_Ok|by apply reject_if_Ok, N.eqb_neq]
  end.

Lemma check_meta_Ok m u : check_meta m = Ok u ↔ valid_meta m.
Proof.
  unfold check_meta. destruct u. split; [|intros []; checks_pass]. intros H.
  apply result_bind_Ok in H as ([] & H1%check_text_Ok & H).
  apply result_bind_Ok in H as ([] & H2%check_text_Ok & H).
  apply result_bind_Ok in H as ([] & H3%check_optional_Ok & Hz%check_optional_Ok). by constructor.
Qed.

Lemma check_fields_Ok i s u : check_fields i s = Ok u ↔ valid_signature s.
Proof.
  unfold check_fields. destruct u. split; [|intros []; checks_pass]. intros H.
  apply result_bind_Ok in H as ([] & [Hi1 Hi2]%check_id_Ok & H).
  apply result_bind_Ok in H as ([] & H4%check_text_Ok & H).
  apply result_bind_Ok in H as ([] & H5%check_optional_Ok & H).
  apply result_bind_Ok in H as ([] & H6%check_optional_Ok & Hz%reject_if_Ok%N.eqb_neq). by constructor.
Qed.

(** ** The loop and the index *)

Fixpoint index_from (i : nat) (l : list HashSignature) (index : gmap Sha256Digest nat) : gmap Sha256Digest nat :=
  match l with [] => index | s :: l => index_from (S i) l (<[sha256 s := i]> index) end.

Lemma check_from_Ok all i l ids index idx :
  check_from all i l ids index = Ok idx ↔
  Forall valid_signature l ∧ (NoDup (id <$> l) ∧ ∀ s, s ∈ l → id s ∉ ids) ∧
  (NoDup (sha256 <$> l) ∧ ∀ s, s ∈ l → index !! sha256 s = None) ∧ idx = index_from i l index.
Proof.
  revert i ids index. induction l as [|s l IH]; intros i ids index; cbn [check_from index_from].
  { split; [intros [= <-]|by intros (_ & _ & _ & ->)]. split_and!; try constructor; set_solver. }
  rewrite result_then_Ok, check_fields_Ok. csimpl.
  rewrite Forall_cons, !NoDup_cons, !list_elem_of_fmap. setoid_rewrite elem_of_cons.
  case_bool_decide as Hid; [naive_solver|]. destruct (index !! sha256 s) as [p|] eqn:Hp; [naive_solver|].
  rewrite IH. setoid_rewrite not_elem_of_union. setoid_rewrite not_elem_of_singleton.
  setoid_rewrite lookup_insert_None. split.
  - intros (Hv & Hl & (Hn & Hids) & (Hh & Hix) & ->). split_and!; try done.
    + intros (y & Heq & Hy). by destruct (Hids y Hy).
    + intros x [->|Hx]; [done|]. by apply Hids.
    + intros (y & Heq & Hy). by destruct (Hix y Hy).
    + intros x [->|Hx]; [done|]. by apply Hix.
  - intros ([Hv Hl] & ((Hni & Hn) & Hids) & ((Hnh & Hh) & Hix) & ->). split_and!; try done.
    + intros x Hx. split; [|by apply Hids; right]. intros Heq. apply Hni. by exists x.
    + intros x Hx. split; [by apply Hix; right|]. intros Heq. apply Hnh. by exists x.
Qed.

Lemma index_from_lookup i l index d :
  NoDup (sha256 <$> l) →
  index_from i l index !! d =
    match list_find (λ s, sha256 s = d) l with Some (k, _) => Some (i + k)%nat | None => index !! d end.
Proof.
  revert i index. induction l as [|s l IH]; intros i index; csimpl; [done|].
  rewrite NoDup_cons. intros [Hni Hn]. rewrite IH by done. destruct (decide (sha256 s = d)) as [<-|Hne].
  - rewrite (proj2 (list_find_None _ _)).
    + by rewrite lookup_insert_eq, Nat.add_0_r.
    + apply Forall_forall. intros x Hx Heq. apply Hni, list_elem_of_fmap. by exists x.
  - rewrite lookup_insert_ne by done. destruct (list_find _ l) as [[k x]|]; simpl; [f_equal; lia|done].
Qed.

Lemma database_validate_Ok m l b :
  validate m l = Ok b ↔ valid_database m l ∧ b = mkDatabase m l (index_from 0 l ∅).
Proof.
  unfold validate. split.
  - intros H. apply result_bind_Ok in H as ([] & Hn%reject_if_Ok & H).
    apply result_bind_Ok in H as ([] & Hm%check_meta_Ok & H).
    apply result_bind_Ok in H as (idx & (Hv & [Hi _] & [Hh _] & ->)%check_from_Ok & [= <-]).
    split; [|done]. apply N.ltb_ge in Hn. by constructor.
  - intros [[Hn Hm Hv Hi Hh] ->]. rewrite reject_pass by (by apply N.ltb_ge).
    rewrite (proj2 (check_meta_Ok m tt) Hm). simpl.
    rewrite (proj2 (check_from_Ok l 0 l ∅ ∅ (index_from 0 l ∅))); [done|].
    by split_and!.
Qed.

Lemma lookup_valid m l d :
  NoDup (sha256 <$> l) →
  lookup (mkDatabase m l (index_from 0 l ∅)) d = Some (snd <$> list_find (λ s, sha256 s = d) l).
Proof.
  intros Hn. unfold lookup. simpl. rewrite index_from_lookup by done.
  destruct (list_find _ l) as [[k s]|] eqn:Hf; simpl; [|by rewrite lookup_empty].
  apply list_find_Some in Hf as (-> & _). done.
Qed.
End Signatures.

(** ** Properties *)
Module SignatureProps.
Import Signatures.

(** What a rejected database did wrong, for each error of [validate]: the
    signature an error names is the first that breaks a rule. *)
Definition explains (m : DatabaseMeta) (l : list HashSignature) (e : SignatureDbError) : Prop :=
  match e with
  | TooManySignatures => MAX_SIGNATURES < vlen l
  | InvalidField loc _ _ =>
      (loc = "database"%string ∧ ¬ valid_meta m) ∨
      ∃ i s, l !! i = Some s ∧ loc = location i ∧ ¬ valid_signature s ∧ Forall valid_signature (take i l)
  | DuplicateId x =>
      ∃ i j s t, (i < j)%nat ∧ l !! i = Some s ∧ l !! j = Some t ∧ id s = x ∧ id t = x ∧
        Forall valid_signature (take j l) ∧ NoDup (id <$> take j l)
  | DuplicateHash d a b =>
      ∃ i j s t, (i < j)%nat ∧ l !! i = Some s ∧ l !! j = Some t ∧ sha256 s = d ∧ sha256 t = d ∧
        id s = a ∧ id t = b ∧ Forall valid_signature (take j l) ∧ NoDup (sha256 <$> take j l)
  | _ => False
  end.

Lemma check_text_Err loc f v max nl req e :
  check_text loc f v max nl req = Err e → (∃ r, e = InvalidField loc f r) ∧ ¬ text_ok max nl req v.
Proof.
  intros H. split.
  - unfold check_text in H. apply result_bind_Err in H as [[_ <-]%reject_if_Err|(? & _ & H)]; [by eexists|].
    apply result_bind_Err in H as [[_ <-]%reject_if_Err|(? & _ & [_ <-]%reject_if_Err)]; by eexists.
  - intros Hok. apply (check_text_Ok loc f v max nl req tt) in Hok. congruence.
Qed.

Lemma check_optional_Err loc f v max nl req e :
  check_optional loc f v max nl req = Err e → (∃ r, e = InvalidField loc f r).
Proof. destruct v; simpl; [by intros [? _]%check_text_Err|done]. Qed.

Lemma check_meta_Err m e : check_meta m = Err e → (∃ f r, e = InvalidField "database" f r) ∧ ¬ valid_meta m.
Proof.
  intros H. split; [|intros Hv%(check_meta_Ok _ tt); congruence]. unfold check_meta in H.
  apply result_bind_Err in H as [[[r ->] _]%check_text_Err|(? & _ & H)]; [by do 2 eexists|].
  apply result_bind_Err in H as [[[r ->] _]%check_text_Err|(? & _ & H)]; [by do 2 eexists|].
  apply result_bind_Err in H as [[r ->]%check_optional_Err|(? & _ & [r ->]%check_optional_Err)]; by do 2 eexists.
Qed.

Lemma check_fields_Err i s e :
  check_fields i s = Err e → (∃ f r, e = InvalidField (location i) f r) ∧ ¬ valid_signature s.
Proof.
  intros H. split; [|intros Hv%(check_fields_Ok i _ tt); congruence]. unfold check_fields in H.
  apply result_bind_Err in H as [H|(? & _ & H)].
  { unfold check_id in H. case_match; [injection H as <-; by do 2 eexists|].
    apply reject_if_Err in H as [_ <-]. by do 2 eexists. }
  apply result_bind_Err in H as [[[r ->] _]%check_text_Err|(? & _ & H)]; [by do 2 eexists|].
  apply result_bind_Err in H as [[r ->]%check_optional_Err|(? & _ & H)]; [by do 2 eexists|].
  apply result_bind_Err in H as [[r ->]%check_optional_Err|(? & _ & [_ <-]%reject_if_Err)]; by do 2 eexists.
Qed.

(** The loop after [pre], where it has seen no fault. *)
Lemma check_from_Err m pre l ids e :
  Forall valid_signature pre → NoDup (id <$> pre) → NoDup (sha256 <$> pre) →
  (∀ x, x ∈ ids ↔ x ∈ id <$> pre) →
  check_from (pre ++ l) (length pre) l ids (index_from 0 pre ∅) = Err e → explains m (pre ++ l) e.
Proof.
  revert pre ids. induction l as [|s l IH]; intros pre ids Hv Hi Hh Hids; cbn [check_from]; [done|].
  assert (Hs : (pre ++ s :: l) !! length pre = Some s) by by apply list_lookup_middle.
  assert (Htake : take (length pre) (pre ++ s :: l) = pre) by by rewrite take_app_length.
  intros [H|([] & Hf%check_fields_Ok & H)]%result_bind_Err.
  { apply check_fields_Err in H as [(f & r & ->) Hn]. right. exists (length pre), s. by rewrite Htake. }
  case_bool_decide as Hin.
  { injection H as <-. apply Hids, list_elem_of_fmap in Hin as (t & Heq & Ht).
    apply list_elem_of_lookup in Ht as [i Ht]. exists i, (length pre), t, s. rewrite Htake.
    split_and!; try done; [by eapply lookup_lt_Some|by apply lookup_app_l_Some]. }
  rewrite (index_from_lookup 0 pre ∅) in H by done.
  destruct (list_find (λ x, sha256 x = sha256 s) pre) as [[k t]|] eqn:Hfind.
  - injection H as <-. apply list_find_Some in Hfind as (Ht & Heq & _). simpl.
    exists k, (length pre), t, s. rewrite Htake, (lookup_app_l_Some _ _ _ _ Ht).
    split_and!; try done. by eapply lookup_lt_Some.
  - rewrite lookup_empty in H. apply list_find_None in Hfind.
    assert (Hix : ∀ i ix, <[sha256 s := (i + length pre)%nat]> (index_from i pre ix) = index_from i (pre ++ [s]) ix).
    { clear. intros i ix. revert i ix. induction pre as [|p pre IH]; intros i ix; simpl; [by rewrite Nat.add_0_r|].
      by rewrite <-IH, Nat.add_succ_comm. }
    rewrite (Hix 0%nat ∅), cons_middle, app_assoc in H. rewrite cons_middle, app_assoc.
    eapply (IH (pre ++ [s])); [..|by rewrite length_app, Nat.add_1_r].
    + by apply Forall_app; split; [|constructor].
    + rewrite fmap_app. apply NoDup_app. split_and!; [done| |apply NoDup_singleton].
      intros x Hx ->%list_elem_of_singleton. by apply Hin, Hids.
    + rewrite fmap_app. apply NoDup_app. split_and!; [done| |apply NoDup_singleton].
      intros x (y & -> & Hy)%list_elem_of_fmap Hx%list_elem_of_singleton.
      rewrite Forall_forall in Hfind. by apply (Hfind y).
    + intros x. rewrite fmap_app, elem_of_app, elem_of_union, Hids. set_solver.
Qed.

Lemma list_find_find d l : snd <$> list_find (λ s, sha256 s = d) l = List.find (λ s, bool_decide (sha256 s = d)) l.
Proof.
  induction l as [|s l IH]; simpl; [done|]. rewrite <-IH. destruct (decide (sha256 s = d)) as [He|He].
  - by rewrite bool_decide_eq_true_2.
  - rewrite bool_decide_eq_false_2 by done. by destruct (list_find _ l) as [[k x]|].
Qed.

Lemma find_unique l s :
  NoDup (sha256 <$> l) → s ∈ l → List.find (λ x, bool_decide (sha256 x = sha256 s)) l = Some s.
Proof.
  induction l as [|x l IH]; csimpl; [by intros _ ?%elem_of_nil|].
  intros [Hni Hn]%NoDup_cons [->|Hs]%elem_of_cons; [by rewrite bool_decide_eq_true_2|].
  rewrite bool_decide_eq_false_2; [by apply IH|]. intros Heq. apply Hni. rewrite Heq. by apply list_elem_of_fmap_2.
Qed.

Section Props.
Context `{JH : Json Header, JR : Json RawDatabase, ST : StdText}.

(** A database is accepted exactly when it is within its limits, names
    this format and version, and every field and signature obeys the rules:
    bounded, visible text without control or bidirectional characters, ids of
    the allowed alphabet, versions from 1, and no two signatures with the same
    id or hash; what is accepted is what was read, with its index. *)
Theorem database_exact data b :
  db_from_slice data = Ok b ↔
  vlen data ≤ MAX_DATABASE_BYTES ∧
  ∃ h raw, from_slice data = Ok h ∧ format h = FORMAT_ID ∧ format_version h = FORMAT_VERSION ∧
    from_slice data = Ok raw ∧ valid_database (raw_database raw) (raw_signatures raw) ∧
    b = mkDatabase (raw_database raw) (raw_signatures raw) (index_from 0 (raw_signatures raw) ∅).
Proof.
  unfold db_from_slice. rewrite result_then_Ok, reject_if_Ok, N.ltb_ge, result_bind_Ok. split.
  - intros (Hn & h & Hh%map_err_Ok & H). split; [done|].
    apply result_then_Ok in H as [Hf%reject_if_Ok H]. apply result_then_Ok in H as [Hv%reject_if_Ok H].
    apply result_bind_Ok in H as (raw & Hr%map_err_Ok & [? ->]%database_validate_Ok). reflect_bools. by exists h, raw.
  - intros (Hn & h & raw & Hh & Hf & Hv & Hr & Hd & ->). split; [done|].
    exists h. rewrite map_err_Ok. split; [done|]. rewrite Hf, Hv, Hr. simpl. by apply database_validate_Ok.
Qed.

Lemma from_slice_valid data b :
  db_from_slice data = Ok b → ∃ m l, valid_database m l ∧ b = mkDatabase m l (index_from 0 l ∅).
Proof.
  unfold db_from_slice. intros H.
  apply result_then_Ok in H as [_ H]. apply result_bind_Ok in H as (h & _ & H).
  apply result_then_Ok in H as [_ H]. apply result_then_Ok in H as [_ H].
  apply result_bind_Ok in H as (raw & _ & H%database_validate_Ok). eauto.
Qed.

(** C32: the index of a database is equivalent to searching its signatures: for
    every digest, whether listed or not, [lookup] does not panic and gives the
    signature a linear search finds, which is the only one with that digest. *)
Theorem index_equivalent data b d (Hb : db_from_slice data = Ok b) :
  lookup b d = Some (List.find (λ s, bool_decide (sha256 s = d)) (signatures b)) ∧
  ∀ s, s ∈ signatures b → sha256 s = d → lookup b d = Some (Some s).
Proof.
  destruct (from_slice_valid _ _ Hb) as (m & l & [_ _ _ _ Hn] & ->). rewrite lookup_valid by done. simpl.
  rewrite list_find_find. split; [done|]. intros s Hs <-. by rewrite (find_unique _ _ Hn Hs).
Qed.

(** A database that is refused after it was read is refused for what it
    did wrong: the error names the first signature that breaks a rule (all
    before it are valid), and a repeated id or hash names two positions that
    have it. *)
Theorem rejected_database_explained m l e (Hv : validate m l = Err e) : explains m l e.
Proof.
  unfold validate in Hv. apply result_bind_Err in Hv as [[Hn%N.ltb_lt <-]%reject_if_Err|([] & _ & Hv)]; [done|].
  apply result_bind_Err in Hv as [[(f & r & ->) Hm]%check_meta_Err|([] & _ & Hv)]; [by left|].
  apply result_bind_Err in Hv as [Hv|(? & _ & ?)]; [|done].
  eapply (check_from_Err m [] l ∅); [constructor..| |exact Hv]. set_solver.
Qed.
End Props.

Section Scanning.
Context `{JH : Json Header, JR : Json RawDatabase, ST : StdText, ZL : Zip, SH : Sha256}.
Context `{OK : OtherKinds}.
Context {C : Type} (read_clock : C → (bool * Z) * C).
Context (config : Config.ScanConfig) (detectors : list (Scanner.Detector nat)).

(** C10: a listed file is found, and malware among them is quarantined. When a
    scan with the detector of a database reports a file as scanned and its
    hash is listed, the result has a confirmed finding that names the
    signature, or says that the time limit kept detectors from running; and
    when the signature is of the malware category and the file is outside the
    protected directories, the automatic policy quarantines exactly that path
    with that hash. *)
Theorem listed_file_reported version fresh clock data b sg os ticks p base seen now v p' n res seen' v' s r content
    (Hb : db_from_slice data = Ok b) (Hd : hash_detector version fresh clock (mkDetector b sg) ∈ detectors)
    (Hu : Config.max_total_bytes (Config.archives (Config.limits config)) ≤ u64_max)
    (Hp : Scanner.process_file read_clock config detectors os ticks p base seen now v =
          Some (Some (Scanner.Scanned p' n res), seen', v'))
    (Hr : Fsio.read_file os p
            (Scanner.read_options config detectors base seen (now + Config.file_timeout (Config.limits config))) ticks =
          Some (Ok (r, content), seen'))
    (Hs : s ∈ signatures b) (Hh : sha256 s = Fsio.hashed_sha256 (Fsio.hashed r)) :
  (∃ f, f ∈ Scanner.r_findings res ∧ Finding.confidence f = Finding.Confirmed ∧
     Finding.rule_id (Finding.source f) = Some (id s) ∧ Finding.category f = category s ∧
     (category s = Finding.Malware → Policy.is_protected_path p = false →
      Policy.auto_quarantine_target f = Ok (p, sha256 s))) ∨
  (∃ m o, Scanner.file_issue o Report.Timeout None m ∈ Scanner.r_issues res).
Proof.
  destruct (Scanner.process_file_scanned read_clock config detectors os ticks p base seen now v p' n res seen' v' Hu Hp)
    as (-> & r' & content' & Hr' & _ & Hacc & _).
  rewrite Hr in Hr'. injection Hr' as <- <-. specialize (Hacc _ Hd).
  destruct (from_slice_valid _ _ Hb) as (m & l & [_ _ _ _ Hn] & ->). simpl in Hs.
  destruct Hacc as [[w Hw]|[(Hc & _)|(ds & _ & Ht)]]; [|done|right; by do 2 eexists].
  left. simpl in Hw. unfold inspect_file in Hw. simpl in Hw.
  rewrite lookup_valid, list_find_find, <-Hh, (find_unique _ _ Hn Hs) in Hw by done. simpl in Hw.
  eexists. split; [by apply Hw; left|]. split_and!; [done..|]. intros Hm Hprot. apply Policy.auto_quarantine_spec.
  simpl. rewrite Hm. split_and!; [done..| |done]. unfold Scanner.target. simpl. rewrite Hh.
  do 2 eexists. split; [done|]. apply Policy.native_path_from_path_eq.
Qed.
End Scanning.

(** ** Instances *)

#[local] Existing Instances ArchiveProps.toy_zip Toy.sha toy_text.
#[local] Existing Instance ScannerProps.no_kinds.

Definition listed_digest : Sha256Digest := Eval vm_compute in Toy.digest (ArchiveProps.zip_id 1).
Definition eicar : HashSignature := mkSignature "AW-1" "Test.File"
  listed_digest Finding.Malware Finding.SHigh 1 None None.
Definition sample_meta : DatabaseMeta := mkMeta "test-db" "2026.09.24" None None.
Definition sample_raw : RawDatabase := mkRaw (mkHeader FORMAT_ID FORMAT_VERSION) sample_meta [eicar].
#[local] Instance header_json : Json Header := {| to_vec _ := Ok []; from_slice _ := Ok (raw_header sample_raw) |}.
#[local] Instance raw_json : Json RawDatabase := {| to_vec _ := Ok []; from_slice _ := Ok sample_raw |}.
Definition sample_db : HashSignatureDatabase :=
  Eval vm_compute in match db_from_slice [] with Ok b => b | Err _ => mkDatabase sample_meta [] ∅ end.

Lemma index_equivalent_witness :
  db_from_slice [] = Ok sample_db ∧ lookup sample_db (sha256 eicar) = Some (Some eicar).
Proof.
  assert (Hb : db_from_slice [] = Ok sample_db) by by vm_compute. split; [exact Hb|].
  apply (index_equivalent [] sample_db (sha256 eicar) Hb); [|done]. by left.
Defined.

(** The same hash under another id. *)
Definition again : HashSignature :=
  mkSignature "AW-2" "Other.Name" (sha256 eicar) Finding.Unknown Finding.SLow 1 None None.

Lemma rejected_database_explained_witness :
  validate sample_meta [eicar; again] = Err (DuplicateHash (sha256 eicar) "AW-1" "AW-2") ∧
  explains sample_meta [eicar; again] (DuplicateHash (sha256 eicar) "AW-1" "AW-2").
Proof.
  assert (Hv : validate sample_meta [eicar; again] = Err (DuplicateHash (sha256 eicar) "AW-1" "AW-2")) by by vm_compute.
  split; [exact Hv|]. exact (rejected_database_explained _ _ _ Hv).
Defined.

Definition toy_id (n : nat) : string := show_N (N.of_nat n).
Definition sample_detector : Scanner.Detector nat :=
  hash_detector "0.1.0" toy_id (λ _, 7%Z) (mkDetector sample_db None).
Definition sample_env : Scanner.env (W := nat) (C := unit) :=
  Scanner.mkEnv tt (λ _, 0%nat) Scanner.empty_result false.
#[local] Abbreviation sample_run :=
  (Scanner.process_file ScannerProps.still ScannerProps.sample_config [sample_detector] ScannerProps.sample_kernel
     ScannerProps.sample_ticks "/srv/a.zip" None None 0 sample_env).
#[local] Abbreviation sample_read :=
  (Fsio.read_file ScannerProps.sample_kernel "/srv/a.zip"
     (Scanner.read_options ScannerProps.sample_config [sample_detector] None None
        (0 + Config.file_timeout (Config.limits ScannerProps.sample_config))) ScannerProps.sample_ticks).

Lemma listed_file_reported_witness :
  ∃ res v' r content,
    sample_run = Some (Some (Scanner.Scanned "/srv/a.zip" 5 res), None, v') ∧ sample_read = Some (Ok (r, content), None) ∧
    ((∃ f, f ∈ Scanner.r_findings res ∧ Finding.confidence f = Finding.Confirmed ∧
       Finding.rule_id (Finding.source f) = Some "AW-1"%string ∧ Finding.category f = Finding.Malware ∧
       (Finding.Malware = Finding.Malware → Policy.is_protected_path "/srv/a.zip" = false →
        Policy.auto_quarantine_target f = Ok ("/srv/a.zip"%string, sha256 eicar))) ∨
     (∃ m o, Scanner.file_issue o Report.Timeout None m ∈ Scanner.r_issues res)).
Proof.
  assert (Hm : match sample_run with
               | Some (Some (Scanner.Scanned p n _), s, _) => p = "/srv/a.zip"%string ∧ n = 5 ∧ s = None
               | _ => False
               end) by (vm_compute; by split_and!).
  destruct sample_run as [[[m s] v']|] eqn:Hrun; [|destruct Hm].
  destruct m as [[|p n res| |]|]; [destruct Hm| |destruct Hm..]. destruct Hm as (-> & -> & ->).
  assert (Hm : match sample_read with
               | Some (Ok (r, _), s) => s = None ∧ sha256 eicar = Fsio.hashed_sha256 (Fsio.hashed r)
               | _ => False
               end) by (vm_compute; by split_and!).
  destruct sample_read as [[[[r content]|] s]|] eqn:Hread; [|destruct Hm..]. destruct Hm as (-> & Hh).
  exists res, v', r, content. split; [reflexivity|]. split; [reflexivity|].
  assert (Hb : db_from_slice [] = Ok sample_db) by (vm_compute; reflexivity).
  assert (Hd : hash_detector "0.1.0" toy_id (λ _, 7%Z) (mkDetector sample_db None) ∈ [sample_detector]) by (left).
  assert (Hu : Config.max_total_bytes (Config.archives (Config.limits ScannerProps.sample_config)) ≤ u64_max)
    by (vm_compute; discriminate).
  assert (Hs : eicar ∈ signatures sample_db) by (left).
  exact (listed_file_reported ScannerProps.still ScannerProps.sample_config [sample_detector] "0.1.0" toy_id
    (λ _, 7%Z) [] sample_db None ScannerProps.sample_kernel ScannerProps.sample_ticks "/srv/a.zip" None None 0
    sample_env "/srv/a.zip" 5 res None v' eicar r content Hb Hd Hu Hrun Hread Hs Hh).
Defined.
End SignatureProps.
