(* ===== verification/Heuristics.v ===== *)
(** * Heuristics: rules, names and scripts

    heuristics/src/rules.rs, patterns.rs, names.rs and script.rs: the catalogue
    of rules and the analyses that look at names and text. The regular
    expressions are those of the code; the regex crate is a parameter. *)

From S2P Require Import Prelude Utf8 Paths Core External AuditLog.

(** [s.rsplit_once(c)] for an ASCII [c], over octets. *)
Fixpoint rsplit_octet (c : N) (l : list N) : option (list N * list N) :=
  match l with
  | [] => None
  | x :: l =>
      match rsplit_octet c l with
      | Some (a, b) => Some (x :: a, b)
      | None => if x =? c then Some ([], l) else None
      end
  end.
Definition rsplit_once (c : N) (s : string) : option (string * string) :=
  '(a, b) ← rsplit_octet c (as_bytes s); Some (of_bytes a, of_bytes b).

(** [v.contains(&s)] and [s.contains(p)]. *)
Definition among (l : list string) (s : string) : bool := existsb (λ x, bool_decide (x = s)) l.
Definition contains (s p : string) : bool :=
  bool_decide (is_Some (Anchors.find_from (as_bytes p) (as_bytes s))).

(** [data.starts_with(p)] *)
Definition bytes_start_with (data : bytes) (p : string) : bool := Anchors.list_starts_with (as_bytes p) data.

Lemma among_spec l s : among l s = true ↔ s ∈ l.
Proof. unfold among. rewrite existsb_true. setoid_rewrite bool_decide_eq_true. naive_solver. Qed.

Lemma among_false l s : among l s = false ↔ s ∉ l.
Proof. rewrite <-among_spec. by destruct (among l s). Qed.

(** ** rules.rs *)
Module Rules.

Definition DETECTOR_ID : string := "heuristics".

Record Rule := mkRule {
  id : string; name : string; kind : Finding.FindingKind; severity : Finding.Severity;
  confidence : Finding.Confidence; explanation : string }.

(** [Rule::finding], with the identifier and the time it draws. *)
Definition finding (version : string) (r : Rule) (target : Finding.FindingTarget) (evidence : list string)
    (fid : string) (now : Z) : Finding :=
  Finding.mk fid (kind r) (name r) (severity r) (confidence r) Finding.Unknown target
    (Finding.Build_DetectionSource DETECTOR_ID version (Some (id r)) (Some 1) None None)
    (Finding.Build_Evidence Finding.HeuristicEvidence <$> evidence) (explanation r) Finding.Review None
    Finding.NotAttempted None now.

Definition DISGUISED_EXECUTABLE : Rule := mkRule "AW-HEU-001" "Executable disguised as a document or media file" Finding.Suspicious Finding.SHigh Finding.CMedium
  "The file is a program (its content is a PE, ELF or Mach-O executable) but its extension claims a document, image, archive or media type. Opening it may run it.".
Definition DOUBLE_EXTENSION : Rule := mkRule "AW-HEU-002" "Double extension hides an executable type" Finding.Suspicious Finding.SMedium Finding.CMedium
  "The name ends in a document-like extension followed by an executable one (for example invoice.pdf.exe), or pads the name with spaces before the real extension, a common way to make a program look like a document when extensions are hidden.".
Definition BIDI_NAME : Rule := mkRule "AW-HEU-003" "File name uses bidirectional control characters" Finding.Suspicious Finding.SHigh Finding.CMedium
  "The name contains Unicode bidirectional controls (such as RIGHT-TO-LEFT OVERRIDE) that make it display differently from what it is, e.g. showing 'exe.pdf' as 'fdp.exe'.".
Definition PE_RWX_SECTION : Rule := mkRule "AW-HEU-010" "Program section is both writable and executable" Finding.Heuristic Finding.SMedium Finding.CLow
  "A PE section is mapped writable and executable, which lets code modify itself. Normal compilers do not produce this; packers, protectors and shellcode loaders do.".
Definition PE_ENTRY_OUTSIDE_CODE : Rule := mkRule "AW-HEU-011" "Program starts outside its code" Finding.Heuristic Finding.SMedium Finding.CLow
  "The entry point is not inside an executable section. Packers and file infectors move the entry point; normal programs start in their code section.".
Definition PE_KNOWN_PACKER : Rule := mkRule "AW-HEU-012" "Program is packed with a known packer" Finding.Heuristic Finding.SLow Finding.CMedium
  "Section names show a known packer or protector (UPX, ASPack, MPRESS, Themida, VMProtect, ...). Packing hides the real code from inspection; legitimate software uses it too.".
Definition PE_HIGH_ENTROPY : Rule := mkRule "AW-HEU-013" "Program code looks compressed or encrypted" Finding.Heuristic Finding.SLow Finding.CLow
  "The executable sections have very high entropy and the program imports very few functions, typical of packed or encrypted code that unpacks itself at run time.".
Definition PE_INJECTION_IMPORTS : Rule := mkRule "AW-HEU-014" "Program imports process-injection functions" Finding.Heuristic Finding.SMedium Finding.CLow
  "The import table contains a complete set of functions used to write code into another process and run it (or to hollow a process). Debuggers and some security tools legitimately import these.".
Definition PE_EMBEDDED_EXECUTABLE : Rule := mkRule "AW-HEU-015" "Program carries another program after its end" Finding.Heuristic Finding.SMedium Finding.CLow
  "Data appended after the last section (outside any signature) contains a complete PE executable. Droppers carry their payload this way; some installers do too.".
Definition PE_MALFORMED : Rule := mkRule "AW-HEU-016" "Malformed program headers" Finding.Heuristic Finding.SLow Finding.CLow
  "The file has PE signatures but its headers cannot be parsed consistently. Malware sometimes corrupts headers to break analysis tools; truncated downloads look the same.".
Definition ELF_RWX_SEGMENT : Rule := mkRule "AW-HEU-020" "ELF segment is both writable and executable" Finding.Heuristic Finding.SMedium Finding.CLow
  "A loadable segment is writable and executable. Modern toolchains never produce this; packers, self-modifying code and hand-built payloads do.".
Definition ELF_EXEC_STACK : Rule := mkRule "AW-HEU-021" "ELF requests an executable stack" Finding.Heuristic Finding.SLow Finding.CLow
  "The program asks for an executable stack, which makes memory-corruption exploits easier and is used by some shellcode loaders. Old or hand-written assembly also does.".
Definition ELF_UPX : Rule := mkRule "AW-HEU-022" "ELF is packed with UPX" Finding.Heuristic Finding.SMedium Finding.CMedium
  "The file carries UPX packer markers. On Linux, UPX packing is rare for legitimate software and common for botnet and cryptominer binaries.".
Definition ELF_NO_SECTIONS : Rule := mkRule "AW-HEU-023" "ELF executable has no section headers" Finding.Heuristic Finding.SLow Finding.CLow
  "The program has no section headers at all, which breaks common analysis tools. Normal stripped binaries keep them; packers and hand-built payloads remove them.".
Definition ELF_UNSAFE_RPATH : Rule := mkRule "AW-HEU-024" "ELF loads libraries from an unsafe search path" Finding.Suspicious Finding.SMedium Finding.CMedium
  "The library search path (RPATH/RUNPATH) contains a temporary directory, the current directory or a relative path, so whoever controls that location controls the code the program loads.".
Definition ELF_ENTRY_OUTSIDE_CODE : Rule := mkRule "AW-HEU-025" "ELF starts outside its executable segments" Finding.Heuristic Finding.SMedium Finding.CLow
  "The entry point is not inside an executable segment.".
Definition ELF_ODD_INTERPRETER : Rule := mkRule "AW-HEU-026" "ELF uses an unusual program interpreter" Finding.Suspicious Finding.SMedium Finding.CMedium
  "The dynamic loader (PT_INTERP) is not a standard ld.so, or lives in a temporary directory. Whoever provides the interpreter runs code before the program itself.".
Definition SCRIPT_DOWNLOAD_EXEC : Rule := mkRule "AW-HEU-030" "Script downloads and runs code" Finding.Heuristic Finding.SMedium Finding.CLow
  "The script fetches content from the network and runs it (curl | sh, PowerShell download cradles, certutil, bitsadmin). Installers do this; so do droppers.".
Definition SCRIPT_REVERSE_SHELL : Rule := mkRule "AW-HEU-031" "Script opens a reverse shell" Finding.Suspicious Finding.SHigh Finding.CMedium
  "The script connects a shell to a network socket, giving a remote party control.".
Definition SCRIPT_ENCODED_EXEC : Rule := mkRule "AW-HEU-032" "Script decodes and runs a hidden payload" Finding.Suspicious Finding.SMedium Finding.CLow
  "The script decodes base64 (or similar) data and executes it, hiding what it runs.".
Definition SCRIPT_LOLBIN : Rule := mkRule "AW-HEU-033" "Script uses a system program to run remote or script code" Finding.Suspicious Finding.SMedium Finding.CLow
  "The script uses mshta, rundll32, regsvr32, wmic or wscript to fetch or run code.".
Definition SCRIPT_LOADER_INJECTION : Rule := mkRule "AW-HEU-034" "Script sets LD_PRELOAD or LD_AUDIT" Finding.Heuristic Finding.SLow Finding.CLow
  "The script injects a library into the programs it starts. Test harnesses and allocator wrappers do this legitimately.".
Definition SCRIPT_ENCODED_BLOB : Rule := mkRule "AW-HEU-035" "Shell or batch script embeds a large encoded blob" Finding.Heuristic Finding.SLow Finding.CLow
  "A shell, PowerShell, batch or VBScript file contains a long run of base64 text, often an embedded payload. Self-extracting installers do this too.".
Definition TEMP_EXECUTABLE : Rule := mkRule "AW-HEU-040" "Executable in a temporary or shared-memory directory" Finding.Heuristic Finding.SLow Finding.CLow
  "A program file sits in /tmp, /var/tmp, /dev/shm or a Windows temporary or public folder, where droppers stage payloads. Build and installer output also lands there.".
Definition MULTIPLE : Rule := mkRule "AW-HEU-099" "Several independent heuristics matched" Finding.Suspicious Finding.SMedium Finding.CMedium
  "Three or more unrelated heuristics matched this file. Each alone is weak evidence; together they make benign explanations less likely.".
End Rules.
Abbreviation Rule := Rules.Rule.

(** ** patterns.rs *)
Module Patterns.

Definition MAX_TEXT : N := 8192.

Inductive Pattern := DownloadExec | ReverseShell | EncodedExec | LoaderInjection | LolBin.
#[export] Instance Pattern_eq_dec : EqDecision Pattern.
Proof. solve_decision. Defined.

(** The regex crate: compiling (case-insensitive, with the size limit) and the
    octet range of the leftmost match. *)
Class RegexLib := {
  Regex : Type;
  compile : string → option Regex;
  find : Regex → string → option (N * N) }.

Definition PATTERNS : list (Pattern * string) :=
  [(DownloadExec, "\b(curl|wget|fetch)\b[^\n|]*\|\s*(sudo\s+)?(ba|z|da|k)?sh\b");
   (DownloadExec, "\b(curl|wget|fetch)\b[^\n|]*\|\s*(sudo\s+)?(python[0-9.]*|perl|ruby|php|node)\b");
   (DownloadExec, "\b(curl|wget)\b[^\n]*(&&|;)\s*chmod\s+[0-7+]*x");
   (ReverseShell, "/dev/(tcp|udp)/[^\s/]+/[0-9]+");
   (ReverseShell, "\b(nc|ncat|netcat)\b[^\n]*\s-[a-z]*[ec]\s");
   (ReverseShell, "\bsocat\b[^\n]*\bexec:");
   (ReverseShell, "\b(ba)?sh\s+-i\s*[0-9]?>&");
   (ReverseShell, "\bmkfifo\b[^\n]*\b(nc|ncat|netcat|telnet)\b");
   (ReverseShell, "\b(python[0-9.]*|perl|ruby|php)\b[^\n]{0,40}\s-[a-z]*[cer][a-z]*\b[^\n]{0,400}(socket|fsockopen)[^\n]{0,300}(subprocess|exec|pty|/bin/sh|popen)");
   (EncodedExec, "\bbase64\s+(-d|--decode|-D)\b[^\n]*\|\s*(sudo\s+)?((ba|z|da)?sh|python[0-9.]*|perl)\b");
   (EncodedExec, "\beval\b[^\n]*\b(base64|b64decode|xxd\s+-r)");
   (EncodedExec, "\bexec\s*\([^\n]*b64decode");
   (DownloadExec, "\b(iex|invoke-expression)\b[^\n]*\b(downloadstring|downloaddata|iwr|irm|invoke-webrequest|invoke-restmethod|net\.webclient)\b");
   (DownloadExec, "\b(downloadstring|downloaddata|iwr|irm|invoke-webrequest|invoke-restmethod)\b[^\n]*\|\s*(iex|invoke-expression)\b");
   (DownloadExec, "\bcertutil(\.exe)?\b[^\n]*[-/]urlcache\b");
   (DownloadExec, "\bbitsadmin(\.exe)?\b[^\n]*/transfer\b");
   (ReverseShell, "\bsystem\.net\.sockets\.tcpclient\b");
   (EncodedExec, "\b(powershell|pwsh)(\.exe)?\b[^\n]*\s[-/](e|ec|en|enc|enco\w*)\s+[a-z0-9+/=]{20,}");
   (EncodedExec, "\bfrombase64string\b");
   (LolBin, "\bmshta(\.exe)?\b[^\n]*(https?:|javascript:|vbscript:)");
   (LolBin, "\brundll32(\.exe)?\b[^\n]*javascript:");
   (LolBin, "\bregsvr32(\.exe)?\b[^\n]*(/i:\s*https?:|scrobj\.dll)");
   (LolBin, "\bwmic(\.exe)?\b[^\n]*\bprocess\s+call\s+create\b");
   (LolBin, "\b(cscript|wscript)(\.exe)?\b[^\n]*(https?:|\\appdata\\|\\temp\\|\\users\\public\\)");
   (LoaderInjection, "\b(LD_PRELOAD|LD_AUDIT)\s*=")]%string.

(** The longest prefix of [l] of at most [n] octets. *)
Fixpoint take_octets (n : N) (l : list N) : list N :=
  match l with
  | [] => []
  | c :: l => let w := vlen (encode_char c) in if w <=? n then c :: take_octets (n - w) l else []
  end.

Definition truncate_at_char (s : string) (max : N) : string :=
  if len s <=? max then s else of_chars (take_octets max (chars s)).

Definition one_line (s : string) : list N := (λ c, if Text.is_control c then 32 else c) <$> chars s.

Definition snippet (s : string) : string :=
  let trimmed := of_chars (trim (one_line s)) in
  let t := truncate_at_char trimmed 160 in
  if len t <? len trimmed then fmt "{t}..." [t] else t.

Section Table.
Context `{RegexLib}.

Definition table : list (Pattern * Regex) := omap (λ '(k, p), r ← compile p; Some (k, r)) PATTERNS.

(** [m.as_str()] *)
Definition matched (s : string) (range : N * N) : string :=
  of_bytes (takeN (range.2 - range.1) (drop (N.to_nat range.1) (as_bytes s))).

Fixpoint indicators (t : list (Pattern * Regex)) (text : string) (out : list (Pattern * string))
    : list (Pattern * string) :=
  match t with
  | [] => out
  | (k, re) :: t =>
      if existsb (λ x, bool_decide (x.1 = k)) out then indicators t text out
      else
        match find re text with
        | Some m => indicators t text (out ++ [(k, matched text m)])
        | None => indicators t text out
        end
  end.

Definition command_indicators (text : string) : list (Pattern * string) :=
  indicators table (truncate_at_char text MAX_TEXT) [].
End Table.
End Patterns.
#[export] Existing Instance Patterns.Pattern_eq_dec.
Abbreviation RegexLib := Patterns.RegexLib.

(** ** names.rs *)
Module Names.

Definition DOCUMENT_EXTS : list string :=
  ["pdf"; "doc"; "docx"; "xls"; "xlsx"; "ppt"; "pptx"; "odt"; "ods"; "odp"; "rtf"; "txt"; "csv";
   "jpg"; "jpeg"; "png"; "gif"; "bmp"; "tif"; "tiff"; "webp"; "svg"; "ico"; "mp3"; "mp4"; "wav";
   "avi"; "mkv"; "mov"; "wmv"; "flac"; "ogg"; "zip"; "rar"; "7z"; "tar"; "gz"; "iso"; "html";
   "htm"; "xml"; "json"]%string.

Definition EXECUTABLE_EXTS : list string :=
  ["exe"; "scr"; "com"; "pif"; "cpl"; "msi"; "bat"; "cmd"; "js"; "jse"; "vbs"; "vbe"; "wsf"; "hta";
   "lnk"; "ps1"; "jar"]%string.

Definition ext (name : string) : option string :=
  '(stem, e) ← rsplit_once 46 name;
  if bool_decide (stem = ""%string) then None else Some (to_ascii_lowercase e).

Definition has_document_extension (name : string) : bool := from_option (among DOCUMENT_EXTS) false (ext name).

(** [s.ends_with(p)] *)
Definition ends_with (s p : string) : bool :=
  Anchors.list_starts_with (reverse (as_bytes p)) (reverse (as_bytes s)).

Definition trim_str (s : string) : string := of_chars (trim (chars s)).

Definition double_extension (name : string) : option string :=
  '(stem, last) ← rsplit_once 46 name;
  let last := to_ascii_lowercase last in
  if negb (among EXECUTABLE_EXTS last) then None
  else if ends_with stem "   " then Some (fmt "name padded with spaces before .{last}" [last])
  else
    '(_, inner) ← rsplit_once 46 stem;
    let inner := to_ascii_lowercase (trim_str inner) in
    if among DOCUMENT_EXTS inner then Some (fmt ".{inner} followed by .{last}" [inner; last]) else None.

(** [{:04X}] *)
Definition upper_hex4 (c : N) : string :=
  let d := Text.lower_hex c in
  to_ascii_uppercase (of_bytes (repeat 48 (4 - length d) ++ d)).

(** [Vec::dedup]: of equal neighbours the first is kept. *)
Fixpoint dedup (l : list string) : list string :=
  match l with
  | [] => []
  | x :: l => match dedup l with
              | y :: r => if bool_decide (x = y) then y :: r else x :: y :: r
              | [] => [x]
              end
  end.

Definition bidi_controls (name : string) : list string :=
  dedup ((λ c, fmt "U+{:04X}" [upper_hex4 c]) <$> List.filter Text.is_bidi_control (chars name)).
End Names.

(** ** script.rs *)
Module Script.
Import Patterns.

Definition SCRIPT_EXTS : list string :=
  ["sh"; "bash"; "zsh"; "ksh"; "py"; "pl"; "rb"; "php"; "ps1"; "psm1"; "psd1"; "bat"; "cmd"; "vbs";
   "vbe"; "js"; "jse"; "wsf"; "hta"]%string.

Definition BLOB_EXTS : list string :=
  ["sh"; "bash"; "ps1"; "psm1"; "bat"; "cmd"; "vbs"; "vbe"]%string.

Definition MAX_LINES : N := 50000.
Definition BLOB_RUN : N := 4096.

Record ScriptFacts := mkFacts { matches : list (Pattern * N * string); blob : option (N * N) }.

(** [name.rsplit_once('.').map(|(_, e)| e.to_ascii_lowercase())] *)
Definition extension (name : string) : option string :=
  '(_, e) ← rsplit_once 46 name; Some (to_ascii_lowercase e).

Definition is_script (name : string) (data : bytes) : bool :=
  let text := negb (existsb (N.eqb 0) (takeN 8192 data)) in
  text && (bytes_start_with data "#!" || from_option (among SCRIPT_EXTS) false (extension name)).

(** [l.get(..n)]: a prefix of exactly [n] octets that ends between characters. *)
Fixpoint prefix_octets (n : N) (l : list N) : option (list N) :=
  if n =? 0 then Some []
  else match l with
       | [] => None
       | c :: l => let w := vlen (encode_char c) in
                   if w <=? n then cons c <$> prefix_octets (n - w) l else None
       end.

Definition chars_start_with (l : list N) (p : string) : bool := Anchors.list_starts_with (as_bytes p) l.

(** A line as the list of its characters. *)
Definition is_comment (line : list N) : bool :=
  let l := trim_start line in
  let lower := to_lower_byte <$> default [] (prefix_octets 4 l) in
  (chars_start_with l "#" && negb (chars_start_with l "#!"))
  || chars_start_with l "//" || chars_start_with l "::" || chars_start_with l "'"
  || chars_start_with lower "rem " || chars_start_with l "<#".

Section Analysis.
Context `{RegexLib}.

(** The inner loop: each kind once per file. *)
Definition add_match (number : N) (ms : list (Pattern * N * string)) (m : Pattern * string)
    : list (Pattern * N * string) :=
  if existsb (λ x, bool_decide (x.1.1 = m.1)) ms then ms else ms ++ [(m.1, number, snippet m.2)].

Fixpoint match_lines (number : N) (ls : list (list N)) (ms : list (Pattern * N * string))
    : list (Pattern * N * string) :=
  match ls with
  | [] => ms
  | l :: ls =>
      match_lines (number + 1) ls
        (if is_comment l then ms else foldl (add_match number) ms (command_indicators (of_chars l)))
  end.
End Analysis.

Definition is_base64 (b : N) : bool := is_ascii_alphanumeric b || (b =? 43) || (b =? 47) || (b =? 61).

(** The loop over the octets, with [run] and [line]. *)
Fixpoint find_blob (run line : N) (data : bytes) : option (N * N) :=
  match data with
  | [] => None
  | b :: data =>
      let line := if b =? 10 then line + 1 else line in
      if is_base64 b then
        let run := run + 1 in
        if BLOB_RUN <=? run then Some (line, run) else find_blob run line data
      else find_blob 0 line data
  end.

Definition is_shell (name : string) (data : bytes) : bool :=
  among BLOB_EXTS (default ""%string (extension name))
  || bytes_start_with data "#!/bin/sh" || bytes_start_with data "#!/bin/bash"
  || bytes_start_with data "#!/usr/bin/env bash".

Definition analyze `{RegexLib} (name : string) (data : bytes) : ScriptFacts :=
  mkFacts (match_lines 1 (takeN MAX_LINES (lines (decode_lossy data))) [])
    (if is_shell name data then find_blob 0 1 data else None).
End Script.

(** ** Properties *)
Module TextProps.
Import Patterns Script.

Lemma trim_start_suffix l : ∃ k, l = k ++ trim_start l.
Proof.
  induction l as [|c l [k IH]]; simpl; [by exists []|]. destruct (is_whitespace c); [|by exists []].
  exists (c :: k). simpl. by rewrite <-IH.
Qed.

Lemma trim_Forall (P : N → Prop) l : Forall P l → Forall P (trim l).
Proof.
  intros Hl. unfold trim. apply Forall_reverse.
  destruct (trim_start_suffix (reverse (trim_start l))) as [k Hk]. destruct (trim_start_suffix l) as [k' Hk'].
  rewrite Hk' in Hl. apply Forall_app in Hl as [_ Hl]. apply Forall_reverse in Hl.
  rewrite Hk in Hl. by apply Forall_app in Hl as [_ Hl].
Qed.

Lemma take_octets_prefix n l : ∃ k, l = take_octets n l ++ k.
Proof.
  revert n. induction l as [|c l IH]; intros n; simpl; [by exists []|].
  destruct (_ <=? n); [|by eexists]. destruct (IH (n - vlen (encode_char c))) as [k Hk].
  exists k. simpl. by rewrite <-Hk.
Qed.

Lemma take_octets_length n l : vlen (encode (take_octets n l)) ≤ n.
Proof.
  revert n. induction l as [|c l IH]; intros n; simpl; [unfold vlen; simpl; lia|].
  destruct (N.leb_spec (vlen (encode_char c)) n); [|unfold vlen; simpl; lia].
  change (encode (c :: ?k)) with (encode_char c ++ encode k). rewrite vlen_app.
  specialize (IH (n - vlen (encode_char c))). lia.
Qed.

Lemma take_octets_Forall (P : N → Prop) n l : Forall P l → Forall P (take_octets n l).
Proof. intros Hl. destruct (take_octets_prefix n l) as [k Hk]. rewrite Hk in Hl. by apply Forall_app in Hl as []. Qed.

Lemma len_of_bytes bs : len (of_bytes bs) = vlen bs.
Proof. unfold len, vlen. by rewrite length_of_bytes. Qed.

Lemma one_line_clean s : Forall (λ c, is_scalar c ∧ Text.is_control c = false) (one_line s).
Proof.
  apply Forall_fmap. eapply Forall_impl; [apply chars_scalar|]. intros c Hc. simpl.
  destruct (Text.is_control c) eqn:E; [split; [by left|done]|done].
Qed.

Lemma truncate_bounds max cs :
  Forall is_scalar cs → ∃ k, truncate_at_char (of_chars cs) max = of_chars k ∧ k `prefix_of` cs ∧ vlen (encode k) ≤ max.
Proof.
  intros Hcs. unfold truncate_at_char. unfold of_chars at 1. rewrite len_of_bytes.
  destruct (N.leb_spec (vlen (encode cs)) max); [by exists cs|].
  exists (take_octets max cs). rewrite chars_of_chars by done. split_and!; [done| |apply take_octets_length].
  destruct (take_octets_prefix max cs) as [k Hk]. by exists k.
Qed.

(** An excerpt used as evidence is one line of at most 163 octets without
    control characters, whatever the text. *)
Theorem snippet_bounded s : len (snippet s) ≤ 163 ∧ Forall (λ c, Text.is_control c = false) (chars (snippet s)).
Proof.
  unfold snippet. assert (Hc := trim_Forall _ _ (one_line_clean s)).
  assert (Hs : Forall is_scalar (trim (one_line s))) by (eapply Forall_impl; [exact Hc|by intros ? []]).
  destruct (truncate_bounds 160 _ Hs) as (k & -> & [k' Hk] & Hlen). rewrite Hk in Hc. apply Forall_app in Hc as [Hc _].
  assert (Hks : Forall is_scalar k) by (eapply Forall_impl; [exact Hc|by intros ? []]).
  assert (Hdots : fmt "{t}..." [of_chars k] = of_chars (k ++ as_bytes "...")).
  { unfold of_chars. rewrite encode_app, of_bytes_app. done. }
  case_match.
  - rewrite Hdots. unfold of_chars at 1. rewrite len_of_bytes, encode_app, vlen_app.
    rewrite chars_of_chars by (apply Forall_app; split; [done|repeat constructor; by left]).
    split; [change (vlen (encode (as_bytes "..."))) with 3; lia|]. apply Forall_app. split.
    + eapply Forall_impl; [exact Hc|by intros ? []].
    + by repeat constructor.
  - unfold of_chars at 1. rewrite len_of_bytes, chars_of_chars by done. split; [lia|].
    eapply Forall_impl; [exact Hc|by intros ? []].
Qed.

(** Where a run of [BLOB_RUN] base64 octets first is: [pre] octets before it. *)
Definition is_run (data pre rn post : bytes) : Prop :=
  data = pre ++ rn ++ post ∧ vlen rn = BLOB_RUN ∧ Forall (λ b, is_base64 b = true) rn.
Definition first_run (data pre : bytes) : Prop :=
  (∃ rn post, is_run data pre rn post) ∧
  ∀ pre' rn post, is_run data pre' rn post → (length pre ≤ length pre')%nat.

Definition newlines (l : bytes) : N := N.of_nat (length (List.filter (N.eqb 10) l)).

(** What [find_blob] reports of [data], counting lines from [line]. *)
Definition blob_spec (line : N) (data : bytes) (r : option (N * N)) : Prop :=
  match r with
  | Some (l, n) => n = BLOB_RUN ∧ ∃ pre, first_run data pre ∧ l = line + newlines pre
  | None => ∀ pre rn post, ¬ is_run data pre rn post
  end.

Lemma base64_not_newline b : is_base64 b = true → b ≠ 10.
Proof. by intros H ->. Qed.

Lemma newlines_app a b : newlines (a ++ b) = newlines a + newlines b.
Proof. unfold newlines. rewrite List.filter_app, length_app. lia. Qed.

Lemma newlines_base64 l : Forall (λ b, is_base64 b = true) l → newlines l = 0.
Proof.
  induction 1 as [|b l Hb _ IH]; [done|]. unfold newlines in *. cbn [List.filter].
  destruct (N.eqb_spec 10 b) as [<-|]; [done|]. exact IH.
Qed.

(** A run cannot contain an octet outside the alphabet: past one, the prefix
    seen so far no longer matters. *)
Lemma run_after p b data pre rn post :
  vlen p < BLOB_RUN → is_base64 b = false → is_run (p ++ b :: data) pre rn post →
  ∃ pre', pre = p ++ b :: pre' ∧ is_run data pre' rn post.
Proof.
  intros Hp Hb (Heq & Hl & Hr).
  destruct (decide (length pre ≤ length p)%nat) as [Hle|Hgt].
  - exfalso. assert (Hin : rn !! (length p - length pre)%nat = Some b).
    { assert (H : (p ++ b :: data) !! length p = Some b) by by apply list_lookup_middle.
      rewrite Heq, lookup_app_r, lookup_app_l in H by (unfold vlen in *; lia). exact H. }
    rewrite Forall_forall in Hr. rewrite (Hr b) in Hb; [done|]. by apply list_elem_of_lookup_2 in Hin.
  - assert (Hpre : take (S (length p)) pre = p ++ [b]).
    { assert (H : take (S (length p)) (p ++ b :: data) = p ++ [b]).
      { rewrite cons_middle, app_assoc. by rewrite take_app_length' by (rewrite length_app; simpl; lia). }
      rewrite Heq, take_app_le in H by lia. exact H. }
    exists (drop (S (length p)) pre).
    assert (Hpre' : pre = p ++ b :: drop (S (length p)) pre).
    { rewrite <-(take_drop (S (length p)) pre) at 1. by rewrite Hpre, <-app_assoc. }
    split; [done|]. split_and!; [|done..]. rewrite Hpre', <-app_assoc in Heq. by simplify_list_eq.
Qed.

Lemma first_run_after p b data pre :
  vlen p < BLOB_RUN → is_base64 b = false → first_run data pre → first_run (p ++ b :: data) (p ++ b :: pre).
Proof.
  intros Hp Hb [(rn & post & -> & Hl & Hr) Hmin]. split.
  - exists rn, post. split_and!; [by rewrite <-!app_assoc|done..].
  - intros pre' rn' post' (pre2 & -> & H2)%run_after; [|done..]. apply Hmin in H2.
    rewrite !length_app. simpl. lia.
Qed.

Lemma find_blob_spec p line data :
  vlen p < BLOB_RUN → Forall (λ b, is_base64 b = true) p →
  blob_spec line (p ++ data) (find_blob (vlen p) line data).
Proof.
  revert p line. induction data as [|b data IH]; intros p line Hp Hb64; cbn [find_blob].
  - intros pre rn post (Heq & Hl & _). rewrite app_nil_r in Heq. subst p. rewrite !vlen_app in Hp. lia.
  - destruct (is_base64 b) eqn:Hb.
    + assert (Hb64' : Forall (λ b, is_base64 b = true) (p ++ [b])) by (apply Forall_app; by repeat constructor).
      assert (Hv : vlen (p ++ [b]) = vlen p + 1) by (rewrite vlen_app; done).
      rewrite (proj2 (N.eqb_neq b 10) (base64_not_newline _ Hb)). rewrite <-Hv.
      destruct (N.leb_spec BLOB_RUN (vlen (p ++ [b]))) as [Hge|Hlt].
      * simpl. split; [lia|]. exists []. split; [|unfold newlines; simpl; lia]. split; [|simpl; lia].
        exists (p ++ [b]), data. split_and!; [by rewrite <-app_assoc|lia|done].
      * rewrite cons_middle, app_assoc. by apply IH.
    + specialize (IH [] (if b =? 10 then line + 1 else line) ltac:(done) ltac:(constructor)). simpl app in IH.
      change (vlen []) with 0 in IH.
      destruct (find_blob 0 _ data) as [[l n]|]; simpl in *.
      * destruct IH as (-> & pre & Hf & ->). split; [done|]. exists (p ++ b :: pre).
        split; [by apply first_run_after|]. rewrite newlines_app, (newlines_base64 p) by done.
        unfold newlines. cbn [List.filter]. rewrite (N.eqb_sym b 10). destruct (10 =? b); simpl length; lia.
      * intros pre rn post (pre' & -> & H)%run_after; [|done..]. by apply IH in H.
Qed.

(** The search for an embedded blob is equivalent to the plain
    definition: it reports a blob exactly when the file has 4096 consecutive
    base64 octets, and the line it gives is that of the first such run. *)
Theorem script_blob_exact data : blob_spec 1 data (find_blob 0 1 data).
Proof. by apply (find_blob_spec [] 1 data). Qed.
End TextProps.
