(* ===== verification/HeuristicScan.v ===== *)
(** * Heuristics: programs and the analysis of a file

    heuristics/src/elf.rs, pe.rs and lib.rs. The object crate is a parameter
    that gives the headers of a file; [f64] arithmetic is a parameter too. *)

From S2P Require Import Prelude Utf8 Paths Core External AuditLog Remediation Trust Fsio Archive Scanner Heuristics.

(** ** The object crate *)

Inductive FileKind := Elf32 | Elf64 | Pe32 | Pe64 | OtherFile (debug : string).

(** A program header with what [interpreter] and [dynamic] read through it
    ([None]: nothing, or an error). *)
Record ProgramHeader := mkHeader {
  p_type : N; p_flags : N; p_vaddr : N; p_memsz : N; p_offset : N; p_filesz : N;
  p_interpreter : option bytes; p_dynamic : option (list (Z * N)) }.

Record ElfHeader := mkElf {
  endian : result string unit; program_headers : result string (list ProgramHeader);
  e_type : N; e_entry : N; e_shnum : N; e_shoff : N }.

Record PeSection := mkSection {
  raw_name : bytes; characteristics : N; virtual_address : N; virtual_size : N;
  size_of_raw_data : N; pointer_to_raw_data : N; pe_data : option bytes }.

(** [import_descriptors]: both thunk addresses of each descriptor before the
    first error ([None]: no import table); [thunks]: for each thunk at an
    address the name it imports, if by name; [security]: that directory. *)
Record PeFile := mkPe {
  address_of_entry_point : N; subsystem : N; section_table : list PeSection;
  import_descriptors : option (list (N * N)); thunks : N → option (list (option bytes));
  security : option (N * N) }.

Class ObjectLib := {
  file_kind : bytes → result string FileKind;
  elf_header : bool → bytes → result string ElfHeader;
  pe_file : bool → bytes → result string PeFile }.

(** [f64]: the operations the entropy takes. *)
Class Floats := {
  F : Type;
  f_of : N → F; f_neg : F → F; f_mul : F → F → F; f_div : F → F → F; f_log2 : F → F;
  f_sum : list F → F; f_ge : F → F → bool; f_fixed2 : F → string }.

(** [String::from_utf8_lossy] *)
Definition lossy (bs : bytes) : string := of_chars (decode_lossy bs).

(** [{:#x}] of a [u64]. *)
Definition alt_hex (n : N) : string := ("0x" +:+ of_bytes (Text.hex_go 16 n []))%string.

(** [a + b] on [u64] in a release build. *)
Definition wrapping_add64 (a b : N) : N := (a + b) mod 2 ^ 64.

Definition contains_bytes (data : bytes) (p : string) : bool :=
  bool_decide (is_Some (Anchors.find_from (as_bytes p) data)).

(** ** elf.rs *)
Module Elf.

Definition ET_EXEC : N := 2.
Definition ET_DYN : N := 3.
Definition PT_LOAD : N := 1.
Definition PT_DYNAMIC : N := 2.
Definition PT_INTERP : N := 3.
Definition PT_GNU_STACK : N := 0x6474E551.
Definition PF_X : N := 1.
Definition PF_W : N := 2.
Definition DT_NULL : Z := 0.
Definition DT_STRTAB : Z := 5.
Definition DT_STRSZ : Z := 10.
Definition DT_RPATH : Z := 15.
Definition DT_RUNPATH : Z := 29.

Record ElfFacts := mkFacts {
  executable : bool; rwx_segments : N; exec_stack : bool; upx : bool; no_sections : bool;
  entry_outside_code : option string; unsafe_rpath : list string; interpreter : option string;
  odd_interpreter : bool }.

Definition TEMP_DIRS : list string := ["/tmp/"; "/var/tmp/"; "/dev/shm/"; "/run/shm/"]%string.
Definition in_temp_dir (s : string) : bool := existsb (str_starts_with s) TEMP_DIRS.

(** A loadable segment: vaddr, memsz, offset, filesz, exec. *)
Record load := mkLoad { vaddr : N; memsz : N; offset : N; filesz : N; exec : bool }.

Definition has (flags bit : N) : bool := negb (N.land flags bit =? 0).

Definition is_odd_interpreter (i : string) : bool :=
  let base := from_option snd i (rsplit_once 47 i) in
  let standard := str_starts_with base "ld-" || str_starts_with base "ld64" || str_starts_with base "ld.so" in
  negb standard || in_temp_dir i || negb (str_starts_with i "/").

(** The variables of the loop over the program headers. *)
Record segments := mkSegments {
  rwx : N; stack : bool; interp : option string; odd : bool; loads : list load;
  dynamic : option (list (Z * N)) }.

Definition on_segment (s : segments) (ph : ProgramHeader) : segments :=
  let w := has (p_flags ph) PF_W in
  let x := has (p_flags ph) PF_X in
  if p_type ph =? PT_LOAD then
    mkSegments (if w && x then rwx s + 1 else rwx s) (stack s) (interp s) (odd s)
      (loads s ++ [mkLoad (p_vaddr ph) (p_memsz ph) (p_offset ph) (p_filesz ph) x]) (dynamic s)
  else if p_type ph =? PT_GNU_STACK then mkSegments (rwx s) x (interp s) (odd s) (loads s) (dynamic s)
  else if p_type ph =? PT_INTERP then
    match p_interpreter ph with
    | Some bs =>
        let i := lossy bs in
        mkSegments (rwx s) (stack s) (Some i) (is_odd_interpreter i) (loads s) (dynamic s)
    | None => s
    end
  else if p_type ph =? PT_DYNAMIC then mkSegments (rwx s) (stack s) (interp s) (odd s) (loads s) (p_dynamic ph)
  else s.

Definition within_load (size : load → N) (a : N) (l : load) : bool :=
  (vaddr l <=? a) && (a <? saturating_add64 (vaddr l) (size l)).

Definition entry_fact (executable : bool) (entry : N) (ls : list load) : option string :=
  if executable && negb (entry =? 0) && negb (bool_decide (ls = [])) then
    if existsb (λ l, exec l && within_load memsz entry l) ls then None
    else Some (fmt "entry point {entry:#x} is not in an executable segment" [alt_hex entry])
  else None.

(** The dynamic entries up to [DT_NULL]: string table, its size, search paths. *)
Fixpoint on_dynamic (l : list (Z * N)) (strtab : option N) (strsz : N) (paths : list N) : option N * N * list N :=
  match l with
  | [] => (strtab, strsz, paths)
  | (tag, v) :: l =>
      if (tag =? DT_NULL)%Z then (strtab, strsz, paths)
      else if (tag =? DT_STRTAB)%Z then on_dynamic l (Some v) strsz paths
      else if (tag =? DT_STRSZ)%Z then on_dynamic l strtab v paths
      else if (tag =? DT_RPATH)%Z || (tag =? DT_RUNPATH)%Z then on_dynamic l strtab strsz (paths ++ [v])
      else on_dynamic l strtab strsz paths
  end.

(** Where the address is in the file. *)
Definition file_off (ls : list load) (addr : N) : option N :=
  l ← List.find (within_load filesz addr) ls; Some (wrapping_add64 (offset l) (addr - vaddr l)).

Fixpoint until_nul (l : bytes) : bytes :=
  match l with [] => [] | b :: l => if b =? 0 then [] else b :: until_nul l end.

Definition is_unsafe_entry (e : string) : bool :=
  bool_decide (e = ""%string) || bool_decide (e = "."%string)
  || (negb (str_starts_with e "/") && negb (str_starts_with e "$ORIGIN") && negb (str_starts_with e "${ORIGIN}"))
  || existsb (λ t, str_starts_with e t || bool_decide ((e +:+ "/")%string = t)) TEMP_DIRS.

Definition add_entry (acc : list string) (e : string) : list string :=
  if is_unsafe_entry e && negb (among acc e)
  then acc ++ [if bool_decide (e = ""%string) then "(empty: current directory)"%string else e]
  else acc.

(** One search path at [p] of the string table. *)
Definition add_path (data : bytes) (base strsz : N) (acc : list string) (p : N) : list string :=
  if strsz <=? p then acc
  else
    let at_ := wrapping_add64 base p in
    if vlen data <? at_ then acc
    else
      let text := lossy (takeN 4096 (until_nul (drop (N.to_nat at_) data))) in
      foldl add_entry acc (split_on ":"%char text).

Definition rpath_facts (data : bytes) (s : segments) : list string :=
  match dynamic s with
  | None => []
  | Some entries =>
      let '(strtab, strsz, paths) := on_dynamic (takeN 4096 entries) None 0 [] in
      match strtab ≫= file_off (loads s) with
      | None => []
      | Some base => foldl (add_path data base strsz) [] paths
      end
  end.

Definition start : segments := mkSegments 0 false None false [] None.

Definition facts_of (data : bytes) (h : ElfHeader) (phdrs : list ProgramHeader) : ElfFacts :=
  let executable := (e_type h =? ET_EXEC) || (e_type h =? ET_DYN) in
  let s := foldl on_segment start phdrs in
  mkFacts executable (rwx s) (stack s)
    (executable && contains_bytes (takeN 1024 data) "UPX!")
    (executable && (e_shnum h =? 0) && (e_shoff h =? 0) && negb (bool_decide (loads s = [])))
    (entry_fact executable (e_entry h) (loads s)) (rpath_facts data s) (interp s) (odd s).

Definition analyze_as `{ObjectLib} (wide : bool) (data : bytes) : result string ElfFacts :=
  h ← elf_header wide data;
  _ ← endian h;
  phdrs ← program_headers h;
  Ok (facts_of data h phdrs).

Definition kind_text (k : FileKind) : string :=
  match k with Elf32 => "Elf32" | Elf64 => "Elf64" | Pe32 => "Pe32" | Pe64 => "Pe64" | OtherFile d => d end.

Definition analyze `{ObjectLib} (data : bytes) : result string ElfFacts :=
  k ← file_kind data;
  match k with
  | Elf32 => analyze_as false data
  | Elf64 => analyze_as true data
  | other => Err (fmt "not an ELF file ({other:?})" [kind_text other])
  end.
End Elf.

(** ** pe.rs *)
Module Pe.

Definition IMAGE_SCN_CNT_CODE : N := 0x20.
Definition IMAGE_SCN_MEM_EXECUTE : N := 0x20000000.
Definition IMAGE_SCN_MEM_WRITE : N := 0x80000000.

Definition PACKER_SECTIONS : list (string * string) :=
  [("UPX0", "UPX"); ("UPX1", "UPX"); ("UPX2", "UPX"); (".UPX", "UPX"); (".aspack", "ASPack");
   (".adata", "ASPack"); ("ASPack", "ASPack"); ("MPRESS1", "MPRESS"); ("MPRESS2", "MPRESS");
   (".MPRESS1", "MPRESS"); (".petite", "Petite"); (".themida", "Themida");
   (".winlice", "WinLicense"); (".vmp0", "VMProtect"); (".vmp1", "VMProtect");
   (".vmp2", "VMProtect"); (".enigma1", "Enigma"); (".enigma2", "Enigma"); (".nsp0", "NsPack");
   (".nsp1", "NsPack"); ("PEC2", "PECompact"); ("pec1", "PECompact"); (".packed", "RLPack");
   ("PELOCKnt", "PELock"); (".yP", "Y0da"); (".perplex", "Perplex"); ("kkrunchy", "kkrunchy");
   (".MaskPE", "MaskPE")]%string.

Definition INJECTION_SETS : list (string * list (list string)) :=
  [("remote thread injection",
    [["VirtualAllocEx"; "NtAllocateVirtualMemory"; "ZwAllocateVirtualMemory"];
     ["WriteProcessMemory"; "NtWriteVirtualMemory"; "ZwWriteVirtualMemory"];
     ["CreateRemoteThread"; "CreateRemoteThreadEx"; "NtCreateThreadEx"; "RtlCreateUserThread"; "QueueUserAPC"; "NtQueueApcThread"]]);
   ("process hollowing",
    [["NtUnmapViewOfSection"; "ZwUnmapViewOfSection"];
     ["SetThreadContext"; "Wow64SetThreadContext"; "NtSetContextThread"];
     ["ResumeThread"; "NtResumeThread"]])]%string.

Definition FEW_IMPORTS : N := 10.
Definition MAX_IMPORTS : N := 20000.

(** [data.get(a..a + n)] *)
Definition get_range (data : bytes) (a n : N) : option bytes :=
  if a + n <=? vlen data then Some (takeN n (drop (N.to_nat a) data)) else None.

Definition from_le (bs : bytes) : N := foldr (λ b acc, b + 256 * acc) 0 bs.

Definition pe_header_at (data : bytes) (start : N) : bool :=
  if vlen data <? start then false
  else
    let d := drop (N.to_nat start) data in
    if (vlen d <? 0x40) || negb (bytes_start_with d "MZ") then false
    else
      let lfanew := from_le (take 4 (drop 60 d)) in
      (0x40 <=? lfanew) && (lfanew <? N.shiftl 1 20)
      && bool_decide (get_range d lfanew 4 = Some [80; 69; 0; 0]).

Definition looks_like_pe (data : bytes) : bool := pe_header_at data 0.

Section Entropy.
Context `{Floats}.

(** [entropy] of lib.rs. *)
Definition count (data : bytes) (b : N) : N := N.of_nat (length (List.filter (N.eqb b) data)).
Definition entropy (data : bytes) : F :=
  if bool_decide (data = []) then f_of 0
  else
    let n := f_of (vlen data) in
    let counts := count data <$> (N.of_nat <$> seq 0 256) in
    f_sum ((λ c, let p := f_div (f_of c) n in f_mul (f_neg p) (f_log2 p))
             <$> List.filter (λ c, 0 <? c) counts).

(** 7.2 *)
Definition HIGH_ENTROPY : F := f_div (f_of 72) (f_of 10).

Record PeFacts := mkFacts {
  rwx_sections : list string; entry_outside_code : option string; packers : list string;
  code_entropy : option F; imports : list string; injection : list (string * list string);
  embedded_pe_at : option N; signed : bool; efi : bool }.

(** The variables of the loop over the sections. *)
Record sections := mkSections {
  s_rwx : list string; s_packers : list string; s_code : bytes; s_end : N; s_entry : option (string * bool) }.

Definition packer_of (name : string) : option string :=
  snd <$> List.find (λ np, eq_ignore_ascii_case name np.1) PACKER_SECTIONS.

Definition has (flags bit : N) : bool := negb (N.land flags bit =? 0).

Definition on_section (entry : N) (s : sections) (h : PeSection) : sections :=
  let name := lossy (raw_name h) in
  let chars := characteristics h in
  let size := N.max (virtual_size h) (size_of_raw_data h) in
  let exec := has chars (N.lor IMAGE_SCN_MEM_EXECUTE IMAGE_SCN_CNT_CODE) in
  mkSections
    (if has chars IMAGE_SCN_MEM_EXECUTE && has chars IMAGE_SCN_MEM_WRITE then s_rwx s ++ [name] else s_rwx s)
    (match packer_of name with
     | Some p => if among (s_packers s) p then s_packers s else s_packers s ++ [p]
     | None => s_packers s
     end)
    (match pe_data h with
     | Some d => if exec then s_code s ++ takeN (N.shiftl 16 20) d else s_code s
     | None => s_code s
     end)
    (N.max (s_end s) (pointer_to_raw_data h + size_of_raw_data h))
    (if (virtual_address h <=? entry) && (entry <? virtual_address h + size) then Some (name, exec) else s_entry s).

Definition entry_fact (entry : N) (found : option (string * bool)) : option string :=
  if entry =? 0 then None
  else match found with
       | None => Some (fmt "entry point RVA {entry:#x} is not inside any section" [alt_hex entry])
       | Some (name, false) =>
           Some (fmt "entry point RVA {entry:#x} is in non-executable section {name}" [alt_hex entry; name])
       | Some (_, true) => None
       end.

(** The thunks of one descriptor; true when the limit was reached. *)
Fixpoint on_thunks (l : list (option bytes)) (acc : list string) : list string * bool :=
  match l with
  | [] => (acc, false)
  | None :: l => on_thunks l acc
  | Some name :: l =>
      let acc := acc ++ [lossy name] in
      if MAX_IMPORTS <=? vlen acc then (acc, true) else on_thunks l acc
  end.

Fixpoint on_descriptors (thunks : N → option (list (option bytes))) (l : list (N * N)) (acc : list string)
    : list string :=
  match l with
  | [] => acc
  | (original, first) :: l =>
      match thunks (if original =? 0 then first else original) with
      | None => on_descriptors thunks l acc
      | Some ts =>
          match on_thunks ts acc with
          | (acc, true) => acc
          | (acc, false) => on_descriptors thunks l acc
          end
      end
  end.

Definition injection_facts (imports : list string) : list (string * list string) :=
  omap (λ '(label, groups),
          let hits := omap (λ g, List.find (among imports) g) groups in
          if (length hits =? length groups)%nat then Some (label, hits) else None) INJECTION_SETS.

(** [memmem::find_iter(overlay, b"MZ")] *)
Fixpoint mz_positions (pos : N) (l : bytes) : list N :=
  match l with
  | [] => []
  | b :: r => if bytes_start_with l "MZ" then pos :: mz_positions (pos + 1) r else mz_positions (pos + 1) r
  end.

Definition embedded_fact (data : bytes) (start sig_start sig_len : N) : option N :=
  if vlen data <=? start then None
  else
    let overlay := takeN (N.shiftl 64 20) (drop (N.to_nat start) data) in
    let signature a := (0 <? sig_len) && (sig_start <=? a) && (a <? sig_start + sig_len) in
    List.find (λ a, negb (signature a) && pe_header_at data a)
      ((λ p, start + p) <$> takeN 4096 (mz_positions 0 overlay)).

Definition facts_of (data : bytes) (f : PeFile) : PeFacts :=
  let entry := address_of_entry_point f in
  let s := foldl (on_section entry) (mkSections [] [] [] 0 None) (section_table f) in
  let imports := match import_descriptors f with Some l => on_descriptors (thunks f) l [] | None => [] end in
  let '(sig_start, sig_len) := default (0, 0) (security f) in
  mkFacts (s_rwx s) (entry_fact entry (s_entry s)) (s_packers s)
    (if 1024 <=? vlen (s_code s) then Some (entropy (s_code s)) else None)
    imports (injection_facts imports) (embedded_fact data (s_end s) sig_start sig_len) (0 <? sig_len)
    ((10 <=? subsystem f) && (subsystem f <=? 13)).

Definition analyze `{ObjectLib} (data : bytes) : result string PeFacts :=
  k ← file_kind data;
  match k with
  | Pe32 => f ← pe_file false data; Ok (facts_of data f)
  | Pe64 => f ← pe_file true data; Ok (facts_of data f)
  | other => Err (fmt "not a PE image ({other:?})" [Elf.kind_text other])
  end.

Definition looks_packed (f : PeFacts) : bool :=
  negb (efi f) && from_option (λ e, f_ge e HIGH_ENTROPY) false (code_entropy f) && (vlen (imports f) <=? FEW_IMPORTS).
End Entropy.
End Pe.

(** ** lib.rs *)
Module Heuristics.
Import Rules Patterns.

Inductive Format := Pe | Elf | MachO | Other.
#[export] Instance Format_eq_dec : EqDecision Format.
Proof. solve_decision. Defined.

Definition MACH_O : list bytes :=
  [[0xFE; 0xED; 0xFA; 0xCE]; [0xFE; 0xED; 0xFA; 0xCF]; [0xCE; 0xFA; 0xED; 0xFE]; [0xCF; 0xFA; 0xED; 0xFE]].

Definition format (data : bytes) : Format :=
  if Anchors.list_starts_with [0x7F; 69; 76; 70] data then Elf
  else if Pe.looks_like_pe data then Pe
  else if (4 <=? vlen data) && bool_decide (take 4 data ∈ MACH_O) then MachO
  else Other.

(** [{fmt:?}] *)
Definition format_text (f : Format) : string :=
  match f with Pe => "Pe" | Elf => "Elf" | MachO => "MachO" | Other => "Other" end.

Definition TEMP_PREFIXES : list string := ["/tmp/"; "/var/tmp/"; "/dev/shm/"; "/run/shm/"]%string.
Definition WINDOWS_TEMP : list string := ["\temp\"; "\tmp\"; "\users\public\"; "$recycle.bin"]%string.

Definition in_temp_location (p : path) : bool :=
  let text := display p in
  let lower := to_ascii_lowercase (of_bytes ((λ b, if b =? 47 then 92 else b) <$> as_bytes text)) in
  existsb (str_starts_with text) TEMP_PREFIXES
  || ((contains text ":" || str_starts_with text "\\") && existsb (contains lower) WINDOWS_TEMP).

(** [Out], with the number of identifiers drawn. *)
Record Out := mkOut { o_target : Finding.FindingTarget; o_findings : list Finding; o_drawn : nat }.

Section Analysis.
Context `{RegexLib, ObjectLib, Floats}.
Context (version : string) (fresh : nat → string) (clock : nat → Z).

Definition add (r : Rule) (evidence : list string) (o : Out) : Out :=
  mkOut (o_target o)
    (o_findings o ++ [finding version r (o_target o) evidence (fresh (o_drawn o)) (clock (o_drawn o))])
    (S (o_drawn o)).

(** [if c { out.add(rule, vec![evidence]) }] *)
Definition add_if (c : bool) (r : Rule) (evidence : string) (o : Out) : Out := if c then add r [evidence] o else o.
Definition add_some (c : option string) (r : Rule) (o : Out) : Out :=
  match c with Some e => add r [e] o | None => o end.

Definition joined (l : list string) : string := String.concat ", " l.

Definition pe_rules (data : bytes) (out : Out) : Out :=
  match Pe.analyze data with
  | Err e => add PE_MALFORMED [fmt "parser: {}" [snippet e]] out
  | Ok facts =>
      let signed := if Pe.signed facts then " (the file has an Authenticode signature; it was not verified)"%string
                    else ""%string in
      let out := add_if (negb (bool_decide (Pe.rwx_sections facts = []))) PE_RWX_SECTION
                   (fmt "writable and executable: {}{signed}" [joined (Pe.rwx_sections facts); signed]) out in
      let out := add_some (Pe.entry_outside_code facts) PE_ENTRY_OUTSIDE_CODE out in
      let out := add_if (negb (bool_decide (Pe.packers facts = []))) PE_KNOWN_PACKER
                   (fmt "section names of {}{signed}" [joined (Pe.packers facts); signed]) out in
      let out := add_if (Pe.looks_packed facts) PE_HIGH_ENTROPY
                   (fmt "code entropy {:.2} bits/byte, {} imported function(s)"
                      [f_fixed2 (default (f_of 0) (Pe.code_entropy facts)); show_N (vlen (Pe.imports facts))]) out in
      let out := foldl (λ out i, add PE_INJECTION_IMPORTS
                   [fmt "{label}: imports {}{signed}" [i.1; joined i.2; signed]] out) out (Pe.injection facts) in
      match Pe.embedded_pe_at facts with
      | Some at_ => add PE_EMBEDDED_EXECUTABLE
                      [fmt "PE image at offset {at:#x}, after the last section" [alt_hex at_]] out
      | None => out
      end
  end.

Definition elf_rules (data : bytes) (out : Out) : Out :=
  match Elf.analyze data with
  | Err _ => out
  | Ok f =>
      let out := add_if (0 <? Elf.rwx_segments f) ELF_RWX_SEGMENT
                   (fmt "{} loadable segment(s) are writable and executable" [show_N (Elf.rwx_segments f)]) out in
      let out := add_if (Elf.exec_stack f) ELF_EXEC_STACK "PT_GNU_STACK has the execute flag" out in
      let out := add_if (Elf.upx f) ELF_UPX "UPX! markers present" out in
      let out := add_if (Elf.no_sections f) ELF_NO_SECTIONS "e_shnum = 0 and e_shoff = 0" out in
      let out := add_some (Elf.entry_outside_code f) ELF_ENTRY_OUTSIDE_CODE out in
      let out := add_if (negb (bool_decide (Elf.unsafe_rpath f = []))) ELF_UNSAFE_RPATH
                   (fmt "search path entries: {}" [snippet (joined (Elf.unsafe_rpath f))]) out in
      add_if (Elf.odd_interpreter f) ELF_ODD_INTERPRETER
        (fmt "interpreter {}" [snippet (default "" (Elf.interpreter f))]) out
  end.

Definition rule_of (k : Pattern) : Rule :=
  match k with
  | DownloadExec => SCRIPT_DOWNLOAD_EXEC
  | ReverseShell => SCRIPT_REVERSE_SHELL
  | EncodedExec => SCRIPT_ENCODED_EXEC
  | LolBin => SCRIPT_LOLBIN
  | LoaderInjection => SCRIPT_LOADER_INJECTION
  end.

Definition script_rules (name : string) (data : bytes) (out : Out) : Out :=
  let f := Script.analyze name data in
  let out := foldl (λ out m, add (rule_of m.1.1) [fmt "line {line}: {matched}" [show_N m.1.2; m.2]] out)
               out (Script.matches f) in
  match Script.blob f with
  | Some (line, n) =>
      add SCRIPT_ENCODED_BLOB
        [fmt "line {line}: base64 run of at least {len} characters" [show_N line; show_N n]] out
  | None => out
  end.

Definition name_rules (fmt_ : Format) (name : string) (p : option path) (out : Out) : Out :=
  let executable := negb (bool_decide (fmt_ = Other)) in
  let out := add_if (executable && Names.has_document_extension name) DISGUISED_EXECUTABLE
               (fmt "{fmt:?} executable named {}" [format_text fmt_; snippet name]) out in
  let out := add_some (Names.double_extension name) DOUBLE_EXTENSION out in
  let bidi := Names.bidi_controls name in
  let out := add_if (negb (bool_decide (bidi = []))) BIDI_NAME (fmt "name contains {}" [joined bidi]) out in
  add_if (executable && from_option in_temp_location false p) TEMP_EXECUTABLE
    (fmt "{fmt:?} executable in a temporary location" [format_text fmt_]) out.

Definition content_rules (fmt_ : Format) (name : string) (data : bytes) (out : Out) : Out :=
  match fmt_ with
  | Pe => pe_rules data out
  | Elf => elf_rules data out
  | MachO | Other => if Script.is_script name data then script_rules name data out else out
  end.

(** The distinct rules of the findings, in order ([BTreeSet<&str>]). *)
Definition distinct_rules (fs : list Finding) : list string :=
  Names.dedup (sort_by cmp_str (omap (λ f, Finding.rule_id (Finding.source f)) fs)).

Definition add_multiple (out : Out) : Out :=
  let distinct := distinct_rules (o_findings out) in
  add_if (3 <=? vlen distinct) MULTIPLE (fmt "matched {list}" [joined distinct]) out.

(** [analyze]; [now] is the clock read after the name rules. Also the number
    of identifiers drawn. *)
Definition analyze (name : string) (p : option path) (data : bytes) (target : Finding.FindingTarget)
    (deadline now : Z) (drawn : nat) : result string (list Finding) * nat :=
  let f := format data in
  let out := name_rules f name p (mkOut target [] drawn) in
  if (deadline <? now)%Z then (Err "time limit reached"%string, o_drawn out)
  else
    let out := add_multiple (content_rules f name data out) in
    (Ok (o_findings out), o_drawn out).

(** [s.rsplit(['/', '\\']).next()] *)
Definition last_component (s : string) : string :=
  let s := from_option snd s (rsplit_once 47 s) in from_option snd s (rsplit_once 92 s).

Definition subject (o : Scanner.Observation) : string * option path :=
  match Scanner.obs_member o ≫= last with
  | Some m => (last_component (ObservedPath.text m), None)
  | None => (from_option display ""%string (file_name (Scanner.obs_path o)), Some (Scanner.obs_path o))
  end.

Definition inspect_file (now : Z) (drawn : nat) (o : Scanner.Observation) : Scanner.inspection * nat :=
  match Scanner.obs_content o with
  | None => (Scanner.Found [], drawn)
  | Some data =>
      let '(name, p) := subject o in
      match analyze name p data (Scanner.target o) (Scanner.obs_deadline o) now drawn with
      | (Ok fs, drawn) => (Scanner.Found fs, drawn)
      | (Err m, drawn) => (Scanner.DetectorError m, drawn)
      end
  end.

(** As a detector of the scanner: a worker counts the identifiers drawn and
    the clock readings of its inspections. *)
Definition heuristics_detector (reading : nat → Z) : Scanner.Detector (nat * nat) :=
  Scanner.mkDetector DETECTOR_ID None true (0%nat, 0%nat)
    (λ w o, let '(r, drawn) := inspect_file (reading w.2) w.1 o in (r, (drawn, S w.2))).
End Analysis.
End Heuristics.

(** ** Properties *)
Module HeuristicProps.
Import Rules Patterns Heuristics.

(** *** No heuristic is certain *)

Definition weak_rule (r : Rule) : Prop :=
  (kind r = Finding.Suspicious ∨ kind r = Finding.Heuristic) ∧
  (confidence r = Finding.CLow ∨ confidence r = Finding.CMedium).

Record weak (t : Finding.FindingTarget) (f : Finding) : Prop := {
  w_kind : Finding.kind f = Finding.Suspicious ∨ Finding.kind f = Finding.Heuristic;
  w_confidence : Finding.confidence f = Finding.CLow ∨ Finding.confidence f = Finding.CMedium;
  w_category : Finding.category f = Finding.Unknown;
  w_action : Finding.recommended_action f = Finding.Review;
  w_status : Finding.remediation_status f = Finding.NotAttempted;
  w_target : Finding.target f = t }.

Section Weak.
Context `{RL : RegexLib, OL : ObjectLib, FL : Floats}.
Context (version : string) (fresh : nat → string) (clock : nat → Z).

Definition all_weak (t : Finding.FindingTarget) (o : Out) : Prop := o_target o = t ∧ Forall (weak t) (o_findings o).

Lemma add_weak t r evidence o :
  weak_rule r → all_weak t o → all_weak t (add version fresh clock r evidence o).
Proof.
  intros [Hk Hc] [Ht Hf]. split; [done|]. apply Forall_app. split; [done|]. constructor; [|done]. by constructor.
Qed.

Lemma add_if_weak t c r e o : weak_rule r → all_weak t o → all_weak t (add_if version fresh clock c r e o).
Proof. intros. destruct c; [by apply add_weak|done]. Qed.

Lemma add_some_weak t c r o : weak_rule r → all_weak t o → all_weak t (add_some version fresh clock c r o).
Proof. intros. destruct c; [by apply add_weak|done]. Qed.

Lemma foldl_weak {A} t (f : Out → A → Out) (l : list A) o :
  (∀ o x, all_weak t o → all_weak t (f o x)) → all_weak t o → all_weak t (foldl f o l).
Proof. intros Hf. revert o. induction l as [|x l IH]; intros o Ho; [done|]. apply IH, Hf, Ho. Qed.

(** Every rule of the catalogue is weak. *)
Ltac weak_rules :=
  repeat first [ apply add_if_weak | apply add_some_weak | apply add_weak | apply foldl_weak; [intros ? ?|] ];
  try (split; [first [by left|by right]|first [by left|by right]]).

Lemma pe_rules_weak t data o : all_weak t o → all_weak t (pe_rules version fresh clock data o).
Proof.
  intros Ho. unfold pe_rules. destruct (Pe.analyze data) as [facts|e]; [|by weak_rules]. simpl.
  destruct (Pe.embedded_pe_at facts); by weak_rules.
Qed.

Lemma elf_rules_weak t data o : all_weak t o → all_weak t (elf_rules version fresh clock data o).
Proof. intros Ho. unfold elf_rules. destruct (Elf.analyze data) as [f|e]; [|done]. by weak_rules. Qed.

Lemma script_rules_weak t name data o : all_weak t o → all_weak t (script_rules version fresh clock name data o).
Proof.
  intros Ho. unfold script_rules. destruct (Script.blob _) as [[line n]|]; weak_rules; try done;
    destruct (_.1.1); weak_rules.
Qed.

Lemma name_rules_weak t f name p o : all_weak t o → all_weak t (name_rules version fresh clock f name p o).
Proof. intros Ho. unfold name_rules. by weak_rules. Qed.

Lemma analyze_weak name p data t deadline now drawn fs n :
  analyze version fresh clock name p data t deadline now drawn = (Ok fs, n) → Forall (weak t) fs.
Proof.
  unfold analyze. case_match; [done|]. intros [= <- _].
  assert (H0 : all_weak t (name_rules version fresh clock (format data) name p (mkOut t [] drawn)))
    by (apply name_rules_weak; by split).
  assert (H1 : all_weak t (content_rules version fresh clock (format data) name data
    (name_rules version fresh clock (format data) name p (mkOut t [] drawn)))).
  { unfold content_rules. repeat case_match; auto using pe_rules_weak, elf_rules_weak, script_rules_weak. }
  unfold add_multiple. apply add_if_weak; [|done]. by split; [left|right].
Qed.
End Weak.

(** *** ELF facts *)

Section Elf.
Import Elf.

Definition is_load (ph : ProgramHeader) : bool := p_type ph =? PT_LOAD.
Definition load_of (ph : ProgramHeader) : load :=
  mkLoad (p_vaddr ph) (p_memsz ph) (p_offset ph) (p_filesz ph) (has (p_flags ph) PF_X).
Definition is_rwx (ph : ProgramHeader) : bool :=
  is_load ph && has (p_flags ph) PF_W && has (p_flags ph) PF_X.

Lemma segments_fold s phdrs :
  let s' := foldl on_segment s phdrs in
  loads s' = loads s ++ (load_of <$> List.filter is_load phdrs) ∧
  rwx s' = rwx s + N.of_nat (length (List.filter is_rwx phdrs)).
Proof.
  revert s. induction phdrs as [|ph phdrs IH]; intros s; cbn [foldl List.filter].
  { split; [by rewrite app_nil_r|simpl; lia]. }
  destruct (IH (on_segment s ph)) as [-> ->]. clear IH. unfold on_segment, is_rwx, is_load.
  destruct (p_type ph =? PT_LOAD).
  - cbn [loads rwx fmap list_fmap andb]. rewrite <-app_assoc. split; [done|].
    destruct (has (p_flags ph) PF_W && has (p_flags ph) PF_X); simpl length; lia.
  - cbn [andb]. destruct (p_type ph =? PT_GNU_STACK); [done|]. destruct (p_type ph =? PT_INTERP).
    + by destruct (p_interpreter ph).
    + by destruct (p_type ph =? PT_DYNAMIC).
Qed.

(** The address lies in the memory of a loadable, executable segment. *)
Definition in_executable (phdrs : list ProgramHeader) (a : N) : Prop :=
  ∃ ph, ph ∈ phdrs ∧ p_type ph = PT_LOAD ∧ has (p_flags ph) PF_X = true ∧
    p_vaddr ph ≤ a < N.min (p_vaddr ph + p_memsz ph) u64_max.

Lemma elem_of_filter_bool {A} (f : A → bool) l x : x ∈ List.filter f l ↔ f x = true ∧ x ∈ l.
Proof. rewrite !list_elem_of_In, List.filter_In. tauto. Qed.

Lemma entry_in_executable phdrs a :
  existsb (λ l, exec l && within_load memsz a l) (load_of <$> List.filter is_load phdrs) = true ↔ in_executable phdrs a.
Proof.
  rewrite existsb_exists. unfold in_executable. split.
  - intros (l & (ph & -> & [Hl Hin]%elem_of_filter_bool)%list_elem_of_In%list_elem_of_fmap & Hx).
    unfold within_load, saturating_add64 in Hx. simpl in Hx. reflect_bools. exists ph.
    unfold is_load in Hl. reflect_bools. by split_and!.
  - intros (ph & Hin & Hl & Hx & Hlo & Hhi). exists (load_of ph). split.
    + apply list_elem_of_In, list_elem_of_fmap. exists ph. split; [done|]. apply elem_of_filter_bool.
      unfold is_load. by rewrite Hl.
    + unfold within_load, saturating_add64. simpl. rewrite Hx. simpl.
      by rewrite (proj2 (N.leb_le _ _) Hlo), (proj2 (N.ltb_lt _ _) Hhi).
Qed.

(** A search path the file names: an entry of one of the [paths]. *)
Definition named_entry (data : bytes) (base strsz : N) (paths : list N) (e : string) : Prop :=
  ∃ p, p ∈ paths ∧ p < strsz ∧ wrapping_add64 base p ≤ vlen data ∧
    e ∈ split_on ":"%char (lossy (takeN 4096 (until_nul (drop (N.to_nat (wrapping_add64 base p)) data)))).

Definition shown_entry (e : string) : string := if bool_decide (e = ""%string) then "(empty: current directory)" else e.

Lemma add_entry_spec acc e x :
  x ∈ add_entry acc e ↔ x ∈ acc ∨ (is_unsafe_entry e = true ∧ x = shown_entry e ∧ (e ∉ acc)).
Proof.
  unfold add_entry, shown_entry. pose proof (among_spec acc e). destruct (is_unsafe_entry e), (among acc e);
    simpl; rewrite ?elem_of_app, ?list_elem_of_singleton; naive_solver.
Qed.

Lemma add_entries_spec acc es x :
  x ∈ foldl add_entry acc es →
  x ∈ acc ∨ ∃ e, e ∈ es ∧ is_unsafe_entry e = true ∧ x = shown_entry e.
Proof.
  revert acc. induction es as [|e es IH]; intros acc; cbn [foldl]; [by left|].
  intros [[?|(? & -> & _)]%add_entry_spec|(e' & ? & ? & ->)]%IH; [by left|right|right].
  - exists e. split; [by left|done].
  - exists e'. split; [by right|done].
Qed.

Lemma shown_entry_nonempty e : shown_entry e ≠ ""%string.
Proof. unfold shown_entry. by case_bool_decide. Qed.

(** The list only grows, keeps every unsafe entry it is given, and never holds
    the empty text. *)
Lemma add_entries_complete acc es :
  (""%string ∉ acc) →
  (""%string ∉ foldl add_entry acc es) ∧ (∀ x, x ∈ acc → x ∈ foldl add_entry acc es) ∧
  ∀ e, e ∈ es → is_unsafe_entry e = true → shown_entry e ∈ foldl add_entry acc es.
Proof.
  revert acc. induction es as [|e es IH]; intros acc Hne; cbn [foldl].
  { split_and!; [done|done|]. by intros e ?%elem_of_nil. }
  destruct (IH (add_entry acc e)) as (H1 & H2 & H3).
  { intros [?|(_ & Heq & _)]%add_entry_spec; [done|]. by apply (shown_entry_nonempty e). }
  split_and!; [done|intros x Hx; apply H2, add_entry_spec; by left|].
  intros e' [->|He]%elem_of_cons Hu; [|by apply H3]. apply H2, add_entry_spec.
  destruct (decide (e ∈ acc)) as [Hin|Hin]; [left|by right].
  unfold shown_entry. rewrite bool_decide_eq_false_2; [done|]. by intros ->.
Qed.

Lemma add_paths_spec data base strsz acc ps :
  (""%string ∉ acc) →
  (""%string ∉ foldl (add_path data base strsz) acc ps) ∧
  ∀ x, x ∈ foldl (add_path data base strsz) acc ps ↔
    x ∈ acc ∨ ∃ e, named_entry data base strsz ps e ∧ is_unsafe_entry e = true ∧ x = shown_entry e.
Proof.
  revert acc. induction ps as [|p ps IH]; intros acc Hne; cbn [foldl].
  { split; [done|]. intros x. split; [by left|]. intros [?|(e & (p & []%elem_of_nil & _) & _)]. done. }
  assert (Hstep : (""%string ∉ add_path data base strsz acc p) ∧
    ∀ x, x ∈ add_path data base strsz acc p ↔
      x ∈ acc ∨ ∃ e, named_entry data base strsz [p] e ∧ is_unsafe_entry e = true ∧ x = shown_entry e).
  { unfold add_path, named_entry. setoid_rewrite list_elem_of_singleton.
    destruct (N.leb_spec strsz p); [split; [done|]; naive_solver lia|].
    destruct (N.ltb_spec (vlen data) (wrapping_add64 base p)); [split; [done|]; naive_solver lia|].
    destruct (add_entries_complete acc (split_on ":"%char (lossy (takeN 4096 (until_nul
      (drop (N.to_nat (wrapping_add64 base p)) data))))) Hne) as (H1 & H2 & H3).
    split; [done|]. intros x. split.
    - intros [?|(e & He & Hu & ->)]%add_entries_spec; [by left|right]. exists e. split_and!; [|done..]. by exists p.
    - intros [?|(e & (p' & -> & _ & _ & He) & Hu & ->)]; [by apply H2|by apply H3]. }
  destruct Hstep as [Hne' Hx]. destruct (IH _ Hne') as [H1 H2]. split; [done|]. intros x. rewrite H2, Hx.
  unfold named_entry. setoid_rewrite list_elem_of_singleton. setoid_rewrite elem_of_cons. split.
  - intros [[?|(e & (p' & -> & Hr) & Hu)]|(e & (p' & Hp & Hr) & Hu)]; [by left|right; exists e..]; (split; [|done]);
      eexists; (split; [|done]); auto.
  - intros [?|(e & (p' & [->|Hp] & Hr) & Hu)]; [by left; left|left; right|right]; exists e; (split; [|done]); by eexists.
Qed.

(** The string table and the search paths of the last dynamic segment. *)
Definition dynamic_table (phdrs : list ProgramHeader) : option (N * N * list N) :=
  entries ← last (List.filter (λ ph, p_type ph =? PT_DYNAMIC) phdrs) ≫= p_dynamic;
  let '(strtab, strsz, paths) := on_dynamic (takeN 4096 entries) None 0 [] in
  base ← strtab ≫= file_off (load_of <$> List.filter is_load phdrs);
  Some (base, strsz, paths).

Lemma dynamic_fold s phdrs :
  dynamic (foldl on_segment s phdrs) =
    match last (List.filter (λ ph, p_type ph =? PT_DYNAMIC) phdrs) with
    | Some ph => p_dynamic ph
    | None => dynamic s
    end.
Proof.
  revert s. induction phdrs as [|ph phdrs IH]; intros s; cbn [foldl List.filter]; [done|]. rewrite IH. clear IH.
  destruct (N.eqb_spec (p_type ph) PT_DYNAMIC) as [He|He].
  - rewrite last_cons. destruct (last _); [done|]. unfold on_segment. rewrite He. done.
  - destruct (last _); [done|]. unfold on_segment. rewrite (proj2 (N.eqb_neq _ _) He).
    destruct (p_type ph =? PT_LOAD), (p_type ph =? PT_GNU_STACK), (p_type ph =? PT_INTERP); try done.
    by destruct (p_interpreter ph).
Qed.

(** What the ELF analysis says of a file is exact: the number of loadable
    segments that are writable and executable; an entry point outside the code
    exactly when a program with loadable segments has one and no executable
    segment contains it; and, of the search paths of the dynamic segment
    (found through the loaded string table), exactly the unsafe entries. *)
Theorem elf_facts_exact data h phdrs :
  let f := facts_of data h phdrs in
  rwx_segments f = N.of_nat (length (List.filter is_rwx phdrs)) ∧
  (is_Some (entry_outside_code f) ↔
     executable f = true ∧ e_entry h ≠ 0 ∧ (∃ ph, ph ∈ phdrs ∧ p_type ph = PT_LOAD) ∧
     ¬ in_executable phdrs (e_entry h)) ∧
  match dynamic_table phdrs with
  | Some (base, strsz, paths) => ∀ x, x ∈ unsafe_rpath f ↔
      ∃ e, named_entry data base strsz paths e ∧ is_unsafe_entry e = true ∧ x = shown_entry e
  | None => unsafe_rpath f = []
  end.
Proof.
  destruct (segments_fold start phdrs) as [Hl Hr]. simpl in Hl, Hr. split_and!; [exact Hr|..].
  - unfold facts_of. cbn [entry_outside_code executable]. rewrite Hl. unfold entry_fact.
    pose proof (entry_in_executable phdrs (e_entry h)) as Hin.
    generalize ((e_type h =? ET_EXEC) || (e_type h =? ET_DYN)) as ex. intros ex. split.
    + intros [m Hm]. destruct ex; [|done]. destruct (N.eqb_spec (e_entry h) 0); [done|].
      case_bool_decide as Hne; [done|]. simpl in Hm. destruct (existsb _ _); [done|]. split_and!; [done|done| |].
      * destruct (List.filter is_load phdrs) as [|ph l] eqn:Hf; [done|]. exists ph.
        assert (Hp : ph ∈ List.filter is_load phdrs) by (rewrite Hf; by left).
        apply elem_of_filter_bool in Hp as [Hp ?]. by apply N.eqb_eq in Hp.
      * intros ?%Hin. congruence.
    + intros (-> & He & (ph & Hph & Ht) & Hn). rewrite (proj2 (N.eqb_neq _ _) He). simpl.
      rewrite bool_decide_eq_false_2; simpl.
      * destruct (existsb _ _); [|by eexists]. by destruct Hn; apply Hin.
      * intros Hnil%fmap_nil_inv. assert (Hp : ph ∈ List.filter is_load phdrs)
          by (apply elem_of_filter_bool; unfold is_load; by rewrite Ht).
        rewrite Hnil in Hp. by apply elem_of_nil in Hp.
  - unfold facts_of, dynamic_table, rpath_facts. cbn [unsafe_rpath]. rewrite dynamic_fold, Hl.
    destruct (last _) as [ph|]; [|done]. simpl. destruct (p_dynamic ph) as [entries|]; [|done]. simpl.
    destruct (on_dynamic _ _ _ _) as [[strtab strsz] paths]. destruct (strtab ≫= _) as [base|]; [|done]. simpl.
    intros x. rewrite (proj2 (add_paths_spec data base strsz [] paths ltac:(by intros ?%elem_of_nil))).
    split; [intros [?%elem_of_nil|?]; done|by right].
Qed.

(** An empty entry of a search path is compared with what was recorded under
    another text, so it is recorded every time: [n] paths that name the same
    [k] colons give [n * (k + 1)] entries, and a file may have 4096 of each. *)
Theorem empty_entries_pile_up n k (Hk : (k < 4096)%nat) :
  length (foldl (add_path (repeat 58 k ++ [0]) 0 1) [] (repeat 0 n)) = (n * S k)%nat.
Proof.
  assert (Htext : split_on ":"%char (lossy (takeN 4096 (until_nul (drop 0 (repeat 58 k ++ [0]))))) =
                  repeat ""%string (S k)).
  { rewrite drop_0. assert (Hn : until_nul (repeat 58 k ++ [0]) = repeat 58 k).
    { clear Hk. induction k as [|k IH]; [done|]. simpl. by rewrite IH. }
    rewrite Hn, takeN_take, take_ge by (rewrite repeat_length; lia). unfold lossy.
    rewrite decode_lossy_ascii by (apply Forall_forall; intros b Hb; apply list_elem_of_In, repeat_spec in Hb; subst; done).
    clear Hn Hk. unfold of_chars. induction k as [|k IH]; [done|].
    change (repeat 58 (S k)) with ([58] ++ repeat 58 k). rewrite encode_app, of_bytes_app. cbn [repeat]. cbn [repeat] in IH.
    rewrite <-IH. done. }
  assert (Hadd : ∀ acc m, (""%string ∉ acc) →
    (""%string ∉ foldl add_entry acc (repeat ""%string m)) ∧
    length (foldl add_entry acc (repeat ""%string m)) = (length acc + m)%nat).
  { intros acc m Hacc. split; [by apply add_entries_complete|]. revert acc Hacc.
    induction m as [|m IH]; intros acc Hacc; cbn [repeat foldl]; [lia|].
    assert (He : add_entry acc "" = acc ++ ["(empty: current directory)"%string]).
    { unfold add_entry. destruct (among acc "") eqn:Ha; [by apply among_spec in Ha|done]. }
    rewrite He, IH; [rewrite length_app; simpl; lia|]. rewrite elem_of_app, list_elem_of_singleton. naive_solver. }
  assert (Hgo : ∀ acc, (""%string ∉ acc) →
    length (foldl (add_path (repeat 58 k ++ [0]) 0 1) acc (repeat 0 n)) = (length acc + n * S k)%nat).
  { induction n as [|n IH]; intros acc Hacc; cbn [repeat foldl]; [lia|].
    assert (Hp : add_path (repeat 58 k ++ [0]) 0 1 acc 0 = foldl add_entry acc (repeat ""%string (S k))).
    { unfold add_path. change (1 <=? 0) with false. change (wrapping_add64 0 0) with 0.
      destruct (N.ltb_spec (vlen (repeat 58 k ++ [0])) 0); [lia|]. cbn iota.
      change (N.to_nat 0) with 0%nat. by rewrite Htext. }
    destruct (Hadd acc (S k) Hacc) as [H1 H2]. rewrite Hp, IH by done. rewrite H2. lia. }
  rewrite Hgo; [done|]. by intros ?%elem_of_nil.
Qed.
End Elf.

(** *** PE images after the end of a program *)

Section Pe.
Import Pe.

(** An MZ header at [a] whose PE header lies within the data. *)
Definition image_at (data : bytes) (a : N) : Prop :=
  a ≤ vlen data ∧
  let d := drop (N.to_nat a) data in
  let lfanew := from_le (take 4 (drop 60 d)) in
  64 ≤ vlen d ∧ bytes_start_with d "MZ" = true ∧ 64 ≤ lfanew < 1048576 ∧ get_range d lfanew 4 = Some [80; 69; 0; 0].

Lemma pe_header_at_spec data a : pe_header_at data a = true ↔ image_at data a.
Proof.
  unfold pe_header_at, image_at. change (N.shiftl 1 20) with 1048576.
  destruct (N.ltb_spec (vlen data) a); [split; [done|lia]|].
  set (d := drop (N.to_nat a) data). destruct (N.ltb_spec (vlen d) 64); simpl; [split; [done|lia]|].
  destruct (bytes_start_with d "MZ"); simpl; [|split; [done|naive_solver]].
  rewrite !andb_true_iff, N.leb_le, N.ltb_lt, bool_decide_eq_true. tauto.
Qed.

(** The octets of the certificate table. *)
Definition in_signature (ss sl a : N) : Prop := 0 < sl ∧ ss ≤ a < ss + sl.

Definition candidate (data : bytes) (start ss sl a : N) : Prop :=
  start ≤ a ∧ image_at data a ∧ ¬ in_signature ss sl a.

Lemma mz_positions_spec pos l a :
  a ∈ mz_positions pos l ↔ ∃ i, a = pos + N.of_nat i ∧ (i < length l)%nat ∧ bytes_start_with (drop i l) "MZ" = true.
Proof.
  revert pos. induction l as [|b l IH]; intros pos; cbn [mz_positions].
  { split; [by intros ?%elem_of_nil|]. intros (i & _ & Hi & _). simpl in Hi. lia. }
  assert (Hrest : a ∈ mz_positions (pos + 1) l ↔
    ∃ i, a = pos + N.of_nat (S i) ∧ (S i < length (b :: l))%nat ∧ bytes_start_with (drop (S i) (b :: l)) "MZ" = true).
  { rewrite IH. cbn [length drop]. split; intros (i & -> & Hi & Hs); exists i; (split_and!; [lia|lia|done]). }
  destruct (bytes_start_with (b :: l) "MZ") eqn:Hb.
  - rewrite elem_of_cons, Hrest. split.
    + intros [->|(i & ?)]; [exists 0%nat|by exists (S i)]. simpl. split_and!; [lia|lia|done].
    + intros ([|i] & -> & Hi & Hs); [left; simpl; lia|right; by exists i].
  - rewrite Hrest. split; [intros (i & ?); by exists (S i)|]. intros ([|i] & -> & Hi & Hs); [|by exists i].
    rewrite drop_0 in Hs. congruence.
Qed.

Lemma mz_positions_sorted pos l : Sorted.StronglySorted N.lt (mz_positions pos l).
Proof.
  revert pos. induction l as [|b l IH]; intros pos; cbn [mz_positions]; [constructor|].
  case_match; [|apply IH]. constructor; [apply IH|]. apply Forall_forall. intros a (i & -> & _)%mz_positions_spec. lia.
Qed.

(** [List.find] in a sorted list finds the least element that satisfies the
    test. *)
Lemma find_least (f : N → bool) l a :
  Sorted.StronglySorted N.lt l → List.find f l = Some a → f a = true ∧ a ∈ l ∧ ∀ b, b ∈ l → b < a → f b = false.
Proof.
  induction 1 as [|x l Hl IH Hx]; simpl; [done|]. destruct (f x) eqn:Hf.
  - intros [= ->]. split_and!; [done|by left|]. intros b [->|Hb]%elem_of_cons Hlt; [lia|].
    rewrite Forall_forall in Hx. specialize (Hx _ Hb). lia.
  - intros (Ha & Hin & Hmin)%IH. split_and!; [done|by right|]. intros b [->|Hb]%elem_of_cons Hlt; [done|by apply Hmin].
Qed.

Definition window (data : bytes) (start : N) : bytes := takeN (N.shiftl 64 20) (drop (N.to_nat start) data).

Lemma embedded_fact_eq data start ss sl :
  start < vlen data →
  embedded_fact data start ss sl =
    List.find (λ a, negb ((0 <? sl) && (ss <=? a) && (a <? ss + sl)) && pe_header_at data a)
      (takeN 4096 (mz_positions start (window data start))).
Proof.
  intros Hlt. unfold embedded_fact. rewrite (proj2 (N.leb_gt _ _) Hlt). f_equal. rewrite !takeN_take, fmap_take. f_equal.
  assert (Hp : ∀ l pos, (λ p, start + p) <$> mz_positions pos l = mz_positions (start + pos) l).
  { induction l as [|b l IH]; intros pos; cbn [mz_positions]; [done|].
    case_match; csimpl; by rewrite IH, N.add_assoc. }
  unfold window. by rewrite Hp, N.add_0_r, takeN_take.
Qed.

Lemma image_starts_mz data a : image_at data a → bytes_start_with (drop (N.to_nat a) data) "MZ" = true.
Proof. by intros (_ & _ & ? & _). Qed.

(** A candidate within the window is among the positions searched. *)
Lemma candidate_position data start ss sl a :
  candidate data start ss sl a → vlen (drop (N.to_nat start) data) ≤ N.shiftl 64 20 →
  a ∈ mz_positions start (window data start).
Proof.
  intros (Hle & Him & _) Hw. apply mz_positions_spec. unfold window. rewrite takeN_take, take_ge by (unfold vlen in *; lia).
  pose proof (image_starts_mz _ _ Him) as Hmz. destruct Him as (Hlen & H64 & _).
  exists (N.to_nat (a - start)). unfold vlen in *. rewrite length_drop in *. split_and!; [lia|lia|].
  rewrite drop_drop. by replace (N.to_nat start + N.to_nat (a - start))%nat with (N.to_nat a) by lia.
Qed.

Lemma not_in_signature ss sl a :
  negb ((0 <? sl) && (ss <=? a) && (a <? ss + sl)) = true ↔ ¬ in_signature ss sl a.
Proof. unfold in_signature. rewrite negb_true_iff, !andb_false_iff, N.ltb_ge, N.leb_gt, N.ltb_ge. lia. Qed.

(** The embedded program a PE file is reported for exists: the offset is
    past the last section, outside the certificate table, and starts an MZ
    header whose PE header lies within the file; it is the first of its kind.
    And none is missed in an overlay of at most 64 MiB with at most 4096 MZ
    marks. *)
Theorem embedded_executable_exact data start ss sl :
  (∀ a, embedded_fact data start ss sl = Some a → candidate data start ss sl a) ∧
  (vlen (drop (N.to_nat start) data) ≤ N.shiftl 64 20 →
   (length (mz_positions start (window data start)) ≤ 4096)%nat →
   match embedded_fact data start ss sl with
   | Some a => ∀ b, candidate data start ss sl b → a ≤ b
   | None => ∀ b, ¬ candidate data start ss sl b
   end).
Proof.
  destruct (N.leb_spec (vlen data) start) as [Hge|Hlt].
  { assert (He : embedded_fact data start ss sl = None)
      by (unfold embedded_fact; by rewrite (proj2 (N.leb_le _ _) Hge)).
    rewrite He. split; [done|]. intros _ _ b (Hb & (Hlen & H64 & _) & _). unfold vlen in *. rewrite length_drop in H64. lia. }
  rewrite embedded_fact_eq by done. set (f := λ a, negb _ && pe_header_at data a). rewrite takeN_take.
  assert (Hf : ∀ a, f a = true ↔ ¬ in_signature ss sl a ∧ image_at data a).
  { intros a. unfold f. by rewrite andb_true_iff, not_in_signature, pe_header_at_spec. }
  split.
  - intros a Ha. apply List.find_some in Ha as [Hin%list_elem_of_In Hfa%Hf].
    apply (subseteq_take (N.to_nat 4096)), mz_positions_spec in Hin as (i & -> & _).
    split_and!; [lia|tauto|tauto].
  - intros Hw Hm. rewrite take_ge by lia. destruct (List.find f _) as [a|] eqn:Ha.
    + apply find_least in Ha as (_ & _ & Hmin); [|apply mz_positions_sorted]. intros b Hb.
      destruct (N.le_gt_cases a b) as [|Hba]; [done|]. pose proof (candidate_position _ _ _ _ _ Hb Hw) as Hin.
      specialize (Hmin b Hin Hba). destruct Hb as (_ & Him & Hns). by rewrite (proj2 (Hf b)) in Hmin.
    + intros b Hb. pose proof (candidate_position _ _ _ _ _ Hb Hw) as Hin%list_elem_of_In.
      pose proof (List.find_none _ _ Ha _ Hin) as Hn. destruct Hb as (_ & Him & Hns). by rewrite (proj2 (Hf b)) in Hn.
Qed.
End Pe.

(** *** The detector *)

Section Detector.
Context `{RL : RegexLib, OL : ObjectLib, FL : Floats}.

(** No heuristic finding is more than a suspicion, and none is acted on.
    Whatever the file and whatever the parsers answer, every finding of the
    detector is heuristic or suspicious, of low or medium confidence, asks for
    review, concerns the file inspected, and is refused by the automatic
    quarantine policy. *)
Theorem heuristics_never_certain version fresh clock now drawn o fs n
    (Hi : inspect_file version fresh clock now drawn o = (Scanner.Found fs, n)) :
  ∀ f, f ∈ fs → weak (Scanner.target o) f ∧ Policy.eligible f = false.
Proof.
  unfold inspect_file in Hi. destruct (Scanner.obs_content o) as [data|]; [|injection Hi as <- _; by intros f ?%elem_of_nil].
  destruct (subject o) as [name p]. destruct (analyze _ _ _ _ _ _ _ _ _ _) as [[fs'|] n'] eqn:Ha; [|done].
  injection Hi as <- _. apply analyze_weak in Ha. intros f Hf. rewrite Forall_forall in Ha.
  specialize (Ha f Hf). split; [done|]. unfold Policy.eligible, Policy.auto_quarantine_target.
  destruct Ha as [Hk _ _ _ _ _]. rewrite (bool_decide_eq_false_2 (Finding.kind f = Finding.KnownIndicator)).
  - simpl. by destruct (bool_decide _).
  - by destruct Hk as [-> | ->].
Qed.
End Detector.

(** ** Instances *)

(** No pattern matches, a file is a 64-bit ELF with one segment that is both
    writable and executable, and numbers are integers. *)
#[local] Instance no_regex : RegexLib :=
  {| Patterns.Regex := unit; Patterns.compile _ := None; Patterns.find _ _ := None |}.
Definition packed_elf : ElfHeader :=
  mkElf (Ok tt) (Ok [mkHeader 1 7 4096 4096 0 64 None None]) 2 8192 0 0.
#[local] Instance toy_object : ObjectLib :=
  {| file_kind _ := Ok Elf64; elf_header _ _ := Ok packed_elf; pe_file _ _ := Err "not a PE file"%string |}.
#[local] Instance toy_floats : Floats :=
  {| F := Z; f_of := Z.of_N; f_neg := Z.opp; f_mul := Z.mul; f_div := Z.div; f_log2 := Z.log2;
     f_sum l := foldr Z.add 0%Z l; f_ge a b := (b <=? a)%Z; f_fixed2 _ := "0.00"%string |}.

Definition elf_file : bytes := [0x7F; 69; 76; 70] ++ as_bytes "UPX!".
Definition sample_observation : Scanner.Observation :=
  Scanner.mkObs "/tmp/invoice.pdf" (Toy.digest elf_file) (Finding.Build_FileMetadata 8 None None) (Some elf_file) 10 None.
Definition show_id (n : nat) : string := show_N (N.of_nat n).
Definition sample_inspection : Scanner.inspection * nat :=
  Eval vm_compute in inspect_file "0.1.0" show_id (λ _, 5%Z) 1 0 sample_observation.
Definition sample_findings : list Finding :=
  Eval vm_compute in match sample_inspection.1 with Scanner.Found fs => fs | _ => [] end.

Lemma heuristics_never_certain_witness :
  (Finding.rule_id ∘ Finding.source <$> sample_findings) =
    (Some <$> ["AW-HEU-001"; "AW-HEU-040"; "AW-HEU-020"; "AW-HEU-022"; "AW-HEU-023"; "AW-HEU-025"; "AW-HEU-099"]%string) ∧
  ∀ f, f ∈ sample_findings → weak (Scanner.target sample_observation) f ∧ Policy.eligible f = false.
Proof.
  split; [by vm_compute|].
  assert (Hi : inspect_file "0.1.0" show_id (λ _, 5%Z) 1 0 sample_observation =
               (Scanner.Found sample_findings, sample_inspection.2)) by (vm_compute; reflexivity).
  exact (heuristics_never_certain "0.1.0" show_id (λ _, 5%Z) 1 0 sample_observation _ _ Hi).
Defined.
End HeuristicProps.
