(* ===== verification/Chars.v ===== *)
(** * Text as a list of characters

    The operations of [str] that the parsers of configuration files use, over
    the list of characters of a text (Utf8.v has [chars], [lines], [trim] and
    [split_whitespace]), with the facts that relate splitting and joining. *)

From S2P Require Import Prelude Utf8 Paths Core External AuditLog Heuristics.

Abbreviation text := (list N).

(** A literal of ASCII characters. *)
Definition lit (s : string) : text := as_bytes s.
Arguments lit s%_string_scope : simpl never.

(** [s == "..."], [["..", ".."].contains(&s)] *)
Definition is_lit (l : text) (s : string) : bool := bool_decide (l = lit s).
Arguments is_lit l s%_string_scope.
Definition among_lits (ls : list string) (l : text) : bool := existsb (is_lit l) ls.

(** [s.starts_with("..")], [s.ends_with("..")], [s.strip_prefix("..")],
    [s.strip_suffix("..")], [s.contains("..")] *)
Definition starts (l : text) (p : string) : bool := Anchors.list_starts_with (lit p) l.
Arguments starts l p%_string_scope.
Definition ends (l : text) (p : string) : bool := Anchors.list_starts_with (reverse (lit p)) (reverse l).
Arguments ends l p%_string_scope.
Definition after_prefix (p : string) (l : text) : option text :=
  if starts l p then Some (drop (length (lit p)) l) else None.
Arguments after_prefix p%_string_scope l.
Definition before_suffix (p : string) (l : text) : option text :=
  if ends l p then Some (take (length l - length (lit p)) l) else None.
Arguments before_suffix p%_string_scope l.
Definition has_text (l : text) (p : string) : bool := bool_decide (is_Some (Anchors.find_from (lit p) l)).
Arguments has_text l p%_string_scope.

(** [s.split_once(f)], [s.rsplit_once(f)], [s.split(f)], [s.splitn(n, f)]
    with a predicate on characters. *)
Fixpoint split_at (f : N → bool) (l : text) : option (text * text) :=
  match l with
  | [] => None
  | c :: l => if f c then Some ([], l) else '(a, b) ← split_at f l; Some (c :: a, b)
  end.
Fixpoint rsplit_at (f : N → bool) (l : text) : option (text * text) :=
  match l with
  | [] => None
  | c :: l =>
      match rsplit_at f l with
      | Some (a, b) => Some (c :: a, b)
      | None => if f c then Some ([], l) else None
      end
  end.
Fixpoint split (f : N → bool) (l : text) : list text :=
  match l with
  | [] => [[]]
  | c :: l =>
      if f c then [] :: split f l
      else match split f l with h :: t => (c :: h) :: t | [] => [[c]] end
  end.
Fixpoint splitn (n : nat) (f : N → bool) (l : text) : list text :=
  match n with
  | O => []
  | S O => [l]
  | S n => match split_at f l with Some (a, b) => a :: splitn n f b | None => [l] end
  end.

(** [s.rsplit(c).next()] and [s.split(f).next()]: the last and the first
    piece. *)
Definition last_piece (f : N → bool) (l : text) : text :=
  match rsplit_at f l with Some (_, b) => b | None => l end.
Definition first_piece (f : N → bool) (l : text) : text :=
  match split_at f l with Some (a, _) => a | None => l end.

(** [s.trim_start_matches(f)], [s.trim_end_matches(f)], [s.trim_matches(f)] *)
Fixpoint skip_while (f : N → bool) (l : text) : text :=
  match l with [] => [] | c :: r => if f c then skip_while f r else l end.
Definition trim_end_while (f : N → bool) (l : text) : text := reverse (skip_while f (reverse l)).
Definition trim_while (f : N → bool) (l : text) : text := trim_end_while f (skip_while f l).

(** [s.trim_end_matches("..")]: the suffix is removed as often as it occurs. *)
Fixpoint drop_prefixes (fuel : nat) (p l : text) : text :=
  match fuel with
  | O => l
  | S fuel => if Anchors.list_starts_with p l then drop_prefixes fuel p (drop (length p) l) else l
  end.
Definition trim_end_lit (p : string) (l : text) : text :=
  reverse (drop_prefixes (length l) (reverse (lit p)) (reverse l)).
Arguments trim_end_lit p%_string_scope l.

(** [s.find(f)]: the text before and from the first such character. *)
Fixpoint break_at (f : N → bool) (l : text) : option (text * text) :=
  match l with
  | [] => None
  | c :: r => if f c then Some ([], l) else '(a, b) ← break_at f r; Some (c :: a, b)
  end.

(** [v.join("..")] *)
Fixpoint join_with (sep : text) (ls : list text) : text :=
  match ls with [] => [] | [l] => l | l :: ls => l ++ sep ++ join_with sep ls end.

(** [s.parse::<u32>()], [s.parse::<u64>()] *)
Definition parse_u32 (l : text) : option N := n ← parse_u64 l; if n <=? u32_max then Some n else None.

(** [v.contains(&x)] *)
Definition inside (l : list text) (x : text) : bool := existsb (λ y, bool_decide (y = x)) l.

Definition is_char (c : N) (x : N) : bool := x =? c.
Definition one_of (cs : string) (x : N) : bool := existsb (N.eqb x) (lit cs).
Arguments one_of cs%_string_scope x.

(** ** Facts *)

Lemma list_starts_with_app p l : Anchors.list_starts_with p (p ++ l) = true.
Proof. induction p as [|c p IH]; simpl; [done|]. by rewrite N.eqb_refl. Qed.

Lemma list_starts_with_inv p l : Anchors.list_starts_with p l = true → ∃ r, l = p ++ r.
Proof.
  revert l. induction p as [|c p IH]; intros [|d l]; simpl; try done; [by eexists|by eexists|].
  intros [->%N.eqb_eq [r ->]%IH]%andb_true_iff. by exists r.
Qed.

Lemma starts_app p l : starts (lit p ++ l) p = true.
Proof. apply list_starts_with_app. Qed.

Lemma after_prefix_app p l : after_prefix p (lit p ++ l) = Some l.
Proof. unfold after_prefix. by rewrite starts_app, drop_app_length. Qed.

(** Splitting where two texts were joined. *)
Lemma split_at_app f a c b :
  Forall (λ x, f x = false) a → f c = true → split_at f (a ++ c :: b) = Some (a, b).
Proof. induction 1 as [|x a Hx _ IH]; intros Hc; simpl; [by rewrite Hc|]. by rewrite Hx, IH. Qed.

Lemma split_at_None f l : Forall (λ x, f x = false) l → split_at f l = None.
Proof. induction 1 as [|x l Hx _ IH]; simpl; [done|]. by rewrite Hx, IH. Qed.

Lemma split_at_Some f l a b :
  split_at f l = Some (a, b) → ∃ c, l = a ++ c :: b ∧ f c = true ∧ Forall (λ x, f x = false) a.
Proof.
  revert a b. induction l as [|x l IH]; intros a b; simpl; [done|]. destruct (f x) eqn:Hx.
  - intros [= <- <-]. by exists x.
  - intros ([a' b'] & E & [= <- <-])%bind_Some. destruct (IH _ _ E) as (c & -> & Hc & Ha).
    exists c. split_and!; [done..|by constructor].
Qed.

Lemma rsplit_at_None f l : Forall (λ x, f x = false) l → rsplit_at f l = None.
Proof. induction 1 as [|x l Hx _ IH]; simpl; [done|]. by rewrite IH, Hx. Qed.

Lemma rsplit_at_app f a c b :
  Forall (λ x, f x = false) b → f c = true → rsplit_at f (a ++ c :: b) = Some (a, b).
Proof.
  intros Hb Hc. induction a as [|x a IH]; simpl; [by rewrite (rsplit_at_None _ _ Hb), Hc|by rewrite IH].
Qed.

Lemma break_at_app f a c b :
  Forall (λ x, f x = false) a → f c = true → break_at f (a ++ c :: b) = Some (a, c :: b).
Proof. induction 1 as [|x a Hx _ IH]; intros Hc; simpl; [by rewrite Hc|]. by rewrite Hx, IH. Qed.

Lemma break_at_none f l : Forall (λ x, f x = false) l → break_at f l = None.
Proof. induction 1 as [|x l Hx _ IH]; simpl; [done|]. by rewrite Hx, IH. Qed.

Lemma split_app f a c b :
  Forall (λ x, f x = false) a → f c = true → split f (a ++ c :: b) = a :: split f b.
Proof. induction 1 as [|x a Hx _ IH]; intros Hc; simpl; [by rewrite Hc|]. by rewrite Hx, IH. Qed.

Lemma split_one f l : Forall (λ x, f x = false) l → split f l = [l].
Proof. induction 1 as [|x l Hx _ IH]; simpl; [done|]. by rewrite Hx, IH. Qed.

(** Splitting what was joined with a character that none of the pieces has. *)
Lemma split_join f c ls :
  f c = true → Forall (Forall (λ x, f x = false)) ls → ls ≠ [] → split f (join_with [c] ls) = ls.
Proof.
  intros Hc H. induction H as [|l ls Hl Hls IH]; intros Hn; [done|].
  destruct ls as [|k ls]; [by apply split_one|].
  change (join_with [c] (l :: k :: ls)) with (l ++ c :: join_with [c] (k :: ls)).
  rewrite split_app by done. by rewrite IH.
Qed.

(** A text whose ends are not white space is its own trimming. *)
Definition trimmed (l : text) : Prop :=
  (∀ c, head l = Some c → is_whitespace c = false) ∧ (∀ c, last l = Some c → is_whitespace c = false).

Lemma trim_start_id l : (∀ c, head l = Some c → is_whitespace c = false) → trim_start l = l.
Proof. destruct l as [|c l]; simpl; [done|]. intros H. by rewrite (H c). Qed.

Lemma trim_id l : trimmed l → trim l = l.
Proof.
  intros [Hh Ht]. unfold trim. rewrite (trim_start_id l Hh), trim_start_id, reverse_involutive; [done|].
  intros c. rewrite head_reverse. apply Ht.
Qed.

Lemma trim_start_spaces a l :
  Forall (λ c, is_whitespace c = true) a → trim_start (a ++ l) = trim_start l.
Proof. induction 1 as [|c a Hc _ IH]; simpl; [done|]. by rewrite Hc. Qed.

Lemma trim_start_shorter l : (length (trim_start l) ≤ length l)%nat.
Proof. induction l as [|c l IH]; simpl; [done|]. case_match; simpl; lia. Qed.

Lemma no_space_trimmed l : Forall (λ c, is_whitespace c = false) l → trimmed l.
Proof.
  intros H. split; intros c Hc.
  - destruct l; simplify_eq/=. by inversion H.
  - apply last_Some_elem_of in Hc. by eapply Forall_forall in H.
Qed.

Lemma among_lits_spec ls l : among_lits ls l = true ↔ ∃ s, s ∈ ls ∧ l = lit s.
Proof.
  unfold among_lits. rewrite existsb_true. unfold is_lit. setoid_rewrite bool_decide_eq_true. done.
Qed.

Lemma inside_spec ls l : inside ls l = true ↔ l ∈ ls.
Proof.
  unfold inside. rewrite existsb_true. setoid_rewrite bool_decide_eq_true. naive_solver.
Qed.
#[export] Hint Resolve no_space_trimmed list_starts_with_app : warden.
