(* ===== verification/Sddl.v ===== *)
(** * Security descriptor strings

    winsec/src/sddl.rs: parsing of SDDL and who, besides trusted principals,
    may change an object. The code slices octets, so texts here are octets
    ([as_bytes]), and a slice inside a character panics. *)

From S2P Require Import Prelude Utf8 Paths Core External AuditLog Heuristics Chars.

(** ** sddl.rs *)
Module Sddl.

Definition SYSTEM : string := "S-1-5-18".
Definition ADMINISTRATORS : string := "S-1-5-32-544".
Definition TRUSTED_INSTALLER : string :=
  "S-1-5-80-956008885-3418522649-1831038044-1853292631-2271478464".
Definition OWNER_RIGHTS : string := "S-1-3-4".
Definition CREATOR_OWNER : string := "S-1-3-0".

(** A two-way table, looked up from its start. *)
Fixpoint lookup_text {A} (t : list (string * A)) (k : bytes) : option A :=
  match t with
  | [] => None
  | (a, v) :: t => if is_lit k a then Some v else lookup_text t k
  end.

Definition ALIASES : list (string * string) :=
  [("SY", SYSTEM); ("BA", ADMINISTRATORS); ("BU", "S-1-5-32-545"); ("BG", "S-1-5-32-546");
   ("PU", "S-1-5-32-547"); ("WD", "S-1-1-0"); ("AU", "S-1-5-11"); ("IU", "S-1-5-4");
   ("SU", "S-1-5-6"); ("NU", "S-1-5-2"); ("AN", "S-1-5-7"); ("LS", "S-1-5-19");
   ("NS", "S-1-5-20"); ("OW", OWNER_RIGHTS); ("CO", CREATOR_OWNER); ("CG", "S-1-3-1");
   ("AC", "S-1-15-2-1"); ("RC", "S-1-5-12"); ("PS", "S-1-5-10")]%string.
Definition alias (a : bytes) : option string := lookup_text ALIASES a.

Definition normalize_sid (s : bytes) : string :=
  match alias s with Some sid => sid | None => of_bytes (to_upper_byte <$> s) end.

Record Ace := mkAce { allow : bool; inherit_only : bool; mask : N; sid : string }.
Record Descriptor := mkDescriptor { owner : option string; protected : bool; dacl : option (list Ace) }.
Definition empty : Descriptor := mkDescriptor None false None.

(** [u32::from_str_radix(hex, 16)]: an optional [+], then digits, without
    overflow. *)
Fixpoint hex_digits (acc : N) (l : bytes) : option N :=
  match l with
  | [] => Some acc
  | c :: l =>
      v ← Digest.hex_value c;
      let acc := acc * 16 + v in
      if u32_max <? acc then None else hex_digits acc l
  end.
Definition from_str_radix16 (l : bytes) : option N :=
  match l with
  | [] => None
  | c :: r => if c =? 43 then match r with [] => None | _ => hex_digits 0 r end else hex_digits 0 l
  end.

Definition RIGHTS : list (string * N) :=
  [("GA", 0x10000000); ("GR", 0x80000000); ("GW", 0x40000000); ("GX", 0x20000000);
   ("RC", 0x00020000); ("SD", 0x00010000); ("WD", 0x00040000); ("WO", 0x00080000);
   ("RP", 0x10); ("WP", 0x20); ("CC", 0x1); ("DC", 0x2); ("LC", 0x4); ("SW", 0x8); ("LO", 0x80);
   ("DT", 0x40); ("CR", 0x100); ("FA", 0x001f01ff); ("FR", 0x00120089); ("FW", 0x00120116);
   ("FX", 0x001200a0); ("KA", 0x000f003f); ("KR", 0x00020019); ("KW", 0x00020006);
   ("KX", 0x00020019)]%string.

(** The loop over the pairs of octets. A pair that is not two whole
    characters is no entry of the table. *)
Fixpoint rights_pairs (m : N) (s : bytes) : option N :=
  match s with
  | a :: b :: s => r ← lookup_text RIGHTS [a; b]; rights_pairs (N.lor m r) s
  | _ => Some m
  end.

Definition rights (s : bytes) : option N :=
  match (match after_prefix "0x" s with Some h => Some h | None => after_prefix "0X" s end) with
  | Some hex => from_str_radix16 hex
  | None => if negb (N.even (vlen s)) then None else rights_pairs 0 s
  end.

Definition WRITE_RIGHTS : N :=
  foldr N.lor 0 [0x2; 0x4; 0x10; 0x40; 0x100; 0x00010000; 0x00040000; 0x00080000; 0x10000000; 0x40000000].

(** Why a parse ended: [None], or a slice inside a character. *)
Inductive stop := Unreadable | Panic.
#[export] Instance stop_eq_dec : EqDecision stop.
Proof. solve_decision. Defined.

(** [s.is_char_boundary(i)]; [&s[i..]] and [s.split_at(i)] panic where it
    does not hold. *)
Definition is_char_boundary (s : bytes) (i : nat) : bool :=
  match drop i s with c :: _ => negb (is_cont c) | [] => Nat.leb i (length s) end.
Definition slice_at (s : bytes) (i : nat) : result stop (bytes * bytes) :=
  if is_char_boundary s i then Ok (take i s, drop i s) else Err Panic.

Definition in_sid (c : N) : bool := is_ascii_digit c || (c =? 45) || (c =? 83).

Definition take_sid (s : bytes) : result stop (bytes * bytes) :=
  if starts s "S-" then
    match break_at (λ c, negb (in_sid c)) s with Some (a, b) => Ok (a, b) | None => Ok (s, []) end
  else slice_at s (Nat.min (length s) 2).

(** One ACE, between its parentheses. *)
Definition ace_type (f : bytes) : option bool :=
  if among_lits ["A"; "OA"; "XA"; "ZA"]%string f then Some true
  else if among_lits ["D"; "OD"; "XD"]%string f then Some false else None.

(** The list with the ACE, or no list as before: the rights are then not
    looked at. *)
Definition parse_ace (acl : option (list Ace)) (inner : bytes) : option (option (list Ace)) :=
  let f := split (is_char 59) inner in
  match f with
  | f0 :: f1 :: f2 :: _ :: _ :: f5 :: _ =>
      a ← ace_type f0;
      match acl with
      | Some l => m ← rights f2; Some (Some (l ++ [mkAce a (has_text f1 "IO") m (normalize_sid f5)]))
      | None => Some None
      end
  | _ => None
  end.

(** [while let Some(inner) = r.strip_prefix('(')]; [is_dacl] is
    [tag == "D:"], [acl] the list of [d.dacl], when there is one. Every turn
    removes two octets. *)
Fixpoint parse_aces (fuel : nat) (is_dacl : bool) (acl : option (list Ace)) (r : bytes)
    : option (option (list Ace) * bytes) :=
  match fuel, r with
  | S fuel, c :: inner =>
      if negb (c =? 40) then Some (acl, r)
      else
        '(ace, after) ← break_at (is_char 41) inner;
        acl ← (if is_dacl then parse_ace acl ace else Some acl);
        parse_aces fuel is_dacl acl (drop 1 after)
  | _, _ => Some (acl, r)
  end.

Definition flags_end (body : bytes) : nat :=
  match break_at (is_char 40) body with
  | Some (a, _) => length a
  | None => match break_at (is_char 58) body with
            | Some (a, _) => pred (length a)
            | None => length body
            end
  end.

(** The body of a [D:] or [S:] part. *)
Definition parse_acl (is_dacl : bool) (d : Descriptor) (body : bytes) : result stop (Descriptor * bytes) :=
  '(flags, r) ← slice_at body (flags_end body);
  let d :=
    if is_dacl
    then mkDescriptor (owner d) (has_text flags "P")
           (if has_text flags "NO_ACCESS_CONTROL" then None else Some [])
    else d in
  '(acl, r) ← ok_or (parse_aces (length r) is_dacl (dacl d) r) Unreadable;
  Ok (mkDescriptor (owner d) (protected d) acl, r).

(** [while !rest.is_empty()]: every turn removes the tag. *)
Fixpoint parse_parts (fuel : nat) (d : Descriptor) (rest : bytes) : result stop Descriptor :=
  match fuel with
  | O => Ok d
  | S fuel =>
      match rest with
      | [] => Ok d
      | a :: b :: body =>
          if is_lit [a; b] "O:" || is_lit [a; b] "G:" then
            '(sid, r) ← take_sid body;
            _ ← reject_if (bool_decide (sid = [])) Unreadable;
            let d := if is_lit [a; b] "O:" then mkDescriptor (Some (normalize_sid sid)) (protected d) (dacl d) else d in
            parse_parts fuel d r
          else if is_lit [a; b] "D:" || is_lit [a; b] "S:" then
            '(d, r) ← parse_acl (is_lit [a; b] "D:") d body;
            parse_parts fuel d r
          else Err Unreadable
      | _ => Err Unreadable
      end
  end.

Definition parse (sddl : string) : result stop Descriptor :=
  let rest := as_bytes (Names.trim_str sddl) in parse_parts (S (length rest)) empty rest.

(** [resolve] asks Windows for the SID of an alias. *)
Section Mapping.
Context (resolve : bytes → option bytes).

Definition alias_or (s : bytes) : bytes :=
  if bool_decide (length s = 2%nat) && forallb is_ascii_upper s then default s (resolve s) else s.

Definition map_fields (inner : bytes) : bytes :=
  let f := split (is_char 59) inner in
  join_with [59] (match f with
    | f0 :: f1 :: f2 :: f3 :: f4 :: f5 :: r => f0 :: f1 :: f2 :: f3 :: f4 :: alias_or f5 :: r
    | _ => f
    end).

(** The loop copies a part or a character at each turn. *)
Fixpoint map_parts (fuel : nat) (rest out : bytes) : result stop bytes :=
  match fuel with
  | O => Ok out
  | S fuel =>
      match rest with
      | [] => Ok out
      | c :: r =>
          if starts rest "O:" || starts rest "G:" then
            '(sid, r) ← take_sid (drop 2 rest);
            map_parts fuel r (out ++ take 2 rest ++ alias_or sid)
          else if c =? 40 then
            match break_at (is_char 41) r with
            | None => Ok (out ++ rest)
            | Some (inner, after) =>
                map_parts fuel (drop 1 after) (out ++ [40] ++ map_fields inner ++ [41])
            end
          else map_parts fuel r (out ++ [c])
      end
  end.

Definition map_sids (sddl : bytes) : result stop bytes := map_parts (length sddl) sddl [].
End Mapping.

(** Whom an ACE with effect grants some of [rights]. *)
Definition effective (d : Descriptor) (a : Ace) : string :=
  if bool_decide (sid a = OWNER_RIGHTS) then default OWNER_RIGHTS (owner d) else sid a.
Definition relevant (r : N) (a : Ace) : bool :=
  negb (negb (allow a) || inherit_only a || (N.land (mask a) r =? 0)).

Definition add_other (d : Descriptor) (r : N) (trusted : list string) (out : list string) (a : Ace)
    : list string :=
  if negb (relevant r a) then out
  else
    let e := effective d a in
    if negb (among trusted e) && negb (among out e) then out ++ [e] else out.

Definition normal (trusted : list string) : list string := (λ t, normalize_sid (as_bytes t)) <$> trusted.

Definition granted_to_others (d : Descriptor) (r : N) (trusted : list string) : list string :=
  match dacl d with
  | None => ["S-1-1-0"%string]
  | Some l => foldl (add_other d r (normal trusted)) [] l
  end.

Definition private_dacl (owner_sid : string) : string :=
  fmt "D:P(A;OICI;FA;;;SY)(A;OICI;FA;;;BA)(A;OICI;FA;;;{owner_sid})" [owner_sid].

(** Errors are their text; [None] for a panic. *)
Definition parsed (sddl : string) : option (result string Descriptor) :=
  match parse sddl with
  | Ok d => Some (Ok d)
  | Err Unreadable => Some (Err "unreadable security descriptor"%string)
  | Err Panic => None
  end.

Definition comma (l : list string) : string := of_bytes (join_with (lit ", ") (as_bytes <$> l)).

Definition private_descriptor (d : Descriptor) (trusted : list string) : result string unit :=
  _ ← reject_if (negb (protected d)) "the DACL inherits from the parent directory"%string;
  let others := granted_to_others d u32_max trusted in
  reject_if (negb (bool_decide (others = []))) (fmt "other principals have access: {}" [comma others]).
Definition check_private (sddl : string) (trusted : list string) : option (result string unit) :=
  (λ r, r ≫= λ d, private_descriptor d trusted) <$> parsed sddl.

Definition owner_rights_limited (d : Descriptor) : bool :=
  from_option (existsb (λ a, bool_decide (sid a = OWNER_RIGHTS) && negb (inherit_only a))) false (dacl d).

(** Those who can write, the owner included. *)
Definition writers (d : Descriptor) (trusted : list string) : list string :=
  let others := granted_to_others d WRITE_RIGHTS trusted in
  match owner d with
  | Some o =>
      if negb (owner_rights_limited d) && negb (among (normal trusted) o) && negb (among others o)
      then others ++ [fmt "{owner} (owner)" [o]] else others
  | None => others
  end.

Definition write_restricted (d : Descriptor) (trusted : list string) : result string unit :=
  let others := writers d trusted in
  reject_if (negb (bool_decide (others = []))) (fmt "writable by {}" [comma others]).
Definition check_write_restricted (sddl : string) (trusted : list string) : option (result string unit) :=
  (λ r, r ≫= λ d, write_restricted d trusted) <$> parsed sddl.

End Sddl.

(** ** What Windows means *)

(** Security descriptors as they are, the text that Windows writes for one
    (ConvertSecurityDescriptorToStringSecurityDescriptor, with owner, group
    and DACL; aliases that depend on the machine are resolved before), and the
    access check. Nothing here refers to the parser. *)
Module Access.

(** An entry of a DACL: type, flags (object and container inherit 1 and 2, no
    propagation 4, inherit only 8, inherited 16), access mask and SID. *)
Record Entry := mkEntry { grants : bool; flags : N; access : N; who : string }.
Record Object := mkObject {
  owned_by : option string;
  in_group : option string;
  is_protected : bool;
  auto_requested : bool;
  auto_inherited : bool;
  entries : option (list Entry) }.

Definition FILE_READ_DATA : N := 0x1.
Definition FILE_WRITE_DATA : N := 0x2.
Definition FILE_APPEND_DATA : N := 0x4.
Definition FILE_READ_EA : N := 0x8.
Definition FILE_WRITE_EA : N := 0x10.
Definition FILE_EXECUTE : N := 0x20.
Definition FILE_READ_ATTRIBUTES : N := 0x80.
Definition FILE_WRITE_ATTRIBUTES : N := 0x100.
Definition DELETE : N := 0x10000.
Definition READ_CONTROL : N := 0x20000.
Definition WRITE_DAC : N := 0x40000.
Definition WRITE_OWNER : N := 0x80000.
Definition SYNCHRONIZE : N := 0x100000.
Definition lors : list N → N := foldr N.lor 0.
Definition STANDARD_RIGHTS_REQUIRED : N := lors [DELETE; READ_CONTROL; WRITE_DAC; WRITE_OWNER].
Definition FILE_ALL_ACCESS : N := lors [STANDARD_RIGHTS_REQUIRED; SYNCHRONIZE; N.ones 9].
Definition FILE_GENERIC_WRITE : N :=
  lors [READ_CONTROL; SYNCHRONIZE; FILE_WRITE_DATA; FILE_APPEND_DATA; FILE_WRITE_EA; FILE_WRITE_ATTRIBUTES].

(** Rights by their names in the text: the nine of directory objects in the
    order of their bits, standard, generic, file and registry rights. *)
Definition right_names : list (string * N) :=
  (zip ["CC"; "DC"; "LC"; "SW"; "RP"; "WP"; "DT"; "LO"; "CR"]%string (N.shiftl 1 <$> [0; 1; 2; 3; 4; 5; 6; 7; 8])) ++
  [("SD", DELETE); ("RC", READ_CONTROL); ("WD", WRITE_DAC); ("WO", WRITE_OWNER);
   ("GA", N.shiftl 1 28); ("GX", N.shiftl 1 29); ("GW", N.shiftl 1 30); ("GR", N.shiftl 1 31);
   ("FA", FILE_ALL_ACCESS); ("FW", FILE_GENERIC_WRITE);
   ("FR", lors [READ_CONTROL; SYNCHRONIZE; FILE_READ_DATA; FILE_READ_EA; FILE_READ_ATTRIBUTES]);
   ("FX", lors [READ_CONTROL; SYNCHRONIZE; FILE_EXECUTE; FILE_READ_ATTRIBUTES]);
   ("KA", lors [STANDARD_RIGHTS_REQUIRED; N.ones 6]); ("KR", lors [READ_CONTROL; 0x1; 0x8; 0x10]);
   ("KW", lors [READ_CONTROL; 0x2; 0x4]); ("KX", lors [READ_CONTROL; 0x1; 0x8; 0x10])]%string.

(** SIDs by their aliases, from the authority and the numbers below it. *)
Definition sid_of (authority : string) (ids : list N) : string :=
  ("S-1-" +:+ authority +:+ String.concat "" ((λ n, "-" +:+ show_N n) <$> ids))%string.
Definition sid_names : list (string * string) :=
  [("WD", sid_of "1" [0]); ("CO", sid_of "3" [0]); ("CG", sid_of "3" [1]); ("OW", sid_of "3" [4]);
   ("NU", sid_of "5" [2]); ("IU", sid_of "5" [4]); ("SU", sid_of "5" [6]); ("AN", sid_of "5" [7]);
   ("PS", sid_of "5" [10]); ("AU", sid_of "5" [11]); ("RC", sid_of "5" [12]); ("SY", sid_of "5" [18]);
   ("LS", sid_of "5" [19]); ("NS", sid_of "5" [20]); ("BA", sid_of "5" [32; 544]); ("BU", sid_of "5" [32; 545]);
   ("BG", sid_of "5" [32; 546]); ("PU", sid_of "5" [32; 547]); ("AC", sid_of "15" [2; 1])]%string.

(** *** The text *)
Definition full_sid (s : string) : Prop :=
  ∃ r, as_bytes s = lit "S-" ++ r ∧ Forall (λ c, is_ascii_digit c = true ∨ c = 45) r.
Inductive writes_sid : string → bytes → Prop :=
  | sid_by_name a s : (a, s) ∈ sid_names → writes_sid s (lit a)
  | sid_in_full s : full_sid s → writes_sid s (as_bytes s).

(** Names, or a number in hexadecimal. *)
Inductive writes_mask : N → bytes → Prop :=
  | mask_by_names ns : Forall (λ n, n ∈ right_names) ns → writes_mask (lors (snd <$> ns)) (ns ≫= λ n, lit n.1)
  | mask_in_hex vs : vs ≠ [] → Forall (λ v, v < 16) vs → foldl (λ a v, a * 16 + v) 0 vs ≤ u32_max →
      writes_mask (foldl (λ a v, a * 16 + v) 0 vs) (lit "0x" ++ (Digest.hex_digit <$> vs)).

Definition when_set (b : bool) (t : string) : bytes := if b then lit t else [].
(** Windows writes the flags in the order of their bits. *)
Definition flags_text (f : N) : bytes :=
  when_set (N.testbit f 0) "OI" ++ when_set (N.testbit f 1) "CI" ++ when_set (N.testbit f 2) "NP"
  ++ when_set (N.testbit f 3) "IO" ++ when_set (N.testbit f 4) "ID".

Inductive writes_entry : Entry → bytes → Prop :=
  | entry_text e m s : writes_mask (access e) m → writes_sid (who e) s →
      writes_entry e (lit (if grants e then "A" else "D") ++ lit ";" ++ flags_text (flags e) ++ lit ";" ++ m ++ lit ";;;" ++ s).

Inductive writes_part (tag : string) : option string → bytes → Prop :=
  | part_absent : writes_part tag None []
  | part_sid s t : writes_sid s t → writes_part tag (Some s) (lit tag ++ t).

Definition control_text (o : Object) : bytes :=
  when_set (is_protected o) "P" ++ when_set (auto_requested o) "AR" ++ when_set (auto_inherited o) "AI".

(** An object without a DACL has no part for it, or one that says so. *)
Inductive writes_dacl (o : Object) : bytes → Prop :=
  | dacl_absent : entries o = None → writes_dacl o []
  | dacl_null : entries o = None → writes_dacl o (lit "D:" ++ control_text o ++ lit "NO_ACCESS_CONTROL")
  | dacl_entries es ts : entries o = Some es → Forall2 writes_entry es ts →
      writes_dacl o (lit "D:" ++ control_text o ++ (ts ≫= λ t, lit "(" ++ t ++ lit ")")).

Definition writes (o : Object) (sddl : string) : Prop :=
  ∃ a b c, as_bytes sddl = a ++ b ++ c ∧ writes_part "O:" (owned_by o) a ∧ writes_part "G:" (in_group o) b ∧
    writes_dacl o c.

(** *** The access check *)

(** For one right: generic rights of an entry are mapped to those of a file,
    the first entry that is not for children only and names one of the token's
    identifiers decides, an OWNER RIGHTS entry being for the owner, who may
    change the DACL unless there is such an entry; without a DACL everything
    is allowed. *)
Definition owner_rights : string := sid_of "3" [4].
Definition maps_to (m bit : N) : bool :=
  N.testbit m bit || (N.testbit m 28 && N.testbit FILE_ALL_ACCESS bit)
  || (N.testbit m 30 && N.testbit FILE_GENERIC_WRITE bit).

Definition applies (e : Entry) : bool := negb (N.testbit (flags e) 3).
Definition names (o : Object) (e : Entry) : string :=
  if bool_decide (who e = owner_rights) then default owner_rights (owned_by o) else who e.

Fixpoint decided (o : Object) (token : list string) (bit : N) (l : list Entry) : bool :=
  match l with
  | [] => false
  | e :: l =>
      if applies e && among token (names o e) && maps_to (access e) bit then grants e
      else decided o token bit l
  end.

Definition owner_limited (o : Object) : bool :=
  from_option (existsb (λ e, bool_decide (who e = owner_rights) && applies e)) false (entries o).
Definition implicit (o : Object) (token : list string) (bit : N) : bool :=
  from_option (among token) false (owned_by o) && negb (owner_limited o) && N.testbit WRITE_DAC bit.

Definition allowed (o : Object) (token : list string) (bit : N) : bool :=
  match entries o with
  | None => true
  | Some l => implicit o token bit || decided o token bit l
  end.

(** The rights that change a file or directory, or its security: write and
    append data, extended and plain attributes, delete a child, delete, change
    the DACL or the owner. *)
Definition write_bits : list N := [1; 2; 4; 6; 8; 16; 18; 19].

(** A principal none of whose identifiers is trusted. *)
Definition stranger (trusted token : list string) : Prop :=
  ∀ t, t ∈ token → t ∉ Sddl.normal trusted.
End Access.

(** ** Properties *)
Module SddlProps.
Import Sddl Access.

(** Whom the list of others holds. *)
Lemma add_other_spec d r trusted out a x :
  x ∈ add_other d r trusted out a ↔
  x ∈ out ∨ (relevant r a = true ∧ x = effective d a ∧ x ∉ trusted).
Proof.
  unfold add_other. destruct (relevant r a); simpl; [|naive_solver].
  destruct (among trusted (effective d a)) eqn:Ht; simpl.
  { apply among_spec in Ht. naive_solver. }
  apply among_false in Ht. destruct (among out (effective d a)) eqn:Ho; simpl.
  - apply among_spec in Ho. naive_solver.
  - rewrite elem_of_app, list_elem_of_singleton. naive_solver.
Qed.

Lemma others_spec d r trusted l out x :
  x ∈ foldl (add_other d r trusted) out l ↔
  x ∈ out ∨ Exists (λ a, relevant r a = true ∧ x = effective d a ∧ x ∉ trusted) l.
Proof.
  revert out. induction l as [|a l IH]; intros out; simpl; [by rewrite Exists_nil; tauto|].
  rewrite IH, add_other_spec, Exists_cons. tauto.
Qed.

Lemma nobody_granted d r trusted :
  granted_to_others d r trusted = [] ↔
  ∃ l, dacl d = Some l ∧ ∀ a, a ∈ l → relevant r a = true → effective d a ∈ normal trusted.
Proof.
  unfold granted_to_others. destruct (dacl d) as [l|]; [|naive_solver]. split.
  - intros E. exists l. split; [done|]. intros a Ha Hr.
    destruct (decide (effective d a ∈ normal trusted)); [done|].
    exfalso. eapply (not_elem_of_nil (effective d a)). rewrite <-E. apply others_spec. right.
    apply Exists_exists. by exists a.
  - intros (l' & [= <-] & Hl). apply elem_of_nil_inv.
    intros x [[]%elem_of_nil|(a & Ha & Hr & -> & Hx)%Exists_exists]%others_spec. by apply Hx, Hl.
Qed.

(** A mask that maps to a writing right has a bit of [WRITE_RIGHTS]. *)
Lemma maps_to_write m bit :
  bit ∈ write_bits → maps_to m bit = true → N.land m WRITE_RIGHTS ≠ 0.
Proof.
  intros Hb Hm. assert (∃ i, N.testbit m i = true ∧ N.testbit WRITE_RIGHTS i = true) as (i & Hi & Hw).
  { unfold maps_to in Hm. rewrite !orb_true_iff, !andb_true_iff in Hm.
    destruct Hm as [[Hm|[Hm _]]|[Hm _]]; [exists bit|by exists 28|by exists 30].
    split; [done|]. unfold write_bits in Hb.
    repeat (apply elem_of_cons in Hb as [->|Hb]; [vm_compute; reflexivity|]). by apply elem_of_nil in Hb. }
  intros E. assert (N.testbit (N.land m WRITE_RIGHTS) i = true) as H by (by rewrite N.land_spec, Hi, Hw).
  by rewrite E, N.bits_0 in H.
Qed.

(** The descriptor that the parser is to find. *)
Definition ace_of (e : Entry) : Ace := mkAce (grants e) (N.testbit (flags e) 3) (access e) (who e).
Definition aces_of (o : Object) : option (list Ace) := fmap (M := list) ace_of <$> entries o.
Record finds (d : Descriptor) (o : Object) : Prop := {
  finds_owner : owner d = owned_by o;
  finds_dacl : dacl d = aces_of o;
  finds_protected : is_Some (entries o) → protected d = is_protected o }.

Lemma effective_names d o e : finds d o → effective d (ace_of e) = names o e.
Proof. intros [Ho _ _]. unfold effective, names. by rewrite Ho. Qed.

Lemma owner_limited_found d o : finds d o → owner_rights_limited d = owner_limited o.
Proof.
  intros [_ Hd _]. unfold owner_rights_limited, owner_limited. rewrite Hd. unfold aces_of. destruct (entries o) as [l|]; simpl; [|done].
  induction l as [|e l IH]; csimpl; [done|]. by rewrite IH.
Qed.

Lemma decided_denied d o token bit l : finds d o →
  bit ∈ write_bits →
  (∀ a, a ∈ ace_of <$> l → relevant WRITE_RIGHTS a = true → effective d a ∉ token) → decided o token bit l = false.
Proof.
  intros Hd Hb. induction l as [|e l IH]; intros Hl; simpl; [done|].
  destruct (applies e && among token (names o e) && maps_to (access e) bit) eqn:E.
  - apply andb_true_iff in E as [[Hi%negb_true_iff Ht%among_spec]%andb_true_iff Hm].
    destruct (grants e) eqn:Ha; [|done]. exfalso. apply (Hl (ace_of e)); [by left| |by rewrite (effective_names _ _ _ Hd)].
    unfold relevant. simpl. rewrite Ha, Hi. simpl. apply negb_true_iff, N.eqb_neq. by eapply maps_to_write.
  - apply IH. intros a' Ha'. apply Hl. by right.
Qed.

Lemma writers_nil d trusted :
  writers d trusted = [] ↔
  granted_to_others d WRITE_RIGHTS trusted = [] ∧
  (∀ o, owner d = Some o → owner_rights_limited d = true ∨ o ∈ normal trusted).
Proof.
  unfold writers. destruct (owner d) as [o|]; [|naive_solver].
  destruct (negb _ && _ && negb _) eqn:E.
  - apply andb_true_iff in E as [[El%negb_true_iff Et%negb_true_iff%among_false]%andb_true_iff _].
    split; [by intros []%app_eq_nil|]. intros [_ Ho]. destruct (Ho o eq_refl); [congruence|done].
  - split; [|tauto]. intros Hg. split; [done|]. intros ? [= <-]. rewrite Hg in E.
    rewrite andb_true_r in E. apply andb_false_iff in E. rewrite !negb_false_iff, among_spec in E. done.
Qed.

Lemma restricted_denies d o trusted token bit : finds d o →
  writers d trusted = [] → stranger trusted token → bit ∈ write_bits → allowed o token bit = false.
Proof.
  intros Hf [Hg Ho]%writers_nil Hs Hb. apply nobody_granted in Hg as (l & Hl & Hg).
  pose proof (finds_dacl _ _ Hf) as Hd. rewrite Hl in Hd. unfold aces_of in Hd.
  unfold allowed. destruct (entries o) as [es|] eqn:He; [|done]. injection Hd as ->. apply orb_false_iff. split.
  - unfold implicit. rewrite <-(finds_owner _ _ Hf). destruct (owner d) as [x|] eqn:E; simpl; [|done].
    destruct (Ho x eq_refl) as [Hr|Ht]; [by rewrite <-(owner_limited_found _ _ Hf), Hr, andb_false_r|].
    destruct (among token x) eqn:Ha; [|done]. apply among_spec in Ha. by apply Hs in Ha.
  - apply (decided_denied d); [done..|]. intros a Ha Hr Ht. by apply (Hs _ Ht), Hg.
Qed.

Lemma check_write_Ok sddl trusted :
  check_write_restricted sddl trusted = Some (Ok tt) ↔ ∃ d, parse sddl = Ok d ∧ writers d trusted = [].
Proof.
  unfold check_write_restricted, parsed. destruct (parse sddl) as [d|[]] eqn:E; simpl;
    [|split; [done|by intros (? & ? & _)]..].
  unfold write_restricted. destruct (writers d trusted) eqn:Ew; simpl.
  - split; [|done]. intros _. by exists d.
  - split; [done|]. intros (? & [= <-] & ?). congruence.
Qed.

(** The fuel of the loops is enough: more does not change the result. *)
Lemma break_at_shorter f l a b : break_at f l = Some (a, b) → (length b ≤ length l)%nat ∧ b ≠ [].
Proof.
  revert a b. induction l as [|c l IH]; intros a b; simpl; [done|]. destruct (f c).
  - intros [= <- <-]. split; [simpl; lia|done].
  - intros ([a' b'] & E & [= <- <-])%bind_Some. apply IH in E as [? ?]. split; [lia|done].
Qed.

Lemma parse_aces_more fuel k d acc r :
  (length r ≤ fuel)%nat → parse_aces (k + fuel) d acc r = parse_aces fuel d acc r.
Proof.
  revert acc r. induction fuel as [|fuel IH]; intros acc r Hr.
  - destruct r; [|simpl in Hr; lia]. by destruct k.
  - rewrite Nat.add_succ_r. destruct r as [|c r]; [done|]. cbn [parse_aces]. destruct (c =? 40); [|done]. simpl.
    destruct (break_at (is_char 41) r) as [[a b]|] eqn:E; [|done]. simpl.
    apply break_at_shorter in E as [Hb Hn]. assert (length (drop 1 b) ≤ fuel)%nat as Hd
      by (rewrite length_drop; simpl in Hr; lia).
    destruct d; simpl; [|by apply IH]. destruct (parse_ace acc a); simpl; [by apply IH|done].
Qed.

Lemma break_at_rest f l a b : break_at f l = Some (a, b) → l = a ++ b.
Proof.
  revert a b. induction l as [|c l IH]; intros a b; simpl; [done|]. destruct (f c); [by intros [= <- <-]|].
  intros ([a' b'] & E & [= <- <-])%bind_Some. by rewrite (IH _ _ E).
Qed.

Lemma slice_at_rest s i a b : slice_at s i = Ok (a, b) → (length b ≤ length s)%nat.
Proof. unfold slice_at. case_match; intros [= <- <-]. rewrite length_drop. lia. Qed.

Lemma take_sid_rest s a b : take_sid s = Ok (a, b) → (length b ≤ length s)%nat.
Proof.
  unfold take_sid. case_match; [|apply slice_at_rest]. case_match eqn:E.
  - case_match; subst. intros [= <- <-]. apply break_at_rest in E as ->. rewrite length_app. lia.
  - intros [= <- <-]. simpl. lia.
Qed.

Lemma parse_aces_rest fuel d acc r acc' r' :
  parse_aces fuel d acc r = Some (acc', r') → (length r' ≤ length r)%nat.
Proof.
  revert acc r. induction fuel as [|fuel IH]; intros acc r; simpl; [by intros [= <- <-]|].
  destruct r as [|c r]; [by intros [= <- <-]|]. destruct (c =? 40); simpl; [|by intros [= <- <-]].
  intros ([a b] & E & (acl & Ha & H)%bind_Some)%bind_Some.
  apply break_at_rest in E as ->. apply IH in H. rewrite length_drop, length_app in *. lia.
Qed.

Lemma parse_acl_rest is_dacl d body d' r :
  parse_acl is_dacl d body = Ok (d', r) → (length r ≤ length body)%nat.
Proof.
  unfold parse_acl. intros ([flags r0] & Hs & H)%result_bind_Ok.
  apply result_bind_Ok in H as ([acl r1] & Ha%ok_or_Ok & [= <- <-]).
  apply slice_at_rest in Hs. apply parse_aces_rest in Ha. lia.
Qed.

(** The loop over the parts ends: every turn removes at least a tag, so any
    fuel above the length gives the same result. *)
Lemma parse_parts_more fuel k d rest :
  (length rest < fuel)%nat → parse_parts (k + fuel) d rest = parse_parts fuel d rest.
Proof.
  revert d rest. induction fuel as [|fuel IH]; intros d rest Hr; [lia|]. rewrite Nat.add_succ_r. cbn [parse_parts].
  destruct rest as [|a [|b body]]; [done..|]. simpl in Hr. case_match.
  - destruct (take_sid body) as [[sid r]|e] eqn:E; [|done]. simpl. apply take_sid_rest in E.
    destruct (bool_decide (sid = [])); simpl; [done|]. apply IH. lia.
  - case_match; [|done]. destruct (parse_acl _ d body) as [[d' r]|e] eqn:E; [|done]. simpl.
    apply parse_acl_rest in E. apply IH. lia.
Qed.

(** *** The parser finds what Windows wrote *)

Lemma in_sid_range c : in_sid c = true → (48 ≤ c ≤ 57) ∨ c = 45 ∨ c = 83.
Proof. unfold in_sid, is_ascii_digit. lia. Qed.

Lemma plain_alias s : Forall (λ c, in_sid c = true) s → alias s = None.
Proof.
  intros Hs. unfold alias, ALIASES. cbn [lookup_text].
  repeat match goal with |- (if is_lit s ?k then _ else _) = _ =>
    unfold is_lit at 1; rewrite (bool_decide_eq_false_2 (s = lit k))
      by (intros ->; vm_compute in Hs; inversion Hs as [|? ? ? Hs']; subst; try done; inversion Hs'; subst; done) end.
  done.
Qed.

Lemma normalize_plain s : Forall (λ c, in_sid c = true) (as_bytes s) → normalize_sid (as_bytes s) = s.
Proof.
  intros Hs. unfold normalize_sid. rewrite plain_alias by done.
  replace (to_upper_byte <$> as_bytes s) with (as_bytes s); [apply of_as_bytes|].
  clear -Hs. induction Hs as [|c l Hc _ IH]; csimpl; [done|]. rewrite <-IH. f_equal.
  apply in_sid_range in Hc. unfold to_upper_byte, is_ascii_lower. case_match; [|done]. reflect_bools. lia.
Qed.

(** Octets that neither end a field nor an entry, nor are white space. *)
Definition plain_octet (c : N) : Prop :=
  48 ≤ c < 0x80 ∧ c ≠ 58 ∧ c ≠ 59 ∨ c = 45.
Definition plain_octetb (c : N) : bool := ((48 <=? c) && (c <? 0x80) && negb (c =? 58) && negb (c =? 59)) || (c =? 45).
Lemma plain_octetb_all l : Forall (λ c, plain_octetb c = true) l → Forall plain_octet l.
Proof. intros H. eapply Forall_impl; [done|]. intros c. unfold plain_octetb, plain_octet. lia. Qed.
Lemma plain_octetb_spec l : forallb plain_octetb l = true → Forall plain_octet l.
Proof. intros H%forallb_true. by apply plain_octetb_all. Qed.
Lemma plain_not c x : plain_octet x → c < 45 ∨ c = 58 ∨ c = 59 → is_char c x = false.
Proof. unfold plain_octet, is_char. lia. Qed.
Lemma plain_all c l : Forall plain_octet l → c < 45 ∨ c = 58 ∨ c = 59 → Forall (λ x, is_char c x = false) l.
Proof. intros H Hc. eapply Forall_impl; [done|]. intros x Hx. by apply plain_not. Qed.

Lemma full_in_sid s : full_sid s → Forall (λ c, in_sid c = true) (as_bytes s).
Proof.
  intros (r & -> & Hr). apply Forall_app. split; [by repeat constructor|]. eapply Forall_impl; [done|].
  unfold in_sid. by intros c [->| ->].
Qed.
Lemma in_sid_plain l : Forall (λ c, in_sid c = true) l → Forall plain_octet l.
Proof. intros H. eapply Forall_impl; [done|]. intros c Hc%in_sid_range. unfold plain_octet. lia. Qed.

Lemma sid_names_read a s : (a, s) ∈ sid_names →
  ∃ x y, lit a = [x; y] ∧ starts [x; y] "S-" = false ∧ normalize_sid (lit a) = s ∧ Forall plain_octet (lit a).
Proof.
  assert (forallb (λ p, match lit p.1 with
    | [x; y] => negb (starts [x; y] "S-") && bool_decide (normalize_sid (lit p.1) = p.2) && forallb plain_octetb (lit p.1)
    | _ => false end) sid_names = true) as H by (vm_compute; reflexivity).
  intros Hin. apply forallb_true in H. eapply Forall_forall in H; [|done]. cbn [fst snd] in H.
  destruct (lit a) as [|x [|y [|]]]; try done. exists x, y. reflect_bools. split_and!; [done..|by apply plain_octetb_all].
Qed.

Lemma writes_sid_read s t r : writes_sid s t → (∀ c, head r = Some c → c = 68 ∨ c = 71) →
  take_sid (t ++ r) = Ok (t, r) ∧ normalize_sid t = s ∧ t ≠ [] ∧ Forall plain_octet t.
Proof.
  intros [a s' Hin|s' Hs] Hr.
  - destruct (sid_names_read _ _ Hin) as (x & y & E & Hst & Hn & Hp). split_and!; [|done|by rewrite E|done].
    rewrite E. unfold take_sid. change (starts ([x; y] ++ r) "S-") with (starts [x; y] "S-"). rewrite Hst.
    unfold slice_at. replace (Nat.min (length ([x; y] ++ r)) 2) with 2%nat by (simpl; lia).
    assert (is_char_boundary ([x; y] ++ r) 2 = true) as ->; [|done].
    unfold is_char_boundary. simpl. destruct r as [|c r]; [done|]. by destruct (Hr c eq_refl) as [->| ->].
  - pose proof (full_in_sid _ Hs) as Hi. split_and!; [|by apply normalize_plain| |by apply in_sid_plain].
    + unfold take_sid. assert (starts (as_bytes s' ++ r) "S-" = true) as ->.
      { destruct Hs as (q & -> & _). rewrite <-app_assoc. apply starts_app. }
      assert (Forall (λ c, negb (in_sid c) = false) (as_bytes s')) as Hi'.
      { eapply Forall_impl; [apply Hi|]. by intros c ->. }
      destruct r as [|c r].
      * rewrite app_nil_r, break_at_none by done. done.
      * rewrite break_at_app; [done|done|]. by destruct (Hr c eq_refl) as [->| ->].
    + destruct Hs as (q & -> & _). done.
Qed.

Lemma rights_names_read ns m : Forall (λ n, n ∈ right_names) ns →
  rights_pairs m (ns ≫= λ n, lit n.1) = Some (N.lor m (lors (snd <$> ns))) ∧
  N.even (vlen (ns ≫= λ n, lit n.1)) = true ∧ Forall plain_octet (ns ≫= λ n, lit n.1) ∧
  head (ns ≫= λ n, lit n.1) ≠ Some 48.
Proof.
  assert (forallb (λ p, match lit p.1 with
    | [x; y] => bool_decide (lookup_text RIGHTS [x; y] = Some p.2) && forallb plain_octetb [x; y] && negb (x =? 48)
    | _ => false end) right_names = true) as H by (vm_compute; reflexivity).
  apply forallb_true in H. intros Hn. revert m.
  induction Hn as [|[a v] ns Hin _ IH]; intros m; csimpl.
  { rewrite N.lor_0_r. by split_and!. }
  eapply Forall_forall in H; [|done]. cbn [fst snd] in H.
  destruct (lit a) as [|x [|y [|]]]; try done. reflect_bools. cbn [app rights_pairs].
  match goal with E : lookup_text _ _ = _ |- _ => rewrite E end. cbn [mbind option_bind].
  destruct (IH (N.lor m v)) as (-> & He & Hp & _). split_and!.
  - by rewrite N.lor_assoc.
  - unfold vlen in *. cbn [app length]. by rewrite !Nat2N.inj_succ, N.even_succ_succ.
  - apply (Forall_app_2 _ [x; y]); [by apply plain_octetb_all|done].
  - simpl. intros [= ->]. done.
Qed.

Lemma hex_digits_read vs acc : Forall (λ v, v < 16) vs → foldl (λ a v, a * 16 + v) acc vs ≤ u32_max →
  hex_digits acc (Digest.hex_digit <$> vs) = Some (foldl (λ a v, a * 16 + v) acc vs).
Proof.
  intros Hv. revert acc. induction Hv as [|v vs Hv _ IH]; intros acc Hm; csimpl; [done|].
  rewrite Digest.hex_value_digit by done. simpl. simpl in Hm.
  assert (∀ a, a ≤ foldl (λ a v, a * 16 + v) a vs) as Hge.
  { clear. induction vs as [|w vs IH]; intros a; simpl; [lia|]. specialize (IH (a * 16 + w)). lia. }
  specialize (Hge (acc * 16 + v)). rewrite (proj2 (N.ltb_ge _ _)) by lia. by apply IH.
Qed.

Lemma hex_digit_plain v : v < 16 → plain_octet (Digest.hex_digit v) ∧ Digest.hex_digit v ≠ 43.
Proof. unfold plain_octet, Digest.hex_digit. case_match; lia. Qed.

Lemma writes_mask_read m t : writes_mask m t → rights t = Some m ∧ Forall plain_octet t.
Proof.
  intros [ns Hn|vs Hne Hv Hm].
  - destruct (rights_names_read ns 0 Hn) as (Hr & He & Hp & Hh). split; [|done]. unfold rights.
    assert (∀ p, p = "0x"%string ∨ p = "0X"%string → after_prefix p (ns ≫= λ n, lit n.1) = None) as Hx.
    { intros p Hpre. unfold after_prefix. destruct (starts _ p) eqn:E; [|done].
      apply list_starts_with_inv in E as [q E]. rewrite E in Hh. by destruct Hpre as [->| ->]. }
    rewrite !Hx by auto. by rewrite He, Hr, N.lor_0_l.
  - split.
    + unfold rights. rewrite after_prefix_app. unfold from_str_radix16.
      destruct vs as [|v vs]; [done|]. rewrite fmap_cons.
      apply Forall_cons in Hv as [Hv0 Hv]. destruct (hex_digit_plain v Hv0) as [_ H43].
      rewrite (proj2 (N.eqb_neq _ _)) by done. rewrite <-fmap_cons. apply hex_digits_read; [by constructor|done].
    + apply Forall_app. split; [by apply plain_octetb_spec|]. apply Forall_fmap.
      eapply Forall_impl; [done|]. intros v Hv'. by apply hex_digit_plain.
Qed.

Lemma flags_text_read f : has_text (flags_text f) "IO" = N.testbit f 3 ∧ Forall plain_octet (flags_text f).
Proof.
  unfold flags_text. destruct (N.testbit f 0), (N.testbit f 1), (N.testbit f 2), (N.testbit f 3), (N.testbit f 4);
    (split; [vm_compute; reflexivity|apply plain_octetb_spec; vm_compute; reflexivity]).
Qed.

Lemma writes_entry_read e t : writes_entry e t →
  (∀ l, parse_ace (Some l) t = Some (Some (l ++ [ace_of e]))) ∧ Forall (λ c, plain_octet c ∨ c = 59) t.
Proof.
  intros [e' m s Hm Hs]. destruct (writes_mask_read _ _ Hm) as [Hr Hmp].
  destruct (writes_sid_read _ _ [] Hs) as (_ & Hn & _ & Hsp); [done|].
  destruct (flags_text_read (flags e')) as [Hf Hfp].
  set (ty := lit (if grants e' then "A" else "D")).
  assert (Forall plain_octet ty) as Hty by (subst ty; destruct (grants e'); by apply plain_octetb_spec).
  split.
  - intros l. unfold parse_ace. change (lit ";") with [59]. change (lit ";;;") with [59; 59; 59]. cbn [app].
    rewrite split_app by (done || apply plain_all; auto).
    rewrite split_app by (done || apply plain_all; auto).
    rewrite split_app by (done || apply plain_all; auto).
    assert (∀ r, split (is_char 59) (59 :: r) = [] :: split (is_char 59) r) as Hsep by done. rewrite !Hsep.
    rewrite split_one by (apply plain_all; auto).
    assert (ace_type ty = Some (grants e')) as -> by (subst ty; by destruct (grants e')).
    cbn [mbind option_bind]. rewrite Hr. cbn [mbind option_bind]. unfold ace_of. by rewrite Hf, Hn.
  - assert (∀ k, Forall plain_octet k → Forall (λ c, plain_octet c ∨ c = 59) k) as Hk.
    { intros k Hk. eapply Forall_impl; [done|]. auto. }
    change (lit ";") with [59]. change (lit ";;;") with [59; 59; 59]. rewrite !Forall_app.
    split_and!; auto; repeat (constructor; [by right|]); constructor.
Qed.

(** Parsing entries written between parentheses. *)
Lemma parse_aces_print fuel acc ts es :
  Forall2 writes_entry es ts → (length ts ≤ fuel)%nat →
  parse_aces fuel true (Some acc) (ts ≫= λ t, lit "(" ++ t ++ lit ")") = Some (Some (acc ++ (ace_of <$> es)), []).
Proof.
  intros H. revert fuel acc. induction H as [|e t es ts He _ IH]; intros fuel acc Hf.
  - rewrite app_nil_r. by destruct fuel.
  - destruct fuel as [|fuel]; [simpl in Hf; lia|]. destruct (writes_entry_read _ _ He) as [Hp Ht].
    change (lit "(") with [40] in *. change (lit ")") with [41] in *. csimpl. rewrite <-!app_assoc. simpl.
    rewrite break_at_app; [|by eapply Forall_impl; [done|]; unfold plain_octet, is_char; lia|done].
    simpl. rewrite Hp. simpl. rewrite drop_0, IH by (simpl in Hf; lia). by rewrite <-app_assoc.
Qed.

Lemma parse_parts_enough fuel d rest :
  (length rest < fuel)%nat → parse_parts fuel d rest = parse_parts (S (length rest)) d rest.
Proof.
  intros H. replace fuel with ((fuel - S (length rest)) + S (length rest))%nat by lia.
  apply parse_parts_more. lia.
Qed.

Lemma parse_sid_part tag d s t r :
  tag = "O:"%string ∨ tag = "G:"%string → writes_part tag s t → (∀ c, head r = Some c → c = 68 ∨ c = 71) →
  parse_parts (S (length (t ++ r))) d (t ++ r) =
  parse_parts (S (length r)) (if bool_decide (tag = "O:"%string) && bool_decide (is_Some s)
    then mkDescriptor s (protected d) (dacl d) else d) r.
Proof.
  intros Htag Hw Hr. destruct Hw as [|s t Hs]; [by rewrite andb_false_r|].
  destruct (writes_sid_read _ _ _ Hs Hr) as (Ht & Hn & Hne & _).
  rewrite (bool_decide_eq_true_2 (is_Some (Some s))) by by eexists. rewrite andb_true_r.
  set (d' := if bool_decide (tag = "O:"%string) then mkDescriptor (Some s) (protected d) (dacl d) else d).
  rewrite <-(app_assoc (lit tag) t r).
  rewrite <-(parse_parts_enough (S (S (length (t ++ r)))) d' r) by (rewrite length_app; lia).
  destruct Htag as [->| ->]; unfold d';
    [change (lit "O:") with [79; 58]|change (lit "G:") with [71; 58]]; cbn [app length parse_parts];
    rewrite Ht; cbn [mbind result_bind]; rewrite (bool_decide_eq_false_2 (t = [])) by done;
    cbn [reject_if mbind result_bind]; by rewrite Hn.
Qed.

Lemma control_text_read o :
  has_text (control_text o) "P" = is_protected o ∧ has_text (control_text o) "NO_ACCESS_CONTROL" = false ∧
  Forall plain_octet (control_text o).
Proof.
  unfold control_text. destruct (is_protected o), (auto_requested o), (auto_inherited o);
    (split_and!; [vm_compute; reflexivity..|apply plain_octetb_spec; vm_compute; reflexivity]).
Qed.

Lemma flags_end_plain l : Forall (λ c, plain_octet c) l → flags_end l = length l.
Proof. intros H. unfold flags_end. rewrite !break_at_none by (apply plain_all; auto || lia). done. Qed.

Lemma flags_end_entries l ts : Forall plain_octet l →
  flags_end (l ++ (ts ≫= λ t, lit "(" ++ t ++ lit ")")) = length l.
Proof.
  intros H. destruct ts as [|t ts]; [rewrite app_nil_r; by apply flags_end_plain|]. unfold flags_end. csimpl.
  change (lit "(") with [40]. cbn [app]. rewrite break_at_app; [done|apply plain_all; [done|lia]|done].
Qed.

Lemma slice_at_plain a b : (∀ c, head b = Some c → is_cont c = false) → slice_at (a ++ b) (length a) = Ok (a, b).
Proof.
  intros Hb. unfold slice_at, is_char_boundary. rewrite drop_app_length, take_app_length.
  destruct b as [|c b]; [|by rewrite (Hb c)]. rewrite app_nil_r, Nat.leb_refl. done.
Qed.

Lemma writes_dacl_read o t d : writes_dacl o t → dacl d = None →
  ∃ d', parse_parts (S (length t)) d t = Ok d' ∧ owner d' = owner d ∧ dacl d' = aces_of o ∧
    (is_Some (entries o) → protected d' = is_protected o).
Proof.
  intros Hw Hd. destruct (control_text_read o) as (Hp & Hn & Hc). unfold aces_of. destruct Hw as [He|He|es ts He Hts]; rewrite He.
  - exists d. split_and!; [done..|]. by intros [].
  - assert (∃ x, parse_acl true d (control_text o ++ lit "NO_ACCESS_CONTROL") =
        Ok (mkDescriptor (owner d) x None, [])) as [x Hx].
    { unfold parse_acl. rewrite flags_end_plain by (apply Forall_app; split; [done|by apply plain_octetb_spec]).
      pose proof (slice_at_plain (control_text o ++ lit "NO_ACCESS_CONTROL") []) as Hsl.
      rewrite app_nil_r in Hsl. rewrite Hsl by done. cbn [mbind result_bind].
      assert (has_text (control_text o ++ lit "NO_ACCESS_CONTROL") "NO_ACCESS_CONTROL" = true) as ->
        by (unfold control_text; destruct (is_protected o), (auto_requested o), (auto_inherited o); vm_compute; reflexivity).
      by eexists. }
    eexists. change (lit "D:") with [68; 58]. cbn [app length parse_parts].
    change (is_lit [68; 58] "O:" || is_lit [68; 58] "G:") with false.
    change (is_lit [68; 58] "D:" || is_lit [68; 58] "S:") with true.
    change (is_lit [68; 58] "D:") with true. rewrite Hx. simpl. split_and!; [done..|]. by intros [].
  - assert (parse_acl true d (control_text o ++ (ts ≫= λ t, lit "(" ++ t ++ lit ")")) =
        Ok (mkDescriptor (owner d) (is_protected o) (Some (ace_of <$> es)), [])) as Hx.
    { unfold parse_acl. rewrite flags_end_entries by done. rewrite slice_at_plain.
      2:{ destruct ts; csimpl; [done|]. by intros c [= <-]. }
      cbn [mbind result_bind]. rewrite Hp, Hn. cbn [owner protected dacl].
      rewrite (parse_aces_print _ [] ts es); [done|done|].
      clear. induction ts as [|t ts IH]; csimpl; [lia|]. change (lit "(") with [40]. rewrite !length_app. simpl in *. lia. }
    eexists. change (lit "D:") with [68; 58]. cbn [app length parse_parts].
    change (is_lit [68; 58] "O:" || is_lit [68; 58] "G:") with false.
    change (is_lit [68; 58] "D:" || is_lit [68; 58] "S:") with true.
    change (is_lit [68; 58] "D:") with true. rewrite Hx. by simpl.
Qed.

(** The text of a descriptor made of ASCII characters is what is parsed. *)
Lemma trim_str_ascii s :
  Forall (λ c, c < 0x80) (as_bytes s) → trimmed (as_bytes s) → Names.trim_str s = s.
Proof.
  intros Ha Ht. unfold Names.trim_str. rewrite Anchors.chars_ascii, trim_id by done.
  unfold of_chars. rewrite encode_all_ascii by done. apply of_as_bytes.
Qed.

(** An octet of such a text. *)
Definition text_octet (c : N) : Prop := c < 0x80 ∧ is_whitespace c = false.
Lemma plain_text l : Forall plain_octet l → Forall text_octet l.
Proof.
  intros H. eapply Forall_impl; [done|]. intros c. unfold plain_octet, text_octet, is_whitespace. lia.
Qed.
Lemma lit_text s : forallb (λ c, (c <? 0x80) && negb (is_whitespace c)) (lit s) = true → Forall text_octet (lit s).
Proof. intros H%forallb_true. eapply Forall_impl; [done|]. intros c Hc. cbn beta in Hc. by reflect_bools. Qed.

Lemma part_text tag s t : tag = "O:"%string ∨ tag = "G:"%string → writes_part tag s t →
  Forall text_octet t ∧ (∀ c, head t = Some c → c = 79 ∨ c = 71).
Proof.
  intros Htag [|s' t' Hs]; [by split|]. destruct (writes_sid_read _ _ [] Hs) as (_ & _ & _ & Hp); [done|]. split.
  - apply Forall_app. split; [|by apply plain_text]. by destruct Htag as [->| ->]; apply lit_text.
  - destruct Htag as [->| ->]; intros c [= <-]; auto.
Qed.

Lemma dacl_text o t : writes_dacl o t → Forall text_octet t ∧ (∀ c, head t = Some c → c = 68).
Proof.
  destruct (control_text_read o) as (_ & _ & Hc). intros [He|He|es ts He Hts]; (split; [|by intros c [= <-]]).
  - done.
  - rewrite !Forall_app. split_and!; [by apply lit_text|by apply plain_text|by apply lit_text].
  - rewrite !Forall_app. split_and!; [by apply lit_text|by apply plain_text|]. clear He.
    induction Hts as [|e u es ts He _ IH]; [done|]. destruct (writes_entry_read _ _ He) as [_ Ht].
    rewrite bind_cons, !Forall_app. split_and!; [by apply lit_text| |by apply lit_text|done].
    eapply Forall_impl; [done|]. intros c. unfold plain_octet, text_octet, is_whitespace. lia.
Qed.

(** The parser finds the descriptor in the text that Windows writes for it. *)
Lemma parse_written o sddl : writes o sddl → ∃ d, parse sddl = Ok d ∧ finds d o.
Proof.
  intros (a & b & c & E & Ha & Hb & Hc).
  destruct (part_text _ _ _ (or_introl eq_refl) Ha) as [Hta _].
  destruct (part_text _ _ _ (or_intror eq_refl) Hb) as [Htb Hhb].
  destruct (dacl_text _ _ Hc) as [Htc Hhc].
  assert (∀ x, head (b ++ c) = Some x → x = 68 ∨ x = 71) as Hhbc.
  { assert (∀ x, head b = Some x → x = 71) as Hb'.
    { destruct Hb; [done|]. by intros x [= <-]. }
    intros x. destruct b as [|y b]; simpl; [by intros ->%Hhc; left|]. intros [= ->]. right. by apply Hb'. }
  unfold parse. rewrite trim_str_ascii; [rewrite E|rewrite E..].
  - rewrite (parse_sid_part "O:" _ _ _ _ (or_introl eq_refl) Ha Hhbc).
    rewrite (parse_sid_part "G:" _ _ _ _ (or_intror eq_refl) Hb) by (intros x ->%Hhc; by left).
    set (d := if _ && _ then _ else empty).
    rewrite (bool_decide_eq_false_2 ("G:" = "O:")%string) by done. cbn [andb].
    assert (dacl d = None ∧ owner d = owned_by o) as [Hd Ho].
    { unfold d. rewrite (bool_decide_eq_true_2 ("O:" = "O:")%string) by done. cbn [andb].
      by destruct (owned_by o). }
    destruct (writes_dacl_read o c d Hc Hd) as (d' & -> & Ho' & Hd' & Hp'). exists d'. split; [done|].
    split; [by rewrite Ho'|done|done].
  - eapply (Forall_impl text_octet); [|by intros x []]. by rewrite !Forall_app.
  - apply no_space_trimmed. eapply (Forall_impl text_octet); [|by intros x []]. by rewrite !Forall_app.
Qed.

(** C21: Write access. Let [sddl] be the text that Windows writes for the
    descriptor [o] of a configuration file or of a program that the service
    runs. When [check_write_restricted] accepts the text, the access check of
    Windows refuses, on [o] itself, every principal none of whose identifiers
    is trusted each right that could change the file or its security. *)
Theorem write_check_sound o sddl trusted :
  writes o sddl → check_write_restricted sddl trusted = Some (Ok tt) →
  ∀ token bit, stranger trusted token → bit ∈ write_bits → allowed o token bit = false.
Proof.
  intros (d & Hp & Hf)%parse_written (d' & Hp' & Hw)%check_write_Ok token bit Hs Hb.
  rewrite Hp in Hp'. injection Hp' as <-. by eapply restricted_denies.
Qed.

(** A file of SYSTEM that users may read and run, and whose entry for its
    creator is for children only. *)
Definition sample_object : Object :=
  mkObject (Some "S-1-5-18"%string) None true false true (Some
    [mkEntry true 0 FILE_ALL_ACCESS "S-1-5-18"; mkEntry true 0 0x1200a9 "S-1-5-32-545";
     mkEntry true 11 (N.shiftl 1 28) "S-1-3-0"]).
Definition sample_text : string := "O:SYD:PAI(A;;FA;;;SY)(A;;0x1200a9;;;BU)(A;OICIIO;GA;;;CO)".

Lemma entry_written e m s t : writes_mask (access e) m → writes_sid (who e) s →
  t = lit (if grants e then "A" else "D") ++ lit ";" ++ flags_text (flags e) ++ lit ";" ++ m ++ lit ";;;" ++ s →
  writes_entry e t.
Proof. intros Hm Hs ->. by constructor. Qed.
Lemma named_right a m : (a, m) ∈ right_names → writes_mask m (lit a).
Proof.
  intros H. pose proof (mask_by_names [(a, m)] (proj2 (Forall_singleton (λ n, n ∈ right_names) _) H)) as Hm.
  unfold lors in Hm. csimpl in Hm. by rewrite N.lor_0_r, app_nil_r in Hm.
Qed.

Ltac in_table := first [left; reflexivity | right; in_table].
Lemma sample_writes : writes sample_object sample_text.
Proof.
  exists (lit "O:SY"), [], (lit "D:PAI(A;;FA;;;SY)(A;;0x1200a9;;;BU)(A;OICIIO;GA;;;CO)"). split; [done|]. split_and!.
  - apply (part_sid "O:" _ (lit "SY")), (sid_by_name "SY"). in_table.
  - constructor.
  - eapply (dacl_entries sample_object _ [lit "A;;FA;;;SY"; lit "A;;0x1200a9;;;BU"; lit "A;OICIIO;GA;;;CO"]); [done|].
    repeat constructor.
    + eapply (entry_written _ (lit "FA") (lit "SY")); [apply (named_right "FA"); in_table|apply (sid_by_name "SY"); in_table|done].
    + eapply (entry_written _ (lit "0x1200a9") (lit "BU")); [|apply (sid_by_name "BU"); in_table|done].
      apply (mask_in_hex [1; 2; 0; 0; 10; 9]); [done|by repeat constructor|done].
    + eapply (entry_written _ (lit "GA") (lit "CO")); [apply (named_right "GA"); in_table|apply (sid_by_name "CO"); in_table|done].
Qed.

Lemma write_check_sound_witness :
  check_write_restricted sample_text [SYSTEM; ADMINISTRATORS] = Some (Ok tt) ∧
  ∀ token bit, stranger [SYSTEM; ADMINISTRATORS] token → bit ∈ write_bits → allowed sample_object token bit = false.
Proof.
  assert (check_write_restricted sample_text [SYSTEM; ADMINISTRATORS] = Some (Ok tt)) as H by (vm_compute; reflexivity).
  split; [exact H|]. exact (write_check_sound _ _ _ sample_writes H).
Defined.

(** The parser asks only whether the flags contain the letters IO. In another
    order, which SDDL allows, those of inheritance do: the entry that gives
    everyone full access to the object is then taken for one of its children
    only. *)
Theorem reordered_flags_hide_entry :
  let o := mkObject (Some "S-1-5-18"%string) None false false false
             (Some [mkEntry true 3 FILE_ALL_ACCESS "S-1-1-0"]) in
  writes o "O:SYD:(A;OICI;FA;;;WD)" ∧ allowed o ["S-1-1-0"%string] 1 = true ∧
  check_write_restricted "O:SYD:(A;OICI;FA;;;WD)" [SYSTEM] ≠ Some (Ok tt) ∧
  check_write_restricted "O:SYD:(A;CIOI;FA;;;WD)" [SYSTEM] = Some (Ok tt).
Proof.
  intros o. split_and!; [|vm_compute; reflexivity|vm_compute; discriminate|vm_compute; reflexivity].
  exists (lit "O:SY"), [], (lit "D:(A;OICI;FA;;;WD)"). split; [done|]. split_and!.
  - apply (part_sid "O:" _ (lit "SY")), (sid_by_name "SY"). in_table.
  - constructor.
  - eapply (dacl_entries o _ [lit "A;OICI;FA;;;WD"]); [done|]. repeat constructor.
    eapply (entry_written _ (lit "FA") (lit "WD")); [apply (named_right "FA"); in_table|apply (sid_by_name "WD"); in_table|done].
Qed.

(** A private directory's check ignores the owner: the owner of this
    directory, whom the check does not trust, may change its DACL. *)
Lemma private_owner_ignored :
  let o := mkObject (Some "S-1-5-21-5-5-5-1000"%string) None true false false
             (Some [mkEntry true 0 FILE_ALL_ACCESS "S-1-5-18"; mkEntry true 0 FILE_ALL_ACCESS "S-1-5-32-544"]) in
  let text := "O:S-1-5-21-5-5-5-1000D:P(A;;FA;;;SY)(A;;FA;;;BA)"%string in
  let trusted := [SYSTEM; ADMINISTRATORS; "S-1-5-21-1-2-3-1001"]%string in
  writes o text ∧ check_private text trusted = Some (Ok tt) ∧
  stranger trusted ["S-1-5-21-5-5-5-1000"%string] ∧ allowed o ["S-1-5-21-5-5-5-1000"%string] 18 = true.
Proof.
  intros o text trusted. split_and!; [|vm_compute; reflexivity| |vm_compute; reflexivity].
  - exists (lit "O:S-1-5-21-5-5-5-1000"), [], (lit "D:P(A;;FA;;;SY)(A;;FA;;;BA)"). split; [done|]. split_and!.
    + apply (part_sid "O:" _ (as_bytes "S-1-5-21-5-5-5-1000")), sid_in_full.
      exists (lit "1-5-21-5-5-5-1000"). split; [done|]. apply Forall_forall. intros c Hc.
      assert (forallb (λ c, is_ascii_digit c || (c =? 45)) (lit "1-5-21-5-5-5-1000") = true) as Hf by done.
      apply forallb_true in Hf. eapply Forall_forall in Hf; [|done]. cbn beta in Hf. lia.
    + constructor.
    + eapply (dacl_entries o _ [lit "A;;FA;;;SY"; lit "A;;FA;;;BA"]); [done|]. repeat constructor.
      * eapply (entry_written _ (lit "FA") (lit "SY")); [apply (named_right "FA"); in_table|apply (sid_by_name "SY"); in_table|done].
      * eapply (entry_written _ (lit "FA") (lit "BA")); [apply (named_right "FA"); in_table|apply (sid_by_name "BA"); in_table|done].
  - intros t ->%list_elem_of_singleton. vm_compute. intros H. by repeat (apply elem_of_cons in H as [H|H]; [done|]); apply elem_of_nil in H.
Qed.

(** What is written on a private directory: full access, inherited by what is
    in it. *)
Definition full_access (sid : string) : Entry := mkEntry true 3 FILE_ALL_ACCESS sid.
Definition private_object (sid : string) : Object :=
  mkObject None None true false false (Some [full_access SYSTEM; full_access ADMINISTRATORS; full_access sid]).

Lemma writes_dacl_only o sddl :
  owned_by o = None → in_group o = None → writes_dacl o (as_bytes sddl) → writes o sddl.
Proof. intros Ho Hg Hd. exists [], [], (as_bytes sddl). rewrite Ho, Hg. split_and!; [done|constructor..|done]. Qed.

Lemma private_writes sid : full_sid sid → writes (private_object sid) (private_dacl sid).
Proof.
  intros Hs. apply writes_dacl_only; [done..|].
  change (private_dacl sid) with ("D:P(A;OICI;FA;;;SY)(A;OICI;FA;;;BA)(A;OICI;FA;;;" +:+ (sid +:+ ")"))%string.
  rewrite !as_bytes_app.
  assert (as_bytes "D:P(A;OICI;FA;;;SY)(A;OICI;FA;;;BA)(A;OICI;FA;;;" ++ as_bytes sid ++ as_bytes ")" =
    lit "D:" ++ control_text (private_object sid) ++
    ([lit "A;OICI;FA;;;SY"; lit "A;OICI;FA;;;BA"; lit "A;OICI;FA;;;" ++ as_bytes sid]
      ≫= λ t, lit "(" ++ t ++ lit ")")) as ->.
  { replace (as_bytes "D:P(A;OICI;FA;;;SY)(A;OICI;FA;;;BA)(A;OICI;FA;;;") with
      (lit "D:" ++ control_text (private_object sid) ++ (lit "(" ++ lit "A;OICI;FA;;;SY" ++ lit ")")
       ++ (lit "(" ++ lit "A;OICI;FA;;;BA" ++ lit ")") ++ lit "(" ++ lit "A;OICI;FA;;;") by (vm_compute; reflexivity).
    change (as_bytes ")") with (lit ")"). rewrite !bind_cons, <-!app_assoc. cbn [mbind list_bind]. by rewrite app_nil_r. }
  assert (∀ s t, writes_sid s t → writes_entry (full_access s) (lit "A;OICI;FA;;;" ++ t)) as He.
  { intros s t Ht. apply (entry_text (full_access s) (lit "FA") t); [|done].
    apply (named_right "FA"). in_table. }
  apply (dacl_entries _ [full_access SYSTEM; full_access ADMINISTRATORS; full_access sid]); [done|].
  repeat constructor.
  - apply (He SYSTEM (lit "SY")), (sid_by_name "SY"). in_table.
  - apply (He ADMINISTRATORS (lit "BA")), (sid_by_name "BA"). in_table.
  - apply He. by apply sid_in_full.
Qed.

(** Round trip: the descriptor that the program writes on a private directory
    is the protected one it means, and passes the check made when the
    directory is opened again; full access is then granted to SYSTEM, the
    administrators and the owner, and no right to anybody else. *)
Theorem private_dacl_round_trip sid :
  full_sid sid →
  let trusted := [SYSTEM; ADMINISTRATORS; sid] in
  writes (private_object sid) (private_dacl sid) ∧
  check_private (private_dacl sid) trusted = Some (Ok tt) ∧
  (∀ token bit, allowed (private_object sid) token bit =
     existsb (λ t, among token t) trusted && N.testbit FILE_ALL_ACCESS bit).
Proof.
  intros Hs trusted. pose proof (private_writes sid Hs) as Hw. split; [done|].
  destruct (parse_written _ _ Hw) as (d & Hp & [Ho Hd Hpr]). cbn in Ho.
  assert (∀ s, full_sid s → normalize_sid (as_bytes s) = s) as Hnorm by (intros s Hf; by apply normalize_plain, full_in_sid).
  assert (normal trusted = trusted) as Hn.
  { unfold normal, trusted. rewrite !fmap_cons, (Hnorm sid) by done. done. }
  split.
  - unfold check_private, parsed. rewrite Hp. cbn [fmap option_fmap option_map mbind result_bind].
    unfold private_descriptor. rewrite Hpr by by eexists. cbn [is_protected private_object negb reject_if mbind result_bind].
    rewrite (proj2 (nobody_granted _ _ _)); [done|]. rewrite Hn, Hd. eexists; split; [done|]. intros a Ha _.
    unfold effective. rewrite Ho. unfold trusted.
    assert (Sddl.sid a ∈ trusted) by (repeat (apply elem_of_cons in Ha as [->|Ha]; [unfold trusted; simpl; set_solver|]); by apply elem_of_nil in Ha).
    case_bool_decide as E; [by rewrite <-E|done].
  - intros token bit. unfold allowed, implicit. cbn [entries private_object owned_by from_option andb orb decided applies full_access].
    assert (∀ s, names (private_object sid) (full_access s) = s) as Hnm.
    { intros s. unfold names. simpl. case_bool_decide as E; [by rewrite E|done]. }
    assert (maps_to FILE_ALL_ACCESS bit = N.testbit FILE_ALL_ACCESS bit) as Hm by (unfold maps_to; by rewrite !orb_false_r).
    fold (full_access SYSTEM) (full_access ADMINISTRATORS) (full_access sid). rewrite !Hnm. cbn [access grants flags full_access].
    rewrite Hm. change (applies (full_access _)) with true. unfold trusted. cbn [existsb andb].
    by destruct (N.testbit FILE_ALL_ACCESS bit), (among token SYSTEM), (among token ADMINISTRATORS), (among token sid).
Qed.

Lemma private_dacl_round_trip_witness :
  writes (private_object "S-1-5-21-1-2-3-1001") (private_dacl "S-1-5-21-1-2-3-1001").
Proof.
  assert (full_sid "S-1-5-21-1-2-3-1001") as H.
  { exists (lit "1-5-21-1-2-3-1001"). split; [done|]. repeat (constructor; [first [by left|by right]|]). constructor. }
  exact (proj1 (private_dacl_round_trip _ H)).
Defined.

End SddlProps.
