(* ===== verification/SystemFs.v ===== *)
(** * System checks: files and users

    system/src/fsx.rs (reading below the inspected root) and users.rs. The
    kernel is a parameter: what opening, [fstat], [read] and [getdents] answer.
    The answers do not change while the checks run. *)

From S2P Require Import Prelude Utf8 Paths Core External AuditLog Heuristics Chars.

(** ** fsx.rs *)
Module Fsx.

Definition MAX_READ : N := N.shiftl 1 20.
Definition MAX_DIR_ENTRIES : N := 20000.

Inductive Kind := KFile | KDir | KSymlink | KOther.
#[export] Instance Kind_eq_dec : EqDecision Kind.
Proof. solve_decision. Defined.

Record Meta := mkMeta { uid : N; gid : N; mode : N; kind : Kind; dev : N; ino : N }.

(** [struct stat], with the file type that its mode says. *)
Record Stat := mkStat {
  st_uid : N; st_gid : N; st_mode : N; st_type : Kind; st_dev : N; st_ino : N; st_size : Z }.

Definition from_stat (st : Stat) : Meta :=
  mkMeta (st_uid st) (st_gid st) (N.land (st_mode st) 0xFFF) (st_type st) (st_dev st) (st_ino st).

(** [m & bit != 0] *)
Definition bit (m b : N) : bool := negb (N.land m b =? 0).

Definition writable_by_non_root (m : Meta) : bool :=
  negb (uid m =? 0) || (bit (mode m) 0x10 && negb (gid m =? 0)) || bit (mode m) 0x2.

Definition dir_writable_by_non_root (m : Meta) : bool :=
  let sticky := bit (mode m) 0x200 in
  negb (uid m =? 0) || (negb sticky && bit (mode m) 0x10 && negb (gid m =? 0))
  || (negb sticky && bit (mode m) 0x2).

Record OFlags := mkFlags {
  o_path : bool; o_directory : bool; o_nofollow : bool; o_nonblock : bool; o_cloexec : bool; o_noctty : bool }.

(** What one [read] answers: octets (none at the end of the file), [EINTR], or
    another error. *)
Inductive Turn := Data (chunk : bytes) | Interrupted | ReadError (errno : N).

(** The kernel, with errors as their [errno]. [openat2] is called with
    [RESOLVE_IN_ROOT] and [RESOLVE_NO_MAGICLINKS]; [reads] are the answers of
    successive reads of a descriptor (then the end of the file), [getdents]
    the entries of a directory in its order, [fd_link] what
    [/proc/self/fd/N] links to. *)
Class Kernel := {
  Fd : Type;
  open : path → OFlags → result N Fd;
  openat2 : Fd → path → OFlags → result N Fd;
  fstat : Fd → result N Stat;
  stat_path : path → result N Stat;
  reads : Fd → list Turn;
  getdents : Fd → result N (list (result N (bytes * Kind)));
  fd_link : Fd → result N path }.

Section WithKernel.
Context `{Kernel}.

Record Text := mkText { text : Chars.text; meta : Meta; truncated : bool }.
Record Entry := mkEntry { name : string; entry_kind : Kind }.
Record Root := mkRoot { dir : Fd; root_path : path; live : bool }.

Definition os {A} (r : result N A) : result IoError A := map_err Os r.

Definition open_root (p : path) : result IoError Root :=
  dir ← os (open p (mkFlags false true false false true false));
  let live := match fstat dir, stat_path "/" with
              | Ok a, Ok b => (st_dev a =? st_dev b) && (st_ino a =? st_ino b)
              | _, _ => false
              end in
  Ok (mkRoot dir p live).

(** [p.strip_prefix("/")]: what is left of an absolute path, without the empty
    and [.] segments at its ends. *)
Fixpoint skip_dots (segs : list string) : list string :=
  match segs with
  | s :: r => if bool_decide (s = ""%string) || bool_decide (s = "."%string) then skip_dots r else segs
  | [] => []
  end.
Definition strip_root (p : path) : option path :=
  if is_absolute p
  then Some (String.concat "/" (reverse (skip_dots (reverse (skip_dots (split_on slash p))))))
  else None.

Definition relative (logical : path) : path :=
  let rel := default logical (strip_root logical) in
  if bool_decide (rel = ""%string) then "."%string else rel.

Definition ENOSYS : N := 38.

Definition open_at (r : Root) (logical : path) (flags : OFlags) : result IoError Fd :=
  let flags := mkFlags (o_path flags) (o_directory flags) (o_nofollow flags) (o_nonblock flags) true
                 (negb (o_path flags)) in
  match openat2 (dir r) (relative logical) flags with
  | Err e =>
      if e =? ENOSYS then
        if live r then os (open logical flags)
        else Err (OtherError "inspecting another root needs openat2 (Linux 5.6 or later)")
      else Err (Os e)
  | Ok fd => Ok fd
  end.

Definition no_flags : OFlags := mkFlags false false false false false false.
Definition PATH : OFlags := mkFlags true false false false false false.
Definition PATH_NOFOLLOW : OFlags := mkFlags true false true false false false.
Definition NONBLOCK : OFlags := mkFlags false false false true false false.
Definition DIRECTORY : OFlags := mkFlags false true false false false false.

Definition meta_of (r : Root) (logical : path) (flags : OFlags) : result IoError Meta :=
  fd ← open_at r logical flags;
  st ← os (fstat fd);
  Ok (from_stat st).
Definition stat (r : Root) (logical : path) : result IoError Meta := meta_of r logical PATH.
Definition lstat (r : Root) (logical : path) : result IoError Meta := meta_of r logical PATH_NOFOLLOW.

(** The loop of [read_text], with [room] octets left in the buffer. *)
Fixpoint fill (room : N) (turns : list Turn) : result N bytes :=
  if room =? 0 then Ok []
  else match turns with
       | [] => Ok []
       | Data chunk :: turns =>
           let got := takeN room chunk in
           if bool_decide (got = []) then Ok []
           else rest ← fill (room - vlen got) turns; Ok (got ++ rest)
       | Interrupted :: turns => fill room turns
       | ReadError e :: _ => Err e
       end.

Definition not_regular : IoError := OtherError "not a regular file".

Definition read_text (r : Root) (logical : path) : result IoError Text :=
  fd ← open_at r logical NONBLOCK;
  st ← os (fstat fd);
  let m := from_stat st in
  _ ← reject_if (negb (bool_decide (kind m = KFile))) not_regular;
  buf ← os (fill (MAX_READ + 1) (reads fd));
  Ok (mkText (decode_lossy (takeN MAX_READ buf)) m (MAX_READ <? vlen buf)).

(** The loop of [read_chunks]: the octets given to [f], or [None] when there
    are more than [max]. How they are cut into chunks does not matter. *)
Fixpoint drain (max total : N) (turns : list Turn) : result N (option bytes) :=
  match turns with
  | [] => Ok (Some [])
  | Data chunk :: turns =>
      if bool_decide (chunk = []) then Ok (Some [])
      else
        let total := total + vlen chunk in
        if max <? total then Ok None
        else (rest ← drain max total turns; Ok (option_map (app chunk) rest))
  | Interrupted :: turns => drain max total turns
  | ReadError e :: _ => Err e
  end.

Definition read_chunks (r : Root) (logical : path) (max : N) : result IoError (option bytes) :=
  fd ← open_at r logical NONBLOCK;
  st ← os (fstat fd);
  _ ← reject_if (negb (bool_decide (st_type st = KFile))) not_regular;
  let size := if (st_size st <? 0)%Z then u64_max else Z.to_N (st_size st) in
  if max <? size then Ok None else os (drain max 0 (reads fd)).

(** The loop of [read_dir] with the entries kept so far. *)
Fixpoint list_entries (out : list Entry) (n : N) (es : list (result N (bytes * Kind)))
    : result N (list Entry) :=
  match es with
  | [] => Ok out
  | Err e :: _ => Err e
  | Ok (raw, k) :: es =>
      let name := of_chars (decode_lossy raw) in
      if bool_decide (name = "."%string) || bool_decide (name = ".."%string) then list_entries out n es
      else
        let out := out ++ [mkEntry name k] in
        if MAX_DIR_ENTRIES <=? n + 1 then Ok out else list_entries out (n + 1) es
  end.

Definition read_dir (r : Root) (logical : path) : result IoError (list Entry) :=
  fd ← open_at r logical DIRECTORY;
  es ← os (getdents fd);
  out ← os (list_entries [] 0 es);
  Ok (sort_by (λ a b, cmp_str (name a) (name b)) out).

Definition host_path (r : Root) (logical : path) : result IoError path :=
  fd ← open_at r logical PATH;
  st ← os (fstat fd);
  _ ← reject_if (negb (bool_decide (st_type st = KFile))) not_regular;
  link ← os (fd_link fd);
  again ← os (stat_path link);
  _ ← reject_if (negb (st_dev again =? st_dev st) || negb (st_ino again =? st_ino st))
        (OtherError "file changed while resolving");
  Ok link.
End WithKernel.
End Fsx.
#[export] Existing Instance Fsx.Kind_eq_dec.
Abbreviation Kernel := Fsx.Kernel.

(** ** users.rs *)
Module Users.

Record User := mkUser { name : string; uid : N; home : path }.

Definition NO_LOGIN : list string := ["nologin"; "false"; "sync"; "shutdown"; "halt"]%string.

(** One line, with the users found so far. *)
Definition passwd_line (out : list User) (line : text) : list User :=
  match split (is_char 58) line with
  | f0 :: _ :: f2 :: _ :: _ :: f5 :: f6 :: _ =>
      if bool_decide (f0 = []) || starts f0 "#" then out
      else match parse_u32 f2 with
           | None => out
           | Some uid =>
               if negb (starts f5 "/") || is_lit f5 "/" then out
               else
                 let shell := last_piece (is_char 47) f6 in
                 let login := negb (bool_decide (shell = [])) && negb (among_lits NO_LOGIN shell) in
                 if negb ((uid =? 0) || login || ((1000 <=? uid) && (uid <? 65534))) then out
                 else if existsb (λ u, path_eq (home u) (of_chars f5)) out then out
                 else out ++ [mkUser (of_chars f0) uid (of_chars f5)]
           end
  | _ => out
  end.

Definition parse_passwd (t : text) : list User := foldl passwd_line [] (takeN 100000 (lines t)).
End Users.
Abbreviation User := Users.User.
