(* ===== verification/SystemCtx.v ===== *)
(** * System checks: rules, commands and shared state

    core/src/system.rs (the results), system/src/rules.rs (the catalogue),
    heuristics.rs (what a command starts) and ctx.rs (the state the checks
    share). A check is a computation over that state ([M]), which includes the
    progress of the check that runs. *)

From S2P Require Import Prelude Utf8 Paths Core External AuditLog Heuristics Chars SystemFs.

(** ** core/src/system.rs *)
Module System.

Inductive PersistenceMechanism :=
  | SystemdService | SystemdTimer | Cron | LdPreload | ShellProfile | Environment | XdgAutostart
  | SshAuthorizedKeys | Pam | RcLocal | Udev | SysvInit | AtJob | SystemdGenerator | KernelModule
  | Motd | SshRc | InitramfsHook | BootLoader | Ebpf | RegistryRun | WindowsService
  | ScheduledTask | StartupFolder | Winlogon.

(** The name in findings, as [serde] renders it. *)
Definition mechanism_name (m : PersistenceMechanism) : string :=
  match m with
  | SystemdService => "systemd_service" | SystemdTimer => "systemd_timer" | Cron => "cron"
  | LdPreload => "ld_preload" | ShellProfile => "shell_profile" | Environment => "environment"
  | XdgAutostart => "xdg_autostart" | SshAuthorizedKeys => "ssh_authorized_keys" | Pam => "pam"
  | RcLocal => "rc_local" | Udev => "udev" | SysvInit => "sysv_init" | AtJob => "at_job"
  | SystemdGenerator => "systemd_generator" | KernelModule => "kernel_module" | Motd => "motd"
  | SshRc => "ssh_rc" | InitramfsHook => "initramfs_hook" | BootLoader => "boot_loader"
  | Ebpf => "ebpf" | RegistryRun => "registry_run" | WindowsService => "windows_service"
  | ScheduledTask => "scheduled_task" | StartupFolder => "startup_folder" | Winlogon => "winlogon"
  end%string.

Inductive PersistenceScope := SystemScope | UserScope.
#[export] Instance PersistenceScope_eq_dec : EqDecision PersistenceScope.
Proof. solve_decision. Defined.

Record PersistenceEntry := mkEntry {
  mechanism : PersistenceMechanism; scope : PersistenceScope; location : ObservedPath;
  command : option string; executable : option ObservedPath; enabled : option bool;
  detail : option string }.

Inductive CheckStatus := Completed | Partial | Skipped | Unsupported | Failed.
#[export] Instance CheckStatus_eq_dec : EqDecision CheckStatus.
Proof. solve_decision. Defined.

Record CheckResult := mkResult {
  id : string; title : string; status : CheckStatus; examined : N; result_detail : option string }.

Record HostInfo := mkHost {
  host_os : string; kernel : option string; hostname : option string; host_root : ObservedPath;
  host_live : bool; euid : option N }.
End System.
#[export] Existing Instances System.PersistenceScope_eq_dec System.CheckStatus_eq_dec.

(** ** rules.rs *)
Module SysRules.

Definition DETECTOR_ID : string := "system-checks".

Record Rule := mkRule {
  id : string; name : string; kind : Finding.FindingKind; severity : Finding.Severity;
  confidence : Finding.Confidence; evidence : Finding.EvidenceKind; explanation : string }.

(** [Rule::finding], with the identifier and the time it draws. *)
Definition finding (version : string) (r : Rule) (target : Finding.FindingTarget) (summary : string)
    (fid : string) (now : Z) : Finding :=
  Finding.mk fid (kind r) (name r) (severity r) (confidence r) Finding.Unknown target
    (Finding.Build_DetectionSource DETECTOR_ID version (Some (id r)) (Some 1) None None)
    [Finding.Build_Evidence (evidence r) summary] (explanation r)
    (if bool_decide (kind r = Finding.Informational) then Finding.NoAction else Finding.Review) None
    Finding.NotAttempted None now.

Definition TEMP_EXEC : Rule := mkRule "AW-SYS-001" "Persistence runs a file from a temporary directory" Finding.Suspicious Finding.SHigh Finding.CMedium Finding.SuspiciousLocation
  "A persistence entry starts a program in /tmp, /var/tmp, /dev/shm or a similar directory. Legitimate software is installed elsewhere; malware often drops payloads in these world-writable locations.".
Definition DOWNLOAD_EXEC : Rule := mkRule "AW-SYS-002" "Persistence downloads and runs code" Finding.Suspicious Finding.SHigh Finding.CMedium Finding.SuspiciousCommand
  "The command fetches content from the network and pipes it to an interpreter or makes it executable. This is how many droppers and cryptominers re-install themselves; legitimate installers occasionally do it once, rarely on every boot or schedule.".
Definition REVERSE_SHELL : Rule := mkRule "AW-SYS-003" "Persistence opens a reverse shell" Finding.Suspicious Finding.SCritical Finding.CMedium Finding.SuspiciousCommand
  "The command connects a shell to a network socket (/dev/tcp, nc -e, socat exec, interpreter socket code). This gives a remote party interactive control.".
Definition ENCODED_EXEC : Rule := mkRule "AW-SYS-004" "Persistence decodes and runs an encoded payload" Finding.Suspicious Finding.SHigh Finding.CMedium Finding.SuspiciousCommand
  "The command decodes base64 (or similar) data and executes it, which hides the real command from casual inspection.".
Definition LD_PRELOAD_ENV : Rule := mkRule "AW-SYS-005" "LD_PRELOAD is set by a persistence entry" Finding.Suspicious Finding.SHigh Finding.CMedium Finding.SuspiciousCommand
  "LD_PRELOAD makes every program started in that context load an extra library first. User-mode rootkits use it to hide files and processes and to intercept credentials.".
Definition LD_SO_PRELOAD : Rule := mkRule "AW-SYS-006" "/etc/ld.so.preload is in use" Finding.Suspicious Finding.SHigh Finding.CMedium Finding.PersistenceEntry
  "Libraries listed in /etc/ld.so.preload are loaded into every dynamically linked program on the system. It is rarely used legitimately and is a classic user-mode rootkit technique.".
Definition WRITABLE_EXEC : Rule := mkRule "AW-SYS-007" "System persistence runs a file that other users can modify" Finding.Suspicious Finding.SHigh Finding.CMedium Finding.InsecurePermissions
  "A system-level entry (usually run as root) starts a program that is not owned by root or that group/other users can write, or that sits in a directory they can write. Whoever can change that file can run code as root.".
Definition WRITABLE_DEFINITION : Rule := mkRule "AW-SYS-008" "Persistence definition can be modified by other users" Finding.Suspicious Finding.SMedium Finding.CHigh Finding.InsecurePermissions
  "The file that defines this persistence entry is writable by group or other users (or, for system entries, not owned by root), so they can change what runs.".
Definition HIDDEN_EXEC : Rule := mkRule "AW-SYS-009" "Persistence runs a hidden file" Finding.Heuristic Finding.SMedium Finding.CLow Finding.SuspiciousLocation
  "The program started lives in a hidden (dot-prefixed) file or directory outside the common tool directories. Malware hides this way; some user tools do too.".
Definition PAM_NONSTANDARD : Rule := mkRule "AW-SYS-010" "PAM loads a module from a non-standard location" Finding.Suspicious Finding.SHigh Finding.CMedium Finding.PersistenceEntry
  "PAM modules run inside login, sudo and sshd with access to passwords. Modules loaded by absolute path outside the system security directories are a known backdoor technique.".
Definition MODULE_HIDDEN : Rule := mkRule "AW-SYS-011" "Kernel module hidden from one view" Finding.Suspicious Finding.SCritical Finding.CMedium Finding.CrossViewMismatch
  "A loadable kernel module appears in /sys/module but not in /proc/modules, or the reverse. Kernel rootkits unlink themselves from one list; legitimate modules appear in both.".
Definition KERNEL_FORCED : Rule := mkRule "AW-SYS-012" "A kernel module was force-loaded" Finding.Suspicious Finding.SMedium Finding.CLow Finding.KernelTaint
  "The kernel taint flags show a module loaded with version checks bypassed (flag F). Rootkits built for a different kernel are sometimes loaded this way.".
Definition KERNEL_TAINT_INFO : Rule := mkRule "AW-SYS-018" "Kernel tainted by out-of-tree or unsigned modules" Finding.Informational Finding.SInfo Finding.CHigh Finding.KernelTaint
  "Proprietary, out-of-tree or unsigned modules are loaded (common for graphics or virtualisation drivers). Listed for review; not a finding of compromise by itself.".
Definition HIDDEN_PROCESS : Rule := mkRule "AW-SYS-013" "Hidden process" Finding.Suspicious Finding.SCritical Finding.CMedium Finding.CrossViewMismatch
  "A process exists (its /proc entry answers directly) but is missing from the /proc directory listing. Rootkits hide processes this way.".
Definition DELETED_EXEC : Rule := mkRule "AW-SYS-014" "Process runs a deleted executable from a writable location" Finding.Suspicious Finding.SHigh Finding.CMedium Finding.DeletedExecutable
  "A running program's executable was deleted after start and was located in a temporary, world-writable or home directory. Malware often deletes itself to avoid disk scans.".
Definition PACKAGE_MODIFIED : Rule := mkRule "AW-SYS-015" "System file differs from its installed package" Finding.Suspicious Finding.SHigh Finding.CMedium Finding.PackageVerification
  "The package manager reports that this file's content no longer matches what the package installed. Trojanised system binaries show up this way; so do prelinked binaries and local modifications. The package database itself can be forged by root.".
Definition LAUNCHES_DETECTED : Rule := mkRule "AW-SYS-016" "Persistence launches detected content" Finding.Suspicious Finding.SCritical Finding.CHigh Finding.DetectedContent
  "A persistence entry starts a file that the content detectors flagged. See the matching finding in the referenced-file scan for the detection itself.".
Definition PAM_EXEC : Rule := mkRule "AW-SYS-017" "PAM runs an external program" Finding.Heuristic Finding.SLow Finding.CLow Finding.PersistenceEntry
  "pam_exec runs a program during authentication. It has legitimate uses, but the program can see authentication events and sometimes passwords; review it.".
Definition INJECTED_LIBRARY : Rule := mkRule "AW-SYS-019" "Code injected into the scanner process" Finding.Suspicious Finding.SCritical Finding.CMedium Finding.CrossViewMismatch
  "A shared library that this program never asks for is mapped into its own process. User-mode rootkits inject themselves into every program this way (ld.so.preload, LD_PRELOAD, LD_AUDIT) to hide files and processes, even when they hide the preload configuration itself. Results of this run may be falsified.".
Definition LOLBIN_EXEC : Rule := mkRule "AW-SYS-020" "Persistence uses a system program to run script or remote code" Finding.Suspicious Finding.SHigh Finding.CMedium Finding.SuspiciousCommand
  "The command uses a built-in Windows program (mshta, rundll32, regsvr32, certutil, bitsadmin, wmic) to fetch or run script code. Attackers use these signed binaries to avoid dropping their own executables.".
Definition IFEO_DEBUGGER : Rule := mkRule "AW-SYS-021" "Program launch redirected by Image File Execution Options" Finding.Suspicious Finding.SHigh Finding.CMedium Finding.PersistenceEntry
  "A Debugger (or SilentProcessExit monitor) is registered for a program, so Windows starts the registered command instead of, or alongside, that program. Used to hijack accessibility tools and security software.".
Definition WINLOGON_MODIFIED : Rule := mkRule "AW-SYS-022" "Winlogon shell or user-init changed" Finding.Suspicious Finding.SHigh Finding.CMedium Finding.PersistenceEntry
  "Winlogon's Shell or Userinit value differs from the Windows default, so an extra program runs at every logon.".
Definition APPINIT_DLLS : Rule := mkRule "AW-SYS-023" "AppInit_DLLs are loaded into every GUI process" Finding.Suspicious Finding.SHigh Finding.CMedium Finding.PersistenceEntry
  "AppInit_DLLs is set and enabled, so the listed libraries load into every process that uses user32.dll. Deprecated, and rarely used legitimately.".
Definition SYSTEM_USER_WRITABLE : Rule := mkRule "AW-SYS-024" "System-level entry runs a program from a user-writable location" Finding.Heuristic Finding.SMedium Finding.CLow Finding.SuspiciousLocation
  "A service or scheduled task that runs with system privileges starts a program under C:\Users or C:\ProgramData, where ordinary users can usually create or replace files.".
Definition HIDDEN_TASK : Rule := mkRule "AW-SYS-025" "Scheduled task is marked hidden" Finding.Heuristic Finding.SLow Finding.CLow Finding.PersistenceEntry
  "The task is flagged Hidden, so it does not appear in Task Scheduler by default.".
Definition SECURE_BOOT_OFF : Rule := mkRule "AW-SYS-027" "Secure Boot is disabled" Finding.Informational Finding.SInfo Finding.CHigh Finding.PersistenceEntry
  "The firmware reports that Secure Boot is off, so the boot loader and kernel are not verified before they run. Common on self-built systems; bootkits rely on it.".
Definition WEAK_CMDLINE : Rule := mkRule "AW-SYS-028" "Kernel command line weakens security" Finding.Suspicious Finding.SMedium Finding.CMedium Finding.PersistenceEntry
  "The running kernel was booted with options that disable a security mechanism or replace init (selinux=0, enforcing=0, apparmor=0, init=, module.sig_enforce=0, ima_appraise=off, debug shells). Attackers with boot-loader access set these.".
Definition BOOT_WRITABLE : Rule := mkRule "AW-SYS-029" "Boot files can be modified by other users" Finding.Suspicious Finding.SHigh Finding.CHigh Finding.InsecurePermissions
  "A kernel, initramfs, boot-loader file or directory under /boot is not owned by root or is writable by group or other users, who could then run code at the next boot.".

Definition CATALOGUE : list Rule :=
  [TEMP_EXEC; DOWNLOAD_EXEC; REVERSE_SHELL; ENCODED_EXEC; LD_PRELOAD_ENV; LD_SO_PRELOAD; WRITABLE_EXEC; WRITABLE_DEFINITION; HIDDEN_EXEC; PAM_NONSTANDARD; MODULE_HIDDEN; KERNEL_FORCED; KERNEL_TAINT_INFO; HIDDEN_PROCESS; DELETED_EXEC; PACKAGE_MODIFIED; LAUNCHES_DETECTED; PAM_EXEC; INJECTED_LIBRARY; LOLBIN_EXEC; IFEO_DEBUGGER; WINLOGON_MODIFIED; APPINIT_DLLS; SYSTEM_USER_WRITABLE; HIDDEN_TASK; SECURE_BOOT_OFF; WEAK_CMDLINE; BOOT_WRITABLE].
End SysRules.

(** ** heuristics.rs *)
Module Commands.
Import SysRules.

Definition LOADER_VARS : list string := ["LD_PRELOAD"; "LD_AUDIT"; "LD_LIBRARY_PATH"]%string.
Definition TEMP_DIRS : list string := ["/tmp"; "/var/tmp"; "/dev/shm"; "/run/shm"; "/dev/mqueue"]%string.
Definition BENIGN_DOT_DIRS : list string :=
  [".local"; ".cargo"; ".rustup"; ".npm"; ".nvm"; ".pyenv"; ".rbenv"; ".sdkman"; ".deno"; ".bun";
   ".gem"; ".var"; ".config"; ".dotnet"; ".volta"; ".asdf"; ".opam"; ".ghcup"; ".go"]%string.

Definition rule_of (k : Patterns.Pattern) : Rule :=
  match k with
  | Patterns.DownloadExec => DOWNLOAD_EXEC
  | Patterns.ReverseShell => REVERSE_SHELL
  | Patterns.EncodedExec => ENCODED_EXEC
  | Patterns.LoaderInjection => LD_PRELOAD_ENV
  | Patterns.LolBin => LOLBIN_EXEC
  end.

Definition command_indicators `{RegexLib} (t : text) : list (Rule * string) :=
  (λ m, (rule_of m.1, Patterns.snippet m.2)) <$> Patterns.command_indicators (of_chars t).

Definition in_temp_dir (p : path) : bool := existsb (path_starts_with p) TEMP_DIRS.

Definition dotted (s : string) : bool := str_starts_with s "." && (1 <? len s).
Definition normal_names (p : path) : list string :=
  omap (λ c, match c with Normal s => Some s | _ => None end) (components p).
Definition is_hidden (p : path) : bool :=
  match last (normal_names p) with
  | None => false
  | Some file =>
      dotted file || existsb (λ d, dotted d && negb (among BENIGN_DOT_DIRS d)) (removelast (normal_names p))
  end.

(** The loop of [shell_tokens]: [cur] and [started] are the token being read. *)
Fixpoint tokens_go (quote : option N) (started : bool) (cur : text) (out : list text) (l : text)
    : list text :=
  match l with
  | [] => if started || negb (bool_decide (cur = [])) then out ++ [cur] else out
  | c :: l =>
      let '(quote, started, cur, out) :=
        match quote with
        | Some q => if c =? q then (None, started, cur, out) else (Some q, started, cur ++ [c], out)
        | None =>
            if (c =? 39) || (c =? 34) then (Some c, true, cur, out)
            else if is_whitespace c then
              if started || negb (bool_decide (cur = [])) then (None, false, [], out ++ [cur])
              else (None, started, cur, out)
            else (None, started, cur ++ [c], out)
        end in
      if 16 <=? vlen out then if started || negb (bool_decide (cur = [])) then out ++ [cur] else out
      else tokens_go quote started cur out l
  end.
Definition shell_tokens (s : text) : list text := tokens_go None false [] [] (takeN Patterns.MAX_TEXT s).

Definition is_interpreter (base : text) : bool :=
  among_lits ["sh"; "bash"; "dash"; "zsh"; "ksh"; "perl"; "ruby"; "node"; "."; "source"]%string base
  || starts base "python".

Fixpoint first_program (tokens : list text) : option text :=
  match tokens with
  | [] => None
  | t :: rest =>
      let base := last_piece (is_char 47) t in
      if among_lits ["env"; "nohup"; "exec"; "setsid"]%string base then first_program rest
      else if existsb (is_char 61) t && negb (starts t "/") then first_program rest
      else
        match (if is_interpreter base then head rest else None) with
        | Some next => if starts next "/" then Some next else if starts t "/" then Some t else None
        | None => if starts t "/" then Some t else None
        end
  end.

Definition command_executable (command : text) : option text :=
  first_program (shell_tokens (trim (skip_while (one_of "-@:+!") command))).
End Commands.

(** What the checks see of their surroundings besides files: whether the run
    is cancelled at its [n]-th poll, and the identifiers and times given to
    findings. *)
Class Session := {
  cancel_seen : nat → bool;
  new_id : nat → string;
  now : nat → Z;
  version : string }.

(** ** ctx.rs *)
Module Ctx.
Import System SysRules Commands Fsx.

Section WithHost.
Context `{K : Kernel, RX : RegexLib, ST : StdText, SE : Session}.

(** [Ctx], and [Run] for the check that runs. *)
Record State := mkState {
  root : Root; users : list User; users_limited : bool;
  findings : list Finding; persistence : list PersistenceEntry; issues : list Report.ScanIssue;
  seen : list (string * string * string); polls : nat;
  examined : N; partial : bool; notes : list string }.

Definition initial (r : Root) : State := mkState r [] false [] [] [] [] 0 0 false [].

Definition M (A : Type) : Type := State → A * State.
#[global] Instance M_ret : MRet M := λ A a s, (a, s).
#[global] Instance M_bind : MBind M := λ A B f m s, let '(a, s) := m s in f a s.

Definition get {A} (f : State → A) : M A := λ s, (f s, s).
Definition modify (f : State → State) : M unit := λ s, (tt, f s).
Definition when (c : bool) (m : M unit) : M unit := if c then m else mret tt.
(** [for x in xs] *)
Fixpoint for_each {A} (f : A → M unit) (xs : list A) : M unit :=
  match xs with [] => mret tt | x :: xs => _ ← f x; for_each f xs end.
(** A loop that stops when the body says so. *)
Fixpoint for_until {A} (f : A → M bool) (xs : list A) : M unit :=
  match xs with
  | [] => mret tt
  | x :: xs => stop ← f x; if stop : bool then mret tt else for_until f xs
  end.
(** [iter.filter_map(f)] with effects. *)
Fixpoint filter_map {A B} (f : A → M (option B)) (xs : list A) : M (list B) :=
  match xs with
  | [] => mret []
  | x :: xs => y ← f x; ys ← filter_map f xs; mret (match y with Some y => y :: ys | None => ys end)
  end.

Definition set_run (e : N) (p : bool) (n : list string) : State → State := λ s,
  mkState (root s) (users s) (users_limited s) (findings s) (persistence s) (issues s) (seen s) (polls s) e p n.
Definition set_results (f : list Finding) (p : list PersistenceEntry) (i : list Report.ScanIssue)
    (k : list (string * string * string)) : State → State := λ s,
  mkState (root s) (users s) (users_limited s) f p i k (polls s) (examined s) (partial s) (notes s).
Definition set_polls (n : nat) : State → State := λ s,
  mkState (root s) (users s) (users_limited s) (findings s) (persistence s) (issues s) (seen s) n
    (examined s) (partial s) (notes s).

(** [run.examined += n], [run.partial = true], [run.notes.push(..)] *)
Definition add_examined (n : N) : M unit := modify (λ s, set_run (examined s + n) (partial s) (notes s) s).
Definition set_partial : M unit := modify (λ s, set_run (examined s) true (notes s) s).
Definition note (n : string) : M unit := modify (λ s, set_run (examined s) (partial s) (notes s ++ [n]) s).

(** [Run::default()] *)
Definition new_run : M unit := modify (set_run 0 false []).

Definition cancelled : M bool := λ s, (cancel_seen (polls s), set_polls (S (polls s)) s).

Definition joined (sep : string) (l : list string) : string := String.concat sep l.

(** [Run::finish] *)
Definition finish (id title : string) : M CheckResult :=
  c ← cancelled;
  _ ← when c (_ ← set_partial; note "cancelled");
  p ← get partial;
  e ← get examined;
  n ← get notes;
  mret (mkResult id title (if p : bool then Partial else Completed) e
          (if bool_decide (n = []) then None else Some (joined "; " n))).

Definition skipped (id title : string) (st : CheckStatus) (why : string) : CheckResult :=
  mkResult id title st 0 (Some why).

Record Found := mkFound {
  f_mechanism : PersistenceMechanism; f_scope : PersistenceScope; f_location : path;
  f_command : option Chars.text; f_enabled : option bool; f_detail : option string;
  def_meta : option Meta; owner_uid : option N; find_executable : bool }.

Definition ignored_error (e : IoError) : bool := bool_decide (e = Os 2) || bool_decide (e = Os 20) || bool_decide (e = Os 40).
Definition denied (e : IoError) : bool := bool_decide (e = Os 1) || bool_decide (e = Os 13).

Definition io_error (p : path) (e : IoError) : M unit :=
  if ignored_error e then mret tt
  else
    _ ← set_partial;
    modify (λ s, set_results (findings s) (persistence s)
      (issues s ++ [Report.Build_ScanIssue (Some (ObservedPath.from_path p))
                      (if denied e then Report.PermissionDenied else Report.Io)
                      (Some DETECTOR_ID) (io_text e) None]) (seen s) s).

(** What a finding is known by: its rule, where it is, and the entry or the
    observation. *)
Definition place (target : Finding.FindingTarget) : string :=
  match Finding.target_path target with
  | Some p => ObservedPath.text p
  | None => match target with
            | Finding.System component => component
            | Finding.Process pid _ _ => show_N pid
            | _ => ""%string
            end
  end.
Definition entry_or (target : Finding.FindingTarget) (summary : string) : string :=
  match target with
  | Finding.Persistence _ _ entry => default ""%string entry
  | _ => summary
  end.
Definition key (rule : Rule) (target : Finding.FindingTarget) (summary : string) : string * string * string :=
  (id rule, place target, entry_or target summary).

Definition report (rule : Rule) (target : Finding.FindingTarget) (summary : string) : M unit :=
  modify (λ s,
    let k := key rule target summary in
    if bool_decide (k ∈ seen s) then s
    else
      let n := length (findings s) in
      set_results (findings s ++ [finding version rule target summary (new_id n) (now n)])
        (persistence s) (issues s) (k :: seen s) s).

Definition push_entry (e : PersistenceEntry) : M unit :=
  modify (λ s, set_results (findings s) (persistence s ++ [e]) (issues s) (seen s) s).

(** [{:04o}] *)
Fixpoint octal_go (fuel : nat) (n : N) (acc : bytes) : bytes :=
  match fuel with
  | O => acc
  | S fuel => let acc := 48 + n mod 8 :: acc in if n / 8 =? 0 then acc else octal_go fuel (n / 8) acc
  end.
Definition octal4 (n : N) : string :=
  let d := octal_go (S (N.size_nat n)) n [] in of_bytes (repeat 48 (4 - length d) ++ d).

Definition owner_text (m : Meta) : string :=
  fmt "owner uid {}, group {}, mode {:04o}" [show_N (Fsx.uid m); show_N (Fsx.gid m); octal4 (Fsx.mode m)].

(** [p.parent()] repeated: the ancestors, nearest first. A path has fewer
    ancestors than components. *)
Fixpoint ancestors_go (fuel : nat) (p : path) : list path :=
  match fuel with
  | O => []
  | S fuel => match parent p with Some d => d :: ancestors_go fuel d | None => [] end
  end.
Definition ancestors (p : path) : list path := ancestors_go (length (components p)) p.

Definition writable_dir (r : Root) (d : path) : option string :=
  match stat r d with
  | Ok m =>
      if dir_writable_by_non_root m
      then Some (fmt "directory {} is writable by others (owner uid {}, mode {:04o})"
                   [display d; show_N (Fsx.uid m); octal4 (Fsx.mode m)])
      else None
  | Err _ => None
  end.

Definition first_some {A B} (f : A → option B) (l : list A) : option B := head (omap f l).

Definition writable_chain (r : Root) (exe : path) : option string :=
  match stat r exe with
  | Err _ => None
  | Ok m =>
      if negb (bool_decide (Fsx.kind m = KFile)) then None
      else if writable_by_non_root m then Some (owner_text m)
      else first_some (writable_dir r) (ancestors exe)
  end.

Definition snippet_long (s : Chars.text) : string :=
  of_chars (trim (takeN 1024 ((λ c, if Text.is_control c then 32 else c) <$> s))).

(** The steps of [record]. *)
Definition target_of (f : Found) (entry : option Chars.text) : Finding.FindingTarget :=
  Finding.Persistence (mechanism_name (f_mechanism f)) (ObservedPath.from_path (f_location f))
    (Patterns.snippet ∘ of_chars <$> entry).

Definition text_lines (t : option Chars.text) : list Chars.text :=
  match t with
  | Some t => List.filter (λ l, negb (bool_decide (l = [])) && negb (starts l "#")) (trim <$> lines t)
  | None => []
  end.

Definition report_commands (f : Found) (ls : list Chars.text) : M unit :=
  for_each (λ line, for_each (λ '(rule, matched),
    report rule (target_of f (Some line)) (fmt "matched: {matched}" [matched])) (command_indicators line)) ls.

(** One thing a line starts. *)
Definition report_start (f : Found) (start : Chars.text * option Chars.text) : M unit :=
  let '(exe, line) := start in
  let p := of_chars exe in
  _ ← (if in_temp_dir p then report TEMP_EXEC (target_of f line) (fmt "starts {exe}" [p])
       else when (is_hidden p && bool_decide (f_command f = line))
              (report HIDDEN_EXEC (target_of f line) (fmt "starts {exe}" [p])));
  r ← get root;
  match (if bool_decide (f_scope f = SystemScope) then writable_chain r p else None) with
  | Some why => report WRITABLE_EXEC (target_of f line) (fmt "{exe}: {why}" [p; why])
  | None => mret tt
  end.

Definition starts_of (f : Found) (t : option Chars.text) : list (Chars.text * option Chars.text) :=
  (match f_command f ≫= command_executable with Some e => [(e, f_command f)] | None => [] end)
  ++ omap (λ line, e ← command_executable line; Some (e, Some line)) (text_lines t).

Definition definition_problem (f : Found) (m : Meta) : option string :=
  match f_scope f with
  | SystemScope => if writable_by_non_root m then Some (owner_text m) else None
  | UserScope =>
      let foreign_owner := from_option (λ u, negb (Fsx.uid m =? u) && negb (Fsx.uid m =? 0)) false (owner_uid f) in
      if bit (Fsx.mode m) 0x2 || foreign_owner
      then Some (fmt "owner uid {}, mode {:04o}" [show_N (Fsx.uid m); octal4 (Fsx.mode m)]) else None
  end.

Definition entry_of (f : Found) : PersistenceEntry :=
  System.mkEntry (f_mechanism f) (f_scope f) (ObservedPath.from_path (f_location f))
    (snippet_long <$> f_command f)
    (if find_executable f
     then ObservedPath.from_path ∘ of_chars <$> (f_command f ≫= command_executable) else None)
    (f_enabled f) (f_detail f).

Definition report_definition (f : Found) : M unit :=
  match def_meta f ≫= definition_problem f with
  | Some p => report WRITABLE_DEFINITION (target_of f None) p
  | None => mret tt
  end.

Definition report_all (f : Found) (t : option Chars.text) : M unit :=
  _ ← report_commands f (match f_command f with Some c => [c] | None => [] end ++ text_lines t);
  _ ← when (find_executable f) (for_each (report_start f) (starts_of f t));
  report_definition f.

Definition record (f : Found) (t : option Chars.text) : M unit :=
  _ ← report_all f t;
  push_entry (entry_of f).
End WithHost.
End Ctx.

(** ** What checks may do *)

(** Every check acts on the shared state only in these ways: it polls, counts,
    notes, becomes partial, adds an issue once it is partial, adds a finding of
    the catalogue that is not known yet, or adds an entry to the inventory. *)
Module Acts.
Import System SysRules Commands Fsx Ctx.

Section WithHost.
Context `{K : Kernel, RX : RegexLib, ST : StdText, SE : Session}.

Inductive act : State → State → Prop :=
  | act_poll s : act s (set_polls (S (polls s)) s)
  | act_examined s n : act s (set_run n (partial s) (notes s) s)
  | act_partial s : act s (set_run (examined s) true (notes s) s)
  | act_note s n : act s (set_run (examined s) (partial s) (notes s ++ [n]) s)
  | act_issue s i :
      partial s = true →
      act s (set_results (findings s) (persistence s) (issues s ++ [i]) (seen s) s)
  | act_finding s rule target summary :
      rule ∈ CATALOGUE → key rule target summary ∉ seen s →
      act s (set_results
        (findings s ++ [finding version rule target summary (new_id (length (findings s))) (now (length (findings s)))])
        (persistence s) (issues s) (key rule target summary :: seen s) s)
  | act_entry s e :
      act s (set_results (findings s) (persistence s ++ [e]) (issues s) (seen s) s).

Definition acts {A} (m : M A) : Prop := ∀ s, rtc act s (m s).2.

Lemma acts_ret {A} (a : A) : acts (mret a).
Proof. intros s. apply rtc_refl. Qed.

Lemma acts_get {A} (f : State → A) : acts (get f).
Proof. intros s. apply rtc_refl. Qed.

Lemma acts_bind {A B} (m : M A) (f : A → M B) : acts m → (∀ a, acts (f a)) → acts (m ≫= f).
Proof.
  intros Hm Hf s. unfold mbind, M_bind. destruct (m s) as [a s'] eqn:E.
  specialize (Hm s). rewrite E in Hm. etrans; [exact Hm|apply Hf].
Qed.

Lemma acts_when c m : acts m → acts (when c m).
Proof. intros. destruct c; [done|apply acts_ret]. Qed.

Lemma acts_for_each {A} (f : A → M unit) xs : (∀ x, acts (f x)) → acts (for_each f xs).
Proof. intros Hf. induction xs as [|x xs IH]; simpl; [apply acts_ret|]. apply acts_bind; auto. Qed.

Lemma acts_for_each_in {A} (f : A → M unit) xs : (∀ x, x ∈ xs → acts (f x)) → acts (for_each f xs).
Proof.
  induction xs as [|x xs IH]; intros Hf; simpl; [apply acts_ret|].
  apply acts_bind; [apply Hf; left|]. intros _. apply IH. intros y Hy. apply Hf. by right.
Qed.

Lemma acts_for_until {A} (f : A → M bool) xs : (∀ x, acts (f x)) → acts (for_until f xs).
Proof.
  intros Hf. induction xs as [|x xs IH]; simpl; [apply acts_ret|]. apply acts_bind; [done|].
  intros []; [apply acts_ret|done].
Qed.

Lemma acts_filter_map {A B} (f : A → M (option B)) xs : (∀ x, acts (f x)) → acts (filter_map f xs).
Proof.
  intros Hf. induction xs as [|x xs IH]; simpl; [apply acts_ret|].
  apply acts_bind; [done|]. intros y. apply acts_bind; [done|]. intros ys. apply acts_ret.
Qed.

Lemma acts_step (m : M unit) : (∀ s, act s (m s).2) → acts m.
Proof. intros H s. by apply rtc_once. Qed.

Lemma acts_add_examined n : acts (add_examined n).
Proof. apply acts_step. intros s. constructor. Qed.
Lemma acts_set_partial : acts set_partial.
Proof. apply acts_step. intros s. constructor. Qed.
Lemma acts_note n : acts (note n).
Proof. apply acts_step. intros s. constructor. Qed.
Lemma acts_cancelled : acts cancelled.
Proof. intros s. apply rtc_once. constructor. Qed.
Lemma acts_push_entry e : acts (push_entry e).
Proof. apply acts_step. intros s. constructor. Qed.

Lemma acts_io_error p e : acts (io_error p e).
Proof.
  unfold io_error. destruct (ignored_error e); [apply acts_ret|]. intros s.
  eapply rtc_l; [apply act_partial|]. apply rtc_once. by apply act_issue.
Qed.

Lemma acts_report rule target summary : rule ∈ CATALOGUE → acts (report rule target summary).
Proof.
  intros Hr s. unfold report, modify. simpl. case_bool_decide; [apply rtc_refl|]. apply rtc_once. by constructor.
Qed.

Lemma acts_finish id title : acts (finish id title).
Proof.
  unfold finish. apply acts_bind; [apply acts_cancelled|]. intros c.
  apply acts_bind; [apply acts_when, acts_bind; [apply acts_set_partial|intros _; apply acts_note]|].
  intros _. repeat (apply acts_bind; [apply acts_get|intros ?]). apply acts_ret.
Qed.

End WithHost.
End Acts.

Create HintDb acts.
#[export] Hint Extern 0 (_ ∈ SysRules.CATALOGUE) =>
  unfold SysRules.CATALOGUE; repeat first [apply list_elem_of_here | apply list_elem_of_further] : acts.
#[export] Hint Resolve Acts.acts_ret Acts.acts_get Acts.acts_add_examined Acts.acts_set_partial Acts.acts_note
  Acts.acts_cancelled Acts.acts_push_entry Acts.acts_io_error Acts.acts_report Acts.acts_finish : acts.

(** Follow the structure of a computation. *)
Ltac acting :=
  repeat first
    [ progress intros
    | progress cbn beta iota zeta
    | solve [auto with acts nocore]
    | match goal with
      | |- Acts.acts (_ ≫= _) => apply Acts.acts_bind
      | |- Acts.acts (Ctx.when _ _) => apply Acts.acts_when
      | |- Acts.acts (Ctx.for_each _ _) => apply Acts.acts_for_each
      | |- Acts.acts (Ctx.for_until _ _) => apply Acts.acts_for_until
      | |- Acts.acts (Ctx.filter_map _ _) => apply Acts.acts_filter_map
      | |- Acts.acts (match ?x with _ => _ end) => destruct x
      | |- Acts.acts (let '(_, _) := ?x in _) => destruct x
      end ].

Module CtxProps.
Import System SysRules Commands Fsx Ctx Acts.

Section WithHost.
Context `{K : Kernel, RX : RegexLib, ST : StdText, SE : Session}.

Lemma rule_of_catalogue k : rule_of k ∈ CATALOGUE.
Proof. destruct k; simpl; auto with acts. Qed.

Lemma indicator_rule t r m : (r, m) ∈ Commands.command_indicators t → r ∈ CATALOGUE.
Proof.
  unfold Commands.command_indicators. generalize (Patterns.command_indicators (of_chars t)). intros l.
  intros ([k x] & E & _)%list_elem_of_fmap. injection E as -> _. apply rule_of_catalogue.
Qed.

Lemma acts_report_commands f ls : acts (report_commands f ls).
Proof.
  unfold report_commands. apply acts_for_each. intros line. apply acts_for_each_in.
  intros [r m] Hr%indicator_rule. by apply acts_report.
Qed.

Lemma acts_report_start f st : acts (report_start f st).
Proof. unfold report_start. acting. Qed.

Lemma acts_record f t : acts (record f t).
Proof. pose proof acts_report_commands. pose proof acts_report_start. unfold record, report_all, report_definition. acting. Qed.

(** The key of a finding that was made from a rule. *)
Definition key_of (f : Finding) : string * string * string :=
  (default ""%string (Finding.rule_id (Finding.source f)), place (Finding.target f),
   entry_or (Finding.target f) (from_option Finding.summary ""%string (head (Finding.evidence f)))).

Lemma key_of_finding rule target summary fid t :
  key_of (finding version rule target summary fid t) = key rule target summary.
Proof. done. Qed.

(** The findings come from the catalogue, in the order of their identifiers,
    and no two have the same key. *)
Record kept (s : State) : Prop := {
  kept_rules i f : findings s !! i = Some f →
    ∃ rule target summary, rule ∈ CATALOGUE ∧ f = finding version rule target summary (new_id i) (now i);
  kept_seen : seen s = reverse (key_of <$> findings s);
  kept_unique : NoDup (key_of <$> findings s) }.

Lemma kept_initial r us lim p i n e pa no : kept (mkState r us lim [] p i [] n e pa no).
Proof. split; simpl; [done|done|constructor]. Qed.

Lemma kept_same s s' : findings s' = findings s → seen s' = seen s → kept s → kept s'.
Proof. intros Hf Hs [H1 H2 H3]. split; by rewrite ?Hf, ?Hs. Qed.

Lemma act_kept s s' : act s s' → kept s → kept s'.
Proof.
  intros H Hk. destruct H as [| | | | |s rule target summary Hr Hn|]; try by eapply kept_same; [..|exact Hk].
  destruct Hk as [H1 H2 H3]. split; simpl.
  - intros i f [Hl|[Hl Hi]]%lookup_app_Some; [by apply H1|].
    apply list_lookup_singleton_Some in Hi as [Hi <-].
    replace i with (length (findings s)) by lia. by exists rule, target, summary.
  - by rewrite fmap_app, reverse_app, H2.
  - rewrite fmap_app. apply NoDup_app. split_and!; [done| |apply NoDup_singleton].
    intros k Hk. simpl. rewrite key_of_finding, list_elem_of_singleton. intros ->.
    apply Hn. rewrite H2. by apply elem_of_reverse.
Qed.

(** What a computation may change. *)
Record grows (s s' : State) : Prop := {
  g_root : root s' = root s; g_users : users s' = users s; g_limited : users_limited s' = users_limited s;
  g_findings : findings s `prefix_of` findings s';
  g_persistence : persistence s `prefix_of` persistence s';
  g_issues : issues s `prefix_of` issues s';
  g_polls : (polls s ≤ polls s')%nat }.

#[export] Instance grows_preorder : PreOrder grows.
Proof.
  split; [by split|]. intros s1 s2 s3 [] []. split; try congruence; try (by etrans).
Qed.

Lemma act_grows s s' : act s s' → grows s s'.
Proof. intros []; split; simpl; try done; try apply prefix_app_r; try lia; done. Qed.

Lemma acts_grows s s' : rtc act s s' → grows s s'.
Proof. induction 1 as [s|s1 s2 s3 H _ IH]; [reflexivity|]. etrans; [by apply act_grows|done]. Qed.

Lemma acts_kept s s' : rtc act s s' → kept s → kept s'.
Proof. induction 1 as [s|s1 s2 s3 H _ IH]; [done|]. intros. by apply IH, (act_kept s1). Qed.

(** A check that is not partial met no error: an issue makes it partial. *)
Lemma acts_partial s s' : rtc act s s' → partial s' = false → partial s = false ∧ issues s' = issues s.
Proof.
  induction 1 as [s|s1 s2 s3 H _ IH]; [done|]. intros Hp. destruct (IH Hp) as [H2 Hi].
  destruct H; simpl in *; try done. congruence.
Qed.

(** A check runs on fresh counters, ends with a result of its name, and the
    result says so when the check was cut short: otherwise it is not partial
    and its last poll, if any, saw no cancellation. *)
Definition cut_short (c : CheckResult) : Prop := System.status c = Partial ∨ System.status c = Failed.
Record ends (id : string) (s : State) (r : CheckResult * State) : Prop := {
  ends_acts : rtc act s r.2;
  ends_id : System.id r.1 = id;
  ends_whole : ¬ cut_short r.1 →
    partial r.2 = false ∧ ∃ n, polls r.2 = S n ∧ cancel_seen n = false }.
Definition tail (id : string) (m : M CheckResult) : Prop := ∀ s, ends id s (m s).

(** A check of this name was run, or not run at all. *)
Inductive checked (id : string) (s : State) : CheckResult * State → Prop :=
  | ran e p n r : ends id (set_run e p n s) r → partial (set_run e p n s) = false → checked id s r
  | not_run e p n title st why : checked id s (skipped id title st why, set_run e p n s).
Definition checks (id : string) (m : M CheckResult) : Prop := ∀ s, checked id s (m s).

Lemma tail_finish id title : tail id (finish id title).
Proof.
  intros s. split; [apply acts_finish| |].
  - unfold finish, cancelled, get, when, mbind, M_bind. cbn. by destruct (cancel_seen (polls s)).
  - unfold finish, cancelled, get, when, mbind, M_bind, cut_short. cbn [polls set_polls].
    destruct (cancel_seen (polls s)) eqn:Hc; cbn; [intros []; auto|].
    destruct (partial s) eqn:Hp; cbn; [intros []; auto|]. intros _. split; [done|]. by exists (polls s).
Qed.

Lemma tail_bind {A} id (m : M A) f : acts m → (∀ a, tail id (f a)) → tail id (m ≫= f).
Proof.
  intros Hm Hf s. unfold mbind, M_bind. specialize (Hm s). destruct (m s) as [a s']. simpl in Hm.
  destruct (Hf a s') as [Ha Hi Hw]. split; [by etrans|done..].
Qed.

Lemma checks_tail id m : tail id m → checks id (_ ← new_run; m).
Proof. intros Hm s. unfold mbind, M_bind, new_run, modify. by eapply (ran _ _ 0 false []); [apply Hm|]. Qed.

(** A computation that only reports: the keys it makes known. *)
Definition adds (m : M unit) (P : Root → string * string * string → Prop) : Prop := ∀ s,
  (∀ k, k ∈ seen (m s).2 ↔ k ∈ seen s ∨ P (root s) k) ∧
  root (m s).2 = root s ∧ persistence (m s).2 = persistence s.

Lemma adds_weaken m P Q : adds m P → (∀ r k, P r k ↔ Q r k) → adds m Q.
Proof. intros Hm HPQ s. destruct (Hm s) as (Hk & ? & ?). split_and!; [|done..]. intros k. by rewrite Hk, HPQ. Qed.

Lemma adds_nothing : adds (mret tt) (λ _ _, False).
Proof. intros s. split_and!; [|done..]. intros k. simpl. tauto. Qed.

Lemma adds_report rule target summary : adds (report rule target summary) (λ _ k, k = key rule target summary).
Proof.
  intros s. unfold report, modify. cbn. case_bool_decide as Hk; cbn; split_and!; try done.
  - intros k. split; [by left|]. by intros [?| ->].
  - intros k. rewrite elem_of_cons. tauto.
Qed.

Lemma adds_bind m m' P Q : adds m P → adds m' Q → adds (_ ← m; m') (λ r k, P r k ∨ Q r k).
Proof.
  intros Hm Hm' s. unfold mbind, M_bind. destruct (Hm s) as (Hk & Hr & Hp). destruct (m s) as [[] s1]. simpl in *.
  destruct (Hm' s1) as (Hk' & Hr' & Hp'). split_and!; [|congruence..].
  intros k. rewrite Hk', Hk, Hr. tauto.
Qed.

Lemma adds_when (c : bool) m P : adds m P → adds (when c m) (λ r k, c = true ∧ P r k).
Proof.
  intros Hm. destruct c; [eapply adds_weaken; [done|]|eapply adds_weaken; [apply adds_nothing|]]; naive_solver.
Qed.

Lemma adds_for_each {A} (f : A → M unit) xs (P : A → Root → string * string * string → Prop) :
  (∀ x, adds (f x) (P x)) → adds (for_each f xs) (λ r k, ∃ x, x ∈ xs ∧ P x r k).
Proof.
  intros Hf. induction xs as [|x xs IH]; simpl.
  - eapply adds_weaken; [apply adds_nothing|]. intros r k. split; [done|]. by intros (x & ?%elem_of_nil & _).
  - eapply adds_weaken; [by apply adds_bind|]. intros r k. simpl. split.
    + intros [H|(y & Hy & H)]; [exists x|exists y]; by rewrite elem_of_cons; auto.
    + intros (y & [->|Hy]%elem_of_cons & H); [by left|right; by exists y].
Qed.

(** The keys of the findings that one entry of the inventory deserves: of its
    command and of the lines of its text, of what they start, and of the file
    that defines it. *)
Definition deserved (f : Found) (t : option Chars.text) (r : Root) (k : string * string * string) : Prop :=
  (∃ line, line ∈ match f_command f with Some c => [c] | None => [] end ++ text_lines t ∧
     ∃ rm, rm ∈ command_indicators line ∧
       k = key rm.1 (target_of f (Some line)) (fmt "matched: {matched}" [rm.2])) ∨
  (find_executable f = true ∧ ∃ start, start ∈ starts_of f t ∧
     let p := of_chars start.1 in
     (in_temp_dir p = true ∧ k = key TEMP_EXEC (target_of f start.2) (fmt "starts {exe}" [p])) ∨
     (in_temp_dir p = false ∧ is_hidden p = true ∧ f_command f = start.2 ∧
      k = key HIDDEN_EXEC (target_of f start.2) (fmt "starts {exe}" [p])) ∨
     (f_scope f = SystemScope ∧ ∃ why, writable_chain r p = Some why ∧
      k = key WRITABLE_EXEC (target_of f start.2) (fmt "{exe}: {why}" [p; why]))) ∨
  (∃ p, (def_meta f ≫= definition_problem f) = Some p ∧ k = key WRITABLE_DEFINITION (target_of f None) p).

Lemma adds_report_commands f ls :
  adds (report_commands f ls) (λ _ k, ∃ line, line ∈ ls ∧ ∃ rm, rm ∈ command_indicators line ∧
       k = key rm.1 (target_of f (Some line)) (fmt "matched: {matched}" [rm.2])).
Proof.
  unfold report_commands.
  apply (adds_for_each _ ls (λ line _ k, ∃ rm, rm ∈ command_indicators line ∧
       k = key rm.1 (target_of f (Some line)) (fmt "matched: {matched}" [rm.2]))). intros line.
  apply (adds_for_each _ _ (λ rm _ k, k = key rm.1 (target_of f (Some line)) (fmt "matched: {matched}" [rm.2]))).
  intros [r m]. apply adds_report.
Qed.

Lemma adds_report_start f start :
  adds (report_start f start) (λ r k,
     let p := of_chars start.1 in
     (in_temp_dir p = true ∧ k = key TEMP_EXEC (target_of f start.2) (fmt "starts {exe}" [p])) ∨
     (in_temp_dir p = false ∧ is_hidden p = true ∧ f_command f = start.2 ∧
      k = key HIDDEN_EXEC (target_of f start.2) (fmt "starts {exe}" [p])) ∨
     (f_scope f = SystemScope ∧ ∃ why, writable_chain r p = Some why ∧
      k = key WRITABLE_EXEC (target_of f start.2) (fmt "{exe}: {why}" [p; why]))).
Proof.
  destruct start as [exe line]. unfold report_start. cbn [fst snd]. cbv zeta. generalize (of_chars exe). intros p.
  eapply adds_weaken; [apply adds_bind|].
  - instantiate (1 := λ r k,
      (in_temp_dir p = true ∧ k = key TEMP_EXEC (target_of f line) (fmt "starts {exe}" [p])) ∨
      (in_temp_dir p = false ∧ is_hidden p = true ∧ f_command f = line ∧
       k = key HIDDEN_EXEC (target_of f line) (fmt "starts {exe}" [p]))).
    destruct (in_temp_dir p).
    + eapply adds_weaken; [apply adds_report|]. intros ? k. simpl. naive_solver.
    + eapply adds_weaken; [apply adds_when, adds_report|]. intros ? k. simpl.
      rewrite andb_true_iff, bool_decide_eq_true. naive_solver.
  - instantiate (1 := λ r k, f_scope f = SystemScope ∧ ∃ why, writable_chain r p = Some why ∧
      k = key WRITABLE_EXEC (target_of f line) (fmt "{exe}: {why}" [p; why])).
    intros s. unfold get, mbind, M_bind. case_bool_decide as Hsc.
    + destruct (writable_chain (root s) p) as [why|] eqn:Hw.
      * destruct (adds_report WRITABLE_EXEC (target_of f line) (fmt "{exe}: {why}" [p; why]) s) as (Hk & ? & ?).
        split_and!; [|done..]. intros k. rewrite Hk. naive_solver.
      * split_and!; [|done..]. intros k. simpl. naive_solver.
    + split_and!; [|done..]. intros k. simpl. naive_solver.
  - intros r k. cbn. tauto.
Qed.

(** What [record] does: it makes known the findings the entry deserves, and
    nothing else, and lists the entry. *)
Lemma record_adds f t s :
  (∀ k, k ∈ seen (record f t s).2 ↔ k ∈ seen s ∨ deserved f t (root s) k) ∧
  root (record f t s).2 = root s ∧
  persistence (record f t s).2 = persistence s ++ [entry_of f].
Proof.
  assert (adds (report_all f t) (deserved f t)) as Hm.
  { unfold report_all. eapply adds_weaken; [apply adds_bind; [apply adds_report_commands|apply adds_bind;
      [apply adds_when, (adds_for_each _ _ _ (adds_report_start f))|]]|].
    - instantiate (1 := λ _ k, ∃ p, (def_meta f ≫= definition_problem f) = Some p ∧
        k = key WRITABLE_DEFINITION (target_of f None) p).
      unfold report_definition. destruct (def_meta f ≫= definition_problem f) as [p|].
      + eapply adds_weaken; [apply adds_report|]. intros ? k. simpl. naive_solver.
      + eapply adds_weaken; [apply adds_nothing|]. intros ? k. simpl. naive_solver.
    - intros r k. unfold deserved. cbv beta zeta. tauto. }
  unfold record, mbind, M_bind. destruct (Hm s) as (Hk & Hr & Hp).
  destruct (report_all f t s) as [[] s1]. simpl in *. split_and!; [done|done|]. by rewrite Hp.
Qed.

(** *** Who can change a program *)

(** A user other than root, with groups other than root's. *)
Record Principal := mkPrincipal { p_uid : N; p_gids : list N }.
Definition ordinary (w : Principal) : Prop := p_uid w ≠ 0 ∧ 0 ∉ p_gids w.

(** The write permission that the mode gives, of the group for its members and
    of the others for the rest. The owner can set the mode. *)
Definition mode_allows (w : Principal) (m : Meta) : Prop :=
  if bool_decide (Fsx.gid m ∈ p_gids w) then bit (Fsx.mode m) 0x10 = true else bit (Fsx.mode m) 0x2 = true.
Definition can_change (w : Principal) (m : Meta) : Prop := p_uid w = Fsx.uid m ∨ mode_allows w m.
(** Replacing what a directory holds: not in a sticky directory of another. *)
Definition can_replace_in (w : Principal) (m : Meta) : Prop :=
  p_uid w = Fsx.uid m ∨ (bit (Fsx.mode m) 0x200 = false ∧ mode_allows w m).

Lemma someone_allowed m :
  (bit (Fsx.mode m) 0x10 && negb (Fsx.gid m =? 0)) || bit (Fsx.mode m) 0x2 = true ↔
  ∃ w, ordinary w ∧ mode_allows w m.
Proof.
  unfold ordinary, mode_allows. split.
  - intros [[Hb Hg]%andb_true_iff|Hb]%orb_true_iff.
    + apply negb_true_iff, N.eqb_neq in Hg. exists (mkPrincipal 1 [Fsx.gid m]). cbn [p_uid p_gids].
      split; [split; [done|set_solver]|]. case_bool_decide; [done|set_solver].
    + exists (mkPrincipal 1 []). cbn [p_uid p_gids]. split; [split; [done|set_solver]|].
      case_bool_decide; [set_solver|done].
  - intros (w & [_ Hg] & Hm). case_bool_decide as Hi; rewrite Hm; [|by rewrite orb_true_r].
    apply orb_true_iff. left. apply andb_true_iff. split; [done|]. apply negb_true_iff, N.eqb_neq. congruence.
Qed.

Lemma owner_exists m : Fsx.uid m ≠ 0 → ∃ w, ordinary w ∧ p_uid w = Fsx.uid m.
Proof. intros H. exists (mkPrincipal (Fsx.uid m) []). split; [split; [done|set_solver]|done]. Qed.

Lemma writable_meaning m : writable_by_non_root m = true ↔ ∃ w, ordinary w ∧ can_change w m.
Proof.
  unfold writable_by_non_root. rewrite <-orb_assoc, orb_true_iff, someone_allowed, negb_true_iff, N.eqb_neq.
  unfold can_change. split.
  - intros [(w & ? & ?)%owner_exists|(w & ? & ?)]; exists w; auto.
  - intros (w & Hw & [Ho|Hm]); [left|right; by exists w]. destruct Hw. congruence.
Qed.

Lemma dir_writable_meaning m : dir_writable_by_non_root m = true ↔ ∃ w, ordinary w ∧ can_replace_in w m.
Proof.
  unfold dir_writable_by_non_root, can_replace_in. destruct (bit (Fsx.mode m) 0x200); simpl.
  - rewrite !orb_false_r, negb_true_iff, N.eqb_neq. split.
    + intros (w & ? & ?)%owner_exists. exists w. auto.
    + intros (w & [Hw _] & [Ho|[? _]]); [congruence|done].
  - rewrite <-orb_assoc, orb_true_iff, someone_allowed, negb_true_iff, N.eqb_neq. split.
    + intros [(w & ? & ?)%owner_exists|(w & ? & ?)]; exists w; auto.
    + intros (w & Hw & [Ho|[_ Hm]]); [left|right; by exists w]. destruct Hw. congruence.
Qed.

(** The ancestors of an absolute path are the paths of its leading components. *)
Definition plain_component (c : component) : Prop :=
  match c with Normal s => split_on slash s = [s] ∧ segment s = [Normal s] | ParentDir => True | _ => False end.

Lemma split_on_pieces sep s : Forall (λ p, split_on sep p = [p]) (split_on sep s).
Proof.
  induction s as [|c s IH]; simpl; [by constructor|]. case_bool_decide as Hc; [by constructor|].
  destruct (split_on sep s) as [|h t] eqn:E; [by apply split_on_nonempty in E|].
  apply Forall_cons in IH as [Hh Ht]. constructor; [|done]. simpl.
  rewrite bool_decide_eq_false_2 by done. by rewrite Hh.
Qed.

Lemma segment_plain s : split_on slash s = [s] → Forall plain_component (segment s).
Proof.
  intros Hs. pose proof (eq_refl (segment s)) as E. unfold segment at 2 in E. unfold segment.
  destruct (bool_decide (s = ""%string) || bool_decide (s = "."%string)); [constructor|].
  destruct (bool_decide (s = ".."%string)); [by repeat constructor|]. by constructor.
Qed.

Lemma components_absolute p :
  is_absolute p = true → ∃ cs, components p = RootDir :: cs ∧ Forall plain_component cs.
Proof.
  intros Ha. unfold components. rewrite Ha. eexists. split; [done|]. apply Forall_bind.
  eapply Forall_impl; [apply split_on_pieces|]. intros s. apply segment_plain.
Qed.

Lemma components_render cs : Forall plain_component cs → components (render (RootDir :: cs)) = RootDir :: cs.
Proof.
  intros Hcs. change (components (render (RootDir :: cs))) with
    (RootDir :: (split_on slash (render_rest cs) ≫= segment)). f_equal.
  induction Hcs as [|c cs Hc Hcs IH]; [done|]. destruct cs as [|c' cs].
  - destruct c as [| | |s]; [done|done|done|]. destruct Hc as [Hs Hseg]. cbn [render_rest render_component].
    rewrite Hs. csimpl. by rewrite Hseg.
  - change (render_rest (c :: c' :: cs)) with (render_component c +:+ String slash (render_rest (c' :: cs)))%string.
    rewrite split_on_app_sep, bind_app, IH. destruct c as [| | |s]; [done|done|done|].
    destruct Hc as [Hs Hseg]. cbn [render_component]. rewrite Hs. csimpl. by rewrite Hseg.
Qed.

Lemma ancestors_render fuel cs :
  Forall plain_component cs → (length cs ≤ fuel)%nat → ∀ p, components p = RootDir :: cs →
  ∀ d, d ∈ ancestors_go fuel p ↔ ∃ k, (k < length cs)%nat ∧ d = render (RootDir :: take k cs).
Proof.
  revert cs. induction fuel as [|fuel IH]; intros cs Hcs Hf p Hp d.
  - destruct cs; [|simpl in Hf; lia]. simpl. split; [by intros ?%elem_of_nil|]. intros (k & ? & _). simpl in *. lia.
  - simpl. unfold parent. rewrite Hp. destruct (decide (cs = [])) as [->|Hn].
    { simpl. split; [by intros ?%elem_of_nil|]. intros (k & ? & _). simpl in *. lia. }
    destruct (exists_last Hn) as (cs0 & c & ->). apply Forall_app in Hcs as [Hcs0 [Hc _]%Forall_cons].
    assert (last (RootDir :: cs0 ++ [c]) = Some c) as -> by (by rewrite app_comm_cons, last_snoc).
    assert (removelast (RootDir :: cs0 ++ [c]) = RootDir :: cs0) as -> by (by rewrite app_comm_cons, removelast_last).
    rewrite length_app in Hf. simpl in Hf.
    assert (∀ d, d ∈ render (RootDir :: cs0) :: ancestors_go fuel (render (RootDir :: cs0)) ↔
            ∃ k, (k < length (cs0 ++ [c]))%nat ∧ d = render (RootDir :: take k (cs0 ++ [c]))) as Hd.
    { clear d. intros d. rewrite elem_of_cons, (IH cs0 Hcs0) by (lia || by apply components_render).
      rewrite length_app. simpl. split.
      - intros [->|(k & Hk & ->)].
        + exists (length cs0). split; [lia|]. by rewrite take_app_length.
        + exists k. split; [lia|]. by rewrite take_app_le by lia.
      - intros (k & Hk & ->). destruct (decide (k = length cs0)) as [->|].
        + left. by rewrite take_app_length.
        + right. exists k. split; [lia|]. by rewrite take_app_le by lia. }
    destruct c; try done; apply Hd.
Qed.

(** The directories an absolute path goes through. *)
Definition above (exe d : path) : Prop :=
  ∃ cs k, components exe = RootDir :: cs ∧ (k < length cs)%nat ∧ d = render (RootDir :: take k cs).

Lemma ancestors_above exe d : is_absolute exe = true → d ∈ ancestors exe ↔ above exe d.
Proof.
  intros (cs & Hc & Hcs)%components_absolute. unfold ancestors, above. rewrite Hc.
  rewrite (ancestors_render _ cs Hcs) by (done || (simpl; lia)). split.
  - intros (k & ? & ?). by exists cs, k.
  - intros (cs' & k & [= <-] & ? & ?). by exists k.
Qed.

Lemma first_some_is_Some {A B} (f : A → option B) l : is_Some (first_some f l) ↔ ∃ x, x ∈ l ∧ is_Some (f x).
Proof.
  unfold first_some. induction l as [|a l IH]; csimpl.
  - split; [by intros []|]. by intros (x & ?%elem_of_nil & _).
  - destruct (f a) as [b|] eqn:E; simpl.
    + split; [|done]. intros _. exists a. split; [left|by rewrite E].
    + rewrite IH. split; intros (x & Hx & Hs); exists x; [split; [by right|done]|].
      apply elem_of_cons in Hx as [->|?]; [|done]. rewrite E in Hs. by destruct Hs.
Qed.

Lemma writable_dir_is_Some r d :
  is_Some (writable_dir r d) ↔ ∃ m, stat r d = Ok m ∧ ∃ w, ordinary w ∧ can_replace_in w m.
Proof.
  unfold writable_dir. destruct (stat r d) as [m|e].
  - destruct (dir_writable_by_non_root m) eqn:E.
    + split; [|done]. intros _. exists m. split; [done|]. by apply dir_writable_meaning.
    + split; [by intros []|]. intros (m' & [= <-] & H%dir_writable_meaning). congruence.
  - split; [by intros []|]. by intros (m' & ? & _).
Qed.

(** Permissions: a program that a system entry starts is reported
    as changeable exactly when it is a regular file and some user other than
    root can change it, or can replace it or a directory on the way to it. *)
Theorem writable_chain_exact r exe :
  is_absolute exe = true →
  is_Some (writable_chain r exe) ↔
  ∃ m, stat r exe = Ok m ∧ Fsx.kind m = KFile ∧
    ∃ w, ordinary w ∧ (can_change w m ∨ ∃ d dm, above exe d ∧ stat r d = Ok dm ∧ can_replace_in w dm).
Proof.
  intros Ha. unfold writable_chain. destruct (stat r exe) as [m|e]; [|naive_solver].
  case_bool_decide as Hk; simpl; [|naive_solver].
  destruct (writable_by_non_root m) eqn:Hw.
  - split; [|done]. intros _. exists m. split_and!; [done..|].
    apply writable_meaning in Hw as (w & ? & ?). exists w. auto.
  - rewrite first_some_is_Some. setoid_rewrite (ancestors_above exe); [|done]. setoid_rewrite writable_dir_is_Some. split.
    + intros (d & Hd & dm & Hs & w & Hw' & Hc). exists m. split_and!; [done..|]. exists w. split; [done|]. right. eauto.
    + intros (m' & [= <-] & _ & w & Ho & [Hc|(d & dm & Hd & Hs & Hc)]); [|by eauto 10].
      assert (writable_by_non_root m = true); [|congruence]. apply writable_meaning. eauto.
Qed.

End WithHost.
End CtxProps.
