(* ===== verification/Persistence.v ===== *)
(** * System checks: persistence

    system/src/persistence: every place Linux starts programs automatically.
    One module per file: [Common] (mod.rs), [CronJobs] (cron.rs), [Systemd]
    (systemd.rs), [Files] (files.rs), [Ssh] (ssh.rs), [PamStacks] (pam.rs),
    [UdevRules] (udev.rs), [Extra] (extra.rs). *)

From S2P Require Import Prelude Utf8 Paths Core External AuditLog Heuristics Chars SystemFs SystemCtx.

(** ** Loops with a value *)
Module Loops.
Import Ctx.
Section WithHost.
Context `{K : Kernel, RX : RegexLib, ST : StdText, SE : Session}.

(** A loop that carries a value; the body says whether to stop. *)
Fixpoint fold_until {A B} (f : B → A → M (bool * B)) (b : B) (xs : list A) : M B :=
  match xs with
  | [] => mret b
  | x :: xs => '(stop, b) ← f b x; if stop : bool then mret b else fold_until f b xs
  end.
Definition fold_each {A B} (f : B → A → M B) (b : B) (xs : list A) : M B :=
  fold_until (λ b x, b ← f b x; mret (false, b)) b xs.

Lemma fold_each_cons {A B} (f : B → A → M B) b x xs s :
  fold_each f b (x :: xs) s = let '(b', s') := f b x s in fold_each f b' xs s'.
Proof.
  unfold fold_each. cbn [fold_until]. unfold mbind, M_bind. by destruct (f b x s) as [b' s'].
Qed.

(** [for x in xs { v.extend(f(x)) }] *)
Definition collect {A B} (f : A → M (list B)) (xs : list A) : M (list B) :=
  fold_each (λ b x, l ← f x; mret (b ++ l)) [] xs.

Lemma acts_fold_until {A B} (f : B → A → M (bool * B)) b xs :
  (∀ b x, Acts.acts (f b x)) → Acts.acts (fold_until f b xs).
Proof.
  intros Hf. revert b. induction xs as [|x xs IH]; intros b; simpl; [apply Acts.acts_ret|].
  apply Acts.acts_bind; [done|]. intros [[] b']; [apply Acts.acts_ret|apply IH].
Qed.
Lemma acts_fold_each {A B} (f : B → A → M B) b xs : (∀ b x, Acts.acts (f b x)) → Acts.acts (fold_each f b xs).
Proof. intros Hf. apply acts_fold_until. intros. apply Acts.acts_bind; [done|]. intros. apply Acts.acts_ret. Qed.
Lemma acts_collect {A B} (f : A → M (list B)) xs : (∀ x, Acts.acts (f x)) → Acts.acts (collect f xs).
Proof. intros Hf. apply acts_fold_each. intros. apply Acts.acts_bind; [done|]. intros. apply Acts.acts_ret. Qed.
End WithHost.
End Loops.

(** As [acting], through these loops too. *)
Ltac acting' :=
  repeat first
    [ progress acting
    | match goal with
      | |- Acts.acts (Loops.fold_until _ _ _) => apply Loops.acts_fold_until
      | |- Acts.acts (Loops.fold_each _ _ _) => apply Loops.acts_fold_each
      | |- Acts.acts (Loops.collect _ _) => apply Loops.acts_collect
      end ].

(** ** mod.rs *)
Module Common.
Import System Fsx Ctx Loops.

Definition name_of (p : path) : string := default ""%string (file_name p).
(** [p.extension() == Some(e)] *)
Definition has_extension (p : path) (e : string) : bool :=
  match file_name p ≫= rsplit_once 46 with
  | Some (stem, x) => negb (bool_decide (stem = ""%string)) && bool_decide (x = e)
  | None => false
  end.

Definition logical_lines (t : Chars.text) : list Chars.text :=
  (fix go (cur : Chars.text) (ls : list Chars.text) : list Chars.text :=
     match ls with
     | [] => if bool_decide (cur = []) then [] else [cur]
     | line :: ls =>
         match before_suffix "\" line with
         | Some stripped => go (cur ++ stripped ++ [32]) ls
         | None => (cur ++ line) :: go [] ls
         end
     end) [] (lines t).

Section WithHost.
Context `{K : Kernel, RX : RegexLib, ST : StdText, SE : Session}.

Definition files_in (d : path) : M (list (path * Meta)) :=
  r ← get root;
  match read_dir r d with
  | Err e => _ ← io_error d e; mret []
  | Ok entries =>
      filter_map (λ e,
        if bool_decide (entry_kind e = KDir) then mret None
        else
          let p := join d (name e) in
          match stat r p with
          | Ok m => mret (if bool_decide (Fsx.kind m = KFile) then Some (p, m) else None)
          | Err err => _ ← io_error p err; mret None
          end) entries
  end.

Definition larger (p : path) : string := fmt "{} is larger than 1 MiB; only the start was read" [display p].

Definition read (p : path) : M (option (Chars.text * Meta)) :=
  r ← get root;
  match read_text r p with
  | Ok t =>
      _ ← add_examined 1;
      _ ← when (truncated t) (_ ← set_partial; note (larger p));
      mret (Some (text t, meta t))
  | Err e => _ ← io_error p e; mret None
  end.

(** [let Some((text, meta)) = read(..) else { continue }] *)
Definition with_file (p : path) (f : Chars.text → Meta → M unit) : M unit :=
  o ← read p;
  match o with Some (t, m) => f t m | None => mret tt end.

Definition note_user_limits : M unit :=
  l ← get users_limited;
  when l (_ ← set_partial;
          note "only the current user's files were inspected; run as root for all users").

Lemma acts_files_in d : Acts.acts (files_in d).
Proof. unfold files_in. acting. Qed.
Lemma acts_read p : Acts.acts (read p).
Proof. unfold read. acting. Qed.
Lemma acts_with_file p f : (∀ t m, Acts.acts (f t m)) → Acts.acts (with_file p f).
Proof. intros Hf. pose proof acts_read. unfold with_file. acting. Qed.
Lemma acts_note_user_limits : Acts.acts note_user_limits.
Proof. unfold note_user_limits. acting. Qed.
End WithHost.
End Common.
(** As [acting'], through the reading of a file too. *)
Ltac act_all :=
  repeat first
    [ progress acting'
    | match goal with |- Acts.acts (Common.with_file _ _) => apply Common.acts_with_file end ].
(** A check that acts and finishes. *)
Ltac checking :=
  intros; apply CtxProps.checks_tail; cbv zeta;
  repeat first
    [ apply CtxProps.tail_finish
    | apply CtxProps.tail_bind; [solve [auto with acts nocore | act_all]|intros ?] ].
#[export] Hint Resolve Common.acts_files_in Common.acts_read Common.acts_note_user_limits CtxProps.acts_record : acts.

(** ** cron.rs *)
Module CronJobs.
Import System Fsx Ctx Loops Common.

Definition PERIODIC : list path :=
  ["/etc/cron.hourly"; "/etc/cron.daily"; "/etc/cron.weekly"; "/etc/cron.monthly"]%string.
Definition SPOOLS : list path := ["/var/spool/cron/crontabs"; "/var/spool/cron"]%string.

Definition skip_line (l : Chars.text) : bool := bool_decide (l = []) || starts l "#".

Definition is_backup (p : path) : bool :=
  let n := name_of p in
  str_starts_with n "." || Names.ends_with n "~" || Names.ends_with n ".rpmsave" || Names.ends_with n ".dpkg-old".

Definition env_assignment (line : Chars.text) : option (Chars.text * Chars.text) :=
  '(k, v) ← split_at (is_char 61) line;
  let k := trim k in
  if negb (bool_decide (k = [])) && forallb (λ c, is_ascii_alphanumeric c || (c =? 95)) k
  then Some (k, trim v) else None.

(** The closure [take], and [n] words of it. *)
Definition take_word (rest : Chars.text) : option (Chars.text * Chars.text) := break_at is_whitespace (trim_start rest).
Fixpoint take_words (n : nat) (rest : Chars.text) : option (list Chars.text * Chars.text) :=
  match n with
  | O => Some ([], rest)
  | S n => '(w, rest) ← take_word rest; '(ws, rest) ← take_words n rest; Some (w :: ws, rest)
  end.

Definition parse_cron_line (line : Chars.text) (with_user : bool)
    : option (Chars.text * option Chars.text * Chars.text) :=
  '(parts, rest) ← take_words (if starts line "@" then 1 else 5) line;
  let schedule := join_with [32] parts in
  '(user, rest) ← (if with_user then '(u, rest) ← take_word rest; Some (Some u, rest) else Some (None, rest));
  let cmd := trim rest in
  if bool_decide (cmd = []) then None else Some (schedule, user, cmd).

(** [line.splitn(4, char::is_whitespace).filter(|f| !f.is_empty())] *)
Definition anacron_fields (line : Chars.text) : list Chars.text :=
  List.filter (λ f, negb (bool_decide (f = []))) (splitn 4 is_whitespace line).

Definition jobs_lines (t : Chars.text) : list Chars.text :=
  List.filter (λ l, negb (skip_line l)) (trim <$> lines t).

Section WithHost.
Context `{K : Kernel, RX : RegexLib, ST : StdText, SE : Session}.

Definition env_entry (p : path) (k v : Chars.text) (m : Meta) : M unit :=
  when (is_lit k "LD_PRELOAD" || is_lit k "LD_LIBRARY_PATH")
    (record (mkFound Cron SystemScope p (Some (k ++ 61 :: v)) None
       (Some "environment for all jobs in this file"%string) (Some m) None false) None).

Definition cron_entry (p : path) (system : bool) (user : option (bool * N)) (m : Meta) (line : Chars.text) : M unit :=
  match env_assignment line with
  | Some (k, v) => env_entry p k v m
  | None =>
      match parse_cron_line line system with
      | None => mret tt
      | Some (schedule, run_as, cmd) =>
          let root_job := match run_as, user with
                          | Some u, _ => is_lit u "root"
                          | None, Some (is_root, _) => is_root
                          | None, None => true
                          end in
          let detail := match run_as with
                        | Some u => (of_chars schedule +:+ fmt ", as {u}" [of_chars u])%string
                        | None => of_chars schedule
                        end in
          record (mkFound Cron (if root_job : bool then SystemScope else UserScope) p (Some cmd) None
                    (Some detail) (Some m) (snd <$> user) true) None
      end
  end.

Definition crontab (p : path) (system : bool) (user : option (bool * N)) : M unit :=
  with_file p (λ t m, for_each (cron_entry p system user m) (jobs_lines t)).

Definition ANACRONTAB : path := "/etc/anacrontab".

Definition anacron_entry (m : Meta) (line : Chars.text) : M unit :=
  match env_assignment line with
  | Some (k, v) => env_entry ANACRONTAB k v m
  | None =>
      match anacron_fields line with
      | [period; _; id; cmd] =>
          record (mkFound Cron SystemScope ANACRONTAB (Some (trim cmd)) None
                    (Some (fmt "anacron {id}, every {period}" [of_chars id; of_chars period])) (Some m) None true) None
      | _ => mret tt
      end
  end.

Definition spool_entry (pm : path * Meta) : M unit :=
  let '(p, m) := pm in
  if is_backup p then mret tt
  else crontab p false (Some (bool_decide (file_name p = Some "root"%string), Fsx.uid m)).

Definition periodic_entry (d : path) (pm : path * Meta) : M unit :=
  let '(p, m) := pm in
  if is_backup p then mret tt
  else
    c ← cancelled;
    if c : bool then mret tt
    else
      body ← read p;
      record (mkFound Cron SystemScope p (Some (chars (display p))) (Some (bit (Fsx.mode m) 0x49))
                (Some (fmt "run by {dir}" [d])) (Some m) None true) (fst <$> body).

Definition check_body : M unit :=
  tabs ← files_in "/etc/cron.d";
  _ ← for_each (λ p, crontab p true None)
        ("/etc/crontab"%string :: List.filter (λ p, negb (is_backup p)) (fst <$> tabs));
  _ ← for_each (λ spool, fs ← files_in spool; for_each spool_entry fs) SPOOLS;
  _ ← with_file ANACRONTAB (λ t m, for_each (anacron_entry m) (jobs_lines t));
  _ ← for_each (λ d, fs ← files_in d; for_each (periodic_entry d) fs) PERIODIC;
  l ← get users_limited;
  when l (note "per-user crontabs are readable only by root").

Definition check : M CheckResult :=
  _ ← new_run; _ ← check_body; finish "persistence.cron" "cron and anacron jobs".

Lemma acts_cron_body : Acts.acts check_body.
Proof.
  assert (∀ p k v m, Acts.acts (env_entry p k v m)) by (intros; unfold env_entry; act_all).
  assert (∀ p s u m l, Acts.acts (cron_entry p s u m l)) by (intros; unfold cron_entry; act_all).
  assert (∀ m l, Acts.acts (anacron_entry m l)) by (intros; unfold anacron_entry; act_all).
  assert (∀ p s u, Acts.acts (crontab p s u)) by (intros; unfold crontab; act_all).
  assert (∀ pm, Acts.acts (spool_entry pm)) by (intros; unfold spool_entry; act_all).
  assert (∀ d pm, Acts.acts (periodic_entry d pm)) by (intros; unfold periodic_entry; act_all).
  unfold check_body. act_all.
Qed.
Lemma checks_cron : CtxProps.checks "persistence.cron" check.
Proof. pose proof acts_cron_body. unfold check. checking. Qed.
End WithHost.
End CronJobs.

(** ** systemd.rs *)
Module Systemd.
Import System Fsx Ctx Loops Common.

Definition SYSTEM_DIRS : list path :=
  ["/etc/systemd/system"; "/run/systemd/system"; "/usr/local/lib/systemd/system";
   "/usr/lib/systemd/system"; "/lib/systemd/system"]%string.
Definition GLOBAL_USER_DIRS : list path :=
  ["/etc/systemd/user"; "/usr/local/lib/systemd/user"; "/usr/lib/systemd/user"; "/lib/systemd/user"]%string.
Definition EXEC_KEYS : list string :=
  ["ExecStart"; "ExecStartPre"; "ExecStartPost"; "ExecStop"; "ExecStopPost"; "ExecReload"; "ExecCondition"]%string.
Definition SCHEDULE_KEYS : list string :=
  ["OnCalendar"; "OnBootSec"; "OnStartupSec"; "OnUnitActiveSec"; "OnUnitInactiveSec"; "OnActiveSec"]%string.

Record Unit := mkUnit {
  exec : list (Chars.text * Chars.text); environment : list Chars.text; user : option Chars.text;
  schedule : list Chars.text; timer_unit : option Chars.text }.
Definition no_unit : Unit := mkUnit [] [] None [] None.

(** One logical line. *)
Definition unit_line (u : Unit) (line : Chars.text) : Unit :=
  let line := trim line in
  if bool_decide (line = []) || starts line "#" || starts line ";" || starts line "[" then u
  else
    match split_at (is_char 61) line with
    | None => u
    | Some (k, v) =>
        let k := trim k in
        let v := trim v in
        if among_lits EXEC_KEYS k then
          if bool_decide (v = []) then u
          else mkUnit (exec u ++ [(k, v)]) (environment u) (user u) (schedule u) (timer_unit u)
        else if is_lit k "Environment" then
          mkUnit (exec u) (environment u ++ [v]) (user u) (schedule u) (timer_unit u)
        else if is_lit k "User" then mkUnit (exec u) (environment u) (Some v) (schedule u) (timer_unit u)
        else if is_lit k "Unit" then mkUnit (exec u) (environment u) (user u) (schedule u) (Some v)
        else if among_lits SCHEDULE_KEYS k then
          mkUnit (exec u) (environment u) (user u) (schedule u ++ [k ++ 61 :: v]) (timer_unit u)
        else u
    end.

(** The loop: lines that are skipped or have no [=] go on without the test of
    the number of commands, which they do not change. *)
Fixpoint unit_lines (u : Unit) (ls : list Chars.text) : Unit :=
  match ls with
  | [] => u
  | l :: ls => let u := unit_line u l in if 64 <? vlen (exec u) then u else unit_lines u ls
  end.
Definition parse_unit (t : Chars.text) : Unit := unit_lines no_unit (logical_lines t).

Section WithHost.
Context `{K : Kernel, RX : RegexLib, ST : StdText, SE : Session}.

(** Units that some target wants, in the directory [d]. *)
Definition wanted_in (r : Root) (d : path) : list string :=
  match read_dir r d with
  | Err _ => []
  | Ok es => es ≫= λ e,
      if bool_decide (entry_kind e = KDir) && (Names.ends_with (name e) ".wants" || Names.ends_with (name e) ".requires")
      then match read_dir r (join d (name e)) with Ok ls => name <$> ls | Err _ => [] end
      else []
  end.

Definition base_found (mech : PersistenceMechanism) (sc : PersistenceScope) (p : path) (cmd : option Chars.text)
    (enabled : option bool) (detail : option string) (m : Meta) (owner : option N) (find : bool) : Found :=
  mkFound mech sc p cmd enabled detail (Some m) owner find.

Definition unit_scope (sc : PersistenceScope) (u : Unit) : PersistenceScope :=
  if bool_decide (sc = SystemScope)
     && from_option (λ n, negb (is_lit n "root") && negb (is_lit n "0")) false (user u)
  then UserScope else sc.

(** Loader variables that a service sets. *)
Definition loader_variables (u : Unit) : list Chars.text :=
  List.filter (λ a, match split_at (is_char 61) a with
                    | Some (k, _) => among_lits Commands.LOADER_VARS k
                    | None => false
                    end) (environment u ≫= Commands.shell_tokens).

Definition inspect_unit (p : path) (unit_name : string) (sc : PersistenceScope) (owner : option N)
    (enabled : option bool) : M unit :=
  with_file p (λ t m,
    let u := parse_unit t in
    let sc := unit_scope sc u in
    if Names.ends_with unit_name ".timer" then
      let detail := (of_chars <$> schedule u)
                    ++ match timer_unit u with Some n => [fmt "Unit={u}" [of_chars n]] | None => [] end in
      record (base_found SystemdTimer sc p None enabled
                (if bool_decide (detail = []) then None else Some (joined ", " detail)) m owner false) None
    else
      _ ← for_each (λ a, record (base_found SystemdService sc p (Some a) enabled
                           (Some (fmt "unit {unit}, Environment" [unit_name])) m owner false) None) (loader_variables u);
      if bool_decide (exec u = []) then
        record (base_found SystemdService sc p None enabled (Some (fmt "unit {unit}" [unit_name])) m owner false) None
      else
        for_each (λ kc, record (base_found SystemdService sc p (Some kc.2) enabled
                          (Some (fmt "unit {unit}, {key}" [unit_name; of_chars kc.1])) m owner true) None) (exec u)).

Definition dirs (us : list User) : list (path * PersistenceScope * option N) :=
  ((λ d, (d, SystemScope, None)) <$> SYSTEM_DIRS) ++ ((λ d, (d, UserScope, None)) <$> GLOBAL_USER_DIRS)
  ++ ((λ u, (join (Users.home u) ".config/systemd/user", UserScope, Some (Users.uid u))) <$> us).

(** [seen_files.insert((meta.dev, meta.ino))] *)
Definition Seen : Type := list (N * N).
Definition file_id (m : Meta) : N * N := (dev m, ino m).
Definition known (seen : Seen) (m : Meta) : bool := bool_decide (file_id m ∈ seen).

Definition add_unit (acc : Seen * list (path * string)) (pm : path * Meta) : Seen * list (path * string) :=
  let '(seen, units) := acc in
  let '(p, m) := pm in
  if known seen m then acc
  else (file_id m :: seen,
        let n := name_of p in
        if Names.ends_with n ".service" || Names.ends_with n ".timer" then units ++ [(p, n)] else units).

(** A drop-in is only entered in [seen] when its extension is right. *)
Definition add_drop_in (unit_name : string) (acc : Seen * list (path * string)) (pm : path * Meta)
    : Seen * list (path * string) :=
  let '(seen, units) := acc in
  let '(p, m) := pm in
  if has_extension p "conf" && negb (known seen m) then (file_id m :: seen, units ++ [(p, unit_name)]) else acc.

Definition is_drop_in_dir (e : Entry) : bool :=
  bool_decide (entry_kind e = KDir) && (Names.ends_with (name e) ".service.d" || Names.ends_with (name e) ".timer.d").

Definition units_of (seen : Seen) (d : path) : M (Seen * list (path * string)) :=
  fs ← files_in d;
  let acc := foldl add_unit (seen, []) fs in
  r ← get root;
  match read_dir r d with
  | Err _ => mret acc
  | Ok es =>
      fold_each (λ acc e,
        let unit_name := of_chars (trim_end_lit ".d" (chars (name e))) in
        fs ← files_in (join d (name e));
        mret (foldl (add_drop_in unit_name) acc fs)) acc (List.filter is_drop_in_dir es)
  end.

Definition inspect_dir (wanted : list string) (seen : Seen) (d : path * PersistenceScope * option N)
    : M (bool * Seen) :=
  let '(d, sc, owner) := d in
  c ← cancelled;
  if c : bool then mret (true, seen)
  else
    '(seen, units) ← units_of seen d;
    _ ← for_each (λ pu, inspect_unit pu.1 pu.2 sc owner (Some (among wanted pu.2))) units;
    mret (false, seen).

Definition check_body : M unit :=
  us ← get users;
  r ← get root;
  let wanted := dirs us ≫= λ d, wanted_in r d.1.1 in
  _ ← fold_until (inspect_dir wanted) [] (dirs us);
  note_user_limits.

Definition check : M CheckResult :=
  _ ← new_run; _ ← check_body; finish "persistence.systemd" "systemd services and timers".

Lemma acts_systemd_body : Acts.acts check_body.
Proof.
  assert (∀ p u sc o e, Acts.acts (inspect_unit p u sc o e)) by (intros; unfold inspect_unit; act_all).
  assert (∀ s d, Acts.acts (units_of s d)) by (intros; unfold units_of; act_all).
  assert (∀ w s d, Acts.acts (inspect_dir w s d)) by (intros; unfold inspect_dir; act_all).
  unfold check_body. act_all.
Qed.
Lemma checks_systemd : CtxProps.checks "persistence.systemd" check.
Proof. pose proof acts_systemd_body. unfold check. checking. Qed.
End WithHost.
End Systemd.

(** ** files.rs *)
Module Files.
Import System SysRules Fsx Ctx Loops Common.

Definition SYSTEM_PROFILES : list path :=
  ["/etc/profile"; "/etc/bashrc"; "/etc/bash.bashrc"; "/etc/bash.bash_logout"; "/etc/zshenv";
   "/etc/zprofile"; "/etc/zshrc"; "/etc/zlogin"; "/etc/zsh/zshenv"; "/etc/zsh/zprofile";
   "/etc/zsh/zshrc"; "/etc/zsh/zlogin"; "/etc/fish/config.fish"]%string.
Definition SYSTEM_PROFILE_DIRS : list path := ["/etc/profile.d"; "/etc/fish/conf.d"]%string.
Definition USER_PROFILES : list path :=
  [".profile"; ".bash_profile"; ".bash_login"; ".bashrc"; ".bash_logout"; ".zshenv"; ".zprofile";
   ".zshrc"; ".zlogin"; ".config/fish/config.fish"; ".xprofile"; ".xsession"; ".xinitrc"]%string.

(** The libraries of a line: up to the comment, between blanks and colons. *)
Definition preload_libs (t : Chars.text) : list Chars.text :=
  takeN 256 (List.filter (λ l, negb (bool_decide (l = [])))
    (lines t ≫= λ l, split (λ c, (c =? 32) || (c =? 9) || (c =? 58)) (trim (first_piece (is_char 35) l)))).

Record Desktop := mkDesktop { d_name : option Chars.text; d_exec : option Chars.text; d_enabled : bool }.

Definition desktop_line (acc : bool * Desktop) (line : Chars.text) : bool * Desktop :=
  let '(in_entry, d) := acc in
  if starts line "[" then (is_lit line "[Desktop Entry]", d)
  else if negb in_entry then acc
  else
    match split_at (is_char 61) line with
    | None => acc
    | Some (k, v) =>
        let k := trim k in
        let v := trim v in
        (in_entry,
         if is_lit k "Exec" then mkDesktop (d_name d) (Some v) (d_enabled d)
         else if is_lit k "Name" then mkDesktop (Some v) (d_exec d) (d_enabled d)
         else if (is_lit k "Hidden" && is_lit v "true") || (is_lit k "X-GNOME-Autostart-enabled" && is_lit v "false")
         then mkDesktop (d_name d) (d_exec d) false
         else d)
    end.
Definition parse_desktop (t : Chars.text) : Desktop :=
  (foldl desktop_line (false, mkDesktop None None true) (trim <$> lines t)).2.

(** [.filter(..).count()] *)
Definition count (f : Chars.text → bool) (t : Chars.text) : string := show_N (vlen (List.filter f (lines t))).

Section WithHost.
Context `{K : Kernel, RX : RegexLib, ST : StdText, SE : Session}.

Definition PRELOAD : path := "/etc/ld.so.preload".

Definition preload_body : M unit :=
  with_file PRELOAD (λ t m, for_each (λ lib,
    _ ← report LD_SO_PRELOAD
          (Finding.Persistence (mechanism_name LdPreload) (ObservedPath.from_path PRELOAD)
             (Some (Patterns.snippet (of_chars lib))))
          (fmt "preloads {lib}" [of_chars lib]);
    record (mkFound LdPreload SystemScope PRELOAD (Some lib) (Some true)
              (Some "loaded into every dynamically linked program"%string) (Some m) None true) None)
    (preload_libs t)).
Definition ld_preload : M CheckResult :=
  _ ← new_run; _ ← preload_body;
  finish "persistence.ld_preload" "Preloaded libraries (/etc/ld.so.preload)".

Definition user_scope (u : User) : PersistenceScope := if Users.uid u =? 0 then SystemScope else UserScope.

Definition profile_entry (f : path * PersistenceScope * option N) : M bool :=
  let '(p, sc, owner) := f in
  c ← cancelled;
  if c : bool then mret true
  else
    _ ← with_file p (λ t m,
          let n := count (λ l, negb (bool_decide (trim l = [])) && negb (starts (trim_start l) "#")) t in
          record (mkFound ShellProfile sc p None None (Some (fmt "{lines} command line(s)" [n])) (Some m) owner true)
            (Some t));
    mret false.

Definition profiles_body : M unit :=
  in_dirs ← collect files_in SYSTEM_PROFILE_DIRS;
  us ← get users;
  _ ← for_until profile_entry
        (((λ p, (p, SystemScope, None)) <$> SYSTEM_PROFILES)
         ++ ((λ pm, (pm.1, SystemScope, None)) <$> in_dirs)
         ++ (us ≫= λ u, (λ f, (join (Users.home u) f, user_scope u, Some (Users.uid u))) <$> USER_PROFILES));
  note_user_limits.
Definition shell_profiles : M CheckResult :=
  _ ← new_run; _ ← profiles_body; finish "persistence.shell_profiles" "Shell startup files".

Definition environment_entry (f : path * PersistenceScope * option N) : M unit :=
  let '(p, sc, owner) := f in
  with_file p (λ t m,
    let n := count (λ l, existsb (is_char 61) l && negb (starts (trim_start l) "#")) t in
    record (mkFound Environment sc p None None (Some (fmt "{vars} variable(s)" [n])) (Some m) owner false) (Some t)).

Definition user_environment (u : User) : M (list (path * PersistenceScope * option N)) :=
  fs ← files_in (join (Users.home u) ".config/environment.d");
  mret ((join (Users.home u) ".pam_environment", UserScope, Some (Users.uid u))
        :: ((λ pm, (pm.1, UserScope, Some (Users.uid u))) <$> fs)).

Definition environment_body : M unit :=
  ds ← files_in "/etc/environment.d";
  us ← get users;
  of_users ← collect user_environment us;
  _ ← for_each environment_entry
        ([("/etc/environment"%string, SystemScope, None); ("/etc/security/pam_env.conf"%string, SystemScope, None)]
         ++ ((λ pm, (pm.1, SystemScope, None)) <$> ds) ++ of_users);
  note_user_limits.
Definition environment : M CheckResult :=
  _ ← new_run; _ ← environment_body; finish "persistence.environment" "Login environment files".

Definition autostart_entry (owner : option N) (pm : path * Meta) : M unit :=
  if negb (has_extension pm.1 "desktop") then mret tt
  else with_file pm.1 (λ t m,
    let d := parse_desktop t in
    record (mkFound XdgAutostart UserScope pm.1 (d_exec d) (Some (d_enabled d))
              ((λ n, fmt "Name={n}" [of_chars n]) <$> d_name d) (Some m) owner true) None).

Definition autostart_body : M unit :=
  us ← get users;
  _ ← for_each (λ '(d, owner), fs ← files_in d; for_each (autostart_entry owner) fs)
        (("/etc/xdg/autostart"%string, None)
         :: ((λ u, (join (Users.home u) ".config/autostart", Some (Users.uid u))) <$> us));
  note_user_limits.
Definition xdg_autostart : M CheckResult :=
  _ ← new_run; _ ← autostart_body; finish "persistence.xdg_autostart" "Desktop autostart entries".

Definition rc_local_entry (seen : list (N * N)) (p : path) : M (list (N * N)) :=
  o ← read p;
  match o with
  | None => mret seen
  | Some (t, m) =>
      if bool_decide (Systemd.file_id m ∈ seen) then mret seen
      else
        let n := count (λ l, let l := trim l in
                   negb (bool_decide (l = [])) && negb (starts l "#") && negb (is_lit l "exit 0")) t in
        _ ← record (mkFound RcLocal SystemScope p None (Some (bit (Fsx.mode m) 0x40))
                      (Some (fmt "{lines} command line(s)" [n])) (Some m) None true) (Some t);
        mret (seen ++ [Systemd.file_id m])
  end.
Definition rc_local : M CheckResult :=
  _ ← new_run;
  _ ← fold_each rc_local_entry [] ["/etc/rc.local"; "/etc/rc.d/rc.local"]%string;
  finish "persistence.rc_local" "rc.local boot script".

Lemma acts_preload_body : Acts.acts preload_body.
Proof. apply acts_with_file. act_all. Qed.
Lemma acts_profiles_body : Acts.acts profiles_body.
Proof.
  assert (∀ f, Acts.acts (profile_entry f)).
  { intros [[p sc] o]. unfold profile_entry. act_all. }
  unfold profiles_body. act_all.
Qed.
Lemma acts_environment_body : Acts.acts environment_body.
Proof.
  assert (∀ f, Acts.acts (environment_entry f)) by (intros [[p sc] o]; unfold environment_entry; act_all).
  assert (∀ u, Acts.acts (user_environment u)) by (intros; unfold user_environment; act_all).
  unfold environment_body. act_all.
Qed.
Lemma acts_autostart_body : Acts.acts autostart_body.
Proof.
  assert (∀ o pm, Acts.acts (autostart_entry o pm)).
  { intros. unfold autostart_entry. destruct (negb _); [act_all|]. apply acts_with_file. act_all. }
  unfold autostart_body. act_all.
Qed.
Lemma acts_rc_local_body l : Acts.acts (fold_each rc_local_entry [] l).
Proof. assert (∀ s p, Acts.acts (rc_local_entry s p)) by (intros; unfold rc_local_entry; act_all). act_all. Qed.
Lemma checks_ld_preload : CtxProps.checks "persistence.ld_preload" ld_preload.
Proof. pose proof acts_preload_body. unfold ld_preload. checking. Qed.
Lemma checks_shell_profiles : CtxProps.checks "persistence.shell_profiles" shell_profiles.
Proof. pose proof acts_profiles_body. unfold shell_profiles. checking. Qed.
Lemma checks_environment : CtxProps.checks "persistence.environment" environment.
Proof. pose proof acts_environment_body. unfold environment. checking. Qed.
Lemma checks_xdg_autostart : CtxProps.checks "persistence.xdg_autostart" xdg_autostart.
Proof. pose proof acts_autostart_body. unfold xdg_autostart. checking. Qed.
Lemma checks_rc_local : CtxProps.checks "persistence.rc_local" rc_local.
Proof. pose proof acts_rc_local_body. unfold rc_local. checking. Qed.
End WithHost.
End Files.

(** ** ssh.rs *)
Module Ssh.
Import System Fsx Ctx Loops Common.

Record Key := mkKey { k_kind : Chars.text; k_comment : Chars.text; k_options : Chars.text; k_command : option Chars.text }.

Definition KEY_TYPES : list string := ["ssh-"; "ecdsa-"; "sk-"]%string.

(** The loop of [split_options_aware]: the word being read, in quotes, after a
    backslash. *)
Fixpoint split_options_go (cur : Chars.text) (quoted escaped : bool) (l : Chars.text) : list Chars.text :=
  match l with
  | [] => if bool_decide (cur = []) then [] else [cur]
  | c :: l =>
      if escaped then split_options_go (cur ++ [c]) quoted false l
      else if (c =? 92) && quoted then split_options_go (cur ++ [c]) quoted true l
      else if c =? 34 then split_options_go (cur ++ [c]) (negb quoted) false l
      else if is_whitespace c && negb quoted then
        if bool_decide (cur = []) then split_options_go [] quoted false l
        else cur :: split_options_go [] quoted false l
      else split_options_go (cur ++ [c]) quoted false l
  end.
Definition split_options_aware (line : Chars.text) : list Chars.text := split_options_go [] false false line.

(** The loop of [forced_command]. *)
Fixpoint unquote_go (out : Chars.text) (escaped : bool) (l : Chars.text) : option Chars.text :=
  match l with
  | [] => None
  | c :: l =>
      if escaped then unquote_go (out ++ [c]) false l
      else if c =? 92 then unquote_go out true l
      else if c =? 34 then Some out
      else unquote_go (out ++ [c]) false l
  end.

(** The option and its opening quote. *)
Definition COMMAND : Chars.text := lit "command=" ++ [34].
Definition forced_command (options : Chars.text) : option Chars.text :=
  found ← Anchors.find_from COMMAND options;
  unquote_go [] false (drop (length COMMAND) found).

(** The words before a key type, and from it. *)
Fixpoint break_key (tokens : list Chars.text) : option (list Chars.text * Chars.text * list Chars.text) :=
  match tokens with
  | [] => None
  | t :: ts =>
      if existsb (starts t) KEY_TYPES then Some ([], t, ts)
      else '(a, k, b) ← break_key ts; Some (t :: a, k, b)
  end.

Definition parse_key (line : Chars.text) : option Key :=
  if bool_decide (line = []) || starts line "#" then None
  else
    '(before, kind, after) ← break_key (split_options_aware line);
    let options := join_with [32] before in
    let comment := join_with [32] (drop 1 after) in
    Some (mkKey kind (if bool_decide (comment = []) then lit "(no comment)" else comment) options
            (forced_command options)).
Definition parse_keys (t : Chars.text) : list Key := omap parse_key (takeN 10000 (trim <$> lines t)).

Section WithHost.
Context `{K : Kernel, RX : RegexLib, ST : StdText, SE : Session}.

Definition key_found (u : User) (p : path) (m : Meta) (cmd : option Chars.text) (detail : string) : Found :=
  mkFound SshAuthorizedKeys (Files.user_scope u) p cmd None (Some detail) (Some m) (Some (Users.uid u)) true.

Definition keys_entry (u : User) (p : path) (t : Chars.text) (m : Meta) : M unit :=
  let keys := parse_keys t in
  _ ← record (key_found u p m None
        (fmt "{} key(s) for {}: {}" [show_N (vlen keys); Users.name u;
           joined ", " ((λ k, fmt "{} {}" [of_chars (k_kind k); of_chars (k_comment k)]) <$> keys)])) None;
  for_each (λ k, record (key_found u p m (k_command k)
                   (fmt "forced command for key {}" [of_chars (k_comment k)])) (Some (k_options k)))
    (List.filter (λ k, bool_decide (is_Some (k_command k))) keys).

(** A setting under which keys may be kept elsewhere. *)
Definition keys_elsewhere (line : Chars.text) : bool :=
  match splitn 2 is_whitespace line with
  | [k; v] =>
      let k := to_lower_byte <$> k in
      is_lit k "authorizedkeyscommand"
      || (is_lit k "authorizedkeysfile" && negb (forallb (λ f, starts f ".ssh/authorized_keys") (split_whitespace v)))
  | _ => false
  end.

Definition check_sshd_config : M unit :=
  with_file "/etc/ssh/sshd_config" (λ t _,
    for_each (λ line, when (keys_elsewhere line)
      (note (fmt "sshd_config sets {line}; keys may come from elsewhere" [of_chars line]))) (trim <$> lines t)).

Definition check_body : M unit :=
  us ← get users;
  _ ← for_each (λ u, for_each (λ f, with_file (join (Users.home u) f) (keys_entry u (join (Users.home u) f)))
        [".ssh/authorized_keys"; ".ssh/authorized_keys2"]%string) us;
  _ ← check_sshd_config;
  note_user_limits.
Definition check : M CheckResult :=
  _ ← new_run; _ ← check_body; finish "persistence.ssh_authorized_keys" "SSH authorized keys".

Lemma acts_ssh_body : Acts.acts check_body.
Proof.
  assert (∀ u p, Acts.acts (with_file p (keys_entry u p))) by (intros; apply acts_with_file; unfold keys_entry; act_all).
  assert (Acts.acts check_sshd_config) by (apply acts_with_file; act_all).
  unfold check_body. act_all.
Qed.
Lemma checks_ssh : CtxProps.checks "persistence.ssh_authorized_keys" check.
Proof. pose proof acts_ssh_body. unfold check. checking. Qed.
End WithHost.
End Ssh.

(** ** pam.rs *)
Module PamStacks.
Import System SysRules Fsx Ctx Loops Common.

Definition MODULE_DIRS : list string :=
  ["/lib/security/"; "/lib64/security/"; "/usr/lib/security/"; "/usr/lib64/security/";
   "/lib/x86_64-linux-gnu/security/"; "/usr/lib/x86_64-linux-gnu/security/";
   "/lib/aarch64-linux-gnu/security/"; "/usr/lib/aarch64-linux-gnu/security/";
   "/usr/lib/i386-linux-gnu/security/"]%string.

Record PamLine := mkPam { p_kind : Chars.text; p_module : Chars.text; p_args : list Chars.text }.

Definition parse_line (line : Chars.text) (conf : bool) : option PamLine :=
  if bool_decide (line = []) || starts line "#" || starts line "@" then None
  else
    rest ← (if conf then snd <$> split_at is_whitespace (trim_start line) else Some line);
    '(kind, r) ← split_at is_whitespace (trim_start rest);
    let r := trim_start r in
    r ← match after_prefix "[" r with
        | Some stripped => snd <$> split_at (is_char 93) stripped
        | None => snd <$> split_at is_whitespace r
        end;
    match split_whitespace r with
    | [] => None
    | module :: args =>
        if among_lits ["auth"; "account"; "password"; "session"]%string (skip_while (is_char 45) kind)
        then Some (mkPam kind module args) else None
    end.

Definition nonstandard (l : PamLine) : bool :=
  starts (p_module l) "/" && negb (existsb (starts (p_module l)) MODULE_DIRS).
Definition runs_program (l : PamLine) : bool := is_lit (last_piece (is_char 47) (p_module l)) "pam_exec.so".

(** The command recorded: the arguments of [pam_exec], or the module. *)
Definition pam_command (l : PamLine) : option Chars.text :=
  if runs_program l then
    p ← List.find (λ a, starts a "/") (p_args l);
    let rest := join_with [32] (p_args l) in
    Some (if bool_decide (rest = []) then p else rest)
  else Some (p_module l).

Section WithHost.
Context `{K : Kernel, RX : RegexLib, ST : StdText, SE : Session}.

Definition pam_target (p : path) (line : Chars.text) : Finding.FindingTarget :=
  Finding.Persistence (mechanism_name Pam) (ObservedPath.from_path p) (Some (Patterns.snippet (of_chars line))).

Definition pam_entry (p : path) (m : Meta) (conf : bool) (line : Chars.text) : M unit :=
  match parse_line line conf with
  | None => mret tt
  | Some l =>
      _ ← when (nonstandard l)
            (report PAM_NONSTANDARD (pam_target p line) (fmt "loads {}" [of_chars (p_module l)]));
      _ ← when (runs_program l)
            (report PAM_EXEC (pam_target p line) (fmt "{} runs pam_exec" [of_chars (p_kind l)]));
      when (nonstandard l || runs_program l)
        (record (mkFound Pam SystemScope p (pam_command l) (Some true)
                   (Some (fmt "{} {}" [of_chars (p_kind l); of_chars (p_module l)])) (Some m) None true) None)
  end.

Definition PAM_CONF : path := "/etc/pam.conf".
Definition check_body : M unit :=
  fs ← files_in "/etc/pam.d";
  r ← get root;
  for_each (λ p, with_file p (λ t m, for_each (pam_entry p m (path_eq p PAM_CONF)) (trim <$> lines t)))
    ((fst <$> fs) ++ match stat r PAM_CONF with Ok _ => [PAM_CONF] | Err _ => [] end).
Definition check : M CheckResult :=
  _ ← new_run; _ ← check_body; finish "persistence.pam" "PAM modules".

Lemma acts_pam_body : Acts.acts check_body.
Proof.
  assert (∀ p m c l, Acts.acts (pam_entry p m c l)) by (intros; unfold pam_entry; act_all).
  unfold check_body. act_all.
Qed.
Lemma checks_pam : CtxProps.checks "persistence.pam" check.
Proof. pose proof acts_pam_body. unfold check. checking. Qed.
End WithHost.
End PamStacks.

(** ** udev.rs *)
Module UdevRules.
Import System Fsx Ctx Loops Common.

Definition DIRS : list path :=
  ["/etc/udev/rules.d"; "/run/udev/rules.d"; "/usr/local/lib/udev/rules.d"; "/usr/lib/udev/rules.d";
   "/lib/udev/rules.d"]%string.

(** The pieces between commas outside quotes; [cur] is the piece being read. *)
Fixpoint split_rule_go (cur : Chars.text) (quoted : bool) (l : Chars.text) : list Chars.text :=
  match l with
  | [] => [trim cur]
  | c :: l =>
      if c =? 34 then split_rule_go (cur ++ [c]) (negb quoted) l
      else if (c =? 44) && negb quoted then trim cur :: split_rule_go [] quoted l
      else split_rule_go (cur ++ [c]) quoted l
  end.
Definition split_rule (line : Chars.text) : list Chars.text := split_rule_go [] false line.

Definition rule_program (part : Chars.text) : option (Chars.text * Chars.text) :=
  '(k, v) ← split_at (is_char 61) part;
  let k := trim (trim_end_while (one_of "+:!") k) in
  if among_lits ["RUN"; "RUN{program}"; "PROGRAM"; "IMPORT{program}"]%string k then
    let v := trim_while (is_char 34) (trim v) in
    if bool_decide (v = []) then None else Some (k, v)
  else None.

Fixpoint programs_go (out : list (Chars.text * Chars.text)) (parts : list Chars.text) : list (Chars.text * Chars.text) :=
  match parts with
  | [] => out
  | part :: parts =>
      if negb (existsb (is_char 61) part) then programs_go out parts
      else
        let out := out ++ match rule_program part with Some kv => [kv] | None => [] end in
        if 16 <=? vlen out then out else programs_go out parts
  end.
Definition programs (line : Chars.text) : list (Chars.text * Chars.text) :=
  let line := trim line in
  if starts line "#" then [] else programs_go [] (split_rule line).

Section WithHost.
Context `{K : Kernel, RX : RegexLib, ST : StdText, SE : Session}.

Definition program_entry (p : path) (m : Meta) (kp : Chars.text * Chars.text) : M unit :=
  let command := if starts kp.2 "/" then kp.2 else lit "/usr/lib/udev/" ++ kp.2 in
  record (mkFound Udev SystemScope p (Some command) (Some true) (Some (of_chars kp.1)) (Some m) None true) None.

Definition rules_entry (seen : list (N * N)) (pm : path * Meta) : M (list (N * N)) :=
  let '(p, m) := pm in
  if negb (has_extension p "rules") || bool_decide (Systemd.file_id m ∈ seen) then mret seen
  else
    _ ← with_file p (λ t m, for_each (λ line, for_each (program_entry p m) (programs line)) (logical_lines t));
    mret (Systemd.file_id m :: seen).

Definition check_body : M (list (N * N)) :=
  fold_each (λ seen d, fs ← files_in d; fold_each rules_entry seen fs) [] DIRS.
Definition check : M CheckResult :=
  _ ← new_run; _ ← check_body; finish "persistence.udev" "udev rules that run programs".

Lemma acts_udev_body : Acts.acts check_body.
Proof.
  assert (∀ p m kp, Acts.acts (program_entry p m kp)) by (intros; unfold program_entry; act_all).
  assert (∀ s pm, Acts.acts (rules_entry s pm)).
  { intros s [p m]. unfold rules_entry. act_all. }
  unfold check_body. act_all.
Qed.
Lemma checks_udev : CtxProps.checks "persistence.udev" check.
Proof. pose proof acts_udev_body. unfold check. checking. Qed.
End WithHost.
End UdevRules.

(** ** extra.rs *)
Module Extra.
Import System Fsx Ctx Loops Common.

Definition ELF_MAGIC : Chars.text := 127 :: lit "ELF".

Definition not_backup (p : path) : bool :=
  let n := name_of p in
  negb (str_starts_with n "." || Names.ends_with n "~" || Names.ends_with n ".rpmsave"
        || Names.ends_with n ".rpmnew" || Names.ends_with n ".dpkg-old" || Names.ends_with n ".dpkg-dist"
        || bool_decide (n = "README"%string)).

Definition parse_modprobe_command (line : Chars.text) : option (Chars.text * Chars.text * Chars.text) :=
  '(verb, rest) ← split_at is_whitespace (trim line);
  if negb (is_lit verb "install") && negb (is_lit verb "remove") then None
  else
    '(module, cmd) ← split_at is_whitespace (trim_start rest);
    let cmd := trim cmd in
    if bool_decide (cmd = []) then None else Some (verb, module, cmd).

Section WithHost.
Context `{K : Kernel, RX : RegexLib, ST : StdText, SE : Session}.

Definition program_body (p : path) : M (option Chars.text) :=
  r ← get root;
  match read_text r p with
  | Ok t =>
      _ ← add_examined 1;
      let elf := Anchors.list_starts_with ELF_MAGIC (text t) in
      _ ← when (truncated t && negb elf) (_ ← set_partial; note (larger p));
      mret (if elf : bool then None else Some (text t))
  | Err e => _ ← io_error p e; mret None
  end.

Definition program (p : path) (m : Meta) (mech : PersistenceMechanism) (sc : PersistenceScope)
    (enabled : option bool) (detail : string) : M unit :=
  body ← program_body p;
  record (mkFound mech sc p (Some (chars (display p))) enabled (Some detail) (Some m) None true) body.

(** Scripts with an S## link in a multi-user runlevel. *)
Definition started_in (r : Root) (d : path) : list string :=
  match read_dir r d with
  | Err _ => []
  | Ok es => omap (λ e, rest ← after_prefix "S" (chars (name e)); Some (of_chars (skip_while is_ascii_digit rest))) es
  end.
Definition RUNLEVELS : list path :=
  base ← ["/etc"; "/etc/rc.d"]%string; level ← [2; 3; 4; 5];
  [(base +:+ "/rc" +:+ show_N level +:+ ".d")%string].

Definition sysv_entry (started : list string) (seen : list (N * N)) (pm : path * Meta) : M (list (N * N)) :=
  let '(p, m) := pm in
  if negb (not_backup p) || bool_decide (Systemd.file_id m ∈ seen) then mret seen
  else
    c ← cancelled;
    _ ← when (negb c) (program p m SysvInit SystemScope (Some (among started (name_of p))) "SysV init script");
    mret (Systemd.file_id m :: seen).

Definition sysv_init : M CheckResult :=
  _ ← new_run;
  r ← get root;
  let started := RUNLEVELS ≫= started_in r in
  _ ← fold_each (λ seen d, fs ← files_in d; fold_each (sysv_entry started) seen fs) []
        ["/etc/init.d"; "/etc/rc.d/init.d"]%string;
  finish "persistence.sysv_init" "SysV init scripts".

Definition at_entry (pm : path * Meta) : M unit :=
  let '(p, m) := pm in
  if str_starts_with (name_of p) "." then mret tt
  else with_file p (λ t _,
    record (mkFound AtJob (if Fsx.uid m =? 0 then SystemScope else UserScope) p None
              (Some (bit (Fsx.mode m) 0x40)) (Some (fmt "at job owned by uid {}" [show_N (Fsx.uid m)]))
              (Some m) (Some (Fsx.uid m)) true) (Some t)).
Definition at_jobs : M CheckResult :=
  _ ← new_run;
  _ ← for_each (λ d, fs ← files_in d; for_each at_entry fs) ["/var/spool/at"; "/var/spool/cron/atjobs"]%string;
  l ← get users_limited;
  _ ← when l (note "the at spool is readable only by root");
  finish "persistence.at_jobs" "at jobs".

Definition GENERATOR_DIRS : list (string * path) :=
  kind ← ["system-generators"; "user-generators"; "system-environment-generators";
          "user-environment-generators"]%string;
  base ← ["/etc/systemd"; "/run/systemd"; "/usr/local/lib/systemd"; "/usr/lib/systemd"; "/lib/systemd"]%string;
  [(kind, (base +:+ "/" +:+ kind)%string)].

Definition generator_entry (kind : string) (seen : list (N * N)) (pm : path * Meta) : M (list (N * N)) :=
  let '(p, m) := pm in
  if bool_decide (Systemd.file_id m ∈ seen) then mret seen
  else
    _ ← program p m SystemdGenerator SystemScope (Some (bit (Fsx.mode m) 0x49)) (fmt "systemd {kind}" [kind]);
    mret (Systemd.file_id m :: seen).
Definition generators : M CheckResult :=
  _ ← new_run;
  _ ← fold_each (λ seen '(kind, d), fs ← files_in d; fold_each (generator_entry kind) seen fs) [] GENERATOR_DIRS;
  finish "persistence.systemd_generators" "systemd generators".

Definition MODULES_LOAD : list path :=
  ["/etc/modules-load.d"; "/run/modules-load.d"; "/usr/local/lib/modules-load.d"; "/usr/lib/modules-load.d";
   "/lib/modules-load.d"]%string.
Definition MODPROBE : list path :=
  ["/etc/modprobe.d"; "/run/modprobe.d"; "/usr/local/lib/modprobe.d"; "/usr/lib/modprobe.d"; "/lib/modprobe.d"]%string.

Definition boot_modules (t : Chars.text) : list Chars.text :=
  takeN 1000 (List.filter (λ l, negb (bool_decide (l = [])))
    ((λ l, trim (first_piece (one_of "#;") l)) <$> lines t)).

Definition module_entry (p : path) (m : Meta) (l : Chars.text) : M unit :=
  record (mkFound KernelModule SystemScope p (Some l) (Some true) (Some "module loaded at boot"%string) (Some m) None false) None.
Definition modprobe_entry (p : path) (m : Meta) (line : Chars.text) : M unit :=
  match parse_modprobe_command line with
  | None => mret tt
  | Some (verb, module, cmd) =>
      record (mkFound KernelModule SystemScope p (Some cmd) (Some true)
                (Some (fmt "modprobe {verb} {module}" [of_chars verb; of_chars module])) (Some m) None true) None
  end.

Definition kernel_modules : M CheckResult :=
  _ ← new_run;
  fs ← collect files_in MODULES_LOAD;
  r ← get root;
  _ ← for_each (λ p, with_file p (λ t m, for_each (module_entry p m) (boot_modules t)))
        (List.filter (λ p, has_extension p "conf") (fst <$> fs)
         ++ match stat r "/etc/modules" with Ok _ => ["/etc/modules"%string] | Err _ => [] end);
  _ ← for_each (λ d, fs ← files_in d; for_each (λ p,
        with_file p (λ t m, for_each (modprobe_entry p m) (logical_lines t)))
        (List.filter (λ p, has_extension p "conf") (fst <$> fs))) MODPROBE;
  finish "persistence.kernel_modules" "Kernel modules loaded at boot, modprobe commands".

Definition script_entry (mech : PersistenceMechanism) (detail : string) (pm : path * Meta) : M unit :=
  when (not_backup pm.1)
    (program pm.1 pm.2 mech SystemScope (Some (bit (Fsx.mode pm.2) 0x49)) detail).

Definition motd : M CheckResult :=
  _ ← new_run;
  fs ← files_in "/etc/update-motd.d";
  _ ← for_each (script_entry Motd "run as root at login (pam_motd)") fs;
  finish "persistence.motd" "Message-of-the-day scripts".

Definition ssh_rc_entry (f : path * PersistenceScope * option N) : M unit :=
  let '(p, sc, owner) := f in
  with_file p (λ t m,
    record (mkFound SshRc sc p None (Some true) (Some "run by sshd at every login"%string) (Some m) owner true) (Some t)).
Definition ssh_rc : M CheckResult :=
  _ ← new_run;
  us ← get users;
  _ ← for_each ssh_rc_entry
        (("/etc/ssh/sshrc"%string, SystemScope, None)
         :: ((λ u, (join (Users.home u) ".ssh/rc", Files.user_scope u, Some (Users.uid u))) <$> us));
  _ ← note_user_limits;
  finish "persistence.ssh_rc" "SSH login scripts".

(** The loop over the sub-directories is outside the recursion on [depth]. *)
Fixpoint files_below (depth : nat) (d : path) (out : list (path * Meta)) : M (list (path * Meta)) :=
  fs ← files_in d;
  let out := out ++ fs in
  match depth with
  | O => mret out
  | S depth =>
      if 5000 <? vlen out then mret out
      else
        r ← get root;
        match read_dir r d with
        | Err _ => mret out
        | Ok es => fold_each (λ out e, files_below depth (join d (name e)) out) out
                     (List.filter (λ e, bool_decide (entry_kind e = KDir)) es)
        end
  end.

Definition hook_entry (pm : path * Meta) : M unit :=
  when (not_backup pm.1)
    (program pm.1 pm.2 InitramfsHook SystemScope (Some true) "initramfs-tools hook or script (runs in early boot)").
Definition dracut_items (t : Chars.text) : list Chars.text :=
  takeN 20 (trim <$> List.filter (λ l, let l := trim_start l in
    starts l "install_items" || starts l "add_dracutmodules" || starts l "add_drivers") (lines t)).
Definition dracut_entry (p : path) : M unit :=
  with_file p (λ t m,
    let items := dracut_items t in
    record (mkFound InitramfsHook SystemScope p None (Some true)
              (Some (if bool_decide (items = []) then "dracut configuration"%string else joined "; " (of_chars <$> items)))
              (Some m) None false) (Some t)).
Definition initramfs_hooks : M CheckResult :=
  _ ← new_run;
  fs ← files_below 2 "/etc/initramfs-tools/hooks" [];
  fs ← files_below 3 "/etc/initramfs-tools/scripts" fs;
  _ ← for_each hook_entry fs;
  confs ← files_in "/etc/dracut.conf.d";
  r ← get root;
  _ ← for_each dracut_entry
        ((fst <$> confs) ++ match stat r "/etc/dracut.conf" with Ok _ => ["/etc/dracut.conf"%string] | Err _ => [] end);
  finish "persistence.initramfs_hooks" "initramfs hooks".

Definition boot_loader : M CheckResult :=
  _ ← new_run;
  fs ← files_in "/etc/grub.d";
  _ ← for_each (script_entry BootLoader "GRUB configuration script (run as root by grub-mkconfig)") fs;
  l ← get users_limited;
  _ ← when l (note "/etc/grub.d is readable only by root on some systems");
  finish "persistence.boot_loader" "Boot loader scripts".

Lemma acts_program p m mech sc e d : Acts.acts (program p m mech sc e d).
Proof. unfold program, program_body. act_all. Qed.
Lemma acts_files_below depth d out : Acts.acts (files_below depth d out).
Proof. revert d out. induction depth as [|depth IH]; intros d out; cbn [files_below]; act_all. Qed.

Lemma checks_sysv_init : CtxProps.checks "persistence.sysv_init" sysv_init.
Proof.
  pose proof acts_program.
  assert (∀ st s pm, Acts.acts (sysv_entry st s pm)) by (intros ? ? [p m]; unfold sysv_entry; act_all).
  unfold sysv_init. checking.
Qed.
Lemma checks_at_jobs : CtxProps.checks "persistence.at_jobs" at_jobs.
Proof.
  assert (∀ pm, Acts.acts (at_entry pm)) by (intros [p m]; unfold at_entry; act_all).
  unfold at_jobs. checking.
Qed.
Lemma checks_generators : CtxProps.checks "persistence.systemd_generators" generators.
Proof.
  pose proof acts_program.
  assert (∀ k s pm, Acts.acts (generator_entry k s pm)) by (intros ? ? [p m]; unfold generator_entry; act_all).
  unfold generators. checking.
Qed.
Lemma checks_kernel_modules : CtxProps.checks "persistence.kernel_modules" kernel_modules.
Proof.
  assert (∀ p m l, Acts.acts (module_entry p m l)) by (intros; unfold module_entry; act_all).
  assert (∀ p m l, Acts.acts (modprobe_entry p m l)) by (intros; unfold modprobe_entry; act_all).
  unfold kernel_modules. checking.
Qed.
Lemma acts_script_entry mech d pm : Acts.acts (script_entry mech d pm).
Proof. pose proof acts_program. unfold script_entry. act_all. Qed.
Lemma checks_motd : CtxProps.checks "persistence.motd" motd.
Proof. pose proof acts_script_entry. unfold motd. checking. Qed.
Lemma checks_ssh_rc : CtxProps.checks "persistence.ssh_rc" ssh_rc.
Proof.
  assert (∀ f, Acts.acts (ssh_rc_entry f)) by (intros [[p sc] o]; unfold ssh_rc_entry; act_all).
  unfold ssh_rc. checking.
Qed.
Lemma checks_initramfs_hooks : CtxProps.checks "persistence.initramfs_hooks" initramfs_hooks.
Proof.
  pose proof acts_program. pose proof acts_files_below.
  assert (∀ pm, Acts.acts (hook_entry pm)) by (intros; unfold hook_entry; act_all).
  assert (∀ p, Acts.acts (dracut_entry p)) by (intros; apply acts_with_file; act_all).
  unfold initramfs_hooks. checking.
Qed.
Lemma checks_boot_loader : CtxProps.checks "persistence.boot_loader" boot_loader.
Proof. pose proof acts_script_entry. unfold boot_loader. checking. Qed.
End WithHost.
End Extra.
