(* ===== verification/SystemLive.v ===== *)
(** * System checks: kernel, processes and boot

    system/src/tool.rs, processes.rs, kernel.rs, boot.rs and ebpf.rs: the
    checks of the running system. What [/proc], [/sys] and the programs run
    answer is a parameter; where the code reads twice to tell a change from a
    difference, the answers depend on the time of the reading. *)

From S2P Require Import Prelude Utf8 Paths Core External AuditLog Heuristics Chars SystemFs SystemCtx Persistence.

(** JSON as [serde_json::Value]; numbers are those that [as_u64] gives. *)
#[warnings="-register-all"]
Inductive Value :=
  | Null | Boolean (b : bool) | Number (n : option N) | Str (s : string) | Arr (l : list Value)
  | Obj (l : list (string * Value)).

(** What a poll of a child answers: it ended, it runs (and whether the
    deadline has passed), or the wait failed. *)
Inductive Wait := Ended | Running (past_deadline : bool) | WaitFailed (e : IoError).

(** The running system: [std::fs] on [/proc] and [/sys] (the first argument
    tells readings apart), the environment and the processes started. A child
    gives its standard output, if the pipe is there, as the octets its reader
    collects ([None] when the reader fails). *)
Class Machine := {
  read_to_string : nat → path → result IoError string;
  read_octets : path → result IoError bytes;
  dir_names : nat → path → result IoError (list (result IoError bytes));
  read_link : path → result IoError path;
  path_exists : nat → path → bool;
  is_dir : path → result IoError bool;
  env_var : string → option string;
  own_pid : N;
  geteuid : N;
  parallelism : option N;
  cancel_in_sweep : nat → N → bool;
  spawn : path → list string → result IoError (option (list Wait * option bytes));
  json_value : string → option Value }.

(** [fs::read_to_string(..).ok()] *)
Definition ok {E A} (r : result E A) : option A := match r with Ok a => Some a | Err _ => None end.

(** [file_name().to_str()] *)
Definition to_str (name : bytes) : option string := from_utf8 name.

(** A [BTreeSet] as the ascending list of its elements. *)
Fixpoint dedup {A} `{EqDecision A} (l : list A) : list A :=
  match l with
  | [] => []
  | x :: l => match dedup l with
              | y :: r => if bool_decide (x = y) then y :: r else x :: y :: r
              | [] => [x]
              end
  end.
Definition btree_of {A} `{EqDecision A} (cmp : A → A → comparison) (l : list A) : list A := dedup (sort_by cmp l).

Lemma elem_of_dedup {A} `{EqDecision A} (l : list A) x : x ∈ dedup l ↔ x ∈ l.
Proof.
  induction l as [|y l IH]; simpl; [done|]. rewrite elem_of_cons, <-IH.
  destruct (dedup l) as [|z r]; [by rewrite list_elem_of_singleton, elem_of_nil; tauto|].
  case_bool_decide; rewrite !elem_of_cons; naive_solver.
Qed.
Lemma elem_of_btree {A} `{EqDecision A} cmp (l : list A) x : x ∈ btree_of cmp l ↔ x ∈ l.
Proof. unfold btree_of. by rewrite elem_of_dedup, sort_by_perm. Qed.

Definition CAP_DAC_READ_SEARCH : N := 4.
Definition CAP_SYS_PTRACE : N := N.shiftl 1 19.

(** ** lib.rs: privileges *)
Module Privileges.
Section WithMachine.
Context `{MA : Machine}.

Definition effective_caps : N :=
  default 0 (t ← ok (read_to_string 0 "/proc/self/status");
             v ← head (omap (after_prefix "CapEff:") (lines (chars t)));
             let v := trim v in
             let v := default v (after_prefix "+" v) in
             match v with
             | [] => None
             | _ => foldl (λ acc c, n ← acc; d ← Digest.hex_value c;
                             if u64_max <? n * 16 + d then None else Some (n * 16 + d)) (Some 0) v
             end).
Definition can_read_everything : bool := (geteuid =? 0) || Fsx.bit effective_caps CAP_DAC_READ_SEARCH.
Definition can_inspect_processes : bool := (geteuid =? 0) || Fsx.bit effective_caps CAP_SYS_PTRACE.
End WithMachine.
End Privileges.

(** ** tool.rs *)
Module Tool.
Import Ctx.
Section WithHost.
Context `{K : Kernel, RX : RegexLib, ST : StdText, SE : Session, MA : Machine}.

Definition MAX_OUTPUT : N := N.shiftl 128 20.

(** The loop over the polls of the child, with the reason it was stopped for. *)
Fixpoint wait_for (name : string) (secs : N) (turns : list Wait) : M (result string unit) :=
  match turns with
  | [] | Ended :: _ => mret (Ok tt)
  | Running past :: turns =>
      stop ← (if past : bool then mret true else cancelled);
      if stop : bool then
        c ← cancelled;
        mret (Err (if c : bool then fmt "{name}: cancelled" [name]
                   else fmt "{name} did not finish within {} s" [name; show_N secs]))
      else wait_for name secs turns
  | WaitFailed e :: _ => mret (Err (fmt "{name}: {e}" [name; io_text e]))
  end.

Definition run (program : path) (args : list string) (secs : N) : M (result string Chars.text) :=
  let name := display program in
  match spawn program args with
  | Err e => mret (Err (fmt "could not run {name}: {e}" [name; io_text e]))
  | Ok None => mret (Err (fmt "{name}: no output pipe" [name]))
  | Ok (Some (turns, output)) =>
      r ← wait_for name secs turns;
      mret (match r with
            | Err e => Err e
            | Ok _ => match output with
                      | None => Err (fmt "{name}: output reader failed" [name])
                      | Some buf => Ok (decode_lossy (takeN MAX_OUTPUT buf))
                      end
            end)
  end.

Lemma acts_wait_for name secs turns : Acts.acts (wait_for name secs turns).
Proof. induction turns as [|[|[]|e] turns IH]; cbn [wait_for]; act_all. Qed.
Lemma acts_run p args secs : Acts.acts (run p args secs).
Proof. pose proof acts_wait_for. unfold run. act_all. Qed.
End WithHost.
End Tool.
#[export] Hint Resolve Tool.acts_run : acts.

(** ** processes.rs *)
Module Processes.
Import SysRules Commands Fsx Ctx Loops.

Definition PID_LIMIT : N := 4194304.

Inductive Probe := Absent | Thread | Process.
#[export] Instance Probe_eq_dec : EqDecision Probe.
Proof. solve_decision. Defined.

(** A [BTreeSet<u32>] *)
Definition btree : list N → list N := btree_of N.compare.
Definition holds (l : list N) (x : N) : bool := existsb (N.eqb x) l.

(** One thread of the sweep over [start..=end]; it polls the cancellation at
    the multiples of 65536. *)
Fixpoint sweep (listed : list N) (probe : N → Probe) (cancelled : N → bool) (pids : list N) : list N :=
  match pids with
  | [] => []
  | pid :: pids =>
      if (pid mod 65536 =? 0) && cancelled pid then []
      else if negb (holds listed pid) && bool_decide (probe pid = Process)
      then pid :: sweep listed probe cancelled pids
      else sweep listed probe cancelled pids
  end.

(** [n] numbers from [start] on. *)
Definition numbers (start n : N) : list N := (λ i, start + N.of_nat i) <$> seq 0 (N.to_nat n).
(** [start..=end] *)
Definition range (start stop : N) : list N := numbers start (stop + 1 - start).

Definition thread_range (chunk pid_max t : N) : list N :=
  range (t * chunk + 1) (N.min ((t + 1) * chunk) pid_max).

Definition threads_of (available : option N) : N := N.min 8 (N.max 1 (default 1 available)).
Definition chunk_of (pid_max threads : N) : N := N.max 1 ((pid_max + threads - 1) / threads).

(** [probe] is asked during the sweep, [probe'] after the second listing. *)
Definition find_hidden (available : option N) (listed : list N) (pid_max : N) (probe probe' : N → Probe)
    (relist : option (list N)) (cancelled : N → bool) : list N :=
  let threads := threads_of available in
  let chunk := chunk_of pid_max threads in
  let candidates := sort_by N.compare
    (numbers 0 threads ≫= λ t, sweep listed probe cancelled (thread_range chunk pid_max t)) in
  if bool_decide (candidates = []) then []
  else match relist with
       | None => []
       | Some now => List.filter (λ pid, negb (holds now pid) && bool_decide (probe' pid = Process)) candidates
       end.

(** Why the deleted executable that [link] names is suspicious. *)
Definition deleted_exe_reason (link : string) : option string :=
  t ← before_suffix " (deleted)" (as_bytes link);
  let p := of_bytes t in
  if str_starts_with p "/memfd:" then Some "runs from an anonymous memory file (memfd), not from disk"%string
  else if in_temp_dir p then Some (fmt "was in temporary directory ({path})" [p])
  else if path_starts_with p "/home" || path_starts_with p "/root" || path_starts_with p "/run/user"
  then Some (fmt "was in a home directory ({path})" [p])
  else if is_hidden p then Some (fmt "was a hidden file ({path})" [p])
  else None.

Definition OWN_LIBRARIES : list string :=
  ["ld-linux"; "ld64.so"; "ld-musl"; "libc.so"; "libc-"; "libm.so"; "libm-"; "libgcc_s"; "libpthread";
   "libdl.so"; "libdl-"; "librt.so"; "librt-"; "libutil"]%string.

(** The file that a line of the map says is mapped executable. *)
Definition mapped_executable (line : Chars.text) : option Chars.text :=
  match splitn 6 (is_char 32) line with
  | _ :: perms :: _ :: _ :: _ :: p :: _ =>
      let p := trim p in
      let p := default p (before_suffix " (deleted)" p) in
      if existsb (is_char 120) perms && starts p "/" then Some p else None
  | _ => None
  end.
Definition is_own (p : Chars.text) : bool := existsb (starts (last_piece (is_char 47) p)) OWN_LIBRARIES.

Definition add_injected (own_exe : Chars.text) (out : list Chars.text) (line : Chars.text) : list Chars.text :=
  match mapped_executable line with
  | None => out
  | Some p =>
      if bool_decide (p = own_exe) then out
      else if negb (is_own p) && negb (inside out p) then out ++ [p] else out
  end.
Definition injected_libraries (maps own_exe : Chars.text) : list Chars.text :=
  foldl (add_injected own_exe) [] (lines maps).

Section WithHost.
Context `{K : Kernel, RX : RegexLib, ST : StdText, SE : Session, MA : Machine}.

Fixpoint pids_of (names : list (result IoError bytes)) : result IoError (list N) :=
  match names with
  | [] => Ok []
  | Err e :: _ => Err e
  | Ok n :: names =>
      rest ← pids_of names;
      Ok (match to_str n ≫= (parse_u32 ∘ as_bytes) with Some pid => pid :: rest | None => rest end)
  end.
Definition listed_pids (time : nat) (proc : path) : result IoError (list N) :=
  names ← dir_names time proc;
  pids ← pids_of names;
  Ok (btree pids).

Definition of_pid (proc : path) (pid : N) (file : string) : path := join (join proc (show_N pid)) file.

Definition probe (time : nat) (proc : path) (pid : N) : Probe :=
  match read_to_string time (of_pid proc pid "status") with
  | Err _ => Absent
  | Ok s =>
      let tgid := v ← head (omap (after_prefix "Tgid:") (lines (chars s))); parse_u32 (trim v) in
      if bool_decide (tgid = Some pid) then Process else Thread
  end.

Definition process_name (proc : path) (pid : N) : string :=
  match read_to_string 0 (of_pid proc pid "comm") with
  | Ok s => Names.trim_str s
  | Err _ => ""%string
  end.

Definition report_hidden (proc : path) (pid : N) : M unit :=
  let name := process_name proc pid in
  report HIDDEN_PROCESS
    (Finding.Process pid name (ObservedPath.from_path <$> ok (read_link (of_pid proc pid "exe"))))
    (fmt "pid {pid} ({name}) answers directly but is not listed in /proc" [show_N pid; name]).

Definition pid_max_of (proc : path) : N :=
  N.min (default 32768 (s ← ok (read_to_string 0 (join proc "sys/kernel/pid_max")); parse_u32 (trim (chars s))))
    PID_LIMIT.

Definition hidden_body (proc : path) : M unit :=
  match listed_pids 0 proc with
  | Err e => io_error proc e
  | Ok listed =>
      let pid_max := pid_max_of proc in
      _ ← modify (λ s, set_run pid_max (partial s) (notes s) s);
      n ← get polls;
      _ ← for_each (report_hidden proc)
            (find_hidden parallelism listed pid_max (probe 1 proc) (probe 3 proc) (ok (listed_pids 2 proc))
               (cancel_in_sweep n));
      _ ← when (negb Privileges.can_inspect_processes)
            (_ ← set_partial;
             note "not running as root: processes hidden by hidepid cannot be told apart");
      note (fmt "probed PIDs 1 to {pid_max}" [show_N pid_max])
  end.
Definition hidden (proc : path) : M System.CheckResult :=
  _ ← new_run; _ ← hidden_body proc; finish "processes.hidden" "Hidden processes".

(** The number of processes that could not be read. *)
Definition deleted_entry (proc : path) (denied_so_far : N) (pid : N) : M (bool * N) :=
  c ← cancelled;
  if c : bool then mret (true, denied_so_far)
  else
    match read_link (of_pid proc pid "exe") with
    | Ok link =>
        _ ← add_examined 1;
        _ ← match deleted_exe_reason (display link) with
            | Some reason =>
                let name := process_name proc pid in
                report DELETED_EXEC (Finding.Process pid name (Some (ObservedPath.from_path link)))
                  (fmt "pid {pid} ({name}): executable deleted; {reason}" [show_N pid; name; reason])
            | None => mret tt
            end;
        mret (false, denied_so_far)
    | Err e => mret (false, if denied e then denied_so_far + 1 else denied_so_far)
    end.

Definition deleted_body (proc : path) : M unit :=
  match listed_pids 0 proc with
  | Err e => io_error proc e
  | Ok listed =>
      n ← fold_until (deleted_entry proc) 0 listed;
      when (0 <? n)
        (_ ← set_partial; note (fmt "{denied} process(es) not readable; run as root" [show_N n]))
  end.
Definition deleted (proc : path) : M System.CheckResult :=
  _ ← new_run; _ ← deleted_body proc; finish "processes.deleted_executables" "Deleted executables".

Definition preload_env : list string :=
  omap (λ k, v ← env_var k; if bool_decide (v = ""%string) then None else Some (fmt "{k}={v}" [k; v]))
    ["LD_PRELOAD"; "LD_AUDIT"]%string.

Definition integrity_body (proc : path) : M unit :=
  let maps := join proc "self/maps" in
  match read_to_string 0 maps with
  | Err e => io_error maps e
  | Ok t =>
      _ ← modify (λ s, set_run (vlen (lines (chars t))) (partial s) (notes s) s);
      let own := match read_link (join proc "self/exe") with Ok p => display p | Err _ => ""%string end in
      for_each (λ lib,
        let lib := of_chars lib in
        let how := if bool_decide (preload_env = [])
                   then "not requested by this program or its environment (ld.so.preload, possibly hidden)"%string
                   else fmt "this process was started with {}" [joined " " preload_env] in
        report INJECTED_LIBRARY
          (Finding.Process own_pid "abyssal-warden" (Some (ObservedPath.from_path lib)))
          (fmt "{lib} is loaded into the scanner; {how}" [lib; how]))
        (injected_libraries (chars t) (chars own))
  end.
Definition self_integrity (proc : path) : M System.CheckResult :=
  _ ← new_run; _ ← integrity_body proc; finish "processes.self_integrity" "Code injected into this scanner".

Lemma acts_set_examined n : Acts.acts (modify (λ s, set_run n (partial s) (notes s) s)).
Proof. apply Acts.acts_step. intros s. constructor. Qed.
Lemma acts_hidden_body proc : Acts.acts (hidden_body proc).
Proof.
  pose proof acts_set_examined. assert (∀ pid, Acts.acts (report_hidden proc pid)) by (intros; unfold report_hidden; act_all).
  unfold hidden_body. act_all.
Qed.
Lemma acts_deleted_body proc : Acts.acts (deleted_body proc).
Proof.
  assert (∀ n pid, Acts.acts (deleted_entry proc n pid)) by (intros; unfold deleted_entry; act_all).
  unfold deleted_body. act_all.
Qed.
Lemma acts_integrity_body proc : Acts.acts (integrity_body proc).
Proof. pose proof acts_set_examined. unfold integrity_body. act_all. Qed.
Lemma checks_hidden proc : CtxProps.checks "processes.hidden" (hidden proc).
Proof. pose proof acts_hidden_body. unfold hidden. checking. Qed.
Lemma checks_deleted proc : CtxProps.checks "processes.deleted_executables" (deleted proc).
Proof. pose proof acts_deleted_body. unfold deleted. checking. Qed.
Lemma checks_self_integrity proc : CtxProps.checks "processes.self_integrity" (self_integrity proc).
Proof. pose proof acts_integrity_body. unfold self_integrity. checking. Qed.
End WithHost.
End Processes.
#[export] Existing Instance Processes.Probe_eq_dec.

(** ** kernel.rs *)
Module KernelChecks.
Import SysRules Ctx.

Definition name_and_taint (line : Chars.text) : option (string * string) :=
  name ← head (split_whitespace line);
  let taint := match rsplit_at (is_char 40) line with
               | Some (_, r) =>
                   if ends r ")" && negb (existsb (is_char 32) r) then trim_end_while (is_char 41) r else []
               | None => []
               end in
  Some (of_chars name, of_chars taint).
Definition proc_modules (t : Chars.text) : list (string * string) := omap name_and_taint (lines t).

Definition btree : list string → list string := btree_of cmp_str.
Definition difference (a b : list string) : list string := List.filter (λ n, negb (bool_decide (n ∈ b))) a.

Definition cross_view (proc_names sys_names : list string) : list (string * string) :=
  ((λ n, (n, "/proc/modules"%string)) <$> difference sys_names proc_names)
  ++ ((λ n, (n, "/sys/module"%string)) <$> difference proc_names sys_names).

(** Bits, letters and meanings. *)
Definition TAINT : list (N * (string * string)) :=
  [(0, ("P", "proprietary module")); (1, ("F", "module force-loaded"));
   (2, ("S", "kernel running on an out-of-spec system")); (3, ("R", "module force-unloaded"));
   (4, ("M", "machine check")); (5, ("B", "bad page")); (6, ("U", "taint requested by user space"));
   (7, ("D", "kernel died recently (oops or BUG)")); (8, ("A", "ACPI table overridden"));
   (9, ("W", "kernel warning")); (10, ("C", "staging driver")); (11, ("I", "firmware bug workaround"));
   (12, ("O", "out-of-tree module")); (13, ("E", "unsigned module")); (14, ("L", "soft lockup"));
   (15, ("K", "kernel live-patched")); (16, ("X", "auxiliary taint"));
   (17, ("T", "struct randomization plugin")); (18, ("N", "in-kernel test"))]%string.

Definition describe_taint (value : N) : list (string * string) :=
  snd <$> List.filter (λ '(b, _), Fsx.bit value (N.shiftl 1 b)) TAINT.

(** The flags among [set], as they are reported. *)
Definition flag_list (flags : list (string * string)) (set : list string) : list string :=
  (λ '(c, d), fmt "{c}: {d}" [c; d]) <$> List.filter (λ '(c, _), among set c) flags.

Section WithHost.
Context `{K : Kernel, RX : RegexLib, ST : StdText, SE : Session, MA : Machine}.

Fixpoint loaded (time : nat) (sys_module : path) (names : list (result IoError bytes)) : result IoError (list string) :=
  match names with
  | [] => Ok []
  | Err e :: _ => Err e
  | Ok n :: names =>
      rest ← loaded time sys_module names;
      Ok (if path_exists time (join (join sys_module (of_bytes n)) "initstate")
          then match to_str n with Some s => s :: rest | None => rest end else rest)
  end.
Definition sys_modules (time : nat) (sys_module : path) : result IoError (list string) :=
  names ← dir_names time sys_module;
  l ← loaded time sys_module names;
  Ok (btree l).

Definition read_views (time : nat) (proc sys : path) : result IoError (list (string * string) * list string) :=
  t ← read_to_string time (join proc "modules");
  s ← sys_modules time (join sys "module");
  Ok (proc_modules (chars t), s).

Definition mismatches (views : list (string * string) * list string) : list (string * string) :=
  cross_view (btree (fst <$> views.1)) views.2.

Definition report_mismatch (m : string * string) : M unit :=
  report MODULE_HIDDEN (Finding.System (fmt "kernel module {name}" [m.1]))
    (fmt "module {name} is missing from {missing}" [m.1; m.2]).

Definition modules_body (proc sys : path) : M unit :=
  match read_views 0 proc sys with
  | Err e => io_error (join proc "modules") e
  | Ok first =>
      _ ← modify (λ s, set_run (vlen first.1) (partial s) (notes s) s);
      _ ← when (negb (bool_decide (mismatches first = [])))
            (match read_views 1 proc sys with
             | Ok second =>
                 for_each report_mismatch
                   (List.filter (λ m, bool_decide (m ∈ mismatches second)) (mismatches first))
             | Err _ => mret tt
             end);
      let tainted := (λ '(n, t), fmt "{n} ({t})" [n; t])
                       <$> List.filter (λ '(_, t), negb (bool_decide (t = ""%string))) first.1 in
      when (negb (bool_decide (tainted = [])))
        (note (fmt "modules with taint flags: {}" [joined ", " tainted]))
  end.
Definition modules (proc sys : path) : M System.CheckResult :=
  _ ← new_run; _ ← modules_body proc sys; finish "kernel.modules" "Kernel module cross-view".

Definition report_flags (rule : Rule) (value : N) (l : list string) : M unit :=
  when (negb (bool_decide (l = [])))
    (report rule (Finding.System "kernel") (fmt "taint {value}: {}" [show_N value; joined ", " l])).

Definition taint_body (proc : path) : M unit :=
  let p := join proc "sys/kernel/tainted" in
  match read_to_string 0 p with
  | Err e => io_error p e
  | Ok t =>
      _ ← modify (λ s, set_run 1 (partial s) (notes s) s);
      let value := default 0 (parse_u64 (trim (chars t))) in
      let flags := describe_taint value in
      _ ← report_flags KERNEL_FORCED value (flag_list flags ["F"; "R"]%string);
      _ ← report_flags KERNEL_TAINT_INFO value (flag_list flags ["P"; "O"; "E"]%string);
      when (negb (bool_decide (flags = [])))
        (note (fmt "taint {value}: {}" [show_N value; String.concat "" (fst <$> flags)]))
  end.
Definition taint (proc : path) : M System.CheckResult :=
  _ ← new_run; _ ← taint_body proc; finish "kernel.taint" "Kernel taint flags".

Lemma acts_modules_body proc sys : Acts.acts (modules_body proc sys).
Proof.
  pose proof Processes.acts_set_examined.
  assert (∀ m, Acts.acts (report_mismatch m)) by (intros; unfold report_mismatch; act_all).
  unfold modules_body. act_all.
Qed.
Lemma acts_taint_body proc : Acts.acts (taint_body proc).
Proof.
  pose proof Processes.acts_set_examined. unfold taint_body, report_flags. act_all.
Qed.
Lemma checks_modules proc sys : CtxProps.checks "kernel.modules" (modules proc sys).
Proof. pose proof acts_modules_body. unfold modules. checking. Qed.
Lemma checks_taint proc : CtxProps.checks "kernel.taint" (taint proc).
Proof. pose proof acts_taint_body. unfold taint. checking. Qed.
End WithHost.
End KernelChecks.

(** ** boot.rs *)
Module BootChecks.
Import System SysRules Commands Fsx Ctx Loops Common.

Definition SECURE_BOOT_VAR : path := "firmware/efi/efivars/SecureBoot-8be4df61-93ca-11d2-aa0d-00e098032b8c".
Definition STANDARD_INIT : list string :=
  ["/sbin/init"; "/usr/sbin/init"; "/usr/lib/systemd/systemd"; "/lib/systemd/systemd"; "/init"]%string.
Definition MAX_BOOT_FILES : N := 5000.

(** Why an option with this key and value weakens the boot. *)
Definition weak_option (key : Chars.text) (value : option Chars.text) : option string :=
  let v_is (s : string) := from_option (λ v, is_lit v s) false value in
  if is_lit key "selinux" then if v_is "0"%string then Some "disables SELinux"%string else None
  else if is_lit key "enforcing" then if v_is "0"%string then Some "puts SELinux in permissive mode"%string else None
  else if is_lit key "apparmor" then if v_is "0"%string then Some "disables AppArmor"%string else None
  else if is_lit key "security" then
    if v_is "none"%string || v_is ""%string then Some "disables the security module"%string else None
  else if is_lit key "audit" then if v_is "0"%string then Some "disables kernel auditing"%string else None
  else if is_lit key "module.sig_enforce" then
    if v_is "0"%string then Some "turns off module signature enforcement"%string else None
  else if is_lit key "ima_appraise" then
    if v_is "off"%string || v_is "fix"%string || v_is "log"%string then Some "turns off IMA appraisal"%string else None
  else if is_lit key "rd.break" then Some "drops to a root shell in the initramfs"%string
  else if is_lit key "systemd.debug_shell" || is_lit key "systemd.debug-shell" then
    if v_is "0"%string then None else Some "starts an unauthenticated root shell on tty9"%string
  else if is_lit key "init" || is_lit key "rdinit" then
    match value with
    | Some v => if among_lits STANDARD_INIT v then None else Some "replaces init"%string
    | None => None
    end
  else None.

Definition weak_token (tok : Chars.text) : option (Chars.text * string) :=
  let '(key, value) := match split_at (is_char 61) tok with Some (k, v) => (k, Some v) | None => (tok, None) end in
  why ← weak_option key value; Some (tok, why).
Definition weak_cmdline (cmdline : Chars.text) : list (Chars.text * string) := omap weak_token (shell_tokens cmdline).

(** The lines of a configuration that hold options. *)
Definition grub_line (l : Chars.text) : option Chars.text :=
  '(k, v) ← split_at (is_char 61) (trim l);
  if among_lits ["GRUB_CMDLINE_LINUX"; "GRUB_CMDLINE_LINUX_DEFAULT"]%string (trim k)
  then Some (trim_while (λ c, (c =? 34) || (c =? 39)) (trim v)) else None.
Definition loader_line (l : Chars.text) : option Chars.text := trim <$> after_prefix "options" (trim l).

Section WithHost.
Context `{K : Kernel, RX : RegexLib, ST : StdText, SE : Session, MA : Machine}.

Definition secure_boot (sys : path) : M unit :=
  if negb (path_exists 0 (join sys "firmware/efi")) then note "legacy BIOS boot (no Secure Boot)"
  else
    match read_octets (join sys SECURE_BOOT_VAR) with
    | Ok v =>
        if 5 <=? vlen v then
          _ ← add_examined 1;
          if bool_decide (v !! 4%nat = Some 1) then note "Secure Boot on"
          else report SECURE_BOOT_OFF (Finding.System "firmware") "SecureBoot EFI variable is 0"
        else note "SecureBoot EFI variable malformed"
    | Err e => io_error (join sys SECURE_BOOT_VAR) e
    end.

Definition lockdown (sys : path) : M unit :=
  match read_to_string 0 (join sys "kernel/security/lockdown") with
  | Ok l =>
      let mode := default (lit "?") (head (List.filter (λ w, starts w "[") (split_whitespace (chars l)))) in
      note (fmt "kernel lockdown {}" [of_chars (trim_while (λ c, (c =? 91) || (c =? 93)) mode)])
  | Err _ => mret tt
  end.

Definition signatures (sys : path) : M unit :=
  match read_to_string 0 (join sys "module/module/parameters/sig_enforce") with
  | Ok s =>
      note (fmt "module signatures {}"
              [if is_lit (trim (chars s)) "Y" then "enforced"%string else "not enforced"%string])
  | Err _ => mret tt
  end.

Definition running_cmdline (proc : path) : M unit :=
  match read_to_string 0 (join proc "cmdline") with
  | Ok cmdline =>
      _ ← add_examined 1;
      for_each (λ '(tok, why),
        report WEAK_CMDLINE (Finding.System "running kernel command line")
          (fmt "{tok}: {why}" [of_chars tok; why])) (weak_cmdline (chars cmdline))
  | Err e => io_error (join proc "cmdline") e
  end.

(** A file of options, read if it can be. *)
Definition config (p : path) (options : Chars.text → list Chars.text) : M (list (path * list Chars.text)) :=
  r ← get root;
  match read_text r p with
  | Ok t => _ ← add_examined 1; mret [(p, options (text t))]
  | Err _ => mret []
  end.

Definition configs : M (list (path * list Chars.text)) :=
  a ← config "/etc/default/grub" (λ t, omap grub_line (lines t));
  b ← config "/etc/kernel/cmdline" lines;
  r ← get root;
  c ← match read_dir r "/boot/loader/entries" with
      | Ok es =>
          collect (λ e, config (join "/boot/loader/entries" (name e)) (λ t, omap loader_line (lines t)))
            (takeN 200 (List.filter (λ e, Names.ends_with (name e) ".conf") es))
      | Err _ => mret []
      end;
  mret (a ++ b ++ c).

Definition report_config (p : path) (line : Chars.text) : M unit :=
  for_each (λ '(tok, why),
    report WEAK_CMDLINE
      (Finding.Persistence (mechanism_name BootLoader) (ObservedPath.from_path p) (Some (of_chars tok)))
      (fmt "configured for the next boot: {tok}: {why}" [of_chars tok; why])) (weak_cmdline line).

Definition boot_writable (p : path) (m : Meta) : M unit :=
  report BOOT_WRITABLE (Finding.File (ObservedPath.from_path p) None None) (owner_text m).

(** The entries of a directory: the files are looked at and counted, the
    directories are pushed. *)
Definition boot_entry (d : path) (state : list path * N) (e : Entry) : M (list path * N) :=
  let '(stack, count) := state in
  let p := join d (name e) in
  match entry_kind e with
  | KDir => mret (p :: stack, count)
  | KFile =>
      r ← get root;
      _ ← match lstat r p with
          | Ok m => when (writable_by_non_root m) (boot_writable p m)
          | Err _ => mret tt
          end;
      mret (stack, count + 1)
  | _ => mret (stack, count)
  end.

Definition boot_dir (d : path) (stack : list path) (count : N) : M (list path * N) :=
  r ← get root;
  match lstat r d with
  | Ok m =>
      if bool_decide (Fsx.kind m = KDir) then
        _ ← when (dir_writable_by_non_root m) (boot_writable d m);
        match read_dir r d with
        | Ok es => fold_each (boot_entry d) (stack, count) es
        | Err e => _ ← io_error d e; mret (stack, count)
        end
      else mret (stack, count)
  | Err _ => mret (stack, count)
  end.

(** The loop over the stack of directories, its top first. [None] when the
    fuel runs out; [boot_walk_returns] gives enough. *)
Fixpoint boot_walk (fuel : nat) (stack : list path) (count : N) : M (option N) :=
  match fuel with
  | O => mret None
  | S fuel =>
      match stack with
      | [] => mret (Some count)
      | d :: stack =>
          c ← cancelled;
          if c || (MAX_BOOT_FILES <=? count) then mret (Some count)
          else '(stack, count) ← boot_dir d stack count; boot_walk fuel stack count
      end
  end.

Definition boot_files (fuel : nat) : M unit :=
  count ← boot_walk fuel ["/boot"%string] 0;
  match count with
  | None => mret tt
  | Some count =>
      _ ← add_examined count;
      when (MAX_BOOT_FILES <=? count)
        (_ ← set_partial; note (fmt "stopped after {MAX_BOOT_FILES} files under /boot" [show_N MAX_BOOT_FILES]))
  end.

Definition check_body (fuel : nat) (proc sys : path) : M unit :=
  r ← get root;
  _ ← when (live r)
        (_ ← secure_boot sys; _ ← lockdown sys; _ ← signatures sys; running_cmdline proc);
  cs ← configs;
  _ ← for_each (λ '(p, ls), for_each (report_config p) ls) cs;
  boot_files fuel.
Definition check (fuel : nat) (proc sys : path) : M CheckResult :=
  _ ← new_run; _ ← check_body fuel proc sys; finish "boot.integrity" "Boot configuration and /boot permissions".

Lemma acts_boot_walk fuel stack count : Acts.acts (boot_walk fuel stack count).
Proof.
  assert (∀ p m, Acts.acts (boot_writable p m)) by (intros; unfold boot_writable; act_all).
  assert (∀ d s e, Acts.acts (boot_entry d s e)) by (intros; unfold boot_entry; act_all).
  assert (∀ d s n, Acts.acts (boot_dir d s n)) by (intros; unfold boot_dir; act_all).
  revert stack count. induction fuel as [|fuel IH]; intros stack count; simpl; act_all.
Qed.

Lemma acts_boot_body fuel proc sys : Acts.acts (check_body fuel proc sys).
Proof.
  pose proof acts_boot_walk.
  assert (∀ p f, Acts.acts (config p f)) by (intros; unfold config; act_all).
  assert (∀ p l, Acts.acts (report_config p l)) by (intros; unfold report_config; act_all).
  unfold check_body, secure_boot, lockdown, signatures, running_cmdline, configs, boot_files. act_all.
Qed.

Lemma checks_boot fuel proc sys : CtxProps.checks "boot.integrity" (check fuel proc sys).
Proof. pose proof acts_boot_body. unfold check. checking. Qed.

(** *** The walk ends *)

Definition subdirs (d : path) (es : list Entry) : list path :=
  (λ e, join d (name e)) <$> List.filter (λ e, bool_decide (entry_kind e = KDir)) es.

(** The directories below [d], as listed, are finitely many: at most [n]. *)
#[warnings="-register-all"]
Inductive finite_below (r : Root) : path → nat → Prop :=
  | finite_dir d es ns :
      read_dir r d = Ok es → Forall2 (finite_below r) (subdirs d es) ns → finite_below r d (S (sum_list ns))
  | finite_none d e : read_dir r d = Err e → finite_below r d 1.

(** A computation keeps the root. *)
Lemma same_root {A} (m : M A) s : Acts.acts m → Ctx.root (m s).2 = Ctx.root s.
Proof. intros H. apply (CtxProps.g_root _ _ (CtxProps.acts_grows _ _ (H s))). Qed.

Lemma acts_boot_entry d st e : Acts.acts (boot_entry d st e).
Proof.
  assert (∀ p m, Acts.acts (boot_writable p m)) by (intros; unfold boot_writable; act_all).
  intros; unfold boot_entry; act_all.
Qed.

Lemma boot_entry_stack d stack count e s :
  ((boot_entry d (stack, count) e) s).1.1 =
    (if bool_decide (entry_kind e = KDir) then [join d (name e)] else []) ++ stack.
Proof.
  unfold boot_entry, get, when, mbind, M_bind. destruct (entry_kind e); simpl; try done.
  destruct (lstat (Ctx.root s) (join d (name e))) as [m|]; [|done].
  destruct (writable_by_non_root m); [|done]. by destruct (boot_writable _ _ _).
Qed.

Lemma boot_entries_stack d es : ∀ stack count s,
  (fold_each (boot_entry d) (stack, count) es s).1.1 = reverse (subdirs d es) ++ stack.
Proof.
  induction es as [|e es IH]; intros stack count s; [done|].
  rewrite fold_each_cons. pose proof (boot_entry_stack d stack count e s) as He.
  destruct (boot_entry d (stack, count) e s) as [[stack' count'] s']. simpl in He. subst stack'.
  rewrite IH. unfold subdirs. cbn [List.filter].
  case_bool_decide; [|done]. by rewrite fmap_cons, reverse_cons, <-app_assoc.
Qed.

Lemma boot_dir_stack d stack count s :
  ((boot_dir d stack count) s).1.1 = stack ∨
  ∃ es, read_dir (Ctx.root s) d = Ok es ∧ ((boot_dir d stack count) s).1.1 = reverse (subdirs d es) ++ stack.
Proof.
  unfold boot_dir, get, mbind, M_bind. cbv beta iota.
  destruct (lstat (Ctx.root s) d) as [m|]; [|by left]. case_bool_decide; [|by left].
  destruct (when _ _ s) as [[] s']. destruct (read_dir (Ctx.root s) d) as [es|e] eqn:E.
  - right. exists es. split; [done|]. apply boot_entries_stack.
  - left. by destruct (io_error d e s').
Qed.

Lemma sum_list_reverse (l : list nat) : sum_list (reverse l) = sum_list l.
Proof. by rewrite reverse_Permutation. Qed.

(** Termination: with as much fuel as there are directories, the walk ends. *)
Lemma boot_walk_enough fuel : ∀ stack count s ns,
  Forall2 (finite_below (Ctx.root s)) stack ns → (sum_list ns < fuel)%nat →
  is_Some ((boot_walk fuel stack count) s).1.
Proof.
  induction fuel as [|fuel IH]; intros stack count s ns Hst Hf; [lia|].
  destruct Hst as [|d n stack ns Hd Hst]; [done|]. cbn [boot_walk].
  unfold mbind at 1, M_bind at 1. unfold cancelled. cbv beta iota.
  destruct (_ || _); [done|]. unfold mbind at 1, M_bind at 1.
  set (s1 := set_polls (S (polls s)) s). assert (Ctx.root s1 = Ctx.root s) as Hr1 by done.
  assert (Acts.acts (boot_dir d stack count)) as Hacts.
  { pose proof acts_boot_entry. unfold boot_dir, boot_writable. act_all. }
  pose proof (same_root _ s1 Hacts) as Hroot.
  pose proof (boot_dir_stack d stack count s1) as Hstack.
  destruct (boot_dir d stack count s1) as [[stack' count'] s2]. cbn in Hroot, Hstack.
  simpl in Hf. destruct Hstack as [->|(es & Hes & ->)].
  - apply (IH _ _ _ ns); [by rewrite Hroot|]. destruct Hd; lia.
  - change (read_dir (Ctx.root s) d = Ok es) in Hes. inversion Hd as [? es' ms Hes' Hms|]; subst; [|congruence].
    assert (es' = es) as -> by congruence.
    apply (IH _ _ _ (reverse ms ++ ns)).
    + rewrite Hroot. apply Forall2_app; [|done]. by apply Forall2_reverse.
    + rewrite sum_list_with_app, sum_list_reverse. lia.
Qed.
End WithHost.
End BootChecks.

(** ** ebpf.rs *)
Module Ebpf.
Import System Ctx Loops.

Definition BPFTOOL : list path := ["/usr/sbin/bpftool"; "/usr/bin/bpftool"; "/sbin/bpftool"]%string.

Record Prog := mkProg { id : N; kind : string; name : string; tag : string; holders : list (N * string) }.

(** [v.get(k)], [v.as_str()], [v.as_u64()], [v.as_array()] *)
Definition field (v : Value) (k : string) : option Value :=
  match v with
  | Obj l => snd <$> head (List.filter (λ kv, bool_decide (kv.1 = k)) l)
  | _ => None
  end.
Definition as_str (v : Value) : option string := match v with Str s => Some s | _ => None end.
Definition as_u64 (v : Value) : option N := match v with Number n => n | _ => None end.
Definition as_array (v : Value) : option (list Value) := match v with Arr l => Some l | _ => None end.

Definition holder (h : Value) : option (N * string) :=
  pid ← field h "pid" ≫= as_u64;
  if pid <=? u32_max then Some (pid, default ""%string (field h "comm" ≫= as_str)) else None.

Definition str_field (p : Value) (k : string) : string := default ""%string (field p k ≫= as_str).
Definition program (p : Value) : option Prog :=
  id ← field p "id" ≫= as_u64;
  Some (mkProg id (str_field p "type") (str_field p "name") (str_field p "tag")
          (omap holder (default [] (field p "pids" ≫= as_array)))).

Definition programs (v : option Value) : list Prog :=
  match v with Some (Arr items) => omap program (takeN 10000 items) | _ => [] end.

(** The first line with the key, without it and the colons after it. *)
Definition fdinfo_field (k : string) (t : Chars.text) : option Chars.text :=
  head (omap (λ l, v ← after_prefix k l; Some (trim (skip_while (is_char 58) v))) (lines t)).
Definition parse_fdinfo (t : Chars.text) : option (string * N * string) :=
  kind ← fdinfo_field "prog_type" t;
  id ← fdinfo_field "prog_id" t ≫= parse_u64;
  Some (of_chars kind, id, of_chars (default [] (fdinfo_field "prog_tag" t))).

(** A [BTreeMap<u64, Prog>] as its values in the order of their keys. *)
Fixpoint insert_prog (p : Prog) (l : list Prog) : list Prog :=
  match l with
  | [] => [p]
  | q :: l => if id p <? id q then p :: q :: l else if id p =? id q then p :: l else q :: insert_prog p l
  end.
Definition by_id (n : N) (l : list Prog) : option Prog := head (List.filter (λ p, id p =? n) l).
Definition add_holder (pid : N) (comm : string) (p : Prog) : Prog :=
  if existsb (λ h, h.1 =? pid) (holders p) then p
  else mkProg (id p) (kind p) (name p) (tag p) (holders p ++ [(pid, comm)]).

Section WithHost.
Context `{K : Kernel, RX : RegexLib, ST : StdText, SE : Session, MA : Machine}.

Definition parse_bpftool (t : string) : list Prog := programs (json_value t).

Definition bpf_link : path := "anon_inode:bpf-prog".

(** [dirs.flatten()] *)
Definition flatten {E A} (l : list (result E A)) : list A := omap ok l.

(** One descriptor of the process below [d]. *)
Definition descriptor (d : path) (pid : N) (out : list Prog) (fd : bytes) : list Prog :=
  match read_link (join (join d "fd") (of_bytes fd)) with
  | Ok l =>
      if bool_decide (l = bpf_link) then
        match t ← ok (read_to_string 0 (join (join d "fdinfo") (of_bytes fd))); parse_fdinfo (chars t) with
        | Some (kind, id, tag) =>
            let comm := match read_to_string 0 (join d "comm") with
                        | Ok c => Names.trim_str c
                        | Err _ => ""%string
                        end in
            insert_prog (add_holder pid comm (default (mkProg id kind "" tag []) (by_id id out))) out
        | None => out
        end
      else out
  | Err _ => out
  end.

(** One entry of [/proc], with the programs and the number of processes that
    could not be read. *)
Definition process_dir (proc : path) (state : list Prog * N) (n : bytes) : M (bool * (list Prog * N)) :=
  let '(out, unreadable) := state in
  c ← cancelled;
  if c : bool then mret (true, state)
  else
    match to_str n ≫= (parse_u32 ∘ as_bytes) with
    | None => mret (false, state)
    | Some pid =>
        let d := join proc (of_bytes n) in
        match dir_names 0 (join d "fd") with
        | Err _ => mret (false, (out, unreadable + 1))
        | Ok fds =>
            _ ← add_examined 1;
            mret (false, (foldl (descriptor d pid) out (takeN 65536 (flatten fds)), unreadable))
        end
    end.

Definition from_processes (proc : path) : M (list Prog) :=
  match dir_names 0 proc with
  | Err _ => mret []
  | Ok dirs =>
      '(out, unreadable) ← fold_until (process_dir proc) ([], 0) (flatten dirs);
      _ ← when (0 <? unreadable)
            (_ ← set_partial; note (fmt "{denied} process(es) not readable; run as root" [show_N unreadable]));
      mret out
  end.

Definition MAX_PINS : N := 10000.

(** The loop over the entries of [dir]: a failure ends it; that of a directory
    below is ignored, what was found before it stays. [below] does one. *)
Fixpoint pinned_loop (below : option (path → list path → result IoError unit * list path)) (d : path)
    (out : list path) (es : list (result IoError bytes)) : result IoError unit * list path :=
  match es with
  | [] => (Ok tt, out)
  | Err e :: _ => (Err e, out)
  | Ok n :: es =>
      let p := join d (of_bytes n) in
      match is_dir p with
      | Err e => (Err e, out)
      | Ok b =>
          let out := if b then match below with Some f => (f p out).2 | None => out end else out ++ [p] in
          if MAX_PINS <=? vlen out then (Ok tt, out) else pinned_loop below d out es
      end
  end.
Fixpoint pinned (depth : nat) (d : path) (out : list path) : result IoError unit * list path :=
  match dir_names 0 d with
  | Err e => (Err e, out)
  | Ok es => pinned_loop (match depth with O => None | S depth => Some (pinned depth) end) d out es
  end.

Definition dash (s : string) : string := if bool_decide (s = ""%string) then "-"%string else s.

Definition bpf_entry (location : path) (detail : string) : PersistenceEntry :=
  System.mkEntry System.Ebpf SystemScope (ObservedPath.from_path location) None None (Some true) (Some detail).

Definition prog_entry (p : Prog) : PersistenceEntry :=
  let hs := joined ", " ((λ '(pid, c), fmt "{pid} ({c})" [show_N pid; c]) <$> holders p) in
  bpf_entry (fmt "bpf program {id}" [show_N (id p)])
    (fmt "id {}, type {}, name {}, tag {}, held by {}"
       [show_N (id p); kind p; dash (name p); dash (tag p);
        if bool_decide (hs = ""%string) then "no process (attached or pinned)"%string else hs]).

(** What [bpftool] says, when it can be asked. *)
Definition from_bpftool (secs : N) : M (option (list Prog)) :=
  match (if geteuid =? 0 then head (List.filter (path_exists 0) BPFTOOL) else None) with
  | None => mret None
  | Some tool =>
      r ← Tool.run tool ["-j"; "prog"; "show"]%string secs;
      match r with
      | Ok out => mret (Some (foldl (λ l p, insert_prog p l) [] (parse_bpftool (of_chars out))))
      | Err e => _ ← note (fmt "bpftool failed ({e}); using /proc" [e]); mret None
      end
  end.

Definition bpf_progs (proc : path) (secs : N) : M (list Prog * string) :=
  tool ← from_bpftool secs;
  match tool with
  | Some l => mret (l, "bpftool"%string)
  | None =>
      l ← from_processes proc;
      _ ← note "programs attached without a holding process (cgroup, XDP, tc) are only listed by bpftool as root";
      _ ← when (negb Privileges.can_inspect_processes) set_partial;
      mret (l, "processes' open descriptors"%string)
  end.

Definition report_pins (sys : path) : M unit :=
  let bpffs := join sys "fs/bpf" in
  match pinned 4 bpffs [] with
  | (Ok _, pins) =>
      for_each (λ p, push_entry (bpf_entry p "pinned eBPF object (survives until reboot)")) pins
  | (Err e, _) =>
      if bool_decide (e = Os 2) then mret tt
      else _ ← set_partial; note (fmt "{}: {e}" [display bpffs; io_text e])
  end.

Definition check_body (proc sys : path) (secs : N) : M unit :=
  '(progs, source) ← bpf_progs proc secs;
  _ ← for_each (λ p, push_entry (prog_entry p)) progs;
  _ ← report_pins sys;
  note (fmt "{} program(s) from {source}" [show_N (vlen progs); source]).
Definition check (proc sys : path) (secs : N) : M CheckResult :=
  _ ← new_run; _ ← check_body proc sys secs; finish "kernel.ebpf" "Loaded eBPF programs".

Lemma acts_ebpf_body proc sys secs : Acts.acts (check_body proc sys secs).
Proof.
  assert (∀ p st n, Acts.acts (process_dir p st n)) by (intros; unfold process_dir; act_all).
  unfold check_body, bpf_progs, from_bpftool, from_processes, report_pins. act_all.
Qed.
Lemma checks_ebpf proc sys secs : CtxProps.checks "kernel.ebpf" (check proc sys secs).
Proof. pose proof acts_ebpf_body. unfold check. checking. Qed.
End WithHost.
End Ebpf.
