(* ===== verification/Packages.v ===== *)
(** * System checks: package verification

    system/src/packages.rs: what the package database records and what the
    files hold. The digests (crates md5 and sha2) are a parameter. *)

From S2P Require Import Prelude Utf8 Paths Core External AuditLog Heuristics Chars SystemFs SystemCtx Persistence SystemLive.

Module Packages.
Import System SysRules Commands Fsx Ctx Loops Common.

Definition ID : string := "packages.verify".
Definition TITLE : string := "Package file verification".
Definition MAX_REFERENCED : N := 2000.
Definition MAX_HASH_BYTES : N := N.shiftl 1 30.
Definition RPM : path := "/usr/bin/rpm".
Definition chr (c : N) : string := of_bytes [c].
Definition RPM_QUERY_FORMAT : string :=
  "[%{FILENAMES}" +:+ chr 9 +:+ "%{=FILEDIGESTALGO}" +:+ chr 9 +:+ "%{FILEDIGESTS}" +:+ chr 9 +:+ "%{FILEFLAGS}"
  +:+ chr 9 +:+ "%{FILEMODES}" +:+ chr 10 +:+ "]".
Definition RPMFILE_CONFIG : N := 1.
Definition RPMFILE_GHOST : N := N.shiftl 1 6.

Definition CRITICAL : list path :=
  ["/usr/bin/ls"; "/usr/bin/ps"; "/usr/bin/top"; "/usr/bin/netstat"; "/usr/bin/ss"; "/usr/sbin/ss";
   "/usr/bin/lsof"; "/usr/sbin/lsof"; "/usr/bin/find"; "/usr/bin/du"; "/usr/bin/df"; "/usr/bin/w";
   "/usr/bin/who"; "/usr/bin/last"; "/usr/bin/id"; "/usr/bin/login"; "/usr/bin/su"; "/usr/bin/sudo";
   "/usr/bin/passwd"; "/usr/bin/bash"; "/usr/bin/sh"; "/usr/bin/dash"; "/usr/bin/ssh"; "/usr/sbin/sshd";
   "/usr/bin/systemctl"; "/usr/lib/systemd/systemd"; "/usr/bin/crontab"; "/usr/sbin/crond"; "/usr/sbin/cron";
   "/usr/bin/kill"; "/usr/bin/pkill"; "/usr/bin/pgrep"; "/usr/bin/ip"; "/usr/sbin/ip"; "/usr/sbin/ifconfig";
   "/usr/bin/strace"; "/usr/bin/ldd"; "/usr/bin/md5sum"; "/usr/bin/sha256sum"; "/usr/bin/stat";
   "/usr/bin/file"; "/usr/bin/rpm"; "/usr/bin/dpkg"; "/usr/bin/dpkg-query"; "/usr/sbin/bpftool";
   "/usr/sbin/insmod"; "/usr/sbin/modprobe"; "/usr/sbin/lsmod"; "/usr/bin/kmod"; "/usr/lib64/libc.so.6";
   "/usr/lib/x86_64-linux-gnu/libc.so.6"; "/usr/lib64/ld-linux-x86-64.so.2";
   "/usr/lib/x86_64-linux-gnu/ld-linux-x86-64.so.2"; "/usr/lib64/librpm.so.10"; "/usr/lib64/librpmio.so.10";
   "/usr/lib64/libpam.so.0"; "/usr/lib/x86_64-linux-gnu/libpam.so.0"; "/usr/lib64/security/pam_unix.so";
   "/usr/lib/x86_64-linux-gnu/security/pam_unix.so"; "/usr/lib64/libkeyutils.so.1";
   "/usr/lib/x86_64-linux-gnu/libkeyutils.so.1"; "/usr/lib64/libaudit.so.1";
   "/usr/lib/x86_64-linux-gnu/libaudit.so.1"; "/usr/lib64/libselinux.so.1";
   "/usr/lib/x86_64-linux-gnu/libselinux.so.1"]%string.

Inductive Algo := Md5 | Sha224 | Sha256 | Sha384 | Sha512.

Definition from_rpm (n : N) : option Algo :=
  if n =? 1 then Some Md5 else if n =? 8 then Some Sha256 else if n =? 9 then Some Sha384
  else if n =? 10 then Some Sha512 else if n =? 11 then Some Sha224 else None.

(** As [{:?}] renders it. *)
Definition algo_name (a : Algo) : string :=
  match a with
  | Md5 => "Md5" | Sha224 => "Sha224" | Sha256 => "Sha256" | Sha384 => "Sha384" | Sha512 => "Sha512"
  end%string.

Record Recorded := mkRecorded { r_path : string; r_algo : Algo; r_digest : string; r_package : option string }.

Definition is_hex (c : N) : bool := bool_decide (is_Some (Digest.hex_value c)).
Definition lower_hex (d : Chars.text) : string := to_ascii_lowercase (of_chars d).

(** A line of the answer: nothing, a record, or a file whose digest has an
    algorithm that is not supported. *)
Definition rpm_line (line : Chars.text) : option (option Recorded) :=
  match split (is_char 9) line with
  | [p; algo; digest; flags; mode] =>
      algo ← parse_u32 algo;
      flags ← parse_u32 flags;
      mode ← parse_u32 mode;
      if negb (starts p "/") || bool_decide (digest = [])
         || bit flags (N.lor RPMFILE_CONFIG RPMFILE_GHOST)
         || negb (N.land mode 0xF000 =? 0x8000) || negb (forallb is_hex digest)
      then None
      else Some (a ← from_rpm algo; Some (mkRecorded (of_chars p) a (lower_hex digest) None))
  | _ => None
  end.
Definition parse_rpm_query (output : Chars.text) : list Recorded * N :=
  let rows : list (option Recorded) := omap rpm_line (lines output) in
  (omap (λ r, r) rows, vlen (List.filter (λ r, bool_decide (r = None)) rows)).

Definition md5_line (package : string) (line : Chars.text) : option Recorded :=
  '(digest, p) ← split_at is_whitespace line;
  let p := trim_start p in
  if (vlen digest =? 32) && forallb is_hex digest && negb (bool_decide (p = []))
  then Some (mkRecorded (of_chars (47 :: skip_while (is_char 47) p)) Md5 (lower_hex digest) (Some package))
  else None.
Definition parse_md5sums (t : Chars.text) (package : string) : list Recorded := omap (md5_line package) (lines t).

Definition MERGED : list string := ["/bin/"; "/sbin/"; "/lib/"; "/lib64/"; "/lib32/"; "/libx32/"]%string.
(** Octets of a path are enough here: the directories are ASCII. *)
Definition alias_under (p : Chars.text) (d : string) : option Chars.text :=
  if starts p d then Some (lit "/usr" ++ p)
  else rest ← after_prefix "/usr" p; if starts rest d then Some rest else None.
Definition usrmerge_alias (p : string) : option string := of_bytes <$> first_some (alias_under (as_bytes p)) MERGED.

Inductive Manager := Rpm | Dpkg.

Record Options := mkOptions { verify_all : bool; timeout : N }.

(** The first record of each path. *)
Definition first_of_path (l : list Recorded) : list Recorded :=
  reverse (foldl (λ out r, if existsb (λ q, bool_decide (r_path q = r_path r)) out then out else r :: out) [] l).

(** [wanted]: the recorded path to ours. *)
Definition want (m : gmap string string) (t : string) : gmap string string :=
  let m := <[t := t]> m in
  match usrmerge_alias t with
  | Some a => match m !! a with None => <[a := t]> m | Some _ => m end
  | None => m
  end.
Definition wanted (targets : list string) : gmap string string := foldl want ∅ targets.

Definition stem_of (e : Entry) : option string := of_bytes <$> before_suffix ".md5sums" (as_bytes (name e)).
Definition list_stem (e : Entry) : string := of_bytes (trim_end_lit ".list" (as_bytes (name e))).

(** The records of a package that are looked for, under our path. *)
Definition ours (all : bool) (w : gmap string string) (r : Recorded) : option Recorded :=
  if all then Some r
  else (λ p, mkRecorded p (r_algo r) (r_digest r) (r_package r)) <$> w !! r_path r.

Definition names_list (l : list string) : string :=
  let more := if 5 <? vlen l then ", ..."%string else ""%string in
  String.append (joined ", " (takeN 5 l)) more.

(** The digests: [Digest::new], [update] with the chunks, [finalize]. *)
Class Digests := { digest_of : Algo → bytes → bytes }.

Section WithHost.
Context `{K : Kernel, RX : RegexLib, ST : StdText, SE : Session, MA : Machine, DG : Digests}.

Definition detect (r : Root) : result string Manager :=
  let exists_ p := is_ok (stat r p) in
  if exists_ "/var/lib/dpkg/status"%string then Ok Dpkg
  else if exists_ "/var/lib/rpm"%string || exists_ "/usr/lib/sysimage/rpm"%string then
    if path_exists 0 RPM then Ok Rpm
    else Err "the inspected system uses rpm, but /usr/bin/rpm is not installed on this host"%string
  else Err "no rpm or dpkg database in the inspected root"%string.

Definition hash_file (r : Root) (p : path) (a : Algo) : result IoError (option string) :=
  content ← read_chunks r p MAX_HASH_BYTES;
  Ok (option_map (λ c : bytes, Digest.hex_encode (digest_of a c)) content).

(** The files to verify, of a run that does not verify all. *)
Definition referenced (es : list PersistenceEntry) : list string :=
  takeN MAX_REFERENCED
    (ObservedPath.text <$> List.filter (λ p, negb (ObservedPath.is_lossy p) && negb (in_temp_dir (ObservedPath.text p)))
                             (omap executable es)).
Definition is_regular (r : Root) (p : path) : bool :=
  match stat r p with Ok m => bool_decide (Fsx.kind m = KFile) | Err _ => false end.
Definition targets_of (r : Root) (es : list PersistenceEntry) : list string :=
  List.filter (is_regular r) (btree_of cmp_str (CRITICAL ++ referenced es)).

Definition rpm_args (r : Root) (targets : list string) (all : bool) : list string :=
  (if live r then [] else [fmt "--root={}" [display (root_path r)]])
  ++ ["-q"; "--nodigest"; "--nosignature"; "--qf"; RPM_QUERY_FORMAT]%string
  ++ (if all then ["-a"%string] else "-f"%string :: targets).

Definition rpm_records (targets : list string) (opts : Options) : M (result string (list Recorded)) :=
  r ← get root;
  answer ← Tool.run RPM (rpm_args r targets (verify_all opts)) (timeout opts);
  match answer with
  | Err e => mret (Err e)
  | Ok output =>
      let '(records, unsupported) := parse_rpm_query output in
      _ ← when (0 <? unsupported)
            (note (fmt "{unsupported} file(s) use an unsupported digest algorithm" [show_N unsupported]));
      mret (Ok (sort_by (λ a b, cmp_str (r_path a) (r_path b))
        (first_of_path (List.filter (λ q, verify_all opts || among targets (r_path q)) records))))
  end.

Definition INFO : path := "/var/lib/dpkg/info".

(** A package list: whether the package owns a file that is looked for. *)
Definition owner_entry (w : gmap string string) (owning : list string) (e : Entry) : M (bool * list string) :=
  c ← cancelled;
  if c : bool then mret (true, owning)
  else
    r ← get root;
    mret (false, match read_text r (join INFO (name e)) with
                 | Ok t => if existsb (λ l, bool_decide (is_Some (w !! of_chars l))) (lines (text t))
                           then owning ++ [list_stem e] else owning
                 | Err _ => owning
                 end).

Definition md5sums_of (all : bool) (w : gmap string string) (stem : string) : M (list Recorded) :=
  r ← get root;
  let p := join INFO (stem +:+ ".md5sums")%string in
  match read_text r p with
  | Ok t =>
      _ ← when (truncated t) (_ ← set_partial; note (larger p));
      let package := of_bytes (first_piece (is_char 58) (as_bytes stem)) in
      mret (omap (ours all w) (parse_md5sums (text t) package))
  | Err e => _ ← io_error p e; mret []
  end.

Definition dpkg_records (targets : list string) (all : bool) : M (list Recorded) :=
  r ← get root;
  match read_dir r INFO with
  | Err e => _ ← io_error INFO e; mret []
  | Ok entries =>
      let w := wanted targets in
      owning ← (if all then mret []
                else fold_until (owner_entry w) [] (List.filter (λ e, Names.ends_with (name e) ".list") entries));
      out ← collect (md5sums_of all w) (List.filter (λ s, all || among owning s) (omap stem_of entries));
      mret (first_of_path out)
  end.

Definition package_text (p : option string) : string :=
  match p with Some p => fmt " (package {p})" [p] | None => ""%string end.
Definition modified_summary (r : Recorded) (actual : string) : string :=
  (fmt "{:?} digest {actual} differs from the package database's {}" [algo_name (r_algo r); actual; r_digest r]
   +:+ package_text (r_package r))%string.
Definition file_target (p : path) : Finding.FindingTarget := Finding.File (ObservedPath.from_path p) None None.

(** One record, with the number of files too large and the paths of those that
    could not be read. *)
Definition verify_entry (state : N * list string) (r : Recorded) : M (bool * (N * list string)) :=
  let '(too_large, unreadable) := state in
  c ← cancelled;
  if c : bool then mret (true, state)
  else
    fs ← get root;
    match hash_file fs (r_path r) (r_algo r) with
    | Ok (Some actual) =>
        _ ← add_examined 1;
        _ ← when (negb (bool_decide (actual = r_digest r)))
              (report PACKAGE_MODIFIED (file_target (r_path r)) (modified_summary r actual));
        mret (false, state)
    | Ok None => mret (false, (too_large + 1, unreadable))
    | Err e => mret (false, if bool_decide (e = Os 2) then state else (too_large, unreadable ++ [r_path r]))
    end.

Definition verify (records : list Recorded) : M (N * list string) := fold_until verify_entry (0, []) records.

Definition verify_notes (manager : Manager) (opts : Options) (targets : list string) (counts : N * list string)
    : M unit :=
  let '(too_large, unreadable) := counts in
  _ ← when (0 <? too_large) (note (fmt "{too_large} file(s) larger than 1 GiB not hashed" [show_N too_large]));
  _ ← when (negb (bool_decide (unreadable = [])))
        (_ ← set_partial;
         note (fmt "{} file(s) could not be read ({names}); run as root" [show_N (vlen unreadable); names_list unreadable]));
  _ ← note (match manager with
            | Rpm => fmt "rpm database queried with {RPM}; files hashed by Abyssal Warden" [RPM]
            | Dpkg => "dpkg database read directly (no dpkg program run); files hashed by Abyssal Warden"%string
            end);
  when (negb (verify_all opts))
    (note (fmt "{} critical or referenced file(s) selected" [show_N (vlen targets)])).

(** The check once the package manager and the files are known. *)
Definition verify_with (opts : Options) (manager : Manager) (targets : list string) : M CheckResult :=
  records ← match manager with
            | Rpm => rpm_records targets opts
            | Dpkg => l ← dpkg_records targets (verify_all opts); mret (Ok l)
            end;
  match records with
  | Err e => mret (skipped ID TITLE System.Failed e)
  | Ok records =>
      counts ← verify records;
      _ ← verify_notes manager opts targets counts;
      finish ID TITLE
  end.

Definition check (opts : Options) : M CheckResult :=
  _ ← new_run;
  r ← get root;
  match detect r with
  | Err why => mret (skipped ID TITLE Unsupported why)
  | Ok manager =>
      es ← get persistence;
      let targets := if verify_all opts then [] else targets_of r es in
      if negb (verify_all opts) && bool_decide (targets = []) then finish ID TITLE
      else verify_with opts manager targets
  end.
End WithHost.
End Packages.
Abbreviation Digests := Packages.Digests.

Module PackagesProps.
Import System SysRules Commands Fsx Ctx Loops Common CtxProps Packages.

Section WithHost.
Context `{K : Kernel, RX : RegexLib, ST : StdText, SE : Session, MA : Machine, DG : Digests}.

Lemma acts_verify_entry st r : Acts.acts (verify_entry st r).
Proof. unfold verify_entry. act_all. Qed.
Lemma acts_rpm_records targets opts : Acts.acts (rpm_records targets opts).
Proof. unfold rpm_records. act_all. Qed.
Lemma acts_dpkg_records targets all : Acts.acts (dpkg_records targets all).
Proof.
  assert (∀ w o e, Acts.acts (owner_entry w o e)) by (intros; unfold owner_entry; act_all).
  assert (∀ w s, Acts.acts (md5sums_of all w s)) by (intros; unfold md5sums_of; act_all).
  unfold dpkg_records. act_all.
Qed.
Lemma acts_verify_notes m o t c : Acts.acts (verify_notes m o t c).
Proof. unfold verify_notes. act_all. Qed.

Lemma tail_verify_with opts manager targets : tail ID (verify_with opts manager targets).
Proof.
  pose proof acts_rpm_records. pose proof acts_dpkg_records. pose proof acts_verify_notes.
  pose proof acts_verify_entry. unfold verify_with.
  apply tail_bind; [act_all|]. intros [records|e].
  - apply tail_bind; [unfold verify; act_all|]. intros counts.
    apply tail_bind; [act_all|]. intros _. apply tail_finish.
  - intros s. split; [apply rtc_refl|done|]. intros []. by right.
Qed.

Lemma checks_packages opts : checks ID (check opts).
Proof.
  intros s. unfold check, mbind, M_bind, new_run, modify, get. cbv beta iota.
  destruct (detect _) as [manager|why]; [|apply not_run]. cbv zeta.
  eapply (ran _ _ 0 false []); [|done]. case_match; [apply tail_finish|apply tail_verify_with].
Qed.
End WithHost.
End PackagesProps.
