(* ===== verification/SystemChecks.v ===== *)
(** * System checks: the run

    system/src/lib.rs: [run_checks] runs every check on one shared state and
    gathers the outcome; [correlate] links the inventory to what the content
    scan detected; [host_path]. *)

From S2P Require Import Prelude Utf8 Paths Core External AuditLog Remediation Heuristics Chars SystemFs SystemCtx Persistence SystemLive Packages.

(** ** lib.rs *)
Module SystemChecks.
Import System SysRules Commands Fsx Ctx.

Record SystemCheckOptions := mkOptions {
  opt_root : path; hidden_processes : bool; packages : bool; verify_all_packages : bool; package_timeout : N }.
Definition default_options : SystemCheckOptions := mkOptions "/" true true false 300.

Record SystemCheckOutcome := mkOutcome {
  host : HostInfo; checks : list CheckResult; o_findings : list Finding;
  o_persistence : list PersistenceEntry; o_issues : list Report.ScanIssue; warnings : list string }.

Inductive SystemCheckError := RootError (p : path) (source : IoError).

Definition LIMITS_WARNING : string :=
  "System checks run inside the inspected operating system. A kernel-level rootkit can hide from every view they use, so a clean result is not proof that the system is clean; for a trustworthy answer, inspect the disk offline (--root) from known-good media.".
Definition NOT_ROOT_WARNING : string :=
  "not running as root: other users' files, root's crontab and other processes could not all be inspected".
Definition OFFLINE : string :=
  "not the running system (--root); inspect the kernel and processes on the live system".

(** The checks of the running system that an offline run skips. *)
Definition LIVE_CHECKS : list (string * string) :=
  [("processes.self_integrity", "Code injected into this scanner");
   ("kernel.modules", "Kernel module cross-view");
   ("kernel.ebpf", "Loaded eBPF programs");
   ("kernel.taint", "Kernel taint flags");
   ("processes.hidden", "Hidden processes");
   ("processes.deleted_executables", "Deleted executables")]%string.

Section WithHost.
Context `{K : Kernel, RX : RegexLib, ST : StdText, SE : Session, MA : Machine, DG : Digests}.

(** [checks.iter().map(|c| c(ctx)).collect()] *)
Fixpoint run_list (ms : list (M CheckResult)) : M (list CheckResult) :=
  match ms with
  | [] => mret []
  | m :: ms => c ← m; cs ← run_list ms; mret (c :: cs)
  end.

(** persistence/mod.rs: [run_all] *)
Definition run_all : list (M CheckResult) :=
  [Systemd.check; CronJobs.check; Files.ld_preload; Files.shell_profiles; Files.environment; Files.xdg_autostart;
   Ssh.check; PamStacks.check; Files.rc_local; UdevRules.check; Extra.sysv_init; Extra.at_jobs; Extra.generators;
   Extra.kernel_modules; Extra.motd; Extra.ssh_rc; Extra.initramfs_hooks; Extra.boot_loader].

Definition proc : path := "/proc".
Definition sys : path := "/sys".

Definition not_run (id title : string) (why : string) : M CheckResult := mret (skipped id title Skipped why).

Definition live_checks (live : bool) (opts : SystemCheckOptions) : list (M CheckResult) :=
  if live then
    [Processes.self_integrity proc; KernelChecks.modules proc sys; Ebpf.check proc sys (package_timeout opts);
     KernelChecks.taint proc;
     (if hidden_processes opts then Processes.hidden proc
      else not_run "processes.hidden" "Hidden processes" "disabled");
     Processes.deleted proc]
  else (λ '(id, title), not_run id title OFFLINE) <$> LIVE_CHECKS.

(** Every check, in order; [fuel] is for the walk of /boot. *)
Definition all_checks (fuel : nat) (live : bool) (opts : SystemCheckOptions) : list (M CheckResult) :=
  run_all ++ [BootChecks.check fuel proc sys] ++ live_checks live opts
  ++ [if packages opts
      then Packages.check (Packages.mkOptions (verify_all_packages opts) (package_timeout opts))
      else not_run Packages.ID Packages.TITLE "disabled"].

(** The users whose home directories are inspected, and the warnings. *)
Definition users_of (r : Root) : list User * bool * list string :=
  match read_text r "/etc/passwd" with
  | Ok t =>
      let all := Users.parse_passwd (text t) in
      if live r && negb Privileges.can_read_everything
      then (List.filter (λ u, Users.uid u =? geteuid) all, true, [])
      else (all, false, [])
  | Err e => ([], false, [fmt "cannot read /etc/passwd ({e}); user files were not inspected" [io_text e]])
  end.

Definition start_state (r : Root) : State :=
  let '(us, limited, _) := users_of r in mkState r us limited [] [] [] [] 0 0 false [].
Definition start_warnings (r : Root) : list string :=
  [LIMITS_WARNING] ++ (users_of r).2
  ++ (if live r && negb Privileges.can_read_everything then [NOT_ROOT_WARNING] else []).

Definition read_trim (p : path) : option string := Names.trim_str <$> ok (read_to_string 0 p).
Definition host_info (r : Root) (opts : SystemCheckOptions) : HostInfo :=
  mkHost "linux" (if live r then read_trim "/proc/sys/kernel/osrelease" else None)
    (if live r then read_trim "/proc/sys/kernel/hostname"
     else (λ t, of_chars (trim (text t))) <$> ok (read_text r "/etc/hostname"))
    (ObservedPath.from_path (opt_root opts)) (live r) (Some geteuid).

Definition run_checks (fuel : nat) (opts : SystemCheckOptions) : result SystemCheckError SystemCheckOutcome :=
  match open_root (opt_root opts) with
  | Err e => Err (RootError (opt_root opts) e)
  | Ok r =>
      let '(cs, s) := run_list (all_checks fuel (live r) opts) (start_state r) in
      Ok (mkOutcome (host_info r opts) cs (findings s) (persistence s) (issues s) (start_warnings r))
  end.

Definition host_path_of (root logical : path) : result IoError path :=
  r ← open_root root; host_path r logical.

(** [correlate]: for each entry with an executable and each detection of it, a
    finding; [n] findings were made before. *)
Definition launch_summary (exe : ObservedPath) (f : Finding) : string :=
  fmt "starts {} which {} detected as {}"
    [ObservedPath.text exe; Finding.detector (Finding.source f); Patterns.snippet (Finding.name f)].
Definition launch_target (e : PersistenceEntry) : Finding.FindingTarget :=
  Finding.Persistence (mechanism_name (mechanism e)) (location e) (Patterns.snippet <$> command e).

(** The pairs of an entry, its executable and a detection of that executable. *)
Definition launches (entries : list PersistenceEntry) (detected : list (ObservedPath * Finding))
    : list (PersistenceEntry * ObservedPath * Finding) :=
  e ← entries;
  match executable e with
  | None => []
  | Some exe => omap (λ '(p, f), if bool_decide (p = exe) then Some (e, exe, f) else None) detected
  end.
Definition correlate (n : nat) (entries : list PersistenceEntry) (detected : list (ObservedPath * Finding))
    : list Finding :=
  imap (λ i '(e, exe, f),
    finding version LAUNCHES_DETECTED (launch_target e) (launch_summary exe f) (new_id (n + i)) (now (n + i)))
    (launches entries detected).
End WithHost.
End SystemChecks.

(** ** What a run guarantees *)
Module SystemProps.
Import System SysRules Commands Fsx Ctx CtxProps SystemChecks Policy.

Section WithHost.
Context `{K : Kernel, RX : RegexLib, ST : StdText, SE : Session, MA : Machine, DG : Digests}.

Definition ALL_IDS : list string :=
  ["persistence.systemd"; "persistence.cron"; "persistence.ld_preload"; "persistence.shell_profiles";
   "persistence.environment"; "persistence.xdg_autostart"; "persistence.ssh_authorized_keys"; "persistence.pam";
   "persistence.rc_local"; "persistence.udev"; "persistence.sysv_init"; "persistence.at_jobs";
   "persistence.systemd_generators"; "persistence.kernel_modules"; "persistence.motd"; "persistence.ssh_rc";
   "persistence.initramfs_hooks"; "persistence.boot_loader"; "boot.integrity"; "processes.self_integrity";
   "kernel.modules"; "kernel.ebpf"; "kernel.taint"; "processes.hidden"; "processes.deleted_executables";
   "packages.verify"]%string.

Lemma checks_not_run id title why : CtxProps.checks id (SystemChecks.not_run id title why).
Proof.
  intros s. pose proof (CtxProps.not_run id s (examined s) (partial s) (notes s) title Skipped why) as H.
  by destruct s.
Qed.

Lemma all_checks_ids fuel live opts : Forall2 CtxProps.checks ALL_IDS (all_checks fuel live opts).
Proof.
  assert (Forall2 CtxProps.checks (take 18 ALL_IDS) run_all) as H1.
  { repeat constructor; first [apply Systemd.checks_systemd | apply CronJobs.checks_cron | apply Files.checks_ld_preload
      | apply Files.checks_shell_profiles | apply Files.checks_environment | apply Files.checks_xdg_autostart
      | apply Ssh.checks_ssh | apply PamStacks.checks_pam | apply Files.checks_rc_local | apply UdevRules.checks_udev
      | apply Extra.checks_sysv_init | apply Extra.checks_at_jobs | apply Extra.checks_generators
      | apply Extra.checks_kernel_modules | apply Extra.checks_motd | apply Extra.checks_ssh_rc
      | apply Extra.checks_initramfs_hooks | apply Extra.checks_boot_loader]. }
  assert (Forall2 CtxProps.checks (fst <$> LIVE_CHECKS) (live_checks live opts)) as H2.
  { destruct live; simpl; repeat constructor; try apply checks_not_run.
    - apply Processes.checks_self_integrity.
    - apply KernelChecks.checks_modules.
    - apply Ebpf.checks_ebpf.
    - apply KernelChecks.checks_taint.
    - destruct (hidden_processes opts); [apply Processes.checks_hidden|apply checks_not_run].
    - apply Processes.checks_deleted. }
  change ALL_IDS with (take 18 ALL_IDS ++ ["boot.integrity"%string] ++ (fst <$> LIVE_CHECKS) ++ [Packages.ID]).
  unfold all_checks. apply Forall2_app; [exact H1|]. apply Forall2_app.
  - repeat constructor. apply BootChecks.checks_boot.
  - apply Forall2_app; [exact H2|]. repeat constructor.
    destruct (packages opts); [apply PackagesProps.checks_packages|apply checks_not_run].
Qed.

(** What one check of the run guarantees about the shared state. *)
Record step (id : string) (s : State) (c : CheckResult) (s' : State) : Prop := {
  st_id : System.id c = id;
  st_kept : kept s → kept s';
  st_grows : grows s s';
  st_whole : ¬ cut_short c → issues s' = issues s ∧
    (polls s' = polls s ∨ ∃ n, polls s' = S n ∧ cancel_seen n = false) }.

Lemma grows_run e p n s : grows s (set_run e p n s).
Proof. by split. Qed.

Lemma checked_step id s c s' : checked id s (c, s') → step id s c s'.
Proof.
  intros H. remember (c, s') as r eqn:E. destruct H as [e p n r [Ha Hi Hw] Hp|e p n title st why].
  - subst r. simpl in *. split.
    + done.
    + intros Hk. eapply acts_kept; [exact Ha|]. by eapply kept_same; [..|exact Hk].
    + etrans; [apply (grows_run e p n)|by apply acts_grows].
    + intros Hc. destruct (Hw Hc) as (Hpart & Hq). split; [|by right].
      destruct (acts_partial _ _ Ha Hpart) as [_ Hiss]. exact Hiss.
  - injection E as <- <-. split; [done| |apply grows_run|].
    + intros Hk. by eapply kept_same; [..|exact Hk].
    + intros _. split; [done|by left].
Qed.

(** The checks of a run, one after the other. *)
Inductive chain : list string → State → list CheckResult → State → Prop :=
  | chain_nil s : chain [] s [] s
  | chain_cons id ids s c s' cs s'' : step id s c s' → chain ids s' cs s'' → chain (id :: ids) s (c :: cs) s''.

Lemma run_list_chain ids ms s :
  Forall2 CtxProps.checks ids ms → chain ids s (run_list ms s).1 (run_list ms s).2.
Proof.
  intros H. revert s. induction H as [|id m ids ms Hm _ IH]; intros s; [constructor|].
  cbn [run_list]. unfold mbind, M_bind. specialize (Hm s). destruct (m s) as [c s'].
  specialize (IH s'). destruct (run_list ms s') as [cs s'']. simpl in *.
  eapply chain_cons; [by apply checked_step|exact IH].
Qed.

Lemma chain_ids ids s cs s' : chain ids s cs s' → System.id <$> cs = ids.
Proof. induction 1 as [|? ? ? ? ? ? ? [Hi _ _ _] _ IH]; csimpl; [done|]. by rewrite Hi, IH. Qed.

Lemma chain_kept ids s cs s' : chain ids s cs s' → kept s → kept s'.
Proof. induction 1 as [|? ? ? ? ? ? ? [_ Hk _ _] _ IH]; auto. Qed.

Lemma chain_grows ids s cs s' : chain ids s cs s' → grows s s'.
Proof. induction 1 as [|? ? ? ? ? ? ? [_ _ Hg _] _ IH]; [reflexivity|by etrans]. Qed.

(** Cancellation is not taken back. *)
Definition lasting : Prop := ∀ m n, (m ≤ n)%nat → cancel_seen m = true → cancel_seen n = true.

Lemma chain_whole ids s cs s' :
  chain ids s cs s' → Forall (λ c, ¬ cut_short c) cs →
  issues s' = issues s ∧ (lasting → ∀ n, (polls s ≤ n < polls s')%nat → cancel_seen n = false).
Proof.
  induction 1 as [s|id ids s c s' cs s'' Hs Hc IH]; intros Hw.
  - split; [done|]. intros _ n. lia.
  - apply Forall_cons in Hw as [Hw Hws]. destruct (IH Hws) as [Hi Hp].
    destruct (st_whole _ _ _ _ Hs Hw) as [Hi1 Hp1]. split; [congruence|]. intros Hl n Hn.
    destruct (decide (n < polls s')%nat) as [Hlt|Hge]; [|apply Hp; [done|lia]].
    destruct Hp1 as [E|(m & E & Hm)]; [lia|].
    destruct (cancel_seen n) eqn:En; [|done]. rewrite <-Hm. symmetry. apply (Hl n); [lia|done].
Qed.

(** The issues a chain of checks adds, each with the check that met it. *)
Lemma chain_issues ids s cs s' :
  chain ids s cs s' → ∃ parts, issues s' = issues s ++ concat parts ∧
    Forall2 (λ c part, part = [] ∨ cut_short c) cs parts.
Proof.
  induction 1 as [s|id ids s c s' cs s'' Hs Hc (parts & Hi & Hp)].
  { exists []. split; [by rewrite app_nil_r|constructor]. }
  destruct (g_issues _ _ (st_grows _ _ _ _ Hs)) as [part Hpart]. exists (part :: parts).
  split; [by rewrite Hi, Hpart, <-app_assoc|]. constructor; [|done].
  assert (Decision (cut_short c)) as [|Hw] by (unfold cut_short; apply _); [by right|]. left.
  destruct (st_whole _ _ _ _ Hs Hw) as [E _]. rewrite E in Hpart.
  by apply (app_inv_head (issues s)); rewrite app_nil_r.
Qed.

Lemma start_kept r : kept (start_state r).
Proof. unfold start_state. destruct (users_of r) as [[us lim] w]. apply kept_initial. Qed.

Lemma run_checks_chain fuel opts o :
  run_checks fuel opts = Ok o → ∃ r s', open_root (opt_root opts) = Ok r ∧
    chain ALL_IDS (start_state r) (checks o) s' ∧ o_findings o = findings s' ∧
    o_persistence o = persistence s' ∧ o_issues o = issues s' ∧
    run_list (all_checks fuel (live r) opts) (start_state r) = (checks o, s').
Proof.
  unfold run_checks. destruct (open_root (opt_root opts)) as [r|e]; [|done].
  pose proof (run_list_chain _ _ (start_state r) (all_checks_ids fuel (live r) opts)) as Hc.
  destruct (run_list _ _) as [cs s'] eqn:E. intros [= <-]. exists r, s'. split_and!; done.
Qed.

(** The catalogue holds no rule that could make a finding certain. *)
Lemma catalogue_never_certain : Forall (λ r, SysRules.kind r ≠ Finding.KnownIndicator) CATALOGUE.
Proof. repeat constructor; discriminate. Qed.

(** C24: Safety of the system checks: whatever they meet, every finding was made
    from a rule of the catalogue, in the order of the identifiers drawn; no two
    are of the same rule, place and entry; and none can be quarantined
    automatically. *)
Theorem system_findings_reviewed fuel opts o :
  run_checks fuel opts = Ok o →
  (∀ i f, o_findings o !! i = Some f → ∃ rule target summary, rule ∈ CATALOGUE ∧
     f = finding version rule target summary (new_id i) (now i)) ∧
  NoDup (key_of <$> o_findings o) ∧
  Forall (λ f, eligible f = false) (o_findings o).
Proof.
  intros (r & s' & _ & Hc & -> & _)%run_checks_chain.
  destruct (chain_kept _ _ _ _ Hc (start_kept r)) as [Hr _ Hn]. split_and!; [exact Hr|exact Hn|].
  apply Forall_lookup. intros i f Hf. destruct (Hr _ _ Hf) as (rule & target & summary & Hrule & ->).
  unfold eligible. destruct (auto_quarantine_target _) as [[p sha]|] eqn:E; [|apply andb_false_r].
  apply auto_quarantine_spec in E as (Hk & _). pose proof catalogue_never_certain as Hn'.
  rewrite Forall_forall in Hn'. by apply Hn' in Hrule.
Qed.

Lemma run_list_app a b s :
  run_list (a ++ b) s = let '(ca, s1) := run_list a s in let '(cb, s2) := run_list b s1 in (ca ++ cb, s2).
Proof.
  revert s. induction a as [|m a IH]; intros s; simpl; [by destruct (run_list b s)|].
  unfold mbind, M_bind. destruct (m s) as [c s']. rewrite IH.
  destruct (run_list a s') as [ca s1]. cbn. destruct (run_list b s1). done.
Qed.

Lemma run_list_length ms s : length (run_list ms s).1 = length ms.
Proof.
  revert s. induction ms as [|m ms IH]; intros s; simpl; [done|]. unfold mbind, M_bind.
  destruct (m s) as [c s']. specialize (IH s'). destruct (run_list ms s') as [cs s'']. simpl in *. by rewrite IH.
Qed.

Lemma run_list_skipped l s :
  (run_list ((λ '(id, title), SystemChecks.not_run id title OFFLINE) <$> l) s).1 =
  (λ '(id, title), skipped id title Skipped OFFLINE) <$> l.
Proof.
  revert s. induction l as [|[id title] l IH]; intros s; [done|]. csimpl. unfold mbind, M_bind.
  specialize (IH s). simpl. destruct (run_list _ s) as [cs s']. simpl in *. by rewrite IH.
Qed.

Lemma run_list_middle a b c s :
  take (length b) (drop (length a) (run_list (a ++ b ++ c) s).1) = (run_list b (run_list a s).2).1.
Proof.
  rewrite run_list_app. pose proof (run_list_length a s) as Ha. destruct (run_list a s) as [ca s1]. cbn [snd].
  rewrite run_list_app. pose proof (run_list_length b s1) as Hb. destruct (run_list b s1) as [cb s2]. cbn [fst] in *.
  destruct (run_list c s2) as [cc s3]. cbn [fst]. rewrite <-Ha, <-Hb, drop_app_length. by rewrite take_app_length.
Qed.

(** A run reports every check of the fixed list once, in its order; the checks
    of the running system are skipped for another root. *)
Theorem every_check_reported fuel opts o :
  run_checks fuel opts = Ok o →
  System.id <$> checks o = ALL_IDS ∧
  (host_live (host o) = false →
   take 6 (drop 19 (checks o)) = (λ '(id, title), skipped id title Skipped OFFLINE) <$> LIVE_CHECKS).
Proof.
  intros Ho. pose proof Ho as (r & s' & Hr & Hc & _ & _ & _ & Hrun)%run_checks_chain.
  split; [by eapply chain_ids|]. unfold run_checks in Ho. rewrite Hr, Hrun in Ho. injection Ho as <-.
  simpl. intros Hl. rewrite Hl in Hrun.
  pose proof (run_list_middle (run_all ++ [BootChecks.check fuel proc sys]) (live_checks false opts)
    [if packages opts then Packages.check (Packages.mkOptions (verify_all_packages opts) (package_timeout opts))
     else SystemChecks.not_run Packages.ID Packages.TITLE "disabled"] (start_state r)) as H.
  unfold all_checks in Hrun. rewrite app_assoc in Hrun. rewrite Hrun in H. cbn [fst] in H.
  change (length (live_checks false opts)) with 6%nat in H.
  change (length (run_all ++ [BootChecks.check fuel proc sys])) with 19%nat in H.
  rewrite H. apply run_list_skipped.
Qed.

Definition whole (c : CheckResult) : bool :=
  negb (bool_decide (System.status c = Partial)) && negb (bool_decide (System.status c = System.Failed)).
Lemma whole_not_cut cs : forallb whole cs = true → Forall (λ c, ¬ cut_short c) cs.
Proof.
  rewrite forallb_forall, Forall_forall. intros H c Hc%list_elem_of_In%H. unfold whole in Hc. reflect_bools.
  by intros [].
Qed.

(** How often a run asks whether it is cancelled. *)
Definition polled (fuel : nat) (opts : SystemCheckOptions) : nat :=
  match open_root (opt_root opts) with
  | Ok r => polls (run_list (all_checks fuel (live r) opts) (start_state r)).2
  | Err _ => 0
  end.

End WithHost.
End SystemProps.

(** ** Another root *)
Module Offline.
Import System SysRules Commands Fsx Ctx CtxProps SystemChecks SystemProps.

Section WithHost.
Context `{K : Kernel, RX : RegexLib, ST : StdText, SE : Session, DG : Digests}.

(** Two hosts that differ in everything but the user of the program and what
    [rpm] answers. *)
Record same_tools (MA MA' : Machine) : Prop := {
  same_euid : @geteuid MA = @geteuid MA';
  same_rpm : @path_exists MA 0 Packages.RPM = @path_exists MA' 0 Packages.RPM;
  same_answer args : @spawn MA Packages.RPM args = @spawn MA' Packages.RPM args }.

Context (MA MA' : Machine) (Hsame : same_tools MA MA').

Definition agree {A} (m m' : M A) : Prop := ∀ s, live (root s) = false → m s = m' s.

Lemma agree_bind {A B} (m m' : M A) (f f' : A → M B) :
  agree m m' → (∀ s, root (m' s).2 = root s) → (∀ a, agree (f a) (f' a)) → agree (m ≫= f) (m' ≫= f').
Proof.
  intros Hm Hr Hf s Hs. unfold mbind, M_bind. rewrite (Hm s Hs). specialize (Hr s).
  destruct (m' s) as [a s1]. simpl in Hr. apply Hf. by rewrite Hr.
Qed.

Lemma agree_boot fuel : agree (BootChecks.check (MA := MA) fuel proc sys) (BootChecks.check (MA := MA') fuel proc sys).
Proof.
  intros s Hs. unfold BootChecks.check, BootChecks.check_body, get, mbind, M_bind, new_run, modify.
  cbv beta iota. simpl root. by rewrite Hs.
Qed.

Lemma run_rpm args secs : Tool.run (MA := MA) Packages.RPM args secs = Tool.run (MA := MA') Packages.RPM args secs.
Proof. unfold Tool.run. by rewrite (same_answer _ _ Hsame). Qed.

Lemma agree_rpm targets opts s :
  Packages.rpm_records (MA := MA) targets opts s = Packages.rpm_records (MA := MA') targets opts s.
Proof. unfold Packages.rpm_records, get, mbind, M_bind. cbv beta iota. by rewrite run_rpm. Qed.

Lemma agree_verify opts manager targets s :
  Packages.verify_with (MA := MA) opts manager targets s = Packages.verify_with (MA := MA') opts manager targets s.
Proof.
  unfold Packages.verify_with, mbind, M_bind. destruct manager; [by rewrite agree_rpm|done].
Qed.

Lemma agree_packages opts : agree (Packages.check (MA := MA) opts) (Packages.check (MA := MA') opts).
Proof.
  assert (∀ r, Packages.detect (MA := MA) r = Packages.detect (MA := MA') r) as Hd.
  { intros r. unfold Packages.detect. by rewrite (same_rpm _ _ Hsame). }
  intros s _. unfold Packages.check, mbind, M_bind, new_run, modify, get. cbv beta iota. rewrite Hd.
  destruct (Packages.detect _); [|done]. cbv zeta. case_match; [done|apply agree_verify].
Qed.

Lemma agree_list ids ms ms' :
  Forall2 agree ms ms' → Forall2 CtxProps.checks ids ms' → agree (run_list ms) (run_list ms').
Proof.
  intros Ha. revert ids. induction Ha as [|m m' ms ms' Hm _ IH]; intros ids Hc; [done|].
  apply Forall2_cons_inv_r in Hc as (id & ids' & Hid & Hids & ->). cbn [run_list].
  apply agree_bind; [done| |].
  - intros s. specialize (Hid s). destruct (m' s) as [c s'].
    apply (g_root _ _ (st_grows _ _ _ _ (checked_step _ _ _ _ Hid))).
  - intros c. apply agree_bind; [by eapply IH| |by intros cs s].
    intros s. pose proof (chain_grows _ _ _ _ (run_list_chain _ _ s Hids)) as Hg. apply (g_root _ _ Hg).
Qed.

(** C30: Confinement: inspecting another root, no check looks at the host. Whatever
    the [/proc], the [/sys], the environment and the programs of the host say
    ([rpm], which is asked about the root, apart), the outcome is the same. *)
Theorem offline_ignores_host fuel opts :
  (∀ r, open_root (opt_root opts) = Ok r → live r = false) →
  run_checks (MA := MA) fuel opts = run_checks (MA := MA') fuel opts.
Proof.
  intros Hoff. unfold run_checks. destruct (open_root (opt_root opts)) as [r|e]; [|done].
  specialize (Hoff r eq_refl).
  assert (users_of (MA := MA) r = users_of (MA := MA') r) as Hu by (unfold users_of; by rewrite Hoff).
  assert (start_state (MA := MA) r = start_state (MA := MA') r) as Hst by (unfold start_state; by rewrite Hu).
  assert (start_warnings (MA := MA) r = start_warnings (MA := MA') r) as Hw
    by (unfold start_warnings; by rewrite Hu, Hoff).
  assert (host_info (MA := MA) r opts = host_info (MA := MA') r opts) as Hh
    by (unfold host_info; by rewrite Hoff, (same_euid _ _ Hsame)).
  assert (root (start_state (MA := MA') r) = r) as Hroot.
  { unfold start_state. by destruct (users_of (MA := MA') r) as [[us lim] w]. }
  rewrite Hst, Hw, Hh. rewrite (agree_list ALL_IDS _ (all_checks (MA := MA') fuel (live r) opts)); [done| | |].
  - unfold all_checks. rewrite Hoff. apply Forall2_app; [|apply Forall2_app; [|apply Forall2_app]].
    + assert (∀ ms : list (M CheckResult), Forall2 agree ms ms) as Hrefl by (induction ms; by constructor). apply Hrefl.
    + repeat constructor. apply agree_boot.
    + assert (∀ ms : list (M CheckResult), Forall2 agree ms ms) as Hrefl by (induction ms; by constructor). apply Hrefl.
    + repeat constructor. destruct (packages opts); [apply agree_packages|done].
  - apply all_checks_ids.
  - by rewrite Hroot.
Qed.
End WithHost.
End Offline.
