(* ===== verification/SystemLaws.v ===== *)
(** * System checks: what they find

    The theorems about single checks: the sweep for hidden processes, the two
    views of the kernel modules, the verification of packages, what an entry
    of the inventory is reported for, the walk of /boot. *)

From S2P Require Import Prelude Utf8 Paths Core External AuditLog Heuristics Chars SystemFs SystemCtx Persistence SystemLive Packages SystemChecks.

(** ** Hidden processes *)
Module HiddenProps.
Import Processes.

Lemma numbers_app a n m : numbers a (n + m) = numbers a n ++ numbers (a + n) m.
Proof.
  unfold numbers. rewrite N2Nat.inj_add, seq_app, fmap_app. f_equal.
  rewrite (Nat.add_comm 0), <-fmap_add_seq, <-list_fmap_compose. apply list_fmap_ext. intros _ i _. simpl. lia.
Qed.

Lemma numbers_one a : numbers a 1 = [a].
Proof. unfold numbers. simpl. f_equal. lia. Qed.

Lemma elem_of_numbers a n x : x ∈ numbers a n ↔ a ≤ x < a + n.
Proof.
  unfold numbers. rewrite list_elem_of_fmap. split.
  - intros (i & -> & Hi%elem_of_seq). lia.
  - intros H. exists (N.to_nat (x - a)). rewrite elem_of_seq. lia.
Qed.

Lemma numbers_ascending a n : StronglySorted N.lt (numbers a n).
Proof.
  induction n as [|n IH] using N.peano_ind; [constructor|].
  rewrite <-N.add_1_r, numbers_app, numbers_one.
  apply StronglySorted_app_2; [|done|by repeat constructor].
  intros x y [_ Hx]%elem_of_numbers ->%list_elem_of_singleton. done.
Qed.

Lemma range_join a b c : a ≤ b + 1 → b ≤ c → range a b ++ range (b + 1) c = range a c.
Proof.
  intros Hab Hbc. unfold range. replace (c + 1 - a) with ((b + 1 - a) + (c + 1 - (b + 1))) by lia.
  rewrite numbers_app. do 2 f_equal. lia.
Qed.

Lemma range_empty a b : b < a → range a b = [].
Proof. intros H. unfold range. by replace (b + 1 - a) with 0 by lia. Qed.

(** The threads' ranges, one after the other, are one range. *)
Lemma ranges_joined chunk pid_max k :
  numbers 0 k ≫= thread_range chunk pid_max = range 1 (N.min (k * chunk) pid_max).
Proof.
  induction k as [|k IH] using N.peano_ind; [by rewrite range_empty by lia|].
  rewrite <-N.add_1_r, numbers_app, bind_app, IH, numbers_one, N.add_0_l. csimpl. rewrite app_nil_r. unfold thread_range.
  destruct (N.le_gt_cases (k * chunk) pid_max).
  - rewrite (N.min_l (k * chunk)) by done. apply range_join; lia.
  - rewrite (range_empty (k * chunk + 1)) by lia. rewrite app_nil_r. f_equal. lia.
Qed.

Lemma enough_chunks pid_max threads : 1 ≤ threads → pid_max ≤ threads * chunk_of pid_max threads.
Proof.
  intros Ht. unfold chunk_of. pose proof (N.div_mod' (pid_max + threads - 1) threads).
  pose proof (N.mod_lt (pid_max + threads - 1) threads). nia.
Qed.

Lemma sweep_filter listed probe pids :
  sweep listed probe (λ _, false) pids =
  List.filter (λ pid, negb (holds listed pid) && bool_decide (probe pid = Process)) pids.
Proof.
  induction pids as [|pid pids IH]; [done|]. cbn [sweep List.filter]. rewrite andb_false_r, IH. by case_match.
Qed.

Lemma bind_filter {A B} (p : B → bool) (f : A → list B) l : l ≫= (λ x, List.filter p (f x)) = List.filter p (l ≫= f).
Proof. induction l as [|x l IH]; csimpl; [done|]. by rewrite IH, List.filter_app. Qed.

Lemma sorted_filter (p : N → bool) l : StronglySorted N.lt l → StronglySorted N.lt (List.filter p l).
Proof.
  induction 1 as [|x l _ IH Hx]; simpl; [constructor|]. destruct (p x); [|done]. constructor; [done|].
  apply Forall_forall. intros y [Hy _]%list_elem_of_In%filter_In. rewrite Forall_forall in Hx.
  by apply Hx, list_elem_of_In.
Qed.

Lemma sort_ascending l : StronglySorted N.lt l → sort_by N.compare l = l.
Proof.
  induction 1 as [|x l _ IH Hx]; [done|]. simpl. rewrite IH. destruct l as [|y l]; [done|]. simpl.
  apply Forall_cons in Hx as [Hx _]. apply N.compare_lt_iff in Hx. by rewrite Hx.
Qed.

Lemma holds_spec l x : holds l x = true ↔ x ∈ l.
Proof. unfold holds. rewrite existsb_exists. setoid_rewrite N.eqb_eq. rewrite list_elem_of_In. naive_solver. Qed.

(** Equivalence: however many threads share the sweep, an uncancelled search
    for hidden processes is the plain one: of the PIDs up to the limit, those
    that are processes when probed, before and after the second listing, and
    are in neither listing, in ascending order. *)
Theorem find_hidden_exact available listed pid_max probe probe' relist :
  find_hidden available listed pid_max probe probe' relist (λ _, false) =
  match relist with
  | None => []
  | Some now => List.filter (λ pid, (negb (holds listed pid) && bool_decide (probe pid = Process)) &&
                                (negb (holds now pid) && bool_decide (probe' pid = Process))) (range 1 pid_max)
  end.
Proof.
  unfold find_hidden. cbv zeta.
  assert (1 ≤ threads_of available) as Ht by (unfold threads_of; lia).
  pose proof (enough_chunks pid_max _ Ht) as Hc.
  set (p := λ pid, negb (holds listed pid) && bool_decide (probe pid = Process)).
  rewrite (list_bind_ext _ (λ t, List.filter p (thread_range (chunk_of pid_max (threads_of available)) pid_max t))
             (numbers 0 (threads_of available)) (numbers 0 (threads_of available)))
    by (done || (intros; apply sweep_filter)).
  rewrite bind_filter, ranges_joined, N.min_r by lia.
  rewrite sort_ascending by apply sorted_filter, numbers_ascending.
  case_bool_decide as Hn.
  - destruct relist as [now|]; [|done]. induction (range 1 pid_max) as [|x l IH]; [done|]. simpl in *.
    fold (p x). destruct (p x); [done|]. simpl. auto.
  - destruct relist as [now|]; [|done]. clear Hn. induction (range 1 pid_max) as [|x l IH]; [done|]. simpl.
    fold (p x). destruct (p x); simpl; [|done]. by rewrite IH.
Qed.
End HiddenProps.

(** ** Kernel modules *)
Module ModuleProps.
Import SysRules Ctx CtxProps KernelChecks.

Section WithHost.
Context `{K : Kernel, RX : RegexLib, ST : StdText, SE : Session, MA : Machine}.

(** A module that one of the views lacks, with the view. *)
Definition missing (views : list (string * string) * list string) (name view : string) : Prop :=
  (view = "/proc/modules"%string ∧ name ∈ views.2 ∧ name ∉ views.1.*1) ∨
  (view = "/sys/module"%string ∧ name ∈ views.1.*1 ∧ name ∉ views.2).

Lemma elem_of_difference a b n : n ∈ difference a b ↔ n ∈ a ∧ n ∉ b.
Proof.
  unfold difference. rewrite list_elem_of_In, filter_In, <-list_elem_of_In, negb_true_iff, bool_decide_eq_false. done.
Qed.

Lemma elem_of_tagged (w : string) (l : list string) n v : (n, v) ∈ (λ n, (n, w)) <$> l ↔ v = w ∧ n ∈ l.
Proof. rewrite list_elem_of_fmap. naive_solver. Qed.

Lemma elem_of_mismatches views n v : (n, v) ∈ mismatches views ↔ missing views n v.
Proof.
  unfold mismatches, cross_view, missing, btree. rewrite elem_of_app, !elem_of_tagged, !elem_of_difference.
  by rewrite elem_of_btree.
Qed.

Lemma adds_quiet (m : M unit) :
  (∀ s, seen (m s).2 = seen s ∧ root (m s).2 = root s ∧ persistence (m s).2 = persistence s) → adds m (λ _ _, False).
Proof. intros H s. destruct (H s) as (-> & ? & ?). split_and!; [tauto|done..]. Qed.

Definition module_key (n v : string) : string * string * string :=
  key MODULE_HIDDEN (Finding.System (fmt "kernel module {name}" [n]))
    (fmt "module {name} is missing from {missing}" [n; v]).

(** A module is reported as hidden exactly when the same view lacks it in two
    readings, some time apart. *)
Theorem hidden_module_exact proc sys first second s :
  read_views 0 proc sys = Ok first → read_views 1 proc sys = Ok second → kept s →
  ∀ k, k ∈ key_of <$> findings (modules_body proc sys s).2 ↔
    k ∈ key_of <$> findings s ∨
    ∃ n v, missing first n v ∧ missing second n v ∧ k = module_key n v.
Proof.
  intros H1 H2 Hk k.
  pose proof (acts_kept _ _ (acts_modules_body proc sys s) Hk) as Hk'.
  destruct Hk as [_ Hs _], Hk' as [_ Hs' _].
  assert (∀ x l, x ∈ key_of <$> l ↔ x ∈ reverse (key_of <$> l)) as Hrev by (intros; by rewrite elem_of_reverse).
  rewrite (Hrev k (findings s)), (Hrev k (findings (modules_body proc sys s).2)), <-Hs, <-Hs'. clear Hs Hs' Hrev.
  assert (adds (modules_body proc sys) (λ _ k, ∃ n v, missing first n v ∧ missing second n v ∧ k = module_key n v)) as Ha.
  { unfold modules_body. rewrite H1, H2. eapply adds_weaken; [apply adds_bind|].
    - apply adds_quiet. intros s'. by split_and!.
    - apply adds_bind.
      + apply adds_when, (adds_for_each _ _ (λ m _ k, k = module_key m.1 m.2)). intros m. apply adds_report.
      + apply adds_quiet. intros s'. destruct (negb _); by split_and!.
    - intros r x. simpl. split.
      + intros [[]|[(_ & [n v] & Hm & ->)|[]]]. apply list_elem_of_In, filter_In in Hm as [Hf Hs'].
        exists n, v. apply bool_decide_eq_true in Hs'. rewrite <-list_elem_of_In in Hf.
        rewrite elem_of_mismatches in Hf, Hs'. done.
      + intros (n & v & Hf & Hs' & ->). right. left. rewrite <-elem_of_mismatches in Hf, Hs'. split.
        * destruct (mismatches first); [by apply elem_of_nil in Hf|done].
        * exists (n, v). split; [|done]. apply list_elem_of_In, filter_In. split; [by apply list_elem_of_In|].
          by apply bool_decide_eq_true. }
  by destruct (Ha s) as (-> & _).
Qed.
End WithHost.
End ModuleProps.

(** ** What an entry is reported for *)
Module RecordProps.
Import System SysRules Ctx CtxProps.

Section WithHost.
Context `{K : Kernel, RX : RegexLib, ST : StdText, SE : Session}.

(** The known findings are the findings. *)
Lemma keys_of_seen s k : kept s → k ∈ key_of <$> findings s ↔ k ∈ seen s.
Proof. intros [_ -> _]. by rewrite elem_of_reverse. Qed.

(** Recording an entry lists it in the inventory and reports exactly what it
    deserves: the command patterns that its command or a line of its text
    matches, what these start in temporary directories, hidden or changeable by
    others, and a definition that others can change. Nothing is lost and
    nothing is reported twice. *)
Theorem record_exact f t s :
  kept s →
  (∀ k, k ∈ key_of <$> findings (record f t s).2 ↔
    k ∈ key_of <$> findings s ∨ deserved f t (root s) k) ∧
  NoDup (key_of <$> findings (record f t s).2) ∧
  persistence (record f t s).2 = persistence s ++ [entry_of f].
Proof.
  intros Hk. pose proof (acts_kept _ _ (acts_record f t s) Hk) as Hk'.
  destruct (record_adds f t s) as (Ha & _ & Hp). split_and!; [|by destruct Hk'|done].
  intros k. by rewrite !keys_of_seen, Ha.
Qed.
End WithHost.
End RecordProps.

(** ** Modified packages *)
Module VerifyProps.
Import System SysRules Ctx CtxProps Loops Packages PackagesProps.

Section WithHost.
Context `{K : Kernel, RX : RegexLib, ST : StdText, SE : Session, MA : Machine, DG : Digests}.

(** The file of a record, read whole, has another digest. *)
Definition modified (r : Fsx.Root) (q : Recorded) (k : string * string * string) : Prop :=
  ∃ actual, hash_file r (r_path q) (r_algo q) = Ok (Some actual) ∧ actual ≠ r_digest q ∧
    k = key PACKAGE_MODIFIED (file_target (r_path q)) (modified_summary q actual).
Definition too_large (r : Fsx.Root) (q : Recorded) : bool :=
  match hash_file r (r_path q) (r_algo q) with Ok None => true | _ => false end.
Definition unreadable (r : Fsx.Root) (q : Recorded) : bool :=
  match hash_file r (r_path q) (r_algo q) with Err e => negb (bool_decide (e = Os 2)) | _ => false end.

Lemma verify_entry_run st q s :
  cancel_seen (polls s) = false →
  let '((stop, st'), s') := verify_entry st q s in
  stop = false ∧ root s' = root s ∧
  st' = (st.1 + (if too_large (root s) q then 1 else 0), st.2 ++ if unreadable (root s) q then [r_path q] else []) ∧
  (∀ k, k ∈ seen s' ↔ k ∈ seen s ∨ modified (root s) q k).
Proof.
  intros Hc. destruct st as [n l]. unfold verify_entry, cancelled, get, mbind, M_bind. cbv beta iota. rewrite Hc.
  cbv beta iota. cbn [root set_polls]. unfold too_large, unreadable, modified.
  destruct (hash_file (root s) (r_path q) (r_algo q)) as [[actual|]|e]; cbn.
  - case_bool_decide as Ha; cbn.
    + split_and!; [done|done|by rewrite N.add_0_r, app_nil_r|]. intros k. naive_solver.
    + unfold report, modify. cbn. case_bool_decide as Hs; cbn;
        (split_and!; [done|done|by rewrite N.add_0_r, app_nil_r|]); intros k; rewrite ?elem_of_cons; naive_solver.
  - split_and!; [done|done|by rewrite app_nil_r|]. naive_solver.
  - case_bool_decide; cbn; (split_and!; [done|done|by rewrite N.add_0_r, ?app_nil_r|]); naive_solver.
Qed.

Lemma verify_go records : ∀ st s,
  (∀ n, cancel_seen n = false) →
  let '(st', s') := fold_until verify_entry st records s in
  st' = (st.1 + vlen (List.filter (too_large (root s)) records),
         st.2 ++ (r_path <$> List.filter (unreadable (root s)) records)) ∧
  (∀ k, k ∈ seen s' ↔ k ∈ seen s ∨ ∃ q, q ∈ records ∧ modified (root s) q k).
Proof.
  induction records as [|q records IH]; intros st s Hc.
  - cbn. split; [destruct st; by rewrite N.add_0_r, app_nil_r|]. intros k. split; [by left|].
    by intros [|(q & ?%elem_of_nil & _)].
  - cbn [fold_until]. unfold mbind, M_bind. pose proof (verify_entry_run st q s (Hc _)) as Hq.
    destruct (verify_entry st q s) as [[stop st'] s']. destruct Hq as (-> & Hr & -> & Hk).
    specialize (IH (st.1 + (if too_large (root s) q then 1 else 0), st.2 ++ if unreadable (root s) q then [r_path q] else []) s' Hc).
    destruct (fold_until _ _ records s') as [st'' s'']. rewrite Hr in IH. destruct IH as [-> Hk']. cbn [fst snd]. split.
    + cbn [List.filter]. f_equal.
      * destruct (too_large (root s) q); autorewrite with warden; lia.
      * rewrite <-app_assoc. by destruct (unreadable (root s) q).
    + intros k. rewrite Hk', Hk. setoid_rewrite elem_of_cons. naive_solver.
Qed.

(** Verification of packages: unless it is cancelled, a file is reported as
    modified exactly when a record of the package database names it and its
    content, read whole, has another digest; the files too large are counted,
    and those that are there but cannot be read are all named. *)
Theorem package_verify_exact records s :
  (∀ n, cancel_seen n = false) → kept s →
  let '(counts, s') := verify records s in
  counts = (vlen (List.filter (too_large (root s)) records), r_path <$> List.filter (unreadable (root s)) records) ∧
  ∀ k, k ∈ key_of <$> findings s' ↔ k ∈ key_of <$> findings s ∨ ∃ q, q ∈ records ∧ modified (root s) q k.
Proof.
  intros Hc Hk. unfold verify. pose proof (verify_go records (0, []) s Hc) as H.
  assert (Acts.acts (fold_until verify_entry (0, []) records)) as Ha by (pose proof acts_verify_entry; act_all).
  specialize (Ha s). destruct (fold_until _ _ records s) as [counts s']. destruct H as [-> H]. split; [done|].
  pose proof (acts_kept _ _ Ha Hk) as Hk'. intros k. by rewrite !RecordProps.keys_of_seen, H.
Qed.
End WithHost.
End VerifyProps.

(** ** The walk of /boot *)
Module BootProps.
Import Ctx BootChecks.

Section WithHost.
Context `{K : Kernel, RX : RegexLib, ST : StdText, SE : Session}.

Lemma boot_walk_more fuel : ∀ fuel' stack count s n s',
  (fuel ≤ fuel')%nat → boot_walk fuel stack count s = (Some n, s') → boot_walk fuel' stack count s = (Some n, s').
Proof.
  induction fuel as [|fuel IH]; intros [|fuel'] stack count s n s' Hle; [done|done|lia|].
  cbn [boot_walk]. destruct stack as [|d stack]; [done|]. unfold mbind, M_bind.
  destruct (cancelled s) as [c s1]. destruct (_ || _); [done|].
  destruct (boot_dir d stack count s1) as [[stack' count'] s2]. apply IH. lia.
Qed.

(** Termination: when the directories below /boot are finitely many, the walk
    over them ends, and with as much fuel as there are directories its outcome
    no longer depends on the fuel. *)
Theorem boot_walk_returns s n :
  finite_below (root s) "/boot" n →
  ∃ count s', ∀ fuel, (n < fuel)%nat → boot_walk fuel ["/boot"%string] 0 s = (Some count, s').
Proof.
  intros Hn. destruct (boot_walk (S n) ["/boot"%string] 0 s) as [r s'] eqn:E.
  assert (is_Some (boot_walk (S n) ["/boot"%string] 0 s).1) as [count Hc].
  { apply (boot_walk_enough _ _ _ _ [n]); [by repeat constructor|simpl; lia]. }
  rewrite E in Hc. simpl in Hc. subst r. exists count, s'. intros fuel Hf. by apply (boot_walk_more (S n)).
Qed.
End WithHost.
End BootProps.

(** ** A job of the system crontab *)
Module CronProps.
Import System Fsx Ctx CtxProps Loops Common CronJobs Acts.

Definition word (w : Chars.text) : Prop := w ≠ [] ∧ Forall (λ c, is_whitespace c = false) w.
Definition field (w : Chars.text) : Prop := word w ∧ Forall (λ c, is_char 61 c = false) w.

(** Words with a blank after each, before the rest. *)
Definition spaced (ws : list Chars.text) (rest : Chars.text) : Chars.text := foldr (λ w r, w ++ 32 :: r) rest ws.

Lemma word_trim_start w l : word w → trim_start (w ++ l) = w ++ l.
Proof.
  intros [Hn Hw]. destruct w as [|c w]; [done|]. apply Forall_cons in Hw as [Hc _]. apply trim_start_id.
  by intros ? [= <-].
Qed.

Lemma take_word_run w l r : word w → trim_start l = w ++ 32 :: r → take_word l = Some (w, 32 :: r).
Proof. intros [_ Hw] Hl. unfold take_word. rewrite Hl. by apply break_at_app. Qed.

Lemma take_words_run ws : ∀ l rest, ws ≠ [] → Forall word ws → trim_start l = spaced ws rest →
  take_words (length ws) l = Some (ws, 32 :: rest).
Proof.
  induction ws as [|w ws IH]; intros l rest Hn Hws Hl; [done|]. apply Forall_cons in Hws as [Hw Hws].
  cbn [length take_words]. rewrite (take_word_run w l (spaced ws rest)) by done. csimpl.
  destruct ws as [|w' ws]; [done|]. rewrite (IH _ rest); [done|done|done|]. simpl.
  apply Forall_cons in Hws as [Hw' _]. by apply word_trim_start.
Qed.

(** The text of a job, as its line has it. *)
Definition job (fields : list Chars.text) (user cmd : Chars.text) : Chars.text := spaced (fields ++ [user]) cmd.

Record good_job (fields : list Chars.text) (user cmd : Chars.text) : Prop := {
  five : length fields = 5%nat;
  good_fields : Forall field fields;
  no_mark : ∀ f c, head fields = Some f → head f = Some c → c ≠ 64 ∧ c ≠ 35;
  good_user : word user;
  good_cmd : cmd ≠ [] ∧ trimmed cmd }.

Lemma spaced_app ws us rest : spaced (ws ++ us) rest = spaced ws (spaced us rest).
Proof. apply foldr_app. Qed.

Lemma parse_job fields user cmd :
  good_job fields user cmd →
  parse_cron_line (job fields user cmd) true = Some (join_with [32] fields, Some user, cmd).
Proof.
  intros [H5 Hf Hm Hu [Hc Ht]]. unfold parse_cron_line.
  assert (starts (job fields user cmd) "@" = false) as ->.
  { destruct fields as [|f fields]; [done|]. apply Forall_cons in Hf as [[[Hn _] _] _]. destruct f as [|c f]; [done|].
    destruct (Hm _ _ eq_refl eq_refl) as [H64 _]. transitivity ((64 =? c) && true); [done|].
    rewrite andb_true_r. apply N.eqb_neq. congruence. }
  assert (Forall word fields) as Hw by (eapply Forall_impl; [exact Hf|by intros ? []]).
  assert (fields ≠ []) as Hne by (by destruct fields).
  rewrite <-H5, (take_words_run fields _ (user ++ 32 :: cmd)); [|done|done|].
  - csimpl. rewrite (take_word_run user _ cmd); [|done|].
    + csimpl. assert (trim (32 :: cmd) = cmd) as -> by (change (trim (32 :: cmd)) with (trim cmd); by apply trim_id).
      by rewrite bool_decide_eq_false_2.
    + simpl. by apply word_trim_start.
  - unfold job. rewrite spaced_app. destruct fields as [|f fs]; [done|].
    apply Forall_cons in Hw as [Hw _]. simpl. by apply word_trim_start.
Qed.

Lemma trim_start_keeps a c b : is_whitespace c = false → ∃ a', trim_start (a ++ c :: b) = a' ++ c :: b.
Proof.
  intros Hc. induction a as [|x a [a' IH]]; simpl.
  - rewrite Hc. by exists [].
  - destruct (is_whitespace x); [by exists a'|]. by exists (x :: a).
Qed.

(** A blank between two words stays. *)
Lemma trim_keeps_blank f g l : word f → word g → 32 ∈ trim (f ++ 32 :: g ++ l).
Proof.
  intros Hf [Hg Hgs]. unfold trim. rewrite word_trim_start by done.
  destruct (exists_last Hg) as (g' & c & ->). apply Forall_app in Hgs as [_ [Hc _]%Forall_cons].
  rewrite elem_of_reverse.
  replace (reverse (f ++ 32 :: (g' ++ [c]) ++ l)) with (reverse l ++ c :: reverse g' ++ 32 :: reverse f)
    by (rewrite reverse_app, reverse_cons, !reverse_app, reverse_singleton, <-!app_assoc; done).
  destruct (trim_start_keeps (reverse l) c (reverse g' ++ 32 :: reverse f) Hc) as (a' & ->).
  rewrite !elem_of_app, elem_of_cons, elem_of_app, elem_of_cons. auto.
Qed.

Lemma split_at_prefix f a l :
  Forall (λ c, f c = false) a → split_at f (a ++ l) = '(k, v) ← split_at f l; Some (a ++ k, v).
Proof.
  induction 1 as [|c a Hc _ IH]; simpl; [by destruct (split_at f l) as [[]|]|]. rewrite Hc, IH.
  by destruct (split_at f l) as [[]|].
Qed.

(** A job is not taken for a setting. *)
Lemma job_no_setting fields user cmd : good_job fields user cmd → env_assignment (job fields user cmd) = None.
Proof.
  intros [H5 Hf _ _ _]. destruct fields as [|f [|g fs]]; [done|done|].
  apply Forall_cons in Hf as [[Hwf Hef] [[Hwg Heg] _]%Forall_cons].
  unfold env_assignment, job. cbn [app spaced foldr].
  replace (f ++ 32 :: g ++ 32 :: foldr (λ w r, w ++ 32 :: r) cmd (fs ++ [user]))
    with ((f ++ 32 :: g) ++ 32 :: foldr (λ w r, w ++ 32 :: r) cmd (fs ++ [user])) by (by rewrite <-app_assoc).
  rewrite split_at_prefix; [|apply Forall_app; split; [done|by constructor]].
  destruct (split_at _ (32 :: _)) as [[k v]|]; [|done]. csimpl.
  assert (32 ∈ trim ((f ++ 32 :: g) ++ k)) as H32.
  { rewrite <-app_assoc. simpl. by apply trim_keeps_blank. }
  destruct (forallb _ (trim _)) eqn:E; [|by rewrite andb_false_r].
  rewrite forallb_forall in E. apply list_elem_of_In in H32. by apply E in H32.
Qed.

Section WithHost.
Context `{K : Kernel, RX : RegexLib, ST : StdText, SE : Session}.

(** On its way from [s], the computation [m] runs [x]. *)
Definition through {A} (m : M A) (s : State) (x : M unit) : Prop :=
  ∃ s1, rtc act s s1 ∧ rtc act (x s1).2 (m s).2.

Lemma through_self x s : through x s x.
Proof. exists s. by split; apply rtc_refl. Qed.

Lemma through_left {A B} (m : M A) (f : A → M B) s x : through m s x → (∀ a, acts (f a)) → through (m ≫= f) s x.
Proof.
  intros (s1 & H1 & H2) Hf. exists s1. split; [done|]. unfold mbind, M_bind. destruct (m s) as [a s2].
  etrans; [exact H2|apply Hf].
Qed.

Lemma through_right {A B} (m : M A) (f : A → M B) s x :
  acts m → through (f (m s).1) (m s).2 x → through (m ≫= f) s x.
Proof.
  intros Hm (s1 & H1 & H2). exists s1. unfold mbind, M_bind. specialize (Hm s). destruct (m s) as [a s2].
  split; [by etrans|done].
Qed.

Lemma through_for_each {A} (f : A → M unit) xs y s x :
  y ∈ xs → (∀ z, acts (f z)) → (∀ s1, rtc act s s1 → through (f y) s1 x) → through (for_each f xs) s x.
Proof.
  intros Hy Hf. revert s. induction xs as [|z xs IH]; intros s Hx; [by apply elem_of_nil in Hy|]. cbn [for_each].
  apply elem_of_cons in Hy as [->|Hy].
  - apply through_left; [by apply Hx, rtc_refl|]. intros _. by apply acts_for_each.
  - apply through_right; [done|]. apply IH; [done|]. intros s1 H1. apply Hx. etrans; [apply Hf|done].
Qed.

Lemma in_longer {A} (x : A) l l' : l `prefix_of` l' → x ∈ l → x ∈ l'.
Proof. intros [k ->] Hx. rewrite elem_of_app. by left. Qed.
Lemma keys_longer (l l' : list Finding) k : l `prefix_of` l' → k ∈ key_of <$> l → k ∈ key_of <$> l'.
Proof. intros [x ->]. rewrite fmap_app. apply in_longer. by exists (key_of <$> x). Qed.

(** What an entry of the inventory leaves behind, at the end. *)
Lemma through_record {A} (m : M A) s f t :
  through m s (record f t) → kept s →
  entry_of f ∈ persistence (m s).2 ∧ ∀ k, deserved f t (root s) k → k ∈ key_of <$> findings (m s).2.
Proof.
  intros (s1 & H1 & H2) Hk. pose proof (acts_grows _ _ H1) as G1. pose proof (acts_grows _ _ H2) as G2.
  pose proof (acts_kept _ _ H1 Hk) as Hk1. destruct (record_adds f t s1) as (Ha & _ & Hp). split.
  - apply (in_longer _ _ _ (g_persistence _ _ G2)). rewrite Hp, elem_of_app. right. by left.
  - intros k Hd. apply (keys_longer _ _ _ (g_findings _ _ G2)).
    rewrite RecordProps.keys_of_seen; [|by apply (acts_kept _ _ (acts_record f t s1))]. apply Ha. right.
    by rewrite (g_root _ _ G1).
Qed.

Definition CRONTAB : path := "/etc/crontab".

(** The entry of the inventory for a job of the system crontab. *)
Definition job_found (m : Meta) (fields : list Chars.text) (user cmd : Chars.text) : Found :=
  mkFound Cron (if is_lit user "root" then SystemScope else UserScope) CRONTAB (Some cmd) None
    (Some (of_chars (join_with [32] fields) +:+ fmt ", as {u}" [of_chars user])%string) (Some m) None true.

Lemma job_kept fields user cmd l t :
  good_job fields user cmd → l ∈ lines t → trim l = job fields user cmd → job fields user cmd ∈ jobs_lines t.
Proof.
  intros Hj Hl Ht. unfold jobs_lines. apply list_elem_of_In, filter_In. split.
  - apply list_elem_of_In, list_elem_of_fmap. by exists l.
  - destruct Hj as [H5 Hf Hm _ _]. destruct fields as [|f fs]; [done|]. apply Forall_cons in Hf as [[[Hn _] _] _].
    destruct f as [|c f]; [done|]. destruct (Hm _ _ eq_refl eq_refl) as [_ H35]. unfold skip_line, starts.
    transitivity (negb ((35 =? c) && true)); [done|]. rewrite andb_true_r. apply negb_true_iff, N.eqb_neq. congruence.
Qed.

(** Completeness of the inventory, end to end: a job that the system crontab
    holds, written as five fields, a user and a command, is listed with its
    command, and whatever it deserves to be reported for is reported, whatever
    else the check met. *)
Theorem cron_job_listed s t fields user cmd l :
  kept s → read_text (root s) CRONTAB = Ok t → l ∈ lines (text t) → trim l = job fields user cmd →
  good_job fields user cmd →
  let f := job_found (meta t) fields user cmd in
  entry_of f ∈ persistence (check s).2 ∧ ∀ k, deserved f None (root s) k → k ∈ key_of <$> findings (check s).2.
Proof.
  intros Hk Ht Hl Hjob Hg f.
  set (s0 := set_run 0 false [] s). assert (kept s0) as Hk0 by by eapply kept_same; [..|exact Hk].
  assert (through ((_ ← check_body; finish "persistence.cron" "cron and anacron jobs") : M CheckResult) s0 (record f None))
    as Hthrough.
  { assert (∀ p k v m, acts (env_entry p k v m)) by (intros; unfold env_entry; act_all).
    assert (∀ p s u m l, acts (cron_entry p s u m l)) by (intros; unfold cron_entry; act_all).
    assert (∀ p s u, acts (crontab p s u)) by (intros; unfold crontab; act_all).
    apply through_left; [|intros; apply acts_finish]. unfold check_body.
    apply through_right; [apply acts_files_in|]. pose proof (acts_files_in "/etc/cron.d" s0) as Hfi.
    destruct (files_in "/etc/cron.d" s0) as [tabs s1]. cbn [fst snd] in *.
    apply through_left.
    - apply (through_for_each _ _ CRONTAB); [left|done|]. intros s2 H2.
      assert (root s2 = root s) as Hr by (rewrite (g_root _ _ (acts_grows _ _ H2)); apply (g_root _ _ (acts_grows _ _ Hfi))).
      unfold crontab, with_file. apply through_right; [apply acts_read|].
      assert ((read CRONTAB s2).1 = Some (text t, meta t)) as ->.
      { unfold read, get, mbind, M_bind. rewrite Hr, Ht. by destruct (truncated t). }
      apply (through_for_each _ _ (job fields user cmd)); [by eapply job_kept|done|]. intros s3 _.
      unfold cron_entry. rewrite job_no_setting, parse_job by done. cbv beta iota zeta. apply through_self.
    - pose proof acts_cron_body as Hb. intros _. unfold check_body in Hb.
      assert (∀ m l, acts (anacron_entry m l)) by (intros; unfold anacron_entry; act_all).
      assert (∀ pm, acts (spool_entry pm)) by (intros; unfold spool_entry; act_all).
      assert (∀ d pm, acts (periodic_entry d pm)) by (intros; unfold periodic_entry; act_all).
      act_all. }
  exact (through_record _ _ _ _ Hthrough Hk0).
Qed.
End WithHost.
End CronProps.

(** ** Forced commands of keys *)
Module SshProps.
Import Ssh.

(** A command in the quotes of an option. *)
Definition escape (cmd : Chars.text) : Chars.text :=
  cmd ≫= λ c, if (c =? 34) || (c =? 92) then [92; c] else [c].
(** The option word, after other options. *)
Definition option_word (before cmd : Chars.text) : Chars.text := before ++ COMMAND ++ escape cmd ++ [34].

Definition unquoted (l : Chars.text) : Prop := Forall (λ c, is_whitespace c = false ∧ c ≠ 34) l.

Lemma unquote_escape cmd out post : unquote_go out false (escape cmd ++ 34 :: post) = Some (out ++ cmd).
Proof.
  revert out. induction cmd as [|c cmd IH]; intros out; csimpl; [by rewrite app_nil_r|].
  destruct ((c =? 34) || (c =? 92)) eqn:E; cbn [app unquote_go].
  - rewrite N.eqb_refl, IH. by rewrite <-app_assoc.
  - apply orb_false_iff in E as [E1 E2]. rewrite E2, E1, IH. by rewrite <-app_assoc.
Qed.

Lemma find_after_unquoted before post :
  Forall (λ c, c ≠ 34) before → Anchors.find_from COMMAND (before ++ COMMAND ++ post) = Some (COMMAND ++ post).
Proof.
  intros Hb. induction Hb as [|c before Hc Hb IH].
  - cbn [app]. change (COMMAND ++ post) with (99 :: tl COMMAND ++ post). cbn [Anchors.find_from].
    change (99 :: tl COMMAND ++ post) with (COMMAND ++ post). by rewrite list_starts_with_app.
  - cbn [app Anchors.find_from]. destruct (Anchors.list_starts_with COMMAND _) eqn:E; [|exact IH].
    apply list_starts_with_inv in E as [r E].
    assert (Forall (λ x, x ≠ 34) ((c :: before) ++ take 8 COMMAND)) as Hf.
    { apply Forall_app. split; [by constructor|]. by repeat constructor. }
    assert (((c :: before) ++ take 8 COMMAND) !! 8%nat = Some 34 → False) as Hno.
    { intros Hl. eapply Forall_lookup_1 in Hf; [|exact Hl]. done. }
    exfalso. apply Hno.
    assert ((c :: before ++ COMMAND ++ post) !! 8%nat = Some 34) as H8 by by rewrite E.
    change (c :: before ++ COMMAND ++ post) with ((c :: before) ++ COMMAND ++ post) in H8.
    change COMMAND with (take 8 COMMAND ++ [34]) in H8 at 1. rewrite <-app_assoc, app_assoc in H8.
    rewrite lookup_app_l in H8; [done|]. rewrite length_app. simpl. lia.
Qed.

Lemma forced_of_word before cmd : Forall (λ c, c ≠ 34) before → forced_command (option_word before cmd) = Some cmd.
Proof.
  intros Hb. unfold forced_command, option_word. rewrite find_after_unquoted by done.
  change (unquote_go [] false (drop (length COMMAND) (COMMAND ++ escape cmd ++ [34])) = Some cmd).
  by rewrite drop_app_length, unquote_escape.
Qed.

Lemma split_unquoted w cur l :
  unquoted w → split_options_go cur false false (w ++ l) = split_options_go (cur ++ w) false false l.
Proof.
  intros H. revert cur. induction H as [|c w [Hc Hq] _ IH]; intros cur; [by rewrite app_nil_r|].
  cbn [app split_options_go]. rewrite andb_false_r, (proj2 (N.eqb_neq c 34) Hq), Hc.
  cbn [andb]. by rewrite IH, <-app_assoc.
Qed.

Lemma split_escaped cmd cur l :
  split_options_go cur true false (escape cmd ++ l) = split_options_go (cur ++ escape cmd) true false l.
Proof.
  revert cur. induction cmd as [|c cmd IH]; intros cur; csimpl; [by rewrite app_nil_r|].
  destruct ((c =? 34) || (c =? 92)) eqn:E; cbn [app split_options_go].
  - change ((92 =? 92) && true) with true. cbv iota. rewrite IH. by rewrite <-!app_assoc.
  - apply orb_false_iff in E as [E1 E2]. rewrite E2, E1, andb_false_r. cbn [andb].
    by rewrite IH, <-app_assoc.
Qed.

Lemma command_unquoted : unquoted (lit "command=").
Proof. repeat constructor; done. Qed.

Lemma split_option_word before cmd l :
  unquoted before →
  split_options_aware (option_word before cmd ++ 32 :: l) = option_word before cmd :: split_options_aware l.
Proof.
  intros Hb. unfold split_options_aware, option_word. rewrite <-app_assoc, split_unquoted by done.
  unfold COMMAND. rewrite <-!app_assoc, split_unquoted by apply command_unquoted.
  cbn [app split_options_go]. change ((34 =? 92) && false) with false. cbv iota. cbn [negb N.eqb Pos.eqb].
  rewrite split_escaped. cbn [app split_options_go]. rewrite bool_decide_eq_false_2 by by destruct before.
  by rewrite <-!app_assoc.
Qed.

Lemma split_word w l : w ≠ [] → unquoted w → split_options_aware (w ++ 32 :: l) = w :: split_options_aware l.
Proof.
  intros Hn Hw. unfold split_options_aware. rewrite split_unquoted by done. cbn [app split_options_go].
  by rewrite bool_decide_eq_false_2.
Qed.

(** Round trip of forced commands: whatever a key is forced to run, quotes,
    backslashes and blanks included, written in its options with the escapes
    of sshd, is what the key is listed with. *)
Theorem forced_command_round_trip before cmd kind rest :
  unquoted before → head before ≠ Some 35 →
  existsb (starts (option_word before cmd)) KEY_TYPES = false →
  kind ≠ [] → unquoted kind → existsb (starts kind) KEY_TYPES = true →
  ∃ k, parse_key (option_word before cmd ++ 32 :: kind ++ 32 :: rest) = Some k ∧
    k_kind k = kind ∧ k_options k = option_word before cmd ∧ k_command k = Some cmd.
Proof.
  intros Hb Hh Hw Hk Hku Hkt. unfold parse_key.
  assert (starts (option_word before cmd ++ 32 :: kind ++ 32 :: rest) "#" = false) as ->.
  { destruct before as [|c before]; [done|]. unfold starts.
    transitivity ((35 =? c) && true); [done|]. rewrite andb_true_r. apply N.eqb_neq. intros <-. by apply Hh. }
  rewrite bool_decide_eq_false_2 by by destruct before.
  cbn [orb]. rewrite split_option_word, split_word by done. cbn [break_key]. rewrite Hw, Hkt. csimpl.
  eexists. split_and!; [done..|]. simpl. apply forced_of_word. eapply Forall_impl; [exact Hb|]. by intros c [].
Qed.
End SshProps.
