(* ===== verification/SystemExamples.v ===== *)
(** * System checks: a small image

    Concrete kernels, sessions and hosts on which the theorems about the system
    checks apply, and what the checks do on inputs that deserve attention. *)

From S2P Require Import Prelude Utf8 Paths Core External AuditLog Heuristics Chars SystemFs SystemCtx Persistence SystemLive Packages SystemChecks SystemLaws.

(** ** A kernel with a table of files *)
Module Toy.
Import Fsx.

Inductive Node :=
  | NDir (uid mode : N) (entries : list (string * Kind))
  | NFile (uid mode : N) (content : bytes).

Definition stat_of (n : Node) : Stat :=
  match n with
  | NDir u m _ => mkStat u 0 m KDir 1 1 0
  | NFile u m c => mkStat u 0 m KFile 1 2 (Z.of_N (vlen c))
  end.

Definition lookup (t : list (string * Node)) (p : string) : result N Node :=
  match head (List.filter (λ e, bool_decide (e.1 = p)) t) with Some (_, n) => Ok n | None => Err 2 end.

(** The root is [.]; [same] says whether it is the host's. *)
Definition kernel (same : bool) (t : list (string * Node)) : Kernel := {|
  Fd := Node;
  open := λ _ _, lookup t ".";
  openat2 := λ _ p _, lookup t p;
  fstat := λ n, Ok (stat_of n);
  stat_path := λ _, Ok (mkStat 0 0 0x1ED KDir (if same then 1 else 9) 1 0);
  reads := λ n, match n with NFile _ _ c => [Data c] | NDir _ _ _ => [] end;
  getdents := λ n, match n with
                   | NDir _ _ es => Ok ((λ e, Ok (as_bytes e.1, e.2)) <$> es)
                   | NFile _ _ _ => Err 20
                   end;
  fd_link := λ _, Err 2 |}.

(** The kernel with a file that must not be read. *)
Definition locked (p : string) (t : list (string * Node)) : Kernel :=
  let k := kernel false t in {|
  Fd := Node;
  open := λ _ _, lookup t ".";
  openat2 := λ _ q _, if bool_decide (q = p) then Err 13 else lookup t q;
  fstat := @fstat k;
  stat_path := @stat_path k;
  reads := @reads k;
  getdents := @getdents k;
  fd_link := λ _, Err 2 |}.

Definition patterns : RegexLib :=
  {| Patterns.Regex := Datatypes.unit; Patterns.compile _ := Some tt; Patterns.find _ _ := None |}.
Definition session : Session :=
  {| cancel_seen := λ _, false; new_id := show_N ∘ N.of_nat; now := Z.of_nat; version := "1.0" |}.
(** A host whose files all fail in one way. *)
Definition machine (fails : N) : Machine := {|
  read_to_string := λ _ _, Err (Os fails);
  read_octets := λ _, Err (Os fails);
  dir_names := λ _ _, Err (Os fails);
  read_link := λ _, Err (Os fails);
  path_exists := λ _ _, false;
  is_dir := λ _, Err (Os fails);
  env_var := λ _, None;
  own_pid := 1;
  geteuid := 0;
  parallelism := None;
  cancel_in_sweep := λ _ _, false;
  spawn := λ _ _, Err (Os 2);
  json_value := λ _, None |}.
Definition digests : Digests := {| Packages.digest_of _ c := takeN 2 c |}.

Definition crontab : string := "* * * * * root /tmp/x".
Definition image : list (string * Node) :=
  [(".", NDir 0 0x1ED []);
   ("etc/crontab", NFile 0 0x1A4 (as_bytes crontab));
   ("tmp/x", NFile 1000 0x1ED [35]); ("tmp", NDir 0 0x3FF []); ("usr/bin/x", NFile 0 0x1ED [1; 2; 3]);
   ("boot", NDir 0 0x1ED [("grub", KDir); ("vmlinuz", KFile)]);
   ("boot/grub", NDir 0 0x1ED []); ("boot/vmlinuz", NFile 0 0x1B6 [])]%string.

Definition options : SystemChecks.SystemCheckOptions := SystemChecks.mkOptions "/img" true true false 300.
End Toy.

Module SystemWitness.
Import Toy SysRules Commands Ctx CtxProps SystemChecks SystemProps.

#[local] Existing Instances patterns toy_text session digests.
#[local] Instance offline_kernel : Kernel := kernel false image.
#[local] Instance toy_host : Machine := machine 2.

Definition outcome : SystemCheckOutcome :=
  match run_checks 5 options with
  | Ok o => o
  | Err _ => mkOutcome (System.mkHost "" None None (ObservedPath.mk "" None) false None) [] [] [] [] []
  end.
Definition image_root : Fsx.Root := Fsx.mkRoot (NDir 0 0x1ED []) "/img" false.
Definition fresh : State := initial image_root.
Lemma fresh_kept : kept fresh.
Proof. apply kept_initial. Qed.

Lemma system_findings_reviewed_witness :
  (length (o_findings outcome) = 3)%nat ∧ NoDup (key_of <$> o_findings outcome).
Proof.
  assert (run_checks 5 options = Ok outcome) as H by (vm_compute; reflexivity).
  split; [vm_compute; reflexivity|]. exact (proj1 (proj2 (system_findings_reviewed 5 options outcome H))).
Defined.

Lemma every_check_reported_witness :
  System.id <$> checks outcome = ALL_IDS ∧
  take 6 (drop 19 (checks outcome)) = (λ '(id, title), skipped id title System.Skipped OFFLINE) <$> LIVE_CHECKS.
Proof.
  assert (run_checks 5 options = Ok outcome) as H by (vm_compute; reflexivity).
  assert (System.host_live (host outcome) = false) as Hl by (vm_compute; reflexivity).
  destruct (every_check_reported 5 options outcome H) as [Hi Ho]. exact (conj Hi (Ho Hl)).
Defined.

(** The image with a crontab that must not be read. *)
Definition locked_kernel : Kernel := locked "etc/crontab" image.
Definition locked_outcome : SystemCheckOutcome :=
  match run_checks (K := locked_kernel) 5 options with
  | Ok o => o
  | Err _ => mkOutcome (System.mkHost "" None None (ObservedPath.mk "" None) false None) [] [] [] [] []
  end.

Lemma shown {A B} (P : A → Prop) (cs : list A) (parts : list (list B)) :
  Forall2 (λ c part, part = [] ∨ P c) cs parts → concat parts ≠ [] → Exists P cs.
Proof.
  induction 1 as [|c part cs parts [->|Hc] _ IH]; simpl; [done|intros; right; by apply IH|by left].
Qed.


(** A host whose files cannot be read, instead of one that has none. *)
Lemma offline_ignores_host_witness :
  is_Some (ok (run_checks 5 options)) ∧
  run_checks (MA := machine 2) 5 options = run_checks (MA := machine 13) 5 options.
Proof.
  split; [vm_compute; by eexists|].
  assert (Offline.same_tools (machine 2) (machine 13)) as Hs by (split; reflexivity).
  refine (Offline.offline_ignores_host (machine 2) (machine 13) Hs 5 options _).
  intros r [= <-]. reflexivity.
Defined.

Import Fsx.

(** The program that the crontab starts belongs to another user. *)
Lemma writable_chain_exact_witness :
  ∃ m, stat image_root "/tmp/x" = Ok m ∧ Fsx.kind m = KFile ∧
    ∃ w, ordinary w ∧ (can_change w m ∨ ∃ d dm, above "/tmp/x" d ∧ stat image_root d = Ok dm ∧ can_replace_in w dm).
Proof.
  assert (is_absolute "/tmp/x" = true) as Ha by reflexivity.
  assert (is_Some (writable_chain image_root "/tmp/x")) as Hw by (vm_compute; by eexists).
  exact (proj1 (writable_chain_exact image_root "/tmp/x" Ha) Hw).
Defined.

Definition entry : Found :=
  mkFound System.Cron System.SystemScope "/etc/crontab" (Some (lit "/tmp/x")) None None None None true.

Lemma record_exact_witness :
  key TEMP_EXEC (target_of entry (Some (lit "/tmp/x"))) "starts /tmp/x" ∈ key_of <$> findings (record entry None fresh).2 ∧
  persistence (record entry None fresh).2 = [entry_of entry].
Proof.
  destruct (RecordProps.record_exact entry None fresh fresh_kept) as (Hk & _ & Hp). split; [|exact Hp].
  apply Hk. right. right. left. split; [done|]. exists (lit "/tmp/x", Some (lit "/tmp/x")).
  split; [vm_compute; by left|]. left. split; vm_compute; reflexivity.
Defined.

(** *** A module that /proc/modules does not list *)
Definition rootkit : Machine := {|
  read_to_string := λ _ _, Ok ""%string;
  read_octets := λ _, Err (Os 2);
  dir_names := λ _ _, Ok [Ok (as_bytes "kit")];
  read_link := λ _, Err (Os 2);
  path_exists := λ _ _, true;
  is_dir := λ _, Err (Os 2);
  env_var := λ _, None;
  own_pid := 1;
  geteuid := 0;
  parallelism := None;
  cancel_in_sweep := λ _ _, false;
  spawn := λ _ _, Err (Os 2);
  json_value := λ _, None |}.

Lemma hidden_module_exact_witness :
  ModuleProps.module_key "kit" "/proc/modules" ∈
    key_of <$> findings (KernelChecks.modules_body (MA := rootkit) "/proc" "/sys" fresh).2.
Proof.
  assert (KernelChecks.read_views (MA := rootkit) 0 "/proc" "/sys" = Ok ([], ["kit"%string])) as H0
    by (vm_compute; reflexivity).
  assert (KernelChecks.read_views (MA := rootkit) 1 "/proc" "/sys" = Ok ([], ["kit"%string])) as H1
    by (vm_compute; reflexivity).
  apply (ModuleProps.hidden_module_exact (MA := rootkit) "/proc" "/sys" _ _ fresh H0 H1 fresh_kept).
  right. exists "kit"%string, "/proc/modules"%string.
  assert (ModuleProps.missing ([], ["kit"%string]) "kit" "/proc/modules") as Hm.
  { left. split; [done|]. split; [by left|]. by intros ?%elem_of_nil. }
  exact (conj Hm (conj Hm eq_refl)).
Defined.

(** *** A file that is not what was installed *)
Definition recorded (digest : string) : Packages.Recorded :=
  Packages.mkRecorded "/usr/bin/x" Packages.Md5 digest (Some "tools"%string).

Lemma package_verify_exact_witness :
  (Packages.verify [recorded "0102"; recorded "ffff"] fresh).1 = (0, []) ∧
  ∃ k, k ∈ key_of <$> findings (Packages.verify [recorded "0102"; recorded "ffff"] fresh).2.
Proof.
  assert (∀ n, cancel_seen n = false) as Hc by reflexivity.
  pose proof (VerifyProps.package_verify_exact [recorded "0102"; recorded "ffff"] fresh Hc fresh_kept) as H.
  destruct (Packages.verify _ fresh) as [counts s']. destruct H as [Hn Hk]. split.
  - etransitivity; [exact Hn|]. vm_compute. reflexivity.
  - eexists. apply Hk. right. exists (recorded "ffff"). split; [by right; left|].
    exists "0102"%string. split; [vm_compute; reflexivity|]. split; [discriminate|reflexivity].
Defined.

Lemma boot_walk_returns_witness :
  ∃ count s', ∀ fuel, (2 < fuel)%nat → BootChecks.boot_walk fuel ["/boot"%string] 0 fresh = (Some count, s').
Proof.
  assert (BootChecks.finite_below image_root "/boot" 2) as Hf.
  { apply (BootChecks.finite_dir image_root "/boot" [mkEntry "grub" KDir; mkEntry "vmlinuz" KFile] [1%nat]).
    - vm_compute. reflexivity.
    - apply Forall2_cons. split; [|apply Forall2_nil; done].
      apply (BootChecks.finite_dir image_root "/boot/grub" [] []); [vm_compute; reflexivity|by constructor]. }
  exact (BootProps.boot_walk_returns fresh 2 Hf).
Defined.

(** *** The job of the image *)
Definition stars : list Chars.text := repeat [42] 5.
Definition crontab_text : Text := mkText (as_bytes crontab) (mkMeta 0 0 0x1A4 KFile 1 2) false.
Definition job_entry : Found := CronProps.job_found (meta crontab_text) stars (lit "root") (lit "/tmp/x").

Lemma cron_job_listed_witness :
  entry_of job_entry ∈ persistence (CronJobs.check fresh).2 ∧
  key TEMP_EXEC (target_of job_entry (Some (lit "/tmp/x"))) "starts /tmp/x" ∈
    key_of <$> findings (CronJobs.check fresh).2.
Proof.
  assert (read_text image_root CronProps.CRONTAB = Ok crontab_text) as Ht by (vm_compute; reflexivity).
  assert (CronProps.good_job stars (lit "root") (lit "/tmp/x")) as Hg.
  { split.
    - reflexivity.
    - unfold stars. simpl. repeat constructor; done.
    - intros f c [= <-] [= <-]. by split.
    - split; [done|]. by repeat constructor.
    - split; [done|]. split; intros c [= <-]; reflexivity. }
  assert (as_bytes crontab ∈ lines (text crontab_text)) as Hl by (vm_compute; left).
  assert (trim (as_bytes crontab) = CronProps.job stars (lit "root") (lit "/tmp/x")) as Hj by (vm_compute; reflexivity).
  destruct (CronProps.cron_job_listed fresh crontab_text stars (lit "root") (lit "/tmp/x") (as_bytes crontab)
              fresh_kept Ht Hl Hj Hg) as [He Hk].
  split; [exact He|]. apply Hk. right. left. split; [done|]. exists (lit "/tmp/x", Some (lit "/tmp/x")).
  split; [vm_compute; by left|]. left. split; vm_compute; reflexivity.
Defined.

Lemma forced_command_round_trip_witness :
  ∃ k, Ssh.parse_key (SshProps.option_word (lit "no-pty,") [92; 32; 34] ++ 32 :: lit "ssh-ed25519" ++ 32 :: lit "AAAA me")
    = Some k ∧ Ssh.k_command k = Some [92; 32; 34].
Proof.
  assert (SshProps.unquoted (lit "no-pty,")) as Hb by (repeat constructor; done).
  assert (SshProps.unquoted (lit "ssh-ed25519")) as Hk by (repeat constructor; done).
  assert (head (lit "no-pty,") ≠ Some 35) as Hh by done.
  assert (existsb (starts (SshProps.option_word (lit "no-pty,") [92; 32; 34])) Ssh.KEY_TYPES = false) as Hw
    by (vm_compute; reflexivity).
  assert (existsb (starts (lit "ssh-ed25519")) Ssh.KEY_TYPES = true) as Ht by (vm_compute; reflexivity).
  destruct (SshProps.forced_command_round_trip (lit "no-pty,") [92; 32; 34] (lit "ssh-ed25519") (lit "AAAA me")
              Hb Hh Hw ltac:(done) Hk Ht) as (k & Hp & _ & _ & Hc).
  exact (ex_intro _ k (conj Hp Hc)).
Defined.
End SystemWitness.

(** ** What escapes the checks *)
Module SystemGaps.
Import Toy Fsx Ctx SystemWitness.

#[local] Existing Instances patterns toy_text session digests offline_kernel toy_host.

(** A job of anacron with two blanks between its first fields is dropped: the
    empty piece counts as one of the four. *)
Lemma anacron_blanks_dropped m s :
  CronJobs.anacron_entry m (lit "1  5 job /tmp/x") s = (tt, s).
Proof. reflexivity. Qed.

(** In the environment of cron jobs, [LD_AUDIT] is not looked at, although it
    is one of [LOADER_VARS]. *)
Lemma cron_ld_audit_ignored p m s :
  among Commands.LOADER_VARS "LD_AUDIT" = true ∧
  CronJobs.cron_entry p true None m (lit "LD_AUDIT=/tmp/x.so") s = (tt, s).
Proof. by split. Qed.

(** A comment of a unit that ends in a backslash takes the next line with it. *)
Lemma unit_comment_hides_command :
  Systemd.exec (Systemd.parse_unit (lit "# note \" ++ 10 :: lit "ExecStart=/tmp/x")) = [] ∧
  Systemd.exec (Systemd.parse_unit (lit "# note" ++ 10 :: lit "ExecStart=/tmp/x")) = [(lit "ExecStart", lit "/tmp/x")].
Proof. by split; vm_compute. Qed.

(** A module on the continuation of a PAM line is not seen. *)
Lemma pam_continuation_unseen :
  existsb PamStacks.nonstandard
    (omap (λ l, PamStacks.parse_line (trim l) false) (lines (lit "auth required \" ++ 10 :: lit "/tmp/x.so"))) = false ∧
  existsb PamStacks.nonstandard
    (omap (λ l, PamStacks.parse_line (trim l) false) (lines (lit "auth required /tmp/x.so"))) = true.
Proof. by split; vm_compute. Qed.

(** The names of options are compared with case, which sshd does not. *)
Lemma upper_case_command_unseen :
  Ssh.forced_command (lit "COMMAND=" ++ [34] ++ lit "/tmp/x" ++ [34]) = None.
Proof. by vm_compute. Qed.

(** A temporary directory reached through [..] is not recognised. *)
Lemma temp_dir_dotdot_unseen :
  Commands.in_temp_dir "/usr/../tmp/x" = false ∧ Commands.in_temp_dir "/tmp/x" = true.
Proof. by split; vm_compute. Qed.

(** An injected library is taken for one of the program's own by its name. *)
Lemma injected_libc_unseen :
  Processes.injected_libraries (lit "7f0-7f1 r-xp 0 08:01 9 /tmp/libc-x.so") (lit "/usr/bin/warden") = [] ∧
  Processes.injected_libraries (lit "7f0-7f1 r-xp 0 08:01 9 /tmp/x.so") (lit "/usr/bin/warden") = [lit "/tmp/x.so"].
Proof. by split; vm_compute. Qed.

(** When [rpm] ends without an answer, the records are none, and no error. *)
Lemma rpm_failure_unseen (MA : Machine) targets s :
  (∀ args, spawn Packages.RPM args = Ok (Some ([Ended], Some []))) →
  (Packages.rpm_records (MA := MA) targets (Packages.mkOptions false 300) s).1 = Ok [].
Proof.
  intros H. unfold Packages.rpm_records, Tool.run, get, mbind, M_bind. cbv beta iota. by rewrite H.
Qed.
End SystemGaps.
