(* ===== verification/WinRules.v ===== *)
(** * System checks on Windows: the rules

    system/src/winrules.rs: how a value of the registry, a service or a
    scheduled task is read and judged, whatever it was read from. Texts are
    lists of characters; [Collector] is the state that the rules fill. *)

From S2P Require Import Prelude Utf8 Paths Core External AuditLog Heuristics Chars Sddl SystemFs SystemCtx.

Module WinRules.
Import System SysRules.

Definition PERCENT : N := 37.
Definition QUOTE : N := 34.
Definition AMP : N := 38.
Definition lower (l : text) : text := to_lower_byte <$> l.
Definition same_text (l : text) (s : string) : bool := bool_decide (lower l = lower (lit s)).
Arguments same_text l s%_string_scope.

(** [expand_env]: a round consumes a character at least, so the length of the
    text is fuel enough. *)
Fixpoint expand_go (fuel : nat) (lookup : text → option text) (rest : text) : text :=
  match fuel with
  | O => rest
  | S fuel =>
      match split_at (is_char PERCENT) rest with
      | None => rest
      | Some (before, after) =>
          before ++
          match split_at (is_char PERCENT) after with
          | Some (name, rest') =>
              if negb (bool_decide (name = [])) && negb (existsb is_whitespace name)
              then match lookup name with
                   | Some v => v
                   | None => PERCENT :: name ++ [PERCENT]
                   end ++ expand_go fuel lookup rest'
              else PERCENT :: expand_go fuel lookup after
          | None => PERCENT :: expand_go fuel lookup after
          end
      end
  end.
Definition expand_env (s : text) (lookup : text → option text) : text := expand_go (S (length s)) lookup s.

Definition normalize_image_path (p system_root : text) : text :=
  let p := trim p in
  match after_prefix "\??\" p with
  | Some rest => rest
  | None =>
      if starts (lower p) "\systemroot\" then system_root ++ drop (length (lit "\SystemRoot")) p
      else if starts (lower p) "system32\" || starts (lower p) "syswow64\" then system_root ++ lit "\" ++ p
      else p
  end.

(** The first [.exe] that ends a word, in any case: the text up to its end
    and the rest. *)
Fixpoint exe_end (l : text) : option (text * text) :=
  match l with
  | [] => None
  | c :: r =>
      if starts (lower l) ".exe" && from_option is_whitespace true (head (drop 4 l))
      then Some (take 4 l, drop 4 l)
      else '(a, b) ← exe_end r; Some (c :: a, b)
  end.

Definition is_slash (c : N) : bool := one_of "\/" c.

(** What is started and its arguments. *)
Definition first_word (cmd : text) : option (text * text) :=
  match cmd with
  | c :: r =>
      if c =? QUOTE then split_at (is_char QUOTE) r
      else match exe_end cmd with
           | Some ab => Some ab
           | None => Some (default (cmd, []) (break_at is_whitespace cmd))
           end
  | [] => Some ([], [])
  end.

Definition unquote (a : text) : text := trim_while (is_char QUOTE) a.
Definition loaded_by (base first : text) (args : list text) : option text :=
  if among_lits ["rundll32.exe"; "rundll32"]%string base
  then (λ a, first_piece (is_char 44) (unquote a)) <$> head args
  else if among_lits ["regsvr32.exe"; "regsvr32"]%string base
  then unquote <$> head (List.filter (λ a, negb (starts a "/") && negb (starts a "-")) (reverse args))
  else Some first.

Definition command_executable (cmd : text) : option text :=
  '(first, rest) ← first_word (trim cmd);
  chosen ← loaded_by (lower (last_piece is_slash first)) first (split_whitespace rest);
  if existsb (is_char 92) chosen || existsb (is_char 58) chosen then Some chosen else None.

Inductive Location := Temp | UserWritable | Other.
#[export] Instance Location_eq_dec : EqDecision Location.
Proof. solve_decision. Defined.

Definition TEMP_PARTS : list string :=
  ["\temp\"; "\tmp\"; "\users\public\"; "$recycle.bin"; "\perflogs\"; "\windows\tasks\"]%string.

(** [p.get(1..)] is nothing when the first character is longer than an octet. *)
Definition get_from_1 (p : text) : text :=
  match p with c :: r => if c <? 0x80 then r else [] | [] => [] end.

Definition classify (path : text) : Location :=
  let p := lower ((λ c, if c =? 47 then 92 else c) <$> path) in
  if existsb (has_text p) TEMP_PARTS then Temp
  else if starts (get_from_1 p) ":\users\" || starts (get_from_1 p) ":\programdata\" then UserWritable
  else Other.

Definition winlogon_modified (name value system_root : text) : bool :=
  let v := lower (trim (trim_end_while (is_char 44) (trim value))) in
  let sr := lower system_root in
  if is_lit (lower name) "shell"
  then negb (is_lit v "explorer.exe") && negb (bool_decide (v = sr ++ lit "\explorer.exe"))
  else if is_lit (lower name) "userinit"
  then negb (bool_decide (v = sr ++ lit "\system32\userinit.exe"))
       && negb (is_lit v "%systemroot%\system32\userinit.exe") && negb (is_lit v "userinit.exe")
  else false.

Record Task := mkTask {
  commands : list text; com_handlers : list text; enabled : bool; hidden : bool; user : option text }.

(** [String::from_utf16_lossy] *)
Definition is_high (u : N) : bool := (0xD800 <=? u) && (u <=? 0xDBFF).
Definition is_low (u : N) : bool := (0xDC00 <=? u) && (u <=? 0xDFFF).
Fixpoint from_utf16_lossy (us : list N) : text :=
  match us with
  | [] => []
  | u :: r =>
      if is_high u then
        match r with
        | v :: r' =>
            if is_low v then 0x10000 + (u - 0xD800) * 0x400 + (v - 0xDC00) :: from_utf16_lossy r'
            else replacement :: from_utf16_lossy r
        | [] => [replacement]
        end
      else (if is_low u then replacement else u) :: from_utf16_lossy r
  end.

(** [bytes.as_chunks::<2>().0]: an octet left over is dropped. *)
Fixpoint units (big_endian : bool) (bs : bytes) : list N :=
  match bs with
  | a :: b :: bs => (if big_endian then a * 256 + b else b * 256 + a) :: units big_endian bs
  | _ => []
  end.

Definition decode_text (bs : bytes) : text :=
  match bs with
  | 0xFF :: 0xFE :: r => from_utf16_lossy (units false r)
  | 0xFE :: 0xFF :: r => from_utf16_lossy (units true r)
  | 0xEF :: 0xBB :: 0xBF :: r => decode_lossy r
  | _ => decode_lossy bs
  end.

(** [s.find(p)] with what is before and after the occurrence. *)
Fixpoint split_text (p l : text) : option (text * text) :=
  if Anchors.list_starts_with p l then Some ([], drop (length p) l)
  else match l with
       | [] => None
       | c :: r => '(a, b) ← split_text p r; Some (c :: a, b)
       end.

(** [elements]: [n] elements were found; the limit of 64 is looked at after
    an element with a body only. *)
Definition MAX_ELEMENTS : N := 64.
Definition open_tag (tag : string) : text := 60 :: lit tag.
Definition close_tag (tag : string) : text := lit "</" ++ lit tag ++ [62].
Definition tag_ends (after : text) : bool :=
  from_option (λ c, existsb (N.eqb c) [62; 32; 9; 13; 10; 47]) false (head after).
Fixpoint elements_go (fuel : nat) (n : N) (tag : string) (rest : text) : list text :=
  match fuel with
  | O => []
  | S fuel =>
      match split_text (open_tag tag) rest with
      | None => []
      | Some (_, after) =>
          if negb (tag_ends after) then elements_go fuel n tag after
          else match split_at (is_char 62) after with
               | None => []
               | Some (attributes, body) =>
                   if ends attributes "/" then [] :: elements_go fuel (n + 1) tag body
                   else match split_text (close_tag tag) body with
                        | None => []
                        | Some (content, rest') =>
                            content :: (if MAX_ELEMENTS <=? n + 1 then [] else elements_go fuel (n + 1) tag rest')
                        end
               end
      end
  end.
Definition elements (xml : text) (tag : string) : list text := elements_go (S (length xml)) 0 tag xml.

(** [char::from_u32] *)
Definition char_from_u32 (n : N) : option N :=
  if (n <? 0xD800) || ((0xE000 <=? n) && (n <? 0x110000)) then Some n else None.

Definition entity (ent : text) : option N :=
  if is_lit ent "amp" then Some 38
  else if is_lit ent "lt" then Some 60
  else if is_lit ent "gt" then Some 62
  else if is_lit ent "quot" then Some 34
  else if is_lit ent "apos" then Some 39
  else
    n ← match after_prefix "#x" ent ≫= Sddl.from_str_radix16 with
        | Some n => Some n
        | None => after_prefix "#" ent ≫= parse_u32
        end;
    char_from_u32 n.

(** [after] starts with the [&]; [;] is at most ten octets away. *)
Fixpoint unescape_go (fuel : nat) (rest : text) : text :=
  match fuel with
  | O => rest
  | S fuel =>
      match break_at (is_char AMP) rest with
      | None => rest
      | Some (before, after) =>
          before ++
          match split_at (is_char 59) after with
          | Some (amp_ent, rest') =>
              if vlen (encode amp_ent) <=? 10
              then match entity (drop 1 amp_ent) with
                   | Some c => [c]
                   | None => amp_ent ++ [59]
                   end ++ unescape_go fuel rest'
              else AMP :: unescape_go fuel (drop 1 after)
          | None => AMP :: unescape_go fuel (drop 1 after)
          end
      end
  end.
Definition unescape (s : text) : text := unescape_go (S (length (trim s))) (trim s).

(** The closure [first] of [parse_task], and the parts of the task. *)
Definition first_element (x : text) (t : string) : option text := unescape <$> head (elements x t).
Definition exec_command (exec : text) : option text :=
  cmd ← first_element exec "Command";
  let args := default [] (first_element exec "Arguments") in
  Some (if bool_decide (args = []) then cmd else cmd ++ [32] ++ args).

Definition parse_task (xml : text) : Task :=
  let settings := default [] (head (elements xml "Settings")) in
  mkTask (omap exec_command (elements xml "Exec"))
    (omap (λ h, first_element h "ClassId") (elements xml "ComHandler"))
    (from_option (λ v, negb (same_text v "false")) true (first_element settings "Enabled"))
    (from_option (λ v, same_text v "true") false (first_element settings "Hidden"))
    (p ← head (elements xml "Principal");
     match first_element p "UserId" with Some u => Some u | None => first_element p "GroupId" end).

Definition system_principal (user : option text) : bool :=
  from_option (λ u,
    let u := lower u in
    among_lits ["s-1-5-18"; "s-1-5-19"; "s-1-5-20"; "system"; "localsystem"]%string u
    || ends u "\system" || ends u "\local service" || ends u "\network service") false user.

Record WinEntry := mkWinEntry {
  w_mechanism : PersistenceMechanism; w_scope : PersistenceScope; w_location : text;
  w_command : option text; w_enabled : option bool; w_detail : option string; w_hidden : bool }.

Record Collector := mkCollector {
  findings : list Finding; persistence : list PersistenceEntry; seen : list (string * text * text) }.
Definition no_findings : Collector := mkCollector [] [] [].

Section WithRules.
Context `{RX : RegexLib, SE : Session}.

(** [ObservedPath { text, raw_hex: None }] *)
Definition observed (t : text) : ObservedPath := ObservedPath.mk (of_chars t) None.

Definition key (rule : Rule) (location : text) (entry : option text) : string * text * text :=
  (SysRules.id rule, location, default [] entry).
Definition target (mechanism : PersistenceMechanism) (location : text) (entry : option text) : Finding.FindingTarget :=
  Finding.Persistence (mechanism_name mechanism) (observed location) (Patterns.snippet ∘ of_chars <$> entry).

Definition report (rule : Rule) (mechanism : PersistenceMechanism) (location : text) (entry : option text)
    (summary : string) (c : Collector) : Collector :=
  let k := key rule location entry in
  if bool_decide (k ∈ seen c) then c
  else
    let n := length (findings c) in
    mkCollector (findings c ++ [finding version rule (target mechanism location entry) summary (new_id n) (now n)])
      (persistence c) (k :: seen c).

Definition push_entry (e : PersistenceEntry) (c : Collector) : Collector :=
  mkCollector (findings c) (persistence c ++ [e]) (seen c).

(** The loop over the indicators of a text. *)
Definition report_indicators (mechanism : PersistenceMechanism) (location l : text) (c : Collector) : Collector :=
  foldl (λ c rm, report rm.1 mechanism location (Some l) (fmt "matched: {matched}" [rm.2]) c)
    c (Commands.command_indicators l).

(** The reports of [record]: for the command, for the place of what it
    starts, for a hidden task. *)
Definition report_location (e : WinEntry) (cmd exe : text) (c : Collector) : Collector :=
  match classify exe with
  | Temp => report TEMP_EXEC (w_mechanism e) (w_location e) (Some cmd) (fmt "starts {exe}" [of_chars exe]) c
  | UserWritable =>
      if bool_decide (w_scope e = SystemScope)
      then report SYSTEM_USER_WRITABLE (w_mechanism e) (w_location e) (Some cmd)
             (fmt "starts {exe}" [of_chars exe]) c
      else c
  | Other => c
  end.
Definition report_command (e : WinEntry) (cmd : text) (c : Collector) : Collector :=
  let c := report_indicators (w_mechanism e) (w_location e) cmd c in
  match command_executable cmd with Some exe => report_location e cmd exe c | None => c end.
Definition report_entry (e : WinEntry) (c : Collector) : Collector :=
  let c := match w_command e with Some cmd => report_command e cmd c | None => c end in
  if w_hidden e
  then report HIDDEN_TASK (w_mechanism e) (w_location e) (w_command e) "task is hidden" c else c.

Definition entry_of (e : WinEntry) : PersistenceEntry :=
  mkEntry (w_mechanism e) (w_scope e) (observed (w_location e))
    (Patterns.snippet ∘ of_chars <$> w_command e)
    (observed <$> (w_command e ≫= command_executable)) (w_enabled e) (w_detail e).

Definition record (e : WinEntry) (c : Collector) : Collector := push_entry (entry_of e) (report_entry e c).

Definition winlogon_entry (location expanded : text) (enabled : bool) (detail : string) : WinEntry :=
  mkWinEntry Winlogon SystemScope location (Some expanded) (Some enabled) (Some detail) false.

Definition value_modified (name value system_root : text) : bool :=
  if is_lit name "Shell" || is_lit name "Userinit" then winlogon_modified name value system_root
  else negb (bool_decide (trim value = [])).
Definition winlogon_value (location name value expanded system_root : text) (c : Collector) : Collector :=
  let c := if value_modified name value system_root
           then report WINLOGON_MODIFIED Winlogon location (Some value)
                  (fmt "{name} = {value}" [of_chars name; of_chars value]) c
           else c in
  record (winlogon_entry location expanded true (fmt "Winlogon {name}" [of_chars name])) c.

Definition appinit (location dlls : text) (load : N) (expanded : text) (c : Collector) : Collector :=
  if bool_decide (trim dlls = []) then c
  else
    let c := if load =? 1
             then report APPINIT_DLLS Winlogon location (Some dlls) (fmt "AppInit_DLLs = {dlls}" [of_chars dlls]) c
             else c in
    record (winlogon_entry location expanded (load =? 1) "AppInit_DLLs") c.

Definition launch_redirect (location image value_name cmd expanded : text) (c : Collector) : Collector :=
  let c := report IFEO_DEBUGGER Winlogon location (Some cmd)
             (fmt "{image}: {value_name} = {cmd}" [of_chars image; of_chars value_name; of_chars cmd]) c in
  record (winlogon_entry location expanded true (fmt "runs when {image} starts or exits" [of_chars image])) c.
End WithRules.
End WinRules.
