(* ===== verification/WinChecks.v ===== *)
(** * System checks on Windows: the run

    system/src/windows.rs: the Run keys, Winlogon, the services, the scheduled
    tasks and the Startup folders of the running system. The registry (the
    [winreg] crate), the file system and the environment are parameters. *)

From S2P Require Import Prelude Utf8 Paths Core External AuditLog Remediation Heuristics Chars SystemFs SystemCtx Persistence SystemLive Packages SystemChecks WinRules.

(** ** What the checks read *)
Module Windows.

Inductive ErrorKind := NotFound | PermissionDenied | OtherKind.
#[export] Instance ErrorKind_eq_dec : EqDecision ErrorKind.
Proof. solve_decision. Defined.
(** An [io::Error]: its kind and text. *)
Record WinError := mkError { e_kind : ErrorKind; e_text : string }.

Inductive FileType := IsDir | IsFile | IsOther.
#[export] Instance FileType_eq_dec : EqDecision FileType.
Proof. solve_decision. Defined.
(** A directory entry that could be read; its type may be unknown. *)
Record DirEntry := mkDirEntry { file_name : Chars.text; file_type : option FileType }.

Class Host := {
  (** [std::env::var(name).ok()] *)
  env : Chars.text → option Chars.text;
  (** registry keys, opened in the 64-bit view or as they are *)
  Key : Type;
  hklm : Key;
  hku : Key;
  open_subkey : bool → Key → Chars.text → result WinError Key;
  enum_keys : Key → list (result WinError Chars.text);
  enum_values : Key → list (result WinError Chars.text);
  get_string : Key → Chars.text → option Chars.text;
  get_u32 : Key → Chars.text → option N;
  (** files: [read_to_end] of at most so many octets *)
  File : Type;
  read_dir : Chars.text → result WinError (list (option DirEntry));
  open_file : Chars.text → result WinError File;
  read_to_end : File → N → result WinError bytes }.
End Windows.

(** ** windows.rs *)
Module WinChecks.
Import System SysRules Windows WinRules.

Definition RUN_KEYS : list string :=
  ["Software\Microsoft\Windows\CurrentVersion\Run";
   "Software\Microsoft\Windows\CurrentVersion\RunOnce";
   "Software\Microsoft\Windows\CurrentVersion\RunServices";
   "Software\Microsoft\Windows\CurrentVersion\RunServicesOnce";
   "Software\Microsoft\Windows\CurrentVersion\Policies\Explorer\Run";
   "Software\WOW6432Node\Microsoft\Windows\CurrentVersion\Run";
   "Software\WOW6432Node\Microsoft\Windows\CurrentVersion\RunOnce"]%string.
Definition WINLOGON : string := "SOFTWARE\Microsoft\Windows NT\CurrentVersion\Winlogon".
Definition WINDOWS_NT : list string :=
  ["SOFTWARE\Microsoft\Windows NT\CurrentVersion\Windows";
   "SOFTWARE\WOW6432Node\Microsoft\Windows NT\CurrentVersion\Windows"]%string.
Definition IFEO : string := "SOFTWARE\Microsoft\Windows NT\CurrentVersion\Image File Execution Options".
Definition SILENT_EXIT : string := "SOFTWARE\Microsoft\Windows NT\CurrentVersion\SilentProcessExit".
Definition SERVICES : string := "SYSTEM\CurrentControlSet\Services".
Definition MAX_TASK_FILES : N := 20000.
Definition MAX_FILE : N := 2 ^ 20.
Definition MAX_DEPTH : N := 8.

Definition BACKSLASH : text := [92].

Section WithHost.
Context `{WH : Host, RX : RegexLib, SE : Session}.

(** [Win], and [Run] for the check that runs. *)
Record State := mkState {
  col : Collector; issues : list Report.ScanIssue; system_root : text; polls : nat;
  examined : N; denied_count : N; notes : list string }.

Definition M (A : Type) : Type := State → A * State.
#[global] Instance M_ret : MRet M := λ A a s, (a, s).
#[global] Instance M_bind : MBind M := λ A B f m s, let '(a, s) := m s in f a s.

Definition get {A} (f : State → A) : M A := λ s, (f s, s).
Definition modify (f : State → State) : M unit := λ s, (tt, f s).
Fixpoint for_each {A} (f : A → M unit) (xs : list A) : M unit :=
  match xs with [] => mret tt | x :: xs => _ ← f x; for_each f xs end.

(** A loop that first looks whether the run is cancelled. *)
Definition cancelled : M bool := λ s,
  (cancel_seen (polls s), mkState (col s) (issues s) (system_root s) (S (polls s)) (examined s) (denied_count s) (notes s)).
Fixpoint for_uncancelled {A} (f : A → M unit) (xs : list A) : M unit :=
  match xs with
  | [] => mret tt
  | x :: xs => c ← cancelled; if c : bool then mret tt else (_ ← f x; for_uncancelled f xs)
  end.

Definition set_run (e d : N) (n : list string) : State → State := λ s,
  mkState (col s) (issues s) (system_root s) (polls s) e d n.
(** [Run::default()], [run.examined += 1], [run.denied += 1],
    [run.notes.push(..)] *)
Definition new_run : M unit := modify (set_run 0 0 []).
Definition count_one : M unit := modify (λ s, set_run (examined s + 1) (denied_count s) (notes s) s).
Definition count_denied : M unit := modify (λ s, set_run (examined s) (denied_count s + 1) (notes s) s).
Definition note (n : string) : M unit := modify (λ s, set_run (examined s) (denied_count s) (notes s ++ [n]) s).

Definition push_issue (i : Report.ScanIssue) : M unit := modify (λ s,
  mkState (col s) (issues s ++ [i]) (system_root s) (polls s) (examined s) (denied_count s) (notes s)).
(** A method of the collector. *)
Definition collect (f : Collector → Collector) : M unit := modify (λ s,
  mkState (f (col s)) (issues s) (system_root s) (polls s) (examined s) (denied_count s) (notes s)).

(** [Run::finish] *)
Definition denied_note (d : N) : string :=
  fmt "{} location(s) not readable; run as Administrator" [show_N d].
Definition finish (id title : string) : M CheckResult :=
  d ← get denied_count;
  _ ← (if 0 <? d then note (denied_note d) else mret tt);
  c ← (if 0 <? d then mret true else cancelled);
  e ← get examined;
  n ← get notes;
  mret (System.mkResult id title (if c : bool then Partial else Completed) e
          (if bool_decide (n = []) then None else Some (Ctx.joined "; " n))).

Definition expand (s : text) : text := expand_env s env.

Definition error (location : text) (e : WinError) : M unit :=
  if bool_decide (e_kind e = NotFound) then mret tt
  else
    let is_denied := bool_decide (e_kind e = PermissionDenied) in
    _ ← (if is_denied then count_denied else mret tt);
    push_issue (Report.Build_ScanIssue (Some (observed location))
      (if is_denied then Report.PermissionDenied else Report.Io) (Some DETECTOR_ID) (e_text e) None).

(** A key and its name, which the messages use. *)
Definition open (root : Key) (root_name path : text) : M (option Key) :=
  match open_subkey true root path with
  | Ok k => mret (Some k)
  | Err e => _ ← error (root_name ++ BACKSLASH ++ path) e; mret None
  end.
(** [let Some(key) = self.open(..) else { continue }] *)
Definition with_key (root : Key) (root_name path : text) (f : Key → M unit) : M unit :=
  k ← open root root_name path;
  match k with Some k => f k | None => mret tt end.

(** [user_hives] *)
Fixpoint user_hives_go (names : list (result WinError text)) : M (list text) :=
  match names with
  | [] => mret []
  | Ok n :: names => out ← user_hives_go names; mret (if ends n "_Classes" then out else n :: out)
  | Err e :: names => _ ← error (lit "HKU") e; user_hives_go names
  end.
Definition user_hives : M (list text) := user_hives_go (enum_keys hku).

(** *** Run keys *)
Definition run_entry (scope : PersistenceScope) (location cmd : text) : WinEntry :=
  mkWinEntry RegistryRun scope location (Some (expand cmd)) (Some true) None false.
Definition run_value (scope : PersistenceScope) (name path : text) (key : Key) (v : result WinError text) : M unit :=
  match v with
  | Err _ => mret tt
  | Ok vname =>
      match get_string key vname with
      | None => mret tt
      | Some cmd =>
          _ ← count_one;
          collect (record (run_entry scope (name ++ BACKSLASH ++ path ++ BACKSLASH ++ vname) cmd))
      end
  end.
Definition run_key (root : Key) (name : text) (scope : PersistenceScope) (path : string) : M unit :=
  let '(root_name, full) :=
    match after_prefix "HKU\" name with
    | Some sid => (lit "HKU", sid ++ BACKSLASH ++ lit path)
    | None => (lit "HKLM", lit path)
    end in
  with_key root root_name full (λ key, for_each (run_value scope name (lit path) key) (enum_values key)).
Definition hives (sids : list text) : list (Key * text * PersistenceScope) :=
  (hklm, lit "HKLM", SystemScope) :: ((λ sid, (hku, lit "HKU\" ++ sid, UserScope)) <$> sids).
Definition RUN_NOTE : string := "users who are not logged on (hive not loaded) are not inspected".
Definition run_keys : M CheckResult :=
  _ ← new_run;
  sids ← user_hives;
  _ ← for_each (λ '(root, name, scope), for_each (run_key root name scope) RUN_KEYS) (hives sids);
  _ ← note RUN_NOTE;
  finish "persistence.registry_run" "Registry Run keys".

(** *** Winlogon, AppInit_DLLs and launch redirection *)
Definition in_hklm (path : string) : text := lit "HKLM\" ++ lit path.
Definition winlogon_name (key : Key) (name : string) : M unit :=
  match get_string key (lit name) with
  | None => mret tt
  | Some value =>
      _ ← count_one;
      root ← get system_root;
      collect (winlogon_value (in_hklm WINLOGON ++ BACKSLASH ++ lit name) (lit name) value (expand value) root)
  end.
Definition appinit_key (path : string) (key : Key) : M unit :=
  let dlls := default [] (get_string key (lit "AppInit_DLLs")) in
  let load := default 0 (get_u32 key (lit "LoadAppInit_DLLs")) in
  _ ← count_one;
  collect (appinit (in_hklm path ++ lit "\AppInit_DLLs") dlls load (expand dlls)).
Definition redirect (base value_name : string) (key : Key) (image : text) : M unit :=
  match open_subkey false key image with
  | Err _ => mret tt
  | Ok sub =>
      _ ← count_one;
      match get_string sub (lit value_name) with
      | None => mret tt
      | Some cmd =>
          collect (launch_redirect (in_hklm base ++ BACKSLASH ++ image ++ BACKSLASH ++ lit value_name) image
                     (lit value_name) cmd (expand cmd))
      end
  end.
Definition winlogon : M CheckResult :=
  _ ← new_run;
  _ ← with_key hklm (lit "HKLM") (lit WINLOGON)
        (λ key, for_each (winlogon_name key) ["Shell"; "Userinit"; "Taskman"; "AppSetup"]%string);
  _ ← for_each (λ path, with_key hklm (lit "HKLM") (lit path) (appinit_key path)) WINDOWS_NT;
  _ ← for_each (λ '(base, value_name),
        with_key hklm (lit "HKLM") (lit base)
          (λ key, for_each (redirect base value_name key) (takeN 10000 (Ebpf.flatten (enum_keys key)))))
        [(IFEO, "Debugger"%string); (SILENT_EXIT, "MonitorProcess"%string)];
  finish "persistence.winlogon" "Winlogon, AppInit_DLLs and launch redirection".

(** *** Services and drivers *)
Definition is_driver (kind : N) : bool := negb (N.land kind 0x3 =? 0).
(** [["boot", "system", "automatic"][start as usize]], for a start of at most 2 *)
Definition start_name (start : N) : string :=
  if start =? 0 then "boot" else if start =? 1 then "system" else "automatic".
Definition service_scope (account : option text) (kind : N) : PersistenceScope :=
  match account with
  | Some a =>
      if negb (system_principal (Some a)) && negb (same_text a "LocalSystem") && negb (is_driver kind)
      then UserScope else SystemScope
  | None => SystemScope
  end.
Definition service_detail (kind start : N) (account : option text) : string :=
  fmt "{what}, {when} start{}"
    [if is_driver kind then "driver" else "service"; start_name start;
     from_option (λ a, fmt ", runs as {a}" [of_chars a]) "" account]%string.
Definition service_dll (svc : Key) : option text :=
  match open_subkey false svc (lit "Parameters") with
  | Ok params => get_string params (lit "ServiceDll")
  | Err _ => None
  end.
Definition service_entry (scope : PersistenceScope) (location : text) (kind start : N) (account : option text) (cmd : text)
    : WinEntry :=
  mkWinEntry WindowsService scope location (Some cmd) (Some true) (Some (service_detail kind start account)) false.
Definition dll_entry (scope : PersistenceScope) (location : text) (start : N) (dll : text) : WinEntry :=
  mkWinEntry WindowsService scope (location ++ lit "\Parameters\ServiceDll") (Some (expand dll)) (Some true)
    (Some (fmt "service DLL, {when} start" [start_name start])) false.
Definition service (key : Key) (name : text) : M unit :=
  match open_subkey false key name with
  | Err _ => mret tt
  | Ok svc =>
      let start := default u32_max (get_u32 svc (lit "Start")) in
      let kind := default 0 (get_u32 svc (lit "Type")) in
      if 2 <? start then mret tt
      else
        _ ← count_one;
        let account := get_string svc (lit "ObjectName") in
        let scope := service_scope account kind in
        let location := in_hklm SERVICES ++ BACKSLASH ++ name in
        root ← get system_root;
        _ ← match get_string svc (lit "ImagePath") with
            | Some image =>
                collect (record (service_entry scope location kind start account
                                   (normalize_image_path (expand image) root)))
            | None => mret tt
            end;
        match service_dll svc with
        | Some dll => collect (record (dll_entry scope location start dll))
        | None => mret tt
        end
  end.
Definition services : M CheckResult :=
  _ ← new_run;
  _ ← with_key hklm (lit "HKLM") (lit SERVICES)
        (λ key, for_uncancelled (service key) (takeN 20000 (Ebpf.flatten (enum_keys key))));
  finish "persistence.services" "Services and drivers".

(** *** Scheduled tasks *)

(** [PathBuf::push] of a relative path: a separator is added unless the path
    ends in one, is empty or is a drive alone. *)
Definition is_drive (p : text) : bool := match p with [d; c] => (c =? 58) && is_ascii_alphanumeric d && negb (is_ascii_digit d) | _ => false end.
Definition join (p name : text) : text :=
  p ++ (if bool_decide (p = []) || from_option is_slash false (last p) || is_drive p then [] else BACKSLASH) ++ name.

Definition read_file (path : text) : M (option bytes) :=
  match open_file path with
  | Err e => _ ← error path e; mret None
  | Ok f =>
      match read_to_end f MAX_FILE with
      | Ok buf => mret (Some buf)
      | Err e => _ ← error path e; mret None
      end
  end.

(** The loop over the entries of one directory: the directories pushed, last
    on top, and the files. *)
Definition flat_entries (es : list (option DirEntry)) : list DirEntry := omap (λ e, e) es.
Fixpoint task_entries (dir : text) (depth : N) (es : list DirEntry) (stack : list (text * N)) (files : list text)
    : list (text * N) * list text :=
  match es with
  | [] => (stack, files)
  | e :: es =>
      let p := join dir (file_name e) in
      match file_type e with
      | None => task_entries dir depth es stack files
      | Some ft =>
          if bool_decide (ft = IsDir) && (depth <? MAX_DEPTH)
          then task_entries dir depth es ((p, depth + 1) :: stack) files
          else if bool_decide (ft = IsFile) && (vlen files <? MAX_TASK_FILES)
          then task_entries dir depth es stack (files ++ [p])
          else task_entries dir depth es stack files
      end
  end.
(** The loop over the stack. *)
Fixpoint task_walk (fuel : nat) (stack : list (text * N)) (files : list text) : M (option (list text)) :=
  match stack with
  | [] => mret (Some files)
  | (dir, depth) :: stack =>
      match fuel with
      | O => mret None
      | S fuel =>
          match read_dir dir with
          | Err e => _ ← error dir e; task_walk fuel stack files
          | Ok es =>
              let '(stack, files) := task_entries dir depth (flat_entries es) stack files in
              task_walk fuel stack files
          end
      end
  end.
(** How many directories are read below one, counted to the depth limit:
    each takes one round of the loop. *)
Definition subdirs (dir : text) : list text :=
  match read_dir dir with
  | Ok es => omap (λ e, match file_type e with Some IsDir => Some (join dir (file_name e)) | _ => None end) (flat_entries es)
  | Err _ => []
  end.
Fixpoint dir_count (levels : nat) (dir : text) : nat :=
  S (match levels with O => O | S levels => sum_list (dir_count levels <$> subdirs dir) end).

(** One task file. *)
Definition task_command (location : text) (task : Task) (scope : PersistenceScope) (detail : option string)
    (hidden : bool) (cmd : text) : WinEntry :=
  mkWinEntry ScheduledTask scope location (Some (expand cmd)) (Some (WinRules.enabled task)) detail hidden.
Definition task_handler (location : text) (task : Task) (scope : PersistenceScope) (hidden : bool) (clsid : text)
    : WinEntry :=
  mkWinEntry ScheduledTask scope location None (Some (WinRules.enabled task))
    (Some (fmt "COM handler {clsid}" [of_chars clsid])) hidden.
(** The flag is cleared after the first entry. *)
Definition first_hidden {A} (h : bool) (f : bool → A → WinEntry) (xs : list A) : list WinEntry :=
  match xs with [] => [] | x :: xs => f h x :: (f false <$> xs) end.
Definition task_entries_of (location : text) (task : Task) : list WinEntry :=
  let scope := if system_principal (user task) then SystemScope else UserScope in
  let detail := (λ u, fmt "runs as {u}" [of_chars u]) <$> user task in
  first_hidden (hidden task) (task_command location task scope detail) (commands task)
  ++ first_hidden (hidden task && bool_decide (commands task = [])) (task_handler location task scope)
       (com_handlers task).
Definition task_file (path : text) : M unit :=
  b ← read_file path;
  match b with
  | None => mret tt
  | Some b => _ ← count_one; for_each (λ e, collect (record e)) (task_entries_of path (parse_task (decode_text b)))
  end.
Definition tasks : M CheckResult :=
  _ ← new_run;
  root ← get system_root;
  let base := join root (lit "System32\Tasks") in
  files ← task_walk (dir_count (N.to_nat MAX_DEPTH) base) [(base, 0)] [];
  _ ← for_uncancelled task_file (default [] files);
  finish "persistence.scheduled_tasks" "Task Scheduler tasks".

(** *** Startup folders *)
Definition SCRIPTS : list string := ["bat"; "cmd"; "ps1"; "vbs"; "vbe"; "js"; "jse"; "wsf"; "hta"]%string.
Definition startup_line (location line : text) : M unit :=
  collect (report_indicators StartupFolder location line).
Definition extension (e : DirEntry) : text := last_piece (is_char 46) (lower (file_name e)).
Definition startup_entry (scope : PersistenceScope) (location ext : text) : WinEntry :=
  mkWinEntry StartupFolder scope location (if is_lit ext "lnk" then None else Some location) (Some true)
    (Some (if is_lit ext "lnk" then "shortcut (target not resolved)" else fmt ".{ext} file" [of_chars ext])) false.
Definition startup_file (scope : PersistenceScope) (dir : text) (e : DirEntry) : M unit :=
  let location := join dir (file_name e) in
  if is_lit (lower (file_name e)) "desktop.ini" || negb (bool_decide (file_type e = Some IsFile)) then mret tt
  else
    _ ← count_one;
    let ext := extension e in
    _ ← (if among_lits SCRIPTS ext then
           b ← read_file location;
           match b with
           | Some b => for_each (startup_line location) (takeN 2000 (lines (decode_text b)))
           | None => mret tt
           end
         else mret tt);
    collect (record (startup_entry scope location ext)).
Definition startup_dir (d : text * PersistenceScope) : M unit :=
  match read_dir d.1 with
  | Err _ => mret tt
  | Ok es => for_each (startup_file d.2 d.1) (flat_entries es)
  end.
Definition system_drive : text := default (lit "C:") (env (lit "SystemDrive")).
Definition all_users_dirs : list (text * PersistenceScope) :=
  match env (lit "ProgramData") with
  | Some pd => [(join pd (lit "Microsoft\Windows\Start Menu\Programs\StartUp"), UserScope)]
  | None => []
  end.
Definition users_dir : text := system_drive ++ lit "\Users".
Definition user_startup (e : DirEntry) : text * PersistenceScope :=
  (join (join users_dir (file_name e)) (lit "AppData\Roaming\Microsoft\Windows\Start Menu\Programs\Startup"), UserScope).
Definition startup_folders : M CheckResult :=
  _ ← new_run;
  dirs ← match read_dir users_dir with
         | Ok es => mret (user_startup <$> flat_entries es)
         | Err e => _ ← error users_dir e; mret []
         end;
  _ ← for_each startup_dir (all_users_dirs ++ dirs);
  finish "persistence.startup_folders" "Startup folders".

(** *** The run *)
Inductive WinCheckError := OfflineWindows.

Fixpoint run_list (ms : list (M CheckResult)) : M (list CheckResult) :=
  match ms with
  | [] => mret []
  | m :: ms => c ← m; cs ← run_list ms; mret (c :: cs)
  end.

Definition NOT_IMPLEMENTED : string := "not implemented on Windows yet".
Definition UNSUPPORTED : list (string * string) :=
  [("persistence.wmi", "WMI event subscriptions"); ("kernel.drivers", "Loaded driver cross-view");
   ("processes.hidden", "Hidden processes"); ("packages.verify", "Authenticode and catalog verification")]%string.
Definition COVERAGE_WARNING : string :=
  "Windows coverage: Run keys, Winlogon, AppInit_DLLs, Image File Execution Options, services, scheduled tasks and Startup folders. WMI subscriptions, COM hijacks, drivers, hidden processes and file signatures are not checked yet.".

Definition live_root (root : text) : bool :=
  existsb (λ r, bool_decide (lower root = lower r))
    [lit "/"; BACKSLASH; system_drive ++ BACKSLASH; system_drive ++ lit "/"; system_drive].
Definition root_of_system : text := default (system_drive ++ lit "\Windows") (env (lit "SystemRoot")).
Definition windows_version : option string :=
  match open_subkey false hklm (lit "SOFTWARE\Microsoft\Windows NT\CurrentVersion") with
  | Ok k =>
      let s n := of_chars (default [] (get_string k (lit n))) in
      Some (fmt "{} build {}" [s "ProductName"%string; s "CurrentBuild"%string])
  | Err _ => None
  end.
Definition windows_host : HostInfo :=
  mkHost "windows" windows_version (of_chars <$> env (lit "COMPUTERNAME")) (observed (system_drive ++ BACKSLASH)) true None.

Definition checks : list (M CheckResult) := [run_keys; winlogon; services; tasks; startup_folders].
Definition start_state : State := mkState no_findings [] root_of_system 0 0 0 [].

Definition run_checks (opts : SystemChecks.SystemCheckOptions) : result WinCheckError SystemChecks.SystemCheckOutcome :=
  if negb (live_root (chars (SystemChecks.opt_root opts))) then Err OfflineWindows
  else
    let '(cs, s) := run_list checks start_state in
    Ok (SystemChecks.mkOutcome windows_host
          (cs ++ ((λ '(id, title), Ctx.skipped id title Unsupported NOT_IMPLEMENTED) <$> UNSUPPORTED))
          (findings (col s)) (persistence (col s)) (issues s)
          [SystemChecks.LIMITS_WARNING; COVERAGE_WARNING]).
End WithHost.
End WinChecks.
