(* ===== verification/WinLaws.v ===== *)
(** * System checks on Windows: what they promise

    A task file in the layout of the task scheduler is read as it was written
    ([TaskProps]); a recorded
    entry is listed with exactly the findings it deserves ([CollectorProps]);
    the walk over the task files ends and reads every file ([WalkProps]);
    what the places that start programs name, where they can be opened, is
    listed ([InventoryProps]). *)

From S2P Require Import Prelude Utf8 Paths Core External AuditLog Remediation Heuristics Chars SystemFs SystemCtx Persistence SystemLive Packages SystemChecks WinRules WinChecks.

(** ** Texts *)
Module WinText.
Import WinRules.

(** The loops do not depend on their fuel once there is a round for every
    character. *)
Lemma split_at_shorter f l a b : split_at f l = Some (a, b) → (length b < length l)%nat.
Proof. intros (c & -> & _)%split_at_Some. rewrite length_app. simpl. lia. Qed.

Lemma break_at_lengths f l a b : break_at f l = Some (a, b) → (length b ≤ length l)%nat ∧ (0 < length b)%nat.
Proof.
  revert a b. induction l as [|x l IH]; intros a b; simpl; [done|]. destruct (f x).
  - intros [= <- <-]. simpl. lia.
  - intros ([a' b'] & E & [= <- <-])%bind_Some. destruct (IH _ _ E). lia.
Qed.

Lemma split_text_Some p l a b : split_text p l = Some (a, b) → l = a ++ p ++ b.
Proof.
  assert (∀ l b, Anchors.list_starts_with p l = true → drop (length p) l = b → l = p ++ b) as Hp.
  { intros l' b' [r ->]%list_starts_with_inv <-. by rewrite drop_app_length. }
  revert a b. induction l as [|x l IH]; intros a b; cbn [split_text]; destruct (Anchors.list_starts_with p _) eqn:E.
  - intros [= <- H]. by apply Hp.
  - done.
  - intros [= <- H]. by apply Hp.
  - intros ([a' b'] & H & [= <- <-])%bind_Some. cbn [app]. f_equal. by apply IH.
Qed.

Lemma split_text_starts p l : Anchors.list_starts_with p l = true → split_text p l = Some ([], drop (length p) l).
Proof. destruct l; cbn [split_text]; by intros ->. Qed.

Lemma split_text_here p l : split_text p (p ++ l) = Some ([], l).
Proof. by rewrite split_text_starts, drop_app_length by apply list_starts_with_app. Qed.

Lemma split_text_shorter p l a b : split_text p l = Some (a, b) → (length a + length p + length b = length l)%nat.
Proof. intros ->%split_text_Some. rewrite !length_app. lia. Qed.

Lemma elements_fuel fuel fuel' n tag l :
  (length l < fuel)%nat → (length l < fuel')%nat → elements_go fuel n tag l = elements_go fuel' n tag l.
Proof.
  revert fuel' n l. induction fuel as [|fuel IH]; intros [|fuel'] n l H H'; try lia. simpl.
  destruct (split_text (open_tag tag) l) as [[a after]|] eqn:E; [|done]. apply split_text_shorter in E. simpl in E.
  destruct (tag_ends after); simpl; [|apply IH; lia].
  destruct (split_at _ after) as [[attributes body]|] eqn:Eg; [|done]. apply split_at_shorter in Eg.
  destruct (ends attributes "/"); [f_equal; apply IH; lia|].
  destruct (split_text (close_tag tag) body) as [[content rest]|] eqn:Ec; [|done]. apply split_text_shorter in Ec.
  f_equal. destruct (MAX_ELEMENTS <=? n + 1); [done|]. apply IH; lia.
Qed.

Lemma unescape_fuel fuel fuel' l :
  (length l < fuel)%nat → (length l < fuel')%nat → unescape_go fuel l = unescape_go fuel' l.
Proof.
  revert fuel' l. induction fuel as [|fuel IH]; intros [|fuel'] l H H'; try lia. simpl.
  destruct (break_at _ l) as [[before after]|] eqn:E; [|done]. apply break_at_lengths in E as [E E'].
  assert (length (drop 1 after) < length after)%nat as Hd by (rewrite length_drop; lia).
  f_equal. destruct (split_at _ after) as [[ent rest]|] eqn:Es; [apply split_at_shorter in Es; destruct (_ <=? 10)|].
  - f_equal. apply IH; lia.
  - f_equal. apply IH; lia.
  - f_equal. apply IH; lia.
Qed.

Lemma expand_fuel fuel fuel' lookup l :
  (length l < fuel)%nat → (length l < fuel')%nat → expand_go fuel lookup l = expand_go fuel' lookup l.
Proof.
  revert fuel' l. induction fuel as [|fuel IH]; intros [|fuel'] l H H'; try lia. simpl.
  destruct (split_at _ l) as [[before after]|] eqn:E; [|done]. apply split_at_shorter in E. f_equal.
  destruct (split_at _ after) as [[name rest]|] eqn:Es; [apply split_at_shorter in Es; destruct (_ && _)|].
  - f_equal. apply IH; lia.
  - f_equal. apply IH; lia.
  - f_equal. apply IH; lia.
Qed.
End WinText.

(** ** Task files *)

(** What a writer of task files does: text with the five entities, elements
    around it, and one of three encodings of the file. *)
Module TaskXml.

Definition escape_char (c : N) : text :=
  if c =? 38 then lit "&amp;" else if c =? 60 then lit "&lt;" else if c =? 62 then lit "&gt;"
  else if c =? 34 then lit "&quot;" else if c =? 39 then lit "&apos;" else [c].
Definition escape (l : text) : text := l ≫= escape_char.

(** A tag, and an element with the attributes of its tag. *)
Definition tag (t : text) : text := 60 :: t ++ [62].
Definition element (name : string) (attributes content : text) : text :=
  tag (lit name ++ attributes) ++ content ++ tag (lit "/" ++ lit name).
Definition leaf (name : string) (l : text) : text := element name [] (escape l).

(** A task, and how its file is laid out: the text between two tags at each
    depth, a line break and an indentation for instance. *)
Record TaskDef := mkDef {
  actions : list (text * text); handlers : list text; active : bool; invisible : bool; account : option text;
  description : text; gap : nat → text }.

Definition quoted (s : string) : text := [34] ++ lit s ++ [34].
Definition bool_text (b : bool) : text := lit (if b then "true" else "false").
Definition action_content (g : nat → text) (a : text * text) : text :=
  g 4%nat ++ leaf "Command" a.1 ++ g 4%nat ++ leaf "Arguments" a.2 ++ g 3%nat.
Definition action_xml (g : nat → text) (a : text * text) : text := g 2%nat ++ element "Exec" [] (action_content g a).
Definition handler_content (g : nat → text) (h : text) : text := g 4%nat ++ leaf "ClassId" h ++ g 3%nat.
Definition handler_xml (g : nat → text) (h : text) : text := g 2%nat ++ element "ComHandler" [] (handler_content g h).
Definition settings_content (d : TaskDef) : text :=
  let g := gap d in
  g 2%nat ++ leaf "AllowHardTerminate" (lit "true") ++ g 2%nat ++ leaf "Enabled" (bool_text (active d))
  ++ g 2%nat ++ leaf "Hidden" (bool_text (invisible d)) ++ g 2%nat ++ leaf "ExecutionTimeLimit" (lit "PT72H") ++ g 1%nat.
Definition principal_content (d : TaskDef) : text :=
  gap d 3%nat ++ from_option (leaf "UserId") [] (account d) ++ gap d 2%nat.
Definition trigger_content (g : nat → text) : text := g 3%nat ++ leaf "Enabled" (lit "true") ++ g 2%nat.
Definition registration_content (d : TaskDef) : text :=
  gap d 2%nat ++ leaf "Description" (description d) ++ gap d 1%nat.
Definition task_xml (d : TaskDef) : text :=
  let g := gap d in
  tag (lit "?xml version=" ++ quoted "1.0" ++ lit "?") ++ g 0%nat ++ tag (lit "Task version=" ++ quoted "1.2")
  ++ g 1%nat ++ element "RegistrationInfo" [] (registration_content d)
  ++ g 1%nat ++ tag (lit "Triggers") ++ g 2%nat ++ element "LogonTrigger" [] (trigger_content g)
  ++ g 1%nat ++ tag (lit "/Triggers") ++ g 1%nat ++ tag (lit "Principals")
  ++ g 2%nat ++ element "Principal" (lit " id=" ++ quoted "Author") (principal_content d)
  ++ g 1%nat ++ tag (lit "/Principals") ++ g 1%nat ++ element "Settings" [] (settings_content d)
  ++ g 1%nat ++ tag (lit "Actions Context=" ++ quoted "Author") ++ (actions d ≫= action_xml g)
  ++ (handlers d ≫= handler_xml g) ++ g 1%nat ++ tag (lit "/Actions") ++ g 0%nat ++ tag (lit "/Task") ++ g 0%nat.

Inductive Encoding := Utf16LE | Utf16BE | Utf8Bom.
Definition encode_utf16 (c : N) : list N :=
  if c <? 0x10000 then [c] else [0xD800 + (c - 0x10000) / 0x400; 0xDC00 + (c - 0x10000) mod 0x400].
Definition unit_octets (big_endian : bool) (u : N) : bytes :=
  if big_endian then [u / 256; u mod 256] else [u mod 256; u / 256].
Definition encode_file (e : Encoding) (l : text) : bytes :=
  match e with
  | Utf16LE => [0xFF; 0xFE] ++ ((l ≫= encode_utf16) ≫= unit_octets false)
  | Utf16BE => [0xFE; 0xFF] ++ ((l ≫= encode_utf16) ≫= unit_octets true)
  | Utf8Bom => [0xEF; 0xBB; 0xBF] ++ encode l
  end.

(** Texts that survive: characters, without white space at the ends. Between
    the tags there is no other markup, and no more than 64 actions of a kind. *)
Definition plain (l : text) : Prop := Forall is_scalar l ∧ trimmed l.
Record wf (d : TaskDef) : Prop := {
  wf_actions : Forall (λ a, plain a.1 ∧ plain a.2) (actions d);
  wf_handlers : Forall plain (handlers d);
  wf_account : from_option plain True (account d);
  wf_description : Forall is_scalar (description d);
  wf_gap : ∀ k, Forall (λ c, is_scalar c ∧ c ≠ 60) (gap d k);
  wf_action_count : (length (actions d) ≤ 64)%nat;
  wf_handler_count : (length (handlers d) ≤ 64)%nat }.

(** The command line of an action, and the task as it is read. *)
Definition command_line (a : text * text) : text := if bool_decide (a.2 = []) then a.1 else a.1 ++ [32] ++ a.2.
Definition task_of (d : TaskDef) : WinRules.Task :=
  WinRules.mkTask (command_line <$> actions d) (handlers d) (active d) (invisible d) (account d).
End TaskXml.

Module TaskProps.
Import WinRules WinText TaskXml.

(** *** Entities *)
Definition unescape_from (l : text) : text := unescape_go (S (length l)) l.

Lemma unescape_eq l :
  unescape_from l =
  match break_at (is_char AMP) l with
  | None => l
  | Some (before, after) =>
      before ++
      match split_at (is_char 59) after with
      | Some (amp_ent, rest) =>
          if vlen (encode amp_ent) <=? 10
          then match entity (drop 1 amp_ent) with Some c => [c] | None => amp_ent ++ [59] end ++ unescape_from rest
          else AMP :: unescape_from (drop 1 after)
      | None => AMP :: unescape_from (drop 1 after)
      end
  end.
Proof.
  unfold unescape_from at 1. cbn [unescape_go]. destruct (break_at _ l) as [[before after]|] eqn:E; [|done].
  apply break_at_lengths in E as [E E'].
  assert (length (drop 1 after) < length after)%nat as Hd by (rewrite length_drop; lia).
  destruct (split_at _ after) as [[ent rest]|] eqn:Es; [apply split_at_shorter in Es; destruct (_ <=? 10)|];
    do 2 f_equal; apply unescape_fuel; simpl; lia.
Qed.

Lemma unescape_plain c l : c ≠ AMP → unescape_from (c :: l) = c :: unescape_from l.
Proof.
  intros Hc. rewrite (unescape_eq (c :: l)), (unescape_eq l). cbn [break_at]. unfold is_char at 1.
  rewrite (proj2 (N.eqb_neq _ _) Hc). by destruct (break_at (is_char AMP) l) as [[before after]|].
Qed.

Lemma unescape_entity ent c l :
  Forall (λ x, is_char 59 x = false) ent → (vlen (encode (AMP :: ent)) <=? 10) = true → entity ent = Some c →
  unescape_from (AMP :: ent ++ 59 :: l) = c :: unescape_from l.
Proof.
  intros He Hl Hc. rewrite unescape_eq. cbn [break_at]. change (is_char AMP AMP) with true. cbn iota beta.
  change (AMP :: ent ++ 59 :: l) with ((AMP :: ent) ++ 59 :: l).
  rewrite split_at_app by (done || by constructor). cbn iota beta. rewrite Hl. change (drop 1 (AMP :: ent)) with ent. by rewrite Hc.
Qed.

Lemma escape_cons c l : escape (c :: l) = escape_char c ++ escape l.
Proof. done. Qed.

Lemma unescape_escape_char c l : unescape_from (escape_char c ++ l) = c :: unescape_from l.
Proof.
  unfold escape_char. destruct (N.eqb_spec c 38) as [->|H1].
  { apply (unescape_entity (lit "amp") 38); [vm_compute; repeat constructor|by vm_compute|by vm_compute]. }
  destruct (N.eqb_spec c 60) as [->|H2].
  { apply (unescape_entity (lit "lt") 60); [vm_compute; repeat constructor|by vm_compute|by vm_compute]. }
  destruct (N.eqb_spec c 62) as [->|H3].
  { apply (unescape_entity (lit "gt") 62); [vm_compute; repeat constructor|by vm_compute|by vm_compute]. }
  destruct (N.eqb_spec c 34) as [->|H4].
  { apply (unescape_entity (lit "quot") 34); [vm_compute; repeat constructor|by vm_compute|by vm_compute]. }
  destruct (N.eqb_spec c 39) as [->|H5].
  { apply (unescape_entity (lit "apos") 39); [vm_compute; repeat constructor|by vm_compute|by vm_compute]. }
  by apply unescape_plain.
Qed.

Lemma unescape_from_escape l : unescape_from (escape l) = l.
Proof. induction l as [|c l IH]; [done|]. by rewrite escape_cons, unescape_escape_char, IH. Qed.

Lemma escape_char_ends c : ∃ a b r, escape_char c = a :: r ∧ last (escape_char c) = Some b ∧
  (is_whitespace a = true → is_whitespace c = true) ∧ (is_whitespace b = true → is_whitespace c = true).
Proof.
  unfold escape_char. repeat (case_match; [eexists _, _, _; split_and!; [reflexivity|reflexivity|discriminate..]|]).
  eexists _, _, _. split_and!; [reflexivity|reflexivity|done..].
Qed.

Lemma escape_trimmed l : trimmed l → trimmed (escape l).
Proof.
  intros [Hh Ht]. split; intros x.
  - destruct l as [|c l]; [done|]. rewrite escape_cons. destruct (escape_char_ends c) as (a & b & r & -> & _ & Ha & _).
    intros [= <-]. specialize (Hh c eq_refl). destruct (is_whitespace a); [|done]. by rewrite Ha in Hh.
  - destruct l as [|c l _] using rev_ind; [done|]. unfold escape. rewrite bind_app. csimpl. rewrite app_nil_r.
    destruct (escape_char_ends c) as (a & b & r & _ & Hl & _ & Hb). rewrite last_app, Hl. intros [= <-].
    specialize (Ht c). rewrite last_snoc in Ht. specialize (Ht eq_refl).
    destruct (is_whitespace b); [|done]. by rewrite Hb in Ht.
Qed.

Lemma unescape_escape l : trimmed l → unescape (escape l) = l.
Proof. intros H. unfold unescape. rewrite trim_id by by apply escape_trimmed. apply unescape_from_escape. Qed.

(** *** Elements *)
Definition elements_from (n : N) (name : string) (l : text) : list text := elements_go (S (length l)) n name l.

Lemma elements_eq n name l :
  elements_from n name l =
  match split_text (open_tag name) l with
  | None => []
  | Some (_, after) =>
      if negb (tag_ends after) then elements_from n name after
      else match split_at (is_char 62) after with
           | None => []
           | Some (attributes, body) =>
               if ends attributes "/" then [] :: elements_from (n + 1) name body
               else match split_text (close_tag name) body with
                    | None => []
                    | Some (content, rest) =>
                        content :: (if MAX_ELEMENTS <=? n + 1 then [] else elements_from (n + 1) name rest)
                    end
           end
  end.
Proof.
  unfold elements_from at 1. cbn [elements_go].
  destruct (split_text (open_tag name) l) as [[a after]|] eqn:E; [|done]. apply split_text_shorter in E. simpl in E.
  destruct (tag_ends after); simpl; [|apply elements_fuel; lia].
  destruct (split_at _ after) as [[attributes body]|] eqn:Eg; [|done]. apply split_at_shorter in Eg.
  destruct (ends attributes "/"); [f_equal; apply elements_fuel; lia|].
  destruct (split_text (close_tag name) body) as [[content rest]|] eqn:Ec; [|done]. apply split_text_shorter in Ec.
  f_equal. destruct (MAX_ELEMENTS <=? n + 1); [done|]. apply elements_fuel; lia.
Qed.

Lemma elements_start l name : elements l name = elements_from 0 name l.
Proof. done. Qed.

Definition no_tags (l : text) : Prop := Forall (λ c, c ≠ 60) l.

(** A piece of markup in which a search does not stop. *)
Definition skips (p a : text) : Prop := ∀ r,
  split_text p (a ++ r) = '(x, b) ← split_text p r; Some (a ++ x, b).
Definition passes (name : string) (a : text) : Prop := ∀ n r,
  elements_from n name (a ++ r) = elements_from n name r.

Lemma skips_nil p : skips p [].
Proof. intros r. cbn. by destruct (split_text p r) as [[x b]|]. Qed.

Lemma skips_app p a b : skips p a → skips p b → skips p (a ++ b).
Proof.
  intros Ha Hb r. rewrite <-app_assoc, Ha, Hb. destruct (split_text p r) as [[x y]|]; cbn; [|done].
  by rewrite app_assoc.
Qed.

Lemma skips_text q a : no_tags a → skips (60 :: q) a.
Proof.
  induction 1 as [|c a Hc _ IH]; [apply skips_nil|]. intros r. cbn [app split_text Anchors.list_starts_with].
  rewrite (proj2 (N.eqb_neq 60 c)) by done. cbn. rewrite IH. by destruct (split_text (60 :: q) r) as [[x b]|].
Qed.

Lemma passes_nil name : passes name [].
Proof. done. Qed.

Lemma passes_app name a b : passes name a → passes name b → passes name (a ++ b).
Proof. intros Ha Hb n r. by rewrite <-app_assoc, Ha, Hb. Qed.

Lemma passes_bind {A} name (f : A → text) l : (∀ x, passes name (f x)) → passes name (l ≫= f).
Proof. intros Hf. induction l as [|x l IH]; csimpl; [apply passes_nil|by apply passes_app]. Qed.

Lemma skips_passes name a : skips (open_tag name) a → passes name a.
Proof.
  intros H n r. rewrite (elements_eq n name (a ++ r)), (elements_eq n name r), H.
  by destruct (split_text (open_tag name) r) as [[x b]|].
Qed.

Lemma passes_text name a : no_tags a → passes name a.
Proof. intros H. by apply skips_passes, skips_text. Qed.

(** A search for [q] that does not match before the end of a tag does not
    match across it. *)
Lemma starts_in_tag q t r :
  Forall (λ c, c ≠ 62) q → Anchors.list_starts_with q (t ++ 62 :: r) = Anchors.list_starts_with q (t ++ [62]).
Proof.
  intros Hq. revert t. induction Hq as [|c q Hc _ IH]; intros [|x t]; simpl; [done..| |by rewrite IH].
  by rewrite (proj2 (N.eqb_neq c 62)).
Qed.

Lemma no_tags_tag t : no_tags t → no_tags (t ++ [62]).
Proof. intros H. apply Forall_app. split; [done|by repeat constructor]. Qed.

Lemma skips_tag q t : no_tags t →
  (∀ r, Anchors.list_starts_with q (t ++ 62 :: r) = false) → skips (60 :: q) (tag t).
Proof.
  intros Ht Hn r. unfold tag.
  change ((60 :: t ++ [62]) ++ r) with (60 :: ((t ++ [62]) ++ r)). cbn [split_text Anchors.list_starts_with].
  rewrite <-app_assoc. cbn [app]. rewrite Hn. cbn [andb].
  change (t ++ 62 :: r) with (t ++ [62] ++ r). rewrite app_assoc, (skips_text q _ (no_tags_tag t Ht)).
  by destruct (split_text (60 :: q) r) as [[x b]|].
Qed.

Lemma passes_other name t : Forall (λ c, c ≠ 62) (lit name) → no_tags t →
  starts (t ++ [62]) name = false → passes name (tag t).
Proof. intros Hq Ht Hn. apply skips_passes, skips_tag; [done|]. intros r. by rewrite starts_in_tag. Qed.

Lemma passes_longer name t : Forall (λ c, c ≠ 62) (lit name) → no_tags t →
  starts (t ++ [62]) name = true → tag_ends (drop (length (lit name)) (t ++ [62])) = false → passes name (tag t).
Proof.
  intros Hq Ht Hs He n r. unfold tag.
  assert (Anchors.list_starts_with (lit name) (t ++ 62 :: r) = true) as Hs' by by rewrite starts_in_tag.
  change ((60 :: t ++ [62]) ++ r) with (60 :: ((t ++ [62]) ++ r)).
  rewrite elements_eq. cbn [split_text open_tag Anchors.list_starts_with]. rewrite <-app_assoc. cbn [app].
  rewrite Hs'. cbn [N.eqb Pos.eqb andb length drop].
  unfold starts in Hs. apply list_starts_with_inv in Hs as [d Hd]. rewrite Hd, drop_app_length in He.
  change (drop (length (open_tag name)) (60 :: t ++ 62 :: r)) with (drop (length (lit name)) (t ++ [62] ++ r)).
  rewrite (app_assoc t), Hd, <-app_assoc, drop_app_length.
  assert (tag_ends (d ++ r) = false) as ->.
  { destruct d as [|c d]; [|exact He]. rewrite app_nil_r in Hd. rewrite <-Hd in Hq.
    apply Forall_app in Hq as [_ Hq]. by inversion Hq. }
  cbn [negb]. apply passes_text.
  assert (no_tags (lit name ++ d)) as [_ H]%Forall_app; [|done].
  rewrite <-Hd. by apply no_tags_tag.
Qed.

(** The end of a tag is found only in the same tag. *)
Lemma starts_closed q t r :
  Forall (λ c, c ≠ 62) q → Forall (λ c, c ≠ 62) t → q ≠ t →
  Anchors.list_starts_with (q ++ [62]) (t ++ 62 :: r) = false.
Proof.
  intros Hq. revert t. induction Hq as [|c q Hc _ IH]; intros [|x t] Ht Hn; cbn [app Anchors.list_starts_with]; [done|..].
  - by rewrite (proj2 (N.eqb_neq 62 x)) by (inversion Ht; congruence).
  - by rewrite (proj2 (N.eqb_neq c 62)).
  - destruct (N.eqb_spec c x) as [->|]; [|done]. simpl. apply IH; [by inversion Ht|congruence].
Qed.

Lemma close_tag_tag name : close_tag name = tag (lit "/" ++ lit name).
Proof. done. Qed.

Definition bare (l : text) : Prop := Forall (λ c, c ≠ 60 ∧ c ≠ 62) l.
Lemma bare_no_tags l : bare l → no_tags l.
Proof. intros H. eapply Forall_impl; [exact H|naive_solver]. Qed.
Lemma bare_no_ends l : bare l → Forall (λ c, c ≠ 62) l.
Proof. intros H. eapply Forall_impl; [exact H|naive_solver]. Qed.

Lemma closes_tag name t : bare (lit name) → bare t → lit "/" ++ lit name ≠ t → skips (close_tag name) (tag t).
Proof.
  intros Hq Ht Hn. apply skips_tag; [by apply bare_no_tags|]. intros r. apply (starts_closed (lit "/" ++ lit name)).
  - apply Forall_app. split; [by repeat constructor|by apply bare_no_ends].
  - by apply bare_no_ends.
  - done.
Qed.

Lemma closes_text name a : no_tags a → skips (close_tag name) a.
Proof. apply skips_text. Qed.

(** The attributes that a start tag may have here. *)
Record attributes_ok (name : string) (attributes : text) : Prop := {
  at_bare : bare (lit name ++ attributes);
  at_begin : tag_ends (attributes ++ [62]) = true;
  at_end : ends attributes "/" = false }.

Lemma elements_take name attributes content n r :
  attributes_ok name attributes → skips (close_tag name) content →
  elements_from n name (element name attributes content ++ r)
  = content :: (if MAX_ELEMENTS <=? n + 1 then [] else elements_from (n + 1) name r).
Proof.
  intros [Hb Hs He] Hc. apply Forall_app in Hb as [Hn Ha].
  rewrite elements_eq. unfold element, tag at 1.
  replace (((60 :: (lit name ++ attributes) ++ [62]) ++ content ++ tag (lit "/" ++ lit name)) ++ r)
    with (open_tag name ++ attributes ++ 62 :: content ++ close_tag name ++ r).
  2: { rewrite close_tag_tag. unfold open_tag. cbn [app]. by rewrite <-!app_assoc. }
  rewrite split_text_here. cbn iota beta.
  assert (tag_ends (attributes ++ 62 :: content ++ close_tag name ++ r) = true) as ->.
  { by destruct attributes. }
  cbn [negb]. rewrite split_at_app; [|by eapply Forall_impl; [exact Ha|intros x [_ Hx]; by apply N.eqb_neq]|done].
  rewrite He, Hc, split_text_here. cbn. by rewrite app_nil_r.
Qed.

Lemma elements_list {A} name pre attributes (f : A → text) l n r :
  passes name pre → attributes_ok name attributes → (∀ x, x ∈ l → skips (close_tag name) (f x)) →
  (∀ n, elements_from n name r = []) → n + vlen l <= MAX_ELEMENTS →
  elements_from n name ((l ≫= λ x, pre ++ element name attributes (f x)) ++ r) = f <$> l.
Proof.
  intros Hp Ha Hf Hr. revert n. induction l as [|x l IH]; intros n Hn; [apply Hr|].
  rewrite bind_cons, <-!app_assoc, Hp, elements_take by (done || apply Hf; by left). cbn [fmap list_fmap]. f_equal.
  unfold vlen in Hn. simpl in Hn. destruct (N.leb_spec MAX_ELEMENTS (n + 1)).
  - destruct l as [|y l]; [done|]. simpl in Hn. lia.
  - apply IH; [|unfold vlen; lia]. intros y Hy. apply Hf. by right.
Qed.

Lemma passes_rest name a n : passes name a → elements_from n name a = [].
Proof. intros H. by rewrite <-(app_nil_r a), H. Qed.

Lemma no_tags_escape l : no_tags (escape l).
Proof.
  unfold escape. induction l as [|c l IH]; csimpl; [constructor|]. apply Forall_app. split; [|done].
  unfold escape_char. repeat (case_match; [apply (bool_decide_unpack _); by vm_compute|]).
  constructor; [|constructor]. intros ->. discriminate.
Qed.

Lemma passes_leaf name l : passes name (escape l).
Proof. apply passes_text, no_tags_escape. Qed.
Lemma closes_leaf name l : skips (close_tag name) (escape l).
Proof. apply closes_text, no_tags_escape. Qed.

(** Facts about the literal tags are decided. *)
Ltac literally := apply (bool_decide_unpack _); vm_compute; exact I.
Ltac markup :=
  unfold leaf, element;
  repeat first
    [ apply passes_nil | apply passes_leaf | apply skips_nil | apply closes_leaf
    | apply passes_app | apply skips_app | apply passes_bind; intros
    | match goal with H : ∀ k, no_tags (?g k) |- passes _ (?g _) => apply passes_text, H end
    | match goal with H : ∀ k, no_tags (?g k) |- skips _ (?g _) => apply closes_text, H end
    | solve [apply passes_other; [literally|literally|vm_compute; reflexivity]]
    | solve [apply passes_longer; [literally|literally|vm_compute; reflexivity|vm_compute; reflexivity]]
    | solve [apply closes_tag; [literally|literally|vm_compute; discriminate]] ].
Ltac attributes := split; [literally|vm_compute; reflexivity|vm_compute; reflexivity].

(** Go over the pieces before an element, or over all that is left. *)
Ltac go_over :=
  repeat match goal with
  | |- context [elements_from ?n ?name (?a ++ ?r)] =>
      let H := fresh in assert (passes name a) as H by (markup; fail); rewrite (H n r); clear H
  end.
Ltac well_formed := match goal with |- attributes_ok _ _ => attributes | _ => markup end.
Ltac rest_empty := apply passes_rest; markup.

Lemma settings_enabled d : (∀ k, no_tags (gap d k)) →
  first_element (settings_content d) "Enabled" = Some (bool_text (active d)).
Proof.
  intros Hg. unfold first_element, settings_content. rewrite elements_start. go_over.
  unfold leaf at 1. rewrite elements_take by well_formed. cbn [head fmap option_fmap option_map].
  by rewrite unescape_escape by (destruct (active d); apply no_space_trimmed; literally).
Qed.

Lemma settings_hidden d : (∀ k, no_tags (gap d k)) →
  first_element (settings_content d) "Hidden" = Some (bool_text (invisible d)).
Proof.
  intros Hg. unfold first_element, settings_content. rewrite elements_start. go_over.
  unfold leaf at 1. rewrite elements_take by well_formed. cbn [head fmap option_fmap option_map].
  by rewrite unescape_escape by (destruct (invisible d); apply no_space_trimmed; literally).
Qed.

Lemma principal_user d : (∀ k, no_tags (gap d k)) → from_option trimmed True (account d) →
  match first_element (principal_content d) "UserId" with
  | Some u => Some u | None => first_element (principal_content d) "GroupId"
  end = account d.
Proof.
  intros Hg. unfold principal_content, first_element. rewrite !elements_start.
  destruct (account d) as [u|]; cbn [from_option]; intros Hu.
  - go_over. unfold leaf. rewrite elements_take by well_formed.
    cbn [head fmap option_fmap option_map]. by rewrite unescape_escape.
  - go_over. by rewrite !(passes_rest _ (gap d 2)) by markup.
Qed.

Lemma action_read g a : (∀ k, no_tags (g k)) → trimmed a.1 → trimmed a.2 →
  exec_command (action_content g a) = Some (command_line a).
Proof.
  intros Hg H1 H2. unfold exec_command, first_element, action_content. rewrite !elements_start.
  go_over. unfold leaf. rewrite !elements_take by well_formed.
  cbn [head fmap option_fmap option_map mbind option_bind default]. by rewrite !unescape_escape.
Qed.

Lemma handler_read g h : (∀ k, no_tags (g k)) → trimmed h → first_element (handler_content g h) "ClassId" = Some h.
Proof.
  intros Hg H. unfold first_element, handler_content. rewrite elements_start. go_over.
  unfold leaf. rewrite elements_take by well_formed.
  cbn [head fmap option_fmap option_map]. by rewrite unescape_escape.
Qed.

Lemma closes_principal d : (∀ k, no_tags (gap d k)) → skips (close_tag "Principal") (principal_content d).
Proof. intros Hg. unfold principal_content. destruct (account d); cbn [from_option]; markup. Qed.

Lemma passes_principal name d : (∀ k, no_tags (gap d k)) →
  passes name (tag (lit "UserId" ++ [])) → passes name (tag (lit "/" ++ lit "UserId")) →
  passes name (principal_content d).
Proof.
  intros Hg H H'. unfold principal_content. apply passes_app; [by apply passes_text|].
  apply passes_app; [|by apply passes_text]. destruct (account d); cbn [from_option]; [|apply passes_nil].
  unfold leaf, element. apply passes_app; [exact H|]. apply passes_app; [apply passes_leaf|exact H'].
Qed.

Lemma xml_settings d : (∀ k, no_tags (gap d k)) → elements (task_xml d) "Settings" = [settings_content d].
Proof.
  intros Hg. rewrite elements_start. unfold task_xml, registration_content, trigger_content. unfold element at 1 2 3.
  cbv zeta. rewrite <-!app_assoc.
  assert (passes "Settings" (principal_content d)) as Hp by (apply passes_principal; [exact Hg|markup|markup]).
  repeat (first [rewrite Hp | progress go_over]). rewrite elements_take by (unfold settings_content; well_formed).
  change (MAX_ELEMENTS <=? 0 + 1) with false. cbn iota. f_equal.
  unfold action_xml, handler_xml, action_content, handler_content. rest_empty.
Qed.

Lemma xml_principal d : (∀ k, no_tags (gap d k)) → head (elements (task_xml d) "Principal") = Some (principal_content d).
Proof.
  intros Hg. rewrite elements_start. unfold task_xml, registration_content, trigger_content. cbv zeta. go_over.
  by rewrite elements_take by (by apply closes_principal || attributes).
Qed.

Lemma xml_actions d : (∀ k, no_tags (gap d k)) → (length (actions d) ≤ 64)%nat →
  elements (task_xml d) "Exec" = action_content (gap d) <$> actions d.
Proof.
  intros Hg Hl. rewrite elements_start. unfold task_xml, registration_content, trigger_content. unfold element at 1 2 3 4.
  cbv zeta. rewrite <-!app_assoc.
  assert (passes "Exec" (principal_content d)) as Hp by (apply passes_principal; [exact Hg|markup|markup]).
  assert (passes "Exec" (settings_content d)) as Hs by (unfold settings_content; markup).
  repeat (first [rewrite Hp | rewrite Hs | progress go_over]).
  apply (elements_list "Exec" (gap d 2) [] (action_content (gap d)));
    [markup|attributes| | |unfold vlen, MAX_ELEMENTS; lia].
  - intros a _. unfold action_content. markup.
  - intros n. unfold handler_xml, handler_content. rest_empty.
Qed.

Lemma xml_handlers d : (∀ k, no_tags (gap d k)) → (length (handlers d) ≤ 64)%nat →
  elements (task_xml d) "ComHandler" = handler_content (gap d) <$> handlers d.
Proof.
  intros Hg Hl. rewrite elements_start. unfold task_xml, registration_content, trigger_content. unfold element at 1 2 3 4.
  cbv zeta. rewrite <-!app_assoc.
  assert (passes "ComHandler" (principal_content d)) as Hp by (apply passes_principal; [exact Hg|markup|markup]).
  assert (passes "ComHandler" (settings_content d)) as Hs by (unfold settings_content; markup).
  assert (passes "ComHandler" (actions d ≫= action_xml (gap d))) as Ha by (unfold action_xml, action_content; markup).
  repeat (first [rewrite Hp | rewrite Hs | rewrite Ha | progress go_over]).
  apply (elements_list "ComHandler" (gap d 2) [] (handler_content (gap d)));
    [markup|attributes| | |unfold vlen, MAX_ELEMENTS; lia].
  - intros h _. unfold handler_content. markup.
  - intros n. rest_empty.
Qed.

Lemma omap_fmap_some {A B C} (f : B → option C) (g : A → B) (h : A → C) (l : list A) :
  (∀ x, x ∈ l → f (g x) = Some (h x)) → omap f (g <$> l) = h <$> l.
Proof.
  induction l as [|x l IH]; intros H; csimpl; [done|]. rewrite (H x) by left. f_equal. apply IH. intros y Hy. apply H. by right.
Qed.

Lemma parse_task_xml d : wf d → parse_task (task_xml d) = task_of d.
Proof.
  intros [Ha Hh Hu _ Hg' Hna Hnh].
  assert (∀ k, no_tags (gap d k)) as Hg by (intros k; eapply Forall_impl; [exact (Hg' k)|by intros ? []]).
  unfold parse_task, task_of.
  rewrite xml_settings, xml_principal, xml_actions, xml_handlers by done. cbn [head from_option id mbind option_bind].
  rewrite settings_enabled, settings_hidden, principal_user by (done || (destruct (account d) as [u|]; [apply Hu|done])).
  rewrite (omap_fmap_some _ _ command_line), (omap_fmap_some _ _ id), list_fmap_id.
  - f_equal; [by destruct (active d)|by destruct (invisible d)].
  - intros h [_ H]%(proj1 (Forall_forall _ _) Hh). by apply handler_read.
  - intros a [[_ H1] [_ H2]]%(proj1 (Forall_forall _ _) Ha). by apply action_read.
Qed.

(** *** Encodings *)
Lemma decode_utf16_char c l : is_scalar c → from_utf16_lossy (encode_utf16 c ++ l) = c :: from_utf16_lossy l.
Proof.
  intros Hc. unfold encode_utf16. destruct (N.ltb_spec c 0x10000) as [Hs|Hs]; cbn [app from_utf16_lossy].
  - assert (is_high c = false ∧ is_low c = false) as [-> ->]; [|done].
    unfold is_scalar in Hc. unfold is_high, is_low. split; lia.
  - destruct Hc as [?|[_ Hc]]; [lia|].
    assert ((c - 0x10000) / 0x400 < 0x400) as Hd by (apply N.Div0.div_lt_upper_bound; lia).
    pose proof (N.mod_lt (c - 0x10000) 0x400) as Hm. pose proof (N.div_mod (c - 0x10000) 0x400) as He.
    set (q := (c - 0x10000) / 0x400) in *. set (m := (c - 0x10000) mod 0x400) in *.
    assert (is_high (0xD800 + q) = true) as -> by (unfold is_high; lia).
    assert (is_low (0xDC00 + m) = true) as -> by (unfold is_low; lia). f_equal. lia.
Qed.

Lemma decode_utf16 l : Forall is_scalar l → from_utf16_lossy (l ≫= encode_utf16) = l.
Proof.
  induction 1 as [|c l Hc _ IH]; [done|]. by rewrite bind_cons, decode_utf16_char, IH.
Qed.

Lemma units_octets be us : units be (us ≫= unit_octets be) = us.
Proof.
  induction us as [|u us IH]; [done|]. rewrite bind_cons. unfold unit_octets at 1.
  pose proof (N.div_mod u 256). destruct be; cbn [app units]; rewrite IH; f_equal; lia.
Qed.

Lemma decode_lossy_valid bs cs : decode bs = Some cs → decode_lossy bs = cs.
Proof.
  revert cs. induction bs as [bs IH] using (induction_ltof1 _ length). unfold ltof in IH. intros cs.
  destruct bs as [|b r]; cbn [decode decode_lossy]; [by intros [= <-]|].
  destruct (b <? 0x80).
  { intros (cs' & H & ->)%fmap_Some. f_equal. apply IH; [simpl; lia|done]. }
  destruct (lead b) as [[[[k p] lo] hi]|]; [|done].
  destruct r as [|b1 r1]; [by destruct k as [|[|[|[|]]]]|].
  destruct k as [|[|[|[|]]]]; try done.
  - destruct (within lo hi b1); cbn [negb]; [|done].
    intros (cs' & H & ->)%fmap_Some. f_equal. apply IH; [simpl; lia|done].
  - destruct r1 as [|b2 r2]; [done|]. destruct (within lo hi b1); cbn [negb andb]; [|done].
    destruct (is_cont b2); [|done].
    intros (cs' & H & ->)%fmap_Some. f_equal. apply IH; [simpl; lia|done].
  - destruct r1 as [|b2 [|b3 r3]]; [done..|]. destruct (within lo hi b1); cbn [negb andb]; [|done].
    destruct (is_cont b2); cbn [negb andb]; [|done]. destruct (is_cont b3); [|done].
    intros (cs' & H & ->)%fmap_Some. f_equal. apply IH; [simpl; lia|done].
Qed.

Lemma decode_file e l : Forall is_scalar l → decode_text (encode_file e l) = l.
Proof.
  intros Hl. destruct e.
  - change (from_utf16_lossy (units false ((l ≫= encode_utf16) ≫= unit_octets false)) = l).
    by rewrite units_octets, decode_utf16.
  - change (from_utf16_lossy (units true ((l ≫= encode_utf16) ≫= unit_octets true)) = l).
    by rewrite units_octets, decode_utf16.
  - change (decode_lossy (encode l) = l). by apply decode_lossy_valid, decode_encode.
Qed.

(** The characters of a task file. *)
Lemma scalars_escape l : Forall is_scalar l → Forall is_scalar (escape l).
Proof.
  induction 1 as [|c l Hc _ IH]; [constructor|]. rewrite escape_cons. apply Forall_app. split; [|done].
  unfold escape_char. repeat (case_match; [unfold is_scalar; literally|]). by constructor.
Qed.

Lemma scalars_tag t : Forall is_scalar t → Forall is_scalar (tag t).
Proof. intros H. constructor; [unfold is_scalar; lia|]. apply Forall_app. split; [done|]. constructor; [unfold is_scalar; lia|done]. Qed.

Lemma scalars_element name attributes l :
  Forall is_scalar (lit name ++ attributes) → Forall is_scalar l → Forall is_scalar (element name attributes l).
Proof.
  intros H Hl. unfold element. pose proof H as [Hn _]%Forall_app.
  apply Forall_app. split; [by apply scalars_tag|]. apply Forall_app. split; [done|]. apply scalars_tag.
  apply Forall_app. split; [unfold is_scalar; literally|done].
Qed.

Lemma scalars_leaf name l : Forall is_scalar (lit name ++ []) → Forall is_scalar l → Forall is_scalar (leaf name l).
Proof. intros. apply scalars_element; [done|]. by apply scalars_escape. Qed.

Lemma scalars_bind {A} (f : A → text) l : Forall (λ x, Forall is_scalar (f x)) l → Forall is_scalar (l ≫= f).
Proof. induction 1 as [|x l Hx _ IH]; [constructor|]. rewrite bind_cons. apply Forall_app. by split. Qed.

Ltac scalars := repeat
  match goal with
  | H : Forall is_scalar ?l |- Forall is_scalar ?l => exact H
  | H : ∀ k, Forall is_scalar (?g k) |- Forall is_scalar (?g _) => apply H
  | |- Forall is_scalar (tag _) => apply scalars_tag
  | |- Forall is_scalar (leaf _ _) => apply scalars_leaf
  | |- Forall is_scalar (element _ _ _) => apply scalars_element
  | |- Forall is_scalar (lit _ ++ _) => solve [unfold is_scalar; literally]
  | |- Forall is_scalar (_ ++ _) => apply Forall_app; split
  | |- Forall is_scalar _ => solve [unfold is_scalar; literally]
  end.

Lemma scalars_task_xml d : wf d → Forall is_scalar (task_xml d).
Proof.
  intros [Ha Hh Hu Hd Hg' _ _].
  assert (∀ k, Forall is_scalar (gap d k)) as Hg by (intros k; eapply Forall_impl; [exact (Hg' k)|by intros ? []]).
  unfold task_xml, settings_content, registration_content, trigger_content. cbv zeta.
  assert (Forall is_scalar (principal_content d)) as Hp.
  { unfold principal_content. destruct (account d); cbn [from_option] in *; [destruct Hu|]; scalars. }
  assert (∀ b, Forall is_scalar (bool_text b)) as Hb by (intros []; unfold is_scalar; literally).
  assert (Forall is_scalar (actions d ≫= action_xml (gap d))).
  { apply scalars_bind. eapply Forall_impl; [exact Ha|]. intros a [[] []]. unfold action_xml, action_content. scalars. }
  assert (Forall is_scalar (handlers d ≫= handler_xml (gap d))).
  { apply scalars_bind. eapply Forall_impl; [exact Hh|]. intros h []. unfold handler_xml, handler_content. scalars. }
  pose proof (Hb (active d)). pose proof (Hb (invisible d)). scalars.
Qed.

(** C36: A task file in the layout of [task_xml] is read as it was written.
    Its elements are those of the task scheduler in their order, with any text
    that is no markup between two tags. Up to 64 actions and 64 handlers, the
    flags and the account are read exactly as they were put in, whatever
    characters their texts hold as long as no white space is at their ends,
    and in each of the three encodings. *)
Theorem task_file_round_trip e d : wf d → parse_task (decode_text (encode_file e (task_xml d))) = task_of d.
Proof. intros H. rewrite decode_file by by apply scalars_task_xml. by apply parse_task_xml. Qed.

Lemma task_file_round_trip_witness :
  let d := mkDef [(lit "C:	ools.exe", lit "-c <x> & 'y'"); ([0x20AC; 0x1F600], [])] [lit "{0000-1111}"] true true
             (Some (lit "S-1-5-18")) (lit "<b> & more") (λ k, [13; 10] ++ replicate (2 * k) 32) in
  wf d ∧ parse_task (decode_text (encode_file Utf16LE (task_xml d))) = task_of d.
Proof.
  intros d. assert (wf d) as H; [|split; [exact H|apply (task_file_round_trip Utf16LE d H)]].
  assert (∀ l, bool_decide (Forall is_scalar l) = true → bool_decide (head l = None ∨ is_whitespace (default 0 (head l)) = false) = true →
    bool_decide (last l = None ∨ is_whitespace (default 0 (last l)) = false) = true → plain l) as Hp.
  { intros l H1%bool_decide_eq_true H2%bool_decide_eq_true H3%bool_decide_eq_true. split; [done|].
    split; intros c E; rewrite E in H2 || rewrite E in H3; [destruct H2|destruct H3]; done. }
  split; [| | | | |simpl; lia|simpl; lia].
  - constructor; [split; apply Hp; vm_compute; reflexivity|constructor; [split; apply Hp; vm_compute; reflexivity|constructor]].
  - constructor; [apply Hp; vm_compute; reflexivity|constructor].
  - apply Hp; vm_compute; reflexivity.
  - apply (bool_decide_unpack _). vm_compute. exact I.
  - intros k. apply Forall_app. split; [apply (bool_decide_unpack _); vm_compute; exact I|].
    apply Forall_replicate. split; [unfold is_scalar; lia|done].
Defined.
End TaskProps.

(** ** The collector *)
Module CollectorProps.
Import System SysRules WinRules.

Section WithRules.
Context `{RX : RegexLib, SE : Session}.

Abbreviation Key := (string * text * text)%type.

(** The [n]-th finding, made for what [k] names. *)
Definition made (n : nat) (f : Finding) (k : Key) : Prop :=
  ∃ rule mechanism location entry summary, rule ∈ CATALOGUE ∧ k = key rule location entry ∧
    f = finding version rule (target mechanism location entry) summary (new_id n) (now n).

(** The findings come from the catalogue in the order of their identifiers,
    one for each key that was seen. *)
Record sound (c : Collector) : Prop := {
  s_unique : NoDup (seen c);
  s_length : length (seen c) = length (findings c);
  s_made n f k : findings c !! n = Some f → reverse (seen c) !! n = Some k → made n f k }.

Lemma sound_empty : sound no_findings.
Proof. split; [constructor|done..]. Qed.

Lemma sound_finding c k : sound c → k ∈ seen c → ∃ n f, findings c !! n = Some f ∧ made n f k.
Proof.
  intros [_ Hl Hm] Hk. rewrite <-elem_of_reverse in Hk. apply list_elem_of_lookup in Hk as [n Hn].
  destruct (lookup_lt_is_Some_2 (findings c) n) as [f Hf].
  { rewrite <-Hl, <-length_reverse. by eapply lookup_lt_Some. }
  exists n, f. split; [done|by eapply Hm].
Qed.

(** A computation that only reports, and what it makes known. *)
Definition reports (f : Collector → Collector) (P : Key → Prop) : Prop := ∀ c, sound c →
  sound (f c) ∧ findings c `prefix_of` findings (f c) ∧ persistence (f c) = persistence c ∧
  ∀ k, k ∈ seen (f c) ↔ k ∈ seen c ∨ P k.

Lemma reports_weaken f P Q : reports f P → (∀ k, P k ↔ Q k) → reports f Q.
Proof.
  intros Hf HPQ c Hc. destruct (Hf c Hc) as (? & ? & ? & Hk). split_and!; [done..|].
  intros k. by rewrite Hk, HPQ.
Qed.

Lemma reports_nothing : reports (λ c, c) (λ _, False).
Proof. intros c Hc. split_and!; [done..|]. tauto. Qed.

Lemma reports_compose f g P Q : reports f P → reports g Q → reports (λ c, g (f c)) (λ k, P k ∨ Q k).
Proof.
  intros Hf Hg c Hc. destruct (Hf c Hc) as (H1 & H2 & H3 & H4). destruct (Hg _ H1) as (G1 & G2 & G3 & G4).
  split_and!; [done|by etrans|congruence|]. intros k. rewrite G4, H4. tauto.
Qed.

Lemma reports_report rule mechanism location entry summary : rule ∈ CATALOGUE →
  reports (report rule mechanism location entry summary) (λ k, k = key rule location entry).
Proof.
  intros Hr c [Hu Hl Hm]. unfold report. case_bool_decide as Hk; simpl.
  - split_and!; [done..|]. intros k. split; [by left|]. by intros [?| ->].
  - split_and!; [|by eexists|done|intros k; rewrite elem_of_cons; tauto]. split; simpl.
    + by constructor.
    + rewrite length_app. simpl. lia.
    + intros n f k Hf Hs. rewrite reverse_cons in Hs. apply lookup_app_Some in Hf as [Hf|[Hge Hf]].
      * rewrite lookup_app_l in Hs; [by eapply Hm|]. rewrite length_reverse, Hl. by eapply lookup_lt_Some.
      * apply list_lookup_singleton_Some in Hf as [Hn <-]. assert (n = length (findings c)) as -> by lia.
        rewrite <-Hl, <-length_reverse, list_lookup_middle in Hs by done. injection Hs as <-.
        by exists rule, mechanism, location, entry, summary.
Qed.

Lemma reports_each {A} (f : A → Collector → Collector) (P : A → Key → Prop) l :
  (∀ x, x ∈ l → reports (f x) (P x)) → reports (λ c, foldl (λ c x, f x c) c l) (λ k, ∃ x, x ∈ l ∧ P x k).
Proof.
  induction l as [|x l IH]; intros Hf.
  - eapply reports_weaken; [apply reports_nothing|]. intros k. split; [done|]. by intros (x & ?%elem_of_nil & _).
  - eapply reports_weaken.
    + apply (reports_compose (f x) (λ c, foldl (λ c x, f x c) c l)); [apply Hf; left|].
      apply IH. intros y Hy. apply Hf. by right.
    + intros k. split.
      * intros [H|(y & Hy & H)]; [exists x|exists y]; rewrite elem_of_cons; auto.
      * intros (y & [->|Hy]%elem_of_cons & H); [by left|right; by exists y].
Qed.

(** What one entry deserves. *)
Definition deserved (e : WinEntry) (k : Key) : Prop :=
  (∃ cmd, w_command e = Some cmd ∧
     ((∃ rm, rm ∈ Commands.command_indicators cmd ∧ k = key rm.1 (w_location e) (Some cmd)) ∨
      (∃ exe, command_executable cmd = Some exe ∧
         ((classify exe = Temp ∧ k = key TEMP_EXEC (w_location e) (Some cmd)) ∨
          (classify exe = UserWritable ∧ w_scope e = SystemScope ∧
           k = key SYSTEM_USER_WRITABLE (w_location e) (Some cmd)))))) ∨
  (w_hidden e = true ∧ k = key HIDDEN_TASK (w_location e) (w_command e)).

Lemma reports_location e cmd exe :
  reports (report_location e cmd exe) (λ k,
    (classify exe = Temp ∧ k = key TEMP_EXEC (w_location e) (Some cmd)) ∨
    (classify exe = UserWritable ∧ w_scope e = SystemScope ∧
     k = key SYSTEM_USER_WRITABLE (w_location e) (Some cmd))).
Proof.
  unfold report_location. destruct (classify exe); [|case_bool_decide as Hs|].
  - eapply reports_weaken; [apply reports_report; auto with acts|naive_solver].
  - eapply reports_weaken; [apply reports_report; auto with acts|naive_solver].
  - eapply reports_weaken; [apply reports_nothing|naive_solver].
  - eapply reports_weaken; [apply reports_nothing|naive_solver].
Qed.

Lemma reports_indicators mechanism location cmd :
  reports (report_indicators mechanism location cmd)
    (λ k, ∃ rm, rm ∈ Commands.command_indicators cmd ∧ k = key rm.1 location (Some cmd)).
Proof.
  apply (reports_each (λ rm, report rm.1 mechanism location (Some cmd) (fmt "matched: {matched}" [rm.2]))
           (λ rm k, k = key rm.1 location (Some cmd))).
  intros [rule matched] Hr%CtxProps.indicator_rule. by apply reports_report.
Qed.

Lemma reports_command e cmd :
  reports (report_command e cmd) (λ k,
    (∃ rm, rm ∈ Commands.command_indicators cmd ∧ k = key rm.1 (w_location e) (Some cmd)) ∨
    (∃ exe, command_executable cmd = Some exe ∧
       ((classify exe = Temp ∧ k = key TEMP_EXEC (w_location e) (Some cmd)) ∨
        (classify exe = UserWritable ∧ w_scope e = SystemScope ∧
         k = key SYSTEM_USER_WRITABLE (w_location e) (Some cmd))))).
Proof.
  unfold report_command.
  apply (reports_compose _ (λ c, match command_executable cmd with Some exe => report_location e cmd exe c | None => c end));
    [apply reports_indicators|].
  destruct (command_executable cmd) as [exe|].
  - eapply reports_weaken; [apply reports_location|naive_solver].
  - eapply reports_weaken; [apply reports_nothing|naive_solver].
Qed.

Lemma reports_entry e : reports (report_entry e) (deserved e).
Proof.
  unfold report_entry, deserved.
  apply (reports_compose (λ c, match w_command e with Some cmd => report_command e cmd c | None => c end)
           (λ c, if w_hidden e then report HIDDEN_TASK (w_mechanism e) (w_location e) (w_command e) "task is hidden" c else c)).
  - destruct (w_command e) as [cmd|].
    + eapply reports_weaken; [apply reports_command|naive_solver].
    + eapply reports_weaken; [apply reports_nothing|naive_solver].
  - destruct (w_hidden e).
    + eapply reports_weaken; [apply reports_report; auto with acts|naive_solver].
    + eapply reports_weaken; [apply reports_nothing|naive_solver].
Qed.

Lemma record_reports e c : sound c →
  sound (record e c) ∧ findings c `prefix_of` findings (record e c) ∧
  persistence (record e c) = persistence c ++ [entry_of e] ∧
  ∀ k, k ∈ seen (record e c) ↔ k ∈ seen c ∨ deserved e k.
Proof.
  intros Hc. destruct (reports_entry e c Hc) as ([] & ? & Hp & ?). unfold record, push_entry.
  split_and!; simpl; [by split|done|by rewrite Hp|done].
Qed.

End WithRules.
End CollectorProps.

(** ** The walk over the task files *)
Module WalkProps.
Import Windows WinRules WinChecks.

Lemma takeN_full {A} n (l x : list A) : vlen l = n → takeN n (l ++ x) = l.
Proof.
  unfold vlen. revert n. induction l as [|y l IH]; intros n Hn; simpl in *.
  - subst n. by destruct x.
  - destruct (N.eqb_spec n 0); [lia|]. f_equal. apply IH. lia.
Qed.

Lemma takeN_within {A} n (l : list A) : vlen l ≤ n → takeN n l = l.
Proof.
  unfold vlen. revert n. induction l as [|y l IH]; intros n Hn; simpl in *; [done|].
  destruct (N.eqb_spec n 0); [lia|]. f_equal. apply IH. lia.
Qed.

Lemma takeN_length {A} n (l : list A) : vlen (takeN n l) ≤ n.
Proof.
  unfold vlen. revert n. induction l as [|y l IH]; intros n; simpl; [lia|].
  destruct (N.eqb_spec n 0); simpl; [lia|]. specialize (IH (N.pred n)). lia.
Qed.

Lemma takeN_again {A} n (l x : list A) : takeN n (takeN n l ++ x) = takeN n (l ++ x).
Proof.
  revert n. induction l as [|y l IH]; intros n; simpl; [done|].
  destruct (N.eqb_spec n 0) as [->|Hn]; simpl; [by destruct x|].
  rewrite (proj2 (N.eqb_neq n 0)) by done. by rewrite IH.
Qed.

Section WithHost.
Context `{WH : Host, RX : RegexLib, SE : Session}.

(** The listing that the walk must produce: the files of a directory, then
    those of its directories, the last one first, down to a depth. *)
Definition task_files (dir : text) (es : list DirEntry) : list text :=
  omap (λ e, match file_type e with Some IsFile => Some (join dir (file_name e)) | _ => None end) es.
Definition task_dirs (dir : text) (es : list DirEntry) : list text :=
  omap (λ e, match file_type e with Some IsDir => Some (join dir (file_name e)) | _ => None end) es.
Fixpoint files_below (levels : nat) (dir : text) : list text :=
  match read_dir dir with
  | Err _ => []
  | Ok es =>
      task_files dir (flat_entries es)
      ++ match levels with O => [] | S levels => reverse (task_dirs dir (flat_entries es)) ≫= files_below levels end
  end.

Lemma task_entries_spec dir depth es stack files : vlen files ≤ MAX_TASK_FILES →
  task_entries dir depth es stack files =
  (reverse (if depth <? MAX_DEPTH then (λ p, (p, depth + 1)) <$> task_dirs dir es else []) ++ stack,
   takeN MAX_TASK_FILES (files ++ task_files dir es)).
Proof.
  revert stack files. induction es as [|e es IH]; intros stack files Hf; cbn [task_entries task_dirs task_files omap list_omap].
  - rewrite app_nil_r, takeN_within by done. by destruct (depth <? MAX_DEPTH).
  - destruct (file_type e) as [[]|];
      repeat match goal with |- context [bool_decide (?a = ?b :> FileType)] =>
        let v := eval vm_compute in (bool_decide (a = b)) in change (bool_decide (a = b)) with v end; cbn [andb].
    + destruct (depth <? MAX_DEPTH); rewrite IH by done; [|done].
      cbn [fmap list_fmap]. by rewrite reverse_cons, <-app_assoc.
    + destruct (N.ltb_spec (vlen files) MAX_TASK_FILES) as [Hl|Hl].
      * rewrite IH by (unfold vlen in *; rewrite length_app; simpl; lia). by rewrite <-app_assoc.
      * rewrite IH by done. by rewrite !takeN_full by lia.
    + by rewrite IH.
    + by rewrite IH.
Qed.

Definition below (d : text * N) : list text := files_below (N.to_nat (MAX_DEPTH - d.2)) d.1.
Definition rounds (d : text * N) : nat := dir_count (N.to_nat (MAX_DEPTH - d.2)) d.1.

Lemma sum_list_bind_perm l l' : l ≡ₚ l' → sum_list l = sum_list l'.
Proof. induction 1; simpl; lia. Qed.

Lemma sum_list_app l l' : sum_list (l ++ l') = (sum_list l + sum_list l')%nat.
Proof. induction l; simpl; lia. Qed.

Lemma error_value dir e s : (error dir e s).1 = tt.
Proof. by destruct (error dir e s) as [[] s']. Qed.

Lemma rounds_positive d : (0 < rounds d)%nat.
Proof. unfold rounds. destruct (N.to_nat _); simpl; lia. Qed.

Lemma rounds_cons d stack : sum_list (rounds <$> d :: stack) = (rounds d + sum_list (rounds <$> stack))%nat.
Proof. done. Qed.

(** One round: the directory on top gives way to its directories. *)
Lemma round_spec dir depth es : depth ≤ MAX_DEPTH → read_dir dir = Ok es →
  let pushed := reverse (if depth <? MAX_DEPTH then (λ p, (p, depth + 1)) <$> task_dirs dir (flat_entries es) else []) in
  below (dir, depth) = task_files dir (flat_entries es) ++ (pushed ≫= below) ∧
  rounds (dir, depth) = S (sum_list (rounds <$> pushed)) ∧ Forall (λ d, d.2 ≤ MAX_DEPTH) pushed.
Proof.
  intros Hd He. unfold below, rounds. cbn [fst snd]. destruct (N.ltb_spec depth MAX_DEPTH) as [Hlt|Hge].
  - replace (N.to_nat (MAX_DEPTH - depth)) with (S (N.to_nat (MAX_DEPTH - (depth + 1)))) by lia.
    set (levels := N.to_nat (MAX_DEPTH - (depth + 1))). rewrite <-fmap_reverse. split_and!.
    + cbn [files_below]. rewrite He. f_equal.
      induction (reverse (task_dirs dir (flat_entries es))) as [|p l IH]; [done|]. rewrite bind_cons, IH. done.
    + cbn [dir_count]. f_equal. unfold subdirs. rewrite He. fold (task_dirs dir (flat_entries es)).
      rewrite <-list_fmap_compose. apply sum_list_bind_perm. by rewrite reverse_Permutation.
    + apply Forall_fmap, Forall_true. intros p. simpl. lia.
  - replace (MAX_DEPTH - depth) with 0 by lia. change (N.to_nat 0) with 0%nat. cbn [files_below dir_count]. rewrite He. split_and!; [done..|constructor].
Qed.

Lemma walk_spec fuel stack files s :
  (sum_list (rounds <$> stack) ≤ fuel)%nat → vlen files ≤ MAX_TASK_FILES → Forall (λ d, d.2 ≤ MAX_DEPTH) stack →
  (task_walk fuel stack files s).1 = Some (takeN MAX_TASK_FILES (files ++ (stack ≫= below))).
Proof.
  revert stack files s. induction fuel as [|fuel IH]; intros [|[dir depth] stack] files s Hr Hf Hs.
  - cbn. by rewrite app_nil_r, takeN_within.
  - rewrite rounds_cons in Hr. pose proof (rounds_positive (dir, depth)). lia.
  - cbn. by rewrite app_nil_r, takeN_within.
  - apply Forall_cons in Hs as [Hd Hs]. cbn [fst snd] in Hd. rewrite rounds_cons in Hr.
    cbn [task_walk]. destruct (read_dir dir) as [es|e] eqn:He.
    + destruct (round_spec dir depth es Hd He) as (Hb & Hn & Hp). rewrite task_entries_spec by done.
      rewrite bind_cons, Hb, <-app_assoc, app_assoc. rewrite IH.
      * by rewrite takeN_again, bind_app.
      * rewrite fmap_app, sum_list_app. lia.
      * apply takeN_length.
      * by apply Forall_app.
    + unfold mbind, M_bind. destruct (error dir e s) as [[] s']. rewrite IH; [|pose proof (rounds_positive (dir, depth)); lia|done..].
      rewrite bind_cons. unfold below at 2. destruct (N.to_nat (MAX_DEPTH - (dir, depth).2)); cbn [files_below fst]; by rewrite He.
Qed.

(** C40: The walk over the task folders ends: its fuel, a round for each
    directory, is always enough; and it lists exactly the files of a
    depth-first listing to depth 8, cut after the first 20,000. *)
Theorem task_walk_exact base s :
  (task_walk (dir_count (N.to_nat MAX_DEPTH) base) [(base, 0)] [] s).1
  = Some (takeN MAX_TASK_FILES (files_below (N.to_nat MAX_DEPTH) base)).
Proof.
  rewrite walk_spec; [by rewrite bind_cons, app_nil_r| | |by repeat constructor].
  - rewrite rounds_cons. unfold rounds. cbn [fst snd]. rewrite N.sub_0_r. cbn. lia.
  - done.
Qed.
End WithHost.
End WalkProps.

(** ** The inventory *)
Create HintDb safety.
Module InventoryProps.
Import System SysRules Windows WinRules WinChecks CollectorProps WalkProps.

Section WithHost.
Context `{WH : Host, RX : RegexLib, SE : Session}.
(** Nobody cancels the run. *)
Hypothesis uncancelled : ∀ n, cancel_seen n = false.

Abbreviation Key := (string * text * text)%type.

(** An entry that is listed, with all it deserves and what the checks report
    about it besides. *)
Definition shown (e : WinEntry) (ks : list Key) (c : Collector) : Prop :=
  entry_of e ∈ persistence c ∧ ∀ k, deserved e k ∨ k ∈ ks → k ∈ seen c.

Definition inv (s : State) : Prop := sound (col s) ∧ system_root s = root_of_system.
Definition later (s s' : State) : Prop :=
  inv s' ∧ persistence (col s) `prefix_of` persistence (col s') ∧ ∀ k, k ∈ seen (col s) → k ∈ seen (col s').

Definition safe {A} (m : M A) : Prop := ∀ s, inv s → later s (m s).2.
Definition shows {A} (m : M A) (e : WinEntry) (ks : list Key) : Prop := ∀ s, inv s → shown e ks (col (m s).2).
Definition returns {A} (m : M A) (a : A) : Prop := ∀ s, inv s → (m s).1 = a.

Lemma later_refl s : inv s → later s s.
Proof. done. Qed.
Lemma later_trans s1 s2 s3 : later s1 s2 → later s2 s3 → later s1 s3.
Proof. intros (_ & P1 & K1) (I & P2 & K2). split_and!; [done|by etrans|auto]. Qed.

Lemma shown_later e ks s s' : later s s' → shown e ks (col s) → shown e ks (col s').
Proof. intros (_ & P & K) [He Hk]. split; [|auto]. destruct P as [l ->]. apply elem_of_app. by left. Qed.

Lemma safe_ret {A} (a : A) : safe (mret a).
Proof. by intros s. Qed.
Lemma safe_get {A} (f : State → A) : safe (get f).
Proof. by intros s. Qed.

(** What leaves the collector and the place of Windows alone. *)
Lemma safe_same {A} (m : M A) : (∀ s, col (m s).2 = col s ∧ system_root (m s).2 = system_root s) → safe m.
Proof. intros H s [Hs Hr]. destruct (H s) as [Hc Hr']. unfold later, inv. by rewrite Hc, Hr'. Qed.

Lemma safe_bind {A B} (m : M A) (f : A → M B) : safe m → (∀ a, safe (f a)) → safe (m ≫= f).
Proof.
  intros Hm Hf s Hs. unfold mbind, M_bind. specialize (Hm s Hs). destruct (m s) as [a s']. simpl in Hm.
  eapply later_trans; [done|]. apply Hf. by destruct Hm.
Qed.

Lemma safe_for_each {A} (f : A → M unit) xs : (∀ x, safe (f x)) → safe (for_each f xs).
Proof. intros Hf. induction xs as [|x xs IH]; simpl; [apply safe_ret|]. apply safe_bind; auto. Qed.

Lemma safe_cancelled : safe cancelled.
Proof. by apply safe_same. Qed.

Lemma safe_for_uncancelled {A} (f : A → M unit) xs : (∀ x, safe (f x)) → safe (for_uncancelled f xs).
Proof.
  intros Hf. induction xs as [|x xs IH]; simpl; [apply safe_ret|]. apply safe_bind; [apply safe_cancelled|].
  intros []; [apply safe_ret|]. apply safe_bind; auto.
Qed.

Lemma safe_error location e : safe (error location e).
Proof.
  apply safe_same. intros s. unfold error. destruct (bool_decide (e_kind e = NotFound)); [done|].
  by destruct (bool_decide (e_kind e = PermissionDenied)).
Qed.

Lemma safe_finish id title : safe (finish id title).
Proof.
  apply safe_same. intros s. unfold finish, get, cancelled, note, modify, mbind, M_bind. cbn.
  by destruct (0 <? denied_count s).
Qed.

Ltac at_collector := unfold later, collect, modify; cbn [fst snd col system_root].

Lemma safe_record e : safe (collect (record e)).
Proof.
  intros s [Hs Hr]. destruct (record_reports e (col s) Hs) as (H1 & _ & H3 & H4).
  at_collector. split_and!; [by split|rewrite H3; by eexists|]. intros k. rewrite H4. by left.
Qed.

Lemma safe_reports f P : reports f P → safe (collect f).
Proof.
  intros Hf s [Hs Hr]. destruct (Hf _ Hs) as (H1 & _ & H3 & H4).
  at_collector. split_and!; [by split|by rewrite H3|]. intros k. rewrite H4. by left.
Qed.

Lemma safe_collect_compose f g : safe (collect f) → safe (collect g) → safe (collect (λ c, g (f c))).
Proof.
  intros Hf Hg s Hs. specialize (Hf s Hs). pose proof Hf as [Hi _]. specialize (Hg _ Hi).
  eapply later_trans; [exact Hf|exact Hg].
Qed.

(** *** Composition *)
Lemma shows_left {A B} (m : M A) (f : A → M B) e ks : shows m e ks → safe m → (∀ a, safe (f a)) → shows (m ≫= f) e ks.
Proof.
  intros Hm Hs Hf s Hi. unfold mbind, M_bind. specialize (Hm s Hi). specialize (Hs s Hi).
  destruct (m s) as [a s']. simpl in *. eapply shown_later; [|done]. apply Hf. by destruct Hs.
Qed.

Lemma shows_right {A B} (m : M A) (f : A → M B) a e ks : safe m → returns m a → shows (f a) e ks → shows (m ≫= f) e ks.
Proof.
  intros Hs Hr Hf s Hi. unfold mbind, M_bind. specialize (Hs s Hi). specialize (Hr s Hi).
  destruct (m s) as [a' s']. simpl in *. subst a'. apply Hf. by destruct Hs.
Qed.

Lemma shows_after {A} (m : M unit) (f : M A) e ks : safe m → shows f e ks → shows (_ ← m; f) e ks.
Proof. intros Hs Hf. apply (shows_right _ _ tt); [done| |done]. intros s _. by destruct (m s).1. Qed.

Lemma shows_for_each {A} (f : A → M unit) xs x e ks :
  x ∈ xs → shows (f x) e ks → (∀ y, safe (f y)) → shows (for_each f xs) e ks.
Proof.
  intros Hx Hf Hs. induction Hx as [x xs|x y xs Hx IH]; simpl.
  - apply shows_left; [done..|]. intros _. by apply safe_for_each.
  - apply shows_after; auto.
Qed.

Lemma returns_ret {A} (a : A) : returns (mret a) a.
Proof. by intros s. Qed.

Lemma returns_cancelled : returns cancelled false.
Proof. intros s _. apply uncancelled. Qed.

Lemma shows_for_uncancelled {A} (f : A → M unit) xs x e ks :
  x ∈ xs → shows (f x) e ks → (∀ y, safe (f y)) → shows (for_uncancelled f xs) e ks.
Proof.
  intros Hx Hf Hs. induction Hx as [x xs|x y xs Hx IH]; simpl;
    (eapply shows_right; [apply safe_cancelled|apply returns_cancelled|]; cbn).
  - apply shows_left; [done..|]. intros _. by apply safe_for_uncancelled.
  - apply shows_after; auto.
Qed.

Lemma shows_record e ks : ks = [] → shows (collect (record e)) e ks.
Proof.
  intros -> s [Hs _]. destruct (record_reports e (col s) Hs) as (_ & _ & H3 & H4). at_collector. split.
  - rewrite H3. apply elem_of_app. right. by left.
  - intros k [H| ?%elem_of_nil]; [|done]. rewrite H4. by right.
Qed.

(** A report and a record. *)
Lemma shows_reported f P e ks : reports f P → (∀ k, k ∈ ks → P k) → shows (collect (λ c, record e (f c))) e ks.
Proof.
  intros Hf HP s [Hs _]. destruct (Hf _ Hs) as (H1 & _ & _ & H5).
  destruct (record_reports e _ H1) as (_ & _ & H3 & H4). at_collector. split.
  - rewrite H3. apply elem_of_app. right. by left.
  - intros k [H|H]; rewrite H4; [by right|]. left. rewrite H5. right. auto.
Qed.

(** *** Keys and files *)
Lemma safe_with_key root name path f : (∀ k, safe (f k)) → safe (with_key root name path f).
Proof.
  intros Hf. unfold with_key, open. apply safe_bind; [|intros [k|]; [apply Hf|apply safe_ret]].
  destruct (open_subkey true root path); [|apply safe_bind; [apply safe_error|intros _]]; apply safe_ret.
Qed.

Lemma shows_with_key root name path f k e ks :
  open_subkey true root path = Ok k → shows (f k) e ks → shows (with_key root name path f) e ks.
Proof.
  intros Hk Hf. unfold with_key, open. rewrite Hk. by apply (shows_right _ _ (Some k)); [apply safe_ret|apply returns_ret|].
Qed.

Lemma safe_read_file path : safe (read_file path).
Proof.
  unfold read_file. destruct (open_file path) as [f|]; [destruct (read_to_end f MAX_FILE)|];
    try apply safe_ret; (apply safe_bind; [apply safe_error|intros _; apply safe_ret]).
Qed.

Lemma returns_read_file path f b : open_file path = Ok f → read_to_end f MAX_FILE = Ok b → returns (read_file path) (Some b).
Proof. intros Hf Hb s _. unfold read_file. by rewrite Hf, Hb. Qed.

(** The user hives that are loaded. *)
Definition loaded_hives : list text := List.filter (λ n, negb (ends n "_Classes")) (Ebpf.flatten (enum_keys hku)).

Lemma safe_user_hives : safe user_hives.
Proof.
  unfold user_hives. induction (enum_keys hku) as [|[n|e] names IH]; simpl; [apply safe_ret|..].
  - apply safe_bind; [done|intros; apply safe_ret].
  - apply safe_bind; [apply safe_error|done].
Qed.

Lemma returns_user_hives : returns user_hives loaded_hives.
Proof.
  unfold user_hives, loaded_hives. induction (enum_keys hku) as [|[n|e] names IH]; [done|..]; intros s Hs; simpl.
  - unfold mbind, M_bind. specialize (IH s Hs). destruct (user_hives_go names s) as [out s']. simpl in *. subst out.
    unfold Ebpf.flatten. simpl. by destruct (ends n "_Classes").
  - pose proof (safe_error (lit "HKU") e s Hs) as [Hi _]. unfold mbind, M_bind.
    destruct (error (lit "HKU") e s) as [[] s']. by apply IH.
Qed.

Lemma safe_task_walk fuel stack files : safe (task_walk fuel stack files).
Proof.
  revert stack files. induction fuel as [|fuel IH]; intros [|[dir depth] stack] files; cbn [task_walk]; try apply safe_ret.
  destruct (read_dir dir) as [es|e]; [|apply safe_bind; [apply safe_error|intros _; apply IH]].
  destruct (task_entries dir depth _ _ _). apply IH.
Qed.

(** *** The places that start programs *)
Definition appinit_load (k : Windows.Key) : N := default 0 (get_u32 k (lit "LoadAppInit_DLLs")).
Definition service_start (svc : Windows.Key) : N := default u32_max (get_u32 svc (lit "Start")).
Definition service_kind (svc : Windows.Key) : N := default 0 (get_u32 svc (lit "Type")).
Definition service_account (svc : Windows.Key) : option text := get_string svc (lit "ObjectName").

(** A place from which a program is started, that can be opened and is within
    the limits of the checks, as they list it, with the findings that the place
    itself deserves. *)
Inductive autostart : WinEntry → list Key → Prop :=
  | run_of_system path k vname cmd :
      path ∈ RUN_KEYS → open_subkey true hklm (lit path) = Ok k →
      Ok vname ∈ enum_values k → get_string k vname = Some cmd →
      autostart (run_entry SystemScope (lit "HKLM" ++ BACKSLASH ++ lit path ++ BACKSLASH ++ vname) cmd) []
  | run_of_user sid path k vname cmd :
      sid ∈ loaded_hives → path ∈ RUN_KEYS → open_subkey true hku (sid ++ BACKSLASH ++ lit path) = Ok k →
      Ok vname ∈ enum_values k → get_string k vname = Some cmd →
      autostart (run_entry UserScope ((lit "HKU\" ++ sid) ++ BACKSLASH ++ lit path ++ BACKSLASH ++ vname) cmd) []
  | logon_value name k value :
      name ∈ ["Shell"; "Userinit"; "Taskman"; "AppSetup"]%string → open_subkey true hklm (lit WINLOGON) = Ok k →
      get_string k (lit name) = Some value →
      let location := in_hklm WINLOGON ++ BACKSLASH ++ lit name in
      autostart (winlogon_entry location (expand value) true (fmt "Winlogon {name}" [of_chars (lit name)]))
        (if value_modified (lit name) value root_of_system then [key WINLOGON_MODIFIED location (Some value)] else [])
  | appinit_dlls path k dlls :
      path ∈ WINDOWS_NT → open_subkey true hklm (lit path) = Ok k →
      get_string k (lit "AppInit_DLLs") = Some dlls → trim dlls ≠ [] →
      let location := in_hklm path ++ lit "\AppInit_DLLs" in
      autostart (winlogon_entry location (expand dlls) (appinit_load k =? 1) "AppInit_DLLs")
        (if appinit_load k =? 1 then [key APPINIT_DLLS location (Some dlls)] else [])
  | redirection base value_name k image sub cmd :
      (base, value_name) ∈ [(IFEO, "Debugger"%string); (SILENT_EXIT, "MonitorProcess"%string)] →
      open_subkey true hklm (lit base) = Ok k → image ∈ takeN 10000 (Ebpf.flatten (enum_keys k)) →
      open_subkey false k image = Ok sub → get_string sub (lit value_name) = Some cmd →
      let location := in_hklm base ++ BACKSLASH ++ image ++ BACKSLASH ++ lit value_name in
      autostart (winlogon_entry location (expand cmd) true (fmt "runs when {image} starts or exits" [of_chars image]))
        [key IFEO_DEBUGGER location (Some cmd)]
  | service_image k name svc image :
      open_subkey true hklm (lit SERVICES) = Ok k → name ∈ takeN 20000 (Ebpf.flatten (enum_keys k)) →
      open_subkey false k name = Ok svc → service_start svc ≤ 2 → get_string svc (lit "ImagePath") = Some image →
      autostart (service_entry (service_scope (service_account svc) (service_kind svc)) (in_hklm SERVICES ++ BACKSLASH ++ name)
        (service_kind svc) (service_start svc) (service_account svc) (normalize_image_path (expand image) root_of_system)) []
  | service_library k name svc dll :
      open_subkey true hklm (lit SERVICES) = Ok k → name ∈ takeN 20000 (Ebpf.flatten (enum_keys k)) →
      open_subkey false k name = Ok svc → service_start svc ≤ 2 → service_dll svc = Some dll →
      autostart (dll_entry (service_scope (service_account svc) (service_kind svc)) (in_hklm SERVICES ++ BACKSLASH ++ name)
        (service_start svc) dll) []
  | scheduled path f b e :
      path ∈ takeN MAX_TASK_FILES (files_below (N.to_nat MAX_DEPTH) (join root_of_system (lit "System32\Tasks"))) →
      open_file path = Ok f → read_to_end f MAX_FILE = Ok b → e ∈ task_entries_of path (parse_task (decode_text b)) →
      autostart e []
  | startup dir sc es d :
      (dir, sc) ∈ all_users_dirs ++ (match read_dir users_dir with Ok us => user_startup <$> flat_entries us | Err _ => [] end) →
      read_dir dir = Ok es → d ∈ flat_entries es → file_type d = Some IsFile →
      is_lit (lower (file_name d)) "desktop.ini" = false →
      autostart (startup_entry sc (join dir (file_name d)) (extension d)) [].

(** *** Each check *)
Lemma safe_new_run : safe new_run.
Proof. by apply safe_same. Qed.
Lemma safe_count_one : safe count_one.
Proof. by apply safe_same. Qed.
Lemma safe_note n : safe (note n).
Proof. by apply safe_same. Qed.

Lemma reports_if (b : bool) f P : reports f P → reports (λ c, if b then f c else c) (λ k, b = true ∧ P k).
Proof.
  intros Hf. destruct b; [eapply reports_weaken; [done|]|eapply reports_weaken; [apply reports_nothing|]]; naive_solver.
Qed.

(** What a recorded value of Winlogon reports first. *)
Lemma shows_winlogon_value location name value expanded root :
  shows (collect (winlogon_value location name value expanded root))
    (winlogon_entry location expanded true (fmt "Winlogon {name}" [of_chars name]))
    (if value_modified name value root then [key WINLOGON_MODIFIED location (Some value)] else []).
Proof.
  unfold winlogon_value.
  eapply (shows_reported (λ c, if value_modified name value root then report _ _ _ _ _ c else c)).
  - apply reports_if, reports_report. auto with acts.
  - intros k. cbn. destruct (value_modified name value root); [|by intros ?%elem_of_nil]. by intros ->%list_elem_of_singleton.
Qed.

Lemma shows_appinit location dlls load expanded : trim dlls ≠ [] →
  shows (collect (appinit location dlls load expanded))
    (winlogon_entry location expanded (load =? 1) "AppInit_DLLs")
    (if load =? 1 then [key APPINIT_DLLS location (Some dlls)] else []).
Proof.
  intros Hd. unfold appinit. rewrite bool_decide_false by done.
  eapply (shows_reported (λ c, if load =? 1 then report _ _ _ _ _ c else c)).
  - apply reports_if, reports_report. auto with acts.
  - intros k. cbn. destruct (load =? 1); [|by intros ?%elem_of_nil]. by intros ->%list_elem_of_singleton.
Qed.

Lemma shows_redirect location image value_name cmd expanded :
  shows (collect (launch_redirect location image value_name cmd expanded))
    (winlogon_entry location expanded true (fmt "runs when {image} starts or exits" [of_chars image]))
    [key IFEO_DEBUGGER location (Some cmd)].
Proof.
  unfold launch_redirect. eapply (shows_reported (report _ _ _ _ _)).
  - apply reports_report. auto with acts.
  - by intros k ->%list_elem_of_singleton.
Qed.

(** Whatever is shown is safe as well. *)
Lemma safe_winlogon_value location name value expanded root : safe (collect (winlogon_value location name value expanded root)).
Proof.
  unfold winlogon_value. apply (safe_collect_compose (λ c, if value_modified name value root then report _ _ _ _ _ c else c));
    [|apply safe_record]. eapply safe_reports, reports_if, reports_report. auto with acts.
Qed.
Lemma safe_appinit location dlls load expanded : safe (collect (appinit location dlls load expanded)).
Proof.
  unfold appinit. destruct (bool_decide _); [by apply safe_same|].
  apply (safe_collect_compose (λ c, if load =? 1 then report _ _ _ _ _ c else c)); [|apply safe_record].
  eapply safe_reports, reports_if, reports_report. auto with acts.
Qed.
Lemma safe_redirect location image value_name cmd expanded : safe (collect (launch_redirect location image value_name cmd expanded)).
Proof.
  unfold launch_redirect. apply (safe_collect_compose (report _ _ _ _ _)); [|apply safe_record].
  eapply safe_reports, reports_report. auto with acts.
Qed.
Lemma safe_indicators location line : safe (collect (report_indicators StartupFolder location line)).
Proof. eapply safe_reports, reports_indicators. Qed.

#[local] Hint Resolve safe_ret safe_get safe_cancelled safe_error safe_finish safe_record safe_new_run safe_count_one
  safe_note safe_winlogon_value safe_appinit safe_redirect safe_indicators safe_read_file safe_user_hives
  safe_task_walk : safety.
Ltac secure :=
  repeat first
    [ progress intros
    | progress cbn beta iota zeta
    | solve [auto with safety nocore]
    | match goal with
      | |- safe (_ ≫= _) => apply safe_bind
      | |- safe (for_each _ _) => apply safe_for_each
      | |- safe (for_uncancelled _ _) => apply safe_for_uncancelled
      | |- safe (with_key _ _ _ _) => apply safe_with_key
      | |- safe (match ?x with _ => _ end) => destruct x
      end ].

Lemma safe_run_value scope name path key v : safe (run_value scope name path key v).
Proof. unfold run_value. secure. Qed.
Lemma safe_run_key root name scope path : safe (run_key root name scope path).
Proof. pose proof safe_run_value. unfold run_key. secure. Qed.
Lemma safe_winlogon_name key name : safe (winlogon_name key name).
Proof. unfold winlogon_name. secure. Qed.
Lemma safe_appinit_key path key : safe (appinit_key path key).
Proof. unfold appinit_key. secure. Qed.
Lemma safe_redirect_image base value_name key image : safe (redirect base value_name key image).
Proof. unfold redirect. secure. Qed.
Lemma safe_service key name : safe (service key name).
Proof. unfold service. secure. Qed.
Lemma safe_task_file path : safe (task_file path).
Proof. unfold task_file. secure. Qed.
Lemma safe_startup_file scope dir e : safe (startup_file scope dir e).
Proof. unfold startup_file, startup_line. secure. Qed.
Lemma safe_startup_dir d : safe (startup_dir d).
Proof. pose proof safe_startup_file. unfold startup_dir. secure. Qed.
#[local] Hint Resolve safe_run_value safe_run_key safe_winlogon_name safe_appinit_key safe_redirect_image safe_service
  safe_task_file safe_startup_file safe_startup_dir : safety.

Lemma safe_check m : m ∈ checks → safe m.
Proof.
  unfold checks. rewrite !elem_of_cons, elem_of_nil. intros [->|[->|[->|[->|[->|[]]]]]].
  - unfold run_keys. secure.
  - unfold winlogon. secure.
  - unfold services. secure.
  - unfold tasks. secure.
  - unfold startup_folders. secure.
Qed.

(** The checks that show each kind. *)
Lemma shows_run_value scope name path k vname cmd : get_string k vname = Some cmd →
  shows (run_value scope name path k (Ok vname)) (run_entry scope (name ++ BACKSLASH ++ path ++ BACKSLASH ++ vname) cmd) [].
Proof. intros Hc. unfold run_value. rewrite Hc. apply shows_after; [apply safe_count_one|by apply shows_record]. Qed.

Lemma shows_run_keys root name scope path k vname cmd full :
  (root, name, scope) ∈ hives loaded_hives → path ∈ RUN_KEYS →
  match after_prefix "HKU\" name with Some sid => sid ++ BACKSLASH ++ lit path | None => lit path end = full →
  open_subkey true root full = Ok k → Ok vname ∈ enum_values k → get_string k vname = Some cmd →
  shows run_keys (run_entry scope (name ++ BACKSLASH ++ lit path ++ BACKSLASH ++ vname) cmd) [].
Proof.
  intros Hr Hp Hf Hk Hv Hc. unfold run_keys. apply shows_after; [apply safe_new_run|].
  apply (shows_right _ _ loaded_hives); [apply safe_user_hives|apply returns_user_hives|].
  apply shows_left; [|secure|secure].
  apply (shows_for_each _ _ (root, name, scope)); [done| |secure]. cbn iota.
  apply (shows_for_each _ _ path); [done| |secure]. unfold run_key.
  destruct (after_prefix "HKU\" name) as [sid|]; cbn iota in Hf; subst full; cbn iota;
    (eapply shows_with_key; [exact Hk|]; apply (shows_for_each _ _ (Ok vname)); [done| |secure]; by apply shows_run_value).
Qed.

Lemma shows_services k name e ks :
  open_subkey true hklm (lit SERVICES) = Ok k → name ∈ takeN 20000 (Ebpf.flatten (enum_keys k)) →
  shows (service k name) e ks → shows services e ks.
Proof.
  intros Hk Hn Hs. unfold services. apply shows_after; [apply safe_new_run|]. apply shows_left; [|secure|secure].
  eapply shows_with_key; [exact Hk|]. apply (shows_for_uncancelled _ _ name); [done..|secure].
Qed.

Lemma shows_root {B} (f : text → M B) e ks : shows (f root_of_system) e ks → shows (root ← get system_root; f root) e ks.
Proof. intros Hf. apply (shows_right _ _ root_of_system); [apply safe_get|by intros s []|done]. Qed.

Lemma shows_winlogon_part e ks (i : nat) :
  match i with
  | 0%nat => ∃ k name, open_subkey true hklm (lit WINLOGON) = Ok k ∧ name ∈ ["Shell"; "Userinit"; "Taskman"; "AppSetup"]%string ∧
         shows (winlogon_name k name) e ks
  | 1%nat => ∃ path k, path ∈ WINDOWS_NT ∧ open_subkey true hklm (lit path) = Ok k ∧ shows (appinit_key path k) e ks
  | _ => ∃ base value_name k image, (base, value_name) ∈ [(IFEO, "Debugger"%string); (SILENT_EXIT, "MonitorProcess"%string)] ∧
         open_subkey true hklm (lit base) = Ok k ∧ image ∈ takeN 10000 (Ebpf.flatten (enum_keys k)) ∧
         shows (redirect base value_name k image) e ks
  end → shows winlogon e ks.
Proof.
  intros H. unfold winlogon. apply shows_after; [apply safe_new_run|].
  destruct i as [|[|i]].
  - destruct H as (k & name & Hk & Hn & Hs). apply shows_left; [|secure|secure].
    eapply shows_with_key; [exact Hk|]. apply (shows_for_each _ _ name); [done..|secure].
  - apply shows_after; [secure|]. destruct H as (path & k & Hp & Hk & Hs). apply shows_left; [|secure|secure].
    apply (shows_for_each _ _ path); [done| |secure]. eapply shows_with_key; [exact Hk|done].
  - do 2 (apply shows_after; [secure|]). destruct H as (base & value_name & k & image & Hp & Hk & Hi & Hs).
    apply shows_left; [|secure|secure]. apply (shows_for_each _ _ (base, value_name)); [done| |secure].
    eapply shows_with_key; [exact Hk|]. apply (shows_for_each _ _ image); [done..|secure].
Qed.

Lemma shows_tasks path f b e :
  path ∈ takeN MAX_TASK_FILES (files_below (N.to_nat MAX_DEPTH) (join root_of_system (lit "System32\Tasks"))) →
  open_file path = Ok f → read_to_end f MAX_FILE = Ok b → e ∈ task_entries_of path (parse_task (decode_text b)) →
  shows tasks e [].
Proof.
  intros Hp Hf Hb He. unfold tasks. apply shows_after; [apply safe_new_run|].
  apply (shows_root (λ root, _)). cbn zeta.
  eapply shows_right; [apply safe_task_walk|intros s _; apply walk_spec|].
  - rewrite rounds_cons. unfold rounds. cbn [fst snd]. rewrite N.sub_0_r. cbn. lia.
  - done.
  - by repeat constructor.
  - rewrite bind_cons, app_nil_r. cbn [default from_option id app mbind list_bind].
    apply shows_left; [|secure|secure]. apply (shows_for_uncancelled _ _ path); [exact Hp| |secure].
    unfold task_file. apply (shows_right _ _ (Some b)); [apply safe_read_file|by eapply returns_read_file|].
    apply shows_after; [apply safe_count_one|]. apply (shows_for_each _ _ e); [done|by apply shows_record|secure].
Qed.

Lemma shows_startup dir sc es d :
  (dir, sc) ∈ all_users_dirs ++ (match read_dir users_dir with Ok us => user_startup <$> flat_entries us | Err _ => [] end) →
  read_dir dir = Ok es → d ∈ flat_entries es → file_type d = Some IsFile →
  is_lit (lower (file_name d)) "desktop.ini" = false →
  shows startup_folders (startup_entry sc (join dir (file_name d)) (extension d)) [].
Proof.
  intros Hd He Hi Ht Hn. unfold startup_folders. apply shows_after; [apply safe_new_run|].
  eapply (shows_right _ _ (match read_dir users_dir with Ok us => user_startup <$> flat_entries us | Err _ => [] end)).
  - secure.
  - destruct (read_dir users_dir) as [us|err]; [apply returns_ret|]. intros s Hs. unfold mbind, M_bind.
    by destruct (error users_dir err s).
  - apply shows_left; [|secure|secure]. apply (shows_for_each _ _ (dir, sc)); [done| |secure].
    unfold startup_dir. cbn [fst snd]. rewrite He. apply (shows_for_each _ _ d); [done| |secure].
    unfold startup_file. rewrite Hn, bool_decide_true by done. cbn [orb negb].
    apply shows_after; [apply safe_count_one|]. cbn zeta. apply shows_after; [|by apply shows_record].
    unfold startup_line. secure.
Qed.

Lemma shows_autostart e ks : autostart e ks → ∃ m, m ∈ checks ∧ shows m e ks.
Proof.
  unfold checks. destruct 1 as [path k vname cmd Hp Hk Hv Hc|sid path k vname cmd Hs Hp Hk Hv Hc|nm k value Hn Hk Hg location
    |path k dlls Hp Hk Hg Ht location|base vn k image sub cmd Hb Hk Hi Ho Hg location|k nm svc image Hk Hn Ho Hs Hg
    |k nm svc dll Hk Hn Ho Hs Hg|path f b e Hp Hf Hb He|dir sc es d Hd Hr Hi Ht Hn].
  - exists run_keys. split; [by left|]. eapply shows_run_keys; [by left|done|reflexivity|done..].
  - exists run_keys. split; [by left|]. eapply shows_run_keys; [|done| |done..].
    + right. apply list_elem_of_fmap. by exists sid.
    + by rewrite after_prefix_app.
  - exists winlogon. split; [do 1 right; by left|]. apply (shows_winlogon_part _ _ 0). exists k, nm. split_and!; [done..|].
    unfold winlogon_name. rewrite Hg. apply shows_after; [apply safe_count_one|].
    apply (shows_root (λ root, _)). apply shows_winlogon_value.
  - exists winlogon. split; [do 1 right; by left|]. apply (shows_winlogon_part _ _ 1). exists path, k. split_and!; [done..|].
    unfold appinit_key. rewrite Hg. cbn [default from_option id]. cbn zeta. apply shows_after; [apply safe_count_one|].
    by apply shows_appinit.
  - exists winlogon. split; [do 1 right; by left|]. apply (shows_winlogon_part _ _ 2). exists base, vn, k, image.
    split_and!; [done..|]. unfold redirect. rewrite Ho. apply shows_after; [apply safe_count_one|]. rewrite Hg.
    apply shows_redirect.
  - exists services. split; [do 2 right; by left|]. eapply shows_services; [done..|]. unfold service. rewrite Ho. cbn zeta.
    unfold service_start in *. rewrite (proj2 (N.ltb_ge _ _)) by done. apply shows_after; [apply safe_count_one|].
    apply (shows_root (λ root, _)). rewrite Hg. apply shows_left; [by apply shows_record|apply safe_record|secure].
  - exists services. split; [do 2 right; by left|]. eapply shows_services; [done..|]. unfold service. rewrite Ho. cbn zeta.
    unfold service_start in *. rewrite (proj2 (N.ltb_ge _ _)) by done. apply shows_after; [apply safe_count_one|].
    apply (shows_root (λ root, _)). apply shows_after; [secure|]. rewrite Hg. by apply shows_record.
  - exists tasks. split; [do 3 right; by left|]. by eapply shows_tasks.
  - exists startup_folders. split; [do 4 right; by left|]. by eapply shows_startup.
Qed.

Lemma safe_run_list ms : (∀ m, m ∈ ms → safe m) → safe (run_list ms).
Proof.
  induction ms as [|m ms IH]; intros Hs; simpl; [apply safe_ret|]. apply safe_bind; [apply Hs; by left|]. intros c.
  apply safe_bind; [|intros; apply safe_ret]. apply IH. intros m' Hm. apply Hs. by right.
Qed.

Lemma shows_run_list ms m e ks : m ∈ ms → shows m e ks → (∀ m, m ∈ ms → safe m) → shows (run_list ms) e ks.
Proof.
  intros Hm. revert e ks. induction Hm as [m ms|m m' ms Hm IH]; intros e ks Hs Ha; simpl.
  - apply shows_left; [done|apply Ha; by left|]. intros c. apply safe_bind; [|intros; apply safe_ret].
    apply safe_run_list. intros m' Hm. apply Ha. by right.
  - intros s Hi. unfold mbind at 1, M_bind at 1. pose proof (Ha m' ltac:(by left) s Hi) as [Hi' _].
    destruct (m' s) as [c s']. simpl in Hi'. apply shows_left; [|apply safe_run_list; intros m'' Hm''; apply Ha; by right|secure|done].
    apply IH; [done|]. intros m'' Hm''. apply Ha. by right.
Qed.

Lemma start_state_inv : inv start_state.
Proof. split; [apply sound_empty|done]. Qed.

(** What the outcome of a run holds of an entry. *)
Definition listed (out : SystemChecks.SystemCheckOutcome) (e : WinEntry) (ks : list Key) : Prop :=
  entry_of e ∈ SystemChecks.o_persistence out ∧
  ∀ k, deserved e k ∨ k ∈ ks → ∃ n f, SystemChecks.o_findings out !! n = Some f ∧ made n f k.

End WithHost.
End InventoryProps.
