(* ===== verification/WinExamples.v ===== *)
(** * System checks on Windows: a small host

    A concrete registry and disk on which the theorems about the Windows
    checks apply, and what the checks do on inputs that deserve attention. *)

From S2P Require Import Prelude Utf8 Paths Core External AuditLog Remediation Heuristics Chars SystemFs SystemCtx Persistence SystemLive Packages SystemChecks SystemLaws SystemExamples WinRules WinChecks WinLaws.

Module WinToy.
Import Windows WinChecks.

(** The registry: the machine, the users, the first Run key, the services and
    Winlogon, each opened by its path; [fails] is how the services answer. *)
Inductive Key := Machine | Users | RunKey | ServiceList | LogonKey.
Definition value_name : text := lit "updater".
Definition value : text := lit "%TEMP%\u.exe /q".

Definition open_key (run_fails : option ErrorKind) (fails : ErrorKind) (k : Key) (p : text) : result WinError Key :=
  match k with
  | Machine =>
      if is_lit p "Software\Microsoft\Windows\CurrentVersion\Run"
      then match run_fails with Some f => Err (mkError f "refused") | None => Ok RunKey end
      else if is_lit p SERVICES then Ok ServiceList
      else if is_lit p WINLOGON then Ok LogonKey
      else Err (mkError NotFound "no such key")
  | ServiceList => Err (mkError fails "refused")
  | _ => Err (mkError NotFound "no such key")
  end.

(** A task that logs on and starts a program. *)
Definition toy_task : TaskXml.TaskDef :=
  TaskXml.mkDef [(lit "C:\t.exe", [])] [] true false None (lit "a & b") (λ _, [13; 10]).

Definition host (run_fails : option ErrorKind) (fails : ErrorKind) : Host := {|
  env := λ n, if WinRules.same_text n "TEMP" then Some (lit "C:\Windows\Temp") else None;
  Windows.Key := Key; hklm := Machine; hku := Users;
  open_subkey := λ _, open_key run_fails fails;
  enum_keys := λ k, match k with ServiceList => [Ok (lit "evil")] | _ => [] end;
  enum_values := λ k, match k with RunKey => [Ok value_name] | _ => [] end;
  get_string := λ k n, match k with
                       | RunKey => if bool_decide (n = value_name) then Some value else None
                       | LogonKey => if is_lit n "Shell" then Some (lit "C:\x.exe") else None
                       | _ => None
                       end;
  get_u32 := λ _ _, None;
  File := unit;
  read_dir := λ p, if is_lit p "C:\Windows\System32\Tasks" then Ok [Some (mkDirEntry (lit "T") (Some IsFile))]
                   else Err (mkError NotFound "no such file");
  open_file := λ _, Ok tt;
  read_to_end := λ _ _, Ok (TaskXml.encode_file TaskXml.Utf16LE (TaskXml.task_xml toy_task)) |}.
End WinToy.

Module WinWitness.
Import System Windows WinRules WinChecks WinLaws.CollectorProps WinLaws.InventoryProps WinToy.
#[local] Existing Instances Toy.patterns Toy.session.
#[local] Instance toy_host : Host := host None NotFound.

Definition options : SystemChecks.SystemCheckOptions := SystemChecks.mkOptions "/" true true false 300.
Definition outcome : SystemChecks.SystemCheckOutcome :=
  match run_checks options with
  | Ok out => out
  | Err _ => SystemChecks.mkOutcome windows_host [] [] [] [] []
  end.
Definition entry : WinEntry :=
  run_entry SystemScope (lit "HKLM" ++ BACKSLASH ++ lit "Software\Microsoft\Windows\CurrentVersion\Run" ++ BACKSLASH ++ value_name) value.

Definition task_path : text := lit "C:\Windows\System32\Tasks\T".

Lemma toy_task_wf : TaskXml.wf toy_task.
Proof.
  split; try (simpl; lia); try (by constructor); try (apply (bool_decide_unpack _); vm_compute; exact I).
  - constructor; [|constructor]. split; (split; [apply (bool_decide_unpack _); vm_compute; exact I|]).
    + split; by intros c [= <-].
    + by split.
  - intros k. apply (bool_decide_unpack _). vm_compute. exact I.
Qed.


(** The value is reported for the place of its program, the Winlogon value
    because it is no default, the task is listed. *)
Example toy_rules :
  (Finding.rule_id ∘ Finding.source <$> SystemChecks.o_findings outcome) = [Some "AW-SYS-001"; Some "AW-SYS-022"]%string.
Proof. vm_compute. reflexivity. Qed.
Example toy_inventory : length (SystemChecks.o_persistence outcome) = 3%nat.
Proof. vm_compute. reflexivity. Qed.
End WinWitness.

(** ** What deserves attention *)
Module WinGaps.
Import System Windows WinRules WinChecks WinToy.
#[local] Existing Instances Toy.patterns Toy.session.

Definition statuses (H : Host) : list CheckStatus :=
  match run_checks WinWitness.options with Ok out => System.status <$> SystemChecks.checks out | Err _ => [] end.
Definition run_issues (H : Host) : nat :=
  match run_checks WinWitness.options with Ok out => length (SystemChecks.o_issues out) | Err _ => 0%nat end.

(** A service whose key denies access is left out, and nothing says so. *)
Lemma denied_service_unseen :
  statuses (host None PermissionDenied) = repeat Completed 5 ++ repeat Unsupported 4 ∧
  run_issues (host None PermissionDenied) = 0%nat.
Proof. split; vm_compute; reflexivity. Qed.

(** A Run key that cannot be read for another reason than its permissions
    leaves the check complete; only the issue remains. *)
Lemma unreadable_key_complete :
  statuses (host (Some OtherKind) NotFound) = repeat Completed 5 ++ repeat Unsupported 4 ∧
  run_issues (host (Some OtherKind) NotFound) = 1%nat.
Proof. split; vm_compute; reflexivity. Qed.

(** The accounts of services are written without a blank. *)
Lemma local_service_not_system :
  system_principal (Some (lit "NT AUTHORITY\LocalService")) = false ∧
  system_principal (Some (lit "NT AUTHORITY\NetworkService")) = false.
Proof. split; vm_compute; reflexivity. Qed.

(** White space in the end tag, which XML allows, hides the actions. *)
Lemma blank_in_end_tag_hides_actions :
  commands (parse_task (lit "<Task><Actions><Exec><Command>C:\x.exe</Command></Exec ></Actions></Task>")) = [].
Proof. vm_compute. reflexivity. Qed.

(** A path in the form [\\?\C:\..] is not seen as a user's. *)
Lemma extended_path_unclassified :
  classify (lit "C:\Users\a\x.exe") = UserWritable ∧ classify (lit "\\?\C:\Users\a\x.exe") = Other.
Proof. split; vm_compute; reflexivity. Qed.
End WinGaps.
