(* ===== verification/WinPaths.v ===== *)
(** * Windows paths

    [std::path::Path] on Windows, as far as the quarantine store uses it, and
    the parts of core/src/[path.rs], remediation/src/[common.rs] and
    [policy.rs] that differ there. A path is its octets, with code units that
    are no characters encoded like characters (as [OsString] keeps them). *)

From S2P Require Import Prelude Utf8 Paths Core External AuditLog Remediation Heuristics Chars SystemFs SystemCtx Persistence SystemLive Packages SystemChecks WinRules WinChecks.

Module WinPath.
Import Record (RemediationError, InvalidPath, unhex).

Definition is_sep (c : N) : bool := (c =? 92) || (c =? 47).
Definition is_verbatim_sep (c : N) : bool := c =? 92.

(** The prefixes of [std::path::Prefix], with their lengths. *)
Inductive Prefix := Disk | VerbatimDisk | Verbatim (n : N) | VerbatimUNC (n : N) | UNC (n : N) | DeviceNS (n : N).
Definition prefix_len (p : Prefix) : N :=
  match p with Disk => 2 | VerbatimDisk => 6 | Verbatim n | VerbatimUNC n | UNC n | DeviceNS n => n end.
Definition is_verbatim (p : Prefix) : bool :=
  match p with VerbatimDisk | Verbatim _ | VerbatimUNC _ => true | _ => false end.
(** Every prefix but a drive stands for a root. *)
Definition implicit_root (p : Prefix) : bool := match p with Disk => false | _ => true end.

Definition is_drive_letter (c : N) : bool := is_ascii_upper c || is_ascii_lower c.
Definition next_component (sep : N → bool) (l : bytes) : bytes * bytes := default (l, []) (split_at sep l).
(** The length of a server and a share after [n] octets. *)
Definition unc_len (n : N) (server share : bytes) : N :=
  n + vlen server + (if bool_decide (share = []) then 0 else 1 + vlen share).

Definition parse_drive (l : bytes) : bool :=
  match l with d :: c :: _ => is_drive_letter d && (c =? 58) | _ => false end.
Definition parse_drive_exact (l : bytes) : bool :=
  parse_drive l && from_option is_sep true (head (drop 2 l)).

Definition parse_prefix (l : bytes) : option Prefix :=
  match l with
  | a :: b :: r =>
      if is_sep a && is_sep b then
        if starts l "\\?\" then
          let r := drop 4 l in
          match r with
          | u :: n :: c :: s :: r' =>
              if is_lit [u; n; c] "UNC" && is_sep s then
                let '(server, r') := next_component is_verbatim_sep r' in
                let '(share, _) := next_component is_verbatim_sep r' in
                Some (VerbatimUNC (unc_len 8 server share))
              else if parse_drive_exact r then Some VerbatimDisk
              else Some (Verbatim (4 + vlen (next_component is_verbatim_sep r).1))
          | _ =>
              if parse_drive_exact r then Some VerbatimDisk
              else Some (Verbatim (4 + vlen (next_component is_verbatim_sep r).1))
          end
        else
          match r with
          | d :: s :: r' =>
              if (d =? 46) && is_sep s then Some (DeviceNS (4 + vlen (next_component is_sep r').1))
              else
                let '(server, r'') := next_component is_sep r in
                let '(share, _) := next_component is_sep r'' in
                if bool_decide (server = []) || bool_decide (share = []) then None
                else Some (UNC (unc_len 2 server share))
          | _ => None
          end
      else if parse_drive l then Some Disk else None
  | _ => None
  end.

(** A path in parts: the prefix, the separator that is its root, the rest. *)
Record Parts := mkParts { prefix : option Prefix; before : bytes; root_sep : bytes; body : bytes }.
Definition sep_of (p : option Prefix) : N → bool :=
  match p with Some p => if is_verbatim p then is_verbatim_sep else is_sep | None => is_sep end.
Definition parts (l : bytes) : Parts :=
  let p := parse_prefix l in
  let n := N.to_nat (from_option prefix_len 0 p) in
  match drop n l with
  | c :: r => if sep_of p c then mkParts p (take n l) [c] r else mkParts p (take n l) [] (c :: r)
  | [] => mkParts p (take n l) [] []
  end.

Definition is_absolute (l : bytes) : bool :=
  match prefix (parts l) with
  | Some p => implicit_root p || negb (bool_decide (root_sep (parts l) = []))
  | None => false
  end.

(** A segment that is no component. *)
Definition verbatim_of (p : option Prefix) : bool := from_option is_verbatim false p.
Definition trivial (verb : bool) (s : bytes) : bool := bool_decide (s = []) || (negb verb && is_lit s ".").
Definition segment (verb : bool) (s : bytes) : list component :=
  if trivial verb s then []
  else if is_lit s "." then [CurDir]
  else if is_lit s ".." then [ParentDir]
  else [Normal (of_bytes s)].
(** The components after the prefix and the root. *)
Definition components (l : bytes) : list component :=
  let p := parts l in split (sep_of (prefix p)) (body p) ≫= segment (verbatim_of (prefix p)).

(** [path.parent()]: the path up to its last component. *)
Fixpoint trim_right (fuel : nat) (p : option Prefix) (l : bytes) : bytes :=
  match fuel with
  | O => l
  | S fuel =>
      match rsplit_at (sep_of p) l with
      | Some (a, b) => if trivial (verbatim_of p) b then trim_right fuel p a else l
      | None => if trivial (verbatim_of p) l then [] else l
      end
  end.
Definition parent (l : bytes) : bytes :=
  let p := parts l in
  let b := trim_right (S (length (body p))) (prefix p) (body p) in
  before p ++ root_sep p ++
  match rsplit_at (sep_of (prefix p)) b with
  | Some (a, _) => trim_right (S (length a)) (prefix p) a
  | None => []
  end.

(** common.rs *)
Definition split_checked (p : path) : result RemediationError (path * string) :=
  let l := as_bytes p in
  if negb (is_absolute l) || existsb (λ c, bool_decide (c = ParentDir)) (components l) then Err (InvalidPath p)
  else match last (components l) with
       | Some (Normal name) => Ok (of_bytes (parent l), name)
       | _ => Err (InvalidPath p)
       end.

(** [path.join(name)] for a relative [name] without a root, normal as it is:
    one with a prefix of its own replaces the path. *)
Definition join (p name : path) : path :=
  if bool_decide (is_Some (parse_prefix (as_bytes name))) then name
  else of_bytes (WinChecks.join (as_bytes p) (as_bytes name)).

(** [path.to_string_lossy()]: a code unit that is no character is replaced. *)
Fixpoint replace_surrogates (l : bytes) : bytes :=
  match l with
  | a :: (b :: _ :: r) as t =>
      if (a =? 0xED) && (0xA0 <=? b) then 0xEF :: 0xBF :: 0xBD :: replace_surrogates r
      else a :: replace_surrogates t
  | a :: t => a :: replace_surrogates t
  | [] => []
  end.
Definition to_string_lossy (p : path) : string := of_bytes (replace_surrogates (as_bytes p)).

(** The code units of a path ([encode_wide]) and the path of code units
    ([from_wide]). *)
Fixpoint code_points (l : bytes) : list N :=
  match l with
  | [] => []
  | a :: l1 =>
      if a <? 0x80 then a :: code_points l1
      else match l1 with
           | [] => [a]
           | b :: l2 =>
               if a <? 0xE0 then (a - 0xC0) * 64 + (b - 0x80) :: code_points l2
               else match l2 with
                    | [] => [a]
                    | c :: l3 =>
                        if a <? 0xF0 then (a - 0xE0) * 4096 + (b - 0x80) * 64 + (c - 0x80) :: code_points l3
                        else match l3 with
                             | [] => [a]
                             | d :: l4 =>
                                 (a - 0xF0) * 262144 + (b - 0x80) * 4096 + (c - 0x80) * 64 + (d - 0x80)
                                 :: code_points l4
                             end
                    end
           end
  end.
Definition encode_wide (p : path) : list N :=
  code_points (as_bytes p) ≫= λ c,
    if c <? 0x10000 then [c] else [0xD800 + (c - 0x10000) / 0x400; 0xDC00 + (c - 0x10000) mod 0x400].
Fixpoint from_wide_points (us : list N) : list N :=
  match us with
  | [] => []
  | u :: r =>
      match r with
      | v :: r' =>
          if WinRules.is_high u && WinRules.is_low v
          then 0x10000 + (u - 0xD800) * 0x400 + (v - 0xDC00) :: from_wide_points r'
          else u :: from_wide_points r
      | [] => [u]
      end
  end.
Definition from_wide (us : list N) : path := of_bytes (encode (from_wide_points us)).

(** core/src/path.rs *)
Definition native_hex (p : path) : option string :=
  Some (Digest.hex_encode (encode_wide p ≫= λ u, [u mod 256; u / 256])).
Definition from_path (p : path) : ObservedPath :=
  match from_utf8 (as_bytes p) with
  | Some s => ObservedPath.mk s None
  | None => ObservedPath.mk (to_string_lossy p) (native_hex p)
  end.

(** policy.rs *)
Definition native_path (p : ObservedPath) : option path :=
  match ObservedPath.raw_hex p with
  | None => Some (ObservedPath.text p)
  | Some h =>
      bs ← unhex h;
      if vlen bs mod 2 =? 0 then Some (from_wide (WinRules.units false bs)) else None
  end.

Definition backslashes (s : string) : bytes := (λ c, if c =? 47 then 92 else c) <$> as_bytes s.
Definition strip_verbatim (l : bytes) : bytes := default l (after_prefix "\\?\" l).
Definition trim_end_separators (l : bytes) : bytes := trim_end_while (is_char 92) l.

Definition norm_under (s : string) : bytes :=
  trim_end_separators (to_lower_byte <$> strip_verbatim (backslashes s)).
Definition under_root (p r : bytes) : bool := bool_decide (p = r) || Anchors.list_starts_with (r ++ [92]) p.
Definition windows_path_under (p : string) (roots : list string) : bool :=
  existsb (under_root (norm_under p)) (List.filter (λ r, negb (bool_decide (r = []))) (norm_under <$> roots)).

Section WithEnvironment.
(** [std::env::var(k).ok()] *)
Context (env : string → option string).

Definition protected_roots : list string :=
  omap env ["SystemRoot"; "ProgramFiles"; "ProgramFiles(x86)"; "ProgramW6432"]%string
  ++ (match env "ProgramData" with Some pd => [(pd +:+ "\Microsoft")%string] | None => [] end)
  ++ ((λ d, (default "C:" (env "SystemDrive") +:+ "\" +:+ d)%string)
        <$> ["Boot"; "Recovery"; "System Volume Information"; "$Recycle.Bin"; "EFI"]%string).
Definition is_protected_path (p : path) : bool := windows_path_under (to_string_lossy p) protected_roots.
End WithEnvironment.

(** windows.rs: [norm], paths compared the way Windows resolves them. *)
Definition norm (p : path) : bytes :=
  let s := backslashes (to_string_lossy p) in
  let s := match after_prefix "\\?\UNC\" s with
           | Some unc => lit "\\" ++ unc
           | None => strip_verbatim s
           end in
  trim_end_separators (to_lower_byte <$> s).
Definition same_place (p q : path) : bool := bool_decide (norm p = norm q).
End WinPath.
