(* ===== verification/WinDisk.v ===== *)
(** * The file system under Windows

    The calls of the quarantine store on Windows, over the files and programs
    of [Disk]. Names are kept by a journal: operations on them reach the disk
    in the order they were made, some time after the call, so a power loss
    takes the names back to an earlier moment ([disk]), all of them to the
    same one. Content is on stable storage after [FlushFileBuffers] only. *)

From S2P Require Import Prelude Paths Disk.

Definition ERROR_FILE_NOT_FOUND : errno := 2.
Definition ERROR_PATH_NOT_FOUND : errno := 3.
Definition ERROR_ACCESS_DENIED : errno := 5.
Definition ERROR_INVALID_DRIVE : errno := 15.
Definition ERROR_SHARING_VIOLATION : errno := 32.
Definition ERROR_LOCK_VIOLATION : errno := 33.
Definition ERROR_BAD_NETPATH : errno := 53.
Definition ERROR_BAD_NET_NAME : errno := 67.
Definition ERROR_FILE_EXISTS : errno := 80.
Definition ERROR_ALREADY_EXISTS : errno := 183.

(** The kinds of [io::Error] the store asks for. No error of Windows is of
    kind [Interrupted]. *)
Definition is_not_found_kind (e : errno) : bool :=
  bool_decide (e ∈ [ERROR_FILE_NOT_FOUND; ERROR_PATH_NOT_FOUND; ERROR_INVALID_DRIVE; ERROR_BAD_NETPATH;
                    ERROR_BAD_NET_NAME]).
Definition is_already_exists (e : errno) : bool :=
  bool_decide (e ∈ [ERROR_FILE_EXISTS; ERROR_ALREADY_EXISTS]).

Definition FILE_ATTRIBUTE_DIRECTORY : N := 0x10.
Definition FILE_ATTRIBUTE_ARCHIVE : N := 0x20.
Definition FILE_ATTRIBUTE_REPARSE_POINT : N := 0x400.

(** Where a name is: its directory's file index and the name. *)
Abbreviation place := (inum * string)%type.

(** A handle: where it was opened, the file, and whether it was opened with
    the [DELETE] right. *)
Record handle := mkHandle { h_place : place; h_file : inum; h_delete : bool }.

(** ** Calls

    [perm] holds the attributes, [dev] the volume's serial number; the file
    index is the key of [inodes]. *)

(** [CreateFileW] with [OPEN_EXISTING]: a reparse point is opened itself. *)
Definition win_open (k : place) (f : Fs) : result errno inum * Fs :=
  (match live f !! k with
   | None => Err ERROR_FILE_NOT_FOUND
   | Some i => match inodes f !! i with None => Err ERROR_ACCESS_DENIED | Some _ => Ok i end
   end, f).

(** [CREATE_NEW] *)
Definition win_create_new (k : place) (f : Fs) : result errno inum * Fs :=
  match live f !! k with
  | Some _ => (Err ERROR_FILE_EXISTS, f)
  | None =>
      let i := fresh_inum f in
      (Ok i, mkFs (<[i := new_inode FILE_ATTRIBUTE_ARCHIVE 0 0 0]> (inodes f)) (<[k := i]> (live f)) (disk f))
  end.

(** [CREATE_ALWAYS] *)
Definition win_create_always (k : place) (f : Fs) : result errno inum * Fs :=
  match live f !! k with
  | None => win_create_new k f
  | Some i =>
      match inodes f !! i with
      | None => (Err ERROR_ACCESS_DENIED, f)
      | Some x => (Ok i, set_inode i (set_data [] false x) f)
      end
  end.

(** [OPEN_ALWAYS] *)
Definition win_open_always (k : place) (f : Fs) : result errno inum * Fs :=
  match live f !! k with Some _ => win_open k f | None => win_create_new k f end.

(** [DeleteFileW] *)
Definition win_delete (k : place) (f : Fs) : result errno unit * Fs :=
  match live f !! k with
  | None => (Err ERROR_FILE_NOT_FOUND, f)
  | Some _ => (Ok tt, set_live (base.delete k (live f)) f)
  end.

(** [SetFileInformationByHandle] with [FileDispositionInfoEx] and POSIX
    semantics: the name goes at once; it needs the [DELETE] right. *)
Definition win_delete_by_handle (h : handle) (f : Fs) : result errno unit * Fs :=
  if h_delete h then
    if bool_decide (live f !! h_place h = Some (h_file h))
    then (Ok tt, set_live (base.delete (h_place h) (live f)) f)
    else (Err ERROR_FILE_NOT_FOUND, f)
  else (Err ERROR_ACCESS_DENIED, f).

(** [MoveFileExW] with [MOVEFILE_REPLACE_EXISTING] *)
Definition win_rename (a b : place) (f : Fs) : result errno unit * Fs :=
  match live f !! a with
  | None => (Err ERROR_FILE_NOT_FOUND, f)
  | Some i => (Ok tt, set_live (<[b := i]> (base.delete a (live f))) f)
  end.

(** [CreateHardLinkW] *)
Definition win_link (a b : place) (f : Fs) : result errno unit * Fs :=
  match live f !! a, live f !! b with
  | None, _ => (Err ERROR_FILE_NOT_FOUND, f)
  | Some _, Some _ => (Err ERROR_ALREADY_EXISTS, f)
  | Some i, None => (Ok tt, set_live (<[b := i]> (live f)) f)
  end.

(** [CreateDirectoryW] *)
Definition win_mkdir (k : place) (f : Fs) : result errno unit * Fs :=
  match live f !! k with
  | Some _ => (Err ERROR_ALREADY_EXISTS, f)
  | None =>
      let i := fresh_inum f in
      (Ok tt, mkFs (<[i := mkInode [] true Directory FILE_ATTRIBUTE_DIRECTORY 0 0 1 0 0]> (inodes f))
                (<[k := i]> (live f)) (disk f))
  end.

(** The journal reaches the disk. *)
Definition journal (f : Fs) : Fs := mkFs (inodes f) (live f) (live f).

(** A power loss: every name as the journal has it. *)
Definition win_lose_power (garbage : gmap inum bytes) (f : Fs) : Fs := lose_power ∅ garbage f.

(** ** Programs *)
Section Programs.
Context {T E : Type}.

Definition win_next_fault : M T E fault := λ s,
  match faults s with
  | [] => Return Proceed s
  | PowerLoss _ garbage :: _ => Lost (win_lose_power garbage (fs s))
  | x :: r => Return x (mkState (self s) (fs s) r (clock s) (entropy s) (signals s) (sent s) (delivered s))
  end.

(** One call: power may be lost before it; what it does depends on its fault. *)
Definition at_fault {A} (k : fault → Fs → A * Fs) : M T E A :=
  x ← win_next_fault; (λ s, let '(a, f) := k x (fs s) in Return a (set_fs f s)) : M T E A.

(** A call on names; with [Short] the journal reaches the disk after it. *)
Definition win_call {A} (op : Fs → result errno A * Fs) : M T E (result errno A) :=
  at_fault (λ x f, match x with
                   | Fails e => (Err e, f)
                   | Short _ => let '(r, f) := op f in (r, journal f)
                   | _ => op f
                   end).

(** [file.write_all(bs)]: all of it, or an error after some prefix. *)
Definition win_write_all (i : inum) (bs : bytes) : M T E (result errno unit) :=
  at_fault (λ x f, match x with
                   | Fails e => (Err e, f)
                   | Short n => (if vlen bs <=? n then Ok tt else Err EIO, sys_write i (take (N.to_nat n) bs) f)
                   | _ => (Ok tt, sys_write i bs f)
                   end).

(** [file.read(&mut buf)] at offset [off] with a buffer of [max] octets. *)
Definition win_read (i : inum) (off max : N) : M T E (result errno bytes) :=
  at_fault (λ x f,
    let rest := from_option (λ x, drop (N.to_nat off) (data x)) [] (inodes f !! i) in
    (match x with
     | Fails e => Err e
     | Short n => Ok (take (N.to_nat (N.min max (N.max 1 n))) rest)
     | _ => Ok (take (N.to_nat max) rest)
     end, f)).

Lemma win_next_fault_triple t P (C : Fs → Prop) R :
  (∀ f garbage, P f → C (win_lose_power garbage f)) →
  triple (on_fs t P) win_next_fault (λ _, on_fs t P) R C.
Proof.
  intros HC s [Ht Hs]. unfold win_next_fault, on_fs in *.
  destruct (faults s) as [|[] r]; simpl; auto.
Qed.

Lemma at_fault_triple {A} t (k : fault → Fs → A * Fs) P (Q : A → Fs → Prop) (R : E → state T → Prop)
    (C : Fs → Prop) :
  (∀ f garbage, P f → C (win_lose_power garbage f)) →
  (∀ x f, P f → Q (k x f).1 (k x f).2) →
  triple (on_fs t P) (at_fault k) (λ a, on_fs t (Q a)) R C.
Proof.
  intros HC HQ. eapply triple_bind; [by apply win_next_fault_triple|].
  intros x s [Ht Hs]. specialize (HQ x (fs s) Hs). unfold on_fs. simpl. destruct (k x (fs s)). by split.
Qed.

(** [call(op).map_err(g)?]: what the call establishes survives the journal. *)
Lemma win_call_triple {A} t (op : Fs → result errno A * Fs) (P : Fs → Prop) (Q : result errno A → Fs → Prop)
    (R : E → state T → Prop) (C : Fs → Prop) :
  (∀ f garbage, P f → C (win_lose_power garbage f)) →
  (∀ f e, P f → Q (Err e) f) →
  (∀ f, P f → Q (op f).1 (op f).2 ∧ Q (op f).1 (journal (op f).2)) →
  triple (on_fs t P) (win_call op) (λ r, on_fs t (Q r)) R C.
Proof.
  intros HC HE HQ. apply at_fault_triple; [done|]. intros x f Hf. destruct (HQ f Hf) as [H1 H2].
  destruct x; simpl; auto. by destruct (op f).
Qed.

Lemma win_write_triple t i bs (P : Fs → Prop) (Q : result errno unit → Fs → Prop)
    (R : E → state T → Prop) (C : Fs → Prop) :
  (∀ f garbage, P f → C (win_lose_power garbage f)) →
  (∀ f e, P f → Q (Err e) f) →
  (∀ f e n, P f → Q (Err e) (sys_write i (take n bs) f)) →
  (∀ f, P f → Q (Ok tt) (sys_write i bs f)) →
  triple (on_fs t P) (win_write_all i bs) (λ r, on_fs t (Q r)) R C.
Proof.
  intros HC HE HS HQ. apply at_fault_triple; [done|]. intros [] f Hf; simpl; auto.
  destruct (N.leb_spec (vlen bs) n) as [Hn|Hn]; [|auto].
  rewrite take_ge by (unfold vlen in Hn; lia). auto.
Qed.

Lemma win_read_triple t i off max (P : Fs → Prop) (Q : result errno bytes → Fs → Prop)
    (R : E → state T → Prop) (C : Fs → Prop) :
  0 < max →
  (∀ f garbage, P f → C (win_lose_power garbage f)) →
  (∀ f e, P f → Q (Err e) f) →
  (∀ f n, P f → (0 < n)%nat →
     Q (Ok (take n (from_option (λ x, drop (N.to_nat off) (data x)) [] (inodes f !! i)))) f) →
  triple (on_fs t P) (win_read i off max) (λ r, on_fs t (Q r)) R C.
Proof.
  intros Hm HC HE HQ. apply at_fault_triple; [done|]. intros [] f Hf; cbn [fst snd]; auto;
    apply HQ; auto; lia.
Qed.

End Programs.

(** ** Facts *)

Lemma win_lose_power_live garbage f : live (win_lose_power garbage f) = disk f.
Proof.
  apply map_eq. intros k. unfold win_lose_power. rewrite lose_power_live. by rewrite decide_False by set_solver.
Qed.

Lemma win_lose_power_disk garbage f : disk (win_lose_power garbage f) = disk f.
Proof. exact (win_lose_power_live garbage f). Qed.
