(* ===== verification/WinStore.v ===== *)
(** * The Windows quarantine store

    [crates/remediation/src/windows.rs] and what it calls of
    [crates/winsec/src/windows.rs], over the file system of [WinDisk]. The
    answers of Windows that no operation of the store changes are the class
    [WinSys]: where a path leads, final paths, security descriptors, the
    running processes. *)

From S2P Require Import Prelude Utf8 Paths Core External AuditLog Remediation Disk QuarantineStore Chars WinPaths WinDisk Sddl.
Import Record (ItemState, Pending, Quarantined, Restored, Deleted, RolledBack, Failed,
  mkOriginal, QuarantineRecord, mkRecord, format_version, id, state, original, key_hex, reason,
  notes, restored_to, created_at, advance, set_restored_to, add_notes,
  RemediationError, InvalidPath, SymlinkInPath, Protected, InsideStore, NotRegularFile, InUse, TooLarge,
  HardLinked, FileChanged, StoreInsecure, StoreBusy, InvalidId, UnknownItem,
  InvalidState, TargetExists, UnsafeTarget, Corrupt, Io, AuditErr, RECORD_FORMAT_VERSION,
  hex, unhex, parse_id, random_id).
Import Common (DATA_MAGIC, KEY_LEN, CHUNK, MAX_RECORD_BYTES, io_err, corrupt, xor_in_place).
Import Policy (QuarantineRequest, req_path, expected_sha256, req_reason, max_size, allow_protected, kill_processes).
Import ErrorText.
Import Store (RecoveryAction, mkRecovery, json_name, data_name, tmp_name, atomic_tmp, restore_tmp, ends_with,
  id_of, rec_le).

(** ** What Windows answers *)
Record ProcessInfo := mkProcessInfo { p_pid : N; p_name : string; p_image : option path }.

Inductive lock_result := Locked | WouldBlock | LockError (e : errno).

Class WinSys := {
  (** [std::env::var] *)
  env : string → option string;
  (** the place a path leads to, every directory on the way followed *)
  locate : path → result errno place;
  (** [std::fs::create_dir_all] and [canonicalize] *)
  create_dir_all : path → result errno unit;
  canonicalize : path → result errno path;
  try_lock : place → lock_result;
  (** winsec: the final path of a handle opened at a place, descriptors in
      SDDL, the user, the processes *)
  final_path : place → result errno path;
  security_descriptor : path → result errno string;
  set_protected_dacl : path → string → result errno unit;
  process_user_sid : result errno string;
  processes : result errno (list ProcessInfo);
  image_of : N → result errno path;
  terminate_process : N → result errno unit }.

Module WinStore.

Definition DELETE : N := 0x00010000.
(** Rights that let someone create or replace files in a directory. *)
Definition CREATE_IN_DIR : N :=
  fold_right N.lor 0 [0x2; 0x4; 0x40; 0x10000000; 0x40000000; 0x00040000; 0x00080000].

Inductive AnchorTarget := FromEnvironment | Disabled | EventLog.
Definition enabled (socket : option string) (t : AnchorTarget) : bool :=
  match t with
  | Disabled => false
  | EventLog => true
  | FromEnvironment => from_option (λ v, negb (bool_decide (v = ""%string))) true socket
  end.

Definition is_in_use (e : errno) : bool := bool_decide (e ∈ [ERROR_SHARING_VIOLATION; ERROR_LOCK_VIOLATION]).

Record QuarantineStore := mkStore {
  root : path;
  root_norm : bytes;
  items : path;
  audit : inum;
  head : Audit.ChainHead;
  user_sid : string;
  on_behalf_of : option string;
  recovered : list RecoveryAction;
  anchor : bool;
  anchor_failed : bool }.

Definition set_head (h : Audit.ChainHead) (failed : bool) (s : QuarantineStore) : QuarantineStore :=
  mkStore (root s) (root_norm s) (items s) (audit s) h (user_sid s) (on_behalf_of s) (recovered s) (anchor s) failed.
Definition push_recovered (r : RecoveryAction) (s : QuarantineStore) : QuarantineStore :=
  mkStore (root s) (root_norm s) (items s) (audit s) (head s) (user_sid s) (on_behalf_of s)
    (recovered s ++ [r]) (anchor s) (anchor_failed s).
Definition set_on_behalf_of (p : option string) (s : QuarantineStore) : QuarantineStore :=
  mkStore (root s) (root_norm s) (items s) (audit s) (head s) (user_sid s) p (recovered s) (anchor s) (anchor_failed s).

Definition items_path (s : QuarantineStore) (name : string) : path := WinPath.join (items s) name.
Definition log_path (s : QuarantineStore) : path := WinPath.join (root s) "audit.log".

Definition inside_store (s : QuarantineStore) (p : path) : bool :=
  let n := WinPath.norm p in
  bool_decide (n = root_norm s) || Anchors.list_starts_with (root_norm s ++ [92]) n.

Section Windows.
Context `{Sha256, Json Audit.AuditEntry, Json QuarantineRecord, JsonPretty QuarantineRecord,
  Json Allow.AllowlistFile, JsonPretty Allow.AllowlistFile, StdText, WinSys}.

Abbreviation P A := (M QuarantineStore RemediationError A).

(** [let _ = op] and [op.map_err(|e| io_err(what, path, e))?] *)
Definition ignore {A} (m : P (result errno A)) : P unit := _ ← m; mret tt.
Definition or_io {A} (what : string) (p : path) (m : P (result errno A)) : P A :=
  or_throw (λ e, io_err what p (Os e)) m.

(** A call on the place a path leads to. *)
Definition at_path {A} (p : path) (op : place → Fs → result errno A * Fs) : P (result errno A) :=
  win_call (λ f, match locate p with Ok k => op k f | Err e => (Err e, f) end).
(** What is at the path of an open handle. *)
Definition open_at (delete_right : bool) (k : place) (f : Fs) : result errno handle * Fs :=
  let '(r, f) := win_open k f in (i ← r; mret (mkHandle k i delete_right), f).
Definition asked {A} (r : result errno A) : P (result errno A) := win_call (λ f, (r, f)).

Definition remove_file (p : path) : P (result errno unit) := at_path p win_delete.
Definition rename (a b : path) : P (result errno unit) :=
  win_call (λ f, match locate a, locate b with
                 | Ok a, Ok b => win_rename a b f
                 | Err e, _ | _, Err e => (Err e, f)
                 end).
Definition hard_link (a b : path) : P (result errno unit) :=
  win_call (λ f, match locate a, locate b with
                 | Ok a, Ok b => win_link a b f
                 | Err e, _ | _, Err e => (Err e, f)
                 end).
(** [create_new]: the handle may not delete the file. *)
Definition create_new (p : path) : P (result errno handle) :=
  at_path p (λ k f, let '(r, f) := win_create_new k f in (i ← r; mret (mkHandle k i false), f)).

(** winsec: [terminate_if_image]; [OsStr]'s comparison ignores ASCII case. *)
Definition same_image (a b : path) : bool :=
  bool_decide (to_lower_byte <$> as_bytes a = to_lower_byte <$> as_bytes b).
Definition terminate_if_image (pid : N) (image : path) : result errno bool :=
  actual ← image_of pid;
  if same_image actual image then _ ← terminate_process pid; mret true else mret false.

(** [open_dir_no_reparse] *)
Definition open_dir_no_reparse (p : path) : P unit :=
  h ← or_io "open" p (at_path p (open_at false));
  st ← or_io "stat" p (win_call (sys_fstat (h_file h)));
  _ ← lift (reject_if (negb (bool_decide (ftype st = Directory))
                       || negb (N.land (perm st) FILE_ATTRIBUTE_REPARSE_POINT =? 0)) (SymlinkInPath p));
  actual ← or_io "resolve" p (asked (final_path (h_place h)));
  lift (reject_if (negb (WinPath.same_place actual p)) (SymlinkInPath p)).

(** [write_atomic] of [dir.join(name)] *)
Definition write_atomic (dir : path) (name : string) (bs : bytes) : P unit :=
  let p := WinPath.join dir name in
  let tmp := WinPath.join dir (atomic_tmp name) in
  i ← or_io "create" tmp (at_path tmp win_create_always);
  _ ← or_io "write" tmp (win_write_all i bs);
  _ ← or_io "sync" tmp (win_call (sys_fsync i));
  or_io "rename" p (rename tmp p).

Definition save (rec : QuarantineRecord) : P unit :=
  s ← get_self;
  let name := json_name (id rec) in
  bs ← lift (map_err (λ e, io_err "encode" (items_path s name) (OtherError e)) (to_vec_pretty rec));
  write_atomic (items s) name bs.

(** [read_bounded]: at most [max] octets and one more. *)
Definition read_bounded (p : path) (max : N) : P (result errno (option bytes)) :=
  r ← at_path p win_open;
  match r with
  | Err e => mret (if is_not_found_kind e then Ok None else Err e)
  | Ok i => bs ← win_call (sys_read_to_end i (max + 1)); mret (bs ← bs; mret (Some bs))
  end.

Definition get (i : QuarantineId) : P QuarantineRecord :=
  s ← get_self;
  let p := items_path s (json_name i) in
  found ← or_io "read" p (read_bounded p MAX_RECORD_BYTES);
  bs ← lift (ok_or found (UnknownItem i));
  _ ← lift (reject_if (MAX_RECORD_BYTES <? vlen bs) (corrupt i "record too large"));
  rec ← lift (map_err (λ e, corrupt i (fmt "invalid record: {e}" [e])) (from_slice bs));
  _ ← lift (reject_if (negb (bool_decide (id rec = i)) || negb (format_version rec =? RECORD_FORMAT_VERSION))
              (corrupt i "record ID or format version mismatch"));
  mret rec.

Definition audit_event (action : string) (i : option QuarantineId) (p : option path)
    (sha : option Sha256Digest) (outcome : result string (option string)) : P unit :=
  let '(outcome, detail) := match outcome with
                            | Ok d => ("ok"%string, d)
                            | Err e => ("error"%string, Some e)
                            end in
  s ← get_self;
  now ← now_utc;
  let entry := Audit.mkEntry 0 now 0 (Some (user_sid s)) (on_behalf_of s) action i
                 (WinPath.from_path <$> p) sha outcome detail "" in
  '(line, h) ← lift (map_err AuditErr (Audit.encode entry (head s)));
  _ ← or_io "append" (log_path s) (win_write_all (audit s) line);
  _ ← or_io "sync" (log_path s) (win_call (sys_fsync (audit s)));
  sent ← (if anchor s then datagram else mret true);
  put_self (set_head h (anchor_failed s || negb sent) s).

(** *** Reading and decoding *)

Fixpoint read_exact (fuel : nat) (i : inum) (off want : N) : P (option bytes) :=
  match fuel with
  | O => mret None
  | S fuel =>
      if want =? 0 then mret (Some [])
      else
        r ← win_read i off want;
        match r with
        | Err _ | Ok [] => mret None
        | Ok bs =>
            rest ← read_exact fuel i (off + vlen bs) (want - vlen bs);
            mret (app bs <$> rest)
        end
  end.

(** Rounds that suffice to read a file: each but the last consumes an octet. *)
Definition enough (i : inum) : P nat := λ s,
  Return (S (S (from_option (λ x, length (data x)) 0 (inodes (fs s) !! i))))%nat s.

Fixpoint decode_loop (fuel : nat) (f : inum) (key : bytes) (out : option inum) (p : path)
    (total : N) (hashed : bytes) : P (bytes * N) :=
  match fuel with
  | O => throw (io_err "read" p (Os EINTR))
  | S fuel =>
      r ← win_read f (8 + total) CHUNK;
      match r with
      | Err e => throw (io_err "read" p (Os e))
      | Ok [] => mret (hashed, total)
      | Ok buf =>
          let buf := xor_in_place buf key total in
          _ ← match out with
              | Some o => or_io "write" p (win_write_all o buf)
              | None => mret tt
              end;
          decode_loop fuel f key out p (total + vlen buf) (hashed ++ buf)
      end
  end.

Definition decode_path (i : QuarantineId) (p : path) (key : bytes) (out : option inum) : P (Sha256Digest * N) :=
  f ← or_io "open" p (at_path p win_open);
  n ← enough f;
  magic ← read_exact n f 0 8;
  magic ← lift (ok_or magic (corrupt i "missing header"));
  _ ← lift (reject_if (negb (bool_decide (magic = DATA_MAGIC))) (corrupt i "bad header"));
  n ← enough f;
  '(hashed, total) ← decode_loop n f key out p 0 [];
  mret (sha256 hashed, total).

Definition decode_to (i : QuarantineId) (key : bytes) (out : option inum) : P (Sha256Digest * N) :=
  s ← get_self; decode_path i (items_path s (data_name i)) key out.

Definition read_error (p : path) (e : errno) : RemediationError :=
  if is_in_use e then InUse p else io_err "read" p (Os e).

Fixpoint copy_loop (fuel : nat) (src out : inum) (key : bytes) (max : N) (tmp p : path)
    (total : N) (hashed : bytes) : P (bytes * N) :=
  match fuel with
  | O => throw (io_err "read" p (Os EINTR))
  | S fuel =>
      r ← win_read src total CHUNK;
      match r with
      | Err e => throw (read_error p e)
      | Ok [] => mret (hashed, total)
      | Ok buf =>
          let n := vlen buf in
          let total' := total + n in
          _ ← lift (reject_if (max <? total') (TooLarge p max));
          _ ← or_io "write" tmp (win_write_all out (xor_in_place buf key (total' - n)));
          copy_loop fuel src out key max tmp p total' (hashed ++ buf)
      end
  end.

Definition write_encoded (src : inum) (tmp : path) (i : QuarantineId) (key : bytes) (max : N) (p : path)
    : P (Sha256Digest * N) :=
  out ← or_io "create" tmp (create_new tmp);
  _ ← or_io "write" tmp (win_write_all (h_file out) DATA_MAGIC);
  n ← enough src;
  '(hashed, total) ← copy_loop n src (h_file out) key max tmp p 0 [];
  _ ← or_io "sync" tmp (win_call (sys_fsync (h_file out)));
  let sha := sha256 hashed in
  '(check, n) ← decode_path i tmp key None;
  _ ← lift (reject_if (negb (bool_decide (check = sha)) || negb (n =? total))
              (corrupt i "verification of the written copy failed"));
  mret (sha, total).

(** *** Quarantine *)

Definition roll_back (rec : QuarantineRecord) (why : string) : P unit :=
  s ← get_self;
  _ ← ignore (remove_file (items_path s (data_name (id rec))));
  now ← now_utc;
  save (advance RolledBack now [fmt "rolled back: {why}" [why]] rec).

(** The pinned file: its handle and what it is; every check before the copy. *)
Definition pin (req : QuarantineRequest) : P (handle * inode) :=
  let p := req_path req in
  _ ← lift (WinPath.split_checked p);
  _ ← lift (reject_if (negb (allow_protected req) && WinPath.is_protected_path env p) (Protected p));
  s ← get_self;
  _ ← lift (reject_if (inside_store s p) (InsideStore p));
  src ← or_throw (λ e, if is_in_use e then InUse p else io_err "open" p (Os e)) (at_path p (open_at true));
  st ← or_io "stat" p (win_call (sys_fstat (h_file src)));
  _ ← lift (reject_if (bool_decide (ftype st = Symlink)
                       || negb (N.land (perm st) FILE_ATTRIBUTE_REPARSE_POINT =? 0)) (SymlinkInPath p));
  _ ← lift (reject_if (negb (bool_decide (ftype st = RegularFile))) (NotRegularFile p));
  actual ← or_io "resolve" p (asked (final_path (h_place src)));
  _ ← lift (reject_if (negb (WinPath.same_place actual p)) (SymlinkInPath p));
  _ ← lift (reject_if (inside_store s actual) (InsideStore p));
  _ ← lift (reject_if (max_size req <? vlen (data st)) (TooLarge p (max_size req)));
  info ← or_io "stat" p (win_call (sys_fstat (h_file src)));
  _ ← lift (reject_if (1 <? nlink info) (HardLinked p (nlink info)));
  mret (src, info).

(** [security_descriptor(path).ok().and_then(parse).and_then(owner)] *)
Definition owner_of (p : path) : option string :=
  match security_descriptor p with
  | Ok text => match Sddl.parse text with Ok d => Sddl.owner d | Err _ => None end
  | Err _ => None
  end.

(** The processes that run the file. *)
Definition running (p : path) : list ProcessInfo :=
  match processes with
  | Ok ps => base.filter (λ q, from_option (λ i, WinPath.same_place i p) false (p_image q) = true) ps
  | Err _ => []
  end.
Definition pid_text (p : ProcessInfo) : string := fmt "PID {} ({})" [show_N (p_pid p); p_name p].

(** Copy, verify and write the first record: the copy has its final name. *)
Definition store_copy (req : QuarantineRequest) (src : handle) (st : inode) (i : QuarantineId) (key : bytes)
    : P QuarantineRecord :=
  s ← get_self;
  let p := req_path req in
  let tmp := items_path s (tmp_name i) in
  r ← attempt (write_encoded (h_file src) tmp i key (max_size req) p);
  '(sha, copied) ← match r with
                   | Ok v => mret v
                   | Err e => _ ← ignore (remove_file tmp); throw e
                   end;
  _ ← match expected_sha256 req with
      | Some expected =>
          if bool_decide (expected = sha) then mret tt
          else _ ← ignore (remove_file tmp); throw (FileChanged p expected sha)
      | None => mret tt
      end;
  now ← now_utc;
  let rec := mkRecord RECORD_FORMAT_VERSION i Pending
    (mkOriginal (WinPath.from_path p) copied sha (perm st) 0 0 (dev st) (h_file src) (owner_of p) (Some (mtime st)))
    (hex key) (req_reason req) 0 now now None [] in
  _ ← save rec;
  _ ← or_io "rename" (items_path s (data_name i)) (rename tmp (items_path s (data_name i)));
  mret rec.

(** The processes are terminated, then the deletion is tried again. *)
Definition stop (p : path) (q : ProcessInfo) : list string * list string :=
  match terminate_if_image (p_pid q) p with
  | Ok true => ([pid_text q], [])
  | Ok false => ([], [])
  | Err e => ([], [fmt "could not stop PID {}: {e}" [show_N (p_pid q); strerror e]])
  end.
Definition stop_notes (p : path) (qs : list ProcessInfo) : list string :=
  let killed := qs ≫= λ q, (stop p q).1 in
  (qs ≫= λ q, (stop p q).2)
  ++ (if bool_decide (killed = []) then []
      else [fmt "killed process(es) running the file: {}" [String.concat ", " killed]]).
Fixpoint retry_delete (n : nat) (src : handle) (last : result errno unit) : P (result errno unit) :=
  match n with
  | O => mret last
  | S n =>
      r ← win_call (win_delete_by_handle src);
      if is_ok r then mret r else retry_delete n src r
  end.

Definition remove_original (req : QuarantineRequest) (src : handle) (rec : QuarantineRecord) : P QuarantineRecord :=
  let p := req_path req in
  let users := running p in
  r ← win_call (win_delete_by_handle src);
  '(r, rec) ← (if negb (is_ok r) && kill_processes req && negb (bool_decide (users = [])) then
                 let rec := add_notes (stop_notes p users) rec in
                 r ← retry_delete 50 src r;
                 mret (r, rec)
               else mret (r, rec));
  match r with
  | Ok _ => mret rec
  | Err e =>
      let why := if bool_decide (users = []) then fmt "removing the original failed: {e}" [strerror e]
                 else fmt "removing the original failed ({e}); it is running (use --kill-processes)" [strerror e] in
      _ ← roll_back rec why;
      throw (if bool_decide (users = []) then io_err "remove" p (Os e) else InUse p)
  end.

Definition quarantine_inner (req : QuarantineRequest) : P QuarantineRecord :=
  let p := req_path req in
  '(src, st) ← pin req;
  let users := running p in
  ib ← random_bytes 16;
  ib ← lift (map_err (λ e, io_err "random" p (OtherError e)) ib);
  key ← random_bytes KEY_LEN;
  key ← lift (map_err (λ e, io_err "random" p (OtherError e)) key);
  rec ← store_copy req src st (random_id ib) key;
  rec ← remove_original req src rec;
  let notes := if negb (bool_decide (users = [])) && negb (kill_processes req)
               then [fmt "was running as {list}" [String.concat ", " (pid_text <$> users)]] else [] in
  now ← now_utc;
  let rec := advance Quarantined now notes rec in
  _ ← save rec;
  _ ← audit_event "quarantine" (Some (id rec)) (Some p) (Some (Record.sha256 (original rec))) (Ok None);
  mret rec.

Definition quarantine (req : QuarantineRequest) : P QuarantineRecord :=
  r ← attempt (quarantine_inner req);
  match r with
  | Ok rec => mret rec
  | Err e =>
      _ ← audit_event "quarantine" None (Some (req_path req)) (expected_sha256 req) (Err (err_text e));
      throw e
  end.

(** *** Restore and delete *)

(** The directory and the name to restore to. *)
Definition restore_target (rec : QuarantineRecord) (dest_dir : option path) : result RemediationError (path * string) :=
  original ← ok_or (WinPath.native_path (Record.path (original rec)))
               (corrupt (id rec) "original path cannot be reconstructed");
  '(orig_parent, name) ← WinPath.split_checked original;
  target_dir ← match dest_dir with
               | Some d => '(p, n) ← WinPath.split_checked d; mret (WinPath.join p n)
               | None => mret orig_parent
               end;
  mret (target_dir, name).

(** Nobody but the system, the administrators, this user and the file's
    owner may create files in the directory. *)
Definition check_target (target_dir : path) (rec : QuarantineRecord) : P unit :=
  s ← get_self;
  text ← or_io "read security of" target_dir (asked (security_descriptor target_dir));
  desc ← lift (map_err (λ _, UnsafeTarget target_dir "its security descriptor could not be analysed")
                 (Sddl.parse text));
  let trusted := [Sddl.SYSTEM; Sddl.ADMINISTRATORS; Sddl.TRUSTED_INSTALLER; user_sid s]
                 ++ from_option (λ o, [o]) [] (Record.owner_sid (original rec)) in
  let others := Sddl.granted_to_others desc CREATE_IN_DIR trusted in
  lift (reject_if (negb (bool_decide (others = [])))
          (UnsafeTarget target_dir (fmt "other users can create files there ({})" [Sddl.comma others]))).

(** Decode into the temporary and give it its name; [out] may not delete. *)
Definition write_restored (out : handle) (tmp target : path) (rec : QuarantineRecord) (key : bytes) : P unit :=
  let cleanup := ignore (win_call (win_delete_by_handle out)) in
  let fail {A} (e : RemediationError) : P A := _ ← cleanup; throw e in
  r ← attempt (decode_to (id rec) key (Some (h_file out)));
  '(sha, _) ← match r with Ok v => mret v | Err e => fail e end;
  _ ← (if bool_decide (sha = Record.sha256 (original rec)) then mret tt
       else fail (corrupt (id rec) "decoded content does not match the recorded SHA-256"));
  r ← win_call (sys_fsync (h_file out));
  _ ← match r with Ok _ => mret tt | Err e => fail (io_err "sync" tmp (Os e)) end;
  r ← hard_link tmp target;
  _ ← match r with
      | Ok _ => mret tt
      | Err e => if is_already_exists e then fail (TargetExists target)
                 else fail (io_err "restore" target (Os e))
      end;
  cleanup.

Definition restore_inner (i : QuarantineId) (dest_dir : option path) : P path :=
  s ← get_self;
  rec ← get i;
  _ ← lift (reject_if (negb (bool_decide (state rec = Quarantined))) (InvalidState i (state rec)));
  '(target_dir, name) ← lift (restore_target rec dest_dir);
  let target := WinPath.join target_dir name in
  _ ← lift (reject_if (inside_store s target) (InsideStore target));
  d ← attempt (open_dir_no_reparse target_dir);
  _ ← lift (map_err (λ e, match e with
                          | Io _ _ (Os n) =>
                              if is_not_found_kind n
                              then UnsafeTarget target_dir "the directory does not exist" else e
                          | e => e
                          end) d);
  _ ← check_target target_dir rec;
  key ← lift (ok_or (k ← unhex (key_hex rec); if bool_decide (length k = KEY_LEN) then Some k else None)
                (corrupt i "invalid key"));
  let tmp := WinPath.join target_dir (restore_tmp i) in
  out ← or_io "create" tmp (create_new tmp);
  _ ← write_restored out tmp target rec key;
  let data := items_path s (data_name i) in
  _ ← or_io "remove" data (remove_file data);
  now ← now_utc;
  _ ← save (set_restored_to (Some (WinPath.from_path target))
              (advance Restored now ["file owner and attributes were not restored"%string] rec));
  mret target.

Definition restore (i : QuarantineId) (dest_dir : option path) : P path :=
  r ← attempt (restore_inner i dest_dir);
  _ ← audit_event "restore" (Some i) None None
        (match r with
         | Ok p => Ok (Some (fmt "restored to {}" [WinPath.to_string_lossy p]))
         | Err e => Err (err_text e)
         end);
  lift r.

Definition delete_inner (i : QuarantineId) : P unit :=
  s ← get_self;
  rec ← get i;
  _ ← lift (reject_if (negb (bool_decide (state rec = Quarantined))) (InvalidState i (state rec)));
  let data := items_path s (data_name i) in
  r ← remove_file data;
  notes ← match r with
          | Ok _ => mret []
          | Err e => if is_not_found_kind e then mret ["content was already missing"%string]
                     else throw (io_err "remove" data (Os e))
          end;
  now ← now_utc;
  save (advance Deleted now notes rec).

Definition delete (i : QuarantineId) : P unit :=
  r ← attempt (delete_inner i);
  _ ← audit_event "delete" (Some i) None None
        (match r with Ok _ => Ok None | Err e => Err (err_text e) end);
  lift r.

(** *** Listing *)

(** The names [read_dir] gives that are valid Unicode. *)
Definition item_names : P (list string) :=
  s ← get_self;
  names ← or_io "list" (items s)
            (at_path (items s) (λ k f, match live f !! k with
                                       | Some d => sys_readdir d f
                                       | None => (Err ERROR_PATH_NOT_FOUND, f)
                                       end));
  mret (base.filter (λ n, is_Some (from_utf8 (as_bytes n))) names).

Fixpoint get_all (ids : list QuarantineId) : P (list QuarantineRecord) :=
  match ids with
  | [] => mret []
  | i :: ids => r ← get i; rs ← get_all ids; mret (r :: rs)
  end.

#[local] Instance rec_le_decide a b : Decision (rec_le a b).
Proof. unfold rec_le. apply _. Defined.
Definition list_items : P (list QuarantineRecord) :=
  names ← item_names;
  rs ← get_all (omap (id_of ".json") names);
  mret (merge_sort rec_le rs).

(** *** The allow-list *)

Definition allowlist_path (s : QuarantineStore) : path := WinPath.join (root s) Allow.ALLOWLIST_FILE.

Definition read_allowlist_file : P Allow.AllowlistFile :=
  s ← get_self;
  let p := allowlist_path s in
  found ← or_io "read" p (read_bounded p Allow.MAX_ALLOWLIST_BYTES);
  match found with
  | None => mret (Allow.mkAllowlist 1 [])
  | Some bs =>
      _ ← lift (reject_if (Allow.MAX_ALLOWLIST_BYTES <? vlen bs) (StoreInsecure p "the allow-list is too large"));
      lift (Allow.parse bs p)
  end.

Definition write_allowlist_file (l : Allow.AllowlistFile) : P unit :=
  s ← get_self;
  bs ← lift (map_err (λ e, io_err "encode" (allowlist_path s) (OtherError e)) (to_vec_pretty l));
  write_atomic (root s) Allow.ALLOWLIST_FILE bs.

Definition allowlist : P (list Allow.AllowEntry) := l ← read_allowlist_file; mret (Allow.entries l).

Definition allow (sha : Sha256Digest) (reason : string) (item : option QuarantineId)
    (detection_name : option string) : P unit :=
  s ← get_self;
  l ← read_allowlist_file;
  _ ← (if existsb (λ e, bool_decide (Allow.sha256 e = sha)) (Allow.entries l) then mret tt
       else
         _ ← lift (reject_if (Allow.MAX_ALLOW_ENTRIES <=? vlen (Allow.entries l))
                     (StoreInsecure (allowlist_path s)
                        (fmt "the allow-list is full ({} entries)" [show_N Allow.MAX_ALLOW_ENTRIES])));
         now ← now_utc;
         write_allowlist_file (Allow.mkAllowlist (Allow.format_version l)
           (Allow.entries l ++ [Allow.mkAllow sha now reason item detection_name])));
  audit_event "allow" item None (Some sha) (Ok (Some reason)).

Definition disallow (sha : Sha256Digest) : P bool :=
  l ← read_allowlist_file;
  let kept := base.filter (λ e, Allow.sha256 e ≠ sha) (Allow.entries l) in
  let removed := negb (vlen kept =? vlen (Allow.entries l)) in
  _ ← (if removed then
         _ ← write_allowlist_file (Allow.mkAllowlist (Allow.format_version l) kept);
         audit_event "disallow" None None (Some sha) (Ok None)
       else mret tt);
  mret removed.

(** *** Recovery *)

(** Whether the file at the original's path is the one that was copied; a
    file that cannot be opened counts as gone. *)
Definition original_present (rec : QuarantineRecord) : P bool :=
  match WinPath.native_path (Record.path (original rec)) with
  | None => mret false
  | Some p =>
      r ← at_path p win_open;
      match r with
      | Err _ => mret false
      | Ok i =>
          st ← win_call (sys_fstat i);
          mret (match st with
                | Ok st => (dev st =? Record.dev (original rec)) && (i =? Record.ino (original rec))
                | Err _ => false
                end)
      end
  end.

Definition resolve_pending (rec : QuarantineRecord) : P (ItemState * string) :=
  s ← get_self;
  let i := id rec in
  present ← original_present rec;
  let data := items_path s (data_name i) in
  let tmp := items_path s (tmp_name i) in
  if (present : bool) then
    _ ← ignore (remove_file data);
    _ ← ignore (remove_file tmp);
    mret (RolledBack, "interrupted before the original was removed; the copy was discarded"%string)
  else
    verified ← match (k ← unhex (key_hex rec); if bool_decide (length k = KEY_LEN) then Some k else None) with
               | Some k =>
                   r ← attempt (decode_to i k None);
                   mret (match r with
                         | Ok (sha, _) => bool_decide (sha = Record.sha256 (original rec))
                         | Err _ => false
                         end)
               | None => mret false
               end;
    if (verified : bool) then
      _ ← ignore (remove_file tmp);
      mret (Quarantined, "interrupted after the original was removed; the verified copy was kept"%string)
    else
      mret (Failed, "original is gone and no verified copy exists; the file was removed by something other than the quarantine operation"%string).

Definition recover_one (rec : QuarantineRecord) : P unit :=
  '(outcome, detail) ← resolve_pending rec;
  now ← now_utc;
  let rec := advance outcome now [fmt "recovery: {detail}" [detail]] rec in
  _ ← save rec;
  let result := if bool_decide (outcome = Failed) then Err detail else Ok (Some detail) in
  _ ← audit_event "recover" (Some (id rec)) (WinPath.native_path (Record.path (original rec)))
        (Some (Record.sha256 (original rec))) result;
  s ← get_self;
  put_self (push_recovered (mkRecovery (id rec) outcome detail) s).

Fixpoint recover_all (recs : list QuarantineRecord) : P unit :=
  match recs with
  | [] => mret tt
  | r :: recs => _ ← recover_one r; recover_all recs
  end.

Definition remove_stray (name : string) : P unit :=
  s ← get_self;
  let record_tmp := str_starts_with name "." && ends_with name ".json.tmp" in
  data_tmp ← match id_of ".data.tmp" name with
             | Some i => r ← attempt (get i); mret (negb (is_ok r))
             | None => mret false
             end;
  if record_tmp || (data_tmp : bool) then ignore (remove_file (items_path s name)) else mret tt.

Fixpoint remove_strays (names : list string) : P unit :=
  match names with
  | [] => mret tt
  | n :: names => _ ← remove_stray n; remove_strays names
  end.

Definition recover : P unit :=
  names ← item_names;
  recs ← get_all (omap (id_of ".json") names);
  _ ← recover_all (base.filter (λ r, state r = Pending) recs);
  names ← item_names;
  remove_strays names.

(** *** Opening *)

(** Create a directory; whether it is new. *)
Definition make_dir (p : path) : P bool :=
  r ← at_path p win_mkdir;
  match r with
  | Ok _ => mret true
  | Err e => if is_already_exists e then mret false else throw (io_err "create" p (Os e))
  end.

(** [open_dir_no_reparse(p).map_err(|_| StoreInsecure ..)?] *)
Definition secure_dir (p : path) (why : string) : P unit :=
  r ← attempt (open_dir_no_reparse p);
  lift (map_err (λ _, StoreInsecure p why) r).

(** [verify_chain] of the audit log from its beginning. *)
Definition read_chain (i : inum) : P (option (result Audit.AuditError Audit.ChainHead)) :=
  content ← win_call (λ f, (from_option (λ x, Ok (data x)) (Err EIO) (inodes f !! i), f));
  mret (Audit.verify_chain match content with
                           | Ok bs => mkReader bs None
                           | Err e => mkReader [] (Some (strerror e))
                           end).

Definition open_with (socket : option string) (root : path) (target : AnchorTarget) : P unit :=
  '(parent, name) ← lift (WinPath.split_checked root);
  _ ← or_io "create" parent (asked (create_dir_all parent));
  parent ← or_io "resolve" parent (asked (canonicalize parent));
  let root := WinPath.join parent name in
  user ← or_io "identify" root (asked process_user_sid);
  created ← make_dir root;
  _ ← (if (created : bool) then or_io "protect" root (asked (set_protected_dacl root (Sddl.private_dacl user)))
       else mret tt);
  _ ← secure_dir root "not a directory, or reached through a junction or symbolic link";
  text ← or_io "read security of" root (asked (security_descriptor root));
  _ ← lift (match Sddl.check_private text [Sddl.SYSTEM; Sddl.ADMINISTRATORS; user] with
            | Some r => map_err (StoreInsecure root) r
            | None => Err (StoreInsecure root "")
            end);
  let items := WinPath.join root "items" in
  _ ← make_dir items;
  _ ← secure_dir items "not a directory, or a junction or symbolic link";
  let lock_path := WinPath.join root ".lock" in
  _ ← or_io "open" lock_path (at_path lock_path win_open_always);
  _ ← lift (match locate lock_path with
            | Err e => Err (io_err "lock" root (Os e))
            | Ok k => match try_lock k with
                      | Locked => Ok tt
                      | WouldBlock => Err StoreBusy
                      | LockError e => Err (io_err "lock" root (Os e))
                      end
            end);
  let log := WinPath.join root "audit.log" in
  audit ← or_io "open" log (at_path log win_open_always);
  chain ← read_chain audit;
  h ← lift (match chain with
            | Some (Ok h) => Ok h
            | Some (Err e) =>
                Err (StoreInsecure log
                  (fmt "audit log failed verification ({e}); move it aside after investigating" [audit_text e]))
            | None => Err (StoreInsecure log "")
            end);
  _ ← put_self (mkStore root (WinPath.norm root) items audit h user None [] (enabled socket target) false);
  recover.

(** [verify_audit_log]: the number of entries. *)
Definition verify_audit_log : P N :=
  s ← get_self;
  chain ← read_chain (audit s);
  match chain with
  | Some (Ok h) => mret (Audit.head_seq h)
  | Some (Err e) => throw (AuditErr e)
  | None => throw (AuditErr (Audit.Io ""))
  end.

End Windows.
End WinStore.
