(* ===== verification/WinStoreLaws.v ===== *)
(** * The Windows quarantine store never loses a file

    Hoare triples for the operations of [WinStore] over the journaled names of
    [WinDisk], and the theorem they give. *)

From S2P Require Import Prelude Utf8 Paths Core External AuditLog Remediation Disk QuarantineStore StoreSafety Chars WinPaths WinDisk Sddl WinStore.
Import Record (ItemState, Pending, Quarantined, Restored, Deleted, RolledBack, Failed,
  mkOriginal, QuarantineRecord, mkRecord, format_version, id, state, original, key_hex, advance,
  RemediationError, RECORD_FORMAT_VERSION, hex, unhex, parse_id, random_id).
Import Common (DATA_MAGIC, KEY_LEN, CHUNK, io_err, corrupt, xor_in_place).
Import Policy (QuarantineRequest, mkRequest, req_path, expected_sha256, req_reason, max_size, kill_processes).
Import Store (json_name, data_name, tmp_name, atomic_tmp).
Import WinStore.

(** ** Temporary names end in [p], the others do not *)
Definition is_tmp (n : string) : Prop := ∃ m, n = (m +:+ "p")%string.

Lemma append_last a b c d : (a +:+ String c "" = b +:+ String d "")%string → c = d.
Proof.
  revert b. induction a as [|x a IH]; intros [|y b]; simpl; try (intros [=]; congruence).
  - intros [= -> E]. by destruct b.
  - intros [= -> E]. by destruct a.
  - intros [= _ E]. by apply (IH b).
Qed.

Lemma tmp_names i : is_tmp (tmp_name i) ∧ is_tmp (atomic_tmp (json_name i)).
Proof.
  split.
  - exists (i +:+ ".data.tm")%string. by rewrite append_assoc.
  - exists ("." +:+ (json_name i +:+ ".tm"))%string. change (atomic_tmp (json_name i)) with
      ("." +:+ (json_name i +:+ ".tmp"))%string. by rewrite !append_assoc.
Qed.

Lemma not_tmp i : ¬ is_tmp (data_name i) ∧ ¬ is_tmp (json_name i).
Proof.
  split; intros [m E].
  - change (data_name i) with (i +:+ (".dat" +:+ "a"))%string in E. rewrite <-append_assoc in E.
    by apply append_last in E.
  - change (json_name i) with (i +:+ (".jso" +:+ "n"))%string in E. rewrite <-append_assoc in E.
    by apply append_last in E.
Qed.

(** The files of an item. *)
Definition item_file (i : QuarantineId) (n : string) : Prop :=
  n = json_name i ∨ n = data_name i ∨ n = tmp_name i ∨ n = atomic_tmp (json_name i).

(** The store's paths lead into its directory, whose file index is [I]. *)
Definition located `{WinSys} (t : QuarantineStore) (I : inum) : Prop :=
  ∀ i n, parse_id i = Ok i → item_file i n → locate (items_path t n) = Ok (I, n).

Section Safety.
Context `{Sha256, Json Audit.AuditEntry, Json QuarantineRecord, !JsonPretty QuarantineRecord,
  !JsonPrettyLaws QuarantineRecord, StdText, WinSys}.

(** The store, its directory, and the file: its place, index, content and path. *)
Context (t : QuarantineStore) (I pd : inum) (nm : string) (i0 : inum) (D : bytes) (o : path).
Context (Hpd : pd ≠ I) (Hloc : located t I).

Abbreviation P A := (M QuarantineStore RemediationError A).
Abbreviation names := (gmap place inum).

Definition key_ok (key : bytes) : Prop := length key = KEY_LEN ∧ Forall is_byte key.

(** A record that recovery and restore accept for this file. *)
Definition good (i : QuarantineId) (key : bytes) (rec : QuarantineRecord) : Prop :=
  id rec = i ∧ format_version rec = RECORD_FORMAT_VERSION ∧ key_hex rec = hex key ∧
  Record.path (original rec) = WinPath.from_path o ∧ Record.sha256 (original rec) = sha256 D ∧
  (Record.state rec = Pending ∨ Record.state rec = Quarantined).
Definition good_bytes (i : QuarantineId) (key : bytes) (bs : bytes) : Prop :=
  ∃ rec, from_slice bs = Ok rec ∧ good i key rec.

(** ** What names lead to *)

(** The name [n] of the store leads to safe content that satisfies [Q]. *)
Definition at_item (Q : bytes → Prop) (n : string) (m : names) (f : Fs) : Prop := entry_ok Q (m !! (I, n)) f.
(** The original is in place and on stable storage. *)
Definition orig (m : names) (f : Fs) : Prop :=
  m !! (pd, nm) = Some i0 ∧ ∃ x, inodes f !! i0 = Some x ∧ data x = D ∧ safe x = true.
Definition gone (m : names) (f : Fs) : Prop := m !! (pd, nm) = None.
Definition has_record (i : QuarantineId) (key : bytes) : names → Fs → Prop := at_item (good_bytes i key) (json_name i).
Definition has_copy (i : QuarantineId) (key : bytes) : names → Fs → Prop :=
  at_item (λ b, b = encoded key D) (data_name i).
Definition stored (i : QuarantineId) (key : bytes) (m : names) (f : Fs) : Prop :=
  has_copy i key m f ∧ has_record i key m f.
Definition kept (m : names) (f : Fs) : Prop := orig m f ∨ ∃ i key, key_ok key ∧ stored i key m f.

(** Whatever happens at the temporary [n], or to a file that is neither the
    store's nor the original, leaves [A] alone. *)
Definition Local (n : string) (A : names → Fs → Prop) : Prop :=
  ∀ m m' f f',
    (∀ k, k ≠ (I, n) → m' !! k = m !! k) →
    (∀ k j x, k.1 = I ∨ k = (pd, nm) → k ≠ (I, n) → m !! k = Some j → inodes f !! j = Some x → inodes f' !! j = Some x) →
    A m f → A m' f'.

Lemma orig_ne n : (pd, nm) ≠ (I, n).
Proof. congruence. Qed.

Lemma at_item_local Q n n' : n' ≠ n → Local n (at_item Q n').
Proof.
  intros Hn m m' f f' Hm Hi (j & x & Hj & Hx & Hs & HQ). exists j, x.
  assert ((I, n') ≠ (I, n)) as Hk by congruence.
  split_and!; [by rewrite Hm by auto|by apply (Hi (I, n')); auto|done..].
Qed.
Lemma orig_local n : Local n orig.
Proof.
  intros m m' f f' Hm Hi (Hj & x & Hx & Hd). split; [by rewrite Hm by auto using orig_ne|].
  exists x. split; [|done]. apply (Hi (pd, nm)); auto using orig_ne.
Qed.
Lemma gone_local n : Local n gone.
Proof. intros m m' f f' Hm _ Hg. unfold gone. by rewrite Hm by auto using orig_ne. Qed.
Lemma and_local n A B : Local n A → Local n B → Local n (λ m f, A m f ∧ B m f).
Proof. intros HA HB m m' f f' Hm Hi [Ha Hb]. split; [by eapply HA|by eapply HB]. Qed.

Lemma item_ne n i : is_tmp n → data_name i ≠ n ∧ json_name i ≠ n.
Proof. intros Hn. destruct (not_tmp i). split; intros <-; done. Qed.
Lemma stored_local n i key : is_tmp n → Local n (stored i key).
Proof. intros Hn. destruct (item_ne n i Hn). apply and_local; by apply at_item_local. Qed.
Lemma kept_local n : is_tmp n → Local n kept.
Proof.
  intros Hn m m' f f' Hm Hi [Ho|(i & key & Hk & Hs)]; [left; by eapply orig_local|right].
  exists i, key. split; [done|]. by eapply stored_local.
Qed.

(** ** States of the file system *)

(** What the store's directory guarantees: entries name files; no file has a
    name in the directory and another one; a temporary's file has no other
    name in the journal; the audit log is no item and not the file. *)
Record base (f : Fs) : Prop := {
  base_wf k i : live f !! k = Some i ∨ disk f !! k = Some i → is_Some (inodes f !! i);
  base_private n k i : live f !! (I, n) = Some i → live f !! k = Some i → k = (I, n);
  base_tmp n k i : is_tmp n → live f !! (I, n) = Some i → disk f !! k = Some i → k = (I, n);
  base_audit k i : live f !! k = Some i ∨ disk f !! k = Some i → i = audit t → k.1 ≠ I ∧ k ≠ (pd, nm);
  base_audit_in : is_Some (inodes f !! audit t) }.

(** [A] holds of the names as they are; whatever a power loss takes them back
    to keeps the file. *)
Definition holds (A : names → Fs → Prop) (f : Fs) : Prop := base f ∧ A (live f) f ∧ kept (disk f) f.
Definition held : Fs → Prop := holds kept.
Definition crashed (f : Fs) : Prop := kept (live f) f.

(** Assertions that imply [held] and survive the journal. *)
Record Sound (F : Fs → Prop) : Prop := {
  sound_held f : F f → held f;
  sound_journal f : F f → F (journal f) }.
Definition Enough (A : names → Fs → Prop) : Prop :=
  (∀ m f, A m f → kept m f) ∧ (∀ m f f', inodes f' = inodes f → A m f → A m f').

Lemma base_journal f : base f → base (journal f).
Proof.
  intros [Hw Hp Ht Ha Hi]. split; simpl; [|done| | |done].
  - intros k i [Hk|Hk]; eauto.
  - intros n k i _. apply Hp.
  - intros k i [Hk|Hk]; eauto.
Qed.

Lemma entry_inodes Q n m f f' : inodes f' = inodes f → at_item Q n m f → at_item Q n m f'.
Proof. intros E. apply entry_ok_inodes. intros j x _ Hx _. by rewrite E. Qed.
Lemma orig_inodes m f f' : inodes f' = inodes f → orig m f → orig m f'.
Proof. intros E (Hm & x & Hx). split; [done|]. exists x. by rewrite E. Qed.
Lemma stored_inodes i key m f f' : inodes f' = inodes f → stored i key m f → stored i key m f'.
Proof. intros E [Hc Hr]. split; by eapply entry_inodes. Qed.
Lemma kept_inodes m f f' : inodes f' = inodes f → kept m f → kept m f'.
Proof.
  intros E [Ho|(i & key & Hk & Hs)]; [left; by eapply orig_inodes|right].
  exists i, key. split; [done|by eapply stored_inodes].
Qed.

Lemma enough_kept : Enough kept.
Proof. split; [done|]. apply kept_inodes. Qed.
Lemma enough_orig : Enough orig.
Proof. split; [by left|]. apply orig_inodes. Qed.
Lemma enough_orig_and A :
  (∀ m f f', inodes f' = inodes f → A m f → A m f') → Enough (λ m f, orig m f ∧ A m f).
Proof. intros HA. split; [intros m f [Ho _]; by left|]. intros m f f' E [Ho Ha]. split; [by eapply orig_inodes|by eapply HA].
Qed.
Lemma enough_stored i key : key_ok key → Enough (λ m f, stored i key m f ∧ gone m f).
Proof.
  intros Hk. split.
  - intros m f [Hs _]. right. eauto.
  - intros m f f' E [Hs Hg]. split; [by eapply stored_inodes|done].
Qed.

Lemma sound_holds A : Enough A → Sound (holds A).
Proof.
  intros [HA HI]. split.
  - intros f (Hb & Ha & Hd). split_and!; auto.
  - intros f (Hb & Ha & Hd). split; [by apply base_journal|]. split; simpl; [by apply (HI _ f)|].
    apply (kept_inodes _ f); [done|]. by apply HA.
Qed.
Lemma sound_held_self : Sound held.
Proof. apply sound_holds, enough_kept. Qed.

Lemma held_crash f g : held f → crashed (win_lose_power g f).
Proof.
  intros (_ & _ & Hk). unfold crashed. rewrite win_lose_power_live.
  assert (∀ Q n, at_item Q n (disk f) f → at_item Q n (disk f) (win_lose_power g f)) as He.
  { intros Q n. apply entry_ok_lose_power. }
  destruct Hk as [(Hm & x & Hx & Hd & Hs)|(i & key & Hk & Hc & Hr)].
  - left. split; [done|]. exists x. split; [by apply lose_power_safe|done].
  - right. exists i, key. split; [done|]. split; by apply He.
Qed.

(** ** Operations on the store's names *)

Lemma base_with_inode f j x : base f → base (set_inode j x f).
Proof.
  intros [Hw Hp Ht Ha Hi]. split; simpl; [|done..|].
  - intros k i Hk. destruct (decide (i = j)) as [->|]; [rewrite lookup_insert_eq; by eexists|].
    rewrite lookup_insert_ne by done. eauto.
  - destruct (decide (audit t = j)) as [->|]; [rewrite lookup_insert_eq; by eexists|].
    by rewrite lookup_insert_ne.
Qed.

(** The names that [l] has were there before, with the same file, and stay on
    their side of the directory; no temporary appears. *)
Lemma base_with_live f l :
  base f →
  (∀ k i, l !! k = Some i → ∃ k', live f !! k' = Some i ∧ (k'.1 = I ↔ k.1 = I) ∧ (k = (pd, nm) → k' = (pd, nm)) ∧
     (is_tmp k.2 → k' = k)) →
  (∀ n k i, l !! (I, n) = Some i → l !! k = Some i → k = (I, n)) → base (set_live l f).
Proof.
  intros [Hw Hp Ht Ha Hi] Hl Hu. split; simpl; [|done| | |done].
  - intros k i [Hk|Hk]; [|eauto]. destruct (Hl _ _ Hk) as (k' & Hk' & _). eauto.
  - intros n k i Hn Hl' Hd. destruct (Hl _ _ Hl') as (k' & Hk' & _ & _ & Heq). rewrite (Heq Hn) in Hk'. eauto.
  - intros k i [Hk|Hk] He; [|eauto]. destruct (Hl _ _ Hk) as (k' & Hk' & Hk1 & Hk2 & _).
    destruct (Ha k' i (or_introl Hk') He). split; tauto.
Qed.

Lemma base_removed f (k : place) : base f → base (set_live (base.delete k (live f)) f).
Proof.
  intros Hb. apply base_with_live; [done|..].
  - intros k' i [_ Hk]%lookup_delete_Some. exists k'. tauto.
  - intros n k' i [_ Hn]%lookup_delete_Some [_ Hk]%lookup_delete_Some. by eapply base_private.
Qed.

Lemma base_renamed f a b j :
  base f → ¬ is_tmp b → live f !! (I, a) = Some j → base (set_live (<[(I, b) := j]> (base.delete (I, a) (live f))) f).
Proof.
  intros Hb Hn Ha. apply base_with_live; [done|..].
  - intros k i [[<- <-]|[_ [_ Hk]%lookup_delete_Some]]%lookup_insert_Some.
    + exists (I, a). simpl. split_and!; try done. congruence.
    + exists k. tauto.
  - intros n k i [[[= <-] <-]|[Hk1 [Hk2 Hk3]%lookup_delete_Some]]%lookup_insert_Some
      [[<- Hj]|[Hk [Hk' Hk4]%lookup_delete_Some]]%lookup_insert_Some; [done|..].
    + pose proof (base_private f Hb _ _ _ Ha Hk4). congruence.
    + subst. pose proof (base_private f Hb _ _ _ Ha Hk3). congruence.
    + by eapply base_private.
Qed.

Definition created (k : place) (f : Fs) : Fs :=
  mkFs (<[fresh_inum f := new_inode FILE_ATTRIBUTE_ARCHIVE 0 0 0]> (inodes f)) (<[k := fresh_inum f]> (live f)) (disk f).

Lemma fresh_unnamed f k : base f → live f !! k ≠ Some (fresh_inum f) ∧ disk f !! k ≠ Some (fresh_inum f).
Proof.
  intros Hb. pose proof (fresh_inum_spec f). split; intros E;
    [destruct (base_wf f Hb k _ (or_introl E))|destruct (base_wf f Hb k _ (or_intror E))]; congruence.
Qed.

Lemma base_created f p : base f → live f !! p = None → base (created p f).
Proof.
  intros Hb Hn. pose proof (fresh_inum_spec f) as Hf. pose proof (λ k, fresh_unnamed f k Hb) as Hu.
  destruct Hb as [Hw Hp Ht Ha Hi].
  assert (fresh_inum f ≠ audit t) as Hfa by (intros E; rewrite E in Hf; destruct Hi; congruence).
  split; simpl.
  - intros k i Hk. destruct (decide (i = fresh_inum f)) as [->|]; [rewrite lookup_insert_eq; by eexists|].
    rewrite lookup_insert_ne by done. rewrite lookup_insert_Some in Hk. naive_solver.
  - intros m k i [[-> <-]|[Hm' Hm]]%lookup_insert_Some [[<- E]|[_ Hk]]%lookup_insert_Some; [done|..].
    + by destruct (Hu k).
    + subst. by destruct (Hu (I, m)).
    + eauto.
  - intros m k i Hm [[_ <-]|[Hm' Hl]]%lookup_insert_Some Hk; [by destruct (Hu k)|eauto].
  - intros k i [[[<- <-]|[_ Hk]]%lookup_insert_Some|Hk] He; [done|eauto..].
  - rewrite lookup_insert_ne by done. done.
Qed.

(** Work at the temporary [n] leaves what is local to it. *)
Section Temporary.
Context (n : string) (Hn : is_tmp n) (A : names → Fs → Prop) (HA : Local n A).

Lemma holds_set_inode f j x : holds A f → live f !! (I, n) = Some j → holds A (set_inode j x f).
Proof.
  intros (Hb & Ha & Hk) Hl. split_and!; [by apply base_with_inode|..]; simpl.
  - eapply HA; [done| |exact Ha]. intros k i y _ Hkn Hj Hy. simpl. rewrite lookup_insert_ne; [done|].
    intros <-. by pose proof (base_private f Hb _ _ _ Hl Hj).
  - eapply kept_local; [exact Hn|done| |exact Hk]. intros k i y _ Hkn Hj Hy. simpl. rewrite lookup_insert_ne; [done|].
    intros <-. by pose proof (base_tmp f Hb _ _ _ Hn Hl Hj).
Qed.

Lemma holds_created f : holds A f → live f !! (I, n) = None → holds A (created (I, n) f).
Proof.
  intros (Hb & Ha & Hk) Hl. pose proof (λ k, fresh_unnamed f k Hb) as Hu.
  split_and!; [by apply base_created|..]; simpl.
  - eapply HA; [| |exact Ha].
    + intros k Hkn. by rewrite lookup_insert_ne.
    + intros k i y _ _ Hj Hy. simpl. rewrite lookup_insert_ne; [done|]. intros <-. by destruct (Hu k).
  - eapply kept_local; [exact Hn|done| |exact Hk].
    intros k i y _ _ Hj Hy. simpl. rewrite lookup_insert_ne; [done|]. intros <-. by destruct (Hu k).
Qed.

Lemma holds_delete f : holds A f → holds A (set_live (base.delete (I, n) (live f)) f).
Proof.
  intros (Hb & Ha & Hk). split_and!; [by apply base_removed| |done]. simpl.
  apply (HA (live f) _ f); [|done|exact Ha]. intros k Hkn. by rewrite lookup_delete_ne.
Qed.
End Temporary.

(** A file that is no item and not the original. *)
Definition apart (j : inum) (f : Fs) : Prop :=
  ∀ k, k.1 = I ∨ k = (pd, nm) → live f !! k ≠ Some j ∧ disk f !! k ≠ Some j.

Lemma holds_set_apart n A f j x : is_tmp n → Local n A → apart j f → holds A f → holds A (set_inode j x f).
Proof.
  intros Hn HA Hj (Hb & Hl & Hd).
  assert (∀ k j' y, k.1 = I ∨ k = (pd, nm) → live f !! k = Some j' ∨ disk f !! k = Some j' →
    inodes f !! j' = Some y → inodes (set_inode j x f) !! j' = Some y) as Hi.
  { intros k j' y Hk Hj' Hy. simpl. rewrite lookup_insert_ne; [done|]. intros <-. destruct (Hj k Hk). naive_solver. }
  split; [by apply base_with_inode|]. split; simpl.
  - eapply HA; [done| |exact Hl]. intros k j' y Hk _ Hj'. by apply (Hi k); auto.
  - eapply (kept_local n); [done..| |exact Hd]. intros k j' y Hk _ Hj'. by apply (Hi k); auto.
Qed.

Lemma audit_apart f : base f → apart (audit t) f.
Proof.
  intros Hb k Hk. split; intros E;
    [destruct (base_audit f Hb k _ (or_introl E) eq_refl)|destruct (base_audit f Hb k _ (or_intror E) eq_refl)];
    naive_solver.
Qed.

Lemma holds_set_audit n A f x : is_tmp n → Local n A → holds A f → holds A (set_inode (audit t) x f).
Proof. intros Hn HA Hh. eapply holds_set_apart; [done..| |done]. apply audit_apart, Hh. Qed.

(** ** Rules

    [keeps F m Q]: from [F], [m] returns in [Q]; on an error the file is still
    held, and so it is after a power loss. *)
Definition keeps {A} (F : Fs → Prop) (m : P A) (Q : A → Fs → Prop) : Prop :=
  triple (on_fs t F) m (λ a, on_fs t (Q a)) (λ _, on_fs t held) crashed.

Lemma keeps_ret {A} (a : A) F (Q : A → Fs → Prop) : (∀ f, F f → Q a f) → keeps F (mret a) Q.
Proof. intros HQ. apply triple_ret. intros s [Hs Hf]. split; auto. Qed.
Lemma keeps_throw {A} e F (Q : A → Fs → Prop) : (∀ f, F f → held f) → keeps F (throw e) Q.
Proof. intros HF. apply triple_throw. intros s [Hs Hf]. split; auto. Qed.
Lemma keeps_bind {A B} F (m : P A) (k : A → P B) Q Q' :
  keeps F m Q → (∀ a, keeps (Q a) (k a) Q') → keeps F (m ≫= k) Q'.
Proof. apply triple_bind. Qed.
(** The same before a program whose last action changes the store itself. *)
Lemma keeps_bind_any {A B} F (m : P A) (k : A → P B) Q (Q' : B → Disk.state QuarantineStore → Prop) :
  keeps F m Q → (∀ a, triple (on_fs t (Q a)) (k a) Q' (λ _, on_fs t held) crashed) →
  triple (on_fs t F) (m ≫= k) Q' (λ _, on_fs t held) crashed.
Proof. apply triple_bind. Qed.
Lemma triple_assume {A} F (φ : Prop) (m : P A) Q R C :
  (φ → triple (on_fs t F) m Q R C) → triple (on_fs t (λ f, F f ∧ φ)) m Q R C.
Proof. intros Hm s [Hs [Hf Hφ]]. by apply Hm. Qed.
Lemma keeps_conseq {A} F G (m : P A) Q Q' :
  keeps F m Q → (∀ f, G f → F f) → (∀ a f, Q a f → Q' a f) → keeps G m Q'.
Proof.
  intros Hm HG HQ. eapply triple_conseq; [exact Hm|..]; try done.
  - intros s [Hs Hf]. split; auto.
  - intros a s [Hs Hf]. split; auto.
Qed.
Lemma keeps_pre {A} F G (m : P A) Q : keeps F m Q → (∀ f, G f → F f) → keeps G m Q.
Proof. intros Hm HG. by eapply keeps_conseq. Qed.
Lemma keeps_pure {A} F (φ : Prop) (m : P A) Q : (φ → keeps F m Q) → keeps (λ f, F f ∧ φ) m Q.
Proof. apply triple_assume. Qed.
Lemma keeps_lift {A} F (r : result RemediationError A) :
  (∀ f, F f → held f) → keeps F (lift r) (λ a f, F f ∧ r = Ok a).
Proof.
  intros HF. apply triple_lift.
  - intros a s -> [Hs Hf]. by repeat split.
  - intros e s _ [Hs Hf]. split; auto.
Qed.
Lemma triple_self {B} F (k : QuarantineStore → P B) Q R C :
  triple (on_fs t F) (k t) Q R C → triple (on_fs t F) (get_self ≫= k) Q R C.
Proof. intros Hk s [Hs HF]. unfold mbind, M_bind, get_self. rewrite Hs. by apply Hk. Qed.
Lemma keeps_self {B} F (k : QuarantineStore → P B) Q : keeps F (k t) Q → keeps F (get_self ≫= k) Q.
Proof. apply triple_self. Qed.
Lemma keeps_attempt {A} F (m : P A) Q :
  keeps F m Q → keeps F (attempt m) (λ r f, match r with Ok a => Q a f | Err _ => held f end).
Proof. intros Hm. by apply triple_attempt. Qed.

Lemma keeps_call {A} (op : Fs → result errno A * Fs) F (Q : result errno A → Fs → Prop) :
  Sound F → (∀ r f, Q r f → Q r (journal f)) → (∀ e f, F f → Q (Err e) f) →
  (∀ f, F f → Q (op f).1 (op f).2) → keeps F (win_call op) Q.
Proof.
  intros [HF _] HQ HE HO. apply win_call_triple; [|auto..].
  intros f g Hf. by apply held_crash, HF.
Qed.

Lemma keeps_or {A} (g : errno → RemediationError) F (m : P (result errno A)) Q :
  keeps F m (λ r f, match r with Ok a => Q a f | Err _ => held f end) → keeps F (or_throw g m) Q.
Proof.
  intros Hm. eapply keeps_bind; [exact Hm|]. intros [a|e]; [by apply keeps_ret|by apply keeps_throw].
Qed.

Lemma keeps_or_call {A} (g : errno → RemediationError) (op : Fs → result errno A * Fs) F (Q : A → Fs → Prop) :
  Sound F → (∀ a f, Q a f → Q a (journal f)) →
  (∀ f, F f → match op f with (Ok a, f') => Q a f' | (Err _, f') => held f' end) →
  keeps F (or_throw g (win_call op)) Q.
Proof.
  intros HF HQ HO. apply keeps_or. apply keeps_call; [done|..].
  - intros [a|e] f Hf; [by apply HQ|by apply (sound_journal _ sound_held_self)].
  - intros e f Hf. by apply (sound_held _ HF).
  - intros f Hf. specialize (HO f Hf). by destruct (op f) as [[] f'].
Qed.

(** A call that only looks. *)
Lemma keeps_look {A} (g : errno → RemediationError) (op : Fs → result errno A * Fs) F :
  Sound F → (∀ f, (op f).2 = f) → keeps F (or_throw g (win_call op)) (λ _, F).
Proof.
  intros HF Hop. apply keeps_or_call; [done|intros _ f; by apply sound_journal|]. intros f Hf.
  specialize (Hop f). destruct (op f) as [[] f']; simpl in Hop; subst; [done|by apply (sound_held _ HF)].
Qed.
Lemma keeps_asked {A} (g : errno → RemediationError) (r : result errno A) F :
  Sound F → keeps F (or_throw g (asked r)) (λ a f, F f ∧ r = Ok a).
Proof.
  intros HF. apply keeps_or_call; [done| |].
  - intros a f [Hf E]. split; [by apply sound_journal|done].
  - intros f Hf. destruct r; [done|by apply (sound_held _ HF)].
Qed.
Lemma at_path_ro {A} p (op : place → Fs → result errno A * Fs) f :
  (∀ k, (op k f).2 = f) →
  ((λ f, match locate p with Ok k => op k f | Err e => (Err e, f) end) f).2 = f.
Proof. intros Hop. simpl. by destruct (locate p). Qed.

Lemma keeps_ignore {A} (op : Fs → result errno A * Fs) F (Q : Fs → Prop) :
  Sound F → (∀ f, Q f → Q (journal f)) → (∀ f, F f → Q f) → (∀ f, F f → Q (op f).2) →
  keeps F (ignore (win_call op)) (λ _, Q).
Proof.
  intros HF HQ HE HO. eapply keeps_bind; [by apply (keeps_call op F (λ _, Q))|]. intros r. by apply keeps_ret.
Qed.

Lemma keeps_write (g : errno → RemediationError) i bs F (Q : Fs → Prop) :
  Sound F → (∀ f n, F f → held (sys_write i (take n bs) f)) → (∀ f, F f → Q (sys_write i bs f)) →
  keeps F (or_throw g (win_write_all i bs)) (λ _, Q).
Proof.
  intros HF HW HQ. apply keeps_or.
  apply (win_write_triple t i bs F (λ r f, match r with Ok _ => Q f | Err _ => held f end)).
  - intros f garbage Hf. by apply held_crash, (sound_held _ HF).
  - intros f e Hf. by apply (sound_held _ HF).
  - intros f e n Hf. by apply HW.
  - done.
Qed.

Lemma keeps_now F : keeps F now_utc (λ _, F).
Proof. intros s [Hs Hf]. unfold now_utc. by destruct (clock s). Qed.

Lemma keeps_random n F : (0 < n)%nat →
  keeps F (random_bytes n) (λ r f, F f ∧ ∀ bs, r = Ok bs → length bs = n ∧ Forall is_byte bs).
Proof.
  intros Hn s [Hs Hf]. unfold random_bytes. destruct (entropy s) as [|[bs|e] r]; simpl.
  - split; [done|]. by split.
  - split; [done|]. split; [done|]. intros l [= <-]. split.
    + rewrite length_take, length_app, length_fmap, repeat_length. lia.
    + apply Forall_take, Forall_app. split; [|by apply Forall_forall; intros x ->%list_elem_of_In%repeat_spec].
      apply Forall_fmap, Forall_forall. intros x _. unfold is_byte. simpl. apply N.mod_lt. done.
  - split; [done|]. by split.
Qed.

(** [m], then fail with [e]. *)
Lemma keeps_then_throw {A B} F (m : P B) e (Q : A → Fs → Prop) :
  keeps F m (λ _, held) → keeps F (_ ← m; throw e) Q.
Proof. intros Hm. eapply keeps_bind; [exact Hm|]. intros ?. by apply keeps_throw. Qed.

(** The temporary's path and the other paths of an item. *)
Lemma item_located i n : parse_id i = Ok i → item_file i n → locate (items_path t n) = Ok (I, n).
Proof. apply Hloc. Qed.

Lemma held_remove i n : parse_id i = Ok i → item_file i n → is_tmp n → keeps held (ignore (remove_file (items_path t n))) (λ _, held).
Proof.
  intros Hi Hf Hn. unfold remove_file, at_path. rewrite (item_located i) by done.
  apply keeps_ignore; [apply sound_held_self|apply (sound_journal _ sound_held_self)|done|].
  intros f Hh. unfold win_delete. destruct (live f !! (I, n)); [|done]. simpl.
  apply holds_delete; [by apply kept_local|done].
Qed.

(** ** Reading *)
Section Reading.
Context (F : Fs → Prop) (HF : Sound F).

Lemma keeps_read i off max : 0 < max →
  keeps F (win_read i off max) (λ r f, F f ∧ ∀ bs, r = Ok bs → ∀ x, inodes f !! i = Some x →
    ∃ n, (0 < n)%nat ∧ bs = take n (drop (N.to_nat off) (data x))).
Proof.
  intros Hm. apply win_read_triple; [done|..].
  - intros f g Hf. by apply held_crash, (sound_held _ HF).
  - intros f e Hf. by split.
  - intros f n Hf Hn. split; [done|]. intros bs [= <-] x ->. by exists n.
Qed.
Lemma keeps_read_any i off max : 0 < max → keeps F (win_read i off max) (λ _, F).
Proof. intros Hm. eapply keeps_conseq; [by apply keeps_read|done|]. by intros r f [? _]. Qed.

Lemma keeps_enough i : keeps F (enough i) (λ _, F).
Proof. intros s Hs. done. Qed.

Lemma keeps_read_exact fuel i off want : keeps F (read_exact fuel i off want) (λ _, F).
Proof.
  revert off want. induction fuel as [|fuel IH]; intros off want; simpl; [by apply keeps_ret|].
  destruct (N.eqb_spec want 0); [by apply keeps_ret|].
  eapply keeps_bind; [apply keeps_read_any; lia|]. intros [[|b bs]|e]; [by apply keeps_ret| |by apply keeps_ret].
  eapply keeps_bind; [apply IH|]. intros rest. by apply keeps_ret.
Qed.

Lemma keeps_decode_loop fuel i key p total hashed : keeps F (decode_loop fuel i key None p total hashed) (λ _, F).
Proof.
  revert total hashed. induction fuel as [|fuel IH]; intros total hashed; cbn [decode_loop].
  { apply keeps_throw, (sound_held _ HF). }
  eapply keeps_bind; [by apply keeps_read_any|]. intros [[|b bs]|e]; [by apply keeps_ret|apply IH|].
  apply keeps_throw, (sound_held _ HF).
Qed.

Lemma keeps_lifted {A} (r : result RemediationError A) : keeps F (lift r) (λ _, F).
Proof. eapply keeps_conseq; [apply keeps_lift, (sound_held _ HF)|done|]. by intros a f [? _]. Qed.

Lemma keeps_decode_path i p key : keeps F (decode_path i p key None) (λ _, F).
Proof.
  unfold decode_path. eapply keeps_bind.
  { apply keeps_look; [done|]. intros f. apply (at_path_ro p win_open). done. }
  intros h. eapply keeps_bind; [apply keeps_enough|]. intros n.
  eapply keeps_bind; [apply keeps_read_exact|]. intros magic.
  eapply keeps_bind; [apply keeps_lifted|]. intros m.
  eapply keeps_bind; [apply keeps_lifted|]. intros m'.
  eapply keeps_bind; [apply keeps_enough|]. intros n'.
  eapply keeps_bind; [apply keeps_decode_loop|]. intros [h' n2]. by apply keeps_ret.
Qed.
End Reading.

(** ** The copy *)

(** The temporary [n] is the file [j] with the content [bs]. *)
Definition copy (n : string) (j : inum) (bs : bytes) (sf : bool) (f : Fs) : Prop :=
  live f !! (I, n) = Some j ∧ ∃ x, inodes f !! j = Some x ∧ data x = bs ∧ (sf = true → safe x = true).

Section Copying.
Context (n : string) (Hn : is_tmp n) (A : names → Fs → Prop) (HL : Local n A) (HE : Enough A).

Definition writing (j : inum) (bs : bytes) (sf : bool) (f : Fs) : Prop := holds A f ∧ copy n j bs sf f.

Lemma sound_writing j bs sf : Sound (writing j bs sf).
Proof.
  pose proof (sound_holds A HE) as [Hh Hj]. split.
  - intros f [Hf _]. by apply Hh.
  - intros f [Hf Hc]. split; [by apply Hj|done].
Qed.

Lemma writing_write j bs sf more f : writing j bs sf f → writing j (bs ++ more) false (sys_write j more f).
Proof.
  intros [Hh [Hl (x & Hx & Hd & _)]]. erewrite sys_write_eq by done.
  split; [by eapply holds_set_inode|]. split; [done|]. eexists. split; [apply lookup_insert_eq|].
  simpl. by rewrite Hd.
Qed.

Lemma writing_sync j bs sf f : writing j bs sf f → writing j bs true (sys_fsync j f).2.
Proof.
  intros [Hh [Hl (x & Hx & Hd & _)]]. erewrite sys_fsync_eq by done.
  split; [by eapply holds_set_inode|]. split; [done|]. eexists. split; [apply lookup_insert_eq|done].
Qed.

Lemma keeps_writing g j bs sf more :
  keeps (writing j bs sf) (or_throw g (win_write_all j more)) (λ _, writing j (bs ++ more) false).
Proof.
  apply keeps_write; [apply sound_writing| |].
  - intros f k Hw. eapply (sound_held _ (sound_writing _ _ _)). by apply (writing_write j bs sf).
  - intros f Hw. by eapply writing_write.
Qed.

Lemma keeps_sync g j bs sf : keeps (writing j bs sf) (or_throw g (win_call (sys_fsync j))) (λ _, writing j bs true).
Proof.
  apply keeps_or_call; [apply sound_writing|intros _ f; by apply sound_journal, sound_writing|].
  intros f Hw. rewrite (surjective_pairing (sys_fsync j f)). cbn [fst sys_fsync]. by eapply writing_sync.
Qed.

Lemma writing_created f : holds A f → live f !! (I, n) = None → writing (fresh_inum f) [] false (created (I, n) f).
Proof.
  intros Hh Hl. split; [by apply holds_created|]. split; [apply lookup_insert_eq|].
  eexists. split; [apply lookup_insert_eq|done].
Qed.

Lemma keeps_create_new g p : locate p = Ok (I, n) →
  keeps (holds A) (or_throw g (create_new p)) (λ h, writing (h_file h) [] false).
Proof.
  intros Hp. unfold create_new, at_path. rewrite Hp.
  apply keeps_or_call; [by apply sound_holds|intros h f; by apply sound_journal, sound_writing|].
  intros f Hh. unfold win_create_new. destruct (live f !! (I, n)) eqn:E; simpl.
  - by apply (sound_held _ (sound_holds A HE)).
  - by apply writing_created.
Qed.

Lemma keeps_create_always g p : locate p = Ok (I, n) →
  keeps (holds A) (or_throw g (at_path p win_create_always)) (λ j, writing j [] false).
Proof.
  intros Hp. unfold at_path. rewrite Hp.
  apply keeps_or_call; [by apply sound_holds|intros h f; by apply sound_journal, sound_writing|].
  intros f Hh. pose proof (sound_held _ (sound_holds A HE) f Hh) as Hheld.
  unfold win_create_always, win_create_new. destruct (live f !! (I, n)) as [j|] eqn:E; [|by apply writing_created].
  destruct (inodes f !! j) as [x|] eqn:Ex; [|done].
  split; [by apply (holds_set_inode n)|]. split; [done|]. eexists. split; [apply lookup_insert_eq|done].
Qed.
End Copying.

(** The temporary [n] is safe. *)
Lemma holds_copy n Q A j bs f :
  writing n A j bs true f → Q bs → holds (λ m f, A m f ∧ at_item Q n m f) f.
Proof.
  intros [(Hb & Ha & Hk) [Hl (x & Hx & Hd & Hs)]] HQ. split; [done|]. split; [split; [done|]|done].
  exists j, x. subst. auto.
Qed.

(** The file is in place while the copy is written: its content is [D]. *)
Lemma keeps_copy_loop n fuel j key max tmp p total :
  is_tmp n → total ≤ vlen D →
  keeps (writing n orig j (encoded key (take (N.to_nat total) D)) false)
    (copy_loop fuel i0 j key max tmp p total (take (N.to_nat total) D))
    (λ r f, writing n orig j (encoded key D) false f ∧ r = (D, vlen D)).
Proof.
  intros Hn. pose proof (λ bs sf, sound_writing n orig enough_orig j bs sf) as HS.
  revert total. induction fuel as [|fuel IH]; intros total Ht; cbn [copy_loop].
  { apply keeps_throw, HS. }
  eapply keeps_bind; [by apply keeps_read|]. intros r.
  eapply keeps_pre with (F := λ f, writing n orig j (encoded key (take (N.to_nat total) D)) false f ∧
    ∀ bs, r = Ok bs → ∃ k, (0 < k)%nat ∧ bs = take k (drop (N.to_nat total) D)).
  2:{ intros f [HA Hr]. split; [done|]. intros bs ->.
      destruct HA as [(_ & (_ & x & Hx & <- & _) & _) _]. by apply Hr. }
  apply keeps_pure. intros Hr. destruct r as [buf|e]; [|apply keeps_throw, HS].
  destruct (Hr buf eq_refl) as (k & Hk & ->). clear Hr.
  destruct (next_piece D total k Ht Hk) as (Hnil & Happ & Hle & Hlen). cbn zeta in *.
  destruct (take k (drop (N.to_nat total) D)) as [|b buf] eqn:Eb.
  - specialize (Hnil eq_refl). subst total.
    rewrite (take_ge D) by (unfold vlen; lia). by apply keeps_ret.
  - clear Hnil Eb. generalize dependent (b :: buf). clear b buf. intros buf Happ Hle. rewrite N.add_sub.
    eapply keeps_bind; [apply keeps_lifted, HS|]. intros ?.
    eapply keeps_bind; [apply keeps_writing; auto using orig_local, enough_orig|]. intros ?.
    rewrite Happ. eapply keeps_pre; [by apply IH|].
    intros f Hf. rewrite <-Happ, encoded_app, Hlen. exact Hf.
Qed.

(** [write_encoded] leaves the original alone, and when it returns the
    temporary holds the encoding of the whole file on stable storage. *)
Lemma keeps_write_encoded n i key max tmp p :
  is_tmp n → locate tmp = Ok (I, n) →
  keeps (holds orig) (write_encoded i0 tmp i key max p)
    (λ r f, (∃ j, writing n orig j (encoded key D) true f) ∧ r = (sha256 D, vlen D)).
Proof.
  intros Hn Htmp. pose proof (λ j bs sf, sound_writing n orig enough_orig j bs sf) as HS.
  unfold write_encoded. eapply keeps_bind.
  { apply (keeps_create_new n); auto using orig_local, enough_orig. }
  intros out. eapply keeps_bind; [apply keeps_writing; auto using orig_local, enough_orig|]. intros ?.
  eapply keeps_bind; [by apply keeps_enough|]. intros fuel.
  eapply keeps_bind; [apply (keeps_copy_loop n fuel (h_file out) key max tmp p 0); [done|lia]|].
  intros [h tot]. apply keeps_pure. intros [= -> ->]. eapply keeps_bind; [apply keeps_sync; auto using orig_local, enough_orig|].
  intros ?. cbv zeta. eapply keeps_bind; [apply keeps_decode_path, HS|]. intros [check len].
  eapply keeps_bind; [apply keeps_lifted, HS|]. intros ?. apply keeps_ret. intros f Hf. split; [by eexists|done].
Qed.

(** ** Saving a record *)

Lemma keeps_rename i a b F (Q : Fs → Prop) g :
  parse_id i = Ok i → item_file i a → item_file i b → Sound F → (∀ f, Q f → Q (journal f)) →
  (∀ f, F f → match live f !! (I, a) with
              | Some j => Q (set_live (<[(I, b) := j]> (base.delete (I, a) (live f))) f)
              | None => True
              end) →
  keeps F (or_throw g (rename (items_path t a) (items_path t b))) (λ _, Q).
Proof.
  intros Hi Ha Hb HF HJ HQ. unfold rename. rewrite !(item_located i) by done.
  apply keeps_or_call; [done|by intros _|]. intros f Hf. specialize (HQ f Hf). unfold win_rename.
  destruct (live f !! (I, a)); [done|]. by apply (sound_held _ HF).
Qed.

(** [save]: [A] is what holds before it, [A'] after the record has its name. *)
Lemma keeps_save (rec : QuarantineRecord) (A A' : names → Fs → Prop) :
  let i := id rec in let n := atomic_tmp (json_name i) in
  parse_id i = Ok i → Local n A → Enough A → Enough A' →
  (∀ m f j x bs, A m f → inodes f !! j = Some x → data x = bs → safe x = true → to_vec_pretty rec = Ok bs →
     A' (<[(I, json_name i) := j]> m) f) →
  keeps (holds A) (save rec) (λ _, holds A').
Proof.
  intros i n Hi HL HE HE' HA. assert (is_tmp n) as Hn by apply tmp_names.
  unfold save. apply keeps_self. cbv zeta. eapply keeps_bind.
  { apply keeps_lift, (sound_held _ (sound_holds A HE)). }
  intros bs. apply keeps_pure. intros Hbs. destruct (to_vec_pretty rec) as [bs'|] eqn:E; [|done].
  simpl in Hbs. injection Hbs as ->. unfold write_atomic. cbv zeta.
  eapply keeps_bind.
  { apply (keeps_create_always n); auto. apply (item_located i); [done|]. unfold item_file. auto. }
  intros j. eapply keeps_bind; [by apply keeps_writing|]. intros ?.
  eapply keeps_bind; [by apply keeps_sync|]. intros ?. change ([] ++ bs) with bs.
  eapply (keeps_rename i n (json_name i)); unfold item_file; auto.
  - by apply sound_writing.
  - apply (sound_journal _ (sound_holds A' HE')).
  - intros f [(Hb & Ha & Hk) [Hl (x & Hx & Hd & Hs)]]. rewrite Hl. split_and!; [|simpl|done].
    + apply base_renamed; [done|apply not_tmp|done].
    + destruct HE' as [_ HI]. apply (HI _ f); [done|]. eapply HA; [|done..|by apply Hs|done].
      eapply HL; [|by intros|exact Ha]. intros k Hkn. by rewrite lookup_delete_ne.
Qed.

(** ** What one name more changes *)
Lemma at_item_put Q n k j m f : k ≠ (I, n) → at_item Q n m f → at_item Q n (<[k := j]> m) f.
Proof. intros Hn Hq. unfold at_item. by rewrite lookup_insert_ne. Qed.
Lemma at_item_insert Q n n' j m f : n ≠ n' → at_item Q n m f → at_item Q n (<[(I, n') := j]> m) f.
Proof. intros Hn. apply at_item_put. congruence. Qed.
Lemma at_item_new Q n j x m f :
  inodes f !! j = Some x → safe x = true → Q (data x) → at_item Q n (<[(I, n) := j]> m) f.
Proof. intros Hx Hs HQ. exists j, x. by rewrite lookup_insert_eq. Qed.
Lemma orig_insert n j m f : orig m f → orig (<[(I, n) := j]> m) f.
Proof. intros [Ho Hx]. split; [|done]. rewrite lookup_insert_ne; [done|]. apply not_eq_sym, orig_ne. Qed.
Lemma gone_insert n j m f : gone m f → gone (<[(I, n) := j]> m) f.
Proof. intros Hg. unfold gone. rewrite lookup_insert_ne; [done|]. apply not_eq_sym, orig_ne. Qed.
Lemma at_item_delete Q n k m f : k ≠ (I, n) → at_item Q n m f → at_item Q n (base.delete k m) f.
Proof. intros Hk Hq. unfold at_item. by rewrite lookup_delete_ne. Qed.
Lemma orig_removed n m f : orig m f → orig (base.delete (I, n) m) f.
Proof. intros [Ho Hx]. split; [|done]. rewrite lookup_delete_ne; [done|]. apply not_eq_sym, orig_ne. Qed.

Lemma good_record i key rec j x m f bs :
  good i key rec → to_vec_pretty rec = Ok bs → inodes f !! j = Some x → data x = bs → safe x = true →
  has_record i key (<[(I, json_name i) := j]> m) f.
Proof.
  intros Hg Hbs Hx <- Hs. eapply at_item_new; [done..|]. exists rec.
  split; [by apply from_slice_to_vec_pretty|done].
Qed.

(** The copy has its own temporary name, and then the record too. *)
Definition copied (i : QuarantineId) (key : bytes) (m : names) (f : Fs) : Prop :=
  orig m f ∧ at_item (λ b, b = encoded key D) (tmp_name i) m f.
Definition recorded (i : QuarantineId) (key : bytes) (m : names) (f : Fs) : Prop :=
  orig m f ∧ at_item (λ b, b = encoded key D) (tmp_name i) m f ∧ has_record i key m f.
(** The item is complete and the original is still there. *)
Definition committed (i : QuarantineId) (key : bytes) (m : names) (f : Fs) : Prop :=
  orig m f ∧ stored i key m f.

Lemma enough_copied i key : Enough (copied i key).
Proof. apply enough_orig_and. intros m f f' E. by apply entry_inodes. Qed.
Lemma enough_recorded i key : Enough (recorded i key).
Proof. apply enough_orig_and. intros m f f' E [Ha Hb]. split; by eapply entry_inodes. Qed.
Lemma enough_committed i key : Enough (committed i key).
Proof. apply enough_orig_and. intros m f f' E. by apply stored_inodes. Qed.

Lemma holds_weaken A A' f : (∀ m, A m f → A' m f) → holds A f → holds A' f.
Proof. intros HA (Hb & Ha & Hk). split_and!; auto. Qed.

Lemma keeps_save_first i key rec : parse_id i = Ok i → good i key rec →
  keeps (holds (copied i key)) (save rec) (λ _, holds (recorded i key)).
Proof.
  intros Hi Hg. assert (id rec = i) as <- by apply Hg.
  destruct (names_ne (id rec)) as (N1 & N2 & N3 & N4 & N5).
  apply keeps_save; auto using enough_copied, enough_recorded.
  - apply and_local; [apply orig_local|]. apply at_item_local. congruence.
  - intros m f j x bs [Ho Ht] Hx Hd Hs Hbs. split_and!.
    + by apply orig_insert.
    + by apply at_item_insert.
    + by eapply good_record.
Qed.

(** A removal in the store's directory while the file is held. *)
Lemma sound_remove F i n : Sound F → parse_id i = Ok i → item_file i n → is_tmp n →
  keeps F (ignore (remove_file (items_path t n))) (λ _, held).
Proof. intros HF Hi Hf Hn. eapply keeps_pre; [by apply (held_remove i)|apply (sound_held _ HF)]. Qed.

Lemma keeps_store_copy req src st i key :
  req_path req = o → h_file src = i0 → parse_id i = Ok i → key_ok key →
  keeps (holds orig) (store_copy req src st i key)
    (λ rec f, holds (committed i key) f ∧ good i key rec ∧
       from_option (λ e, e = sha256 D) True (expected_sha256 req)).
Proof.
  intros Ho Hsrc Hi Hk. destruct (tmp_names i) as [Ht _]. destruct (names_ne i) as (N1 & N2 & N3 & N4 & N5).
  unfold store_copy. rewrite Ho, Hsrc. apply keeps_self. cbv zeta. eapply keeps_bind.
  { apply keeps_attempt, (keeps_write_encoded (tmp_name i)); [done|]. apply (item_located i); unfold item_file; auto. }
  intros r. eapply keeps_bind with (Q := λ v f, holds (copied i key) f ∧ v = (sha256 D, vlen D)).
  { destruct r as [v|e].
    - apply keeps_ret. intros f [[j Hw] ->]. split; [|done]. by apply (holds_copy _ _ _ j (encoded key D)).
    - apply keeps_then_throw, (held_remove i); unfold item_file; auto. }
  intros v. apply keeps_pure. intros ->. cbn beta iota.
  eapply keeps_bind with (Q := λ _ f, holds (copied i key) f ∧ from_option (λ e, e = sha256 D) True (expected_sha256 req)).
  { destruct (expected_sha256 req) as [ex|]; [case_bool_decide as He|]; [by apply keeps_ret| |by apply keeps_ret].
    apply keeps_then_throw, (sound_remove _ i); unfold item_file; auto. apply sound_holds, enough_copied. }
  intros ?. apply keeps_pure. intros Hex. eapply keeps_bind; [apply keeps_now|]. intros now. cbv zeta.
  set (rec := mkRecord _ _ _ _ _ _ _ _ _ _ _).
  assert (good i key rec) as Hg by (unfold good; split_and!; by try left).
  eapply keeps_bind; [by apply keeps_save_first|]. intros ?.
  eapply keeps_bind with (Q := λ _, holds (committed i key)).
  { apply (keeps_rename i); unfold item_file; auto; [apply sound_holds, enough_recorded|..].
    - apply sound_journal, sound_holds, enough_committed.
    - intros f (Hb & (Ho' & (j & x & Hj & Hx & Hs & Hd) & Hr) & Hkd). rewrite Hj. destruct (not_tmp i).
      split; [by apply base_renamed|]. split; [|done]. simpl. split; [|split].
      + by apply orig_insert, orig_removed.
      + by apply (at_item_new _ _ _ x).
      + pose proof (data_json i). apply at_item_insert; [congruence|]. apply at_item_delete; [congruence|done]. }
  intros ?. by apply keeps_ret.
Qed.

(** ** Removing the original *)

Definition pinned : handle := mkHandle (pd, nm) i0 true.
(** The item is complete, the original's name is free. *)
Definition removed (i : QuarantineId) (key : bytes) (m : names) (f : Fs) : Prop := stored i key m f ∧ gone m f.

Lemma removed_local n i key : is_tmp n → Local n (removed i key).
Proof. intros Hn. apply and_local; [by apply stored_local|apply gone_local]. Qed.

Lemma committed_removed i key f :
  holds (committed i key) f → holds (removed i key) (set_live (base.delete (pd, nm) (live f)) f).
Proof.
  intros (Hb & [Ho [Hc Hr]] & Hk). split; [by apply base_removed|]. split; [|done]. simpl. split; [split|].
  - by apply at_item_delete; [apply orig_ne|].
  - by apply at_item_delete; [apply orig_ne|].
  - apply lookup_delete_eq.
Qed.

Definition after_delete (i : QuarantineId) (key : bytes) (r : result errno unit) : Fs → Prop :=
  match r with Ok _ => holds (removed i key) | Err _ => holds (committed i key) end.

Lemma keeps_delete_pinned i key : key_ok key →
  keeps (holds (committed i key)) (win_call (win_delete_by_handle pinned)) (after_delete i key).
Proof.
  intros Hk. apply keeps_call.
  - apply sound_holds, enough_committed.
  - intros [u|e]; apply sound_journal, sound_holds; [by apply enough_stored|apply enough_committed].
  - done.
  - intros f Hf. unfold win_delete_by_handle. simpl.
    destruct (Hf) as (_ & [[Hl _] _] & _). rewrite bool_decide_true by done. simpl. by apply committed_removed.
Qed.

Lemma keeps_retry n i key e : key_ok key →
  keeps (holds (committed i key)) (retry_delete n pinned (Err e)) (after_delete i key).
Proof.
  intros Hk. revert e. induction n as [|n IH]; intros e; simpl; [by apply keeps_ret|].
  eapply keeps_bind; [by apply keeps_delete_pinned|]. intros [u|e']; simpl; [by apply keeps_ret|apply IH].
Qed.

Lemma keeps_roll_back i key rec why : parse_id i = Ok i → id rec = i →
  keeps (holds (committed i key)) (roll_back rec why) (λ _, held).
Proof.
  intros Hi Hid. unfold roll_back. apply keeps_self. rewrite Hid. eapply keeps_bind with (Q := λ _, holds orig).
  { unfold remove_file, at_path. rewrite (item_located i) by (unfold item_file; auto).
    apply keeps_ignore; [apply sound_holds, enough_committed|apply sound_journal, sound_holds, enough_orig|..].
    - intros f. apply holds_weaken. by intros m [].
    - intros f (Hb & [Ho _] & Hk). unfold win_delete. destruct (live f !! (I, data_name i)); simpl; [|done].
      split; [by apply base_removed|]. split; [|done]. by apply orig_removed. }
  intros ?. eapply keeps_bind; [apply keeps_now|]. intros now.
  eapply keeps_conseq; [apply (keeps_save _ orig orig)|done|]; cbn [id advance]; rewrite ?Hid; auto using enough_orig, orig_local.
  - intros m f j x bs Ho _ _ _ _. by apply orig_insert.
  - intros ? f. apply (sound_held _ (sound_holds _ enough_orig)).
Qed.

Lemma good_same i key rec rec' :
  id rec' = id rec → format_version rec' = format_version rec → key_hex rec' = key_hex rec → original rec' = original rec →
  (Record.state rec' = Pending ∨ Record.state rec' = Quarantined) → good i key rec → good i key rec'.
Proof. unfold good. intros -> -> -> -> ? (? & ? & ? & ? & ? & _). by split_and!. Qed.

Lemma keeps_remove_original req rec i key : parse_id i = Ok i → key_ok key → good i key rec →
  keeps (holds (committed i key)) (remove_original req pinned rec) (λ rec' f, holds (removed i key) f ∧ good i key rec').
Proof.
  intros Hi Hk Hg. unfold remove_original. cbv zeta. eapply keeps_bind; [by apply keeps_delete_pinned|]. intros r.
  eapply keeps_bind with (Q := λ v f, after_delete i key v.1 f ∧ good i key v.2).
  { destruct (negb (is_ok r) && kill_processes req && negb (bool_decide (running (req_path req) = []))) eqn:E.
    - destruct r as [u|e]; [done|]. eapply keeps_bind; [by apply keeps_retry|]. intros r'. apply keeps_ret.
      intros f Hf. split; [done|]. eapply good_same; [..|exact Hg]; [done..|apply Hg].
    - by apply keeps_ret. }
  intros [r' rec']. apply keeps_pure. cbn [fst snd]. intros Hg'. destruct r' as [u|e]; [by apply keeps_ret|].
  apply keeps_then_throw. by apply (keeps_roll_back i key); [|apply Hg'].
Qed.

Lemma keeps_save_second i key rec : parse_id i = Ok i → key_ok key → good i key rec →
  keeps (holds (removed i key)) (save rec) (λ _, holds (removed i key)).
Proof.
  intros Hi Hk Hg. assert (id rec = i) as Hid by apply Hg.
  apply keeps_save; rewrite ?Hid; auto.
  - apply removed_local, tmp_names.
  - by apply enough_stored.
  - by apply enough_stored.
  - intros m f j x bs [[Hc Hr] Hgo] Hx Hd Hs Hbs. split; [split|].
    + pose proof (data_json i). by apply at_item_insert.
    + by eapply good_record.
    + by apply gone_insert.
Qed.

(** ** The audit log *)
Lemma audit_triple action i p sha outcome A n : is_tmp n → Local n A → Enough A →
  triple (on_fs t (holds A)) (audit_event action i p sha outcome) (λ _ s, holds A (fs s)) (λ _, on_fs t held) crashed.
Proof.
  intros Hn HL HE. pose proof (sound_holds A HE) as HS.
  assert (∀ f bs, holds A f → holds A (sys_write (audit t) bs f)) as Hw.
  { intros f bs Hf. unfold sys_write. destruct (inodes f !! audit t); [by apply (holds_set_audit n)|done]. }
  unfold audit_event. destruct (match outcome with Ok d => _ | Err e => _ end) as [out det].
  apply triple_self. eapply keeps_bind_any; [apply keeps_now|]. intros now. cbv zeta.
  eapply keeps_bind_any; [apply keeps_lifted, HS|]. intros [line h].
  eapply keeps_bind_any with (Q := λ _, holds A).
  { apply keeps_write; [done| |by intros f; apply Hw]. intros f k Hf. by apply (sound_held _ HS), Hw. }
  intros ?. eapply keeps_bind_any with (Q := λ _, holds A).
  { apply keeps_or_call; [done|by intros _; apply sound_journal|]. intros f Hf. unfold sys_fsync.
    destruct (inodes f !! audit t); [by apply (holds_set_audit n)|done]. }
  intros ?. eapply keeps_bind_any with (Q := λ _, holds A).
  { destruct (anchor t); [|by apply keeps_ret]. intros s Hs. unfold datagram. by destruct (delivered s). }
  intros sent. by intros s [Hs Hf].
Qed.

(** ** The whole operation *)

(** What a successful quarantine leaves. *)
Definition quarantined (req : QuarantineRequest) (rec : QuarantineRecord) (f : Fs) : Prop :=
  Record.state rec = Quarantined ∧ from_option (λ e, e = sha256 D) True (expected_sha256 req) ∧
  (∃ key, key_ok key ∧ stored (id rec) key (live f) f ∧ good (id rec) key rec) ∧
  live f !! (pd, nm) = None ∧ kept (disk f) f.

Lemma keeps_pin req : req_path req = o → locate o = Ok (pd, nm) →
  keeps (holds orig) (pin req) (λ v f, holds orig f ∧ v.1 = pinned).
Proof.
  intros Ho Hl. pose proof (sound_holds _ enough_orig) as HS. unfold pin. rewrite Ho. cbv zeta.
  eapply keeps_bind; [apply keeps_lifted, HS|]. intros ?.
  eapply keeps_bind; [apply keeps_lifted, HS|]. intros ?. apply keeps_self.
  eapply keeps_bind; [apply keeps_lifted, HS|]. intros ?.
  eapply keeps_bind with (Q := λ h f, holds orig f ∧ h = pinned).
  { unfold at_path. rewrite Hl. apply keeps_or_call; [done| |].
    - intros h f [Hf E]. split; [by apply sound_journal|done].
    - intros f Hf. unfold open_at, win_open. destruct Hf as (Hb & [Hlo (x & Hx & Hd)] & Hk).
      rewrite Hlo, Hx. split; [|done]. split; [done|]. split; [|done]. split; [done|by exists x]. }
  intros h. apply keeps_pure. intros ->.
  eapply keeps_bind; [by apply keeps_look|]. intros st.
  do 2 (eapply keeps_bind; [apply keeps_lifted, HS|]; intros ?).
  eapply keeps_bind; [by eapply keeps_asked|]. intros actual. eapply keeps_pre with (F := holds orig); [|by intros f []].
  do 3 (eapply keeps_bind; [apply keeps_lifted, HS|]; intros ?).
  eapply keeps_bind; [by apply keeps_look|]. intros info.
  eapply keeps_bind; [apply keeps_lifted, HS|]. intros ?. by apply keeps_ret.
Qed.

Lemma win_quarantine_inner_triple req : req_path req = o → locate o = Ok (pd, nm) →
  triple (on_fs t (holds orig)) (quarantine_inner req) (λ rec s, quarantined req rec (fs s)) (λ _, on_fs t held) crashed.
Proof.
  intros Ho Hl. unfold quarantine_inner. cbv zeta.
  eapply keeps_bind_any; [by apply keeps_pin|]. intros [src st]. apply triple_assume. cbn [fst]. intros ->.
  eapply keeps_bind_any; [apply keeps_random; lia|]. intros ib. apply triple_assume. intros Hib.
  eapply keeps_bind_any; [apply keeps_lift, (sound_held _ (sound_holds _ enough_orig))|].
  intros ib'. apply triple_assume. intros Eib.
  eapply keeps_bind_any; [apply keeps_random; unfold KEY_LEN; lia|]. intros kb. apply triple_assume. intros Hkb.
  eapply keeps_bind_any; [apply keeps_lift, (sound_held _ (sound_holds _ enough_orig))|].
  intros key. apply triple_assume. intros Ekb.
  assert (key_ok key) as Hk.
  { destruct kb as [b|]; simpl in Ekb; simplify_eq. by apply Hkb. }
  assert (parse_id (random_id ib') = Ok (random_id ib')) as Hi.
  { destruct ib as [b|]; simpl in Eib; simplify_eq. destruct (Hib _ eq_refl). by apply Record.parse_random_id. }
  generalize dependent (random_id ib'). intros i Hi. set (A := removed i key).
  eapply keeps_bind_any; [by apply (keeps_store_copy req _ st i key)|]. intros rec.
  apply triple_assume. intros [Hg Hex]. eapply keeps_bind_any.
  { by apply (keeps_remove_original req rec i key). }
  intros rec'. apply triple_assume. intros Hg'. eapply keeps_bind_any; [apply keeps_now|]. intros now. cbv zeta.
  set (rec2 := advance Quarantined now _ rec').
  assert (good i key rec2) as Hg2 by (eapply good_same; [..|exact Hg']; [done..|by right]).
  eapply keeps_bind_any; [by apply (keeps_save_second i key)|]. intros ?.
  apply (triple_bind _ _ (λ _ s, holds A (fs s))).
  { apply (audit_triple _ _ _ _ _ _ (tmp_name i)); [apply tmp_names|apply removed_local, tmp_names|by apply enough_stored]. }
  intros ? s (Hb & [Hst Hgo] & Hkd). simpl. assert (id rec2 = i) as E2 by apply Hg2.
  split_and!; try done. exists key. rewrite E2. by split_and!.
Qed.

Lemma win_quarantine_triple req : req_path req = o → locate o = Ok (pd, nm) →
  triple (on_fs t (holds orig)) (quarantine req) (λ rec s, quarantined req rec (fs s)) (λ _ s, held (fs s)) crashed.
Proof.
  intros Ho Hl. unfold quarantine.
  apply (triple_bind _ _ (λ r s, match r with Ok rec => quarantined req rec (fs s) | Err _ => on_fs t held s end)).
  { by apply triple_attempt, win_quarantine_inner_triple. }
  intros [rec|e]; [by apply triple_ret|].
  apply (triple_bind _ _ (λ _ s, held (fs s))); [|intros ?; by apply triple_throw].
  eapply triple_conseq; [apply (audit_triple _ _ _ _ _ kept (tmp_name ""))|..]; try done.
  - apply tmp_names.
  - apply kept_local, tmp_names.
  - apply enough_kept.
  - by intros e' s [_ Hs].
Qed.

(** ** Reading an item back *)

Lemma drop_encoded key total :
  total ≤ vlen D →
  drop (N.to_nat (8 + total)) (encoded key D) = xor_in_place (drop (N.to_nat total) D) key total.
Proof.
  intros Ht. unfold encoded, vlen in *.
  replace (N.to_nat (8 + total)) with (length DATA_MAGIC + N.to_nat total)%nat by (unfold DATA_MAGIC; simpl; lia).
  rewrite drop_app_add. rewrite <-(take_drop (N.to_nat total) D) at 1.
  rewrite Common.xor_app, drop_app_length'; [|rewrite Common.length_xor, length_take; lia].
  f_equal. unfold vlen. rewrite length_take. lia.
Qed.

Lemma xor_take k a key off : xor_in_place (take k a) key off = take k (xor_in_place a key off).
Proof. revert k off. induction a as [|x a IH]; intros [|k] off; simpl; try done. by rewrite IH. Qed.

(** The next piece read of the item, decoded, is the next piece of the file. *)
Lemma decoded_piece key total k :
  total ≤ vlen D →
  xor_in_place (take k (drop (N.to_nat (8 + total)) (encoded key D))) key total = take k (drop (N.to_nat total) D).
Proof. intros Ht. by rewrite drop_encoded, <-xor_take, Common.xor_xor. Qed.

Lemma encoded_magic key : take 8 (encoded key D) = DATA_MAGIC.
Proof. done. Qed.

Section Item.
Context (i : QuarantineId) (key : bytes) (Hi : parse_id i = Ok i).
Context (A : names → Fs → Prop) (HR : ∀ m f, A m f → has_record i key m f).

(** [get] returns a record of the file. *)
Lemma keeps_get F : Sound F → (∀ f, F f → holds A f) →
  keeps F (WinStore.get i) (λ rec f, F f ∧ good i key rec).
Proof.
  intros HF HFA. unfold WinStore.get. apply keeps_self. cbv zeta.
  eapply keeps_bind with (Q := λ r f, F f ∧ ∀ bs, r = Some bs → vlen bs ≤ Common.MAX_RECORD_BYTES → good_bytes i key bs).
  { apply keeps_or. unfold read_bounded, at_path. rewrite (item_located i) by (unfold item_file; auto).
    eapply keeps_bind with (Q := λ r f, F f ∧ ∀ j, r = Ok j → live f !! (I, json_name i) = Some j).
    { apply keeps_call; [done|..].
      - intros r f [Hf Hr]. split; [by apply sound_journal|done].
      - intros e f Hf. by split.
      - intros f Hf. split; [done|]. intros j. unfold win_open. simpl.
        destruct (live f !! (I, json_name i)) as [j'|]; [|done]. destruct (inodes f !! j'); [congruence|done]. }
    intros [j|e].
    - eapply keeps_bind with (Q := λ r f, F f ∧ ∀ bs, r = Ok bs → vlen bs ≤ Common.MAX_RECORD_BYTES → good_bytes i key bs).
      + apply keeps_call.
        * split; intros f [Hf Hr]; [by apply (sound_held _ HF)|]. split; [by apply sound_journal|done].
        * intros r f [Hf Hr]. split; [by apply sound_journal|done].
        * intros e f [Hf _]. by split.
        * intros f [Hf Hr]. split; [done|]. intros bs. unfold sys_read_to_end. cbn [fst].
          destruct (HFA f Hf) as (_ & Ha & _). destruct (HR _ _ Ha) as (j' & x & Hj & Hx & _ & Hg).
          rewrite (Hr j eq_refl) in Hj. injection Hj as <-. rewrite Hx. intros [= <-] Hlen.
          rewrite take_ge; [done|]. unfold vlen in Hlen. rewrite length_take in Hlen.
          unfold Common.MAX_RECORD_BYTES in *. lia.
      + intros [bs|e]; simpl; apply keeps_ret; [|by intros f [Hf _]; apply (sound_held _ HF)].
        intros f [Hf Hr]. split; [done|]. intros bs' [= <-]. by apply Hr.
    - destruct (is_not_found_kind e); apply keeps_ret; intros f [Hf _]; [by split|by apply (sound_held _ HF)]. }
  intros found. eapply keeps_bind with (Q := λ bs f, F f ∧ (vlen bs ≤ Common.MAX_RECORD_BYTES → good_bytes i key bs)).
  { apply keeps_pure. intros Hfound. eapply keeps_conseq; [by apply (keeps_lift F), (sound_held _ HF)|done|].
    intros bs f [Hf E]. split; [done|]. destruct found as [l|]; [|done]. injection E as <-. by apply Hfound. }
  intros bs. apply keeps_pure. intros Hbs. eapply keeps_bind.
  { eapply keeps_lift, (sound_held _ HF). }
  intros ?. apply keeps_pure. intros Hlen%reject_if_Ok. apply N.ltb_ge in Hlen.
  destruct (Hbs Hlen) as (rec & Erec & Hg). rewrite Erec. cbn [map_err lift].
  eapply keeps_bind with (Q := λ r f, F f ∧ r = rec); [by apply keeps_ret|]. intros r. apply keeps_pure. intros ->.
  eapply keeps_bind; [apply keeps_lifted, HF|]. intros ?. by apply keeps_ret.
Qed.
End Item.

(** ** Restoring

    The file [i0] is the one to be created, its place [kt] outside the store
    and not the target's. *)
Section Restoring.
Context (i : QuarantineId) (key : bytes) (Hi : parse_id i = Ok i) (Hk : key_ok key).
Context (kt : place) (HkI : kt.1 ≠ I) (Hkt : kt ≠ (pd, nm)).

Definition out (bs : bytes) (sf : bool) (f : Fs) : Prop :=
  live f !! kt = Some i0 ∧ apart i0 f ∧ i0 ≠ audit t ∧
  ∃ x, inodes f !! i0 = Some x ∧ data x = bs ∧ (sf = true → safe x = true).
(** The item is there, its target free; the temporary has the content [bs]. *)
Definition filled (bs : bytes) (sf : bool) (f : Fs) : Prop := holds (removed i key) f ∧ out bs sf f.
Definition source (jd : inum) (f : Fs) : Prop := live f !! (I, data_name i) = Some jd.

Lemma sound_and F G : Sound F → (∀ f, G f → G (journal f)) → Sound (λ f, F f ∧ G f).
Proof.
  intros HF HG. split; intros f [Hf Hg]; [by apply (sound_held _ HF)|].
  split; [by apply (sound_journal _ HF)|by apply HG].
Qed.

Lemma sound_removed : Sound (holds (removed i key)).
Proof. by apply sound_holds, enough_stored. Qed.

Lemma out_journal bs sf f : out bs sf f → out bs sf (journal f).
Proof. intros (Hl & Ha & Hn & Hx). split; [done|]. split; [|done]. intros k Hin. simpl. split; by apply Ha. Qed.
Lemma sound_filled bs sf : Sound (filled bs sf).
Proof. apply sound_and; [apply sound_removed|apply out_journal]. Qed.
Lemma sound_source bs sf jd : Sound (λ f, filled bs sf f ∧ source jd f).
Proof. apply sound_and; [apply sound_filled|done]. Qed.

Lemma filled_set bs sf x f :
  filled bs sf f → filled (data x) (safe x) (set_inode i0 x f).
Proof.
  intros [Hh (Hl & Ha & Hn & Hx)]. split.
  - apply (holds_set_apart (tmp_name i)); [apply tmp_names|apply removed_local, tmp_names|done..].
  - split_and!; try done. exists x. split; [apply lookup_insert_eq|done].
Qed.

Lemma filled_weaken bs f : filled bs true f → filled bs false f.
Proof. intros [Hh (Hl & Ha & Hn & x & Hx & Hd & _)]. split; [done|]. split_and!; try done. by exists x. Qed.

Lemma filled_write bs more f : filled bs false f → filled (bs ++ more) false (sys_write i0 more f).
Proof.
  intros Hf. pose proof Hf as [_ (_ & _ & _ & x & Hx & Hd & _)]. erewrite sys_write_eq by done.
  subst bs. apply (filled_set (data x) false (set_data (data x ++ more) false x) f Hf).
Qed.
Lemma filled_sync bs f : filled bs false f → filled bs true (sys_fsync i0 f).2.
Proof.
  intros Hf. pose proof Hf as [_ (_ & _ & _ & x & Hx & Hd & _)]. erewrite sys_fsync_eq by done.
  subst bs. apply (filled_set (data x) false (set_data (data x) true x) f Hf).
Qed.

(** Creating the temporary. *)
Lemma filled_created f :
  holds (removed i key) f → fresh_inum f = i0 → live f !! kt = None → filled [] false (created kt f).
Proof.
  intros (Hb & [[Hc Hr] Hg] & Hd) Hf Hn. pose proof (λ k, fresh_unnamed f k Hb) as Hu. rewrite Hf in Hu.
  pose proof (fresh_inum_spec f) as Hs. rewrite Hf in Hs.
  assert (∀ k, k.1 = I ∨ k = (pd, nm) → kt ≠ k) as Hne by (intros k [?|?] ?; subst; congruence).
  assert (∀ m B, Local (tmp_name i) B → B m f → B m (created kt f)) as Hloc'.
  { intros m B HB. apply HB; [done|]. intros k j x _ _ _ Hx. simpl. rewrite lookup_insert_ne; [done|].
    rewrite Hf. intros <-. congruence. }
  split; [split; [by apply base_created|split]|split_and!]; simpl.
  - split; [split|].
    + apply at_item_put; [by apply Hne; left|]. eapply (Hloc' _ (has_copy i key)); [|done].
      apply at_item_local. destruct (tmp_names i). by apply item_ne.
    + apply at_item_put; [by apply Hne; left|]. eapply (Hloc' _ (has_record i key)); [|done].
      apply at_item_local. destruct (tmp_names i). by apply item_ne.
    + unfold gone. by rewrite lookup_insert_ne.
  - by apply Hloc'; [apply kept_local, tmp_names|].
  - by rewrite Hf, lookup_insert_eq.
  - intros k Hk'. simpl. rewrite lookup_insert_ne by auto. apply Hu.
  - intros ->. destruct (base_audit_in f Hb). congruence.
  - rewrite Hf. eexists. split; [apply lookup_insert_eq|done].
Qed.

(** Decoding into the temporary. *)
Lemma keeps_decode_into fuel jd p total :
  total ≤ vlen D →
  keeps (λ f, filled (take (N.to_nat total) D) false f ∧ source jd f)
    (decode_loop fuel jd key (Some i0) p total (take (N.to_nat total) D))
    (λ r f, filled D false f ∧ r = (D, vlen D)).
Proof.
  pose proof (λ bs, sound_source bs false jd) as HS.
  revert total. induction fuel as [|fuel IH]; intros total Ht; cbn [decode_loop].
  { apply keeps_throw, HS. }
  eapply keeps_bind; [by apply keeps_read|]. intros r.
  eapply keeps_pre with (F := λ f, (filled (take (N.to_nat total) D) false f ∧ source jd f) ∧
    ∀ bs, r = Ok bs → ∃ k, (0 < k)%nat ∧ xor_in_place bs key total = take k (drop (N.to_nat total) D)).
  2:{ intros f [[Hf Hs] Hr]. split; [done|]. intros bs ->. destruct Hf as [(_ & [[(j & x & Hj & Hx & _ & Hd) _] _] & _) _].
      rewrite Hs in Hj. injection Hj as <-. destruct (Hr bs eq_refl x Hx) as (k & Hk' & ->).
      exists k. split; [done|]. rewrite Hd. by apply decoded_piece. }
  apply keeps_pure. intros Hr. destruct r as [buf|e]; [|apply keeps_throw, HS].
  destruct (Hr buf eq_refl) as (k & Hk' & Ebuf). clear Hr.
  destruct (next_piece D total k Ht Hk') as (Hnil & Happ & Hle & _). cbn zeta in *. rewrite <-Ebuf in *.
  assert (vlen (xor_in_place buf key total) = vlen buf) as Elen by apply Common.vlen_xor.
  destruct buf as [|b buf].
  - specialize (Hnil eq_refl). subst total. rewrite (take_ge D) by (unfold vlen; lia).
    apply keeps_ret. by intros f [Hf _].
  - clear Hnil Ebuf. generalize dependent (b :: buf). clear b buf. intros buf Happ Hle Elen. rewrite Elen in *.
    eapply keeps_bind with (Q := λ _ f, filled (take (N.to_nat (total + vlen buf)) D) false f ∧ source jd f).
    { apply keeps_write; [apply HS|..].
      - intros f n [Hf Hs]. eapply (sound_held _ (sound_filled _ false)). by apply (filled_write _ _ f Hf).
      - intros f [Hf Hs]. split; [rewrite <-Happ; by apply filled_write|].
        unfold source, sys_write in *. by destruct (inodes f !! i0). }
    intros ?. cbv zeta. rewrite Happ. by apply IH.
Qed.

Lemma keeps_decode_to :
  keeps (filled [] false) (decode_to i key (Some i0)) (λ r f, filled D false f ∧ r = (sha256 D, vlen D)).
Proof.
  pose proof (sound_filled [] false) as HS.
  unfold decode_to, decode_path. apply keeps_self. eapply keeps_bind with (Q := λ jd f, filled [] false f ∧ source jd f).
  { unfold at_path. rewrite (item_located i) by (unfold item_file; auto).
    apply keeps_or_call; [done|intros jd; apply sound_source|]. intros f Hf. unfold win_open, source.
    destruct (live f !! (I, data_name i)) as [jd|]; [|by apply (sound_held _ HS)].
    destruct (inodes f !! jd); [by split|by apply (sound_held _ HS)]. }
  intros jd. pose proof (sound_source [] false jd) as HJ.
  eapply keeps_bind; [by apply keeps_enough|]. intros n.
  eapply keeps_bind; [by apply keeps_read_exact|]. intros magic.
  eapply keeps_bind; [by apply keeps_lifted|]. intros m.
  eapply keeps_bind; [by apply keeps_lifted|]. intros m'.
  eapply keeps_bind; [by apply keeps_enough|]. intros n'.
  eapply keeps_bind; [apply (keeps_decode_into n' jd _ 0); lia|]. intros [h total].
  apply keeps_pure. intros [= -> ->]. by apply keeps_ret.
Qed.

(** The file has the target's name and the temporary's, the item is there. *)
Definition linked (f : Fs) : Prop := holds (committed i key) f ∧ live f !! kt = Some i0.
Lemma sound_linked : Sound linked.
Proof. apply sound_and; [apply sound_holds, enough_committed|done]. Qed.

Lemma filled_linked f : filled D true f → linked (set_live (<[(pd, nm) := i0]> (live f)) f).
Proof.
  intros [([Hw Hp Ht Ha Hai] & [[Hc Hr] Hg] & Hd) (Hl & Hap & Hna & x & Hx & Hdx & Hsx)].
  assert (∀ n j, live f !! (I, n) = Some j → j ≠ i0) as Hni.
  { intros n j Hj ->. by destruct (Hap (I, n) (or_introl eq_refl)). }
  split; [split; [split|split]|]; simpl; try done.
  - intros k j [[[_ <-]|[_ Hk']]%lookup_insert_Some|Hk']; [by eexists|eauto..].
  - intros n k j [[E _]|[_ Hn]]%lookup_insert_Some [[<- E']|[_ Hk']]%lookup_insert_Some.
    + by destruct (orig_ne n).
    + by destruct (orig_ne n).
    + by destruct (Hni n j Hn).
    + eauto.
  - intros n k j Hn [[E _]|[_ Hn']]%lookup_insert_Some Hk'; [by destruct (orig_ne n)|eauto].
  - intros k j [[[_ <-]|[_ Hk']]%lookup_insert_Some|Hk'] He; [done|eauto..].
  - split; [split; [apply lookup_insert_eq|exists x; auto]|split].
    + by apply at_item_put; [apply orig_ne|].
    + by apply at_item_put; [apply orig_ne|].
  - by rewrite lookup_insert_ne.
Qed.

(** The handle of the temporary cannot delete it. *)
Lemma keeps_cleanup F h : Sound F → h_delete h = false → keeps F (ignore (win_call (win_delete_by_handle h))) (λ _, F).
Proof.
  intros HF Hh. apply keeps_ignore; [done|by apply (sound_journal _ HF)|done|].
  intros f Hf. unfold win_delete_by_handle. by rewrite Hh.
Qed.

Lemma keeps_write_restored h tmp target rec :
  h_file h = i0 → h_delete h = false → good i key rec → locate tmp = Ok kt → locate target = Ok (pd, nm) →
  keeps (filled [] false) (write_restored h tmp target rec key) (λ _, linked).
Proof.
  intros Hf Hh Hg Htmp Htarget. unfold write_restored. cbv zeta. assert (id rec = i) as Hid by apply Hg. rewrite Hid, Hf.
  assert (∀ B F e (Q : B → Fs → Prop), Sound F →
    keeps F (_ ← ignore (win_call (win_delete_by_handle h)); throw e) Q) as Hfail.
  { intros B F e Q HF. apply keeps_then_throw. eapply keeps_conseq; [by apply (keeps_cleanup F)|done|].
    intros ? f. apply (sound_held _ HF). }
  eapply keeps_bind; [apply keeps_attempt, keeps_decode_to|]. intros r.
  eapply keeps_bind with (Q := λ v f, filled D false f ∧ v = (sha256 D, vlen D)).
  { destruct r as [v|e]; [by apply keeps_ret|apply Hfail, sound_held_self]. }
  intros v. apply keeps_pure. intros ->. eapply keeps_bind with (Q := λ _, filled D false).
  { case_bool_decide; [by apply keeps_ret|apply Hfail, sound_filled]. }
  intros ?. eapply keeps_bind with (Q := λ r f, match r with Ok _ => filled D true f | Err _ => filled D false f end).
  { apply keeps_call; [apply sound_filled| |done|].
    - intros [] f; apply sound_journal, sound_filled.
    - intros f Hf'. cbn [sys_fsync fst]. by apply filled_sync. }
  intros r'. eapply keeps_bind with (Q := λ _, filled D true).
  { destruct r'; [by apply keeps_ret|apply Hfail, sound_filled]. }
  intros ?. eapply keeps_bind with (Q := λ r f, match r with Ok _ => linked f | Err _ => filled D true f end).
  { unfold hard_link. rewrite Htmp, Htarget. apply keeps_call; [apply sound_filled| |done|].
    - intros [] f; apply sound_journal; [apply sound_linked|apply sound_filled].
    - intros f Hf'. unfold win_link. pose proof Hf' as [(_ & [_ Hgo] & _) (Hl & _)]. rewrite Hl.
      unfold gone in Hgo. rewrite Hgo. by apply filled_linked. }
  intros r2. eapply keeps_bind with (Q := λ _, linked).
  { destruct r2 as [u|e]; [by apply keeps_ret|]. destruct (is_already_exists e); apply Hfail, sound_filled. }
  intros ?. apply keeps_cleanup; [apply sound_linked|done].
Qed.

(** The copy is removed and the record saved. *)
Definition named (m : names) : Prop := m !! kt = Some i0.
Definition no_copy (m : names) : Prop := m !! (I, data_name i) = None.
Definition emptied (m : names) (f : Fs) : Prop := orig m f ∧ has_record i key m f ∧ named m ∧ no_copy m.
Definition says_restored (target : path) (b : bytes) : Prop :=
  ∃ rec, from_slice b = Ok rec ∧ id rec = i ∧ Record.state rec = Restored ∧
    Record.restored_to rec = Some (WinPath.from_path target).
Definition restored (target : path) (m : names) (f : Fs) : Prop :=
  orig m f ∧ at_item (says_restored target) (json_name i) m f ∧ named m ∧ no_copy m.

Lemma enough_emptied : Enough emptied.
Proof. apply enough_orig_and. intros m f f' E [Hr Hn]. split; [by eapply entry_inodes|done]. Qed.
Lemma enough_restored target : Enough (restored target).
Proof. apply enough_orig_and. intros m f f' E [Hr Hn]. split; [by eapply entry_inodes|done]. Qed.

Lemma names_local n : is_tmp n → Local n (λ m _, named m ∧ no_copy m).
Proof.
  intros Hn m m' f f' Hm _ [H1' H2']. destruct (item_ne n i Hn). unfold named, no_copy.
  rewrite !Hm; [done|congruence|]. intros ->. by apply HkI.
Qed.
Lemma emptied_local n : is_tmp n → Local n emptied.
Proof.
  intros Hn. destruct (item_ne n i Hn). apply and_local; [apply orig_local|]. apply and_local; [by apply at_item_local|].
  by apply names_local.
Qed.
Lemma restored_local n target : is_tmp n → Local n (restored target).
Proof.
  intros Hn. destruct (item_ne n i Hn). apply and_local; [apply orig_local|]. apply and_local; [by apply at_item_local|].
  by apply names_local.
Qed.

Lemma keeps_remove_copy (g : errno → RemediationError) :
  keeps linked (or_throw g (remove_file (items_path t (data_name i)))) (λ _, holds emptied).
Proof.
  unfold remove_file, at_path. rewrite (item_located i) by (unfold item_file; auto).
  apply keeps_or_call; [apply sound_linked|intros _; apply sound_journal, sound_holds, enough_emptied|].
  intros f Hf. pose proof Hf as [(Hb & [Ho [Hc Hr]] & Hd) Hl]. unfold win_delete.
  destruct (live f !! (I, data_name i)); [|by apply (sound_held _ sound_linked)].
  split; [by apply base_removed|]. split; [|done]. simpl. split_and!.
  - by apply orig_removed.
  - apply at_item_delete; [|done]. pose proof (data_json i). congruence.
  - unfold named. rewrite lookup_delete_ne; [done|]. intros <-. by apply HkI.
  - apply lookup_delete_eq.
Qed.

Lemma keeps_save_restored rec target now notes : good i key rec →
  keeps (holds emptied)
    (save (Record.set_restored_to (Some (WinPath.from_path target)) (advance Restored now notes rec)))
    (λ _, holds (restored target)).
Proof.
  intros Hg. set (rec' := Record.set_restored_to _ _). assert (id rec' = i) as Hid by apply Hg.
  apply keeps_save; rewrite ?Hid; auto using enough_emptied, enough_restored.
  - apply emptied_local, tmp_names.
  - intros m f j x bs (Ho & Hr & Hn & Hc) Hx Hd Hs Hbs. split_and!.
    + by apply orig_insert.
    + subst. eapply at_item_new; [done..|]. exists rec'. split; [by apply from_slice_to_vec_pretty|done].
    + unfold named. rewrite lookup_insert_ne; [done|]. intros <-. by apply HkI.
    + unfold no_copy. rewrite lookup_insert_ne; [done|]. pose proof (data_json i). congruence.
Qed.

Lemma keeps_open_dir F p : Sound F → keeps F (open_dir_no_reparse p) (λ _, F).
Proof.
  intros HF. unfold open_dir_no_reparse. eapply keeps_bind.
  { apply keeps_look; [done|]. intros f. apply (at_path_ro p (open_at false)). intros k. unfold open_at. by destruct (win_open k f) as [r f'] eqn:E; unfold win_open in E; simplify_eq. }
  intros h. eapply keeps_bind; [by apply keeps_look|]. intros st.
  eapply keeps_bind; [by apply keeps_lifted|]. intros ?.
  eapply keeps_bind; [by apply keeps_asked|]. intros actual. eapply keeps_pre; [by apply keeps_lifted|]. by intros f [].
Qed.

Lemma keeps_check_target F td rec : Sound F → keeps F (check_target td rec) (λ _, F).
Proof.
  intros HF. unfold check_target. apply keeps_self. eapply keeps_bind; [by apply keeps_asked|]. intros text.
  eapply keeps_pre with (F := F); [|by intros f []]. eapply keeps_bind; [by apply keeps_lifted|]. intros desc.
  cbv zeta. by apply keeps_lifted.
Qed.

(** The item is there and its target free; [i0] is the next file's index. *)
Definition before (f : Fs) : Prop := holds (removed i key) f ∧ fresh_inum f = i0.
Lemma sound_before : Sound before.
Proof. apply sound_and; [apply sound_removed|done]. Qed.

Lemma keeps_create_temporary g tmp : locate tmp = Ok kt →
  keeps before (or_throw g (create_new tmp)) (λ h f, filled [] false f ∧ h_file h = i0 ∧ h_delete h = false).
Proof.
  intros Htmp. unfold create_new, at_path. rewrite Htmp. apply keeps_or_call; [apply sound_before| |].
  - intros h f [Hf E]. split; [by apply (sound_journal _ (sound_filled _ _))|done].
  - intros f Hf. unfold win_create_new. destruct (live f !! kt) eqn:E; simpl; [by apply (sound_held _ sound_before)|].
    destruct Hf as [Hh Hf]. split; [by apply filled_created|]. by split.
Qed.

Section Target.
Context (dest : option path) (td : path) (fname : string).
Context (Hdest : ∀ rec, Record.path (original rec) = WinPath.from_path o → restore_target rec dest = Ok (td, fname)).
Context (Htarget : locate (WinPath.join td fname) = Ok (pd, nm)).
Context (Htmp : locate (WinPath.join td (Store.restore_tmp i)) = Ok kt).

Lemma keeps_restore_inner :
  keeps before (restore_inner i dest)
    (λ p f, holds (restored (WinPath.join td fname)) f ∧ p = WinPath.join td fname).
Proof.
  pose proof sound_before as HB. unfold restore_inner. apply keeps_self. eapply keeps_bind.
  { apply (keeps_get i key Hi (removed i key)); [by intros m f [[_ ?] _]|done|by intros f []]. }
  intros rec. apply keeps_pure. intros Hg. eapply keeps_bind; [by apply keeps_lifted|]. intros ?.
  rewrite Hdest by apply Hg. cbn [lift]. eapply keeps_bind with (Q := λ v f, before f ∧ v = (td, fname)); [by apply keeps_ret|].
  intros v. apply keeps_pure. intros ->. cbv zeta.
  eapply keeps_bind; [by apply keeps_lifted|]. intros ?.
  eapply keeps_bind; [by apply keeps_attempt, keeps_open_dir|]. intros d.
  eapply keeps_bind with (Q := λ _, before).
  { destruct d as [u|e]; simpl; [by apply keeps_ret|by apply keeps_throw]. }
  intros ?. eapply keeps_bind; [by apply keeps_check_target|]. intros ?.
  eapply keeps_bind with (Q := λ k f, before f ∧ k = key).
  { destruct Hg as (_ & _ & -> & _). destruct Hk as [Hlen Hbytes]. rewrite Record.unhex_hex by done. cbn [mbind option_bind].
    rewrite bool_decide_true by done. by apply keeps_ret. }
  intros k. apply keeps_pure. intros ->.
  eapply keeps_bind; [by apply keeps_create_temporary|]. intros h. apply keeps_pure. intros [Hf Hh].
  eapply keeps_bind; [by apply keeps_write_restored|]. intros ?.
  eapply keeps_bind; [by apply keeps_remove_copy|]. intros ?.
  eapply keeps_bind; [apply keeps_now|]. intros now.
  eapply keeps_bind; [by apply keeps_save_restored|]. intros ?. by apply keeps_ret.
Qed.

Lemma win_restore_triple :
  triple (on_fs t before) (restore i dest)
    (λ p s, restored p (live (fs s)) (fs s) ∧ kept (disk (fs s)) (fs s) ∧ p = WinPath.join td fname)
    (λ _ s, held (fs s)) crashed.
Proof.
  unfold restore. set (target := WinPath.join td fname).
  apply (triple_bind _ _ (λ r s, match r with
    | Ok p => on_fs t (holds (restored target)) s ∧ p = target | Err _ => on_fs t held s end)).
  { apply triple_attempt. eapply triple_conseq; [apply keeps_restore_inner|done| |done|done].
    by intros p s [Hs [Hh ->]]. }
  intros [p|e].
  - apply (triple_bind _ _ (λ _ s, holds (restored target) (fs s) ∧ p = target)).
    + intros s [Hs ->].
      assert (triple (on_fs t (holds (restored target)))
        (audit_event "restore" (Some i) None None (Ok (Some (fmt "restored to {}" [WinPath.to_string_lossy target]))))
        (λ _ s, holds (restored target) (fs s)) (λ _, on_fs t held) crashed) as Ha.
      { apply (audit_triple _ _ _ _ _ _ (tmp_name i)); [apply tmp_names|apply restored_local, tmp_names|apply enough_restored]. }
      specialize (Ha s Hs). destruct (audit_event _ _ _ _ _ s); [by split|apply Ha|done].
    + intros ?. apply triple_ret. intros s [(Hb & Hr & Hd) ->]. by split_and!.
  - apply (triple_bind _ _ (λ _ s, held (fs s))); [|intros ?; by apply triple_throw].
    eapply triple_conseq; [apply (audit_triple _ _ _ _ _ kept (tmp_name ""))|..]; try done.
    + apply tmp_names.
    + apply kept_local, tmp_names.
    + apply enough_kept.
    + by intros e' s [_ Hs].
Qed.
End Target.
End Restoring.

End Safety.
