(* ===== verification/WinStoreOthers.v ===== *)
(** * What restoring leaves alone

    Restoring never touches a file outside the store: it keeps its name and
    its content, whatever the record of the item says and wherever the target
    is. A separate invariant over the operations of [WinStore], as the rules
    of [WinStoreLaws] speak of the item only. *)

From S2P Require Import Prelude Utf8 Paths Core External AuditLog Remediation Disk QuarantineStore StoreSafety Chars WinPaths WinDisk Sddl WinStore WinStoreLaws.
Import Record (QuarantineRecord, RemediationError, id, state, original, key_hex, format_version, advance, parse_id, unhex).
Import Common (KEY_LEN, CHUNK, MAX_RECORD_BYTES, io_err, corrupt, xor_in_place).
Import Store (json_name, data_name, tmp_name, atomic_tmp, restore_tmp).
Import WinStore.

(** A file with one name, [p], in the names as they are and as a power loss
    would leave them. *)
Record other (p : place) (j : inum) (x : inode) (f : Fs) : Prop := {
  other_live : live f !! p = Some j;
  other_disk : disk f !! p = Some j;
  other_inode : inodes f !! j = Some x;
  other_name k : live f !! k = Some j → k = p }.

Section Others.
Context `{Sha256, Json Audit.AuditEntry, Json QuarantineRecord, !JsonPretty QuarantineRecord, StdText, WinSys}.

(** The store, its directory and the file, whose content is on stable storage. *)
Context (t : QuarantineStore) (I : inum) (p : place) (j : inum) (x : inode).
Context (Hloc : located t I) (HpI : p.1 ≠ I) (Hsafe : safe x = true) (Haudit : audit t ≠ j).

Abbreviation P A := (M QuarantineStore RemediationError A).
Abbreviation J := (other p j x).
Definition survives (f : Fs) : Prop := live f !! p = Some j ∧ inodes f !! j = Some x.

Lemma other_crash g f : J f → survives (win_lose_power g f).
Proof. intros [_ Hd Hx _]. split; [by rewrite win_lose_power_live|by apply lose_power_safe]. Qed.
Lemma other_journal f : J f → J (journal f).
Proof. intros [Hl _ Hx Hn]. by split. Qed.
Lemma other_set i y f : i ≠ j → J f → J (set_inode i y f).
Proof. intros Hi [Hl Hd Hx Hn]. split; [done..| |done]. simpl. by rewrite lookup_insert_ne. Qed.
Lemma other_write i bs f : i ≠ j → J f → J (sys_write i bs f).
Proof. intros Hi Hf. unfold sys_write. destruct (inodes f !! i); [by apply other_set|done]. Qed.
Lemma other_sync i f : i ≠ j → J f → J (sys_fsync i f).2.
Proof. intros Hi Hf. unfold sys_fsync. destruct (inodes f !! i); [by apply other_set|done]. Qed.

Lemma other_names l f : J f → l !! p = Some j → (∀ k, l !! k = Some j → k = p) → J (set_live l f).
Proof. intros [_ Hd Hx _] Hl Hn. by split. Qed.
Lemma other_delete k f : k ≠ p → J f → J (set_live (base.delete k (live f)) f).
Proof.
  intros Hk Hf. apply other_names; [done|..].
  - rewrite lookup_delete_ne by done. apply Hf.
  - intros k' [_ Hk']%lookup_delete_Some. by apply (other_name _ _ _ _ Hf).
Qed.
Lemma other_put k i f : k ≠ p → i ≠ j → J f → J (set_live (<[k := i]> (live f)) f).
Proof.
  intros Hk Hi Hf. apply other_names; [done|..].
  - rewrite lookup_insert_ne by done. apply Hf.
  - intros k' [[_ ?]|[_ Hk']]%lookup_insert_Some; [done|]. by apply (other_name _ _ _ _ Hf).
Qed.
Lemma other_fresh f : J f → fresh_inum f ≠ j.
Proof. intros Hf E. pose proof (fresh_inum_spec f). rewrite E, (other_inode _ _ _ _ Hf) in *. done. Qed.
Lemma other_created k y f : J f → live f !! k = None →
  k ≠ p ∧ J (mkFs (<[fresh_inum f := y]> (inodes f)) (<[k := fresh_inum f]> (live f)) (disk f)).
Proof.
  intros Hf Hk. assert (k ≠ p) as Hkp by (intros ->; rewrite (other_live _ _ _ _ Hf) in Hk; done). split; [done|].
  pose proof (other_fresh f Hf) as Hj.
  apply (other_put k (fresh_inum f)) in Hf; [|done..]. apply (other_set (fresh_inum f) y) in Hf; [|done].
  by destruct Hf; split.
Qed.

(** ** Rules *)
Definition stays {A} (m : P A) (φ : A → Prop) : Prop :=
  triple (on_fs t J) m (λ a, on_fs t (λ f, J f ∧ φ a)) (λ _, on_fs t J) survives.

Lemma stays_ret {A} (a : A) (φ : A → Prop) : φ a → stays (mret a) φ.
Proof. intros Ha. apply triple_ret. by intros s [Hs Hf]. Qed.
Lemma stays_throw {A} e (φ : A → Prop) : stays (throw e) φ.
Proof. by apply triple_throw. Qed.
Lemma stays_bind {A B} (m : P A) (k : A → P B) φ ψ :
  stays m φ → (∀ a, φ a → stays (k a) ψ) → stays (m ≫= k) ψ.
Proof. intros Hm Hk. eapply triple_bind; [exact Hm|]. intros a s [Hs [Hf Ha]]. by apply Hk. Qed.
Lemma stays_true {A} (m : P A) φ : stays m φ → stays m (λ _, True).
Proof. intros Hm. eapply triple_conseq; [exact Hm|done| |done|done]. by intros a s [Hs [Hf _]]. Qed.
Lemma stays_self {B} (k : QuarantineStore → P B) φ : stays (k t) φ → stays (get_self ≫= k) φ.
Proof. intros Hk s [Hs HF]. unfold mbind, M_bind, get_self. rewrite Hs. by apply Hk. Qed.
Lemma stays_lift {A} (r : result RemediationError A) : stays (lift r) (λ a, r = Ok a).
Proof. apply triple_lift; [by intros a s -> [Hs Hf]|by intros e s _ [Hs Hf]]. Qed.
Lemma stays_attempt {A} (m : P A) φ : stays m φ → stays (attempt m) (λ r, match r with Ok a => φ a | Err _ => True end).
Proof.
  intros Hm. apply triple_attempt. eapply triple_conseq; [exact Hm|done|done| |done]. by intros e s [Hs Hf].
Qed.
Lemma stays_or {A} (g : errno → RemediationError) (m : P (result errno A)) φ :
  stays m (λ r, match r with Ok a => φ a | Err _ => True end) → stays (or_throw g m) φ.
Proof. intros Hm. eapply stays_bind; [exact Hm|]. intros [a|e] Ha; [by apply stays_ret|by apply stays_throw]. Qed.
Lemma stays_or_any {A} (g : errno → RemediationError) (m : P (result errno A)) φ :
  stays m φ → stays (or_throw g m) (λ _, True).
Proof. intros Hm. eapply stays_bind; [exact Hm|]. intros [a|e] Ha; [by apply stays_ret|by apply stays_throw]. Qed.
Lemma stays_ignore {A} (m : P (result errno A)) φ : stays m φ → stays (ignore m) (λ _, True).
Proof. intros Hm. eapply stays_bind; [exact Hm|]. intros a _. by apply stays_ret. Qed.

Lemma stays_call {A} (op : Fs → result errno A * Fs) (φ : result errno A → Prop) :
  (∀ e, φ (Err e)) → (∀ f, J f → J (op f).2 ∧ φ (op f).1) → stays (win_call op) φ.
Proof.
  intros HE HO. apply win_call_triple.
  - intros f g. apply other_crash.
  - intros f e Hf. by split.
  - intros f Hf. destruct (HO f Hf) as [Hf' Hφ]. split; [done|]. split; [by apply other_journal|done].
Qed.
(** A call that only looks, or that fails where there is no such place. *)
Lemma stays_look {A} (op : Fs → result errno A * Fs) : (∀ f, (op f).2 = f) → stays (win_call op) (λ _, True).
Proof. intros Hop. apply stays_call; [done|]. intros f Hf. by rewrite Hop. Qed.
Lemma stays_at {A} q (op : place → Fs → result errno A * Fs) (φ : result errno A → Prop) :
  (∀ e, φ (Err e)) → (∀ k f, locate q = Ok k → J f → J (op k f).2 ∧ φ (op k f).1) → stays (at_path q op) φ.
Proof. intros HE HO. apply stays_call; [done|]. intros f Hf. destruct (locate q) as [k|e]; [by apply HO|split; [done|apply HE]]. Qed.
Lemma stays_write i bs : i ≠ j → stays (win_write_all i bs) (λ _, True).
Proof.
  intros Hi. apply win_write_triple; intros f.
  - intros g. apply other_crash.
  - by intros e Hf.
  - intros e n Hf. split; [by apply other_write|done].
  - intros Hf. split; [by apply other_write|done].
Qed.
Lemma stays_sync i : i ≠ j → stays (win_call (sys_fsync i)) (λ _, True).
Proof. intros Hi. apply stays_call; [done|]. intros f Hf. split; [by apply other_sync|done]. Qed.
Lemma stays_read i off max : 0 < max → stays (win_read i off max) (λ _, True).
Proof.
  intros Hm. apply win_read_triple; [done|..].
  - intros f g. apply other_crash.
  - by intros f e Hf.
  - by intros f n Hf.
Qed.
Lemma stays_now : stays now_utc (λ _, True).
Proof. intros s [Hs Hf]. unfold now_utc. by destruct (clock s). Qed.
Lemma stays_enough i : stays (enough i) (λ _, True).
Proof. by intros s [Hs Hf]. Qed.

Lemma stays_lifted {A} (r : result RemediationError A) : stays (lift r) (λ _, True).
Proof. eapply stays_true, stays_lift. Qed.
Lemma stays_asked {A} (g : errno → RemediationError) (r : result errno A) : stays (or_throw g (asked r)) (λ _, True).
Proof. apply stays_or. apply stays_call; [done|]. intros f Hf. split; [done|]. by destruct r. Qed.

Ltac stays_step :=
  eapply stays_bind; [first
    [ apply stays_lifted | apply stays_asked | apply stays_now | apply stays_enough
    | eapply stays_or_any, stays_look; (reflexivity || (intros ?; reflexivity)) ]|intros ? _].

(** ** Reading an item *)
Lemma stays_at_look {A} q (op : place → Fs → result errno A * Fs) :
  (∀ k f, (op k f).2 = f) → stays (at_path q op) (λ _, True).
Proof. intros Hop. apply stays_at; [done|]. intros k f _ Hf. by rewrite Hop. Qed.
Lemma open_at_looks b k f : (open_at b k f).2 = f.
Proof. unfold open_at. by destruct (win_open k f) as [r f'] eqn:E; unfold win_open in E; simplify_eq. Qed.

Lemma stays_get i : stays (WinStore.get i) (λ rec, id rec = i).
Proof.
  unfold WinStore.get. apply stays_self. cbv zeta. eapply stays_bind.
  { eapply stays_or_any with (φ := λ _, True). unfold read_bounded. eapply stays_bind.
    { by apply stays_at_look. }
    intros [k|e] _; [|by apply stays_ret].
    eapply stays_bind; [by apply (stays_look (λ f, sys_read_to_end k _ f))|].
    intros r _. by apply stays_ret. }
  intros found _. do 3 stays_step. eapply stays_bind; [apply stays_lift|]. intros u Hu%reject_if_Ok. apply stays_ret.
  apply orb_false_iff in Hu as [Hu _]. apply negb_false_iff in Hu. by apply bool_decide_eq_true in Hu.
Qed.

Lemma stays_open_dir q : stays (open_dir_no_reparse q) (λ _, True).
Proof.
  unfold open_dir_no_reparse. eapply stays_bind.
  { eapply stays_or_any. apply stays_at_look. intros k. apply open_at_looks. }
  intros h _. do 3 stays_step. apply stays_lifted.
Qed.

Lemma stays_check_target td rec : stays (check_target td rec) (λ _, True).
Proof. unfold check_target. apply stays_self. do 2 stays_step. cbv zeta. apply stays_lifted. Qed.

Lemma stays_read_exact fuel i off want : stays (read_exact fuel i off want) (λ _, True).
Proof.
  revert off want. induction fuel as [|fuel IH]; intros off want; simpl; [by apply stays_ret|].
  destruct (N.eqb_spec want 0); [by apply stays_ret|].
  eapply stays_bind; [apply stays_read; lia|]. intros [[|b bs]|e] _; [by apply stays_ret| |by apply stays_ret].
  eapply stays_bind; [apply IH|]. intros rest _. by apply stays_ret.
Qed.

Lemma stays_decode_loop fuel i key o q total hashed : o ≠ j →
  stays (decode_loop fuel i key (Some o) q total hashed) (λ _, True).
Proof.
  intros Ho. revert total hashed. induction fuel as [|fuel IH]; intros total hashed; cbn [decode_loop].
  { apply stays_throw. }
  eapply stays_bind; [by apply stays_read|]. intros [[|b bs]|e] _; [by apply stays_ret| |apply stays_throw].
  cbv zeta. eapply stays_bind; [|intros u _; apply IH]. eapply stays_or_any. by apply stays_write.
Qed.

Lemma stays_decode_to i key o : o ≠ j → stays (decode_to i key (Some o)) (λ _, True).
Proof.
  intros Ho. unfold decode_to, decode_path. apply stays_self. eapply stays_bind.
  { eapply stays_or_any. by apply stays_at_look. }
  intros f _. stays_step. eapply stays_bind; [apply stays_read_exact|]. intros magic _. do 3 stays_step.
  eapply stays_bind; [by apply stays_decode_loop|]. intros [h n] _. by apply stays_ret.
Qed.

(** ** Writing *)

(** The temporary is a new file, which its handle cannot delete. *)
Lemma stays_create_new q : stays (create_new q) (λ r, match r with
  | Ok h => h_file h ≠ j ∧ h_delete h = false ∧ ∀ k, locate q = Ok k → k ≠ p
  | Err _ => True end).
Proof.
  apply stays_at; [done|]. intros k f Hq Hf. unfold win_create_new. destruct (live f !! k) eqn:Hk; simpl; [done|].
  destruct (other_created k (new_inode FILE_ATTRIBUTE_ARCHIVE 0 0 0) f Hf Hk) as [Hkp Hf']. split; [done|].
  split; [by apply other_fresh|]. split; [done|]. intros k' E. congruence.
Qed.

Lemma stays_cleanup h : h_delete h = false → stays (ignore (win_call (win_delete_by_handle h))) (λ _, True).
Proof.
  intros Hh. eapply stays_ignore, stays_look. intros f. unfold win_delete_by_handle. by rewrite Hh.
Qed.

(** Whatever the target's place, no file loses its name to the restored one. *)
Lemma stays_hard_link tmp target : (∀ k, locate tmp = Ok k → k ≠ p) → stays (hard_link tmp target) (λ _, True).
Proof.
  intros Htmp. apply stays_call; [done|]. intros f Hf. split; [|done].
  destruct (locate tmp) as [a|e]; [|by destruct (locate target)]. destruct (locate target) as [b|e]; [|done].
  unfold win_link. destruct (live f !! a) as [i|] eqn:Ha; [|done]. destruct (live f !! b) eqn:Hb; [done|]. simpl.
  apply other_put; [| |done].
  - intros ->. rewrite (other_live _ _ _ _ Hf) in Hb. done.
  - intros ->. by apply (Htmp a eq_refl), (other_name _ _ _ _ Hf).
Qed.

Lemma stays_write_restored h tmp target rec key :
  h_file h ≠ j → h_delete h = false → (∀ k, locate tmp = Ok k → k ≠ p) →
  stays (write_restored h tmp target rec key) (λ _, True).
Proof.
  intros Hf Hh Htmp. unfold write_restored. cbv zeta.
  assert (∀ A e (φ : A → Prop), stays (_ ← ignore (win_call (win_delete_by_handle h)); throw e) φ) as Hfail.
  { intros A e φ. eapply stays_bind; [by apply stays_cleanup|]. intros u _. apply stays_throw. }
  eapply stays_bind; [by eapply stays_attempt, stays_decode_to|]. intros r _.
  eapply (stays_bind _ _ (λ _, True)); [destruct r; [by apply stays_ret|apply Hfail]|]. intros v _.
  destruct v as [sha n]. eapply (stays_bind _ _ (λ _, True)); [case_bool_decide; [by apply stays_ret|apply Hfail]|]. intros u _.
  eapply stays_bind; [by apply stays_sync|]. intros r' _.
  eapply (stays_bind _ _ (λ _, True)); [destruct r'; [by apply stays_ret|apply Hfail]|]. intros u' _.
  eapply stays_bind; [by apply stays_hard_link|]. intros r2 _.
  eapply (stays_bind _ _ (λ _, True)).
  { destruct r2 as [v|e]; [by apply stays_ret|]. destruct (is_already_exists e); apply Hfail. }
  intros u2 _. by apply stays_cleanup.
Qed.

Section Item.
Context (i : string) (Hi : parse_id i = Ok i).
Lemma item_place n : item_file i n → locate (items_path t n) = Ok (I, n).
Proof. by apply Hloc. Qed.
Lemma item_not_other (n : string) : (I, n) ≠ p.
Proof. intros <-. by apply HpI. Qed.

Lemma stays_remove n : item_file i n → stays (remove_file (items_path t n)) (λ _, True).
Proof.
  intros Hn. apply stays_at; [done|]. rewrite item_place by done. intros k f [= <-] Hf. split; [|done].
  unfold win_delete. destruct (live f !! (I, n)); [|done]. apply other_delete; [apply item_not_other|done].
Qed.

Lemma stays_save rec : id rec = i → stays (save rec) (λ _, True).
Proof.
  intros Hr. unfold save. apply stays_self. cbv zeta. rewrite Hr. stays_step. unfold write_atomic. cbv zeta.
  pose proof (item_place (atomic_tmp (json_name i)) ltac:(unfold item_file; auto)) as Ht.
  pose proof (item_place (json_name i) ltac:(unfold item_file; auto)) as Hn. unfold items_path in Ht, Hn.
  eapply stays_bind with (φ := λ k, k ≠ j).
  { apply stays_or, stays_at; [done|]. rewrite Ht. intros k f [= <-] Hf. unfold win_create_always, win_create_new.
    destruct (live f !! (I, _)) as [k|] eqn:Hk; simpl.
    - assert (k ≠ j) as Hkj by (intros ->; by destruct (item_not_other _ (other_name _ _ _ _ Hf _ Hk))).
      destruct (inodes f !! k); simpl; [|done]. split; [by apply other_set|done].
    - destruct (other_created _ (new_inode FILE_ATTRIBUTE_ARCHIVE 0 0 0) f Hf Hk) as [_ Hf']. split; [done|].
      by apply other_fresh. }
  intros k Hk. eapply stays_bind; [eapply stays_or_any; by apply stays_write|]. intros u _.
  eapply stays_bind; [eapply stays_or_any; by apply stays_sync|]. intros u' _.
  eapply stays_or_any. apply stays_call with (φ := λ _, True); [done|]. intros f Hf. split; [|done].
  rewrite Ht, Hn. unfold win_rename. destruct (live f !! (I, _)) as [k'|] eqn:Hk'; [|done]. simpl.
  assert (k' ≠ j) as Hkj by (intros ->; by destruct (item_not_other _ (other_name _ _ _ _ Hf _ Hk'))).
  apply (other_delete (I, atomic_tmp (json_name i))) in Hf; [|apply item_not_other].
  by apply (other_put (I, json_name i) k') in Hf; [|apply item_not_other|done].
Qed.

Lemma stays_restore_inner dest : stays (restore_inner i dest) (λ _, True).
Proof.
  unfold restore_inner. apply stays_self. eapply stays_bind; [apply stays_get|]. intros rec Hr. do 2 stays_step.
  match goal with x : (path * string)%type |- _ => destruct x as [td fname] end. cbv zeta. stays_step.
  eapply stays_bind; [eapply stays_attempt, stays_open_dir|]. intros d _. stays_step.
  eapply stays_bind; [apply stays_check_target|]. intros u _. stays_step.
  eapply stays_bind; [apply stays_or, stays_create_new|]. intros h (Hh & Hd & Hk).
  eapply stays_bind; [by apply stays_write_restored|]. intros u' _.
  eapply stays_bind; [eapply stays_or_any, stays_remove; unfold item_file; auto|]. intros u2 _. stays_step.
  eapply stays_bind; [by apply stays_save|]. intros u3 _. by apply stays_ret.
Qed.

(** The same where the store's own state changes at the end. *)
Definition ends {A} (m : P A) : Prop := triple (on_fs t J) m (λ _ s, J (fs s)) (λ _ s, J (fs s)) survives.
Lemma ends_bind {A B} (m : P A) (k : A → P B) φ : stays m φ → (∀ a, ends (k a)) → ends (m ≫= k).
Proof.
  intros Hm Hk s Hs. specialize (Hm s Hs). unfold mbind, M_bind. destruct (m s) as [a s'|e s'|f]; [|apply Hm|done].
  destruct Hm as [Hs' [Hf _]]. by apply Hk.
Qed.
Lemma ends_self {B} (k : QuarantineStore → P B) : ends (k t) → ends (get_self ≫= k).
Proof. intros Hk s [Hs HF]. unfold mbind, M_bind, get_self. rewrite Hs. by apply Hk. Qed.

Lemma audit_ends action q sha outcome : ends (audit_event action (Some i) q sha outcome).
Proof.
  unfold audit_event. destruct (match outcome with Ok d => _ | Err e => _ end) as [out det].
  apply ends_self. eapply ends_bind; [apply stays_now|]. intros now. cbv zeta.
  eapply ends_bind; [apply stays_lifted|]. intros [line h].
  eapply ends_bind; [eapply stays_or_any; by apply stays_write|]. intros u.
  eapply ends_bind; [eapply stays_or_any; by apply stays_sync|]. intros u'.
  intros s [Hs Hf]. unfold mbind, M_bind. destruct (anchor t); [|done]. unfold datagram. by destruct (delivered s).
Qed.

(** Every file outside the store that has no second name keeps its name and
    its content. *)
Lemma restore_keeps_others dest : ends (restore i dest).
Proof.
  unfold restore. eapply ends_bind; [eapply stays_attempt, stays_restore_inner|]. intros r s Hs.
  unfold mbind, M_bind. match goal with |- context [audit_event ?a (Some i) ?q ?h ?o s] =>
    pose proof (audit_ends a q h o s Hs) as Ha; destruct (audit_event a (Some i) q h o s) end; [|done..].
  by destruct r.
Qed.
End Item.
End Others.
