(* ===== verification/WinStoreProps.v ===== *)
(** * The Windows quarantine store: properties and samples

    The theorems that [WinStoreLaws] gives, a store on which they are applied,
    and what the store does not do. *)

From S2P Require Import Prelude Utf8 Paths Core External AuditLog Remediation Disk QuarantineStore StoreSafety Chars WinPaths WinDisk Sddl WinStore WinStoreLaws WinStoreOthers.
Import Record (Pending, Quarantined, QuarantineRecord, RemediationError, original, parse_id).
Import Policy (QuarantineRequest, mkRequest, req_path).
Import Store (json_name, data_name, tmp_name, atomic_tmp, restore_tmp).
Import WinStore.

Module WinStoreProps.
Section Props.
Context `{Sha256, Json Audit.AuditEntry, Json QuarantineRecord, !JsonPretty QuarantineRecord,
  !JsonPrettyLaws QuarantineRecord, StdText, WinSys}.

(** C4: no data loss on Windows. Names reach the disk in the order of the
    calls that made them, some time later, and no directory is ever flushed.
    Even so, whatever call fails and wherever power is lost, quarantining a
    file leaves its content in one of two places: the original is still in
    place with its content on stable storage, or the store holds, on stable
    storage, the file's whole encoded content under [items/<id>.data] together
    with a readable record of its path, hash and key. After an error that is
    so of the names as they are and of those a power loss would take them back
    to. When the operation returns, the original's name is gone and the record
    says [quarantined] and the content's hash, the expected one if one was
    given. *)
Theorem windows_quarantine_never_loses_data (s : Disk.state QuarantineStore) req I pd nm i0 D :
  let t := self s in let o := req_path req in
  pd ≠ I → located t I → locate o = Ok (pd, nm) → base t I pd nm (fs s) →
  orig pd nm i0 D (live (fs s)) (fs s) → orig pd nm i0 D (disk (fs s)) (fs s) →
  match quarantine req s with
  | Return rec s' => quarantined I pd nm i0 D o req rec (fs s')
  | Throw _ s' => kept I pd nm i0 D o (live (fs s')) (fs s') ∧ kept I pd nm i0 D o (disk (fs s')) (fs s')
  | Lost f => kept I pd nm i0 D o (live f) f
  end.
Proof.
  cbn zeta. intros Hpd Hloc Ho Hb Hl Hd.
  pose proof (win_quarantine_triple (self s) I pd nm i0 D (req_path req) Hpd Hloc req eq_refl Ho s) as Hq.
  cbn beta in Hq. specialize (Hq (conj eq_refl (conj Hb (conj Hl (or_introl Hd))))).
  destruct (quarantine req s); [done|apply Hq|done].
Qed.

(** C14: restoring on Windows never loses a file. From a complete item whose
    target's name is free, whatever call fails and wherever power is lost, the
    content is on stable storage under the target's name or the item is still
    complete; when the operation returns, the target has the whole content
    under a new file, the stored copy is gone and the record says [restored]
    to the target. The temporary's name is still there then, a second name of
    the restored file: its handle may not delete it. And whatever the record
    says and wherever the target is, taken or not, every file outside the
    store, the audit log aside, that is on stable storage under its only name
    keeps that name and its content, in every outcome: nothing is replaced. *)
Theorem windows_restore_never_loses_data (s : Disk.state QuarantineStore) i dest I :
  let t := self s in
  located t I → parse_id i = Ok i →
  (∀ o td fname kt pd nm key D, let i0 := fresh_inum (fs s) in
   pd ≠ I → kt.1 ≠ I → kt ≠ (pd, nm) → key_ok key →
   (∀ rec, Record.path (original rec) = WinPath.from_path o → restore_target rec dest = Ok (td, fname)) →
   locate (WinPath.join td fname) = Ok (pd, nm) → locate (WinPath.join td (restore_tmp i)) = Ok kt →
   base t I pd nm (fs s) → removed I pd nm D o i key (live (fs s)) (fs s) → stored I D o i key (disk (fs s)) (fs s) →
   match restore i dest s with
   | Return p s' =>
       p = WinPath.join td fname ∧ restored I pd nm i0 D i kt p (live (fs s')) (fs s') ∧
       kept I pd nm i0 D o (disk (fs s')) (fs s')
   | Throw _ s' => kept I pd nm i0 D o (live (fs s')) (fs s') ∧ kept I pd nm i0 D o (disk (fs s')) (fs s')
   | Lost f => kept I pd nm i0 D o (live f) f
   end) ∧
  (∀ p j x, p.1 ≠ I → safe x = true → audit t ≠ j → other p j x (fs s) →
   match restore i dest s with
   | Return _ s' | Throw _ s' => other p j x (fs s')
   | Lost f => live f !! p = Some j ∧ inodes f !! j = Some x
   end).
Proof.
  cbn zeta. intros Hloc Hi. split.
  - intros o td fname kt pd nm key D Hpd HkI Hkt Hk Hdest Htarget Htmp Hb Hl Hd.
    pose proof (win_restore_triple (self s) I pd nm (fresh_inum (fs s)) D o Hpd Hloc i key Hi Hk kt HkI Hkt
      dest td fname Hdest Htarget Htmp s) as Hr. cbn beta in Hr.
    assert (kept I pd nm (fresh_inum (fs s)) D o (disk (fs s)) (fs s)) as Hkd by (right; eauto).
    specialize (Hr (conj eq_refl (conj (conj Hb (conj Hl Hkd)) eq_refl))).
    destruct (restore i dest s) as [p s'|e s'|f]; [|apply Hr|done].
    destruct Hr as (H1' & H2' & ->). by split_and!.
  - intros p j x HpI Hs Ha Ho.
    pose proof (restore_keeps_others (self s) I p j x Hloc HpI Hs Ha i Hi dest s (conj eq_refl Ho)) as Hr.
    by destruct (restore i dest s).
Qed.

End Props.
End WinStoreProps.

(** ** What the store does not do *)
Module WinStoreGaps.
Section Gaps.
Context `{WinSys}.

(** A program that runs the file is named by its path in the system's form;
    the store compares that path with the requested one octet by octet, so a
    request with the prefix that [canonicalize] gives stops no program. *)
Theorem verbatim_request_stops_nothing pid image p :
  image_of pid = Ok image → Anchors.list_starts_with (lit "\\?\") (as_bytes image) = false →
  terminate_if_image pid (of_bytes (lit "\\?\") +:+ p) = Ok false.
Proof.
  intros Hi Hs. unfold terminate_if_image. rewrite Hi. cbn [mbind result_bind].
  assert (same_image image (of_bytes (lit "\\?\") +:+ p) = false) as ->; [|done].
  unfold same_image. apply bool_decide_eq_false. intros E. rewrite as_bytes_app in E.
  change (as_bytes (of_bytes (lit "\\?\"))) with [92; 92; 63; 92] in E.
  assert (∀ x y, y = 92 ∨ y = 63 → to_lower_byte x = y → x = y) as Hlow.
  { intros x y Hy. unfold to_lower_byte, is_ascii_upper. case_match; [|done]. reflect_bools. lia. }
  destruct (as_bytes image) as [|a [|b [|c [|d l]]]]; try done.
  injection E as Ea Eb Ec Ed _. apply Hlow in Ea, Eb, Ec, Ed; auto. by subst.
Qed.

(** Although it is the file that a running program was started from. *)
Lemma verbatim_request_finds image : WinPath.same_place (of_bytes (lit "\\?\C:\h\evil.exe")) image = WinPath.same_place "C:\h\evil.exe" image.
Proof. done. Qed.
End Gaps.
End WinStoreGaps.

(** ** A store at [C:\q] (directories 0 and 1), with [C:\h\evil.exe] in
    directory 2 *)
Module WinStoreSamples.
#[local] Existing Instance Toy.sha.
#[local] Existing Instances Audit.AuditEntry_eq_dec Audit.AuditEntry_countable
  Record.QuarantineRecord_eq_dec Record.QuarantineRecord_countable.
#[local] Existing Instances StoreProps.sample_audit_json StoreProps.sample_record_json
  StoreProps.sample_record_pretty StoreProps.sample_record_laws toy_text.

Definition toy_locate (p : path) : result errno place :=
  match after_prefix "C:\q\items\" (as_bytes p), after_prefix "C:\h\" (as_bytes p) with
  | Some n, _ => Ok (1, of_bytes n)
  | None, Some n => Ok (2, of_bytes n)
  | None, None => if bool_decide (p = "C:\h"%string) then Ok (3, "h"%string) else Err ERROR_PATH_NOT_FOUND
  end.
Definition toy_final (k : place) : result errno path :=
  if k.1 =? 2 then Ok (of_bytes (lit "\\?\C:\h\") +:+ k.2)%string
  else if k.1 =? 3 then Ok (of_bytes (lit "\\?\C:\h")) else Err ERROR_ACCESS_DENIED.
#[local] Instance toy_sys : WinSys := {|
  env _ := None; locate := toy_locate; create_dir_all _ := Ok tt; canonicalize p := Ok p; try_lock _ := Locked;
  final_path := toy_final; security_descriptor _ := Ok "O:SYD:P(A;OICI;FA;;;SY)(A;OICI;FA;;;BA)"%string;
  set_protected_dacl _ _ := Ok tt; process_user_sid := Ok "S-1-5-18"%string; processes := Ok [];
  image_of _ := Err ERROR_ACCESS_DENIED; terminate_process _ := Ok tt |}.

Definition sample_store : QuarantineStore :=
  mkStore "C:\q" (WinPath.norm "C:\q") "C:\q\items" 11 Audit.genesis "S-1-5-18" None [] false false.

Lemma plain_join (n : string) a b r :
  as_bytes n = a :: b :: r → WinPath.is_sep a = false → b ≠ 58 →
  items_path sample_store n = of_bytes (lit "C:\q\items\" ++ as_bytes n).
Proof.
  intros E Ha Hb. unfold items_path, WinPath.join.
  assert (WinPath.parse_prefix (as_bytes n) = None) as ->; [|done].
  rewrite E. simpl. rewrite Ha. simpl. destruct (N.eqb_spec b 58); [done|]. by rewrite andb_false_r.
Qed.

Lemma toy_located (n : string) a b r :
  as_bytes n = a :: b :: r → WinPath.is_sep a = false → b ≠ 58 → toy_locate (items_path sample_store n) = Ok (1, n).
Proof.
  intros E Ha Hb. rewrite (plain_join n a b r) by done. unfold toy_locate.
  rewrite as_of_bytes, after_prefix_app, of_as_bytes; [done|].
  apply Forall_app. split; [|apply as_bytes_is_byte]. by apply (bool_decide_unpack _).
Qed.

Lemma sample_located : located sample_store 1.
Proof.
  intros i n Hi Hn. unfold parse_id in Hi. destruct ((len i =? 32) && _) eqn:E; [|done]. clear Hi.
  apply andb_true_iff in E as [El Ef]. destruct (as_bytes i) as [|a [|b r]] eqn:Ei.
  1, 2: unfold len in El; rewrite <-length_as_bytes, Ei in El; done.
  simpl in Ef. apply andb_true_iff in Ef as [Fa Ef]. apply andb_true_iff in Ef as [Fb _].
  assert (∀ c, Record.is_id_byte c = true → WinPath.is_sep c = false ∧ c ≠ 58) as Hid.
  { intros c Hc. unfold Record.is_id_byte, WinPath.is_sep, is_ascii_digit in *. lia. }
  destruct (Hid a Fa) as [Ha Ha'], (Hid b Fb) as [_ Hb].
  destruct Hn as [->|[->|[->| ->]]].
  - apply (toy_located _ a b (r ++ as_bytes ".json")); [|done..]. change (json_name i) with (i +:+ ".json")%string.
    by rewrite as_bytes_app, Ei.
  - apply (toy_located _ a b (r ++ as_bytes ".data")); [|done..]. change (data_name i) with (i +:+ ".data")%string.
    by rewrite as_bytes_app, Ei.
  - apply (toy_located _ a b (r ++ as_bytes ".data.tmp")); [|done..]. change (tmp_name i) with (i +:+ ".data.tmp")%string.
    by rewrite as_bytes_app, Ei.
  - apply (toy_located _ 46 a (b :: r ++ as_bytes ".json" ++ as_bytes ".tmp")); [|done..].
    change (atomic_tmp (json_name i)) with ("." +:+ ((i +:+ ".json") +:+ ".tmp"))%string.
    rewrite !as_bytes_app, Ei. simpl. by rewrite <-app_assoc.
Qed.

Definition sample_file (d : bytes) : inode := mkInode d true RegularFile FILE_ATTRIBUTE_ARCHIVE 0 0 1 5 0.
Definition sample_dir : inode := mkInode [] true Directory FILE_ATTRIBUTE_DIRECTORY 0 0 1 5 0.
Definition sample_names : gmap place inum :=
  {[ (2, "evil.exe"%string) := 10; (0, "audit.log"%string) := 11; (3, "h"%string) := 2 ]}.
Definition sample_fs : Fs :=
  mkFs {[ 0 := sample_dir; 1 := sample_dir; 2 := sample_dir; 10 := sample_file [1; 2; 3; 4]; 11 := sample_file [] ]}
    sample_names sample_names.
Definition sample_state (script : list fault) : Disk.state QuarantineStore :=
  mkState sample_store sample_fs script [] [Ok (repeat 7 16); Ok (repeat 9 32)] [] [] [].
Definition sample_request : QuarantineRequest :=
  mkRequest "C:\h\evil.exe" None (Record.mkReason None None None None None None) 1000 false false.

Lemma sample_names_inv k i : sample_names !! k = Some i →
  (k = (2, "evil.exe"%string) ∧ i = 10) ∨ (k = (0, "audit.log"%string) ∧ i = 11) ∨ (k = (3, "h"%string) ∧ i = 2).
Proof.
  unfold sample_names. rewrite !insert_union_singleton_l, !lookup_union_Some_raw, !lookup_singleton_Some. naive_solver.
Qed.

Lemma win_sample_base : base sample_store 1 2 "evil.exe" sample_fs.
Proof.
  split; simpl.
  - intros k i [Hk|Hk]; apply sample_names_inv in Hk as [[-> ->]|[[-> ->]|[-> ->]]]; by eexists.
  - intros n k i Hn%sample_names_inv. naive_solver.
  - intros n k i _ Hn%sample_names_inv. naive_solver.
  - intros k i [Hk|Hk] Hi; apply sample_names_inv in Hk as [[-> ->]|[[-> ->]|[-> ->]]]; by split.
  - by eexists.
Qed.

Lemma win_sample_orig : orig 2 "evil.exe" 10 [1; 2; 3; 4] sample_names sample_fs.
Proof. split; [done|]. by eexists. Qed.

Definition returned {T E A} (o : outcome T E A) : bool := match o with Return _ _ => true | _ => false end.

(** A run with short reads; the journal is written out now and then. *)
Definition sample_script : list fault := Short 1 :: repeat Proceed 5 ++ [Short 3; Proceed; Short 1; Proceed].
Definition restore_script : list fault := repeat Proceed 7 ++ [Short 1; Proceed; Short 3].


Lemma windows_quarantine_never_loses_data_witness :
  returned (quarantine sample_request (sample_state sample_script)) = true ∧
  match quarantine sample_request (sample_state sample_script) with
  | Return rec s' => quarantined 1 2 "evil.exe" 10 [1; 2; 3; 4] "C:\h\evil.exe" sample_request rec (fs s')
  | Throw _ s' => kept 1 2 "evil.exe" 10 [1; 2; 3; 4] "C:\h\evil.exe" (live (fs s')) (fs s') ∧
                  kept 1 2 "evil.exe" 10 [1; 2; 3; 4] "C:\h\evil.exe" (disk (fs s')) (fs s')
  | Lost f => kept 1 2 "evil.exe" 10 [1; 2; 3; 4] "C:\h\evil.exe" (live f) f
  end.
Proof.
  split; [vm_compute; reflexivity|].
  apply (WinStoreProps.windows_quarantine_never_loses_data (sample_state sample_script) sample_request 1 2 "evil.exe" 10
           [1; 2; 3; 4]).
  - discriminate.
  - exact sample_located.
  - vm_compute. reflexivity.
  - exact win_sample_base.
  - exact win_sample_orig.
  - exact win_sample_orig.
Defined.

(** The item such a run leaves, and its way back. *)
Definition item_id : QuarantineId := Record.random_id (repeat 7 16).
Definition item_key : bytes := repeat 9 32.
Definition item_record : QuarantineRecord :=
  Record.mkRecord 1 item_id Quarantined
    (Record.mkOriginal (WinPath.from_path "C:\h\evil.exe") 4 (sha256 [1; 2; 3; 4]) 0x20 0 0 5 10 None (Some 0%Z))
    (Record.hex item_key) (Record.mkReason None None None None None None) 0 0 0 None [].
Definition record_bytes : bytes := match to_vec_pretty item_record with Ok b => b | Err _ => [] end.
Definition stored_names : gmap place inum :=
  {[ (1, json_name item_id) := 20; (1, data_name item_id) := 21; (0, "audit.log"%string) := 11; (3, "h"%string) := 2 ]}.
Definition stored_fs : Fs :=
  mkFs {[ 0 := sample_dir; 1 := sample_dir; 2 := sample_dir; 11 := sample_file []; 20 := sample_file record_bytes;
          21 := sample_file (encoded item_key [1; 2; 3; 4]) ]} stored_names stored_names.
Definition stored_state (script : list fault) : Disk.state QuarantineStore :=
  mkState sample_store stored_fs script [] [] [] [] [].

Lemma stored_names_inv k i : stored_names !! k = Some i →
  (k = (1, json_name item_id) ∧ i = 20) ∨ (k = (1, data_name item_id) ∧ i = 21) ∨
  (k = (0, "audit.log"%string) ∧ i = 11) ∨ (k = (3, "h"%string) ∧ i = 2).
Proof.
  unfold stored_names. rewrite !insert_union_singleton_l, !lookup_union_Some_raw, !lookup_singleton_Some. naive_solver.
Qed.

Lemma stored_base : base sample_store 1 2 "evil.exe" stored_fs.
Proof.
  split; simpl.
  - intros k i [Hk|Hk]; apply stored_names_inv in Hk as [[-> ->]|[[-> ->]|[[-> ->]|[-> ->]]]]; by eexists.
  - intros n k i Hn%stored_names_inv Hk%stored_names_inv. naive_solver.
  - intros n k i _ Hn%stored_names_inv Hk%stored_names_inv. naive_solver.
  - intros k i [Hk|Hk] Hi; apply stored_names_inv in Hk as [[-> ->]|[[-> ->]|[[-> ->]|[-> ->]]]]; by split.
  - by eexists.
Qed.

Lemma stored_item : stored 1 [1; 2; 3; 4] "C:\h\evil.exe" item_id item_key stored_names stored_fs.
Proof.
  split.
  - exists 21, (sample_file (encoded item_key [1; 2; 3; 4])). by vm_compute.
  - exists 20, (sample_file record_bytes). split; [reflexivity|]. split; [reflexivity|]. split; [done|].
    exists item_record. split.
    + apply from_slice_to_vec_pretty. reflexivity.
    + split_and!; try reflexivity. by right.
Qed.

Definition restored_of (o : outcome QuarantineStore RemediationError path) : Prop :=
  match o with
  | Return p s' =>
      p = WinPath.join "C:\h" "evil.exe" ∧
      restored 1 2 "evil.exe" (fresh_inum stored_fs) [1; 2; 3; 4] item_id (2, restore_tmp item_id) p (live (fs s')) (fs s') ∧
      kept 1 2 "evil.exe" (fresh_inum stored_fs) [1; 2; 3; 4] "C:\h\evil.exe" (disk (fs s')) (fs s')
  | Throw _ s' =>
      kept 1 2 "evil.exe" (fresh_inum stored_fs) [1; 2; 3; 4] "C:\h\evil.exe" (live (fs s')) (fs s') ∧
      kept 1 2 "evil.exe" (fresh_inum stored_fs) [1; 2; 3; 4] "C:\h\evil.exe" (disk (fs s')) (fs s')
  | Lost f => kept 1 2 "evil.exe" (fresh_inum stored_fs) [1; 2; 3; 4] "C:\h\evil.exe" (live f) f
  end.

(** The same store where the target's name is taken by another file. *)
Definition taken_names : gmap place inum := <[(2, "evil.exe"%string) := 30]> stored_names.
Definition taken_fs : Fs := mkFs (<[30 := sample_file [5; 6]]> (inodes stored_fs)) taken_names taken_names.
Definition taken_state (script : list fault) : Disk.state QuarantineStore :=
  mkState sample_store taken_fs script [] [] [] [] [].
Lemma taken_other : other (2, "evil.exe"%string) 30 (sample_file [5; 6]) taken_fs.
Proof.
  split; [reflexivity..|]. intros k Hk. change (taken_names !! k = Some 30) in Hk. unfold taken_names in Hk.
  apply lookup_insert_Some in Hk as [[<- _]|[_ Hk]]; [done|].
  apply stored_names_inv in Hk. naive_solver.
Qed.

Lemma windows_restore_never_loses_data_witness :
  returned (restore item_id None (stored_state restore_script)) = true ∧
  restored_of (restore item_id None (stored_state restore_script)) ∧
  match restore item_id None (taken_state restore_script) with
  | Return _ _ => False
  | Throw e s' => e = Record.TargetExists "C:\h\evil.exe" ∧
      other (2, "evil.exe"%string) 30 (sample_file [5; 6]) (fs s')
  | Lost _ => False
  end.
Proof.
  assert (parse_id item_id = Ok item_id) as Hid by (vm_compute; reflexivity).
  split; [vm_compute; reflexivity|]. split.
  - pose proof (proj1 (WinStoreProps.windows_restore_never_loses_data (stored_state restore_script) item_id None 1
      sample_located Hid) "C:\h\evil.exe" "C:\h" "evil.exe" (2, restore_tmp item_id) 2 "evil.exe" item_key
      [1; 2; 3; 4]) as Hr.
    cbn zeta in Hr. change (fs (stored_state restore_script)) with stored_fs in Hr.
    change (self (stored_state restore_script)) with sample_store in Hr. unfold restored_of. apply Hr; clear Hr.
    + discriminate.
    + discriminate.
    + discriminate.
    + split; [vm_compute; reflexivity|]. apply (bool_decide_unpack _). vm_compute. exact Logic.I.
    + intros rec E. unfold restore_target. rewrite E. vm_compute. reflexivity.
    + vm_compute. reflexivity.
    + vm_compute. reflexivity.
    + exact stored_base.
    + split; [exact stored_item|vm_compute; reflexivity].
    + exact stored_item.
  - pose proof (proj2 (WinStoreProps.windows_restore_never_loses_data (taken_state restore_script) item_id None 1
      sample_located Hid) (2, "evil.exe"%string) 30 (sample_file [5; 6]) ltac:(discriminate) eq_refl
      ltac:(discriminate) taken_other) as Ho.
    assert (match restore item_id None (taken_state restore_script) with
            | Throw e _ => e = Record.TargetExists "C:\h\evil.exe" | _ => False end) as He by (vm_compute; reflexivity).
    by destruct (restore item_id None (taken_state restore_script)).
Defined.

End WinStoreSamples.
