(* ===== verification/Aggregate.v ===== *)
(** * The walk and the report: [crates/engine/src/scanner.rs]

    How a scan resolves its roots, what the walker does with each directory
    entry, and how the coordinator turns the messages it handles into the
    report. The directory walk itself (the [walkdir] crate) is a parameter:
    the entries it yields for a root, in order. The progress callback only
    observes and is left out. Counters are [N]: they count messages, files
    and octets of one scan and cannot reach [2^64]. *)

From S2P Require Import Prelude Utf8 Paths Core External Fsio Archive Scanner.

Module Aggregate.
Import Config Scanner.
#[local] Existing Instance Fsio.FileType_eq_dec.
#[local] Arguments N.add : simpl never.
#[local] Arguments N.sub : simpl never.

(** ** Roots *)

Definition component_rank (c : component) : N :=
  match c with RootDir => 1 | CurDir => 2 | ParentDir => 3 | Normal _ => 4 end.
Definition component_text (c : component) : string := match c with Normal s => s | _ => "" end.
(** [Component]'s and [Path]'s order. *)
Definition cmp_component (a b : component) : comparison :=
  lex (component_rank a ?= component_rank b) (cmp_str (component_text a) (component_text b)).
Definition cmp_path (p q : path) : comparison := cmp_list cmp_component (components p) (components q).

Record Targets := mkTargets {
  target_roots : list path; target_excludes : list path; target_issues : list Report.ScanIssue }.

(** The deduplication loop over the sorted roots. *)
Definition keep_root (kept : list path) (r : path) : list path :=
  if existsb (path_starts_with r) kept then kept else kept ++ [r].
Definition dedup_roots (sorted : list path) : list path := foldl keep_root [] sorted.

Section Resolve.
Context `{ST : StdText, OK : OtherKinds}.
Context (canonicalize absolute : path → result IoError path).

(** [resolve_targets] *)
Definition resolve_targets (c : ScanConfig) : Targets :=
  let resolved := omap (λ r, match canonicalize r with Ok p => Some p | Err _ => None end) (roots c) in
  let issues := omap (λ r, match canonicalize r with Ok _ => None | Err e => Some (io_issue (Some r) e) end) (roots c) in
  mkTargets (dedup_roots (sort_by cmp_path resolved))
    ((λ p, match canonicalize p with
           | Ok q => q
           | Err _ => match absolute p with Ok q => q | Err _ => p end
           end) <$> excludes c)
    issues.
End Resolve.

(** ** The walk *)

Record DirEntry := mkEntry { entry_path : path; depth : N; file_type : Fsio.FileType }.

(** What the iterator yields; an error has the path it is about, whether it
    is a loop of links, and the system error behind it. *)
Inductive walk_item :=
  | Entry (e : DirEntry)
  | WalkError (depth : N) (p : option path) (is_loop : bool) (io : option IoError) (text : string).

Definition item_depth (i : walk_item) : N :=
  match i with Entry e => depth e | WalkError d _ _ _ _ => d end.

(** What the walker does: queue a file of a root, or send a message. *)
Inductive action := Enqueue (root_idx : nat) (p : path) | Send (m : Msg).

Section Walk.
Context `{ST : StdText, OK : OtherKinds}.
Context (walkdir : path → list walk_item).
Context (config : ScanConfig) (excluded : list path).

Definition walk_issue (d : N) (p : option path) (is_loop : bool) (io : option IoError) (text : string)
    : Report.ScanIssue :=
  if is_loop then Report.Build_ScanIssue (ObservedPath.from_path <$> p) Report.FilesystemLoop None text None
  else match io with
       | Some e => io_issue p e
       | None => Report.Build_ScanIssue (ObservedPath.from_path <$> p) Report.Io None text None
       end.

(** [targets.excludes.iter().any(|ex| entry.path().starts_with(ex))] *)
Definition is_excluded (p : path) : bool := existsb (path_starts_with p) excluded.

(** The loop body for one entry; the flag is [skip_current_dir]. *)
Definition visit_entry (idx : nat) (e : DirEntry) : list action * bool :=
  if is_excluded (entry_path e) then
    ([Send (SkippedMsg (entry_path e) Report.Excluded)], bool_decide (file_type e = Fsio.Directory))
  else
    (match file_type e with
     | Fsio.Regular => [Enqueue idx (entry_path e)]
     | Fsio.Directory =>
         if depth e <? max_depth (limits config) then [Send DirectoryMsg]
         else [Send DirectoryMsg; Send (SkippedMsg (entry_path e) Report.DepthLimitReached)]
     | Fsio.Symlink => [Send (SkippedMsg (entry_path e) Report.SymlinkNotFollowed)]
     | Fsio.Special => [Send (SkippedMsg (entry_path e) Report.NotRegularFile)]
     end, false).

(** The walk of one root: what each pass of the loop does. After
    [skip_current_dir] on a directory at depth [d], the iterator leaves out
    what lies deeper until the next item at [d] or above. *)
Fixpoint walk_passes (idx : nat) (skipping : option N) (items : list walk_item) : list (list action) :=
  match items with
  | [] => []
  | i :: items =>
      if match skipping with Some d => d <? item_depth i | None => false end
      then walk_passes idx skipping items
      else
        match i with
        | WalkError d p is_loop io text =>
            [Send (IssueMsg (walk_issue d p is_loop io text))] :: walk_passes idx None items
        | Entry e =>
            let '(acts, skip) := visit_entry idx e in
            acts :: walk_passes idx (if skip then Some (depth e) else None) items
        end
  end.
Definition walk_items (idx : nat) (skipping : option N) (items : list walk_item) : list action :=
  concat (walk_passes idx skipping items).

(** [walk] over all roots, as long as the scan is not stopped. *)
Definition walk (roots : list path) : list (list action) :=
  concat (imap (λ idx root, walk_passes idx None (walkdir root)) roots).

Lemma walk_items_cons idx skipping i items :
  walk_items idx skipping (i :: items) =
    if match skipping with Some d => d <? item_depth i | None => false end
    then walk_items idx skipping items
    else
      match i with
      | WalkError d p is_loop io text =>
          Send (IssueMsg (walk_issue d p is_loop io text)) :: walk_items idx None items
      | Entry e =>
          (visit_entry idx e).1 ++ walk_items idx (if (visit_entry idx e).2 then Some (depth e) else None) items
      end.
Proof.
  unfold walk_items. simpl. destruct (match skipping with Some d => _ | None => _ end); [done|].
  destruct i as [e|]; [|done]. by destruct (visit_entry idx e).
Qed.
End Walk.

(** ** The aggregator *)

Record Aggregator := mkAgg {
  stats : Report.ScanStats;
  agg_findings : list Finding;
  agg_skipped : list Report.SkippedEntry;
  agg_issues : list Report.ScanIssue;
  agg_truncated : Report.Truncation;
  agg_max_entries : N;
  agg_max_findings : N }.

Definition new_agg (c : ScanConfig) : Aggregator :=
  mkAgg Report.default_stats [] [] [] (Report.mkTrunc 0 0 0)
    (max_recorded_entries (limits c)) (max_recorded_findings (limits c)).

Definition bump (r : Report.SkipReason) (m : gmap Report.SkipReason N) : gmap Report.SkipReason N :=
  <[r := default 0 (m !! r) + 1]> m.

(** [Aggregator::skip] *)
Definition agg_skip (p : path) (a : Aggregator) (s : skip_entry) : Aggregator :=
  let '(reason, member) := s in
  let st := stats a in
  let st := Report.mkStats (Report.directories_visited st) (Report.files_scanned st) (Report.bytes_scanned st)
    (Report.entries_skipped st + 1) (bump reason (Report.skipped_by_reason st)) (Report.issues_count st)
    (Report.findings_count st) (Report.archive_members_scanned st) in
  let t := agg_truncated a in
  if vlen (agg_skipped a) <? agg_max_entries a then
    mkAgg st (agg_findings a)
      (agg_skipped a ++ [Report.Build_SkippedEntry (ObservedPath.from_path p) reason member])
      (agg_issues a) t (agg_max_entries a) (agg_max_findings a)
  else
    mkAgg st (agg_findings a) (agg_skipped a) (agg_issues a)
      (Report.mkTrunc (Report.findings_omitted t) (Report.skipped_omitted t + 1) (Report.issues_omitted t))
      (agg_max_entries a) (agg_max_findings a).

(** [Aggregator::finding] *)
Definition agg_finding (a : Aggregator) (f : Finding) : Aggregator :=
  let st := stats a in
  let st := Report.mkStats (Report.directories_visited st) (Report.files_scanned st) (Report.bytes_scanned st)
    (Report.entries_skipped st) (Report.skipped_by_reason st) (Report.issues_count st)
    (Report.findings_count st + 1) (Report.archive_members_scanned st) in
  let t := agg_truncated a in
  if vlen (agg_findings a) <? agg_max_findings a then
    mkAgg st (agg_findings a ++ [f]) (agg_skipped a) (agg_issues a) t (agg_max_entries a) (agg_max_findings a)
  else
    mkAgg st (agg_findings a) (agg_skipped a) (agg_issues a)
      (Report.mkTrunc (Report.findings_omitted t + 1) (Report.skipped_omitted t) (Report.issues_omitted t))
      (agg_max_entries a) (agg_max_findings a).

(** [Aggregator::issue] *)
Definition agg_issue (a : Aggregator) (i : Report.ScanIssue) : Aggregator :=
  let st := stats a in
  let st := Report.mkStats (Report.directories_visited st) (Report.files_scanned st) (Report.bytes_scanned st)
    (Report.entries_skipped st) (Report.skipped_by_reason st) (Report.issues_count st + 1)
    (Report.findings_count st) (Report.archive_members_scanned st) in
  let t := agg_truncated a in
  if vlen (agg_issues a) <? agg_max_entries a then
    mkAgg st (agg_findings a) (agg_skipped a) (agg_issues a ++ [i]) t (agg_max_entries a) (agg_max_findings a)
  else
    mkAgg st (agg_findings a) (agg_skipped a) (agg_issues a)
      (Report.mkTrunc (Report.findings_omitted t) (Report.skipped_omitted t) (Report.issues_omitted t + 1))
      (agg_max_entries a) (agg_max_findings a).

(** The counters of a directory, and of a scanned file. *)
Definition agg_directory (a : Aggregator) : Aggregator :=
  let st := stats a in
  mkAgg (Report.mkStats (Report.directories_visited st + 1) (Report.files_scanned st) (Report.bytes_scanned st)
           (Report.entries_skipped st) (Report.skipped_by_reason st) (Report.issues_count st)
           (Report.findings_count st) (Report.archive_members_scanned st))
    (agg_findings a) (agg_skipped a) (agg_issues a) (agg_truncated a) (agg_max_entries a) (agg_max_findings a).
Definition agg_file (octets members : N) (a : Aggregator) : Aggregator :=
  let st := stats a in
  mkAgg (Report.mkStats (Report.directories_visited st) (Report.files_scanned st + 1)
           (Report.bytes_scanned st + octets) (Report.entries_skipped st) (Report.skipped_by_reason st)
           (Report.issues_count st) (Report.findings_count st) (Report.archive_members_scanned st + members))
    (agg_findings a) (agg_skipped a) (agg_issues a) (agg_truncated a) (agg_max_entries a) (agg_max_findings a).

(** [Aggregator::handle] *)
Definition handle (a : Aggregator) (m : Msg) : Aggregator :=
  match m with
  | DirectoryMsg => agg_directory a
  | Scanned p octets r =>
      let a := agg_file octets (r_members r) a in
      let a := foldl agg_finding a (r_findings r) in
      let a := foldl agg_issue a (r_issues r) in
      foldl (agg_skip p) a (r_skips r)
  | SkippedMsg p reason => agg_skip p a (reason, None)
  | IssueMsg i => agg_issue a i
  end.

Inductive StopReason := SCancelled | ScanTimeLimit | TooManyStalls.
#[export] Instance StopReason_eq_dec : EqDecision StopReason.
Proof. solve_decision. Defined.

(** [ObservedPath]'s derived order, and the orders [finish] sorts by. *)
Definition cmp_observed (a b : ObservedPath) : comparison :=
  lex (cmp_str (ObservedPath.text a) (ObservedPath.text b))
    (cmp_option cmp_str (ObservedPath.raw_hex a) (ObservedPath.raw_hex b)).
Definition cmp_finding (a b : Finding) : comparison :=
  lex (cmp_option cmp_observed (Finding.target_path (Finding.target a)) (Finding.target_path (Finding.target b)))
    (lex (cmp_str (Finding.name a) (Finding.name b))
       (cmp_option cmp_str (Finding.rule_id (Finding.source a)) (Finding.rule_id (Finding.source b)))).
Definition cmp_skipped (a b : Report.SkippedEntry) : comparison :=
  cmp_observed (Report.skip_path a) (Report.skip_path b).
Definition cmp_issue (a b : Report.ScanIssue) : comparison :=
  cmp_option cmp_observed (Report.issue_path a) (Report.issue_path b).

Definition no_detectors_warning : string :=
  "No detectors were configured: files were enumerated and hashed but not evaluated for threats. The absence of findings means nothing.".
Definition incomplete_warning (n : N) : string :=
  fmt "{} entries could not be fully scanned; coverage is incomplete (see issues)." [show_N n].
Definition truncated_warning : string :=
  "Recording limits were reached: some entries are counted in stats but not listed.".
Definition stop_warning (c : ScanConfig) (r : StopReason) : string :=
  match r with
  | SCancelled => "The scan was cancelled; results are partial."
  | ScanTimeLimit =>
      fmt "The scan time limit ({} s) was reached; results are partial."
        [show_N (default 0 (scan_timeout_ms (limits c)) / 1000)]
  | TooManyStalls => "Too many files stalled past their time limit, so the scan was stopped; results are partial."
  end.

Definition abandoned_warning (abandoned : N) : string :=
  fmt "{abandoned} file(s) stalled and were abandoned (see timeout issues). Their threads may stay blocked in the background until the process exits."
    [show_N abandoned].

Definition unsigned (databases : list (option (string * option string))) : list string :=
  omap (λ d, match d with Some (name, None) => Some name | _ => None end) databases.
Definition unsigned_warning (names : list string) : string :=
  fmt "Detection content was loaded without signature verification: {}. Its authenticity is unknown."
    [String.concat ", " names].
Definition followed_warning : string :=
  "Symbolic links were followed; scanned files may lie outside the scan roots.".

Definition when (b : bool) (w : string) : list string := if b then [w] else [].

(** The warnings of [finish]; [databases] are the databases of the
    detectors with their signers. *)
Definition finish_warnings (c : ScanConfig) (n_detectors : nat) (databases : list (option (string * option string)))
    (reason : option StopReason) (abandoned : N) (a : Aggregator) : list string :=
  let unsigned := unsigned databases in
  when (bool_decide (n_detectors = 0%nat)) no_detectors_warning ++
  when (negb (bool_decide (unsigned = []))) (unsigned_warning unsigned) ++
  match reason with Some r => [stop_warning c r] | None => [] end ++
  when (0 <? abandoned) (abandoned_warning abandoned) ++
  when (0 <? Report.issues_count (stats a)) (incomplete_warning (Report.issues_count (stats a))) ++
  when (Report.any (agg_truncated a)) truncated_warning ++
  when (bool_decide (symlink_policy c = Follow)) followed_warning.

(** The status of a finished scan. *)
Definition status_of (reason : option StopReason) : Report.ScanStatus :=
  match reason with
  | None => Report.Completed
  | Some SCancelled => Report.Cancelled
  | Some (ScanTimeLimit | TooManyStalls) => Report.TimeLimitReached
  end.

(** [Aggregator::finish], for the parts of the report that carry results. *)
Definition finish (c : ScanConfig) (n_detectors : nat) (databases : list (option (string * option string)))
    (reason : option StopReason) (abandoned : N) (a : Aggregator) : Report.ScanReport :=
  Report.mkReport (status_of reason) (max_file_size (limits c)) (stats a)
    (sort_by cmp_finding (agg_findings a)) (sort_by cmp_skipped (agg_skipped a))
    (sort_by cmp_issue (agg_issues a)) (agg_truncated a)
    (finish_warnings c n_detectors databases reason abandoned a).

(** ** What a scan observed *)

(** The abstract counterpart of the aggregator: everything the messages
    carry, in order, with no recording limits. *)
Record Tally := mkTally {
  dirs : N; files : N; octets : N; members : N;
  all_findings : list Finding; all_skips : list Report.SkippedEntry; all_issues : list Report.ScanIssue }.

Definition empty_tally : Tally := mkTally 0 0 0 0 [] [] [].

Definition msg_skips (p : path) (l : list skip_entry) : list Report.SkippedEntry :=
  (λ s : skip_entry, Report.Build_SkippedEntry (ObservedPath.from_path p) s.1 s.2) <$> l.

Definition observe (t : Tally) (m : Msg) : Tally :=
  match m with
  | DirectoryMsg =>
      mkTally (dirs t + 1) (files t) (octets t) (members t) (all_findings t) (all_skips t) (all_issues t)
  | Scanned p n r =>
      mkTally (dirs t) (files t + 1) (octets t + n) (members t + r_members r)
        (all_findings t ++ r_findings r) (all_skips t ++ msg_skips p (r_skips r)) (all_issues t ++ r_issues r)
  | SkippedMsg p reason =>
      mkTally (dirs t) (files t) (octets t) (members t) (all_findings t)
        (all_skips t ++ msg_skips p [(reason, None)]) (all_issues t)
  | IssueMsg i =>
      mkTally (dirs t) (files t) (octets t) (members t) (all_findings t) (all_skips t) (all_issues t ++ [i])
  end.

Definition observed (ms : list Msg) : Tally := foldl observe empty_tally ms.

(** A bounded list of what was seen: the first ones, and how many more. *)
Definition first_of {A} (max : N) (all l : list A) (omitted : N) : Prop :=
  l = take (N.to_nat max) all ∧ omitted = vlen all - max.

Lemma first_of_snoc {A} (max : N) (all l : list A) omitted x :
  first_of max all l omitted →
  if vlen l <? max then first_of max (all ++ [x]) (l ++ [x]) omitted
  else first_of max (all ++ [x]) l (omitted + 1).
Proof.
  intros [-> ->]. unfold first_of, vlen in *. rewrite length_take.
  destruct (N.ltb_spec (N.of_nat (Nat.min (N.to_nat max) (length all))) max).
  - rewrite !take_ge by (rewrite ?length_app; simpl; lia). rewrite length_app; simpl. split; [done|lia].
  - rewrite take_app_le by lia. rewrite length_app; simpl. split; [done|lia].
Qed.

(** The aggregator holds the tally, up to its recording limits. *)
Record tallied (c : ScanConfig) (t : Tally) (a : Aggregator) : Prop := {
  ok_entries : agg_max_entries a = max_recorded_entries (limits c);
  ok_max : agg_max_findings a = max_recorded_findings (limits c);
  ok_findings : first_of (agg_max_findings a) (all_findings t) (agg_findings a)
    (Report.findings_omitted (agg_truncated a));
  ok_skips : first_of (agg_max_entries a) (all_skips t) (agg_skipped a) (Report.skipped_omitted (agg_truncated a));
  ok_issues : first_of (agg_max_entries a) (all_issues t) (agg_issues a) (Report.issues_omitted (agg_truncated a));
  ok_counts : dirs t = Report.directories_visited (stats a) ∧ files t = Report.files_scanned (stats a) ∧
    octets t = Report.bytes_scanned (stats a) ∧ members t = Report.archive_members_scanned (stats a) ∧
    vlen (all_findings t) = Report.findings_count (stats a) ∧
    vlen (all_skips t) = Report.entries_skipped (stats a) ∧ vlen (all_issues t) = Report.issues_count (stats a);
  ok_reasons r : default 0 (Report.skipped_by_reason (stats a) !! r) =
    vlen (base.filter (λ s, Report.skip_reason s = r) (all_skips t)) }.

Lemma tallied_new c : tallied c empty_tally (new_agg c).
Proof. split; try done; unfold first_of; simpl; by rewrite ?take_nil. Qed.

Lemma tallied_finding c t a f :
  tallied c t a →
  tallied c (mkTally (dirs t) (files t) (octets t) (members t) (all_findings t ++ [f]) (all_skips t) (all_issues t))
    (agg_finding a f).
Proof.
  intros [? ? Hf ? ? (? & ? & ? & ? & ? & ? & ?) ?]. apply (first_of_snoc _ _ _ _ f) in Hf. unfold agg_finding.
  destruct (_ <? _); split; simpl; try done; split_and!; autorewrite with warden; try done; lia.
Qed.

Lemma tallied_issue c t a i :
  tallied c t a →
  tallied c (mkTally (dirs t) (files t) (octets t) (members t) (all_findings t) (all_skips t) (all_issues t ++ [i]))
    (agg_issue a i).
Proof.
  intros [? ? ? ? Hi (? & ? & ? & ? & ? & ? & ?) ?]. apply (first_of_snoc _ _ _ _ i) in Hi. unfold agg_issue.
  destruct (_ <? _); split; simpl; try done; split_and!; autorewrite with warden; try done; lia.
Qed.

Lemma tallied_skip c t a p s :
  tallied c t a →
  tallied c (mkTally (dirs t) (files t) (octets t) (members t) (all_findings t) (all_skips t ++ msg_skips p [s])
      (all_issues t)) (agg_skip p a s).
Proof.
  destruct s as [reason member]. set (e := Report.Build_SkippedEntry (ObservedPath.from_path p) reason member).
  intros [? ? ? Hs ? (? & ? & ? & ? & ? & ? & ?) Hr]. apply (first_of_snoc _ _ _ _ e) in Hs. unfold agg_skip.
  assert (Hreason : ∀ r, default 0 (bump reason (Report.skipped_by_reason (stats a)) !! r) =
    vlen (base.filter (λ s, Report.skip_reason s = r) (all_skips t ++ [e]))).
  { intros r. unfold bump. rewrite filter_app. autorewrite with warden. rewrite <-Hr.
    destruct (decide (reason = r)) as [->|Hne].
    - rewrite lookup_insert_eq, filter_cons_True by done. simpl. done.
    - rewrite lookup_insert_ne, filter_cons_False by done. simpl. unfold vlen. simpl. lia. }
  destruct (_ <? _); split; simpl; try done; split_and!; autorewrite with warden; try done; simpl; lia.
Qed.

Lemma tallied_findings c t a fs :
  tallied c t a →
  tallied c (mkTally (dirs t) (files t) (octets t) (members t) (all_findings t ++ fs) (all_skips t) (all_issues t))
    (foldl agg_finding a fs).
Proof.
  revert t a. induction fs as [|f fs IH]; intros t a Ha; simpl.
  - rewrite app_nil_r. by destruct t.
  - rewrite cons_middle, app_assoc.
    exact (IH (mkTally _ _ _ _ _ _ _) _ (tallied_finding c t a f Ha)).
Qed.

Lemma tallied_issues c t a l :
  tallied c t a →
  tallied c (mkTally (dirs t) (files t) (octets t) (members t) (all_findings t) (all_skips t) (all_issues t ++ l))
    (foldl agg_issue a l).
Proof.
  revert t a. induction l as [|i l IH]; intros t a Ha; simpl.
  - rewrite app_nil_r. by destruct t.
  - rewrite cons_middle, app_assoc.
    exact (IH (mkTally _ _ _ _ _ _ _) _ (tallied_issue c t a i Ha)).
Qed.

Lemma tallied_skips c t a p l :
  tallied c t a →
  tallied c (mkTally (dirs t) (files t) (octets t) (members t) (all_findings t) (all_skips t ++ msg_skips p l)
      (all_issues t)) (foldl (agg_skip p) a l).
Proof.
  revert t a. induction l as [|s l IH]; intros t a Ha.
  - unfold msg_skips. simpl. rewrite app_nil_r. by destruct t.
  - replace (all_skips t ++ msg_skips p (s :: l)) with ((all_skips t ++ msg_skips p [s]) ++ msg_skips p l)
      by by rewrite <-app_assoc.
    exact (IH (mkTally _ _ _ _ _ _ _) _ (tallied_skip c t a p s Ha)).
Qed.

Lemma tallied_handle c t a m : tallied c t a → tallied c (observe t m) (handle a m).
Proof.
  intros Ha. destruct m as [|p n r|p reason|i].
  - destruct Ha as [? ? ? ? ? (? & ? & ? & ? & ? & ? & ?) ?]. split; simpl; try done. split_and!; try done; lia.
  - set (t1 := mkTally (dirs t) (files t + 1) (octets t + n) (members t + r_members r)
      (all_findings t) (all_skips t) (all_issues t)).
    assert (Hb : tallied c t1 (agg_file n (r_members r) a)).
    { destruct Ha as [? ? ? ? ? (? & ? & ? & ? & ? & ? & ?) ?].
      split; simpl; try done. split_and!; try done; lia. }
    exact (tallied_skips c _ _ p (r_skips r) (tallied_issues c _ _ (r_issues r)
      (tallied_findings c t1 _ (r_findings r) Hb))).
  - exact (tallied_skip c t a p (reason, None) Ha).
  - exact (tallied_issue c t a i Ha).
Qed.

Lemma tallied_observed c ms : tallied c (observed ms) (foldl handle (new_agg c) ms).
Proof.
  induction ms as [|m ms IH] using rev_ind; [apply tallied_new|].
  unfold observed in *. rewrite !foldl_snoc. by apply tallied_handle.
Qed.

(** ** Orders *)

Lemma cmp_observed_opp a b : cmp_observed b a = CompOpp (cmp_observed a b).
Proof. apply lex_opp; [apply cmp_str_laws|apply cmp_option_opp, cmp_str_laws]. Qed.
Lemma cmp_skipped_opp a b : cmp_skipped b a = CompOpp (cmp_skipped a b).
Proof. apply cmp_observed_opp. Qed.
Lemma cmp_issue_opp a b : cmp_issue b a = CompOpp (cmp_issue a b).
Proof. apply cmp_option_opp, cmp_observed_opp. Qed.
Lemma cmp_finding_opp a b : cmp_finding b a = CompOpp (cmp_finding a b).
Proof.
  apply lex_opp; [apply cmp_option_opp, cmp_observed_opp|].
  apply lex_opp; [apply cmp_str_laws|apply cmp_option_opp, cmp_str_laws].
Qed.

Lemma cmp_component_laws : cmp_laws cmp_component.
Proof.
  destruct cmp_str_laws as [He Ho Ht]. destruct N_compare_laws as [Hne Hno Hnt]. unfold cmp_component, lex. split.
  - intros a b. specialize (Hne (component_rank a) (component_rank b)).
    specialize (He (component_text a) (component_text b)). destruct (component_rank a ?= component_rank b) eqn:Hc.
    + apply N.compare_eq_iff in Hc. rewrite He. split; [|by intros ->]. by destruct a, b; simpl in *; intros; subst.
    + split; [done|]. intros ->. by rewrite N.compare_refl in Hc.
    + split; [done|]. intros ->. by rewrite N.compare_refl in Hc.
  - intros a b. by apply lex_opp.
  - intros a b c. destruct (N.compare_spec (component_rank a) (component_rank b)) as [Hab| |]; [|intros _|done].
    + intros Hs. rewrite Hab. destruct (component_rank b ?= component_rank c); try done. by apply Ht.
    + destruct (N.compare_spec (component_rank b) (component_rank c)) as [Hbc| |]; [intros _|intros _|done].
      * replace (component_rank a ?= component_rank c) with Lt; [done|symmetry; apply N.compare_lt_iff; lia].
      * replace (component_rank a ?= component_rank c) with Lt; [done|symmetry; apply N.compare_lt_iff; lia].
Qed.

Lemma cmp_list_longer {A} (cmp : A → A → comparison) l x k :
  (∀ a, cmp a a = Eq) → cmp_list cmp (l ++ x :: k) l = Gt.
Proof. intros Hr. induction l as [|y l IH]; simpl; [done|]. by rewrite Hr. Qed.

(** A path properly below another sorts after it. *)
Lemma cmp_path_below p q : path_starts_with p q = true → path_starts_with q p = true ∨ cmp_path p q = Gt.
Proof.
  unfold path_starts_with, cmp_path. rewrite !is_prefix_spec. intros [[|x r] Hr].
  - left. exists []. rewrite app_nil_r in *. done.
  - right. rewrite Hr. apply cmp_list_longer. intros a. by apply cmp_component_laws.
Qed.

(** ** Roots kept *)

Definition unrelated (kept : list path) : Prop :=
  ∀ i j k l, kept !! i = Some k → kept !! j = Some l → i ≠ j → path_starts_with k l = false.

Lemma keep_root_spec kept r :
  Forall (λ k, not_after cmp_path k r) kept → unrelated kept →
  unrelated (keep_root kept r) ∧ kept `prefix_of` keep_root kept r ∧
  (∃ k, k ∈ keep_root kept r ∧ path_starts_with r k = true) ∧
  (∀ k, k ∈ keep_root kept r → k ∈ kept ∨ k = r).
Proof.
  intros Hle Hun. unfold keep_root. destruct (existsb (path_starts_with r) kept) eqn:Hex.
  - apply existsb_true in Hex. by split_and!; [done|done|done|left].
  - apply existsb_false in Hex. split_and!.
    + intros i j k l [Hi|[Hi Ei]]%lookup_app_Some [Hj|[Hj Ej]]%lookup_app_Some Hne; [by eapply Hun| | |].
      * apply list_lookup_singleton_Some in Ej as [Ej <-]. apply list_elem_of_lookup_2 in Hi.
        destruct (path_starts_with k r) eqn:Hk; [|done].
        destruct (cmp_path_below _ _ Hk) as [Hrk|Hgt].
        -- rewrite Forall_forall in Hex. by rewrite Hex in Hrk.
        -- rewrite Forall_forall in Hle. by destruct (Hle _ Hi).
      * apply list_lookup_singleton_Some in Ei as [Ei <-]. apply list_elem_of_lookup_2 in Hj.
        rewrite Forall_forall in Hex. by apply Hex.
      * apply list_lookup_singleton_Some in Ei as [Ei _], Ej as [Ej _]. lia.
    + by apply prefix_app_r.
    + exists r. split; [apply elem_of_app; right; by left|apply path_starts_with_refl].
    + intros k [|Hk%list_elem_of_singleton]%elem_of_app; auto.
Qed.

Lemma dedup_spec sorted :
  StronglySorted (not_after cmp_path) sorted →
  unrelated (dedup_roots sorted) ∧ ∀ r, r ∈ sorted → ∃ k, k ∈ dedup_roots sorted ∧ path_starts_with r k = true.
Proof.
  unfold dedup_roots. intros Hs.
  assert (Hgen : ∀ l kept, StronglySorted (not_after cmp_path) l →
    (∀ k r, k ∈ kept → r ∈ l → not_after cmp_path k r) → unrelated kept →
    unrelated (foldl keep_root kept l) ∧ kept `prefix_of` foldl keep_root kept l ∧
    ∀ r, r ∈ l → ∃ k, k ∈ foldl keep_root kept l ∧ path_starts_with r k = true).
  { clear Hs. intros l. induction l as [|r l IH]; intros kept Hs Hle Hun; simpl.
    - split_and!; [done|done|]. by intros r ?%not_elem_of_nil.
    - apply StronglySorted_inv in Hs as [Hs Hr]. rewrite Forall_forall in Hr.
      destruct (keep_root_spec kept r) as (Hun' & Hpre & (k & Hk & Hbelow) & Hfrom); [|done|].
      { apply Forall_forall. intros k Hk. apply Hle; [done|by left]. }
      destruct (IH (keep_root kept r)) as (H1 & H2 & H3); [done| |done|].
      { intros k' r' [Hk'| ->]%Hfrom Hr'; [apply Hle; [done|by right]|by apply Hr]. }
      split_and!; [done|by etrans|]. intros r' [->|Hr']%elem_of_cons; [|by apply H3].
      exists k. split; [|done]. destruct H2 as [tl ->]. apply elem_of_app. by left. }
  destruct (Hgen sorted []) as (H1 & _ & H3); [done|by intros ? ? ?%not_elem_of_nil|by intros ? ? ? ? ?|done].
Qed.

(** ** Entries walked *)

(** [walkdir] yields what lies in a directory right after it, deeper, and
    with paths below it. *)
Definition well_nested (items : list walk_item) : Prop :=
  ∀ l1 d l2 e l3, items = l1 ++ Entry d :: l2 ++ Entry e :: l3 →
    Forall (λ i, depth d < item_depth i) (l2 ++ [Entry e]) →
    path_starts_with (entry_path e) (entry_path d) = true.

Lemma well_nested_tail i items : well_nested (i :: items) → well_nested items.
Proof. intros H l1 d l2 e l3 -> Hd. by apply (H (i :: l1) d l2 e l3). Qed.

Section Walked.
Context `{ST : StdText, OK : OtherKinds}.
Context (config : ScanConfig) (excluded : list path) (idx : nat).

(** While a directory is skipped, what is left out is excluded. *)
Definition shadowed (skipping : option N) (items : list walk_item) : Prop :=
  ∀ d l2 e l3, skipping = Some d → items = l2 ++ Entry e :: l3 →
    Forall (λ i, d < item_depth i) (l2 ++ [Entry e]) → is_excluded excluded (entry_path e) = true.

Lemma excluded_below p q : path_starts_with p q = true → is_excluded excluded q = true → is_excluded excluded p = true.
Proof.
  unfold is_excluded. rewrite !existsb_true. intros Hp (x & Hx & Hq). exists x. split; [done|].
  by eapply path_starts_with_trans.
Qed.

Lemma walk_items_complete skipping items e a :
  well_nested items → shadowed skipping items → Entry e ∈ items → is_excluded excluded (entry_path e) = false →
  a ∈ (visit_entry config excluded idx e).1 → a ∈ walk_items config excluded idx skipping items.
Proof.
  intros Hn Hs Hin He Ha. revert skipping Hs. induction items as [|i items IH]; intros skipping Hs; [by apply not_elem_of_nil in Hin|].
  rewrite walk_items_cons. destruct (match skipping with Some d => d <? item_depth i | None => false end) eqn:Hskip.
  - destruct skipping as [d|]; [|done]. apply N.ltb_lt in Hskip.
    apply elem_of_cons in Hin as [<-|Hin].
    + rewrite (Hs d [] e items) in He; [done..|]. by repeat constructor.
    + apply IH; [by eapply well_nested_tail|done|]. intros d' l2 e' l3 [= <-] -> Hd.
      apply (Hs d (i :: l2) e' l3); [done..|]. by constructor.
  - destruct i as [e1|].
    2:{ apply elem_of_cons in Hin as [|Hin]; [done|]. right. apply IH; [by eapply well_nested_tail|done|].
        by intros ? ? ? ? [=]. }
    destruct (visit_entry config excluded idx e1) as [acts sk] eqn:Hv. simpl. apply elem_of_app.
    apply elem_of_cons in Hin as [[= <-]|Hin]; [left; by rewrite Hv in Ha|right].
    apply IH; [by eapply well_nested_tail|done|]. intros d l2 e' l3 Hd -> Hdeep.
    destruct sk; [|done]. injection Hd as <-. revert Hv. unfold visit_entry.
    destruct (is_excluded excluded (entry_path e1)) eqn:Hx; [|by intros [=]]. intros _.
    apply (excluded_below _ (entry_path e1)); [|done]. by apply (Hn [] e1 l2 e' l3).
Qed.

Lemma walk_items_sound skipping items a :
  a ∈ walk_items config excluded idx skipping items →
  (∃ e, Entry e ∈ items ∧ a ∈ (visit_entry config excluded idx e).1) ∨ (∃ i, a = Send (IssueMsg i)).
Proof.
  revert skipping. induction items as [|i items IH]; intros skipping; [by intros ?%not_elem_of_nil|].
  rewrite walk_items_cons. assert (Hrec : ∀ sk, a ∈ walk_items config excluded idx sk items →
    (∃ e, Entry e ∈ i :: items ∧ a ∈ (visit_entry config excluded idx e).1) ∨ (∃ i, a = Send (IssueMsg i))).
  { intros sk [(e & ? & ?)|]%IH; [left; exists e; split; [by right|done]|by right]. }
  destruct (match skipping with Some d => _ | None => _ end); [by apply Hrec|].
  destruct i as [e|d p l io t].
  - intros [Ha|Ha]%elem_of_app; [|by eapply Hrec]. left. exists e. split; [by left|done].
  - intros [->|Ha]%elem_of_cons; [right; by eexists|by eapply Hrec].
Qed.
End Walked.

End Aggregate.

(** ** Properties *)
Module AggregateProps.
Import Config Scanner Aggregate.

Lemma elem_of_when b w x : x ∈ when b w ↔ b = true ∧ x = w.
Proof. destruct b; simpl; [rewrite list_elem_of_singleton|rewrite elem_of_nil]; naive_solver. Qed.

Lemma vlen_pos {A} (l : list A) : 0 < vlen l ↔ l ≠ [].
Proof. unfold vlen. destruct l; simpl; [|split; [done|]]; split || intros _; done || lia. Qed.

(** C31: the report refines what the scan observed. For any sequence of
    messages, every counter of the report is exact (per skip reason too);
    findings, skips and issues are listed in sorted order, the first ones up
    to the recording limits and no others, with the number left out; and the
    report is complete exactly when the scan was not stopped and no issue was
    observed. The status is that of the reason the scan was stopped for, and
    the warnings say that reason, that files were abandoned, that there were
    issues, that entries were left out of the lists, that there was no detector,
    that a database was unsigned and that symbolic links were followed, each
    exactly when it is so. *)
Theorem report_refines_observations c n_detectors databases reason abandoned ms :
  let t := observed ms in
  let r := finish c n_detectors databases reason abandoned (foldl handle (new_agg c) ms) in
  let max := N.to_nat (max_recorded_entries (limits c)) in
  (Report.findings r ≡ₚ take (N.to_nat (max_recorded_findings (limits c))) (all_findings t) ∧
    Report.skipped r ≡ₚ take max (all_skips t) ∧ Report.issues r ≡ₚ take max (all_issues t)) ∧
  (Sorted (not_after cmp_finding) (Report.findings r) ∧ Sorted (not_after cmp_skipped) (Report.skipped r) ∧
    Sorted (not_after cmp_issue) (Report.issues r)) ∧
  (let s := Report.stats r in
    Report.directories_visited s = dirs t ∧ Report.files_scanned s = files t ∧ Report.bytes_scanned s = octets t ∧
    Report.archive_members_scanned s = members t ∧ Report.findings_count s = vlen (all_findings t) ∧
    Report.entries_skipped s = vlen (all_skips t) ∧ Report.issues_count s = vlen (all_issues t) ∧
    ∀ reason, default 0 (Report.skipped_by_reason s !! reason) =
      vlen (base.filter (λ e, Report.skip_reason e = reason) (all_skips t))) ∧
  (Report.findings_omitted (Report.truncated r) = vlen (all_findings t) - max_recorded_findings (limits c) ∧
    Report.skipped_omitted (Report.truncated r) = vlen (all_skips t) - max_recorded_entries (limits c) ∧
    Report.issues_omitted (Report.truncated r) = vlen (all_issues t) - max_recorded_entries (limits c)) ∧
  (Report.is_complete r = true ↔ reason = None ∧ all_issues t = []) ∧
  (Report.status r = match reason with
                     | None => Report.Completed
                     | Some SCancelled => Report.Cancelled
                     | Some ScanTimeLimit | Some TooManyStalls => Report.TimeLimitReached
                     end ∧
   ∀ w, w ∈ Report.warnings r ↔
     (n_detectors = 0%nat ∧ w = no_detectors_warning) ∨
     (unsigned databases ≠ [] ∧ w = unsigned_warning (unsigned databases)) ∨
     (∃ why, reason = Some why ∧ w = stop_warning c why) ∨
     (0 < abandoned ∧ w = abandoned_warning abandoned) ∨
     (all_issues t ≠ [] ∧ w = incomplete_warning (vlen (all_issues t))) ∨
     (Report.any (Report.truncated r) = true ∧ w = truncated_warning) ∨
     (symlink_policy c = Follow ∧ w = followed_warning)).
Proof.
  intros t r max. pose proof (tallied_observed c ms) as [He Hm [Hf Hfo] [Hs Hso] [Hi Hio] Hc Hr].
  fold t in Hf, Hfo, Hs, Hso, Hi, Hio, Hc, Hr. destruct Hc as (? & ? & ? & ? & ? & ? & Hin).
  rewrite He in Hs, Hi, Hso, Hio. rewrite Hm in Hf, Hfo.
  split; [|split; [|split; [|split; [|split]]]].
  - unfold r, max; simpl. by split_and!; rewrite sort_by_perm, ?Hf, ?Hs, ?Hi.
  - split_and!; apply sort_by_sorted.
    + apply cmp_finding_opp.
    + apply cmp_skipped_opp.
    + apply cmp_issue_opp.
  - unfold r; simpl. by split_and!.
  - unfold r; simpl. by split_and!.
  - unfold r, Report.is_complete; simpl. rewrite <-Hin, andb_true_iff, bool_decide_eq_true, N.eqb_eq.
    assert (vlen (all_issues t) = 0 ↔ all_issues t = []) as ->.
    { unfold vlen. destruct (all_issues t); simpl; split; intros; done || lia. }
    destruct reason as [[]|]; simpl; naive_solver.
  - unfold r; simpl. split; [by destruct reason as [[]|]|]. intros w. unfold finish_warnings. rewrite <-Hin.
    rewrite !elem_of_app, !elem_of_when, !N.ltb_lt, vlen_pos, negb_true_iff, bool_decide_eq_false, !bool_decide_eq_true.
    assert (w ∈ match reason with Some why => [stop_warning c why] | None => [] end ↔
      ∃ why, reason = Some why ∧ w = stop_warning c why) as ->; [|tauto].
    destruct reason; [rewrite list_elem_of_singleton|rewrite elem_of_nil]; naive_solver.
Qed.

(** Every root given on the command line is looked into exactly once: it
    lies at or below one of the roots that are walked, or an issue reports
    why it could not be resolved; and no walked root lies at or below
    another. *)
Theorem roots_covered_once `{ST : StdText, OK : OtherKinds} (canonicalize absolute : path → result IoError path) c :
  let t := resolve_targets canonicalize absolute c in
  (∀ r, r ∈ roots c →
    match canonicalize r with
    | Ok p => ∃ k, k ∈ target_roots t ∧ path_starts_with p k = true
    | Err e => io_issue (Some r) e ∈ target_issues t
    end) ∧
  ∀ i j k l, target_roots t !! i = Some k → target_roots t !! j = Some l → i ≠ j → path_starts_with k l = false.
Proof.
  intros t. set (resolved := omap (λ r, match canonicalize r with Ok p => Some p | Err _ => None end) (roots c)).
  pose proof (cmp_list_laws _ cmp_component_laws) as Hlaws.
  assert (Hopp : ∀ a b, cmp_path b a = CompOpp (cmp_path a b)) by (intros; apply Hlaws).
  assert (Htrans : Transitive (not_after cmp_path)).
  { intros a b d. exact (not_after_trans _ Hlaws (components a) (components b) (components d)). }
  destruct (dedup_spec (sort_by cmp_path resolved)) as [Hun Hcov].
  { apply Sorted_StronglySorted; [done|]. by apply sort_by_sorted. }
  split; [|exact Hun]. intros r Hr. destruct (canonicalize r) as [p|e] eqn:Hcan.
  - apply Hcov. rewrite sort_by_perm. apply list_elem_of_omap. exists r. by rewrite Hcan.
  - apply list_elem_of_omap. exists r. by rewrite Hcan.
Qed.

Section Walk.
Context `{ST : StdText, OK : OtherKinds}.

(** Over the entries [walkdir] yields for a root, the walk queues every
    regular file that is not excluded, under the root's index, and nothing
    else; and every entry that is not excluded gets the messages its type
    calls for, although excluded directories are not descended into. *)
Theorem walk_queues_exactly (config : ScanConfig) (excluded : list path) idx items
    (Hn : well_nested items) :
  (∀ i p, Enqueue i p ∈ walk_items config excluded idx None items ↔
    i = idx ∧ ∃ e, Entry e ∈ items ∧ entry_path e = p ∧ file_type e = Fsio.Regular ∧ is_excluded excluded p = false) ∧
  (∀ e a, Entry e ∈ items → is_excluded excluded (entry_path e) = false →
    a ∈ (visit_entry config excluded idx e).1 → a ∈ walk_items config excluded idx None items).
Proof.
  assert (Hc : ∀ e a, Entry e ∈ items → is_excluded excluded (entry_path e) = false →
    a ∈ (visit_entry config excluded idx e).1 → a ∈ walk_items config excluded idx None items).
  { intros e a Hin Hx Ha. eapply walk_items_complete; [done| |done..]. by intros ? ? ? ? [=]. }
  split; [|done]. intros i p. split.
  - intros [(e & Hin & Ha)|[? [=]]]%walk_items_sound. unfold visit_entry in Ha.
    destruct (is_excluded excluded (entry_path e)) eqn:Hx; [by apply list_elem_of_singleton in Ha|]. simpl in Ha.
    destruct (file_type e) eqn:Hty.
    + apply list_elem_of_singleton in Ha as [= -> ->]. split; [done|]. by exists e.
    + destruct (_ <? _); set_solver.
    + by apply list_elem_of_singleton in Ha.
    + by apply list_elem_of_singleton in Ha.
  - intros [-> (e & Hin & <- & Hty & Hx)]. apply (Hc e); [done..|]. unfold visit_entry. rewrite Hx, Hty. by left.
Qed.
End Walk.

(** ** Instances *)

Definition sample_walk : list walk_item :=
  [Entry (mkEntry "/r" 0 Fsio.Directory); Entry (mkEntry "/r/skip" 1 Fsio.Directory);
   Entry (mkEntry "/r/skip/x" 2 Fsio.Regular); Entry (mkEntry "/r/f" 1 Fsio.Regular);
   Entry (mkEntry "/r/l" 1 Fsio.Symlink)].

Lemma sample_nested : well_nested sample_walk.
Proof.
  intros l1 d l2 e l3 Hs Hd. unfold sample_walk in Hs.
  repeat (destruct l1 as [|? l1]; simplify_eq/=; [
    repeat (destruct l2 as [|? l2]; simplify_eq/=; [try reflexivity; exfalso; decompose_Forall; done|]);
    by destruct l2|]).
  by destruct l1.
Qed.

#[local] Existing Instance toy_text.
Definition no_kinds : OtherKinds := λ _, KOther.
#[local] Existing Instance no_kinds.
Definition sample_config : ScanConfig := Config.new ["/r"%string] None.

Lemma walk_queues_exactly_witness :
  walk_items sample_config ["/r/skip"%string] 0 None sample_walk =
    [Send DirectoryMsg; Send (SkippedMsg "/r/skip" Report.Excluded); Enqueue 0 "/r/f";
     Send (SkippedMsg "/r/l" Report.SymlinkNotFollowed)] ∧
  (∀ i p, Enqueue i p ∈ walk_items sample_config ["/r/skip"%string] 0 None sample_walk ↔
    i = 0%nat ∧ ∃ e, Entry e ∈ sample_walk ∧ entry_path e = p ∧ file_type e = Fsio.Regular ∧
      is_excluded ["/r/skip"%string] p = false) ∧
  (∀ e a, Entry e ∈ sample_walk → is_excluded ["/r/skip"%string] (entry_path e) = false →
    a ∈ (visit_entry sample_config ["/r/skip"%string] 0 e).1 →
    a ∈ walk_items sample_config ["/r/skip"%string] 0 None sample_walk).
Proof.
  split; [reflexivity|]. apply (walk_queues_exactly sample_config ["/r/skip"%string] 0 sample_walk sample_nested).
Defined.

End AggregateProps.
