(* ===== verification/ScanRun.v ===== *)
(** * The threads of a scan: [Scanner::scan], [walk], [worker_main]

    The walker, the workers and the coordinator as one transition system.
    [exec] is the effect of one atomic action of one thread; a label says
    which thread acts and how the choices left open are made (the message of
    a file, a time-out, a stalled worker, a spawn that fails). The channels
    are bounded, so a send has no step while its channel is full. Not
    modelled: a failure to spawn the first threads, after which [scan]
    returns an error. *)

From S2P Require Import Prelude Utf8 Paths Core External Fsio Archive Scanner Aggregate.

Module Run.
Import Config Scanner Aggregate.

Abbreviation WorkItem := (nat * path)%type.

(** Where a worker is in [worker_main]: waiting for work; the item taken;
    counted as dequeued; [process_file] running with the slot set; its
    result there; the slot cleared; the message being sent; the exit notice
    being sent; gone. *)
Inductive worker_pc :=
  | Idle
  | Got (it : WorkItem)
  | Counted (it : WorkItem)
  | Busy (it : WorkItem)
  | Ready (it : WorkItem) (m : option Msg)
  | Cleared (it : WorkItem) (m : option Msg)
  | Sending (it : WorkItem) (m : Msg)
  | Exiting (panicking : bool)
  | Gone.

(** A worker thread, its [Slot] (the file and the abandoned flag) and the
    coordinator's [live] flag of its handle. *)
Record thread := mkThread { pc : worker_pc; slot : option path; flagged : bool; live : bool }.
Definition new_thread : thread := mkThread Idle None false true.
Definition set_pc (p : worker_pc) (w : thread) : thread := mkThread p (slot w) (flagged w) (live w).
Definition set_slot (s : option path) (p : worker_pc) (w : thread) : thread := mkThread p s (flagged w) (live w).
Definition set_dead (w : thread) : thread := mkThread (pc w) (slot w) (flagged w) false.
(** [WorkerHandle::abandon] *)
Definition abandon (w : thread) : thread := mkThread (pc w) (slot w) true false.

(** A message in the result channel and the thread that sent it. *)
Inductive sender := FromWalker | FromWorker (i : nat).
#[export] Instance sender_eq_dec : EqDecision sender.
Proof. solve_decision. Defined.
Inductive envelope := Plain (m : Msg) | Exited (panicking : bool).

(** The walker: between passes or inside one; after a [try_send] that
    succeeded, before it is counted; at its exit notice; gone. [performed]
    records what it did. *)
Inductive walker_pc := Walking | Counting | WalkerExiting | WalkerGone.
#[export] Instance walker_pc_eq_dec : EqDecision walker_pc.
Proof. solve_decision. Defined.
Record walker_st := mkWalker {
  wpc : walker_pc; batch : list action; todo : list (list action); performed : list action }.

(** The coordinator's loop: the test at its top; [recv_timeout]; the stop
    conditions; the watchdog at worker [i] of [n]; between its look at a
    stalled slot and [abandon]; the check for a scan with no workers left;
    the loop left. *)
Inductive coord_pc :=
  | Top | Receive | Stops | Watch (i n : nat) | Abandoning (i n : nat) (p : path) | Stalls | Ended.
Record coord_st := mkCoord {
  cpc : coord_pc; reason : option StopReason; handled : list Msg; abandoned : N;
  walker_done : bool; panicked : bool }.

(** [lost] records the items whose result a worker threw away. *)
Record sys := mkSys {
  wk : walker_st; co : coord_st; threads : list thread;
  queue : list WorkItem; chan : list (sender * envelope);
  stop : bool; enqueued : N; dequeued : N; lost : list (nat * WorkItem) }.

Inductive label :=
  | LWalker | LWorker (i : nat) | LProcess (i : nat) (m : option Msg) | LPanic (i : nat)
  | LCoord | LTimeout | LStop (r : StopReason) | LStalled | LSpawnFails.

Section System.
Context (config : ScanConfig).

Definition n_workers : N := Config.workers config.
Definition queue_capacity : N := n_workers * 16.
Definition CHANNEL_CAPACITY : N := 256.
Definition STALL_GRACE : N := 2.

(** The issue of an abandoned file, and the one for work nobody took. *)
Definition stall_issue (p : path) : Report.ScanIssue :=
  Report.Build_ScanIssue (Some (ObservedPath.from_path p)) Report.Timeout None
    (fmt "no result {}s after the {} ms per-file limit; the file was abandoned (a read may be blocked on a hung filesystem, or a detector ignored its deadline)"
       [show_N STALL_GRACE; show_N (file_timeout_ms (limits config))]) None.
Definition unscanned_issue (n : N) : Report.ScanIssue :=
  Report.Build_ScanIssue None Report.Timeout None
    (fmt "{unscanned} queued file(s) were not scanned because every worker stalled" [show_N n]) None.

(** ** The walker *)

Definition set_walker (p : walker_pc) (w : walker_st) : walker_st := mkWalker p (batch w) (todo w) (performed w).

Definition walker_step (s : sys) : option sys :=
  let w := wk s in
  let with_wk w := mkSys w (co s) (threads s) (queue s) (chan s) (stop s) (enqueued s) (dequeued s) (lost s) in
  match wpc w with
  | Walking =>
      match batch w with
      | [] =>
          if stop s then Some (with_wk (set_walker WalkerExiting w))
          else match todo w with
               | [] => Some (with_wk (set_walker WalkerExiting w))
               | b :: rest => Some (with_wk (mkWalker Walking b rest (performed w)))
               end
      | Send m :: rest =>
          if vlen (chan s) <? CHANNEL_CAPACITY then
            Some (mkSys (mkWalker Walking rest (todo w) (performed w ++ [Send m])) (co s) (threads s) (queue s)
                    (chan s ++ [(FromWalker, Plain m)]) (stop s) (enqueued s) (dequeued s) (lost s))
          else None
      | Enqueue idx p :: rest =>
          if vlen (queue s) <? queue_capacity then
            Some (mkSys (mkWalker Counting rest (todo w) (performed w ++ [Enqueue idx p])) (co s) (threads s)
                    (queue s ++ [(idx, p)]) (chan s) (stop s) (enqueued s) (dequeued s) (lost s))
          else if stop s then Some (with_wk (set_walker WalkerExiting w))
          else None
      end
  | Counting =>
      Some (mkSys (set_walker Walking w) (co s) (threads s) (queue s) (chan s) (stop s)
              (enqueued s + 1) (dequeued s) (lost s))
  | WalkerExiting =>
      if vlen (chan s) <? CHANNEL_CAPACITY then
        Some (mkSys (set_walker WalkerGone w) (co s) (threads s) (queue s)
                (chan s ++ [(FromWalker, Exited false)]) (stop s) (enqueued s) (dequeued s) (lost s))
      else None
  | WalkerGone => None
  end.

(** ** The workers *)

(** The result channel has no receiver any more. *)
Definition closed (s : sys) : bool := match cpc (co s) with Ended => true | _ => false end.

Definition worker_step (i : nat) (s : sys) : option sys :=
  w ← threads s !! i;
  let put w := <[i := w]> (threads s) in
  let move w := mkSys (wk s) (co s) (put w) (queue s) (chan s) (stop s) (enqueued s) (dequeued s) (lost s) in
  match pc w with
  | Idle =>
      match queue s with
      | it :: rest =>
          Some (mkSys (wk s) (co s) (put (set_pc (Got it) w)) rest (chan s) (stop s) (enqueued s) (dequeued s) (lost s))
      | [] => if bool_decide (wpc (wk s) = WalkerGone) then Some (move (set_pc (Exiting false) w)) else None
      end
  | Got it =>
      Some (mkSys (wk s) (co s) (put (set_pc (Counted it) w)) (queue s) (chan s) (stop s)
              (enqueued s) (dequeued s + 1) (lost s))
  | Counted it =>
      if stop s then Some (move (set_pc Idle w)) else Some (move (set_slot (Some it.2) (Busy it) w))
  | Busy _ => None
  | Ready it m => Some (move (set_slot None (Cleared it m) w))
  | Cleared it m =>
      if flagged w then
        Some (mkSys (wk s) (co s) (put (set_pc (Exiting false) w)) (queue s) (chan s) (stop s)
                (enqueued s) (dequeued s) (lost s ++ [(i, it)]))
      else match m with
           | Some m => Some (move (set_pc (Sending it m) w))
           | None => Some (move (set_pc Idle w))
           end
  | Sending it m =>
      if closed s then
        Some (mkSys (wk s) (co s) (put (set_pc (Exiting false) w)) (queue s) (chan s) (stop s)
                (enqueued s) (dequeued s) (lost s ++ [(i, it)]))
      else if vlen (chan s) <? CHANNEL_CAPACITY then
        Some (mkSys (wk s) (co s) (put (set_pc Idle w)) (queue s) (chan s ++ [(FromWorker i, Plain m)]) (stop s)
                (enqueued s) (dequeued s) (lost s))
      else None
  | Exiting p =>
      if closed s then Some (move (set_pc Gone w))
      else if vlen (chan s) <? CHANNEL_CAPACITY then
        Some (mkSys (wk s) (co s) (put (set_pc Gone w)) (queue s) (chan s ++ [(FromWorker i, Exited p)]) (stop s)
                (enqueued s) (dequeued s) (lost s))
      else None
  | Gone => None
  end.

(** [process_file] returns [m], or panics outside the detectors. *)
Definition process_step (i : nat) (m : option Msg) (s : sys) : option sys :=
  w ← threads s !! i;
  match pc w with
  | Busy it =>
      Some (mkSys (wk s) (co s) (<[i := set_pc (Ready it m) w]> (threads s)) (queue s) (chan s) (stop s)
              (enqueued s) (dequeued s) (lost s))
  | _ => None
  end.
Definition panic_step (i : nat) (s : sys) : option sys :=
  w ← threads s !! i;
  match pc w with
  | Busy it =>
      Some (mkSys (wk s) (co s) (<[i := set_pc (Exiting true) w]> (threads s)) (queue s) (chan s) (stop s)
              (enqueued s) (dequeued s) (lost s ++ [(i, it)]))
  | _ => None
  end.

(** ** The coordinator *)

Definition all_dead (s : sys) : bool := forallb (λ w, negb (live w)) (threads s).

Definition with_co (c : coord_st) (s : sys) : sys :=
  mkSys (wk s) c (threads s) (queue s) (chan s) (stop s) (enqueued s) (dequeued s) (lost s).
Definition goto (p : coord_pc) (c : coord_st) : coord_st :=
  mkCoord p (reason c) (handled c) (abandoned c) (walker_done c) (panicked c).

(** Leaving the loop: work left on the queue is not a completed scan. *)
Definition finish_loop (s : sys) : coord_st :=
  let c := co s in
  let unscanned := enqueued s - dequeued s in
  match reason c with
  | None =>
      if 0 <? unscanned then
        mkCoord Ended (Some TooManyStalls) (handled c ++ [IssueMsg (unscanned_issue unscanned)]) (abandoned c)
          (walker_done c) (panicked c)
      else goto Ended c
  | Some _ => goto Ended c
  end.

(** One message received. *)
Definition receive (snd : sender) (e : envelope) (rest : list (sender * envelope)) (s : sys) : sys :=
  let c := co s in
  let with_threads c ts := mkSys (wk s) c ts (queue s) rest (stop s) (enqueued s) (dequeued s) (lost s) in
  match e with
  | Plain m =>
      with_threads (mkCoord Stops (reason c) (handled c ++ [m]) (abandoned c) (walker_done c) (panicked c)) (threads s)
  | Exited p =>
      match snd with
      | FromWalker =>
          with_threads (mkCoord Stops (reason c) (handled c) (abandoned c) true (panicked c || p)) (threads s)
      | FromWorker i =>
          with_threads (mkCoord Stops (reason c) (handled c) (abandoned c) (walker_done c) (panicked c || p))
            (match threads s !! i with Some w => <[i := set_dead w]> (threads s) | None => threads s end)
      end
  end.

(** [abandon], the issue, and the replacement. *)
Definition abandon_step (spawned : bool) (i n : nat) (p : path) (s : sys) : option sys :=
  w ← threads s !! i;
  let c := co s in
  let ts := <[i := abandon w]> (threads s) in
  let ts := if (abandoned c + 1 <=? n_workers) && bool_decide (reason c = None) && spawned
            then ts ++ [new_thread] else ts in
  Some (mkSys (wk s)
          (mkCoord (Watch (S i) n) (reason c) (handled c ++ [IssueMsg (stall_issue p)]) (abandoned c + 1)
             (walker_done c) (panicked c))
          ts (queue s) (chan s) (stop s) (enqueued s) (dequeued s) (lost s)).

(** Stopping the scan with a reason. *)
Definition stop_scan (p : coord_pc) (r : StopReason) (s : sys) : sys :=
  let c := co s in
  mkSys (wk s) (mkCoord p (Some r) (handled c) (abandoned c) (walker_done c) (panicked c)) (threads s) (queue s)
    (chan s) true (enqueued s) (dequeued s) (lost s).

Definition coord_step (s : sys) : option sys :=
  let c := co s in
  match cpc c with
  | Top =>
      if walker_done c && all_dead s then Some (with_co (finish_loop s) s) else Some (with_co (goto Receive c) s)
  | Receive =>
      match chan s with
      | (snd, e) :: rest => Some (receive snd e rest s)
      | [] => None
      end
  | Stops => Some (with_co (goto (Watch 0 (length (threads s))) c) s)
  | Watch i n =>
      if bool_decide (i < n)%nat then Some (with_co (goto (Watch (S i) n) c) s)
      else Some (with_co (goto Stalls c) s)
  | Abandoning i n p => abandon_step true i n p s
  | Stalls =>
      if bool_decide (reason c = None) && all_dead s && negb (walker_done c)
      then Some (stop_scan Top TooManyStalls s) else Some (with_co (goto Top c) s)
  | Ended => None
  end.

(** One step of the scan. *)
Definition exec (l : label) (s : sys) : option sys :=
  match l with
  | LWalker => walker_step s
  | LWorker i => worker_step i s
  | LProcess i m => process_step i m s
  | LPanic i => panic_step i s
  | LCoord => coord_step s
  | LTimeout =>
      match cpc (co s), chan s with
      | Receive, [] => Some (with_co (goto Stops (co s)) s)
      | _, _ => None
      end
  | LStop r =>
      match cpc (co s), reason (co s), r with
      | Stops, None, (SCancelled | ScanTimeLimit) => Some (stop_scan (Watch 0 (length (threads s))) r s)
      | _, _, _ => None
      end
  | LStalled =>
      match cpc (co s) with
      | Watch i n =>
          w ← threads s !! i;
          match slot w with
          | Some p => if bool_decide (i < n)%nat && live w then Some (with_co (goto (Abandoning i n p) (co s)) s) else None
          | None => None
          end
      | _ => None
      end
  | LSpawnFails =>
      match cpc (co s) with
      | Abandoning i n p => abandon_step false i n p s
      | _ => None
      end
  end.

(** The scan as it starts: the issues of the roots are handled, the threads
    are running, nothing is queued; it is already stopped when the caller's
    token was cancelled before. *)
Definition initial (issues : list Report.ScanIssue) (script : list (list action)) (cancelled : bool) : sys :=
  mkSys (mkWalker Walking [] script [])
    (mkCoord Top (if cancelled then Some SCancelled else None) (IssueMsg <$> issues) 0 false false)
    (repeat new_thread (N.to_nat n_workers)) [] [] cancelled 0 0 [].

(** What the scan returns when the coordinator has left its loop. *)
Definition scan_result (n_detectors : nat) (databases : list (option (string * option string))) (s : sys)
    : option Report.ScanReport :=
  match cpc (co s) with
  | Ended =>
      if panicked (co s) then None
      else Some (finish config n_detectors databases (reason (co s)) (abandoned (co s))
                   (foldl handle (new_agg config) (handled (co s))))
  | _ => None
  end.

(** ** Steps *)

Section Steps.
(** The messages [process_file] can give for an item; [None] only when it saw
    the scan stopped. *)
Context (produces : WorkItem → option Msg → Prop).

Definition allowed (l : label) (s : sys) : Prop :=
  match l with
  | LProcess i m => ∀ w it, threads s !! i = Some w → pc w = Busy it → produces it m ∧ (m = None → stop s = true)
  | _ => True
  end.

Inductive step (s s' : sys) : Prop :=
  | step_exec l : allowed l s → exec l s = Some s' → step s s'.

(** What a step of worker [i] does to its thread, the queue, the channel, the
    counter and the lost items. *)
Inductive worker_effect (s : sys) (i : nat) (w : thread) :
    thread → list WorkItem → list (sender * envelope) → N → list (nat * WorkItem) → Prop :=
  | we_take it rest : pc w = Idle → queue s = it :: rest →
      worker_effect s i w (set_pc (Got it) w) rest (chan s) (dequeued s) (lost s)
  | we_quit : pc w = Idle → queue s = [] →
      worker_effect s i w (set_pc (Exiting false) w) [] (chan s) (dequeued s) (lost s)
  | we_count it : pc w = Got it →
      worker_effect s i w (set_pc (Counted it) w) (queue s) (chan s) (dequeued s + 1) (lost s)
  | we_drop it : pc w = Counted it → stop s = true →
      worker_effect s i w (set_pc Idle w) (queue s) (chan s) (dequeued s) (lost s)
  | we_start it : pc w = Counted it →
      worker_effect s i w (set_slot (Some it.2) (Busy it) w) (queue s) (chan s) (dequeued s) (lost s)
  | we_process it m : pc w = Busy it → produces it m → (m = None → stop s = true) →
      worker_effect s i w (set_pc (Ready it m) w) (queue s) (chan s) (dequeued s) (lost s)
  | we_panic it : pc w = Busy it →
      worker_effect s i w (set_pc (Exiting true) w) (queue s) (chan s) (dequeued s) (lost s ++ [(i, it)])
  | we_clear it m : pc w = Ready it m →
      worker_effect s i w (set_slot None (Cleared it m) w) (queue s) (chan s) (dequeued s) (lost s)
  | we_leave it m : pc w = Cleared it m → flagged w = true →
      worker_effect s i w (set_pc (Exiting false) w) (queue s) (chan s) (dequeued s) (lost s ++ [(i, it)])
  | we_pass it m : pc w = Cleared it (Some m) →
      worker_effect s i w (set_pc (Sending it m) w) (queue s) (chan s) (dequeued s) (lost s)
  | we_none it : pc w = Cleared it None →
      worker_effect s i w (set_pc Idle w) (queue s) (chan s) (dequeued s) (lost s)
  | we_closed it m : pc w = Sending it m → cpc (co s) = Ended →
      worker_effect s i w (set_pc (Exiting false) w) (queue s) (chan s) (dequeued s) (lost s ++ [(i, it)])
  | we_send it m : pc w = Sending it m →
      worker_effect s i w (set_pc Idle w) (queue s) (chan s ++ [(FromWorker i, Plain m)]) (dequeued s) (lost s)
  | we_vanish p : pc w = Exiting p → cpc (co s) = Ended →
      worker_effect s i w (set_pc Gone w) (queue s) (chan s) (dequeued s) (lost s)
  | we_exit p : pc w = Exiting p →
      worker_effect s i w (set_pc Gone w) (queue s) (chan s ++ [(FromWorker i, Exited p)]) (dequeued s) (lost s).

(** What a step of the walker does to its state, the queue and the channel. *)
Inductive walker_effect (s : sys) : walker_st → list WorkItem → list (sender * envelope) → N → Prop :=
  | ke_stop : stop s = true → wpc (wk s) = Walking →
      walker_effect s (set_walker WalkerExiting (wk s)) (queue s) (chan s) (enqueued s)
  | ke_end : batch (wk s) = [] → todo (wk s) = [] → wpc (wk s) = Walking →
      walker_effect s (set_walker WalkerExiting (wk s)) (queue s) (chan s) (enqueued s)
  | ke_pass b rest : batch (wk s) = [] → todo (wk s) = b :: rest → wpc (wk s) = Walking →
      walker_effect s (mkWalker Walking b rest (performed (wk s))) (queue s) (chan s) (enqueued s)
  | ke_send m rest : batch (wk s) = Send m :: rest → wpc (wk s) = Walking →
      walker_effect s (mkWalker Walking rest (todo (wk s)) (performed (wk s) ++ [Send m])) (queue s)
        (chan s ++ [(FromWalker, Plain m)]) (enqueued s)
  | ke_enqueue idx p rest : batch (wk s) = Enqueue idx p :: rest → wpc (wk s) = Walking →
      walker_effect s (mkWalker Counting rest (todo (wk s)) (performed (wk s) ++ [Enqueue idx p]))
        (queue s ++ [(idx, p)]) (chan s) (enqueued s)
  | ke_count : wpc (wk s) = Counting →
      walker_effect s (set_walker Walking (wk s)) (queue s) (chan s) (enqueued s + 1)
  | ke_exit : wpc (wk s) = WalkerExiting →
      walker_effect s (set_walker WalkerGone (wk s)) (queue s) (chan s ++ [(FromWalker, Exited false)]) (enqueued s).

(** What a step of the coordinator does. *)
Inductive coord_effect (s : sys) : sys → Prop :=
  | ce_goto p : cpc (co s) ≠ Ended → p ≠ Ended → coord_effect s (with_co (goto p (co s)) s)
  | ce_finish : cpc (co s) ≠ Ended → walker_done (co s) = true → all_dead s = true →
      coord_effect s (with_co (finish_loop s) s)
  | ce_receive snd e rest : cpc (co s) ≠ Ended → chan s = (snd, e) :: rest → coord_effect s (receive snd e rest s)
  | ce_abandon spawned i n p s' : cpc (co s) ≠ Ended → abandon_step spawned i n p s = Some s' → coord_effect s s'
  | ce_stop p r : cpc (co s) ≠ Ended → p ≠ Ended → reason (co s) = None → coord_effect s (stop_scan p r s).

Lemma worker_step_effect i s s' :
  worker_step i s = Some s' → ∃ w w' q c d L, threads s !! i = Some w ∧ worker_effect s i w w' q c d L ∧
    s' = mkSys (wk s) (co s) (<[i := w']> (threads s)) q c (stop s) (enqueued s) d L.
Proof.
  unfold worker_step, closed. intros H. destruct (threads s !! i) as [w|] eqn:Hw; [|done]. simpl in H.
  repeat case_match; try done; simplify_eq; eexists w, _, _, _, _, _; (split; [done|]);
    (split; [|reflexivity]); eauto using worker_effect.
Qed.

Lemma walker_step_effect s s' :
  walker_step s = Some s' → wpc (wk s) ≠ WalkerGone ∧ ∃ w q c e, walker_effect s w q c e ∧
    s' = mkSys w (co s) (threads s) q c (stop s) e (dequeued s) (lost s).
Proof.
  unfold walker_step. intros H.
  repeat case_match; try done; simplify_eq; (split; [congruence|]); eexists _, _, _, _;
    (split; [|reflexivity]); eauto using walker_effect.
Qed.

Lemma coord_step_effect s s' : coord_step s = Some s' → coord_effect s s'.
Proof.
  unfold coord_step. intros H.
  repeat case_match; try done; simplify_eq; reflect_bools;
    try (apply ce_goto; congruence); try (eapply ce_abandon; [congruence|done]);
    try (apply ce_receive; congruence); try (apply ce_finish; [congruence|done..]).
  apply ce_stop; [congruence|done|done].
Qed.

(** Every step is a step of one thread. *)
Lemma step_effect s s' : step s s' →
  (wpc (wk s) ≠ WalkerGone ∧ ∃ w q c e, walker_effect s w q c e ∧
    s' = mkSys w (co s) (threads s) q c (stop s) e (dequeued s) (lost s)) ∨
  (∃ i w w' q c d L, threads s !! i = Some w ∧ worker_effect s i w w' q c d L ∧
    s' = mkSys (wk s) (co s) (<[i := w']> (threads s)) q c (stop s) (enqueued s) d L) ∨
  coord_effect s s'.
Proof.
  intros [l Ha He]. destruct l as [|i|i m|i| | |r| |]; simpl in He.
  - left. by apply walker_step_effect.
  - right; left. exists i. by apply worker_step_effect.
  - right; left. unfold process_step in He. destruct (threads s !! i) as [w|] eqn:Hw; [|done]. simpl in He.
    destruct (pc w) as [| | |it| | | | |] eqn:Hpc; try done. injection He as <-.
    destruct (Ha w it) as [Hp Hn]; [done..|].
    eexists i, w, _, _, _, _, _. split; [done|]. split; [by eapply we_process|done].
  - right; left. unfold panic_step in He. destruct (threads s !! i) as [w|] eqn:Hw; [|done]. simpl in He.
    destruct (pc w) as [| | |it| | | | |] eqn:Hpc; try done. injection He as <-.
    eexists i, w, _, _, _, _, _. split; [done|]. split; [by eapply we_panic|done].
  - right; right. by apply coord_step_effect.
  - right; right. destruct (cpc (co s)) eqn:Hc; try done. destruct (chan s); [|done]. injection He as <-.
    by apply ce_goto; [rewrite Hc|].
  - right; right. destruct (cpc (co s)) eqn:Hc; try done. destruct (reason (co s)) eqn:Hr; [done|].
    destruct r; try done; injection He as <-; apply ce_stop; [by rewrite Hc|done|done|by rewrite Hc|done|done].
  - right; right. destruct (cpc (co s)) as [| | |i n| | |] eqn:Hc; try done.
    destruct (threads s !! i); [|done]. simpl in He. destruct (slot t); [|done].
    destruct (_ && _); [|done]. injection He as <-. by apply ce_goto; [rewrite Hc|].
  - right; right. destruct (cpc (co s)) eqn:Hc; try done. eapply ce_abandon; [by rewrite Hc|done].
Qed.

(** ** The accounting invariant *)

(** The item a worker has in hand. *)
Definition holds (p : worker_pc) (it : WorkItem) : Prop :=
  match p with
  | Got j | Counted j | Busy j | Ready j _ | Cleared j _ | Sending j _ => j = it
  | Idle | Exiting _ | Gone => False
  end.
Definition got (w : thread) : nat := match pc w with Got _ => 1 | _ => 0 end.
Definition taken (s : sys) : nat := sum_list_with got (threads s).

(** Where a queued item can be: queued, in a worker's hands, answered by a
    message that is handled or on its way, thrown away, or dropped because
    the scan was stopped. *)
Definition placed (s : sys) (it : WorkItem) : Prop :=
  it ∈ queue s ∨
  (∃ i w, threads s !! i = Some w ∧ holds (pc w) it) ∨
  (∃ m, produces it (Some m) ∧ (m ∈ handled (co s) ∨ ∃ i, (FromWorker i, Plain m) ∈ chan s)) ∨
  (∃ i, (i, it) ∈ lost s) ∨
  stop s = true.

Definition gone (s : sys) (x : sender) : Prop :=
  match x with
  | FromWalker => wpc (wk s) = WalkerGone
  | FromWorker i => ∃ w, threads s !! i = Some w ∧ pc w = Gone
  end.

(** Messages arrive in order: nothing follows a thread's exit notice. *)
Definition fifo (c : list (sender * envelope)) (G : sender → Prop) : Prop :=
  ∀ l1 x p l2, c = l1 ++ (x, Exited p) :: l2 → (∀ e, (x, e) ∉ l2) ∧ G x.

Lemma fifo_mono c (G G' : sender → Prop) : fifo c G → (∀ x, G x → G' x) → fifo c G'.
Proof. intros H HG l1 x p l2 Hc. destruct (H _ _ _ _ Hc). auto. Qed.

Lemma fifo_tail y c G : fifo (y :: c) G → fifo c G.
Proof. intros H l1 x p l2 ->. by apply (H (y :: l1) x p l2). Qed.

Lemma fifo_snoc c (G G' : sender → Prop) y e :
  fifo c G → (∀ x, G x → G' x) → ¬ G y → (∀ p, e = Exited p → G' y) → fifo (c ++ [(y, e)]) G'.
Proof.
  intros H HG Hy He l1 x p l2 Hc. destruct l2 as [|z l2 _] using rev_ind.
  - apply app_inj_tail in Hc as [-> [= -> ->]]. split; [by intros ? ?%not_elem_of_nil|by eapply He].
  - rewrite app_comm_cons, app_assoc in Hc. apply app_inj_tail in Hc as [-> <-].
    destruct (H l1 x p l2 eq_refl) as [Hno Hg]. split; [|by apply HG].
    intros e' [|Hin%list_elem_of_singleton]%elem_of_app; [by eapply Hno|].
    injection Hin as -> ->. done.
Qed.

Lemma sum_insert (f : thread → nat) i w w' l :
  l !! i = Some w → (sum_list_with f (<[i := w']> l) + f w = sum_list_with f l + f w')%nat.
Proof.
  revert i. induction l as [|a l IH]; intros [|i]; simpl; [done..| |].
  - intros [= ->]. lia.
  - intros Hi%IH. lia.
Qed.

Definition answer_ok (s : sys) (p : worker_pc) : Prop :=
  match p with
  | Ready it m | Cleared it m => produces it m ∧ (m = None → stop s = true)
  | Sending it m => produces it (Some m)
  | _ => True
  end.

(** Why a worker threw an item away. *)
Definition excused (s : sys) (i : nat) : Prop :=
  ∃ w, threads s !! i = Some w ∧
    (flagged w = true ∨ pc w = Exiting true ∨ (FromWorker i, Exited true) ∈ chan s ∨ panicked (co s) = true).

Section Accounting.
Context (script : list (list action)).

Record inv (s : sys) : Prop := {
  i_stop : stop s = true → reason (co s) ≠ None;
  i_script : concat script = performed (wk s) ++ batch (wk s) ++ concat (todo (wk s));
  i_walked : wpc (wk s) = WalkerExiting ∨ wpc (wk s) = WalkerGone →
    stop s = true ∨ (batch (wk s) = [] ∧ todo (wk s) = []);
  i_answers : ∀ i w, threads s !! i = Some w → answer_ok s (pc w);
  i_fifo : fifo (chan s) (gone s);
  i_dead : ∀ i w, threads s !! i = Some w → live w = false →
    flagged w = true ∨ (pc w = Gone ∧ ∀ e, (FromWorker i, e) ∉ chan s);
  i_walker_done : walker_done (co s) = true → wpc (wk s) = WalkerGone ∧ ∀ e, (FromWalker, e) ∉ chan s;
  i_count : enqueued s + (if decide (wpc (wk s) = Counting) then 1 else 0) =
    dequeued s + vlen (queue s) + N.of_nat (taken s);
  i_ended : cpc (co s) = Ended → walker_done (co s) = true ∧ all_dead s = true ∧
    (reason (co s) = None → queue s = [] ∧ taken s = 0%nat);
  i_performed : ∀ a, a ∈ performed (wk s) →
    match a with
    | Send m => m ∈ handled (co s) ∨ (FromWalker, Plain m) ∈ chan s
    | Enqueue i p => placed s (i, p)
    end;
  i_lost : ∀ i it, (i, it) ∈ lost s → excused s i }.

Lemma inv_initial issues cancelled : inv (initial issues script cancelled).
Proof.
  assert (Hrep : ∀ i w, repeat new_thread (N.to_nat n_workers) !! i = Some w → w = new_thread).
  { intros i w Hi. apply list_elem_of_lookup_2, list_elem_of_In, repeat_spec in Hi. done. }
  split; simpl; try done.
  - by destruct cancelled.
  - by intros [|].
  - intros i w Hi%Hrep. by subst.
  - intros l1 y pn l2 Hc. by destruct l1.
  - intros i w Hi%Hrep. by subst.
  - unfold taken. simpl. clear Hrep. induction (N.to_nat n_workers) as [|k IH]; simpl; [done|]. exact IH.
  - by intros a ?%not_elem_of_nil.
  - by intros i it ?%not_elem_of_nil.
Qed.

(** ** The walker's steps *)

Lemma inv_walker s w q c e :
  inv s → wpc (wk s) ≠ WalkerGone → walker_effect s w q c e →
  inv (mkSys w (co s) (threads s) q c (stop s) e (dequeued s) (lost s)).
Proof.
  intros [Hstop Hscr Hwd Hans Hfifo Hdead Hdone Hcnt Hend Hperf Hlost] Hg He.
  assert (Hnd : walker_done (co s) = false).
  { apply not_true_iff_false. intros E. by destruct (Hdone E). }
  assert (Hne : cpc (co s) ≠ Ended) by (intros E; destruct (Hend E); congruence).
  assert (Hwq : ∀ x, x ∈ queue s → x ∈ q).
  { destruct He; intros x Hx; try done. apply elem_of_app. by left. }
  assert (Hwc : ∀ x, x ∈ chan s → x ∈ c).
  { destruct He; intros x Hx; try done; apply elem_of_app; by left. }
  assert (Hcw : ∀ i e', (FromWorker i, e') ∈ c → (FromWorker i, e') ∈ chan s).
  { destruct He; intros i e'; try done; by intros [|[=]%list_elem_of_singleton]%elem_of_app. }
  set (s' := mkSys _ _ _ _ _ _ _ _ _).
  assert (Hpl : ∀ it, placed s it → placed s' it).
  { intros it [Hq|[Hh|[(m & Hp & [Hm|(i & Hm)])|[Hl|Hs]]]].
    - left. by apply Hwq.
    - by right; left.
    - right; right; left. exists m. auto.
    - right; right; left. exists m. split; [done|]. right. exists i. by apply Hwc.
    - by right; right; right; left.
    - by right; right; right; right. }
  split; simpl; try done.
  - destruct He; simpl; try done; match goal with
    | Hb : batch _ = _, Ht : todo _ = _ |- _ => rewrite Hb, Ht in Hscr
    | Hb : batch _ = _ |- _ => rewrite Hb in Hscr
    end; rewrite Hscr; simpl; by rewrite <-?app_assoc.
  - destruct He; simpl; auto; by intros [|].
  - assert (HG : ∀ x, gone s x → gone s' x) by (intros [|i]; [done|exact id]).
    destruct He; try (by eapply fifo_mono); (eapply fifo_snoc; [done|done|exact Hg|]); naive_solver.
  - intros i w' Hi Hl. destruct (Hdead i w' Hi Hl) as [|[? Hno]]; [by left|right]. split; [done|].
    intros e' Hin%Hcw. by apply (Hno e').
  - by rewrite Hnd.
  - unfold taken in *. destruct He; simpl in *; repeat case_decide; autorewrite with warden in *; try congruence; try lia.
  - intros a Ha. assert (Hold : a ∈ performed (wk s) → match a with
      | Send m => m ∈ handled (co s) ∨ (FromWalker, Plain m) ∈ c | Enqueue i p => placed s' (i, p) end).
    { intros Hin%Hperf. destruct a; [by apply Hpl|]. destruct Hin; auto. }
    destruct He; simpl in Ha; try (by apply Hold); apply elem_of_app in Ha as [Ha| ->%list_elem_of_singleton];
      try (by apply Hold).
    + right. apply elem_of_app. right. by left.
    + left. apply elem_of_app. right. by left.
  - intros i it Hin. destruct (Hlost i it Hin) as (w' & Hi & Hor). exists w'. split; [done|].
    destruct Hor as [|[|[|]]]; auto.
Qed.

(** ** The workers' steps *)

Lemma worker_effect_thread s i w w' q c d L :
  worker_effect s i w w' q c d L → flagged w' = flagged w ∧ live w' = live w ∧ pc w ≠ Gone.
Proof. destruct 1; split_and!; try done; congruence. Qed.

Lemma inv_worker s i w w' q c d L :
  inv s → threads s !! i = Some w → worker_effect s i w w' q c d L →
  inv (mkSys (wk s) (co s) (<[i := w']> (threads s)) q c (stop s) (enqueued s) d L).
Proof.
  intros [Hstop Hscr Hwd Hans Hfifo Hdead Hdone Hcnt Hend Hperf Hlost] Hi He.
  destruct (worker_effect_thread _ _ _ _ _ _ _ _ He) as (Hfl & Hlive & Hng).
  assert (Hlen : (i < length (threads s))%nat) by by eapply lookup_lt_Some.
  assert (Hself : <[i := w']> (threads s) !! i = Some w') by by apply list_lookup_insert_eq.
  assert (Hother : ∀ j v, <[i := w']> (threads s) !! j = Some v → (j = i ∧ v = w') ∨ (j ≠ i ∧ threads s !! j = Some v)).
  { intros j v [(-> & -> & _)|[? ?]]%list_lookup_insert_Some; auto. }
  assert (Hkeep : ∀ j v, threads s !! j = Some v → j ≠ i → <[i := w']> (threads s) !! j = Some v).
  { intros j v Hj Hne. by rewrite list_lookup_insert_ne. }
  set (s' := mkSys _ _ _ _ _ _ _ _ _).
  assert (Hgone : ∀ x, gone s x → gone s' x).
  { intros [|j]; [done|]. intros (v & Hj & Hpc). exists v. split; [|done]. apply Hkeep; [done|]. congruence. }
  assert (Hwc : ∀ x, x ∈ chan s → x ∈ c).
  { destruct He; intros x Hx; try done; apply elem_of_app; by left. }
  assert (Hcw : ∀ y e, (y, e) ∈ c → (y, e) ∈ chan s ∨ y = FromWorker i).
  { destruct He; intros y e Hin; try (by left); apply elem_of_app in Hin as [|[= -> _]%list_elem_of_singleton]; auto. }
  assert (HL : ∀ x, x ∈ lost s → x ∈ L).
  { destruct He; intros x Hx; try done; apply elem_of_app; by left. }
  assert (Hended : cpc (co s) = Ended → flagged w = true).
  { intros (_ & Hall & _)%Hend. unfold all_dead in Hall. rewrite forallb_true, Forall_lookup in Hall.
    specialize (Hall i w Hi). apply negb_true_iff in Hall. by destruct (Hdead i w Hi Hall) as [|[]]. }
  assert (Hmine : ∀ it, holds (pc w) it → placed s' it).
  { pose proof (Hans i w Hi) as Hok. intros it Hh.
    assert (Hw' : holds (pc w') it → placed s' it) by (intros; right; left; by exists i, w').
    destruct He; match goal with Hpc : pc w = _ |- _ => rewrite Hpc in Hh, Hok end; simpl in Hh; subst;
      try done; try (by apply Hw').
    - by right; right; right; right.
    - right; right; right; left. exists i. apply elem_of_app. right. by left.
    - right; right; right; left. exists i. apply elem_of_app. right. by left.
    - right; right; right; right. by apply Hok.
    - right; right; right; left. exists i. apply elem_of_app. right. by left.
    - right; right; left. exists m. split; [done|]. right. exists i. apply elem_of_app. right. by left. }
  assert (Hpl : ∀ it, placed s it → placed s' it).
  { intros it [Hq|[(j & v & Hj & Hh)|[(m & Hp & [Hm|(j & Hm)])|[(j & Hl)|Hs]]]].
    - assert (it ∈ q ∨ holds (pc w') it) as [|]; [|by left|right; left; by exists i, w'].
      destruct He; simpl; try (by left); match goal with Hqs : queue s = _ |- _ => rewrite Hqs in Hq end; [|by left].
      apply elem_of_cons in Hq as [->|]; auto.
    - destruct (decide (j = i)) as [->|Hne]; [|right; left; exists j, v; split; [by apply Hkeep|done]].
      apply Hmine. congruence.
    - right; right; left. exists m. auto.
    - right; right; left. exists m. split; [done|]. right. exists j. by apply Hwc.
    - right; right; right; left. exists j. by apply HL.
    - by right; right; right; right. }
  split; simpl; try done.
  - intros j v [[-> ->]|[_ Hj]]%Hother; [|by apply (Hans j v Hj)]. pose proof (Hans i w Hi) as Hok.
    destruct He; match goal with Hpc : pc w = _ |- _ => rewrite Hpc in Hok end; simpl in *; try done.
    by destruct Hok.
  - destruct He; try (by eapply fifo_mono); (eapply fifo_snoc; [done|done| |]);
      try (intros (v & Hj & Hpc); congruence); try done.
    intros p' _. by exists (set_pc Gone w).
  - intros j v [[-> ->]|[Hne Hj]]%Hother Hl.
    + rewrite Hlive in Hl. rewrite Hfl. left. by destruct (Hdead i w Hi Hl) as [|[]].
    + destruct (Hdead j v Hj Hl) as [|[? Hno]]; [by left|]. right. split; [done|].
      intros e [|[= ->]]%Hcw; [by apply (Hno e)|done].
  - intros [Hwg Hno]%Hdone. split; [done|]. intros e [|[=]]%Hcw. by apply (Hno e).
  - pose proof (sum_insert got i w w' (threads s) Hi) as Hsum. unfold taken in *. simpl.
    rewrite Hcnt. destruct He; unfold got at 2 4 in Hsum; simpl in *;
      repeat match goal with Hx : pc w = _ |- _ => rewrite Hx in * | Hx : queue s = _ |- _ => rewrite Hx in * end;
      simpl in *; autorewrite with warden in *; lia.
  - intros HE. destruct (Hend HE) as (Hwdn & Hall & Hq). split_and!; [done| |].
    + unfold all_dead in *. simpl. rewrite forallb_true, Forall_lookup in *.
      intros j v [[-> ->]|[_ Hj]]%Hother; [rewrite Hlive; by apply (Hall i)|by apply (Hall j)].
    + intros Hr. destruct (Hq Hr) as [Hq0 Ht0].
      pose proof (sum_insert got i w w' (threads s) Hi) as Hsum. unfold taken in *. simpl.
      destruct He; unfold got at 2 4 in Hsum; simpl in *;
        repeat match goal with Hx : pc w = _ |- _ => rewrite Hx in * end; simpl in *;
        split; try congruence; try done; lia.
  - intros a Ha. specialize (Hperf a Ha). destruct a; [by apply Hpl|]. destruct Hperf; auto.
  - intros j it Hin. assert (Hold : (j, it) ∈ lost s → excused s' j).
    { intros (v & Hj & Hor)%Hlost. destruct (decide (j = i)) as [->|Hne].
      - exists w'. split; [done|]. rewrite Hi in Hj. injection Hj as <-. rewrite Hfl.
        destruct Hor as [|[Hx|[|]]]; auto.
        destruct He; try congruence.
        + left. by apply Hended.
        + right; right; left. apply elem_of_app. right. replace true with p by congruence. by left.
      - exists v. split; [by apply Hkeep|]. destruct Hor as [|[|[|]]]; auto. }
    destruct He; try (by apply Hold); apply elem_of_app in Hin as [Hin|[= -> ->]%list_elem_of_singleton];
      try (by apply Hold); eexists; (split; [exact Hself|]); simpl; auto.
Qed.

(** ** The coordinator's steps *)

(** What every step of the coordinator keeps: the threads' places, with
    handles only dying and flags only set; the channel up to its head; what
    is handled. *)
Lemma placed_coord s s' it :
  (∀ i w, threads s !! i = Some w → ∃ w', threads s' !! i = Some w' ∧ pc w' = pc w) →
  queue s' = queue s → lost s' = lost s → (stop s = true → stop s' = true) →
  (∀ m, m ∈ handled (co s) → m ∈ handled (co s')) →
  (∀ i m, (FromWorker i, Plain m) ∈ chan s → m ∈ handled (co s') ∨ (FromWorker i, Plain m) ∈ chan s') →
  placed s it → placed s' it.
Proof.
  intros Ht Hq Hl Hs Hh Hc [?|[(i & w & Hi & Hw)|[(m & Hp & [Hm|(i & Hm)])|[(i & ?)|?]]]]; unfold placed.
  - left. by rewrite Hq.
  - right; left. destruct (Ht i w Hi) as (w' & Hi' & Hpc). exists i, w'. by rewrite Hpc.
  - right; right; left. exists m. auto.
  - right; right; left. exists m. split; [done|]. destruct (Hc i m Hm); [by left|right; by exists i].
  - right; right; right; left. exists i. by rewrite Hl.
  - right; right; right; right. auto.
Qed.

(** A step that only moves the coordinator on, or stops the scan. *)
Lemma inv_coord_moves s c' st :
  inv s → cpc (co s) ≠ Ended →
  handled c' = handled (co s) → walker_done c' = walker_done (co s) → panicked c' = panicked (co s) →
  (stop s = true → st = true) → (st = true → reason c' ≠ None) →
  (cpc c' = Ended → walker_done c' = true ∧ all_dead s = true ∧ (reason c' = None → queue s = [] ∧ taken s = 0%nat)) →
  inv (mkSys (wk s) c' (threads s) (queue s) (chan s) st (enqueued s) (dequeued s) (lost s)).
Proof.
  intros [Hstop Hscr Hwd Hans Hfifo Hdead Hdone Hcnt Hend Hperf Hlost] Hne Hh Hwdn Hp Hst Hr He.
  split; simpl; try done.
  - intros Hw. destruct (Hwd Hw) as [?|?]; [left; auto|by right].
  - intros i w Hi. specialize (Hans i w Hi). destruct (pc w); simpl in *; naive_solver.
  - by rewrite Hwdn.
  - intros a Ha. specialize (Hperf a Ha). destruct a; [|by rewrite Hh].
    eapply placed_coord; [..|exact Hperf]; simpl; try done; [by eauto|by rewrite Hh|by auto].
  - intros i it Hin. destruct (Hlost i it Hin) as (w & Hi & Hor). exists w. simpl. by rewrite Hp.
Qed.

Lemma inv_finish s :
  inv s → cpc (co s) ≠ Ended → walker_done (co s) = true → all_dead s = true → inv (with_co (finish_loop s) s).
Proof.
  intros Hi Hne Hwdn Hall. pose proof Hi as [Hstop Hscr Hwd Hans Hfifo Hdead Hdone Hcnt Hend Hperf Hlost].
  unfold finish_loop. destruct (reason (co s)) as [r|] eqn:Hr.
  { apply inv_coord_moves; simpl; try done; rewrite Hr; naive_solver. }
  assert (Hns : stop s = false) by (apply not_true_iff_false; naive_solver).
  destruct (N.ltb_spec 0 (enqueued s - dequeued s)) as [Hlt|Hle].
  - (* as a step that handles one more issue *)
    split; simpl; try done.
    + intros a Ha. specialize (Hperf a Ha). destruct a.
      * eapply placed_coord; [..|exact Hperf]; simpl; try done; [by eauto| |by auto].
        intros m Hm. apply elem_of_app. by left.
      * rewrite elem_of_app. naive_solver.
  - apply inv_coord_moves; simpl; try done; [by rewrite Hns|]. intros _. split_and!; [done..|]. intros _.
    destruct (Hdone Hwdn) as [Hg _]. rewrite Hg in Hcnt. simpl in Hcnt.
    unfold vlen in Hcnt. split; [destruct (queue s); [done|simpl in *; lia]|lia].
Qed.

Lemma inv_receive s x e rest :
  inv s → cpc (co s) ≠ Ended → chan s = (x, e) :: rest → inv (receive x e rest s).
Proof.
  intros [Hstop Hscr Hwd Hans Hfifo Hdead Hdone Hcnt Hend Hperf Hlost] Hne Hc. rewrite Hc in *.
  assert (Hin : ∀ y, y ∈ rest → y ∈ chan s) by (intros; rewrite Hc; by right).
  destruct e as [m|p]; simpl.
  - split; simpl; try done.
    + by eapply fifo_tail.
    + intros i w Hi Hl. destruct (Hdead i w Hi Hl) as [|[? Hno]]; [by left|right]. split; [done|].
      intros e He. apply (Hno e). by right.
    + intros Hd. destruct (Hdone Hd) as [? Hno]. split; [done|]. intros e He. apply (Hno e). by right.
    + intros a Ha. specialize (Hperf a Ha). destruct a as [idx p|m'].
      * eapply placed_coord; [..|exact Hperf]; simpl; try done; [by eauto| |].
        { intros m' Hm. apply elem_of_app. by left. }
        intros i m'. rewrite Hc. intros [[= -> ->]|]%elem_of_cons; [left; apply elem_of_app; right; by left|by right].
      * rewrite elem_of_app. destruct Hperf as [|[[= <- <-]|]%elem_of_cons]; auto. left. right. by left.
    + intros i it Hl. destruct (Hlost i it Hl) as (w & Hi & Hor). exists w. simpl. split; [done|].
      rewrite Hc in Hor. destruct Hor as [|[|[[|]%elem_of_cons|]]]; auto; done.
  - destruct (Hfifo [] x p rest eq_refl) as [Hno Hgone].
    set (ts := match x with FromWalker => threads s
               | FromWorker i => match threads s !! i with Some w => <[i := set_dead w]> (threads s) | None => threads s end
               end).
    set (wd := match x with FromWalker => true | FromWorker _ => walker_done (co s) end).
    set (s' := mkSys (wk s) (mkCoord Stops (reason (co s)) (handled (co s)) (abandoned (co s)) wd
      (panicked (co s) || p)) ts (queue s) rest (stop s) (enqueued s) (dequeued s) (lost s)).
    assert (Hgoal : inv s'); [|by destruct x].
    assert (Hpc : ∀ i w, threads s !! i = Some w → ∃ w', ts !! i = Some w' ∧ pc w' = pc w ∧ flagged w' = flagged w).
    { intros i w Hi. unfold ts. destruct x as [|j]; [by exists w|]. destruct (threads s !! j) as [v|] eqn:Hj; [|by exists w].
      destruct (decide (i = j)) as [->|Hij].
      - exists (set_dead w). rewrite list_lookup_insert_eq by by eapply lookup_lt_Some. split; [congruence|done].
      - exists w. by rewrite list_lookup_insert_ne. }
    assert (Hback : ∀ i w', ts !! i = Some w' → ∃ w, threads s !! i = Some w ∧ pc w' = pc w ∧ flagged w' = flagged w ∧
      (live w' = live w ∨ x = FromWorker i)).
    { intros i w'. unfold ts. destruct x as [|j]; [by exists w'; auto|].
      destruct (threads s !! j) as [v|] eqn:Hj; [|by exists w'; auto].
      intros [(-> & <- & _)|[? ?]]%list_lookup_insert_Some; [exists v; by auto|exists w'; by auto]. }
    split; simpl; try done.
    + intros i w' (w & Hi & -> & _)%Hback. specialize (Hans i w Hi). by destruct (pc w).
    + eapply fifo_mono; [by eapply fifo_tail|]. intros [|i]; [done|]. intros (w & Hi & Hg).
      destruct (Hpc i w Hi) as (w' & Hi' & Hp' & _). exists w'. split; [done|congruence].
    + intros i w' (w & Hi & Hp' & Hf' & Hl')%Hback Hl. rewrite Hp', Hf'. destruct Hl' as [Hl'| ->].
      * rewrite Hl' in Hl. destruct (Hdead i w Hi Hl) as [|[? Hn]]; [by left|right]. split; [done|].
        intros e He. apply (Hn e). by right.
      * right. destruct Hgone as (v & Hv & Hg). split; [congruence|done].
    + unfold wd. destruct x; [by intros _|]. intros Hd. destruct (Hdone Hd) as [? Hn]. split; [done|].
      intros e He. apply (Hn e). by right.
    + rewrite Hcnt. do 2 f_equal. unfold taken, s', ts. simpl. destruct x as [|j]; [done|].
      destruct (threads s !! j) as [v|] eqn:Hj; [|done].
      pose proof (sum_insert got j v (set_dead v) (threads s) Hj) as Hs. unfold got at 2 4 in Hs. simpl in Hs. lia.
    + intros a Ha. specialize (Hperf a Ha). destruct a as [idx q|m'].
      * eapply placed_coord; [..|exact Hperf]; simpl; try done.
        { intros i w Hi. destruct (Hpc i w Hi) as (w' & ? & ? & _). by exists w'. }
        intros i m'. rewrite Hc. intros [[=]|]%elem_of_cons. by right.
      * destruct Hperf as [|[[=]|]%elem_of_cons]; auto.
    + intros i it Hl. destruct (Hlost i it Hl) as (w & Hi & Hor). destruct (Hpc i w Hi) as (w' & Hi' & Hp' & Hf').
      exists w'. split; [done|]. rewrite Hp', Hf'. rewrite Hc in Hor. simpl.
      destruct Hor as [|[|[[[= <- <-]|]%elem_of_cons|Hpn]]]; auto.
      * right; right; right. by rewrite orb_true_r.
      * right; right; right. by rewrite Hpn.
Qed.

Lemma inv_abandon s spawned i n p s' :
  inv s → cpc (co s) ≠ Ended → abandon_step spawned i n p s = Some s' → inv s'.
Proof.
  intros [Hstop Hscr Hwd Hans Hfifo Hdead Hdone Hcnt Hend Hperf Hlost] Hne. unfold abandon_step.
  destruct (threads s !! i) as [w|] eqn:Hi; [|done]. simpl. set (spawn := _ && spawned). intros [= <-].
  set (ts := if spawn then _ else _).
  assert (Hpc : ∀ j v, threads s !! j = Some v → ∃ v', ts !! j = Some v' ∧ pc v' = pc v ∧ (flagged v = true → flagged v' = true)).
  { assert (∀ j v, threads s !! j = Some v → ∃ v', <[i := abandon w]> (threads s) !! j = Some v' ∧ pc v' = pc v ∧
      (flagged v = true → flagged v' = true)) as Hb.
    { intros j v Hj. destruct (decide (j = i)) as [->|Hij].
      - exists (abandon w). rewrite list_lookup_insert_eq by by eapply lookup_lt_Some. split; [done|].
        rewrite Hi in Hj. by injection Hj as ->.
      - exists v. by rewrite list_lookup_insert_ne. }
    intros j v Hj. destruct (Hb j v Hj) as (v' & Hj' & ?). exists v'. split; [|done]. unfold ts.
    destruct spawn; [|done]. by apply lookup_app_l_Some. }
  assert (Hback : ∀ j v', ts !! j = Some v' → v' = new_thread ∨ ∃ v, threads s !! j = Some v ∧ pc v' = pc v ∧
    (v' = v ∨ flagged v' = true)).
  { assert (∀ j v', <[i := abandon w]> (threads s) !! j = Some v' → ∃ v, threads s !! j = Some v ∧ pc v' = pc v ∧
      (v' = v ∨ flagged v' = true)) as Hb.
    { intros j v' [(-> & <- & _)|[? ?]]%list_lookup_insert_Some; [exists w|exists v']; auto. }
    intros j v'. unfold ts. destruct spawn; [|by auto].
    intros [?|[_ [_ <-]%list_lookup_singleton_Some]]%lookup_app_Some; [right; by auto|by left]. }
  split; simpl; try done.
  - intros j v' [->|(v & Hj & -> & _)]%Hback; [done|]. specialize (Hans j v Hj). by destruct (pc v).
  - eapply fifo_mono; [done|]. intros [|j]; [done|]. intros (v & Hj & Hg).
    destruct (Hpc j v Hj) as (v' & Hj' & Hp' & _). exists v'. split; [done|congruence].
  - intros j v' [->|(v & Hj & Hp' & [->|Hf])]%Hback Hl; [done|by apply Hdead|by left].
  - rewrite Hcnt. do 2 f_equal. unfold taken. simpl.
    pose proof (sum_insert got i w (abandon w) (threads s) Hi) as Hs. unfold got at 2 4 in Hs. simpl in Hs.
    unfold ts. destruct spawn; [rewrite sum_list_with_app; simpl|]; lia.
  - intros a Ha. specialize (Hperf a Ha). destruct a as [idx q|m'].
    + eapply placed_coord; [..|exact Hperf]; simpl; try done; [|by intros; apply elem_of_app; left|by auto].
      intros j v Hj. destruct (Hpc j v Hj) as (v' & ? & ? & _). by exists v'.
    + rewrite elem_of_app. naive_solver.
  - intros j it Hl. destruct (Hlost j it Hl) as (v & Hj & Hor). destruct (Hpc j v Hj) as (v' & Hj' & Hp' & Hf').
    exists v'. split; [done|]. simpl. rewrite Hp'. destruct Hor as [|[|[|]]]; auto.
Qed.

Lemma inv_step s s' : inv s → step s s' → inv s'.
Proof.
  intros Hi [(Hg & w & q & c & e & He & ->)|[(i & w & w' & q & c & d & L & Hw & He & ->)|Hc]]%step_effect.
  - by eapply inv_walker.
  - by eapply inv_worker.
  - pose proof (i_stop _ Hi) as Hst. destruct Hc as [p|Hwdn Hall|x e rest|sp i n p s'|p r].
    + apply inv_coord_moves; try done; simpl; congruence.
    + by apply inv_finish.
    + by apply inv_receive.
    + by eapply inv_abandon.
    + apply inv_coord_moves; try done; simpl; congruence.
Qed.

Lemma inv_reachable issues cancelled s : rtc step (initial issues script cancelled) s → inv s.
Proof.
  intros Hr. assert (inv (initial issues script cancelled)) as Hi by apply inv_initial.
  revert Hi. induction Hr as [|s s1 s2 Hs _ IH]; [done|]. intros Hi. apply IH. by eapply inv_step.
Qed.

(** ** A scan that completed *)

(** Only [abandon] sets a worker's flag. *)
Lemma flagged_abandoned issues cancelled s i w :
  rtc step (initial issues script cancelled) s → threads s !! i = Some w → flagged w = true → 0 < abandoned (co s).
Proof.
  intros Hr. revert i w. set (P := λ s, ∀ i w, threads s !! i = Some w → flagged w = true → 0 < abandoned (co s)).
  change (P s). assert (P (initial issues script cancelled)) as H0.
  { intros i w Hi. simpl in Hi. apply list_elem_of_lookup_2, list_elem_of_In, repeat_spec in Hi. by subst. }
  revert H0. induction Hr as [|s s1 s2 Hs _ IH]; [done|]. intros H. apply IH. clear IH.
  apply step_effect in Hs as [(_ & w & q & c & e & _ & ->)|[(j & w & w' & q & c & d & L & Hw & He & ->)|Hc]]; [done| |].
  - destruct (worker_effect_thread _ _ _ _ _ _ _ _ He) as (Hf & _). intros i v. simpl.
    intros [(-> & <- & _)|[_ Hi]]%list_lookup_insert_Some; [rewrite Hf; exact (H i w Hw)|exact (H i v Hi)].
  - destruct Hc as [p|_ _|x e rest|sp j n p s'|p r]; try done.
    + unfold finish_loop. simpl. intros i v Hi Hv. specialize (H i v Hi Hv).
      destruct (reason (co s)); [done|]. by destruct (0 <? _).
    + intros i v. destruct e as [m|q]; [exact (H i v)|]. destruct x as [|j]; [exact (H i v)|]. simpl.
      destruct (threads s !! j) as [w|] eqn:Hj; [|exact (H i v)].
      intros [(-> & <- & _)|[_ Hi]]%list_lookup_insert_Some; [exact (H i w Hj)|exact (H i v Hi)].
    + revert H1. unfold abandon_step. destruct (threads s !! j); [|done]. intros [= <-] i v _ _. simpl. lia.
Qed.

(** Messages come from threads that exist. *)
Lemma chan_threads issues cancelled s i e :
  rtc step (initial issues script cancelled) s → (FromWorker i, e) ∈ chan s → (i < length (threads s))%nat.
Proof.
  intros Hr. revert i e. set (P := λ s, ∀ i e, (FromWorker i, e) ∈ chan s → (i < length (threads s))%nat).
  change (P s). assert (P (initial issues script cancelled)) as H0 by (intros i e; simpl; by intros ?%not_elem_of_nil).
  revert H0. induction Hr as [|s s1 s2 Hs _ IH]; [done|]. intros H. apply IH. clear IH.
  apply step_effect in Hs as [(_ & w & q & c & e & He & ->)|[(j & w & w' & q & c & d & L & Hw & He & ->)|Hc]].
  - intros i e' Hi. apply (H i e'). destruct He; try done; simpl in Hi;
      by apply elem_of_app in Hi as [|[=]%list_elem_of_singleton].
  - intros i e'. simpl. rewrite length_insert. pose proof (lookup_lt_Some _ _ _ Hw) as Hlt.
    destruct He; try exact (H i e'); by intros [Hi|[= -> _]%list_elem_of_singleton]%elem_of_app; [apply (H i e' Hi)|].
  - destruct Hc as [p|_ _|x e rest|sp j n p s'|p r]; try done.
    + intros i e' Hi. assert ((FromWorker i, e') ∈ chan s) as Hin.
      { rewrite H1. right. destruct e; [done|]. by destruct x. }
      specialize (H i e' Hin). destruct e; [done|]. destruct x as [|j]; [done|]. simpl.
      destruct (threads s !! j); [by rewrite length_insert|done].
    + revert H1. unfold abandon_step. destruct (threads s !! j); [|done]. intros [= <-] i e' Hi. simpl in *.
      specialize (H i e' Hi). destruct (_ && sp); rewrite ?length_app, length_insert; simpl; lia.
Qed.

(** An abandoned worker had the item: in hand, thrown away, or answered by a
    message that was sent too late. *)
Definition with_abandoned (s : sys) (it : WorkItem) : Prop :=
  0 < abandoned (co s) ∧
  ∃ i w, threads s !! i = Some w ∧ flagged w = true ∧
    (holds (pc w) it ∨ (i, it) ∈ lost s ∨ ∃ m, produces it (Some m) ∧ (FromWorker i, Plain m) ∈ chan s).

Lemma completed_accounts issues cancelled s :
  rtc step (initial issues script cancelled) s →
  cpc (co s) = Ended → panicked (co s) = false → reason (co s) = None →
  (∀ m, Send m ∈ concat script → m ∈ handled (co s)) ∧
  (∀ idx p, Enqueue idx p ∈ concat script →
    (∃ m, produces (idx, p) (Some m) ∧ m ∈ handled (co s)) ∨ with_abandoned s (idx, p)).
Proof.
  intros Hr He Hpn Hnone. pose proof (inv_reachable _ _ _ Hr) as [Hstop Hscr Hwd Hans Hfifo Hdead Hdone Hcnt Hend Hperf Hlost].
  destruct (Hend He) as (Hwdn & Hall & Hq). destruct (Hq Hnone) as [Hq0 _]. destruct (Hdone Hwdn) as [Hg Hno].
  assert (Hns : stop s = false) by (apply not_true_iff_false; naive_solver).
  destruct (Hwd (or_intror Hg)) as [|[Hb Ht]]; [congruence|]. rewrite Hb, Ht, !app_nil_r in Hscr.
  assert (Hflag : ∀ i w, threads s !! i = Some w → flagged w = true ∨ (pc w = Gone ∧ ∀ e, (FromWorker i, e) ∉ chan s)).
  { intros i w Hi. apply Hdead; [done|]. unfold all_dead in Hall. rewrite forallb_true, Forall_lookup in Hall.
    by apply negb_true_iff, (Hall i). }
  assert (Hin : ∀ i w it, threads s !! i = Some w → flagged w = true →
    (holds (pc w) it ∨ (i, it) ∈ lost s ∨ ∃ m, produces it (Some m) ∧ (FromWorker i, Plain m) ∈ chan s) →
    with_abandoned s it).
  { intros i w it Hi Hf Hor. split; [by eapply flagged_abandoned|]. by exists i, w. }
  rewrite Hscr. split.
  - intros m Hm. destruct (Hperf _ Hm) as [|Hc]; [done|by apply Hno in Hc].
  - intros idx p Hm. destruct (Hperf _ Hm) as [Hx|[(i & w & Hi & Hh)|[(m & Hp & [Hx|(i & Hc)])|[(i & Hl)|Hx]]]].
    + rewrite Hq0 in Hx. by apply not_elem_of_nil in Hx.
    + right. destruct (Hflag i w Hi) as [|[Hgo _]]; [by eapply (Hin i w); auto|by rewrite Hgo in Hh].
    + left. by exists m.
    + right. destruct (lookup_lt_is_Some_2 (threads s) i (chan_threads _ _ _ _ _ Hr Hc)) as [w Hi].
      destruct (Hflag i w Hi) as [|[_ Hn]]; [|by apply Hn in Hc]. eapply (Hin i w); [done..|]. right; right. by exists m.
    + right. destruct (Hlost i _ Hl) as (w & Hi & Hor). destruct (Hflag i w Hi) as [|[Hgo Hn]]; [by eapply (Hin i w); auto|].
      destruct Hor as [Hf|[Hx|[Hx|Hx]]]; [by eapply (Hin i w); auto|congruence|by apply Hn in Hx|congruence].
    + congruence.
Qed.

End Accounting.

(** ** Concrete runs *)

(** A label is allowed, tested. *)
Definition check (answers : WorkItem → option Msg → bool) (l : label) (s : sys) : bool :=
  match l with
  | LProcess i m =>
      match threads s !! i with
      | Some w => match pc w with Busy it => answers it m && (bool_decide (is_Some m) || stop s) | _ => true end
      | None => true
      end
  | _ => true
  end.
Fixpoint run (answers : WorkItem → option Msg → bool) (ls : list label) (s : sys) : option sys :=
  match ls with
  | [] => Some s
  | l :: ls => if check answers l s then s ← exec l s; run answers ls s else None
  end.

Lemma run_reachable answers ls s s' :
  (∀ it m, answers it m = true → produces it m) → run answers ls s = Some s' → rtc step s s'.
Proof.
  intros Ha. revert s. induction ls as [|l ls IH]; intros s; simpl; [by intros [= ->]|].
  destruct (check answers l s) eqn:Hc; [|done]. destruct (exec l s) as [s1|] eqn:He; [|done]. simpl.
  intros Hr%IH. eapply rtc_l; [|done]. exists l; [|done]. destruct l as [|i|i m|i| | |r| |]; try done. simpl in *.
  intros w it Hw Hpc. rewrite Hw, Hpc in Hc. apply andb_true_iff in Hc as [Hx Hy]. split; [by apply Ha|].
  intros ->. by apply orb_true_iff in Hy as [[=]|].
Qed.

End Steps.
End System.
End Run.

(** ** Properties *)
Module RunProps.
Import Config Scanner Aggregate Run.

(** C3: a scan that reports itself completed left nothing out. However the
    threads were scheduled, every message the walk called for was handled,
    and for every file the walk queued the message of [process_file] was
    handled; unless some worker was abandoned, and then only for files such a
    worker had taken. In particular a scan that was stopped, or whose workers
    all stalled with work left, never reports itself completed. *)
Theorem completed_scan_accounts (config : ScanConfig) (produces : WorkItem → option Msg → Prop)
    issues script cancelled s n_detectors databases r
    (Hr : rtc (step config produces) (initial config issues script cancelled) s)
    (Hs : scan_result config n_detectors databases s = Some r)
    (Hc : Report.status r = Report.Completed) :
  (∀ m, Send m ∈ concat script → m ∈ handled (co s)) ∧
  ∀ idx p, Enqueue idx p ∈ concat script →
    (∃ m, produces (idx, p) (Some m) ∧ m ∈ handled (co s)) ∨
    (0 < abandoned (co s) ∧ ∃ i w, threads s !! i = Some w ∧ flagged w = true ∧
      (holds (pc w) (idx, p) ∨ (i, (idx, p)) ∈ lost s ∨
       ∃ m, produces (idx, p) (Some m) ∧ (FromWorker i, Plain m) ∈ chan s)).
Proof.
  unfold scan_result in Hs. destruct (cpc (co s)) eqn:He; try done.
  destruct (panicked (co s)) eqn:Hp; [done|]. injection Hs as <-. simpl in Hc.
  assert (Hn : reason (co s) = None) by by destruct (reason (co s)) as [[]|].
  exact (completed_accounts config produces script issues cancelled s Hr He Hp Hn).
Qed.

(** ** Instances *)

Definition one_worker : ScanConfig :=
  mkScanConfig ["/r"%string] [] Skip false default_scan_limits 1.
Definition two_files : list (list action) := [[Enqueue 0 "/r/a"]; [Enqueue 0 "/r/b"]].
Definition scanned (it : WorkItem) : Msg := Scanned it.2 1 empty_result.
Definition answers (it : WorkItem) (m : option Msg) : bool :=
  match m with
  | Some (Scanned p 1 (mkResult [] [] [] 0)) => bool_decide (p = it.2)
  | _ => false
  end.
Definition is_answer (it : WorkItem) (m : option Msg) : Prop := answers it m = true.

(** The walker queues both files and leaves. *)
Definition walking : list label := repeat LWalker 8.
(** The coordinator goes round its loop once, over [n] workers. *)
Definition round (n : nat) : list label := repeat LCoord (5 + n).
(** A worker takes an item up to [process_file], and from there to its answer. *)
Definition take_item (i : nat) : list label := repeat (LWorker i) 3.
Definition answer_item (i : nat) (p : path) : list label :=
  LProcess i (Some (scanned (0%nat, p))) :: repeat (LWorker i) 3.

Definition plain_run : list label :=
  walking ++ take_item 0 ++ answer_item 0 "/r/a" ++ take_item 0 ++ answer_item 0 "/r/b" ++ repeat (LWorker 0) 2 ++
  concat (repeat (round 1) 4) ++ [LCoord].
Definition final (ls : list label) : sys :=
  default (initial one_worker [] [] false) (run one_worker answers ls (initial one_worker [] two_files false)).
Definition plain_final : sys := Eval vm_compute in final plain_run.

Lemma answers_are it m : answers it m = true → is_answer it m.
Proof. done. Qed.

Lemma completed_scan_accounts_witness :
  handled (co plain_final) = [scanned (0%nat, "/r/a"%string); scanned (0%nat, "/r/b"%string)] ∧
  (∀ m, Send m ∈ concat two_files → m ∈ handled (co plain_final)) ∧
  ∀ idx p, Enqueue idx p ∈ concat two_files →
    (∃ m, is_answer (idx, p) (Some m) ∧ m ∈ handled (co plain_final)) ∨
    (0 < abandoned (co plain_final) ∧ ∃ i w, threads plain_final !! i = Some w ∧ flagged w = true ∧
      (holds (pc w) (idx, p) ∨ (i, (idx, p)) ∈ lost plain_final ∨
       ∃ m, is_answer (idx, p) (Some m) ∧ (FromWorker i, Plain m) ∈ chan plain_final)).
Proof.
  split; [reflexivity|].
  apply (completed_scan_accounts one_worker is_answer [] two_files false plain_final 1 []
    (finish one_worker 1 [] None 0 (foldl handle (new_agg one_worker) (handled (co plain_final))))).
  - apply (run_reachable one_worker is_answer answers plain_run); [exact answers_are|]. vm_compute. reflexivity.
  - reflexivity.
  - reflexivity.
Defined.

(** The worker finishes the first file just after the watchdog saw it
    stalled, and takes the second before it is marked as abandoned. *)
Definition late_run : list label :=
  walking ++ take_item 0 ++ [LCoord; LCoord; LCoord; LStalled] ++
  [LProcess 0 (Some (scanned (0%nat, "/r/a"%string))); LWorker 0; LWorker 0] ++
  [LCoord; LCoord; LCoord] ++ [LWorker 0] ++ take_item 0 ++ repeat (LWorker 1) 2 ++
  concat (repeat (round 2) 2) ++ [LCoord].
Definition late_final : sys := Eval vm_compute in final late_run.

(** Whether a message is about a file. *)
Definition about (p : path) (m : Msg) : bool :=
  match m with
  | DirectoryMsg => false
  | Scanned q _ _ | SkippedMsg q _ => bool_decide (q = p)
  | IssueMsg i => bool_decide (Report.issue_path i = Some (ObservedPath.from_path p))
  end.

(** The watchdog can lose a file. Between its look at a worker's slot and
    the worker's abandonment, the worker can finish that file, find itself
    not abandoned, and take another one: the scan then ends without waiting
    for it and reports itself completed, although no message and no issue is
    about the second file, while the first is reported as abandoned although
    it was scanned. *)
Theorem late_abandon_loses_file :
  rtc (step one_worker is_answer) (initial one_worker [] two_files false) late_final ∧
  (∃ r, scan_result one_worker 1 [] late_final = Some r ∧ Report.status r = Report.Completed) ∧
  Enqueue 0 "/r/b" ∈ concat two_files ∧
  existsb (about "/r/b") (handled (co late_final)) = false ∧
  handled (co late_final) = [IssueMsg (stall_issue one_worker "/r/a"); scanned (0%nat, "/r/a"%string)].
Proof.
  split_and!.
  - apply (run_reachable one_worker is_answer answers late_run); [exact answers_are|]. vm_compute. reflexivity.
  - by eexists.
  - right. left.
  - vm_compute. reflexivity.
  - vm_compute. reflexivity.
Qed.

End RunProps.
