(* ===== verification/Ipc.v ===== *)
(** * The service protocol: [crates/ipc/src/lib.rs] and [policy.rs]

    Frames, the requests and replies, validation and authorisation. A stream
    is the octets that will arrive and how it ends; a writer is the octets
    sent and the calls that will fail. [serde_json] is the codec of
    External.v; a JSON value inside a reply is a type parameter. *)

From S2P Require Import Prelude Utf8 Paths Core External.

(** A [Uuid] is its 128-bit number: [Ord] compares the octets, most
    significant first. *)
Abbreviation Uuid := N.

Module Ipc.

Definition PROTOCOL_VERSION : N := 1.
Definition MAX_REQUEST : N := 64 * 1024.
Definition MAX_RESPONSE : N := N.shiftl 64 20.
Definition MAX_PATHS : N := 64.
Definition MAX_PATH_BYTES : N := 4096.
Definition DEFAULT_SOCKET : string := "/run/abyssal-warden/wardend.sock".

(** ** Messages *)

Inductive Op :=
  | Ping
  | Status
  | Scan (paths : list string) (heuristics no_archives quarantine : bool)
  | SystemCheck (heuristics : bool)
  | Jobs
  | Job (job : Uuid)
  | Report (job : Uuid)
  | Cancel (job : Uuid)
  | Schedules
  | RunSchedule (name : string)
  | QuarantineList
  | QuarantineRestore (id : string) (allow : bool)
  | QuarantineDelete (id : string)
  | VerifyAudit.
#[export] Instance Op_eq_dec : EqDecision Op.
Proof. solve_decision. Defined.

Record Request := mkRequest { version : N; req_id : N; op : Op }.
#[export] Instance Request_eq_dec : EqDecision Request.
Proof. solve_decision. Defined.

(** [Request::new] *)
Definition new (id : N) (o : Op) : Request := mkRequest PROTOCOL_VERSION id o.

Inductive ErrorCode :=
  BadRequest | VersionMismatch | Unauthorized | NotFound | Busy | Unsupported | Internal.
#[export] Instance ErrorCode_eq_dec : EqDecision ErrorCode.
Proof. solve_decision. Defined.

Record Rejection := mkRejection { code : ErrorCode; message : string }.
#[export] Instance Rejection_eq_dec : EqDecision Rejection.
Proof. solve_decision. Defined.

Definition name_byte (b : N) : bool :=
  is_ascii_alphanumeric b || existsb (N.eqb b) (as_bytes "._-").
Definition valid_name (s : string) : bool :=
  negb (bool_decide (s = "")) && (len s <=? 128) && forallb name_byte (as_bytes s).

Definition id_byte (b : N) : bool := is_ascii_hexdigit b || (b =? 45).

(** [Request::validate] *)
Section Validate.
Context `{StdText}.

Definition bad (m : string) : result Rejection unit := Err (mkRejection BadRequest m).

Definition check_path (p : string) : result Rejection unit :=
  if (MAX_PATH_BYTES <? len p) || contains_byte 0 p then bad "path too long or contains NUL"
  else if negb (is_absolute p) then bad (fmt "path {p:?} is not absolute" [debug_str p])
  else Ok tt.

Definition check_id (id : string) : result Rejection unit :=
  if bool_decide (id = "") || (64 <? len id) || negb (forallb id_byte (as_bytes id))
  then bad "invalid quarantine id" else Ok tt.

Definition validate (r : Request) : result Rejection unit :=
  if negb (version r =? PROTOCOL_VERSION) then
    Err (mkRejection VersionMismatch
      (fmt "protocol version {} is not supported (server speaks {PROTOCOL_VERSION})"
        [show_N (version r); show_N PROTOCOL_VERSION]))
  else
    match op r with
    | Scan paths _ _ _ =>
        if bool_decide (paths = []) || (MAX_PATHS <? vlen paths)
        then bad (fmt "between 1 and {MAX_PATHS} paths are required" [show_N MAX_PATHS])
        else check_all check_path paths
    | RunSchedule name => if negb (valid_name name) then bad "invalid schedule name" else Ok tt
    | QuarantineRestore id _ | QuarantineDelete id => check_id id
    | _ => Ok tt
    end.
End Validate.

(** ** Jobs and the other data of replies *)

Inductive JobKind := KScan | KSystemCheck | KUpdate.
#[export] Instance JobKind_eq_dec : EqDecision JobKind.
Proof. solve_decision. Defined.

Inductive JobState := Queued | Running | Completed | Failed | Cancelled | TimedOut.
#[export] Instance JobState_eq_dec : EqDecision JobState.
Proof. solve_decision. Defined.

Definition finished (s : JobState) : bool :=
  match s with Queued | Running => false | _ => true end.

Record JobSummary := mkJob {
  job_id : Uuid;
  kind : JobKind;
  state : JobState;
  owner : string;
  schedule : option string;
  job_paths : list string;
  job_heuristics : bool;
  job_quarantine : bool;
  as_owner : bool;
  created_at : Z;
  started_at : option Z;
  finished_at : option Z;
  exit_code : option Z;
  findings : option N;
  quarantined : option N;
  error : option string;
}.
#[export] Instance JobSummary_eq_dec : EqDecision JobSummary.
Proof. solve_decision. Defined.

Record AuditStatus := mkAudit {
  audit_checked_at : Z;
  chain_ok : bool;
  entries : N;
  journal_checked : bool;
  matched : N;
  mismatched : list N;
  missing_locally : list N;
  unanchored : N;
  other_chains : N;
  consistent : bool;
  detail : string;
}.
#[export] Instance AuditStatus_eq_dec : EqDecision AuditStatus.
Proof. solve_decision. Defined.

Record ServiceStatus := mkStatus {
  server_version : string;
  status_started_at : Z;
  running_as_root : bool;
  jobs_running : N;
  jobs_queued : N;
  n_schedules : N;
  status_caller : string;
  caller_is_admin : bool;
  last_audit : option AuditStatus;
}.

Record ScheduleInfo := mkScheduleInfo {
  si_name : string;
  si_kind : JobKind;
  si_paths : list string;
  si_every_hours : N;
  si_at_utc : option string;
  si_heuristics : bool;
  si_quarantine : bool;
  last_run : option Z;
  next_run : Z;
}.

Record QuarantineItem := mkItem {
  item_id : string;
  item_state : string;
  item_path : string;
  item_sha256 : string;
  item_reason : string;
  item_created_at : Z;
}.

Section Replies.
Context {Value : Type}.

Inductive Reply :=
  | Pong (version : string)
  | StatusReply (s : ServiceStatus)
  | JobStarted (job : Uuid)
  | JobList (jobs : list JobSummary)
  | OneJob (j : JobSummary)
  | ReportReply (job : Uuid) (report : Value)
  | ScheduleList (l : list ScheduleInfo)
  | QuarantineItems (l : list QuarantineItem)
  | Done (message : string)
  | AuditReply (a : AuditStatus)
  | ErrorReply (code : ErrorCode) (message : string).

Record Response := mkResponse { resp_version : N; resp_id : N; reply : Reply }.

(** [Response::new], [Response::error] *)
Definition response (id : N) (r : Reply) : Response := mkResponse PROTOCOL_VERSION id r.
Definition response_error (id : N) (r : Rejection) : Response :=
  response id (ErrorReply (code r) (message r)).
End Replies.
Arguments Reply : clear implicits.
Arguments Response : clear implicits.

(** ** Frames *)

(** What [Read::read_exact] can fail with. *)
Inductive ReadError := UnexpectedEof | ReadFailed (e : IoError).
#[export] Instance ReadError_eq_dec : EqDecision ReadError.
Proof. solve_decision. Defined.

Inductive FrameError :=
  | Closed
  | TooLarge (size max : N)
  | Malformed (e : string)
  | FrameIo (e : ReadError).
#[export] Instance FrameError_eq_dec : EqDecision FrameError.
Proof. solve_decision. Defined.

(** The octets that will arrive on a connection, and the error after them, if
    it does not just end. *)
Record stream := mkStream { pending : bytes; fault : option IoError }.

(** [read_exact] for [n] octets. *)
Definition read_exact (n : N) (s : stream) : result ReadError bytes * stream :=
  if n <=? vlen (pending s) then
    (Ok (take (N.to_nat n) (pending s)), mkStream (drop (N.to_nat n) (pending s)) (fault s))
  else (Err (match fault s with None => UnexpectedEof | Some e => ReadFailed e end), mkStream [] (fault s)).

(** The octets sent; for each call to come, whether it fails after sending
    some of its octets. *)
Record writer := mkWriter { sent : bytes; failures : list (option (nat * IoError)) }.

(** [write_all], and [flush] (of no octets). *)
Definition write_all (bs : bytes) (w : writer) : result IoError unit * writer :=
  match failures w with
  | Some (k, e) :: l => (Err e, mkWriter (sent w ++ take k bs) l)
  | None :: l => (Ok tt, mkWriter (sent w ++ bs) l)
  | [] => (Ok tt, mkWriter (sent w ++ bs) [])
  end.

(** [u32::to_be_bytes] and [u32::from_be_bytes] *)
Definition to_be_bytes (n : N) : bytes :=
  [N.shiftr n 24 mod 256; N.shiftr n 16 mod 256; N.shiftr n 8 mod 256; n mod 256].
Definition from_be_bytes (bs : bytes) : N := foldl (λ acc b, acc * 256 + b) 0 bs.

Section Frames.
Context {T : Type} `{J : Json T}.

Definition write_frame (msg : T) (max : N) (w : writer) : result FrameError unit * writer :=
  match to_vec msg with
  | Err e => (Err (Malformed e), w)
  | Ok body =>
      if max <? vlen body then (Err (TooLarge (vlen body) max), w)
      else if u32_max <? vlen body then (Err (TooLarge (vlen body) max), w)
      else
        match write_all (to_be_bytes (vlen body)) w with
        | (Err e, w) => (Err (FrameIo (ReadFailed e)), w)
        | (Ok _, w) =>
            match write_all body w with
            | (Err e, w) => (Err (FrameIo (ReadFailed e)), w)
            | (Ok _, w) =>
                match write_all [] w with
                | (Err e, w) => (Err (FrameIo (ReadFailed e)), w)
                | (Ok _, w) => (Ok tt, w)
                end
            end
        end
  end.

Definition decode (body : bytes) : result FrameError T := map_err Malformed (from_slice body).

Definition read_frame (max : N) (s : stream) : result FrameError T * stream :=
  match read_exact 4 s with
  | (Err UnexpectedEof, s) => (Err Closed, s)
  | (Err e, s) => (Err (FrameIo e), s)
  | (Ok header, s) =>
      let n := from_be_bytes header in
      if max <? n then (Err (TooLarge n max), s)
      else
        match read_exact n s with
        | (Err e, s) => (Err (FrameIo e), s)
        | (Ok body, s) => (decode body, s)
        end
  end.
End Frames.

Lemma be_bytes_round n : n ≤ u32_max → from_be_bytes (to_be_bytes n) = n.
Proof.
  intros Hn. unfold u32_max in Hn. unfold from_be_bytes, to_be_bytes. cbn [foldl].
  rewrite !N.shiftr_div_pow2.
  change (2 ^ 24) with (256 * 256 * 256). change (2 ^ 16) with (256 * 256). change (2 ^ 8) with 256.
  rewrite <-!N.Div0.div_div.
  pose proof (N.div_mod n 256). pose proof (N.div_mod (n / 256) 256). pose proof (N.div_mod (n / 256 / 256) 256).
  assert (n / 256 / 256 / 256 < 256) as Hs by (repeat apply N.Div0.div_lt_upper_bound; lia).
  rewrite (N.mod_small _ _ Hs). lia.
Qed.

Lemma to_be_bytes_length n : length (to_be_bytes n) = 4%nat.
Proof. done. Qed.

Lemma read_exact_app (bs rest : bytes) f :
  read_exact (vlen bs) (mkStream (bs ++ rest) f) = (Ok bs, mkStream rest f).
Proof.
  unfold read_exact. cbn [pending fault]. rewrite vlen_app.
  destruct (N.leb_spec (vlen bs) (vlen bs + vlen rest)); [|lia].
  unfold vlen. rewrite Nat2N.id. by rewrite take_app_length, drop_app_length.
Qed.

Lemma read_exact_Ok n s bs s' :
  read_exact n s = (Ok bs, s') → pending s = bs ++ pending s' ∧ vlen bs = n ∧ fault s' = fault s.
Proof.
  unfold read_exact. destruct (N.leb_spec n (vlen (pending s))) as [Hn|]; [|done].
  intros [= <- <-]. simpl. rewrite take_drop. split_and!; [done| |done].
  unfold vlen in *. rewrite length_take. lia.
Qed.

Lemma write_all_Ok bs w w' : write_all bs w = (Ok tt, w') → sent w' = sent w ++ bs.
Proof. unfold write_all. destruct (failures w) as [|[[]|] l]; by intros [= <-]. Qed.

Lemma write_frame_Ok `{J : Json T} (msg : T) max w w' :
  write_frame msg max w = (Ok tt, w') →
  ∃ body, to_vec msg = Ok body ∧ vlen body ≤ max ∧ vlen body ≤ u32_max ∧
    sent w' = sent w ++ to_be_bytes (vlen body) ++ body.
Proof.
  unfold write_frame. destruct (to_vec msg) as [body|]; [|done].
  destruct (N.ltb_spec max (vlen body)); [done|]. destruct (N.ltb_spec u32_max (vlen body)); [done|].
  destruct (write_all (to_be_bytes _) w) as [[[]|] w1] eqn:H1; [|done].
  destruct (write_all body w1) as [[[]|] w2] eqn:H2; [|done].
  destruct (write_all [] w2) as [[[]|] w3] eqn:H3; [|done]. intros [= <-].
  exists body. split_and!; [done..|].
  by rewrite (write_all_Ok _ _ _ H3), (write_all_Ok _ _ _ H2), (write_all_Ok _ _ _ H1), app_nil_r, <-app_assoc.
Qed.
End Ipc.

(** ** [policy.rs] *)

Module Policy.
Import Ipc.

Record Caller := mkCaller { principal : string; admin : bool }.

Definition admin_only (o : Op) : bool :=
  match o with
  | Ping | Status | Jobs | Job _ | Report _ | Cancel _ | Schedules => false
  | Scan _ _ _ quarantine => quarantine
  | SystemCheck _ | RunSchedule _ | QuarantineList | QuarantineRestore _ _ | QuarantineDelete _ | VerifyAudit => true
  end.

Definition unauthorized : Rejection := mkRejection Unauthorized
  "this operation needs an administrator (root, or a member of the configured admin group)".

Definition authorize (c : Caller) (o : Op) : result Rejection unit :=
  if admin_only o && negb (admin c) then Err unauthorized else Ok tt.

Definition can_access_job (c : Caller) (owner : string) : bool :=
  admin c || bool_decide (principal c = owner).

Definition scan_as_caller (c : Caller) : bool := negb (admin c).
End Policy.

(** ** Properties *)
Module IpcProps.
Import Ipc.

Section Props.
Context {T : Type} `{JL : JsonLaws T}.

(** Frames survive the connection whole. Whatever is on the wire before
    and after it, a message that was written is what [read_frame] with the
    same limit reads at its place, and reading stops exactly at its end, so
    that messages sent one after another are read one after another; and a
    message over the limit is refused before anything is sent. *)
Theorem frame_round_trip (msg : T) max w w' (Hw : write_frame msg max w = (Ok tt, w')) :
  ∃ frame, sent w' = sent w ++ frame ∧ vlen frame ≤ 4 + max ∧
    ∀ rest f, read_frame max (mkStream (frame ++ rest) f) = (Ok msg, mkStream rest f).
Proof.
  apply write_frame_Ok in Hw as (body & Hv & Hmax & Hu32 & Hs).
  exists (to_be_bytes (vlen body) ++ body). split; [done|]. split.
  - rewrite vlen_app. unfold vlen at 1. simpl. lia.
  - intros rest f. unfold read_frame. rewrite <-app_assoc.
    rewrite (read_exact_app (to_be_bytes (vlen body)) (body ++ rest) f : read_exact 4 _ = _).
    rewrite be_bytes_round by done. destruct (N.ltb_spec max (vlen body)); [lia|].
    rewrite read_exact_app. unfold decode. by erewrite from_slice_to_vec.
Qed.

(** A peer cannot make the service read or allocate past the limit. Each
    call of [read_frame] consumes at most the header and [max] octets of the
    stream, in order; a header that announces more is refused with nothing
    else consumed; and the body that is decoded has exactly the announced
    length. *)
Theorem read_frame_bounded max s r s' (Hr : read_frame (T := T) max s = (r, s')) :
  (∃ used, pending s = used ++ pending s' ∧
    vlen used ≤ 4 + max ∧
    ∀ m, r = Ok m → ∃ body, used = take 4 used ++ body ∧ vlen body = from_be_bytes (take 4 used) ∧
      vlen body ≤ max ∧ from_slice body = Ok m) ∧
  (4 ≤ vlen (pending s) → max < from_be_bytes (take 4 (pending s)) →
    r = Err (TooLarge (from_be_bytes (take 4 (pending s))) max) ∧ pending s' = drop 4 (pending s)).
Proof.
  unfold read_frame in Hr. destruct (read_exact 4 s) as [[header|e] s1] eqn:H4.
  - assert (header = take 4 (pending s) ∧ pending s1 = drop 4 (pending s)) as [Hh Hd].
    { revert H4. unfold read_exact. destruct (_ <=? _); [|done]. by intros [= <- <-]. }
    apply read_exact_Ok in H4 as (Hp & Hl & _).
    destruct (N.ltb_spec max (from_be_bytes header)) as [Hlt|Hle].
    + injection Hr as <- <-. rewrite <-Hh. split; [|by intros _ _].
      exists header. split_and!; [done|lia|done].
    + split; [|rewrite <-Hh; lia].
      destruct (read_exact _ s1) as [[body|e] s2] eqn:Hb.
      * apply read_exact_Ok in Hb as (Hp2 & Hl2 & _). injection Hr as <- <-.
        exists (header ++ body). rewrite Hp, Hp2, app_assoc. split_and!; [done|rewrite vlen_app; lia|].
        intros m Hm. assert (take 4 (header ++ body) = header) as ->.
        { apply take_app_length'. unfold vlen in Hl. lia. }
        exists body. split_and!; [done|done|lia|]. revert Hm. unfold decode. by rewrite map_err_Ok.
      * assert (pending s2 = [] ∧ vlen (pending s1) < from_be_bytes header) as [Hnil Hlt].
        { revert Hb. unfold read_exact. destruct (N.leb_spec (from_be_bytes header) (vlen (pending s1))); [done|].
          by intros [= _ <-]. }
        injection Hr as <- <-. exists (pending s). rewrite Hnil, app_nil_r, Hp, vlen_app.
        split_and!; [done|lia|done].
  - assert (pending s1 = [] ∧ vlen (pending s) < 4) as [Hnil Hlt].
    { revert H4. unfold read_exact. destruct (N.leb_spec 4 (vlen (pending s))); [done|]. by intros [= _ <-]. }
    split; [|lia]. exists (pending s).
    destruct e; injection Hr as <- <-; rewrite Hnil, app_nil_r; (split_and!; [done|lia|done]).
Qed.
End Props.

(** ** Instances *)

#[local] Instance number_json : Json N := Toy.json N.
#[local] Instance number_json_laws : JsonLaws N := Toy.json_laws N.
Definition framed : writer := Eval vm_compute in (write_frame (T := N) 5 64 (mkWriter [9] [])).2.

Lemma frame_round_trip_witness :
  write_frame (T := N) 5 64 (mkWriter [9] []) = (Ok tt, framed) ∧
  ∃ frame, sent framed = [9] ++ frame ∧ vlen frame ≤ 68 ∧
    read_frame 64 (mkStream (frame ++ [1; 2]) None) = (Ok (5 : N), mkStream [1; 2] None).
Proof.
  assert (Hw : write_frame (T := N) 5 64 (mkWriter [9] []) = (Ok tt, framed)) by by vm_compute.
  split; [exact Hw|]. destruct (frame_round_trip _ _ _ _ Hw) as (frame & Hs & Hl & Hr).
  exists frame. split_and!; [exact Hs|exact Hl|apply Hr].
Defined.

(** A header that announces 2^32 - 1 octets. *)
Definition huge : stream := mkStream [255; 255; 255; 255; 123; 125] None.
Lemma read_frame_bounded_witness :
  read_frame (T := N) MAX_REQUEST huge = (Err (TooLarge u32_max MAX_REQUEST), mkStream [123; 125] None) ∧
  ∃ used, pending huge = used ++ [123; 125] ∧ vlen used ≤ 4 + MAX_REQUEST.
Proof.
  assert (Hr : read_frame (T := N) MAX_REQUEST huge = (Err (TooLarge u32_max MAX_REQUEST), mkStream [123; 125] None))
    by by vm_compute.
  split; [exact Hr|]. destruct (read_frame_bounded _ _ _ _ Hr) as [(used & Hu & Hl & _) _].
  exists used. split; [exact Hu|exact Hl].
Defined.
End IpcProps.
