(* ===== verification/ServiceConfig.v ===== *)
(** * Service configuration, accounts and schedules

    [crates/service/src/config.rs], [accounts.rs] and the part of
    [schedule.rs] that computes times. The Unix build. Files are what reading
    them gives; [serde_json] is the codec of External.v. *)

From S2P Require Import Prelude Utf8 Paths Core External AuditLog QuarantineStore Trust Ipc.

(** [s.parse::<uN>()] for a type with the given maximum. *)
Definition parse_uint (max : N) (s : string) : option N :=
  v ← parse_u64 (as_bytes s); if v <=? max then Some v else None.

(** [{:04o}] *)
Definition octal4 (n : N) : string :=
  let s := Store.show_octal n in
  of_bytes (repeat 48 (4 - String.length s)%nat ++ as_bytes s).

(** ** config.rs *)
Module SvcConfig.
Import Ipc.

Definition MAX_CONFIG : N := N.shiftl 1 20.
Definition MAX_SCHEDULES : N := 64.

Record Schedule := mkSchedule {
  name : string;
  kind : JobKind;
  paths : list string;
  every_hours : N;
  at_utc : option string;
  heuristics : bool;
  quarantine : bool;
}.
#[export] Instance Schedule_eq_dec : EqDecision Schedule.
Proof. solve_decision. Defined.

Record ServiceConfig := mkServiceConfig {
  socket : path;
  socket_group : option string;
  state_dir : path;
  quarantine_store : path;
  admin_users : list string;
  admin_group : option string;
  scanner_user : string;
  scanner_binary : option path;
  content : list path;
  keyrings : list path;
  update_source : option string;
  max_concurrent_jobs : N;
  max_queued_jobs : N;
  job_timeout_minutes : N;
  history_limit : N;
  audit_check_hours : N;
  schedules : list Schedule;
}.

Definition default_config : ServiceConfig := mkServiceConfig
  DEFAULT_SOCKET None "/var/lib/abyssal-warden/service" "/var/lib/abyssal-warden/quarantine"
  [] None "abyssal-warden" None [] [] None 1 32 240 200 24 [].

Section Validate.
Context `{ST : StdText}.

(** [parse_hhmm] *)
Definition parse_hhmm (s : string) : option (N * N) :=
  '(h, m) ← Anchors.split_once 58 (as_bytes s);
  h ← parse_uint 255 (of_bytes h);
  m ← parse_uint 255 (of_bytes m);
  if (h <? 24) && (m <? 60) && (len s =? 5) then Some (h, m) else None.

(** The closure [range] of [validate]. *)
Definition range (v lo hi : N) (what : string) : result string unit :=
  if (lo <=? v) && (v <=? hi) then Ok tt
  else Err (fmt "{what} must be between {lo} and {hi}" [what; show_N lo; show_N hi]).

Definition contains (s p : string) : bool := bool_decide (is_Some (Anchors.find_from (as_bytes p) (as_bytes s))).

Definition check_source (src : string) : result string unit :=
  let ok := (str_starts_with src "https://" && (8 <? len src)) || (is_absolute src && negb (contains src "://")) in
  if negb ok || (2048 <? len src) || existsb Text.is_control (chars src)
  then Err (fmt "update_source {src:?} must be an https:// URL or an absolute directory" [debug_str src])
  else Ok tt.

Definition valid_schedule_name (n : string) : bool :=
  negb (bool_decide (n = "")) && (len n <=? 128)
  && forallb (λ b, is_ascii_alphanumeric b || existsb (N.eqb b) (as_bytes "._-")) (as_bytes n).

Definition check_at (s : Schedule) : result string unit :=
  match at_utc s with
  | None => Ok tt
  | Some at_ =>
      match parse_hhmm at_ with
      | None => Err (fmt "schedule {}: at_utc must be HH:MM" [name s])
      | Some _ =>
          if negb (every_hours s mod 24 =? 0)
          then Err (fmt "schedule {}: at_utc needs every_hours to be a multiple of 24" [name s])
          else Ok tt
      end
  end.

Definition bad_path (p : string) : bool := negb (is_absolute p) || contains_byte 0 p.

(** What each kind of job needs. *)
Definition check_kind (update_source : option string) (s : Schedule) : result string unit :=
  match kind s with
  | KScan =>
      if bool_decide (paths s = []) || (MAX_PATHS <? vlen (paths s))
      then Err (fmt "schedule {}: a scan needs 1 to {} paths" [name s; show_N MAX_PATHS])
      else match List.find bad_path (paths s) with
           | Some p => Err (fmt "schedule {}: path {p:?} must be absolute" [name s; debug_str p])
           | None => Ok tt
           end
  | KSystemCheck =>
      if negb (bool_decide (paths s = [])) || quarantine s
      then Err (fmt "schedule {}: a system check takes no paths and does not quarantine" [name s])
      else Ok tt
  | KUpdate =>
      if negb (bool_decide (paths s = [])) || quarantine s || heuristics s
      then Err (fmt "schedule {}: an update takes no paths, heuristics or quarantine" [name s])
      else if bool_decide (update_source = None)
      then Err (fmt "schedule {}: an update needs update_source" [name s])
      else Ok tt
  end.

(** The loop over the schedules; [seen] is [names]. *)
Fixpoint check_schedules (update_source : option string) (seen : gset string) (l : list Schedule)
    : result string unit :=
  match l with
  | [] => Ok tt
  | s :: l =>
      _ ← reject_if (negb (valid_schedule_name (name s)) || bool_decide (name s ∈ seen))
            (fmt "schedule name {:?} is invalid or repeated" [debug_str (name s)]);
      _ ← range (every_hours s) 1 (24 * 366) "every_hours";
      _ ← check_at s;
      _ ← check_kind update_source s;
      check_schedules update_source ({[ name s ]} ∪ seen) l
  end.

Definition validate (c : ServiceConfig) : result string unit :=
  _ ← range (max_concurrent_jobs c) 1 8 "max_concurrent_jobs";
  _ ← range (max_queued_jobs c) 1 1000 "max_queued_jobs";
  _ ← range (job_timeout_minutes c) 1 (7 * 24 * 60) "job_timeout_minutes";
  _ ← range (history_limit c) 1 100000 "history_limit";
  _ ← range (audit_check_hours c) 0 (24 * 365) "audit_check_hours";
  _ ← check_all (λ p, if negb (is_absolute p) then Err (fmt "{} must be an absolute path" [display p]) else Ok tt)
        [socket c; state_dir c; quarantine_store c];
  _ ← reject_if (108 <=? len (socket c))
        (fmt "socket path {} is too long (Unix sockets allow at most 107 bytes)" [display (socket c)]);
  _ ← check_all (λ p, if negb (is_absolute p)
                      then Err (fmt "content directory {} must be absolute" [display p]) else Ok tt)
        (content c ++ keyrings c);
  _ ← match update_source c with Some src => check_source src | None => Ok tt end;
  _ ← reject_if (MAX_SCHEDULES <? vlen (schedules c)) (fmt "at most {MAX_SCHEDULES} schedules" [show_N MAX_SCHEDULES]);
  check_schedules (update_source c) ∅ (schedules c).

(** An open file: its owner and mode, and what reading it gives. *)
Record trusted_file := mkTrusted { stat : result IoError (N * N); body : source }.

Definition at_path (p : path) (e : IoError) : string := fmt "{}: {e}" [display p; io_text e].

Definition check_trusted_file (p : path) (f : trusted_file) : result string unit :=
  '(uid, mode) ← map_err (at_path p) (stat f);
  if negb (uid =? 0) || negb (N.land mode 0x12 =? 0)
  then Err (fmt "{} must be owned by root and not writable by group or others (owner {}, mode {:04o})"
              [display p; show_N uid; octal4 (N.land mode 0xFFF)])
  else Ok tt.

(** [file.take(max).read_to_string] *)
Definition read_text (max : N) (s : source) : result IoError string :=
  match failure s with
  | Some e => if vlen (octets s) <? max then Err e
              else ok_or (from_utf8 (take (N.to_nat max) (octets s)))
                     (OtherError "stream did not contain valid UTF-8")
  | None => ok_or (from_utf8 (take (N.to_nat max) (octets s)))
              (OtherError "stream did not contain valid UTF-8")
  end.

Definition load `{Json ServiceConfig} (p : path) (opened : result IoError trusted_file) (require_secure : bool)
    : result string ServiceConfig :=
  match opened with
  | Err e =>
      if is_not_found e then _ ← validate default_config; Ok default_config
      else Err (at_path p e)
  | Ok f =>
      _ ← (if require_secure then check_trusted_file p f else Ok tt);
      text ← map_err (at_path p) (read_text (MAX_CONFIG + 1) (body f));
      _ ← reject_if (MAX_CONFIG <? len text) (fmt "{} is larger than 1 MiB" [display p]);
      c ← map_err (λ e, fmt "{}: {e}" [display p; e]) (from_slice (as_bytes text));
      _ ← validate c;
      Ok c
  end.

(** *** What a loaded configuration guarantees *)

Record valid_schedule (update_source : option string) (s : Schedule) : Prop := {
  vs_name : Ipc.valid_name (name s) = true;
  vs_every : 1 ≤ every_hours s ≤ 24 * 366;
  vs_at : ∀ a, at_utc s = Some a → is_Some (parse_hhmm a) ∧ every_hours s mod 24 = 0;
  vs_scan : kind s = KScan → 0 < vlen (paths s) ≤ MAX_PATHS ∧
    Forall (λ p, is_absolute p = true ∧ contains_byte 0 p = false) (paths s);
  vs_other : kind s ≠ KScan → paths s = [] ∧ quarantine s = false;
  vs_update : kind s = KUpdate → heuristics s = false ∧ is_Some update_source }.

Lemma range_Ok v lo hi what u : range v lo hi what = Ok u ↔ lo ≤ v ≤ hi.
Proof. unfold range. destruct ((lo <=? v) && (v <=? hi)) eqn:E, u; naive_solver lia. Qed.

Lemma check_at_Ok s u a : check_at s = Ok u → at_utc s = Some a → is_Some (parse_hhmm a) ∧ every_hours s mod 24 = 0.
Proof.
  unfold check_at. intros Hc Ha. rewrite Ha in Hc. destruct (parse_hhmm a); [|done].
  destruct (N.eqb_spec (every_hours s mod 24) 0); [|done]. split; [by eauto|done].
Qed.

Lemma find_None {A} (f : A → bool) l : List.find f l = None → Forall (λ x, f x = false) l.
Proof. intros H. apply Forall_forall. intros x Hx%list_elem_of_In. by eapply find_none. Qed.

Lemma check_kind_Ok us s u : check_kind us s = Ok u →
  (kind s = KScan → 0 < vlen (paths s) ≤ MAX_PATHS ∧
    Forall (λ p, is_absolute p = true ∧ contains_byte 0 p = false) (paths s)) ∧
  (kind s ≠ KScan → paths s = [] ∧ quarantine s = false) ∧
  (kind s = KUpdate → heuristics s = false ∧ is_Some us).
Proof.
  unfold check_kind. destruct (kind s).
  - case_bool_decide as Hp; [done|]. destruct (N.ltb_spec MAX_PATHS (vlen (paths s))) as [|Hm]; [done|]. simpl.
    destruct (List.find bad_path (paths s)) eqn:Hf; [done|]. intros _. split_and!; [|done|done]. intros _. split.
    + split; [|done]. unfold vlen. destruct (paths s); [done|]. simpl. lia.
    + eapply Forall_impl; [by apply find_None|]. intros p. unfold bad_path. rewrite orb_false_iff, negb_false_iff. done.
  - case_bool_decide; [|done]. by destruct (quarantine s).
  - case_bool_decide; [|done]. destruct (quarantine s), (heuristics s); try done. simpl.
    case_bool_decide as Hn; [done|]. intros _. split_and!; [done..|].
    intros _. split; [done|]. by apply not_eq_None_Some.
Qed.

Lemma check_schedules_Ok us seen l u : check_schedules us seen l = Ok u →
  Forall (valid_schedule us) l ∧ NoDup (name <$> l) ∧ ∀ s, s ∈ l → name s ∉ seen.
Proof.
  revert seen. induction l as [|s l IH]; intros seen; simpl.
  { intros _. split_and!; [constructor|constructor|]. by intros ? ?%elem_of_nil. }
  intros H. apply result_bind_Ok in H as ([] & Hn & H). apply reject_if_Ok in Hn.
  apply orb_false_iff in Hn as [Hn Hseen%bool_decide_eq_false]. apply negb_false_iff in Hn.
  apply result_bind_Ok in H as ([] & Hr%range_Ok & H).
  apply result_bind_Ok in H as ([] & Ha & H). apply result_bind_Ok in H as ([] & Hk & H).
  apply IH in H as (HF & Hd & Hns). apply check_kind_Ok in Hk as (? & ? & ?). split_and!.
  - constructor; [|done]. constructor; [done|lia| |done..]. intros a Hat. by eapply check_at_Ok.
  - csimpl. constructor; [|done]. intros (s' & Heq & Hs')%list_elem_of_fmap.
    apply (Hns s' Hs'). rewrite <-Heq. set_solver.
  - intros s' [->|Hs']%elem_of_cons; [done|]. specialize (Hns _ Hs'). set_solver.
Qed.

(** Where updates may come from: an https URL, or an absolute directory. *)
Record valid_source (src : string) : Prop := {
  vu_place : (str_starts_with src "https://" = true ∧ 8 < len src) ∨
    (is_absolute src = true ∧ contains src "://" = false);
  vu_length : len src ≤ 2048;
  vu_printable : Forall (λ x, Text.is_control x = false) (chars src) }.

Lemma check_source_Ok src u : check_source src = Ok u → valid_source src.
Proof.
  unfold check_source. destruct (negb _ || _ || _) eqn:E; [done|]. intros _.
  apply orb_false_iff in E as [[Hp%negb_false_iff Hl%N.ltb_ge]%orb_false_iff Hc]. split; [|done|].
  - apply orb_true_iff in Hp as [[? ?%N.ltb_lt]%andb_true_iff|[? ?%negb_true_iff]%andb_true_iff]; auto.
  - apply Forall_forall. intros x Hx. apply not_true_is_false. intros Hx'.
    apply not_true_iff_false in Hc. apply Hc, existsb_true. eauto.
Qed.

Record valid_config (c : ServiceConfig) : Prop := {
  vc_concurrent : 1 ≤ max_concurrent_jobs c ≤ 8;
  vc_queued : 1 ≤ max_queued_jobs c ≤ 1000;
  vc_timeout : 1 ≤ job_timeout_minutes c ≤ 7 * 24 * 60;
  vc_history : 1 ≤ history_limit c ≤ 100000;
  vc_audit : audit_check_hours c ≤ 24 * 365;
  vc_paths : Forall (λ p, is_absolute p = true)
    (socket c :: state_dir c :: quarantine_store c :: content c ++ keyrings c);
  vc_socket : len (socket c) ≤ 107;
  vc_source : ∀ src, update_source c = Some src → valid_source src;
  vc_count : vlen (schedules c) ≤ MAX_SCHEDULES;
  vc_schedules : Forall (valid_schedule (update_source c)) (schedules c);
  vc_distinct : NoDup (name <$> schedules c) }.

Lemma absolute_Forall (e : path → string) l u :
  check_all (λ p, if negb (is_absolute p) then Err (e p) else Ok tt) l = Ok u → Forall (λ p, is_absolute p = true) l.
Proof.
  intros H%check_all_Ok. eapply Forall_impl; [exact H|]. intros p. simpl. by destruct (is_absolute p).
Qed.

Lemma validate_Ok c u : validate c = Ok u → valid_config c.
Proof.
  unfold validate. intros H.
  apply result_bind_Ok in H as ([] & H1%range_Ok & H). apply result_bind_Ok in H as ([] & H2%range_Ok & H).
  apply result_bind_Ok in H as ([] & H3%range_Ok & H). apply result_bind_Ok in H as ([] & H4%range_Ok & H).
  apply result_bind_Ok in H as ([] & H5%range_Ok & H). apply result_bind_Ok in H as ([] & Ha & H).
  apply absolute_Forall in Ha. apply result_bind_Ok in H as ([] & Hsock%reject_if_Ok & H).
  apply result_bind_Ok in H as ([] & Hb & H). apply absolute_Forall in Hb.
  apply result_bind_Ok in H as ([] & Hsrc & H). apply result_bind_Ok in H as ([] & Hcount%reject_if_Ok & H).
  apply check_schedules_Ok in H as (Hs & Hd & _). apply N.leb_gt in Hsock. apply N.ltb_ge in Hcount.
  constructor; try done; try lia; [|intros src E; rewrite E in Hsrc; by eapply check_source_Ok]. apply Forall_cons in Ha as [? Ha]. apply Forall_cons in Ha as [? Ha].
  apply Forall_cons in Ha as [? _]. by repeat constructor.
Qed.
End Validate.
End SvcConfig.
Abbreviation ServiceConfig := SvcConfig.ServiceConfig.
Abbreviation Schedule := SvcConfig.Schedule.

(** ** accounts.rs *)
Module Accounts.
Import SvcConfig.

Record User := mkUser { user_name : string; uid : N; user_gid : N }.
Record Group := mkGroup { group_name : string; gid : N; members : list string }.

Definition MAX_LINES : nat := N.to_nat 200000.

Definition lines_of (text : string) : list string := of_bytes <$> lines (as_bytes text).

Definition parse_user (line : string) : option User :=
  match split_on ":" line with
  | n :: _ :: u :: g :: _ :: _ :: _ :: _ =>
      if bool_decide (n = "") then None
      else u ← parse_uint u32_max u; g ← parse_uint u32_max g; Some (mkUser n u g)
  | _ => None
  end.
Definition parse_passwd (text : string) : list User := omap parse_user (take MAX_LINES (lines_of text)).

Definition parse_one_group (line : string) : option Group :=
  match split_on ":" line with
  | n :: _ :: g :: m :: _ =>
      if bool_decide (n = "") then None
      else g ← parse_uint u32_max g;
           Some (mkGroup n g (List.filter (λ x, negb (bool_decide (x = ""))) (split_on "," m)))
  | _ => None
  end.
Definition parse_group (text : string) : list Group := omap parse_one_group (take MAX_LINES (lines_of text)).

Record Accounts := mkAccounts { users : list User; groups : list Group }.

(** [Accounts::load]; a file that cannot be read is empty. *)
Definition load (passwd group : result IoError string) : Accounts :=
  let text r := match r with Ok t => t | Err _ => ""%string end in
  mkAccounts (parse_passwd (text passwd)) (parse_group (text group)).

Definition user (a : Accounts) (u : N) : option User := List.find (λ x, uid x =? u) (users a).
Definition user_by_name (a : Accounts) (n : string) : option User :=
  List.find (λ x, bool_decide (user_name x = n)) (users a).
Definition group_by_name (a : Accounts) (n : string) : option Group :=
  List.find (λ x, bool_decide (group_name x = n)) (groups a).

Definition is_admin (a : Accounts) (u : N) (cfg : ServiceConfig) : bool :=
  if u =? 0 then true
  else
    let me := user a u in
    let listed x := bool_decide (parse_uint u32_max x = Some u)
                    || match me with Some w => bool_decide (user_name w = x) | None => false end in
    if existsb listed (admin_users cfg) then true
    else
      match admin_group cfg ≫= group_by_name a, me with
      | Some g, Some w => (user_gid w =? gid g) || existsb (λ m, bool_decide (m = user_name w)) (members g)
      | _, _ => false
      end.
End Accounts.

(** ** schedule.rs: times *)
Module Sched.
Import Ipc SvcConfig.

Definition DAY : Z := dur_days 1.

(** [t.date()] as the start of its day, and [date.with_time(at)]. *)
Definition date (t : Z) : Z := (t / DAY * DAY)%Z.
Definition time_of (h m : N) : Z := (dur_hours (Z.of_N h) + dur_minutes (Z.of_N m))%Z.

Definition next_due (s : Schedule) (last : option Z) (now : Z) : Z :=
  let interval := dur_hours (Z.of_N (every_hours s)) in
  match at_utc s ≫= parse_hhmm with
  | None => match last with None => now | Some l => (l + interval)%Z end
  | Some (h, m) =>
      let at_ := time_of h m in
      match last with
      | Some l => (date l + dur_days (Z.of_N (every_hours s / 24)) + at_)%Z
      | None =>
          let today := (date now + at_)%Z in
          if (now <=? today)%Z then today else (today + dur_days 1)%Z
      end
  end.

Definition info (cfg : ServiceConfig) (state : gmap string Z) (now : Z) : list ScheduleInfo :=
  (λ s, let last := state !! name s in
        mkScheduleInfo (name s) (kind s) (paths s) (every_hours s) (at_utc s) (heuristics s) (quarantine s)
          last (next_due s last now)) <$> schedules cfg.

Lemma day_pos : (0 < DAY)%Z.
Proof. done. Qed.

Lemma date_bounds t : (date t ≤ t < date t + DAY)%Z.
Proof.
  unfold date. pose proof (Z.div_mod t DAY ltac:(done)). pose proof (Z.mod_pos_bound t DAY day_pos). lia.
Qed.

Lemma parse_hhmm_bounds s h m : parse_hhmm s = Some (h, m) → h < 24 ∧ m < 60.
Proof.
  unfold parse_hhmm. intros H. apply bind_Some in H as ([a b] & _ & H).
  apply bind_Some in H as (x & _ & H). apply bind_Some in H as (y & _ & H).
  destruct (N.ltb_spec x 24), (N.ltb_spec y 60); simpl in H; try done.
  destruct (len s =? 5); simplify_eq. done.
Qed.

Lemma time_of_bounds h m : h < 24 → m < 60 → (0 ≤ time_of h m < DAY)%Z.
Proof.
  intros. unfold time_of, DAY, dur_hours, dur_minutes, dur_days, dur_secs, nanos_per_sec. lia.
Qed.
End Sched.

(** ** Properties *)
Module ConfigProps.
Import SvcConfig Sched.

Section Props.
Context `{ST : StdText, J : Json ServiceConfig}.

(** C34: the configuration the service runs with. Whatever the file holds, a
    configuration that [load] accepts respects every limit that [validate]
    checks: the numbers are in their ranges, the paths are absolute and the
    socket's fits its address, updates come from an https URL or an absolute
    directory, and there are no more schedules than allowed, with distinct
    names, whose times, paths and options fit their kind. It is the default
    because there is no file, or what the text of the file decodes to, all of
    it within a mebibyte; and with [require_secure] the file is root's and
    nobody else may write it. *)
Theorem loaded_config_sound p opened secure c (Hl : load p opened secure = Ok c) :
  valid_config c ∧
  ((opened = Err (Os 2) ∧ c = default_config) ∨
   ∃ f text, opened = Ok f ∧ read_text (MAX_CONFIG + 1) (body f) = Ok text ∧ len text ≤ MAX_CONFIG ∧
     from_slice (as_bytes text) = Ok c ∧
     (secure = true → ∃ mode, stat f = Ok (0, mode) ∧ N.land mode 0x12 = 0)).
Proof.
  unfold load in Hl. destruct opened as [f|e].
  - apply result_bind_Ok in Hl as ([] & Hs & Hl). apply result_bind_Ok in Hl as (t & Ht%map_err_Ok & Hl).
    apply result_bind_Ok in Hl as ([] & Hlen%reject_if_Ok%N.ltb_ge & Hl).
    apply result_bind_Ok in Hl as (c' & Hc%map_err_Ok & Hl).
    apply result_bind_Ok in Hl as ([] & Hv & [= ->]). split; [by eapply validate_Ok|]. right.
    exists f, t. split_and!; [done..|]. intros ->.
    unfold check_trusted_file in Hs. apply result_bind_Ok in Hs as ([u mode] & Hst%map_err_Ok & Hs).
    destruct (N.eqb_spec u 0) as [->|]; [|done]. destruct (N.eqb_spec (N.land mode 0x12) 0); [|done].
    by exists mode.
  - destruct (is_not_found e) eqn:He; [|done]. apply bool_decide_eq_true in He as ->.
    apply result_bind_Ok in Hl as ([] & Hv & [= <-]). split; [by eapply validate_Ok|]. by left.
Qed.

(** Schedules do not pile up. Once a run at time [l] is recorded, a valid
    schedule is due again later than [l], at the same instant however often
    and whenever it is looked at, and no later than its interval after [l], up
    to the time of day for a schedule with one. *)
Theorem schedule_advances us s l now (Hs : valid_schedule us s) :
  let due := next_due s (Some l) now in
  (l < due)%Z ∧ (∀ now', next_due s (Some l) now' = due) ∧
  match at_utc s with
  | None => due = (l + dur_hours (Z.of_N (every_hours s)))%Z
  | Some _ => (due < l + dur_hours (Z.of_N (every_hours s)) + dur_days 1)%Z ∧
      ∃ h m, h < 24 ∧ m < 60 ∧ (due mod DAY = time_of h m)%Z
  end.
Proof.
  intros due. destruct Hs as [_ [Hlo Hhi] Hat _ _ _]. unfold due, next_due.
  destruct (at_utc s) as [a|] eqn:Ha; simpl.
  - destruct (Hat a eq_refl) as [[[h m] Hp] Hmod]. rewrite Hp. destruct (parse_hhmm_bounds _ _ _ Hp) as [Hh Hm].
    pose proof (time_of_bounds h m Hh Hm) as Ht. pose proof (date_bounds l) as Hd.
    assert (Hdays : ∃ k, every_hours s = 24 * k ∧ 1 ≤ k).
    { exists (every_hours s / 24). pose proof (N.div_mod (every_hours s) 24 ltac:(done)). split; [lia|].
      apply N.div_le_lower_bound; lia. }
    destruct Hdays as (k & Hk & Hk1). rewrite Hk. replace (24 * k / 24) with k by (rewrite N.mul_comm, N.div_mul; done).
    assert (dur_days (Z.of_N k) = (Z.of_N k * DAY)%Z) as ->
      by (unfold DAY, dur_days, dur_secs; lia).
    assert (dur_hours (Z.of_N (24 * k)) = (Z.of_N k * DAY)%Z) as ->
      by (unfold DAY, dur_hours, dur_days, dur_secs; lia).
    assert (dur_days 1 = DAY) as -> by done. split_and!; [nia|done|nia|].
    exists h, m. split_and!; [done..|]. unfold date.
    replace (l / DAY * DAY + Z.of_N k * DAY + time_of h m)%Z with (time_of h m + (l / DAY + Z.of_N k) * DAY)%Z by lia.
    rewrite Z.mod_add by done. by apply Z.mod_small.
  - split_and!; [|done|done]. unfold dur_hours, dur_secs, nanos_per_sec. lia.
Qed.

(** A schedule with a time of day that has never run is due only at that exact
    nanosecond: at any other instant [next_due] gives a later one, so the
    check every 30 seconds practically never starts it. *)
Theorem first_timed_run_never_due s a h m now (Ha : at_utc s = Some a) (Hp : parse_hhmm a = Some (h, m)) :
  (next_due s None now ≤ now)%Z ↔ now = (date now + time_of h m)%Z.
Proof.
  unfold next_due. rewrite Ha. simpl. rewrite Hp. destruct (parse_hhmm_bounds _ _ _ Hp) as [Hh Hm].
  pose proof (time_of_bounds h m Hh Hm) as Ht. pose proof (date_bounds now) as Hd.
  assert (dur_days 1 = DAY) as -> by done.
  destruct (Z.leb_spec now (date now + time_of h m)%Z); lia.
Qed.
End Props.

(** ** Instances *)

#[local] Instance toy_text_here : StdText := toy_text.
Definition nightly : Schedule := mkSchedule "nightly" Ipc.KScan ["/home"%string] 24 (Some "03:30"%string) true false.
Definition with_nightly : ServiceConfig :=
  mkServiceConfig "/run/s" None "/var/lib/s" "/var/lib/q" [] None "scan" None [] [] None 1 32 240 200 24 [nightly].
#[local] Instance one_config : Json ServiceConfig := {|
  to_vec _ := Ok [123; 125]; from_slice bs := if bool_decide (bs = [123; 125]) then Ok with_nightly else Err "no"%string |}.
Definition config_file : trusted_file := mkTrusted (Ok (0, 0x1A4)) (mkSource [123; 125] None).

Lemma loaded_config_sound_witness :
  load "/etc/abyssal-warden/service.json" (Ok config_file) true = Ok with_nightly ∧
  valid_schedule None nightly.
Proof.
  assert (Hl : load "/etc/abyssal-warden/service.json" (Ok config_file) true = Ok with_nightly) by by vm_compute.
  split; [exact Hl|]. destruct (loaded_config_sound _ _ _ _ Hl) as [Hv _].
  exact (proj1 (proj1 (Forall_cons _ _ _) (vc_schedules _ Hv))).
Defined.

Lemma nightly_valid : valid_schedule None nightly.
Proof.
  pose proof (check_schedules_Ok None ∅ [nightly] tt) as H. destruct H as [Hv _]; [by vm_compute|].
  exact (proj1 (proj1 (Forall_cons _ _ _) Hv)).
Qed.

Lemma schedule_advances_witness :
  next_due nightly (Some (dur_hours 4)) 0 = (dur_days 1 + dur_minutes 210)%Z ∧
  (dur_hours 4 < dur_days 1 + dur_minutes 210)%Z.
Proof.
  assert (He : next_due nightly (Some (dur_hours 4)) 0 = (dur_days 1 + dur_minutes 210)%Z) by by vm_compute.
  split; [exact He|]. rewrite <-He. exact (proj1 (schedule_advances None nightly (dur_hours 4) 0 nightly_valid)).
Defined.

(** At noon it is due tomorrow, at midnight later today. *)
Lemma first_timed_run_never_due_witness :
  parse_hhmm "03:30" = Some (3, 30) ∧ ¬ (next_due nightly None (dur_hours 12) ≤ dur_hours 12)%Z.
Proof.
  assert (Hp : parse_hhmm "03:30" = Some (3, 30)) by by vm_compute. split; [exact Hp|].
  rewrite (first_timed_run_never_due nightly _ _ _ _ eq_refl Hp). by vm_compute.
Defined.

(** [parse_hhmm] also accepts five octets that are not two digits, a colon and
    two digits. *)
Theorem hhmm_accepts_other_forms :
  parse_hhmm "3:005" = Some (3, 5) ∧ parse_hhmm "+3:05" = Some (3, 5) ∧ parse_hhmm "03:+5" = Some (3, 5).
Proof. by vm_compute. Qed.
End ConfigProps.
