(* ===== verification/Jobs.v ===== *)
(** * The service's jobs: [crates/service/src/store.rs], [runner.rs], [jobs.rs]

    The job store is the octets of its files; a write replaces a file or, when
    it fails, leaves it (the rename is the last step). The child process is
    its answers to [try_wait], its exit code and its output. The quarantine
    store is an interface ([QuarantineOps]). *)

From S2P Require Import Prelude Utf8 Paths Core External AuditLog Remediation Ipc ServiceConfig.

(** What the service uses of [warden_remediation::QuarantineStore]; the state
    [Q] is the store's directory. [q_open] also recovers; its argument is
    [on_behalf_of]. *)
Class QuarantineOps (Q : Type) := {
  q_exists : Q → bool;
  q_allowlist : Q → result string (list Allow.AllowEntry);
  q_open : option string → Q → result string unit * Q;
  q_quarantine : Q → Remediation.Policy.QuarantineRequest → result Record.RemediationError Record.QuarantineRecord * Q;
  q_list : Q → result string (list Record.QuarantineRecord) * Q;
  q_get : Record.QuarantineId → Q → result string Record.QuarantineRecord * Q;
  q_restore : Record.QuarantineId → Q → result string path * Q;
  q_allow : Sha256Digest → string → option Record.QuarantineId → option string → Q → result string unit * Q;
  q_delete : Record.QuarantineId → Q → result string unit * Q;
  q_audit_chain : Q → result string (list (N * string)) }.

(** The [uuid] crate's hyphenated text, and what the code reads in a
    [serde_json::Value]: [v.get("findings")?.as_array()?.len()]. *)
Class UuidText := uuid_text : Uuid → string.
Class JsonValue (V : Type) := findings_len : V → option N.

(** [sanitize] of lib.rs. *)
Definition sanitize (s : string) : string := Text.escape_unsafe_chars s.

(** ** store.rs *)
Module JobStore.
Import Ipc.

Definition MAX_REPORT_READ : N := MAX_RESPONSE / 2.

Record Files := mkFiles {
  job_files : gmap string bytes;
  report_files : gmap string bytes;
  schedules_json : option bytes;
  audit_json : option bytes;
}.

Section Store.
Context `{UT : UuidText, JJ : Json JobSummary, JP : JsonPretty JobSummary, JS : Json (gmap string Z),
  SP : JsonPretty (gmap string Z), JA : Json AuditStatus, AP : JsonPretty AuditStatus}.

(** [job_path], [report_path]: the file's name in its directory. *)
Definition file_of (id : Uuid) : string := fmt "{id}.json" [uuid_text id].

(** [write_private]: [outcome] is the operating system's answer. *)
Definition write_private (outcome : result string unit) (bs : bytes) (put : bytes → Files → Files) (d : Files)
    : result string unit * Files :=
  match outcome with Ok _ => (Ok tt, put bs d) | Err e => (Err e, d) end.

Definition put_job (id : Uuid) (bs : bytes) (d : Files) : Files :=
  mkFiles (<[file_of id := bs]> (job_files d)) (report_files d) (schedules_json d) (audit_json d).
Definition put_report (id : Uuid) (bs : bytes) (d : Files) : Files :=
  mkFiles (job_files d) (<[file_of id := bs]> (report_files d)) (schedules_json d) (audit_json d).

Definition save_job (outcome : result string unit) (j : JobSummary) (d : Files) : result string unit * Files :=
  match to_vec_pretty j with
  | Err e => (Err e, d)
  | Ok bs => write_private outcome bs (put_job (job_id j)) d
  end.

Definition save_report (outcome : result string unit) (id : Uuid) (bs : bytes) (d : Files)
    : result string unit * Files := write_private outcome bs (put_report id) d.

(** [report]; [failed] is an error of opening or reading. *)
Definition report {V} `{Json V} (failed : option string) (id : Uuid) (d : Files) : result string (option V) :=
  match failed with
  | Some e => Err e
  | None =>
      match report_files d !! file_of id with
      | None => Ok None
      | Some bs => map_ok Some (from_slice (takeN MAX_REPORT_READ bs))
      end
  end.

(** [Path::extension] of a file name. *)
Fixpoint rsplit_dot (acc l : list N) : option (list N * list N) :=
  match l with
  | [] => None
  | c :: l => if c =? 46 then Some (reverse l, acc) else rsplit_dot (c :: acc) l
  end.
Definition extension (name : string) : option string :=
  if bool_decide (name = "..") then None
  else
    match rsplit_dot [] (reverse (as_bytes name)) with
    | Some (_ :: _, e) => Some (of_bytes e)
    | _ => None
    end.

(** [load_jobs] over the entries of the directory, in its order ([None]: it
    cannot be read). *)
Definition load_one (e : string * result string bytes) : option (result string JobSummary) :=
  if bool_decide (extension e.1 = Some "json"%string)
  then Some (map_err (λ m, fmt "{}: {err}" [e.1; m]) (bs ← e.2; from_slice bs))
  else None.
Definition created_order (a b : JobSummary) : comparison := Z.compare (created_at a) (created_at b).
Definition load_jobs (entries : option (list (string * result string bytes))) : list JobSummary * list string :=
  match entries with
  | None => ([], [])
  | Some l =>
      let rs := omap load_one (takeN 1000000 l) in
      (sort_by created_order (omap (λ r, match r with Ok j => Some j | Err _ => None end) rs),
       omap (λ r, match r with Ok _ => None | Err e => Some e end) rs)
  end.

(** [prune]; [removable] tells whether the operating system lets a job file be
    removed. *)
Definition drop_report (id : Uuid) (d : Files) : Files :=
  mkFiles (job_files d) (delete (file_of id) (report_files d)) (schedules_json d) (audit_json d).
Definition drop_job (id : Uuid) (d : Files) : Files :=
  mkFiles (delete (file_of id) (job_files d)) (report_files d) (schedules_json d) (audit_json d).

Fixpoint prune_all (removable : Uuid → bool) (js : list JobSummary) (d : Files) : list Uuid * Files :=
  match js with
  | [] => ([], d)
  | j :: js =>
      let id := job_id j in
      let d := drop_report id d in
      if removable id && bool_decide (is_Some (job_files d !! file_of id)) then
        let '(removed, d) := prune_all removable js (drop_job id d) in (id :: removed, d)
      else prune_all removable js d
  end.
Definition prune (removable : Uuid → bool) (js : list JobSummary) (keep : N) (d : Files) : list Uuid * Files :=
  let done := List.filter (λ j, finished (state j)) js in
  let excess := (length done - N.to_nat keep)%nat in
  prune_all removable (take excess done) d.

Definition schedule_state (d : Files) : gmap string Z :=
  match schedules_json d with
  | None => ∅
  | Some bs => match from_slice bs with Ok m => m | Err _ => ∅ end
  end.

Definition save_schedule_state (outcome : result string unit) (m : gmap string Z) (d : Files)
    : result string unit * Files :=
  match to_vec_pretty m with
  | Err e => (Err e, d)
  | Ok bs => write_private outcome bs
      (λ bs d, mkFiles (job_files d) (report_files d) (Some bs) (audit_json d)) d
  end.

Definition last_audit (d : Files) : option AuditStatus :=
  bs ← audit_json d; match from_slice bs with Ok a => Some a | Err _ => None end.

Definition save_audit (outcome : result string unit) (a : AuditStatus) (d : Files) : result string unit * Files :=
  match to_vec_pretty a with
  | Err e => (Err e, d)
  | Ok bs => write_private outcome bs
      (λ bs d, mkFiles (job_files d) (report_files d) (schedules_json d) (Some bs)) d
  end.
End Store.
End JobStore.

(** ** runner.rs *)
Module Runner.

Inductive Identity :=
  | Inherit
  | Account (uid gid : N) (caps : list string)
  | AsUser (uid gid : N).
#[export] Instance Identity_eq_dec : EqDecision Identity.
Proof. solve_decision. Defined.

Definition SCAN_CAPS : list string := ["dac_read_search"]%string.
Definition SYSTEM_CHECK_CAPS : list string := ["dac_read_search"; "sys_ptrace"]%string.
Definition UPDATE_CAPS : list string := [].

Definition caps_text (l : list string) : string :=
  foldl (λ s c, (s +:+ ",+" +:+ c)%string) "-all"%string l.

Definition setpriv_args (i : Identity) : list string :=
  match i with
  | Inherit => []
  | Account u g l =>
      [fmt "--reuid={uid}" [show_N u]; fmt "--regid={gid}" [show_N g]; "--clear-groups";
       fmt "--inh-caps={}" [caps_text l]]%string
      ++ (match l with [] => [] | _ => [fmt "--ambient-caps={}" [caps_text l]] end)
      ++ [fmt "--bounding-set={}" [caps_text l]] ++ ["--no-new-privs"; "--"]%string
  | AsUser u g =>
      [fmt "--reuid={uid}" [show_N u]; fmt "--regid={gid}" [show_N g]; "--init-groups";
       "--inh-caps=-all"; "--bounding-set=-all"; "--no-new-privs"; "--"]%string
  end.

(** A [std::process::Command]; the inherited environment is cleared. *)
Record Command := mkCommand {
  program : path;
  args : list string;
  env : list (string * string);
  current_dir : path;
  process_group : N;
}.

Definition child_env : list (string * string) :=
  [("ABYSSAL_WARDEN_SYSLOG_SOCKET", ""); ("PATH", "/usr/bin:/bin:/usr/sbin:/sbin"); ("LC_ALL", "C")]%string.

Definition command (setpriv : option path) (binary : path) (i : Identity) (a : list string)
    : result string Command :=
  let make p pre := Ok (mkCommand p (pre ++ a) child_env "/" 0) in
  match i, setpriv with
  | Inherit, _ => make binary []
  | _, Some sp => make sp (setpriv_args i ++ [binary])
  | _, None => Err "changing identity needs setpriv (util-linux)"%string
  end.

Record Outcome := mkOutcome {
  exit_code : option Z;
  stdout : bytes;
  stdout_truncated : bool;
  stderr_tail : string;
  timed_out : bool;
  cancelled : bool;
}.

Definition STDERR_TAIL : nat := N.to_nat 4096.

(** The thread that reads the error output, one chunk after another. *)
Definition keep_tail (tail chunk : bytes) : bytes :=
  let all := tail ++ chunk in
  if (STDERR_TAIL <? length all)%nat then drop (length all - STDERR_TAIL) all else all.

(** What [try_wait] answers, the clock and the cancel flag at one turn of the
    loop. *)
Inductive wait_answer := HasExited (code : option Z) | StillRunning | WaitFailed (e : string).
Record turn := mkTurn { answer : wait_answer; now : Z; cancel : bool }.

(** The wait loop: the exit code, and whether the child was killed because it
    was late or cancelled; [killed] is what [wait] gives after the kill. [None]: still
    waiting after these turns. *)
Fixpoint wait_loop (deadline : Z) (killed : result string (option Z)) (ts : list turn)
    : option (result string (option Z * bool * bool)) :=
  match ts with
  | [] => None
  | t :: ts =>
      match answer t with
      | HasExited c => Some (Ok (c, false, false))
      | WaitFailed e => Some (Err e)
      | StillRunning =>
          let expired := (deadline <=? now t)%Z in
          if expired || cancel t
          then Some (c ← killed; Ok (c, expired, negb expired))
          else wait_loop deadline killed ts
      end
  end.

(** The child: whether it starts, its pipes, its turns, its output. *)
Record child := mkChild {
  spawned : result string bool;
  started : Z;
  turns : list turn;
  after_kill : result string (option Z);
  out_bytes : bytes;
  err_chunks : list bytes;
}.

Definition run (timeout : Z) (max_stdout : N) (ch : child) : option (result string Outcome) :=
  match spawned ch with
  | Err e => Some (Err (fmt "cannot start scanner: {e}" [e]))
  | Ok false => Some (Err "scanner pipes unavailable"%string)
  | Ok true =>
      r ← wait_loop (started ch + timeout)%Z (after_kill ch) (turns ch);
      Some (match r with
            | Err e => Err e
            | Ok (code, late, stopped) =>
                let buf := takeN (max_stdout + 1) (out_bytes ch) in
                let truncated := max_stdout <? vlen buf in
                Ok (mkOutcome code (if truncated then takeN max_stdout buf else buf) truncated
                      (of_chars (decode_lossy (foldl keep_tail [] (err_chunks ch)))) late stopped)
            end)
  end.
End Runner.

(** ** jobs.rs *)
Module Jobs.
Import Ipc Runner JobStore.

Definition MAX_OUTPUT : N := N.shiftl 256 20.
Definition MAX_LISTED : nat := N.to_nat 500.

Inductive RunAs := RunService | RunCaller (uid gid : N).
#[export] Instance RunAs_eq_dec : EqDecision RunAs.
Proof. solve_decision. Defined.
Definition is_caller (r : RunAs) : bool := match r with RunCaller _ _ => true | RunService => false end.

Record JobSpec := mkSpec {
  spec_kind : JobKind;
  spec_paths : list string;
  spec_heuristics : bool;
  no_archives : bool;
  spec_quarantine : bool;
  run_as : RunAs;
}.
#[export] Instance JobSpec_eq_dec : EqDecision JobSpec.
Proof. solve_decision. Defined.

Record Environment := mkEnvironment {
  cfg : ServiceConfig;
  binary : path;
  setpriv : option path;
  scanner : option (N * N);
}.

Record State := mkState {
  jobs : gmap Uuid JobSummary;
  specs : gmap Uuid JobSpec;
  queue : list Uuid;
  cancels : gmap Uuid bool;
  shutdown : bool;
}.
Definition empty_state : State := mkState ∅ ∅ [] ∅ false.

Definition set_jobs (m : gmap Uuid JobSummary) (s : State) : State :=
  mkState m (specs s) (queue s) (cancels s) (shutdown s).

(** [BTreeMap::values]: in the order of the keys. *)
Definition key_order (a b : Uuid * JobSummary) : comparison := N.compare a.1 b.1.
Definition values (m : gmap Uuid JobSummary) : list JobSummary := (sort_by key_order (map_to_list m)).*2.

(** The fields the code assigns. *)
Definition with_state (st : JobState) (started finished : option Z) (j : JobSummary) : JobSummary :=
  mkJob (job_id j) (kind j) st (owner j) (schedule j) (job_paths j) (job_heuristics j) (job_quarantine j)
    (as_owner j) (created_at j) started finished (Ipc.exit_code j) (findings j) (quarantined j) (error j).
Definition with_result (st : JobState) (finished : option Z) (code : option Z) (f q : option N) (e : option string)
    (j : JobSummary) : JobSummary :=
  mkJob (job_id j) (kind j) st (owner j) (schedule j) (job_paths j) (job_heuristics j) (job_quarantine j)
    (as_owner j) (created_at j) (started_at j) finished code f q e.

Record JobResult := mkResult {
  res_state : JobState;
  res_exit_code : option Z;
  res_findings : option N;
  res_quarantined : option N;
  res_error : option string;
}.
Definition default_result : JobResult := mkResult Failed None None None None.
Definition failed (e : string) : JobResult := mkResult Failed None None None (Some e).

(** [j.finished_at = Some(now); result.apply(j);] *)
Definition apply (r : JobResult) (now : Z) (j : JobSummary) : JobSummary :=
  with_result (res_state r) (Some now) (res_exit_code r) (res_findings r) (res_quarantined r) (res_error r) j.

Section Manager.
Context `{UT : UuidText, JJ : Json JobSummary, JP : JsonPretty JobSummary}.

(** A job that was interrupted, as [Manager::new] marks it. *)
Definition interrupt (now : Z) (j : JobSummary) : JobSummary :=
  with_result Failed (Some now) (Ipc.exit_code j) (findings j) (quarantined j)
    (Some "interrupted: the service stopped"%string) j.

(** The loop of [Manager::new]; [saved] answers the writes in order. *)
Fixpoint adopt (now : Z) (js : list JobSummary) (saved : Uuid → result string unit) (s : State) (d : Files)
    : State * Files :=
  match js with
  | [] => (s, d)
  | j :: js =>
      let '(j, d) := if finished (state j) then (j, d)
                     else let j := interrupt now j in (j, (save_job (saved (job_id j)) j d).2) in
      adopt now js saved (set_jobs (<[job_id j := j]> (jobs s)) s) d
  end.
Definition new_manager (now : Z) (entries : option (list (string * result string bytes)))
    (saved : Uuid → result string unit) (d : Files) : State * Files :=
  adopt now (load_jobs entries).1 saved empty_state d.

Definition summary_of (id : Uuid) (owner : string) (sched : option string) (spec : JobSpec) (now : Z) : JobSummary :=
  mkJob id (spec_kind spec) Queued owner sched (spec_paths spec) (spec_heuristics spec) (spec_quarantine spec)
    (is_caller (run_as spec)) now None None None None None None.

Definition submit (c : ServiceConfig) (id : Uuid) (now : Z) (saved : result string unit)
    (owner : string) (sched : option string) (spec : JobSpec) (s : State) (d : Files)
    : result Rejection Uuid * State * Files :=
  if shutdown s then (Err (mkRejection Busy "the service is shutting down"), s, d)
  else if SvcConfig.max_queued_jobs c <=? vlen (queue s) then
    (Err (mkRejection Busy "too many queued jobs; try again later"), s, d)
  else
    let j := summary_of id owner sched spec now in
    match save_job saved j d with
    | (Err e, d) => (Err (mkRejection Internal e), s, d)
    | (Ok _, d) =>
        (Ok id, mkState (<[id := j]> (jobs s)) (<[id := spec]> (specs s)) (queue s ++ [id]) (cancels s) (shutdown s), d)
    end.

Definition get (id : Uuid) (s : State) : option JobSummary := jobs s !! id.

Definition newest_first (a b : JobSummary) : comparison := Z.compare (created_at b) (created_at a).
Definition list_jobs (visible : JobSummary → bool) (s : State) : list JobSummary :=
  take MAX_LISTED (sort_by newest_first (List.filter visible (values (jobs s)))).

Definition counts (s : State) : N * N := (N.of_nat (size (cancels s)), vlen (queue s)).

(** [st.queue.remove(position of id)] *)
Fixpoint remove_first (id : Uuid) (l : list Uuid) : list Uuid :=
  match l with
  | [] => []
  | x :: l => if x =? id then l else x :: remove_first id l
  end.

Definition not_active : Rejection := mkRejection NotFound "the job is not queued or running".

Definition cancel_job (id : Uuid) (now : Z) (saved : result string unit) (s : State) (d : Files)
    : result Rejection unit * State * Files :=
  match cancels s !! id with
  | Some _ => (Ok tt, mkState (jobs s) (specs s) (queue s) (<[id := true]> (cancels s)) (shutdown s), d)
  | None =>
      if bool_decide (id ∈ queue s) then
        let sp := delete id (specs s) in
        let q := remove_first id (queue s) in
        match jobs s !! id with
        | Some j =>
            let j := with_state Cancelled (started_at j) (Some now) j in
            (Ok tt, mkState (<[id := j]> (jobs s)) sp q (cancels s) (shutdown s), (save_job saved j d).2)
        | None => (Ok tt, mkState (jobs s) sp q (cancels s) (shutdown s), d)
        end
      else (Err not_active, s, d)
  end.

Definition shut_down (s : State) : State :=
  mkState (jobs s) (specs s) (queue s) ((λ _, true) <$> cancels s) true.

(** The queue loop of [worker], under the lock; [None]: there is nothing to
    take, and the worker waits. An id without its specification is passed
    over. *)
Fixpoint take_from (ids : list Uuid) (m : gmap Uuid JobSpec) : option (Uuid * JobSpec * list Uuid) :=
  match ids with
  | [] => None
  | id :: ids => match m !! id with Some sp => Some (id, sp, ids) | None => take_from ids m end
  end.
Definition take_job (now : Z) (saved : result string unit) (s : State) (d : Files)
    : option (Uuid * JobSpec * State * Files) :=
  '(id, sp, rest) ← take_from (queue s) (specs s);
  let sps := delete id (specs s) in
  let cs := <[id := false]> (cancels s) in
  Some (match jobs s !! id with
        | Some j =>
            let j := with_state Running (Some now) (finished_at j) j in
            (id, sp, mkState (<[id := j]> (jobs s)) sps rest cs (shutdown s), (save_job saved j d).2)
        | None => (id, sp, mkState (jobs s) sps rest cs (shutdown s), d)
        end).

(** [worker] after [execute]: the result is recorded and the history pruned. *)
Definition finish_job (c : ServiceConfig) (id : Uuid) (r : JobResult) (now : Z) (saved : result string unit)
    (removable : Uuid → bool) (s : State) (d : Files) : State * Files :=
  let cs := delete id (cancels s) in
  let '(js, d) := match jobs s !! id with
                  | Some j => let j := apply r now j in (<[id := j]> (jobs s), (save_job saved j d).2)
                  | None => (jobs s, d)
                  end in
  let '(removed, d) := prune removable (values js) (SvcConfig.history_limit c) d in
  (mkState (foldl (λ m i, delete i m) js removed) (specs s) (queue s) cs (shutdown s), d).
End Manager.

(** *** Running a job *)

Definition identity (e : Environment) (euid : N) (spec : JobSpec) : result string Identity :=
  let caps := match spec_kind spec with
              | KScan => SCAN_CAPS
              | KSystemCheck => SYSTEM_CHECK_CAPS
              | KUpdate => UPDATE_CAPS
              end in
  match run_as spec, scanner e with
  | RunService, Some (u, g) => Ok (Account u g caps)
  | RunCaller u g, Some _ => Ok (AsUser u g)
  | RunService, None => Ok Inherit
  | RunCaller u _, None =>
      if u =? euid then Ok Inherit
      else Err "the service is not running as root, so it cannot scan as another user"%string
  end.

(** [has_installed_content]: the directory's entries, each with whether it
    holds a [manifest.json]. *)
Definition has_installed_content (entries : option (list (string * bool))) : bool :=
  match entries with
  | None => false
  | Some l => existsb (λ e : string * bool, negb (str_starts_with e.1 ".") && e.2) l
  end.

Definition flagged (flag : string) (vs : list string) : list string := vs ≫= λ v, [flag; v].

Definition child_args (spec : JobSpec) (c : ServiceConfig) (state_file installed : path) (use_installed : bool)
    (timeout_secs : N) : list string :=
  match spec_kind spec with
  | KUpdate =>
      ["update"; "--format"; "json"; "--source"; default ""%string (SvcConfig.update_source c);
       "--content-dir"; installed; "--content-state"; state_file]%string
      ++ flagged "--keyring" (SvcConfig.keyrings c)
  | k =>
      (match k with
       | KScan =>
           ["scan"; "--format"; "json"; "--no-progress"; "--no-allowlist"; "--scan-timeout";
            show_N timeout_secs]%string ++ (if no_archives spec then ["--no-archives"%string] else [])
       | _ => ["system-check"; "--format"; "json"]%string
       end)
      ++ (if spec_heuristics spec then ["--heuristics"%string] else [])
      ++ flagged "--content" (SvcConfig.content c)
      ++ flagged "--keyring" (SvcConfig.keyrings c)
      ++ (if use_installed then ["--installed"; "--content-dir"; installed]%string else [])
      ++ (if negb (bool_decide (SvcConfig.content c = [])) || use_installed
          then ["--content-state"%string; state_file] else [])
      ++ (match k with KScan => "--"%string :: spec_paths spec | _ => [] end)
  end.

Section Execute.
Context {V Q : Type} `{UT : UuidText, JR : Json Report.ScanReport, JV : Json V, VV : JsonValue V,
  QO : QuarantineOps Q, RT : StdText}.
Context (show_date : Z → string) (err_text : Record.RemediationError → string).

(** [remediate]: the report, how many files were quarantined if it was asked
    for, and the quarantine store. *)
Definition remediate (spec : JobSpec) (r : Report.ScanReport) (q : Q)
    : Report.ScanReport * option N * Q :=
  let r := if q_exists q then
             match q_allowlist q with
             | Ok es => (Remediation.Policy.mark_allowed show_date r es).1
             | Err e => Report.push_warning r (fmt "allow-list not applied: {e}" [e])
             end
           else r in
  if negb (spec_quarantine spec) then (r, None, q)
  else if negb (bool_decide (Report.status r = Report.Completed)) then
    (Report.push_warning r "the scan did not complete; nothing was quarantined", None, q)
  else
    let '(o, q1) := q_open None q in
    let '(r, _, store) :=
      Remediation.Policy.quarantine_report q_quarantine err_text (Report.max_file_size r) false r
        (map_ok (λ _, q1) o) in
    (r, Some (vlen (List.filter (λ f, bool_decide (Finding.remediation_status f = Finding.Quarantined))
                      (Report.findings r))),
     match store with Some (Ok q) => q | Some (Err _) => q1 | None => q end).

(** What the operating system answers while a job runs. *)
Record world := mkWorld {
  euid : N;
  egid : N;
  child_dir : N → N → result string path;
  listing : path → option (list (string * bool));
  process : Command → child;
  report_saved : result string unit;
}.

(** The identity and command line of a job's child. *)
Definition child_command (e : Environment) (w : world) (spec : JobSpec) : result string Command :=
  i ← identity e (euid w) spec;
  let '(u, g) := match i with Account u g _ | AsUser u g => (u, g) | Inherit => (euid w, egid w) end in
  dir ← map_err (λ e, fmt "cannot prepare the job's state directory: {e}" [e]) (child_dir w u g);
  let installed := join dir "content" in
  command (setpriv e) (binary e) i
    (child_args spec (cfg e) (join dir "content-state.json") installed
       (has_installed_content (listing w installed)) (SvcConfig.job_timeout_minutes (cfg e) * 60)).

Definition stderr_of (o : Outcome) : string := sanitize (of_chars (trim (chars (stderr_tail o)))).

(** What [execute] makes of the child's outcome: the result, and the report
    to store. *)
Definition digest_outcome (e : Environment) (spec : JobSpec) (o : Outcome) (q : Q) : JobResult * option bytes * Q :=
  let fail m := (failed m, None, q) in
  if cancelled o then (mkResult Cancelled (exit_code o) None None None, None, q)
  else if timed_out o then
    (mkResult TimedOut None None None
       (Some (fmt "killed after {} minutes" [show_N (SvcConfig.job_timeout_minutes (cfg e) + 1)])), None, q)
  else if bool_decide (exit_code o = Some 2%Z) || bool_decide (exit_code o = None) || stdout_truncated o then
    (mkResult Failed (exit_code o) None None
       (Some (if stdout_truncated o then "report larger than 256 MiB" else stderr_of o)%string), None, q)
  else
    match spec_kind spec with
    | KScan =>
        match from_slice (stdout o) with
        | Err m => fail (fmt "unreadable scan report: {e}; {}" [m; stderr_of o])
        | Ok r =>
            let '(r, quarantined, q) := remediate spec r q in
            let n := vlen (List.filter (λ f, negb (bool_decide (Finding.remediation_status f = Finding.Allowed)))
                             (Report.findings r)) in
            (mkResult Completed (exit_code o) (Some n) quarantined None,
             Some (match to_vec r with Ok bs => bs | Err _ => [] end), q)
        end
    | KUpdate =>
        match from_slice (A := V) (stdout o) with
        | Err m => fail (fmt "unreadable update report: {e}; {}" [m; stderr_of o])
        | Ok _ => (mkResult Completed (exit_code o) None None None, Some (stdout o), q)
        end
    | KSystemCheck =>
        match from_slice (A := V) (stdout o) with
        | Err m => fail (fmt "unreadable system report: {e}; {}" [m; stderr_of o])
        | Ok v => (mkResult Completed (exit_code o) (findings_len v) None None, Some (stdout o), q)
        end
    end.

Definition job_timeout (e : Environment) : Z :=
  dur_secs (Z.of_N (SvcConfig.job_timeout_minutes (cfg e) * 60 + 60)).

(** [execute]; [None] while the child still runs. *)
Definition execute (e : Environment) (w : world) (id : Uuid) (spec : JobSpec) (d : Files) (q : Q)
    : option (JobResult * Files * Q) :=
  match child_command e w spec with
  | Err m => Some (failed m, d, q)
  | Ok cmd =>
      r ← run (job_timeout e) MAX_OUTPUT (process w cmd);
      Some (match r with
            | Err m => (failed m, d, q)
            | Ok o =>
                let '(res, report, q) := digest_outcome e spec o q in
                match report with
                | None => (res, d, q)
                | Some bs =>
                    match save_report (report_saved w) id bs d with
                    | (Ok _, d) => (res, d, q)
                    | (Err m, d) =>
                        (mkResult (res_state res) (res_exit_code res) (res_findings res) (res_quarantined res)
                           (Some (fmt "report not saved: {e}" [m])), d, q)
                    end
                end
            end)
  end.
End Execute.
End Jobs.

(** ** Properties *)
Module RunnerProps.
Import Runner.

Definition last_octets (n : nat) (l : bytes) : bytes := drop (length l - n) l.

Lemma last_octets_app n a b : last_octets n (last_octets n a ++ b) = last_octets n (a ++ b).
Proof.
  unfold last_octets. rewrite !length_app, length_drop.
  destruct (decide (length a ≤ n)%nat) as [Hle|Hgt].
  - replace (length a - n)%nat with 0%nat by lia. rewrite drop_0, Nat.sub_0_r. done.
  - replace (length a - (length a - n))%nat with n by lia.
    destruct (decide (length b ≤ n)%nat) as [Hb|Hb].
    + rewrite !drop_app_le by (rewrite ?length_drop; lia). rewrite drop_drop. do 2 f_equal. lia.
    + rewrite !drop_app_ge by (rewrite ?length_drop; lia). rewrite length_drop. f_equal. lia.
Qed.

Lemma keep_tail_last a chunk : keep_tail (last_octets STDERR_TAIL a) chunk = last_octets STDERR_TAIL (a ++ chunk).
Proof.
  rewrite <-last_octets_app. unfold keep_tail. set (l := last_octets STDERR_TAIL a ++ chunk).
  unfold last_octets at 1. destruct (Nat.ltb_spec STDERR_TAIL (length l)) as [|Hle]; [done|].
  by replace (length l - STDERR_TAIL)%nat with 0%nat by lia.
Qed.

Lemma keep_all a chunks : foldl keep_tail (last_octets STDERR_TAIL a) chunks = last_octets STDERR_TAIL (a ++ concat chunks).
Proof.
  revert a. induction chunks as [|c cs IH]; intros a; simpl; [by rewrite app_nil_r|].
  by rewrite keep_tail_last, IH, <-app_assoc.
Qed.

Lemma keep_all_new chunks : foldl keep_tail [] chunks = last_octets STDERR_TAIL (concat chunks).
Proof. apply (keep_all []). Qed.

Lemma wait_loop_killed deadline killed ts code late stopped :
  wait_loop deadline killed ts = Some (Ok (code, late, stopped)) →
  (late = true → Exists (λ t, (deadline ≤ now t)%Z) ts) ∧ (stopped = true → Exists (λ t, cancel t = true) ts) ∧
  (late && stopped) = false.
Proof.
  induction ts as [|t ts IH]; simpl; [done|]. destruct (answer t) as [c| |e]; [by intros [= <- <- <-]| |done].
  destruct (Z.leb_spec deadline (now t)) as [Hd|Hd]; simpl.
  - destruct killed; simpl; [|done]. intros [= <- <- <-]. split_and!; [by left|done|done].
  - destruct (cancel t) eqn:Hc.
    + destruct killed; simpl; [|done]. intros [= <- <- <-]. split_and!; [done|by left|done].
    + intros H. destruct (IH H) as (? & ? & ?). split_and!; [right; auto..|done].
Qed.

(** A run ends once a turn sees the child exited, the flag set or the time
    past. *)
Definition ends (timeout : Z) (ch : child) : Prop :=
  Exists (λ t, answer t ≠ StillRunning ∨ cancel t = true ∨ (started ch + timeout ≤ now t)%Z) (turns ch).

Lemma wait_loop_ends deadline killed ts :
  Exists (λ t, answer t ≠ StillRunning ∨ cancel t = true ∨ (deadline ≤ now t)%Z) ts →
  is_Some (wait_loop deadline killed ts).
Proof.
  induction 1 as [t ts Hd|t ts _ IH]; simpl.
  - destruct (answer t); [by eexists| |by eexists].
    destruct Hd as [?|[->| ->%Z.leb_le]]; [done|rewrite orb_true_r; by eexists|by eexists].
  - destruct (answer t); try by eexists. destruct (_ || _); [by eexists|done].
Qed.

Lemma run_ends timeout max_stdout ch : ends timeout ch → is_Some (run timeout max_stdout ch).
Proof.
  intros He. unfold run. destruct (spawned ch) as [[]|]; [|by eexists..].
  destruct (wait_loop_ends _ (after_kill ch) _ He) as [r ->]. simpl. by eexists.
Qed.

(** What the service takes from a child is bounded and exact. Of its
    output the first [max_stdout] octets are kept, and the outcome says
    whether there were more; of its error output, however it arrives in
    pieces, the last 4096 octets; a child is reported as late only when a
    check found it past its time, as cancelled only when one found the flag
    set, and never as both. *)
Theorem run_outcome_exact timeout max_stdout ch o (Hr : run timeout max_stdout ch = Some (Ok o)) :
  stdout o = take (N.to_nat max_stdout) (out_bytes ch) ∧
  (stdout_truncated o = true ↔ max_stdout < vlen (out_bytes ch)) ∧
  stderr_tail o = of_chars (decode_lossy (drop (length (concat (err_chunks ch)) - STDERR_TAIL) (concat (err_chunks ch)))) ∧
  (timed_out o = true → Exists (λ t, (started ch + timeout ≤ now t)%Z) (turns ch)) ∧
  (cancelled o = true → Exists (λ t, cancel t = true) (turns ch)) ∧
  (timed_out o && cancelled o) = false.
Proof.
  unfold run in Hr. destruct (spawned ch) as [[]|]; [|done..].
  apply bind_Some in Hr as (r & Hw & [= Hr]). destruct r as [[[code late] stopped]|]; [|done].
  apply wait_loop_killed in Hw as (Hl & Hs & Hx). injection Hr as <-. simpl. rewrite !takeN_take.
  assert (Hlen : max_stdout < vlen (take (N.to_nat (max_stdout + 1)) (out_bytes ch)) ↔ max_stdout < vlen (out_bytes ch)).
  { unfold vlen. rewrite length_take. lia. }
  split_and!; [|by rewrite N.ltb_lt|by rewrite keep_all_new|done..].
  destruct (N.ltb_spec max_stdout (vlen (take (N.to_nat (max_stdout + 1)) (out_bytes ch)))) as [Hlt|Hge].
  - rewrite take_take. f_equal. lia.
  - unfold vlen in *. rewrite length_take in Hge. rewrite !take_ge by lia. done.
Qed.

Definition chatty : child := mkChild (Ok true) 0 [mkTurn StillRunning 5 false; mkTurn (HasExited (Some 1%Z)) 6 true]
  (Ok None) [1; 2; 3] [[104; 105]; [33]].
Definition chatty_outcome : Outcome := mkOutcome (Some 1%Z) [1; 2] true "hi!" false false.

Lemma run_outcome_exact_witness :
  run 100 2 chatty = Some (Ok chatty_outcome) ∧ stdout chatty_outcome = take 2 (out_bytes chatty) ∧
  (timed_out chatty_outcome && cancelled chatty_outcome) = false.
Proof.
  assert (Hr : run 100 2 chatty = Some (Ok chatty_outcome)) by by vm_compute.
  split; [exact Hr|]. destruct (run_outcome_exact _ _ _ _ Hr) as (Hs & _ & _ & _ & _ & Hx). split; [exact Hs|exact Hx].
Defined.
End RunnerProps.
