(* ===== verification/Server.v ===== *)
(** * The service: [crates/service/src/server.rs], [schedule.rs], [audit.rs]

    Requests of authenticated clients, the schedules, the audit check, and
    the connections, over the job manager of Jobs.v. What the operating
    system, the clock and the journal answer to one operation is its
    [answers]. *)

From S2P Require Import Prelude Utf8 Paths Core External AuditLog Remediation Ipc ServiceConfig Jobs.

(** What [parse_journal] reads in a [serde_json::Value]: its [MESSAGE], a
    text, an array (of integers or other values), or something else. *)
Inductive journal_message := MText (s : string) | MArray (l : list (option N)) | MOther.
Class JournalValue (V : Type) := message_of : V → journal_message.

(** ** audit.rs *)
Module AuditCheck.
Import Ipc.

Section Check.
Context {V Q : Type} `{JV : Json V, MV : JournalValue V, QO : QuarantineOps Q}.

Fixpoint split_lines (cur l : bytes) : list bytes :=
  match l with
  | [] => [cur]
  | c :: l => if c =? 10 then cur :: split_lines [] l else split_lines (cur ++ [c]) l
  end.

Definition line_anchor (line : bytes) : option Anchors.Anchor :=
  match from_slice (A := V) line with
  | Err _ => None
  | Ok v =>
      match message_of v with
      | MText s => Anchors.parse_anchor s
      | MArray l =>
          Anchors.parse_anchor (of_chars (decode_lossy
            (omap (λ b, b ← b; if b <=? 255 then Some b else None) l)))
      | MOther => None
      end
  end.
Definition parse_journal (output : bytes) : list Anchors.Anchor :=
  omap line_anchor (takeN 10000000 (split_lines [] output)).

(** [read_anchors]: what running [journalctl] gave. *)
Definition read_anchors (journal : result string Runner.Outcome) : result string (list Anchors.Anchor) :=
  o ← journal;
  if bool_decide (Runner.exit_code o = Some 0%Z) || bool_decide (Runner.exit_code o = Some 1%Z)
  then Ok (parse_journal (Runner.stdout o))
  else Err (fmt "journal not readable: {}" [sanitize (of_chars (trim (chars (Runner.stderr_tail o))))]).

Definition unchecked (now : Z) (ok consistent : bool) (n : N) (d : string) : AuditStatus :=
  mkAudit now ok n false 0 [] [] 0 0 consistent d.

(** [check]; opening the store may change it. *)
Definition check (now : Z) (journal : result string Runner.Outcome) (q : Q) : AuditStatus * Q :=
  if negb (q_exists q) then (unchecked now true true 0 "no quarantine store yet", q)
  else
    let '(o, q) := q_open None q in
    match o ≫= λ _, q_audit_chain q with
    | Err e => (unchecked now false false 0 (fmt "audit chain invalid or unreadable: {e}" [e]), q)
    | Ok chain =>
        match read_anchors journal with
        | Err why =>
            (unchecked now true true (vlen chain) (fmt "chain valid; anchors not compared ({why})" [why]), q)
        | Ok anchors =>
            let cmp := Anchors.compare_anchors chain anchors in
            let ok := Anchors.consistent cmp in
            (mkAudit now true (vlen chain) true (Anchors.matched cmp) (Anchors.mismatched cmp)
               (Anchors.missing_locally cmp) (Anchors.unanchored cmp) (Anchors.other_chains cmp) ok
               (if ok then fmt "{} of {} entries anchored in the journal and matching"
                             [show_N (Anchors.matched cmp); show_N (vlen chain)]
                else "the audit log does not match the anchors in the system journal: it was altered or truncated"),
             q)
        end
    end.
End Check.
End AuditCheck.

(** ** server.rs *)
Module Server.
Import Ipc Jobs JobStore.
Import Ipc.Policy.

Definition MAX_CONNECTIONS : N := 64.
Definition MAX_REQUESTS_PER_CONNECTION : nat := N.to_nat 1000.

Record Peer := mkPeer { caller : Caller; ids : N * N }.

(** [Ctx], apart from the state it shares. *)
Record Ctx := mkCtx { ctx_cfg : ServiceConfig; started : Z; root : bool; pkg_version : string }.

(** The state behind the locks of [Manager] and [Ctx], the files, and the
    quarantine store. *)
Record service (Q : Type) := mkService {
  mgr : State;
  files : Files;
  quar : Q;
  last_check : option AuditStatus;
}.
Arguments mkService {Q}.
Arguments mgr {Q}.
Arguments files {Q}.
Arguments quar {Q}.
Arguments last_check {Q}.

Record answers := mkAnswers {
  at_time : Z;
  new_id : Uuid;
  saved : result string unit;
  state_saved : result string unit;
  report_failed : option string;
  journal : result string Runner.Outcome;
}.

Definition not_found : Rejection := mkRejection NotFound "no such job".
Definition internal (e : string) : Rejection := mkRejection Internal (sanitize e).

(** [scan_identity] *)
Definition scan_identity (p : Peer) : RunAs :=
  if negb (scan_as_caller (caller p)) then RunService else RunCaller (ids p).1 (ids p).2.

(** schedule.rs: [spec]. *)
Definition spec_of (s : Schedule) : JobSpec :=
  mkSpec (SvcConfig.kind s) (match SvcConfig.kind s with KScan => SvcConfig.paths s | _ => [] end)
    (SvcConfig.heuristics s) false (SvcConfig.quarantine s) RunService.

Definition item_state_text (s : Record.ItemState) : string :=
  match s with
  | Record.Pending => "pending"
  | Record.Quarantined => "quarantined"
  | Record.Restored => "restored"
  | Record.Deleted => "deleted"
  | Record.RolledBack => "rolled_back"
  | Record.Failed => "failed"
  end.

Definition item_of (r : Record.QuarantineRecord) : QuarantineItem :=
  let why := Record.reason r in
  mkItem (Record.id r) (item_state_text (Record.state r)) (ObservedPath.text (Record.path (Record.original r)))
    (Digest.to_hex (Record.sha256 (Record.original r)))
    (match Record.detection_name why with Some n => n | None => default ""%string (Record.note why) end)
    (Record.created_at r).

Section Serving.
Context {V Q : Type} `{UT : UuidText, JJ : Json JobSummary, JP : JsonPretty JobSummary, JS : Json (gmap string Z),
  SP : JsonPretty (gmap string Z), JA : Json AuditStatus, AP : JsonPretty AuditStatus, JV : Json V, MV : JournalValue V,
  QO : QuarantineOps Q, ST : StdText}.
Context (ctx : Ctx) (principal_of_service : string).

Abbreviation srv := (service Q).

Definition with_mgr (m : State) (d : Files) (s : srv) : srv := mkService m d (quar s) (last_check s).
Definition with_quar (q : Q) (s : srv) : srv := mkService (mgr s) (files s) q (last_check s).

(** [Manager::submit] on the shared state. *)
Definition do_submit (a : answers) (owner : string) (sched : option string) (spec : JobSpec) (s : srv)
    : result Rejection Uuid * srv :=
  let '(r, m, d) := submit (ctx_cfg ctx) (new_id a) (at_time a) (saved a) owner sched spec (mgr s) (files s) in
  (r, with_mgr m d s).

(** schedule.rs: [start]. *)
Definition start_schedule (a : answers) (sch : Schedule) (s : srv) : result Rejection Uuid * srv :=
  let '(r, s) := do_submit a principal_of_service (Some (SvcConfig.name sch)) (spec_of sch) s in
  match r with
  | Err e => (Err e, s)
  | Ok id =>
      let st := <[SvcConfig.name sch := at_time a]> (schedule_state (files s)) in
      (Ok id, with_mgr (mgr s) (save_schedule_state (state_saved a) st (files s)).2 s)
  end.

(** [Ctx::record_audit] *)
Definition record_audit (a : answers) (st : AuditStatus) (s : srv) : srv :=
  mkService (mgr s) (save_audit (state_saved a) st (files s)).2 (quar s) (Some st).

(** [open_quarantine], [parse_id] *)
Definition open_quarantine (c : Caller) (q : Q) : result Rejection unit * Q :=
  let '(o, q) := q_open (Some (principal c)) q in (map_err internal o, q).
Definition parse_id (id : string) : result Rejection Record.QuarantineId :=
  map_err (λ _, mkRejection BadRequest "invalid quarantine id") (Record.parse_id id).

(** The quarantine operations of [execute]: [store.restore] and what follows
    it, and [store.delete]. *)
Definition restore_item (c : Caller) (id : string) (allow : bool) (q : Q) : result Rejection string * Q :=
  match open_quarantine c q with
  | (Err e, q) => (Err e, q)
  | (Ok _, q) =>
      match parse_id id with
      | Err e => (Err e, q)
      | Ok qid =>
          match q_restore qid q with
          | (Err e, q) => (Err (internal e), q)
          | (Ok target, q) =>
              let m := fmt "restored {qid} to {}" [qid; sanitize (display target)] in
              if allow then
                match q_get qid q with
                | (Err e, q) => (Err (internal e), q)
                | (Ok rec, q) =>
                    match q_allow (Record.sha256 (Record.original rec)) "restored from quarantine" (Some qid)
                            (Record.detection_name (Record.reason rec)) q with
                    | (Err e, q) => (Err (internal e), q)
                    | (Ok _, q) => (Ok (m +:+ "; allow-listed")%string, q)
                    end
                end
              else (Ok m, q)
          end
      end
  end.

Definition delete_item (c : Caller) (id : string) (q : Q) : result Rejection string * Q :=
  match open_quarantine c q with
  | (Err e, q) => (Err e, q)
  | (Ok _, q) =>
      match parse_id id with
      | Err e => (Err e, q)
      | Ok qid =>
          match q_delete qid q with
          | (Err e, q) => (Err (internal e), q)
          | (Ok _, q) => (Ok (fmt "deleted {qid}" [qid]), q)
          end
      end
  end.

Definition list_items (c : Caller) (q : Q) : result Rejection (list QuarantineItem) * Q :=
  if negb (q_exists q) then (Ok [], q)
  else
    match open_quarantine c q with
    | (Err e, q) => (Err e, q)
    | (Ok _, q) =>
        match q_list q with
        | (Err e, q) => (Err (internal e), q)
        | (Ok rs, q) => (Ok (item_of <$> rs), q)
        end
    end.

(** The lookup that [Job], [Report] and [Cancel] share: a job that exists and
    that the caller may see. *)
Definition visible_job (c : Caller) (id : Uuid) (s : srv) : option JobSummary :=
  j ← get id (mgr s); if can_access_job c (owner j) then Some j else None.

Definition started_job (r : result Rejection Uuid * srv) : result Rejection (Reply V) * srv :=
  (map_ok JobStarted r.1, r.2).

Definition status_of (c : Caller) (s : srv) : ServiceStatus :=
  let '(running, queued) := counts (mgr s) in
  mkStatus (pkg_version ctx) (started ctx) (root ctx) running queued (vlen (SvcConfig.schedules (ctx_cfg ctx)))
    (principal c) (admin c) (if admin c then last_check s else None).

(** [execute] *)
Definition execute (a : answers) (p : Peer) (o : Op) (s : srv) : result Rejection (Reply V) * srv :=
  let c := caller p in
  let pure r := (r, s) in
  match o with
  | Ping => pure (Ok (Pong (pkg_version ctx)))
  | Status => pure (Ok (StatusReply (status_of c s)))
  | Scan paths h na quarantine =>
      started_job (do_submit a (principal c) None (mkSpec KScan paths h na quarantine (scan_identity p)) s)
  | SystemCheck h =>
      started_job (do_submit a (principal c) None (mkSpec KSystemCheck [] h false false RunService) s)
  | Ipc.Jobs => pure (Ok (JobList (list_jobs (λ j, can_access_job c (owner j)) (mgr s))))
  | Job id => pure (match visible_job c id s with Some j => Ok (OneJob j) | None => Err not_found end)
  | Ipc.Report id =>
      pure (match visible_job c id s with
            | None => Err not_found
            | Some _ =>
                match report (report_failed a) id (files s) with
                | Err e => Err (internal e)
                | Ok (Some r) => Ok (ReportReply id r)
                | Ok None => Err (mkRejection NotFound "no report: the job has not finished, or it failed")
                end
            end)
  | Cancel id =>
      match visible_job c id s with
      | None => pure (Err not_found)
      | Some _ =>
          let '(r, m, d) := cancel_job id (at_time a) (saved a) (mgr s) (files s) in
          (map_ok (λ _, Done (fmt "cancelling job {job}" [uuid_text id])) r, with_mgr m d s)
      end
  | Schedules => pure (Ok (ScheduleList (Sched.info (ctx_cfg ctx) (schedule_state (files s)) (at_time a))))
  | RunSchedule n =>
      match List.find (λ x, bool_decide (SvcConfig.name x = n)) (SvcConfig.schedules (ctx_cfg ctx)) with
      | None => pure (Err (mkRejection NotFound "no such schedule"))
      | Some sch => started_job (start_schedule a sch s)
      end
  | QuarantineList => let '(r, q) := list_items c (quar s) in (map_ok QuarantineItems r, with_quar q s)
  | QuarantineRestore id allow =>
      let '(r, q) := restore_item c id allow (quar s) in (map_ok Done r, with_quar q s)
  | QuarantineDelete id => let '(r, q) := delete_item c id (quar s) in (map_ok Done r, with_quar q s)
  | VerifyAudit =>
      let '(st, q) := AuditCheck.check (V := V) (at_time a) (journal a) (quar s) in
      (Ok (AuditReply st), record_audit a st (with_quar q s))
  end.

(** [dispatch] *)
Definition dispatch (a : answers) (p : Peer) (r : Request) (s : srv) : Response V * srv :=
  match validate r with
  | Err e => (response_error (req_id r) e, s)
  | Ok _ =>
      match authorize (caller p) (op r) with
      | Err e => (response_error (req_id r) e, s)
      | Ok _ =>
          match execute a p (op r) s with
          | (Ok reply, s) => (response (req_id r) reply, s)
          | (Err e, s) => (response_error (req_id r) e, s)
          end
      end
  end.

(** [converse]: at most [n] more requests of one connection; [ans] answers the
    requests in order, [identify] says who the peer is. *)
Fixpoint converse `{Json Request, Json (Response V)} (n : nat) (peer identify : option Peer) (ans : list answers)
    (i : stream) (w : writer) (s : srv) : stream * writer * srv :=
  match n, ans with
  | O, _ | _, [] => (i, w, s)
  | S n, a :: ans =>
      match read_frame MAX_REQUEST i with
      | (Ok req, i) =>
          match (match peer with None => identify | Some p => Some p end) with
          | None => (i, w, s)
          | Some p =>
              let '(resp, s) := dispatch a p req s in
              match write_frame resp MAX_RESPONSE w with
              | (Ok _, w) => converse n (Some p) identify ans i w s
              | (Err _, w) => (i, w, s)
              end
          end
      | (Err (Closed | FrameIo _), i) => (i, w, s)
      | (Err (TooLarge n max), i) =>
          (i, (write_frame (response_error (Value := V) 0 (mkRejection BadRequest
                 (fmt "message of {0} bytes exceeds the {1}-byte limit" [show_N n; show_N max])))
                 MAX_RESPONSE w).2, s)
      | (Err (Malformed e), i) =>
          (i, (write_frame (response_error (Value := V) 0 (mkRejection BadRequest
                 (fmt "malformed message: {0}" [e]))) MAX_RESPONSE w).2, s)
      end
  end.

(** [handle_unix]: the peer's uid and gid as the kernel reports them. *)
Definition peer_of (accounts : Accounts.Accounts) (uid gid : N) : Peer :=
  mkPeer (mkCaller (show_N uid) (Accounts.is_admin accounts uid (ctx_cfg ctx)))
    (uid, match Accounts.user accounts uid with Some u => Accounts.user_gid u | None => gid end).
Definition handle_unix `{Json Request, Json (Response V)} (accounts : Accounts.Accounts)
    (cred : result string (N * N)) (ans : list answers) (i : stream) (w : writer) (s : srv) : stream * writer * srv :=
  match cred with
  | Err _ => (i, w, s)
  | Ok (u, g) => converse MAX_REQUESTS_PER_CONNECTION None (Some (peer_of accounts u g)) ans i w s
  end.

(** [schedule::run]: one pass over the schedules, with the state read at its
    start. *)
Fixpoint run_due (now : Z) (state : gmap string Z) (l : list Schedule) (ans : list answers) (s : srv) : srv :=
  match l, ans with
  | [], _ | _, [] => s
  | sch :: l, a :: ans =>
      let s := if (Sched.next_due sch (state !! SvcConfig.name sch) now <=? now)%Z
               then (start_schedule a sch s).2 else s in
      run_due now state l ans s
  end.
Definition schedule_pass (now : Z) (ans : list answers) (s : srv) : srv :=
  run_due now (schedule_state (files s)) (SvcConfig.schedules (ctx_cfg ctx)) ans s.
End Serving.

(** [spawn_client]: the number of active connections; whether the thread
    started. A client that ends gives its place back. *)
Inductive connection := Connect (thread_started : bool) | ClientEnds.
Definition connect (e : connection) (active : N) : N * bool :=
  match e with
  | Connect started => if MAX_CONNECTIONS <=? active then (active, false) else (active + 1, started)
  | ClientEnds => (active - 1, false)
  end.
End Server.
