(* ===== verification/ServiceRun.v ===== *)
(** * The running service

    The threads of the service as a transition system over the state of
    Server.v: requests, schedules, the audit check, the job workers and the
    shutdown, in any order. *)

From S2P Require Import Prelude Utf8 Paths Core External AuditLog Remediation Ipc ServiceConfig Jobs Server.

Module Service.
Import Ipc Jobs JobStore Server.
Import Ipc.Policy.

(** Where a job worker stands: waiting for a job, running one, or about to
    record its result. *)
Inductive worker := Idle | Busy (id : Uuid) (sp : JobSpec) | Finishing (id : Uuid) (r : JobResult).

Record sys (Q : Type) := mkSys { core : service Q; workers : list worker }.
Arguments mkSys {Q}.
Arguments core {Q}.
Arguments workers {Q}.

(** One step of some thread, with what the environment answers. *)
Inductive event :=
  | Requested (a : answers) (p : Peer) (r : Request)
  | Scheduled (a : answers) (sch : Schedule)
  | AuditRun (a : answers)
  | Take (i : nat) (now : Z) (saved : result string unit)
  | Ran (i : nat) (w : world)
  | Finish (i : nat) (now : Z) (saved : result string unit) (removable : Uuid → bool)
  | Stopping.

Section Run.
Context {V Q : Type} `{UT : UuidText, JJ : Json JobSummary, JP : JsonPretty JobSummary, JS : Json (gmap string Z),
  SP : JsonPretty (gmap string Z), JA : Json AuditStatus, AP : JsonPretty AuditStatus, JR : Json Report.ScanReport,
  JV : Json V, VV : JsonValue V, MV : JournalValue V, QO : QuarantineOps Q, ST : StdText}.
Context (show_date : Z → string) (err_text : Record.RemediationError → string).
Context (env : Environment) (ctx : Ctx) (principal_of_service : string).

Definition with_worker (i : nat) (w : worker) (c : service Q) (s : sys Q) : sys Q :=
  mkSys c (<[i := w]> (workers s)).

Definition exec (e : event) (s : sys Q) : option (sys Q) :=
  let c := core s in
  match e with
  | Requested a p r => Some (mkSys (dispatch (V := V) ctx principal_of_service a p r c).2 (workers s))
  | Scheduled a sch => Some (mkSys (start_schedule ctx principal_of_service a sch c).2 (workers s))
  | AuditRun a =>
      let '(st, q) := AuditCheck.check (V := V) (at_time a) (journal a) (quar c) in
      Some (mkSys (record_audit a st (with_quar q c)) (workers s))
  | Take i now saved =>
      match workers s !! i with
      | Some Idle =>
          if shutdown (mgr c) then None
          else '(id, sp, m, d) ← take_job now saved (mgr c) (files c);
               Some (with_worker i (Busy id sp) (with_mgr m d c) s)
      | _ => None
      end
  | Ran i w =>
      match workers s !! i with
      | Some (Busy id sp) =>
          '(r, d, q) ← Jobs.execute (V := V) show_date err_text env w id sp (files c) (quar c);
          Some (with_worker i (Finishing id r) (with_quar q (with_mgr (mgr c) d c)) s)
      | _ => None
      end
  | Finish i now saved removable =>
      match workers s !! i with
      | Some (Finishing id r) =>
          let '(m, d) := finish_job (cfg env) id r now saved removable (mgr c) (files c) in
          Some (with_worker i Idle (with_mgr m d c) s)
      | _ => None
      end
  | Stopping => Some (mkSys (with_mgr (shut_down (mgr c)) (files c) c) (workers s))
  end.

(** The identifiers of new jobs are new, and scheduled jobs come from the
    configuration. *)
Definition admissible (e : event) (s : sys Q) : Prop :=
  match e with
  | Requested a _ _ => jobs (mgr (core s)) !! new_id a = None
  | Scheduled a sch => jobs (mgr (core s)) !! new_id a = None ∧ sch ∈ SvcConfig.schedules (ctx_cfg ctx)
  | _ => True
  end.

(** The service after [Manager::new] and [start_workers]. *)
Definition start (now : Z) (entries : option (list (string * result string bytes)))
    (saved : Uuid → result string unit) (d : Files) (q : Q) : sys Q :=
  let '(m, d) := new_manager now entries saved d in
  mkSys (mkService m d q (last_audit d)) (repeat Idle (N.to_nat (SvcConfig.max_concurrent_jobs (cfg env)))).

(** The steps of some threads, one after another. *)
Inductive steps : sys Q → list event → sys Q → Prop :=
  | steps_nil s : steps s [] s
  | steps_cons s e s1 es s2 : admissible e s → exec e s = Some s1 → steps s1 es s2 → steps s (e :: es) s2.

(** ** What a job was granted *)

(** The job a request of a peer asks for. *)
Inductive asks (p : Peer) : Op → JobSpec → Prop :=
  | asks_scan paths h na q : asks p (Scan paths h na q) (mkSpec KScan paths h na q (scan_identity p))
  | asks_check h : asks p (SystemCheck h) (mkSpec KSystemCheck [] h false false RunService)
  | asks_schedule sch : sch ∈ SvcConfig.schedules (ctx_cfg ctx) → asks p (RunSchedule (SvcConfig.name sch)) (spec_of sch).

(** A job comes from a valid and authorised request that asked for it, or
    from a configured schedule. *)
Inductive grant (tr : list event) (id : Uuid) (sp : JobSpec) : Prop :=
  | by_request a p r :
      Requested a p r ∈ tr → new_id a = id → validate r = Ok tt → authorize (caller p) (op r) = Ok tt →
      asks p (op r) sp → grant tr id sp
  | by_schedule a sch :
      Scheduled a sch ∈ tr → new_id a = id → sch ∈ SvcConfig.schedules (ctx_cfg ctx) →
      sp = spec_of sch → grant tr id sp.

(** ** The job manager's invariant *)

Definition busy_with (w : worker) (id : Uuid) : Prop :=
  match w with Idle => False | Busy i _ | Finishing i _ => i = id end.

Definition job_state (m : State) (id : Uuid) : option JobState := state <$> jobs m !! id.
#[local] Arguments job_state : simpl never.

Record inv (m : State) (ws : list worker) : Prop := {
  inv_ids : ∀ id j, jobs m !! id = Some j → job_id j = id;
  inv_queue : NoDup (queue m);
  inv_queued : ∀ id, id ∈ queue m ↔ job_state m id = Some Queued;
  inv_specs : ∀ id, is_Some (specs m !! id) ↔ id ∈ queue m;
  inv_running : ∀ id, is_Some (cancels m !! id) ↔ job_state m id = Some Running;
  inv_cancels : ∀ id, is_Some (cancels m !! id) ↔ ∃ i w, ws !! i = Some w ∧ busy_with w id;
  inv_unique : ∀ i j v w id, ws !! i = Some v → ws !! j = Some w → busy_with v id → busy_with w id → i = j;
  inv_results : ∀ i id r, ws !! i = Some (Finishing id r) → finished (res_state r) = true;
  inv_bound : vlen (queue m) ≤ SvcConfig.max_queued_jobs (ctx_cfg ctx);
  inv_workers : vlen ws = SvcConfig.max_concurrent_jobs (cfg env) }.

Lemma prune_all_sub removable js d id : id ∈ (prune_all removable js d).1 → id ∈ job_id <$> js.
Proof.
  revert d. induction js as [|j js IH]; intros d; csimpl; [done|].
  destruct (_ && _).
  - specialize (IH (drop_job (job_id j) (drop_report (job_id j) d))).
    destruct (prune_all _ _ _) as [rm d']. csimpl. intros [->|?]%elem_of_cons; [left|right; auto].
  - intros H. right. by eapply IH.
Qed.

Lemma values_elem m j : j ∈ values m ↔ ∃ id, m !! id = Some j.
Proof.
  unfold values. rewrite list_elem_of_fmap. setoid_rewrite (sort_by_perm _ _).
  split.
  - intros ([id j'] & -> & Hin%elem_of_map_to_list). eauto.
  - intros [id Hid]. exists (id, j). split; [done|]. by apply elem_of_map_to_list.
Qed.

Lemma prune_removed removable m keep d id :
  (∀ i j, m !! i = Some j → job_id j = i) →
  id ∈ (prune removable (values m) keep d).1 → ∃ j, m !! id = Some j ∧ finished (state j) = true.
Proof.
  intros Hids. unfold prune. intros (j & -> & Hj)%prune_all_sub%list_elem_of_fmap.
  apply subseteq_take, list_elem_of_In, List.filter_In in Hj as [Hj Hf].
  apply list_elem_of_In, values_elem in Hj as [i Hi]. exists j. by rewrite (Hids i j Hi).
Qed.

Lemma foldl_delete (l : list Uuid) (m : gmap Uuid JobSummary) id :
  foldl (λ m i, delete i m) m l !! id = if decide (id ∈ l) then None else m !! id.
Proof.
  revert m. induction l as [|i l IH]; intros m; cbn [foldl].
  { by rewrite decide_False by by intros ?%elem_of_nil. }
  rewrite IH. destruct (decide (id ∈ l)) as [Hl|Hl].
  - rewrite decide_True; [done|by right].
  - destruct (decide (id = i)) as [->|Hne].
    + rewrite decide_True by by left. by rewrite lookup_delete_eq.
    + rewrite decide_False by by intros [?|?]%elem_of_cons. by rewrite lookup_delete_ne.
Qed.

(** A step on the shared state leaves the workers alone. *)
Lemma inv_shutdown m ws : inv m ws → inv (shut_down m) ws.
Proof.
  intros [? ? ? ? Hr Hc ? ? ? ?]. constructor; try done; simpl; intros id; rewrite lookup_fmap, fmap_is_Some; auto.
Qed.

Lemma inv_submit id now saved ow sched sp m d r m' d' ws :
  submit (ctx_cfg ctx) id now saved ow sched sp m d = (r, m', d') →
  jobs m !! id = None → inv m ws → inv m' ws.
Proof.
  unfold submit. intros Hs Hnew Hi. destruct (shutdown m); [by simplify_eq|].
  destruct (N.leb_spec (SvcConfig.max_queued_jobs (ctx_cfg ctx)) (vlen (queue m))) as [|Hlen]; [by simplify_eq|].
  destruct (save_job _ _ d) as [[[]|e] d1]; [|by simplify_eq]. injection Hs as <- <- <-.
  destruct Hi as [Hids Hq Hqd Hsp Hrun Hcan Hun Hres Hb Hw].
  assert (Hst : ∀ b x, job_state (mkState (<[id:=summary_of id ow sched sp now]> (jobs m)) (<[id:=sp]> (specs m))
    (queue m ++ [id]) (cancels m) b) x = if decide (x = id) then Some Queued else job_state m x).
  { intros b x. unfold job_state; simpl. destruct (decide (x = id)) as [->|]; [by rewrite lookup_insert_eq|].
    by rewrite lookup_insert_ne. }
  assert (Hfree : job_state m id = None) by (unfold job_state; by rewrite Hnew).
  constructor; simpl; try done.
  - intros x j [[-> <-]|[_ Hx]]%lookup_insert_Some; [done|by apply Hids].
  - apply NoDup_app. split_and!; [done| |apply NoDup_singleton].
    intros x Hx ->%list_elem_of_singleton. apply Hqd in Hx. congruence.
  - intros x. rewrite elem_of_app, list_elem_of_singleton, Hst, Hqd.
    destruct (decide (x = id)) as [->|]; [|naive_solver]. split; [done|by right].
  - intros x. rewrite elem_of_app, list_elem_of_singleton, <-Hsp.
    destruct (decide (x = id)) as [->|]; [rewrite lookup_insert_eq|rewrite lookup_insert_ne by done]; naive_solver.
  - intros x. rewrite Hst, Hrun. destruct (decide (x = id)) as [->|]; [|done]. rewrite Hfree. split; intros; discriminate.
  - rewrite vlen_app. unfold vlen in *. simpl. lia.
Qed.

Lemma remove_first_elem id l : NoDup l → ∀ x, x ∈ remove_first id l ↔ x ∈ l ∧ x ≠ id.
Proof.
  induction 1 as [|y l Hy _ IH]; intros x; simpl; [set_solver|].
  destruct (N.eqb_spec y id) as [->|]; set_solver.
Qed.

Lemma remove_first_NoDup id l : NoDup l → NoDup (remove_first id l).
Proof.
  induction 1 as [|y l Hy Hl IH]; simpl; [constructor|]. destruct (N.eqb_spec y id); [done|].
  constructor; [|done]. by rewrite remove_first_elem by done; intros [? _].
Qed.

Lemma remove_first_length id l : (length (remove_first id l) ≤ length l)%nat.
Proof. induction l as [|y l IH]; simpl; [done|]. destruct (y =? id); simpl; lia. Qed.

Lemma inv_cancel id now saved m d r m' d' ws :
  cancel_job id now saved m d = (r, m', d') → inv m ws → inv m' ws.
Proof.
  unfold cancel_job. intros Hs [Hids Hq Hqd Hsp Hrun Hcan Hun Hres Hb Hw].
  destruct (cancels m !! id) as [fl|] eqn:Hc.
  { injection Hs as <- <- <-. constructor; try done; simpl; intros x; rewrite lookup_insert_is_Some'.
    - transitivity (is_Some (cancels m !! x)); [naive_solver|apply Hrun].
    - rewrite <-Hcan. naive_solver. }
  case_bool_decide as Hin; [|by simplify_eq].
  pose proof (proj1 (Hqd id) Hin) as Hst. unfold job_state in Hst.
  destruct (jobs m !! id) as [j|] eqn:Hj; [|done]. injection Hst as Hst. injection Hs as <- <- <-.
  assert (Hst' : ∀ x, job_state (mkState (<[id:=with_state Cancelled (started_at j) (Some now) j]> (jobs m))
    (delete id (specs m)) (remove_first id (queue m)) (cancels m) (shutdown m)) x =
    if decide (x = id) then Some Cancelled else job_state m x).
  { intros x. unfold job_state; simpl. destruct (decide (x = id)) as [->|]; [by rewrite lookup_insert_eq|].
    by rewrite lookup_insert_ne. }
  constructor; simpl; try done.
  - intros x j' [[-> <-]|[_ Hx]]%lookup_insert_Some; [by simpl; apply (Hids x)|by apply Hids].
  - by apply remove_first_NoDup.
  - intros x. rewrite remove_first_elem, Hst', Hqd by done. destruct (decide (x = id)) as [->|]; naive_solver.
  - intros x. rewrite remove_first_elem, <-Hsp, lookup_delete_is_Some by done. naive_solver.
  - intros x. rewrite Hst', Hrun. destruct (decide (x = id)) as [->|]; [|done].
    unfold job_state. rewrite Hj. simpl. rewrite Hst. split; intros; discriminate.
  - pose proof (remove_first_length id (queue m)). unfold vlen in *. lia.
Qed.

Lemma take_from_head q m id sp rest :
  (∀ x, is_Some (m !! x) ↔ x ∈ q) → take_from q m = Some (id, sp, rest) → q = id :: rest ∧ m !! id = Some sp.
Proof.
  intros Hm Ht. destruct q as [|y q]; [done|]. simpl in Ht.
  destruct (m !! y) as [s|] eqn:Hy; [by simplify_eq|].
  destruct (proj2 (Hm y)) as [? Hs]; [by left|congruence].
Qed.

Lemma insert_worker (ws : list worker) i j w v x :
  ws !! i = Some v → <[i:=w]> ws !! j = Some x ↔ (j = i ∧ x = w) ∨ (j ≠ i ∧ ws !! j = Some x).
Proof.
  intros Hi. rewrite list_lookup_insert_Some. split.
  - intros [(-> & -> & _)|[? ?]]; auto.
  - intros [[-> ->]|[? ?]]; [left|by right]. split_and!; [done..|]. by eapply lookup_lt_Some.
Qed.

Lemma vlen_insert {A} (l : list A) i x : vlen (<[i:=x]> l) = vlen l.
Proof. unfold vlen. by rewrite length_insert. Qed.

(** The workers of a system after worker [i], idle so far, took job [id]. *)
Lemma inv_take i id sp now saved m d m' d' ws :
  ws !! i = Some Idle → take_job now saved m d = Some (id, sp, m', d') → inv m ws →
  inv m' (<[i := Busy id sp]> ws).
Proof.
  unfold take_job. intros Hi Ht [Hids Hq Hqd Hsp Hrun Hcan Hun Hres Hb Hw].
  apply bind_Some in Ht as ([[id' sp'] rest] & Hhd & Ht).
  apply take_from_head in Hhd as [Hqq Hspec]; [|done].
  assert (Hst : job_state m id' = Some Queued) by (apply Hqd; rewrite Hqq; by left).
  pose proof Hst as Hst0. unfold job_state in Hst0. destruct (jobs m !! id') as [j|] eqn:Hj; [|done].
  injection Hst0 as Hst0. injection Ht as <- <- <- <-.
  rewrite Hqq in *. apply NoDup_cons in Hq as [Hnin Hq].
  assert (Hnc : ¬ is_Some (cancels m !! id')) by (rewrite Hrun, Hst; discriminate).
  assert (Hst' : ∀ x, job_state (mkState (<[id':=with_state Running (Some now) (finished_at j) j]> (jobs m))
    (delete id' (specs m)) rest (<[id':=false]> (cancels m)) (shutdown m)) x =
    if decide (x = id') then Some Running else job_state m x).
  { intros x. unfold job_state; simpl. destruct (decide (x = id')) as [->|]; [by rewrite lookup_insert_eq|].
    by rewrite lookup_insert_ne. }
  constructor; simpl; try done.
  - intros x j' [[-> <-]|[_ Hx]]%lookup_insert_Some; [by simpl; apply (Hids x)|by apply Hids].
  - intros x. rewrite Hst'. destruct (decide (x = id')) as [->|]; [naive_solver|].
    rewrite <-Hqd. set_solver.
  - intros x. rewrite lookup_delete_is_Some, Hsp. set_solver.
  - intros x. rewrite Hst', lookup_insert_is_Some', Hrun. destruct (decide (x = id')) as [->|]; naive_solver.
  - intros x. rewrite lookup_insert_is_Some', Hcan. split.
    + intros [<-|(k & w & Hk & Hb')].
      * exists i, (Busy id' sp'). rewrite insert_worker by done. simpl. auto.
      * exists k, w. rewrite insert_worker by done. split; [|done]. right. split; [|done].
        intros ->. rewrite Hi in Hk. by injection Hk as <-.
    + intros (k & w & [[-> ->]|[_ Hk]]%(insert_worker _ _ _ _ _ _ Hi) & Hb'); [left; by simpl in Hb'|].
      right. eauto.
  - intros k l v w x Hk Hl Hv Hw'. apply (insert_worker _ _ _ _ _ _ Hi) in Hk, Hl.
    assert (Hold : ∀ k' u, ws !! k' = Some u → ¬ busy_with u id').
    { intros k' u Hk' Hu. apply Hnc, Hcan. eauto. }
    destruct Hk as [[-> ->]|[? Hk]], Hl as [[-> ->]|[? Hl]]; [done|..].
    + simpl in Hv. subst x. by destruct (Hold _ _ Hl).
    + simpl in Hw'. subst x. by destruct (Hold _ _ Hk).
    + by eapply Hun.
  - intros k x r Hk. apply (insert_worker _ _ _ _ _ _ Hi) in Hk as [[_ ?]|[_ Hk]]; [done|by eapply Hres].
  - rewrite vlen_cons in Hb. lia.
  - by rewrite vlen_insert.
Qed.

(** What [finish_job] leaves of the jobs: the result is applied, then finished
    jobs may be removed. *)
Lemma finish_job_spec c id r now saved removable m d j :
  (∀ i j, jobs m !! i = Some j → job_id j = i) → jobs m !! id = Some j →
  ∃ removed d', finish_job c id r now saved removable m d =
    (mkState (foldl (λ m i, delete i m) (<[id := apply r now j]> (jobs m)) removed) (specs m) (queue m)
       (delete id (cancels m)) (shutdown m), d') ∧
    ∀ x, x ∈ removed → ∃ j', <[id := apply r now j]> (jobs m) !! x = Some j' ∧ finished (state j') = true.
Proof.
  intros Hids Hj. unfold finish_job. rewrite Hj.
  destruct (prune removable (values (<[id:=apply r now j]> (jobs m))) (SvcConfig.history_limit c)
    (save_job saved (apply r now j) d).2) as [removed d'] eqn:Hp.
  exists removed, d'. split; [done|]. intros x Hx. eapply prune_removed; [|by rewrite Hp].
  intros i j' [[-> <-]|[_ ?]]%lookup_insert_Some; [by apply Hids in Hj|by apply Hids].
Qed.

Lemma jobs_inv_finish i id r now saved removable m d m' d' ws :
  ws !! i = Some (Finishing id r) → finish_job (cfg env) id r now saved removable m d = (m', d') →
  inv m ws → inv m' (<[i := Idle]> ws).
Proof.
  intros Hi Hf [Hids Hq Hqd Hsp Hrun Hcan Hun Hres Hb Hw].
  assert (Hst : job_state m id = Some Running) by (apply Hrun, Hcan; exists i, (Finishing id r); done).
  pose proof (Hres _ _ _ Hi) as Hfin.
  pose proof Hst as Hst0. unfold job_state in Hst0. destruct (jobs m !! id) as [j|] eqn:Hj; [|done].
  destruct (finish_job_spec (cfg env) id r now saved removable m d j Hids Hj) as (removed & d2 & Hm & Hrem).
  rewrite Hm in Hf. injection Hf as <- <-.
  assert (Hst' : ∀ x, job_state (mkState (foldl (λ m i, delete i m) (<[id := apply r now j]> (jobs m)) removed)
    (specs m) (queue m) (delete id (cancels m)) (shutdown m)) x =
    if decide (x ∈ removed) then None else if decide (x = id) then Some (res_state r) else job_state m x).
  { intros x. unfold job_state; simpl. rewrite foldl_delete. destruct (decide (x ∈ removed)); [done|].
    destruct (decide (x = id)) as [->|]; [by rewrite lookup_insert_eq|]. by rewrite lookup_insert_ne. }
  assert (Hgone : ∀ x, x ∈ removed → x ≠ id → ∃ st, job_state m x = Some st ∧ finished st = true).
  { intros x (j' & Hx & Hfj)%Hrem Hne. rewrite lookup_insert_ne in Hx by done.
    exists (state j'). unfold job_state. by rewrite Hx. }
  assert (Hnot : ∀ st x, finished st = false →
    job_state (mkState (foldl (λ m i, delete i m) (<[id := apply r now j]> (jobs m)) removed)
      (specs m) (queue m) (delete id (cancels m)) (shutdown m)) x = Some st ↔ x ≠ id ∧ job_state m x = Some st).
  { intros st x Hnf. rewrite Hst'. destruct (decide (x ∈ removed)) as [Hx|Hx].
    - split; [done|]. intros [Hne Hs]. destruct (Hgone x Hx Hne) as (st' & Hs' & Hf'). congruence.
    - destruct (decide (x = id)) as [->|]; [|naive_solver]. split; [|naive_solver]. intros [= <-]. congruence. }
  constructor; simpl; try done.
  - intros x j'. rewrite foldl_delete. destruct (decide (x ∈ removed)); [done|].
    intros [[-> <-]|[_ Hx]]%lookup_insert_Some; [by simpl; apply (Hids x)|by apply Hids].
  - intros x. rewrite Hnot, Hqd by done. split; [|naive_solver]. intros Hx. split; [|done]. intros ->. congruence.
  - intros x. rewrite Hnot, lookup_delete_is_Some, Hrun by done. naive_solver.
  - intros x. rewrite lookup_delete_is_Some, Hcan. split.
    + intros [Hne (k & w & Hk & Hbw)]. exists k, w. rewrite insert_worker by done. split; [|done]. right.
      split; [|done]. intros ->. rewrite Hi in Hk. injection Hk as <-. by apply Hne.
    + intros (k & w & [[-> ->]|[Hne Hk]]%(insert_worker _ _ _ _ _ _ Hi) & Hbw); [done|]. split; [|by eauto].
      intros ->. apply Hne. by eapply (Hun k i).
  - intros k l v w x Hk Hl Hv Hw'. apply (insert_worker _ _ _ _ _ _ Hi) in Hk, Hl.
    destruct Hk as [[-> ->]|[? Hk]], Hl as [[-> ->]|[? Hl]]; [done..|]. by eapply Hun.
  - intros k x y Hk. apply (insert_worker _ _ _ _ _ _ Hi) in Hk as [[_ ?]|[_ Hk]]; [done|by eapply Hres].
  - by rewrite vlen_insert.
Qed.

(** A worker that has a result instead of a specification. *)
Lemma inv_ran i id sp r m ws :
  ws !! i = Some (Busy id sp) → finished (res_state r) = true → inv m ws → inv m (<[i := Finishing id r]> ws).
Proof.
  intros Hi Hfin [Hids Hq Hqd Hsp Hrun Hcan Hun Hres Hb Hw].
  assert (Hsame : ∀ k w x, <[i:=Finishing id r]> ws !! k = Some w → busy_with w x → ∃ v, ws !! k = Some v ∧ busy_with v x).
  { intros k w x [[-> ->]|[_ Hk]]%(insert_worker _ _ _ _ _ _ Hi) Hbw; eauto. }
  constructor; try done.
  - intros x. rewrite Hcan. split.
    + intros (k & w & Hk & Hbw). destruct (decide (k = i)) as [->|Hne].
      * exists i, (Finishing id r). rewrite insert_worker by done. split; [by left|].
        rewrite Hi in Hk. by injection Hk as <-.
      * exists k, w. rewrite insert_worker by done. auto.
    + intros (k & w & Hk & Hbw). destruct (Hsame _ _ _ Hk Hbw) as (v & ? & ?). eauto.
  - intros k l v w x Hk Hl Hv Hw'. destruct (Hsame _ _ _ Hk Hv) as (? & ? & ?), (Hsame _ _ _ Hl Hw') as (? & ? & ?).
    by eapply Hun.
  - intros k x y Hk. apply (insert_worker _ _ _ _ _ _ Hi) in Hk as [[_ [= _ <-]]|[_ Hk]]; [done|by eapply Hres].
  - by rewrite vlen_insert.
Qed.

Lemma execute_finished e w id sp d q r d' q' :
  Jobs.execute (V := V) (Q := Q) show_date err_text e w id sp d q = Some (r, d', q') → finished (res_state r) = true.
Proof.
  assert (Hdig : ∀ o, finished (res_state (digest_outcome (V := V) show_date err_text e sp o q).1.1) = true).
  { intros o. unfold digest_outcome. repeat case_match; done. }
  unfold Jobs.execute. destruct (child_command e w sp) as [cmd|]; [|by intros [= <- _ _]].
  intros H. apply bind_Some in H as (x & _ & H). injection H as H. revert H.
  destruct x as [o|]; [|by intros [= <- _ _]]. specialize (Hdig o).
  destruct (digest_outcome _ _ _ _ _ _) as [[r0 report] q0]. simpl in Hdig.
  destruct report as [bs|]; [|by intros [= <- _ _]].
  destruct (save_report _ _ _ _) as [[u|m] d0]; by intros [= <- _ _].
Qed.

Lemma adopt_spec now js saved m d :
  let r := adopt now js saved m d in
  specs r.1 = specs m ∧ queue r.1 = queue m ∧ cancels r.1 = cancels m ∧ shutdown r.1 = shutdown m ∧
  ((∀ i j, jobs m !! i = Some j → job_id j = i ∧ finished (state j) = true) →
   ∀ i j, jobs r.1 !! i = Some j → job_id j = i ∧ finished (state j) = true).
Proof.
  revert m d. induction js as [|j js IH]; intros m d; simpl; [done|].
  destruct (finished (state j)) eqn:Hf;
    match goal with |- context [adopt now js saved ?m ?d] => destruct (IH m d) as (-> & -> & -> & -> & Hj) end;
    (split_and!; [done..|]); intros Hm; apply Hj; simpl;
    intros i j' [[<- <-]|[_ Hx]]%lookup_insert_Some; (done || by apply Hm).
Qed.

Lemma inv_start now entries saved d q : let s := start now entries saved d q in inv (mgr (core s)) (workers s).
Proof.
  unfold start, new_manager. pose proof (adopt_spec now (load_jobs entries).1 saved empty_state d) as H.
  destruct (adopt _ _ _ _ _) as [m d']. simpl in *. destruct H as (Hs & Hq & Hc & _ & Hj).
  specialize (Hj (λ i j, ltac:(by rewrite lookup_empty))).
  assert (Hnone : ∀ x st, finished st = false → job_state m x ≠ Some st).
  { intros x st Hst. unfold job_state. destruct (jobs m !! x) as [j|] eqn:Hx; [|done]. simpl.
    apply Hj in Hx as [_ Hx]. congruence. }
  assert (Hidle : ∀ n i w, repeat Idle n !! i = Some w → w = Idle).
  { intros n i w Hi%list_elem_of_lookup_2. by apply list_elem_of_In, repeat_spec in Hi. }
  constructor; rewrite ?Hs, ?Hq, ?Hc; simpl; try done.
  - intros i j Hi. by apply Hj.
  - constructor.
  - intros x. split; [by intros ?%elem_of_nil|]. intros Hx. by eapply Hnone in Hx.
  - intros x. rewrite lookup_empty. split; [by intros []|by intros ?%elem_of_nil].
  - intros x. rewrite lookup_empty. split; [by intros []|]. intros Hx. by eapply Hnone in Hx.
  - intros x. rewrite lookup_empty. split; [by intros []|]. intros (i & w & ->%Hidle & []).
  - intros i j v w x ->%Hidle. by intros _ [].
  - intros i x r Hx%Hidle. done.
  - unfold vlen. simpl. lia.
  - unfold vlen. rewrite repeat_length. lia.
Qed.

(** ** Steps *)

(** What serving a request does to the job manager. *)
Inductive request_effect (a : answers) (p : Peer) (o : Op) (m : State) (d : Files) : State → Prop :=
  | no_effect : request_effect a p o m d m
  | submits sched ow sp r m' d' : asks p o sp →
      submit (ctx_cfg ctx) (new_id a) (at_time a) (saved a) ow sched sp m d = (r, m', d') →
      request_effect a p o m d m'
  | cancels_job id j r m' d' : o = Cancel id →
      jobs m !! id = Some j → can_access_job (caller p) (owner j) = true →
      cancel_job id (at_time a) (saved a) m d = (r, m', d') → request_effect a p o m d m'.

Lemma start_schedule_mgr a sch (c : service Q) :
  ∃ r d', submit (ctx_cfg ctx) (new_id a) (at_time a) (saved a) principal_of_service (Some (SvcConfig.name sch))
      (spec_of sch) (mgr c) (files c) = (r, mgr (start_schedule ctx principal_of_service a sch c).2, d').
Proof.
  unfold start_schedule, do_submit.
  destruct (submit _ _ _ _ _ _ _ _ _) as [[r m] d]. exists r, d. by destruct r.
Qed.

Lemma dispatch_effect a p r (c : service Q) :
  let c' := (dispatch (V := V) ctx principal_of_service a p r c).2 in
  c' = c ∨ validate r = Ok tt ∧ authorize (caller p) (op r) = Ok tt ∧
    request_effect a p (op r) (mgr c) (files c) (mgr c').
Proof.
  unfold dispatch. destruct (validate r) as [[]|]; [|by left]. destruct (authorize _ _) as [[]|]; [|by left].
  destruct (execute _ _ _ _ _ _) as [res c'] eqn:He. assert ((match res with
    | Ok reply => (response (req_id r) reply, c') | Err e => (response_error (req_id r) e, c') end).2 = c') as ->
    by by destruct res. right. split_and!; [done..|]. revert He. unfold execute.
  destruct (op r) as [| |paths h na q|h| |id|id|id| |n| |id al|id|]; cbn [started_job fst snd].
  all: try by intros [= _ <-]; constructor.
  - intros [= _ <-]. unfold do_submit. destruct (submit _ _ _ _ _ _ _ _ _) as [[x m] d] eqn:Hs.
    eapply submits; [constructor|exact Hs].
  - intros [= _ <-]. unfold do_submit. destruct (submit _ _ _ _ _ _ _ _ _) as [[x m] d] eqn:Hs.
    eapply submits; [constructor|exact Hs].
  - destruct (visible_job _ _ _) as [j|] eqn:Hj; [|intros [= _ <-]; constructor].
    unfold visible_job, get in Hj. apply bind_Some in Hj as (j' & Hj & Hown).
    destruct (can_access_job _ _) eqn:Hacc; [|done].
    destruct (cancel_job _ _ _ _ _) as [[x m] d] eqn:Hs. intros [= _ <-]. by eapply cancels_job.
  - destruct (List.find _ _) as [sch|] eqn:Hf; [|intros [= _ <-]; constructor].
    apply find_some in Hf as [Hin Hn]. apply bool_decide_eq_true in Hn as <-.
    intros [= _ <-]. destruct (start_schedule_mgr a sch c) as (x & d' & Hs).
    eapply submits; [|exact Hs]. constructor. by apply list_elem_of_In.
  - destruct (list_items _ _). intros [= _ <-]. constructor.
  - destruct (restore_item _ _ _ _). intros [= _ <-]. constructor.
  - destruct (delete_item _ _ _). intros [= _ <-]. constructor.
  - destruct (AuditCheck.check _ _ _). intros [= _ <-]. constructor.
Qed.

Lemma jobs_inv_step e s s' :
  admissible e s → exec e s = Some s' → inv (mgr (core s)) (workers s) → inv (mgr (core s')) (workers s').
Proof.
  intros Ha He Hi. destruct e as [a p r|a sch|a|i now sv|i w|i now sv rm|]; simpl in Ha, He.
  - injection He as <-. simpl. destruct (dispatch_effect a p r (core s)) as [->|(_ & _ & Hd)]; [done|].
    inversion Hd as [|sched ow sp x m' d' _ Hs|id j x m' d' _ _ _ Hs]; subst; [done| |].
    + by eapply inv_submit.
    + by eapply inv_cancel.
  - injection He as <-. simpl. destruct (start_schedule_mgr a sch (core s)) as (x & d' & Hs).
    eapply inv_submit; [exact Hs|by destruct Ha|done].
  - destruct (AuditCheck.check _ _ _). by injection He as <-.
  - destruct (workers s !! i) as [[]|] eqn:Hw; try done. destruct (shutdown _); [done|].
    apply bind_Some in He as ([[[id sp] m] d] & Ht & [= <-]). by eapply inv_take.
  - destruct (workers s !! i) as [[|id sp|]|] eqn:Hw; try done.
    apply bind_Some in He as ([[r d] q] & Hx & [= <-]). simpl. eapply inv_ran; [done| |done].
    by eapply execute_finished.
  - destruct (workers s !! i) as [[| |id r]|] eqn:Hw; try done.
    destruct (finish_job _ _ _ _ _ _ _ _) as [m d] eqn:Hf. injection He as <-. by eapply jobs_inv_finish.
  - injection He as <-. by apply inv_shutdown.
Qed.

Lemma inv_steps s es s' :
  steps s es s' → inv (mgr (core s)) (workers s) → inv (mgr (core s')) (workers s').
Proof. induction 1; [done|]. intros. by eapply IHsteps, jobs_inv_step. Qed.

(** ** Every job was granted *)

Definition granted (tr : list event) (m : State) (ws : list worker) : Prop :=
  ∀ id sp, specs m !! id = Some sp ∨ (∃ i, ws !! i = Some (Busy id sp)) → grant tr id sp.

Lemma grant_app tr tr' id sp : grant tr id sp → grant (tr ++ tr') id sp.
Proof.
  intros [a p r H|a sch H]; [eapply by_request|eapply by_schedule]; try done; apply elem_of_app; by left.
Qed.

Lemma submit_specs c id now sv ow sched sp m d r m' d' x sx :
  submit c id now sv ow sched sp m d = (r, m', d') → specs m' !! x = Some sx →
  specs m !! x = Some sx ∨ (x = id ∧ sx = sp).
Proof.
  unfold submit. destruct (shutdown m); [intros; simplify_eq; auto|].
  destruct (_ <=? _); [intros; simplify_eq; auto|]. destruct (save_job _ _ _) as [[[]|e] d1].
  - intros [= <- <- <-]. simpl. intros [[<- <-]|[_ ?]]%lookup_insert_Some; auto.
  - intros. simplify_eq. auto.
Qed.

Lemma cancel_specs id now sv m d r m' d' x sx :
  cancel_job id now sv m d = (r, m', d') → specs m' !! x = Some sx → specs m !! x = Some sx.
Proof.
  unfold cancel_job. destruct (cancels m !! id); [by intros [= <- <- <-]|].
  case_bool_decide; [|by intros [= <- <- <-]].
  destruct (jobs m !! id); intros [= <- <- <-]; simpl; intros Hx; by apply lookup_delete_Some in Hx as [_ Hx].
Qed.

Lemma take_specs now sv m d id sp m' d' :
  take_job now sv m d = Some (id, sp, m', d') →
  specs m !! id = Some sp ∧ ∀ x sx, specs m' !! x = Some sx → specs m !! x = Some sx.
Proof.
  unfold take_job. intros H. apply bind_Some in H as ([[i sp'] rest] & Ht & H).
  assert (Hsp : specs m !! i = Some sp').
  { revert Ht. generalize (queue m). induction l as [|y l IH]; simpl; [done|].
    destruct (specs m !! y) eqn:Hy; [by intros [= <- <- <-]|done]. }
  destruct (jobs m !! i); injection H as <- <- <- <-; (split; [done|]); simpl;
    intros x sx Hx; by apply lookup_delete_Some in Hx as [_ Hx].
Qed.

Lemma finish_specs c id r now sv rm m d : specs (finish_job c id r now sv rm m d).1 = specs m.
Proof.
  unfold finish_job. destruct (jobs m !! id);
    match goal with |- context [prune ?f ?js ?k ?x] => by destruct (prune f js k x) end.
Qed.

Lemma granted_step tr e s s' :
  admissible e s → exec e s = Some s' → granted tr (mgr (core s)) (workers s) →
  granted (tr ++ [e]) (mgr (core s')) (workers s').
Proof.
  intros Ha He Hg.
  assert (Hold : granted (tr ++ [e]) (mgr (core s)) (workers s)) by (intros x sx Hx; apply grant_app; auto).
  assert (Hin : e ∈ tr ++ [e]) by (apply elem_of_app; right; by left).
  destruct e as [a p r|a sch|a|i now sv|i w|i now sv rm|]; simpl in Ha, He.
  - injection He as <-. simpl. destruct (dispatch_effect a p r (core s)) as [->|(Hv & Hau & Hd)]; [done|].
    inversion Hd as [|sched ow sp x m' d' Hask Hs|id j x m' d' Ho _ _ Hs]; subst; [exact Hold| |].
    + intros y sy [Hy|Hy]; [|apply Hold; by right].
      eapply submit_specs in Hs as [?|[-> ->]]; [apply Hold; by left| |exact Hy]. by eapply by_request.
    + intros y sy [Hy|Hy]; apply Hold; [left|by right]. by eapply cancel_specs.
  - injection He as <-. simpl. destruct (start_schedule_mgr a sch (core s)) as (x & d' & Hs).
    intros y sy [Hy|Hy]; [|apply Hold; by right].
    eapply submit_specs in Hs as [?|[-> ->]]; [apply Hold; by left| |exact Hy]. eapply by_schedule; [done..|by destruct Ha|done].
  - destruct (AuditCheck.check _ _ _). by injection He as <-.
  - destruct (workers s !! i) as [[]|] eqn:Hw; try done. destruct (shutdown _); [done|].
    apply bind_Some in He as ([[[id sp] m] d] & Ht & [= <-]). apply take_specs in Ht as [Hid Hsub].
    intros y sy [Hy|[k Hk]]; simpl in *; [apply Hold; left; auto|].
    apply (insert_worker _ _ _ _ _ _ Hw) in Hk as [[_ [= -> ->]]|[_ Hk]]; apply Hold; eauto.
  - destruct (workers s !! i) as [[|id sp|]|] eqn:Hw; try done.
    apply bind_Some in He as ([[r d] q] & Hx & [= <-]). intros y sy [Hy|[k Hk]]; simpl in *; [apply Hold; by left|].
    apply (insert_worker _ _ _ _ _ _ Hw) in Hk as [[_ ?]|[_ Hk]]; [done|]. apply Hold; eauto.
  - destruct (workers s !! i) as [[| |id r]|] eqn:Hw; try done.
    pose proof (finish_specs (cfg env) id r now sv rm (mgr (core s)) (files (core s))) as Hsp.
    destruct (finish_job _ _ _ _ _ _ _ _) as [m d] eqn:Hf. injection He as <-. simpl in *.
    intros y sy [Hy|[k Hk]]; simpl in *; [apply Hold; left; congruence|].
    apply (insert_worker _ _ _ _ _ _ Hw) in Hk as [[_ ?]|[_ Hk]]; [done|]. apply Hold; eauto.
  - by injection He as <-.
Qed.

Lemma granted_steps tr s es s' :
  steps s es s' → granted tr (mgr (core s)) (workers s) → granted (tr ++ es) (mgr (core s')) (workers s').
Proof.
  intros H. revert tr. induction H as [|s e s1 es s2 Ha He _ IH]; intros tr Hg; [by rewrite app_nil_r|].
  change (e :: es) with ([e] ++ es). rewrite app_assoc. eapply IH, granted_step; done.
Qed.

Lemma granted_start now entries sv d q : let s := start now entries sv d q in granted [] (mgr (core s)) (workers s).
Proof.
  unfold start, new_manager. pose proof (adopt_spec now (load_jobs entries).1 sv empty_state d) as (Hs & _).
  destruct (adopt _ _ _ _ _) as [m d']. simpl in *. intros id sp [Hx|[i Hx]].
  - by rewrite Hs, lookup_empty in Hx.
  - apply list_elem_of_lookup_2, list_elem_of_In, repeat_spec in Hx. done.
Qed.

(** ** The command line of a job *)

Definition with_paths (ps : list string) (sp : JobSpec) : JobSpec :=
  mkSpec (spec_kind sp) ps (spec_heuristics sp) (no_archives sp) (spec_quarantine sp) (run_as sp).

Lemma child_args_split sp c sf inst ui t :
  spec_kind sp = KScan → ∃ opts, ∀ ps, child_args (with_paths ps sp) c sf inst ui t = opts ++ "--"%string :: ps.
Proof.
  intros Hk. eexists. intros ps. unfold child_args. simpl. rewrite Hk.
  rewrite !app_assoc, !app_comm_cons. reflexivity.
Qed.

Lemma identity_caller e euid sp i u g :
  run_as sp = RunCaller u g → identity e euid sp = Ok i →
  match scanner e with Some _ => i = Runner.AsUser u g | None => u = euid ∧ i = Runner.Inherit end.
Proof.
  unfold identity. intros -> H. destruct (scanner e) as [[]|]; [by injection H as <-|].
  destruct (N.eqb_spec u euid); [by injection H as <-|done].
Qed.

(** The arguments of [setpriv] for a user, as the tests of runner.rs give them. *)
Definition user_args (u g : N) : list string :=
  [("--reuid=" +:+ show_N u); ("--regid=" +:+ show_N g); "--init-groups"; "--inh-caps=-all"; "--bounding-set=-all";
   "--no-new-privs"; "--"]%string.

Lemma append_empty (s : string) : (s +:+ "")%string = s.
Proof. induction s as [|c s IH]; [done|]. exact (f_equal (String c) IH). Qed.

Lemma setpriv_user u g : Runner.setpriv_args (Runner.AsUser u g) = user_args u g.
Proof.
  unfold Runner.setpriv_args, user_args, fmt. cbn [fmt_go negb bool_decide decide_rel].
  f_equal; [|f_equal]; simpl; by rewrite append_empty.
Qed.

Lemma caller_command w sp cmd u g :
  run_as sp = RunCaller u g → spec_kind sp = KScan → child_command env w sp = Ok cmd →
  ∃ pre opts, Runner.args cmd = pre ++ opts ++ "--"%string :: spec_paths sp ∧
    (∀ ps cmd', child_command env w (with_paths ps sp) = Ok cmd' → Runner.args cmd' = pre ++ opts ++ "--"%string :: ps) ∧
    match scanner env with
    | Some _ => setpriv env = Some (Runner.program cmd) ∧ pre = user_args u g ++ [binary env]
    | None => u = euid w ∧ Runner.program cmd = binary env ∧ pre = []
    end.
Proof.
  intros Hrun Hk Hc.
  assert (Hall : ∃ pre opts,
    (∀ ps cmd', child_command env w (with_paths ps sp) = Ok cmd' →
      Runner.args cmd' = pre ++ opts ++ "--"%string :: ps ∧
      match scanner env with
      | Some _ => setpriv env = Some (Runner.program cmd') ∧ pre = user_args u g ++ [binary env]
      | None => u = euid w ∧ Runner.program cmd' = binary env ∧ pre = []
      end)).
  { unfold child_command in Hc. apply result_bind_Ok in Hc as (i & Hi & Hc).
    pose proof (identity_caller _ _ _ _ _ _ Hrun Hi) as Hid.
    destruct (scanner env) as [[su sg]|] eqn:Hsc.
    - subst i. simpl in Hc. apply result_bind_Ok in Hc as (dir & Hdir & Hc).
      destruct (child_args_split sp (cfg env) (join dir "content-state.json") (join dir "content")
        (has_installed_content (listing w (join dir "content"))) (SvcConfig.job_timeout_minutes (cfg env) * 60) Hk)
        as [opts Hopts].
      exists (user_args u g ++ [binary env]), opts. intros ps cmd' Hc'. unfold child_command in Hc'.
      assert (identity env (euid w) (with_paths ps sp) = Ok (Runner.AsUser u g)) as Hid'.
      { unfold identity in *. simpl. rewrite Hrun in *. by rewrite Hsc in *. }
      rewrite Hid' in Hc'. simpl in Hc'. rewrite Hdir in Hc'. simpl in Hc'. rewrite Hopts in Hc'.
      unfold Runner.command in Hc'. destruct (setpriv env) as [exe|]; [|done].
      injection Hc' as <-. by rewrite <-!setpriv_user.
    - destruct Hid as [-> ->]. simpl in Hc. apply result_bind_Ok in Hc as (dir & Hdir & Hc).
      destruct (child_args_split sp (cfg env) (join dir "content-state.json") (join dir "content")
        (has_installed_content (listing w (join dir "content"))) (SvcConfig.job_timeout_minutes (cfg env) * 60) Hk)
        as [opts Hopts].
      exists [], opts. intros ps cmd' Hc'. unfold child_command in Hc'.
      assert (identity env (euid w) (with_paths ps sp) = Ok Runner.Inherit) as Hid'.
      { unfold identity in *. simpl. rewrite Hrun in *. by rewrite Hsc in *. }
      rewrite Hid' in Hc'. simpl in Hc'. rewrite Hdir in Hc'. simpl in Hc'. rewrite Hopts in Hc'.
      by injection Hc' as <-. }
  destruct Hall as (pre & opts & Hall). exists pre, opts.
  assert (with_paths (spec_paths sp) sp = sp) as Hsame by by destruct sp.
  destruct (Hall (spec_paths sp) cmd) as [? ?]; [by rewrite Hsame|]. split_and!; [done| |done].
  intros ps cmd' Hc'. by apply Hall.
Qed.

(** Without a wish to quarantine, running a job leaves the store alone. *)
Lemma execute_no_quarantine e w id sp d q r d' q' :
  spec_quarantine sp = false →
  Jobs.execute (V := V) (Q := Q) show_date err_text e w id sp d q = Some (r, d', q') → q' = q.
Proof.
  intros Hsq.
  assert (Hdig : ∀ o, (digest_outcome (V := V) show_date err_text e sp o q).2 = q).
  { intros o. unfold digest_outcome, remediate. rewrite Hsq. simpl. repeat case_match; simplify_eq; done. }
  unfold Jobs.execute. destruct (child_command e w sp) as [cmd|]; [|by intros [= _ _ <-]].
  intros H. apply bind_Some in H as (x & _ & H). injection H as H. revert H.
  destruct x as [o|]; [|by intros [= _ _ <-]]. specialize (Hdig o).
  destruct (digest_outcome _ _ _ _ _ _) as [[r0 report] q0]. simpl in Hdig. subst q0.
  destruct report as [bs|]; [|by intros [= _ _ <-]].
  destruct (save_report _ _ _ _) as [[u|m] d0]; by intros [= _ _ <-].
Qed.

(** What a grant says of who asked for the job. *)
Lemma grant_origin tr id sp : grant tr id sp →
  match run_as sp with
  | RunService =>
      (∃ a p r, Requested a p r ∈ tr ∧ new_id a = id ∧ admin (caller p) = true) ∨
      (∃ a sch, Scheduled a sch ∈ tr ∧ new_id a = id ∧ sch ∈ SvcConfig.schedules (ctx_cfg ctx) ∧ sp = spec_of sch)
  | RunCaller u g =>
      (∃ a p r, Requested a p r ∈ tr ∧ new_id a = id ∧ admin (caller p) = false ∧ ids p = (u, g) ∧ asks p (op r) sp) ∧
      spec_kind sp = KScan ∧ spec_quarantine sp = false
  end.
Proof.
  intros [a p r Hin Hid _ Hau Hask|a sch Hin Hid Hsch ->]; [|simpl; right; eauto 10].
  unfold authorize in Hau. destruct (admin (caller p)) eqn:Hadm.
  - inversion Hask; subst; simpl; unfold scan_identity, scan_as_caller; rewrite ?Hadm; simpl; left; by exists a, p, r.
  - rewrite andb_true_r in Hau. inversion Hask as [ps h na q Ho|h Ho|sch Hs Ho]; subst; rewrite <-Ho in Hau; simpl in Hau; try done.
    destruct q; [done|]. unfold scan_identity, scan_as_caller. rewrite Hadm. simpl. split; [|done].
    exists a, p, r. split_and!; [done|done|done|by destruct (ids p)|].
    rewrite <-Ho. assert (RunCaller (ids p).1 (ids p).2 = scan_identity p) as -> ; [|constructor].
    unfold scan_identity, scan_as_caller. by rewrite Hadm.
Qed.

(** ** The life of a job *)

(** What can become of a recorded job. *)
Inductive moves (j : JobSummary) : JobSummary → Prop :=
  | stays : moves j j
  | starts now : state j = Queued → moves j (with_state Running (Some now) (finished_at j) j)
  | is_cancelled now : state j = Queued → moves j (with_state Cancelled (started_at j) (Some now) j)
  | ends r now : state j = Running → finished (res_state r) = true → moves j (apply r now j).

Lemma submit_jobs c id now sv ow sched sp m d r m' d' :
  submit c id now sv ow sched sp m d = (r, m', d') →
  jobs m' = jobs m ∨ jobs m' = <[id := summary_of id ow sched sp now]> (jobs m).
Proof.
  unfold submit. destruct (shutdown m); [intros [= _ <- _]; by left|].
  destruct (_ <=? _); [intros [= _ <- _]; by left|].
  destruct (save_job _ _ _) as [[[]|e] d1]; intros [= _ <- _]; [by right|by left].
Qed.

Lemma cancel_jobs id now sv m d r m' d' ws : inv m ws →
  cancel_job id now sv m d = (r, m', d') →
  jobs m' = jobs m ∨ ∃ j, jobs m !! id = Some j ∧ state j = Queued ∧
    jobs m' = <[id := with_state Cancelled (started_at j) (Some now) j]> (jobs m).
Proof.
  intros Hi. unfold cancel_job. destruct (cancels m !! id); [intros [= _ <- _]; by left|].
  case_bool_decide as Hq; [|intros [= _ <- _]; by left]. apply (inv_queued _ _ Hi) in Hq. unfold job_state in Hq.
  destruct (jobs m !! id) as [j|] eqn:Hj; [|done]. injection Hq as Hq. intros [= _ <- _]. right. by exists j.
Qed.

Lemma take_jobs now sv m d id sp m' d' ws : inv m ws →
  take_job now sv m d = Some (id, sp, m', d') →
  (∃ rest, queue m = id :: rest ∧ queue m' = rest) ∧ ∃ j, jobs m !! id = Some j ∧ state j = Queued ∧
    jobs m' = <[id := with_state Running (Some now) (finished_at j) j]> (jobs m).
Proof.
  intros Hi Ht. unfold take_job in Ht. apply bind_Some in Ht as ([[i sp'] rest] & Hhd & Ht).
  apply take_from_head in Hhd as [Hq _]; [|apply (inv_specs _ _ Hi)].
  assert (job_state m i = Some Queued) as Hst by (apply (inv_queued _ _ Hi); rewrite Hq; by left).
  unfold job_state in Hst. destruct (jobs m !! i) as [j|] eqn:Hj; [|done]. injection Hst as Hst.
  injection Ht as <- _ <- _. split; [by exists rest|by exists j].
Qed.

Lemma job_moves e s s' id j :
  inv (mgr (core s)) (workers s) → admissible e s → exec e s = Some s' → jobs (mgr (core s)) !! id = Some j →
  (∃ j', jobs (mgr (core s')) !! id = Some j' ∧ moves j j') ∨
  (jobs (mgr (core s')) !! id = None ∧ (∃ i now sv rm, e = Finish i now sv rm) ∧
    ∃ j', moves j j' ∧ finished (state j') = true).
Proof.
  intros Hi Ha He Hj.
  destruct e as [a p r|a sch|a|i now sv|i w|i now sv rm|]; simpl in Ha, He.
  - left. injection He as <-. simpl. destruct (dispatch_effect a p r (core s)) as [->|(_ & _ & Hd)].
    { exists j. split; [done|constructor]. }
    inversion Hd as [|sched ow sp x m' d' _ Hs|x jc y m' d' _ _ _ Hs]; subst.
    + exists j. split; [done|constructor].
    + apply submit_jobs in Hs as [-> | ->]; exists j; (split; [|constructor]); [done|].
      rewrite lookup_insert_ne; [done|congruence].
    + eapply cancel_jobs in Hs as [->|(j0 & Hj0 & Hq & ->)]; [exists j; split; [done|constructor]| |done].
      destruct (decide (x = id)) as [->|].
      * rewrite lookup_insert_eq. replace j0 with j in * by congruence. eexists. split; [done|by constructor].
      * rewrite lookup_insert_ne by done. exists j. split; [done|constructor].
  - left. injection He as <-. simpl. destruct (start_schedule_mgr a sch (core s)) as (x & d' & Hs).
    apply submit_jobs in Hs as [-> | ->]; exists j; (split; [|constructor]); [done|].
    rewrite lookup_insert_ne; [done|]. destruct Ha. congruence.
  - left. destruct (AuditCheck.check _ _ _). injection He as <-. exists j. split; [done|constructor].
  - left. destruct (workers s !! i) as [[]|] eqn:Hw; try done. destruct (shutdown _); [done|].
    apply bind_Some in He as ([[[x sp] m] d] & Ht & [= <-]).
    eapply take_jobs in Ht as (_ & j0 & Hj0 & Hq & Hm); [|done]. simpl. rewrite Hm.
    destruct (decide (x = id)) as [->|].
    + rewrite lookup_insert_eq. replace j0 with j in * by congruence. eexists. split; [done|by constructor].
    + rewrite lookup_insert_ne by done. exists j. split; [done|constructor].
  - left. destruct (workers s !! i) as [[|x sp|]|] eqn:Hw; try done.
    apply bind_Some in He as ([[r d] q] & Hx & [= <-]). exists j. split; [done|constructor].
  - destruct (workers s !! i) as [[| |x r]|] eqn:Hw; try done.
    assert (Hrun : job_state (mgr (core s)) x = Some Running).
    { apply (inv_running _ _ Hi), (inv_cancels _ _ Hi). by exists i, (Finishing x r). }
    unfold job_state in Hrun. destruct (jobs (mgr (core s)) !! x) as [j0|] eqn:Hj0; [|done]. injection Hrun as Hrun.
    destruct (finish_job_spec (cfg env) x r now sv rm _ (files (core s)) j0 (inv_ids _ _ Hi) Hj0)
      as (removed & d' & Hf & Hrem). rewrite Hf in He. injection He as <-. simpl. rewrite foldl_delete.
    assert (Hend : moves j0 (apply r now j0)) by (constructor; [done|by eapply (inv_results _ _ Hi)]).
    destruct (decide (x = id)) as [->|Hne].
    + replace j0 with j in * by congruence. destruct (decide (id ∈ removed)) as [Hin|].
      * right. split_and!; [done|by eauto|]. exists (apply r now j). split; [done|].
        apply Hrem in Hin as (j' & Hl & Hf'). rewrite lookup_insert_eq in Hl. by injection Hl as <-.
      * left. rewrite lookup_insert_eq. eauto.
    + destruct (decide (id ∈ removed)) as [Hin|].
      * right. split_and!; [done|by eauto|]. exists j. split; [constructor|].
        apply Hrem in Hin as (j' & Hl & Hf'). rewrite lookup_insert_ne in Hl by done. congruence.
      * left. rewrite lookup_insert_ne by done. exists j. split; [done|constructor].
  - left. injection He as <-. exists j. split; [done|constructor].
Qed.

(** ** The queue *)

Definition is_take (e : event) : bool := match e with Take _ _ _ => true | _ => false end.
Definition takes (es : list event) : nat := length (List.filter is_take es).

(** Event [e], seen in [s], starts job [id]; or it is the request of the job's
    owner, or of an administrator, that cancels it. *)
Definition begins (id : Uuid) (e : event) (s : sys Q) : Prop :=
  ∃ i now sv sp s', e = Take i now sv ∧ exec e s = Some s' ∧ workers s' !! i = Some (Busy id sp).
Definition cancelled_by (id : Uuid) (e : event) (s : sys Q) : Prop :=
  ∃ a p r j s' j', e = Requested a p r ∧ op r = Cancel id ∧
    jobs (mgr (core s)) !! id = Some j ∧ (admin (caller p) = true ∨ principal (caller p) = owner j) ∧
    exec e s = Some s' ∧ jobs (mgr (core s')) !! id = Some j' ∧ state j' = Cancelled.

Lemma remove_first_lookup x id l n :
  l !! n = Some id → x ≠ id → ∃ n', (n' ≤ n)%nat ∧ remove_first x l !! n' = Some id.
Proof.
  revert n. induction l as [|y l IH]; intros n Hn Hne; [done|]. simpl. destruct (N.eqb_spec y x) as [->|].
  - destruct n as [|n]; [by injection Hn as ->|]. exists n. split; [lia|done].
  - destruct n as [|n]; [by exists 0%nat|]. destruct (IH n Hn Hne) as (n' & ? & ?). exists (S n'). split; [lia|done].
Qed.

Lemma queue_step e s s' id n :
  inv (mgr (core s)) (workers s) → admissible e s → exec e s = Some s' → queue (mgr (core s)) !! n = Some id →
  begins id e s ∨ cancelled_by id e s ∨
  ∃ n', queue (mgr (core s')) !! n' = Some id ∧ (n' + (if is_take e then 1 else 0) ≤ n)%nat.
Proof.
  intros Hi Ha He0 Hn. pose proof He0 as He. assert (Hsame : ∀ k : nat, (k = 0 → n + k ≤ n)%nat) by lia.
  destruct e as [a p r|a sch|a|i now sv|i w|i now sv rm|]; simpl in Ha, He; simpl is_take.
  - injection He as <-. simpl. destruct (dispatch_effect a p r (core s)) as [->|(_ & _ & Hd)].
    { right. right. exists n. split; [done|lia]. }
    inversion Hd as [|sched ow sp x m' d' _ Hs|x j y m' d' Ho Hj Hacc Hs]; subst.
    + right. right. exists n. split; [done|lia].
    + right. right. exists n. split; [|lia]. revert Hs. unfold submit. destruct (shutdown _); [by intros [= _ <- _]|].
      destruct (_ <=? _); [by intros [= _ <- _]|]. destruct (save_job _ _ _) as [[[]|e] d1]; intros [= _ <- _]; [|done].
      simpl. by apply lookup_app_l_Some.
    + destruct (decide (x = id)) as [->|Hne].
      { pose proof Hs as Hs0. revert Hs0. unfold cancel_job.
        destruct (cancels _ !! id); [intros [= _ Hm _]; right; right; exists n; rewrite <-Hm; split; [done|lia]|].
        rewrite bool_decide_eq_true_2 by by eapply list_elem_of_lookup_2. rewrite Hj. intros [= _ Hm _].
        right; left. eexists a, p, r, j, _, _. split_and!; [done|done|done| |done| |].
        - unfold can_access_job in Hacc. apply orb_true_iff in Hacc as [|Ho'%bool_decide_eq_true]; auto.
        - simpl. rewrite <-Hm. simpl. apply lookup_insert_eq.
        - done. }
      right. right.
      revert Hs. unfold cancel_job. destruct (cancels _ !! x); [intros [= _ <- _]; exists n; split; [done|lia]|].
      case_bool_decide; [|intros [= _ <- _]; exists n; split; [done|lia]].
      destruct (remove_first_lookup x id _ n Hn Hne) as (n' & ? & ?).
      destruct (jobs _ !! x); intros [= _ <- _]; exists n'; (split; [done|lia]).
  - injection He as <-. simpl. destruct (start_schedule_mgr a sch (core s)) as (x & d' & Hs).
    right. right. exists n. split; [|lia]. revert Hs. unfold submit. destruct (shutdown _) eqn:?; [by intros [= _ <- _]|].
    destruct (_ <=? _); [by intros [= _ <- _]|]. destruct (save_job _ _ _) as [[[]|e] d1]; intros [= _ <- _]; [|done].
    simpl. by apply lookup_app_l_Some.
  - right. right. destruct (AuditCheck.check _ _ _). injection He as <-. exists n. split; [done|lia].
  - destruct (workers s !! i) as [[]|] eqn:Hw; try done. destruct (shutdown _); [done|].
    apply bind_Some in He as ([[[x sp] m] d] & Ht & Hs').
    eapply take_jobs in Ht as ((rest & Hq & Hq') & _); [|done]. rewrite Hq in Hn. destruct n as [|n].
    + left. injection Hn as ->. exists i, now, sv, sp, s'. split_and!; [done|done|]. injection Hs' as <-. simpl.
      apply list_lookup_insert_eq. by eapply lookup_lt_Some.
    + right. right. exists n. injection Hs' as <-. simpl. rewrite Hq'. split; [done|lia].
  - right. right. destruct (workers s !! i) as [[|x sp|]|] eqn:Hw; try done.
    apply bind_Some in He as ([[r d] q] & Hx & [= <-]). exists n. split; [done|lia].
  - right. right. destruct (workers s !! i) as [[| |x r]|] eqn:Hw; try done.
    assert (Hqs : queue (finish_job (cfg env) x r now sv rm (mgr (core s)) (files (core s))).1 = queue (mgr (core s))).
    { unfold finish_job. destruct (jobs _ !! x);
        match goal with |- context [prune ?f ?js ?k ?x] => by destruct (prune f js k x) end. }
    destruct (finish_job _ _ _ _ _ _ _ _) as [m d]. injection He as <-. simpl in *. exists n. rewrite Hqs. split; [done|lia].
  - right. right. injection He as <-. exists n. split; [done|lia].
Qed.

Lemma served s es s' id n :
  inv (mgr (core s)) (workers s) → steps s es s' → queue (mgr (core s)) !! n = Some id → (n < takes es)%nat →
  ∃ es1 e es2 s1, es = es1 ++ e :: es2 ∧ steps s es1 s1 ∧ (begins id e s1 ∨ cancelled_by id e s1).
Proof.
  intros Hi Hs. revert n Hi. induction Hs as [s|s e s1 es s2 Ha He Hs IH]; intros n Hi Hn Ht.
  { unfold takes in Ht. simpl in Ht. lia. }
  destruct (queue_step _ _ _ _ _ Hi Ha He Hn) as [Hb|[Hc|(n' & Hn' & Hle)]].
  - exists [], e, es, s. split_and!; [done|constructor|by left].
  - exists [], e, es, s. split_and!; [done|constructor|by right].
  - destruct (IH n') as (es1 & e' & es2 & s3 & -> & Hs3 & Hd); [by eapply jobs_inv_step|done| |].
    + unfold takes in *. simpl in Ht. destruct (is_take e); simpl in Ht; lia.
    + exists (e :: es1), e', es2, s3. split_and!; [done|by eapply steps_cons|done].
Qed.

(** ** Running a list of events *)

#[local] Existing Instance SvcConfig.Schedule_eq_dec.
Definition admissible_b (e : event) (s : sys Q) : bool :=
  match e with
  | Requested a _ _ => bool_decide (jobs (mgr (core s)) !! new_id a = None)
  | Scheduled a sch =>
      bool_decide (jobs (mgr (core s)) !! new_id a = None) && bool_decide (sch ∈ SvcConfig.schedules (ctx_cfg ctx))
  | _ => true
  end.
Fixpoint run (es : list event) (s : sys Q) : option (sys Q) :=
  match es with
  | [] => Some s
  | e :: es => if admissible_b e s then exec e s ≫= run es else None
  end.

Lemma run_steps es s s' : run es s = Some s' → steps s es s'.
Proof.
  revert s. induction es as [|e es IH]; intros s; simpl; [intros [= <-]; constructor|].
  destruct (admissible_b e s) eqn:Ha; [|done]. intros (s1 & He & Hr)%bind_Some.
  eapply steps_cons; [|exact He|by apply IH]. revert Ha. unfold admissible_b, admissible.
  destruct e; try done; rewrite ?andb_true_iff, ?bool_decide_eq_true; done.
Qed.
End Run.

(** ** What a user can see and change *)
Section Views.
Context {V Q : Type} `{UT : UuidText, JJ : Json JobSummary, JP : JsonPretty JobSummary, JS : Json (gmap string Z),
  SP : JsonPretty (gmap string Z), JA : Json AuditStatus, AP : JsonPretty AuditStatus, JV : Json V,
  MV : JournalValue V, QO : QuarantineOps Q, ST : StdText}.
Context (ctx : Ctx) (principal_of_service : string).

Lemma save_job_files o j d :
  let d' := (save_job o j d).2 in
  report_files d' = report_files d ∧ schedules_json d' = schedules_json d ∧ audit_json d' = audit_json d.
Proof. unfold save_job. destruct (to_vec_pretty j); [|done]. by destruct o. Qed.

Lemma remove_first_other x id l : id ≠ x → id ∈ remove_first x l ↔ id ∈ l.
Proof.
  intros Hne. induction l as [|y l IH]; simpl; [done|]. destruct (N.eqb_spec y x) as [->|]; set_solver.
Qed.

(** A job of the manager as seen from outside. *)
Definition same_entry (m m' : State) (id : Uuid) : Prop :=
  jobs m' !! id = jobs m !! id ∧ cancels m' !! id = cancels m !! id ∧ specs m' !! id = specs m !! id ∧
  (id ∈ queue m' ↔ id ∈ queue m).

Lemma same_entry_refl m id : same_entry m m id.
Proof. done. Qed.

Lemma submit_isolated c id now sv ow sched sp m d r m' d' x :
  submit c id now sv ow sched sp m d = (r, m', d') → x ≠ id →
  same_entry m m' x ∧ report_files d' = report_files d ∧ schedules_json d' = schedules_json d ∧ audit_json d' = audit_json d.
Proof.
  unfold submit. intros Hs Hne. destruct (shutdown m); [by injection Hs as <- <- <-|].
  destruct (_ <=? _); [by injection Hs as <- <- <-|].
  pose proof (save_job_files sv (summary_of id ow sched sp now) d) as Hf.
  destruct (save_job _ _ _) as [[[]|e] d1]; injection Hs as <- <- <-; (split; [|done]); [|done].
  unfold same_entry; simpl. rewrite !lookup_insert_ne by done. split_and!; [done..|]. set_solver.
Qed.

Lemma cancel_isolated id now sv m d r m' d' x :
  cancel_job id now sv m d = (r, m', d') → x ≠ id →
  same_entry m m' x ∧ report_files d' = report_files d ∧ schedules_json d' = schedules_json d ∧ audit_json d' = audit_json d.
Proof.
  unfold cancel_job. intros Hs Hne. destruct (cancels m !! id).
  { injection Hs as <- <- <-. split; [|done]. unfold same_entry; simpl. by rewrite lookup_insert_ne. }
  case_bool_decide; [|by injection Hs as <- <- <-].
  destruct (jobs m !! id) as [j|]; injection Hs as <- <- <-.
  - split; [|apply save_job_files]. unfold same_entry; simpl.
    rewrite lookup_insert_ne, lookup_delete_ne, remove_first_other by done. done.
  - split; [|done]. unfold same_entry; simpl. rewrite lookup_delete_ne, remove_first_other by done. done.
Qed.

Lemma visible_own c id (s : service Q) j :
  admin c = false → visible_job c id s = Some j → jobs (mgr s) !! id = Some j ∧ owner j = principal c.
Proof.
  unfold visible_job, can_access_job, get. intros -> H. apply bind_Some in H as (j' & Hj & H). simpl in H.
  case_bool_decide as Ho; [|done]. injection H as <-. done.
Qed.

Lemma dispatch_isolated a p r (c : service Q) :
  admin (caller p) = false → jobs (mgr c) !! new_id a = None →
  let c' := (dispatch (V := V) ctx principal_of_service a p r c).2 in
  quar c' = quar c ∧ last_check c' = last_check c ∧ report_files (files c') = report_files (files c) ∧
  schedules_json (files c') = schedules_json (files c) ∧ audit_json (files c') = audit_json (files c) ∧
  ∀ id j, jobs (mgr c) !! id = Some j → owner j ≠ principal (caller p) → same_entry (mgr c) (mgr c') id.
Proof.
  intros Hadm Hnew. unfold dispatch. destruct (validate r); [|done].
  unfold authorize. rewrite Hadm, andb_true_r. destruct (admin_only (op r)) eqn:Hao; [done|].
  destruct (execute _ _ _ _ _ _) as [res c'] eqn:He.
  assert ((match res with Ok reply => (response (req_id r) reply, c') | Err e => (response_error (req_id r) e, c') end).2
    = c') as -> by by destruct res.
  revert He. unfold execute. destruct (op r) as [| |paths h na q|h| |id|id|id| |n| |id al|id|]; try done.
  all: try by intros [= _ <-].
  - unfold started_job, do_submit. destruct (submit _ _ _ _ _ _ _ _ _) as [[x m] d] eqn:Hs. intros [= _ <-]. simpl.
    assert (Hiso : ∀ y, y ≠ new_id a → _) by (intros y Hy; exact (submit_isolated _ _ _ _ _ _ _ _ _ _ _ _ y Hs Hy)).
    destruct (Hiso (N.succ (new_id a))) as (_ & Hr & Hsc & Hau); [lia|]. split_and!; [done..|].
    intros y j Hy _. apply Hiso. congruence.
  - destruct (visible_job (caller p) id c) as [j0|] eqn:Hvis; [|by intros [= _ <-]].
    apply visible_own in Hvis as [Hj0 Hown]; [|done].
    destruct (cancel_job _ _ _ _ _) as [[x m] d] eqn:Hs. intros [= _ <-]. simpl.
    assert (Hiso : ∀ y, y ≠ id → _) by (intros y Hy; exact (cancel_isolated _ _ _ _ _ _ _ _ y Hs Hy)).
    destruct (Hiso (N.succ id)) as (_ & Hr & Hsc & Hau); [lia|]. split_and!; [done..|].
    intros y j Hy Hno. apply Hiso. intros ->. congruence.
Qed.

(** Two services that look the same to a user: the jobs the user owns, whether
    they are queued or running, their reports, and the schedules' state. *)
Record same_view (c : Caller) (s1 s2 : service Q) : Prop := {
  view_jobs : ∀ id j, owner j = principal c → jobs (mgr s1) !! id = Some j ↔ jobs (mgr s2) !! id = Some j;
  view_active : ∀ id j, jobs (mgr s1) !! id = Some j → owner j = principal c →
    (is_Some (cancels (mgr s1) !! id) ↔ is_Some (cancels (mgr s2) !! id)) ∧
    (id ∈ queue (mgr s1) ↔ id ∈ queue (mgr s2));
  view_reports : ∀ id j, jobs (mgr s1) !! id = Some j → owner j = principal c →
    report_files (files s1) !! file_of id = report_files (files s2) !! file_of id;
  view_schedules : schedules_json (files s1) = schedules_json (files s2) }.

Lemma StronglySorted_filterb {A} (R : relation A) f l : StronglySorted R l → StronglySorted R (List.filter f l).
Proof.
  induction 1 as [|x l Hl IH Hx]; simpl; [constructor|]. destruct (f x); [|done]. constructor; [done|].
  apply Forall_forall. intros y Hy%list_elem_of_In%filter_In. rewrite Forall_forall in Hx.
  apply Hx, list_elem_of_In. by destruct Hy.
Qed.

Lemma filter_values (f : JobSummary → bool) (m1 m2 : gmap Uuid JobSummary) :
  (∀ id j, f j = true → m1 !! id = Some j ↔ m2 !! id = Some j) →
  List.filter f (values m1) = List.filter f (values m2).
Proof.
  intros Hm. unfold values.
  assert (Hf : ∀ l : list (Uuid * JobSummary), List.filter f l.*2 = (List.filter (λ x, f x.2) l).*2).
  { intros l. apply filter_map_swap. }
  rewrite !Hf. f_equal.
  assert (Hsort : ∀ m : gmap Uuid JobSummary, StronglySorted (not_after key_order) (sort_by key_order (map_to_list m))).
  { intros m. apply Sorted_StronglySorted.
    - intros x y z. unfold not_after, key_order. rewrite !N.compare_le_iff. lia.
    - apply sort_by_sorted. intros x y. apply N.compare_antisym. }
  assert (Hin : ∀ (m : gmap Uuid JobSummary) x,
    x ∈ List.filter (λ x : Uuid * JobSummary, f x.2) (sort_by key_order (map_to_list m)) ↔ m !! x.1 = Some x.2 ∧ f x.2 = true).
  { intros m [i j]. rewrite list_elem_of_In, filter_In, <-list_elem_of_In, sort_by_perm, elem_of_map_to_list. done. }
  assert (Hnd : ∀ m : gmap Uuid JobSummary,
    NoDup (List.filter (λ x : Uuid * JobSummary, f x.2) (sort_by key_order (map_to_list m)))).
  { intros m. apply NoDup_ListNoDup, List.NoDup_filter, NoDup_ListNoDup. rewrite sort_by_perm. apply NoDup_map_to_list. }
  apply (StronglySorted_unique_strong (not_after key_order)).
  - intros [i1 j1] [i2 j2] [H1 F1]%Hin [H2 F2]%Hin. simpl in *. unfold not_after, key_order; simpl.
    rewrite !N.compare_le_iff. intros. replace i2 with i1 in * by lia. apply (Hm _ _ F1) in H1. congruence.
  - by apply StronglySorted_filterb.
  - by apply StronglySorted_filterb.
  - apply NoDup_Permutation; [done..|]. intros [i j]. rewrite !Hin. simpl. split; intros [H ?]; (split; [|done]); by apply Hm.
Qed.

Lemma view_visible c s1 s2 id :
  admin c = false → same_view c s1 s2 → visible_job c id s1 = visible_job c id s2.
Proof.
  intros Hadm Hv. apply option_eq. intros j. unfold visible_job, can_access_job, get. rewrite Hadm. simpl.
  rewrite !bind_Some. split; intros (j' & Hj & H); (case_bool_decide as Ho; [|done]); injection H as ->; exists j;
    (split; [by apply (view_jobs _ _ _ Hv)|by rewrite bool_decide_eq_true_2]).
Qed.

End Views.
End Service.

(** ** Properties *)
Module ServiceProps.
Import Ipc Jobs JobStore Server Service.
Import Ipc.Policy.

Section Props.
Context {V Q : Type} `{UT : UuidText, JJ : Json JobSummary, JP : JsonPretty JobSummary, JS : Json (gmap string Z),
  SP : JsonPretty (gmap string Z), JA : Json AuditStatus, AP : JsonPretty AuditStatus, JR : Json Report.ScanReport,
  JV : Json V, VV : JsonValue V, MV : JournalValue V, QO : QuarantineOps Q, ST : StdText}.
Context (show_date : Z → string) (err_text : Record.RemediationError → string).
Context (env : Environment) (ctx : Ctx) (me : string).

Abbreviation steps := (steps (V := V) (Q := Q) show_date err_text env ctx me).
Abbreviation exec := (exec (V := V) (Q := Q) show_date err_text env ctx me).
Abbreviation admissible := (admissible (Q := Q) ctx).
Abbreviation start := (start (Q := Q) env).

(** C12: nobody gains privileges through the service. In every reachable state,
    a job that runs with the service's rights was asked for by an
    administrator or is a configured schedule. A job that runs as a user is a
    scan which that user, no administrator, asked for; it quarantines
    nothing; and its child process, when the service runs as root, is started
    through [setpriv] with that user's identity, no capabilities and no new
    privileges, with the requested paths after the [--] separator, so that
    they cannot act as options. *)
Theorem unprivileged_jobs_confined now entries sv d q0 tr s i id sp
    (Ht : steps (start now entries sv d q0) tr s)
    (Hb : workers s !! i = Some (Busy id sp)) :
  match run_as sp with
  | RunService =>
      (∃ a p r, Requested a p r ∈ tr ∧ new_id a = id ∧ admin (caller p) = true) ∨
      (∃ a sch, Scheduled a sch ∈ tr ∧ new_id a = id ∧ sch ∈ SvcConfig.schedules (ctx_cfg ctx) ∧ sp = spec_of sch)
  | RunCaller u g =>
      (∃ a p r, Requested a p r ∈ tr ∧ new_id a = id ∧ admin (caller p) = false ∧ ids p = (u, g) ∧
        asks ctx p (op r) sp) ∧
      spec_kind sp = KScan ∧
      (∀ w res d' q', Jobs.execute (V := V) show_date err_text env w id sp (files (core s)) (quar (core s)) =
        Some (res, d', q') → q' = quar (core s)) ∧
      ∀ w cmd, child_command env w sp = Ok cmd →
        ∃ pre opts, Runner.args cmd = pre ++ opts ++ "--"%string :: spec_paths sp ∧
          (∀ ps cmd', child_command env w (with_paths ps sp) = Ok cmd' →
            Runner.args cmd' = pre ++ opts ++ "--"%string :: ps) ∧
          match scanner env with
          | Some _ =>
              setpriv env = Some (Runner.program cmd) ∧
              pre = [("--reuid=" +:+ show_N u); ("--regid=" +:+ show_N g); "--init-groups"; "--inh-caps=-all";
                     "--bounding-set=-all"; "--no-new-privs"; "--"; binary env]%string
          | None => u = euid w ∧ Runner.program cmd = binary env ∧ pre = []
          end
  end.
Proof.
  pose proof (granted_steps _ _ _ _ _ _ _ _ _ Ht (granted_start env ctx now entries sv d q0) id sp) as Hg.
  specialize (Hg (or_intror (ex_intro _ i Hb))). apply grant_origin in Hg.
  destruct (run_as sp) as [|u g] eqn:Hrun; [exact Hg|]. destruct Hg as (Hwho & Hk & Hq).
  split_and!; [done|done| |].
  - intros w res d' q'. by apply execute_no_quarantine.
  - intros w cmd Hc. by apply (caller_command env w sp cmd u g).
Qed.

(** C25: the job manager stays consistent. In every reachable state the queue
    holds exactly the jobs recorded as queued, each once, each with its
    specification, within the configured limit; a job is recorded as running
    exactly when one worker has it and it can be cancelled, and no two workers
    have the same job. *)
Theorem jobs_consistent now entries sv d q0 tr s (Ht : steps (start now entries sv d q0) tr s) :
  let m := mgr (core s) in
  NoDup (queue m) ∧ vlen (queue m) ≤ SvcConfig.max_queued_jobs (ctx_cfg ctx) ∧
  vlen (workers s) = SvcConfig.max_concurrent_jobs (cfg env) ∧
  ∀ id,
    (id ∈ queue m ↔ ∃ j, jobs m !! id = Some j ∧ state j = Queued) ∧
    (id ∈ queue m ↔ is_Some (specs m !! id)) ∧
    ((∃ j, jobs m !! id = Some j ∧ state j = Running) ↔ is_Some (cancels m !! id)) ∧
    ((∃ j, jobs m !! id = Some j ∧ state j = Running) ↔ ∃ i w, workers s !! i = Some w ∧ busy_with w id) ∧
    (∀ i j v w, workers s !! i = Some v → workers s !! j = Some w → busy_with v id → busy_with w id → i = j).
Proof.
  pose proof (inv_steps _ _ _ _ _ _ _ _ Ht (inv_start env ctx now entries sv d q0)) as [_ ? Hq Hs Hr Hc Hu _ ? ?].
  intros m. split_and!; [done..|]. intros id.
  assert (Hst : ∀ st, (∃ j, jobs m !! id = Some j ∧ state j = st) ↔ job_state m id = Some st).
  { intros st. unfold job_state. rewrite fmap_Some. naive_solver. }
  rewrite !Hst. split_and!; [apply Hq|symmetry; apply Hs|symmetry; apply Hr|etrans; [symmetry; apply Hr|apply Hc]|].
  intros i j v w. apply Hu.
Qed.

(** A job's record only ever moves forward. In one step of the service a
    recorded job stays as it is, starts, is cancelled while queued, or ends
    with a result; nothing else about it changes, and a finished job never
    changes again. Only when some job has just ended can a record disappear,
    and then its job is finished. *)
Theorem job_lifecycle now entries sv d q0 tr s e s' id j
    (Ht : steps (start now entries sv d q0) tr s) (Ha : admissible e s) (He : exec e s = Some s')
    (Hj : jobs (mgr (core s)) !! id = Some j) :
  (∃ j', jobs (mgr (core s')) !! id = Some j' ∧ moves j j' ∧ (finished (state j) = true → j' = j)) ∨
  (jobs (mgr (core s')) !! id = None ∧ (∃ i now sv rm, e = Finish i now sv rm) ∧
    ∃ j', moves j j' ∧ finished (state j') = true).
Proof.
  pose proof (inv_steps _ _ _ _ _ _ _ _ Ht (inv_start env ctx now entries sv d q0)) as Hi.
  destruct (job_moves _ _ _ _ _ _ _ _ _ _ Hi Ha He Hj) as [(j' & Hj' & Hm)|?]; [left|by right].
  exists j'. split_and!; [done..|]. intros Hf.
  destruct Hm as [|? Hs|? Hs|? ? Hs]; [done|rewrite Hs in Hf; discriminate..].
Qed.

(** C16: queued jobs are served in order, and no worker gets stuck. A job at
    place [n] of the queue has begun by the time jobs were taken [n + 1]
    times, whatever else happens, unless a request of its owner or of an
    administrator has put it in the state cancelled; and a worker
    that is idle can take a job, one whose child has exited or is past its
    time or cancelled gets its result, and one with a result records it. *)
Theorem queued_jobs_served now entries sv d q0 tr s (Ht : steps (start now entries sv d q0) tr s) :
  (∀ n id es s', queue (mgr (core s)) !! n = Some id → steps s es s' → (n < takes es)%nat →
    ∃ es1 e es2 s1, es = es1 ++ e :: es2 ∧ steps s es1 s1 ∧
      (begins (V := V) show_date err_text env ctx me id e s1 ∨
       cancelled_by (V := V) show_date err_text env ctx me id e s1)) ∧
  ∀ i, match workers s !! i with
       | None => True
       | Some Idle => shutdown (mgr (core s)) = false → queue (mgr (core s)) ≠ [] →
           ∀ now sv, is_Some (exec (Take i now sv) s)
       | Some (Busy id sp) =>
           ∀ w, (∀ cmd, RunnerProps.ends (job_timeout env) (process w cmd)) → is_Some (exec (Ran i w) s)
       | Some (Finishing id r) => ∀ now sv rm, is_Some (exec (Finish i now sv rm) s)
       end.
Proof.
  pose proof (inv_steps _ _ _ _ _ _ _ _ Ht (inv_start env ctx now entries sv d q0)) as Hi.
  split; [intros n id es s' Hn Hs Hl; by eapply served|]. intros i.
  destruct (workers s !! i) as [[|id sp|id r]|] eqn:Hw; [..|done].
  - intros Hsd Hne t o. simpl. rewrite Hw, Hsd. unfold take_job.
    destruct (queue (mgr (core s))) as [|id q] eqn:Hq; [done|]. simpl.
    destruct (proj2 (inv_specs _ _ _ _ Hi id)) as [sp Hsp]; [rewrite Hq; by left|]. rewrite Hsp. simpl.
    destruct (jobs _ !! id); simpl; by eexists.
  - intros w Hw'. simpl. rewrite Hw. unfold Jobs.execute.
    destruct (child_command env w sp) as [cmd|]; [|simpl; by eexists].
    destruct (RunnerProps.run_ends _ MAX_OUTPUT _ (Hw' cmd)) as [r ->]. cbn [mbind option_bind].
    destruct r as [o|]; [|by eexists].
    destruct (digest_outcome _ _ _ _ _) as [[res [bs|]] q']; [|by eexists].
    destruct (save_report _ _ _ _) as [[] d']; by eexists.
  - intros t o rm. simpl. rewrite Hw. destruct (finish_job _ _ _ _ _ _ _ _); by eexists.
Qed.

(** C18: a user's requests reach nothing of others. Whatever a peer that is no
    administrator sends, the quarantine store, the reports, the schedules'
    state and the audit results are as before, and every job of another
    owner, queued, running or finished, is as before. *)
Theorem users_isolated a p r (c : service Q) (Hadm : admin (caller p) = false)
    (Hnew : jobs (mgr c) !! new_id a = None) :
  let c' := (dispatch (V := V) ctx me a p r c).2 in
  quar c' = quar c ∧ last_check c' = last_check c ∧ report_files (files c') = report_files (files c) ∧
  schedules_json (files c') = schedules_json (files c) ∧ audit_json (files c') = audit_json (files c) ∧
  ∀ id j, jobs (mgr c) !! id = Some j → owner j ≠ principal (caller p) → same_entry (mgr c) (mgr c') id.
Proof. by apply dispatch_isolated. Qed.

(** A user learns nothing of others' jobs. Except for the counts of
    [Status] and for [Scan], which a full queue refuses, the reply to any
    request of a peer that is no administrator is determined by the user's own
    jobs and reports and the schedules: it is the same whatever jobs others
    have, and asking for another's job is answered like asking for none. *)
Theorem replies_private a p r (s1 s2 : service Q) (Hadm : admin (caller p) = false)
    (Hv : same_view (caller p) s1 s2)
    (Hop : op r ≠ Status ∧ ∀ ps h na qr, op r ≠ Scan ps h na qr) :
  (dispatch (V := V) ctx me a p r s1).1 = (dispatch (V := V) ctx me a p r s2).1.
Proof.
  destruct Hop as [Hns Hnsc]. unfold dispatch. destruct (validate r); [|done].
  unfold authorize. rewrite Hadm, andb_true_r. destruct (admin_only (op r)) eqn:Hao; [done|].
  assert (He : (execute (V := V) ctx me a p (op r) s1).1 = (execute (V := V) ctx me a p (op r) s2).1).
  { unfold execute. destruct (op r) as [| |paths h na q|h| |id|id|id| |n| |id al|id|]; try done.
    - by destruct (Hnsc paths h na q).
    - unfold list_jobs. rewrite (filter_values _ (jobs (mgr s1)) (jobs (mgr s2))); [done|]. intros id j.
      unfold can_access_job. rewrite Hadm. simpl. rewrite bool_decide_eq_true. intros Ho.
      by apply (view_jobs _ _ _ Hv).
    - simpl. by rewrite (view_visible _ _ _ id Hadm Hv).
    - simpl. rewrite (view_visible _ _ _ id Hadm Hv). destruct (visible_job (caller p) id s2) as [j|] eqn:Hvis; [|done].
      rewrite <-(view_visible _ _ _ id Hadm Hv) in Hvis. apply visible_own in Hvis as [Hj Ho]; [|done].
      unfold report. by rewrite (view_reports _ _ _ Hv _ _ Hj Ho).
    - rewrite (view_visible _ _ _ id Hadm Hv). destruct (visible_job (caller p) id s2) as [j|] eqn:Hvis; [|done].
      rewrite <-(view_visible _ _ _ id Hadm Hv) in Hvis. apply visible_own in Hvis as [Hj Ho]; [|done].
      destruct (view_active _ _ _ Hv _ _ Hj Ho) as [Hca Hqa]. pose proof (proj1 (view_jobs _ _ _ Hv _ _ Ho) Hj) as Hj2.
      unfold cancel_job. destruct (cancels (mgr s1) !! id) as [x1|] eqn:H1, (cancels (mgr s2) !! id) as [x2|] eqn:H2.
      + done.
      + destruct (proj1 Hca) as [? ?]; [by eexists|done].
      + destruct (proj2 Hca) as [? ?]; [by eexists|done].
      + rewrite (bool_decide_ext _ _ Hqa), Hj, Hj2. by destruct (bool_decide _).
    - unfold schedule_state. by rewrite (view_schedules _ _ _ Hv). }
  destruct (execute _ _ _ _ _ s1) as [[] c1], (execute _ _ _ _ _ s2) as [[] c2]; simpl in *; congruence.
Qed.
End Props.

(** ** Instances *)

(** A service run by root with one worker; a codec that stores nothing and a
    quarantine store that counts what it is given. *)
#[local] Instance toy_uuid : UuidText := show_N.
#[local] Instance toy_codec A : Json A := {| to_vec _ := Ok []; from_slice _ := Err "no codec"%string |}.
#[local] Instance toy_pretty A : JsonPretty A := λ _, Ok [].
#[local] Instance toy_value : JsonValue unit := λ _, None.
#[local] Instance toy_journal : JournalValue unit := λ _, MOther.
#[local] Instance toy_text_instance : StdText := toy_text.
#[local] Instance toy_store : QuarantineOps nat := {|
  q_exists _ := true; q_allowlist _ := Ok []; q_open _ q := (Ok tt, q);
  q_quarantine q r := (Err (Record.InvalidPath ""), S q); q_list q := (Ok [], q);
  q_get _ q := (Err "none"%string, q); q_restore _ q := (Err "none"%string, q);
  q_allow _ _ _ _ q := (Ok tt, q); q_delete _ q := (Ok tt, S q); q_audit_chain _ := Ok [] |}.

Definition root_env : Environment :=
  mkEnvironment SvcConfig.default_config "/usr/bin/abyssal-warden" (Some "/usr/bin/setpriv"%string) (Some (990, 990)).
Definition root_ctx : Ctx := mkCtx SvcConfig.default_config 0 true "1".
Definition user_peer : Peer := mkPeer (mkCaller "1000" false) (1000, 1000).
Definition admin_peer : Peer := mkPeer (mkCaller "0" true) (0, 0).
Definition answer (t : Z) (id : Uuid) : answers := mkAnswers t id (Ok tt) (Ok tt) None (Err "no journal"%string).
Definition scan_of (p : string) : Request := new 1 (Scan [p] true false false).
Abbreviation toy_start := (start (Q := nat) root_env 0 None (λ _, Ok tt) (mkFiles ∅ ∅ None None) 0%nat).
Abbreviation toy_run := (run (V := unit) (Q := nat) (λ _, ""%string) (λ _, ""%string) root_env root_ctx "0").
Abbreviation toy_steps := (Service.steps (V := unit) (Q := nat) (λ _, ""%string) (λ _, ""%string) root_env root_ctx "0").

(** A user's scan begins while an administrator's waits. *)
Definition opening : list event :=
  [Requested (answer 1 7) user_peer (scan_of "/home/u/--quarantine");
   Requested (answer 2 8) admin_peer (scan_of "/srv"); Take 0 3 (Ok tt)].
Definition opened : sys nat := Eval vm_compute in default toy_start (toy_run opening toy_start).
Definition user_spec : JobSpec := mkSpec KScan ["/home/u/--quarantine"%string] true false false (RunCaller 1000 1000).

Lemma opened_steps : toy_steps toy_start opening opened.
Proof. apply run_steps. by vm_compute. Qed.

Definition fine_world (ts : list Runner.turn) : world :=
  mkWorld 0 0 (λ _ _, Ok "/var/lib/child"%string) (λ _, None)
    (λ _, Runner.mkChild (Ok true) 0 ts (Ok None) [] []) (Ok tt).
Definition user_command : Runner.Command := Eval vm_compute in
  match child_command root_env (fine_world []) user_spec with
  | Ok c => c | Err _ => Runner.mkCommand "" [] [] "" 0 end.

Lemma unprivileged_jobs_confined_witness :
  workers opened !! 0%nat = Some (Busy 7 user_spec) ∧
  child_command root_env (fine_world []) user_spec = Ok user_command ∧
  ∃ pre opts, Runner.args user_command = pre ++ opts ++ ["--"; "/home/u/--quarantine"]%string ∧
    pre = ["--reuid=1000"; "--regid=1000"; "--init-groups"; "--inh-caps=-all"; "--bounding-set=-all";
           "--no-new-privs"; "--"; "/usr/bin/abyssal-warden"]%string.
Proof.
  assert (Hb : workers opened !! 0%nat = Some (Busy 7 user_spec)) by by vm_compute.
  assert (Hc : child_command root_env (fine_world []) user_spec = Ok user_command) by by vm_compute.
  split_and!; [exact Hb|exact Hc|].
  pose proof (unprivileged_jobs_confined _ _ root_env root_ctx "0" _ _ _ _ _ _ _ _ _ _ opened_steps Hb) as H.
  destruct H as (_ & _ & _ & Hcmd). destruct (Hcmd _ _ Hc) as (pre & opts & Ha & _ & _ & Hp).
  exists pre, opts. split; [exact Ha|]. rewrite Hp. by vm_compute.
Defined.

Lemma jobs_consistent_witness : vlen (queue (mgr (core opened))) ≤ 32 ∧ 8 ∈ queue (mgr (core opened)).
Proof.
  pose proof (jobs_consistent _ _ root_env root_ctx "0" _ _ _ _ _ _ _ opened_steps) as (_ & Hl & _ & Hid).
  split; [exact Hl|]. apply (Hid 8). eexists. split; by vm_compute.
Defined.

(** The user's scan is killed at its time limit. *)
Definition late : world := fine_world [Runner.mkTurn Runner.StillRunning 0 false;
  Runner.mkTurn Runner.StillRunning (dur_secs 20000) false].
Definition over : sys nat := Eval vm_compute in default opened (toy_run [Ran 0 late] opened).
Definition closed_state : sys nat := Eval vm_compute in default over (toy_run [Finish 0 9 (Ok tt) (λ _, true)] over).
Definition job7 : JobSummary := Eval vm_compute in
  default (summary_of 7 "" None user_spec 0) (jobs (mgr (core over)) !! 7).

Lemma over_steps : toy_steps toy_start (opening ++ [Ran 0 late]) over.
Proof. apply run_steps. by vm_compute. Qed.

Lemma job_lifecycle_witness :
  state job7 = Running ∧ ∃ j', jobs (mgr (core closed_state)) !! 7 = Some j' ∧ moves job7 j' ∧ state j' = TimedOut.
Proof.
  assert (Hj : jobs (mgr (core over)) !! 7 = Some job7) by by vm_compute.
  assert (He : Service.exec (V := unit) (Q := nat) (λ _, ""%string) (λ _, ""%string) root_env root_ctx "0"
    (Finish 0 9 (Ok tt) (λ _, true)) over = Some closed_state) by by vm_compute.
  split; [by vm_compute|].
  destruct (job_lifecycle _ _ root_env root_ctx "0" _ _ _ _ _ _ _ (Finish 0 9 (Ok tt) (λ _, true)) closed_state 7 job7
      over_steps I He Hj)
    as [(j' & Hj' & Hm & _)|[Hn _]].
  - exists j'. split_and!; [exact Hj'|exact Hm|].
    assert (Hs : state <$> jobs (mgr (core closed_state)) !! 7 = Some TimedOut) by by vm_compute.
    rewrite Hj' in Hs. by injection Hs.
  - assert (Hs : is_Some (jobs (mgr (core closed_state)) !! 7)) by (vm_compute; by eexists).
    rewrite Hn in Hs. by destruct Hs.
Defined.

Lemma queued_jobs_served_witness :
  queue (mgr (core opened)) !! 0%nat = Some 8 ∧
  is_Some (Service.exec (V := unit) (Q := nat) (λ _, ""%string) (λ _, ""%string) root_env root_ctx "0"
    (Ran 0 late) opened).
Proof.
  split; [by vm_compute|].
  pose proof (queued_jobs_served _ _ root_env root_ctx "0" _ _ _ _ _ _ _ opened_steps) as [_ Hw].
  specialize (Hw 0%nat). assert (workers opened !! 0%nat = Some (Busy 7 user_spec)) as Hb by by vm_compute.
  rewrite Hb in Hw. apply Hw. intros cmd. simpl. right. left. right. right. by vm_compute.
Defined.

Lemma users_isolated_witness :
  same_entry (mgr (core opened))
    (mgr (dispatch (V := unit) root_ctx "0" (answer 5 9) user_peer (new 2 (Cancel 8)) (core opened)).2) 8.
Proof.
  assert (Hn : jobs (mgr (core opened)) !! 9 = None) by by vm_compute.
  pose proof (users_isolated root_ctx "0" (answer 5 9) user_peer (new 2 (Cancel 8)) (core opened) eq_refl Hn)
    as (_ & _ & _ & _ & _ & H).
  eapply (H 8 (default job7 (jobs (mgr (core opened)) !! 8))); by vm_compute.
Defined.

(** Without the administrator's job the user's view is the same. *)
Definition alone : sys nat := Eval vm_compute in
  default toy_start (toy_run [Requested (answer 1 7) user_peer (scan_of "/home/u/--quarantine"); Take 0 3 (Ok tt)] toy_start).

Lemma alone_view : same_view (caller user_peer) (core opened) (core alone).
Proof.
  assert (Hj1 : map_to_list (jobs (mgr (core opened))) = [(8, summary_of 8 "0" None
      (mkSpec KScan ["/srv"%string] true false false RunService) 2); (7, default job7 (jobs (mgr (core alone)) !! 7))])
    by by vm_compute.
  assert (Hj2 : map_to_list (jobs (mgr (core alone))) = [(7, default job7 (jobs (mgr (core alone)) !! 7))])
    by by vm_compute.
  assert (H1 : ∀ id j, jobs (mgr (core opened)) !! id = Some j →
    (id = 8 ∧ owner j = "0"%string) ∨ (id = 7 ∧ jobs (mgr (core alone)) !! 7 = Some j)).
  { intros id j Hj. apply elem_of_map_to_list in Hj. rewrite Hj1 in Hj.
    apply elem_of_cons in Hj as [[= -> ->]|Hj]; [by left|]. apply list_elem_of_singleton in Hj as [= -> ->].
    right. split; [done|]. by vm_compute. }
  assert (H2 : ∀ id j, jobs (mgr (core alone)) !! id = Some j → id = 7 ∧ jobs (mgr (core opened)) !! 7 = Some j).
  { intros id j Hj. apply elem_of_map_to_list in Hj. rewrite Hj2 in Hj.
    apply list_elem_of_singleton in Hj as [= -> ->]. split; [done|]. by vm_compute. }
  constructor.
  - intros id j Ho. split.
    + intros [[-> Ho']|[-> ?]]%H1; [|done]. rewrite Ho in Ho'. discriminate.
    + by intros [-> ?]%H2.
  - intros id j [[-> Ho']|[-> ?]]%H1 Ho; [rewrite Ho in Ho'; discriminate|]. split.
    + split; intros _; vm_compute; by eexists.
    + assert (Hn : ∀ s : sys nat, bool_decide (7 ∈ queue (mgr (core s))) = false → ¬ 7 ∈ queue (mgr (core s)))
        by (intros s; apply bool_decide_eq_false).
      split; intros Hq; exfalso; revert Hq; apply Hn; by vm_compute.
  - intros id j [[-> Ho']|[-> ?]]%H1 Ho; [rewrite Ho in Ho'; discriminate|]. by vm_compute.
  - by vm_compute.
Qed.

Lemma replies_private_witness :
  (dispatch (V := unit) root_ctx "0" (answer 5 9) user_peer (new 2 (Job 8)) (core opened)).1 =
  response_error 2 not_found.
Proof.
  etrans; [apply (replies_private root_ctx "0" (answer 5 9) user_peer (new 2 (Job 8)) (core opened) (core alone)
    eq_refl alone_view); by split|]. by vm_compute.
Defined.

(** With room for one finished job, the one that has just ended is removed,
    with its report, and the older one is kept: [prune] goes by identifiers. *)
Definition small_config : ServiceConfig := SvcConfig.mkServiceConfig
  DEFAULT_SOCKET None "/var/lib/s" "/var/lib/q" [] None "abyssal-warden" None [] [] None 1 32 240 1 24 [].
Definition small_env : Environment :=
  mkEnvironment small_config "/usr/bin/abyssal-warden" (Some "/usr/bin/setpriv"%string) (Some (990, 990)).
Definition one_job (t : Z) (id : Uuid) : list event :=
  [Requested (answer t id) admin_peer (scan_of "/srv"); Take 0 (t + 1) (Ok tt);
   Ran 0 (fine_world [Runner.mkTurn Runner.StillRunning (dur_secs 20000) false]);
   Finish 0 (t + 2) (Ok tt) (λ _, true)].
Definition after_two : sys nat := Eval vm_compute in
  default toy_start (run (V := unit) (Q := nat) (λ _, ""%string) (λ _, ""%string) small_env root_ctx "0"
    (one_job 10 9 ++ one_job 20 7) (start small_env 0 None (λ _, Ok tt) (mkFiles ∅ ∅ None None) 0%nat)).

Theorem prune_drops_newest :
  Service.steps (V := unit) (Q := nat) (λ _, ""%string) (λ _, ""%string) small_env root_ctx "0"
    (start small_env 0 None (λ _, Ok tt) (mkFiles ∅ ∅ None None) 0%nat) (one_job 10 9 ++ one_job 20 7) after_two ∧
  jobs (mgr (core after_two)) !! 7 = None ∧
  ∃ j, jobs (mgr (core after_two)) !! 9 = Some j ∧ (finished_at j = Some 12)%Z.
Proof.
  split; [apply run_steps; by vm_compute|]. split; [by vm_compute|]. eexists. split; by vm_compute.
Qed.

(** A thread that fails to start keeps its place among the connections, so
    after 64 failures every client is turned away for good. *)
Theorem failed_spawns_lock_out n clients :
  foldl (λ a e, (connect e a).1) 0 (repeat (Connect false) (64 + n)) = 64 ∧
  Forall (λ b, connect (Connect b) 64 = (64, false)) clients.
Proof.
  split; [|by apply Forall_true].
  rewrite repeat_app, foldl_app.
  replace (foldl (λ a e, (connect e a).1) 0 (repeat (Connect false) 64)) with 64 by by vm_compute.
  induction n as [|n IH]; [done|]. simpl. exact IH.
Qed.
End ServiceProps.
