(* ===== verification/Yara.v ===== *)
(** * YARA rules

    yara/src/lib.rs: rule sources are compiled and their metadata validated,
    and a matching rule becomes a finding. The YARA-X engine is the class
    [YaraX]; the identifiers of findings and the clock are streams a worker
    draws from. *)

From S2P Require Import Prelude Utf8 Paths Core External Remediation Trust Fsio Archive Scanner Signatures.

(** ** yara-x *)
Module YaraLib.
Inductive MetaValue := MString (s : string) | MInteger (v : Z) | MOther.
(** A rule, and a rule that matched with the ranges (start, length) of each of
    its patterns' matches. *)
Record Rule := mkRule { namespace : string; identifier : string; metadata : list (string * MetaValue) }.
Record RuleMatch := mkMatch { matched : Rule; patterns : list (string * list (N * N)) }.
Inductive ScanError := Timeout | OtherError (text : string).

Class YaraX := {
  Compiler : Type;
  (** includes off, slow patterns refused, strict regular expressions *)
  new_compiler : Compiler;
  new_namespace : string → Compiler → Compiler;
  add_source : string → Compiler → result string Compiler;
  build : Compiler → list Rule;
  (** at most so many matches per pattern, for so many seconds *)
  scan : list Rule → N → N → bytes → result ScanError (list RuleMatch) }.

(** What matches are rules that were compiled, each once. *)
Class YaraXLaws `{YaraX} := {
  scan_rules rules n secs bs ms : scan rules n secs bs = Ok ms → Forall (λ m, matched m ∈ rules) ms;
  build_unique c : NoDup ((λ r, (namespace r, identifier r)) <$> build c) }.
End YaraLib.

Module Yara.
Import YaraLib.

Definition DETECTOR_ID : string := "yara-x".
Definition YARA_X_VERSION : string := "1.20".
Definition MAX_SOURCE_BYTES : N := 64 * 1024 * 1024.
Definition MAX_RULES : N := 200000.
Definition MAX_MATCHES_PER_PATTERN : N := 1000.
Definition EVIDENCE_MATCHES : nat := 8.
Definition MAX_META_TEXT : N := 4096.
Definition MAX_NAME_LEN : N := 256.

Record RuleSource := mkSource { src_namespace : string; origin : string; text : string }.

Inductive YaraLoadError :=
  | Empty
  | TooLarge
  | TooManyRules
  | InvalidNamespace (ns : string)
  | Compile (origin message : string)
  | InvalidMetadata (rule key reason : string).

Definition error_text `{StdText} (e : YaraLoadError) : string :=
  match e with
  | Empty => "no rule sources given"
  | TooLarge => fmt "rule sources exceed the {MAX_SOURCE_BYTES}-byte limit" [show_N MAX_SOURCE_BYTES]
  | TooManyRules => fmt "more than {MAX_RULES} rules" [show_N MAX_RULES]
  | InvalidNamespace ns => fmt "invalid namespace {0:?}: use 1-64 characters of [A-Za-z0-9_]" [debug_str ns]
  | Compile origin message => fmt "{origin}: {message}" [origin; message]
  | InvalidMetadata rule key reason => fmt "rule {rule}: metadata `{key}` {reason}" [rule; key; reason]
  end.

Record RuleMeta := mkMeta {
  kind : Finding.FindingKind;
  confidence : Finding.Confidence;
  severity : Finding.Severity;
  category : Finding.ThreatCategory;
  name : string;
  rule_version : option N;
  description : option string;
  attribution : list (string * string) }.

(** [m.kind = ..] and the other assignments. *)
Definition set_kind k (m : RuleMeta) : RuleMeta :=
  mkMeta k (confidence m) (severity m) (category m) (name m) (rule_version m) (description m) (attribution m).
Definition set_confidence c (m : RuleMeta) : RuleMeta :=
  mkMeta (kind m) c (severity m) (category m) (name m) (rule_version m) (description m) (attribution m).
Definition set_severity s (m : RuleMeta) : RuleMeta :=
  mkMeta (kind m) (confidence m) s (category m) (name m) (rule_version m) (description m) (attribution m).
Definition set_category c (m : RuleMeta) : RuleMeta :=
  mkMeta (kind m) (confidence m) (severity m) c (name m) (rule_version m) (description m) (attribution m).
Definition set_name n (m : RuleMeta) : RuleMeta :=
  mkMeta (kind m) (confidence m) (severity m) (category m) n (rule_version m) (description m) (attribution m).
Definition set_version v (m : RuleMeta) : RuleMeta :=
  mkMeta (kind m) (confidence m) (severity m) (category m) (name m) (Some v) (description m) (attribution m).
Definition set_description d (m : RuleMeta) : RuleMeta :=
  mkMeta (kind m) (confidence m) (severity m) (category m) (name m) (rule_version m) (Some d) (attribution m).
Definition push_attribution a (m : RuleMeta) : RuleMeta :=
  mkMeta (kind m) (confidence m) (severity m) (category m) (name m) (rule_version m) (description m)
    (attribution m ++ [a]).

Definition namespace_byte (b : N) : bool := is_ascii_alphanumeric b || (b =? 95).
Definition validate_namespace (ns : string) : result YaraLoadError unit :=
  if negb (bool_decide (ns = ""%string)) && (len ns <=? 64) && forallb namespace_byte (as_bytes ns) then Ok tt
  else Err (InvalidNamespace ns).

(** The value for a text, among those that are allowed. *)
Fixpoint choose {A} (l : list (string * A)) (t : string) : option A :=
  match l with
  | [] => None
  | (k, a) :: l => if bool_decide (t = k) then Some a else choose l t
  end.
Definition KINDS : list (string * Finding.FindingKind) :=
  [("known_indicator", Finding.KnownIndicator); ("suspicious", Finding.Suspicious);
   ("heuristic", Finding.Heuristic); ("informational", Finding.Informational)]%string.
Definition CONFIDENCES : list (string * Finding.Confidence) :=
  [("low", Finding.CLow); ("medium", Finding.CMedium); ("high", Finding.CHigh)]%string.
Definition SEVERITIES : list (string * Finding.Severity) :=
  [("info", Finding.SInfo); ("low", Finding.SLow); ("medium", Finding.SMedium); ("high", Finding.SHigh);
   ("critical", Finding.SCritical)]%string.
Definition CATEGORIES : list (string * Finding.ThreatCategory) :=
  [("malware", Finding.Malware); ("potentially_unwanted", Finding.PotentiallyUnwanted);
   ("test_indicator", Finding.TestIndicator); ("unknown", Finding.Unknown)]%string.

Definition label_of (key : string) : option string :=
  choose [("author", "author"); ("reference", "reference"); ("license", "licence")]%string key.

Definition default_meta (r : Rule) : RuleMeta :=
  mkMeta Finding.Suspicious Finding.CMedium Finding.SMedium Finding.Unknown (identifier r) None None [].
Definition rule_id (r : Rule) : string := fmt "{}:{}" [namespace r; identifier r].

(** One round of [parse_meta]'s loop. *)
Definition meta_one (rule_name key : string) (value : MetaValue) (m : RuleMeta) : result YaraLoadError RuleMeta :=
  let err why := InvalidMetadata rule_name key why in
  let text := match value with MString s => Some s | _ => None end in
  let need_text := ok_or text (err "must be a string") in
  let named k := bool_decide (key = k%string) in
  if named "aw_kind" then
    t ← need_text;
    k ← ok_or (choose KINDS t) (err "must be known_indicator, suspicious, heuristic or informational");
    Ok (set_kind k m)
  else if named "aw_confidence" then
    t ← need_text;
    if bool_decide (t = "confirmed"%string) then Err (err "`confirmed` is reserved for exact hash matches")
    else c ← ok_or (choose CONFIDENCES t) (err "must be low, medium or high"); Ok (set_confidence c m)
  else if named "aw_severity" then
    t ← need_text;
    s ← ok_or (choose SEVERITIES t) (err "must be info, low, medium, high or critical");
    Ok (set_severity s m)
  else if named "aw_category" then
    t ← need_text;
    c ← ok_or (choose CATEGORIES t) (err "must be malware, potentially_unwanted, test_indicator or unknown");
    Ok (set_category c m)
  else if named "aw_name" then
    t ← need_text;
    if Signatures.is_blank t || (MAX_NAME_LEN <? len t) || Text.has_unsafe_chars t false
    then Err (err "must be 1-256 bytes without control characters")
    else Ok (set_name t m)
  else if named "aw_rule_version" then
    match value with
    | MInteger v => if ((1 <=? v) && (v <=? 4294967295))%Z then Ok (set_version (Z.to_N v) m)
                    else Err (err "must be an integer >= 1")
    | _ => Err (err "must be an integer >= 1")
    end
  else if named "description" then
    match text with
    | Some t => if (len t <=? MAX_META_TEXT) && negb (Text.has_unsafe_chars t true) then Ok (set_description t m) else Ok m
    | None => Ok m
    end
  else match label_of key with
       | Some label =>
           match text with
           | Some t =>
               if (len t <=? MAX_META_TEXT) && negb (Text.has_unsafe_chars t false)
                  && negb (existsb (λ a, bool_decide (a.1 = label)) (attribution m))
               then Ok (push_attribution (label, t) m) else Ok m
           | None => Ok m
           end
       | None => if str_starts_with key "aw_" then Err (err "is not a recognised aw_* key") else Ok m
       end.

Fixpoint meta_loop (rule_name : string) (l : list (string * MetaValue)) (m : RuleMeta) : result YaraLoadError RuleMeta :=
  match l with
  | [] => Ok m
  | (k, v) :: l => m ← meta_one rule_name k v m; meta_loop rule_name l m
  end.
Definition parse_meta (r : Rule) : result YaraLoadError RuleMeta :=
  meta_loop (rule_id r) (metadata r) (default_meta r).

(** Quarantine only for high-confidence known-indicator rules about malware. *)
Definition recommended_action (m : RuleMeta) : Finding.RecommendedAction :=
  match kind m, category m with
  | _, Finding.TestIndicator | Finding.Informational, _ => Finding.NoAction
  | Finding.KnownIndicator, Finding.Malware =>
      match confidence m with Finding.CHigh | Finding.Confirmed => Finding.Quarantine | _ => Finding.Review end
  | _, _ => Finding.Review
  end.

Record DatabaseInfo := mkDatabase { db_version : string; entries : N; db_signer : option string }.

Section Detector.
Context `{YX : YaraX, SH : Sha256, ST : StdText}.

Record YaraDetector := mkDetector {
  rules : list Rule;
  meta : gmap (string * string) RuleMeta;
  info : DatabaseInfo }.

Fixpoint add_sources (sources : list RuleSource) (c : Compiler) : result YaraLoadError Compiler :=
  match sources with
  | [] => Ok c
  | s :: sources =>
      _ ← validate_namespace (src_namespace s);
      c ← map_err (Compile (origin s)) (add_source (text s) (new_namespace (src_namespace s) c));
      add_sources sources c
  end.
Definition digest_input (sources : list RuleSource) : bytes :=
  sources ≫= λ s, as_bytes (src_namespace s) ++ [0] ++ as_bytes (text s) ++ [0].

Definition rule_key (r : Rule) : string * string := (namespace r, identifier r).
Fixpoint collect_meta (rs : list Rule) (acc : gmap (string * string) RuleMeta)
    : result YaraLoadError (gmap (string * string) RuleMeta) :=
  match rs with
  | [] => Ok acc
  | r :: rs => m ← parse_meta r; collect_meta rs (<[rule_key r := m]> acc)
  end.

Definition compile (sources : list RuleSource) (signer : option string) : result YaraLoadError YaraDetector :=
  _ ← reject_if (bool_decide (sources = [])) Empty;
  _ ← reject_if (MAX_SOURCE_BYTES <? sumN (λ s, len (text s)) sources) TooLarge;
  c ← add_sources sources new_compiler;
  let rules := build c in
  _ ← reject_if (MAX_RULES <? vlen rules) TooManyRules;
  meta ← collect_meta rules ∅;
  let digest := Digest.to_hex (sha256 (digest_input sources)) in
  Ok (mkDetector rules meta
        (mkDatabase (fmt "sha256:{}" [of_bytes (take 16 (as_bytes digest))]) (N.of_nat (size meta)) signer)).

Definition rule_count (d : YaraDetector) : N := N.of_nat (size (meta d)).

(** [{:#x}] *)
Definition hex_text (n : N) : string := ("0x" +:+ of_bytes (Text.hex_go 16 n []))%string.

(** The first matches, listed: [n] are listed already. *)
Fixpoint list_matches (n : nat) (l : list (string * (N * N))) (acc : string) : string :=
  match l with
  | [] => acc
  | (p, (start, length)) :: l =>
      if (n =? EVIDENCE_MATCHES)%nat then acc
      else list_matches (S n) l
             (acc +:+ fmt "{} {} at offset {:#x} ({} bytes)"
                [if (n =? 0)%nat then ":"%string else ","%string; p; hex_text start; show_N length])%string
  end.
Definition all_matches (m : RuleMatch) : list (string * (N * N)) :=
  patterns m ≫= λ p, (λ r, (p.1, r)) <$> p.2.
Definition summary_of (rid : string) (m : RuleMatch) : string :=
  let start := fmt "YARA rule {rule_id} matched" [rid] in
  match all_matches m with
  | [] => (start +:+ " (condition only; no pattern matches)")%string
  | l => list_matches 0 l start
  end.

Definition EXPLANATION : string :=
  "The file's content satisfies YARA rule {rule_id}. A rule match shows the file has the characteristics the rule describes; how reliably that indicates a threat depends on the rule.".

Definition finding (d : YaraDetector) (o : Scanner.Observation) (m : RuleMatch) (rid : string) (rm : RuleMeta)
    (fid : string) (now : Z) : Finding :=
  let explanation := (fmt EXPLANATION [rid]
    +:+ from_option (λ t, fmt " Rule description: {d}" [t]) "" (description rm))%string in
  let attributed := match attribution rm with
                    | [] => []
                    | l => [Finding.Build_Evidence Finding.YaraRuleMatch
                              (fmt "Rule {text}" [String.concat "; " ((λ a, fmt "{k}: {v}" [a.1; a.2]) <$> l)])]
                    end in
  Finding.mk fid (kind rm) (name rm) (severity rm) (confidence rm) (category rm) (Scanner.target o)
    (Finding.Build_DetectionSource DETECTOR_ID YARA_X_VERSION (Some rid) (rule_version rm)
       (Some "yara-rules"%string) (Some (db_version (info d))))
    (Finding.Build_Evidence Finding.YaraRuleMatch (summary_of rid m) :: attributed)
    explanation (recommended_action rm) None Finding.NotAttempted None now.

(** The findings of the matching rules; [drawn] identifiers were drawn. *)
Fixpoint findings_of (d : YaraDetector) (fresh : nat → string) (clock : nat → Z) (o : Scanner.Observation)
    (ms : list RuleMatch) (drawn : nat) : list Finding * nat :=
  match ms with
  | [] => ([], drawn)
  | m :: ms =>
      match meta d !! rule_key (matched m) with
      | None => findings_of d fresh clock o ms drawn
      | Some rm =>
          let f := finding d o m (rule_id (matched m)) rm (fresh drawn) (clock drawn) in
          let '(fs, drawn) := findings_of d fresh clock o ms (S drawn) in
          (f :: fs, drawn)
      end
  end.

(** [file.remaining()] and whole seconds of it. *)
Definition remaining (deadline now : Z) : Z := Z.max 0 (deadline - now).
Definition timeout_secs (left : Z) : N := N.max (Z.to_N (left / 1000000000)) 1.

Definition inspect_file (d : YaraDetector) (fresh : nat → string) (clock : nat → Z) (now : Z) (drawn : nat)
    (o : Scanner.Observation) : Scanner.inspection * nat :=
  match Scanner.obs_content o with
  | None => (Scanner.DetectorError "file content was not provided", drawn)
  | Some data =>
      let left := remaining (Scanner.obs_deadline o) now in
      if (left =? 0)%Z then (Scanner.DetectorError "per-file time limit reached before YARA ran", drawn)
      else
        let secs := timeout_secs left in
        match scan (rules d) MAX_MATCHES_PER_PATTERN secs data with
        | Err Timeout => (Scanner.DetectorError (fmt "YARA scan exceeded its {}s time limit" [show_N secs]), drawn)
        | Err (OtherError e) => (Scanner.DetectorError (fmt "YARA scan failed: {e}" [e]), drawn)
        | Ok ms => let '(fs, drawn) := findings_of d fresh clock o ms drawn in (Scanner.Found fs, drawn)
        end
  end.

(** As a detector of the scanner: a worker counts the identifiers drawn and
    the clock readings of its inspections. *)
Definition yara_detector (fresh : nat → string) (clock reading : nat → Z) (d : YaraDetector)
    : Scanner.Detector (nat * nat) :=
  Scanner.mkDetector DETECTOR_ID (Some ("yara-rules"%string, db_signer (info d))) true (0%nat, 0%nat)
    (λ w o, let '(r, drawn) := inspect_file d fresh clock (reading w.2) w.1 o in (r, (drawn, S w.2))).
End Detector.
End Yara.
