(* ===== verification/YaraProps.v ===== *)
(** * What YARA findings can say

    The metadata a compiled set of rules may carry, the exact findings of an
    inspection and their place in the policy of automatic quarantine. *)

From S2P Require Import Prelude Utf8 Paths Core External Remediation Trust Fsio Archive Scanner Signatures Yara.

Module YaraLaws.
Import YaraLib Yara.

(** ** Metadata *)

(** A value that [parse_meta] lets pass under a key. *)
Definition choice {A} (l : list (string * A)) (v : MetaValue) : Prop :=
  ∃ t, v = MString t ∧ t ∈ l.*1.
Definition admits (key : string) (v : MetaValue) : Prop :=
  if bool_decide (key = "aw_kind"%string) then choice KINDS v
  else if bool_decide (key = "aw_confidence"%string) then choice CONFIDENCES v
  else if bool_decide (key = "aw_severity"%string) then choice SEVERITIES v
  else if bool_decide (key = "aw_category"%string) then choice CATEGORIES v
  else if bool_decide (key = "aw_name"%string) then
    ∃ t, v = MString t ∧ Signatures.is_blank t = false ∧ len t ≤ MAX_NAME_LEN ∧ Text.has_unsafe_chars t false = false
  else if bool_decide (key = "aw_rule_version"%string) then ∃ n, v = MInteger n ∧ (1 ≤ n ≤ 4294967295)%Z
  else key = "description"%string ∨ is_Some (label_of key) ∨ str_starts_with key "aw_" = false.

Lemma choose_Some {A} (l : list (string * A)) t : is_Some (choose l t) ↔ t ∈ l.*1.
Proof.
  induction l as [|[k a] l IH]; csimpl.
  - split; [by intros []|by intros ?%elem_of_nil].
  - rewrite elem_of_cons. case_bool_decide; [split; [by left|by eauto]|]. rewrite IH. naive_solver.
Qed.
Lemma choose_elem {A} (l : list (string * A)) t a : choose l t = Some a → (t, a) ∈ l.
Proof.
  induction l as [|[k b] l IH]; csimpl; [done|]. case_bool_decide; [intros [= ->]; subst; by left|].
  right. auto.
Qed.
#[local] Arguments choose : simpl never.

Lemma text_Some v t : match v with MString s => Some s | _ => None end = Some t → v = MString t.
Proof. by destruct v; intros [= ->]. Qed.

(** Takes an accepted entry apart. *)
Ltac meta_inv H :=
  unfold meta_one in H; cbv beta zeta in H;
  repeat (match type of H with
          | (if ?b then _ else _) = _ => destruct b eqn:?
          | match ?x with _ => _ end = _ => destruct x eqn:?
          | _ = Ok _ => progress inv_result
          end);
  repeat match goal with E : match ?v with _ => _ end = Some _ |- _ => apply text_Some in E; subst v end;
  try match goal with E : choose _ _ = Some _ |- _ => apply choose_elem in E end.

(** An entry is accepted exactly when its value is admitted. *)
Lemma meta_one_exact rn key v m : (∃ m', meta_one rn key v m = Ok m') ↔ admits key v.
Proof.
  split.
  - intros [m' H]. unfold admits. meta_inv H; subst; try done; eauto.
    1-4: by (eexists; split; [done|apply list_elem_of_fmap; by eexists (_, _)]).
    + repeat match goal with E : (_ || _) = false |- _ => apply orb_false_iff in E as [??] end.
      eexists. split_and!; [done..| |done]. by apply N.ltb_ge.
    + eexists. split; [done|]. by match goal with E : (_ && _) = true |- _ => apply andb_true_iff in E as [??] end; lia.
    + left. by eapply bool_decide_eq_true_1.
    + left. by eapply bool_decide_eq_true_1.
    + left. by eapply bool_decide_eq_true_1.
  - unfold admits, meta_one. cbv beta zeta. intros H.
    repeat (match type of H with (if ?b then _ else _) => destruct b eqn:? end).
    1-4: destruct H as (t & -> & [a Ha]%choose_Some).
    + csimpl. rewrite Ha. by eexists.
    + csimpl. rewrite Ha. destruct (decide (t = "confirmed"%string)) as [->|Ht]; [by vm_compute in Ha|].
      rewrite bool_decide_eq_false_2 by done. by eexists.
    + csimpl. rewrite Ha. by eexists.
    + csimpl. rewrite Ha. by eexists.
    + destruct H as (t & -> & Hb & Hl & Hu). csimpl. apply N.ltb_ge in Hl. rewrite Hb, Hl, Hu. by eexists.
    + destruct H as (z & -> & ? & ?). rewrite !(proj2 (Z.leb_le _ _)) by done. by eexists.
    + destruct (bool_decide (key = "description"%string)) eqn:E; [repeat case_match; by eexists|].
      destruct (label_of key) eqn:El; [repeat case_match; by eexists|].
      destruct H as [H|[[??]|H]]; [rewrite H in E; by vm_compute in E|congruence|]. rewrite H. by eexists.
Qed.

(** Confidence is what it was or one of the three a rule may name. *)
Lemma meta_one_confidence rn key v m m' : meta_one rn key v m = Ok m' →
  confidence m' = confidence m ∨ confidence m' ∈ CONFIDENCES.*2.
Proof.
  intros H. meta_inv H; subst; try by left. right. apply list_elem_of_fmap. by eexists (_, _).
Qed.

Lemma meta_loop_exact rn l m :
  (∃ m', meta_loop rn l m = Ok m') ↔ Forall (λ e, admits e.1 e.2) l.
Proof.
  revert m. induction l as [|[k v] l IH]; intros m; csimpl; [split; [done|by eexists]|].
  rewrite Forall_cons, <-(meta_one_exact rn k v m). simpl. split.
  - intros (m' & H). inv_result. split; [by eexists|]. eapply IH. by eexists.
  - intros ((m1 & ->) & H). simpl. by apply IH.
Qed.
Lemma meta_loop_confidence rn l m m' : meta_loop rn l m = Ok m' →
  confidence m' = confidence m ∨ confidence m' ∈ CONFIDENCES.*2.
Proof.
  revert m. induction l as [|[k v] l IH]; intros m H; csimpl in H; inv_result; [subst; by left|].
  apply IH in H as [->|H]; [|by right]. by eapply meta_one_confidence.
Qed.

(** Whatever a rule says of itself, it is not the proof an exact hash match is. *)
Lemma parse_meta_confidence r m : parse_meta r = Ok m → confidence m ≠ Finding.Confirmed.
Proof.
  intros [Hc|Hc]%meta_loop_confidence Hn; rewrite Hn in Hc; [done|].
  unfold CONFIDENCES in Hc. csimpl in Hc. rewrite !elem_of_cons, elem_of_nil in Hc. naive_solver.
Qed.
Lemma recommended_quarantine m : recommended_action m = Finding.Quarantine ↔
  kind m = Finding.KnownIndicator ∧ category m = Finding.Malware ∧
  (confidence m = Finding.CHigh ∨ confidence m = Finding.Confirmed).
Proof. unfold recommended_action. destruct (kind m), (category m), (confidence m); naive_solver. Qed.

(** ** Compiled sets *)
Section Compiled.
Context `{YX : YaraX, YL : !YaraXLaws, SH : Sha256, ST : StdText}.

Lemma collect_meta_lookup rs acc mp : collect_meta rs acc = Ok mp → NoDup (rule_key <$> rs) →
  (∀ r, r ∈ rs → ∃ m, parse_meta r = Ok m ∧ mp !! rule_key r = Some m) ∧
  (∀ k, k ∉ rule_key <$> rs → mp !! k = acc !! k).
Proof.
  revert acc. induction rs as [|r rs IH]; intros acc H Hn; csimpl in *; inv_result.
  { subst. split; [by intros ? ?%elem_of_nil|done]. }
  apply NoDup_cons in Hn as [Hr Hn]. destruct (IH _ H Hn) as [IH1 IH2]. split.
  - intros r' [->|Hin]%elem_of_cons; [|by apply IH1]. eexists. split; [done|].
    rewrite IH2 by done. by rewrite lookup_insert_eq.
  - intros k [Hk1 Hk2]%not_elem_of_cons. rewrite IH2 by done. by rewrite lookup_insert_ne.
Qed.

Lemma compile_meta sources signer d : compile sources signer = Ok d →
  ∀ r, r ∈ rules d → ∃ m, parse_meta r = Ok m ∧ meta d !! rule_key r = Some m.
Proof.
  unfold compile. intros H. inv_result. subst. simpl. eapply collect_meta_lookup; [done|]. apply build_unique.
Qed.

(** The finding of a match. *)
Record reports (o : Scanner.Observation) (m : RuleMatch) (f : Finding) : Prop := {
  rep_meta : ∃ rm, parse_meta (matched m) = Ok rm ∧ Finding.kind f = kind rm ∧ Finding.name f = name rm ∧
    Finding.severity f = severity rm ∧ Finding.confidence f = confidence rm ∧ Finding.category f = category rm ∧
    Finding.recommended_action f = recommended_action rm;
  rep_rule : Finding.rule_id (Finding.source f) = Some (rule_id (matched m));
  rep_target : Finding.target f = Scanner.target o;
  rep_unsure : Finding.confidence f ≠ Finding.Confirmed;
  rep_review : Policy.eligible f = false }.

Lemma finding_reports d o m rm i t : parse_meta (matched m) = Ok rm →
  reports o m (finding d o m (rule_id (matched m)) rm i t).
Proof.
  intros Hm. pose proof (parse_meta_confidence _ _ Hm) as Hc. split; simpl; [by eauto 10|done..|].
  unfold Policy.eligible, Policy.auto_quarantine_target. csimpl.
  rewrite (bool_decide_eq_false_2 (confidence rm = _)) by done. by rewrite orb_true_r.
Qed.

Lemma findings_of_reports sources signer d fresh clock o ms drawn fs n :
  compile sources signer = Ok d → Forall (λ m, matched m ∈ rules d) ms →
  findings_of d fresh clock o ms drawn = (fs, n) → Forall2 (reports o) ms fs.
Proof.
  intros Hd. revert drawn fs n. induction ms as [|m ms IH]; intros drawn fs n Hf H; simpl in H.
  { injection H as <- <-. constructor. }
  apply Forall_cons in Hf as [Hm Hf]. destruct (compile_meta _ _ _ Hd _ Hm) as (rm & Hp & Hl).
  rewrite Hl in H. destruct (findings_of _ _ _ _ ms _) as [fs' n'] eqn:E. injection H as <- <-.
  constructor; [by apply finding_reports|by eapply IH].
Qed.
End Compiled.

End YaraLaws.

(** ** Properties *)
Module YaraProps.
Import YaraLib Yara YaraLaws.

(** A rule is accepted exactly when each of its metadata entries is admitted:
    the five fields with one of their values, a bounded name, a version that
    fits 32 bits, and no other key that starts with aw_. *)
Theorem rule_metadata_exact r :
  (∃ m, parse_meta r = Ok m) ↔ Forall (λ e, admits e.1 e.2) (metadata r).
Proof. apply meta_loop_exact. Qed.

Section Props.
Context `{YX : YaraX, YL : !YaraXLaws, SH : Sha256, ST : StdText}.

(** C39: YARA reports every match and never claims certainty. With a set of
    rules that compiled, an inspection that reports findings has scanned the
    whole content it was given within the time left, and reports exactly one
    finding for each rule that matched, in that order and about that file,
    with the kind, name, severity, confidence and category of the rule's
    metadata. Quarantine is recommended only for high-confidence known malware,
    no finding is confirmed, and the automatic policy refuses every one. *)
Theorem matching_rules_reported sources signer d fresh clock now drawn o fs n
    (Hd : compile sources signer = Ok d)
    (Hi : inspect_file d fresh clock now drawn o = (Scanner.Found fs, n)) :
  ∃ content ms, Scanner.obs_content o = Some content ∧ (now < Scanner.obs_deadline o)%Z ∧
    scan (rules d) MAX_MATCHES_PER_PATTERN (timeout_secs (remaining (Scanner.obs_deadline o) now)) content = Ok ms ∧
    Forall2 (reports o) ms fs ∧
    (∀ f, f ∈ fs → Finding.recommended_action f = Finding.Quarantine →
       Finding.kind f = Finding.KnownIndicator ∧ Finding.category f = Finding.Malware ∧
       Finding.confidence f = Finding.CHigh).
Proof.
  unfold inspect_file in Hi. destruct (Scanner.obs_content o) as [content|]; [|done].
  destruct (remaining _ _ =? 0)%Z eqn:Hz; [done|]. apply Z.eqb_neq in Hz.
  destruct (scan _ _ _ _) as [ms|e] eqn:Hs; [|by destruct e].
  destruct (findings_of _ _ _ _ _ _) as [fs' n'] eqn:Hf. injection Hi as -> ->.
  assert (Forall2 (reports o) ms fs) as HF by (eapply findings_of_reports; eauto using scan_rules).
  exists content, ms. split_and!; [done|unfold remaining in Hz; lia|done..|].
  intros f [i Hl]%list_elem_of_lookup Hq. destruct (Forall2_lookup_r _ _ _ _ _ HF Hl) as (m & _ & [Hm _ _ Hn _]).
  destruct Hm as (rm & _ & -> & _ & _ & Hc & -> & Ha). rewrite Ha in Hq. rewrite Hc in *.
  by apply recommended_quarantine in Hq as (-> & -> & [->|Hq]).
Qed.
End Props.

(** ** Instances *)

(** A source is the name of one rule, which matches everything. *)
Definition toy_rule (ns t : string) : Rule :=
  mkRule ns t [("aw_kind", MString "known_indicator"); ("aw_category", MString "malware");
               ("aw_confidence", MString "high"); ("aw_rule_version", MInteger 3)]%string.
#[local] Instance toy_yara : YaraX := {|
  Compiler := string * list Rule;
  new_compiler := ("default"%string, []);
  new_namespace ns c := (ns, c.2);
  add_source t c := if bool_decide (t = ""%string) then Err "syntax error"%string
                    else Ok (c.1, c.2 ++ [toy_rule c.1 t]);
  build c := if decide (NoDup ((λ r, (namespace r, identifier r)) <$> c.2)) then c.2 else [];
  scan rules n secs bs := Ok ((λ r, mkMatch r [("$a", [(0, len (identifier r))])]%string) <$> rules) |}.
Lemma toy_yara_laws : YaraXLaws.
Proof.
  split; simpl.
  - intros rules _ _ _ ms [= <-]. apply Forall_fmap, Forall_forall. done.
  - intros c. case_decide; [done|constructor].
Qed.
#[local] Existing Instances Toy.sha toy_text.

Definition sample_sources : list RuleSource :=
  [mkSource "a_0" "a.yar" "Dropper"; mkSource "b_1" "b.yar" "Worm"]%string.
Definition sample_detector : YaraDetector :=
  Eval vm_compute in match compile sample_sources None with
                     | Ok d => d
                     | Err _ => mkDetector [] ∅ (mkDatabase "" 0 None)
                     end.
Definition sample_observation : Scanner.Observation :=
  Scanner.mkObs "/tmp/a" (Toy.digest [1; 2]) (Finding.Build_FileMetadata 2 None None) (Some [1; 2]) 10 None.
Definition sample_findings : list Finding :=
  Eval vm_compute in
  match (inspect_file sample_detector (λ i, show_N (N.of_nat i)) (λ _, 5%Z) 1 0 sample_observation).1 with
  | Scanner.Found fs => fs
  | _ => []
  end.

Lemma matching_rules_reported_witness :
  length sample_findings = 2%nat ∧
  ∃ content ms, Scanner.obs_content sample_observation = Some content ∧ (1 < Scanner.obs_deadline sample_observation)%Z ∧
    scan (rules sample_detector) MAX_MATCHES_PER_PATTERN (timeout_secs (remaining 10 1)) content = Ok ms ∧
    Forall2 (reports sample_observation) ms sample_findings ∧
    (∀ f, f ∈ sample_findings → Finding.recommended_action f = Finding.Quarantine →
       Finding.kind f = Finding.KnownIndicator ∧ Finding.category f = Finding.Malware ∧
       Finding.confidence f = Finding.CHigh).
Proof.
  split; [done|]. pose proof toy_yara_laws as Hl.
  apply (matching_rules_reported sample_sources None sample_detector (λ i, show_N (N.of_nat i)) (λ _, 5%Z) 1 0
           sample_observation sample_findings 2); reflexivity.
Defined.
End YaraProps.
