(* ===== verification/LoadContent.v ===== *)
(** * Loading detection content

    cli/src/content.rs and paths.rs (the Linux build), and [load_detectors] of
    main.rs: which keys a run trusts, the bundles and single files it loads
    under them, and what it records. Errors of other components are kept as
    they are, where the code makes strings of them; warnings printed on the
    way are left out. *)

From S2P Require Import Prelude Utf8 Paths Core External Trust Bundle Disk ContentState Fsio Archive Scanner Signatures Heuristics Aggregate Yara.

Module Content.
Import Trust Disk.

Definition MAX_RULE_FILES : N := 10000.

Record TrustArgs := mkTrustArgs {
  trusted_keys : list path;
  keyrings : list path;
  no_builtin_keyring : bool;
  allow_unsigned : bool }.
Record BundleArgs := mkBundleArgs {
  dirs : list path;
  installed : bool;
  content_dir : option path;
  allow_expired : bool;
  content_state : option path }.

Inductive LoadError :=
  | TrustErr (e : TrustError)
  | BundleErr (e : Bundle.BundleError)
  | StateErr (e : State.StateError)
  | SignatureErr (origin : string) (e : Signatures.SignatureDbError)
  | YaraErr (e : Yara.YaraLoadError)
  | ListErr (p : path) (e : IoError)
  | Message (text : string).

(** A directory entry: its name, and whether its type, links not followed, is
    known to be a regular file. *)
Record DirEntry := mkDirEntry { entry_name : string; regular : bool }.

(** The system, as this code sees it; the content state is a file of the disk. *)
Class Host := {
  files : Files;
  open_dir : path → result string Bundle.Dir;
  is_file : path → bool;
  is_dir : path → bool;
  read_dir : path → result IoError (list (result IoError DirEntry));
  var : string → option string;
  euid : N;
  (** the keyring built into the program *)
  BUILTIN_KEYRING : bytes;
  (** directory and name of a path on the disk; how making the directory and
      locking ended when its state was opened *)
  locate : path → inum * string;
  created : path → result errno unit;
  locked : path → result errno unit }.

Definition keep_if {A} (f : A → bool) (o : option A) : option A := o ≫= λ a, if f a then Some a else None.

(** [path.file_stem()] and [path.extension()] *)
Definition split_name (n : string) : string * option string :=
  match rsplit_once 46 n with
  | Some (before, after) => if bool_decide (before = ""%string) then (n, None) else (before, Some after)
  | None => (n, None)
  end.
Definition file_stem (p : path) : option string := (λ n, (split_name n).1) <$> file_name p.
Definition extension (p : path) : option string := file_name p ≫= λ n, (split_name n).2.

(** A valid, unique YARA namespace from the file stem. *)
Definition namespace_char (c : N) : N := if is_ascii_alphanumeric c then c else 95.
Definition namespace_for (p : path) (index : nat) : string :=
  let stem := of_chars (take 48 (namespace_char <$> decode_lossy (as_bytes (default ""%string (file_stem p))))) in
  let stem := if bool_decide (stem = ""%string) then "rules"%string else stem in
  fmt "{stem}_{index}" [stem; show_N (N.of_nat index)].

Inductive Detector := HashDb (d : Signatures.HashSignatureDetector) | Rules (d : Yara.YaraDetector).

(** [ContentBundleInfo] *)
Record BundleInfo := mkInfo {
  info_name : string;
  info_sequence : N;
  info_issued : Z;
  info_expires : Z;
  info_signers : list string;
  info_manifest : Sha256Digest;
  info_files : N;
  info_expired : bool }.

Section Loading.
Context `{HO : Host, MS : Minisign, ST : StdText, TT : TimeText, SH : Sha256, YX : YaraLib.YaraX}.
Context `{JK : Json KeyringFile, JM : Json Bundle.Manifest, JH : Json Signatures.Header, JR : Json Signatures.RawDatabase}.
Context `{JS : Json State.StateFile, JP : JsonPretty State.StateFile}.

Abbreviation P := (M unit LoadError).
(** [m.map_err(f)?] *)
Definition wrap {E A} (f : E → LoadError) (m : M unit E A) : P A := λ s,
  match m s with Return a s => Return a s | Throw e s => Throw (f e) s | Lost d => Lost d end.

(** ** Trust *)
Record Trust := mkTrust { keys : TrustedKeys; policy : SignaturePolicy }.

Definition added {A} (r : result TrustError A * TrustedKeys) : result LoadError TrustedKeys :=
  match r with (Ok _, ks) => Ok ks | (Err e, _) => Err (TrustErr e) end.
Fixpoint add_each {A} (add : path → TrustedKeys → result TrustError A * TrustedKeys) (ps : list path)
    (ks : TrustedKeys) : result LoadError TrustedKeys :=
  match ps with
  | [] => Ok ks
  | p :: ps => ks ← added (add p ks); add_each add ps ks
  end.

Definition system_keyring_path : option path := Some "/etc/abyssal-warden/keyring.json"%string.

Definition from_args (a : TrustArgs) : result LoadError Trust :=
  ks ← (if no_builtin_keyring a then Ok new
        else added (add_keyring BUILTIN_KEYRING "built-in project keyring" new));
  ks ← add_each (add_key_file files) (trusted_keys a) ks;
  ks ← match keep_if is_file system_keyring_path with
       | Some system => added (add_keyring_file files system ks)
       | None => Ok ks
       end;
  ks ← add_each (add_keyring_file files) (keyrings a) ks;
  Ok (mkTrust ks (if allow_unsigned a then AllowUnsigned else RequireTrusted)).

(** [for id in ids { keys.revoke(id); }] *)
Definition revoke_each (ids : list string) (ks : TrustedKeys) : TrustedKeys :=
  foldl (λ ks i, (revoke i ks).2) ks ids.

Definition apply_recorded_revocations (state_path : path) (t : Trust) : P Trust :=
  let '(d, n) := locate state_path in
  ids ← wrap StateErr (State.read_revoked_keys state_path d n);
  mret (mkTrust (revoke_each ids (keys t)) (policy t)).

Definition load (t : Trust) (p : path) (max : N) : P LoadedContent :=
  now ← now_utc;
  lift (map_err TrustErr (load_content files now p max (keys t) (policy t))).

(** ** Locations *)
Definition STATE_FILE : string := "content-state.json".
Definition user_base (variable below : string) : option path :=
  match keep_if is_absolute (var variable) with
  | Some p => Some p
  | None => (λ h, join h below) <$> var "HOME"
  end.
Definition content_state_path : option path :=
  if euid =? 0 then Some (join "/var/lib/abyssal-warden" STATE_FILE)
  else (λ base, join (join base "abyssal-warden") STATE_FILE) <$> user_base "XDG_STATE_HOME" ".local/state".
Definition content_dir_path : option path :=
  if euid =? 0 then Some "/var/lib/abyssal-warden/content"%string
  else (λ base, join (join base "abyssal-warden") "content") <$> user_base "XDG_DATA_HOME" ".local/share".

Definition state_path (a : BundleArgs) : option path :=
  match content_state a with Some p => Some p | None => content_state_path end.

(** ** Bundles *)

(** [entries.flatten()] *)
Definition readable (e : result IoError DirEntry) : option DirEntry :=
  match e with Ok e => Some e | Err _ => None end.

(** The bundles installed in [root]; an entry that cannot be read is passed over. *)
Definition installed_in (root : path) : result LoadError (list path) :=
  found ← match read_dir root with
          | Ok entries =>
              let names := entry_name <$> omap readable entries in
              Ok (List.filter (λ p, is_file (join p Bundle.MANIFEST_FILE))
                    (join root <$> List.filter (λ n, negb (str_starts_with n ".")) names))
          | Err e => if is_not_found e then Ok [] else Err (ListErr root e)
          end;
  _ ← reject_if (bool_decide (found = []))
        (Message (fmt "no installed content in {}; run `abyssal-warden update` first" [display root]));
  Ok (sort_by Aggregate.cmp_path found).

Definition bundle_dirs (a : BundleArgs) : result LoadError (list path) :=
  if installed a then
    root ← ok_or (match content_dir a with Some p => Some p | None => content_dir_path end)
             (Message "cannot determine the content directory; use --content-dir");
    found ← installed_in root;
    Ok (dirs a ++ found)
  else Ok (dirs a).

(** The loop of [bundle_detectors] over the files of a bundle. *)
Fixpoint gather (b : Bundle.VerifiedBundle) (fs : list Bundle.BundleFile) (dets : list Detector)
    (sources : list Yara.RuleSource) : result LoadError (list Detector * list Yara.RuleSource) :=
  match fs with
  | [] => Ok (dets, sources)
  | f :: fs =>
      let origin := (Bundle.name (Bundle.manifest b) +:+ ":" +:+ Bundle.content_path f)%string in
      match Bundle.content_kind f with
      | Bundle.HashDatabase =>
          db ← map_err (SignatureErr origin) (Signatures.db_from_slice (Bundle.content f));
          gather b fs (dets ++ [HashDb (Signatures.verified_by db (Bundle.signers b))]) sources
      | Bundle.Notice => gather b fs dets sources
      | Bundle.YaraRules =>
          text ← ok_or (from_utf8 (Bundle.content f)) (Message (fmt "{origin}: rule source is not UTF-8" [origin]));
          gather b fs dets
            (sources ++ [Yara.mkSource (namespace_for (Bundle.content_path f) (length sources)) origin text])
      end
  end.
Definition bundle_detectors (b : Bundle.VerifiedBundle) : result LoadError (list Detector) :=
  '(dets, sources) ← gather b (Bundle.contents b) [] [];
  match sources with
  | [] => Ok dets
  | _ =>
      det ← map_err YaraErr
              (Yara.compile sources (Some (String.concat "," (KeyId.to_string <$> Bundle.signers b))));
      Ok (dets ++ [Rules det])
  end.
Definition validate_bundle (b : Bundle.VerifiedBundle) : result LoadError unit :=
  _ ← bundle_detectors b; Ok tt.

Definition info_of (b : Bundle.VerifiedBundle) : BundleInfo :=
  let m := Bundle.manifest b in
  mkInfo (Bundle.name m) (Bundle.sequence m) (Bundle.issued m) (Bundle.expires m)
    (KeyId.to_string <$> Bundle.signers b) (Bundle.manifest_sha256 b) (vlen (Bundle.contents b)) (Bundle.expired b).

Definition bundle_name (b : Bundle.VerifiedBundle) : string := Bundle.name (Bundle.manifest b).

(** The loop of [load_bundles]: the bundles accepted and the detectors so far. *)
Fixpoint accept_each (opts : Bundle.LoadOptions) (st : State.StateFile) (ds : list path) (ks : TrustedKeys)
    (bs : list Bundle.VerifiedBundle) (dets : list Detector)
    : result LoadError (list Bundle.VerifiedBundle * list Detector) :=
  match ds with
  | [] => Ok (bs, dets)
  | d :: ds =>
      b ← map_err BundleErr (Bundle.load_bundle files open_dir d ks opts);
      _ ← reject_if (existsb (λ o, bool_decide (bundle_name o = bundle_name b)) bs)
            (Message (fmt "bundle name {:?} given more than once" [debug_str (bundle_name b)]));
      _ ← map_err StateErr (State.check st b (min_sequence ks (bundle_name b)));
      let ks := revoke_each (Bundle.revoke_keys (Bundle.manifest b)) ks in
      more ← bundle_detectors b;
      accept_each opts st ds ks (bs ++ [b]) (dets ++ more)
  end.

Definition record_all (bs : list Bundle.VerifiedBundle) (now : Z) (st : State.StateFile) : State.StateFile :=
  foldl (λ st b, State.record b now st) st bs.

Definition load_bundles (a : BundleArgs) (t : Trust) (record : bool) : P (list Detector * list BundleInfo) :=
  ds ← lift (bundle_dirs a);
  if bool_decide (ds = []) then mret ([], [])
  else
    p ← lift (ok_or (state_path a) (Message "cannot determine a content state location; use --content-state"));
    let '(d, n) := locate p in
    st ← wrap StateErr (State.open p d n (created p) (locked p));
    let ks := revoke_each (State.revoked_list st) (keys t) in
    now ← now_utc;
    '(bs, dets) ← lift (accept_each (Bundle.mkOptions (allow_expired a) now) st ds ks [] []);
    _ ← (if record then wrap StateErr (State.save p d n euid (record_all bs now st)) else mret tt);
    mret (dets, info_of <$> bs).

(** ** Single files *)
Definition load_hash_db (t : Trust) (p : path) : P Signatures.HashSignatureDetector :=
  loaded ← load t p Signatures.MAX_DATABASE_BYTES;
  db ← lift (map_err (SignatureErr (display p)) (Signatures.db_from_slice (loaded_data loaded)));
  mret (match signer loaded with Some key => Signatures.verified db key | None => Signatures.new db end).

Definition is_rule_file (p : path) : bool :=
  from_option (λ e, eq_ignore_ascii_case e "yar" || eq_ignore_ascii_case e "yara") false (extension p).
Fixpoint rule_entries (d : path) (es : list (result IoError DirEntry)) (out : list path)
    : result LoadError (list path) :=
  match es with
  | [] => Ok out
  | Err e :: _ => Err (ListErr d e)
  | Ok e :: es =>
      let p := join d (entry_name e) in
      if is_rule_file p && regular e then
        _ ← reject_if (MAX_RULE_FILES <? vlen (out ++ [p]))
              (Message (fmt "{}: more than {MAX_RULE_FILES} rule files" [display d; show_N MAX_RULE_FILES]));
        rule_entries d es (out ++ [p])
      else rule_entries d es out
  end.
Definition rule_files_in (d : path) : result LoadError (list path) :=
  es ← map_err (ListErr d) (read_dir d);
  out ← rule_entries d es [];
  Ok (sort_by Aggregate.cmp_path out).

Fixpoint rule_files (ps : list path) : result LoadError (list path) :=
  match ps with
  | [] => Ok []
  | p :: ps =>
      fs ← (if is_dir p then
              found ← rule_files_in p;
              _ ← reject_if (bool_decide (found = [])) (Message (fmt "{}: no .yar or .yara files" [display p]));
              Ok found
            else Ok [p]);
      rest ← rule_files ps;
      Ok (fs ++ rest)
  end.

(** The loop over the rule files, with the octets read so far. *)
Fixpoint load_sources (t : Trust) (fs : list path) (total : N) (signers : list (option KeyId))
    (sources : list Yara.RuleSource) : P (list (option KeyId) * list Yara.RuleSource) :=
  match fs with
  | [] => mret (signers, sources)
  | f :: fs =>
      loaded ← load t f Yara.MAX_SOURCE_BYTES;
      let total := total + vlen (loaded_data loaded) in
      _ ← lift (reject_if (Yara.MAX_SOURCE_BYTES <? total)
                  (Message (fmt "YARA sources exceed {MAX_SOURCE_BYTES} bytes" [show_N Yara.MAX_SOURCE_BYTES])));
      text ← lift (ok_or (from_utf8 (loaded_data loaded)) (Message (fmt "{}: rule source is not UTF-8" [display f])));
      load_sources t fs total (signers ++ [signer loaded])
        (sources ++ [Yara.mkSource (namespace_for f (length sources)) (display f) text])
  end.

(** Every signer, sorted and once each, when every source has one. *)
Definition common_signer (signers : list (option KeyId)) : option string :=
  if forallb (λ s, bool_decide (is_Some s)) signers
  then Some (String.concat "," (Names.dedup (sort_by cmp_str (KeyId.to_string <$> omap (λ s, s) signers))))
  else None.

Definition load_yara (ps : list path) (t : Trust) : P Yara.YaraDetector :=
  fs ← lift (rule_files ps);
  '(signers, sources) ← load_sources t fs 0 [] [];
  lift (map_err YaraErr (Yara.compile sources (common_signer signers))).

(** ** [load_detectors] of main.rs *)
Fixpoint load_databases (t : Trust) (ps : list path) (dets : list Detector) : P (list Detector) :=
  match ps with
  | [] => mret dets
  | p :: ps => d ← load_hash_db t p; load_databases t ps (dets ++ [HashDb d])
  end.
Definition load_detectors (signatures yara : list path) (targs : TrustArgs) (bundles : BundleArgs)
    : P (list Detector * list BundleInfo) :=
  t ← lift (from_args targs);
  t ← match state_path bundles with
      | Some p => apply_recorded_revocations p t
      | None => mret t
      end;
  '(dets, infos) ← load_bundles bundles t true;
  dets ← load_databases t signatures dets;
  dets ← (if bool_decide (yara = []) then mret dets
          else y ← load_yara yara t; mret (dets ++ [Rules y]));
  mret (dets, infos).
End Loading.
End Content.
