(* ===== verification/LoadContentProps.v ===== *)
(** * What a run trusts

    Revoked keys vouch for nothing, a set of bundles is accepted and recorded
    as a whole, and every detector of a scan comes from signed content. *)

From S2P Require Import Prelude Utf8 Paths Core External Trust Bundle Disk ContentState Fsio Archive Scanner Signatures Heuristics Aggregate Yara YaraProps LoadContent.

Module ContentLaws.
Import Trust Disk Content.

(** ** Revocation *)

(** None of the identifiers names the key. *)
Definition unrevoked (l : list string) (i : KeyId) : Prop :=
  Forall (λ r, eq_ignore_ascii_case (KeyId.to_string i) r = false) l.

Section Keys.
Context `{MS : Minisign, ST : StdText, TT : TimeText}.

Definition hit (l : list string) (k : TrustedKey) : bool :=
  existsb (eq_ignore_ascii_case (KeyId.to_string (id k))) l.
Definition after_revoking (l : list string) (k : TrustedKey) : TrustedKey :=
  if hit l k then set_revoked true k else k.

Lemma revoke_each_keys l ks :
  revoke_each l ks = set_keys (after_revoking l <$> Trust.keys ks) ks.
Proof.
  revert ks. induction l as [|r l IH]; intros [kl th fl]; simpl.
  - unfold set_keys. simpl. f_equal. symmetry. apply list_fmap_id.
  - rewrite IH. unfold revoke, set_keys. simpl. f_equal. rewrite <-list_fmap_compose. apply list_fmap_ext.
    intros _ k _. unfold after_revoking, hit. simpl.
    destruct (eq_ignore_ascii_case (KeyId.to_string (id k)) r); simpl; by destruct (existsb _ l).
Qed.
Lemma revoke_each_threshold l ks : threshold (revoke_each l ks) = threshold ks.
Proof. by rewrite revoke_each_keys. Qed.
Lemma revoke_each_floor l ks n : min_sequence (revoke_each l ks) n = min_sequence ks n.
Proof. by rewrite revoke_each_keys. Qed.

(** What counts after revoking counted before, and is not by a revoked key. *)
Lemma authentic_revoked l ks role now bs text i c :
  authentic (revoke_each l ks) role now bs text i c → authentic ks role now bs text i c ∧ unrevoked l i.
Proof.
  rewrite revoke_each_keys. intros (k' & sig & Hk & <- & Hr & Hv & Hw & Hs & Hver & Hc).
  apply list_elem_of_fmap in Hk as (k & -> & Hk). unfold after_revoking in *. destruct (hit l k) eqn:Eh; [done|].
  split; [exists k, sig; by split_and!|]. apply Forall_forall. intros r Hr'.
  destruct (eq_ignore_ascii_case _ r) eqn:E; [|done].
  assert (hit l k = true) as Hh; [|by rewrite Hh in Eh]. apply existsb_true. by exists r.
Qed.

(** ** Bundles *)
Context `{SH : Sha256, JM : Json Bundle.Manifest}.

(** A manifest over which enough distinct keys, none of them revoked, vouch,
    and contents with the sizes and hashes it lists. *)
Record vouched (ks : TrustedKeys) (revoked : list string) (now : Z) (b : Bundle.VerifiedBundle) : Prop := {
  v_manifest : ∃ data, from_slice data = Ok (Bundle.manifest b) ∧ sha256 data = Bundle.manifest_sha256 b ∧
    Forall (λ i, (∃ text c, authentic ks Content now data text i c) ∧ unrevoked revoked i) (Bundle.signers b);
  v_signers : NoDup (Bundle.signers b) ∧ threshold ks ≤ vlen (Bundle.signers b);
  v_contents : Forall2 (λ e f, Bundle.content_path f = Bundle.file_path e ∧
      Bundle.content_kind f = Bundle.file_kind e ∧ vlen (Bundle.content f) = Bundle.file_size e ∧
      sha256 (Bundle.content f) = Bundle.file_sha256 e)
    (Bundle.files (Bundle.manifest b)) (Bundle.contents b) }.

Lemma load_bundle_vouched fs od d ks opts b :
  Bundle.load_bundle fs od d ks opts = Ok b → vouched ks [] (Bundle.now opts) b.
Proof.
  intros (data & root & _ & Hm & Hs & _ & Hn & Ht & Ha & _ & _ & _ & Hf)%Bundle.load_bundle_Ok.
  split; [exists data; split_and!; [done..|]|done|].
  - eapply Forall_impl; [exact Ha|]. intros i Hi. by split; [|constructor].
  - eapply Forall2_impl; [exact Hf|]. intros e f (? & ? & _ & ? & ?). by split_and!.
Qed.
Lemma vouched_fewer ks r r' now b : vouched ks r now b → r' ⊆ r → vouched ks r' now b.
Proof.
  intros [(data & Hm & Hs & Ha) ? ?] Hr. split; [exists data; split_and!; [done..|]|done|done].
  eapply Forall_impl; [exact Ha|]. intros i [? Hu]. split; [done|]. unfold unrevoked in *.
  rewrite Forall_forall in *. auto.
Qed.
Lemma vouched_revoked l ks r now b : vouched (revoke_each l ks) r now b → vouched ks (l ++ r) now b.
Proof.
  intros [(data & Hm & Hs & Ha) [Hn Ht] Hc]. rewrite revoke_each_threshold in Ht.
  split; [exists data; split_and!; [done..|]|done|done].
  eapply Forall_impl; [exact Ha|]. intros i [(text & c & [Hi Hu]%authentic_revoked) Hr].
  split; [by exists text, c|]. by apply Forall_app.
Qed.
End Keys.

(** ** Records *)

Lemma check_record_other b b' now st floor : bundle_name b ≠ bundle_name b' →
  State.check (State.record b now st) b' floor = State.check st b' floor.
Proof.
  intros Hn. assert (State.bundles (State.record b now st) !! bundle_name b' = State.bundles st !! bundle_name b') as E.
  { unfold State.record. simpl. destruct (match _ !! _ with Some _ => _ | None => _ end); [|done]. by rewrite lookup_insert_ne. }
  unfold State.check. fold (bundle_name b'). by rewrite E.
Qed.

(** Bundles with names of their own, each checked against one state, may be
    recorded one after the other. *)
Lemma record_all_history bs now st :
  NoDup (bundle_name <$> bs) → Forall (λ b, ∃ floor, State.check st b floor = Ok tt) bs →
  State.history st (State.Accepted <$> bs) (record_all bs now st).
Proof.
  revert st. induction bs as [|b bs IH]; intros st Hn Hc; csimpl; [constructor|].
  apply NoDup_cons in Hn as [Hb Hn]. apply Forall_cons in Hc as [[floor Hf] Hc].
  eapply State.history_bundle; [done|]. apply IH; [done|]. rewrite Forall_forall in *.
  intros b' Hb'. destruct (Hc b' Hb') as [fl Hfl]. exists fl. rewrite check_record_other; [done|].
  intros E. apply Hb. rewrite E. by apply list_elem_of_fmap_2.
Qed.

(** ** Accepting bundles *)
Section Accepting.
Context `{HO : Host, MS : Minisign, ST : StdText, TT : TimeText, SH : Sha256, YX : YaraLib.YaraX}.
Context `{JK : Json KeyringFile, JM : Json Bundle.Manifest, JH : Json Signatures.Header, JR : Json Signatures.RawDatabase}.
Context `{JS : Json State.StateFile, JP : JsonPretty State.StateFile}.

Definition revokes (b : Bundle.VerifiedBundle) : list string := Bundle.revoke_keys (Bundle.manifest b).

(** The bundles [bs] of the directories [ds] were accepted, in this order,
    under keys [ks] and a state [st]: each under the keys left by those before
    it, no two of one name, and with these detectors. *)
Record accepted (opts : Bundle.LoadOptions) (st : State.StateFile) (ds : list path) (ks : TrustedKeys)
    (bs : list Bundle.VerifiedBundle) (dets : list Detector) : Prop := {
  acc_names : NoDup (bundle_name <$> bs);
  acc_loaded : Forall2 (λ d b, Bundle.dir b = d) ds bs;
  acc_vouched n b : bs !! n = Some b → vouched ks (take n bs ≫= revokes) (Bundle.now opts) b;
  acc_fresh b : b ∈ bs → State.check st b (min_sequence ks (bundle_name b)) = Ok tt ∧
    (Bundle.expired b = true → Bundle.allow_expired opts = true);
  acc_detectors : ∃ dss, Forall2 (λ b l, bundle_detectors b = Ok l) bs dss ∧ dets = concat dss }.

Lemma load_bundle_dir fs od d ks opts b : Bundle.load_bundle fs od d ks opts = Ok b → Bundle.dir b = d.
Proof. unfold Bundle.load_bundle. intros H. inv_result. by subst. Qed.

Lemma accept_each_accepted opts st ds ks bs dets bs' dets' :
  accept_each opts st ds ks bs dets = Ok (bs', dets') →
  ∃ new more, bs' = bs ++ new ∧ dets' = dets ++ more ∧ accepted opts st ds ks new more ∧
    ∀ o b, o ∈ bs → b ∈ new → bundle_name o ≠ bundle_name b.
Proof.
  revert ks bs dets. induction ds as [|d ds IH]; intros ks bs dets H; csimpl in H.
  { injection H as <- <-. exists [], []. rewrite !app_nil_r. split_and!; [done..| |by intros ? ? _ ?%elem_of_nil].
    split; [constructor|constructor|done|by intros ? ?%elem_of_nil|by exists []]. }
  inv_result. rename x into b. match goal with y : list Detector |- _ => match goal with H : bundle_detectors b = Ok y |- _ => rename y into more1 end end. match goal with H : existsb _ _ = false |- _ => rename H into Hx end.
  match goal with H : Bundle.load_bundle _ _ _ _ _ = _ |- _ => rename H into Hb end.
  match goal with H : State.check _ _ _ = _ |- _ => rename H into Hc end.
  apply IH in H as (new & more & -> & -> & [Hn Hl Hv Hf (dss & Hd & ->)] & Hdis).
  exists (b :: new), (more1 ++ concat dss). rewrite <-!app_assoc. split_and!; [done..| |].
  - split.
    + csimpl. apply NoDup_cons. split; [|done]. intros (b' & E & Hb')%list_elem_of_fmap.
      apply (Hdis b b'); [apply elem_of_app; right; by apply list_elem_of_singleton|done|done].
    + constructor; [by eapply load_bundle_dir|done].
    + intros [|n] b' Hl'; simpl in Hl'; [injection Hl' as <-; by eapply load_bundle_vouched|].
      apply Hv, vouched_revoked in Hl'. done.
    + intros b' [->|Hb']%elem_of_cons.
      * split; [done|]. by apply Bundle.load_bundle_Ok in Hb as (? & ? & _ & _ & _ & _ & _ & _ & _ & _ & He & _).
      * specialize (Hf b' Hb'). by rewrite revoke_each_floor in Hf.
    + exists (more1 :: dss). split; [by constructor|done].
  - intros o b' Ho [->|Hb']%elem_of_cons.
    + intros E. assert (existsb (λ o, bool_decide (bundle_name o = bundle_name b)) bs = true) as Ht; [|congruence].
      apply existsb_true. exists o. split; [done|]. by apply bool_decide_eq_true_2.
    + apply (Hdis o b'); [apply elem_of_app; by left|done].
Qed.

(** ** The state file *)

Lemma triple_wrap {E A} (f : E → LoadError) P (m : M unit E A) (Q : A → state unit → Prop) (R : state unit → Prop) C :
  triple P m Q (λ _, R) C → triple P (wrap f m) Q (λ _, R) C.
Proof. intros H s Hs. specialize (H s Hs). unfold wrap. by destruct (m s). Qed.

Lemma triple_fact {E A} (F : state unit → Prop) (φ : Prop) (m : M unit E A) Q R C :
  (φ → triple F m Q R C) → triple (λ s, F s ∧ φ) m Q R C.
Proof. intros H s [Hs Hφ]. by apply H. Qed.

Section Stored.
Context (p : path) (d : inum) (n : string) (c : option bytes).
(** The old state file, untouched. *)
Definition untouched (f : Fs) : Prop := State.is_file d n c f ∧ State.apart d n f.

(** What opening that file gives: its state, or a fresh one when the file is
    not there. *)
Definition opened (st : State.StateFile) : Prop :=
  st = State.fresh_state ∨ ∃ bs, c = Some bs ∧ from_slice bs = Ok st.

Lemma is_file_lose_power keep g f : State.is_file d n c f → State.is_file d n c (lose_power keep g f).
Proof. intros H%(State.is_file_one_of d n c c). by destruct (State.one_of_lose_power d n c c keep g f H). Qed.

Lemma open_triple cr lk :
  triple (on_fs tt untouched) (State.open p d n cr lk) (λ st s, on_fs tt untouched s ∧ opened st)
    (λ _, on_fs tt untouched) (State.is_file d n c).
Proof.
  unfold State.open, State.io.
  assert (∀ (r : result errno unit), triple (on_fs tt untouched)
    (or_throw (λ e, State.IoErr p (Os e)) (mret r)) (λ _, on_fs tt untouched) (λ _, on_fs tt untouched) (State.is_file d n c)) as Hret.
  { intros r. apply triple_or_throw, triple_ret. by intros s Hs; destruct r. }
  eapply triple_bind; [destruct (State.has_dir p); [apply Hret|apply triple_ret; eauto]|]. intros ?.
  eapply triple_bind; [apply Hret|]. intros ?.
  eapply triple_bind.
  { apply (triple_call tt _ _ (λ r f, untouched f ∧ ∀ i, r = Ok i → live f !! (d, n) = Some i)).
    - intros f keep g [Hf _]. by apply is_file_lose_power.
    - intros f e Hf. split; [done|]. by intros i [=].
    - intros f Hf. rewrite sys_open_ro. split; [done|]. intros i. unfold sys_open.
      destruct (live f !! (d, n)); [|done]. destruct (inodes f !! _); [|done]. case_bool_decide; [done|]. by intros [= ->]. }
  intros [i|e]; [|destruct (e =? ENOENT); [apply triple_ret; intros s (? & ? & ?); split; [done|by left]|by apply triple_throw; intros s (? & ? & ?)]].
  eapply triple_bind.
  { apply (triple_or_call tt _ _ _ (λ bs f, untouched f ∧ (vlen bs ≤ State.MAX_STATE_BYTES → c = Some bs)) untouched).
    - intros f keep g [[Hf _] _]. by apply is_file_lose_power.
    - by intros f [? _].
    - intros f [Hf Hi]. specialize (Hi i eq_refl). pose proof (proj1 (proj1 Hf)) as Hl. rewrite Hi in Hl.
      destruct Hl as (x & Hx & _ & Hc). unfold sys_read_to_end. rewrite Hx. split; [done|]. intros Hlen. rewrite Hc. f_equal. symmetry. apply take_ge. unfold vlen in Hlen. rewrite length_take in Hlen. lia. }
  intros bs. eapply triple_bind.
  { apply (triple_lift _ _ (λ _ s, on_fs tt untouched s ∧ c = Some bs)); [|by intros e s _ (? & ? & ?)].
    intros [] s Hr [Hs [Hu Hb]]. apply reject_if_Ok in Hr.
    apply N.ltb_ge in Hr. exact (conj (conj Hs Hu) (Hb Hr)). }
  intros ?. eapply triple_bind.
  { apply (triple_lift _ _ (λ st s, on_fs tt untouched s ∧ opened st)); [|by intros e s _ [? _]].
    intros st s Hst [Hs ->]. apply map_err_Ok in Hst. split; [done|]. right. by exists bs. }
  intros st. apply (triple_bind _ _ (λ _ s, on_fs tt untouched s ∧ opened st)); [|intros ?; by apply triple_ret].
  apply triple_lift; [|by intros e s _ [? _]]. by intros ? s _ Hs.
Qed.

Context (a : BundleArgs) (t : Content.Trust) (enc : State.StateFile → bytes).

(** Every bundle the arguments name was accepted, under the recorded state and
    with the keys it revokes revoked, and recording them one after the other
    is a history of that state. *)
Record complete (st : State.StateFile) (now : Z) (bs : list Bundle.VerifiedBundle) (dets : list Detector) : Prop := {
  co_opened : opened st;
  co_accepted : ∃ ds, bundle_dirs a = Ok ds ∧ accepted (Bundle.mkOptions (allow_expired a) now) st ds
    (revoke_each (State.revoked_list st) (Content.keys t)) bs dets;
  co_history : State.history st (State.Accepted <$> bs) (record_all bs now st) }.
Definition stored (bs : list Bundle.VerifiedBundle) (now : Z) (st : State.StateFile) : option bytes :=
  Some (enc (record_all bs now st)).

Definition loaded (r : list Detector * list BundleInfo) (f : Fs) : Prop :=
  (bundle_dirs a = Ok [] ∧ r = ([], []) ∧ State.is_file d n c f) ∨
  ∃ st now bs, complete st now bs r.1 ∧ r.2 = info_of <$> bs ∧
    if State.has_dir p then State.is_file d n (stored bs now st) f else State.one_of d n c (stored bs now st) f.
Definition failed (F : option bytes → Fs → Prop) (f : Fs) : Prop :=
  State.is_file d n c f ∨ ∃ st now bs dets, complete st now bs dets ∧ F (stored bs now st) f.

Lemma triple_now_utc {E} (F : Fs → Prop) (R : E → state unit → Prop) C :
  triple (on_fs tt F) now_utc (λ _, on_fs tt F) R C.
Proof. intros s Hs. unfold now_utc. by destruct (clock s). Qed.

Lemma load_bundles_triple (Henc : ∀ st, to_vec_pretty st = Ok (enc st)) (Hp : state_path a = Some p)
    (Hl : locate p = (d, n)) :
  triple (on_fs tt untouched) (load_bundles a t true) (λ r, on_fs tt (loaded r))
    (λ _, on_fs tt (failed (State.one_of d n c))) (failed (State.settled d n c)).
Proof.
  assert (∀ s F, on_fs tt untouched s → on_fs tt (failed F) s) as Hleft by (intros s F [? [? _]]; by split; [|left]).
  unfold load_bundles. rewrite Hp. apply (triple_bind _ _ (λ ds s, on_fs tt untouched s ∧ bundle_dirs a = Ok ds)).
  { apply triple_lift; [by intros ds s -> Hs|]. intros e s _ Hs. by apply Hleft. }
  intros ds. apply triple_fact. intros Hds. case_bool_decide as Hd.
  { apply triple_ret. intros s [Hs [Hf _]]. subst ds. by split; [|left]. }
  apply (triple_bind _ _ (λ q s, on_fs tt untouched s ∧ q = p)); [by apply triple_ret|].
  intros q. apply triple_fact. intros ->. rewrite Hl.
  apply (triple_bind _ _ (λ st s, on_fs tt untouched s ∧ opened st)).
  { eapply triple_conseq; [apply (triple_wrap StateErr), open_triple|done|done|by intros; apply Hleft|by left]. }
  intros st. apply triple_fact. intros Ho. eapply triple_bind; [apply triple_now_utc|]. intros now.
  apply (triple_bind _ _ (λ r s, on_fs tt untouched s ∧ complete st now r.1 r.2)).
  { apply triple_lift; [|by intros e s _ Hs; apply Hleft]. intros [bs dets] s Hacc Hs. split; [done|].
    apply accept_each_accepted in Hacc as (bs' & dets' & -> & -> & Hacc & _). simpl. split; [done|by exists ds|].
    destruct Hacc as [Hn _ _ Hf _]. apply record_all_history; [done|]. apply Forall_forall. intros b Hin.
    eexists. by apply Hf. }
  intros [bs dets]. apply triple_fact. intros Hc. simpl in Hc. eapply triple_bind.
  { eapply triple_conseq; [apply (triple_wrap StateErr), (State.save_state_triple p d n euid _ _ c (Henc _))|..].
    - done.
    - intros u s Hs. exact Hs.
    - intros _ s [? Hs]. split; [done|]. right. by exists st, now, bs, dets.
    - intros f Hf. right. by exists st, now, bs, dets. }
  intros ?. apply triple_ret. intros s [? Hs]. split; [done|]. right. exists st, now, bs.
  split_and!; [done..|]. by apply State.saved_survives.
Qed.
End Stored.

(** ** Where detectors come from *)

Lemma bind_Return {E A B} (m : M unit E A) (k : A → M unit E B) s b s' :
  (m ≫= k) s = Return b s' → ∃ a s1, m s = Return a s1 ∧ k a s1 = Return b s'.
Proof. unfold mbind, M_bind. destruct (m s) eqn:Em; [eauto|done|done]. Qed.
Lemma lift_Return {E A} (r : result E A) (s : state unit) a s' : lift r s = Return a s' → r = Ok a ∧ s' = s.
Proof. destruct r; [|done]. by intros [= -> ->]. Qed.

(** The octets of a single file: signed by a key that may sign alone and is
    not revoked, or accepted unsigned because the caller said so. *)
Definition signed (ks : TrustedKeys) (revoked : list string) (unsigned : bool) (data : bytes)
    (sg : option KeyId) : Prop :=
  match sg with
  | Some i => threshold ks = 1 ∧ unrevoked revoked i ∧ ∃ now text c, authentic ks Content now data text i c
  | None => unsigned = true
  end.

Inductive backed (ks : TrustedKeys) (revoked : list string) (unsigned : bool) : Detector → Prop :=
  | bundle_database now b f db : vouched ks revoked now b → f ∈ Bundle.contents b →
      Bundle.content_kind f = Bundle.HashDatabase → Signatures.db_from_slice (Bundle.content f) = Ok db →
      backed ks revoked unsigned (HashDb (Signatures.verified_by db (Bundle.signers b)))
  | bundle_rules now b sources sg det : vouched ks revoked now b →
      Forall (λ r, ∃ f, f ∈ Bundle.contents b ∧ Bundle.content_kind f = Bundle.YaraRules ∧
        from_utf8 (Bundle.content f) = Some (Yara.text r)) sources →
      Yara.compile sources sg = Ok det → backed ks revoked unsigned (Rules det)
  | file_database data sg db : signed ks revoked unsigned data sg → Signatures.db_from_slice data = Ok db →
      backed ks revoked unsigned
        (HashDb (match sg with Some k => Signatures.verified db k | None => Signatures.new db end))
  | file_rules (read : list (bytes * option KeyId)) sources det :
      Forall2 (λ l r, signed ks revoked unsigned l.1 l.2 ∧ from_utf8 l.1 = Some (Yara.text r)) read sources →
      Yara.compile sources (common_signer read.*2) = Ok det → backed ks revoked unsigned (Rules det).

Section Backed.
Context (ks : TrustedKeys) (revoked : list string) (unsigned : bool).
Abbreviation ok := (backed ks revoked unsigned).

Lemma gather_backed now b fs dets sources dets' sources' :
  vouched ks revoked now b → fs ⊆ Bundle.contents b → gather b fs dets sources = Ok (dets', sources') →
  let from := Forall (λ r, ∃ f, f ∈ Bundle.contents b ∧ Bundle.content_kind f = Bundle.YaraRules ∧
        from_utf8 (Bundle.content f) = Some (Yara.text r)) in
  Forall ok dets → from sources → Forall ok dets' ∧ from sources'.
Proof.
  intros Hv. revert dets sources. induction fs as [|f fs IH]; intros dets sources Hsub H from Hd Hs; simpl in H.
  { by injection H as <- <-. }
  assert (f ∈ Bundle.contents b) as Hf by (apply Hsub; by left).
  assert (fs ⊆ Bundle.contents b) as Hsub' by (intros x Hx; apply Hsub; by right).
  destruct (Bundle.content_kind f) eqn:Ek; inv_result; (eapply IH; [done|exact H| |]); try done.
  - apply Forall_app. split; [done|]. apply Forall_singleton. by eapply bundle_database.
  - apply Forall_app. split; [done|]. apply Forall_singleton. by exists f.
Qed.
Lemma bundle_detectors_backed now b dets : vouched ks revoked now b → bundle_detectors b = Ok dets → Forall ok dets.
Proof.
  intros Hv H. unfold bundle_detectors in H. inv_result. destruct x as [ds sources].
  match goal with Hg : gather _ _ _ _ = _ |- _ =>
    apply (gather_backed now) in Hg as [Hd Hs]; [|done|done|constructor|constructor] end.
  destruct sources as [|r rs]; inv_result; subst; [done|]. apply Forall_app. split; [done|]. apply Forall_singleton.
  by eapply bundle_rules.
Qed.
Lemma accepted_backed opts st ds l bs dets :
  accepted opts st ds (revoke_each l (revoke_each revoked ks)) bs dets → Forall ok dets.
Proof.
  intros [_ _ Hv _ (dss & Hd & ->)]. apply Forall_concat. apply Forall_forall. intros x [n Hn]%list_elem_of_lookup.
  destruct (Forall2_lookup_r _ _ _ _ _ Hd Hn) as (b & Hb & Hx). apply Hv, vouched_revoked, vouched_revoked in Hb.
  eapply bundle_detectors_backed; [|done]. eapply vouched_fewer; [exact Hb|]. intros r Hr. apply elem_of_app. by left.
Qed.

(** *** Single files *)

Lemma load_signed t s p max l s' : Content.keys t = revoke_each revoked ks →
  unsigned = bool_decide (policy t = AllowUnsigned) → load t p max s = Return l s' →
  signed ks revoked unsigned (loaded_data l) (signer l).
Proof.
  intros Hk -> H. unfold load in H. apply bind_Return in H as (now & s1 & _ & H).
  apply lift_Return in H as [H _]. apply map_err_Ok in H. rewrite Hk in H.
  apply TrustProps.load_content_authentic in H as [_ H]. unfold signed. destruct (signer l) as [i|].
  - destruct H as [Ht (bs & text & c & _ & _ & [Ha Hu]%authentic_revoked)]. rewrite revoke_each_threshold in Ht.
    by split_and!; [..|exists now, text, c].
  - destruct H as [-> _]. by apply bool_decide_eq_true_2.
Qed.

Lemma load_databases_backed t ps dets s dets' s' : Content.keys t = revoke_each revoked ks →
  unsigned = bool_decide (policy t = AllowUnsigned) → load_databases t ps dets s = Return dets' s' →
  Forall ok dets → Forall ok dets'.
Proof.
  intros Hk Hu. revert dets s. induction ps as [|p ps IH]; intros dets s H Hd; simpl in H.
  { by injection H as <- <-. }
  apply bind_Return in H as (d & s1 & Hl & H). eapply IH; [exact H|]. apply Forall_app. split; [done|].
  apply Forall_singleton. unfold load_hash_db in Hl. apply bind_Return in Hl as (l & s2 & Hl & Hdb).
  apply bind_Return in Hdb as (db & s3 & [Hdb _]%lift_Return & Hr). apply map_err_Ok in Hdb. injection Hr as <- _.
  eapply file_database; [|done]. by eapply load_signed.
Qed.

Lemma load_sources_signed t fs total (read : list (bytes * option KeyId)) sources s sg rs s' :
  Content.keys t = revoke_each revoked ks → unsigned = bool_decide (policy t = AllowUnsigned) →
  let good := Forall2 (λ l r, signed ks revoked unsigned l.1 l.2 ∧ from_utf8 l.1 = Some (Yara.text r)) in
  good read sources → load_sources t fs total read.*2 sources s = Return (sg, rs) s' →
  ∃ read', sg = read'.*2 ∧ good read' rs.
Proof.
  intros Hk Hu good. revert total read sources s. induction fs as [|f fs IH]; intros total read sources s Hg H; simpl in H.
  { injection H as <- <- _. by exists read. }
  apply bind_Return in H as (l & s1 & Hl & H). apply bind_Return in H as (u & s2 & [_ ->]%lift_Return & H).
  apply bind_Return in H as (t' & s3 & [Ht ->]%lift_Return & H). apply ok_or_Ok in Ht.
  change [signer l] with [(loaded_data l, signer l)].*2 in H. rewrite <-fmap_app in H.
  eapply IH; [|exact H]. apply Forall2_app; [done|]. constructor; [|constructor]. split; [|done].
  by eapply load_signed.
Qed.
Lemma load_yara_backed t ps s d s' : Content.keys t = revoke_each revoked ks →
  unsigned = bool_decide (policy t = AllowUnsigned) → load_yara ps t s = Return d s' → ok (Rules d).
Proof.
  intros Hk Hu H. unfold load_yara in H. apply bind_Return in H as (fs & s1 & _ & H).
  apply bind_Return in H as ([sg rs] & s2 & H & Hc). apply lift_Return in Hc as [Hc _]. apply map_err_Ok in Hc.
  apply (load_sources_signed _ _ _ []) in H as (read & -> & Hg); [|done|done|constructor].
  by eapply file_rules.
Qed.
End Backed.

(** *** The whole *)

Lemma added_steps {A} (r : result TrustError A * TrustedKeys) ks ks' :
  rtc step ks r.2 → added r = Ok ks' → rtc step ks ks'.
Proof. destruct r as [[|] k]; simpl; [|done]. by intros ? [= <-]. Qed.
Lemma add_each_steps {A} (add : path → TrustedKeys → result TrustError A * TrustedKeys) ps ks ks' :
  (∀ p ks, rtc step ks (add p ks).2) → add_each add ps ks = Ok ks' → rtc step ks ks'.
Proof.
  intros Ha. revert ks. induction ps as [|p ps IH]; intros ks H; simpl in H; inv_result; [by subst|].
  etrans; [by eapply added_steps|by apply IH].
Qed.
Lemma add_keyring_file_steps p ks : rtc step ks (add_keyring_file files p ks).2.
Proof. unfold add_keyring_file. destruct (read_bounded _ _ _); [apply rtc_once, step_keyring|done]. Qed.
Lemma add_key_file_steps p ks : rtc step ks (add_key_file files p ks).2.
Proof. unfold add_key_file. destruct (_ ≫= _); [apply rtc_once, step_key|done]. Qed.

(** The trusted keys come from the keyrings and key files only. *)
Lemma from_args_steps a t : from_args a = Ok t →
  rtc step new (Content.keys t) ∧ policy t = if allow_unsigned a then AllowUnsigned else RequireTrusted.
Proof.
  unfold from_args. intros H. inv_result. subst. simpl. split; [|done].
  match goal with H : add_each (add_keyring_file _) _ _ = _ |- _ =>
    apply add_each_steps in H; [etrans; [|exact H]|apply add_keyring_file_steps] end.
  match goal with H : match keep_if ?f ?o with _ => _ end = _ |- _ => transitivity x0; [|destruct (keep_if f o)] end.
  - match goal with H : add_each (add_key_file _) _ _ = _ |- _ =>
      apply add_each_steps in H; [etrans; [|exact H]|apply add_key_file_steps] end.
    destruct (no_builtin_keyring a); inv_result; [by subst|]. eapply added_steps; [|done]. apply rtc_once, step_keyring.
  - eapply added_steps; [|done]. apply add_keyring_file_steps.
  - inv_result. by subst.
Qed.

Lemma load_bundles_accepted a t r s dets infos s' : load_bundles a t r s = Return (dets, infos) s' →
  dets = [] ∨ ∃ opts st ds bs, accepted opts st ds (revoke_each (State.revoked_list st) (Content.keys t)) bs dets.
Proof.
  intros H. unfold load_bundles in H. apply bind_Return in H as (ds & s1 & _ & H).
  case_bool_decide; [injection H as <- _ _; by left|]. right.
  apply bind_Return in H as (p & s2 & _ & H). destruct (locate p) as [d n].
  apply bind_Return in H as (st & s3 & _ & H). apply bind_Return in H as (now & s4 & _ & H).
  apply bind_Return in H as ([bs ds'] & s5 & [Ha _]%lift_Return & H).
  apply bind_Return in H as (u & s6 & _ & H). injection H as <- _ _.
  apply accept_each_accepted in Ha as (bs' & dets' & -> & -> & Ha & _). eauto 10.
Qed.
End Accepting.
End ContentLaws.

(** ** Properties *)
Module ContentProps.
Import Trust Disk Content ContentLaws.

Section Props.
Context `{HO : Host, MS : Minisign, ST : StdText, TT : TimeText, SH : Sha256, YX : YaraLib.YaraX}.
Context `{JK : Json KeyringFile, JM : Json Bundle.Manifest, JH : Json Signatures.Header, JR : Json Signatures.RawDatabase}.
Context `{JS : Json State.StateFile, JP : JsonPretty State.StateFile}.

(** C15: every detector of a scan comes from content that was vouched for.
    When [load_detectors] returns, the trusted keys were built from keyrings,
    key files and the built-in keyring only, and each detector was parsed or
    compiled from the files of a bundle whose manifest at least the threshold
    of distinct keys signed within their windows, or from octets that one key
    signed where one is enough, or from unsigned files if these were allowed;
    and no key the content state records as revoked counted for any of it. *)
Theorem scan_content_authentic sigs yara targs bargs s dets infos s'
    (H : load_detectors sigs yara targs bargs s = Return (dets, infos) s') :
  ∃ t revoked, from_args targs = Ok t ∧ rtc step new (Content.keys t) ∧
    match state_path bargs with
    | Some p => ∃ s1, State.read_revoked_keys p (locate p).1 (locate p).2 s = Return revoked s1
    | None => revoked = []
    end ∧
    Forall (backed (Content.keys t) revoked (allow_unsigned targs)) dets.
Proof.
  unfold load_detectors in H. apply bind_Return in H as (t & s1 & [Ht ->]%lift_Return & H).
  destruct (from_args_steps _ _ Ht) as [Hst Hpol]. apply bind_Return in H as (t' & s2 & Hrev & H).
  assert (∃ revoked, Content.keys t' = revoke_each revoked (Content.keys t) ∧ policy t' = policy t ∧
    match state_path bargs with
    | Some p => ∃ s1, State.read_revoked_keys p (locate p).1 (locate p).2 s = Return revoked s1
    | None => revoked = []
    end) as (revoked & Hk & Hp & Hr).
  { destruct (state_path bargs) as [p|]; [|injection Hrev as <- _; by exists []].
    unfold apply_recorded_revocations in Hrev. destruct (locate p) as [d n] eqn:El.
    apply bind_Return in Hrev as (ids & s3 & Hw & Hrev). injection Hrev as <- _. exists ids. split_and!; [done..|].
    unfold wrap in Hw. destruct (State.read_revoked_keys _ _ _ _) eqn:E; [|done..]. injection Hw as -> ->. by eexists. }
  exists t, revoked. split_and!; [done..|].
  assert (allow_unsigned targs = bool_decide (policy t' = AllowUnsigned)) as Hu.
  { rewrite Hp, Hpol. by destruct (allow_unsigned targs). }
  apply bind_Return in H as ([ds is'] & s3 & Hb & H). apply bind_Return in H as (ds2 & s4 & Hd & H).
  apply bind_Return in H as (ds3 & s5 & Hy & H). injection H as <- _ _.
  apply load_databases_backed with (ks := Content.keys t) (revoked := revoked) (unsigned := allow_unsigned targs) in Hd;
    [|done|done|].
  - destruct (bool_decide (yara = [])); [by injection Hy as <- _|]. apply bind_Return in Hy as (y & s6 & Hl & Hy). injection Hy as <- _.
    apply Forall_app. split; [done|]. apply Forall_singleton. by eapply load_yara_backed.
  - apply load_bundles_accepted in Hb as [->|(opts & st & dl & bs & Ha)]; [constructor|].
    rewrite Hk in Ha. by eapply accepted_backed.
Qed.

(** C29: bundles are accepted and recorded as one. From any disk that holds a
    content state, and whatever call fails or loses power: when
    [load_bundles] returns, every named bundle was accepted under the recorded
    state, under one name each and under keys without those that the state or
    an earlier bundle revokes; recording them is a history of that state, so
    the no-rollback theorem covers it, and the state file holds the result.
    After an error or a loss of power the file is the old one, or, once all
    bundles were accepted, the old or the new one, whole. *)
Theorem bundles_recorded_as_one p d n c a t enc (s : state unit)
    (Henc : ∀ st, to_vec_pretty st = Ok (enc st)) (Hp : state_path a = Some p) (Hl : locate p = (d, n))
    (Hold : State.is_file d n c (fs s)) (Hapart : State.apart d n (fs s)) :
  match load_bundles a t true s with
  | Return r s' => loaded p d n c a t enc r (fs s')
  | Throw _ s' => failed d n c a t enc (State.one_of d n c) (fs s')
  | Lost f => failed d n c a t enc (State.settled d n c) f
  end.
Proof.
  assert (self s = tt) as Hs by by destruct (self s).
  pose proof (load_bundles_triple p d n c a t enc Henc Hp Hl s (conj Hs (conj Hold Hapart))) as H.
  destruct (load_bundles a t true s); [by destruct H|by destruct H|done].
Qed.
End Props.

(** ** Instances *)
Section Samples.
#[local] Existing Instances toy_text toy_time Toy.sha TrustProps.toy_minisign TrustProps.toy_rings YaraProps.toy_yara
  SignatureProps.header_json SignatureProps.raw_json.

(** A bundle signed by key A that revokes key A. *)
Definition rule_text : bytes := as_bytes "Dropper".
Definition rule_sha : Sha256Digest := Eval vm_compute in Toy.digest rule_text.
Definition manifest_sha : Sha256Digest := Eval vm_compute in Toy.digest [1].
Definition parting : Bundle.Manifest :=
  Bundle.mkManifest Bundle.MANIFEST_FORMAT 1 "official" 7 10%Z 100%Z
    [Bundle.mkFile "rules/a.yar" Bundle.YaraRules 7 rule_sha] [TrustProps.id_a_text].
#[local] Instance toy_manifests : Json Bundle.Manifest := {|
  to_vec _ := Err "not written"%string;
  from_slice bs := if bool_decide (bs = [1]) then Ok parting else Err "no such manifest"%string |}.

(** Key A also signed the database db.json. *)
Definition sample_files : Files := λ p,
  let sealed bs := Ok (mkSource (as_bytes TrustProps.key_a ++ bs) None) in
  if bool_decide (p = "a.pub"%string) then Ok (mkSource (as_bytes TrustProps.key_a) None)
  else if bool_decide (p = "c/manifest.json"%string) then Ok (mkSource [1] None)
  else if bool_decide (p = "c/manifest.json.minisig"%string) then sealed [1]
  else if bool_decide (p = "db.json"%string) then Ok (mkSource [4] None)
  else if bool_decide (p = "db.json.minisig"%string) then sealed [4]
  else Err (Os 2).
#[local] Instance toy_host : Host := {|
  files := sample_files;
  open_dir _ := Ok (λ p, if bool_decide (p = "rules/a.yar"%string) then Ok (rule_text, None) else Err "missing"%string);
  is_file _ := false;
  is_dir _ := false;
  read_dir _ := Err (Os 2);
  var _ := None;
  euid := 0;
  BUILTIN_KEYRING := [];
  locate _ := (0, "state.json"%string);
  created _ := Ok tt;
  locked _ := Ok tt |}.

Definition sample_bundle : Bundle.VerifiedBundle :=
  Bundle.mkVerified "c" parting manifest_sha [TrustProps.id_a] false
    [Bundle.mkBundleFile "rules/a.yar" Bundle.YaraRules rule_text].
Definition recorded : State.StateFile := Eval vm_compute in State.record sample_bundle 50 State.fresh_state.
Definition enc (st : State.StateFile) : bytes := if bool_decide (st = recorded) then [7] else [0].
#[local] Instance toy_states : Json State.StateFile := {|
  to_vec st := Ok (enc st);
  from_slice bs := if bool_decide (bs = [7]) then Ok recorded else Err "no such state"%string |}.
#[local] Instance toy_states_pretty : JsonPretty State.StateFile := λ st, Ok (enc st).

Definition trust_a : TrustArgs := mkTrustArgs ["a.pub"%string] [] true false.
Definition official : BundleArgs := mkBundleArgs ["c"%string] false None false (Some "/s/state.json"%string).
Definition start : state unit := Disk.mkState tt (mkFs ∅ ∅ ∅) [] [50; 50; 60; 60]%Z [] [] [] [].
Definition first_run : outcome unit LoadError (list Detector * list BundleInfo) :=
  load_detectors ["db.json"%string] [] trust_a official start.

Lemma scan_content_authentic_witness :
  match first_run with
  | Return (dets, _) _ => length dets = 2%nat ∧
      ∃ t revoked, from_args trust_a = Ok t ∧ rtc step new (Content.keys t) ∧
        (∃ s1, State.read_revoked_keys "/s/state.json" 0 "state.json" start = Return revoked s1) ∧
        Forall (backed (Content.keys t) revoked false) dets
  | _ => False
  end.
Proof.
  assert (Hn : match first_run with Return (dets, _) _ => length dets = 2%nat | _ => False end) by by vm_compute.
  destruct first_run as [[dets infos] s'|e s'|f] eqn:E; [|destruct Hn..]. split; [exact Hn|].
  exact (scan_content_authentic ["db.json"%string] [] trust_a official start dets infos s' E).
Defined.

Definition trust_of_a : Content.Trust := mkTrust TrustProps.with_a RequireTrusted.
Lemma bundles_recorded_as_one_witness :
  match load_bundles official trust_of_a true start with
  | Return r s' => loaded "/s/state.json" 0 "state.json" None official trust_of_a enc r (fs s') ∧ length r.1 = 1%nat
  | _ => False
  end.
Proof.
  pose proof (bundles_recorded_as_one "/s/state.json" 0 "state.json" None official trust_of_a enc start
    (λ st, eq_refl) eq_refl eq_refl (conj eq_refl eq_refl)) as H.
  assert (Hn : match load_bundles official trust_of_a true start with
               | Return r _ => length r.1 = 1%nat
               | _ => False
               end) by by vm_compute.
  destruct (load_bundles _ _ _ _) as [r s'|e s'|f]; [|destruct Hn..]. split; [|exact Hn]. apply H. by intros i [=].
Defined.

(** The next run refuses the database that the first one loaded: the
    revocation in the bundle it had accepted reached single files too late. *)
Theorem revocation_reaches_files_late :
  match first_run with
  | Return (dets, _) s1 =>
      existsb (λ d, match d with HashDb _ => true | Rules _ => false end) dets = true ∧
      match load_detectors ["db.json"%string] [] trust_a (mkBundleArgs [] false None false (content_state official)) s1 with
      | Throw e _ => e = TrustErr (KeyRevoked "db.json" TrustProps.id_a_text)
      | _ => False
      end
  | _ => False
  end.
Proof. vm_compute. by split. Qed.
End Samples.
End ContentProps.
