(* ===== verification/ScanCommand.v ===== *)
(** * The scan and quarantine commands

    cli/src/main.rs ([parse_size], the configuration and the course of
    [run_scan], the exit code) and cli/src/quarantine.rs, over the operations
    of the quarantine store. Argument parsing, what is printed, the progress
    line and the handler of interrupts are left out. *)

From S2P Require Import Prelude Utf8 Paths Core External AuditLog Remediation Trust Bundle Disk ContentState Fsio Archive Scanner Signatures Yara LoadContent Ipc ServiceConfig Jobs Chars YaraProps LoadContentProps.

Module ScanCommand.
Import Content.

Definition EXIT_FINDINGS : N := 1.
Definition EXIT_ERROR : N := 2.
Definition EXIT_INCOMPLETE : N := 3.
Definition EXIT_CANCELLED : N := 130.

(** ** Sizes *)
Definition is_ascii_alphabetic (c : N) : bool := ((65 <=? c) && (c <=? 90)) || ((97 <=? c) && (c <=? 122)).
Definition multiplier (c : N) : option N :=
  let c := if (97 <=? c) && (c <=? 122) then c - 32 else c in
  if c =? 75 then Some (2 ^ 10)
  else if c =? 77 then Some (2 ^ 20)
  else if c =? 71 then Some (2 ^ 30)
  else if c =? 84 then Some (2 ^ 40)
  else None.

Definition parse_size (text : string) : result string N :=
  let s := trim (chars text) in
  let shown := of_chars s in
  '(digits, m) ← match last s with
                 | Some c =>
                     if is_ascii_alphabetic c then
                       m ← ok_or (multiplier c) (fmt "unknown size suffix `{c}` (use K, M, G or T)" [of_chars [c]]);
                       Ok (removelast s, m)
                     else Ok (s, 1)
                 | None => Ok (s, 1)
                 end;
  n ← ok_or (parse_u64 digits) (fmt "`{s}` is not a size (e.g. 4096, 64K, 512M, 2G)" [shown]);
  bytes ← ok_or (if n * m <=? u64_max then Some (n * m) else None) (fmt "`{s}` is too large" [shown]);
  _ ← reject_if (bytes =? 0) "size must be greater than zero"%string;
  Ok bytes.

(** ** Arguments of [scan] *)
Record ScanArgs := mkScanArgs {
  paths : list path;
  signatures : list path;
  yara : list path;
  trust : TrustArgs;
  bundles : BundleArgs;
  follow_symlinks : bool;
  max_file_size : N;
  max_content_size : N;
  file_timeout : N;
  no_archives : bool;
  archive_max_depth : N;
  archive_max_total : N;
  scan_timeout : option N;
  max_depth : N;
  threads : option N;
  excludes : list path;
  no_default_excludes : bool;
  one_file_system : bool;
  quarantine : bool;
  kill_processes : bool;
  no_allowlist : bool;
  heuristics : bool }.

Section Command.
Context `{HO : Host, MS : Minisign, ST : StdText, TT : TimeText, SH : Sha256, YX : YaraLib.YaraX}.
Context `{JK : Json Trust.KeyringFile, JM : Json Bundle.Manifest, JH : Json Signatures.Header, JR : Json Signatures.RawDatabase}.
Context `{JS : Json State.StateFile, JP : JsonPretty State.StateFile}.
Context {Q : Type} `{QO : Jobs.QuarantineOps Q}.
(** [std::path::absolute], the number of processors, [Scanner::scan] of a
    validated configuration, the clock, the rendered dates and errors, the
    location of the quarantine store, how the report is rendered and written. *)
Context (absolute : path → result IoError path) (parallelism : option N)
  (scan : Config.ScanConfig → list Detector → bool → result string Report.ScanReport)
  (now : Z) (show_date : Z → string) (err_text : Record.RemediationError → string)
  (store_path : result string path)
  (render : Report.ScanReport → list BundleInfo → result string bytes) (written : bytes → result IoError unit).

Definition default_excludes (roots : list path) : list path :=
  List.filter (λ ex, negb (existsb (λ r, match absolute r with Ok p => path_starts_with p ex | Err _ => false end) roots))
    ["/proc"; "/sys"]%string.

(** The configuration [run_scan] builds. *)
Definition config_for (a : ScanArgs) : Config.ScanConfig :=
  let c := Config.new (paths a) parallelism in
  let l := Config.limits c in
  let ar := Config.archives l in
  Config.mkScanConfig (Config.roots c)
    (excludes a ++ (if no_default_excludes a then [] else default_excludes (paths a)))
    (if follow_symlinks a then Config.Follow else Config.Skip)
    (one_file_system a)
    (Config.mkScanLimits (max_file_size a) (max_depth a) (Config.max_recorded_entries l)
       (Config.max_recorded_findings l) (max_content_size a) (file_timeout a * 1000)
       ((λ s, s * 1000) <$> scan_timeout a)
       (Config.mkArchiveLimits (negb (no_archives a)) (archive_max_depth a) (Config.max_entries ar)
          (archive_max_total a) (Config.max_member_content ar)))
    (default (Config.workers c) (threads a)).

(** ** The report *)
Definition FILES_WARNING : string :=
  "Content loaded from individually signed files (--signatures/--yara) has no rollback or expiry protection; prefer signed content bundles (--content).".
Definition bundle_warning (b : BundleInfo) : option string :=
  let expires := default ""%string (rfc3339 (info_expires b)) in
  if info_expired b then
    Some (fmt "Content bundle {:?} (sequence {}) expired at {expires} and was used only because --allow-expired was given; detection may be out of date."
            [debug_str (info_name b); show_N (info_sequence b); expires])
  else if (info_expires b - now <? dur_days 7)%Z then
    Some (fmt "Content bundle {:?} expires at {expires}; update it soon." [debug_str (info_name b); expires])
  else None.
Definition content_warnings (sigs ys : list path) (infos : list BundleInfo) (r : Report.ScanReport) : Report.ScanReport :=
  let r := if negb (bool_decide (sigs = [])) || negb (bool_decide (ys = []))
           then Report.push_warning r FILES_WARNING else r in
  foldl Report.push_warning r (omap bundle_warning infos).

Definition exit_code (r : Report.ScanReport) : N :=
  if bool_decide (Report.status r = Report.Cancelled) then EXIT_CANCELLED
  else if existsb (λ f, negb (bool_decide (Finding.remediation_status f = Finding.Allowed))) (Report.findings r)
          || (0 <? Report.findings_omitted (Report.truncated r)) then EXIT_FINDINGS
  else if negb (Report.is_complete r) then EXIT_INCOMPLETE
  else 0.

(** ** Quarantine *)

(** [open_store]; what was recovered is printed. *)
Definition open_store (q : Q) : result string unit * Q :=
  match store_path with Err e => (Err e, q) | Ok _ => Jobs.q_open None q end.

Definition apply_allowlist (r : Report.ScanReport) (q : Q) : result string Report.ScanReport :=
  match store_path with
  | Err _ => Ok r
  | Ok _ => es ← Jobs.q_allowlist q; Ok (Remediation.Policy.mark_allowed show_date r es).1
  end.

(** [remediate_report]: the store is opened when a finding is eligible. *)
Definition remediate_report (max : N) (kill : bool) (r : Report.ScanReport) (q : Q) : Report.ScanReport * Q :=
  let '(o, q1) := open_store q in
  let '(r, _, store) :=
    Remediation.Policy.quarantine_report Jobs.q_quarantine err_text max kill r (map_ok (λ _, q1) o) in
  (r, match store with Some (Ok q) => q | Some (Err _) => q1 | None => q end).

(** ** [run_scan] *)

(** The exit code, the report that was written with its bundles, the store;
    or the loss of power. *)
Inductive ended :=
  | Exit (code : N) (report : option (Report.ScanReport * list BundleInfo)) (q : Q)
  | PowerLost.

Definition run_scan (a : ScanArgs) (s : Disk.state unit) (q : Q) : ended :=
  match load_detectors (signatures a) (yara a) (trust a) (bundles a) s with
  | Disk.Lost _ => PowerLost
  | Disk.Throw _ _ => Exit EXIT_ERROR None q
  | Disk.Return (dets, infos) _ =>
      match (_ ← map_err (λ _, ""%string) (Config.validate (config_for a));
             r ← scan (config_for a) dets (heuristics a);
             let r := content_warnings (signatures a) (yara a) infos r in
             if no_allowlist a then Ok r else apply_allowlist r q) with
      | Err _ => Exit EXIT_ERROR None q
      | Ok r =>
          let '(r, q) := if quarantine a && bool_decide (Report.status r = Report.Completed)
                         then remediate_report (max_file_size a) (kill_processes a) r q else (r, q) in
          match (bs ← render r infos; map_err (λ _, ""%string) (written bs)) with
          | Err _ => Exit EXIT_ERROR None q
          | Ok _ => Exit (exit_code r) (Some (r, infos)) q
          end
      end
  end.
End Command.

(** ** The quarantine command *)

(** The store's operations, errors as texts. *)
Class StoreCommands (Q : Type) := {
  c_quarantine : Remediation.Policy.QuarantineRequest → Q → result string Record.QuarantineRecord * Q;
  c_list : Q → result string (list Record.QuarantineRecord) * Q;
  c_get : Record.QuarantineId → Q → result string Record.QuarantineRecord * Q;
  c_restore : Record.QuarantineId → option path → Q → result string path * Q;
  c_allow : Sha256Digest → string → option Record.QuarantineId → option string → Q → result string unit * Q;
  c_delete : Record.QuarantineId → Q → result string unit * Q;
  c_verify_audit_log : Q → result string N * Q;
  c_allowlist : Q → result string (list Remediation.Allow.AllowEntry) * Q;
  c_disallow : Sha256Digest → Q → result string bool * Q }.

Inductive QuarantineCommand :=
  | Add (p : path) (sha256 : option Sha256Digest) (note : option string) (allow_protected : bool) (max : N) (kill : bool)
  | List
  | Show (id : string)
  | Restore (id : string) (to : option path) (yes no_allow : bool)
  | Delete (id : string) (yes : bool)
  | VerifyLog
  | AllowList
  | AllowRemove (sha256 : Sha256Digest).

Section Quarantine.
Context {Q : Type} `{SC : StoreCommands Q, ST : StdText}.
Context (absolute : path → result string path) (open : Q → result string unit * Q)
  (to_json : Record.QuarantineRecord → result string string).

Definition R (A : Type) : Type := Q → result string A * Q.
Definition and_then {A B} (m : R A) (k : A → R B) : R B := λ q,
  match m q with (Ok a, q) => k a q | (Err e, q) => (Err e, q) end.
Definition pure {A} (r : result string A) : R A := λ q, (r, q).
#[local] Notation "x <- m ; k" := (and_then m (λ x, k)) (at level 90, m at level 60, k at level 200, right associativity).

Definition parse_id (id : string) : result string Record.QuarantineId :=
  map_err ErrorText.err_text (Record.parse_id id).

(** [run_inner], without what it prints. *)
Definition run_inner (c : QuarantineCommand) : R unit :=
  match c with
  | Add p sha note protected max kill =>
      _ <- open; p <- pure (absolute p);
      _ <- c_quarantine (Remediation.Policy.mkRequest p sha (Record.mkReason None None None None None note) max protected kill);
      pure (Ok tt)
  | List => _ <- open; _ <- c_list; pure (Ok tt)
  | Show id => _ <- open; id <- pure (parse_id id); rec <- c_get id; _ <- pure (to_json rec); pure (Ok tt)
  | Restore id to yes no_allow =>
      if negb yes
      then pure (Err "restoring puts a detected file back on disk; re-run with --yes to confirm"%string)
      else
        _ <- open; id <- pure (parse_id id);
        to <- pure (match to with Some d => d ← absolute d; Ok (Some d) | None => Ok None end);
        _ <- c_restore id to;
        rec <- c_get id;
        if no_allow then pure (Ok tt)
        else c_allow (Record.sha256 (Record.original rec)) "restored from quarantine" (Some id)
               (Record.detection_name (Record.reason rec))
  | Delete id yes =>
      if negb yes then pure (Err "deletion is permanent; re-run with --yes to confirm"%string)
      else _ <- open; id <- pure (parse_id id); c_delete id
  | VerifyLog => _ <- open; _ <- c_verify_audit_log; pure (Ok tt)
  | AllowList => _ <- open; _ <- c_allowlist; pure (Ok tt)
  | AllowRemove sha =>
      _ <- open; found <- c_disallow sha;
      if (found : bool) then pure (Ok tt) else pure (Err (fmt "{sha256} is not on the allow-list" [Digest.to_hex sha]))
  end.

(** [run]: the exit code. *)
Definition run (c : QuarantineCommand) (q : Q) : N * Q :=
  match run_inner c q with (Ok _, q) => (0, q) | (Err _, q) => (EXIT_ERROR, q) end.
End Quarantine.
End ScanCommand.

(** ** Properties *)
Module ScanCommandLaws.
Import ScanCommand.

(** The same detection: only what became of it may differ. *)
Definition same (f f' : Finding) : Prop := ∃ st d, f' = Finding.set_remediation st d f.
#[export] Instance same_preorder : PreOrder same.
Proof.
  split.
  - intros []. by eexists _, _.
  - intros f ? ? (st & d & ->) (st' & d' & ->). by exists st', d'.
Qed.
Lemma Forall2_same l : Forall2 same l l.
Proof. by apply Forall_Forall2_diag, Forall_true. Qed.

(** A report of the same scan: its counts and its detections. *)
Record same_scan (r r' : Report.ScanReport) : Prop := {
  ss_status : Report.status r' = Report.status r;
  ss_stats : Report.stats r' = Report.stats r;
  ss_truncated : Report.truncated r' = Report.truncated r;
  ss_findings : Forall2 same (Report.findings r) (Report.findings r') }.
#[export] Instance same_scan_preorder : PreOrder same_scan.
Proof.
  split.
  - intros r. split; [done..|apply Forall2_same].
  - intros a b c [] []. split; [congruence..|]. by etrans.
Qed.
Lemma set_findings_same r fs : Forall2 same (Report.findings r) fs → same_scan r (Report.set_findings r fs).
Proof. by split. Qed.
Lemma push_warning_same r w : same_scan r (Report.push_warning r w).
Proof. split; [done..|apply Forall2_same]. Qed.
Lemma push_warnings_same r ws : same_scan r (foldl Report.push_warning r ws).
Proof. revert r. induction ws as [|w ws IH]; intros r; simpl; [done|]. etrans; [apply push_warning_same|apply IH]. Qed.

Lemma mark_allowed_same sd r es : same_scan r (Remediation.Policy.mark_allowed sd r es).1.
Proof.
  apply set_findings_same. apply Forall2_fmap_r, Forall2_fmap_r, Forall_Forall2_diag, Forall_true. intros f.
  change (same f (Remediation.Policy.mark_one sd es f).1). unfold Remediation.Policy.mark_one. destruct (Finding.target_sha256 (Finding.target f)) as [sha|]; simpl; [|reflexivity].
  destruct (base.filter _ _); simpl; [reflexivity|by eexists _, _].
Qed.

Section Reporting.
Context {S : Type} (qn : S → Remediation.Policy.QuarantineRequest → result Record.RemediationError Record.QuarantineRecord * S)
  (show_err : Record.RemediationError → string) (max : N) (kill : bool).
Import Remediation.Policy.

Lemma report_one_same f st : same f (report_one qn show_err max kill f st).1.1.
Proof.
  unfold report_one. case_bool_decide; [reflexivity|]. destruct (auto_quarantine_target f) as [[p sha]|]; [|by eexists _, _].
  destruct (match st with Some (Ok _) => _ | Some (Err _) => _ | None => _ end) as [[] ?]; by eexists _, _.
Qed.
Lemma report_all_same fs st : Forall2 same fs (report_all qn show_err max kill fs st).1.1.
Proof.
  revert st. induction fs as [|f fs IH]; intros st; simpl; [constructor|].
  pose proof (report_one_same f st) as Hf. destruct (report_one _ _ _ _ f st) as [[f' e] st'].
  specialize (IH st'). destruct (report_all _ _ _ _ fs st') as [[fs' es] st'']. by constructor.
Qed.
Lemma quarantine_report_same r o : same_scan r (quarantine_report qn show_err max kill r o).1.1.
Proof.
  unfold quarantine_report. set (st := if existsb _ _ then _ else _).
  pose proof (report_all_same (Report.findings r) st) as H. destruct (report_all _ _ _ _ _ st) as [[fs es] st'].
  by apply set_findings_same.
Qed.
End Reporting.

(** What each exit code says of the report. *)
Definition unresolved (r : Report.ScanReport) : Prop :=
  Exists (λ f, Finding.remediation_status f ≠ Finding.Allowed) (Report.findings r) ∨
  0 < Report.findings_omitted (Report.truncated r).
Record explains (r : Report.ScanReport) (c : N) : Prop := {
  ex_clean : c = 0 ↔ Report.status r = Report.Completed ∧ Report.issues_count (Report.stats r) = 0 ∧ ¬ unresolved r;
  ex_findings : c = EXIT_FINDINGS ↔ Report.status r ≠ Report.Cancelled ∧ unresolved r;
  ex_incomplete : c = EXIT_INCOMPLETE ↔ Report.status r ≠ Report.Cancelled ∧ ¬ unresolved r ∧
    (Report.status r ≠ Report.Completed ∨ 0 < Report.issues_count (Report.stats r));
  ex_cancelled : c = EXIT_CANCELLED ↔ Report.status r = Report.Cancelled }.

Lemma unresolved_spec r :
  existsb (λ f, negb (bool_decide (Finding.remediation_status f = Finding.Allowed))) (Report.findings r)
    || (0 <? Report.findings_omitted (Report.truncated r)) = true ↔ unresolved r.
Proof.
  unfold unresolved. rewrite orb_true_iff, N.ltb_lt, existsb_true, Exists_exists.
  setoid_rewrite negb_true_iff. setoid_rewrite bool_decide_eq_false. done.
Qed.

Lemma exit_code_explains r : explains r (exit_code r).
Proof.
  pose proof (unresolved_spec r) as Hu. unfold exit_code, Report.is_complete. revert Hu.
  generalize (existsb (λ f, negb (bool_decide (Finding.remediation_status f = Finding.Allowed))) (Report.findings r)
    || (0 <? Report.findings_omitted (Report.truncated r))). intros b Hu.
  assert (b = false ↔ ¬ unresolved r) as Hn by (rewrite <-Hu; by destruct b).
  unfold EXIT_CANCELLED, EXIT_FINDINGS, EXIT_INCOMPLETE in *.
  destruct (decide (Report.status r = Report.Cancelled)) as [Hs|Hs];
    [rewrite bool_decide_eq_true_2 by done|rewrite bool_decide_eq_false_2 by done];
    [split; rewrite ?Hs; naive_solver|].
  destruct b; [assert (unresolved r) by (by apply Hu); split; naive_solver|].
  assert (¬ unresolved r) by (by apply Hn). clear Hu Hn.
  destruct (decide (Report.status r = Report.Completed)) as [Hc|Hc];
    [rewrite (bool_decide_eq_true_2 (_ = Report.Completed)) by done|rewrite (bool_decide_eq_false_2 (_ = Report.Completed)) by done];
    simpl; [|split; naive_solver].
  destruct (N.eqb_spec (Report.issues_count (Report.stats r)) 0) as [Hz|Hz]; simpl; (split; [..|naive_solver]).
  - naive_solver.
  - naive_solver.
  - split; [done|]. intros (_ & _ & [?|?]); [done|lia].
  - naive_solver.
  - naive_solver.
  - split; [|done]. intros _. split_and!; [done..|]. right. lia.
Qed.

Lemma content_warnings_same `{ST : StdText, TT : TimeText} now sigs ys infos r : same_scan r (content_warnings now sigs ys infos r).
Proof. unfold content_warnings. etrans; [|apply push_warnings_same]. destruct (_ || _); [apply push_warning_same|reflexivity]. Qed.

(** ** Sizes *)
Definition UNITS : list (N * N) :=
  [(75, 2 ^ 10); (107, 2 ^ 10); (77, 2 ^ 20); (109, 2 ^ 20); (71, 2 ^ 30); (103, 2 ^ 30); (84, 2 ^ 40); (116, 2 ^ 40)].

Definition plain (l : list N) : Prop := Forall (λ d, is_ascii_digit d = true ∨ is_ascii_alphabetic d = true) l.
Lemma digits_trimmed l : Forall (λ d, is_ascii_digit d = true ∨ is_ascii_alphabetic d = true) l → Chars.trimmed l.
Proof.
  intros Hd. rewrite Forall_forall in Hd.
  assert (∀ c, c ∈ l → is_whitespace c = false) as Hw.
  { intros c [Hc|Hc]%Hd; unfold is_ascii_digit, is_ascii_alphabetic, is_whitespace in *; lia. }
  split; intros c Hc; apply Hw; [by destruct l; [|injection Hc as ->; left]|].
  by apply last_Some_elem_of.
Qed.
Lemma text_of_plain l : plain l → trim (chars (of_bytes l)) = l.
Proof.
  intros Hl. assert (Forall (λ c, c < 0x80) l) as Ha.
  { eapply Forall_impl; [exact Hl|]. intros c. unfold is_ascii_digit, is_ascii_alphabetic. lia. }
  assert (Forall is_byte l) as Hb by (eapply Forall_impl; [exact Ha|]; unfold is_byte; lia).
  rewrite Anchors.chars_ascii; rewrite as_of_bytes by done; [|done]. by apply Chars.trim_id, digits_trimmed.
Qed.
End ScanCommandLaws.

(** ** Properties *)
Module ScanCommandProps.
Import Content ScanCommand ScanCommandLaws.

(** A size that is accepted is at least one octet and fits 64 bits. *)
Theorem size_bounded text v (H : parse_size text = Ok v) : 1 ≤ v ≤ u64_max.
Proof.
  unfold parse_size in H. inv_result. destruct x as [digits m]. inv_result. subst.
  match goal with H : (if ?b then _ else _) = Some _ |- _ => destruct b eqn:E; [|done]; injection H as <- end.
  match goal with H : (_ =? 0) = false |- _ => apply N.eqb_neq in H end. apply N.leb_le in E. lia.
Qed.

(** Decimal digits, alone or with a suffix, are the number times the unit, if
    that fits 64 bits and is not zero. *)
Theorem size_round_trip n c m (Hc : (c, m) ∈ UNITS) (Hn : 0 < n * m ≤ u64_max) :
  parse_size (show_N n) = Ok n ∧ parse_size (show_N n +:+ of_bytes [c]) = Ok (n * m).
Proof.
  assert (n ≤ u64_max ∧ n ≠ 0 ∧ multiplier c = Some m ∧ is_ascii_alphabetic c = true ∧ c < 128) as (H1 & H2 & Hm & Ha & Hc').
  { unfold UNITS in Hc. rewrite !elem_of_cons, elem_of_nil in Hc.
    repeat match goal with H : _ ∨ _ |- _ => destruct H end; try done; simplify_eq; (split_and!; [lia|lia|done..]). }
  pose proof (dec_bytes_digits n) as Hd. pose proof (parse_u64_dec n H1) as Hp.
  assert (plain (dec_bytes n)) as Hpl by (eapply Forall_impl; [exact Hd|]; by left).
  assert (plain (dec_bytes n ++ [c])) as Hpc by (apply Forall_app; split; [done|]; apply Forall_singleton; by right).
  unfold show_N. rewrite <-of_bytes_app. unfold parse_size. rewrite !text_of_plain by done. split.
  - assert (∀ x, last (dec_bytes n) = Some x → is_ascii_alphabetic x = false) as Hl.
    { intros x Hx%last_Some_elem_of. rewrite Forall_forall in Hd. specialize (Hd x Hx).
      unfold is_ascii_digit, is_ascii_alphabetic in *. lia. }
    assert (n * 1 = n) as Hone by lia.
    destruct (last (dec_bytes n)) as [x|] eqn:El; [rewrite (Hl x) by done|]; csimpl; rewrite Hp; csimpl;
      rewrite Hone, (proj2 (N.leb_le _ _)) by lia; csimpl; by rewrite (proj2 (N.eqb_neq _ _)) by lia.
  - rewrite last_snoc, Ha, Hm. csimpl. rewrite removelast_last, Hp. csimpl.
    rewrite (proj2 (N.leb_le _ _)) by lia. csimpl. rewrite (proj2 (N.eqb_neq _ _)) by lia. done.
Qed.

(** A scan that left an encrypted member of an archive unread ends with the
    code of a clean one. *)
Theorem clean_exit_despite_skips : ∃ r,
  Report.skipped r ≠ [] ∧ Report.entries_skipped (Report.stats r) = 1 ∧ exit_code r = 0.
Proof.
  exists (Report.mkReport Report.Completed 4096
    (Report.mkStats 1 1 8 1 {[ Report.ArchiveMemberEncrypted := 1 ]} 0 0 0) []
    [Report.Build_SkippedEntry (ObservedPath.from_path "/srv/a.zip") Report.ArchiveMemberEncrypted None] []
    (Report.mkTrunc 0 0 0) []).
  by split_and!.
Qed.

Section Props.
Context `{HO : Host, MS : Minisign, ST : StdText, TT : TimeText, SH : Sha256, YX : YaraLib.YaraX}.
Context `{JK : Json Trust.KeyringFile, JM : Json Bundle.Manifest, JH : Json Signatures.Header, JR : Json Signatures.RawDatabase}.
Context `{JS : Json State.StateFile, JP : JsonPretty State.StateFile}.
Context {Q : Type} `{QO : Jobs.QuarantineOps Q}.
Context (absolute : path → result IoError path) (parallelism : option N)
  (scan : Config.ScanConfig → list Detector → bool → result string Report.ScanReport)
  (now : Z) (show_date : Z → string) (err_text : Record.RemediationError → string)
  (store_path : result string path)
  (render : Report.ScanReport → list BundleInfo → result string bytes) (written : bytes → result IoError unit).

(** C33: what the exit code of a scan says, exactly. Without a written report
    the code is 2. With one, all content loaded, the configuration was valid,
    and the report is that of the scan made with exactly those detectors: the
    same status, counts and detections in the same order, whatever was
    allow-listed or quarantined. The code is 0 just when the scan completed
    without an issue and no finding is unresolved or was left out, 1 just when
    one is and the scan was not cancelled, 3 just when there is none but the
    scan was stopped or met an issue, 130 just when it was cancelled. Entries
    that were skipped are no issues: they do not count, so that 0 does not say
    that every entry was processed ([clean_exit_despite_skips]). The quarantine
    store changed only if that was asked for and the scan completed. *)
Theorem exit_code_exact a s q c rep q'
    (H : run_scan absolute parallelism scan now show_date err_text store_path render written a s q = Exit c rep q') :
  match rep with
  | None => c = EXIT_ERROR
  | Some (r, infos) => ∃ dets s1 r0 bs,
      load_detectors (signatures a) (yara a) (trust a) (bundles a) s = Disk.Return (dets, infos) s1 ∧
      Config.valid (config_for absolute parallelism a) ∧
      scan (config_for absolute parallelism a) dets (heuristics a) = Ok r0 ∧
      same_scan r0 r ∧ explains r c ∧ render r infos = Ok bs ∧ written bs = Ok tt ∧
      (quarantine a = false ∨ Report.status r0 ≠ Report.Completed → q' = q)
  end.
Proof.
  unfold run_scan in H. destruct (load_detectors _ _ _ _ s) as [[dets infos] s1| |] eqn:Hl; [|by injection H as <- <- _|done].
  destruct (_ ≫= _) as [r1|] eqn:Hr; [|by injection H as <- <- _].
  apply result_bind_Ok in Hr as (u & Hv & Hr). apply map_err_Ok in Hv. destruct u. apply Config.validate_valid in Hv.
  apply result_bind_Ok in Hr as (r0 & Hs & Hr).
  assert (same_scan r0 r1) as H1.
  { etrans; [apply content_warnings_same|]. destruct (no_allowlist a); [by injection Hr as <-; reflexivity|].
    unfold apply_allowlist in Hr. destruct store_path; [|by injection Hr as <-; reflexivity].
    apply result_bind_Ok in Hr as (es & _ & Hr). injection Hr as <-. apply mark_allowed_same. }
  destruct (if quarantine a && _ then _ else _) as [r2 q2] eqn:Hq.
  assert (same_scan r1 r2 ∧ (quarantine a = false ∨ Report.status r0 ≠ Report.Completed → q2 = q)) as [H2 Hkeep].
  { destruct H1 as [Hst _ _ _]. destruct (quarantine a); simpl in Hq; [|injection Hq as <- <-; by split].
    rewrite Hst in Hq. case_bool_decide; [|injection Hq as <- <-; by split].
    unfold remediate_report in Hq. destruct (open_store _ q) as [o q1].
    pose proof (quarantine_report_same Jobs.q_quarantine err_text (max_file_size a) (kill_processes a) r1 (map_ok (λ _, q1) o)) as Hs2.
    destruct (Remediation.Policy.quarantine_report _ _ _ _ _ _) as [[r3 es] st]. injection Hq as <- <-.
    split; [done|]. by intros [|]. }
  destruct (_ ≫= _) as [u|] eqn:Hw; [|by injection H as <- <- _].
  apply result_bind_Ok in Hw as (bs & Hren & Hw). apply map_err_Ok in Hw. destruct u. injection H as <- <- <-.
  exists dets, s1, r0, bs. repeat (split; [done|]). split; [by etrans|]. split; [apply exit_code_explains|done].
Qed.
End Props.

(** ** Instances *)
Section Samples.
#[local] Existing Instances toy_text toy_time Toy.sha TrustProps.toy_minisign TrustProps.toy_rings YaraProps.toy_yara
  SignatureProps.header_json SignatureProps.raw_json ContentProps.toy_manifests ContentProps.toy_host
  ContentProps.toy_states ContentProps.toy_states_pretty.
(** A store that counts the requests it was given. *)
#[local] Instance counting_store : Jobs.QuarantineOps nat := {|
  Jobs.q_exists _ := true; Jobs.q_allowlist _ := Ok []; Jobs.q_open _ q := (Ok tt, q);
  Jobs.q_quarantine q _ := (Err Record.StoreBusy, S q); Jobs.q_list q := (Ok [], q);
  Jobs.q_get _ q := (Err "none"%string, q); Jobs.q_restore _ q := (Err "none"%string, q);
  Jobs.q_allow _ _ _ _ q := (Ok tt, q); Jobs.q_delete _ q := (Err "none"%string, q);
  Jobs.q_audit_chain _ := Ok [] |}.

Definition sample_args : ScanArgs :=
  mkScanArgs ["/srv"%string] ["db.json"%string] [] ContentProps.trust_a ContentProps.official false 4096 4096 60 false 3 4096
    None 32 (Some 2) [] false false true false true false.
(** A scan that found one listed file outside the protected directories. *)
Definition sample_found : Finding :=
  Finding.mk "1" Finding.KnownIndicator "Test.File" Finding.SHigh Finding.Confirmed Finding.Malware
    (Finding.File (ObservedPath.from_path "/srv/a") (Some (Toy.digest [1])) None)
    (Finding.Build_DetectionSource "hash-signatures" "0.1.0" None None None None) [] "" Finding.Quarantine None
    Finding.NotAttempted None 0.
Definition sample_report : Report.ScanReport :=
  Report.mkReport Report.Completed 4096 Report.default_stats [sample_found] [] [] (Report.mkTrunc 0 0 0) [].
Definition absolute_id (p : path) : result IoError path := Ok p.
Definition scan_once (_ : Config.ScanConfig) (_ : list Detector) (_ : bool) : result string Report.ScanReport := Ok sample_report.
Definition no_text (_ : Report.ScanReport) (_ : list BundleInfo) : result string bytes := Ok [].
Definition kept (_ : bytes) : result IoError unit := Ok tt.
Definition sample_run : ended :=
  run_scan absolute_id (Some 4) scan_once 50 (λ _, ""%string) (λ _, ""%string) (Ok "/q"%string) no_text kept sample_args
    ContentProps.start 0%nat.

(** The finding was handed to the store once, which was busy: the code is 1. *)
Lemma exit_code_exact_witness :
  match sample_run with
  | Exit c (Some (r, infos)) q => c = EXIT_FINDINGS ∧ q = 1%nat ∧ same_scan sample_report r ∧ explains r c
  | _ => False
  end.
Proof.
  assert (Hn : match sample_run with Exit c (Some _) q => c = EXIT_FINDINGS ∧ q = 1%nat | _ => False end)
    by (vm_compute; by split).
  destruct sample_run as [c [[r infos]|] q|] eqn:E; [|destruct Hn..]. destruct Hn as [Hc Hq]. split; [exact Hc|]. split; [exact Hq|].
  destruct (exit_code_exact absolute_id (Some 4) scan_once 50 (λ _, ""%string) (λ _, ""%string) (Ok "/q"%string)
    no_text kept sample_args ContentProps.start 0%nat c (Some (r, infos)) q E)
    as (dets & s1 & r0 & bs & _ & _ & Hs & Hsame & Hex & _).
  injection Hs as <-. split; [exact Hsame|exact Hex].
Defined.
End Samples.
End ScanCommandProps.
