(* ===== verification/Publish.v ===== *)
(** * Publishing content

    cli/src/content_cmd.rs and content_import.rs: writing the manifest of a
    bundle and the timestamp of an update channel, and turning hash lists and
    rule files of others into content. What is printed is left out; signing is
    not done by this program. *)

From S2P Require Import Prelude Utf8 Paths Core External Trust Bundle Disk ContentState Fsio Archive Scanner Signatures Heuristics Aggregate Chars Yara LoadContent.

Module Publish.

Inductive PublishError :=
  | Message (text : string)
  | ManifestErr (e : Bundle.BundleError)
  | TimestampErr (e : Freshness.FreshnessError).

(** What is found at a path of a directory: a file, a directory with its
    entries (or why they cannot be read), or anything else. An entry is a name
    with what it names, or why its type is not known. *)
Inductive tree :=
  | FileT
  | DirT (entries : result string (list (result string (string * result string tree))))
  | SpecialT.

Definition MAX_FILES : N := 10000.

(** [s.ends_with(t)] *)
Definition str_ends_with (s t : string) : bool :=
  bool_decide (drop (length (as_bytes s) - length (as_bytes t)) (as_bytes s) = as_bytes t).

(** [now.replace_nanosecond(0)] *)
Definition whole_seconds (now : Z) : Z := (now / nanos_per_sec * nanos_per_sec)%Z.
(** [i64::try_from] *)
Definition as_i64 (n : N) : result PublishError Z :=
  if n <? 2 ^ 63 then Ok (Z.of_N n) else Err (Message "out of range integral type conversion attempted").

Section Publishing.
Context `{ST : StdText, TT : TimeText, SH : Sha256, YX : YaraLib.YaraX}.
Context `{JH : Json Signatures.Header, JR : Json Signatures.RawDatabase}.

(** ** [collect] *)

(** A file at [rel], below the directory of the bundle. *)
Definition collect_file (rel : string) (out : list string) : result PublishError (list string) :=
  if bool_decide (rel = Bundle.MANIFEST_FILE) then Ok out
  else
    _ ← reject_if (negb (Bundle.valid_relative_path rel)) (Message (fmt "{rel:?}: not a valid bundle path" [debug_str rel]));
    _ ← reject_if (MAX_FILES <? vlen (out ++ [rel]))
          (Message (fmt "more than {MAX_FILES} content files" [show_N MAX_FILES]));
    Ok (out ++ [rel]).

Definition skipped_name (name : string) : bool := str_starts_with name "." || str_ends_with name ".minisig".

(** [prefix] is the path from the root to [t], empty or ending in a slash. *)
Fixpoint collect (prefix : string) (t : tree) (out : list string) : result PublishError (list string) :=
  match t with
  | DirT (Err e) => Err (Message e)
  | DirT (Ok entries) =>
      (fix go (es : list (result string (string * result string tree))) (out : list string) :=
         match es with
         | [] => Ok out
         | Err e :: _ => Err (Message e)
         | Ok (name, kind) :: es =>
             out ← match from_utf8 (as_bytes name) with
                   | None => Err (Message "file names must be UTF-8")
                   | Some _ =>
                       if skipped_name name then Ok out
                       else match kind with
                            | Err e => Err (Message e)
                            | Ok t =>
                                match t with
                                | DirT _ => collect (prefix +:+ name +:+ "/")%string t out
                                | FileT => collect_file (prefix +:+ name)%string out
                                | SpecialT =>
                                    Err (Message "symbolic links and special files are not allowed in a bundle")
                                end
                            end
                   end;
             go es out
         end) entries out
  | _ => Ok out
  end.

(** ** [content_kind] *)
Definition NOTICE_NAMES : list string :=
  ["LICENSE"; "LICENCE"; "NOTICE"; "COPYING"; "AUTHORS"; "README"; "SOURCES"]%string.
Definition extension_of (rel : string) : option string := (λ p, to_ascii_lowercase p.2) <$> rsplit_once 46 rel.
Definition is_notice (rel : string) : bool :=
  let base := to_ascii_uppercase (from_option snd rel (rsplit_once 47 rel)) in
  existsb (str_starts_with base) NOTICE_NAMES
  || bool_decide (extension_of rel = Some "txt"%string) || bool_decide (extension_of rel = Some "md"%string).

Definition content_kind (rel : string) (data : bytes) : result PublishError Bundle.ContentKind :=
  if is_notice rel then
    if (2 ^ 20 <? vlen data) || negb (bool_decide (is_Some (from_utf8 data)))
    then Err (Message (fmt "{rel}: notices must be UTF-8 text of at most 1 MiB" [rel]))
    else Ok Bundle.Notice
  else if bool_decide (extension_of rel = Some "json"%string) then
    _ ← map_err (λ e, Message (fmt "{rel}: {e}" [rel; Signatures.error_text e])) (Signatures.db_from_slice data);
    Ok Bundle.HashDatabase
  else if bool_decide (extension_of rel = Some "yar"%string) || bool_decide (extension_of rel = Some "yara"%string) then
    text ← ok_or (from_utf8 data) (Message (fmt "{rel}: not UTF-8" [rel]));
    _ ← map_err (λ e, Message (fmt "{rel}: {e}" [rel; Yara.error_text e]))
          (Yara.compile [Yara.mkSource "check" rel text] None);
    Ok Bundle.YaraRules
  else Err (Message (fmt "{rel}: unknown content file (expected .json hash databases, .yar/.yara rules, or licence/notice text)" [rel])).

(** ** [write_manifest] *)

(** What reading a file below the directory gives; errors are their text. *)
Context (read : string → result string bytes).

Definition flat_byte (b : N) : bool := is_ascii_alphanumeric b || (b =? 46) || (b =? 95) || (b =? 45).
Definition check_flat (flat : bool) (rels : list string) : result PublishError unit :=
  if flat then
    match List.find (λ f, negb (forallb flat_byte (as_bytes f))) rels with
    | Some bad => Err (Message (fmt "{bad}: --flat bundles need file names of [A-Za-z0-9._-] only, with no subdirectories (GitHub release assets have no paths and rename other characters)" [bad]))
    | None => Ok tt
    end
  else Ok tt.

(** The loop over the files: the entry of one. *)
Definition manifest_file (rel : string) : result PublishError Bundle.ManifestFile :=
  data ← map_err Message (read rel);
  _ ← reject_if (Bundle.MAX_CONTENT_FILE_BYTES <? vlen data)
        (Message (fmt "{rel}: larger than the {MAX_CONTENT_FILE_BYTES}-byte limit" [rel; show_N Bundle.MAX_CONTENT_FILE_BYTES]));
  kind ← content_kind rel data;
  Ok (Bundle.mkFile rel kind (vlen data) (sha256 data)).
Fixpoint manifest_files (rels : list string) : result PublishError (list Bundle.ManifestFile) :=
  match rels with
  | [] => Ok []
  | rel :: rels => f ← manifest_file rel; fs ← manifest_files rels; Ok (f :: fs)
  end.

(** The manifest and the octets of manifest.json, which replace the old file
    when writing and renaming the temporary file succeed. *)
Definition write_manifest `{JsonPretty Bundle.Manifest} (exists_already : bool) (t : tree) (now : Z)
    (written : result string unit) (name : string) (sequence expires_in : N) (force : bool)
    (revoke_keys : list string) (flat : bool) : result PublishError (Bundle.Manifest * bytes) :=
  _ ← reject_if (exists_already && negb force) (Message "manifest.json already exists; use --force to replace it");
  let now := whole_seconds now in
  days ← as_i64 expires_in;
  let m := Bundle.new name sequence now (now + dur_days days) in
  rels ← collect "" t [];
  let rels := sort_by cmp_str rels in
  _ ← check_flat flat rels;
  files ← manifest_files rels;
  let m := Bundle.mkManifest (Bundle.format m) (Bundle.format_version m) (Bundle.name m) (Bundle.sequence m)
             (Bundle.issued m) (Bundle.expires m) files (to_ascii_uppercase <$> revoke_keys) in
  _ ← map_err ManifestErr (Bundle.validate m);
  json ← map_err Message (to_vec_pretty m);
  _ ← map_err Message written;
  Ok (m, json ++ [10]).

(** ** [write_timestamp] *)
Definition write_timestamp `{Json Bundle.Manifest, JsonPretty Freshness.Timestamp} (data : result string bytes) (now : Z)
    (written : result string unit) (version expires_in : N) : result PublishError (Freshness.Timestamp * bytes) :=
  data ← map_err Message data;
  m ← map_err Message (from_slice data);
  _ ← map_err ManifestErr (Bundle.validate m);
  let now := whole_seconds now in
  hours ← as_i64 expires_in;
  let ts := Freshness.mkTimestamp Freshness.TIMESTAMP_FORMAT 1 version (Bundle.name m) (Bundle.sequence m)
              (sha256 data) (vlen data) now (now + dur_hours hours) in
  _ ← map_err TimestampErr (Freshness.validate ts now);
  json ← map_err Message (to_vec_pretty ts);
  _ ← map_err Message written;
  Ok (ts, json ++ [10]).
End Publishing.

(** ** Hash lists *)

(** The first word of a line, without the quotes around it. *)
Definition is_quote (c : N) : bool := c =? 34.
Fixpoint drop_quotes (l : list N) : list N :=
  match l with c :: r => if is_quote c then drop_quotes r else l | [] => [] end.
Definition hash_token (line : list N) : string :=
  of_chars (reverse (drop_quotes (reverse (drop_quotes (default [] (head (split_whitespace line))))))).
Definition is_hash (token : string) : bool := (len token =? 64) && forallb is_ascii_hexdigit (as_bytes token).

(** The hashes, lower case, and the number of lines that were none. *)
Definition hash_line (acc : gset string * N) (line : list N) : gset string * N :=
  let line := trim line in
  if bool_decide (line = []) || bool_decide (head line = Some 35) then acc
  else let token := hash_token line in
       if is_hash token then ({[to_ascii_lowercase token]} ∪ acc.1, acc.2) else (acc.1, acc.2 + 1).
Definition parse_hash_list (text : list N) : gset string * N := foldl hash_line (∅, 0) (lines text).

Record HashImport := mkImport {
  db_name : string;
  db_version : string;
  detection_name : string;
  id_prefix : string;
  category : string;
  severity : string;
  license : string;
  description : option string }.

(** [text] reduced to letters, digits, dots and hyphens, at most 48. *)
Definition id_char (c : N) : N := if is_ascii_alphanumeric c || (c =? 46) then c else 45.
Definition is_edge (c : N) : bool := (c =? 45) || (c =? 46).
Fixpoint drop_edges (l : list N) : list N :=
  match l with c :: r => if is_edge c then drop_edges r else l | [] => [] end.
Definition id_part (text : string) : string :=
  of_chars (reverse (drop_edges (reverse (drop_edges (take 48 (id_char <$> chars text)))))).

(** [&hash[..16]] of a hash of 64 hexadecimal digits. *)
Definition first16 (hash : string) : string := of_bytes (take 16 (as_bytes hash)).
Definition id_and_name (hash group : string) (m : HashImport) : string * string :=
  let group := id_part group in
  if bool_decide (group = ""%string) then (fmt "{}-{}" [id_prefix m; first16 hash], detection_name m)
  else (fmt "{}-{group}-{}" [id_prefix m; group; first16 hash], fmt "{}.{group}" [detection_name m; group]).

(** The JSON document that [hash_database] builds. *)
Record DocSignature := mkDocSignature {
  doc_id : string; doc_name : string; doc_sha256 : string; doc_category : string; doc_severity : string;
  doc_rule_version : N }.
Record Doc := mkDoc {
  doc_database_name : string; doc_version : string; doc_license : string; doc_description : option string;
  doc_signatures : list DocSignature }.

(** A [BTreeMap<String, _>] as the list of its entries in order. *)
Definition entries {A} (m : gmap string A) : list (string * A) := sort_by (λ a b, cmp_str a.1 b.1) (map_to_list m).

Section Importing.
Context `{ST : StdText, TT : TimeText, SH : Sha256, YX : YaraLib.YaraX}.
Context `{JH : Json Signatures.Header, JR : Json Signatures.RawDatabase, JD : JsonPretty Doc}.

Definition hash_database (hashes : gmap string string) (m : HashImport) : result PublishError bytes :=
  let signature e := let '(i, n) := id_and_name e.1 e.2 m in mkDocSignature i n e.1 (category m) (severity m) 1 in
  data ← map_err Message (to_vec_pretty (mkDoc (db_name m) (db_version m) (license m) (description m)
                                           (signature <$> entries hashes)));
  _ ← map_err (λ e, Message (fmt "the result would not load: {e}" [Signatures.error_text e])) (Signatures.db_from_slice data);
  Ok data.

(** ** Rule files *)
Inductive Vetted := Accepted | Rejected (reason : string).
Definition first_line (s : string) : string := of_chars (default [] (head (lines (chars s)))).
Definition vet_yara (name text : string) : Vetted :=
  match Yara.compile [Yara.mkSource "vet" name text] None with
  | Ok d => if Yara.rule_count d =? 0 then Rejected "no rules" else Accepted
  | Err e => Rejected (first_line (Yara.error_text e))
  end.

(** ** The clean corpus *)

(** [Scanner::scan] of a validated configuration, the number of processors,
    and [serde_json::to_string] of a target. *)
Context (scan : Config.ScanConfig → list Content.Detector → result string Report.ScanReport)
  (parallelism : option N) (target_json : Finding.FindingTarget → string).

Definition matched_file (t : Finding.FindingTarget) : string :=
  match t with Finding.File p _ _ => ObservedPath.text p | other => target_json other end.
Definition clean_matches (dets : list Content.Detector) (corpus : list path) : result PublishError (list (string * string)) :=
  let c := Config.new corpus parallelism in
  let c := Config.mkScanConfig (Config.roots c) (Config.excludes c) Config.Follow (Config.same_file_system c)
             (Config.limits c) (Config.workers c) in
  _ ← map_err (λ _, Message "invalid scan configuration") (Config.validate c);
  r ← map_err (λ e, Message (fmt "clean corpus scan failed: {e}" [e])) (scan c dets);
  _ ← reject_if (Report.files_scanned (Report.stats r) =? 0) (Message "the clean corpus contains no files");
  Ok ((λ f, (default ""%string (Finding.rule_id (Finding.source f)), matched_file (Finding.target f))) <$> Report.findings r).

(** The loop of [drop_clean_hashes] over the matches. *)
Fixpoint drop_matches (by_id : gmap string string) (ms : list (string * string)) (hashes : gmap string string)
    (dropped : list (string * string)) : gmap string string * list (string * string) :=
  match ms with
  | [] => (hashes, dropped)
  | (i, file) :: ms =>
      match by_id !! i with
      | Some h =>
          if bool_decide (is_Some (hashes !! h)) then drop_matches by_id ms (delete h hashes) (dropped ++ [(h, file)])
          else drop_matches by_id ms hashes dropped
      | None => drop_matches by_id ms hashes dropped
      end
  end.
Definition drop_clean_hashes (hashes : gmap string string) (m : HashImport) (corpus : list path)
    : result PublishError (gmap string string * list (string * string)) :=
  data ← hash_database hashes m;
  db ← map_err (λ e, Message (Signatures.error_text e)) (Signatures.db_from_slice data);
  let by_id := foldl (λ acc e, <[(id_and_name e.1 e.2 m).1 := e.1]> acc) ∅ (entries hashes) in
  ms ← clean_matches [Content.HashDb (Signatures.new db)] corpus;
  Ok (drop_matches by_id ms hashes []).

(** *** [import_hashes] *)

(** What a list's metadata and content give; errors are their text. *)
Context (size : path → result string N) (read_list : path → result string bytes).
Definition MAX_HASH_LIST_BYTES : N := 2 ^ 28.
Definition list_group (by_directory : bool) (p : path) : result PublishError string :=
  if by_directory then
    let dir := default ""%string (display <$> (parent p ≫= file_name)) in
    _ ← reject_if (bool_decide (id_part dir = ""%string))
          (Message (fmt "{}: its directory name cannot name detections" [display p]));
    Ok dir
  else Ok ""%string.
(** The first list naming a hash gives its group. *)
Definition add_list (all : gmap string string) (group : string) (hs : gset string) : gmap string string :=
  all ∪ set_to_map (λ h, (h, group)) hs.
Fixpoint gather_hashes (by_directory : bool) (lists : list path) (all : gmap string string) (rejected : N)
    : result PublishError (gmap string string * N) :=
  match lists with
  | [] => Ok (all, rejected)
  | p :: lists =>
      n ← map_err Message (size p);
      _ ← reject_if (MAX_HASH_LIST_BYTES <? n)
            (Message (fmt "{}: larger than {MAX_HASH_LIST_BYTES} bytes" [display p; show_N MAX_HASH_LIST_BYTES]));
      group ← list_group by_directory p;
      data ← map_err Message (read_list p);
      let '(hs, bad) := parse_hash_list (decode_lossy data) in
      gather_hashes by_directory lists (add_list all group hs) (rejected + bad)
  end.
Definition import_hashes (by_directory : bool) (lists : list path) (corpus : list path) (m : HashImport) : result PublishError bytes :=
  '(all, _) ← gather_hashes by_directory lists ∅ 0;
  _ ← reject_if (bool_decide (all = ∅)) (Message "no SHA-256 values found");
  all ← (if bool_decide (corpus = []) then Ok all
         else '(all, _) ← drop_clean_hashes all m corpus;
              _ ← reject_if (bool_decide (all = ∅)) (Message "every hash matched the clean corpus");
              Ok all);
  hash_database all m.

(** *** [import_yara] *)

(** The rules of all candidates together, each in a namespace of its own, over
    the clean corpus: the first match of each candidate. *)
Definition candidate_of (rule : string) : option (nat * string) :=
  '(ns, ident) ← Chars.split_at (λ c, c =? 58) (as_bytes rule);
  match ns with
  | 102 :: n => n ← parse_u64 n; Some (N.to_nat n, of_bytes ident)
  | _ => None
  end.
Fixpoint first_matches (ms : list (string * string)) (out : gmap nat string) : gmap nat string :=
  match ms with
  | [] => out
  | (rule, file) :: ms =>
      first_matches ms
        match candidate_of rule with
        | Some (i, ident) =>
            match out !! i with
            | Some _ => out
            | None => <[i := fmt "rule {ident} matched clean file {file}" [ident; file]]> out
            end
        | None => out
        end
  end.
Definition clean_rule_matches (fs : list (string * string)) (corpus : list path) : result PublishError (gmap nat string) :=
  let sources := imap (λ i f, Yara.mkSource (fmt "f{i}" [show_N (N.of_nat i)]) f.1 f.2) fs in
  det ← map_err (λ e, Message (Yara.error_text e)) (Yara.compile sources None);
  ms ← clean_matches [Content.Rules det] corpus;
  Ok (first_matches ms ∅).

(** [excluded]: the lines of the list of names to skip. *)
Definition excluded_names (text : list N) : gset string :=
  list_to_set (of_chars <$> List.filter (λ l, negb (bool_decide (l = [])) && negb (bool_decide (head l = Some 35)))
                              (trim <$> lines text)).

(** The loop over the files: what each is worth, and the names taken. *)
Definition vet_file (excluded names : gset string) (prefix : string) (p : path)
    : result string (string * string) * gset string :=
  match file_name p ≫= (λ n, from_utf8 (as_bytes n)) with
  | None => (Err "file name is not UTF-8"%string, names)
  | Some name =>
      let out := (prefix +:+ name)%string in
      if bool_decide (name ∈ excluded) then (Err "excluded"%string, names)
      else if negb (Bundle.valid_relative_path out) || contains_byte 47 out
      then (Err "not a valid bundle file name"%string, names)
      else if bool_decide (out ∈ names) then (Err "another file has the same name"%string, names)
      else
        (data ← read_list p;
         _ ← reject_if (Bundle.MAX_CONTENT_FILE_BYTES <? vlen data) "too large"%string;
         text ← ok_or (from_utf8 data) "not UTF-8"%string;
         match vet_yara name text with Accepted => Ok (out, text) | Rejected r => Err r end,
         {[out]} ∪ names)
  end.
Fixpoint vet_files (excluded names : gset string) (prefix : string) (ps : list path)
    : list (string * string) :=
  match ps with
  | [] => []
  | p :: ps =>
      let '(r, names) := vet_file excluded names prefix p in
      match r with
      | Ok c => c :: vet_files excluded names prefix ps
      | Err _ => vet_files excluded names prefix ps
      end
  end.

(** The candidates that are copied, given the files found. *)
Definition import_yara (ps : list path) (excluded : gset string) (prefix : string) (corpus : list path)
    : result PublishError (list (string * string)) :=
  let candidates := vet_files excluded ∅ prefix ps in
  candidates ← (if bool_decide (corpus = []) || bool_decide (candidates = []) then Ok candidates
                else
                  bad ← clean_rule_matches candidates corpus;
                  Ok (snd <$> List.filter (λ e : nat * (string * string), negb (bool_decide (is_Some (bad !! e.1))))
                                (imap (λ i c, (i, c)) candidates)));
  _ ← reject_if (bool_decide (candidates = [])) (Message "no rule files were accepted");
  Ok candidates.
End Importing.
End Publish.
