(* ===== verification/PublishProps.v ===== *)
(** * What is published can be used

    A directory that [write_manifest] accepts is a bundle that clients load,
    and the timestamp [write_timestamp] writes is one that they accept for it. *)

From S2P Require Import Prelude Utf8 Paths Core External Trust Bundle Disk ContentState Fsio Archive Scanner Signatures Heuristics Aggregate Chars Update Yara YaraProps LoadContent LoadContentProps Publish.

(** serde_json allows white space after the value. *)
Class JsonNewline (A : Type) `{Json A} : Prop :=
  from_slice_newline bs (a : A) : from_slice bs = Ok a → from_slice (bs ++ [10]) = Ok a.

Module PublishLaws.
Import Publish.

(** ** The files of a directory *)

(** [rel] is the path of a regular file below [t], all names on the way kept. *)
Inductive has_file : string → tree → string → Prop :=
  | file_here prefix es name : Ok (name, Ok FileT) ∈ es → skipped_name name = false →
      (prefix +:+ name)%string ≠ Bundle.MANIFEST_FILE → has_file prefix (DirT (Ok es)) (prefix +:+ name)
  | file_below prefix es name t rel : Ok (name, Ok t) ∈ es → skipped_name name = false →
      has_file (prefix +:+ name +:+ "/") t rel → has_file prefix (DirT (Ok es)) rel.

Section Induction.
Context (P : tree → Prop) (Hf : P FileT) (Hs : P SpecialT) (He : ∀ e, P (DirT (Err e)))
  (Hd : ∀ es, (∀ name t, Ok (name, Ok t) ∈ es → P t) → P (DirT (Ok es))).
Fixpoint tree_induction (t : tree) : P t :=
  match t with
  | FileT => Hf
  | SpecialT => Hs
  | DirT (Err e) => He e
  | DirT (Ok es) => Hd es
      ((fix go (es : list (result string (string * result string tree))) : ∀ name t, Ok (name, Ok t) ∈ es → P t :=
          match es with
          | [] => λ name t H, False_ind _ (proj1 (elem_of_nil _) H)
          | e :: es => λ name t H,
              match proj1 (elem_of_cons _ _ _) H with
              | or_introl E => match e as e return Ok (name, Ok t) = e → P t with
                               | Ok (n, Ok t') => λ E, eq_ind t' P (tree_induction t') t (eq_sym (f_equal
                                   (λ x, match x with Ok (_, Ok t) => t | _ => t end) E))
                               | _ => λ E, ltac:(discriminate E)
                               end E
              | or_intror H => go es name t H
              end
          end) es)
  end.
End Induction.

Section Collecting.
Context `{ST : StdText}.

(** What one entry contributes. *)
Definition entry_files (prefix : string) (e : result string (string * result string tree)) (rel : string) : Prop :=
  match e with
  | Ok (name, Ok t) => skipped_name name = false ∧
      match t with
      | FileT => (prefix +:+ name)%string ≠ Bundle.MANIFEST_FILE ∧ rel = (prefix +:+ name)%string
      | _ => has_file (prefix +:+ name +:+ "/") t rel
      end
  | _ => False
  end.
Lemma has_file_entries prefix es rel : has_file prefix (DirT (Ok es)) rel ↔ ∃ e, e ∈ es ∧ entry_files prefix e rel.
Proof.
  split.
  - inversion 1; subst; [by eexists (Ok (name, Ok FileT))|]. exists (Ok (name, Ok t)). split; [done|]. split; [done|].
    destruct t; [|done..]. by match goal with H : has_file _ FileT _ |- _ => inversion H end.
  - intros ([[name [t|e]]|e] & Hin & He); [|done..]. destruct He as [Hs He].
    destruct t as [|r|]; [destruct He as [Hn ->]; by eapply file_here|by eapply file_below|by inversion He].
Qed.

Lemma collect_file_Ok rel out out' : collect_file rel out = Ok out' →
  (rel = Bundle.MANIFEST_FILE ∧ out' = out) ∨ (rel ≠ Bundle.MANIFEST_FILE ∧ out' = out ++ [rel]).
Proof. unfold collect_file. case_bool_decide; intros H'; inv_result; subst; auto. Qed.

(** [collect] lists exactly those files. *)
Lemma collect_exact t prefix out out' : collect prefix t out = Ok out' →
  ∃ new, out' = out ++ new ∧ ∀ rel, rel ∈ new ↔ has_file prefix t rel.
Proof.
  revert prefix out out'. induction t as [| |e|es IH] using tree_induction; intros prefix out out' H.
  - injection H as <-. exists []. rewrite app_nil_r. split; [done|]. intros rel. split; [by intros ?%elem_of_nil|]. by inversion 1.
  - injection H as <-. exists []. rewrite app_nil_r. split; [done|]. intros rel. split; [by intros ?%elem_of_nil|]. by inversion 1.
  - done.
  - setoid_rewrite has_file_entries. simpl in H. revert out H. induction es as [|e es IHes]; intros out H; simpl in H.
    { injection H as <-. exists []. rewrite app_nil_r. split; [done|]. intros rel. split; [by intros ?%elem_of_nil|].
      by intros (? & ?%elem_of_nil & _). }
    destruct e as [[name kind]|e]; [|done]. apply result_bind_Ok in H as (out1 & H1 & H).
    apply IHes in H as (new & -> & Hnew); [|intros n t Hin; apply (IH n t); by right].
    assert (∃ new1, out1 = out ++ new1 ∧ ∀ rel, rel ∈ new1 ↔ entry_files prefix (Ok (name, kind)) rel) as (new1 & -> & Hnew1).
    { destruct (from_utf8 (as_bytes name)); [|done]. simpl. destruct (skipped_name name).
      { injection H1 as <-. exists []. rewrite app_nil_r. split; [done|]. intros rel. split; [by intros ?%elem_of_nil|].
        destruct kind; [by intros [? _]|done]. }
      destruct kind as [t|]; [|done]. destruct t as [|r|]; [| |done].
      - apply collect_file_Ok in H1 as [[Hm ->]|[Hm ->]].
        + exists []. rewrite app_nil_r. split; [done|]. intros rel. split; [by intros ?%elem_of_nil|]. by intros (_ & ? & _).
        + eexists. split; [done|]. intros rel. rewrite list_elem_of_singleton. naive_solver.
      - eapply (IH name) in H1; [|by left]. destruct H1 as (new1 & -> & Hn). exists new1. split; [done|].
        intros rel. rewrite Hn. naive_solver. }
    exists (new1 ++ new). rewrite app_assoc. split; [done|]. intros rel. rewrite elem_of_app, Hnew1, Hnew.
    setoid_rewrite elem_of_cons. naive_solver.
Qed.
End Collecting.

(** ** Manifests *)
Section Manifests.
Context `{ST : StdText, TT : TimeText, SH : Sha256, YX : YaraLib.YaraX}.
Context `{JH : Json Signatures.Header, JR : Json Signatures.RawDatabase}.
Context (read : string → result string bytes).

(** The entry of a file says what was read of it. *)
Record describes (e : Bundle.ManifestFile) (data : bytes) : Prop := {
  de_read : read (Bundle.file_path e) = Ok data;
  de_size : Bundle.file_size e = vlen data;
  de_hash : Bundle.file_sha256 e = sha256 data;
  de_kind : content_kind (Bundle.file_path e) data = Ok (Bundle.file_kind e) }.

Lemma manifest_files_Ok rels fs : manifest_files read rels = Ok fs →
  Bundle.file_path <$> fs = rels ∧ Forall (λ e, ∃ data, describes e data) fs.
Proof.
  revert fs. induction rels as [|rel rels IH]; intros fs H; simpl in H; inv_result; subst; [by split|].
  match goal with H : manifest_files _ _ = _ |- _ => apply IH in H as [<- Hfs] end.
  match goal with H : manifest_file _ _ = _ |- _ => unfold manifest_file in H; inv_result; subst end.
  split; [done|]. constructor; [|done]. by eexists.
Qed.

(** The client reads a described file back. *)
Lemma described_read root e data : describes e data → root (Bundle.file_path e) = Ok (data, None) →
  Bundle.file_size e ≤ Bundle.MAX_CONTENT_FILE_BYTES → Bundle.read_listed root e = Ok data.
Proof.
  intros [_ Hs Hh _] Hr Hm. unfold Bundle.read_listed. rewrite Hr. csimpl.
  assert (saturating_add64 (Bundle.file_size e) 1 = vlen data + 1) as ->.
  { unfold saturating_add64. rewrite Hs in *. unfold Bundle.MAX_CONTENT_FILE_BYTES, u64_max in *. lia. }
  assert (take (N.to_nat (vlen data + 1)) data = data) as -> by (apply take_ge; unfold vlen; lia).
  rewrite Hs, Hh, N.eqb_refl, bool_decide_eq_true_2 by done. by destruct (_ <? _).
Qed.
Lemma described_read_files root es : Forall (λ e, ∃ data, describes e data) es →
  Forall (λ e, Bundle.file_size e ≤ Bundle.MAX_CONTENT_FILE_BYTES) es →
  (∀ rel data, read rel = Ok data → root rel = Ok (data, None)) →
  ∃ fs, Bundle.read_files root es = Ok fs ∧
    Forall2 (λ e f, Bundle.content_path f = Bundle.file_path e ∧ Bundle.content_kind f = Bundle.file_kind e ∧
      describes e (Bundle.content f)) es fs.
Proof.
  intros Hd Hs Hr. induction Hd as [|e es (data & He) _ IH]; simpl; [by exists []|].
  apply Forall_cons in Hs as [Hm Hs]. destruct (IH Hs) as (fs & Hf & HF).
  rewrite (described_read root e data) by (done || apply Hr, He). simpl. rewrite Hf. simpl.
  eexists. split; [done|]. by constructor.
Qed.

Context `{JM : Json Bundle.Manifest, JP : JsonPretty Bundle.Manifest}.

Lemma write_manifest_Ok ex t now w name s exp force revs flat m octets :
  write_manifest read ex t now w name s exp force revs flat = Ok (m, octets) →
  Bundle.well_formed m ∧ Bundle.name m = name ∧ Bundle.sequence m = s ∧
  Bundle.expires m = (Bundle.issued m + dur_days (Z.of_N exp))%Z ∧
  (∀ rel, rel ∈ Bundle.file_path <$> Bundle.files m ↔ has_file "" t rel) ∧
  Forall (λ e, ∃ data, describes e data) (Bundle.files m) ∧
  ∃ json, to_vec_pretty m = Ok json ∧ octets = json ++ [10].
Proof.
  unfold write_manifest. intros H. inv_result.
  subst. simpl in *.
  match goal with H : collect _ _ _ = _ |- _ => apply collect_exact in H as (new & -> & Hnew) end.
  match goal with H : manifest_files _ _ = _ |- _ => apply manifest_files_Ok in H as [Hp Hd] end.
  match goal with H : Bundle.validate _ = _ |- _ => apply Bundle.manifest_spec in H as Hwf end.
  match goal with H : as_i64 _ = _ |- _ => unfold as_i64 in H; destruct (exp <? 2 ^ 63); inv_result; subst end.
  split_and!; [done..| |done|by eexists].
  intros rel. rewrite Hp, sort_by_perm. simpl. apply Hnew.
Qed.
End Manifests.
End PublishLaws.

(** ** Properties *)
Module PublishProps.
Import Publish PublishLaws.

Section Props.
Context `{MS : Minisign, ST : StdText, TT : TimeText, SH : Sha256, YX : YaraLib.YaraX}.
Context `{JH : Json Signatures.Header, JR : Json Signatures.RawDatabase}.
Context `{JM : Json Bundle.Manifest, JP : JsonPretty Bundle.Manifest, JPL : !JsonPrettyLaws Bundle.Manifest,
  JN : !JsonNewline Bundle.Manifest}.

(** C37: what is published loads. The manifest that [write_manifest] writes
    lists exactly the regular files of the directory whose names, and those
    of the directories above them, are kept. Once it is signed as the client
    demands, has not expired and is no larger than the client's limit, the
    client that sees the same files loads the bundle: with that manifest, and
    each file as it was read, under the kind it was checked for. *)
Theorem published_bundle_loads read ex t at_ w name s exp force revs flat m octets fs od d ks opts found root
    (Hw : write_manifest read ex t at_ w name s exp force revs flat = Ok (m, octets))
    (Hf : fs (join d Bundle.MANIFEST_FILE) = Ok (Trust.mkSource octets None))
    (Hsize : vlen octets ≤ Bundle.MAX_MANIFEST_BYTES)
    (Hks : Trust.is_empty ks = false)
    (Hsig : Bundle.verify_signatures fs d (join d Bundle.MANIFEST_FILE) octets ks (Bundle.now opts) = Ok found)
    (Hlive : (Bundle.now opts ≤ Bundle.expires m)%Z)
    (Hroot : od d = Ok root) (Hsame : ∀ rel data, read rel = Ok data → root rel = Ok (data, None)) :
  (∀ rel, rel ∈ Bundle.file_path <$> Bundle.files m ↔ has_file "" t rel) ∧
  ∃ b, Bundle.load_bundle fs od d ks opts = Ok b ∧ Bundle.manifest b = m ∧ Bundle.signers b = found ∧
    Bundle.expired b = false ∧
    Forall2 (λ e f, Bundle.content_path f = Bundle.file_path e ∧ Bundle.content_kind f = Bundle.file_kind e ∧
      describes read e (Bundle.content f)) (Bundle.files m) (Bundle.contents b).
Proof.
  apply write_manifest_Ok in Hw as (Hwf & _ & _ & _ & Hfiles & Hd & json & Hj & ->). split; [done|].
  destruct (described_read_files read root (Bundle.files m) Hd) as (cs & Hcs & HF); [|done|].
  { eapply Forall_impl; [apply Bundle.wf_files, Hwf|]. by intros e [_ ?]. }
  exists (Bundle.mkVerified d m (sha256 (json ++ [10])) found false cs). split; [|by split_and!].
  unfold Bundle.load_bundle. rewrite Hks. csimpl. unfold Trust.read_bounded. rewrite Hf. csimpl.
  rewrite (proj2 (N.leb_le _ _)) by done. csimpl. rewrite Hsig. csimpl.
  rewrite (from_slice_newline _ m) by by apply from_slice_to_vec_pretty. csimpl.
  rewrite (proj2 (Bundle.manifest_spec m tt) Hwf). csimpl.
  rewrite (proj2 (Z.ltb_ge _ _)) by done. csimpl. rewrite Hroot. csimpl. by rewrite Hcs.
Qed.

Context `{JT : Json Freshness.Timestamp, JTP : JsonPretty Freshness.Timestamp, JTL : !JsonPrettyLaws Freshness.Timestamp,
  JTN : !JsonNewline Freshness.Timestamp}.

(** C38: what is published is accepted as an update. The timestamp that
    [write_timestamp] writes for a manifest is accepted by every client on
    which a key of the timestamp role verifies it, whose clock is not more
    than ten minutes behind the publisher's and has not reached its expiry;
    and the client then takes exactly that manifest for the one it names. *)
Theorem published_timestamp_accepted data at_ w v hours ts octets sig ks now allow i c
    (Hw : write_timestamp (Ok data) at_ w v hours = Ok (ts, octets))
    (Hsize : vlen octets ≤ Freshness.MAX_TIMESTAMP_BYTES)
    (Hsig : Trust.verify_role ks octets sig Freshness.TIMESTAMP_FILE now Trust.Timestamp = Ok (i, c))
    (Hclock : (at_ ≤ now + Freshness.CLOCK_SKEW)%Z) (Hlive : (now ≤ Freshness.expires ts)%Z) :
  Freshness.verify_timestamp octets sig ks now allow = Ok (Freshness.mkVerified ts i (sha256 octets)) ∧
  ∃ m, from_slice data = Ok m ∧ Update.check_manifest ts data = Ok m ∧ Freshness.version ts = v ∧
    Freshness.expires ts = (Freshness.issued ts + dur_hours (Z.of_N hours))%Z.
Proof.
  unfold write_timestamp in Hw. inv_result. subst.
  match goal with H : as_i64 _ = _ |- _ => unfold as_i64 in H; destruct (hours <? 2 ^ 63); inv_result; subst end.
  match goal with H : Freshness.validate ?t _ = _, J : to_vec_pretty ?t = Ok ?j |- _ =>
    set (ts := t) in *; set (json := j) in *; rename H into Hv; rename J into Hj end.
  assert (Hread : from_slice (json ++ [10]) = Ok ts) by by apply from_slice_newline, from_slice_to_vec_pretty.
  assert (Hissued : (whole_seconds at_ ≤ at_)%Z).
  { unfold whole_seconds, nanos_per_sec. pose proof (Z.mul_div_le at_ 1000000000). lia. }
  apply Freshness.timestamp_spec in Hv as [Hfo Hn Hb Hsz Hl _].
  assert (Freshness.sound ts now) as Hsound by (split; [done..|]; simpl; lia).
  split.
  - unfold Freshness.verify_timestamp. rewrite (proj2 (N.ltb_ge _ _)) by done. csimpl. rewrite Hsig. csimpl.
    rewrite Hread. csimpl. rewrite (proj2 (Freshness.timestamp_spec ts now tt) Hsound). csimpl.
    rewrite (proj2 (Z.ltb_ge _ _)) by done. done.
  - eexists. split; [done|]. split; [|by split]. unfold Update.check_manifest. simpl.
    rewrite N.eqb_refl, bool_decide_eq_true_2 by done. simpl.
    match goal with H : from_slice ?d = Ok ?m, J : Bundle.validate ?m = _ |- _ => rewrite H; simpl; rewrite J; simpl end.
    by rewrite bool_decide_eq_true_2, N.eqb_refl by done.
Qed.
End Props.

(** *** What escapes the checks *)

(** A rule file whose name starts like that of a licence text, in any case, is
    published as a notice: clients do not load its rules. *)
Theorem rule_file_taken_for_notice `{ST : StdText, TT : TimeText, SH : Sha256, YX : YaraLib.YaraX,
    JH : Json Signatures.Header, JR : Json Signatures.RawDatabase} data
    (Hs : vlen data ≤ 2 ^ 20) (Hu : is_Some (from_utf8 data)) :
  content_kind "rules/source_code_stealer.yar" data ≠ Ok Bundle.Notice ∧
  content_kind "rules/sources_stealer.yar" data = Ok Bundle.Notice.
Proof.
  split; unfold content_kind.
  - assert (is_notice "rules/source_code_stealer.yar" = false) as -> by reflexivity.
    intros H. destruct (bool_decide _); [by inv_result|]. destruct (_ || _); [|done]. by inv_result.
  - assert (is_notice "rules/sources_stealer.yar" = true) as -> by reflexivity.
    rewrite (proj2 (N.ltb_ge _ _)) by done. by rewrite bool_decide_eq_true_2.
Qed.

(** *** Imported hashes *)
Section Importing.
Context `{ST : StdText, TT : TimeText, SH : Sha256, YX : YaraLib.YaraX}.
Context `{JH : Json Signatures.Header, JR : Json Signatures.RawDatabase, JD : JsonPretty Doc}.
Context (scan : Config.ScanConfig → list Content.Detector → result string Report.ScanReport)
  (parallelism : option N) (target_json : Finding.FindingTarget → string)
  (size : path → result string N) (read_list : path → result string bytes).

Lemma hash_line_sound acc line h : h ∈ (hash_line acc line).1 → h ∈ acc.1 ∨
  ∃ token, is_hash token = true ∧ h = to_ascii_lowercase token.
Proof.
  unfold hash_line. destruct (_ || _); [by left|]. destruct (is_hash _) eqn:E; simpl; [|by left].
  intros [->%elem_of_singleton|H]%elem_of_union; [right; by eexists|by left].
Qed.
Lemma parse_hash_list_sound text h : h ∈ (parse_hash_list text).1 → ∃ token, is_hash token = true ∧ h = to_ascii_lowercase token.
Proof.
  unfold parse_hash_list. assert (∀ ls acc, h ∈ (foldl hash_line acc ls).1 → h ∈ acc.1 ∨
    ∃ token, is_hash token = true ∧ h = to_ascii_lowercase token) as Hg.
  { induction ls as [|l ls IH]; intros acc H; [by left|]. destruct (IH _ H) as [H'|]; [|by right].
    by apply hash_line_sound in H'. }
  intros [?%elem_of_empty|?]%Hg; done.
Qed.
Lemma gather_hashes_listed by_directory lists all n all' n' :
  gather_hashes size read_list by_directory lists all n = Ok (all', n') →
  ∀ h, is_Some (all' !! h) → is_Some (all !! h) ∨
    ∃ p data, p ∈ lists ∧ read_list p = Ok data ∧ h ∈ (parse_hash_list (decode_lossy data)).1.
Proof.
  revert all n. induction lists as [|p lists IH]; intros all n H h Hh; simpl in H; inv_result; [by simplify_eq; left|].
  destruct (parse_hash_list _) as [hs bad] eqn:Ep. destruct (IH _ _ H h Hh) as [[g Hg]|(q & data & Hq & ?)];
    [|right; exists q, data; split; [by right|done]].
  unfold add_list in Hg. apply lookup_union_Some_raw in Hg as [Hg|[_ Hg]]; [by left|]. right.
  apply lookup_set_to_map in Hg as (h' & Hh' & [= -> ->]); [|by intros ? ? _ _ [= ]].
  eexists p, _. split; [by left|]. split; [done|]. by rewrite Ep.
Qed.
Lemma drop_matches_fewer by_id ms hashes dropped h :
  is_Some ((drop_matches by_id ms hashes dropped).1 !! h) → is_Some (hashes !! h) ∧
  ∀ i file, (i, file) ∈ ms → by_id !! i ≠ Some h.
Proof.
  revert hashes dropped. induction ms as [|[i file] ms IH]; intros hashes dropped H; simpl in H.
  { split; [done|]. by intros ? ? ?%elem_of_nil. }
  destruct (by_id !! i) as [h'|] eqn:Ei.
  - destruct (bool_decide (is_Some (hashes !! h'))) eqn:Eb; apply IH in H as [H Hn].
    + rewrite lookup_delete_is_Some in H. destruct H as [Hne H]. split; [done|].
      intros j f [[= -> ->]|Hin]%elem_of_cons; [rewrite Ei; congruence|by eapply Hn].
    + split; [done|]. intros j f [[= -> ->]|Hin]%elem_of_cons; [|by eapply Hn].
      rewrite Ei. intros [= ->]. by apply bool_decide_eq_false_1 in Eb.
  - apply IH in H as [H Hn]. split; [done|]. intros j f [[= -> ->]|Hin]%elem_of_cons; [by rewrite Ei|by eapply Hn].
Qed.

(** A database that [import_hashes] writes loads, and is made of hashes that a
    list names: 64 hexadecimal digits each, in lower case. *)
Theorem imported_hashes_listed by_directory lists corpus m data
    (H : import_hashes scan parallelism target_json size read_list by_directory lists corpus m = Ok data) :
  (∃ db, Signatures.db_from_slice data = Ok db) ∧ ∃ hashes, hash_database hashes m = Ok data ∧ hashes ≠ ∅ ∧
    ∀ h, is_Some (hashes !! h) →
      (∃ token, is_hash token = true ∧ h = to_ascii_lowercase token) ∧
      ∃ p content, p ∈ lists ∧ read_list p = Ok content ∧ h ∈ (parse_hash_list (decode_lossy content)).1.
Proof.
  unfold import_hashes in H. apply result_bind_Ok in H as ([all n] & Hg & H).
  apply result_bind_Ok in H as (u & He & H). apply result_bind_Ok in H as (all' & Hd & H).
  split; [unfold hash_database in H; inv_result; subst; by eexists|]. exists all'. split; [done|].
  apply reject_if_Ok, bool_decide_eq_false in He.
  assert (all' ≠ ∅ ∧ ∀ h, is_Some (all' !! h) → is_Some (all !! h)) as [Hne Hsub].
  { destruct (bool_decide (corpus = [])); [by injection Hd as <-|].
    apply result_bind_Ok in Hd as ([a2 dropped] & Hdrop & Hd). inv_result. subst. split.
    { match goal with E : bool_decide (_ = ∅) = false |- _ => exact (bool_decide_eq_false_1 _ E) end. }
    unfold drop_clean_hashes in Hdrop. inv_result.
    match goal with H : drop_matches ?b ?ms all [] = _ |- _ => intros h Hh;
      apply (drop_matches_fewer b ms all [] h); by rewrite H end. }
  split; [done|]. intros h Hh%Hsub. destruct (gather_hashes_listed _ _ _ _ _ _ Hg h Hh) as [[? ?]|(p & c & Hp & Hr & Hin)]; [done|].
  split; [by eapply parse_hash_list_sound|]. by exists p, c.
Qed.
End Importing.

(** ** Instances *)
#[local] Existing Instance Bundle.ContentKind_eq_dec.
#[local] Instance ManifestFile_eq_dec : EqDecision Bundle.ManifestFile.
Proof. solve_decision. Defined.
#[local] Instance Manifest_eq_dec : EqDecision Bundle.Manifest.
Proof. solve_decision. Defined.
#[local] Instance Timestamp_eq_dec : EqDecision Freshness.Timestamp.
Proof. solve_decision. Defined.

(** A codec that knows one value, written as one octet; white space after it
    is passed over. *)
Fixpoint strip_newlines (l : list N) : list N :=
  match l with c :: r => if c =? 10 then strip_newlines r else l | [] => [] end.
Definition only_json {A} (code : N) (a : A) : Json A := {|
  to_vec _ := Err "not written"%string;
  from_slice bs := if bool_decide (reverse (strip_newlines (reverse bs)) = [code]) then Ok a else Err "no such value"%string |}.
Definition only_pretty {A} `{EqDecision A} (code : N) (a : A) : JsonPretty A :=
  λ b, if bool_decide (b = a) then Ok [code] else Err "another value"%string.
Lemma only_newline {A} code (a : A) : JsonNewline (H := only_json code a) A.
Proof. intros bs b H. simpl in *. rewrite reverse_snoc. exact H. Qed.
Lemma only_laws {A} `{EqDecision A} code (a : A) (Hc : code ≠ 10) :
  JsonPrettyLaws (H := only_json code a) (H0 := only_pretty code a) A.
Proof.
  intros b bs. unfold to_vec_pretty, only_pretty. simpl. case_bool_decide as E; [|done]. intros [= <-].
  assert (reverse (strip_newlines (reverse [code])) = [code]) as -> by (simpl; by rewrite (proj2 (N.eqb_neq _ _))).
  by rewrite E, bool_decide_eq_true_2.
Qed.

Section Samples.
#[local] Existing Instances toy_text toy_time Toy.sha TrustProps.toy_minisign YaraProps.toy_yara
  SignatureProps.header_json SignatureProps.raw_json.

(** A rule file, a licence and something hidden. *)
Definition sample_tree : tree :=
  DirT (Ok [Ok ("a.yar", Ok FileT); Ok (".git", Ok (DirT (Err "denied"))); Ok ("LICENSE", Ok FileT);
            Ok ("manifest.json.minisig", Ok FileT)])%string.
Definition sample_read (rel : string) : result string bytes :=
  if bool_decide (rel = "a.yar"%string) then Ok (as_bytes "Dropper")
  else if bool_decide (rel = "LICENSE"%string) then Ok (as_bytes "MIT") else Err "missing"%string.
Definition rule_sha : Sha256Digest := Eval vm_compute in Toy.digest (as_bytes "Dropper").
Definition licence_sha : Sha256Digest := Eval vm_compute in Toy.digest (as_bytes "MIT").
Definition sample_manifest : Bundle.Manifest :=
  Eval vm_compute in Bundle.mkManifest Bundle.MANIFEST_FORMAT 1 "official" 7 0 (dur_days 30)
    [Bundle.mkFile "LICENSE" Bundle.Notice 3 licence_sha; Bundle.mkFile "a.yar" Bundle.YaraRules 7 rule_sha] [].
Definition manifest_json : Json Bundle.Manifest := only_json 1 sample_manifest.
Definition manifest_pretty : JsonPretty Bundle.Manifest := only_pretty 1 sample_manifest.
#[local] Existing Instances manifest_json manifest_pretty.

Definition signed_files : Trust.Files := λ p,
  if bool_decide (p = "c/manifest.json"%string) then Ok (Trust.mkSource [1; 10] None)
  else if bool_decide (p = "c/manifest.json.minisig"%string)
  then Ok (Trust.mkSource (as_bytes TrustProps.key_a ++ [1; 10]) None) else Err (Os 2).
Definition served (_ : path) : result string Bundle.Dir := Ok (λ rel, map_ok (λ data, (data, None)) (sample_read rel)).

Lemma published_bundle_loads_witness :
  (∀ rel, rel ∈ ["LICENSE"; "a.yar"]%string ↔ has_file "" sample_tree rel) ∧
  ∃ b, Bundle.load_bundle signed_files served "c" TrustProps.with_a (Bundle.mkOptions false 90) = Ok b ∧
    Bundle.manifest b = sample_manifest ∧ Bundle.signers b = [TrustProps.id_a] ∧ Bundle.expired b = false ∧
    Forall2 (λ e f, Bundle.content_path f = Bundle.file_path e ∧ Bundle.content_kind f = Bundle.file_kind e ∧
      describes sample_read e (Bundle.content f)) (Bundle.files sample_manifest) (Bundle.contents b).
Proof.
  apply (published_bundle_loads (JPL := only_laws 1 sample_manifest ltac:(done)) (JN := only_newline 1 sample_manifest)
    sample_read false sample_tree 50 (Ok tt) "official" 7 30 false [] true sample_manifest [1; 10] signed_files served
    "c" TrustProps.with_a (Bundle.mkOptions false 90) [TrustProps.id_a]
    (λ rel, map_ok (λ data, (data, None)) (sample_read rel))).
  - vm_compute. reflexivity.
  - reflexivity.
  - vm_compute. discriminate.
  - reflexivity.
  - vm_compute. reflexivity.
  - vm_compute. discriminate.
  - reflexivity.
  - intros rel data Hr. by rewrite Hr.
Defined.

Definition sample_timestamp : Freshness.Timestamp :=
  Eval vm_compute in Freshness.mkTimestamp Freshness.TIMESTAMP_FORMAT 1 3 "official" 7 (Toy.digest [1; 10]) 2 0 (dur_hours 72).
Definition timestamp_json : Json Freshness.Timestamp := only_json 2 sample_timestamp.
Definition timestamp_pretty : JsonPretty Freshness.Timestamp := only_pretty 2 sample_timestamp.
#[local] Existing Instances timestamp_json timestamp_pretty.

Lemma published_timestamp_accepted_witness :
  Freshness.verify_timestamp [2; 10] (TrustProps.key_a +:+ of_bytes [2; 10]) StateProps.ts_key 50 false =
    Ok (Freshness.mkVerified sample_timestamp TrustProps.id_a (sha256 [2; 10])) ∧
  ∃ m, from_slice [1; 10] = Ok m ∧ Update.check_manifest sample_timestamp [1; 10] = Ok m ∧
    Freshness.version sample_timestamp = 3 ∧
    Freshness.expires sample_timestamp = (Freshness.issued sample_timestamp + dur_hours 72)%Z.
Proof.
  apply (published_timestamp_accepted (JTL := only_laws 2 sample_timestamp ltac:(done))
    (JTN := only_newline 2 sample_timestamp) [1; 10] 50 (Ok tt) 3 72 sample_timestamp [2; 10]
    (TrustProps.key_a +:+ of_bytes [2; 10])%string StateProps.ts_key 50 false TrustProps.id_a "comment").
  - vm_compute. reflexivity.
  - vm_compute. discriminate.
  - vm_compute. reflexivity.
  - vm_compute. discriminate.
  - vm_compute. discriminate.
Defined.
End Samples.
End PublishProps.
